(* ===== verification/_CoqProject ===== *)
-Q . S2P
Prelude.v
Collections.v
Limits.v
Resources.v
Scope.v
Ledger.v
ConnLimiter.v
Rcmgr.v
Retarget.v
RefCount.v
RcmgrInv.v
RcmgrOps.v
RcmgrGc.v
RcmgrWorld.v
ScopeNames.v
GoBytes.v
Varint.v
MaProtocol.v
MaComponent.v
MaCodec.v
MaOps.v
GoNet.v
GoBase.v
Transcoders.v
TranscoderLaws.v
MaProtocols.v
DialLimiter.v
Bitmask.v
BlsRpc.v
MessageCache.v
Router.v
RouterLaws.v
Heartbeat.v
HeartbeatLaws.v
RouterInv.v
RouterRun.v
RouterFrame.v
RouterExample.v
TimeCache.v
GossipTracer.v
PeerBackoff.v
SubFilter.v
Validation.v
SeqnoValidator.v
PubSub.v
PubSubInv.v
PubSubRun.v
ScoreParams.v
Score.v
ScoreInv.v
KadQuery.v
KadQueryInv.v
KadQueryRun.v
Relay.v
RelayInv.v
RelayRun.v
RelayCopy.v
Manet.v
Madns.v
Reachability.v
ReachabilityRun.v
AutoNatServer.v
AutoNatClient.v
ObservedAddrs.v
ObservedRun.v
DialRank.v
DialRankLaws.v
DialWorker.v
SwarmDial.v
DialWorkerRun.v
DialSync.v
SwarmConns.v
SwarmConnsRun.v
ConnMgr.v
ConnMgrInv.v
ConnMgrRun.v
GoHeap.v
AddrBook.v
AddrBookInv.v
AddrBookRun.v
