(* ===== verification/Prelude.v ===== *)
(** * go-libp2p-stack: a verification development

    The repository is a stack for peer-to-peer networks in Go.  This library
    models the parts of it that keep state and decide, and proves what makes
    them correct.  Every definition translates the function, method or type of
    the same name; definitions with another name carry in their comment the part
    of the code they stand for.

    ** The program and the files

    _Resource manager_ (go-libp2p/p2p/host/resource-manager).  Every connection
    and stream is a scope with limits; scopes form a DAG in which a reservation
    is charged to all ancestors.
    - Limits.v: limits, their defaults, scaling and configuration (limit.go, limit_defaults.go)
    - Resources.v: the counters of a scope, with int64 wrap-around (scope.go, [resources])
    - Scope.v, Ledger.v: scopes, spans and the DAG (scope.go, [resourceScope]); the
      counters as sums of a ledger of reservations
    - ConnLimiter.v: connections per prefix (conn_limiter.go)
    - Rcmgr.v with Retarget.v, RefCount.v, RcmgrInv.v, RcmgrOps.v, RcmgrGc.v, RcmgrWorld.v:
      the manager (rcmgr.go, extapi.go), its invariant, and its executions
    - ScopeNames.v: the names by which scopes are told apart

    _Multiaddresses_ (go-multiaddr, go-multiaddr-dns).
    - GoBytes.v, GoNet.v, GoBase.v: the functions of Go's library that the code uses
    - Varint.v, MaProtocol.v, MaComponent.v, MaCodec.v, MaOps.v: the codec and the operations
    - Transcoders.v, TranscoderLaws.v, MaProtocols.v: the transcoders, their laws as an
      instance of the class of lawful transcoders, and the table of protocols
    - Manet.v: public, private and other classes of addresses (net/ip.go, net/private.go)
    - Madns.v: the resolution of DNS addresses (resolve.go, util.go), and the recursion
      over dnsaddr records of the swarm

    _Swarm_ (go-libp2p/p2p/net/swarm).  A dial resolves and filters addresses, ranks
    them, and shares a worker with the other callers that dial the peer.
    - DialLimiter.v: tokens of dials (limiter.go)
    - DialRank.v, DialRankLaws.v: the order and delays of dials, and their queue
      (dial_ranker.go, dial_worker.go)
    - DialWorker.v, DialWorkerRun.v: the worker that dials for all requests (dial_worker.go)
    - SwarmDial.v: resolving and filtering the addresses of a peer (swarm_dial.go); the
      class [MultiaddrDNSResolver] is what it asks of the resolver, Madns.v has the instance
    - DialSync.v: backoff and shared dials (swarm_dial.go, dial_sync.go)
    - SwarmConns.v, SwarmConnsRun.v: connections, streams, references and connectedness
      events (swarm.go, swarm_conn.go, swarm_stream.go, connectedness_event_emitter.go)

    _Relay, connection manager, peer store_ (go-libp2p).
    - Relay.v, RelayInv.v, RelayRun.v, RelayCopy.v: the circuit relay (p2p/protocol/circuitv2/relay)
    - ConnMgr.v, ConnMgrInv.v, ConnMgrRun.v: tags, decay and trimming (p2p/net/connmgr)
    - GoHeap.v, AddrBook.v, AddrBookInv.v, AddrBookRun.v: addresses with expiry
      (p2p/host/peerstore/pstoremem/addr_book.go)

    _Our own addresses_ (go-libp2p).  Observers propose addresses; the tracker finds
    out by AutoNAT which of them can be reached.
    - ObservedAddrs.v, ObservedRun.v: observed addresses (p2p/host/observedaddrs/manager.go)
    - Reachability.v, ReachabilityRun.v: probes and the tracker of reachability
      (p2p/host/basic/addrs_reachability_tracker.go)
    - AutoNatServer.v, AutoNatClient.v: AutoNAT v2 (p2p/protocol/autonatv2); the client
      gives the results that the tracker records

    _BlossomSub_ (go-libp2p-blossomsub), a publish-subscribe protocol on bitmasks.
    - Bitmask.v, BlsRpc.v, MessageCache.v: bitmasks, RPC envelopes, the cache of messages
    - Router.v, RouterLaws.v, Heartbeat.v, HeartbeatLaws.v, RouterInv.v, RouterRun.v,
      RouterFrame.v, RouterExample.v: the router (blossomsub.go) and its heartbeat
    - TimeCache.v, GossipTracer.v, PeerBackoff.v, SubFilter.v, SeqnoValidator.v: seen
      messages, promises, dead peers, subscription filters, sequence numbers
    - Validation.v, PubSub.v, PubSubInv.v, PubSubRun.v: validation and the event loop
    - ScoreParams.v, Score.v, ScoreInv.v: the peer score

    _Kademlia_ (go-libp2p-kad-dht).
    - KadQuery.v, KadQueryInv.v, KadQueryRun.v: the lookup of the closest peers

    Prelude.v and Collections.v have what the files share: machine integers, sums over
    lists and maps, sorting, tactics and hints.

    ** How the code is modelled

    State is a record per component, passed explicitly; a method is a function
    from the state (and the time, where it reads the clock) to the new state and
    its result.  A panic or an error is [None] or a constructor of a result type.
    [int64] and [int32] are [Z] with the wrap-around written out (module [Int64]);
    times and durations are [Z] in nanoseconds.  Byte strings are lists of bytes,
    and nil slices are empty ones.  Maps are [gmap], and where a range over a map
    has an effect that depends on the order, the order is a parameter.  The
    floating-point numbers of the score are the [spec_float] of binary64, with
    every operation rounded.  Scopes of the resource manager live in a store
    and refer to each other by address, as the pointers of the code do.  A method
    that releases its lock is cut there; goroutines and timers are steps of a
    relation, whose executions are lists of steps in any order.

    Code that is not in the repository is a parameter: the varints, multihashes
    and multicodecs of the multiformats packages, [slices.SortFunc], [sort.Slice]
    and [sort.Sort] (classes [SortSlice], [Sorter], [GoSort]: a permutation that is
    sorted), SHA-256, [asnutil.AsnForIPv6], the distance of go-libp2p-kbucket,
    protobuf sizes, the limiter of rates, [dns.Fqdn] and the lookups of names.
    Transports, gater and metadata store are parameters of the components that call
    them.  The answers of the network, of validators, of the score and of random
    generators, and the choice that a range over a map makes, are oracles ([env],
    [venv], [psEnv], [scoreEnv], [trimEnv], [evict]) or arguments of the steps;
    theorems hold for all of them.

    ** What the theorems show

    - The counters of the resource manager are at all times the sums of what open
      objects hold, within every limit, and nothing leaks; refused operations
      change nothing; garbage collection keeps what is in use.  Three uses are
      excluded: reservations near 2^63, where a counter under the limit [MaxInt64]
      wraps; a second [SetPeer] after a failed transfer out of the allowlist, which
      miscounts; and a limit set below what a scope already holds.
    - Multiaddresses survive the round trip through bytes and text, and parsing
      always returns.
    - Dials hold exactly the tokens of the limiter, and it drains.
    - The mesh of BlossomSub respects backoffs and its bounds; messages are
      delivered once; caches, promises and event logs refine their abstract
      books; nothing panics.
    - Scores panic exactly on a zero quantum, which validation lets through, and
      their index of addresses is exact.
    - Lookups are safe, terminate and return the closest peers.
    - The dial worker dials an address once, answers every request once and comes to
      rest; the backoff of an address follows the failures that are remembered, as
      long as its formula does not overflow; when nothing is under way the last
      connectedness event of every peer is true, and a closed swarm has waited for
      all its connections.
    - Observers are counted exactly.  A refresh of the reachability ends for every
      interleaving of its workers, and the tracker publishes a partition of its
      addresses.  The AutoNAT server keeps its limits in every minute and dials
      another IP only after it has received data; the client believes in a public
      address only when its nonce came back.
    - Once a sequence number of a peer is stored only greater ones are accepted.
    - The relay holds what its circuits need and no more, until [Close] ends its
      scope, and copies a prefix
      within the limit; the connection manager is well formed and trims the least
      valuable peers; the address book keeps a heap, which garbage collection
      empties of what has expired.
    - Lemmas about concrete states record where the code departs from its
      documentation or intention (for instance [refused_refresh_overbooks],
      [inactive_tag_never_expires], [downgraded_never_collected],
      [nat_events_swapped], [short_seqno_panics], [failed_put_replays],
      [backoff_overflow], [complete_after_close_panics], [dial_back_error_never_public]).

    ** Fuel and bounds

    Loops without a structural measure carry fuel, and lemmas show that it
    suffices: the splitting of RPCs ([split_keeps_items]), the parser
    ([parsing_returns]), the heap ([GoHeap]: at most the length of the heap), the
    copy loop ([readFuel]: one round for every piece and byte), garbage
    collection of addresses (one round for every entry of the heap), sending dial
    data ([sendLoop]: a round for every byte, [dial_data_roundtrip] shows that all
    is sent).  The queue of dials is searched at most once along its length, and the
    recursion over dnsaddr records has the limit of the code.

    ** Steps that are atomic here and not in the code

    [openConnection], [SetPeer], [OpenStream], [SetProtocol] and [SetService] of the
    resource manager release and take locks between their calls on scopes; a trim of
    the connection manager does so between collecting, sorting and selecting; the
    handler of a dial-back between the lookup of the channel and the send.  The
    streams that the relay copies are finite lists of pieces, so a source that
    returns no byte and no error for ever is not expressible.  The reachability
    tracker reads its results only between steps of the workers, and its client
    reports a cancellation only of a context that has ended.

    ** Not modelled

    Transports, security and stream muxers, identify, NAT mapping, HTTP and pnet
    (protocol I/O around third-party libraries); AutoNAT v1, the relay finder and
    hole punching; the event bus; metrics, traces and generated protobuf code; the
    options that only set fields; hosts and their assembly; listeners and metrics of
    the swarm; key, protocol and datastore books of the peer store; provider records,
    routing tables and value stores of the DHT; discovery, peer gater, tag tracer,
    RPC queues and tracing of BlossomSub.  Interleavings inside a trim of the
    connection manager and the signatures of envelopes and vouchers are left out. *)
From Stdlib Require Import ZArith Lia.
From stdpp Require Import base tactics list numbers option gmap strings pretty.

(** ** Machine integers

    Go's [int64], and [int] on the 64-bit platforms the stack targets, are
    kept as [Z] with the wrap-around of two's complement written out. *)
Module Int64.
Local Open Scope Z_scope.

Definition MaxInt64 : Z := 2 ^ 63 - 1.
Definition MinInt64 : Z := - 2 ^ 63.

(** The value an [int64] holds after an operation with the exact result [z]. *)
Definition wrap64 (z : Z) : Z := (z + 2 ^ 63) mod 2 ^ 64 - 2 ^ 63.

Definition add64 (a b : Z) : Z := wrap64 (a + b).
Definition sub64 (a b : Z) : Z := wrap64 (a - b).
Definition mul64 (a b : Z) : Z := wrap64 (a * b).
(** Go's integer division truncates toward zero. *)
Definition quot64 (a b : Z) : Z := wrap64 (Z.quot a b).

(** The values that fit the type. *)
Definition is_int64 (z : Z) : Prop := MinInt64 <= z <= MaxInt64.

Lemma wrap64_small z : is_int64 z -> wrap64 z = z.
Proof.
  unfold is_int64, wrap64, MinInt64, MaxInt64. intros H.
  rewrite Z.mod_small; lia.
Qed.

Lemma wrap64_int64 z : is_int64 (wrap64 z).
Proof.
  unfold is_int64, wrap64, MinInt64, MaxInt64.
  pose proof (Z.mod_pos_bound (z + 2 ^ 63) (2 ^ 64) ltac:(lia)). lia.
Qed.

(** [wrap64 z] differs from [z] by a multiple of [2^64]. *)
Lemma wrap64_eq z : exists k, wrap64 z = z + k * 2 ^ 64.
Proof.
  unfold wrap64. exists (- ((z + 2 ^ 63) / 2 ^ 64)).
  pose proof (Z.div_mod (z + 2 ^ 63) (2 ^ 64) ltac:(lia)). lia.
Qed.

Lemma wrap64_wrap_add a b : wrap64 (wrap64 a + b) = wrap64 (a + b).
Proof.
  destruct (wrap64_eq a) as [k ->]. unfold wrap64.
  replace (a + k * 2 ^ 64 + b + 2 ^ 63) with (a + b + 2 ^ 63 + k * 2 ^ 64) by lia.
  now rewrite Z_mod_plus_full.
Qed.

(** Subtracting what was added gives the value back, wrap-around or not. *)
Lemma sub64_add64 a b : is_int64 a -> sub64 (add64 a b) b = a.
Proof.
  intros Ha. unfold sub64, add64.
  replace (wrap64 (a + b) - b) with (wrap64 (a + b) + - b) by lia.
  rewrite wrap64_wrap_add. replace (a + b + - b) with a by lia.
  now apply wrap64_small.
Qed.

Lemma add64_small a b : is_int64 (a + b) -> add64 a b = a + b.
Proof. apply wrap64_small. Qed.

Lemma sub64_small a b : is_int64 (a - b) -> sub64 a b = a - b.
Proof. apply wrap64_small. Qed.

Lemma is_int64_iff z : is_int64 z <-> MinInt64 <= z <= MaxInt64.
Proof. reflexivity. Qed.
End Int64.

(** [time.Second]: durations are in nanoseconds *)
Definition Second : Z := (10 ^ 9)%Z.

Create HintDb golibp2p.
#[export] Hint Resolve Int64.wrap64_int64 Int64.sub64_add64 : golibp2p.
Create Rewrite HintDb int64.
#[export] Hint Rewrite Int64.wrap64_wrap_add : int64.

(** [int64_lia] unfolds the ranges and closes linear goals about them. *)
Ltac int64_unfold :=
  unfold Int64.is_int64, Int64.MinInt64, Int64.MaxInt64 in *.
Ltac int64_lia := int64_unfold; lia.

(** Case analysis on the test of an [if] in the goal or a hypothesis, keeping
    the boolean equation as a proposition on [Z]. *)
Ltac zcase :=
  match goal with
  | |- context [if Z.ltb ?a ?b then _ else _] => destruct (Z.ltb_spec a b)
  | |- context [if Z.leb ?a ?b then _ else _] => destruct (Z.leb_spec a b)
  | |- context [if Z.eqb ?a ?b then _ else _] => destruct (Z.eqb_spec a b)
  | H : context [if Z.ltb ?a ?b then _ else _] |- _ => destruct (Z.ltb_spec a b)
  | H : context [if Z.leb ?a ?b then _ else _] |- _ => destruct (Z.leb_spec a b)
  | H : context [if Z.eqb ?a ?b then _ else _] |- _ => destruct (Z.eqb_spec a b)
  end.

(** ** Finite sums over lists of indices *)
Section sums.
Context {A : Type}.
Local Open Scope Z_scope.

Definition sumZ (f : A -> Z) (l : list A) : Z := foldr (fun x acc => f x + acc) 0 l.

Lemma sumZ_cons f x l : sumZ f (x :: l) = f x + sumZ f l.
Proof. reflexivity. Qed.

Lemma sumZ_app f l1 l2 : sumZ f (l1 ++ l2) = sumZ f l1 + sumZ f l2.
Proof. induction l1 as [|x l1 IH]; simpl; [lia|]. rewrite IH. lia. Qed.

Lemma sumZ_ext f g l : (forall x, x ∈ l -> f x = g x) -> sumZ f l = sumZ g l.
Proof.
  induction l as [|x l IH]; intros H; simpl; [reflexivity|].
  rewrite H by set_solver. rewrite IH; [reflexivity|]. intros; apply H; set_solver.
Qed.

Lemma sumZ_perm g (l k : list A) : l ≡ₚ k -> sumZ g l = sumZ g k.
Proof. induction 1; simpl; lia. Qed.

Lemma sumZ_add f g l : sumZ (fun x => f x + g x) l = sumZ f l + sumZ g l.
Proof. induction l as [|x l IH]; simpl; [reflexivity|]. rewrite IH. lia. Qed.

Lemma sumZ_sub f g l : sumZ (fun x => f x - g x) l = sumZ f l - sumZ g l.
Proof. induction l as [|x l IH]; simpl; [reflexivity|]. rewrite IH. lia. Qed.

Lemma sumZ_nonneg f l : (forall x, x ∈ l -> 0 <= f x) -> 0 <= sumZ f l.
Proof.
  induction l as [|x l IH]; intros H; simpl; [lia|].
  assert (0 <= f x) by (apply H; set_solver).
  assert (0 <= sumZ f l) by (apply IH; intros; apply H; set_solver). lia.
Qed.

Lemma sumZ_zero f l : (forall x, x ∈ l -> f x = 0) -> sumZ f l = 0.
Proof.
  induction l as [|x l IH]; intros H; simpl; [reflexivity|].
  rewrite H by set_solver. rewrite IH; [reflexivity|]. intros; apply H; set_solver.
Qed.

Lemma sumZ_le f g l : (forall x, x ∈ l -> f x <= g x) -> sumZ f l <= sumZ g l.
Proof.
  induction l as [|x l IH]; intros H; simpl; [lia|].
  assert (f x <= g x) by (apply H; set_solver).
  assert (sumZ f l <= sumZ g l) by (apply IH; intros; apply H; set_solver). lia.
Qed.
End sums.

(** Changing the summand at one index of a duplicate-free list. *)
Lemma sumZ_update {A} `{EqDecision A} (f g : A -> Z) (a : A) (l : list A) :
  NoDup l -> a ∈ l -> (forall x, x ≠ a -> g x = f x) ->
  sumZ g l = (sumZ f l + (g a - f a))%Z.
Proof.
  intros Hnd Ha Hfg. induction Hnd as [|x l Hx Hnd IH]; [set_solver|].
  simpl. destruct (decide (x = a)) as [->|Hne].
  - rewrite (sumZ_ext g f l); [lia|]. intros y Hy. apply Hfg. set_solver.
  - rewrite IH by set_solver. rewrite (Hfg x) by done. lia.
Qed.

(** The single term of a sum of non-negative terms is at most the sum. *)
Lemma sumZ_elem_le {A} (f : A -> Z) (l : list A) (a : A) :
  (forall x, x ∈ l -> 0 <= f x)%Z -> a ∈ l -> (f a <= sumZ f l)%Z.
Proof.
  induction l as [|x l IH]; intros Hnn Ha; [set_solver|]. simpl.
  assert (0 <= f x)%Z by (apply Hnn; set_solver).
  assert (0 <= sumZ f l)%Z by (apply sumZ_nonneg; intros; apply Hnn; set_solver).
  apply elem_of_cons in Ha as [->|Ha]; [lia|].
  assert (f a <= sumZ f l)%Z by (apply IH; [intros; apply Hnn; set_solver|done]). lia.
Qed.

(** Two filters that agree on the elements of a list. *)
(** A loop whose body may fail *)
Fixpoint foldlM {A B} (f : B -> A -> option B) (b : B) (l : list A) : option B :=
  match l with [] => Some b | a :: l => b ← f b a; foldlM f b l end.

Lemma filter_all {A} (P : A -> Prop) `{forall x, Decision (P x)} (l : list A) :
  (forall x, x ∈ l -> P x) -> filter P l = l.
Proof.
  induction l as [|x l IH]; intros HP; [done|].
  rewrite filter_cons_True by (apply HP; set_solver). f_equal. apply IH. set_solver.
Qed.
Lemma filter_ext_in {A} (P Q : A -> Prop) `{forall x, Decision (P x)} `{forall x, Decision (Q x)}
    (l : list A) :
  (forall x, x ∈ l -> P x <-> Q x) -> filter P l = filter Q l.
Proof.
  induction l as [|x l IH]; intros HPQ; [done|].
  rewrite !filter_cons, IH by set_solver.
  destruct (HPQ x ltac:(set_solver)). destruct (decide (P x)), (decide (Q x)); tauto.
Qed.
