(* ===== verification/Collections.v ===== *)
(** * Sums over maps and the sorting functions of Go

    [sumMap] adds up the values of a map.  [sortFunc] is [slices.SortFunc], and
    [sort.Slice] and [sort.Sort] in terms of it: a parameter with the law of its
    documentation, which [mergeSort] satisfies. *)
From Stdlib Require Import ZArith Lia.
From stdpp Require Import base tactics list numbers option gmap fin_maps sorting.
From S2P Require Import Prelude.
Local Open Scope Z_scope.

(** Changing one element of a list *)
Lemma sumZ_insert {A} (f : A -> Z) (l : list A) i x y : l !! i = Some x -> sumZ f (<[i := y]> l) = sumZ f l + f y - f x.
Proof.
  intros E. pose proof (lookup_lt_Some _ _ _ E) as L. rewrite insert_take_drop by done. rewrite <-(take_drop_middle l i x E) at 3.
  rewrite !sumZ_app, !sumZ_cons. lia.
Qed.

(** ** Sums over maps *)
Section sums.
Context `{Countable K} {A : Type} (f : K -> A -> Z).
Definition sumMapK (m : gmap K A) : Z := sumZ (fun kx => f kx.1 kx.2) (map_to_list m).
Lemma sumMapK_empty : sumMapK ∅ = 0.
Proof. unfold sumMapK. by rewrite map_to_list_empty. Qed.
Lemma sumMapK_insert_new m k x : m !! k = None -> sumMapK (<[k := x]> m) = f k x + sumMapK m.
Proof. intros Hk. unfold sumMapK. by rewrite (sumZ_perm _ _ _ (map_to_list_insert m k x Hk)). Qed.
Lemma sumMapK_delete m k : sumMapK (delete k m) = sumMapK m - default 0 (f k <$> m !! k).
Proof.
  destruct (m !! k) as [x|] eqn:E; simpl; [|rewrite delete_id by done; lia].
  rewrite <-(insert_delete_id m k x E) at 2. rewrite sumMapK_insert_new by apply lookup_delete_eq. lia.
Qed.
Lemma sumMapK_insert m k x : sumMapK (<[k := x]> m) = sumMapK m + f k x - default 0 (f k <$> m !! k).
Proof. rewrite <-insert_delete_eq, sumMapK_insert_new, sumMapK_delete by apply lookup_delete_eq. lia. Qed.
Lemma sumMapK_nonneg m : (forall k x, 0 <= f k x) -> 0 <= sumMapK m.
Proof. intros Hf. apply sumZ_nonneg. intros [k x] _. apply Hf. Qed.
(** One entry is at most the sum. *)
Lemma sumMapK_lookup m k x : (forall k x, 0 <= f k x) -> m !! k = Some x -> f k x <= sumMapK m.
Proof.
  intros Hf Hk. pose proof (sumMapK_delete m k) as E. rewrite Hk in E. simpl in E. pose proof (sumMapK_nonneg (delete k m) Hf). lia.
Qed.
End sums.
(** Counting the entries with a property *)
Lemma sumMapK_count `{Countable K} {A} (P : K * A -> Prop) `{!forall x, Decision (P x)} (m : gmap K A) :
  sumMapK (fun k x => if decide (P (k, x)) then 1 else 0) m = Z.of_nat (size (filter P m)).
Proof.
  induction m as [|k x m Hk IH] using map_ind; [by rewrite sumMapK_empty, map_filter_empty|].
  rewrite sumMapK_insert_new, IH by done. destruct (decide (P (k, x))) as [HP|HP].
  - rewrite map_filter_insert_True, map_size_insert_None by (done || apply map_lookup_filter_None; by left). lia.
  - rewrite map_filter_insert_False, delete_id by done. lia.
Qed.

(** The key does not matter *)
Section values.
Context `{Countable K} {A : Type} (f : A -> Z).
Definition sumMap (m : gmap K A) : Z := sumMapK (fun _ => f) m.
Lemma sumMap_empty : sumMap ∅ = 0.
Proof. apply sumMapK_empty. Qed.
Lemma sumMap_insert_new m k x : m !! k = None -> sumMap (<[k := x]> m) = f x + sumMap m.
Proof. apply (sumMapK_insert_new (fun _ => f)). Qed.
Lemma sumMap_delete m k : sumMap (delete k m) = sumMap m - default 0 (f <$> m !! k).
Proof. apply (sumMapK_delete (fun _ => f)). Qed.
Lemma sumMap_insert m k x : sumMap (<[k := x]> m) = sumMap m + f x - default 0 (f <$> m !! k).
Proof. apply (sumMapK_insert (fun _ => f)). Qed.
Lemma sumMap_nonneg m : (forall x, 0 <= f x) -> 0 <= sumMap m.
Proof. intros Hf. by apply sumMapK_nonneg. Qed.
End values.
Lemma sumMap_fmap `{Countable K} {A} (f : A -> Z) (g : A -> A) (m : gmap K A) : (forall x, f (g x) = f x) -> sumMap f (g <$> m) = sumMap f m.
Proof.
  intros Hg. unfold sumMap, sumMapK. rewrite map_to_list_fmap. induction (map_to_list m) as [|[k x] l IH]; [done|].
  rewrite fmap_cons, !sumZ_cons, IH. simpl. by rewrite Hg.
Qed.

(** ** Sorting *)
Class GoSort := sortFunc : forall A : Type, (A -> A -> Z) -> list A -> list A.
Arguments sortFunc {_ A} _ _.
(** What the documentation asks of a comparison: signs are opposite, and not greater is transitive. *)
Record comparison {A} (cmp : A -> A -> Z) : Prop := {
  cmp_opp a b : cmp a b < 0 <-> 0 < cmp b a;
  cmp_trans a b c : cmp a b <= 0 -> cmp b c <= 0 -> cmp a c <= 0 }.
Class GoSortLaws (S : GoSort) : Prop := {
  sortFunc_perm A (cmp : A -> A -> Z) l : sortFunc cmp l ≡ₚ l;
  sortFunc_sorted A (cmp : A -> A -> Z) l : comparison cmp -> StronglySorted (fun a b => cmp a b <= 0) (sortFunc cmp l) }.

Definition mergeSort : GoSort := fun A cmp => @merge_sort A (fun a b => cmp a b <= 0) (fun a b => Z_le_dec _ _).
#[export] Instance mergeSort_laws : GoSortLaws mergeSort.
Proof.
  constructor; intros A cmp l; unfold sortFunc, mergeSort; [apply merge_sort_Permutation|]. intros [Ho Ht].
  apply Sorted_StronglySorted; [intros a b c; apply Ht|]. apply Sorted_merge_sort.
  intros a b. destruct (Z_le_gt_dec (cmp a b) 0); [by left|right]. assert (cmp b a < 0) by (apply Ho; lia). lia.
Qed.

(** [sort.Slice] and [sort.Sort] with the function [less] *)
Definition lessCmp {A} (less : A -> A -> bool) (a b : A) : Z := if less a b then -1 else if less b a then 1 else 0.
Definition sortLess `{GoSort} {A} (less : A -> A -> bool) (l : list A) : list A := sortFunc (lessCmp less) l.

(** What a prefix of the sorted list leaves out is not smaller. *)
Lemma sortFunc_prefix `{GoSortLaws} {A} (cmp : A -> A -> Z) l n (C : comparison cmp) a b :
  a ∈ take n (sortFunc cmp l) -> b ∈ drop n (sortFunc cmp l) -> cmp a b <= 0.
Proof.
  intros Ha Hb. pose proof (sortFunc_sorted _ cmp l C) as S. rewrite <-(take_drop n (sortFunc cmp l)) in S.
  exact (StronglySorted_app_1_elem_of _ _ _ _ _ S Ha Hb).
Qed.
