(* ===== verification/Limits.v ===== *)
(** * Resource limits (p2p/host/resource-manager/limit.go, limit_defaults.go)

    The [Limit] interface as a record of getters, [BaseLimit] as its
    implementation, the partial and concrete configurations with [Build] and
    [Apply], the [fixedLimiter] and the scaling of limits to the memory of the
    node.  Go maps are [option (gmap K V)], [None] being the nil map. *)
From Stdlib Require Import ZArith Lia.
From Stdlib Require Import SpecFloat.
From stdpp Require Import base tactics list numbers option gmap strings.
From S2P Require Import Prelude.
Local Open Scope Z_scope.

(** core/network.Direction *)
Inductive Direction := DirUnknown | DirInbound | DirOutbound.

#[export] Instance Direction_eq_dec : EqDecision Direction.
Proof. solve_decision. Defined.

(** [dir == network.DirInbound] *)
Definition isInbound (dir : Direction) : bool := bool_decide (dir = DirInbound).

(** The interface a scope reads its limits through. *)
Record Limit := mkLimit {
  GetMemoryLimit : Z;
  GetStreamLimit : Direction -> Z;
  GetStreamTotalLimit : Z;
  GetConnLimit : Direction -> Z;
  GetConnTotalLimit : Z;
  GetFDLimit : Z }.

Record BaseLimit := mkBaseLimit {
  bl_Streams : Z; bl_StreamsInbound : Z; bl_StreamsOutbound : Z;
  bl_Conns : Z; bl_ConnsInbound : Z; bl_ConnsOutbound : Z;
  bl_FD : Z; bl_Memory : Z }.

(** The methods of [BaseLimit] that make it a [Limit]. *)
Definition BaseLimit_Limit (l : BaseLimit) : Limit := {|
  GetMemoryLimit := bl_Memory l;
  GetStreamLimit dir := if isInbound dir then bl_StreamsInbound l else bl_StreamsOutbound l;
  GetStreamTotalLimit := bl_Streams l;
  GetConnLimit dir := if isInbound dir then bl_ConnsInbound l else bl_ConnsOutbound l;
  GetConnTotalLimit := bl_Conns l;
  GetFDLimit := bl_FD l |}.
Coercion BaseLimit_Limit : BaseLimit >-> Limit.

(** [if x == 0 { x = y }] *)
Definition orDefault (x y : Z) : Z := if x =? 0 then y else x.

Definition BaseLimit_Apply (l l2 : BaseLimit) : BaseLimit := {|
  bl_Streams := orDefault (bl_Streams l) (bl_Streams l2);
  bl_StreamsInbound := orDefault (bl_StreamsInbound l) (bl_StreamsInbound l2);
  bl_StreamsOutbound := orDefault (bl_StreamsOutbound l) (bl_StreamsOutbound l2);
  bl_Conns := orDefault (bl_Conns l) (bl_Conns l2);
  bl_ConnsInbound := orDefault (bl_ConnsInbound l) (bl_ConnsInbound l2);
  bl_ConnsOutbound := orDefault (bl_ConnsOutbound l) (bl_ConnsOutbound l2);
  bl_Memory := orDefault (bl_Memory l) (bl_Memory l2);
  bl_FD := orDefault (bl_FD l) (bl_FD l2) |}.

(** ** Limit values with the markers of the JSON configuration *)
Definition DefaultLimit : Z := 0.
Definition Unlimited : Z := -1.
Definition BlockAllLimit : Z := -2.

(** [LimitVal.Build] and [LimitVal64.Build]: [int] is 64 bits wide, so the two
    have the same body. *)
Definition LimitVal_Build (l defaultVal : Z) : Z :=
  if l =? DefaultLimit then defaultVal
  else if l =? Unlimited then Int64.MaxInt64
  else if l =? BlockAllLimit then 0
  else l.

Definition valueOrBlockAll (n : Z) : Z :=
  if n =? 0 then BlockAllLimit
  else if n =? Int64.MaxInt64 then Unlimited
  else n.

Record ResourceLimits := mkResourceLimits {
  rl_Streams : Z; rl_StreamsInbound : Z; rl_StreamsOutbound : Z;
  rl_Conns : Z; rl_ConnsInbound : Z; rl_ConnsOutbound : Z;
  rl_FD : Z; rl_Memory : Z }.

Definition ToResourceLimits (l : BaseLimit) : ResourceLimits := {|
  rl_Streams := valueOrBlockAll (bl_Streams l);
  rl_StreamsInbound := valueOrBlockAll (bl_StreamsInbound l);
  rl_StreamsOutbound := valueOrBlockAll (bl_StreamsOutbound l);
  rl_Conns := valueOrBlockAll (bl_Conns l);
  rl_ConnsInbound := valueOrBlockAll (bl_ConnsInbound l);
  rl_ConnsOutbound := valueOrBlockAll (bl_ConnsOutbound l);
  rl_FD := valueOrBlockAll (bl_FD l);
  rl_Memory := valueOrBlockAll (bl_Memory l) |}.

Definition ResourceLimits_IsDefault (l : option ResourceLimits) : bool :=
  match l with
  | None => true
  | Some l =>
      (rl_Streams l =? DefaultLimit) && (rl_StreamsInbound l =? DefaultLimit)
      && (rl_StreamsOutbound l =? DefaultLimit) && (rl_Conns l =? DefaultLimit)
      && (rl_ConnsInbound l =? DefaultLimit) && (rl_ConnsOutbound l =? DefaultLimit)
      && (rl_FD l =? DefaultLimit) && (rl_Memory l =? DefaultLimit)
  end.

Definition ToMaybeNilPtr (l : option ResourceLimits) : option ResourceLimits :=
  if ResourceLimits_IsDefault l then None else l.

Definition ResourceLimits_Apply (l l2 : ResourceLimits) : ResourceLimits := {|
  rl_Streams := orDefault (rl_Streams l) (rl_Streams l2);
  rl_StreamsInbound := orDefault (rl_StreamsInbound l) (rl_StreamsInbound l2);
  rl_StreamsOutbound := orDefault (rl_StreamsOutbound l) (rl_StreamsOutbound l2);
  rl_Conns := orDefault (rl_Conns l) (rl_Conns l2);
  rl_ConnsInbound := orDefault (rl_ConnsInbound l) (rl_ConnsInbound l2);
  rl_ConnsOutbound := orDefault (rl_ConnsOutbound l) (rl_ConnsOutbound l2);
  rl_FD := orDefault (rl_FD l) (rl_FD l2);
  rl_Memory := orDefault (rl_Memory l) (rl_Memory l2) |}.

(** The receiver is a pointer: a nil one builds the defaults. *)
Definition ResourceLimits_Build (l : option ResourceLimits) (defaults : Limit) : BaseLimit :=
  match l with
  | None => {|
      bl_Streams := GetStreamTotalLimit defaults;
      bl_StreamsInbound := GetStreamLimit defaults DirInbound;
      bl_StreamsOutbound := GetStreamLimit defaults DirOutbound;
      bl_Conns := GetConnTotalLimit defaults;
      bl_ConnsInbound := GetConnLimit defaults DirInbound;
      bl_ConnsOutbound := GetConnLimit defaults DirOutbound;
      bl_FD := GetFDLimit defaults;
      bl_Memory := GetMemoryLimit defaults |}
  | Some l => {|
      bl_Streams := LimitVal_Build (rl_Streams l) (GetStreamTotalLimit defaults);
      bl_StreamsInbound := LimitVal_Build (rl_StreamsInbound l) (GetStreamLimit defaults DirInbound);
      bl_StreamsOutbound := LimitVal_Build (rl_StreamsOutbound l) (GetStreamLimit defaults DirOutbound);
      bl_Conns := LimitVal_Build (rl_Conns l) (GetConnTotalLimit defaults);
      bl_ConnsInbound := LimitVal_Build (rl_ConnsInbound l) (GetConnLimit defaults DirInbound);
      bl_ConnsOutbound := LimitVal_Build (rl_ConnsOutbound l) (GetConnLimit defaults DirOutbound);
      bl_FD := LimitVal_Build (rl_FD l) (GetFDLimit defaults);
      bl_Memory := LimitVal_Build (rl_Memory l) (GetMemoryLimit defaults) |}
  end.

Arguments ResourceLimits_Build : simpl never.

(** ** Configurations of a whole resource manager *)
Record PartialLimitConfig := mkPartialLimitConfig {
  pc_System : ResourceLimits; pc_Transient : ResourceLimits;
  pc_AllowlistedSystem : ResourceLimits; pc_AllowlistedTransient : ResourceLimits;
  pc_ServiceDefault : ResourceLimits; pc_Service : option (gmap string ResourceLimits);
  pc_ServicePeerDefault : ResourceLimits; pc_ServicePeer : option (gmap string ResourceLimits);
  pc_ProtocolDefault : ResourceLimits; pc_Protocol : option (gmap string ResourceLimits);
  pc_ProtocolPeerDefault : ResourceLimits; pc_ProtocolPeer : option (gmap string ResourceLimits);
  pc_PeerDefault : ResourceLimits; pc_Peer : option (gmap string ResourceLimits);
  pc_Conn : ResourceLimits; pc_Stream : ResourceLimits }.

Record ConcreteLimitConfig := mkConcreteLimitConfig {
  cc_system : BaseLimit; cc_transient : BaseLimit;
  cc_allowlistedSystem : BaseLimit; cc_allowlistedTransient : BaseLimit;
  cc_serviceDefault : BaseLimit; cc_service : option (gmap string BaseLimit);
  cc_servicePeerDefault : BaseLimit; cc_servicePeer : option (gmap string BaseLimit);
  cc_protocolDefault : BaseLimit; cc_protocol : option (gmap string BaseLimit);
  cc_protocolPeerDefault : BaseLimit; cc_protocolPeer : option (gmap string BaseLimit);
  cc_peerDefault : BaseLimit; cc_peer : option (gmap string BaseLimit);
  cc_conn : BaseLimit; cc_stream : BaseLimit }.

(** The contents of a possibly nil map: reading a nil map finds nothing. *)
Definition goMap {V} (m : option (gmap string V)) : gmap string V := default ∅ m.

Definition applyResourceLimitsMap (this other : option (gmap string ResourceLimits))
    (fallbackDefault : ResourceLimits) : option (gmap string ResourceLimits) :=
  let applied := (fun t : gmap string ResourceLimits => map_imap (fun k l =>
    Some (ResourceLimits_Apply l (default fallbackDefault (goMap other !! k)))) t) <$> this in
  match applied, other with
  | None, None => None
  | None, Some o => Some o
  | Some t, _ => Some (t ∪ goMap other)
  end.

Definition PartialLimitConfig_Apply (cfg c : PartialLimitConfig) : PartialLimitConfig :=
  let serviceDefault := ResourceLimits_Apply (pc_ServiceDefault cfg) (pc_ServiceDefault c) in
  let servicePeerDefault := ResourceLimits_Apply (pc_ServicePeerDefault cfg) (pc_ServicePeerDefault c) in
  let protocolDefault := ResourceLimits_Apply (pc_ProtocolDefault cfg) (pc_ProtocolDefault c) in
  let protocolPeerDefault := ResourceLimits_Apply (pc_ProtocolPeerDefault cfg) (pc_ProtocolPeerDefault c) in
  let peerDefault := ResourceLimits_Apply (pc_PeerDefault cfg) (pc_PeerDefault c) in
  {| pc_System := ResourceLimits_Apply (pc_System cfg) (pc_System c);
     pc_Transient := ResourceLimits_Apply (pc_Transient cfg) (pc_Transient c);
     pc_AllowlistedSystem := ResourceLimits_Apply (pc_AllowlistedSystem cfg) (pc_AllowlistedSystem c);
     pc_AllowlistedTransient := ResourceLimits_Apply (pc_AllowlistedTransient cfg) (pc_AllowlistedTransient c);
     pc_ServiceDefault := serviceDefault;
     pc_Service := applyResourceLimitsMap (pc_Service cfg) (pc_Service c) serviceDefault;
     pc_ServicePeerDefault := servicePeerDefault;
     pc_ServicePeer := applyResourceLimitsMap (pc_ServicePeer cfg) (pc_ServicePeer c) servicePeerDefault;
     pc_ProtocolDefault := protocolDefault;
     pc_Protocol := applyResourceLimitsMap (pc_Protocol cfg) (pc_Protocol c) protocolDefault;
     pc_ProtocolPeerDefault := protocolPeerDefault;
     pc_ProtocolPeer := applyResourceLimitsMap (pc_ProtocolPeer cfg) (pc_ProtocolPeer c) protocolPeerDefault;
     pc_PeerDefault := peerDefault;
     pc_Peer := applyResourceLimitsMap (pc_Peer cfg) (pc_Peer c) peerDefault;
     pc_Conn := ResourceLimits_Apply (pc_Conn cfg) (pc_Conn c);
     pc_Stream := ResourceLimits_Apply (pc_Stream cfg) (pc_Stream c) |}.

(** Copies the defaults, then builds every defined entry over the entry of its
    key or, when there is none, over the fallback. *)
Definition buildMapWithDefault (definedLimits : option (gmap string ResourceLimits))
    (defaults : option (gmap string BaseLimit)) (fallbackDefault : BaseLimit)
    : option (gmap string BaseLimit) :=
  match definedLimits, defaults with
  | None, None => None
  | _, _ =>
      let built := map_imap (fun k l =>
        Some (ResourceLimits_Build (Some l) (default fallbackDefault (goMap defaults !! k))))
        (goMap definedLimits) in
      Some (built ∪ goMap defaults)
  end.

Definition PartialLimitConfig_Build (cfg : PartialLimitConfig) (defaults : ConcreteLimitConfig)
    : ConcreteLimitConfig :=
  let serviceDefault := ResourceLimits_Build (Some (pc_ServiceDefault cfg)) (cc_serviceDefault defaults) in
  let servicePeerDefault := ResourceLimits_Build (Some (pc_ServicePeerDefault cfg)) (cc_servicePeerDefault defaults) in
  let protocolDefault := ResourceLimits_Build (Some (pc_ProtocolDefault cfg)) (cc_protocolDefault defaults) in
  let protocolPeerDefault := ResourceLimits_Build (Some (pc_ProtocolPeerDefault cfg)) (cc_protocolPeerDefault defaults) in
  let peerDefault := ResourceLimits_Build (Some (pc_PeerDefault cfg)) (cc_peerDefault defaults) in
  {| cc_system := ResourceLimits_Build (Some (pc_System cfg)) (cc_system defaults);
     cc_transient := ResourceLimits_Build (Some (pc_Transient cfg)) (cc_transient defaults);
     cc_allowlistedSystem := ResourceLimits_Build (Some (pc_AllowlistedSystem cfg)) (cc_allowlistedSystem defaults);
     cc_allowlistedTransient := ResourceLimits_Build (Some (pc_AllowlistedTransient cfg)) (cc_allowlistedTransient defaults);
     cc_serviceDefault := serviceDefault;
     cc_service := buildMapWithDefault (pc_Service cfg) (cc_service defaults) serviceDefault;
     cc_servicePeerDefault := servicePeerDefault;
     cc_servicePeer := buildMapWithDefault (pc_ServicePeer cfg) (cc_servicePeer defaults) servicePeerDefault;
     cc_protocolDefault := protocolDefault;
     cc_protocol := buildMapWithDefault (pc_Protocol cfg) (cc_protocol defaults) protocolDefault;
     cc_protocolPeerDefault := protocolPeerDefault;
     cc_protocolPeer := buildMapWithDefault (pc_ProtocolPeer cfg) (cc_protocolPeer defaults) protocolPeerDefault;
     cc_peerDefault := peerDefault;
     cc_peer := buildMapWithDefault (pc_Peer cfg) (cc_peer defaults) peerDefault;
     cc_conn := ResourceLimits_Build (Some (pc_Conn cfg)) (cc_conn defaults);
     cc_stream := ResourceLimits_Build (Some (pc_Stream cfg)) (cc_stream defaults) |}.

Definition resourceLimitsMapFromBaseLimitMap (m : option (gmap string BaseLimit))
    : option (gmap string ResourceLimits) :=
  (fun m : gmap string BaseLimit => ToResourceLimits <$> m) <$> m.

Definition ToPartialLimitConfig (cfg : ConcreteLimitConfig) : PartialLimitConfig := {|
  pc_System := ToResourceLimits (cc_system cfg);
  pc_Transient := ToResourceLimits (cc_transient cfg);
  pc_AllowlistedSystem := ToResourceLimits (cc_allowlistedSystem cfg);
  pc_AllowlistedTransient := ToResourceLimits (cc_allowlistedTransient cfg);
  pc_ServiceDefault := ToResourceLimits (cc_serviceDefault cfg);
  pc_Service := resourceLimitsMapFromBaseLimitMap (cc_service cfg);
  pc_ServicePeerDefault := ToResourceLimits (cc_servicePeerDefault cfg);
  pc_ServicePeer := resourceLimitsMapFromBaseLimitMap (cc_servicePeer cfg);
  pc_ProtocolDefault := ToResourceLimits (cc_protocolDefault cfg);
  pc_Protocol := resourceLimitsMapFromBaseLimitMap (cc_protocol cfg);
  pc_ProtocolPeerDefault := ToResourceLimits (cc_protocolPeerDefault cfg);
  pc_ProtocolPeer := resourceLimitsMapFromBaseLimitMap (cc_protocolPeer cfg);
  pc_PeerDefault := ToResourceLimits (cc_peerDefault cfg);
  pc_Peer := resourceLimitsMapFromBaseLimitMap (cc_peer cfg);
  pc_Conn := ToResourceLimits (cc_conn cfg);
  pc_Stream := ToResourceLimits (cc_stream cfg) |}.

(** ** The fixed limiter

    [Limiter] is the interface the resource manager asks for limits. *)
Record Limiter := mkLimiter {
  GetSystemLimits : Limit; GetTransientLimits : Limit;
  GetAllowlistedSystemLimits : Limit; GetAllowlistedTransientLimits : Limit;
  GetServiceLimits : string -> Limit; GetServicePeerLimits : string -> Limit;
  GetProtocolLimits : string -> Limit; GetProtocolPeerLimits : string -> Limit;
  GetPeerLimits : string -> Limit;
  GetStreamLimits : string -> Limit; GetConnLimits : Limit }.

Definition NewFixedLimiter (conf : ConcreteLimitConfig) : Limiter := {|
  GetSystemLimits := cc_system conf;
  GetTransientLimits := cc_transient conf;
  GetAllowlistedSystemLimits := cc_allowlistedSystem conf;
  GetAllowlistedTransientLimits := cc_allowlistedTransient conf;
  GetServiceLimits svc := default (cc_serviceDefault conf) (goMap (cc_service conf) !! svc);
  GetServicePeerLimits svc := default (cc_servicePeerDefault conf) (goMap (cc_servicePeer conf) !! svc);
  GetProtocolLimits proto := default (cc_protocolDefault conf) (goMap (cc_protocol conf) !! proto);
  GetProtocolPeerLimits proto := default (cc_protocolPeerDefault conf) (goMap (cc_protocolPeer conf) !! proto);
  GetPeerLimits p := default (cc_peerDefault conf) (goMap (cc_peer conf) !! p);
  GetStreamLimits _ := cc_stream conf;
  GetConnLimits := cc_conn conf |}.

(** ** Scaling limits to the available memory

    [FDFraction] is a [float64]: the IEEE 754 binary64 numbers of the Standard
    Library, with precision 53 and maximal exponent 1024. *)
Record BaseLimitIncrease := mkBaseLimitIncrease {
  bi_Streams : Z; bi_StreamsInbound : Z; bi_StreamsOutbound : Z;
  bi_Conns : Z; bi_ConnsInbound : Z; bi_ConnsOutbound : Z;
  bi_Memory : Z; bi_FDFraction : spec_float }.

(** [float64(n)] *)
Definition float64_of_int (n : Z) : spec_float := binary_normalize 53 1024 n 0 false.

(** [int(f)]: truncation toward zero.  For a value that [int] cannot represent
    the result is implementation dependent; on amd64 it is the minimal integer. *)
Definition int_of_float64 (f : spec_float) : Z :=
  match f with
  | S754_zero _ => 0
  | S754_finite s m e =>
      let mag := if 0 <=? e then Z.pos m * 2 ^ e else Z.pos m / 2 ^ (- e) in
      let v := if s then - mag else mag in
      if (Int64.MinInt64 <=? v) && (v <=? Int64.MaxInt64) then v else Int64.MinInt64
  | _ => Int64.MinInt64
  end.

Definition scale (base : BaseLimit) (inc : BaseLimitIncrease) (memory numFD : Z) : BaseLimit :=
  let mebibytesAvailable := if Z.shiftl 128 20 <? memory then Z.shiftr memory 20 else 0 in
  let grow b i := Int64.add64 b (Z.shiftr (Int64.mul64 i mebibytesAvailable) 10) in
  let fd :=
    if SFltb (S754_zero false) (bi_FDFraction inc) && (0 <? numFD) then
      let fd := int_of_float64 (SFmul 53 1024 (bi_FDFraction inc) (float64_of_int numFD)) in
      if fd <? bl_FD base then bl_FD base else fd
    else bl_FD base in
  {| bl_StreamsInbound := grow (bl_StreamsInbound base) (bi_StreamsInbound inc);
     bl_StreamsOutbound := grow (bl_StreamsOutbound base) (bi_StreamsOutbound inc);
     bl_Streams := grow (bl_Streams base) (bi_Streams inc);
     bl_ConnsInbound := grow (bl_ConnsInbound base) (bi_ConnsInbound inc);
     bl_ConnsOutbound := grow (bl_ConnsOutbound base) (bi_ConnsOutbound inc);
     bl_Conns := grow (bl_Conns base) (bi_Conns inc);
     bl_Memory := grow (bl_Memory base) (bi_Memory inc);
     bl_FD := fd |}.

Record baseLimitConfig := mkbaseLimitConfig {
  blc_BaseLimit : BaseLimit; blc_BaseLimitIncrease : BaseLimitIncrease }.

Record ScalingLimitConfig := mkScalingLimitConfig {
  sc_System : baseLimitConfig; sc_Transient : baseLimitConfig;
  sc_AllowlistedSystem : baseLimitConfig; sc_AllowlistedTransient : baseLimitConfig;
  sc_Service : baseLimitConfig; sc_ServiceLimits : option (gmap string baseLimitConfig);
  sc_ServicePeer : baseLimitConfig; sc_ServicePeerLimits : option (gmap string baseLimitConfig);
  sc_Protocol : baseLimitConfig; sc_ProtocolLimits : option (gmap string baseLimitConfig);
  sc_ProtocolPeer : baseLimitConfig; sc_ProtocolPeerLimits : option (gmap string baseLimitConfig);
  sc_Peer : baseLimitConfig; sc_PeerLimits : option (gmap string baseLimitConfig);
  sc_Conn : baseLimitConfig;
  sc_StreamBaseLimit : BaseLimit; sc_StreamLimitIncrease : BaseLimitIncrease }.

Definition scaleConfig (memory numFD : Z) (l : baseLimitConfig) : BaseLimit :=
  scale (blc_BaseLimit l) (blc_BaseLimitIncrease l) memory numFD.

Definition scaleMap (memory numFD : Z) (m : option (gmap string baseLimitConfig))
    : option (gmap string BaseLimit) :=
  (fun m : gmap string baseLimitConfig => scaleConfig memory numFD <$> m) <$> m.

(** The increase of the connection limits is also the one of the stream limits,
    as in the source. *)
Definition Scale (cfg : ScalingLimitConfig) (memory numFD : Z) : ConcreteLimitConfig := {|
  cc_system := scaleConfig memory numFD (sc_System cfg);
  cc_transient := scaleConfig memory numFD (sc_Transient cfg);
  cc_allowlistedSystem := scaleConfig memory numFD (sc_AllowlistedSystem cfg);
  cc_allowlistedTransient := scaleConfig memory numFD (sc_AllowlistedTransient cfg);
  cc_serviceDefault := scaleConfig memory numFD (sc_Service cfg);
  cc_servicePeerDefault := scaleConfig memory numFD (sc_ServicePeer cfg);
  cc_protocolDefault := scaleConfig memory numFD (sc_Protocol cfg);
  cc_protocolPeerDefault := scaleConfig memory numFD (sc_ProtocolPeer cfg);
  cc_peerDefault := scaleConfig memory numFD (sc_Peer cfg);
  cc_conn := scaleConfig memory numFD (sc_Conn cfg);
  cc_stream := scale (sc_StreamBaseLimit cfg) (blc_BaseLimitIncrease (sc_Conn cfg)) memory numFD;
  cc_service := scaleMap memory numFD (sc_ServiceLimits cfg);
  cc_protocol := scaleMap memory numFD (sc_ProtocolLimits cfg);
  cc_peer := scaleMap memory numFD (sc_PeerLimits cfg);
  cc_servicePeer := scaleMap memory numFD (sc_ServicePeerLimits cfg);
  cc_protocolPeer := scaleMap memory numFD (sc_ProtocolPeerLimits cfg) |}.

(** ** Properties *)

(** Every limit is a non-negative number. *)
Definition BaseLimit_nonneg (l : BaseLimit) : Prop :=
  0 <= bl_Streams l /\ 0 <= bl_StreamsInbound l /\ 0 <= bl_StreamsOutbound l
  /\ 0 <= bl_Conns l /\ 0 <= bl_ConnsInbound l /\ 0 <= bl_ConnsOutbound l
  /\ 0 <= bl_FD l /\ 0 <= bl_Memory l.

Definition goMap_nonneg (m : option (gmap string BaseLimit)) : Prop :=
  map_Forall (fun _ l => BaseLimit_nonneg l) (goMap m).

Definition ConcreteLimitConfig_nonneg (c : ConcreteLimitConfig) : Prop :=
  Forall BaseLimit_nonneg
    [cc_system c; cc_transient c; cc_allowlistedSystem c; cc_allowlistedTransient c;
     cc_serviceDefault c; cc_servicePeerDefault c; cc_protocolDefault c;
     cc_protocolPeerDefault c; cc_peerDefault c; cc_conn c; cc_stream c]
  /\ Forall goMap_nonneg
    [cc_service c; cc_servicePeer c; cc_protocol c; cc_protocolPeer c; cc_peer c].

(** The keys of [d] are keys of [m], and [d] is nil when [m] is. *)
Definition keys_within (d m : option (gmap string BaseLimit)) : Prop :=
  dom (goMap d) ⊆ dom (goMap m) /\ (m = None -> d = None).

Lemma LimitVal_Build_value n d : 0 <= n -> LimitVal_Build (valueOrBlockAll n) d = n.
Proof.
  intros Hn. unfold LimitVal_Build, valueOrBlockAll, DefaultLimit, Unlimited, BlockAllLimit.
  repeat (zcase; try (int64_lia || (subst; reflexivity))).
Qed.

Lemma ResourceLimits_Build_value l d :
  BaseLimit_nonneg l -> ResourceLimits_Build (Some (ToResourceLimits l)) d = l.
Proof.
  intros (?&?&?&?&?&?&?&?). destruct l. simpl in *.
  unfold ResourceLimits_Build; simpl. now rewrite !LimitVal_Build_value.
Qed.

Lemma buildMap_value m d fb :
  goMap_nonneg m -> keys_within d m ->
  buildMapWithDefault (resourceLimitsMapFromBaseLimitMap m) d fb = m.
Proof.
  intros Hm [Hd Hnil]. destruct m as [m|]; simpl; [|now rewrite Hnil].
  f_equal. apply map_eq. intros k. rewrite lookup_union, map_lookup_imap, lookup_fmap.
  simpl. destruct (m !! k) as [l|] eqn:Hk; simpl.
  - rewrite ResourceLimits_Build_value by (eapply Hm; apply Hk).
    now rewrite union_Some_l.
  - rewrite left_id by apply _. apply not_elem_of_dom.
    intros Hin. apply Hd in Hin. simpl in Hin. apply elem_of_dom in Hin as [? Hin].
    congruence.
Qed.

Lemma LimitVal_Build_orDefault x y d :
  LimitVal_Build (orDefault x y) d = LimitVal_Build x (LimitVal_Build y d).
Proof.
  unfold LimitVal_Build, orDefault, DefaultLimit, Unlimited, BlockAllLimit.
  repeat (zcase; subst; try reflexivity; try lia).
Qed.

(** Round trip of configurations.  A concrete configuration with non-negative
    limits, converted to a partial one and built again over any defaults that
    name no further service, protocol or peer, is the configuration it was. *)
Theorem build_toPartial_roundtrip cfg d :
  ConcreteLimitConfig_nonneg cfg ->
  keys_within (cc_service d) (cc_service cfg) ->
  keys_within (cc_servicePeer d) (cc_servicePeer cfg) ->
  keys_within (cc_protocol d) (cc_protocol cfg) ->
  keys_within (cc_protocolPeer d) (cc_protocolPeer cfg) ->
  keys_within (cc_peer d) (cc_peer cfg) ->
  PartialLimitConfig_Build (ToPartialLimitConfig cfg) d = cfg.
Proof.
  intros [Hs Hm] ?????. decompose_Forall_hyps.
  unfold PartialLimitConfig_Build, ToPartialLimitConfig; simpl.
  rewrite !ResourceLimits_Build_value, !buildMap_value by done.
  now destruct cfg.
Qed.

(** Layering of partial limits.  Filling the default entries of [l] from [l2]
    and building over [d] is building [l] over the limits that [l2] builds. *)
Theorem build_apply l l2 d :
  ResourceLimits_Build (Some (ResourceLimits_Apply l l2)) d
  = ResourceLimits_Build (Some l) (ResourceLimits_Build (Some l2) d).
Proof.
  unfold ResourceLimits_Build, ResourceLimits_Apply; simpl.
  now rewrite !LimitVal_Build_orDefault.
Qed.

(** Componentwise order on limits. *)
Definition BaseLimit_le (a b : BaseLimit) : Prop :=
  bl_Streams a <= bl_Streams b /\ bl_StreamsInbound a <= bl_StreamsInbound b
  /\ bl_StreamsOutbound a <= bl_StreamsOutbound b /\ bl_Conns a <= bl_Conns b
  /\ bl_ConnsInbound a <= bl_ConnsInbound b /\ bl_ConnsOutbound a <= bl_ConnsOutbound b
  /\ bl_FD a <= bl_FD b /\ bl_Memory a <= bl_Memory b.

(** Ranges in which the arithmetic of [scale] does not overflow: base limits up
    to [2^62], increases up to [2^32] per GiB. *)
Definition base_in_range (l : BaseLimit) : Prop :=
  Forall (fun x => 0 <= x <= 2 ^ 62)
    [bl_Streams l; bl_StreamsInbound l; bl_StreamsOutbound l; bl_Conns l;
     bl_ConnsInbound l; bl_ConnsOutbound l; bl_Memory l].
Definition increase_in_range (i : BaseLimitIncrease) : Prop :=
  Forall (fun x => 0 <= x <= 2 ^ 32)
    [bi_Streams i; bi_StreamsInbound i; bi_StreamsOutbound i; bi_Conns i;
     bi_ConnsInbound i; bi_ConnsOutbound i; bi_Memory i].

(** The mebibytes [scale] works with. *)
Definition scale_mebibytes (memory : Z) : Z :=
  if Z.shiftl 128 20 <? memory then Z.shiftr memory 20 else 0.

Lemma scale_mebibytes_mono m m' :
  0 <= m <= m' -> m' <= 2 ^ 50 ->
  0 <= scale_mebibytes m <= scale_mebibytes m' /\ scale_mebibytes m' <= 2 ^ 30.
Proof.
  intros Hm Hm'. unfold scale_mebibytes. rewrite !Z.shiftr_div_pow2 by lia.
  change (Z.shiftl 128 20) with (128 * 2 ^ 20).
  assert (m / 2 ^ 20 <= m' / 2 ^ 20) by (apply Z.div_le_mono; lia).
  assert (0 <= m / 2 ^ 20) by (apply Z.div_pos; lia).
  assert (m' / 2 ^ 20 <= 2 ^ 50 / 2 ^ 20) by (apply Z.div_le_mono; lia).
  change (2 ^ 50 / 2 ^ 20) with (2 ^ 30) in *.
  repeat zcase; lia.
Qed.

(** One scaled limit in exact arithmetic. *)
Lemma scale_grow_exact b i mib :
  0 <= b <= 2 ^ 62 -> 0 <= i <= 2 ^ 32 -> 0 <= mib <= 2 ^ 30 ->
  Int64.add64 b (Z.shiftr (Int64.mul64 i mib) 10) = b + (i * mib) / 2 ^ 10.
Proof.
  intros Hb Hi Hm. assert (0 <= i * mib <= 2 ^ 32 * 2 ^ 30) by nia.
  unfold Int64.mul64. rewrite Int64.wrap64_small by int64_lia.
  rewrite Z.shiftr_div_pow2 by lia.
  assert (0 <= i * mib / 2 ^ 10) by (apply Z.div_pos; lia).
  assert (i * mib / 2 ^ 10 <= 2 ^ 52).
  { change (2 ^ 52) with (2 ^ 62 / 2 ^ 10). apply Z.div_le_mono; lia. }
  apply Int64.add64_small. int64_lia.
Qed.

Lemma scale_grow_mono b i mib mib' :
  0 <= b <= 2 ^ 62 -> 0 <= i <= 2 ^ 32 -> 0 <= mib <= mib' -> mib' <= 2 ^ 30 ->
  Int64.add64 b (Z.shiftr (Int64.mul64 i mib) 10)
  <= Int64.add64 b (Z.shiftr (Int64.mul64 i mib') 10).
Proof.
  intros. rewrite !scale_grow_exact by lia.
  assert (i * mib / 2 ^ 10 <= i * mib' / 2 ^ 10) by (apply Z.div_le_mono; nia). lia.
Qed.

(** Scaling is monotone.  More memory never lowers a limit, and a scaled
    limit is never below the base limit, file descriptors included. *)
Theorem scale_monotone base inc m m' numFD :
  base_in_range base -> increase_in_range inc ->
  0 <= m <= m' -> m' <= 2 ^ 50 ->
  BaseLimit_le (scale base inc m numFD) (scale base inc m' numFD)
  /\ BaseLimit_le base (scale base inc m numFD).
Proof.
  intros Hb Hi Hm Hm'. unfold base_in_range, increase_in_range in *.
  decompose_Forall_hyps.
  destruct (scale_mebibytes_mono m m' Hm Hm') as [Hmib Hmib'].
  destruct (scale_mebibytes_mono 0 m ltac:(lia) ltac:(lia)) as [Hmib0 _].
  unfold BaseLimit_le, scale; simpl.
  fold (scale_mebibytes m) (scale_mebibytes m').
  assert (Hbase : forall b i, 0 <= b <= 2 ^ 62 -> 0 <= i <= 2 ^ 32 ->
    b <= Int64.add64 b (Z.shiftr (Int64.mul64 i (scale_mebibytes m)) 10)).
  { intros b i ??. rewrite scale_grow_exact by lia.
    assert (0 <= i * scale_mebibytes m / 2 ^ 10) by (apply Z.div_pos; nia). lia. }
  split; split_and!; try (apply scale_grow_mono; lia); try (apply Hbase; lia); [lia|].
  destruct (SFltb _ _ && _); [|lia]. zcase; lia.
Qed.

(** Setting the stream limit increase of a configuration. *)
Definition with_StreamLimitIncrease (cfg : ScalingLimitConfig) (i : BaseLimitIncrease)
    : ScalingLimitConfig := {|
  sc_System := sc_System cfg; sc_Transient := sc_Transient cfg;
  sc_AllowlistedSystem := sc_AllowlistedSystem cfg;
  sc_AllowlistedTransient := sc_AllowlistedTransient cfg;
  sc_Service := sc_Service cfg; sc_ServiceLimits := sc_ServiceLimits cfg;
  sc_ServicePeer := sc_ServicePeer cfg; sc_ServicePeerLimits := sc_ServicePeerLimits cfg;
  sc_Protocol := sc_Protocol cfg; sc_ProtocolLimits := sc_ProtocolLimits cfg;
  sc_ProtocolPeer := sc_ProtocolPeer cfg; sc_ProtocolPeerLimits := sc_ProtocolPeerLimits cfg;
  sc_Peer := sc_Peer cfg; sc_PeerLimits := sc_PeerLimits cfg;
  sc_Conn := sc_Conn cfg;
  sc_StreamBaseLimit := sc_StreamBaseLimit cfg; sc_StreamLimitIncrease := i |}.

(** The stream limit increase of a configuration has no effect on the scaled
    limits: [Scale] grows the stream limits with the increase of connections. *)
Theorem scale_ignores_StreamLimitIncrease cfg i memory numFD :
  Scale (with_StreamLimitIncrease cfg i) memory numFD = Scale cfg memory numFD.
Proof. reflexivity. Qed.

(** ** Witnesses *)
Module LimitsExample.
Definition base : BaseLimit := mkBaseLimit 2048 1024 2048 128 64 128 256 (128 * 2 ^ 20).
Definition inc : BaseLimitIncrease :=
  mkBaseLimitIncrease 2048 1024 2048 128 64 128 (2 ^ 30) (float64_of_int 1).
Definition unlimitedFD : BaseLimit := mkBaseLimit 0 1 2 3 4 5 Int64.MaxInt64 6.
Definition cfg : ConcreteLimitConfig :=
  mkConcreteLimitConfig base base base base base None base (Some {["/svc" := unlimitedFD]})
    base None base None base None base unlimitedFD.
Definition defaults : ConcreteLimitConfig :=
  mkConcreteLimitConfig unlimitedFD base base base base None base None
    base None base None base None base base.
End LimitsExample.

Lemma build_toPartial_roundtrip_witness :
  PartialLimitConfig_Build (ToPartialLimitConfig LimitsExample.cfg) LimitsExample.defaults
  = LimitsExample.cfg.
Proof.
  apply build_toPartial_roundtrip; try (split; [set_solver|done]).
  split; repeat (apply Forall_cons_2 || apply Forall_nil_2);
    try (unfold goMap_nonneg; apply map_Forall_empty);
    try (unfold goMap_nonneg; apply map_Forall_singleton);
    unfold BaseLimit_nonneg; simpl; int64_lia.
Defined.

Lemma scale_monotone_witness :
  BaseLimit_le (scale LimitsExample.base LimitsExample.inc (2 ^ 30) 1000)
    (scale LimitsExample.base LimitsExample.inc (2 ^ 31) 1000)
  /\ bl_Conns (scale LimitsExample.base LimitsExample.inc (2 ^ 31) 1000) = 128 + 256
  /\ bl_FD (scale LimitsExample.base LimitsExample.inc (2 ^ 31) 1000) = 1000.
Proof.
  split; [|split; vm_compute; reflexivity].
  apply (scale_monotone LimitsExample.base LimitsExample.inc (2 ^ 30) (2 ^ 31) 1000);
    [repeat constructor; simpl; lia|repeat constructor; simpl; lia|lia|lia].
Defined.
