(* ===== verification/Resources.v ===== *)
(** * Resource counters (p2p/host/resource-manager/scope.go, type resources)

    The counters a scope keeps, with every check and update of the source in
    64-bit arithmetic, and the interface [ResourceOp] through which the scopes
    of Scope.v reserve and release them. *)
From Stdlib Require Import ZArith Lia.
From stdpp Require Import base tactics list numbers option strings.
From S2P Require Import Prelude Limits.
Local Open Scope Z_scope.
Import Int64.

(** ** Errors

    [ErrWrapped] is [wrapError], the scope's name before the cause.
    [ErrNilScope] stands for the panic of a nil or dangling scope pointer and
    [ErrOutOfFuel] for an owner chain longer than the fuel; neither happens on
    well-formed heaps (Scope.v). *)
Inductive rc_error :=
| ErrResourceScopeClosed
| ErrNegativeMemory (rsvp : Z)
| ErrMemoryLimitExceeded (current attempted limit priority : Z)
| ErrStreamOrConnLimitExceeded (what : string) (current attempted limit : Z)
| ErrWrapped (name : string) (err : rc_error)
| ErrMsg (msg : string)
| ErrNilScope
| ErrOutOfFuel.

#[export] Instance rc_error_eq_dec : EqDecision rc_error.
Proof. solve_decision. Defined.

(** core/network.ScopeStat *)
Record ScopeStat := mkScopeStat {
  NumStreamsInbound : Z; NumStreamsOutbound : Z;
  NumConnsInbound : Z; NumConnsOutbound : Z;
  NumFD : Z; Memory : Z }.

(** [network.ScopeStat{}] *)
Definition zeroStat : ScopeStat := mkScopeStat 0 0 0 0 0 0.

Record resources := mkResources {
  limit : Limit;
  nconnsIn : Z; nconnsOut : Z;
  nstreamsIn : Z; nstreamsOut : Z;
  nfd : Z; memory : Z }.

Definition newResources (l : Limit) : resources := mkResources l 0 0 0 0 0 0.

Definition set_memory (rc : resources) (m : Z) : resources :=
  mkResources (limit rc) (nconnsIn rc) (nconnsOut rc) (nstreamsIn rc) (nstreamsOut rc) (nfd rc) m.
Definition set_streams (rc : resources) (i o : Z) : resources :=
  mkResources (limit rc) (nconnsIn rc) (nconnsOut rc) i o (nfd rc) (memory rc).
Definition set_conns (rc : resources) (i o fd : Z) : resources :=
  mkResources (limit rc) i o (nstreamsIn rc) (nstreamsOut rc) fd (memory rc).

(** ** Checked arithmetic *)
Definition addInt64WithOverflow (a b : Z) : Z * bool :=
  let c := add64 a b in (c, Bool.eqb (a <? c) (0 <? b)).

Definition mulInt64WithOverflow (a b : Z) : Z * bool :=
  let mostPositive := 2 ^ 63 - 1 in
  let mostNegative := - (mostPositive + 1) in
  let c := mul64 a b in
  if (a =? 0) || (b =? 0) || (a =? 1) || (b =? 1) then (c, true)
  else if (a =? mostNegative) || (b =? mostNegative) then (c, false)
  else (c, quot64 c b =? a).

(** ** Memory *)

(** The share of the limit a priority may use.  The product that overflows
    [int64] is formed in [big.Int], where the shift by 8 is exact. *)
Definition memoryThreshold (limit prio : Z) : Z :=
  let '(threshold, mulOk) := mulInt64WithOverflow (1 + prio) limit in
  if negb mulOk then wrap64 (Z.shiftr (limit * (1 + prio)) 8)
  else quot64 threshold 256.

Definition checkMemory (rc : resources) (rsvp prio : Z) : option rc_error :=
  if rsvp <? 0 then Some (ErrNegativeMemory rsvp)
  else
    let limit := GetMemoryLimit (limit rc) in
    if limit =? MaxInt64 then None
    else
      let '(newmem, addOk) := addInt64WithOverflow (memory rc) rsvp in
      let threshold := memoryThreshold limit prio in
      if negb addOk || (threshold <? newmem)
      then Some (ErrMemoryLimitExceeded (memory rc) rsvp limit prio)
      else None.

Definition reserveMemory (rc : resources) (size prio : Z) : rc_error + resources :=
  match checkMemory rc size prio with
  | Some err => inl err
  | None => inr (set_memory rc (add64 (memory rc) size))
  end.

(** [if x < 0 { x = 0 }] *)
Definition clamp0 (x : Z) : Z := if x <? 0 then 0 else x.

Definition releaseMemory (rc : resources) (size : Z) : resources :=
  set_memory rc (clamp0 (sub64 (memory rc) size)).

(** ** Streams *)
Definition addStreams (rc : resources) (incount outcount : Z) : rc_error + resources :=
  let limIn := GetStreamLimit (limit rc) DirInbound in
  let limOut := GetStreamLimit (limit rc) DirOutbound in
  let limTotal := GetStreamTotalLimit (limit rc) in
  if (0 <? incount) && (limIn <? add64 (nstreamsIn rc) incount)
  then inl (ErrStreamOrConnLimitExceeded "cannot reserve inbound stream" (nstreamsIn rc) incount limIn)
  else if (0 <? outcount) && (limOut <? add64 (nstreamsOut rc) outcount)
  then inl (ErrStreamOrConnLimitExceeded "cannot reserve outbound stream" (nstreamsOut rc) outcount limOut)
  else if limTotal <? add64 (add64 (add64 (nstreamsIn rc) incount) (nstreamsOut rc)) outcount
  then inl (ErrStreamOrConnLimitExceeded "cannot reserve stream"
              (add64 (nstreamsIn rc) (nstreamsOut rc)) (add64 incount outcount) limTotal)
  else inr (set_streams rc (add64 (nstreamsIn rc) incount) (add64 (nstreamsOut rc) outcount)).

Definition addStream (rc : resources) (dir : Direction) : rc_error + resources :=
  if isInbound dir then addStreams rc 1 0 else addStreams rc 0 1.

Definition removeStreams (rc : resources) (incount outcount : Z) : resources :=
  set_streams rc (clamp0 (sub64 (nstreamsIn rc) incount)) (clamp0 (sub64 (nstreamsOut rc) outcount)).

Definition removeStream (rc : resources) (dir : Direction) : resources :=
  if isInbound dir then removeStreams rc 1 0 else removeStreams rc 0 1.

(** ** Connections and file descriptors *)
Definition addConns (rc : resources) (incount outcount fdcount : Z) : rc_error + resources :=
  let limIn := GetConnLimit (limit rc) DirInbound in
  let limOut := GetConnLimit (limit rc) DirOutbound in
  let connLimit := GetConnTotalLimit (limit rc) in
  let limFD := GetFDLimit (limit rc) in
  if (0 <? incount) && (limIn <? add64 (nconnsIn rc) incount)
  then inl (ErrStreamOrConnLimitExceeded "cannot reserve inbound connection" (nconnsIn rc) incount limIn)
  else if (0 <? outcount) && (limOut <? add64 (nconnsOut rc) outcount)
  then inl (ErrStreamOrConnLimitExceeded "cannot reserve outbound connection" (nconnsOut rc) outcount limOut)
  else if connLimit <? add64 (add64 (add64 (nconnsIn rc) incount) (nconnsOut rc)) outcount
  then inl (ErrStreamOrConnLimitExceeded "cannot reserve connection"
              (add64 (nconnsIn rc) (nconnsOut rc)) (add64 incount outcount) connLimit)
  else if (0 <? fdcount) && (limFD <? add64 (nfd rc) fdcount)
  then inl (ErrStreamOrConnLimitExceeded "cannot reserve file descriptor" (nfd rc) fdcount limFD)
  else inr (set_conns rc (add64 (nconnsIn rc) incount) (add64 (nconnsOut rc) outcount)
              (add64 (nfd rc) fdcount)).

Definition fdOf (usefd : bool) : Z := if usefd then 1 else 0.

Definition addConn (rc : resources) (dir : Direction) (usefd : bool) : rc_error + resources :=
  if isInbound dir then addConns rc 1 0 (fdOf usefd) else addConns rc 0 1 (fdOf usefd).

Definition removeConns (rc : resources) (incount outcount fdcount : Z) : resources :=
  set_conns rc (clamp0 (sub64 (nconnsIn rc) incount)) (clamp0 (sub64 (nconnsOut rc) outcount))
    (clamp0 (sub64 (nfd rc) fdcount)).

Definition removeConn (rc : resources) (dir : Direction) (usefd : bool) : resources :=
  if isInbound dir then removeConns rc 1 0 (fdOf usefd) else removeConns rc 0 1 (fdOf usefd).

Definition stat (rc : resources) : ScopeStat := {|
  Memory := memory rc;
  NumStreamsInbound := nstreamsIn rc; NumStreamsOutbound := nstreamsOut rc;
  NumConnsInbound := nconnsIn rc; NumConnsOutbound := nconnsOut rc;
  NumFD := nfd rc |}.

(** ** Reserving and releasing a whole [ScopeStat]

    The counter part of [ReserveForChild]: memory at the highest priority, then
    streams, then connections, undoing the earlier steps when one fails. *)
Definition ReservationPriorityAlways : Z := 255.

Definition reserveStat (rc : resources) (st : ScopeStat) : resources * option rc_error :=
  match reserveMemory rc (Memory st) ReservationPriorityAlways with
  | inl err => (rc, Some err)
  | inr rc1 =>
      match addStreams rc1 (NumStreamsInbound st) (NumStreamsOutbound st) with
      | inl err => (releaseMemory rc1 (Memory st), Some err)
      | inr rc2 =>
          match addConns rc2 (NumConnsInbound st) (NumConnsOutbound st) (NumFD st) with
          | inl err => (removeStreams (releaseMemory rc2 (Memory st))
                          (NumStreamsInbound st) (NumStreamsOutbound st), Some err)
          | inr rc3 => (rc3, None)
          end
      end
  end.

Definition releaseStat (rc : resources) (st : ScopeStat) : resources :=
  removeConns
    (removeStreams (releaseMemory rc (Memory st)) (NumStreamsInbound st) (NumStreamsOutbound st))
    (NumConnsInbound st) (NumConnsOutbound st) (NumFD st).

(** ** Checked arithmetic is exact *)
Lemma addInt64WithOverflow_spec a b :
  is_int64 a -> is_int64 b ->
  fst (addInt64WithOverflow a b) = wrap64 (a + b)
  /\ (snd (addInt64WithOverflow a b) = true <-> is_int64 (a + b)).
Proof.
  intros Ha Hb. unfold addInt64WithOverflow; simpl. split; [reflexivity|].
  rewrite Bool.eqb_true_iff. unfold add64.
  pose proof (wrap64_int64 (a + b)) as Hc. destruct (wrap64_eq (a + b)) as [k Hk].
  destruct (Z.ltb_spec a (wrap64 (a + b))), (Z.ltb_spec 0 b);
    split; intros H'; try done; try (rewrite wrap64_small in * by done); int64_lia.
Qed.

(** Truncated division recovers a factor from a wrapped product only when the
    product did not wrap. *)
Lemma quot64_mul64_exact a b :
  is_int64 a -> is_int64 b -> a <> MinInt64 -> b <> MinInt64 -> b <> 0 ->
  quot64 (mul64 a b) b = a -> is_int64 (a * b).
Proof.
  intros Ha Hb Ha' Hb' Hb0. unfold mul64, quot64.
  pose proof (wrap64_int64 (a * b)) as Hc. destruct (wrap64_eq (a * b)) as [k Hk].
  set (c := wrap64 (a * b)) in *. intros Hq.
  pose proof (Z.quot_rem c b Hb0) as Hqr.
  pose proof (Z.rem_bound_abs c b Hb0) as Hr.
  assert (Z.abs (Z.quot c b) <= Z.abs c) as Habs.
  { rewrite <- Z.quot_abs by done. apply Z.quot_le_upper_bound; [lia|]. nia. }
  assert (is_int64 (Z.quot c b) \/ Z.quot c b = 2 ^ 63) as [Hin|Hmax] by int64_lia.
  - rewrite wrap64_small in Hq by done. assert (k = 0) by int64_lia. subst k.
    replace (a * b) with c by lia. done.
  - rewrite Hmax in Hq. change (wrap64 (2 ^ 63)) with MinInt64 in Hq. congruence.
Qed.

Lemma mulInt64WithOverflow_spec a b :
  is_int64 a -> is_int64 b ->
  fst (mulInt64WithOverflow a b) = wrap64 (a * b)
  /\ (snd (mulInt64WithOverflow a b) = true <-> is_int64 (a * b)).
Proof.
  intros Ha Hb. unfold mulInt64WithOverflow.
  replace (- (2 ^ 63 - 1 + 1)) with MinInt64 by reflexivity.
  destruct (Z.eqb_spec a 0), (Z.eqb_spec b 0), (Z.eqb_spec a 1), (Z.eqb_spec b 1);
    subst; simpl; try (split; [reflexivity|split; [intros _|done]];
      rewrite ?Z.mul_0_r, ?Z.mul_1_l, ?Z.mul_1_r; int64_lia).
  destruct (Z.eqb_spec a MinInt64), (Z.eqb_spec b MinInt64); simpl;
    try (split; [reflexivity|split; [done|]]; intros; subst; int64_unfold; nia).
  split; [reflexivity|]. rewrite Z.eqb_eq. split; intros H.
  - by apply quot64_mul64_exact.
  - unfold quot64, mul64. rewrite (wrap64_small (a * b)) by done.
    rewrite Z.quot_mul by done. by apply wrap64_small.
Qed.

Lemma memoryThreshold_spec limit prio :
  0 <= limit <= MaxInt64 -> 0 <= prio <= 255 ->
  memoryThreshold limit prio = limit * (1 + prio) / 256
  /\ 0 <= memoryThreshold limit prio <= limit.
Proof.
  intros Hl Hp. unfold memoryThreshold.
  destruct (mulInt64WithOverflow_spec (1 + prio) limit) as [Hf Hs]; [int64_lia..|].
  destruct (mulInt64WithOverflow (1 + prio) limit) as [t ok]; simpl in *. subst t.
  assert (0 <= limit * (1 + prio) <= limit * 256) by nia.
  assert (0 <= limit * (1 + prio) / 256 <= limit).
  { split; [apply Z.div_pos; lia|]. apply Z.div_le_upper_bound; lia. }
  destruct ok; simpl.
  - unfold quot64. rewrite (wrap64_small ((1 + prio) * limit)) by (by apply Hs).
    rewrite Z.quot_div_nonneg, (Z.mul_comm (1 + prio)) by nia.
    rewrite wrap64_small by int64_lia. lia.
  - rewrite Z.shiftr_div_pow2 by lia. change (2 ^ 8) with 256.
    rewrite wrap64_small by int64_lia. lia.
Qed.

(** The memory check is exact.  With a memory limit below [MaxInt64], a
    reservation passes precisely when it is not negative and the memory in use
    plus the reservation is at most the share [limit * (1 + prio) / 256] of the
    limit, whatever overflows on the way. *)
Theorem checkMemory_spec rc rsvp prio :
  0 <= memory rc <= MaxInt64 -> is_int64 rsvp -> 0 <= prio <= 255 ->
  0 <= GetMemoryLimit (limit rc) < MaxInt64 ->
  checkMemory rc rsvp prio = None
  <-> 0 <= rsvp /\ memory rc + rsvp <= GetMemoryLimit (limit rc) * (1 + prio) / 256.
Proof.
  intros Hm Hr Hp Hl. unfold checkMemory. zcase; [split; [done|lia]|].
  zcase; [lia|].
  destruct (addInt64WithOverflow_spec (memory rc) rsvp) as [Hf Hs]; [int64_lia..|].
  destruct (addInt64WithOverflow (memory rc) rsvp) as [c ok]; simpl in *. subst c.
  destruct (memoryThreshold_spec (GetMemoryLimit (limit rc)) prio) as [Ht Hb]; [lia..|].
  rewrite <- Ht. destruct ok; simpl.
  - rewrite wrap64_small by (by apply Hs). zcase; split; try done; lia.
  - split; [done|]. intros [? ?]. destruct Hs as [_ Hs].
    discriminate Hs. int64_lia.
Qed.

(** ** Well-formed counters, fields, limits *)
Inductive field := FMemory | FStreamsIn | FStreamsOut | FConnsIn | FConnsOut | FFD.

#[export] Instance field_eq_dec : EqDecision field.
Proof. solve_decision. Defined.

Definition get (f : field) (rc : resources) : Z :=
  match f with
  | FMemory => memory rc
  | FStreamsIn => nstreamsIn rc | FStreamsOut => nstreamsOut rc
  | FConnsIn => nconnsIn rc | FConnsOut => nconnsOut rc
  | FFD => nfd rc
  end.

Definition statGet (f : field) (st : ScopeStat) : Z :=
  match f with
  | FMemory => Memory st
  | FStreamsIn => NumStreamsInbound st | FStreamsOut => NumStreamsOutbound st
  | FConnsIn => NumConnsInbound st | FConnsOut => NumConnsOutbound st
  | FFD => NumFD st
  end.

Lemma statGet_stat f rc : statGet f (stat rc) = get f rc.
Proof. by destruct f. Qed.

(** Two counter records with the same limit and the same fields are equal. *)
Lemma resources_ext r r' :
  limit r = limit r' -> (forall f, get f r = get f r') -> r = r'.
Proof.
  intros Hl Hf. destruct r, r'; simpl in *. subst.
  pose proof (Hf FMemory); pose proof (Hf FStreamsIn); pose proof (Hf FStreamsOut);
    pose proof (Hf FConnsIn); pose proof (Hf FConnsOut); pose proof (Hf FFD).
  simpl in *. congruence.
Qed.

(** Counters never are negative and fit [int64]. *)
Definition rc_wf (rc : resources) : Prop := forall f, 0 <= get f rc <= MaxInt64.

(** Every counter, and each total of the two directions, is at most its limit;
    a negative limit allows nothing. *)
Definition within_limits (rc : resources) : Prop :=
  let l := limit rc in
  memory rc <= Z.max 0 (GetMemoryLimit l)
  /\ nstreamsIn rc <= Z.max 0 (GetStreamLimit l DirInbound)
  /\ nstreamsOut rc <= Z.max 0 (GetStreamLimit l DirOutbound)
  /\ nstreamsIn rc + nstreamsOut rc <= Z.max 0 (GetStreamTotalLimit l)
  /\ nconnsIn rc <= Z.max 0 (GetConnLimit l DirInbound)
  /\ nconnsOut rc <= Z.max 0 (GetConnLimit l DirOutbound)
  /\ nconnsIn rc + nconnsOut rc <= Z.max 0 (GetConnTotalLimit l)
  /\ nfd rc <= Z.max 0 (GetFDLimit l).

(** Adding [delta] to the counters overflows neither a counter nor a total. *)
Definition fits (rc : resources) (delta : field -> Z) : Prop :=
  (forall f, get f rc + delta f <= MaxInt64)
  /\ nstreamsIn rc + delta FStreamsIn + nstreamsOut rc + delta FStreamsOut <= MaxInt64
  /\ nconnsIn rc + delta FConnsIn + nconnsOut rc + delta FConnsOut <= MaxInt64.

Lemma clamp0_nonneg x : 0 <= x -> clamp0 x = x.
Proof. unfold clamp0. zcase; lia. Qed.

Lemma clamp0_bounds x : is_int64 x -> 0 <= clamp0 x <= MaxInt64.
Proof. unfold clamp0. zcase; int64_lia. Qed.

(** Releasing what was added gives a non-negative counter back. *)
Lemma clamp0_undo a b : 0 <= a <= MaxInt64 -> clamp0 (sub64 (add64 a b) b) = a.
Proof. intros. rewrite sub64_add64 by int64_lia. apply clamp0_nonneg; lia. Qed.

Lemma clamp0_sub a b :
  0 <= a <= MaxInt64 -> 0 <= b <= a -> clamp0 (sub64 a b) = a - b.
Proof. intros. rewrite sub64_small by int64_lia. apply clamp0_nonneg; lia. Qed.

(** ** What a successful reservation has checked *)
Lemma reserveMemory_inv rc size prio rc' :
  reserveMemory rc size prio = inr rc' ->
  checkMemory rc size prio = None /\ rc' = set_memory rc (add64 (memory rc) size).
Proof. unfold reserveMemory. destruct (checkMemory _ _ _); [done|]. by intros [= <-]. Qed.

Lemma addStreams_inv rc i o rc' :
  addStreams rc i o = inr rc' ->
  rc' = set_streams rc (add64 (nstreamsIn rc) i) (add64 (nstreamsOut rc) o)
  /\ (0 < i -> add64 (nstreamsIn rc) i <= GetStreamLimit (limit rc) DirInbound)
  /\ (0 < o -> add64 (nstreamsOut rc) o <= GetStreamLimit (limit rc) DirOutbound)
  /\ add64 (add64 (add64 (nstreamsIn rc) i) (nstreamsOut rc)) o
     <= GetStreamTotalLimit (limit rc).
Proof.
  unfold addStreams. intros H.
  destruct (Z.ltb_spec 0 i), (Z.ltb_spec 0 o);
    repeat (zcase; simpl in H; try done); injection H as <-; split_and!; lia || done.
Qed.

Lemma addConns_inv rc i o fd rc' :
  addConns rc i o fd = inr rc' ->
  rc' = set_conns rc (add64 (nconnsIn rc) i) (add64 (nconnsOut rc) o) (add64 (nfd rc) fd)
  /\ (0 < i -> add64 (nconnsIn rc) i <= GetConnLimit (limit rc) DirInbound)
  /\ (0 < o -> add64 (nconnsOut rc) o <= GetConnLimit (limit rc) DirOutbound)
  /\ add64 (add64 (add64 (nconnsIn rc) i) (nconnsOut rc)) o <= GetConnTotalLimit (limit rc)
  /\ (0 < fd -> add64 (nfd rc) fd <= GetFDLimit (limit rc)).
Proof.
  unfold addConns. intros H.
  destruct (Z.ltb_spec 0 i), (Z.ltb_spec 0 o), (Z.ltb_spec 0 fd);
    repeat (zcase; simpl in H; try done); injection H as <-; split_and!; lia || done.
Qed.

(** The memory limit is an [int64] value. *)
Definition limit_wf (l : Limit) : Prop := is_int64 (GetMemoryLimit l).

(** ** The interface between counters and scopes

    A scope reserves by [op_add] and releases by [op_rem]; [op_delta] is the
    amount of each resource the pair moves. *)
Record ResourceOp := mkResourceOp {
  op_add : resources -> rc_error + resources;
  op_rem : resources -> resources;
  op_delta : field -> Z }.

Class ResourceOpLaws (op : ResourceOp) : Prop := {
  op_delta_nonneg f : 0 <= op_delta op f <= MaxInt64;
  op_add_limit r r' : op_add op r = inr r' -> limit r' = limit r;
  op_rem_limit r : limit (op_rem op r) = limit r;
  (** releasing right after reserving restores the counters *)
  op_undo r r' : rc_wf r -> op_add op r = inr r' -> op_rem op r' = r;
  (** reserving adds the amount, unless the addition overflows *)
  op_add_get r r' f :
    rc_wf r -> op_add op r = inr r' -> get f r' = add64 (get f r) (op_delta op f);
  (** releasing takes it away, never below zero *)
  op_rem_get r f :
    rc_wf r -> get f (op_rem op r) = clamp0 (sub64 (get f r) (op_delta op f));
  (** a successful reservation stays within the limits *)
  op_add_within r r' :
    limit_wf (limit r) -> rc_wf r -> fits r (op_delta op) -> within_limits r ->
    op_add op r = inr r' -> within_limits r' }.

(** Memory of [size] bytes at priority [prio]. *)
Definition memoryOp (size prio : Z) : ResourceOp := {|
  op_add rc := reserveMemory rc size prio;
  op_rem rc := releaseMemory rc size;
  op_delta f := if decide (f = FMemory) then size else 0 |}.

(** One stream in direction [dir]. *)
Definition streamOp (dir : Direction) : ResourceOp := {|
  op_add rc := addStream rc dir;
  op_rem rc := removeStream rc dir;
  op_delta f :=
    if isInbound dir then (if decide (f = FStreamsIn) then 1 else 0)
    else (if decide (f = FStreamsOut) then 1 else 0) |}.

(** One connection in direction [dir], with or without a file descriptor. *)
Definition connOp (dir : Direction) (usefd : bool) : ResourceOp := {|
  op_add rc := addConn rc dir usefd;
  op_rem rc := removeConn rc dir usefd;
  op_delta f :=
    match f with
    | FConnsIn => if isInbound dir then 1 else 0
    | FConnsOut => if isInbound dir then 0 else 1
    | FFD => fdOf usefd
    | _ => 0
    end |}.

(** [rc_simpl] turns counter updates into their fields. *)
Ltac rc_simpl :=
  unfold set_memory, set_streams, set_conns, releaseMemory, removeStreams, removeConns,
    fdOf in *; simpl in *.

(** A negative limit has no positive share. *)
Lemma memoryThreshold_nonpos limit prio :
  MinInt64 <= limit <= 0 -> 0 <= prio <= 255 -> memoryThreshold limit prio <= 0.
Proof.
  intros Hl Hp. unfold memoryThreshold.
  destruct (mulInt64WithOverflow_spec (1 + prio) limit) as [Hf Hs]; [int64_lia..|].
  destruct (mulInt64WithOverflow (1 + prio) limit) as [t ok]; simpl in *. subst t.
  assert (limit * 256 <= limit * (1 + prio) <= 0) by nia.
  destruct ok; simpl.
  - unfold quot64. rewrite (wrap64_small ((1 + prio) * limit)) by (by apply Hs).
    pose proof (Z.quot_opp_l ((1 + prio) * limit) 256 ltac:(lia)) as Hq.
    rewrite Z.quot_div_nonneg in Hq by nia.
    assert (0 <= - ((1 + prio) * limit) / 256 <= - limit).
    { split; [apply Z.div_pos; nia|]. apply Z.div_le_upper_bound; nia. }
    rewrite wrap64_small by int64_lia. lia.
  - rewrite Z.shiftr_div_pow2 by lia. change (2 ^ 8) with 256.
    assert (limit <= limit * (1 + prio) / 256 <= 0).
    { split; [apply Z.div_le_lower_bound; lia|]. apply Z.div_le_upper_bound; lia. }
    rewrite wrap64_small by int64_lia. lia.
Qed.

Lemma checkMemory_within rc size prio :
  0 <= memory rc <= MaxInt64 -> 0 <= prio <= 255 -> memory rc + size <= MaxInt64 ->
  is_int64 (GetMemoryLimit (limit rc)) ->
  checkMemory rc size prio = None ->
  memory rc + size <= Z.max 0 (GetMemoryLimit (limit rc)).
Proof.
  intros Hm Hp Hs Hl. unfold checkMemory. zcase; [done|].
  destruct (Z.eqb_spec (GetMemoryLimit (limit rc)) MaxInt64) as [->|Hne]; [intros _; lia|].
  destruct (addInt64WithOverflow_spec (memory rc) size) as [Hf _]; [int64_lia..|].
  destruct (addInt64WithOverflow (memory rc) size) as [c ok]; simpl in *. subst c.
  rewrite wrap64_small by int64_lia. destruct ok; simpl; [|done]. zcase; [done|]. intros _.
  destruct (decide (0 <= GetMemoryLimit (limit rc))) as [Hpos|Hneg].
  - destruct (memoryThreshold_spec (GetMemoryLimit (limit rc)) prio) as [_ Hb]; [int64_lia..|]. lia.
  - pose proof (memoryThreshold_nonpos (GetMemoryLimit (limit rc)) prio ltac:(int64_lia) Hp). lia.
Qed.


Lemma add64_0 r f : rc_wf r -> add64 (get f r) 0 = get f r.
Proof. intros Hwf. specialize (Hwf f). rewrite add64_small; int64_lia. Qed.

Lemma clamp0_sub_0 r f : rc_wf r -> clamp0 (sub64 (get f r) 0) = get f r.
Proof. intros Hwf. specialize (Hwf f). rewrite clamp0_sub; lia. Qed.

(** [rc_fields] closes the equations on the fields an operation leaves alone. *)
Ltac rc_fields Hwf :=
  pose proof (add64_0 _ FMemory Hwf); pose proof (add64_0 _ FStreamsIn Hwf);
  pose proof (add64_0 _ FStreamsOut Hwf); pose proof (add64_0 _ FConnsIn Hwf);
  pose proof (add64_0 _ FConnsOut Hwf); pose proof (add64_0 _ FFD Hwf);
  pose proof (clamp0_sub_0 _ FMemory Hwf); pose proof (clamp0_sub_0 _ FStreamsIn Hwf);
  pose proof (clamp0_sub_0 _ FStreamsOut Hwf); pose proof (clamp0_sub_0 _ FConnsIn Hwf);
  pose proof (clamp0_sub_0 _ FConnsOut Hwf); pose proof (clamp0_sub_0 _ FFD Hwf);
  simpl in *; congruence.

#[export] Instance memoryOp_laws size prio :
  0 <= size <= MaxInt64 -> 0 <= prio <= 255 -> ResourceOpLaws (memoryOp size prio).
Proof.
  intros Hs Hp. split; simpl.
  - intros f. case_decide; int64_lia.
  - intros r r' H. apply reserveMemory_inv in H as [_ ->]. done.
  - done.
  - intros r r' Hwf H. apply reserveMemory_inv in H as [_ ->]. rc_simpl.
    rewrite clamp0_undo by apply (Hwf FMemory). by destruct r.
  - intros r r' f Hwf H. apply reserveMemory_inv in H as [_ ->].
    destruct f; simpl; rc_fields Hwf.
  - intros r f Hwf. destruct f; simpl; rc_fields Hwf.
  - intros r r' Hl Hwf [Hfit _] Hin H. apply reserveMemory_inv in H as [Hc ->].
    specialize (Hfit FMemory). pose proof (Hwf FMemory). simpl in *.
    apply checkMemory_within in Hc; [|done..].
    unfold within_limits in *; simpl in *.
    rewrite add64_small by int64_lia. tauto.
Qed.

(** The streams part of the interface, for any counts. *)
Lemma addStreams_undo r i o r' :
  rc_wf r -> addStreams r i o = inr r' -> removeStreams r' i o = r.
Proof.
  intros Hwf H. apply addStreams_inv in H as (-> & _). rc_simpl.
  rewrite !clamp0_undo by (apply (Hwf FStreamsIn) || apply (Hwf FStreamsOut)).
  by destruct r.
Qed.

Lemma addStreams_within r i o r' :
  rc_wf r -> 0 <= i -> 0 <= o -> nstreamsIn r + i + nstreamsOut r + o <= MaxInt64 ->
  within_limits r -> addStreams r i o = inr r' -> within_limits r'.
Proof.
  intros Hwf Hi Ho Hfit Hin H. apply addStreams_inv in H as (-> & H1 & H2 & H3).
  pose proof (Hwf FStreamsIn). pose proof (Hwf FStreamsOut). simpl in *.
  rewrite (add64_small (nstreamsIn r) i), (add64_small (nstreamsOut r) o) in * by int64_lia.
  rewrite 2!add64_small in H3 by (rewrite ?add64_small; int64_lia).
  unfold within_limits in *; simpl in *.
  destruct_and!. split_and!; lia.
Qed.

Lemma addConns_undo r i o fd r' :
  rc_wf r -> addConns r i o fd = inr r' -> removeConns r' i o fd = r.
Proof.
  intros Hwf H. apply addConns_inv in H as (-> & _). rc_simpl.
  rewrite !clamp0_undo by (apply (Hwf FConnsIn) || apply (Hwf FConnsOut) || apply (Hwf FFD)).
  by destruct r.
Qed.

Lemma addConns_within r i o fd r' :
  rc_wf r -> 0 <= i -> 0 <= o -> 0 <= fd -> nfd r + fd <= MaxInt64 ->
  nconnsIn r + i + nconnsOut r + o <= MaxInt64 ->
  within_limits r -> addConns r i o fd = inr r' -> within_limits r'.
Proof.
  intros Hwf Hi Ho Hfd Hfitfd Hfit Hin H. apply addConns_inv in H as (-> & H1 & H2 & H3 & H4).
  pose proof (Hwf FConnsIn). pose proof (Hwf FConnsOut). pose proof (Hwf FFD). simpl in *.
  rewrite (add64_small (nconnsIn r) i), (add64_small (nconnsOut r) o),
    (add64_small (nfd r) fd) in * by int64_lia.
  rewrite 2!add64_small in H3 by (rewrite ?add64_small; int64_lia).
  unfold within_limits in *; simpl in *.
  destruct_and!. split_and!; lia.
Qed.

#[export] Instance streamOp_laws dir : ResourceOpLaws (streamOp dir).
Proof.
  split; simpl; unfold addStream, removeStream; destruct (isInbound dir).
  1,2: intros f; case_decide; int64_lia.
  1,2: intros r r' H; apply addStreams_inv in H as [-> _]; done.
  1,2: done.
  1,2: intros r r' Hwf H; by apply addStreams_undo.
  1,2: intros r r' f Hwf H; apply addStreams_inv in H as [-> _]; destruct f; simpl; rc_fields Hwf.
  1,2: intros r f Hwf; destruct f; simpl; rc_fields Hwf.
  1,2: intros r r' Hl Hwf (_ & Hfit & _) Hin H; simpl in Hfit;
       eapply addStreams_within; [..|exact H]; done || lia.
Qed.

#[export] Instance connOp_laws dir usefd : ResourceOpLaws (connOp dir usefd).
Proof.
  split; simpl; unfold addConn, removeConn; destruct (isInbound dir).
  1,2: intros f; destruct f, usefd; simpl; int64_lia.
  1,2: intros r r' H; apply addConns_inv in H as [-> _]; done.
  1,2: done.
  1,2: intros r r' Hwf H; by apply addConns_undo.
  1,2: intros r r' f Hwf H; apply addConns_inv in H as [-> _]; destruct f; simpl; rc_fields Hwf.
  1,2: intros r f Hwf; destruct f; simpl; rc_fields Hwf.
  1,2: intros r r' Hl Hwf (Hfd & _ & Hfit) Hin H; specialize (Hfd FFD); simpl in Hfd, Hfit;
       eapply addConns_within; [..|exact H]; done || (destruct usefd; simpl in *; lia).
Qed.

(** ** Whole stats *)

Lemma reserveStat_cases rc st :
  rc_wf rc ->
  match reserveStat rc st with
  | (rc', Some _) => rc' = rc
  | (rc', None) => limit rc' = limit rc
                   /\ forall f, get f rc' = add64 (get f rc) (statGet f st)
  end.
Proof.
  intros Hwf. unfold reserveStat.
  destruct (reserveMemory _ _ _) as [|r1] eqn:H1; [done|].
  apply reserveMemory_inv in H1 as [_ ->].
  destruct (addStreams _ _ _) as [|r2] eqn:H2.
  { rc_simpl. rewrite clamp0_undo by apply (Hwf FMemory). by destruct rc. }
  apply addStreams_inv in H2 as [-> _].
  destruct (addConns _ _ _) as [|r3] eqn:H3.
  { rc_simpl. rewrite !clamp0_undo
      by (apply (Hwf FMemory) || apply (Hwf FStreamsIn) || apply (Hwf FStreamsOut)).
    by destruct rc. }
  apply addConns_inv in H3 as [-> _]. split; [done|]. by intros [].
Qed.

Lemma releaseStat_get rc st f :
  get f (releaseStat rc st) = clamp0 (sub64 (get f rc) (statGet f st)).
Proof. by destruct f. Qed.

Lemma releaseStat_limit rc st : limit (releaseStat rc st) = limit rc.
Proof. done. Qed.

(** A failed [ReserveForChild] leaves the counters as they were, whichever of
    its three steps failed; a successful one adds the stat field by field, and
    releasing the stat restores the counters. *)
Theorem reserveStat_spec rc st :
  rc_wf rc ->
  match reserveStat rc st with
  | (rc', Some _) => rc' = rc
  | (rc', None) => limit rc' = limit rc
                   /\ (forall f, get f rc' = add64 (get f rc) (statGet f st))
                   /\ releaseStat rc' st = rc
  end.
Proof.
  intros Hwf. pose proof (reserveStat_cases rc st Hwf) as H.
  destruct (reserveStat rc st) as [rc' [e|]]; [done|]. destruct H as [Hl Hg].
  split_and!; [done|done|]. apply resources_ext; [done|]. intros f.
  rewrite releaseStat_get, Hg. apply clamp0_undo, Hwf.
Qed.

Lemma stat_nonneg rc f : rc_wf rc -> 0 <= statGet f (stat rc) <= MaxInt64.
Proof. rewrite statGet_stat. intros H. apply H. Qed.

Lemma reserveStat_within rc st rc' :
  limit_wf (limit rc) -> rc_wf rc -> (forall f, 0 <= statGet f st) ->
  fits rc (fun f => statGet f st) -> within_limits rc ->
  reserveStat rc st = (rc', None) -> within_limits rc'.
Proof.
  intros Hl Hwf Hst (Hfit & Hs & Hc) Hin. unfold reserveStat.
  pose proof (Hfit FMemory) as HfM. pose proof (Hfit FFD) as HfFD.
  pose proof (Hwf FMemory) as HwM.
  pose proof (Hst FMemory); pose proof (Hst FStreamsIn); pose proof (Hst FStreamsOut);
    pose proof (Hst FConnsIn); pose proof (Hst FConnsOut); pose proof (Hst FFD). simpl in *.
  destruct (reserveMemory _ _ _) as [|r1] eqn:E1; [done|].
  assert (Hin1 : within_limits r1).
  { apply reserveMemory_inv in E1 as [Hck ->].
    apply checkMemory_within in Hck; [|unfold ReservationPriorityAlways; done || lia..].
    unfold within_limits in *; simpl in *. rewrite add64_small by int64_lia. tauto. }
  apply reserveMemory_inv in E1 as [_ ->].
  assert (Hwf1 : rc_wf (set_memory rc (add64 (memory rc) (Memory st)))).
  { intros []; simpl; try apply (Hwf FStreamsIn); try apply (Hwf FStreamsOut);
      try apply (Hwf FConnsIn); try apply (Hwf FConnsOut); try apply (Hwf FFD).
    rewrite add64_small by int64_lia. lia. }
  destruct (addStreams _ _ _) as [|r2] eqn:E2; [done|].
  assert (Hin2 : within_limits r2)
    by (eapply addStreams_within; [exact Hwf1|..|exact E2]; simpl; done || lia).
  apply addStreams_inv in E2 as [-> _].
  assert (Hwf2 : rc_wf (set_streams (set_memory rc (add64 (memory rc) (Memory st)))
      (add64 (nstreamsIn rc) (NumStreamsInbound st))
      (add64 (nstreamsOut rc) (NumStreamsOutbound st)))).
  { pose proof (Hfit FStreamsIn); pose proof (Hfit FStreamsOut).
    pose proof (Hwf FStreamsIn); pose proof (Hwf FStreamsOut). simpl in *.
    intros []; simpl; try apply (Hwf1 FMemory); try apply (Hwf FConnsIn);
      try apply (Hwf FConnsOut); try apply (Hwf FFD); rewrite add64_small by int64_lia; lia. }
  destruct (addConns _ _ _) as [|r3] eqn:E3; [done|]. intros [= <-].
  eapply addConns_within; [..|exact E3]; simpl; done || lia.
Qed.

(** Reserving in a scope with the memory limit [MaxInt64] is not checked for
    overflow: two reservations of [2^62] bytes leave a negative counter. *)
Theorem unlimited_memory_wraps l :
  GetMemoryLimit l = MaxInt64 ->
  exists rc1 rc2,
    reserveMemory (newResources l) (2 ^ 62) 255 = inr rc1
    /\ reserveMemory rc1 (2 ^ 62) 255 = inr rc2
    /\ memory rc2 < 0.
Proof.
  intros Hl. unfold reserveMemory, checkMemory. simpl. rewrite Hl.
  eexists _, _. split; [reflexivity|]. simpl. rewrite Hl. split; reflexivity.
Qed.

(** ** Witnesses *)
Module ResourcesExample.
Definition lim : BaseLimit := mkBaseLimit 8 4 4 8 4 4 2 1000.
Definition rc0 : resources := set_memory (newResources lim) 300.
Definition st0 : ScopeStat := mkScopeStat 1 1 5 0 1 100.
End ResourcesExample.

(** At priority 101, 398 of 1000 bytes may be used: 98 more fit, 99 do not. *)
Lemma checkMemory_spec_witness :
  checkMemory ResourcesExample.rc0 98 101 = None /\ checkMemory ResourcesExample.rc0 99 101 <> None.
Proof.
  split.
  - apply checkMemory_spec; simpl; try int64_lia. vm_compute. split; congruence.
  - intros H. apply checkMemory_spec in H; simpl in *; try int64_lia.
    destruct H as [_ H]. vm_compute in H. by apply H.
Defined.

(** The connections of the stat exceed the limit: memory and streams are undone. *)
Lemma reserveStat_spec_witness :
  reserveStat ResourcesExample.rc0 ResourcesExample.st0
  = (ResourcesExample.rc0,
     Some (ErrStreamOrConnLimitExceeded "cannot reserve inbound connection" 0 5 4)).
Proof.
  assert (Hwf : rc_wf ResourcesExample.rc0) by (intros []; simpl; int64_lia).
  pose proof (reserveStat_spec ResourcesExample.rc0 ResourcesExample.st0 Hwf) as H.
  destruct (reserveStat ResourcesExample.rc0 ResourcesExample.st0) as [r e] eqn:E.
  assert (e = Some (ErrStreamOrConnLimitExceeded "cannot reserve inbound connection" 0 5 4)) as ->
    by (apply (f_equal snd) in E; vm_compute in E; exact (eq_sym E)).
  by rewrite H.
Defined.

Lemma unlimited_memory_wraps_witness :
  exists rc1 rc2,
    reserveMemory (newResources (mkBaseLimit 1 1 1 1 1 1 1 MaxInt64)) (2 ^ 62) 255 = inr rc1
    /\ reserveMemory rc1 (2 ^ 62) 255 = inr rc2
    /\ memory rc2 < 0.
Proof. apply unlimited_memory_wraps. reflexivity. Defined.
