(* ===== verification/Scope.v ===== *)
(** * Resource scopes (p2p/host/resource-manager/scope.go, type resourceScope)

    Scopes live in a heap and point to each other: a span scope to its owner, a
    DAG scope to its linearized parent set.  Every method takes the scope's
    mutex for its whole body, so a call is one step on the heap; the calls it
    makes on owners and parents happen inside it, as in the source.  Tracing,
    metrics and logging have no effect on the heap and are left out. *)
From Stdlib Require Import ZArith Lia.
From stdpp Require Import base tactics sets list numbers option strings pretty gmap.
From S2P Require Import Prelude Limits Resources.
Local Open Scope Z_scope.
Import Int64.

(** ** State *)

(** [owner] is set in span scopes, [edges] in DAG scopes; pointers are indices
    into the heap, a new scope gets the next index. *)
Record resourceScope := mkScope {
  done : bool;
  refCnt : Z;
  spanID : Z;
  rc : resources;
  owner : option nat;
  edges : list nat;
  name : string }.

Abbreviation heap := (list resourceScope).

Definition set_rc (s : resourceScope) (r : resources) : resourceScope :=
  mkScope (done s) (refCnt s) (spanID s) r (owner s) (edges s) (name s).
Definition set_refCnt (s : resourceScope) (n : Z) : resourceScope :=
  mkScope (done s) n (spanID s) (rc s) (owner s) (edges s) (name s).
Definition set_spanID (s : resourceScope) (n : Z) : resourceScope :=
  mkScope (done s) (refCnt s) n (rc s) (owner s) (edges s) (name s).
Definition set_edges (s : resourceScope) (es : list nat) : resourceScope :=
  mkScope (done s) (refCnt s) (spanID s) (rc s) (owner s) es (name s).

Definition wrapError (s : resourceScope) (err : rc_error) : rc_error := ErrWrapped (name s) err.

(** ** Reference counts *)
Definition IncRef (h : heap) (s : nat) : heap :=
  alter (fun sc => set_refCnt sc (add64 (refCnt sc) 1)) s h.
Definition DecRef (h : heap) (s : nat) : heap :=
  alter (fun sc => set_refCnt sc (sub64 (refCnt sc) 1)) s h.

(** ** Creation *)
Definition newResourceScope (h : heap) (l : Limit) (es : list nat) (nm : string) : heap * nat :=
  let h := fold_left IncRef es h in
  (h ++ [mkScope false 0 0 (newResources l) None es nm], length h).

Definition newResourceScopeSpan (h : heap) (o : nat) (osc : resourceScope) (id : Z) : heap * nat :=
  (h ++ [mkScope false 0 0 (newResources (limit (rc osc))) (Some o) []
          (name osc +:+ ".span-" +:+ pretty id)], length h).

(** ** Reserving and releasing, for any resource

    The three groups of methods for memory, streams and connections have the
    same bodies up to the counter operation, which is the argument [op] here. *)

(** [ReserveMemoryForChild], [AddStreamForChild], [AddConnForChild] *)
Definition addForChild (op : ResourceOp) (h : heap) (s : nat)
    : heap * (ScopeStat * option rc_error) :=
  match h !! s with
  | None => (h, (zeroStat, Some ErrNilScope))
  | Some sc =>
      if done sc then (h, (stat (rc sc), Some (wrapError sc ErrResourceScopeClosed)))
      else match op_add op (rc sc) with
           | inl err => (h, (stat (rc sc), Some (wrapError sc err)))
           | inr r => (<[s := set_rc sc r]> h, (zeroStat, None))
           end
  end.

(** [ReleaseMemoryForChild], [RemoveStreamForChild], [RemoveConnForChild] *)
Definition removeForChild (rm : resources -> resources) (h : heap) (s : nat) : heap :=
  match h !! s with
  | None => h
  | Some sc => if done sc then h else <[s := set_rc sc (rm (rc sc))]> h
  end.

(** The loop over the edges: the heap, how many edges were reserved, the error
    that stopped it. *)
Fixpoint addEdges (op : ResourceOp) (h : heap) (es : list nat) : heap * nat * option rc_error :=
  match es with
  | [] => (h, 0%nat, None)
  | e :: es =>
      match addForChild op h e with
      | (h, (_, Some err)) => (h, 0%nat, Some err)
      | (h, (_, None)) => let '(h, reserved, err) := addEdges op h es in (h, S reserved, err)
      end
  end.

(** The DAG half of [reserveMemoryForEdges], [addStreamForEdges],
    [addConnForEdges]: the loop, and its undo when an edge refuses. *)
Definition addForEdges (op : ResourceOp) (h : heap) (es : list nat) : heap * option rc_error :=
  let '(h, reserved, err) := addEdges op h es in
  match err with
  | None => (h, None)
  | Some err => (fold_left (removeForChild (op_rem op)) (take reserved es) h, Some err)
  end.

(** [ReserveMemory], [AddStream], [AddConn], with the owner half of the
    [...ForEdges] functions inlined.  The fuel bounds the owner chain. *)
Fixpoint add (fuel : nat) (op : ResourceOp) (h : heap) (s : nat) : heap * option rc_error :=
  match fuel with
  | O => (h, Some ErrOutOfFuel)
  | S fuel =>
      match h !! s with
      | None => (h, Some ErrNilScope)
      | Some sc =>
          if done sc then (h, Some (wrapError sc ErrResourceScopeClosed))
          else match op_add op (rc sc) with
               | inl err => (h, Some (wrapError sc err))
               | inr r =>
                   let h := <[s := set_rc sc r]> h in
                   let '(h, err) :=
                     match owner sc with
                     | Some o => add fuel op h o
                     | None => addForEdges op h (edges sc)
                     end in
                   match err with
                   | Some err =>
                       (alter (fun sc => set_rc sc (op_rem op (rc sc))) s h, Some (wrapError sc err))
                   | None => (h, None)
                   end
               end
      end
  end.

(** [ReleaseMemory], [RemoveStream], [RemoveConn], [ReleaseResources].  After
    releasing in the owner, [removeConnForEdges] falls through to the loop over
    the edges where the others return: [falls] says which. *)
Fixpoint remove (fuel : nat) (rm : resources -> resources) (falls : bool) (h : heap) (s : nat)
    : heap :=
  match fuel with
  | O => h
  | S fuel =>
      match h !! s with
      | None => h
      | Some sc =>
          if done sc then h
          else
            let h := <[s := set_rc sc (rm (rc sc))]> h in
            match owner sc with
            | Some o =>
                let h := remove fuel rm falls h o in
                if falls then fold_left (removeForChild rm) (edges sc) h else h
            | None => fold_left (removeForChild rm) (edges sc) h
            end
      end
  end.

(** Owners are older than their spans, so a chain of owners from scope [s] has
    at most [s + 1] scopes. *)
Definition chainFuel (s : nat) : nat := S s.

(** ** The methods *)
Definition ReserveMemory (h : heap) (s : nat) (size prio : Z) : heap * option rc_error :=
  add (chainFuel s) (memoryOp size prio) h s.
Definition ReserveMemoryForChild (h : heap) (s : nat) (size prio : Z)
    : heap * (ScopeStat * option rc_error) := addForChild (memoryOp size prio) h s.
Definition ReleaseMemory (h : heap) (s : nat) (size : Z) : heap :=
  remove (chainFuel s) (fun r => releaseMemory r size) false h s.
Definition ReleaseMemoryForChild (h : heap) (s : nat) (size : Z) : heap :=
  removeForChild (fun r => releaseMemory r size) h s.

Definition AddStream (h : heap) (s : nat) (dir : Direction) : heap * option rc_error :=
  add (chainFuel s) (streamOp dir) h s.
Definition AddStreamForChild (h : heap) (s : nat) (dir : Direction)
    : heap * (ScopeStat * option rc_error) := addForChild (streamOp dir) h s.
Definition RemoveStream (h : heap) (s : nat) (dir : Direction) : heap :=
  remove (chainFuel s) (fun r => removeStream r dir) false h s.
Definition RemoveStreamForChild (h : heap) (s : nat) (dir : Direction) : heap :=
  removeForChild (fun r => removeStream r dir) h s.

Definition AddConn (h : heap) (s : nat) (dir : Direction) (usefd : bool) : heap * option rc_error :=
  add (chainFuel s) (connOp dir usefd) h s.
Definition AddConnForChild (h : heap) (s : nat) (dir : Direction) (usefd : bool)
    : heap * (ScopeStat * option rc_error) := addForChild (connOp dir usefd) h s.
Definition RemoveConn (h : heap) (s : nat) (dir : Direction) (usefd : bool) : heap :=
  remove (chainFuel s) (fun r => removeConn r dir usefd) true h s.
Definition RemoveConnForChild (h : heap) (s : nat) (dir : Direction) (usefd : bool) : heap :=
  removeForChild (fun r => removeConn r dir usefd) h s.

Definition ReserveForChild (h : heap) (s : nat) (st : ScopeStat) : heap * option rc_error :=
  match h !! s with
  | None => (h, Some ErrNilScope)
  | Some sc =>
      if done sc then (h, Some (wrapError sc ErrResourceScopeClosed))
      else let '(r, err) := reserveStat (rc sc) st in
           (<[s := set_rc sc r]> h, wrapError sc <$> err)
  end.

Definition ReleaseForChild (h : heap) (s : nat) (st : ScopeStat) : heap :=
  removeForChild (fun r => releaseStat r st) h s.

Definition ReleaseResources (h : heap) (s : nat) (st : ScopeStat) : heap :=
  remove (chainFuel s) (fun r => releaseStat r st) false h s.

Definition BeginSpan (h : heap) (s : nat) : heap * (rc_error + nat) :=
  match h !! s with
  | None => (h, inl ErrNilScope)
  | Some sc =>
      if done sc then (h, inl (wrapError sc ErrResourceScopeClosed))
      else
        let id := add64 (spanID sc) 1 in
        let sc := set_spanID (set_refCnt sc (add64 (refCnt sc) 1)) id in
        let '(h, span) := newResourceScopeSpan (<[s := sc]> h) s sc id in
        (h, inr span)
  end.

(** The scope after [doneUnlocked]: counters zero, [done] set. *)
Definition closeScope (sc : resourceScope) : resourceScope :=
  mkScope true (refCnt sc) (spanID sc) (newResources (limit (rc sc))) (owner sc) (edges sc) (name sc).

Definition Done (h : heap) (s : nat) : heap :=
  match h !! s with
  | None => h
  | Some sc =>
      if done sc then h
      else
        let st := stat (rc sc) in
        let h :=
          match owner sc with
          | Some o => DecRef (ReleaseResources h o st) o
          | None => fold_left (fun h e => DecRef (ReleaseForChild h e st) e) (edges sc) h
          end in
        alter closeScope s h
  end.

Definition Stat (h : heap) (s : nat) : option ScopeStat := (fun sc => stat (rc sc)) <$> h !! s.

(** Memory is not looked at. *)
Definition IsUnused (sc : resourceScope) : bool :=
  if done sc then true
  else if 0 <? refCnt sc then false
  else
    let st := stat (rc sc) in
    (NumStreamsInbound st =? 0) && (NumStreamsOutbound st =? 0)
    && (NumConnsInbound st =? 0) && (NumConnsOutbound st =? 0) && (NumFD st =? 0).

(** ** The scopes a reservation is charged to *)

Definition live (h : heap) (s : nat) : bool :=
  match h !! s with Some sc => negb (done sc) | None => false end.

(** The scopes a reservation in [s] has to pass: [s], its owners up to the root
    of the span tree, and the root's edges. *)
Fixpoint path_go (fuel : nat) (h : heap) (s : nat) : list nat :=
  match fuel with
  | O => []
  | S fuel =>
      match h !! s with
      | None => []
      | Some sc => s :: match owner sc with Some o => path_go fuel h o | None => edges sc end
      end
  end.
Definition path (h : heap) (s : nat) : list nat := path_go (chainFuel s) h s.

(** The scopes whose counters hold what was reserved in [s]: the path, cut at the
    first closed scope of the span tree, without the closed edges. *)
Fixpoint charge_go (fuel : nat) (h : heap) (s : nat) : list nat :=
  match fuel with
  | O => []
  | S fuel =>
      match h !! s with
      | None => []
      | Some sc =>
          if done sc then []
          else s :: match owner sc with
                    | Some o => charge_go fuel h o
                    | None => filter (fun e => live h e) (edges sc)
                    end
      end
  end.
Definition charge (h : heap) (s : nat) : list nat := charge_go (chainFuel s) h s.

(** Owners are older scopes, a span has no edges, the edges of a DAG scope are
    distinct scopes that are not spans and not the scope itself. *)
Definition scope_shape_wf (h : heap) (s : nat) (sc : resourceScope) : Prop :=
  match owner sc with
  | Some o => (o < s)%nat /\ edges sc = []
  | None =>
      NoDup (edges sc) /\ (s ∉ edges sc) /\
      forall e, e ∈ edges sc -> exists esc, h !! e = Some esc /\ owner esc = None
  end.

Definition shape_wf (h : heap) : Prop :=
  forall s sc, h !! s = Some sc -> scope_shape_wf h s sc.

Definition counters_wf (h : heap) : Prop :=
  forall s sc, h !! s = Some sc -> rc_wf (rc sc).

Definition heap_wf (h : heap) : Prop := shape_wf h /\ counters_wf h.

(** *** Updating the counters of a list of scopes *)
Definition apply_rc (f : resources -> resources) (l : list nat) (h : heap) : heap :=
  fold_left (fun h t => alter (fun sc => set_rc sc (f (rc sc))) t h) l h.

Lemma apply_rc_cons f t l h :
  apply_rc f (t :: l) h = apply_rc f l (alter (fun sc => set_rc sc (f (rc sc))) t h).
Proof. done. Qed.

Lemma apply_rc_app f l1 l2 h : apply_rc f (l1 ++ l2) h = apply_rc f l2 (apply_rc f l1 h).
Proof. apply fold_left_app. Qed.

Lemma apply_rc_notin f l h t : t ∉ l -> apply_rc f l h !! t = h !! t.
Proof.
  revert h. induction l as [|u l IH]; intros h Ht; [done|].
  rewrite apply_rc_cons, IH by set_solver. apply list_lookup_alter_ne. set_solver.
Qed.

Lemma apply_rc_in f l h t :
  NoDup l -> t ∈ l -> apply_rc f l h !! t = (fun sc => set_rc sc (f (rc sc))) <$> h !! t.
Proof.
  intros Hnd. revert h. induction Hnd as [|u l Hu Hnd IH]; intros h Ht; [set_solver|].
  rewrite apply_rc_cons. apply elem_of_cons in Ht as [->|Ht].
  - rewrite apply_rc_notin by done. apply list_lookup_alter_eq.
  - rewrite IH by done. f_equal. apply list_lookup_alter_ne. set_solver.
Qed.

Lemma apply_rc_lookup f l h t :
  NoDup l ->
  apply_rc f l h !! t =
    if decide (t ∈ l) then (fun sc => set_rc sc (f (rc sc))) <$> h !! t else h !! t.
Proof. intros. case_decide; [by apply apply_rc_in|by apply apply_rc_notin]. Qed.

Lemma apply_rc_length f l h : length (apply_rc f l h) = length h.
Proof.
  revert h. induction l as [|u l IH]; intros h; [done|].
  rewrite apply_rc_cons, IH. apply length_alter.
Qed.

(** *** The shape of the heap

    [done], [owner] and [edges] decide charges; counter updates keep them. *)
Definition shape (h : heap) : list (bool * option nat * list nat) :=
  (fun sc => (done sc, owner sc, edges sc)) <$> h.

Lemma shape_lookup h h' s sc :
  shape h = shape h' -> h !! s = Some sc ->
  exists sc', h' !! s = Some sc' /\ done sc' = done sc /\ owner sc' = owner sc /\ edges sc' = edges sc.
Proof.
  intros Hs Hl. apply (f_equal (fun l => l !! s)) in Hs. unfold shape in Hs.
  rewrite !list_lookup_fmap, Hl in Hs. simpl in Hs.
  destruct (h' !! s) as [sc'|]; simpl in Hs; [|done]. injection Hs as -> -> ->. eauto.
Qed.

Lemma shape_lookup_None h h' s : shape h = shape h' -> h !! s = None -> h' !! s = None.
Proof.
  intros Hs Hl. apply (f_equal (fun l => l !! s)) in Hs. unfold shape in Hs.
  rewrite !list_lookup_fmap, Hl in Hs. by destruct (h' !! s).
Qed.

Lemma shape_alter g h s :
  (forall sc, (done (g sc), owner (g sc), edges (g sc)) = (done sc, owner sc, edges sc)) ->
  shape (alter g s h) = shape h.
Proof.
  intros Hg. apply list_eq. intros i. unfold shape. rewrite !list_lookup_fmap.
  destruct (decide (i = s)) as [->|]; [|by rewrite list_lookup_alter_ne].
  rewrite list_lookup_alter_eq. destruct (h !! s); simpl; [|done]. by rewrite Hg.
Qed.

Lemma shape_apply_rc f l h : shape (apply_rc f l h) = shape h.
Proof.
  revert h. induction l as [|t l IH]; intros h; [done|].
  rewrite apply_rc_cons, IH. by apply shape_alter.
Qed.

Lemma shape_live h h' s : shape h = shape h' -> live h s = live h' s.
Proof.
  intros Hs. unfold live. destruct (h !! s) as [sc|] eqn:Hl.
  - destruct (shape_lookup _ _ _ _ Hs Hl) as (sc' & -> & -> & _). done.
  - by rewrite (shape_lookup_None _ _ _ Hs Hl).
Qed.

Lemma shape_path_go n h h' s : shape h = shape h' -> path_go n h s = path_go n h' s.
Proof.
  intros Hs. revert s. induction n as [|n IH]; intros s; [done|]. simpl.
  destruct (h !! s) as [sc|] eqn:Hl.
  - destruct (shape_lookup _ _ _ _ Hs Hl) as (sc' & -> & _ & -> & ->).
    destruct (owner sc); [by rewrite IH|done].
  - by rewrite (shape_lookup_None _ _ _ Hs Hl).
Qed.

Lemma shape_charge_go n h h' s : shape h = shape h' -> charge_go n h s = charge_go n h' s.
Proof.
  intros Hs. revert s. induction n as [|n IH]; intros s; [done|]. simpl.
  destruct (h !! s) as [sc|] eqn:Hl.
  - destruct (shape_lookup _ _ _ _ Hs Hl) as (sc' & -> & -> & -> & ->).
    destruct (done sc); [done|]. f_equal. destruct (owner sc); [by rewrite IH|].
    apply list_filter_iff. intros e. by rewrite (shape_live _ _ _ Hs).
  - by rewrite (shape_lookup_None _ _ _ Hs Hl).
Qed.

Lemma shape_charge h h' s : shape h = shape h' -> charge h s = charge h' s.
Proof. apply shape_charge_go. Qed.

Lemma shape_wf_shape h h' : shape h = shape h' -> shape_wf h -> shape_wf h'.
Proof.
  intros Hs Hwf s sc Hl. symmetry in Hs.
  destruct (shape_lookup _ _ _ _ Hs Hl) as (sc0 & Hl0 & _ & Ho & He).
  specialize (Hwf _ _ Hl0). unfold scope_shape_wf in *. rewrite Ho, He in Hwf.
  destruct (owner sc); [done|]. destruct Hwf as (? & ? & Hed). split_and!; try done.
  intros e Hin. destruct (Hed e Hin) as (esc & Hesc & Heo). symmetry in Hs.
  destruct (shape_lookup _ _ _ _ Hs Hesc) as (esc' & ? & _ & ? & _). eauto with congruence.
Qed.

Lemma shape_update h s f : shape (alter (fun sc => set_rc sc (f (rc sc))) s h) = shape h.
Proof. by apply shape_alter. Qed.

Lemma insert_alter (h : heap) s sc g : h !! s = Some sc -> <[s := g sc]> h = alter g s h.
Proof.
  intros Hl. apply list_eq. intros i. destruct (decide (i = s)) as [->|].
  - rewrite list_lookup_insert_eq by (by eapply lookup_lt_Some).
    by rewrite list_lookup_alter_eq, Hl.
  - by rewrite list_lookup_insert_ne, list_lookup_alter_ne.
Qed.

(** *** Paths and charges do not depend on spare fuel *)
Lemma path_go_fuel h s n m : shape_wf h -> (s < n)%nat -> (s < m)%nat -> path_go n h s = path_go m h s.
Proof.
  intros Hwf. revert n m. induction s as [s IH] using lt_wf_ind. intros [|n] [|m] Hn Hm; try lia.
  simpl. destruct (h !! s) as [sc|] eqn:Hl; [|done]. f_equal.
  specialize (Hwf _ _ Hl). unfold scope_shape_wf in Hwf. destruct (owner sc) as [o|]; [|done].
  apply IH; lia.
Qed.

Lemma charge_go_fuel h s n m :
  shape_wf h -> (s < n)%nat -> (s < m)%nat -> charge_go n h s = charge_go m h s.
Proof.
  intros Hwf. revert n m. induction s as [s IH] using lt_wf_ind. intros [|n] [|m] Hn Hm; try lia.
  simpl. destruct (h !! s) as [sc|] eqn:Hl; [|done]. destruct (done sc); [done|]. f_equal.
  specialize (Hwf _ _ Hl). unfold scope_shape_wf in Hwf. destruct (owner sc) as [o|]; [|done].
  apply IH; lia.
Qed.

Lemma path_unfold h s sc :
  shape_wf h -> h !! s = Some sc ->
  path h s = s :: match owner sc with Some o => path h o | None => edges sc end.
Proof.
  intros Hwf Hl. change (path h s) with (path_go (S s) h s). cbn [path_go]. rewrite Hl. f_equal.
  pose proof (Hwf _ _ Hl) as Hs. unfold scope_shape_wf in Hs. destruct (owner sc) as [o|]; [|done].
  apply path_go_fuel; [done|..]; unfold chainFuel; lia.
Qed.

Lemma charge_unfold h s sc :
  shape_wf h -> h !! s = Some sc ->
  charge h s = if done sc then []
               else s :: match owner sc with
                         | Some o => charge h o
                         | None => filter (fun e => live h e) (edges sc)
                         end.
Proof.
  intros Hwf Hl. change (charge h s) with (charge_go (S s) h s). cbn [charge_go]. rewrite Hl.
  destruct (done sc); [done|]. f_equal.
  pose proof (Hwf _ _ Hl) as Hs. unfold scope_shape_wf in Hs. destruct (owner sc) as [o|]; [|done].
  apply charge_go_fuel; [done|..]; unfold chainFuel; lia.
Qed.

Lemma charge_None h s : h !! s = None -> charge h s = [].
Proof. intros Hl. unfold charge. simpl. by rewrite Hl. Qed.

(** Only the span tree below a span can have it on a path. *)
Lemma path_span_le h s t tsc o :
  shape_wf h -> h !! t = Some tsc -> owner tsc = Some o -> t ∈ path h s -> (t <= s)%nat.
Proof.
  intros Hwf Ht Ho. induction s as [s IH] using lt_wf_ind.
  destruct (h !! s) as [sc|] eqn:Hl.
  - rewrite (path_unfold h s sc) by done. pose proof (Hwf _ _ Hl) as Hs.
    unfold scope_shape_wf in Hs. intros [->|Hin]%elem_of_cons; [done|].
    destruct (owner sc) as [o'|].
    + destruct Hs as [Hlt _]. specialize (IH o' Hlt Hin). lia.
    + destruct Hs as (_ & _ & He). destruct (He _ Hin) as (esc & Hesc & Hnone). congruence.
  - unfold path. simpl. rewrite Hl. set_solver.
Qed.

Lemma path_NoDup h s : shape_wf h -> NoDup (path h s).
Proof.
  intros Hwf. induction s as [s IH] using lt_wf_ind.
  destruct (h !! s) as [sc|] eqn:Hl; [|unfold path; simpl; rewrite Hl; constructor].
  rewrite (path_unfold h s sc) by done. pose proof (Hwf _ _ Hl) as Hs.
  unfold scope_shape_wf in Hs. destruct (owner sc) as [o|] eqn:Ho.
  - destruct Hs as [Hlt _]. constructor; [|by apply IH].
    intros Hin. apply (path_span_le h o s sc o) in Hin; [lia|done..].
  - destruct Hs as (? & ? & _). by constructor.
Qed.

Lemma charge_sublist h s : shape_wf h -> charge h s `sublist_of` path h s.
Proof.
  intros Hwf. induction s as [s IH] using lt_wf_ind.
  destruct (h !! s) as [sc|] eqn:Hl; [|rewrite charge_None by done; apply sublist_nil_l].
  rewrite (path_unfold h s sc), (charge_unfold h s sc) by done.
  destruct (done sc); [apply sublist_nil_l|]. apply sublist_skip.
  pose proof (Hwf _ _ Hl) as Hs. unfold scope_shape_wf in Hs. destruct (owner sc) as [o|].
  - apply IH. lia.
  - apply sublist_filter.
Qed.

Lemma charge_NoDup h s : shape_wf h -> NoDup (charge h s).
Proof. intros Hwf. eapply sublist_NoDup; [by apply path_NoDup|by apply charge_sublist]. Qed.

Lemma charge_path h s t : shape_wf h -> t ∈ charge h s -> t ∈ path h s.
Proof. intros Hwf Ht. eapply elem_of_sublist; [done|by apply charge_sublist]. Qed.

Lemma charge_live h s t : t ∈ charge h s -> live h t = true.
Proof.
  unfold charge. generalize (chainFuel s) as n. intros n. revert s.
  induction n as [|n IH]; intros s; simpl; [set_solver|].
  destruct (h !! s) as [sc|] eqn:Hl; [|set_solver].
  destruct (done sc) eqn:Hd; [set_solver|].
  intros [->|Hin]%elem_of_cons; [unfold live; by rewrite Hl, Hd|].
  destruct (owner sc) as [o|]; [by eapply IH|].
  apply list_elem_of_filter in Hin as [Hin _]. by destruct (live h t).
Qed.

(** *** Releasing *)
Lemma removeForChild_live rm h s :
  removeForChild rm h s =
    if live h s then alter (fun sc => set_rc sc (rm (rc sc))) s h else h.
Proof.
  unfold removeForChild, live. destruct (h !! s) as [sc|] eqn:Hl; [|done].
  destruct (done sc); simpl; [done|].
  by apply (insert_alter h s sc (fun sc => set_rc sc (rm (rc sc)))).
Qed.

Lemma fold_removeForChild rm l h :
  fold_left (removeForChild rm) l h = apply_rc rm (filter (fun e => live h e) l) h.
Proof.
  revert h. induction l as [|e l IH]; intros h; [done|]. simpl.
  rewrite removeForChild_live, filter_cons. destruct (live h e) eqn:He.
  - rewrite decide_True by done. rewrite apply_rc_cons, IH. f_equal.
    apply list_filter_iff. intros x. by rewrite (shape_live _ h x) by apply shape_update.
  - rewrite decide_False by (intros []). apply IH.
Qed.

(** Releasing in a scope releases in exactly the scopes it is charged to. *)
Lemma remove_charge n rm falls h s :
  shape_wf h -> (s < n)%nat -> remove n rm falls h s = apply_rc rm (charge_go n h s) h.
Proof.
  revert h s. induction n as [|n IH]; intros h s Hwf Hs; [lia|]. cbn [remove charge_go].
  destruct (h !! s) as [sc|] eqn:Hl; [|done]. destruct (done sc) eqn:Hd; [done|].
  rewrite (insert_alter h s sc (fun sc => set_rc sc (rm (rc sc)))) by done.
  set (h1 := alter _ s h). assert (Hsh : shape h1 = shape h) by apply shape_update.
  rewrite apply_rc_cons. fold h1.
  pose proof (Hwf _ _ Hl) as Hsc. unfold scope_shape_wf in Hsc. destruct (owner sc) as [o|].
  - destruct Hsc as [Ho ->]. simpl.
    rewrite IH by (lia || by eapply shape_wf_shape).
    rewrite (shape_charge_go n h1 h) by done. by destruct falls.
  - rewrite fold_removeForChild. f_equal.
    apply list_filter_iff. intros x. by rewrite (shape_live _ _ x Hsh).
Qed.

(** *** Reserving *)
Definition admits (op : ResourceOp) (h : heap) (s : nat) : bool :=
  match h !! s with
  | Some sc =>
      negb (done sc) && match op_add op (rc sc) with inr _ => true | inl _ => false end
  | None => false
  end.

Definition addf (op : ResourceOp) (r : resources) : resources :=
  match op_add op r with inr r' => r' | inl _ => r end.

Lemma admits_inv op h s :
  admits op h s = true ->
  exists sc r, h !! s = Some sc /\ done sc = false /\ op_add op (rc sc) = inr r.
Proof.
  unfold admits. destruct (h !! s) as [sc|]; [|done]. destruct (done sc) eqn:Hd; [done|].
  destruct (op_add op (rc sc)) as [|r] eqn:Hr; [done|]. eauto.
Qed.

Lemma admits_alter_ne op h g s t : t <> s -> admits op (alter g s h) t = admits op h t.
Proof. intros Hne. unfold admits. by rewrite list_lookup_alter_ne. Qed.

Lemma addForChild_spec op h s :
  match addForChild op h s with
  | (h', (_, None)) =>
      admits op h s = true /\ h' = alter (fun sc => set_rc sc (addf op (rc sc))) s h
  | (h', (_, Some _)) => admits op h s = false /\ h' = h
  end.
Proof.
  unfold addForChild, admits. destruct (h !! s) as [sc|] eqn:Hl; [|done].
  destruct (done sc); [done|]. simpl. destruct (op_add op (rc sc)) as [|r] eqn:Hr; [done|].
  split; [done|]. rewrite <- (insert_alter h s sc (fun sc => set_rc sc (addf op (rc sc)))) by done.
  unfold addf. by rewrite Hr.
Qed.

Lemma addEdges_spec op h es :
  NoDup es ->
  match addEdges op h es with
  | (h', _, None) => forallb (admits op h) es = true /\ h' = apply_rc (addf op) es h
  | (h', n, Some _) =>
      forallb (admits op h) es = false /\ forallb (admits op h) (take n es) = true
      /\ h' = apply_rc (addf op) (take n es) h
  end.
Proof.
  intros Hnd. revert h. induction Hnd as [|e es He Hnd IH]; intros h; [done|]. simpl.
  pose proof (addForChild_spec op h e) as Hc.
  destruct (addForChild op h e) as [h1 [st [err|]]]; destruct Hc as [Hadm ->].
  - rewrite Hadm. done.
  - rewrite Hadm. simpl.
    specialize (IH (alter (fun sc => set_rc sc (addf op (rc sc))) e h)).
    assert (Hsame : forall l, e ∉ l ->
      forallb (admits op (alter (fun sc => set_rc sc (addf op (rc sc))) e h)) l
      = forallb (admits op h) l).
    { induction l as [|x l IHl]; intros Hx; [done|]. simpl.
      rewrite admits_alter_ne, IHl by set_solver. done. }
    destruct (addEdges _ _ es) as [[h2 n] [err|]].
    + destruct IH as (H1 & H2 & ->). rewrite Hsame in H1 by done.
      rewrite Hsame in H2 by (intros (i & Hi & _)%elem_of_take; apply He; by eapply list_elem_of_lookup_2).
      simpl. by rewrite Hadm, H1, H2.
    + destruct IH as (H1 & ->). rewrite Hsame in H1 by done. done.
Qed.

(** Undoing the reservations of a list of scopes restores the heap. *)
Lemma apply_rc_undo op (laws : ResourceOpLaws op) l h :
  NoDup l -> forallb (admits op h) l = true ->
  (forall t sc, t ∈ l -> h !! t = Some sc -> rc_wf (rc sc)) ->
  apply_rc (op_rem op) l (apply_rc (addf op) l h) = h.
Proof.
  intros Hnd Hadm Hwf. apply list_eq. intros t. rewrite !apply_rc_lookup by done.
  case_decide as Ht; [|done].
  assert (Ha : admits op h t = true).
  { eapply forallb_forall in Hadm; [exact Hadm|]. by apply list_elem_of_In. }
  apply admits_inv in Ha as (sc & r & Hl & _ & Hr). specialize (Hwf _ _ Ht Hl).
  rewrite Hl. simpl. f_equal. unfold addf. rewrite Hr. simpl.
  rewrite (op_undo (rc sc) r) by done. by destruct sc.
Qed.

Lemma forallb_admits_live op h l :
  forallb (admits op h) l = true -> filter (fun e => live h e) l = l.
Proof.
  induction l as [|e l IH]; [done|]. simpl. intros [He Hl]%andb_true_iff.
  apply admits_inv in He as (sc & r & Hs & Hd & _).
  rewrite filter_cons_True by (unfold live; by rewrite Hs, Hd). by rewrite IH.
Qed.

Lemma addForEdges_spec op (laws : ResourceOpLaws op) h es :
  NoDup es -> (forall t sc, t ∈ es -> h !! t = Some sc -> rc_wf (rc sc)) ->
  match addForEdges op h es with
  | (h', None) => forallb (admits op h) es = true /\ h' = apply_rc (addf op) es h
  | (h', Some _) => forallb (admits op h) es = false /\ h' = h
  end.
Proof.
  intros Hnd Hwf. unfold addForEdges. pose proof (addEdges_spec op h es Hnd) as Hspec.
  destruct (addEdges op h es) as [[h1 n] [err|]]; [|done].
  destruct Hspec as (Hall & Hpre & ->). split; [done|].
  assert (Hsub : forall t, t ∈ take n es -> t ∈ es)
    by (intros t (i & Hi & _)%elem_of_take; by eapply list_elem_of_lookup_2).
  rewrite fold_removeForChild.
  rewrite (list_filter_iff _ (fun e => live h e))
    by (intros x; by rewrite (shape_live _ h x) by apply shape_apply_rc).
  rewrite (forallb_admits_live op) by done.
  apply apply_rc_undo; [done|eapply sublist_NoDup; [done|apply sublist_take]|done|]. intros t sc Ht. apply Hwf. auto.
Qed.

(** Reserving, in any fuel that is enough: it passes when every scope on the
    path admits the operation and then updates them all; else nothing changes. *)
Lemma add_path n op (laws : ResourceOpLaws op) h s sc :
  shape_wf h -> (s < n)%nat -> h !! s = Some sc ->
  (forall t tsc, t ∈ path_go n h s -> h !! t = Some tsc -> rc_wf (rc tsc)) ->
  match add n op h s with
  | (h', None) =>
      forallb (admits op h) (path_go n h s) = true /\ h' = apply_rc (addf op) (path_go n h s) h
  | (h', Some _) => forallb (admits op h) (path_go n h s) = false /\ h' = h
  end.
Proof.
  revert h s sc. induction n as [|n IH]; intros h s sc Hwf Hs Hl Hrc; [lia|].
  pose proof (path_NoDup h s Hwf) as Hnd. unfold path in Hnd.
  rewrite (path_go_fuel h s (chainFuel s) (S n)) in Hnd by (done || unfold chainFuel; lia).
  revert Hnd Hrc. cbn [add path_go]. rewrite Hl. intros Hnd Hrc.
  apply NoDup_cons in Hnd as [Hnotin Hnd].
  destruct (done sc) eqn:Hd; [simpl; unfold admits at 1; by rewrite Hl, Hd|].
  destruct (op_add op (rc sc)) as [|r] eqn:Hr; [simpl; unfold admits at 1; by rewrite Hl, Hd, Hr|].
  assert (Hadm : admits op h s = true) by (unfold admits; by rewrite Hl, Hd, Hr).
  replace (<[s:=set_rc sc r]> h) with (alter (fun sc => set_rc sc (addf op (rc sc))) s h)
    by (rewrite <- (insert_alter h s sc) by done; unfold addf; by rewrite Hr).
  set (h1 := alter _ s h). assert (Hsh : shape h1 = shape h) by apply shape_update.
  assert (Hsame : forall l, s ∉ l -> forallb (admits op h1) l = forallb (admits op h) l).
  { induction l as [|x l IHl]; intros Hx; [done|]. simpl.
    unfold h1. rewrite admits_alter_ne by set_solver. f_equal. apply IHl. set_solver. }
  assert (Hlk : forall t, t <> s -> h1 !! t = h !! t)
    by (intros; unfold h1; by apply list_lookup_alter_ne).
  assert (Hundo : alter (fun sc => set_rc sc (op_rem op (rc sc))) s h1 = h).
  { pose proof (apply_rc_undo op laws [s] h) as Hu. simpl in Hu. rewrite Hadm in Hu.
    apply Hu; [apply NoDup_singleton|done|]. intros t tsc Ht. apply Hrc. set_solver. }
  set (tail := match owner sc with Some o => path_go n h o | None => edges sc end) in *.
  set (sub := match owner sc with Some o => add n op h1 o | None => addForEdges op h1 (edges sc) end).
  assert (Hsub : match sub with
    | (h', None) => forallb (admits op h1) tail = true /\ h' = apply_rc (addf op) tail h1
    | (h', Some _) => forallb (admits op h1) tail = false /\ h' = h1 end).
  { assert (Hrc1 : forall t tsc, t ∈ tail -> h1 !! t = Some tsc -> rc_wf (rc tsc)).
    { intros t tsc Ht. rewrite Hlk by (intros ->; done). apply Hrc. set_solver. }
    pose proof (Hwf _ _ Hl) as Hsc. unfold scope_shape_wf in Hsc. subst tail sub.
    destruct (owner sc) as [o|]; [|apply addForEdges_spec; [done|by apply Hsc|done]].
    destruct Hsc as [Ho _]. assert (o < length h)%nat as [osc Hosc]%lookup_lt_is_Some
      by (apply lookup_lt_Some in Hl; lia).
    specialize (IH h1 o osc). rewrite (shape_path_go n h1 h) in IH by done.
    apply IH; [by eapply shape_wf_shape|lia|rewrite Hlk by lia; done|done]. }
  destruct sub as [h2 [err|]]; destruct Hsub as [Hall ->]; simpl;
    rewrite Hsame in Hall by done; rewrite Hadm, Hall; done.
Qed.

(** Reservations are all-or-nothing.  On a well-formed heap a reservation of
    memory, a stream or a connection in a scope passes exactly when every scope
    on its path (the scope, its owners, the edges of the root) is open and has
    room for it; it is then recorded in each of them and nowhere else.  When it
    fails, the heap is as it was before the call. *)
Theorem add_all_or_nothing op (laws : ResourceOpLaws op) h s sc :
  heap_wf h -> h !! s = Some sc ->
  (snd (add (chainFuel s) op h s) = None <-> forallb (admits op h) (path h s) = true)
  /\ (snd (add (chainFuel s) op h s) = None ->
      forall t, fst (add (chainFuel s) op h s) !! t =
        if decide (t ∈ path h s) then (fun sc => set_rc sc (addf op (rc sc))) <$> h !! t else h !! t)
  /\ (snd (add (chainFuel s) op h s) <> None -> fst (add (chainFuel s) op h s) = h).
Proof.
  intros [Hwf Hrc] Hl.
  pose proof (add_path (chainFuel s) op laws h s sc Hwf ltac:(unfold chainFuel; lia) Hl) as Hadd.
  fold (path h s) in Hadd. specialize (Hadd (fun t tsc _ => Hrc t tsc)).
  destruct (add (chainFuel s) op h s) as [h' [err|]]; simpl; destruct Hadd as [Hall ->].
  - rewrite Hall. done.
  - rewrite Hall. split; [done|]. split; [|done]. intros _ t. apply apply_rc_lookup.
    by apply path_NoDup.
Qed.

(** ** Witness: a connection below a full transient scope

    The transient scope (1) refuses the second connection; the system scope (0),
    reserved before it, is rolled back. *)
Module ScopeExample.
Definition lim (conns : Z) : BaseLimit := mkBaseLimit 8 4 4 conns conns conns 2 1000.
Definition h0 : heap :=
  let '(h, _) := newResourceScope [] (lim 5) [] "system" in
  let '(h, _) := newResourceScope h (lim 1) [0%nat] "transient" in
  let '(h, _) := newResourceScope h (lim 4) [0%nat; 1%nat] "conn-1" in
  fst (AddConn h 2 DirInbound false).

Lemma h0_wf : heap_wf h0.
Proof.
  split; intros s sc Hl; destruct s as [|[|[|s]]]; vm_compute in Hl; try discriminate Hl;
    injection Hl as <-.
  4-6: intros []; simpl; int64_lia.
  - split_and!; simpl; [constructor|set_solver|set_solver].
  - split_and!; simpl; [apply NoDup_singleton|set_solver|].
    intros e ->%list_elem_of_singleton. eexists; split; reflexivity.
  - split_and!; simpl; [apply (bool_decide_unpack _); vm_compute; done|set_solver|].
    intros e He. apply elem_of_cons in He as [->|He]; [eexists; split; reflexivity|].
    apply list_elem_of_singleton in He as ->. eexists; split; reflexivity.
Qed.
End ScopeExample.

Lemma add_all_or_nothing_witness :
  fst (AddConn ScopeExample.h0 2 DirInbound false) = ScopeExample.h0
  /\ snd (AddConn ScopeExample.h0 2 DirInbound false) <> None.
Proof.
  assert (Hne : snd (AddConn ScopeExample.h0 2 DirInbound false) <> None)
    by (vm_compute; congruence).
  split; [|exact Hne].
  apply (add_all_or_nothing (connOp DirInbound false) (connOp_laws DirInbound false)
           ScopeExample.h0 2 _ ScopeExample.h0_wf eq_refl); exact Hne.
Defined.
