(* ===== verification/Ledger.v ===== *)
(** * Accounting of the scope DAG

    An abstract specification of the resource scopes: a ledger records, for
    every scope, what its users reserved in it and have not released.  The
    counters of scope.go are shown to implement it: in every state reachable by
    reservations, releases, new scopes, spans and [Done], the counter of an open
    scope is the sum of the ledger over the scopes charged to it, and within the
    scope's limits.  Closed owners cut the charge, which is how a span may be
    closed after its owner without releasing twice (scope.go, lines 24-32). *)
From Stdlib Require Import ZArith Lia.
From stdpp Require Import base tactics sets list numbers option strings pretty relations gmap.
From S2P Require Import Prelude Limits Resources Scope.
Local Open Scope Z_scope.
Import Int64.

(** ** The ledger *)
Definition ledger := nat -> field -> Z.
Definition emptyLedger : ledger := fun _ _ => 0.

Definition credit (own : ledger) (s : nat) (d : field -> Z) : ledger :=
  fun t f => if decide (t = s) then own t f + d f else own t f.
Definition clear (own : ledger) (s : nat) : ledger :=
  fun t f => if decide (t = s) then 0 else own t f.

(** What the ledger says the counter of scope [u] is. *)
Definition charged (h : heap) (own : ledger) (u : nat) (f : field) : Z :=
  sumZ (fun t => if decide (u ∈ charge h t) then own t f else 0) (seq 0 (length h)).

Definition accounts (h : heap) (own : ledger) : Prop :=
  (forall t f, 0 <= own t f) /\
  (forall u sc, h !! u = Some sc ->
     forall f, get f (rc sc) = if done sc then 0 else charged h own u f).

Definition limits_ok (h : heap) : Prop :=
  forall s sc, h !! s = Some sc -> limit_wf (limit (rc sc)) /\ within_limits (rc sc).

(** ** Lemmas on charges *)
Lemma shape_length h h' : shape h = shape h' -> length h = length h'.
Proof. intros Hs. apply (f_equal length) in Hs. unfold shape in Hs. by rewrite !length_fmap in Hs. Qed.

Lemma charged_shape h h' own u f : shape h = shape h' -> charged h own u f = charged h' own u f.
Proof.
  intros Hs. unfold charged. rewrite (shape_length _ _ Hs). apply sumZ_ext.
  intros t _. by rewrite (shape_charge _ _ _ Hs).
Qed.

Lemma charged_credit h own s d u f :
  (s < length h)%nat ->
  charged h (credit own s d) u f
  = charged h own u f + if decide (u ∈ charge h s) then d f else 0.
Proof.
  intros Hs. unfold charged.
  rewrite (sumZ_update (fun t => if decide (u ∈ charge h t) then own t f else 0) _ s).
  - unfold credit. rewrite (decide_True (P := s = s)) by done. case_decide; lia.
  - apply NoDup_seq.
  - apply elem_of_seq. lia.
  - intros t Ht. unfold credit. by rewrite (decide_False (P := t = s)) by done.
Qed.

Lemma charged_own_le h own s u f :
  (forall t f, 0 <= own t f) -> (s < length h)%nat -> u ∈ charge h s ->
  own s f <= charged h own u f.
Proof.
  intros Hnn Hs Hu. unfold charged.
  pose proof (sumZ_elem_le (fun t => if decide (u ∈ charge h t) then own t f else 0)
    (seq 0 (length h)) s) as Hle. simpl in Hle. rewrite decide_True in Hle by done.
  apply Hle; [|apply elem_of_seq; lia]. intros t _. case_decide; [apply Hnn|lia].
Qed.

Lemma charged_nonneg h own u f : (forall t f, 0 <= own t f) -> 0 <= charged h own u f.
Proof. intros Hnn. apply sumZ_nonneg. intros t _. case_decide; [apply Hnn|lia]. Qed.

(** A path all of whose scopes admit an operation is the charge of its scope. *)
Lemma path_charge op h s :
  shape_wf h -> forallb (admits op h) (path h s) = true -> charge h s = path h s.
Proof.
  intros Hwf. induction s as [s IH] using lt_wf_ind.
  destruct (h !! s) as [sc|] eqn:Hl; [|rewrite charge_None by done; unfold path; simpl; by rewrite Hl].
  rewrite (path_unfold h s sc), (charge_unfold h s sc) by done. simpl.
  intros [Ha Hrest]%andb_true_iff. apply admits_inv in Ha as (sc' & r & Hl' & Hd & _).
  simplify_eq. rewrite Hd. f_equal. pose proof (Hwf _ _ Hl) as Hsc. unfold scope_shape_wf in Hsc.
  destruct (owner sc) as [o|]; [apply IH; [lia|done]|by eapply forallb_admits_live].
Qed.

(** ** Reserving *)
Lemma accounts_add op (laws : ResourceOpLaws op) h own s :
  heap_wf h -> accounts h own -> (s < length h)%nat ->
  forallb (admits op h) (path h s) = true ->
  (forall t sc, t ∈ path h s -> h !! t = Some sc -> fits (rc sc) (op_delta op)) ->
  accounts (apply_rc (addf op) (path h s) h) (credit own s (op_delta op)).
Proof.
  intros [Hsw Hrc] [Hnn Hacc] Hs Hadm Hfit. split.
  { intros t f. unfold credit. pose proof (Hnn t f). pose proof (op_delta_nonneg f).
    case_decide; lia. }
  intros u sc Hu f.
  rewrite (charged_shape _ h) by apply shape_apply_rc. rewrite charged_credit by done.
  rewrite (path_charge op) by done.
  rewrite apply_rc_lookup in Hu by (by apply path_NoDup). case_decide as Hin.
  - assert (Ha : admits op h u = true)
      by (eapply forallb_forall in Hadm; [exact Hadm|by apply list_elem_of_In]).
    apply admits_inv in Ha as (sc0 & r & Hl & Hd & Hr). rewrite Hl in Hu. simpl in Hu.
    injection Hu as <-. simpl. rewrite Hd. unfold addf. rewrite Hr.
    rewrite (op_add_get (rc sc0) r f) by (done || by eapply Hrc).
    destruct (Hfit u sc0 Hin Hl) as [Hf _]. specialize (Hf f).
    pose proof (Hrc _ _ Hl f). pose proof (op_delta_nonneg f).
    rewrite add64_small by int64_lia. rewrite (Hacc _ _ Hl f), Hd. done.
  - rewrite (Hacc _ _ Hu f). destruct (done sc); lia.
Qed.

(** ** Releasing *)

(** A release of [d] that never goes below zero. *)
Definition releases (rm : resources -> resources) (d : field -> Z) : Prop :=
  (forall r, limit (rm r) = limit r) /\
  (forall r f, rc_wf r -> get f (rm r) = clamp0 (sub64 (get f r) (d f))).

Lemma op_releases op (laws : ResourceOpLaws op) : releases (op_rem op) (op_delta op).
Proof. split; [apply op_rem_limit|intros; by apply op_rem_get]. Qed.

Lemma stat_releases st : releases (fun r => releaseStat r st) (fun f => statGet f st).
Proof. split; [done|intros; apply releaseStat_get]. Qed.

Lemma releases_exact rm d r f :
  releases rm d -> rc_wf r -> 0 <= d f <= get f r -> get f (rm r) = get f r - d f.
Proof. intros [_ Hg] Hwf Hd. rewrite Hg by done. apply clamp0_sub; [apply Hwf|done]. Qed.

Lemma accounts_remove rm d h own s :
  releases rm d -> heap_wf h -> accounts h own -> (s < length h)%nat ->
  (forall f, 0 <= d f <= own s f) ->
  accounts (apply_rc rm (charge h s) h) (credit own s (fun f => - d f)).
Proof.
  intros Hrel [Hsw Hrc] [Hnn Hacc] Hs Hd. split.
  { intros t f. unfold credit. pose proof (Hnn t f). specialize (Hd f).
    case_decide; [subst; lia|lia]. }
  intros u sc Hu f.
  rewrite (charged_shape _ h) by apply shape_apply_rc. rewrite charged_credit by done.
  rewrite apply_rc_lookup in Hu by (by apply charge_NoDup). case_decide as Hin.
  - apply fmap_Some in Hu as (sc0 & Hl & ->). simpl.
    pose proof (charge_live _ _ _ Hin) as Hlv. unfold live in Hlv. rewrite Hl in Hlv.
    destruct (done sc0) eqn:Hd0; [done|].
    pose proof (charged_own_le h own s u f Hnn Hs Hin).
    pose proof (Hacc _ _ Hl f) as Hg. rewrite Hd0 in Hg.
    rewrite (releases_exact rm d) by (done || (by eapply Hrc) || (specialize (Hd f); lia)). lia.
  - rewrite (Hacc _ _ Hu f). destruct (done sc); lia.
Qed.

(** ** Heaps up to reference counts

    Reference counts, span numbers and names do not enter the accounting. *)
Definition core (h : heap) : list (bool * option nat * list nat * resources) :=
  (fun sc => (done sc, owner sc, edges sc, rc sc)) <$> h.
Definition core_eq (h h' : heap) : Prop := core h = core h'.
Infix "≃" := core_eq (at level 70).

#[export] Instance core_eq_equivalence : Equivalence core_eq.
Proof. split; unfold core_eq; red; congruence. Qed.

Lemma core_eq_lookup h h' s sc :
  h ≃ h' -> h !! s = Some sc ->
  exists sc', h' !! s = Some sc' /\ done sc' = done sc /\ owner sc' = owner sc
              /\ edges sc' = edges sc /\ rc sc' = rc sc.
Proof.
  intros Hs Hl. apply (f_equal (fun l => l !! s)) in Hs. unfold core in Hs.
  rewrite !list_lookup_fmap, Hl in Hs. simpl in Hs.
  destruct (h' !! s) as [sc'|]; simpl in Hs; [|done]. injection Hs as -> -> -> ->. eauto 6.
Qed.

Lemma core_eq_shape h h' : h ≃ h' -> shape h = shape h'.
Proof.
  intros Hc. apply (f_equal (fmap (fun p : bool * option nat * list nat * resources => fst p))) in Hc.
  unfold core, shape in *. by rewrite <- !list_fmap_compose in Hc.
Qed.

Lemma core_eq_intro h h' :
  (forall s, (fun sc => (done sc, owner sc, edges sc, rc sc)) <$> h !! s
             = (fun sc => (done sc, owner sc, edges sc, rc sc)) <$> h' !! s) -> h ≃ h'.
Proof. intros H. apply list_eq. intros i. unfold core. by rewrite !list_lookup_fmap. Qed.

#[export] Instance accounts_core_eq : Proper (core_eq ==> eq ==> impl) accounts.
Proof.
  intros h h' Hc own ? <- [Hnn Hacc]. split; [done|]. intros u sc Hu f. symmetry in Hc.
  destruct (core_eq_lookup _ _ _ _ Hc Hu) as (sc0 & Hl & Hd & _ & _ & Hr).
  rewrite <- Hr, <- Hd. rewrite (charged_shape h' h) by (by apply core_eq_shape). by apply Hacc.
Qed.

#[export] Instance heap_wf_core_eq : Proper (core_eq ==> impl) heap_wf.
Proof.
  intros h h' Hc [Hs Hr]. split; [eapply shape_wf_shape; [by apply core_eq_shape|done]|].
  intros u sc Hu. symmetry in Hc.
  destruct (core_eq_lookup _ _ _ _ Hc Hu) as (sc0 & Hl & _ & _ & _ & <-). by eapply Hr.
Qed.

#[export] Instance limits_ok_core_eq : Proper (core_eq ==> impl) limits_ok.
Proof.
  intros h h' Hc Hlim u sc Hu. symmetry in Hc.
  destruct (core_eq_lookup _ _ _ _ Hc Hu) as (sc0 & Hl & _ & _ & _ & <-). by eapply Hlim.
Qed.

(** Updates of one scope that agree on the core of equivalent scopes. *)
Lemma core_eq_alter g g' s h h' :
  h ≃ h' ->
  (forall sc sc', done sc = done sc' -> owner sc = owner sc' -> edges sc = edges sc' ->
     rc sc = rc sc' -> done (g sc) = done (g' sc') /\ owner (g sc) = owner (g' sc')
     /\ edges (g sc) = edges (g' sc') /\ rc (g sc) = rc (g' sc')) ->
  alter g s h ≃ alter g' s h'.
Proof.
  intros Hc Hg. apply core_eq_intro. intros i.
  assert (Hi : (fun sc => (done sc, owner sc, edges sc, rc sc)) <$> h !! i
             = (fun sc => (done sc, owner sc, edges sc, rc sc)) <$> h' !! i).
  { unfold core_eq, core in Hc. by rewrite <- !list_lookup_fmap, Hc. }
  destruct (decide (i = s)) as [->|]; [|by rewrite !list_lookup_alter_ne].
  rewrite !list_lookup_alter_eq. destruct (h !! s) as [x|], (h' !! s) as [y|]; try done.
  simpl in *. injection Hi as H1 H2 H3 H4. destruct (Hg x y H1 H2 H3 H4) as (?&?&?&?). congruence.
Qed.

Lemma core_eq_refcount (g : resourceScope -> resourceScope) s h :
  (forall sc, done (g sc) = done sc /\ owner (g sc) = owner sc
              /\ edges (g sc) = edges sc /\ rc (g sc) = rc sc) ->
  alter g s h ≃ h.
Proof.
  intros Hg. apply core_eq_intro. intros i. destruct (decide (i = s)) as [->|].
  - rewrite list_lookup_alter_eq. destruct (h !! s) as [sc|]; [|done]. simpl.
    destruct (Hg sc) as (-> & -> & -> & ->). done.
  - by rewrite list_lookup_alter_ne.
Qed.

Lemma IncRef_core h s : IncRef h s ≃ h.
Proof. by apply core_eq_refcount. Qed.
Lemma DecRef_core h s : DecRef h s ≃ h.
Proof. by apply core_eq_refcount. Qed.

Lemma removeForChild_core rm h h' s : h ≃ h' -> removeForChild rm h s ≃ removeForChild rm h' s.
Proof.
  intros Hc. rewrite !removeForChild_live. rewrite (shape_live h h' s) by (by apply core_eq_shape).
  destruct (live h' s); [|done]. apply core_eq_alter; [done|]. simpl. intros. split_and!; congruence.
Qed.

(** ** Closing a scope *)
Definition no_dag_child (h : heap) (s : nat) : Prop :=
  forall u usc, h !! u = Some usc -> done usc = false -> owner usc = None -> s ∉ edges usc.

(** The scopes, other than [s] itself, that [s] is charged to. *)
Definition charge_tail (h : heap) (sc : resourceScope) : list nat :=
  match owner sc with
  | Some o => charge h o
  | None => filter (fun e => live h e) (edges sc)
  end.

(** The heap after [Done], up to reference counts. *)
Lemma Done_core h s sc :
  shape_wf h -> h !! s = Some sc -> done sc = false ->
  Done h s ≃ alter closeScope s (apply_rc (fun r => releaseStat r (stat (rc sc))) (charge_tail h sc) h).
Proof.
  intros Hwf Hl Hd. unfold Done. rewrite Hl, Hd.
  apply core_eq_alter; [|simpl; intros; split_and!; congruence]. unfold charge_tail.
  destruct (owner sc) as [o|].
  - rewrite DecRef_core. unfold ReleaseResources.
    rewrite remove_charge by (done || unfold chainFuel; lia). done.
  - rewrite <- fold_removeForChild. generalize (edges sc) as es. intros es.
    assert (Hgen : forall h1 h2, h1 ≃ h2 ->
      fold_left (fun h e => DecRef (ReleaseForChild h e (stat (rc sc))) e) es h1
      ≃ fold_left (removeForChild (fun r => releaseStat r (stat (rc sc)))) es h2).
    { induction es as [|e es IH]; intros h1 h2 H12; [done|]. simpl. apply IH.
      rewrite DecRef_core. by apply removeForChild_core. }
    by apply Hgen.
Qed.

Lemma close_lookup_ne (h : heap) (s t : nat) : t <> s -> alter closeScope s h !! t = h !! t.
Proof. intros. by rewrite list_lookup_alter_ne. Qed.

Lemma close_shape_wf h s : shape_wf h -> shape_wf (alter closeScope s h).
Proof.
  intros Hwf t tsc Ht.
  assert (Hback : forall u usc, alter closeScope s h !! u = Some usc ->
    exists usc0, h !! u = Some usc0 /\ owner usc = owner usc0 /\ edges usc = edges usc0).
  { intros u usc Hu. destruct (decide (u = s)) as [->|].
    - rewrite list_lookup_alter_eq in Hu. apply fmap_Some in Hu as (usc0 & ? & ->). eauto.
    - rewrite close_lookup_ne in Hu by done. eauto. }
  destruct (Hback _ _ Ht) as (t0 & Hl0 & Ho & He). specialize (Hwf _ _ Hl0).
  unfold scope_shape_wf in *. rewrite Ho, He. destruct (owner t0); [done|].
  destruct Hwf as (? & ? & Hed). split_and!; try done. intros e Hin.
  destruct (Hed e Hin) as (esc & Hesc & Hown). destruct (decide (e = s)) as [->|].
  - exists (closeScope esc). split; [|done]. by rewrite list_lookup_alter_eq, Hesc.
  - exists esc. by rewrite close_lookup_ne.
Qed.

Lemma close_shape h h' s :
  shape h = shape h' -> shape (alter closeScope s h) = shape (alter closeScope s h').
Proof.
  intros Hs. apply list_eq. intros i. apply (f_equal (fun l => l !! i)) in Hs. unfold shape in *.
  rewrite !list_lookup_fmap in *. destruct (decide (i = s)) as [->|].
  - rewrite !list_lookup_alter_eq. destruct (h !! s), (h' !! s); simpl in *; congruence.
  - by rewrite !list_lookup_alter_ne.
Qed.

(** Closing [s] cuts every charge through [s] right before [s]. *)
Lemma charge_close h s sc t :
  shape_wf h -> h !! s = Some sc -> done sc = false -> no_dag_child h s ->
  ((s ∉ charge h t) /\ charge (alter closeScope s h) t = charge h t) \/
  (exists pre, charge h t = pre ++ charge h s /\ charge (alter closeScope s h) t = pre).
Proof.
  intros Hwf Hl Hd Hnc. pose proof (close_shape_wf h s Hwf) as Hwf'.
  induction t as [t IH] using lt_wf_ind. destruct (decide (t = s)) as [->|Hne].
  { right. exists []. split; [done|].
    rewrite (charge_unfold _ s (closeScope sc)); [done|done|by rewrite list_lookup_alter_eq, Hl]. }
  destruct (h !! t) as [tsc|] eqn:Ht.
  2: { left. rewrite !charge_None by (rewrite ?close_lookup_ne; done). split; [set_solver|done]. }
  rewrite (charge_unfold h t tsc), (charge_unfold (alter closeScope s h) t tsc)
    by (rewrite ?close_lookup_ne; done).
  destruct (done tsc) eqn:Htd; [left; split; [set_solver|done]|].
  pose proof (Hwf _ _ Ht) as Hts. unfold scope_shape_wf in Hts.
  destruct (owner tsc) as [o|] eqn:Hto.
  - destruct (IH o ltac:(lia)) as [[Hnin ->]|(pre & -> & ->)].
    + left. split; [set_solver|done].
    + right. exists (t :: pre). done.
  - left. assert (Hs : s ∉ edges tsc) by (by eapply Hnc). split.
    + intros [?|Hin]%elem_of_cons; [done|]. apply list_elem_of_filter in Hin as [_ Hin]. done.
    + f_equal. apply filter_ext_in. intros e He. unfold live. rewrite close_lookup_ne; [done|].
      intros ->. done.
Qed.

(** Termwise: what scope [u] loses when [s] is closed. *)
Lemma charged_close h own s sc u f :
  shape_wf h -> h !! s = Some sc -> done sc = false -> no_dag_child h s -> u <> s ->
  charged (alter closeScope s h) own u f
  = charged h own u f - if decide (u ∈ charge h s) then charged h own s f else 0.
Proof.
  intros Hwf Hl Hd Hnc Hus. unfold charged. rewrite length_alter.
  assert (Hcs : exists tl, charge h s = s :: tl)
    by (rewrite (charge_unfold h s sc), Hd by done; eauto).
  destruct (decide (u ∈ charge h s)) as [Hu|Hu].
  - rewrite <- sumZ_sub. apply sumZ_ext. intros t _.
    destruct (charge_close h s sc t) as [[Hnin ->]|(pre & Hpre & ->)]; [done..| |].
    + rewrite (decide_False (P := s ∈ charge h t)) by done. lia.
    + pose proof (charge_NoDup h t Hwf) as Hnd. rewrite Hpre in Hnd |- *.
      apply NoDup_app in Hnd as (_ & Hdis & _).
      rewrite (decide_True (P := s ∈ pre ++ charge h s))
        by (destruct Hcs as [tl ->]; set_solver).
      rewrite (decide_True (P := u ∈ pre ++ charge h s)) by set_solver.
      rewrite decide_False by (intros Hp; by eapply Hdis). lia.
  - rewrite Z.sub_0_r. apply sumZ_ext. intros t _.
    destruct (charge_close h s sc t) as [[Hnin ->]|(pre & -> & ->)]; [done..|].
    destruct (decide (u ∈ pre)), (decide (u ∈ pre ++ charge h s)); set_solver.
Qed.

Lemma accounts_done h own s sc :
  heap_wf h -> accounts h own -> h !! s = Some sc -> done sc = false -> no_dag_child h s ->
  accounts (Done h s) own.
Proof.
  intros [Hsw Hrc] [Hnn Hacc] Hl Hd Hnc.
  eapply accounts_core_eq; [symmetry; by apply Done_core|reflexivity|].
  set (rm := fun r => releaseStat r (stat (rc sc))). set (h1 := apply_rc rm (charge_tail h sc) h).
  assert (Hs1 : shape h1 = shape h) by apply shape_apply_rc.
  assert (Hcs : charge h s = s :: charge_tail h sc)
    by (rewrite (charge_unfold h s sc), Hd by done; done).
  pose proof (charge_NoDup h s Hsw) as Hnd. rewrite Hcs in Hnd. apply NoDup_cons in Hnd as [Hst Hnd].
  split; [done|]. intros u usc Hu f. destruct (decide (u = s)) as [->|Hne].
  { rewrite list_lookup_alter_eq in Hu. apply fmap_Some in Hu as (x & _ & ->). by destruct f. }
  rewrite close_lookup_ne in Hu by done.
  rewrite (charged_shape _ (alter closeScope s h)) by (by apply close_shape).
  pose proof (charged_nonneg (alter closeScope s h) own u f Hnn) as Hpos.
  rewrite (charged_close h own s sc) in Hpos |- * by done. rewrite Hcs in Hpos |- *.
  unfold h1 in Hu. rewrite apply_rc_lookup in Hu by done.
  pose proof (Hacc _ _ Hl f) as Hsf. rewrite Hd in Hsf.
  destruct (decide (u ∈ charge_tail h sc)) as [Hin|Hin].
  - apply fmap_Some in Hu as (usc0 & Hul & ->). simpl.
    assert (Hulive : live h u = true) by (eapply (charge_live h s); rewrite Hcs; set_solver).
    unfold live in Hulive. rewrite Hul in Hulive. destruct (done usc0) eqn:Hud; [done|].
    rewrite (decide_True (P := u ∈ s :: charge_tail h sc)) in Hpos |- * by set_solver.
    pose proof (Hacc _ _ Hul f) as Huf. rewrite Hud in Huf.
    pose proof (charged_nonneg h own s f Hnn).
    rewrite (releases_exact rm (fun f => statGet f (stat (rc sc))))
      by (apply stat_releases || (by eapply Hrc) || (rewrite statGet_stat; lia)).
    rewrite statGet_stat. lia.
  - rewrite decide_False by set_solver. rewrite (Hacc _ _ Hu f). destruct (done usc); lia.
Qed.

(** ** Well-formedness and limits under counter updates *)
Lemma within_limits_decrease r r' :
  limit r' = limit r -> (forall f, get f r' <= get f r) -> within_limits r -> within_limits r'.
Proof.
  intros Hl Hf. unfold within_limits. rewrite Hl.
  pose proof (Hf FMemory); pose proof (Hf FStreamsIn); pose proof (Hf FStreamsOut);
    pose proof (Hf FConnsIn); pose proof (Hf FConnsOut); pose proof (Hf FFD).
  simpl in *. intros. destruct_and!. split_and!; lia.
Qed.

Lemma releases_wf rm d r : releases rm d -> rc_wf r -> rc_wf (rm r).
Proof. intros [_ Hg] Hwf f. rewrite Hg by done. apply clamp0_bounds, wrap64_int64. Qed.

Lemma releases_le rm d r f :
  releases rm d -> rc_wf r -> 0 <= d f <= MaxInt64 -> get f (rm r) <= get f r.
Proof.
  intros [_ Hg] Hwf Hd. rewrite Hg by done. pose proof (Hwf f).
  rewrite sub64_small by int64_lia. unfold clamp0. zcase; lia.
Qed.

(** A property of the counters of every scope, kept by an update of some. *)
Lemma apply_rc_forall (P : resources -> Prop) f l h :
  NoDup l -> (forall s sc, h !! s = Some sc -> P (rc sc)) ->
  (forall s sc, s ∈ l -> h !! s = Some sc -> P (f (rc sc))) ->
  forall s sc, apply_rc f l h !! s = Some sc -> P (rc sc).
Proof.
  intros Hnd HP Hf s sc. rewrite apply_rc_lookup by done. case_decide as Hin; [|by apply HP].
  intros (sc0 & Hl & ->)%fmap_Some. simpl. by eapply Hf.
Qed.

Definition Inv (h : heap) (own : ledger) : Prop := heap_wf h /\ accounts h own /\ limits_ok h.

Lemma Inv_add op (laws : ResourceOpLaws op) h own s :
  Inv h own -> (s < length h)%nat -> forallb (admits op h) (path h s) = true ->
  (forall t sc, t ∈ path h s -> h !! t = Some sc -> fits (rc sc) (op_delta op)) ->
  Inv (apply_rc (addf op) (path h s) h) (credit own s (op_delta op)).
Proof.
  intros (Hwf & Hacc & Hlim) Hs Hadm Hfit. pose proof Hwf as [Hsw Hrc].
  assert (Hop : forall t sc, t ∈ path h s -> h !! t = Some sc ->
    exists r, op_add op (rc sc) = inr r /\ addf op (rc sc) = r).
  { intros t sc Ht Hl. eapply forallb_forall in Hadm; [|by apply list_elem_of_In].
    apply admits_inv in Hadm as (sc' & r & Hl' & _ & Hr). simplify_eq.
    exists r. unfold addf. by rewrite Hr. }
  split_and!; [split|by apply accounts_add|].
  - eapply shape_wf_shape; [symmetry; apply shape_apply_rc|done].
  - red. apply (apply_rc_forall rc_wf); [by apply path_NoDup|done|]. intros t sc Ht Hl f.
    destruct (Hop t sc Ht Hl) as (r & Hr & ->). destruct (Hfit t sc Ht Hl) as [Hf _].
    rewrite (op_add_get (rc sc) r f) by (done || by eapply Hrc).
    specialize (Hf f). pose proof (Hrc _ _ Hl f). pose proof (op_delta_nonneg f).
    rewrite add64_small by int64_lia. lia.
  - red. apply (apply_rc_forall (fun r => limit_wf (limit r) /\ within_limits r));
      [by apply path_NoDup|done|]. intros t sc Ht Hl.
    destruct (Hop t sc Ht Hl) as (r & Hr & ->). destruct (Hlim _ _ Hl) as [Hlw Hin].
    rewrite (op_add_limit _ _ Hr). split; [done|].
    eapply op_add_within; [done|by eapply Hrc|by eapply Hfit|done|done].
Qed.

Lemma Inv_remove rm d h own s :
  releases rm d -> Inv h own -> (s < length h)%nat -> (forall f, 0 <= d f <= MaxInt64) ->
  (forall f, d f <= own s f) ->
  Inv (apply_rc rm (charge h s) h) (credit own s (fun f => - d f)).
Proof.
  intros Hrel (Hwf & Hacc & Hlim) Hs Hd Hown. pose proof Hwf as [Hsw Hrc].
  split_and!; [split|eapply accounts_remove; try done; intros f; split; [apply Hd|apply Hown]|].
  - eapply shape_wf_shape; [symmetry; apply shape_apply_rc|done].
  - red. apply (apply_rc_forall rc_wf); [by apply charge_NoDup|done|].
    intros t sc _ Hl. eapply releases_wf; [done|by eapply Hrc].
  - red. apply (apply_rc_forall (fun r => limit_wf (limit r) /\ within_limits r));
      [by apply charge_NoDup|done|]. intros t sc _ Hl. destruct (Hlim _ _ Hl) as [Hlw Hin].
    pose proof Hrel as [Hlimeq _]. rewrite Hlimeq. split; [done|].
    apply (within_limits_decrease (rc sc)); [apply Hlimeq| |done]. intros f.
    eapply releases_le; [done|by eapply Hrc|apply Hd].
Qed.

Lemma newResources_within l : within_limits (newResources l).
Proof. unfold within_limits. simpl. lia. Qed.

Lemma newResources_wf l : rc_wf (newResources l).
Proof. intros []; simpl; int64_lia. Qed.

Lemma close_forall (P : resources -> Prop) (h : heap) (s : nat) :
  (forall l, P (newResources l)) -> (forall t sc, h !! t = Some sc -> P (rc sc)) ->
  forall t sc, alter closeScope s h !! t = Some sc -> P (rc sc).
Proof.
  intros Hnew HP t sc Ht. destruct (decide (t = s)) as [->|].
  - rewrite list_lookup_alter_eq in Ht. apply fmap_Some in Ht as (x & _ & ->). apply Hnew.
  - rewrite close_lookup_ne in Ht by done. by eapply HP.
Qed.

Lemma Inv_done h own s sc :
  Inv h own -> h !! s = Some sc -> done sc = false -> no_dag_child h s -> Inv (Done h s) own.
Proof.
  intros (Hwf & Hacc & Hlim) Hl Hd Hnc. pose proof Hwf as [Hsw Hrc].
  pose proof (stat_releases (stat (rc sc))) as Hrel.
  assert (Hnd : NoDup (charge_tail h sc)).
  { pose proof (charge_NoDup h s Hsw) as Hnd. rewrite (charge_unfold h s sc), Hd in Hnd by done.
    by apply NoDup_cons in Hnd as [_ Hnd]. }
  pose proof (Done_core h s sc Hsw Hl Hd) as Hcore.
  split_and!; [rewrite Hcore; split|by eapply accounts_done|rewrite Hcore].
  - apply close_shape_wf. eapply shape_wf_shape; [symmetry; apply shape_apply_rc|done].
  - red. apply (close_forall rc_wf); [apply newResources_wf|].
    apply (apply_rc_forall rc_wf); [done|done|].
    intros t tsc _ Ht. apply (releases_wf _ _ _ Hrel). by eapply Hrc.
  - intros t tsc Ht. destruct (decide (t = s)) as [->|].
    { rewrite list_lookup_alter_eq in Ht. apply fmap_Some in Ht as (x & Hx & ->).
      rewrite apply_rc_lookup in Hx by done. split; [|apply newResources_within]. simpl.
      case_decide; [apply fmap_Some in Hx as (y & Hy & ->)|];
        simplify_eq; exact (proj1 (Hlim _ _ Hl)). }
    rewrite close_lookup_ne in Ht by done. revert t tsc n Ht.
    enough (limits_ok (apply_rc (fun r => releaseStat r (stat (rc sc))) (charge_tail h sc) h))
      by (intros; eauto).
    red. apply (apply_rc_forall (fun r => limit_wf (limit r) /\ within_limits r)); [done|done|].
    intros t tsc _ Ht. destruct (Hlim _ _ Ht) as [Hlw Hin]. split; [done|].
    apply (within_limits_decrease (rc tsc)); [done| |done]. intros f.
    apply (releases_le _ _ _ _ Hrel); [by eapply Hrc|]. apply stat_nonneg. by eapply Hrc.
Qed.

(** ** New scopes *)

(** Adding a scope at the end of the heap keeps the charges of the others. *)
Lemma charge_snoc h x t : shape_wf h -> (t < length h)%nat -> charge (h ++ [x]) t = charge h t.
Proof.
  intros Hwf. unfold charge. generalize (chainFuel t) as n. intros n. revert t.
  induction n as [|n IH]; intros t Ht; [done|]. cbn [charge_go].
  rewrite lookup_app_l by done. destruct (h !! t) as [tsc|] eqn:Hl; [|done].
  destruct (done tsc); [done|]. f_equal. pose proof (Hwf _ _ Hl) as Hts.
  unfold scope_shape_wf in Hts. destruct (owner tsc) as [o|]; [apply IH; lia|].
  apply filter_ext_in. intros e He. unfold live.
  destruct (proj2 (proj2 Hts) e He) as (esc & Hesc & _).
  rewrite lookup_app_l by (by eapply lookup_lt_Some). done.
Qed.

Lemma snoc_shape_wf h x :
  shape_wf h -> scope_shape_wf (h ++ [x]) (length h) x -> shape_wf (h ++ [x]).
Proof.
  intros Hwf Hx t tsc Ht. destruct (decide (t = length h)) as [->|Hne].
  { rewrite lookup_app_r, Nat.sub_diag in Ht by lia. by injection Ht as <-. }
  assert (t < length h)%nat.
  { apply lookup_lt_Some in Ht. rewrite length_app in Ht. simpl in Ht. lia. }
  rewrite lookup_app_l in Ht by done. specialize (Hwf _ _ Ht). unfold scope_shape_wf in *.
  destruct (owner tsc); [done|]. destruct Hwf as (? & ? & He). split_and!; try done.
  intros e Hin. destruct (He e Hin) as (esc & Hesc & ?). exists esc.
  by rewrite lookup_app_l by (by eapply lookup_lt_Some).
Qed.

Lemma charge_lt h t u : u ∈ charge h t -> (u < length h)%nat.
Proof.
  intros Hu. apply charge_live in Hu. unfold live in Hu.
  destruct (h !! u) eqn:Hl; [by eapply lookup_lt_Some|done].
Qed.

(** A new open scope with zero counters, nothing reserved in it. *)
Lemma Inv_snoc h own x l :
  Inv h own -> scope_shape_wf (h ++ [x]) (length h) x ->
  done x = false -> rc x = newResources l -> limit_wf l ->
  Inv (h ++ [x]) (clear own (length h)).
Proof.
  intros (Hwf & [Hnn Hacc] & Hlim) Hx Hd Hr Hlw. pose proof Hwf as [Hsw Hrc].
  pose proof (snoc_shape_wf h x Hsw Hx) as Hsw'.
  assert (Hlook : forall t tsc, (h ++ [x]) !! t = Some tsc -> h !! t = Some tsc \/ (t = length h /\ tsc = x)).
  { intros t tsc. rewrite lookup_snoc_Some. naive_solver. }
  assert (Hcharged : forall u f, charged (h ++ [x]) (clear own (length h)) u f
    = if decide (u = length h) then 0 else charged h own u f).
  { intros u f. unfold charged. rewrite length_app, Nat.add_1_r, seq_S, sumZ_app. simpl.
    unfold clear at 2. rewrite (decide_True (P := length h = length h)) by done.
    transitivity (sumZ (fun t => if decide (u ∈ charge h t) then own t f else 0) (seq 0 (length h))).
    - rewrite (sumZ_ext _ (fun t => if decide (u ∈ charge h t) then own t f else 0));
        [case_decide; lia|].
      intros t [_ Ht]%elem_of_seq. rewrite charge_snoc by (done || lia). unfold clear.
      rewrite (decide_False (P := t = length h)) by lia. done.
    - case_decide as Hu; [|done]. apply sumZ_zero. intros t _.
      rewrite decide_False; [done|]. intros Hin%charge_lt. lia. }
  split_and!; [split; [done|]|split|].
  - intros t tsc [Ht|[-> ->]]%Hlook; [by eapply Hrc|]. rewrite Hr. apply newResources_wf.
  - intros t f. unfold clear. case_decide; [lia|apply Hnn].
  - intros u usc [Hu|[-> ->]]%Hlook f; rewrite Hcharged.
    + rewrite decide_False by (apply lookup_lt_Some in Hu; lia). by apply Hacc.
    + rewrite decide_True, Hd, Hr by done. by destruct f.
  - intros t tsc [Ht|[-> ->]]%Hlook; [by eapply Hlim|]. rewrite Hr.
    split; [done|apply newResources_within].
Qed.

(** ** Reachable states *)
#[export] Instance Inv_core_eq : Proper (core_eq ==> eq ==> impl) Inv.
Proof.
  intros h h' Hc own ? <- (Hwf & Hacc & Hlim).
  split_and!; [by rewrite <- Hc|by rewrite <- Hc|by rewrite <- Hc].
Qed.

Lemma fold_IncRef_core es h : fold_left IncRef es h ≃ h.
Proof.
  revert h. induction es as [|e es IH]; intros h; [done|]. simpl. rewrite IH. apply IncRef_core.
Qed.

(** The calls users of scopes make.  A reservation is any of memory, stream and
    connection reservations; [step_release] has the amounts that were reserved
    in the scope, [step_done] a scope that is on no open scope's edges: "cannot
    call Done in the upstream node before the downstream node". *)
Inductive scope_step : heap * ledger -> heap * ledger -> Prop :=
| step_reserve op (laws : ResourceOpLaws op) h own s h' :
    add (chainFuel s) op h s = (h', None) ->
    (forall t sc, t ∈ path h s -> h !! t = Some sc -> fits (rc sc) (op_delta op)) ->
    scope_step (h, own) (h', credit own s (op_delta op))
| step_refused op (laws : ResourceOpLaws op) h own s h' err :
    add (chainFuel s) op h s = (h', Some err) ->
    scope_step (h, own) (h', own)
| step_release op (laws : ResourceOpLaws op) falls h own s :
    (s < length h)%nat -> (forall f, op_delta op f <= own s f) ->
    scope_step (h, own)
      (remove (chainFuel s) (op_rem op) falls h s, credit own s (fun f => - op_delta op f))
| step_new h own l es nm h' s :
    limit_wf l -> NoDup es ->
    (forall e, e ∈ es -> exists esc, h !! e = Some esc /\ owner esc = None) ->
    newResourceScope h l es nm = (h', s) ->
    scope_step (h, own) (h', clear own s)
| step_span h own s h' t :
    BeginSpan h s = (h', inr t) ->
    scope_step (h, own) (h', clear own t)
| step_done h own s :
    no_dag_child h s ->
    scope_step (h, own) (Done h s, own)
| step_incref h own s : scope_step (h, own) (IncRef h s, own)
| step_decref h own s : scope_step (h, own) (DecRef h s, own).

Lemma Inv_new h own l es nm h' s :
  Inv h own -> limit_wf l -> NoDup es ->
  (forall e, e ∈ es -> exists esc, h !! e = Some esc /\ owner esc = None) ->
  newResourceScope h l es nm = (h', s) -> Inv h' (clear own s).
Proof.
  intros HI Hl Hnd He. unfold newResourceScope. intros [= <- <-].
  set (h1 := fold_left IncRef es h). assert (Hc : h ≃ h1) by (symmetry; apply fold_IncRef_core).
  rewrite Hc in HI. apply (Inv_snoc h1 own _ l); try done. simpl.
  assert (He1 : forall e, e ∈ es -> exists esc, h1 !! e = Some esc /\ owner esc = None).
  { intros e Hin. destruct (He e Hin) as (esc & Hesc & Ho).
    destruct (core_eq_lookup _ _ _ _ Hc Hesc) as (esc' & ? & _ & ? & _). eauto with congruence. }
  split_and!; [done| |].
  - intros (esc & Hesc%lookup_lt_Some & _)%He1. lia.
  - intros e (esc & Hesc & ?)%He1. exists esc.
    by rewrite lookup_app_l by (by eapply lookup_lt_Some).
Qed.

Lemma Inv_span h own s h' t : Inv h own -> BeginSpan h s = (h', inr t) -> Inv h' (clear own t).
Proof.
  intros HI. unfold BeginSpan. destruct (h !! s) as [sc|] eqn:Hl; [|done].
  destruct (done sc) eqn:Hd; [done|]. cbn -[Inv app insert]. unfold newResourceScopeSpan.
  intros [= <- <-].
  set (g := fun sc => set_spanID (set_refCnt sc (add64 (refCnt sc) 1)) (add64 (spanID sc) 1)).
  change (set_spanID (set_refCnt sc (add64 (refCnt sc) 1)) (add64 (spanID sc) 1)) with (g sc).
  rewrite (insert_alter h s sc g) by done. set (h1 := alter g s h).
  assert (Hc : h ≃ h1) by (symmetry; by apply core_eq_refcount). rewrite Hc in HI.
  replace (limit (rc (g sc))) with (limit (rc sc)) by done.
  destruct (core_eq_lookup _ _ _ _ Hc Hl) as (sc1 & Hl1 & _ & _ & _ & Hr1).
  apply (Inv_snoc h1 own _ (limit (rc sc))); try done; simpl.
  - unfold scope_shape_wf. simpl. split; [by eapply lookup_lt_Some|done].
  - destruct HI as (_ & _ & Hlim). rewrite <- Hr1. by eapply Hlim.
Qed.

Lemma add_None op h s : h !! s = None -> add (chainFuel s) op h s = (h, Some ErrNilScope).
Proof. intros Hl. unfold chainFuel. cbn [add]. by rewrite Hl. Qed.

Lemma Inv_step st st' : scope_step st st' -> Inv (fst st) (snd st) -> Inv (fst st') (snd st').
Proof.
  intros Hstep HI. destruct Hstep; cbn [fst snd] in *.
  - destruct (h !! s) as [sc|] eqn:Hl; [|by rewrite add_None in H].
    pose proof (add_path (chainFuel s) op laws h s sc (proj1 (proj1 HI)) ltac:(unfold chainFuel; lia) Hl
      (fun t tsc _ => proj2 (proj1 HI) t tsc)) as Hadd. rewrite H in Hadd. destruct Hadd as [Hall ->].
    apply Inv_add; [done..|by eapply lookup_lt_Some|done|done].
  - destruct (h !! s) as [sc|] eqn:Hl; [|rewrite add_None in H by done; by injection H as <- _].
    pose proof (add_path (chainFuel s) op laws h s sc (proj1 (proj1 HI)) ltac:(unfold chainFuel; lia) Hl
      (fun t tsc _ => proj2 (proj1 HI) t tsc)) as Hadd. rewrite H in Hadd. destruct Hadd as [_ ->]. done.
  - rewrite remove_charge by (apply (proj1 (proj1 HI)) || unfold chainFuel; lia).
    apply (Inv_remove _ (op_delta op)); [by apply op_releases|done|done| |done].
    intros f. apply op_delta_nonneg.
  - by eapply Inv_new.
  - by eapply Inv_span.
  - destruct (h !! s) as [sc|] eqn:Hl; [|unfold Done; by rewrite Hl].
    destruct (done sc) eqn:Hd; [unfold Done; by rewrite Hl, Hd|]. by eapply Inv_done.
  - by rewrite IncRef_core.
  - by rewrite DecRef_core.
Qed.

Lemma Inv_empty : Inv [] emptyLedger.
Proof.
  split_and!; [split|split|]; try (intros ??; rewrite lookup_nil; done).
  intros. unfold emptyLedger. lia.
Qed.

Lemma Inv_reachable h own : rtc scope_step ([], emptyLedger) (h, own) -> Inv h own.
Proof.
  intros Hr. change (Inv (fst (h, own)) (snd (h, own))).
  eapply (rtc_ind_r (fun st => Inv (fst st) (snd st)) ([], emptyLedger)); [apply Inv_empty| |exact Hr].
  intros st st' _ Hs HI. by eapply Inv_step.
Qed.

(** ** Properties *)

(** The counters implement the ledger.  In every state reachable by the calls
    of [scope_step], each counter of an open scope is the sum of what was
    reserved and not released in the scopes charged to it, it fits [int64], it is
    within the scope's limits, and a closed scope has zero counters. *)
Theorem counters_refine_ledger h own :
  rtc scope_step ([], emptyLedger) (h, own) ->
  forall u sc, h !! u = Some sc ->
  rc_wf (rc sc) /\ within_limits (rc sc) /\
  forall f, get f (rc sc) = if done sc then 0 else charged h own u f.
Proof.
  intros Hr u sc Hu. apply Inv_reachable in Hr as ((_ & Hrc) & (_ & Hacc) & Hlim).
  split_and!; [by eapply Hrc|by eapply Hlim|by apply Hacc].
Qed.

(** Nothing leaks.  When nothing is reserved any more in any open scope, every
    counter of every scope is zero: releases and [Done] undo reservations
    completely, across owners and edges. *)
Theorem no_resource_leak h own :
  rtc scope_step ([], emptyLedger) (h, own) ->
  (forall t f, live h t = true -> own t f = 0) ->
  forall u sc f, h !! u = Some sc -> get f (rc sc) = 0.
Proof.
  intros Hr Hzero u sc f Hu. apply Inv_reachable in Hr as (_ & (_ & Hacc) & _).
  rewrite (Hacc _ _ Hu f). destruct (done sc); [done|]. apply sumZ_zero. intros t _.
  case_decide as Hin; [|done]. apply Hzero. unfold live.
  destruct (h !! t) as [tsc|] eqn:Ht; [|rewrite charge_None in Hin by done; set_solver].
  unfold charge in Hin. cbn [charge_go chainFuel] in Hin. rewrite Ht in Hin.
  destruct (done tsc); [set_solver|done].
Qed.

(** Releases never go below zero.  In a reachable state, releasing at most what
    was reserved in a scope finds that amount in every scope it is charged to,
    so none of the "BUG: too much released" branches is taken. *)
Theorem release_never_clamps h own s (d : field -> Z) :
  rtc scope_step ([], emptyLedger) (h, own) ->
  (forall f, 0 <= d f <= own s f) ->
  forall t sc f, t ∈ charge h s -> h !! t = Some sc ->
  0 <= sub64 (get f (rc sc)) (d f) /\ sub64 (get f (rc sc)) (d f) = get f (rc sc) - d f.
Proof.
  intros Hr Hd t sc f Ht Hl. apply Inv_reachable in Hr as ((_ & Hrc) & (Hnn & Hacc) & _).
  assert (Hs : (s < length h)%nat).
  { destruct (h !! s) eqn:Hsl; [by eapply lookup_lt_Some|].
    rewrite charge_None in Ht by done. set_solver. }
  pose proof (charged_own_le h own s t f Hnn Hs Ht) as Hle.
  pose proof (charge_live _ _ _ Ht) as Hlv. unfold live in Hlv. rewrite Hl in Hlv.
  pose proof (Hacc _ _ Hl f) as Hg. destruct (done sc); [done|].
  specialize (Hd f). pose proof (Hrc _ _ Hl f). rewrite sub64_small by int64_lia. lia.
Qed.

Lemma Done_shape h s sc :
  shape_wf h -> h !! s = Some sc -> done sc = false ->
  shape (Done h s) = shape (alter closeScope s h).
Proof.
  intros Hwf Hl Hd. rewrite (core_eq_shape _ _ (Done_core h s sc Hwf Hl Hd)).
  apply close_shape, shape_apply_rc.
Qed.

(** [Done] closes the scope and no other. *)
Lemma Done_lookup_shape h s sc t tsc :
  shape_wf h -> h !! s = Some sc -> done sc = false -> t <> s -> h !! t = Some tsc ->
  exists tsc', Done h s !! t = Some tsc' /\ done tsc' = done tsc /\ owner tsc' = owner tsc
               /\ edges tsc' = edges tsc.
Proof.
  intros Hwf Hl Hd Hne Ht. eapply shape_lookup; [symmetry; by eapply Done_shape|].
  by rewrite close_lookup_ne.
Qed.

Lemma Done_no_dag_child h s sc t :
  shape_wf h -> h !! s = Some sc -> done sc = false ->
  no_dag_child h t -> no_dag_child (Done h s) t.
Proof.
  intros Hwf Hl Hd Hnc u usc Hu Hud Huo.
  pose proof (Done_shape h s sc Hwf Hl Hd) as Hsh.
  destruct (shape_lookup _ _ _ _ Hsh Hu) as (u1 & Hu1 & Hd1 & Ho1 & He1).
  destruct (decide (u = s)) as [->|].
  - rewrite list_lookup_alter_eq, Hl in Hu1. injection Hu1 as <-. simpl in Hd1. congruence.
  - rewrite close_lookup_ne in Hu1 by done. rewrite <- He1. eapply Hnc; [done|congruence..].
Qed.

(** No double release.  Closing two scopes in either order, in particular a
    span after or before its owner, leaves the same counters everywhere. *)
Theorem done_order_irrelevant h own s o ssc osc :
  Inv h own -> s <> o ->
  h !! s = Some ssc -> done ssc = false -> no_dag_child h s ->
  h !! o = Some osc -> done osc = false -> no_dag_child h o ->
  forall u sc1 sc2 f,
  Done (Done h o) s !! u = Some sc1 -> Done (Done h s) o !! u = Some sc2 ->
  get f (rc sc1) = get f (rc sc2).
Proof.
  intros HI Hne Hs Hsd Hsn Ho Hod Hon u sc1 sc2 f H1 H2.
  pose proof HI as ((Hwf & _) & _).
  assert (HIo : Inv (Done h o) own) by (by eapply Inv_done).
  assert (HIs : Inv (Done h s) own) by (by eapply Inv_done).
  destruct (Done_lookup_shape h o osc s ssc) as (s' & Hs' & Hsd' & _); [done..|].
  destruct (Done_lookup_shape h s ssc o osc) as (o' & Ho' & Hod' & _); [done..|].
  assert (HIso : Inv (Done (Done h o) s) own).
  { eapply Inv_done; [done|exact Hs'|congruence|]. by eapply Done_no_dag_child. }
  assert (HIos : Inv (Done (Done h s) o) own).
  { eapply Inv_done; [done|exact Ho'|congruence|]. by eapply Done_no_dag_child. }
  assert (Hsh : shape (Done (Done h o) s) = shape (Done (Done h s) o)).
  { rewrite (Done_shape (Done h o) s s'), (Done_shape (Done h s) o o')
      by (apply HIo || apply HIs || done || congruence).
    rewrite (close_shape _ (alter closeScope o h)) by (by eapply Done_shape).
    rewrite (close_shape (Done h s) (alter closeScope s h)) by (by eapply Done_shape).
    f_equal. by apply list_alter_alter_ne. }
  rewrite (proj2 (proj1 (proj2 HIso)) _ _ H1 f), (proj2 (proj1 (proj2 HIos)) _ _ H2 f).
  rewrite (charged_shape _ _ own u f Hsh).
  destruct (shape_lookup _ _ _ _ Hsh H1) as (sc2' & H2' & Hdd & _). simplify_eq. by rewrite Hdd.
Qed.

(** ** A concrete DAG: system, a connection on it, a span of the connection *)
Module Example.
Definition lim : BaseLimit := mkBaseLimit 8 4 4 8 4 4 2 1000.
Definition h1 : heap := fst (newResourceScope [] lim [] "system").
Definition h2 : heap := fst (newResourceScope h1 lim [0%nat] "conn-1").
Definition h3 : heap := fst (BeginSpan h2 1).
Definition h4 : heap := fst (ReserveMemory h3 2 100 255).
Definition own1 : ledger := clear emptyLedger 0.
Definition own2 : ledger := clear own1 1.
Definition own3 : ledger := clear own2 2.
Definition own4 : ledger := credit own3 2 (op_delta (memoryOp 100 255)).

Lemma fits_small r d :
  rc_wf r -> (forall f, get f r <= 2 ^ 60) -> (forall f, 0 <= d f <= 2 ^ 60) -> fits r d.
Proof.
  intros Hwf Hg Hd. split_and!; [intros f; specialize (Hg f); specialize (Hd f); int64_lia|..];
    pose proof (Hg FStreamsIn); pose proof (Hg FStreamsOut); pose proof (Hg FConnsIn);
    pose proof (Hg FConnsOut); pose proof (Hd FStreamsIn); pose proof (Hd FStreamsOut);
    pose proof (Hd FConnsIn); pose proof (Hd FConnsOut); simpl in *; int64_lia.
Qed.

Lemma lim_wf : limit_wf lim.
Proof. unfold limit_wf. simpl. int64_lia. Qed.

Lemma mem_laws : ResourceOpLaws (memoryOp 100 255).
Proof. apply memoryOp_laws; int64_lia. Qed.

Lemma reach3 : rtc scope_step ([], emptyLedger) (h3, own3).
Proof.
  eapply rtc_l; [eapply (step_new _ _ lim [] "system"); [apply lim_wf|constructor|set_solver|reflexivity]|].
  eapply rtc_l; [eapply (step_new _ _ lim [0%nat] "conn-1");
    [apply lim_wf|apply NoDup_singleton| |reflexivity]|].
  { intros e ->%list_elem_of_singleton. eexists. split; reflexivity. }
  eapply rtc_l; [eapply (step_span _ _ 1); reflexivity|]. apply rtc_refl.
Qed.

Lemma reach4 : rtc scope_step ([], emptyLedger) (h4, own4).
Proof.
  eapply rtc_r; [apply reach3|]. eapply (step_reserve _ mem_laws _ _ 2); [reflexivity|].
  intros t sc Ht Hl. assert (t < 3)%nat by (apply lookup_lt_Some in Hl; exact Hl).
  assert (Hz : forall f, get f (rc sc) = 0).
  { destruct t as [|[|[|t]]]; [..|lia]; vm_compute in Hl; injection Hl as <-; intros []; reflexivity. }
  apply fits_small; intros f; rewrite ?Hz; [int64_lia|lia|].
  unfold memoryOp, op_delta. case_decide; lia.
Qed.
End Example.

(** The span's 100 bytes are in the counters of the span, the connection and the
    system. *)
Lemma counters_refine_ledger_witness :
  rtc scope_step ([], emptyLedger) (Example.h4, Example.own4)
  /\ (forall u, u ∈ [0; 1; 2]%nat ->
      (fun sc => memory (rc sc)) <$> Example.h4 !! u = Some 100)
  /\ charged Example.h4 Example.own4 0 FMemory = 100.
Proof.
  split; [apply Example.reach4|]. split.
  - intros u Hu. repeat (apply elem_of_cons in Hu as [->|Hu]; [reflexivity|]). by apply not_elem_of_nil in Hu.
  - destruct (counters_refine_ledger _ _ Example.reach4 0%nat _ eq_refl) as (_ & _ & Hg).
    specialize (Hg FMemory). simpl in Hg. exact (eq_sym Hg).
Defined.

Lemma no_resource_leak_witness :
  exists sc, Example.h3 !! 0%nat = Some sc /\ get FMemory (rc sc) = 0.
Proof.
  eexists. split; [reflexivity|].
  apply (no_resource_leak _ _ Example.reach3) with (u := 0%nat); [|reflexivity].
  intros t f _. unfold Example.own3, Example.own2, Example.own1, clear, emptyLedger.
  repeat case_decide; reflexivity.
Defined.

Lemma release_never_clamps_witness :
  exists sc, Example.h4 !! 0%nat = Some sc /\ sub64 (get FMemory (rc sc)) 40 = 60.
Proof.
  eexists. split; [reflexivity|].
  refine (proj2 (release_never_clamps _ _ 2%nat
    (fun f => if decide (f = FMemory) then 40 else 0) Example.reach4 _ 0%nat _ FMemory _ eq_refl)).
  - intros []; vm_compute; split; congruence.
  - apply list_elem_of_lookup. exists 2%nat. reflexivity.
Defined.

Lemma done_order_irrelevant_witness :
  exists sc1 sc2,
    Done (Done Example.h4 1) 2 !! 0%nat = Some sc1 /\ Done (Done Example.h4 2) 1 !! 0%nat = Some sc2
    /\ get FMemory (rc sc1) = get FMemory (rc sc2).
Proof.
  eexists _, _. split; [reflexivity|]. split; [reflexivity|].
  refine (done_order_irrelevant Example.h4 Example.own4 2 1 _ _ (Inv_reachable _ _ Example.reach4)
    _ eq_refl eq_refl _ eq_refl eq_refl _ 0%nat _ _ FMemory eq_refl eq_refl); [lia|..];
  intros u usc Hu _ _; destruct u as [|[|[|u]]]; vm_compute in Hu; try discriminate Hu;
    injection Hu as <-; simpl; set_solver.
Defined.
