(* ===== verification/ConnLimiter.v ===== *)
(** * Connections per address and subnet (p2p/host/resource-manager/conn_limiter.go)

    The limiter counts open connections per configured network prefix and, for
    addresses outside all of them, per subnet.  IPv4 and IPv6 have the same four
    fields each; they are one [family] record here, and the methods choose the
    record by [ip.Is6()] as the source chooses the fields.  [netip.Addr] and
    [netip.Prefix] of the Go library are modelled as far as the code uses them. *)
From Stdlib Require Import ZArith Lia Sorted.
From stdpp Require Import base tactics sets list numbers option strings gmap countable sorting.
From S2P Require Import Prelude.
Local Open Scope Z_scope.
Import Int64.

(** ** net/netip *)
Inductive Addr :=
| AddrInvalid                        (** the zero [netip.Addr] *)
| Addr4 (a : Z)                      (** 32 bits *)
| Addr6 (a : Z) (zone : string).     (** 128 bits *)

#[export] Instance Addr_eq_dec : EqDecision Addr.
Proof. solve_decision. Defined.
#[export] Instance Addr_countable : Countable Addr.
Proof.
  refine (inj_countable'
    (fun a => match a with
              | AddrInvalid => inl tt | Addr4 a => inr (inl a) | Addr6 a z => inr (inr (a, z)) end)
    (fun s => match s with
              | inl _ => AddrInvalid | inr (inl a) => Addr4 a | inr (inr (a, z)) => Addr6 a z end) _).
  by intros [].
Defined.

Definition IsValid (ip : Addr) : bool := match ip with AddrInvalid => false | _ => true end.
Definition Is6 (ip : Addr) : bool := match ip with Addr6 _ _ => true | _ => false end.
Definition BitLen (ip : Addr) : Z :=
  match ip with AddrInvalid => 0 | Addr4 _ => 32 | Addr6 _ _ => 128 end.

(** A valid prefix keeps its address with the host bits cleared, without zone;
    [PrefixZero] is [netip.Prefix{}]. *)
Inductive Prefix := PrefixZero | PrefixFrom (ip : Addr) (bits : Z).

#[export] Instance Prefix_eq_dec : EqDecision Prefix.
Proof. solve_decision. Defined.
#[export] Instance Prefix_countable : Countable Prefix.
Proof.
  refine (inj_countable'
    (fun p => match p with PrefixZero => inl tt | PrefixFrom ip b => inr (ip, b) end)
    (fun s => match s with inl _ => PrefixZero | inr (ip, b) => PrefixFrom ip b end) _).
  by intros [].
Defined.

(** [p.Bits()], -1 for an invalid prefix. *)
Definition Bits (p : Prefix) : Z := match p with PrefixZero => -1 | PrefixFrom _ b => b end.

(** The top [bits] of a [width]-bit number, the rest cleared. *)
Definition maskTop (width bits a : Z) : Z := Z.shiftl (Z.shiftr a (width - bits)) (width - bits).

(** [ip.Prefix(b)]; [None] is the error. *)
Definition AddrPrefix (ip : Addr) (b : Z) : option Prefix :=
  if b <? 0 then None
  else match ip with
       | AddrInvalid => Some PrefixZero
       | Addr4 a => if 32 <? b then None else Some (PrefixFrom (Addr4 (maskTop 32 b a)) b)
       | Addr6 a _ => if 128 <? b then None else Some (PrefixFrom (Addr6 (maskTop 128 b a) "") b)
       end.

(** [p.Contains(ip)] *)
Definition Contains (p : Prefix) (ip : Addr) : bool :=
  match p, ip with
  | PrefixFrom (Addr4 n) b, Addr4 a => Z.shiftr n (32 - b) =? Z.shiftr a (32 - b)
  | PrefixFrom (Addr6 n _) b, Addr6 a zone =>
      bool_decide (zone = "") && (Z.shiftr n (128 - b) =? Z.shiftr a (128 - b))
  | _, _ => false
  end.

(** ** Configuration *)
Record ConnLimitPerSubnet := mkConnLimitPerSubnet { PrefixLength : Z; cs_ConnCount : Z }.
Record NetworkPrefixLimit := mkNetworkPrefixLimit { Network : Prefix; np_ConnCount : Z }.

(** Stable, most specific prefix first. *)
Fixpoint insertPrefixLimit (x : NetworkPrefixLimit) (l : list NetworkPrefixLimit)
    : list NetworkPrefixLimit :=
  match l with
  | [] => [x]
  | y :: l' => if Bits (Network y) <=? Bits (Network x) then x :: l else y :: insertPrefixLimit x l'
  end.
Definition sortNetworkPrefixes (limits : list NetworkPrefixLimit) : list NetworkPrefixLimit :=
  foldr insertPrefixLimit [] limits.

(** ** State *)
Record family := mkFamily {
  networkPrefixLimit : list NetworkPrefixLimit;
  connsPerNetworkPrefix : list Z;
  connLimitPerSubnet : list ConnLimitPerSubnet;
  connsPerLimit : list (gmap Prefix Z) }.

Record connLimiter := mkConnLimiter { familyV4 : family; familyV6 : family }.

Definition defaultMaxConcurrentConns : Z := 8.
Definition defaultIP4Limit : ConnLimitPerSubnet := mkConnLimitPerSubnet 32 defaultMaxConcurrentConns.
Definition defaultIP6Limits : list ConnLimitPerSubnet :=
  [mkConnLimitPerSubnet 56 defaultMaxConcurrentConns;
   mkConnLimitPerSubnet 48 (8 * defaultMaxConcurrentConns)].

(** 127.0.0.0/8 and ::1/128, unlimited *)
Definition DefaultNetworkPrefixLimitV4 : list NetworkPrefixLimit :=
  sortNetworkPrefixes [mkNetworkPrefixLimit (PrefixFrom (Addr4 (127 * 2 ^ 24)) 8) MaxInt64].
Definition DefaultNetworkPrefixLimitV6 : list NetworkPrefixLimit :=
  sortNetworkPrefixes [mkNetworkPrefixLimit (PrefixFrom (Addr6 1 "") 128) MaxInt64].

Definition newConnLimiter : connLimiter := {|
  familyV4 := mkFamily DefaultNetworkPrefixLimitV4 [] [defaultIP4Limit] [];
  familyV6 := mkFamily DefaultNetworkPrefixLimitV6 [] defaultIP6Limits [] |}.

Definition addPrefixLimit (f : family) (npLimit : NetworkPrefixLimit) : family :=
  mkFamily (sortNetworkPrefixes (networkPrefixLimit f ++ [npLimit])) (connsPerNetworkPrefix f)
    (connLimitPerSubnet f) (connsPerLimit f).

Definition addNetworkPrefixLimit (cl : connLimiter) (isIP6 : bool) (npLimit : NetworkPrefixLimit)
    : connLimiter :=
  if isIP6 then mkConnLimiter (familyV4 cl) (addPrefixLimit (familyV6 cl) npLimit)
  else mkConnLimiter (addPrefixLimit (familyV4 cl) npLimit) (familyV6 cl).

(** ** Adding and removing a connection

    The slices of counters are allocated on first use. *)
Definition initNetworkPrefix (f : family) : family :=
  match connsPerNetworkPrefix f, networkPrefixLimit f with
  | [], _ :: _ =>
      mkFamily (networkPrefixLimit f) (replicate (length (networkPrefixLimit f)) 0)
        (connLimitPerSubnet f) (connsPerLimit f)
  | _, _ => f
  end.

Definition initPerLimit (f : family) : family :=
  match connsPerLimit f, connLimitPerSubnet f with
  | [], _ :: _ =>
      mkFamily (networkPrefixLimit f) (connsPerNetworkPrefix f) (connLimitPerSubnet f)
        (replicate (length (connLimitPerSubnet f)) ∅)
  | _, _ => f
  end.

Definition set_conns (f : family) (c : list Z) : family :=
  mkFamily (networkPrefixLimit f) c (connLimitPerSubnet f) (connsPerLimit f).
Definition set_perLimit (f : family) (m : list (gmap Prefix Z)) : family :=
  mkFamily (networkPrefixLimit f) (connsPerNetworkPrefix f) (connLimitPerSubnet f) m.

(** The index and limit of the first network prefix that contains [ip]. *)
Fixpoint firstMatch (i : nat) (limits : list NetworkPrefixLimit) (ip : Addr)
    : option (nat * NetworkPrefixLimit) :=
  match limits with
  | [] => None
  | l :: limits => if Contains (Network l) ip then Some (i, l) else firstMatch (S i) limits ip
  end.

(** The first loop over the subnet limits: every missing count is entered as
    zero, the first limit that is reached stops it.  [None] is the panic of an
    index out of range. *)
Fixpoint checkSubnets (limits : list ConnLimitPerSubnet) (ms : list (gmap Prefix Z)) (ip : Addr)
    : option (list (gmap Prefix Z) * bool) :=
  match limits with
  | [] => Some (ms, true)
  | l :: limits =>
      match AddrPrefix ip (PrefixLength l) with
      | None => Some (ms, false)
      | Some prefix =>
          match ms with
          | [] => None
          | m :: ms =>
              let counts := default 0 (m !! prefix) in
              let m := match m !! prefix with Some _ => m | None => <[prefix := 0]> m end in
              if cs_ConnCount l <? add64 counts 1 then Some (m :: ms, false)
              else '(ms, ok) ← checkSubnets limits ms ip; Some (m :: ms, ok)
          end
      end
  end.

(** The second loop: all checks passed, the counts are increased. *)
Fixpoint countSubnets (limits : list ConnLimitPerSubnet) (ms : list (gmap Prefix Z)) (ip : Addr)
    : option (list (gmap Prefix Z)) :=
  match limits, ms with
  | [], _ => Some ms
  | _ :: _, [] => None
  | l :: limits, m :: ms =>
      let prefix := default PrefixZero (AddrPrefix ip (PrefixLength l)) in
      ms ← countSubnets limits ms ip;
      Some (<[prefix := add64 (default 0 (m !! prefix)) 1]> m :: ms)
  end.

Definition familyAddConn (f : family) (ip : Addr) : option (family * bool) :=
  let f := initNetworkPrefix f in
  match firstMatch 0 (networkPrefixLimit f) ip with
  | Some (i, limit) =>
      count ← connsPerNetworkPrefix f !! i;
      if np_ConnCount limit <? add64 count 1 then Some (f, false)
      else Some (set_conns f (<[i := add64 count 1]> (connsPerNetworkPrefix f)), true)
  | None =>
      let f := initPerLimit f in
      '(ms, ok) ← checkSubnets (connLimitPerSubnet f) (connsPerLimit f) ip;
      if ok : bool
      then ms ← countSubnets (connLimitPerSubnet f) ms ip; Some (set_perLimit f ms, true)
      else Some (set_perLimit f ms, false)
  end.

(** The loop of [rmConn] over the subnet limits. *)
Fixpoint uncountSubnets (limits : list ConnLimitPerSubnet) (ms : list (gmap Prefix Z)) (ip : Addr)
    : option (list (gmap Prefix Z)) :=
  match limits with
  | [] => Some ms
  | l :: limits =>
      match AddrPrefix ip (PrefixLength l) with
      | None =>
          match ms with
          | [] => uncountSubnets limits [] ip
          | m :: ms => ms ← uncountSubnets limits ms ip; Some (m :: ms)
          end
      | Some prefix =>
          match ms with
          | [] => None
          | m :: ms =>
              let m :=
                match m !! prefix with
                | Some counts =>
                    if counts =? 0 then m
                    else if sub64 counts 1 <=? 0 then delete prefix m
                    else <[prefix := sub64 counts 1]> m
                | None => m
                end in
              ms ← uncountSubnets limits ms ip; Some (m :: ms)
          end
      end
  end.

Definition familyRmConn (f : family) (ip : Addr) : option family :=
  let f := initNetworkPrefix f in
  match firstMatch 0 (networkPrefixLimit f) ip with
  | Some (i, limit) =>
      count ← connsPerNetworkPrefix f !! i;
      if count <=? 0 then Some f
      else Some (set_conns f (<[i := sub64 count 1]> (connsPerNetworkPrefix f)))
  | None =>
      let f := initPerLimit f in
      ms ← uncountSubnets (connLimitPerSubnet f) (connsPerLimit f) ip;
      Some (set_perLimit f ms)
  end.

Definition addConn (cl : connLimiter) (ip : Addr) : option (connLimiter * bool) :=
  if Is6 ip then '(f, ok) ← familyAddConn (familyV6 cl) ip; Some (mkConnLimiter (familyV4 cl) f, ok)
  else '(f, ok) ← familyAddConn (familyV4 cl) ip; Some (mkConnLimiter f (familyV6 cl), ok).

Definition rmConn (cl : connLimiter) (ip : Addr) : option connLimiter :=
  if Is6 ip then f ← familyRmConn (familyV6 cl) ip; Some (mkConnLimiter (familyV4 cl) f)
  else f ← familyRmConn (familyV4 cl) ip; Some (mkConnLimiter f (familyV6 cl)).

(** ** Specification: the connections that are open

    [adm] lists the addresses of the connections that were admitted and not yet
    removed. *)
Section counts.
Context (limits : list NetworkPrefixLimit).

(** 1 when the first prefix containing [ip] is the [i]-th. *)
Definition hitsPrefix (i : nat) (ip : Addr) : Z :=
  match firstMatch 0 limits ip with
  | Some (j, _) => if decide (j = i) then 1 else 0
  | None => 0
  end.

(** 1 when [ip] is in no network prefix and in the subnet [p] of length [len]. *)
Definition hitsSubnet (len : Z) (p : Prefix) (ip : Addr) : Z :=
  match firstMatch 0 limits ip with
  | Some _ => 0
  | None => if decide (AddrPrefix ip len = Some p) then 1 else 0
  end.

Definition prefixConns (adm : list Addr) (i : nat) : Z := sumZ (hitsPrefix i) adm.
Definition subnetConns (adm : list Addr) (len : Z) (p : Prefix) : Z := sumZ (hitsSubnet len p) adm.
End counts.
#[global] Arguments prefixConns : simpl never.
#[global] Arguments subnetConns : simpl never.

(** The count of a prefix in a map, zero when there is no entry. *)
Definition cnt (m : gmap Prefix Z) (p : Prefix) : Z := default 0 (m !! p).

Record family_inv (f : family) (adm : list Addr) : Prop := {
  fi_np_len : connsPerNetworkPrefix f = [] \/
              length (connsPerNetworkPrefix f) = length (networkPrefixLimit f);
  fi_np i : (i < length (networkPrefixLimit f))%nat ->
            default 0 (connsPerNetworkPrefix f !! i) = prefixConns (networkPrefixLimit f) adm i;
  fi_ms_len : connsPerLimit f = [] \/ length (connsPerLimit f) = length (connLimitPerSubnet f);
  fi_ms i l p : connLimitPerSubnet f !! i = Some l ->
            cnt (default ∅ (connsPerLimit f !! i)) p
            = subnetConns (networkPrefixLimit f) adm (PrefixLength l) p;
  fi_np_bound i l : networkPrefixLimit f !! i = Some l ->
            prefixConns (networkPrefixLimit f) adm i <= Z.max 0 (np_ConnCount l);
  fi_ms_bound i l p : connLimitPerSubnet f !! i = Some l ->
            subnetConns (networkPrefixLimit f) adm (PrefixLength l) p <= Z.max 0 (cs_ConnCount l) }.

(** ** Lemmas *)
Lemma firstMatch_bound i limits ip j l :
  firstMatch i limits ip = Some (j, l) ->
  (i <= j)%nat /\ limits !! (j - i)%nat = Some l /\ Contains (Network l) ip = true.
Proof.
  revert i. induction limits as [|l0 limits IH]; intros i; [done|]. simpl.
  destruct (Contains (Network l0) ip) eqn:Hc; [intros [= <- <-]; by rewrite Nat.sub_diag|].
  intros (? & Hl & ?)%IH. split; [lia|]. split; [|done].
  replace (j - i)%nat with (S (j - S i))%nat by lia. done.
Qed.

Lemma hitsPrefix_bounds limits i ip : 0 <= hitsPrefix limits i ip <= 1.
Proof. unfold hitsPrefix. destruct (firstMatch _ _ _) as [[]|]; [case_decide|]; lia. Qed.

Lemma hitsSubnet_bounds limits len p ip : 0 <= hitsSubnet limits len p ip <= 1.
Proof. unfold hitsSubnet. destruct (firstMatch _ _ _); [lia|]. case_decide; lia. Qed.

Lemma sumZ_le_length {A} (g : A -> Z) (l : list A) :
  (forall x, 0 <= g x <= 1) -> 0 <= sumZ g l <= Z.of_nat (length l).
Proof.
  intros Hg. induction l as [|x l IH]; simpl; [lia|]. specialize (Hg x). lia.
Qed.

Lemma init_np_inv f adm :
  family_inv f adm ->
  family_inv (initNetworkPrefix f) adm
  /\ length (connsPerNetworkPrefix (initNetworkPrefix f)) = length (networkPrefixLimit f)
  /\ networkPrefixLimit (initNetworkPrefix f) = networkPrefixLimit f
  /\ connLimitPerSubnet (initNetworkPrefix f) = connLimitPerSubnet f.
Proof.
  intros HI. unfold initNetworkPrefix.
  destruct (connsPerNetworkPrefix f) as [|c cs] eqn:Hc, (networkPrefixLimit f) as [|l ls] eqn:Hl.
  - rewrite ?Hc, ?Hl. done.
  - split; [|simpl; rewrite length_replicate; done]. destruct HI. rewrite Hc, Hl in *.
    split; simpl; auto.
    + right. by rewrite length_replicate.
    + intros i Hi. specialize (fi_np0 i Hi). rewrite lookup_nil in fi_np0. simpl in fi_np0.
      rewrite <- fi_np0. change (0 :: replicate (length ls) 0) with (replicate (S (length ls)) 0).
      by rewrite lookup_replicate_2.
  - rewrite ?Hc, ?Hl. destruct (fi_np_len _ _ HI) as [|Hlen]; [congruence|].
    rewrite Hc, Hl in Hlen. done.
  - rewrite ?Hc, ?Hl. destruct (fi_np_len _ _ HI) as [|Hlen]; [congruence|].
    rewrite Hc, Hl in Hlen. done.
Qed.

Lemma init_ms_inv f adm :
  family_inv f adm ->
  family_inv (initPerLimit f) adm
  /\ length (connsPerLimit (initPerLimit f)) = length (connLimitPerSubnet f)
  /\ networkPrefixLimit (initPerLimit f) = networkPrefixLimit f
  /\ connLimitPerSubnet (initPerLimit f) = connLimitPerSubnet f.
Proof.
  intros HI. unfold initPerLimit.
  destruct (connsPerLimit f) as [|c cs] eqn:Hc, (connLimitPerSubnet f) as [|l ls] eqn:Hl.
  - rewrite ?Hc, ?Hl. done.
  - split; [|simpl; rewrite length_replicate; done]. destruct HI. rewrite Hc, Hl in *.
    split; simpl; auto.
    + right. by rewrite length_replicate.
    + intros i l0 p Hi. specialize (fi_ms0 i l0 p Hi). rewrite lookup_nil in fi_ms0.
      rewrite <- fi_ms0. change (∅ :: replicate (length ls) ∅) with
        (replicate (S (length ls)) (∅ : gmap Prefix Z)).
      by rewrite lookup_replicate_2 by (by eapply (lookup_lt_Some (l :: ls))).
  - rewrite ?Hc, ?Hl. destruct (fi_ms_len _ _ HI) as [|Hlen]; [congruence|].
    rewrite Hc, Hl in Hlen. done.
  - rewrite ?Hc, ?Hl. destruct (fi_ms_len _ _ HI) as [|Hlen]; [congruence|].
    rewrite Hc, Hl in Hlen. done.
Qed.

Lemma cnt_enter_zero m p q :
  cnt (match m !! p with Some _ => m | None => <[p := 0]> m end) q = cnt m q.
Proof.
  destruct (m !! p) eqn:Hp; [done|]. unfold cnt. destruct (decide (q = p)) as [->|].
  - by rewrite lookup_insert_eq, Hp.
  - by rewrite lookup_insert_ne.
Qed.

Lemma cnt_insert m p q v : cnt (<[p := v]> m) q = if decide (q = p) then v else cnt m q.
Proof.
  unfold cnt. case_decide as Hq; [subst; by rewrite lookup_insert_eq|by rewrite lookup_insert_ne].
Qed.

(** The check keeps all counts; it accepts exactly when every limit has room. *)
Lemma checkSubnets_spec limits ms ip :
  length ms = length limits ->
  exists ms' ok, checkSubnets limits ms ip = Some (ms', ok) /\ length ms' = length ms
  /\ (forall i q, cnt (default ∅ (ms' !! i)) q = cnt (default ∅ (ms !! i)) q)
  /\ (ok = true <-> forall i l, limits !! i = Some l ->
        exists p, AddrPrefix ip (PrefixLength l) = Some p
                  /\ add64 (cnt (default ∅ (ms !! i)) p) 1 <= cs_ConnCount l).
Proof.
  revert ms. induction limits as [|l limits IH]; intros [|m ms] Hlen; simplify_eq/=.
  { exists [], true. split_and!; try done. }
  destruct (AddrPrefix ip (PrefixLength l)) as [p|] eqn:Hp.
  2: { eexists _, false. split_and!; try done. split; [done|].
       intros H. destruct (H 0%nat l eq_refl) as (? & ? & _). congruence. }
  fold (cnt m p). zcase.
  { eexists _, false. split_and!; try done.
    - intros [|i] q; simpl; [apply cnt_enter_zero|done].
    - split; [done|]. intros Hall. destruct (Hall 0%nat l eq_refl) as (p' & Hp' & Hle).
      simplify_eq. simpl in Hle. lia. }
  destruct (IH ms) as (ms' & ok & Hck & Hl' & Hcnt & Hok); [done|]. rewrite Hck. simpl.
  eexists _, ok. split_and!; try done.
  - simpl. by rewrite Hl'.
  - intros [|i] q; simpl; [apply cnt_enter_zero|apply Hcnt].
  - rewrite Hok. split.
    + intros Hall [|i] l0 Hi; simplify_eq/=; [eauto|by apply Hall].
    + intros Hall i l0 Hi. apply (Hall (S i) l0 Hi).
Qed.

Lemma countSubnets_spec limits ms ip :
  length ms = length limits ->
  exists ms', countSubnets limits ms ip = Some ms' /\ length ms' = length ms
  /\ (forall i l q, limits !! i = Some l ->
        cnt (default ∅ (ms' !! i)) q =
        let p := default PrefixZero (AddrPrefix ip (PrefixLength l)) in
        if decide (q = p) then add64 (cnt (default ∅ (ms !! i)) p) 1
        else cnt (default ∅ (ms !! i)) q).
Proof.
  revert ms. induction limits as [|l limits IH]; intros [|m ms] Hlen; simplify_eq/=.
  { exists []. done. }
  destruct (IH ms) as (ms' & Hc & Hl' & Hcnt); [done|]. rewrite Hc. simpl.
  eexists. split_and!; [done|simpl; by rewrite Hl'|].
  intros [|i] l0 q Hi; simplify_eq/=; [apply cnt_insert|by apply Hcnt].
Qed.

Lemma cnt_delete m p q : cnt (delete p m) q = if decide (q = p) then 0 else cnt m q.
Proof.
  unfold cnt. case_decide as Hq; [subst; by rewrite lookup_delete_eq|by rewrite lookup_delete_ne].
Qed.

(** One step of the removal: the count of the address's prefix goes down by one,
    and a count that reaches zero is deleted. *)
Lemma cnt_uncount m p q :
  0 < cnt m p <= MaxInt64 ->
  cnt (match m !! p with
       | Some c => if c =? 0 then m else if sub64 c 1 <=? 0 then delete p m
                   else <[p := sub64 c 1]> m
       | None => m
       end) q = cnt m q - if decide (q = p) then 1 else 0.
Proof.
  intros Hc. assert (Hp : m !! p = Some (cnt m p)).
  { unfold cnt in *. destruct (m !! p); simpl in *; [done|lia]. }
  rewrite Hp. destruct (Z.eqb_spec (cnt m p) 0); [lia|]. rewrite sub64_small by int64_lia.
  zcase; rewrite ?cnt_delete, ?cnt_insert; case_decide; subst; lia.
Qed.

Lemma uncountSubnets_spec limits ms ip :
  length ms = length limits ->
  (forall i l p, limits !! i = Some l -> AddrPrefix ip (PrefixLength l) = Some p ->
     0 < cnt (default ∅ (ms !! i)) p <= MaxInt64) ->
  exists ms', uncountSubnets limits ms ip = Some ms' /\ length ms' = length ms
  /\ (forall i l q, limits !! i = Some l ->
        cnt (default ∅ (ms' !! i)) q = cnt (default ∅ (ms !! i)) q
          - if decide (AddrPrefix ip (PrefixLength l) = Some q) then 1 else 0).
Proof.
  revert ms. induction limits as [|l limits IH]; intros [|m ms] Hlen Hpos; simplify_eq/=.
  { exists []. done. }
  destruct (IH ms) as (ms' & Hc & Hl' & Hcnt); [done|intros i; apply (Hpos (S i))|].
  pose proof (fun p => Hpos 0%nat l p eq_refl) as Hp0. simpl in Hp0.
  destruct (AddrPrefix ip (PrefixLength l)) as [p|] eqn:Hp; rewrite Hc; simpl;
    (eexists; split_and!; [done|simpl; by rewrite Hl'|]); intros [|i] l0 q Hi; simplify_eq/=;
    try (by apply Hcnt).
  - rewrite cnt_uncount by (by apply Hp0). rewrite Hp.
    do 2 case_decide; simplify_eq; lia.
  - rewrite Hp. rewrite decide_False by done. lia.
Qed.

(** ** The limiter admits a connection exactly when there is room *)
Definition hasRoom (f : family) (adm : list Addr) (ip : Addr) : Prop :=
  match firstMatch 0 (networkPrefixLimit f) ip with
  | Some (i, l) => prefixConns (networkPrefixLimit f) adm i + 1 <= np_ConnCount l
  | None => forall i l, connLimitPerSubnet f !! i = Some l ->
      exists p, AddrPrefix ip (PrefixLength l) = Some p
        /\ subnetConns (networkPrefixLimit f) adm (PrefixLength l) p + 1 <= cs_ConnCount l
  end.

Lemma prefixConns_bounds limits adm i :
  0 <= prefixConns limits adm i <= Z.of_nat (length adm).
Proof. apply sumZ_le_length. intros. apply hitsPrefix_bounds. Qed.

Lemma subnetConns_bounds limits adm len p :
  0 <= subnetConns limits adm len p <= Z.of_nat (length adm).
Proof. apply sumZ_le_length. intros. apply hitsSubnet_bounds. Qed.

Lemma prefixConns_cons limits ip adm i :
  prefixConns limits (ip :: adm) i = hitsPrefix limits i ip + prefixConns limits adm i.
Proof. done. Qed.

Lemma subnetConns_cons limits ip adm len p :
  subnetConns limits (ip :: adm) len p = hitsSubnet limits len p ip + subnetConns limits adm len p.
Proof. done. Qed.

(** The branch of [familyAddConn] for an address in a network prefix. *)
Lemma add_prefix_inv f adm ip i l count :
  family_inv f adm -> Z.of_nat (length adm) < MaxInt64 ->
  length (connsPerNetworkPrefix f) = length (networkPrefixLimit f) ->
  firstMatch 0 (networkPrefixLimit f) ip = Some (i, l) ->
  connsPerNetworkPrefix f !! i = Some count -> add64 count 1 <= np_ConnCount l ->
  family_inv (set_conns f (<[i := add64 count 1]> (connsPerNetworkPrefix f))) (ip :: adm).
Proof.
  intros HI Hlen Hcl Hm Hc Hle. destruct (firstMatch_bound _ _ _ _ _ Hm) as (_ & Hl & _).
  rewrite Nat.sub_0_r in Hl. pose proof (lookup_lt_Some _ _ _ Hl) as Hi.
  pose proof (prefixConns_bounds (networkPrefixLimit f) adm i).
  destruct HI. pose proof (fi_np0 i Hi) as Hci. rewrite Hc in Hci. simpl in Hci. subst count.
  rewrite add64_small in * by int64_lia.
  assert (Hhp : forall j, hitsPrefix (networkPrefixLimit f) j ip = if decide (i = j) then 1 else 0)
    by (intros j; unfold hitsPrefix; by rewrite Hm).
  assert (Hhs : forall len p, hitsSubnet (networkPrefixLimit f) len p ip = 0)
    by (intros; unfold hitsSubnet; by rewrite Hm).
  split; simpl; try done.
  - right. by rewrite length_insert.
  - intros j Hj. rewrite prefixConns_cons, Hhp.
    destruct (decide (i = j)) as [<-|Hne].
    + rewrite list_lookup_insert_eq by lia. simpl. lia.
    + rewrite list_lookup_insert_ne by done. by apply fi_np0.
  - intros j l0 p Hj. rewrite subnetConns_cons, Hhs. by apply fi_ms0.
  - intros j l0 Hj. rewrite prefixConns_cons, Hhp.
    pose proof (fi_np_bound0 j l0 Hj). case_decide; simplify_eq; lia.
  - intros j l0 p Hj. rewrite subnetConns_cons, Hhs. by eapply fi_ms_bound0.
Qed.

(** Entering zero counts does not matter. *)
Lemma same_counts_inv f adm ms :
  family_inv f adm -> length ms = length (connLimitPerSubnet f) ->
  (forall i q, cnt (default ∅ (ms !! i)) q = cnt (default ∅ (connsPerLimit f !! i)) q) ->
  family_inv (set_perLimit f ms) adm.
Proof.
  intros [] Hlen Hms. split; simpl; try done; [by right|].
  intros i l p Hi. rewrite Hms. by apply fi_ms0.
Qed.

(** The branch for an address that all subnet limits have room for. *)
Lemma add_subnet_inv f adm ip ms :
  family_inv f adm -> Z.of_nat (length adm) < MaxInt64 ->
  length ms = length (connLimitPerSubnet f) ->
  firstMatch 0 (networkPrefixLimit f) ip = None ->
  (forall i l, connLimitPerSubnet f !! i = Some l ->
     exists p, AddrPrefix ip (PrefixLength l) = Some p
       /\ subnetConns (networkPrefixLimit f) adm (PrefixLength l) p + 1 <= cs_ConnCount l) ->
  (forall i l q, connLimitPerSubnet f !! i = Some l ->
     cnt (default ∅ (ms !! i)) q =
     let p := default PrefixZero (AddrPrefix ip (PrefixLength l)) in
     if decide (q = p) then add64 (cnt (default ∅ (connsPerLimit f !! i)) p) 1
     else cnt (default ∅ (connsPerLimit f !! i)) q) ->
  family_inv (set_perLimit f ms) (ip :: adm).
Proof.
  intros HI Hlen Hml Hm Hroom Hms. destruct HI.
  assert (Hhp : forall j, hitsPrefix (networkPrefixLimit f) j ip = 0)
    by (intros j; unfold hitsPrefix; by rewrite Hm).
  assert (Hhs : forall len p, hitsSubnet (networkPrefixLimit f) len p ip
    = if decide (AddrPrefix ip len = Some p) then 1 else 0)
    by (intros; unfold hitsSubnet; by rewrite Hm).
  split; simpl; try done.
  - intros i Hi. rewrite prefixConns_cons, Hhp. by apply fi_np0.
  - by right.
  - intros i l q Hi. destruct (Hroom i l Hi) as (p & Hp & _).
    rewrite (Hms i l q Hi), Hp. simpl. rewrite subnetConns_cons, Hhs, Hp.
    pose proof (subnetConns_bounds (networkPrefixLimit f) adm (PrefixLength l) p).
    rewrite !(fi_ms0 i l) by done. rewrite add64_small by int64_lia.
    do 2 case_decide; simplify_eq; lia.
  - intros i l Hi. rewrite prefixConns_cons, Hhp. by apply fi_np_bound0.
  - intros i l q Hi. destruct (Hroom i l Hi) as (p & Hp & Hle). rewrite subnetConns_cons, Hhs, Hp.
    pose proof (fi_ms_bound0 i l q Hi). case_decide; simplify_eq; lia.
Qed.

(** The invariant does not depend on the order of the open connections. *)
#[export] Instance family_inv_proper f : Proper ((≡ₚ) ==> iff) (family_inv f).
Proof.
  assert (Himp : forall a b, a ≡ₚ b -> family_inv f a -> family_inv f b).
  { intros a b Hab [].
    assert (Hp : forall i, prefixConns (networkPrefixLimit f) b i
                           = prefixConns (networkPrefixLimit f) a i)
      by (intros; apply sumZ_perm; by symmetry).
    assert (Hs : forall len p, subnetConns (networkPrefixLimit f) b len p
                           = subnetConns (networkPrefixLimit f) a len p)
      by (intros; apply sumZ_perm; by symmetry).
    split; intros; rewrite ?Hp, ?Hs; eauto. }
  intros a b Hab. split; apply Himp; [done|by symmetry].
Qed.

(** [addConn] on one family never panics, answers whether there is room, and
    counts the connection when it is admitted. *)
Lemma familyAddConn_spec f adm ip :
  family_inv f adm -> Z.of_nat (length adm) < MaxInt64 ->
  exists f' ok, familyAddConn f ip = Some (f', ok)
  /\ networkPrefixLimit f' = networkPrefixLimit f
  /\ connLimitPerSubnet f' = connLimitPerSubnet f
  /\ (ok = true <-> hasRoom f adm ip)
  /\ family_inv f' (if ok then ip :: adm else adm).
Proof.
  intros HI Hlen. unfold familyAddConn, hasRoom.
  destruct (init_np_inv f adm HI) as (HI1 & Hl1 & Hn1 & Hc1).
  set (f1 := initNetworkPrefix f) in *. rewrite <- Hn1, <- Hc1. rewrite <- Hn1 in Hl1.
  destruct (firstMatch 0 (networkPrefixLimit f1) ip) as [[i l]|] eqn:Hm.
  - destruct (firstMatch_bound _ _ _ _ _ Hm) as (_ & Hli & _). rewrite Nat.sub_0_r in Hli.
    pose proof (lookup_lt_Some _ _ _ Hli) as Hi.
    destruct (lookup_lt_is_Some_2 (connsPerNetworkPrefix f1) i) as [c Hc]; [lia|].
    rewrite Hc. simpl. pose proof (fi_np _ _ HI1 i Hi) as Hci. rewrite Hc in Hci. simpl in Hci.
    pose proof (prefixConns_bounds (networkPrefixLimit f1) adm i).
    assert (Hadd : add64 c 1 = prefixConns (networkPrefixLimit f1) adm i + 1)
      by (rewrite add64_small; int64_lia).
    zcase; [exists f1, false|eexists _, true]; (split_and!; try done).
    + split; [done|lia].
    + split; [lia|done].
    + by eapply add_prefix_inv.
  - destruct (init_ms_inv f1 adm HI1) as (HI2 & Hl2 & Hn2 & Hc2).
    set (f2 := initPerLimit f1) in *. rewrite <- Hn2, <- Hc2. rewrite <- Hc2 in Hl2.
    destruct (checkSubnets_spec (connLimitPerSubnet f2) (connsPerLimit f2) ip)
      as (ms & ok & -> & Hlm & Hcnt & Hok); [done|]. simpl.
    assert (Hroom : ok = true <-> forall i l, connLimitPerSubnet f2 !! i = Some l ->
      exists p, AddrPrefix ip (PrefixLength l) = Some p
        /\ subnetConns (networkPrefixLimit f2) adm (PrefixLength l) p + 1 <= cs_ConnCount l).
    { rewrite Hok. split; intros Hall i l Hi; destruct (Hall i l Hi) as (p & Hp & Hle);
        exists p; (split; [done|]);
        pose proof (subnetConns_bounds (networkPrefixLimit f2) adm (PrefixLength l) p);
        rewrite (fi_ms _ _ HI2 i l p Hi), add64_small in * by int64_lia; lia. }
    destruct ok.
    + destruct (countSubnets_spec (connLimitPerSubnet f2) ms ip) as (ms' & -> & Hlm' & Hcnt');
        [lia|]. simpl. eexists _, true. split_and!; try done.
      apply add_subnet_inv; [done|done|lia|by rewrite Hn2|by apply Hroom|].
      intros i l q Hi. rewrite (Hcnt' i l q Hi). simpl. by rewrite !Hcnt.
    + eexists _, false. split_and!; try done.
      apply same_counts_inv; [done|lia|done].
Qed.

(** The bounds hold for fewer connections too. *)
Lemma conns_shrink f ip adm :
  family_inv f (ip :: adm) ->
  (forall i l, networkPrefixLimit f !! i = Some l ->
     prefixConns (networkPrefixLimit f) adm i <= Z.max 0 (np_ConnCount l))
  /\ (forall i l p, connLimitPerSubnet f !! i = Some l ->
     subnetConns (networkPrefixLimit f) adm (PrefixLength l) p <= Z.max 0 (cs_ConnCount l)).
Proof.
  intros []. split; [intros i l Hi|intros i l p Hi].
  - specialize (fi_np_bound0 i l Hi). rewrite prefixConns_cons in fi_np_bound0.
    pose proof (hitsPrefix_bounds (networkPrefixLimit f) i ip). lia.
  - specialize (fi_ms_bound0 i l p Hi). rewrite subnetConns_cons in fi_ms_bound0.
    pose proof (hitsSubnet_bounds (networkPrefixLimit f) (PrefixLength l) p ip). lia.
Qed.

(** The branch of [familyRmConn] for an address in a network prefix. *)
Lemma rm_prefix_inv f adm ip i l :
  family_inv f (ip :: adm) -> Z.of_nat (length adm) < MaxInt64 ->
  length (connsPerNetworkPrefix f) = length (networkPrefixLimit f) ->
  firstMatch 0 (networkPrefixLimit f) ip = Some (i, l) ->
  exists count, connsPerNetworkPrefix f !! i = Some count /\ 0 < count
    /\ family_inv (set_conns f (<[i := sub64 count 1]> (connsPerNetworkPrefix f))) adm.
Proof.
  intros HI Hlen Hl Hm. destruct (conns_shrink _ _ _ HI) as [Hbp Hbs].
  destruct (firstMatch_bound _ _ _ _ _ Hm) as (_ & Hli & _). rewrite Nat.sub_0_r in Hli.
  pose proof (lookup_lt_Some _ _ _ Hli) as Hi.
  destruct (lookup_lt_is_Some_2 (connsPerNetworkPrefix f) i) as [c Hc]; [lia|].
  assert (Hp : forall j, hitsPrefix (networkPrefixLimit f) j ip = if decide (i = j) then 1 else 0)
    by (intros j; unfold hitsPrefix; by rewrite Hm).
  assert (Hs : forall len p, hitsSubnet (networkPrefixLimit f) len p ip = 0)
    by (intros; unfold hitsSubnet; by rewrite Hm).
  destruct HI. pose proof (fi_np0 i Hi) as Hci. rewrite Hc in Hci. simpl in Hci.
  rewrite prefixConns_cons, Hp, decide_True in Hci by done.
  pose proof (prefixConns_bounds (networkPrefixLimit f) adm i).
  exists c. split_and!; [done|lia|]. rewrite sub64_small by int64_lia. split; simpl; try done.
  - right. by rewrite length_insert.
  - intros j Hj. destruct (decide (i = j)) as [<-|Hne].
    + rewrite list_lookup_insert_eq by lia. simpl. lia.
    + rewrite list_lookup_insert_ne, (fi_np0 j Hj), prefixConns_cons, Hp, decide_False by done. lia.
  - intros j l0 p Hj. rewrite (fi_ms0 j l0 p Hj), subnetConns_cons, Hs. lia.
Qed.

(** The branch for an address outside all network prefixes. *)
Lemma rm_subnet_inv f adm ip :
  family_inv f (ip :: adm) -> Z.of_nat (length adm) < MaxInt64 ->
  length (connsPerLimit f) = length (connLimitPerSubnet f) ->
  firstMatch 0 (networkPrefixLimit f) ip = None ->
  exists ms, uncountSubnets (connLimitPerSubnet f) (connsPerLimit f) ip = Some ms
    /\ family_inv (set_perLimit f ms) adm.
Proof.
  intros HI Hlen Hl Hm. destruct (conns_shrink _ _ _ HI) as [Hbp Hbs].
  assert (Hp : forall j, hitsPrefix (networkPrefixLimit f) j ip = 0)
    by (intros j; unfold hitsPrefix; by rewrite Hm).
  assert (Hs : forall len p, hitsSubnet (networkPrefixLimit f) len p ip
    = if decide (AddrPrefix ip len = Some p) then 1 else 0)
    by (intros; unfold hitsSubnet; by rewrite Hm).
  destruct (uncountSubnets_spec (connLimitPerSubnet f) (connsPerLimit f) ip)
    as (ms & Hun & Hlm & Hcnt); [done| |].
  { intros i l p Hi HAp. rewrite (fi_ms _ _ HI i l p Hi), subnetConns_cons, Hs, decide_True by done.
    pose proof (subnetConns_bounds (networkPrefixLimit f) adm (PrefixLength l) p). int64_lia. }
  exists ms. split; [done|]. destruct HI. split; simpl; try done.
  - intros j Hj. rewrite (fi_np0 j Hj), prefixConns_cons, Hp. lia.
  - right. lia.
  - intros j l0 p Hj. rewrite (Hcnt j l0 p Hj), (fi_ms0 j l0 p Hj), subnetConns_cons, Hs. lia.
Qed.

(** [rmConn] on one family undoes an admitted [addConn]. *)
Lemma familyRmConn_spec f adm ip :
  family_inv f (ip :: adm) -> Z.of_nat (length adm) < MaxInt64 ->
  exists f', familyRmConn f ip = Some f'
  /\ networkPrefixLimit f' = networkPrefixLimit f
  /\ connLimitPerSubnet f' = connLimitPerSubnet f
  /\ family_inv f' adm.
Proof.
  intros HI Hlen. unfold familyRmConn.
  destruct (init_np_inv f _ HI) as (HI1 & Hl1 & Hn1 & Hc1).
  set (f1 := initNetworkPrefix f) in *. rewrite <- Hn1, <- Hc1. rewrite <- Hn1 in Hl1.
  destruct (firstMatch 0 (networkPrefixLimit f1) ip) as [[i l]|] eqn:Hm.
  - destruct (rm_prefix_inv f1 adm ip i l) as (c & -> & Hpos & HI'); [done..|].
    simpl. zcase; [lia|]. by eexists.
  - destruct (init_ms_inv f1 _ HI1) as (HI2 & Hl2 & Hn2 & Hc2).
    set (f2 := initPerLimit f1) in *. rewrite <- Hn2, <- Hc2. rewrite <- Hc2 in Hl2.
    rewrite <- Hn2 in Hm. destruct (rm_subnet_inv f2 adm ip) as (ms & -> & HI'); [done..|].
    by eexists.
Qed.

(** ** The limiter over time

    The steps of the resource manager on the limiter: an [addConn] with its
    answer, and the [rmConn] of a connection that was admitted.  The second
    component lists the addresses of the open connections. *)
Inductive limiter_step : connLimiter * list Addr -> connLimiter * list Addr -> Prop :=
| step_admit cl adm ip cl' :
    addConn cl ip = Some (cl', true) -> limiter_step (cl, adm) (cl', ip :: adm)
| step_refuse cl adm ip cl' :
    addConn cl ip = Some (cl', false) -> limiter_step (cl, adm) (cl', adm)
| step_rm cl adm adm' ip cl' :
    adm ≡ₚ ip :: adm' -> rmConn cl ip = Some cl' -> limiter_step (cl, adm) (cl', adm').

Definition configured (cl : connLimiter) : Prop :=
  connsPerNetworkPrefix (familyV4 cl) = [] /\ connsPerLimit (familyV4 cl) = []
  /\ connsPerNetworkPrefix (familyV6 cl) = [] /\ connsPerLimit (familyV6 cl) = [].

Definition familyOf (cl : connLimiter) (ip : Addr) : family :=
  if Is6 ip then familyV6 cl else familyV4 cl.

(** The open connections of the same family as [ip]. *)
Definition sameFamily (b : bool) (adm : list Addr) : list Addr := filter (fun a => Is6 a = b) adm.

Definition limiter_inv (cl : connLimiter) (adm : list Addr) : Prop :=
  family_inv (familyV4 cl) (sameFamily false adm) /\ family_inv (familyV6 cl) (sameFamily true adm).

(** The limits are configuration: no operation on connections changes them. *)
Definition limitsOf (cl : connLimiter) :=
  ((networkPrefixLimit (familyV4 cl), connLimitPerSubnet (familyV4 cl)),
   (networkPrefixLimit (familyV6 cl), connLimitPerSubnet (familyV6 cl))).

Lemma sameFamily_length b adm : (length (sameFamily b adm) <= length adm)%nat.
Proof. apply length_filter. Qed.

Lemma sameFamily_cons b ip adm :
  sameFamily b (ip :: adm) = if decide (Is6 ip = b) then ip :: sameFamily b adm else sameFamily b adm.
Proof. unfold sameFamily. by rewrite filter_cons. Qed.

Lemma configured_inv cl : configured cl -> limiter_inv cl [].
Proof.
  intros (H1 & H2 & H3 & H4).
  split; split; rewrite ?H1, ?H2, ?H3, ?H4; auto; intros; unfold prefixConns, subnetConns; simpl;
    auto; try lia; destruct i; done.
Qed.

Lemma addConn_spec cl adm ip :
  limiter_inv cl adm -> Z.of_nat (length adm) < MaxInt64 ->
  exists cl' ok, addConn cl ip = Some (cl', ok) /\ limitsOf cl' = limitsOf cl
  /\ (ok = true <-> hasRoom (familyOf cl ip) (sameFamily (Is6 ip) adm) ip)
  /\ limiter_inv cl' (if ok then ip :: adm else adm).
Proof.
  intros [H4 H6] Hlen. unfold addConn, familyOf.
  pose proof (sameFamily_length (Is6 ip) adm).
  destruct (Is6 ip) eqn:H6ip.
  - destruct (familyAddConn_spec (familyV6 cl) _ ip H6) as (f & ok & -> & Hn & Hc & Hok & HI); [lia|].
    simpl. eexists _, ok. split_and!; try done; [unfold limitsOf; simpl; congruence|].
    destruct ok; [split; simpl; rewrite sameFamily_cons, H6ip; by simpl|by split].
  - destruct (familyAddConn_spec (familyV4 cl) _ ip H4) as (f & ok & -> & Hn & Hc & Hok & HI); [lia|].
    simpl. eexists _, ok. split_and!; try done; [unfold limitsOf; simpl; congruence|].
    destruct ok; [split; simpl; rewrite sameFamily_cons, H6ip; by simpl|by split].
Qed.

Lemma rmConn_spec cl adm adm' ip :
  limiter_inv cl adm -> adm ≡ₚ ip :: adm' -> Z.of_nat (length adm') < MaxInt64 ->
  exists cl', rmConn cl ip = Some cl' /\ limitsOf cl' = limitsOf cl /\ limiter_inv cl' adm'.
Proof.
  intros [H4 H6] Hp Hlen. unfold rmConn.
  assert (Hb : forall b, sameFamily b adm ≡ₚ sameFamily b (ip :: adm'))
    by (intros b; unfold sameFamily; by rewrite Hp).
  rewrite Hb, sameFamily_cons in H4. rewrite Hb, sameFamily_cons in H6.
  pose proof (sameFamily_length (Is6 ip) adm'). destruct (Is6 ip) eqn:H6ip; simpl in *.
  - destruct (familyRmConn_spec (familyV6 cl) _ ip H6) as (f & -> & Hn & Hc & HI); [lia|].
    eexists. split_and!; [done|unfold limitsOf; simpl; congruence|done].
  - destruct (familyRmConn_spec (familyV4 cl) _ ip H4) as (f & -> & Hn & Hc & HI); [lia|].
    eexists. split_and!; [done|unfold limitsOf; simpl; congruence|done].
Qed.

Lemma limiter_step_inv s s' :
  limiter_step s s' -> Z.of_nat (length s.2) < MaxInt64 -> limiter_inv s.1 s.2 ->
  limiter_inv s'.1 s'.2 /\ limitsOf s'.1 = limitsOf s.1 /\ (length s'.2 <= S (length s.2))%nat.
Proof.
  destruct 1 as [cl adm ip cl' Ha|cl adm ip cl' Ha|cl adm adm' ip cl' Hp Hr];
    cbn [fst snd]; intros Hlen HI.
  - destruct (addConn_spec cl adm ip HI Hlen) as (? & ? & Ha' & ? & _ & ?).
    rewrite Ha in Ha'. injection Ha' as <- <-. split_and!; [done|done|simpl; lia].
  - destruct (addConn_spec cl adm ip HI Hlen) as (? & ? & Ha' & ? & _ & ?).
    rewrite Ha in Ha'. injection Ha' as <- <-. split_and!; [done|done|simpl; lia].
  - assert (length adm = S (length adm')) by (by rewrite Hp).
    destruct (rmConn_spec cl adm adm' ip HI Hp) as (? & Hr' & ? & ?); [lia|].
    rewrite Hr in Hr'. injection Hr' as <-. split_and!; [done|done|lia].
Qed.

Lemma limiter_reach n s s' :
  nsteps limiter_step n s s' -> Z.of_nat (length s.2 + n) <= MaxInt64 -> limiter_inv s.1 s.2 ->
  limiter_inv s'.1 s'.2 /\ limitsOf s'.1 = limitsOf s.1 /\ (length s'.2 <= length s.2 + n)%nat.
Proof.
  induction 1 as [s|n s1 s2 s3 Hstep Hn IH]; intros Hlen HI; [split_and!; [done|done|lia]|].
  destruct (limiter_step_inv s1 s2 Hstep) as (HI2 & Hl2 & Hle); [lia|done|].
  destruct IH as (HI3 & Hl3 & Hle3); [lia|done|]. split_and!; [done|congruence|lia].
Qed.

(** The connections admitted and open in the subnet [p] of length [len] outside
    the network prefixes, and those in the [i]-th network prefix. *)
Definition openInSubnet (cl : connLimiter) (six : bool) (adm : list Addr) (len : Z) (p : Prefix) : Z :=
  subnetConns (networkPrefixLimit (if six then familyV6 cl else familyV4 cl)) (sameFamily six adm) len p.
Definition openInPrefix (cl : connLimiter) (six : bool) (adm : list Addr) (i : nat) : Z :=
  prefixConns (networkPrefixLimit (if six then familyV6 cl else familyV4 cl)) (sameFamily six adm) i.

(** C5: in every state the limiter reaches from its configuration by admitting,
    refusing and removing connections (fewer than 2^63 operations), the counter
    of a network prefix is the number of open connections whose first matching
    prefix it is, the counter of a subnet under a limit is the number of open
    connections in it outside the network prefixes, and neither is above its
    [ConnCount] (negative limits count as zero). *)
Theorem connLimiter_bounds (cl0 cl : connLimiter) (adm : list Addr) (n : nat) (six : bool) :
  configured cl0 -> nsteps limiter_step n (cl0, []) (cl, adm) -> Z.of_nat n <= MaxInt64 ->
  let f0 := if six then familyV6 cl0 else familyV4 cl0 in
  let f := if six then familyV6 cl else familyV4 cl in
  (forall i l, networkPrefixLimit f0 !! i = Some l ->
     default 0 (connsPerNetworkPrefix f !! i) = openInPrefix cl0 six adm i
     /\ openInPrefix cl0 six adm i <= Z.max 0 (np_ConnCount l))
  /\ (forall i l p, connLimitPerSubnet f0 !! i = Some l ->
     cnt (default ∅ (connsPerLimit f !! i)) p = openInSubnet cl0 six adm (PrefixLength l) p
     /\ openInSubnet cl0 six adm (PrefixLength l) p <= Z.max 0 (cs_ConnCount l)).
Proof.
  intros Hcfg Hn Hlen f0 f. destruct (limiter_reach n _ _ Hn) as ([H4 H6] & Hl & _);
    [done|by apply configured_inv|]. unfold limitsOf in Hl. simpl in *.
  injection Hl as Hl4 Hc4 Hl6 Hc6. unfold openInPrefix, openInSubnet.
  destruct six; subst f0 f; [destruct H6; rewrite Hl6, Hc6 in *|destruct H4; rewrite Hl4, Hc4 in *];
    (split; [intros i l Hi; pose proof (lookup_lt_Some _ _ _ Hi)|]; eauto).
Qed.

(** In every reachable state [addConn] returns (no index is out of range)
    and admits the connection exactly when its network prefix, or each of its
    subnets when no prefix contains it, has room for one more; [rmConn] of an
    open connection returns too. *)
Theorem addConn_admits_iff_room (cl0 cl : connLimiter) (adm : list Addr) (n : nat) (ip : Addr) :
  configured cl0 -> nsteps limiter_step n (cl0, []) (cl, adm) -> Z.of_nat n < MaxInt64 ->
  (exists cl' ok, addConn cl ip = Some (cl', ok)
     /\ (ok = true <-> hasRoom (familyOf cl ip) (sameFamily (Is6 ip) adm) ip))
  /\ (ip ∈ adm -> exists cl', rmConn cl ip = Some cl').
Proof.
  intros Hcfg Hn Hlen. destruct (limiter_reach n _ _ Hn) as (HI & Hl & Hle);
    [simpl; lia|by apply configured_inv|]. simpl in *. split.
  - destruct (addConn_spec cl adm ip HI) as (cl' & ok & ? & _ & ? & _); [lia|]. eauto.
  - intros [adm' Hp]%elem_of_Permutation.
    assert (length adm = S (length adm')) by (by rewrite Hp).
    destruct (rmConn_spec cl adm adm' ip HI Hp) as (cl' & ? & _); [lia|]. eauto.
Qed.

(** ** The order of the network prefixes *)
Definition moreSpecific (a b : NetworkPrefixLimit) : Prop := Bits (Network b) <= Bits (Network a).

Lemma insertPrefixLimit_perm x l : insertPrefixLimit x l ≡ₚ x :: l.
Proof.
  induction l as [|y l IH]; simpl; [done|]. zcase; [done|]. rewrite IH. by rewrite Permutation_swap.
Qed.

Lemma sortNetworkPrefixes_perm l : sortNetworkPrefixes l ≡ₚ l.
Proof. induction l as [|x l IH]; simpl; [done|]. by rewrite insertPrefixLimit_perm, IH. Qed.

Lemma insertPrefixLimit_sorted x l :
  StronglySorted moreSpecific l -> StronglySorted moreSpecific (insertPrefixLimit x l).
Proof.
  induction 1 as [|y l Hl IH Hy]; simpl; [repeat constructor|]. zcase.
  - constructor; [by constructor|]. constructor; [done|].
    eapply Forall_impl; [exact Hy|]. unfold moreSpecific. simpl. lia.
  - constructor; [done|]. rewrite insertPrefixLimit_perm. constructor; [unfold moreSpecific; lia|done].
Qed.

Lemma sortNetworkPrefixes_sorted l : StronglySorted moreSpecific (sortNetworkPrefixes l).
Proof. induction l; simpl; [constructor|by apply insertPrefixLimit_sorted]. Qed.

Lemma firstMatch_sorted i limits ip j l :
  StronglySorted moreSpecific limits -> firstMatch i limits ip = Some (j, l) ->
  forall l', l' ∈ limits -> Contains (Network l') ip = true -> moreSpecific l l'.
Proof.
  intros Hs. revert i. induction Hs as [|y limits Hs IH Hy]; intros i; [done|]. simpl.
  destruct (Contains (Network y) ip) eqn:Hc.
  - intros [= <- <-] l' Hl' _. apply elem_of_cons in Hl' as [->|Hl'];
      [unfold moreSpecific; lia|]. rewrite Forall_forall in Hy. by apply Hy.
  - intros Hm l' Hl' Hc'. apply elem_of_cons in Hl' as [->|Hl']; [congruence|by eapply IH].
Qed.

Lemma firstMatch_none i limits ip :
  firstMatch i limits ip = None <-> forall l, l ∈ limits -> Contains (Network l) ip = false.
Proof.
  revert i. induction limits as [|y limits IH]; intros i; simpl; [set_solver|].
  destruct (Contains (Network y) ip) eqn:Hc.
  - split; [done|]. intros H. rewrite H in Hc by set_solver. done.
  - rewrite IH. set_solver.
Qed.

(** After [addNetworkPrefixLimit] and the sort of the constructor, the limit
    that [addConn] applies to an address is the most specific configured prefix
    that contains it, and there is one exactly when some prefix contains it. *)
Theorem most_specific_prefix_applies (limits : list NetworkPrefixLimit) (ip : Addr) :
  match firstMatch 0 (sortNetworkPrefixes limits) ip with
  | Some (_, l) => l ∈ limits /\ Contains (Network l) ip = true
      /\ (forall l', l' ∈ limits -> Contains (Network l') ip = true ->
            Bits (Network l') <= Bits (Network l))
  | None => forall l, l ∈ limits -> Contains (Network l) ip = false
  end.
Proof.
  destruct (firstMatch _ _ _) as [[j l]|] eqn:Hm.
  - destruct (firstMatch_bound _ _ _ _ _ Hm) as (_ & Hl & Hc). split_and!; [|done|].
    + rewrite <- sortNetworkPrefixes_perm. by eapply list_elem_of_lookup_2.
    + intros l' Hl' Hc'. rewrite <- sortNetworkPrefixes_perm in Hl'.
      eapply firstMatch_sorted; eauto using sortNetworkPrefixes_sorted.
  - intros l Hl. rewrite <- sortNetworkPrefixes_perm in Hl. by eapply firstMatch_none.
Qed.

(** ** A concrete limiter *)
Module LimiterExample.
Definition ip1 : Addr := Addr4 (1 * 2 ^ 24 + 2 * 2 ^ 16 + 3 * 2 ^ 8 + 4).
(** One connection per /32, everything else as in [newConnLimiter]. *)
Definition cl0 : connLimiter :=
  mkConnLimiter (mkFamily DefaultNetworkPrefixLimitV4 [] [mkConnLimitPerSubnet 32 1] [])
    (familyV6 newConnLimiter).
Definition cl1 : connLimiter := default cl0 (fst <$> addConn cl0 ip1).

Lemma cl0_configured : configured cl0.
Proof. by vm_compute. Qed.

Lemma cl1_reached : nsteps limiter_step 1 (cl0, []) (cl1, [ip1]).
Proof.
  eapply nsteps_l; [|apply nsteps_O]. apply step_admit. vm_compute. reflexivity.
Qed.

(** The second connection from the same address is refused. *)
Example cl1_full : snd <$> addConn cl1 ip1 = Some false.
Proof. reflexivity. Qed.

Lemma connLimiter_bounds_witness :
  configured cl0 /\ nsteps limiter_step 1 (cl0, []) (cl1, [ip1])
  /\ cnt (default ∅ (connsPerLimit (familyV4 cl1) !! 0%nat)) (PrefixFrom ip1 32)
     = openInSubnet cl0 false [ip1] 32 (PrefixFrom ip1 32)
  /\ openInSubnet cl0 false [ip1] 32 (PrefixFrom ip1 32) <= 1.
Proof.
  split; [apply cl0_configured|split; [apply cl1_reached|]].
  assert (H1 : Z.of_nat 1 <= MaxInt64) by (vm_compute; discriminate).
  destruct (connLimiter_bounds cl0 cl1 [ip1] 1 false cl0_configured cl1_reached H1) as [_ Hs].
  apply (Hs 0%nat (mkConnLimitPerSubnet 32 1) (PrefixFrom ip1 32)). reflexivity.
Defined.

Lemma addConn_admits_iff_room_witness :
  exists cl' ok, addConn cl1 ip1 = Some (cl', ok)
    /\ (ok = true <-> hasRoom (familyOf cl1 ip1) (sameFamily (Is6 ip1) [ip1]) ip1).
Proof.
  assert (H1 : Z.of_nat 1 < MaxInt64) by (vm_compute; reflexivity).
  exact (proj1 (addConn_admits_iff_room cl0 cl1 [ip1] 1 ip1 cl0_configured cl1_reached H1)).
Defined.
End LimiterExample.

(** A refused connection leaves an entry with count zero behind: the table
    of a limit grows with the prefixes that were refused at a later limit and
    only an admitted connection's removal deletes entries. *)
Theorem refused_leaves_entry :
  exists cl ip cl', configured cl /\ addConn cl ip = Some (cl', false)
    /\ exists m p, connsPerLimit (familyV4 cl') !! 0%nat = Some m /\ m !! p = Some 0.
Proof.
  exists (mkConnLimiter (mkFamily [] [] [mkConnLimitPerSubnet 32 0] []) (familyV6 newConnLimiter)).
  exists LimiterExample.ip1. eexists. split; [by vm_compute|]. split; [reflexivity|].
  eexists _, (PrefixFrom LimiterExample.ip1 32). split; [reflexivity|]. vm_compute. reflexivity.
Qed.
