(* ===== verification/Rcmgr.v ===== *)
(** * The resource manager (p2p/host/resource-manager/rcmgr.go, extapi.go)

    The manager keeps the scopes of the system, of services, protocols and
    peers, hands out connection and stream scopes, and moves their resources
    between scopes when the peer, the protocol or the service becomes known.
    Scope pointers are indices into the heap of Scope.v; [None] in the result of
    an operation is a run-time panic (an index out of range in the connection
    limiter).  The answers of the rate limiter and of the allowlist are
    arguments; metrics, tracing and logging are left out. *)
From Stdlib Require Import ZArith Lia.
From stdpp Require Import base tactics sets list numbers option strings pretty gmap.
From S2P Require Import Prelude Limits Resources Scope ConnLimiter.
Local Open Scope Z_scope.
Import Int64.

(** ** State *)
Record serviceScope := mkServiceScope {
  svc_scope : nat; service : string; svc_peers : gmap string nat }.
Record protocolScope := mkProtocolScope {
  pr_scope : nat; protoID : string; pr_peers : gmap string nat }.
Record peerScope := mkPeerScope { pe_scope : nat; peerID : string }.

Record resourceManager := mkResourceManager {
  limits : Limiter;
  climiter : connLimiter;
  scopes : heap;
  system : nat; transient : nat;
  allowlistedSystem : nat; allowlistedTransient : nat;
  svc : gmap string serviceScope;
  proto : gmap string protocolScope;
  peer : gmap string peerScope;
  stickyProto : gset string;
  stickyPeer : gset string;
  connId : Z; streamId : Z }.

Definition with_scopes (r : resourceManager) (h : heap) : resourceManager :=
  mkResourceManager (limits r) (climiter r) h (system r) (transient r) (allowlistedSystem r)
    (allowlistedTransient r) (svc r) (proto r) (peer r) (stickyProto r) (stickyPeer r)
    (connId r) (streamId r).
Definition with_climiter (r : resourceManager) (c : connLimiter) : resourceManager :=
  mkResourceManager (limits r) c (scopes r) (system r) (transient r) (allowlistedSystem r)
    (allowlistedTransient r) (svc r) (proto r) (peer r) (stickyProto r) (stickyPeer r)
    (connId r) (streamId r).
Definition with_svc (r : resourceManager) (m : gmap string serviceScope) : resourceManager :=
  mkResourceManager (limits r) (climiter r) (scopes r) (system r) (transient r)
    (allowlistedSystem r) (allowlistedTransient r) m (proto r) (peer r) (stickyProto r)
    (stickyPeer r) (connId r) (streamId r).
Definition with_proto (r : resourceManager) (m : gmap string protocolScope) : resourceManager :=
  mkResourceManager (limits r) (climiter r) (scopes r) (system r) (transient r)
    (allowlistedSystem r) (allowlistedTransient r) (svc r) m (peer r) (stickyProto r)
    (stickyPeer r) (connId r) (streamId r).
Definition with_peer (r : resourceManager) (m : gmap string peerScope) : resourceManager :=
  mkResourceManager (limits r) (climiter r) (scopes r) (system r) (transient r)
    (allowlistedSystem r) (allowlistedTransient r) (svc r) (proto r) m (stickyProto r)
    (stickyPeer r) (connId r) (streamId r).
Definition with_sticky (r : resourceManager) (pr pe : gset string) : resourceManager :=
  mkResourceManager (limits r) (climiter r) (scopes r) (system r) (transient r)
    (allowlistedSystem r) (allowlistedTransient r) (svc r) (proto r) (peer r) pr pe
    (connId r) (streamId r).
Definition with_ids (r : resourceManager) (c s : Z) : resourceManager :=
  mkResourceManager (limits r) (climiter r) (scopes r) (system r) (transient r)
    (allowlistedSystem r) (allowlistedTransient r) (svc r) (proto r) (peer r) (stickyProto r)
    (stickyPeer r) c s.

(** The scope objects handed to the users, with their own fields. *)
Record connectionScope {Endpoint : Type} := mkConnectionScope {
  cs_scope : nat;
  cs_dir : Direction; cs_usefd : bool;
  isAllowlisted : bool;
  cs_peer : option peerScope;
  endpoint : Endpoint;
  cs_ip : Addr }.
#[global] Arguments connectionScope : clear implicits.

Record streamScope := mkStreamScope {
  ss_scope : nat;
  ss_dir : Direction;
  ss_peer : peerScope;
  ss_svc : option serviceScope;
  ss_proto : option protocolScope;
  peerProtoScope : option nat;
  peerSvcScope : option nat }.

Inductive rm_error :=
| ErrRateLimitExceeded
| ErrConnsPerIP
| ErrScope (e : rc_error)
| ErrConnHasPeer
| ErrStreamHasProtocol
| ErrStreamHasService
| ErrStreamWithoutProtocol.

(** What the manager asks the allowlist; the second is stronger. *)
Record AllowlistView (Endpoint : Type) := mkAllowlistView {
  Allowed : Endpoint -> bool;
  AllowedPeerAndMultiaddr : string -> Endpoint -> bool }.
#[global] Arguments Allowed {_}.
#[global] Arguments AllowedPeerAndMultiaddr {_}.

(** ** Names of scopes *)
Definition streamScopeName (id : Z) : string := "stream-" +:+ pretty id.
Definition connScopeName (id : Z) : string := "conn-" +:+ pretty id.

(** [peer.ID.String], the base58 text of the id, comes from third-party code. *)
Section rcmgr.
Context {Endpoint : Type} (peerString : string -> string).
Definition peerScopeName (p : string) : string := "peer:" +:+ peerString p.

(** ** Construction *)
Definition newSystemScope (h : heap) (l : Limit) (nm : string) : heap * nat :=
  newResourceScope h l [] nm.
Definition newTransientScope (h : heap) (l : Limit) (nm : string) (sys : nat) : heap * nat :=
  newResourceScope h l [sys] nm.

(** The scopes of [NewResourceManager], after the options were applied to the
    connection limiter. *)
Definition NewResourceManager (l : Limiter) (cl : connLimiter) : resourceManager :=
  let '(h, sys) := newSystemScope [] (GetSystemLimits l) "system" in
  let h := IncRef h sys in
  let '(h, tr) := newTransientScope h (GetTransientLimits l) "transient" sys in
  let h := IncRef h tr in
  let '(h, asys) := newSystemScope h (GetAllowlistedSystemLimits l) "allowlistedSystem" in
  let h := IncRef h asys in
  let '(h, atr) :=
    newTransientScope h (GetAllowlistedTransientLimits l) "allowlistedTransient" asys in
  let h := IncRef h atr in
  mkResourceManager l cl h sys tr asys atr ∅ ∅ ∅ ∅ ∅ 0 0.

Definition newServiceScope (r : resourceManager) (s : string) : heap * serviceScope :=
  let '(h, i) := newResourceScope (scopes r) (GetServiceLimits (limits r) s) [system r]
                   ("service:" +:+ s) in
  (h, mkServiceScope i s ∅).
Definition newProtocolScope (r : resourceManager) (pr : string) : heap * protocolScope :=
  let '(h, i) := newResourceScope (scopes r) (GetProtocolLimits (limits r) pr) [system r]
                   ("protocol:" +:+ pr) in
  (h, mkProtocolScope i pr ∅).
Definition newPeerScope (r : resourceManager) (p : string) : heap * peerScope :=
  let '(h, i) := newResourceScope (scopes r) (GetPeerLimits (limits r) p) [system r]
                   (peerScopeName p) in
  (h, mkPeerScope i p).

(** ** Looking scopes up; each result carries a reference *)
Definition getServiceScope (r : resourceManager) (s : string) : resourceManager * serviceScope :=
  match svc r !! s with
  | Some sc => (with_scopes r (IncRef (scopes r) (svc_scope sc)), sc)
  | None =>
      let '(h, sc) := newServiceScope r s in
      (with_scopes (with_svc r (<[s := sc]> (svc r))) (IncRef h (svc_scope sc)), sc)
  end.

Definition getProtocolScope (r : resourceManager) (pr : string) : resourceManager * protocolScope :=
  match proto r !! pr with
  | Some sc => (with_scopes r (IncRef (scopes r) (pr_scope sc)), sc)
  | None =>
      let '(h, sc) := newProtocolScope r pr in
      (with_scopes (with_proto r (<[pr := sc]> (proto r))) (IncRef h (pr_scope sc)), sc)
  end.

Definition getPeerScope (r : resourceManager) (p : string) : resourceManager * peerScope :=
  match peer r !! p with
  | Some sc => (with_scopes r (IncRef (scopes r) (pe_scope sc)), sc)
  | None =>
      let '(h, sc) := newPeerScope r p in
      (with_scopes (with_peer r (<[p := sc]> (peer r))) (IncRef h (pe_scope sc)), sc)
  end.

(** The [peers] maps belong to the service and protocol objects of the tables;
    [s] and [pr] are the keys under which the objects are registered. *)
Definition serviceGetPeerScope (r : resourceManager) (sc : serviceScope) (p : string)
    : resourceManager * nat :=
  let sc := default sc (svc r !! service sc) in
  match svc_peers sc !! p with
  | Some ps => (with_scopes r (IncRef (scopes r) ps), ps)
  | None =>
      let nm := default "" (name <$> scopes r !! svc_scope sc) in
      let '(h, ps) := newResourceScope (scopes r) (GetServicePeerLimits (limits r) (service sc)) []
                        (nm +:+ ".peer:" +:+ peerString p) in
      let sc := mkServiceScope (svc_scope sc) (service sc) (<[p := ps]> (svc_peers sc)) in
      (with_scopes (with_svc r (<[service sc := sc]> (svc r))) (IncRef h ps), ps)
  end.

Definition protocolGetPeerScope (r : resourceManager) (sc : protocolScope) (p : string)
    : resourceManager * nat :=
  let sc := default sc (proto r !! protoID sc) in
  match pr_peers sc !! p with
  | Some ps => (with_scopes r (IncRef (scopes r) ps), ps)
  | None =>
      let nm := default "" (name <$> scopes r !! pr_scope sc) in
      let '(h, ps) := newResourceScope (scopes r) (GetProtocolPeerLimits (limits r) (protoID sc)) []
                        (nm +:+ ".peer:" +:+ peerString p) in
      let sc := mkProtocolScope (pr_scope sc) (protoID sc) (<[p := ps]> (pr_peers sc)) in
      (with_scopes (with_proto r (<[protoID sc := sc]> (proto r))) (IncRef h ps), ps)
  end.

Definition setStickyProtocol (r : resourceManager) (pr : string) : resourceManager :=
  with_sticky r ({[pr]} ∪ stickyProto r) (stickyPeer r).
Definition setStickyPeer (r : resourceManager) (p : string) : resourceManager :=
  with_sticky r (stickyProto r) ({[p]} ∪ stickyPeer r).

Definition nextConnId (r : resourceManager) : resourceManager * Z :=
  let id := add64 (connId r) 1 in (with_ids r id (streamId r), id).
Definition nextStreamId (r : resourceManager) : resourceManager * Z :=
  let id := add64 (streamId r) 1 in (with_ids r (connId r) id, id).

(** [SetLimit] of extapi.go: replacing the limit of a protocol or of a peer pins
    its scope. *)
Definition SetLimit (h : heap) (s : nat) (l : Limit) : heap :=
  alter (fun sc => set_rc sc
    (mkResources l (nconnsIn (rc sc)) (nconnsOut (rc sc)) (nstreamsIn (rc sc)) (nstreamsOut (rc sc))
       (nfd (rc sc)) (memory (rc sc)))) s h.
Definition protocolSetLimit (r : resourceManager) (sc : protocolScope) (l : Limit) : resourceManager :=
  let r := setStickyProtocol r (protoID sc) in
  with_scopes r (SetLimit (scopes r) (pr_scope sc) l).
Definition peerSetLimit (r : resourceManager) (sc : peerScope) (l : Limit) : resourceManager :=
  let r := setStickyPeer r (peerID sc) in
  with_scopes r (SetLimit (scopes r) (pe_scope sc) l).

(** ** Connections *)
Abbreviation conn := (connectionScope Endpoint).

Definition newConnectionScope (r : resourceManager) (dir : Direction) (usefd : bool) (l : Limit)
    (ep : Endpoint) (ip : Addr) : resourceManager * conn :=
  let '(r, id) := nextConnId r in
  let '(h, i) := newResourceScope (scopes r) l [transient r; system r] (connScopeName id) in
  (with_scopes r h, mkConnectionScope _ i dir usefd false None ep ip).

Definition newAllowListedConnectionScope (r : resourceManager) (dir : Direction) (usefd : bool)
    (l : Limit) (ep : Endpoint) : resourceManager * conn :=
  let '(r, id) := nextConnId r in
  let '(h, i) := newResourceScope (scopes r) l [allowlistedTransient r; allowlistedSystem r]
                   (connScopeName id) in
  (with_scopes r h, mkConnectionScope _ i dir usefd true None ep AddrInvalid).

(** [connectionScope.Done] *)
Definition connDone (r : resourceManager) (c : conn) : option resourceManager :=
  match scopes r !! cs_scope c with
  | None => Some r
  | Some sc =>
      if done sc then Some r
      else
        r ← (if IsValid (cs_ip c)
             then cl ← rmConn (climiter r) (cs_ip c); Some (with_climiter r cl)
             else Some r);
        Some (with_scopes r (Done (scopes r) (cs_scope c)))
  end.

(** The part of [openConnection] after the limiters: the scope is created and
    charged, once more among the allowlisted scopes when that is refused and
    the endpoint is allowlisted. *)
Definition attachConnection (al : AllowlistView Endpoint) (r : resourceManager) (dir : Direction)
    (usefd : bool) (ep : Endpoint) (ip : Addr) : option (resourceManager * (rm_error + conn)) :=
  let '(r, c) := newConnectionScope r dir usefd (GetConnLimits (limits r)) ep ip in
  let '(h, err) := AddConn (scopes r) (cs_scope c) dir usefd in
  let r := with_scopes r h in
  '(r, c, err) ←
    (match err with
     | Some _ =>
         if IsValid ip && Allowed al ep then
           r ← connDone r c;
           let '(r, c) := newAllowListedConnectionScope r dir usefd (GetConnLimits (limits r)) ep in
           let '(h, err) := AddConn (scopes r) (cs_scope c) dir usefd in
           Some (with_scopes r h, c, err)
         else Some (r, c, err)
     | None => Some (r, c, err)
     end);
  match err with
  | Some e => r ← connDone r c; Some (r, inl (ErrScope e))
  | None => Some (r, inr c)
  end.

(** [rateOk] is the answer of the connection rate limiter.  One step here; the code
    takes the locks of the scopes one after the other, and so do the operations on
    connections and streams below. *)
Definition openConnection (al : AllowlistView Endpoint) (rateOk : bool) (r : resourceManager)
    (dir : Direction) (usefd : bool) (ep : Endpoint) (ip : Addr)
    : option (resourceManager * (rm_error + conn)) :=
  if negb rateOk then Some (r, inl ErrRateLimitExceeded)
  else if IsValid ip then
    '(cl, ok) ← ConnLimiter.addConn (climiter r) ip;
    let r := with_climiter r cl in
    if negb ok then Some (r, inl ErrConnsPerIP) else attachConnection al r dir usefd ep ip
  else attachConnection al r dir usefd ep ip.

(** [transferAllowedToStandard]: the connection leaves its edges and is charged
    to the standard system and transient scopes.  On failure it has no edges. *)
Definition transferAllowedToStandard (r : resourceManager) (c : conn)
    : resourceManager * option rc_error :=
  let h := scopes r in
  let i := cs_scope c in
  let st := default zeroStat (Stat h i) in
  let es := default [] (edges <$> h !! i) in
  let h := fold_left (fun h e => DecRef (ReleaseForChild h e st) e) es h in
  let h := alter (fun sc => set_edges sc []) i h in
  match ReserveForChild h (system r) st with
  | (h, Some err) => (with_scopes r h, Some err)
  | (h, None) =>
      let h := IncRef h (system r) in
      match ReserveForChild h (transient r) st with
      | (h, Some err) =>
          (with_scopes r (DecRef (ReleaseForChild h (system r) st) (system r)), Some err)
      | (h, None) =>
          let h := IncRef h (transient r) in
          (with_scopes r (alter (fun sc => set_edges sc [system r; transient r]) i h), None)
      end
  end.

Definition set_cs_peer (c : conn) (p : option peerScope) : conn :=
  mkConnectionScope _ (cs_scope c) (cs_dir c) (cs_usefd c) (isAllowlisted c) p (endpoint c) (cs_ip c).
Definition set_isAllowlisted (c : conn) (b : bool) : conn :=
  mkConnectionScope _ (cs_scope c) (cs_dir c) (cs_usefd c) b (cs_peer c) (endpoint c) (cs_ip c).

(** The part of [connectionScope.SetPeer] after the allowlist: the peer's scope
    is reserved, the transient scope released. *)
Definition attachPeer (r : resourceManager) (c : conn) (sys tr : nat) (p : string)
    : resourceManager * conn * option rm_error :=
  let '(r, pe) := getPeerScope r p in
  let st := default zeroStat (Stat (scopes r) (cs_scope c)) in
  match ReserveForChild (scopes r) (pe_scope pe) st with
  | (h, Some err) => (with_scopes r (DecRef h (pe_scope pe)), set_cs_peer c None, Some (ErrScope err))
  | (h, None) =>
      let h := DecRef (ReleaseForChild h tr st) tr in
      let h := alter (fun sc => set_edges sc [pe_scope pe; sys]) (cs_scope c) h in
      (with_scopes r h, set_cs_peer c (Some pe), None)
  end.

Definition SetPeer (al : AllowlistView Endpoint) (r : resourceManager) (c : conn) (p : string)
    : resourceManager * conn * option rm_error :=
  match cs_peer c with
  | Some _ => (r, c, Some ErrConnHasPeer)
  | None =>
      if isAllowlisted c then
        if negb (AllowedPeerAndMultiaddr al p (endpoint c)) then
          let c := set_isAllowlisted c false in
          match transferAllowedToStandard r c with
          | (r, Some err) => (r, c, Some (ErrScope err))
          | (r, None) => attachPeer r c (system r) (transient r) p
          end
        else attachPeer r c (allowlistedSystem r) (allowlistedTransient r) p
      else attachPeer r c (system r) (transient r) p
  end.

(** ** Streams *)
Definition newStreamScope (r : resourceManager) (dir : Direction) (l : Limit) (pe : peerScope)
    : resourceManager * streamScope :=
  let '(r, id) := nextStreamId r in
  let '(h, i) := newResourceScope (scopes r) l [pe_scope pe; transient r; system r]
                   (streamScopeName id) in
  (with_scopes r h, mkStreamScope i dir pe None None None None).

Definition OpenStream (r : resourceManager) (p : string) (dir : Direction)
    : resourceManager * (rm_error + streamScope) :=
  let '(r, pe) := getPeerScope r p in
  let '(r, s) := newStreamScope r dir (GetStreamLimits (limits r) p) pe in
  let r := with_scopes r (DecRef (scopes r) (pe_scope pe)) in
  match AddStream (scopes r) (ss_scope s) dir with
  | (h, Some err) => (with_scopes r (Done h (ss_scope s)), inl (ErrScope err))
  | (h, None) => (with_scopes r h, inr s)
  end.

Definition set_ss_proto (s : streamScope) (pr : option protocolScope) (ps : option nat) : streamScope :=
  mkStreamScope (ss_scope s) (ss_dir s) (ss_peer s) (ss_svc s) pr ps (peerSvcScope s).
Definition set_ss_svc (s : streamScope) (sv : option serviceScope) (ps : option nat) : streamScope :=
  mkStreamScope (ss_scope s) (ss_dir s) (ss_peer s) sv (ss_proto s) (peerProtoScope s) ps.

Definition SetProtocol (r : resourceManager) (s : streamScope) (pr : string)
    : resourceManager * streamScope * option rm_error :=
  match ss_proto s with
  | Some _ => (r, s, Some ErrStreamHasProtocol)
  | None =>
      let '(r, sc) := getProtocolScope r pr in
      let st := default zeroStat (Stat (scopes r) (ss_scope s)) in
      match ReserveForChild (scopes r) (pr_scope sc) st with
      | (h, Some err) =>
          (with_scopes r (DecRef h (pr_scope sc)), set_ss_proto s None (peerProtoScope s),
           Some (ErrScope err))
      | (h, None) =>
          let '(r, ps) := protocolGetPeerScope (with_scopes r h) sc (peerID (ss_peer s)) in
          match ReserveForChild (scopes r) ps st with
          | (h, Some err) =>
              let h := DecRef (ReleaseForChild h (pr_scope sc) st) (pr_scope sc) in
              (with_scopes r (DecRef h ps), set_ss_proto s None None, Some (ErrScope err))
          | (h, None) =>
              let h := DecRef (ReleaseForChild h (transient r) st) (transient r) in
              let es := [pe_scope (ss_peer s); ps; pr_scope sc; system r] in
              (with_scopes r (alter (fun sc => set_edges sc es) (ss_scope s) h),
               set_ss_proto s (Some sc) (Some ps), None)
          end
      end
  end.

Definition SetService (r : resourceManager) (s : streamScope) (sv : string)
    : resourceManager * streamScope * option rm_error :=
  match ss_svc s, ss_proto s with
  | Some _, _ => (r, s, Some ErrStreamHasService)
  | None, None => (r, s, Some ErrStreamWithoutProtocol)
  | None, Some prs =>
      let '(r, sc) := getServiceScope r sv in
      let st := default zeroStat (Stat (scopes r) (ss_scope s)) in
      match ReserveForChild (scopes r) (svc_scope sc) st with
      | (h, Some err) =>
          (with_scopes r (DecRef h (svc_scope sc)), set_ss_svc s None (peerSvcScope s),
           Some (ErrScope err))
      | (h, None) =>
          let '(r, ps) := serviceGetPeerScope (with_scopes r h) sc (peerID (ss_peer s)) in
          match ReserveForChild (scopes r) ps st with
          | (h, Some err) =>
              let h := DecRef (ReleaseForChild h (svc_scope sc) st) (svc_scope sc) in
              (with_scopes r (DecRef h ps), set_ss_svc s None None, Some (ErrScope err))
          | (h, None) =>
              let es := [pe_scope (ss_peer s); default 0%nat (peerProtoScope s); ps; pr_scope prs;
                         svc_scope sc; system r] in
              (with_scopes r (alter (fun sc => set_edges sc es) (ss_scope s) h),
               set_ss_svc s (Some sc) (Some ps), None)
          end
      end
  end.

(** ** Garbage collection

    Go iterates over maps in an unspecified order: the orders are arguments. *)
Definition gcProto (r : resourceManager) (pr : string) : resourceManager :=
  match proto r !! pr with
  | None => r
  | Some sc =>
      if decide (pr ∈ stickyProto r) then r
      else if default false (IsUnused <$> scopes r !! pr_scope sc)
      then with_scopes (with_proto r (delete pr (proto r))) (Done (scopes r) (pr_scope sc))
      else r
  end.

Definition gcPeer (acc : resourceManager * list string) (p : string)
    : resourceManager * list string :=
  let '(r, dead) := acc in
  match peer r !! p with
  | None => (r, dead)
  | Some sc =>
      if decide (p ∈ stickyPeer r) then (r, dead)
      else if default false (IsUnused <$> scopes r !! pe_scope sc)
      then (with_scopes (with_peer r (delete p (peer r))) (Done (scopes r) (pe_scope sc)),
            dead ++ [p])
      else (r, dead)
  end.

(** The scopes of dead peers in one [peers] map. *)
Definition dropPeers (dead : list string) (h : heap) (peers : gmap string nat)
    : heap * gmap string nat :=
  fold_left (fun '(h, peers) p =>
    match peers !! p with
    | Some ps => (Done h ps, delete p peers)
    | None => (h, peers)
    end) dead (h, peers).

Definition gcService (dead : list string) (r : resourceManager) (s : string) : resourceManager :=
  match svc r !! s with
  | None => r
  | Some sc =>
      let '(h, peers) := dropPeers dead (scopes r) (svc_peers sc) in
      with_scopes (with_svc r (<[s := mkServiceScope (svc_scope sc) (service sc) peers]> (svc r))) h
  end.

Definition gcProtoPeers (dead : list string) (r : resourceManager) (pr : string) : resourceManager :=
  match proto r !! pr with
  | None => r
  | Some sc =>
      let '(h, peers) := dropPeers dead (scopes r) (pr_peers sc) in
      with_scopes (with_proto r (<[pr := mkProtocolScope (pr_scope sc) (protoID sc) peers]> (proto r))) h
  end.

Definition gc (protoOrder peerOrder svcOrder protoOrder' : list string) (r : resourceManager)
    : resourceManager :=
  let r := fold_left gcProto protoOrder r in
  let '(r, dead) := fold_left gcPeer peerOrder (r, []) in
  let r := fold_left (gcService dead) svcOrder r in
  fold_left (gcProtoPeers dead) protoOrder' r.
End rcmgr.
