(* ===== verification/Retarget.v ===== *)
(** * Moving a scope to other parents

    [SetPeer], [SetProtocol] and [SetService] of rcmgr.go reserve what a scope
    holds in new parents, release it in old ones and replace the scope's edges.
    The lemmas here show that this keeps the accounting of Ledger.v, and follow
    the reference counts through the same operations. *)
From Stdlib Require Import ZArith Lia.
From stdpp Require Import base tactics sets list numbers option strings pretty gmap.
From S2P Require Import Prelude Limits Resources Scope Ledger.
Local Open Scope Z_scope.
Import Int64.

(** An open DAG scope with its edges. *)
Definition dag (h : heap) (t : nat) (es : list nat) : Prop :=
  exists tsc, h !! t = Some tsc /\ done tsc = false /\ owner tsc = None /\ edges tsc = es.

Lemma dag_fun h t es es' : dag h t es -> dag h t es' -> es = es'.
Proof. intros (? & ? & _ & _ & <-) (? & ? & _ & _ & <-). simplify_eq. done. Qed.

Lemma dag_live h t es : dag h t es -> live h t = true.
Proof. intros (sc & Hl & Hd & _). unfold live. by rewrite Hl, Hd. Qed.

Lemma dag_shape h h' t es : shape h = shape h' -> dag h t es -> dag h' t es.
Proof.
  intros Hs (sc & Hl & Hd & Ho & He).
  destruct (shape_lookup _ _ _ _ Hs Hl) as (sc' & ? & ? & ? & ?).
  exists sc'. split_and!; congruence.
Qed.

Lemma dag_shape_iff h h' t es : shape h = shape h' -> dag h t es <-> dag h' t es.
Proof. intros. split; by apply dag_shape. Qed.

Definition to_edges (es : list nat) (sc : resourceScope) : resourceScope := set_edges sc es.

Lemma dag_retarget h s es0 es' t es :
  dag h s es0 ->
  dag (alter (to_edges es') s h) t es <-> (t = s /\ es = es') \/ (t <> s /\ dag h t es).
Proof.
  intros (sc & Hl & Hd & Ho & _). unfold dag. destruct (decide (t = s)) as [->|Hne].
  - rewrite list_lookup_alter_eq, Hl. simpl. naive_solver.
  - rewrite list_lookup_alter_ne by done. naive_solver.
Qed.

(** ** Charges *)
Section retarget.
Context (h : heap) (s : nat) (sc : resourceScope) (es' : list nat).
Context (Hwf : shape_wf h) (Hl : h !! s = Some sc) (Hd : done sc = false) (Ho : owner sc = None).
Context (Hnc : no_dag_child h s).
Context (Hes : forall e, e ∈ edges sc -> exists x, dag h e x).
Context (Hes' : forall e, e ∈ es' -> exists x, dag h e x).
Context (Hnd' : NoDup es') (Hs' : s ∉ es').
Let h' := alter (to_edges es') s h.

Local Lemma lookup_ne t : t <> s -> h' !! t = h !! t.
Proof. intros. unfold h'. by rewrite list_lookup_alter_ne. Qed.

Local Lemma lookup_eq : h' !! s = Some (to_edges es' sc).
Proof. unfold h'. by rewrite list_lookup_alter_eq, Hl. Qed.

Local Lemma live_eq t : live h' t = live h t.
Proof.
  unfold live. destruct (decide (t = s)) as [->|]; [|by rewrite lookup_ne].
  by rewrite lookup_eq, Hl.
Qed.

Lemma retarget_shape_wf : shape_wf h'.
Proof.
  intros t tsc Ht.
  assert (Hown : forall e esc, h !! e = Some esc -> exists esc', h' !! e = Some esc' /\ owner esc' = owner esc).
  { intros e esc He. destruct (decide (e = s)) as [->|]; [|rewrite lookup_ne by done; eauto].
    rewrite lookup_eq. simplify_eq. eauto. }
  destruct (decide (t = s)) as [->|].
  - rewrite lookup_eq in Ht. injection Ht as <-. unfold scope_shape_wf. simpl. rewrite Ho.
    split_and!; [done|done|]. intros e (x & esc & He & _ & Heo & _)%Hes'.
    destruct (Hown e esc He) as (esc' & ? & ?). eauto with congruence.
  - rewrite lookup_ne in Ht by done. specialize (Hwf _ _ Ht). unfold scope_shape_wf in *.
    destruct (owner tsc); [done|]. destruct Hwf as (? & ? & He). split_and!; try done.
    intros e Hin. destruct (He e Hin) as (esc & Hesc & Heo).
    destruct (Hown e esc Hesc) as (esc' & ? & ?). eauto with congruence.
Qed.

(** A charge that passes [s] continues with the new edges, every other one stays. *)
Lemma charge_retarget t :
  ((s ∉ charge h t) /\ charge h' t = charge h t) \/
  (exists pre, charge h t = pre ++ s :: edges sc /\ charge h' t = pre ++ s :: es'
     /\ forall x, x ∈ pre -> exists xsc o, h !! x = Some xsc /\ owner xsc = Some o).
Proof.
  pose proof retarget_shape_wf as Hwf'.
  induction t as [t IH] using lt_wf_ind. destruct (decide (t = s)) as [->|Hne].
  { right. exists [].
    rewrite (charge_unfold h s sc), (charge_unfold h' s (to_edges es' sc)) by (done || apply lookup_eq).
    simpl. rewrite Hd, Ho. split_and!; [| |set_solver].
    - f_equal. apply filter_all. intros e (x & Hx)%Hes. by rewrite (dag_live _ _ _ Hx).
    - f_equal. apply filter_all. intros e (x & Hx)%Hes'. by rewrite live_eq, (dag_live _ _ _ Hx). }
  destruct (h !! t) as [tsc|] eqn:Ht.
  2: { left. rewrite !charge_None by (rewrite ?lookup_ne; done). split; [set_solver|done]. }
  rewrite (charge_unfold h t tsc), (charge_unfold h' t tsc) by (rewrite ?lookup_ne; done).
  destruct (done tsc) eqn:Htd; [left; split; [set_solver|done]|].
  pose proof (Hwf _ _ Ht) as Hts. unfold scope_shape_wf in Hts.
  destruct (owner tsc) as [o|] eqn:Hto.
  - destruct (IH o ltac:(lia)) as [[Hnin ->]|(pre & -> & -> & Hpre)].
    + left. split; [set_solver|done].
    + right. exists (t :: pre). split_and!; [done|done|].
      intros x [->|Hx]%elem_of_cons; [eauto|by apply Hpre].
  - left. assert (s ∉ edges tsc) by (by eapply Hnc). split.
    + intros [?|Hin]%elem_of_cons; [done|]. apply list_elem_of_filter in Hin as [_ Hin]. done.
    + f_equal. apply filter_ext_in. intros e He. by rewrite live_eq.
Qed.

Lemma charged_retarget own u f :
  charged h' own u f
  = charged h own u f
    + (if decide (u ∈ es') then charged h own s f else 0)
    - (if decide (u ∈ edges sc) then charged h own s f else 0).
Proof.
  set (c := fun t => if decide (s ∈ charge h t) then own t f else 0).
  transitivity (sumZ (fun t => (if decide (u ∈ charge h t) then own t f else 0)
      + (if decide (u ∈ es') then c t else 0) - (if decide (u ∈ edges sc) then c t else 0))
    (seq 0 (length h))).
  - unfold charged, h'. rewrite length_alter. apply sumZ_ext. intros t _. fold h'. unfold c.
    destruct (charge_retarget t) as [[Hn ->]|(pre & Hc & -> & Hpre)].
    + rewrite (decide_False (P := s ∈ charge h t)) by done. do 3 case_decide; lia.
    + pose proof (charge_NoDup h t Hwf) as Hnd. rewrite Hc in Hnd |- *.
      rewrite (decide_True (P := s ∈ pre ++ s :: edges sc)) by set_solver.
      apply NoDup_app in Hnd as (_ & Hdis & [Hse _]%NoDup_cons).
      assert (Hpe : forall x, x ∈ pre -> x ∉ es').
      { intros x (xsc & o & Hx & Hxo)%Hpre (y & ysc & Hy & _ & Hyo & _)%Hes'. congruence. }
      assert (Hpe0 : forall x, x ∈ pre -> x ∉ edges sc) by set_solver.
      specialize (Hpe u). specialize (Hpe0 u).
      assert (HA : u ∈ pre ++ s :: es' <-> u ∈ pre \/ u = s \/ u ∈ es')
        by (rewrite elem_of_app, elem_of_cons; done).
      assert (HB : u ∈ pre ++ s :: edges sc <-> u ∈ pre \/ u = s \/ u ∈ edges sc)
        by (rewrite elem_of_app, elem_of_cons; done).
      assert (HC : u = s -> u ∉ es' /\ u ∉ edges sc) by (intros ->; done).
      destruct (decide (u ∈ pre ++ s :: es')), (decide (u ∈ pre ++ s :: edges sc)),
        (decide (u ∈ es')), (decide (u ∈ edges sc)); first [lia | exfalso; tauto].
  - rewrite sumZ_sub, sumZ_add. fold (charged h own u f). unfold charged at 3 4. fold c.
    f_equal; [f_equal|]; case_decide; try done; by apply sumZ_zero.
Qed.
End retarget.

(** ** The accounting *)
Definition resf (st : ScopeStat) (r : resources) : resources := fst (reserveStat r st).
Definition relf (st : ScopeStat) (r : resources) : resources := releaseStat r st.

(** The counters after reserving in [A] and releasing in [R]. *)
Definition moveStat (st : ScopeStat) (A R : list nat) (h : heap) : heap :=
  apply_rc (relf st) R (apply_rc (resf st) A h).

Lemma moveStat_shape st A R h : shape (moveStat st A R h) = shape h.
Proof. unfold moveStat. by rewrite !shape_apply_rc. Qed.

Lemma moveStat_lookup st A R h u :
  NoDup A -> NoDup R -> (forall x, x ∈ A -> x ∉ R) ->
  moveStat st A R h !! u =
    (fun sc => set_rc sc (if decide (u ∈ A) then resf st (rc sc)
                          else if decide (u ∈ R) then relf st (rc sc) else rc sc)) <$> h !! u.
Proof.
  intros HA HR Hdis. unfold moveStat. rewrite !apply_rc_lookup by done.
  destruct (decide (u ∈ A)), (decide (u ∈ R)); try (by destruct (h !! u)); [set_solver|].
  destruct (h !! u) as [sc|]; simpl; [by destruct sc|done].
Qed.

Lemma shape_to_edges es' s h h' :
  shape h = shape h' -> shape (alter (to_edges es') s h) = shape (alter (to_edges es') s h').
Proof.
  intros Hs. apply list_eq. intros i. apply (f_equal (fun l => l !! i)) in Hs. unfold shape in *.
  rewrite !list_lookup_fmap in *. destruct (decide (i = s)) as [->|].
  - rewrite !list_lookup_alter_eq. destruct (h !! s), (h' !! s); simpl in *; congruence.
  - by rewrite !list_lookup_alter_ne.
Qed.

(** What a scope needs to take the resources [st]. *)
Definition takes (h : heap) (st : ScopeStat) (u : nat) : Prop :=
  exists usc, h !! u = Some usc /\ snd (reserveStat (rc usc) st) = None
              /\ fits (rc usc) (fun f => statGet f st).

Lemma resf_get h own u usc st f :
  Inv h own -> takes h st u -> (forall f, 0 <= statGet f st) -> h !! u = Some usc ->
  get f (resf st (rc usc)) = get f (rc usc) + statGet f st.
Proof.
  intros (Hwf & _ & _) (x & Hx & Hok & [Hfit _]) Hst Hu. assert (x = usc) as -> by congruence.
  pose proof (reserveStat_cases (rc usc) st (proj2 Hwf _ _ Hu)) as Hc. unfold resf.
  destruct (reserveStat (rc usc) st) as [r e]. simpl in *. subst e. destruct Hc as [_ ->].
  specialize (Hfit f). specialize (Hst f). pose proof (proj2 Hwf _ _ Hu f).
  apply add64_small. int64_lia.
Qed.

Lemma resf_ok h own u st :
  Inv h own -> takes h st u -> (forall f, 0 <= statGet f st) ->
  forall usc, h !! u = Some usc ->
  rc_wf (resf st (rc usc)) /\ limit (resf st (rc usc)) = limit (rc usc)
  /\ within_limits (resf st (rc usc)).
Proof.
  intros HI Ht Hst usc Hu. pose proof HI as (Hwf & _ & Hlim).
  pose proof Ht as (usc' & Hu' & Hok & Hfit). assert (usc' = usc) as -> by congruence.
  pose proof (reserveStat_cases (rc usc) st (proj2 Hwf _ _ Hu)) as Hc.
  destruct (Hlim _ _ Hu) as [Hlw Hin]. split_and!.
  - intros f. rewrite (resf_get h own u usc st f) by done.
    destruct Hfit as [Hfit _]. specialize (Hfit f). specialize (Hst f).
    pose proof (proj2 Hwf _ _ Hu f). lia.
  - unfold resf. destruct (reserveStat (rc usc) st) as [r e]. simpl in *. subst e. apply Hc.
  - unfold resf. destruct (reserveStat (rc usc) st) as [r e] eqn:He. simpl in *. subst e.
    eapply reserveStat_within; eauto. by eapply (proj2 Hwf).
Qed.

Section move.
Context (h : heap) (own : ledger) (s : nat) (sc : resourceScope) (es' A R : list nat).
Context (HI : Inv h own).
Context (Hl : h !! s = Some sc) (Hd : done sc = false) (Ho : owner sc = None).
Context (Hnc : no_dag_child h s).
Context (Hes : forall e, e ∈ edges sc -> exists x, dag h e x).
Context (Hes' : forall e, e ∈ es' -> exists x, dag h e x).
Context (Hnd' : NoDup es') (Hs' : s ∉ es').
Context (HA : NoDup A) (HR : NoDup R).
Context (HAe : forall u, u ∈ A -> u ∉ edges sc) (HRe : forall u, u ∈ R -> u ∈ edges sc).
Context (Heq : forall u, u ∈ es' <-> (u ∈ edges sc /\ u ∉ R) \/ u ∈ A).
Context (Htakes : forall u, u ∈ A -> takes h (stat (rc sc)) u).
Let st := stat (rc sc).
Let h1 := moveStat st A R h.
Let h2 := alter (to_edges es') s h1.

Local Lemma st_nonneg f : 0 <= statGet f st.
Proof. apply stat_nonneg. eapply (proj2 (proj1 HI)), Hl. Qed.

Local Lemma look u :
  u <> s -> h2 !! u =
    (fun sc => set_rc sc (if decide (u ∈ A) then resf st (rc sc)
                          else if decide (u ∈ R) then relf st (rc sc) else rc sc)) <$> h !! u.
Proof.
  intros. unfold h2. rewrite list_lookup_alter_ne by done. apply moveStat_lookup; [done..|].
  intros x Hx. intros Hr%HRe. by eapply HAe.
Qed.

Local Lemma look_s : h2 !! s = Some (to_edges es' sc).
Proof.
  unfold h2. rewrite list_lookup_alter_eq. unfold h1.
  rewrite moveStat_lookup by (done || (intros x Hx Hr%HRe; by eapply HAe)). rewrite Hl. simpl.
  assert (Hse : s ∉ edges sc).
  { pose proof (proj1 (proj1 HI) _ _ Hl) as Hw. unfold scope_shape_wf in Hw. rewrite Ho in Hw. apply Hw. }
  rewrite decide_False by (intros Hin; apply Hs', Heq; by right).
  rewrite decide_False by (intros Hin%HRe; done). done.
Qed.

Local Lemma charged_h2 u f :
  charged h2 own u f
  = charged h own u f
    + (if decide (u ∈ es') then charged h own s f else 0)
    - (if decide (u ∈ edges sc) then charged h own s f else 0).
Proof.
  rewrite <- (charged_retarget h s sc es' (proj1 (proj1 HI)) Hl Hd Ho Hnc Hes Hes' Hnd' Hs').
  apply charged_shape, shape_to_edges, moveStat_shape.
Qed.

(** A scope that the resources are released in holds them. *)
Local Lemma released_holds u usc f :
  u ∈ R -> h !! u = Some usc -> statGet f st <= get f (rc usc).
Proof.
  intros Hu Hul. destruct HI as (_ & [Hnn Hacc] & _).
  pose proof (charged_nonneg h2 own u f Hnn) as Hp. rewrite charged_h2 in Hp.
  rewrite (decide_True (P := u ∈ edges sc)) in Hp by (by apply HRe).
  rewrite decide_False in Hp.
  2: { intros [[_ ?]|HuA]%Heq; [done|]. by apply (HAe u HuA), HRe. }
  destruct (Hes u (HRe u Hu)) as (x & usc' & Hu' & Hud & _).
  assert (usc' = usc) as -> by congruence.
  unfold st. rewrite statGet_stat, (Hacc _ _ Hl f), (Hacc _ _ Hul f), Hd, Hud. lia.
Qed.

Local Lemma st_le f : statGet f st <= MaxInt64.
Proof. apply stat_nonneg. eapply (proj2 (proj1 HI)), Hl. Qed.

Local Lemma moved_ok u usc :
  h2 !! u = Some usc -> rc_wf (rc usc) /\ limit_wf (limit (rc usc)) /\ within_limits (rc usc).
Proof.
  pose proof HI as (Hwf & _ & Hlim). destruct (decide (u = s)) as [->|Hne].
  { rewrite look_s. intros [= <-]. simpl. split_and!; [by eapply (proj2 Hwf)|by eapply Hlim..]. }
  rewrite look by done. intros (usc0 & Hu & ->)%fmap_Some. simpl.
  destruct (Hlim _ _ Hu) as [Hlw Hin]. pose proof (proj2 Hwf _ _ Hu) as Hrc.
  destruct (decide (u ∈ A)) as [HuA|]; [|destruct (decide (u ∈ R)) as [HuR|]; [|done]].
  - destruct (resf_ok h own u st HI (Htakes u HuA) st_nonneg usc0 Hu) as (? & Hle & ?).
    by rewrite Hle.
  - split_and!; [apply (releases_wf _ _ _ (stat_releases st)), Hrc|done|].
    apply (within_limits_decrease (rc usc0)); [done| |done]. intros f.
    apply (releases_le _ _ _ _ (stat_releases st)); [done|]. split; [apply st_nonneg|apply st_le].
Qed.

Lemma Inv_retarget : Inv h2 own.
Proof.
  pose proof HI as (Hwf & [Hnn Hacc] & Hlim). split_and!; [split|split|].
  - eapply shape_wf_shape; [symmetry; apply shape_to_edges, moveStat_shape|].
    apply (retarget_shape_wf h s sc); try done. apply Hwf.
  - intros u usc Hu. by apply (moved_ok u).
  - done.
  - intros u usc Hu f. rewrite charged_h2. destruct (decide (u = s)) as [->|Hne].
    { rewrite look_s in Hu. injection Hu as <-. simpl. rewrite Hd, (Hacc _ _ Hl f), Hd.
      rewrite decide_False by done.
      rewrite decide_False; [lia|]. pose proof (proj1 Hwf _ _ Hl) as Hw.
      unfold scope_shape_wf in Hw. rewrite Ho in Hw. apply Hw. }
    rewrite look in Hu by done. apply fmap_Some in Hu as (usc0 & Hu & ->). simpl.
    pose proof (Hacc _ _ Hu f) as Hg. pose proof (Hacc _ _ Hl f) as Hgs. rewrite Hd in Hgs.
    destruct (done usc0) eqn:Hud.
    { rewrite !decide_False; [done| |].
      - intros HuR. destruct (Hes u (HRe u HuR)) as (x & y & ? & ? & _). congruence.
      - intros HuA. destruct (Hes' u) as (x & y & ? & ? & _); [by apply Heq; right|congruence]. }
    destruct (decide (u ∈ A)) as [HuA|HuA].
    + rewrite (resf_get h own u usc0 st f HI (Htakes u HuA) st_nonneg Hu). rewrite decide_True by (apply Heq; by right). rewrite decide_False by (by apply HAe).
      unfold st. rewrite statGet_stat. lia.
    + destruct (decide (u ∈ R)) as [HuR|HuR].
      * unfold relf. rewrite (releases_exact _ _ _ _ (stat_releases st));
          [|by eapply (proj2 Hwf)|split; [apply st_nonneg|by apply (released_holds u)]].
        rewrite decide_False by (rewrite Heq; tauto). rewrite decide_True by (by apply HRe).
        unfold st. rewrite statGet_stat. lia.
      * destruct (decide (u ∈ es')) as [Hue|Hue], (decide (u ∈ edges sc)) as [Hus|Hus];
          rewrite Heq in Hue; first [lia|tauto].
  - intros u usc Hu. by destruct (moved_ok u usc Hu) as (_ & ? & ?).
Qed.
End move.
