(* ===== verification/RefCount.v ===== *)
(** * Reference counts of scopes

    [refCnt] of scope.go counts the open spans of a scope and the open scopes
    that have it on their edges, besides the references the manager holds
    itself.  The lemmas follow the count through the operations; [P] is what the
    holders outside the heap own. *)
From Stdlib Require Import ZArith Lia.
From stdpp Require Import base tactics sets list numbers option strings pretty gmap.
From S2P Require Import Prelude Limits Resources Scope Ledger Retarget.
Local Open Scope Z_scope.
Import Int64.

(** 1 when the scope [tsc] is open and holds a reference to [s]. *)
Definition refOf (s : nat) (tsc : resourceScope) : Z :=
  if done tsc then 0
  else match owner tsc with
       | Some o => if decide (o = s) then 1 else 0
       | None => if decide (s ∈ edges tsc) then 1 else 0
       end.
Definition refs (h : heap) (s : nat) : Z := sumZ (refOf s) h.

Definition refs_ok (h : heap) (P : nat -> Z) : Prop :=
  forall s sc, h !! s = Some sc -> refCnt sc = wrap64 (refs h s + P s).

Definition one (b : bool) : Z := if b then 1 else 0.
Definition bump (P : nat -> Z) (s : nat) (n : Z) : nat -> Z :=
  fun t => P t + if decide (t = s) then n else 0.

Lemma refOf_bounds s tsc : 0 <= refOf s tsc <= 1.
Proof. unfold refOf. destruct (done tsc), (owner tsc); try case_decide; lia. Qed.

Lemma refs_bounds h s : 0 <= refs h s <= Z.of_nat (length h).
Proof.
  unfold refs. induction h as [|x h IH]; simpl; [lia|]. pose proof (refOf_bounds s x). lia.
Qed.

Lemma refs_ok_ext h P Q : (forall s, P s = Q s) -> refs_ok h P -> refs_ok h Q.
Proof. intros HPQ HP s sc Hs. rewrite <- HPQ. by apply HP. Qed.

Lemma sumZ_alter (g : resourceScope -> Z) f (h : heap) i x :
  h !! i = Some x -> sumZ g (alter f i h) = sumZ g h + (g (f x) - g x).
Proof.
  revert i. induction h as [|y h IH]; intros [|i] Hi; simplify_eq/=; [lia|].
  change (foldr (fun x acc => g x + acc) 0 (alter f i h)) with (sumZ g (alter f i h)).
  rewrite (IH i Hi). unfold sumZ. lia.
Qed.

Lemma refs_shape h h' s : shape h = shape h' -> refs h s = refs h' s.
Proof.
  revert h'. induction h as [|x h IH]; intros [|y h'] Hs; try done.
  unfold shape in Hs. simpl in Hs. injection Hs as Hd Ho He Hs.
  unfold refs. rewrite !sumZ_cons. f_equal; [|by apply IH].
  unfold refOf. by rewrite Hd, Ho, He.
Qed.

(** Updates of counters, limits and names. *)
Lemma refs_ok_same h h' P :
  shape h = shape h' -> refCnt <$> h = refCnt <$> h' -> refs_ok h P -> refs_ok h' P.
Proof.
  intros Hs Hr HP s sc Hl. rewrite <- (refs_shape h) by done.
  apply (f_equal (fun l => l !! s)) in Hr. rewrite !list_lookup_fmap, Hl in Hr.
  destruct (h !! s) as [x|] eqn:Hx; [|done]. simpl in Hr. injection Hr as <-. by apply HP.
Qed.

Lemma refCnt_alter f (h : heap) s :
  (forall sc, refCnt (f sc) = refCnt sc) -> refCnt <$> alter f s h = refCnt <$> h.
Proof.
  intros Hf. apply list_eq. intros i. rewrite !list_lookup_fmap.
  destruct (decide (i = s)) as [->|]; [|by rewrite list_lookup_alter_ne].
  rewrite list_lookup_alter_eq. destruct (h !! s); simpl; [by rewrite Hf|done].
Qed.

Lemma refCnt_apply_rc f l h : refCnt <$> apply_rc f l h = refCnt <$> h.
Proof.
  revert h. induction l as [|t l IH]; intros h; [done|].
  rewrite apply_rc_cons, IH. by apply refCnt_alter.
Qed.

Lemma refs_ok_apply_rc f l h P : refs_ok h P -> refs_ok (apply_rc f l h) P.
Proof. apply refs_ok_same; [by rewrite shape_apply_rc|by rewrite refCnt_apply_rc]. Qed.

Lemma refs_ok_set_rc f s h P :
  refs_ok h P -> refs_ok (alter (fun sc => set_rc sc (f (rc sc))) s h) P.
Proof. apply refs_ok_same; [by rewrite shape_update|by rewrite refCnt_alter]. Qed.

Lemma refs_ok_removeForChild rm h s P : refs_ok h P -> refs_ok (removeForChild rm h s) P.
Proof. rewrite removeForChild_live. destruct (live h s); [apply refs_ok_set_rc|done]. Qed.

(** Taking and dropping references. *)
Lemma refs_ok_bump g h s n P :
  (forall sc, refCnt (g sc) = wrap64 (refCnt sc + n)) ->
  (forall sc, (done (g sc), owner (g sc), edges (g sc)) = (done sc, owner sc, edges sc)) ->
  refs_ok h P -> refs_ok (alter g s h) (bump P s n).
Proof.
  intros Hn Hg HP t tsc Ht. rewrite (refs_shape _ h) by (by apply shape_alter). unfold bump.
  destruct (decide (t = s)) as [->|Hne].
  - rewrite list_lookup_alter_eq in Ht. apply fmap_Some in Ht as (sc & Hl & ->).
    rewrite Hn, (HP _ _ Hl), wrap64_wrap_add. f_equal. lia.
  - rewrite list_lookup_alter_ne in Ht by done. rewrite (HP _ _ Ht). f_equal. lia.
Qed.

Lemma refs_ok_IncRef h s P : refs_ok h P -> refs_ok (IncRef h s) (bump P s 1).
Proof. by apply refs_ok_bump. Qed.

Lemma refs_ok_DecRef h s P : refs_ok h P -> refs_ok (DecRef h s) (bump P s (-1)).
Proof. by apply refs_ok_bump. Qed.

Lemma refs_ok_fold_IncRef es h P :
  NoDup es -> refs_ok h P ->
  refs_ok (fold_left IncRef es h) (fun t => P t + if decide (t ∈ es) then 1 else 0).
Proof.
  intros Hnd. revert h P. induction Hnd as [|e es He Hnd IH]; intros h P HP; simpl.
  { eapply refs_ok_ext; [|done]. intros t. cbv beta. destruct (decide (t ∈ [])); [set_solver|lia]. }
  eapply refs_ok_ext; [|apply IH, refs_ok_IncRef, HP]. intros t. unfold bump. simpl.
  destruct (decide (t = e)) as [->|].
  - rewrite decide_False by done. rewrite decide_True by set_solver. lia.
  - destruct (decide (t ∈ es)); [rewrite decide_True by set_solver|rewrite decide_False by set_solver];
      lia.
Qed.

(** Nothing refers to a scope that does not exist yet. *)
Lemma refs_fresh h s : shape_wf h -> (length h <= s)%nat -> refs h s = 0.
Proof.
  intros Hwf Hs. apply sumZ_zero. intros tsc [t Ht]%list_elem_of_lookup.
  pose proof (Hwf _ _ Ht) as Hw. unfold scope_shape_wf in Hw. unfold refOf.
  pose proof (lookup_lt_Some _ _ _ Ht). destruct (done tsc); [done|].
  destruct (owner tsc) as [o|]; rewrite decide_False; try done; [lia|].
  intros Hin. destruct (proj2 (proj2 Hw) s Hin) as (esc & He%lookup_lt_Some & _). lia.
Qed.

Lemma refs_snoc h x s : refs (h ++ [x]) s = refs h s + refOf s x.
Proof. unfold refs. rewrite sumZ_app. simpl. lia. Qed.

Lemma refs_ok_snoc h x P :
  shape_wf h -> refs_ok h (fun t => P t + refOf t x) -> refCnt x = 0 -> P (length h) = 0 ->
  refOf (length h) x = 0 -> refs_ok (h ++ [x]) P.
Proof.
  intros Hwf HP Hx Hp Hr s sc [[? Hs]|[-> <-]]%lookup_snoc_Some; rewrite refs_snoc.
  - rewrite (HP _ _ Hs). f_equal. lia.
  - rewrite refs_fresh, Hr, Hp, Hx by (done || lia). done.
Qed.

Lemma refs_ok_new h l es nm h' s P :
  shape_wf h -> NoDup es -> (forall e, e ∈ es -> (e < length h)%nat) -> P (length h) = 0 ->
  newResourceScope h l es nm = (h', s) -> refs_ok h P -> refs_ok h' P.
Proof.
  intros Hwf Hnd He Hp. unfold newResourceScope. intros [= <- <-] HP.
  assert (Hsh : shape (fold_left IncRef es h) = shape h) by (apply core_eq_shape, fold_IncRef_core).
  apply refs_ok_snoc; simpl.
  - by eapply shape_wf_shape.
  - eapply refs_ok_ext; [|by apply refs_ok_fold_IncRef]. done.
  - done.
  - by rewrite (shape_length _ _ Hsh).
  - unfold refOf. simpl. rewrite decide_False; [done|]. rewrite (shape_length _ _ Hsh).
    intros Hin%He. lia.
Qed.

(** Replacing the edges of an open scope. *)
Lemma refs_ok_retarget h s es es' P :
  dag h s es -> refs_ok h P ->
  refs_ok (alter (to_edges es') s h)
    (fun t => P t + (if decide (t ∈ es) then 1 else 0) - (if decide (t ∈ es') then 1 else 0)).
Proof.
  intros (sc & Hl & Hd & Ho & <-) HP t tsc Ht. unfold refs.
  rewrite (sumZ_alter _ _ _ _ _ Hl). fold (refs h t). unfold refOf. simpl. rewrite Hd, Ho.
  assert (Ht0 : exists tsc0, h !! t = Some tsc0 /\ refCnt tsc = refCnt tsc0).
  { destruct (decide (t = s)) as [->|].
    - rewrite list_lookup_alter_eq, Hl in Ht. injection Ht as <-. eauto.
    - rewrite list_lookup_alter_ne in Ht by done. eauto. }
  destruct Ht0 as (tsc0 & Hl0 & ->). rewrite (HP _ _ Hl0). f_equal. lia.
Qed.

(** [Done] gives back the references of the scope. *)
Lemma refs_ok_close h s sc P :
  h !! s = Some sc -> done sc = false ->
  refs_ok h P -> refs_ok (alter closeScope s h) (fun t => P t + refOf t sc).
Proof.
  intros Hl Hd HP t tsc Ht. unfold refs. rewrite (sumZ_alter _ _ _ _ _ Hl). fold (refs h t).
  replace (refOf t (closeScope sc)) with 0 by done.
  assert (Ht0 : exists tsc0, h !! t = Some tsc0 /\ refCnt tsc = refCnt tsc0).
  { destruct (decide (t = s)) as [->|].
    - rewrite list_lookup_alter_eq, Hl in Ht. injection Ht as <-. eauto.
    - rewrite list_lookup_alter_ne in Ht by done. eauto. }
  destruct Ht0 as (tsc0 & Hl0 & ->). rewrite (HP _ _ Hl0). f_equal. lia.
Qed.

Lemma refs_ok_drop_edges st es h P :
  NoDup es -> refs_ok h P ->
  refs_ok (fold_left (fun h e => DecRef (ReleaseForChild h e st) e) es h)
    (fun t => P t - if decide (t ∈ es) then 1 else 0).
Proof.
  intros Hnd. revert h P. induction Hnd as [|e es He Hnd IH]; intros h P HP; simpl.
  { eapply refs_ok_ext; [|done]. intros t. cbv beta. destruct (decide (t ∈ [])); [set_solver|lia]. }
  eapply refs_ok_ext; [|apply IH, refs_ok_DecRef, refs_ok_removeForChild, HP].
  intros t. unfold bump. simpl. destruct (decide (t = e)) as [->|].
  - rewrite decide_False by done. rewrite decide_True by set_solver. lia.
  - destruct (decide (t ∈ es)); [rewrite decide_True by set_solver|rewrite decide_False by set_solver];
      lia.
Qed.

Lemma shape_drop_edges st es h :
  shape (fold_left (fun h e => DecRef (ReleaseForChild h e st) e) es h) = shape h.
Proof.
  revert h. induction es as [|e es IH]; intros h; [done|]. simpl. rewrite IH.
  rewrite (core_eq_shape _ _ (DecRef_core _ _)). unfold ReleaseForChild.
  rewrite removeForChild_live. destruct (live h e); [by apply shape_alter|done].
Qed.

Lemma refs_ok_Done h s P : shape_wf h -> refs_ok h P -> refs_ok (Done h s) P.
Proof.
  intros Hwf HP. unfold Done. destruct (h !! s) as [sc|] eqn:Hl; [|done].
  destruct (done sc) eqn:Hd; [done|].
  set (h1 := match owner sc with
             | Some o => DecRef (ReleaseResources h o (stat (rc sc))) o
             | None => fold_left (fun h e => DecRef (ReleaseForChild h e (stat (rc sc))) e) (edges sc) h
             end).
  assert (Hsh : shape h1 = shape h).
  { subst h1. destruct (owner sc); [|apply shape_drop_edges].
    rewrite (core_eq_shape _ _ (DecRef_core _ _)). unfold ReleaseResources.
    rewrite remove_charge by (done || unfold chainFuel; lia). apply shape_apply_rc. }
  assert (HP1 : refs_ok h1 (fun t => P t - refOf t sc)).
  { subst h1. pose proof (Hwf _ _ Hl) as Hw. unfold scope_shape_wf in Hw. unfold refOf. rewrite Hd.
    destruct (owner sc) as [o|].
    - unfold ReleaseResources. rewrite remove_charge by (done || unfold chainFuel; lia).
      eapply refs_ok_ext; [|apply refs_ok_DecRef, refs_ok_apply_rc, HP].
      intros t. unfold bump. simpl. repeat case_decide; subst; done || lia.
    - apply refs_ok_drop_edges; [apply Hw|done]. }
  destruct (shape_lookup _ _ _ _ (eq_sym Hsh) Hl) as (sc1 & Hl1 & Hd1 & Ho1 & He1).
  eapply refs_ok_ext; [|apply (refs_ok_close h1 s sc1); [done|congruence|exact HP1]].
  intros t. unfold refOf. simpl. rewrite Hd1, Ho1, He1. lia.
Qed.

(** An open span is a reference of its owner. *)
Lemma refs_ok_BeginSpan h s h' t P :
  shape_wf h -> P (length h) = 0 -> BeginSpan h s = (h', inr t) -> refs_ok h P -> refs_ok h' P.
Proof.
  intros Hwf Hp. unfold BeginSpan. destruct (h !! s) as [sc|] eqn:Hl; [|done].
  destruct (done sc) eqn:Hd; [done|]. cbn -[app insert]. unfold newResourceScopeSpan.
  intros [= <- <-] HP.
  set (g := fun sc => set_spanID (set_refCnt sc (add64 (refCnt sc) 1)) (add64 (spanID sc) 1)).
  change (set_spanID (set_refCnt sc (add64 (refCnt sc) 1)) (add64 (spanID sc) 1)) with (g sc).
  rewrite (insert_alter h s sc g) by done.
  assert (Hsh : shape (alter g s h) = shape h) by (by apply shape_alter).
  pose proof (lookup_lt_Some _ _ _ Hl). apply refs_ok_snoc.
  - by eapply shape_wf_shape.
  - eapply refs_ok_ext; [|apply (refs_ok_bump g h s 1 P); done]. intros t. unfold bump, refOf. simpl.
    repeat case_decide; subst; done || lia.
  - done.
  - by rewrite length_alter.
  - unfold refOf. simpl. rewrite decide_False; [done|]. rewrite length_alter. lia.
Qed.

(** An unreferenced scope, as [IsUnused] sees it, is on no open scope's edges and
    owns no open span. *)
Lemma unused_no_child h P s sc :
  refs_ok h P -> Z.of_nat (length h) < MaxInt64 -> 0 <= P s <= 1 ->
  h !! s = Some sc -> done sc = false -> IsUnused sc = true ->
  no_dag_child h s /\ forall u usc, h !! u = Some usc -> done usc = false -> owner usc <> Some s.
Proof.
  intros HP Hlen Hps Hl Hd Hun.
  assert (Hr : refs h s = 0).
  { unfold IsUnused in Hun. rewrite Hd in Hun. rewrite (HP _ _ Hl) in Hun.
    pose proof (refs_bounds h s). rewrite wrap64_small in Hun by int64_lia.
    zcase; [done|]. lia. }
  assert (Hz : forall u usc, h !! u = Some usc -> refOf s usc = 0).
  { intros u usc Hu.
    pose proof (sumZ_elem_le (refOf s) h usc (fun x _ => proj1 (refOf_bounds s x))
                  (list_elem_of_lookup_2 _ _ _ Hu)).
    pose proof (refOf_bounds s usc). unfold refs in Hr. lia. }
  split; intros u usc Hu Hud; specialize (Hz u usc Hu); unfold refOf in Hz; rewrite Hud in Hz.
  - intros Huo. rewrite Huo in Hz. by case_decide.
  - intros Huo. rewrite Huo, decide_True in Hz by done. done.
Qed.
