(* ===== verification/RcmgrInv.v ===== *)
(** * Invariant of the resource manager

    What holds of the manager's tables, of the scopes it made and of the
    connection and stream scopes its users hold, and that every operation of
    rcmgr.go keeps it.  Each scope has a [kind], a ghost that says which
    constructor of rcmgr.go made it. *)
From Stdlib Require Import ZArith Lia.
From stdpp Require Import base tactics sets list numbers option strings pretty gmap.
From S2P Require Import Prelude Limits Resources Scope Ledger ConnLimiter Rcmgr Retarget RefCount.
Local Open Scope Z_scope.
Import Int64.

Inductive kind :=
| KSystem | KTransient | KAllowSystem | KAllowTransient
| KService (s : string) | KProtocol (pr : string) | KPeer (p : string)
| KServicePeer (s p : string) | KProtocolPeer (pr p : string)
| KConn | KStream | KSpan.

(** The kinds that may be on edges. *)
Definition container (k : kind) : bool :=
  match k with KConn | KStream | KSpan => false | _ => true end.

(** The peer of a per-peer service or protocol scope. *)
Definition peerOf (k : kind) : option string :=
  match k with KServicePeer _ p | KProtocolPeer _ p => Some p | _ => None end.

(** The references [NewResourceManager] takes. *)
Definition pins (r : resourceManager) : nat -> Z := fun s =>
  if decide (s ∈ [system r; transient r; allowlistedSystem r; allowlistedTransient r]) then 1 else 0.

Definition limiter_wf (l : Limiter) : Prop :=
  limit_wf (GetSystemLimits l) /\ limit_wf (GetTransientLimits l)
  /\ limit_wf (GetAllowlistedSystemLimits l) /\ limit_wf (GetAllowlistedTransientLimits l)
  /\ (forall x, limit_wf (GetServiceLimits l x)) /\ (forall x, limit_wf (GetServicePeerLimits l x))
  /\ (forall x, limit_wf (GetProtocolLimits l x)) /\ (forall x, limit_wf (GetProtocolPeerLimits l x))
  /\ (forall x, limit_wf (GetPeerLimits l x)) /\ (forall x, limit_wf (GetStreamLimits l x))
  /\ limit_wf (GetConnLimits l).

(** An open DAG scope of a given kind. *)
Definition is_scope (h : heap) (ks : list kind) (s : nat) (k : kind) (es : list nat) : Prop :=
  ks !! s = Some k /\ dag h s es.

(** A list of scopes that can be the edges of an open scope. *)
Definition edges_ok (r : resourceManager) (ks : list kind) (es : list nat) : Prop :=
  NoDup es
  /\ (forall e, e ∈ es -> exists k x, is_scope (scopes r) ks e k x /\ container k = true)
  /\ (forall e k p, e ∈ es -> ks !! e = Some k -> peerOf k = Some p ->
        exists pe, peer r !! p = Some pe /\ pe_scope pe ∈ es).

Record tables (r : resourceManager) (ks : list kind) : Prop := {
  tb_len : length ks = length (scopes r);
  tb_limits : limiter_wf (limits r);
  tb_edges t es : dag (scopes r) t es -> edges_ok r ks es;
  tb_system : is_scope (scopes r) ks (system r) KSystem [];
  tb_transient : is_scope (scopes r) ks (transient r) KTransient [system r];
  tb_asystem : is_scope (scopes r) ks (allowlistedSystem r) KAllowSystem [];
  tb_atransient : is_scope (scopes r) ks (allowlistedTransient r) KAllowTransient [allowlistedSystem r];
  tb_peer p pe : peer r !! p = Some pe ->
    peerID pe = p /\ is_scope (scopes r) ks (pe_scope pe) (KPeer p) [system r];
  tb_proto x sc : proto r !! x = Some sc ->
    protoID sc = x /\ is_scope (scopes r) ks (pr_scope sc) (KProtocol x) [system r]
    /\ forall p ps, pr_peers sc !! p = Some ps -> is_scope (scopes r) ks ps (KProtocolPeer x p) [];
  tb_svc x sc : svc r !! x = Some sc ->
    service sc = x /\ is_scope (scopes r) ks (svc_scope sc) (KService x) [system r]
    /\ forall p ps, svc_peers sc !! p = Some ps -> is_scope (scopes r) ks ps (KServicePeer x p) [] }.

Record rinv (r : resourceManager) (own : ledger) (ks : list kind) (P : nat -> Z) : Prop := {
  ri_inv : Inv (scopes r) own;
  ri_refs : refs_ok (scopes r) P;
  ri_tables : tables r ks;
  ri_fresh t : (length (scopes r) <= t)%nat -> P t = 0 /\ forall f, own t f = 0 }.

(** ** What later states keep *)

Definition dead (h : heap) (t : nat) : Prop := exists sc, h !! t = Some sc /\ done sc = true.

Lemma dead_shape h h' t : shape h = shape h' -> dead h t -> dead h' t.
Proof.
  intros Hs (sc & Hl & Hd). destruct (shape_lookup _ _ _ _ Hs Hl) as (sc' & ? & ? & _).
  exists sc'. split; congruence.
Qed.

(** The managers [r] and [r'] agree on the old scopes, except for the edges of
    the scopes in [X]; nothing in the tables went away. *)
Record ext (X : list nat) (r : resourceManager) (ks : list kind) (r' : resourceManager)
    (ks' : list kind) : Prop := {
  ex_kinds : ks `prefix_of` ks';
  ex_limits : limits r' = limits r;
  ex_base : (system r', transient r', allowlistedSystem r', allowlistedTransient r')
            = (system r, transient r, allowlistedSystem r, allowlistedTransient r);
  ex_dag t es : t ∉ X -> dag (scopes r) t es -> dag (scopes r') t es;
  ex_dead t : dead (scopes r) t -> dead (scopes r') t;
  ex_peer p pe : peer r !! p = Some pe -> peer r' !! p = Some pe }.

Lemma ext_refl X r ks : ext X r ks r ks.
Proof. by split. Qed.

Lemma ext_trans X r1 k1 r2 k2 r3 k3 : ext X r1 k1 r2 k2 -> ext X r2 k2 r3 k3 -> ext X r1 k1 r3 k3.
Proof. intros [] []. split; [by etrans|congruence|congruence|auto..]. Qed.

Lemma ext_weaken X Y r ks r' ks' : X ⊆ Y -> ext X r ks r' ks' -> ext Y r ks r' ks'.
Proof. intros HXY []. split; auto. Qed.

Lemma is_scope_ext X r ks r' ks' s k es :
  ext X r ks r' ks' -> s ∉ X -> is_scope (scopes r) ks s k es -> is_scope (scopes r') ks' s k es.
Proof.
  intros [] Hs [Hk Hd]. split; [by eapply prefix_lookup_Some|by apply ex_dag0].
Qed.

(** ** The pieces of the invariant under heap updates *)
Lemma with_scopes_id r : with_scopes r (scopes r) = r.
Proof. by destruct r. Qed.

Lemma tables_shape r ks h :
  shape (scopes r) = shape h -> tables r ks -> tables (with_scopes r h) ks.
Proof.
  intros Hs []. pose proof (fun t es => dag_shape_iff (scopes r) h t es Hs) as Hd.
  assert (Hi : forall s k es, is_scope (scopes r) ks s k es -> is_scope h ks s k es).
  { intros s k es [? ?]. split; [done|by apply Hd]. }
  split; simpl; try (by auto).
  - by rewrite <- (shape_length _ _ Hs).
  - intros t es (Hnd & He & Hp)%Hd%tb_edges0. split_and!; [done| |done].
    intros e (k & x & ? & ?)%He. eauto.
  - intros p pe (? & ?)%tb_peer0. auto.
  - intros x sc (? & ? & ?)%tb_proto0. auto.
  - intros x sc (? & ? & ?)%tb_svc0. auto.
Qed.

Lemma ext_shape X r ks h : shape (scopes r) = shape h -> ext X r ks (with_scopes r h) ks.
Proof. intros Hs. split; try done; [intros t es _; by apply dag_shape|intros t; by apply dead_shape]. Qed.

(** Updates that the accounting does not see, with their effect on references. *)
Lemma rinv_core r own ks P Q h :
  rinv r own ks P -> h ≃ scopes r -> refs_ok h Q ->
  (forall t, (length (scopes r) <= t)%nat -> Q t = 0) -> rinv (with_scopes r h) own ks Q.
Proof.
  intros [] Hc HQ Hf. assert (Hs : shape (scopes r) = shape h) by (symmetry; by apply core_eq_shape).
  split; simpl; [by rewrite Hc|done|by apply tables_shape|].
  intros t Ht. rewrite <- (shape_length _ _ Hs) in Ht. split; [auto|by apply ri_fresh0].
Qed.

Lemma rinv_IncRef r own ks P s :
  rinv r own ks P -> (s < length (scopes r))%nat ->
  rinv (with_scopes r (IncRef (scopes r) s)) own ks (bump P s 1).
Proof.
  intros HI Hs. eapply rinv_core; [done|apply IncRef_core|apply refs_ok_IncRef, HI|].
  intros t Ht. unfold bump. rewrite (proj1 (ri_fresh _ _ _ _ HI t Ht)), decide_False by lia. done.
Qed.

Lemma rinv_DecRef r own ks P s :
  rinv r own ks P -> (s < length (scopes r))%nat ->
  rinv (with_scopes r (DecRef (scopes r) s)) own ks (bump P s (-1)).
Proof.
  intros HI Hs. eapply rinv_core; [done|apply DecRef_core|apply refs_ok_DecRef, HI|].
  intros t Ht. unfold bump. rewrite (proj1 (ri_fresh _ _ _ _ HI t Ht)), decide_False by lia. done.
Qed.

Lemma rinv_ext r own ks P Q : (forall t, P t = Q t) -> rinv r own ks P -> rinv r own ks Q.
Proof.
  intros HPQ []. split; [done|by eapply refs_ok_ext|done|]. intros t. rewrite <- HPQ. auto.
Qed.

Lemma is_scope_lt h ks s k es : is_scope h ks s k es -> (s < length h)%nat.
Proof. intros (_ & sc & Hs & _). by eapply lookup_lt_Some. Qed.

(** ** New scopes *)
(** Counters of at most [n]; [small] ones are far from overflow. *)
Definition below (n : Z) (h : heap) : Prop :=
  forall u usc f, h !! u = Some usc -> get f (rc usc) <= n.
Abbreviation small := (below (2 ^ 61 - 1)).

Lemma below_core n h h' : h ≃ h' -> below n h -> below n h'.
Proof.
  intros Hc Hs u usc f Hu. symmetry in Hc.
  destruct (core_eq_lookup _ _ _ _ Hc Hu) as (sc & Hl & _ & _ & _ & <-). by eapply Hs.
Qed.

Lemma below_snoc n h x l : 0 <= n -> below n h -> rc x = newResources l -> below n (h ++ [x]).
Proof.
  intros Hn Hs Hx u usc f [[_ Hu]|[_ <-]]%lookup_snoc_Some; [by eapply Hs|].
  rewrite Hx. destruct f; simpl; lia.
Qed.

Lemma dag_snoc h x t es :
  dag (h ++ [x]) t es <->
  dag h t es \/ (t = length h /\ done x = false /\ owner x = None /\ edges x = es).
Proof.
  unfold dag. split.
  - intros (sc & [[? Ht]|[-> <-]]%lookup_snoc_Some & ?); [left; eauto|right; naive_solver].
  - intros [(sc & Ht & ?)|(-> & ?)].
    + exists sc. rewrite lookup_app_l by (by eapply lookup_lt_Some). done.
    + exists x. rewrite lookup_app_r, Nat.sub_diag by lia. done.
Qed.

Lemma dead_snoc h x t : dead h t -> dead (h ++ [x]) t.
Proof.
  intros (sc & Hl & Hd). exists sc. rewrite lookup_app_l by (by eapply lookup_lt_Some). done.
Qed.

Lemma dead_alter f h s t : (forall sc, done sc = true -> done (f sc) = true) -> dead h t -> dead (alter f s h) t.
Proof.
  intros Hf (sc & Hl & Hd). destruct (decide (t = s)) as [->|].
  - exists (f sc). rewrite list_lookup_alter_eq, Hl. auto.
  - exists sc. rewrite list_lookup_alter_ne by done. done.
Qed.

Lemma Inv_own_ext h own own' : (forall t f, own t f = own' t f) -> Inv h own -> Inv h own'.
Proof.
  intros Heq (Hwf & [Hnn Hacc] & Hlim). split_and!; [done|split|done].
  - intros t f. by rewrite <- Heq.
  - intros u sc Hu f. rewrite (Hacc _ _ Hu f). destruct (done sc); [done|].
    apply sumZ_ext. intros t _. by rewrite Heq.
Qed.

Lemma is_scope_snoc h x ks k' s k es :
  is_scope h ks s k es -> is_scope (h ++ [x]) (ks ++ [k']) s k es.
Proof.
  intros [Hk Hd]. split; [|apply dag_snoc; by left].
  rewrite lookup_app_l by (by eapply lookup_lt_Some). done.
Qed.

Lemma edges_ok_snoc r ks k' x es :
  length ks = length (scopes r) ->
  edges_ok r ks es -> edges_ok (with_scopes r (scopes r ++ [x])) (ks ++ [k']) es.
Proof.
  intros Hlen (Hnd & He & Hp). split_and!; [done| |].
  - intros e (k & y & ? & ?)%He. exists k, y. split; [by apply is_scope_snoc|done].
  - intros e k p Hin Hk. simpl. apply (Hp e k p Hin).
    destruct (He e Hin) as (k0 & y & [Hk0 _] & _).
    rewrite lookup_app_l in Hk by (by eapply lookup_lt_Some). done.
Qed.

(** A new DAG scope. *)
Lemma rinv_new r own ks P l es nm k h' s :
  rinv r own ks P -> newResourceScope (scopes r) l es nm = (h', s) -> limit_wf l ->
  edges_ok r ks es ->
  rinv (with_scopes r h') own (ks ++ [k]) P /\ ext [] r ks (with_scopes r h') (ks ++ [k])
  /\ is_scope h' (ks ++ [k]) s k es /\ (forall n, 0 <= n -> below n (scopes r) -> below n h').
Proof.
  intros HI Hnew Hlw Hes. pose proof Hes as (Hnd & He & _). destruct HI as [HInv Href Htab Hfr].
  assert (Hlt : forall e, e ∈ es -> (e < length (scopes r))%nat).
  { intros e (k0 & x & Hs & _)%He. by eapply is_scope_lt. }
  assert (HInv' : Inv h' (clear own s)).
  { eapply Inv_new; eauto. intros e (k0 & x & (_ & sc & ? & _ & ? & _) & _)%He. eauto. }
  assert (Href' : refs_ok h' P).
  { eapply refs_ok_new; eauto; [apply HInv|by apply Hfr]. }
  unfold newResourceScope in Hnew. injection Hnew as <- <-.
  set (h1 := fold_left IncRef es (scopes r)) in *.
  assert (Hc : h1 ≃ scopes r) by apply fold_IncRef_core.
  assert (Hsh : shape (scopes r) = shape h1) by (symmetry; by apply core_eq_shape).
  pose proof (shape_length _ _ Hsh) as Hlen. pose proof (tables_shape r ks h1 Hsh Htab) as Htab1.
  set (x := mkScope false 0 0 (newResources l) None es nm) in *.
  assert (Hes1 : edges_ok (with_scopes r h1) ks es).
  { destruct Hes as (_ & _ & Hp). split_and!; [done| |done].
    intros e (k0 & y & [? ?] & ?)%He. exists k0, y. split; [split; [done|]|done].
    by apply (dag_shape (scopes r)). }
  assert (Hlk : length ks = length h1) by apply (tb_len _ _ Htab1).
  assert (Hnewk : is_scope (h1 ++ [x]) (ks ++ [k]) (length h1) k es).
  { split; [rewrite lookup_app_r, Hlk, Nat.sub_diag by lia; done|]. apply dag_snoc. right. done. }
  split_and!; [split; simpl| |done|].
  - eapply Inv_own_ext; [|exact HInv']. intros t f. unfold clear. case_decide; [|done].
    subst t. rewrite <- Hlen. symmetry. by apply Hfr.
  - done.
  - destruct Htab1. simpl in *. split; simpl; try (by auto using is_scope_snoc).
    + rewrite !length_app. simpl. lia.
    + intros t es0 [Hd|(-> & _ & _ & <-)]%dag_snoc;
        apply (edges_ok_snoc (with_scopes r h1)); simpl; eauto.
    + intros p pe (? & ?)%tb_peer0. auto using is_scope_snoc.
    + intros y sc (? & ? & ?)%tb_proto0. split_and!; auto using is_scope_snoc.
    + intros y sc (? & ? & ?)%tb_svc0. split_and!; auto using is_scope_snoc.
  - intros t Ht. rewrite length_app in Ht. apply Hfr. lia.
  - split; simpl; try done; [by apply prefix_app_r| |].
    + intros t es0 _ Hd. apply dag_snoc. left. by apply (dag_shape (scopes r)).
    + intros t Hd. by apply dead_snoc, (dead_shape (scopes r)).
  - intros n Hn Hsm. eapply below_snoc; [done| |done]. eapply below_core; [symmetry; exact Hc|done].
Qed.

(** ** Entries of the tables *)
Lemma edges_ok_peer_insert r ks es p pe :
  peer r !! p = None -> edges_ok r ks es ->
  edges_ok (with_peer r (<[p := pe]> (peer r))) ks es.
Proof.
  intros Hp (Hnd & He & Hpe). split_and!; [done|done|].
  intros e k q Hin Hk Hq. destruct (Hpe e k q Hin Hk Hq) as (pe' & Hl & ?). simpl.
  exists pe'. rewrite lookup_insert_ne by congruence. done.
Qed.

Lemma rinv_with_peer r own ks P p i :
  rinv r own ks P -> peer r !! p = None -> is_scope (scopes r) ks i (KPeer p) [system r] ->
  rinv (with_peer r (<[p := mkPeerScope i p]> (peer r))) own ks P
  /\ ext [] r ks (with_peer r (<[p := mkPeerScope i p]> (peer r))) ks.
Proof.
  intros [HI HR HT HF] Hp Hi. split; [split; try done|split; try done].
  - destruct HT. split; simpl; try done.
    + intros t es Hd. by apply edges_ok_peer_insert, tb_edges0 with t.
    + intros q pe. rewrite lookup_insert_Some. intros [[<- <-]|[? ?]]; [done|by apply tb_peer0].
  - intros q pe Hq. simpl. rewrite lookup_insert_ne by congruence. done.
Qed.

Lemma rinv_with_proto r own ks P x sc :
  rinv r own ks P ->
  protoID sc = x -> is_scope (scopes r) ks (pr_scope sc) (KProtocol x) [system r] ->
  (forall p ps, pr_peers sc !! p = Some ps -> is_scope (scopes r) ks ps (KProtocolPeer x p) []) ->
  rinv (with_proto r (<[x := sc]> (proto r))) own ks P
  /\ ext [] r ks (with_proto r (<[x := sc]> (proto r))) ks.
Proof.
  intros [HI HR HT HF] Hx Hsc Hps. split; [split; try done|by split].
  destruct HT. split; simpl; try done.
  intros y sc'. rewrite lookup_insert_Some. intros [[<- <-]|[? ?]]; [done|by apply tb_proto0].
Qed.

Lemma rinv_with_svc r own ks P x sc :
  rinv r own ks P ->
  service sc = x -> is_scope (scopes r) ks (svc_scope sc) (KService x) [system r] ->
  (forall p ps, svc_peers sc !! p = Some ps -> is_scope (scopes r) ks ps (KServicePeer x p) []) ->
  rinv (with_svc r (<[x := sc]> (svc r))) own ks P
  /\ ext [] r ks (with_svc r (<[x := sc]> (svc r))) ks.
Proof.
  intros [HI HR HT HF] Hx Hsc Hps. split; [split; try done|by split].
  destruct HT. split; simpl; try done.
  intros y sc'. rewrite lookup_insert_Some. intros [[<- <-]|[? ?]]; [done|by apply tb_svc0].
Qed.

Lemma edges_ok_system r ks : tables r ks -> edges_ok r ks [system r].
Proof.
  intros []. split_and!; [apply NoDup_singleton| |].
  - intros e ->%list_elem_of_singleton. eauto.
  - intros e k p ->%list_elem_of_singleton Hk. destruct tb_system0 as [? _]. simplify_eq. done.
Qed.

Lemma edges_ok_nil r ks : edges_ok r ks [].
Proof. split_and!; [constructor|set_solver|set_solver]. Qed.

(** ** Looking scopes up *)
Lemma shape_IncRef h s : shape h = shape (IncRef h s).
Proof. symmetry. apply core_eq_shape, IncRef_core. Qed.

Lemma shape_DecRef h s : shape h = shape (DecRef h s).
Proof. symmetry. apply core_eq_shape, DecRef_core. Qed.

Section lookups.
Context (peerString : string -> string).

Lemma getPeerScope_spec r own ks P p r' pe :
  rinv r own ks P -> getPeerScope peerString r p = (r', pe) ->
  exists ks', rinv r' own ks' (bump P (pe_scope pe) 1) /\ ext [] r ks r' ks' /\ (forall n, 0 <= n -> below n (scopes r) -> below n (scopes r'))
              /\ peer r' !! p = Some pe.
Proof.
  intros HI. unfold getPeerScope. destruct (peer r !! p) as [sc|] eqn:Hp.
  - intros [= <- <-]. exists ks.
    destruct (tb_peer _ _ (ri_tables _ _ _ _ HI) p sc Hp) as [_ Hsc].
    split_and!; [apply rinv_IncRef; [done|by eapply is_scope_lt]|apply ext_shape, shape_IncRef| |done].
    intros n _. apply below_core. symmetry. apply IncRef_core.
  - unfold newPeerScope. destruct (newResourceScope _ _ _ _) as [h i] eqn:Hn. intros [= <- <-].
    pose proof (ri_tables _ _ _ _ HI) as HT.
    destruct (rinv_new r own ks P _ _ _ (KPeer p) h i HI Hn) as (HI1 & Hx1 & Hi & Hsm);
      [apply HT|by apply edges_ok_system|].
    destruct (rinv_with_peer _ own _ P p i HI1 Hp Hi) as [HI2 Hx2].
    exists (ks ++ [KPeer p]). split_and!.
    + apply (rinv_IncRef _ _ _ _ i HI2). by eapply is_scope_lt.
    + eapply ext_trans; [exact Hx1|]. eapply ext_trans; [exact Hx2|].
      apply (ext_shape [] (with_peer (with_scopes r h) (<[p := mkPeerScope i p]> (peer r)))).
      apply shape_IncRef.
    + intros n Hn0 ?%Hsm; [|done]. eapply below_core; [symmetry; apply IncRef_core|done].
    + simpl. by rewrite lookup_insert_eq.
Qed.

Lemma getProtocolScope_spec r own ks P x r' sc :
  rinv r own ks P -> getProtocolScope r x = (r', sc) ->
  exists ks', rinv r' own ks' (bump P (pr_scope sc) 1) /\ ext [] r ks r' ks' /\ (forall n, 0 <= n -> below n (scopes r) -> below n (scopes r'))
              /\ proto r' !! x = Some sc.
Proof.
  intros HI. unfold getProtocolScope. destruct (proto r !! x) as [s|] eqn:Hp.
  - intros [= <- <-]. exists ks.
    destruct (tb_proto _ _ (ri_tables _ _ _ _ HI) x s Hp) as (_ & Hsc & _).
    split_and!; [apply rinv_IncRef; [done|by eapply is_scope_lt]|apply ext_shape, shape_IncRef| |done].
    intros n _. apply below_core. symmetry. apply IncRef_core.
  - unfold newProtocolScope. destruct (newResourceScope _ _ _ _) as [h i] eqn:Hn. intros [= <- <-].
    pose proof (ri_tables _ _ _ _ HI) as HT.
    destruct (rinv_new r own ks P _ _ _ (KProtocol x) h i HI Hn) as (HI1 & Hx1 & Hi & Hsm);
      [apply HT|by apply edges_ok_system|].
    destruct (rinv_with_proto _ own _ P x (mkProtocolScope i x ∅) HI1 eq_refl Hi) as [HI2 Hx2];
      [intros p ps; simpl; by rewrite lookup_empty|].
    exists (ks ++ [KProtocol x]). split_and!.
    + apply (rinv_IncRef _ _ _ _ i HI2). by eapply is_scope_lt.
    + eapply ext_trans; [exact Hx1|]. eapply ext_trans; [exact Hx2|].
      apply (ext_shape [] (with_proto (with_scopes r h) (<[x := mkProtocolScope i x ∅]> (proto r)))).
      apply shape_IncRef.
    + intros n Hn0 ?%Hsm; [|done]. eapply below_core; [symmetry; apply IncRef_core|done].
    + simpl. by rewrite lookup_insert_eq.
Qed.

Lemma getServiceScope_spec r own ks P x r' sc :
  rinv r own ks P -> getServiceScope r x = (r', sc) ->
  exists ks', rinv r' own ks' (bump P (svc_scope sc) 1) /\ ext [] r ks r' ks' /\ (forall n, 0 <= n -> below n (scopes r) -> below n (scopes r'))
              /\ svc r' !! x = Some sc.
Proof.
  intros HI. unfold getServiceScope. destruct (svc r !! x) as [s|] eqn:Hp.
  - intros [= <- <-]. exists ks.
    destruct (tb_svc _ _ (ri_tables _ _ _ _ HI) x s Hp) as (_ & Hsc & _).
    split_and!; [apply rinv_IncRef; [done|by eapply is_scope_lt]|apply ext_shape, shape_IncRef| |done].
    intros n _. apply below_core. symmetry. apply IncRef_core.
  - unfold newServiceScope. destruct (newResourceScope _ _ _ _) as [h i] eqn:Hn. intros [= <- <-].
    pose proof (ri_tables _ _ _ _ HI) as HT.
    destruct (rinv_new r own ks P _ _ _ (KService x) h i HI Hn) as (HI1 & Hx1 & Hi & Hsm);
      [apply HT|by apply edges_ok_system|].
    destruct (rinv_with_svc _ own _ P x (mkServiceScope i x ∅) HI1 eq_refl Hi) as [HI2 Hx2];
      [intros p ps; simpl; by rewrite lookup_empty|].
    exists (ks ++ [KService x]). split_and!.
    + apply (rinv_IncRef _ _ _ _ i HI2). by eapply is_scope_lt.
    + eapply ext_trans; [exact Hx1|]. eapply ext_trans; [exact Hx2|].
      apply (ext_shape [] (with_svc (with_scopes r h) (<[x := mkServiceScope i x ∅]> (svc r)))).
      apply shape_IncRef.
    + intros n Hn0 ?%Hsm; [|done]. eapply below_core; [symmetry; apply IncRef_core|done].
    + simpl. by rewrite lookup_insert_eq.
Qed.

Lemma protocolGetPeerScope_spec r own ks P x sc p r' ps :
  rinv r own ks P -> proto r !! x = Some sc -> protocolGetPeerScope peerString r sc p = (r', ps) ->
  exists ks', rinv r' own ks' (bump P ps 1) /\ ext [] r ks r' ks' /\ (forall n, 0 <= n -> below n (scopes r) -> below n (scopes r'))
              /\ is_scope (scopes r') ks' ps (KProtocolPeer x p) [].
Proof.
  intros HI Hx. destruct (tb_proto _ _ (ri_tables _ _ _ _ HI) x sc Hx) as (Hid & Hsc & Hps).
  unfold protocolGetPeerScope. rewrite Hid, Hx. cbn [from_option id]. destruct (pr_peers sc !! p) as [q|] eqn:Hq.
  - intros [= <- <-]. exists ks. specialize (Hps p q Hq).
    split_and!; [apply rinv_IncRef; [done|by eapply is_scope_lt]|apply ext_shape, shape_IncRef| |].
    + intros n _. apply below_core. symmetry. apply IncRef_core.
    + destruct Hps as [? ?]. split; [done|]. eapply dag_shape; [apply shape_IncRef|done].
  - destruct (newResourceScope _ _ _ _) as [h i] eqn:Hn. rewrite Hid. intros [= <- <-].
    pose proof (ri_tables _ _ _ _ HI) as HT.
    destruct (rinv_new r own ks P _ _ _ (KProtocolPeer x p) h i HI Hn) as (HI1 & Hx1 & Hi & Hsm);
      [apply HT|by apply edges_ok_nil|].
    set (sc' := mkProtocolScope (pr_scope sc) x (<[p := i]> (pr_peers sc))) in *.
    destruct (rinv_with_proto _ own _ P x sc' HI1 eq_refl) as [HI2 Hx2].
    { apply (is_scope_ext [] r ks); [done|set_solver|done]. }
    { intros p' ps'. simpl. rewrite lookup_insert_Some. intros [[<- <-]|[_ Hp']]; [done|].
      apply (is_scope_ext [] r ks (with_scopes r h) _ _ _ _ Hx1); [set_solver|by apply Hps]. }
    exists (ks ++ [KProtocolPeer x p]). split_and!.
    + apply (rinv_IncRef _ _ _ _ i HI2). by eapply is_scope_lt.
    + eapply ext_trans; [exact Hx1|]. eapply ext_trans; [exact Hx2|].
      apply (ext_shape [] (with_proto (with_scopes r h) (<[x := sc']> (proto r)))).
      apply shape_IncRef.
    + intros n Hn0 ?%Hsm; [|done]. eapply below_core; [symmetry; apply IncRef_core|done].
    + destruct Hi as [? ?]. split; [done|]. eapply dag_shape; [apply shape_IncRef|done].
Qed.

Lemma serviceGetPeerScope_spec r own ks P x sc p r' ps :
  rinv r own ks P -> svc r !! x = Some sc -> serviceGetPeerScope peerString r sc p = (r', ps) ->
  exists ks', rinv r' own ks' (bump P ps 1) /\ ext [] r ks r' ks' /\ (forall n, 0 <= n -> below n (scopes r) -> below n (scopes r'))
              /\ is_scope (scopes r') ks' ps (KServicePeer x p) [].
Proof.
  intros HI Hx. destruct (tb_svc _ _ (ri_tables _ _ _ _ HI) x sc Hx) as (Hid & Hsc & Hps).
  unfold serviceGetPeerScope. rewrite Hid, Hx. cbn [from_option id]. destruct (svc_peers sc !! p) as [q|] eqn:Hq.
  - intros [= <- <-]. exists ks. specialize (Hps p q Hq).
    split_and!; [apply rinv_IncRef; [done|by eapply is_scope_lt]|apply ext_shape, shape_IncRef| |].
    + intros n _. apply below_core. symmetry. apply IncRef_core.
    + destruct Hps as [? ?]. split; [done|]. eapply dag_shape; [apply shape_IncRef|done].
  - destruct (newResourceScope _ _ _ _) as [h i] eqn:Hn. rewrite Hid. intros [= <- <-].
    pose proof (ri_tables _ _ _ _ HI) as HT.
    destruct (rinv_new r own ks P _ _ _ (KServicePeer x p) h i HI Hn) as (HI1 & Hx1 & Hi & Hsm);
      [apply HT|by apply edges_ok_nil|].
    set (sc' := mkServiceScope (svc_scope sc) x (<[p := i]> (svc_peers sc))) in *.
    destruct (rinv_with_svc _ own _ P x sc' HI1 eq_refl) as [HI2 Hx2].
    { apply (is_scope_ext [] r ks); [done|set_solver|done]. }
    { intros p' ps'. simpl. rewrite lookup_insert_Some. intros [[<- <-]|[_ Hp']]; [done|].
      apply (is_scope_ext [] r ks (with_scopes r h) _ _ _ _ Hx1); [set_solver|by apply Hps]. }
    exists (ks ++ [KServicePeer x p]). split_and!.
    + apply (rinv_IncRef _ _ _ _ i HI2). by eapply is_scope_lt.
    + eapply ext_trans; [exact Hx1|]. eapply ext_trans; [exact Hx2|].
      apply (ext_shape [] (with_svc (with_scopes r h) (<[x := sc']> (svc r)))).
      apply shape_IncRef.
    + intros n Hn0 ?%Hsm; [|done]. eapply below_core; [symmetry; apply IncRef_core|done].
    + destruct Hi as [? ?]. split; [done|]. eapply dag_shape; [apply shape_IncRef|done].
Qed.
End lookups.

(** ** Moving a connection or stream scope to other edges *)

Lemma small_fits h u i usc sc :
  small h -> h !! u = Some usc -> h !! i = Some sc ->
  fits (rc usc) (fun f => statGet f (stat (rc sc))).
Proof.
  intros Hs Hu Hi. pose proof (fun f => Hs u usc f Hu) as Hu'. pose proof (fun f => Hs i sc f Hi) as Hi'.
  split_and!.
  - intros f. rewrite statGet_stat. specialize (Hu' f). specialize (Hi' f). int64_lia.
  - rewrite !statGet_stat. pose proof (Hu' FStreamsIn). pose proof (Hu' FStreamsOut).
    pose proof (Hi' FStreamsIn). pose proof (Hi' FStreamsOut). simpl in *. int64_lia.
  - rewrite !statGet_stat. pose proof (Hu' FConnsIn). pose proof (Hu' FConnsOut).
    pose proof (Hi' FConnsIn). pose proof (Hi' FConnsOut). simpl in *. int64_lia.
Qed.

(** [ReserveForChild] on an open scope: all or nothing. *)
Lemma ReserveForChild_cases h u st x :
  heap_wf h -> dag h u x ->
  match ReserveForChild h u st with
  | (h', Some _) => h' = h
  | (h', None) => h' = apply_rc (resf st) [u] h
                  /\ exists usc, h !! u = Some usc /\ snd (reserveStat (rc usc) st) = None
  end.
Proof.
  intros Hwf (usc & Hu & Hd & _). unfold ReserveForChild. rewrite Hu, Hd.
  pose proof (reserveStat_cases (rc usc) st (proj2 Hwf _ _ Hu)) as Hc.
  destruct (reserveStat (rc usc) st) as [r [e|]] eqn:Hr; simpl in *.
  - subst r. rewrite list_insert_id; [done|]. rewrite Hu. by destruct usc.
  - split; [|exists usc; by rewrite Hr]. unfold apply_rc. simpl.
    rewrite <- (insert_alter h u usc (fun sc => set_rc sc (resf st (rc sc)))) by done.
    unfold resf. by rewrite Hr.
Qed.

Lemma no_dag_child_kind r ks i k :
  tables r ks -> ks !! i = Some k -> container k = false -> no_dag_child (scopes r) i.
Proof.
  intros HT Hk Hc u usc Hu Hd Ho Hin.
  destruct (tb_edges _ _ HT u (edges usc)) as (_ & He & _); [by exists usc|].
  destruct (He i Hin) as (k' & x & [Hk' _] & Hc'). congruence.
Qed.

Lemma tables_retarget r ks i k es es' h1 :
  tables r ks -> shape h1 = shape (scopes r) -> is_scope (scopes r) ks i k es ->
  container k = false -> edges_ok r ks es' ->
  tables (with_scopes r (alter (to_edges es') i h1)) ks
  /\ ext [i] r ks (with_scopes r (alter (to_edges es') i h1)) ks.
Proof.
  intros HT Hsh [Hk Hd] Hc Hes'.
  assert (Hdag : forall t x, dag (alter (to_edges es') i h1) t x
                 <-> (t = i /\ x = es') \/ (t <> i /\ dag (scopes r) t x)).
  { intros t x. rewrite (dag_retarget h1 i es) by (by apply (dag_shape (scopes r))).
    by rewrite (dag_shape_iff h1 (scopes r)). }
  assert (Hsc : forall t k' x, is_scope (scopes r) ks t k' x -> container k' = true ->
                is_scope (alter (to_edges es') i h1) ks t k' x).
  { intros t k' x [Hk' Hd'] Hc'. split; [done|]. apply Hdag. right. split; [congruence|done]. }
  assert (Hed : forall x, edges_ok r ks x ->
    edges_ok (with_scopes r (alter (to_edges es') i h1)) ks x).
  { intros x (Hnd & He & Hp). split_and!; [done| |done].
    intros e (k' & y & ? & ?)%He. exists k', y. auto. }
  split.
  - destruct HT. split; simpl; auto.
    + rewrite length_alter. by rewrite (shape_length _ _ Hsh).
    + intros t x [[-> ->]|[_ Ht]]%Hdag; [by apply Hed|by eapply Hed, tb_edges0].
    + intros p pe (? & ?)%tb_peer0. auto.
    + intros x sc (? & ? & ?)%tb_proto0. split_and!; auto.
    + intros x sc (? & ? & ?)%tb_svc0. split_and!; auto.
  - split; try done; simpl.
    + intros t x Ht Hx. apply Hdag. right. set_solver.
    + intros t Ht. apply dead_alter; [done|]. by apply (dead_shape (scopes r)).
Qed.

(** The accounting and the references after the move; [h1] is the heap before
    the edges are replaced. *)
Lemma rinv_retarget r own ks P Q i k sc es es' A R h1 :
  rinv r own ks P -> small (scopes r) ->
  ks !! i = Some k -> container k = false ->
  scopes r !! i = Some sc -> dag (scopes r) i es -> edges_ok r ks es' ->
  NoDup A -> NoDup R ->
  (forall u, u ∈ A -> u ∉ es) -> (forall u, u ∈ R -> u ∈ es) ->
  (forall u, u ∈ es' <-> (u ∈ es /\ u ∉ R) \/ u ∈ A) ->
  (forall u, u ∈ A -> exists usc, scopes r !! u = Some usc
                      /\ snd (reserveStat (rc usc) (stat (rc sc))) = None) ->
  h1 ≃ moveStat (stat (rc sc)) A R (scopes r) -> refs_ok h1 Q ->
  (forall t, (length (scopes r) <= t)%nat -> Q t = 0) ->
  rinv (with_scopes r (alter (to_edges es') i h1)) own ks
    (fun t => Q t + (if decide (t ∈ es) then 1 else 0) - (if decide (t ∈ es') then 1 else 0))
  /\ ext [i] r ks (with_scopes r (alter (to_edges es') i h1)) ks.
Proof.
  intros HI Hsm Hk Hc Hl Hdag Hes' HA HR HAe HRe Heq Htk Hh1 HQ Hfr.
  destruct HI as [HInv Href HT Hfresh]. pose proof Hdag as (sc' & Hl' & Hd & Ho & Hedg).
  assert (sc' = sc) as -> by congruence.
  assert (Hsh : shape h1 = shape (scopes r)).
  { rewrite (core_eq_shape _ _ Hh1). apply moveStat_shape. }
  destruct (tables_retarget r ks i k es es' h1 HT Hsh) as [HT' Hx]; [done|done|done|].
  assert (Hdags : forall x e, edges_ok r ks x -> e ∈ x -> exists y, dag (scopes r) e y).
  { intros x e (_ & He & _) (k' & y & [_ ?] & _)%He. eauto. }
  split; [split; simpl|done].
  - assert (Hce : alter (to_edges es') i h1
      ≃ alter (to_edges es') i (moveStat (stat (rc sc)) A R (scopes r))).
    { apply core_eq_alter; [done|]. intros. simpl. split_and!; congruence. }
    rewrite Hce. apply Inv_retarget; try done; rewrite ?Hedg; try done.
    + by eapply no_dag_child_kind.
    + intros e. apply (Hdags es). by eapply tb_edges.
    + intros e. by apply Hdags.
    + apply Hes'.
    + intros Hin. destruct Hes' as (_ & He & _). destruct (He i Hin) as (k' & y & [? _] & ?). congruence.
    + intros u (usc & Hu & Hok)%Htk. exists usc. split_and!; [done|done|by eapply small_fits].
  - apply refs_ok_retarget; [by apply (dag_shape (scopes r))|done].
  - done.
  - intros t Ht. rewrite length_alter, (shape_length _ _ Hsh) in Ht. split; [|by apply Hfresh].
    assert (Hnot : forall x, edges_ok r ks x -> t ∉ x).
    { intros x (_ & He & _) (k' & y & Hs%is_scope_lt & _)%He. lia. }
    rewrite Hfr by done. rewrite !decide_False by (apply Hnot; eauto using tb_edges). done.
Qed.

(** ** Reservations of the users *)
Lemma add_cases op (laws : ResourceOpLaws op) r own ks P s :
  rinv r own ks P ->
  match add (chainFuel s) op (scopes r) s with
  | (h', None) => (s < length (scopes r))%nat /\ forallb (admits op (scopes r)) (path (scopes r) s) = true
                  /\ h' = apply_rc (addf op) (path (scopes r) s) (scopes r)
  | (h', Some _) => h' = scopes r
  end.
Proof.
  intros HI. pose proof (proj1 (ri_inv _ _ _ _ HI)) as [Hsw Hrc].
  destruct (scopes r !! s) as [sc|] eqn:Hl; [|by rewrite add_None].
  pose proof (add_path (chainFuel s) op laws (scopes r) s sc Hsw ltac:(unfold chainFuel; lia) Hl
    (fun t tsc _ => Hrc t tsc)) as Ha.
  destruct (add _ _ _ _) as [h' [e|]]; destruct Ha as [? ?]; [done|].
  split; [by eapply lookup_lt_Some|done].
Qed.

Lemma rinv_add op (laws : ResourceOpLaws op) r own ks P s h' :
  rinv r own ks P -> small (scopes r) -> (forall f, op_delta op f <= 2 ^ 60) ->
  add (chainFuel s) op (scopes r) s = (h', None) ->
  rinv (with_scopes r h') (credit own s (op_delta op)) ks P /\ ext [] r ks (with_scopes r h') ks
  /\ (s < length (scopes r))%nat /\ shape (scopes r) = shape h'.
Proof.
  intros HI Hsm Hd Ha. pose proof (add_cases op laws r own ks P s HI) as Hc. rewrite Ha in Hc.
  destruct Hc as (Hs & Hall & ->).
  assert (Hsh : shape (scopes r) = shape (apply_rc (addf op) (path (scopes r) s) (scopes r)))
    by (by rewrite shape_apply_rc).
  split_and!; [|by apply ext_shape|done|done]. destruct HI as [HInv Href HT Hfr]. split; simpl.
  - apply Inv_add; [done..|]. intros t tsc _ Ht. pose proof (fun f => Hsm t tsc f Ht) as Hf.
    split_and!.
    + intros f. specialize (Hf f). specialize (Hd f). int64_lia.
    + pose proof (Hf FStreamsIn). pose proof (Hf FStreamsOut).
      pose proof (Hd FStreamsIn). pose proof (Hd FStreamsOut). simpl in *. int64_lia.
    + pose proof (Hf FConnsIn). pose proof (Hf FConnsOut).
      pose proof (Hd FConnsIn). pose proof (Hd FConnsOut). simpl in *. int64_lia.
  - by apply refs_ok_apply_rc.
  - by apply tables_shape.
  - intros t Ht. rewrite <- (shape_length _ _ Hsh) in Ht. split; [by apply Hfr|].
    intros f. unfold credit. rewrite decide_False by lia. by apply Hfr.
Qed.

Lemma rinv_remove op (laws : ResourceOpLaws op) falls r own ks P s :
  rinv r own ks P -> (s < length (scopes r))%nat -> (forall f, op_delta op f <= own s f) ->
  rinv (with_scopes r (remove (chainFuel s) (op_rem op) falls (scopes r) s))
    (credit own s (fun f => - op_delta op f)) ks P
  /\ ext [] r ks (with_scopes r (remove (chainFuel s) (op_rem op) falls (scopes r) s)) ks.
Proof.
  intros [HInv Href HT Hfr] Hs Hd.
  rewrite remove_charge by (apply (proj1 (proj1 HInv)) || unfold chainFuel; lia).
  pose proof (shape_apply_rc (op_rem op) (charge (scopes r) s) (scopes r)) as Hsh. symmetry in Hsh.
  split; [split; simpl|by apply ext_shape].
  - apply (Inv_remove _ (op_delta op)); [by apply op_releases|done|done| |done].
    intros f. apply op_delta_nonneg.
  - by apply refs_ok_apply_rc.
  - by apply tables_shape.
  - intros t Ht. rewrite apply_rc_length in Ht. split; [by apply Hfr|].
    intros f. unfold credit. rewrite decide_False by lia. by apply Hfr.
Qed.

(** A span is no DAG scope: the tables do not see it. *)
Lemma rinv_BeginSpan r own ks P s h' t :
  rinv r own ks P -> BeginSpan (scopes r) s = (h', inr t) ->
  rinv (with_scopes r h') own (ks ++ [KSpan]) P /\ ext [] r ks (with_scopes r h') (ks ++ [KSpan]).
Proof.
  intros [HInv Href HT Hfr] Hb. pose proof (Inv_span _ _ _ _ _ HInv Hb) as HInv'.
  assert (Href' : refs_ok h' P).
  { eapply refs_ok_BeginSpan; [apply HInv|by apply Hfr|exact Hb|done]. }
  unfold BeginSpan in Hb. destruct (scopes r !! s) as [sc|] eqn:Hl; [|done].
  destruct (done sc) eqn:Hd; [done|]. cbn -[app insert] in Hb. unfold newResourceScopeSpan in Hb.
  set (g := fun sc => set_spanID (set_refCnt sc (add64 (refCnt sc) 1)) (add64 (spanID sc) 1)).
  change (set_spanID (set_refCnt sc (add64 (refCnt sc) 1)) (add64 (spanID sc) 1)) with (g sc) in Hb.
  rewrite (insert_alter _ s sc g) in Hb by done. injection Hb as <- <-.
  set (h1 := alter g s (scopes r)) in *.
  assert (Hsh : shape (scopes r) = shape h1) by (symmetry; by apply shape_alter).
  set (x := mkScope false 0 0 _ (Some s) [] _) in *.
  pose proof (tables_shape r ks h1 Hsh HT) as HT1.
  pose proof (shape_length _ _ Hsh) as Hlen.
  assert (Hdag : forall u es, dag (h1 ++ [x]) u es <-> dag h1 u es).
  { intros u es. rewrite dag_snoc. split; [intros [?|(_ & _ & ? & _)]; [done|discriminate]|by left]. }
  split; [split; simpl|].
  - eapply Inv_own_ext; [|exact HInv']. intros u f. unfold clear. case_decide; [|done].
    subst u. rewrite <- Hlen. symmetry. by apply Hfr.
  - done.
  - destruct HT1. simpl in *. split; simpl; try (by auto using is_scope_snoc).
    + rewrite !length_app. simpl. lia.
    + intros u es Hu%Hdag. apply (edges_ok_snoc (with_scopes r h1)); simpl; eauto.
    + intros p pe (? & ?)%tb_peer0. auto using is_scope_snoc.
    + intros y yc (? & ? & ?)%tb_proto0. split_and!; auto using is_scope_snoc.
    + intros y yc (? & ? & ?)%tb_svc0. split_and!; auto using is_scope_snoc.
  - intros u Hu. rewrite length_app in Hu. apply Hfr. lia.
  - split; simpl; try done; [by apply prefix_app_r| |].
    + intros u es _ Hu. apply Hdag. by apply (dag_shape (scopes r)).
    + intros u Hu. by apply dead_snoc, (dead_shape (scopes r)).
Qed.

(** ** Closing scopes *)
Lemma dag_Done h s t es : shape_wf h -> dag (Done h s) t es <-> t <> s /\ dag h t es.
Proof.
  intros Hwf. destruct (h !! s) as [sc|] eqn:Hl.
  2: { unfold Done. rewrite Hl. split; [|tauto]. intros Hd. split; [|done].
       intros ->. destruct Hd as (? & ? & _). congruence. }
  destruct (done sc) eqn:Hd.
  { unfold Done. rewrite Hl, Hd. split; [|tauto]. intros Hdag. split; [|done].
    intros ->. destruct Hdag as (? & ? & ? & _). congruence. }
  rewrite (dag_shape_iff _ (alter closeScope s h)) by (by eapply Done_shape). unfold dag.
  destruct (decide (t = s)) as [->|Hne].
  - rewrite list_lookup_alter_eq, Hl. simpl. naive_solver.
  - rewrite close_lookup_ne by done. tauto.
Qed.

Lemma dead_Done h s t : shape_wf h -> dead h t -> dead (Done h s) t.
Proof.
  intros Hwf Hdead. destruct (h !! s) as [sc|] eqn:Hl; [|unfold Done; by rewrite Hl].
  destruct (done sc) eqn:Hd; [unfold Done; by rewrite Hl, Hd|].
  eapply dead_shape; [symmetry; by eapply Done_shape|]. by apply dead_alter.
Qed.

Lemma Done_length h s : shape_wf h -> length (Done h s) = length h.
Proof.
  intros Hwf. destruct (h !! s) as [sc|] eqn:Hl; [|unfold Done; by rewrite Hl].
  destruct (done sc) eqn:Hd; [unfold Done; by rewrite Hl, Hd|].
  rewrite (shape_length _ _ (Done_shape h s sc Hwf Hl Hd)). apply length_alter.
Qed.

Lemma Inv_Done h own s : Inv h own -> no_dag_child h s -> Inv (Done h s) own.
Proof.
  intros HI Hn. destruct (h !! s) as [sc|] eqn:Hl; [|unfold Done; by rewrite Hl].
  destruct (done sc) eqn:Hd; [unfold Done; by rewrite Hl, Hd|]. by eapply Inv_done.
Qed.

(** Closing a scope that is on no open scope's edges and in no table. *)
Lemma rinv_Done r own ks P s :
  rinv r own ks P -> no_dag_child (scopes r) s ->
  (forall k es, is_scope (scopes r) ks s k es ->
     match k with
     | KConn | KStream | KSpan => True
     | KPeer p => forall pe, peer r !! p = Some pe -> pe_scope pe <> s
     | KProtocol x => forall sc, proto r !! x = Some sc -> pr_scope sc <> s
     | KProtocolPeer x p => forall sc, proto r !! x = Some sc -> pr_peers sc !! p <> Some s
     | KServicePeer x p => forall sc, svc r !! x = Some sc -> svc_peers sc !! p <> Some s
     | _ => False
     end) ->
  rinv (with_scopes r (Done (scopes r) s)) own ks P
  /\ ext [s] r ks (with_scopes r (Done (scopes r) s)) ks.
Proof.
  intros [HInv Href HT Hfr] Hnc Hk. pose proof (proj1 (proj1 HInv)) as Hwf.
  pose proof (fun t es => dag_Done (scopes r) s t es Hwf) as Hdag.
  assert (Hsc : forall t k es, t <> s -> is_scope (scopes r) ks t k es ->
    is_scope (Done (scopes r) s) ks t k es).
  { intros t k es Hts [? ?]. split; [done|]. by apply Hdag. }
  split; [split; simpl|].
  - by apply Inv_Done.
  - by apply refs_ok_Done.
  - destruct HT. split; simpl; try done.
    + by rewrite Done_length.
    + intros t es [Hts Ht]%Hdag. destruct (tb_edges0 t es Ht) as (Hnd & He & Hp).
      split_and!; [done| |done]. intros e Hin. destruct (He e Hin) as (k & y & ? & ?).
      exists k, y. split; [|done]. apply Hsc; [|done]. intros ->.
      destruct Ht as (tsc & ? & ? & ? & <-). by eapply Hnc.
    + apply Hsc; [|done]. intros Heq. rewrite Heq in *. by apply (Hk _ _ tb_system0).
    + apply Hsc; [|done]. intros Heq. rewrite Heq in *. by apply (Hk _ _ tb_transient0).
    + apply Hsc; [|done]. intros Heq. rewrite Heq in *. by apply (Hk _ _ tb_asystem0).
    + apply Hsc; [|done]. intros Heq. rewrite Heq in *. by apply (Hk _ _ tb_atransient0).
    + intros p pe Hpe. destruct (tb_peer0 p pe Hpe) as [? Hs]. split; [done|].
      apply Hsc; [|done]. intros Heq. rewrite Heq in Hs. by eapply (Hk _ _ Hs).
    + intros x sc Hx. destruct (tb_proto0 x sc Hx) as (? & Hs & Hps). split_and!; [done| |].
      * apply Hsc; [|done]. intros Heq. rewrite Heq in Hs. by eapply (Hk _ _ Hs).
      * intros p ps Hp. apply Hsc; [|by apply Hps]. intros ->. by eapply (Hk _ _ (Hps _ _ Hp)).
    + intros x sc Hx. destruct (tb_svc0 x sc Hx) as (? & Hs & Hps). split_and!; [done| |].
      * apply Hsc; [|done]. intros Heq. rewrite Heq in Hs. by eapply (Hk _ _ Hs).
      * intros p ps Hp. apply Hsc; [|by apply Hps]. intros ->. by eapply (Hk _ _ (Hps _ _ Hp)).
  - intros t Ht. rewrite Done_length in Ht by done. by apply Hfr.
  - split; try done; simpl.
    + intros t es Ht Hd. apply Hdag. set_solver.
    + intros t. by apply dead_Done.
Qed.

(** The scopes of connections, streams and spans. *)
Lemma rinv_Done_user r own ks P s k :
  rinv r own ks P -> ks !! s = Some k -> container k = false ->
  rinv (with_scopes r (Done (scopes r) s)) own ks P
  /\ ext [s] r ks (with_scopes r (Done (scopes r) s)) ks.
Proof.
  intros HI Hk Hc. apply rinv_Done; [done|eapply no_dag_child_kind; eauto using ri_tables|].
  intros k' es [Hk' _]. assert (k' = k) as -> by congruence. by destruct k.
Qed.
