(* ===== verification/RcmgrOps.v ===== *)
(** * Operations of the resource manager on scopes

    The specification of [OpenStream], [openConnection], [SetPeer],
    [SetProtocol], [SetService] and [Done] of rcmgr.go against the invariant of
    RcmgrInv.v: each keeps it, and says what the object holds afterwards. *)
From Stdlib Require Import ZArith Lia.
From stdpp Require Import base tactics sets list numbers option strings pretty gmap.
From S2P Require Import Prelude Limits Resources Scope Ledger ConnLimiter Rcmgr Retarget RefCount RcmgrInv.
Local Open Scope Z_scope.
Import Int64.

(** ** Edge lists by kinds *)
Lemma kinds_NoDup (ks : list kind) (l : list (nat * kind)) :
  NoDup (l.*2) -> (forall a k, (a, k) ∈ l -> ks !! a = Some k) -> NoDup (l.*1).
Proof.
  induction l as [|[a k] l IH]; intros Hnd Hk; [constructor|]. simpl in *.
  apply NoDup_cons in Hnd as [Hnot Hnd]. constructor.
  - intros ([b k'] & Heq & Hin)%list_elem_of_fmap. simpl in Heq. subst b.
    assert (k' = k) as ->.
    { pose proof (Hk a k ltac:(set_solver)). pose proof (Hk a k' ltac:(set_solver)). congruence. }
    apply Hnot, list_elem_of_fmap. by exists (a, k).
  - apply IH; [done|]. intros. apply Hk. set_solver.
Qed.

Lemma edges_ok_kinds r ks (l : list (nat * kind)) :
  NoDup (l.*2) ->
  Forall (fun '(a, k) => (exists x, is_scope (scopes r) ks a k x) /\ container k = true
     /\ forall p, peerOf k = Some p -> exists pe, peer r !! p = Some pe /\ pe_scope pe ∈ l.*1) l ->
  edges_ok r ks (l.*1).
Proof.
  intros Hnd Hall. rewrite Forall_forall in Hall.
  assert (Hk : forall a k, (a, k) ∈ l -> ks !! a = Some k).
  { intros a k Hin. destruct (Hall _ Hin) as ((x & ? & _) & _). done. }
  split_and!.
  - by eapply kinds_NoDup.
  - intros e ([a k] & -> & Hin)%list_elem_of_fmap. destruct (Hall _ Hin) as ((x & Hs) & Hc & _).
    exists k, x. done.
  - intros e k p ([a k0] & -> & Hin)%list_elem_of_fmap Hke Hp. simpl in Hke.
    rewrite (Hk _ _ Hin) in Hke. injection Hke as ->. destruct (Hall _ Hin) as (_ & _ & Hpe). eauto.
Qed.

(** Equations between reference tallies. *)
Ltac refs_cases :=
  unfold bump;
  repeat match goal with |- context [decide ?Q] => destruct (decide Q) end;
  first [lia | exfalso; set_solver].
Ltac refs_eq := let t := fresh "t" in intros t; refs_cases.

Lemma relf_resf st r :
  rc_wf r -> snd (reserveStat r st) = None -> relf st (resf st r) = r.
Proof.
  intros Hwf Hok. pose proof (reserveStat_cases r st Hwf) as Hc. unfold relf, resf.
  destruct (reserveStat r st) as [r' e]. simpl in *. subst e. destruct Hc as [Hl Hg].
  apply resources_ext; [done|]. intros f. rewrite releaseStat_get, Hg. apply clamp0_undo, Hwf.
Qed.

Lemma ReleaseForChild_dag h u st x : dag h u x -> ReleaseForChild h u st = apply_rc (relf st) [u] h.
Proof.
  intros Hd. unfold ReleaseForChild. rewrite removeForChild_live, (dag_live _ _ _ Hd). done.
Qed.

Lemma apply_rc_core f l h h' : h ≃ h' -> apply_rc f l h ≃ apply_rc f l h'.
Proof.
  revert h h'. induction l as [|t l IH]; intros h h' Hc; [done|]. rewrite !apply_rc_cons.
  apply IH, core_eq_alter; [done|]. simpl. intros. split_and!; congruence.
Qed.

(** Reserving in a scope and releasing there again. *)
Lemma reserve_release_core h u usc st :
  heap_wf h -> h !! u = Some usc -> snd (reserveStat (rc usc) st) = None ->
  apply_rc (relf st) [u] (apply_rc (resf st) [u] h) = h.
Proof.
  intros Hwf Hu Hok. unfold apply_rc. simpl. apply list_eq. intros i.
  destruct (decide (i = u)) as [->|]; [|by rewrite !list_lookup_alter_ne].
  rewrite !list_lookup_alter_eq, Hu. simpl. f_equal.
  rewrite relf_resf by (done || by eapply (proj2 Hwf)). by destruct usc.
Qed.

Lemma dag_apply_rc f l h u x : dag h u x -> dag (apply_rc f l h) u x.
Proof. apply dag_shape. by rewrite shape_apply_rc. Qed.

(** The fields of the manager that no scope invariant mentions. *)
Lemma rinv_with_ids r own ks P a b : rinv r own ks P -> rinv (with_ids r a b) own ks P.
Proof. by intros [? ? [] ?]. Qed.

Lemma rinv_with_climiter r own ks P c : rinv r own ks P -> rinv (with_climiter r c) own ks P.
Proof. by intros [? ? [] ?]. Qed.

(** ** Connections *)
Section conns.
Context {Endpoint : Type} (peerString : string -> string) (al : AllowlistView Endpoint).
Abbreviation conn := (connectionScope Endpoint).

Definition connSystem (r : resourceManager) (c : conn) : nat :=
  if isAllowlisted c then allowlistedSystem r else system r.
Definition connTransient (r : resourceManager) (c : conn) : nat :=
  if isAllowlisted c then allowlistedTransient r else transient r.

(** The edges of a connection: the peer and system scopes once the peer is
    known, the transient and system scopes before; none after
    [transferAllowedToStandard] failed. *)
Definition conn_edges (r : resourceManager) (c : conn) (es : list nat) : Prop :=
  match cs_peer c with
  | Some pe => es = [pe_scope pe; connSystem r c] /\ peer r !! peerID pe = Some pe
  | None => es = [] \/ es ≡ₚ [connTransient r c; connSystem r c]
  end.

Definition conn_ok (r : resourceManager) (ks : list kind) (c : conn) : Prop :=
  ks !! cs_scope c = Some KConn /\ exists es, dag (scopes r) (cs_scope c) es /\ conn_edges r c es.

Lemma conn_ok_ext X r ks r' ks' (c : conn) :
  ext X r ks r' ks' -> cs_scope c ∉ X -> conn_ok r ks c -> conn_ok r' ks' c.
Proof.
  intros Hext Hx (Hk & es & Hd & He). split; [eapply prefix_lookup_Some; eauto using ex_kinds|].
  exists es. split; [by eapply ex_dag|]. unfold conn_edges, connSystem, connTransient in *.
  pose proof (ex_base _ _ _ _ _ Hext) as Hb. injection Hb as -> -> -> ->.
  destruct (cs_peer c); [|done]. destruct He. eauto using ex_peer.
Qed.

Lemma attachPeer_spec r own ks P (c : conn) sys tr ksys ktr xs xt es p r' c' err :
  rinv r own ks P -> small (scopes r) ->
  is_scope (scopes r) ks (cs_scope c) KConn es -> es ≡ₚ [tr; sys] ->
  is_scope (scopes r) ks sys ksys xs -> is_scope (scopes r) ks tr ktr xt ->
  (ksys, ktr) = (KSystem, KTransient) \/ (ksys, ktr) = (KAllowSystem, KAllowTransient) ->
  attachPeer peerString r c sys tr p = (r', c', err) ->
  exists ks', rinv r' own ks' P /\ ext [cs_scope c] r ks r' ks' /\
  match err with
  | Some _ => c' = set_cs_peer c None /\ dag (scopes r') (cs_scope c) es
  | None => exists pe, peer r' !! p = Some pe /\ peerID pe = p /\ c' = set_cs_peer c (Some pe)
                       /\ dag (scopes r') (cs_scope c) [pe_scope pe; sys]
  end.
Proof.
  intros HI Hsm Hi Hes Hsys Htr Hkk. unfold attachPeer.
  destruct (getPeerScope peerString r p) as [r1 pe] eqn:Hg.
  destruct (getPeerScope_spec _ _ _ _ _ _ _ _ HI Hg) as (ks1 & HI1 & Hx1 & Hsm1 & Hpe).
  specialize (Hsm1 (2 ^ 61 - 1) ltac:(lia) Hsm).
  apply (is_scope_ext _ _ _ _ _ _ _ _ Hx1) in Hi, Hsys, Htr; [|set_solver..].
  destruct (tb_peer _ _ (ri_tables _ _ _ _ HI1) p pe Hpe) as [Hpid Hpsc].
  pose proof Hi as [Hik Hid]. pose proof Hid as (sc & Hl & _).
  unfold Stat. rewrite Hl. cbn [fmap option_fmap option_map from_option id].
  pose proof (ReserveForChild_cases (scopes r1) (pe_scope pe) (stat (rc sc)) _
    (proj1 (ri_inv _ _ _ _ HI1)) (proj2 Hpsc)) as Hres.
  destruct (ReserveForChild _ _ _) as [h [e|]].
  - subst h. intros [= <- <- <-]. exists ks1. split_and!.
    + eapply rinv_ext; [|apply rinv_DecRef; [exact HI1|by eapply is_scope_lt]]. refs_eq.
    + eapply ext_weaken; [|eapply ext_trans; [exact Hx1|apply ext_shape, shape_DecRef]]. set_solver.
    + done.
    + eapply dag_shape; [apply shape_DecRef|done].
  - intros [= <- <- <-]. destruct Hres as [-> (usc & Hu & Hok)].
    assert (Hne : pe_scope pe <> sys /\ pe_scope pe <> tr /\ sys <> tr).
    { destruct Hpsc as [? _], Hsys as [? _], Htr as [? _]. destruct Hkk; simplify_eq; split_and!;
        intros ?; congruence. }
    destruct Hne as (Hps & Hpt & Hst).
    assert (Hmem : forall u, u ∈ es <-> u = tr \/ u = sys) by (intros u; rewrite Hes; set_solver).
    rewrite (ReleaseForChild_dag _ tr _ xt) by (by apply dag_apply_rc, Htr).
    set (h1 := apply_rc (relf (stat (rc sc))) [tr] (apply_rc (resf (stat (rc sc))) [pe_scope pe] (scopes r1))).
    destruct (rinv_retarget r1 own ks1 _ (bump (bump P (pe_scope pe) 1) tr (-1)) (cs_scope c) KConn sc
      es [pe_scope pe; sys] [pe_scope pe] [tr] (DecRef h1 tr) HI1 Hsm1) as [HI2 Hx2]; try done.
    + apply (edges_ok_kinds r1 ks1 [(pe_scope pe, KPeer p); (sys, ksys)]).
      * apply NoDup_cons. split; [|apply NoDup_singleton].
        rewrite list_elem_of_singleton. destruct Hkk; naive_solver.
      * repeat constructor; eauto; simpl; try done; destruct Hkk; naive_solver.
    + apply NoDup_singleton.
    + apply NoDup_singleton.
    + intros u ->%list_elem_of_singleton. rewrite Hes. set_solver.
    + intros u ->%list_elem_of_singleton. rewrite Hes. set_solver.
    + intros u. rewrite Hes. rewrite !elem_of_cons, !elem_of_nil. naive_solver.
    + intros u ->%list_elem_of_singleton. eauto.
    + apply DecRef_core.
    + apply refs_ok_DecRef, refs_ok_apply_rc, refs_ok_apply_rc, HI1.
    + intros t Ht. unfold bump at 1. rewrite (proj1 (ri_fresh _ _ _ _ HI1 t Ht)), decide_False; [done|].
      apply is_scope_lt in Htr. lia.
    + exists ks1. split_and!; [|by eapply ext_trans; [eapply ext_weaken; [|exact Hx1]; set_solver|exact Hx2]|].
      * eapply rinv_ext; [|exact HI2]. intros t. specialize (Hmem t). refs_cases.
      * exists pe. split_and!; try done. apply (dag_retarget _ _ es); [|by left].
        eapply dag_shape; [apply shape_DecRef|]. by apply dag_apply_rc, dag_apply_rc.
Qed.

(** *** Leaving the allowlisted scopes *)
Lemma drop_edges_core st es h h' :
  h ≃ h' -> (forall e, e ∈ es -> exists x, dag h' e x) ->
  fold_left (fun h e => DecRef (ReleaseForChild h e st) e) es h ≃ apply_rc (relf st) es h'.
Proof.
  revert h h'. induction es as [|e es IH]; intros h h' Hc He; [done|].
  cbn [fold_left]. rewrite apply_rc_cons.
  destruct (He e ltac:(set_solver)) as [x Hx]. apply IH.
  - rewrite DecRef_core. transitivity (ReleaseForChild h' e st); [by apply removeForChild_core|].
    rewrite (ReleaseForChild_dag _ _ _ x) by done. done.
  - intros e' He'. destruct (He e' ltac:(set_solver)) as [y Hy]. exists y.
    by apply (dag_apply_rc (relf st) [e]).
Qed.

Lemma below_release n st l h :
  NoDup l -> heap_wf h -> (forall f, 0 <= statGet f st <= MaxInt64) -> below n h ->
  below n (apply_rc (relf st) l h).
Proof.
  intros Hnd Hwf Hst Hs u usc f. revert u usc.
  apply (apply_rc_forall (fun r => get f r <= n)); [done|intros; by eapply Hs|].
  intros s sc _ Hl. pose proof (Hs s sc f Hl).
  pose proof (releases_le _ _ (rc sc) f (stat_releases st) (proj2 Hwf _ _ Hl) (Hst f)) as Hle.
  unfold relf. cbv beta in Hle. lia.
Qed.

Lemma below_to_edges n es i h : below n h -> below n (alter (to_edges es) i h).
Proof.
  intros Hs u usc f Hu. destruct (decide (u = i)) as [->|].
  - rewrite list_lookup_alter_eq in Hu. apply fmap_Some in Hu as (x & Hx & ->). exact (Hs _ _ f Hx).
  - rewrite list_lookup_alter_ne in Hu by done. by eapply Hs.
Qed.

Lemma detach_spec r own ks P i sc es h0 :
  rinv r own ks P -> small (scopes r) -> is_scope (scopes r) ks i KConn es ->
  scopes r !! i = Some sc ->
  h0 = fold_left (fun h e => DecRef (ReleaseForChild h e (stat (rc sc))) e) es (scopes r) ->
  rinv (with_scopes r (alter (to_edges []) i h0)) own ks P
  /\ ext [i] r ks (with_scopes r (alter (to_edges []) i h0)) ks
  /\ dag (alter (to_edges []) i h0) i []
  /\ (forall n, below n (scopes r) -> below n (alter (to_edges []) i h0))
  /\ exists sc1, alter (to_edges []) i h0 !! i = Some sc1 /\ rc sc1 = rc sc.
Proof.
  intros HI Hsm [Hk Hd] Hl Hh0. pose proof (ri_tables _ _ _ _ HI) as HT.
  destruct (tb_edges _ _ HT i es Hd) as (Hnd & He & Hp).
  assert (Hcore : h0 ≃ moveStat (stat (rc sc)) [] es (scopes r)).
  { subst h0. apply drop_edges_core; [done|]. intros e (k & x & [_ ?] & _)%He. eauto. }
  assert (Href : refs_ok h0 (fun t => P t - if decide (t ∈ es) then 1 else 0)).
  { subst h0. apply refs_ok_drop_edges; [done|apply HI]. }
  destruct (rinv_retarget r own ks P (fun t => P t - if decide (t ∈ es) then 1 else 0)
    i KConn sc es [] [] es h0 HI Hsm Hk eq_refl Hl Hd
    (edges_ok_nil r ks)) as [HI1 Hx1]; try exact Hcore; try exact Href; try done.
  - constructor.
  - intros u. set_solver.
  - intros u. set_solver.
  - set_solver.
  - intros t Ht. rewrite (proj1 (ri_fresh _ _ _ _ HI t Ht)), decide_False; [done|].
    intros (k & x & Hs%is_scope_lt & _)%He. lia.
  - split_and!.
    + eapply rinv_ext; [|exact HI1]. refs_eq.
    + done.
    + apply (dag_retarget _ _ es); [|by left]. apply (dag_shape (scopes r)); [|done].
      rewrite (core_eq_shape _ _ Hcore). by rewrite moveStat_shape.
    + intros n Hn. apply below_to_edges. eapply below_core; [symmetry; exact Hcore|].
      apply below_release; [done|apply HI| |done]. intros f. apply stat_nonneg.
      eapply (proj2 (proj1 (ri_inv _ _ _ _ HI))), Hl.
    + assert (Hie : i ∉ es).
      { intros (k & x & [? _] & ?)%He. simplify_eq. }
      assert (Hl1 : moveStat (stat (rc sc)) [] es (scopes r) !! i = Some sc).
      { unfold moveStat. by rewrite apply_rc_notin. }
      symmetry in Hcore. destruct (core_eq_lookup _ _ _ _ Hcore Hl1) as (sc1 & Hl2 & _ & _ & _ & Hr).
      rewrite list_lookup_alter_eq, Hl2. eexists. split; [done|]. done.
Qed.

(** Reserving in several scopes at most doubles a bound on the counters. *)
Lemma reserve_below h own st A :
  Inv h own -> below (2 ^ 60 - 1) h -> (forall f, statGet f st <= 2 ^ 60 - 1) ->
  (forall f, 0 <= statGet f st <= MaxInt64) -> (forall u, u ∈ A -> takes h st u) -> NoDup A ->
  small (apply_rc (resf st) A h).
Proof.
  intros HI Hb Hst Hnn Ht Hnd u usc f. rewrite apply_rc_lookup by done. case_decide as Hu.
  - intros (sc & Hl & ->)%fmap_Some. cbn [rc set_rc].
    rewrite (resf_get h own u sc st f HI (Ht u Hu) (fun f => proj1 (Hnn f)) Hl).
    specialize (Hb u sc f Hl). specialize (Hst f). lia.
  - intros Hl. specialize (Hb u usc f Hl). lia.
Qed.

Lemma transferAllowedToStandard_spec r own ks P (c : conn) es r' err :
  rinv r own ks P -> below (2 ^ 60 - 1) (scopes r) ->
  is_scope (scopes r) ks (cs_scope c) KConn es ->
  transferAllowedToStandard r c = (r', err) ->
  rinv r' own ks P /\ ext [cs_scope c] r ks r' ks /\ small (scopes r')
  /\ dag (scopes r') (cs_scope c) (if err then [] else [system r; transient r]).
Proof.
  intros HI Hhalf Hi. pose proof (proj2 Hi) as (sc & Hl & Hd & _ & He).
  assert (Hsm : small (scopes r)) by (intros u usc f Hu; specialize (Hhalf u usc f Hu); lia).
  unfold transferAllowedToStandard, Stat. rewrite Hl. cbn [fmap option_fmap option_map from_option id].
  rewrite He. remember (fold_left _ es (scopes r)) as h0 eqn:Hh0.
  destruct (detach_spec r own ks P (cs_scope c) sc es h0 HI Hsm Hi Hl Hh0)
    as (HI1 & Hx1 & Hd1 & Hb1 & sc1 & Hl1 & Hrc).
  pose proof (Hb1 _ Hsm) as Hsm1. pose proof (Hb1 _ Hhalf) as Hhalf1.
  change (fun sc0 : resourceScope => set_edges sc0 []) with (to_edges []).
  remember (with_scopes r (alter (to_edges []) (cs_scope c) h0)) as r1 eqn:Hr1.
  pose proof (ri_tables _ _ _ _ HI1) as HT1.
  assert (Hsys : is_scope (scopes r1) ks (system r) KSystem []) by (subst r1; apply HT1).
  assert (Htr : is_scope (scopes r1) ks (transient r) KTransient [system r]) by (subst r1; apply HT1).
  assert (Hws : forall h, with_scopes r h = with_scopes r1 h) by (by subst r1).
  assert (Hs1 : alter (to_edges []) (cs_scope c) h0 = scopes r1) by (by subst r1).
  clear Hr1. rewrite Hs1 in *. rewrite <- Hrc.
  pose proof (ReserveForChild_cases (scopes r1) (system r) (stat (rc sc1)) _
    (proj1 (ri_inv _ _ _ _ HI1)) (proj2 Hsys)) as Hres1.
  destruct (ReserveForChild _ _ _) as [h1 [e|]].
  { subst h1. rewrite Hws, with_scopes_id. intros [= <- <-]. done. }
  destruct Hres1 as (-> & us & Hus & Hoks).
  set (st := stat (rc sc1)) in *. set (h1 := apply_rc (resf st) [system r] (scopes r1)).
  assert (Hst : system r <> transient r).
  { destruct Hsys as [? _], Htr as [? _]. congruence. }
  assert (Hwf1 : heap_wf h1).
  { split; [eapply shape_wf_shape; [symmetry; apply shape_apply_rc|apply HI1]|]. red.
    apply (apply_rc_forall rc_wf); [apply NoDup_singleton|apply HI1|].
    intros u usc ->%list_elem_of_singleton Hu.
    eapply (resf_ok (scopes r1) own); [apply HI1| |intros f; apply stat_nonneg|done].
    - exists us. split_and!; [done|done|]. by eapply small_fits.
    - eapply (proj2 (proj1 (ri_inv _ _ _ _ HI1))), Hl1. }
  assert (Htr1 : dag (IncRef h1 (system r)) (transient r) [system r]).
  { eapply dag_shape; [apply shape_IncRef|]. apply dag_apply_rc, Htr. }
  assert (Htl : exists ut, scopes r1 !! transient r = Some ut
                /\ IncRef h1 (system r) !! transient r = Some ut).
  { destruct (proj2 Htr) as (ut & Hut & _). exists ut. split; [done|].
    unfold IncRef. rewrite list_lookup_alter_ne by done. unfold h1.
    rewrite apply_rc_notin; [done|]. set_solver. }
  destruct Htl as (ut & Hut & Hut1).
  pose proof (ReserveForChild_cases (IncRef h1 (system r)) (transient r) st _
    ltac:(rewrite IncRef_core; exact Hwf1) Htr1) as Hres2.
  destruct (ReserveForChild _ (transient r) st) as [h2 [e|]].
  - subst h2. intros [= <- <-].
    assert (Hd1' : dag (IncRef h1 (system r)) (system r) []).
    { eapply dag_shape; [apply shape_IncRef|]. apply dag_apply_rc, Hsys. }
    rewrite (ReleaseForChild_dag _ _ _ _ Hd1').
    set (h3 := DecRef (apply_rc (relf st) [system r] (IncRef h1 (system r))) (system r)).
    assert (Hc3 : h3 ≃ scopes r1).
    { unfold h3. rewrite DecRef_core. transitivity (apply_rc (relf st) [system r] h1).
      - apply apply_rc_core, IncRef_core.
      - unfold h1. rewrite (reserve_release_core _ _ us); [done|apply HI1|done|done]. }
    assert (HI3 : rinv (with_scopes r1 h3) own ks P).
    { eapply rinv_core; [done|done| |].
      - eapply refs_ok_ext; [|apply refs_ok_DecRef, refs_ok_apply_rc, refs_ok_IncRef, refs_ok_apply_rc, HI1].
        refs_eq.
      - intros t Ht. by apply (ri_fresh _ _ _ _ HI1). }
    assert (Hsh3 : shape (scopes r1) = shape h3) by (symmetry; by apply core_eq_shape).
    rewrite Hws. split_and!; [done| | |].
    + eapply ext_trans; [exact Hx1|by apply ext_shape].
    + eapply below_core; [symmetry; exact Hc3|done].
    + simpl. by apply (dag_shape (scopes r1)).
  - destruct Hres2 as (Hh2 & ut' & Hut' & Hokt). assert (ut' = ut) as -> by congruence.
    intros [= <- <-]. rewrite Hws.
    destruct (rinv_retarget r1 own ks P (bump (bump P (system r) 1) (transient r) 1) (cs_scope c) KConn
      sc1 [] [system r; transient r] [system r; transient r] [] (IncRef h2 (transient r)) HI1 Hsm1)
      as [HI2 Hx2]; try done.
    + apply Hi.
    + apply (edges_ok_kinds r1 ks [(system r, KSystem); (transient r, KTransient)]).
      * apply NoDup_cons. split; [|apply NoDup_singleton]. by rewrite list_elem_of_singleton.
      * repeat constructor; eauto; done.
    + apply NoDup_cons. split; [|apply NoDup_singleton]. by rewrite list_elem_of_singleton.
    + constructor.
    + set_solver.
    + intros u. set_solver.
    + intros u [->|Hu]%elem_of_cons; [|apply list_elem_of_singleton in Hu as ->]; eauto.
    + rewrite IncRef_core, Hh2. transitivity (apply_rc (resf st) [transient r] h1);
        [apply apply_rc_core, IncRef_core|done].
    + rewrite Hh2. apply refs_ok_IncRef, refs_ok_apply_rc, refs_ok_IncRef, refs_ok_apply_rc, HI1.
    + intros t Ht. unfold bump. rewrite (proj1 (ri_fresh _ _ _ _ HI1 t Ht)).
      apply is_scope_lt in Hsys, Htr. rewrite !decide_False by lia. done.
    + split_and!.
      * eapply rinv_ext; [|exact HI2]. refs_eq.
      * by eapply ext_trans.
      * simpl. apply below_to_edges. rewrite Hh2.
        eapply below_core; [symmetry; rewrite IncRef_core; apply apply_rc_core, IncRef_core|].
        apply (reserve_below (scopes r1) own st [system r; transient r]); [apply HI1|done| | | |].
        -- intros f. pose proof (Hhalf1 _ _ f Hl1). unfold st. by rewrite statGet_stat.
        -- intros f. apply stat_nonneg. eapply (proj2 (proj1 (ri_inv _ _ _ _ HI1))), Hl1.
        -- intros u [->|Hu]%elem_of_cons; [|apply list_elem_of_singleton in Hu as ->];
             eexists; (split_and!; [done|done|by eapply small_fits]).
        -- apply NoDup_cons. split; [|apply NoDup_singleton]. by rewrite list_elem_of_singleton.
      * simpl. apply (dag_retarget _ _ []); [|by left]. rewrite Hh2.
        do 2 (eapply dag_shape; [apply shape_IncRef|]; apply dag_apply_rc). done.
Qed.
(** *** SetPeer *)
Lemma conn_scopes r ks (c : conn) :
  tables r ks -> exists ksys ktr xs xt,
  is_scope (scopes r) ks (connSystem r c) ksys xs /\ is_scope (scopes r) ks (connTransient r c) ktr xt
  /\ ((ksys, ktr) = (KSystem, KTransient) \/ (ksys, ktr) = (KAllowSystem, KAllowTransient)).
Proof.
  intros []. unfold connSystem, connTransient.
  destruct (isAllowlisted c); do 4 eexists; (split_and!; [done|done|]); auto.
Qed.

(** [c] has not lost its edges to a failed [transferAllowedToStandard]. *)
Definition attached (r : resourceManager) (c : conn) : Prop := ~ dag (scopes r) (cs_scope c) [].

(** The fields of a connection object that [SetPeer] does not touch. *)
Definition same_conn (c c' : conn) : Prop :=
  cs_scope c' = cs_scope c /\ cs_ip c' = cs_ip c /\ cs_dir c' = cs_dir c /\ cs_usefd c' = cs_usefd c.

Lemma attachPeer_ok r own ks P (c : conn) es p r' c' err :
  rinv r own ks P -> small (scopes r) -> is_scope (scopes r) ks (cs_scope c) KConn es ->
  es ≡ₚ [connTransient r c; connSystem r c] ->
  attachPeer peerString r c (connSystem r c) (connTransient r c) p = (r', c', err) ->
  exists ks', rinv r' own ks' P /\ ext [cs_scope c] r ks r' ks' /\ conn_ok r' ks' c'
    /\ same_conn c c'.
Proof.
  intros HI Hsm Hi Hes Ha.
  destruct (conn_scopes r ks c (ri_tables _ _ _ _ HI)) as (ksys & ktr & xs & xt & Hs & Ht & Hkk).
  destruct (attachPeer_spec _ _ _ _ _ _ _ _ _ _ _ _ _ _ _ _ HI Hsm Hi Hes Hs Ht Hkk Ha)
    as (ks' & HI' & Hx & Herr).
  assert (Hk' : ks' !! cs_scope c = Some KConn)
    by (eapply prefix_lookup_Some; [apply Hi|apply (ex_kinds _ _ _ _ _ Hx)]).
  pose proof (ex_base _ _ _ _ _ Hx) as Hb. injection Hb as Hb1 Hb2 Hb3 Hb4.
  exists ks'. split; [done|split; [done|]]. destruct err.
  - destruct Herr as (-> & Hd). split_and!; try done. split; [done|]. exists es. split; [done|].
    unfold conn_edges, connSystem, connTransient in *. simpl. rewrite Hb1, Hb2, Hb3, Hb4. by right.
  - destruct Herr as (pe & Hpe & Hid & -> & Hd). split_and!; try done. split; [done|].
    eexists. split; [exact Hd|]. unfold conn_edges, connSystem in *. simpl. rewrite Hb1, Hb3, Hid. done.
Qed.

Lemma SetPeer_spec r own ks P (c : conn) p r' c' err :
  rinv r own ks P -> below (2 ^ 60 - 1) (scopes r) -> conn_ok r ks c -> attached r c ->
  SetPeer peerString al r c p = (r', c', err) ->
  exists ks', rinv r' own ks' P /\ ext [cs_scope c] r ks r' ks' /\ conn_ok r' ks' c'
    /\ same_conn c c'.
Proof.
  intros HI Hb Hc Hatt. pose proof Hc as (Hk & es & Hd & Hes). unfold SetPeer.
  assert (Hsm : small (scopes r)) by (intros u usc f Hu; specialize (Hb u usc f Hu); lia).
  unfold conn_edges in Hes. destruct (cs_peer c) as [pe|] eqn:Hcp.
  { intros [= <- <- <-]. exists ks. split_and!; done. }
  destruct Hes as [->|Hes]; [by destruct Hatt|]. assert (Hi : is_scope (scopes r) ks (cs_scope c) KConn es) by done.
  destruct (isAllowlisted c) eqn:Hal.
  2: { intros Ha. eapply (attachPeer_ok r own ks P c es); eauto.
       unfold connSystem, connTransient. by rewrite Hal. }
  destruct (AllowedPeerAndMultiaddr al p (endpoint c)); simpl.
  { intros Ha. eapply (attachPeer_ok r own ks P c es); eauto.
    unfold connSystem, connTransient. by rewrite Hal. }
  set (c1 := set_isAllowlisted c false). destruct (transferAllowedToStandard r c1) as [r1 e] eqn:Ht.
  destruct (transferAllowedToStandard_spec r own ks P c1 es r1 e HI Hb Hi Ht) as (HI1 & Hx1 & Hsm1 & Hd1).
  pose proof (ex_base _ _ _ _ _ Hx1) as Hbase. injection Hbase as Hb1 Hb2 Hb3 Hb4. destruct e as [e|].
  - intros [= <- <- <-]. exists ks. split_and!; try done. split; [done|]. exists []. split; [done|].
    unfold conn_edges. simpl. rewrite Hcp. by left.
  - intros Ha. destruct (attachPeer_ok r1 own ks P c1 [system r; transient r] p r' c' err HI1 Hsm1)
      as (ks' & ? & Hx2 & ? & ?).
    + by split.
    + unfold connSystem, connTransient. simpl. rewrite Hb1, Hb2. apply Permutation_swap.
    + done.
    + exists ks'. split_and!; try done. by eapply ext_trans.
Qed.

(** *** Opening and closing *)
Lemma edges_ok_conn r ks (c : conn) :
  tables r ks -> edges_ok r ks [connTransient r c; connSystem r c].
Proof.
  intros HT. destruct (conn_scopes r ks c HT) as (ksys & ktr & xs & xt & Hs & Ht & Hkk).
  apply (edges_ok_kinds r ks [(connTransient r c, ktr); (connSystem r c, ksys)]).
  - apply NoDup_cons. split; [|apply NoDup_singleton].
    rewrite list_elem_of_singleton. destruct Hkk; naive_solver.
  - repeat constructor; eauto; destruct Hkk; naive_solver.
Qed.

(** The limiter forgets the address of a connection that is closed. *)
Definition validIP (ip : Addr) : list Addr := if IsValid ip then [ip] else [].

Lemma below_Done n h s : 0 <= n -> heap_wf h -> below n h -> below n (Done h s).
Proof.
  intros Hn Hwf Hb. destruct (h !! s) as [sc|] eqn:Hl; [|unfold Done; by rewrite Hl].
  destruct (done sc) eqn:Hd; [unfold Done; by rewrite Hl, Hd|].
  eapply below_core; [symmetry; by apply Done_core, Hd; [apply Hwf|]|].
  assert (Hnd : NoDup (charge_tail h sc)).
  { pose proof (charge_NoDup h s (proj1 Hwf)) as Hnd.
    rewrite (charge_unfold h s sc), Hd in Hnd by (apply Hwf || done). by apply NoDup_cons in Hnd as [_ Hnd]. }
  pose proof (below_release n (stat (rc sc)) (charge_tail h sc) h Hnd Hwf
    (fun f => stat_nonneg _ f (proj2 Hwf _ _ Hl)) Hb) as Hb'.
  intros u usc f Hu. destruct (decide (u = s)) as [->|].
  - rewrite list_lookup_alter_eq in Hu. apply fmap_Some in Hu as (x & _ & ->). destruct f; simpl; lia.
  - rewrite close_lookup_ne in Hu by done. by eapply Hb'.
Qed.

Lemma Done_dead h s : shape_wf h -> (s < length h)%nat -> dead (Done h s) s.
Proof.
  intros Hwf Hs. destruct (lookup_lt_is_Some_2 h s Hs) as [sc Hl].
  destruct (done sc) eqn:Hd; [unfold Done; rewrite Hl, Hd; by exists sc|].
  eapply dead_shape; [symmetry; by eapply Done_shape|].
  exists (closeScope sc). by rewrite list_lookup_alter_eq, Hl.
Qed.

Lemma connDone_spec r own ks P (c : conn) adm :
  rinv r own ks P -> ks !! cs_scope c = Some KConn -> live (scopes r) (cs_scope c) = true ->
  limiter_inv (climiter r) (validIP (cs_ip c) ++ adm) -> Z.of_nat (length adm) < MaxInt64 ->
  exists r', connDone r c = Some r' /\ rinv r' own ks P /\ ext [cs_scope c] r ks r' ks
    /\ limiter_inv (climiter r') adm /\ (forall n, 0 <= n -> below n (scopes r) -> below n (scopes r'))
    /\ dead (scopes r') (cs_scope c).
Proof.
  intros HI Hk Hlv Hlim Hlen. unfold connDone. unfold live in Hlv.
  destruct (scopes r !! cs_scope c) as [sc|] eqn:Hl; [|done].
  destruct (done sc) eqn:Hd; [done|].
  destruct (rinv_Done_user r own ks P (cs_scope c) KConn HI Hk eq_refl) as [HI' Hx'].
  pose proof (fun n Hn => below_Done n (scopes r) (cs_scope c) Hn (proj1 (ri_inv _ _ _ _ HI))) as Hb.
  pose proof (Done_dead (scopes r) (cs_scope c) (proj1 (proj1 (ri_inv _ _ _ _ HI)))
    (lookup_lt_Some _ _ _ Hl)) as Hdd.
  unfold validIP in Hlim. destruct (IsValid (cs_ip c)).
  - destruct (rmConn_spec (climiter r) (cs_ip c :: adm) adm (cs_ip c) Hlim) as (cl & -> & _ & Hcl);
      [done|done|]. cbn. eexists. split_and!; [reflexivity| | |done|done|done].
    + apply (rinv_with_climiter _ _ _ _ cl HI').
    + by destruct Hx'.
  - cbn. by eexists.
Qed.

Lemma ext_trans_new r ks r1 k1 r2 k2 i :
  ext [] r ks r1 k1 -> ext [i] r1 k1 r2 k2 -> (length (scopes r) <= i)%nat -> ext [] r ks r2 k2.
Proof.
  intros H1 H2 Hi. split.
  - etrans; [apply H1|apply H2].
  - etrans; [apply H2|apply H1].
  - etrans; [apply H2|apply H1].
  - intros t es _ Hd. apply (ex_dag _ _ _ _ _ H2); [|apply (ex_dag _ _ _ _ _ H1); [set_solver|done]].
    destruct Hd as (tsc & Ht%lookup_lt_Some & _). rewrite list_elem_of_singleton. lia.
  - intros t Hd. by apply (ex_dead _ _ _ _ _ H2), (ex_dead _ _ _ _ _ H1).
  - intros p pe Hp. by eapply (ex_peer _ _ _ _ _ H2), (ex_peer _ _ _ _ _ H1).
Qed.

Lemma newResourceScope_index h l es nm h' s :
  newResourceScope h l es nm = (h', s) -> s = length h.
Proof.
  unfold newResourceScope. intros Hn. assert (Hs : s = length (fold_left IncRef es h)) by congruence.
  rewrite Hs. apply shape_length. apply core_eq_shape, fold_IncRef_core.
Qed.

(** A new connection scope, allowlisted or not. *)
Lemma new_conn_spec r own ks P (c0 : conn) l id h i :
  rinv r own ks P -> limit_wf l ->
  newResourceScope (scopes r) l [connTransient r c0; connSystem r c0] (connScopeName id) = (h, i) ->
  let r1 := with_scopes (with_ids r id (streamId r)) h in
  rinv r1 own (ks ++ [KConn]) P /\ ext [] r ks r1 (ks ++ [KConn])
  /\ is_scope h (ks ++ [KConn]) i KConn [connTransient r c0; connSystem r c0]
  /\ (forall n, 0 <= n -> below n (scopes r) -> below n h) /\ i = length (scopes r).
Proof.
  intros HI Hlw Hn r1. pose proof (ri_tables _ _ _ _ HI) as HT.
  destruct (rinv_new r own ks P l _ _ KConn h i HI Hn Hlw (edges_ok_conn r ks c0 HT))
    as (HI1 & Hx1 & Hi & Hb). split_and!; [|by destruct Hx1|done|done|].
  - apply (rinv_with_ids (with_scopes r h) own (ks ++ [KConn]) P id (streamId r) HI1).
  - by eapply newResourceScope_index.
Qed.

(** [AddConn] on the new scope: charged, or nothing happened. *)
Lemma AddConn_new r own ks P i dir usefd h err :
  rinv r own ks P -> small (scopes r) -> AddConn (scopes r) i dir usefd = (h, err) ->
  match err with
  | Some _ => h = scopes r
  | None => rinv (with_scopes r h) (credit own i (op_delta (connOp dir usefd))) ks P
            /\ ext [] r ks (with_scopes r h) ks /\ shape (scopes r) = shape h
  end.
Proof.
  intros HI Hsm Ha. destruct err.
  - pose proof (add_cases (connOp dir usefd) _ r own ks P i HI) as Hc.
    unfold AddConn in Ha. by rewrite Ha in Hc.
  - destruct (rinv_add (connOp dir usefd) _ r own ks P i h HI Hsm) as (? & ? & _ & ?); [|done|done].
    intros f. destruct f; simpl; destruct (isInbound dir), usefd; simpl; lia.
Qed.

Definition opened (r : resourceManager) (own : ledger) (ks : list kind) (P : nat -> Z)
    (adm : list Addr) (dir : Direction) (usefd : bool) (r' : resourceManager)
    (res : rm_error + conn) : Prop :=
  exists ks', ext [] r ks r' ks' /\
  match res with
  | inl _ => rinv r' own ks' P /\ limiter_inv (climiter r') adm
  | inr c =>
      rinv r' (credit own (cs_scope c) (op_delta (connOp dir usefd))) ks' P
      /\ conn_ok r' ks' c /\ cs_peer c = None /\ attached r' c
      /\ (length (scopes r) <= cs_scope c)%nat /\ cs_dir c = dir /\ cs_usefd c = usefd
      /\ limiter_inv (climiter r') (validIP (cs_ip c) ++ adm)
  end.

(** The end of [openConnection], for a connection scope that was just created. *)
Lemma finish_open r0 k0 r own ks P adm (c : conn) dir usefd h err :
  ext [] r0 k0 r ks -> (length (scopes r0) <= cs_scope c)%nat ->
  rinv r own ks P -> small (scopes r) ->
  is_scope (scopes r) ks (cs_scope c) KConn [connTransient r c; connSystem r c] ->
  cs_peer c = None -> cs_dir c = dir -> cs_usefd c = usefd ->
  limiter_inv (climiter r) (validIP (cs_ip c) ++ adm) ->
  Z.of_nat (length adm) < MaxInt64 -> AddConn (scopes r) (cs_scope c) dir usefd = (h, err) ->
  exists r' res,
    match err with
    | Some e => r ← connDone (with_scopes r h) c; Some (r, inl (ErrScope e))
    | None => Some (with_scopes r h, inr c)
    end = Some (r', res) /\ opened r0 own k0 P adm dir usefd r' res.
Proof.
  intros Hx0 Hlen HI Hsm Hi Hp Hdir Hfd Hlim Hadm Ha.
  pose proof (AddConn_new r own ks P _ dir usefd h err HI Hsm Ha) as Hn. destruct err as [e|].
  - subst h. rewrite with_scopes_id.
    destruct (connDone_spec r own ks P c adm HI (proj1 Hi) (dag_live _ _ _ (proj2 Hi)) Hlim Hadm)
      as (r' & -> & HI' & Hx' & Hlim' & _). cbn. eexists _, _. split; [done|].
    exists ks. split; [by eapply ext_trans_new|done].
  - destruct Hn as (HI' & Hx' & Hsh). eexists _, _. split; [done|]. exists ks.
    assert (Hd' : dag h (cs_scope c) [connTransient r c; connSystem r c])
      by (eapply dag_shape; [done|apply Hi]).
    split_and!; try done; [by eapply ext_trans| |].
    + split; [apply Hi|]. eexists. split; [exact Hd'|]. unfold conn_edges. rewrite Hp. by right.
    + intros Hd. by pose proof (dag_fun _ _ _ _ Hd Hd').
Qed.

Lemma attachConnection_spec r own ks P adm dir usefd ep ip :
  rinv r own ks P -> below (2 ^ 60 - 1) (scopes r) ->
  limiter_inv (climiter r) (validIP ip ++ adm) -> Z.of_nat (length adm) < MaxInt64 ->
  exists r' res, attachConnection al r dir usefd ep ip = Some (r', res)
                 /\ opened r own ks P adm dir usefd r' res.
Proof.
  intros HI Hb Hlim Hadm. pose proof (tb_limits _ _ (ri_tables _ _ _ _ HI)) as Hlw.
  assert (Hlc : limit_wf (GetConnLimits (limits r))) by apply Hlw.
  unfold attachConnection, newConnectionScope, nextConnId. cbn [limits scopes with_ids].
  set (id := add64 (connId r) 1).
  destruct (newResourceScope (scopes r) _ _ _) as [h i] eqn:Hn.
  set (c0 := mkConnectionScope Endpoint i dir usefd false None ep ip).
  destruct (new_conn_spec r own ks P c0 _ id h i HI Hlc Hn) as (HI1 & Hx1 & Hi & Hb1 & Hil).
  set (r1 := with_scopes (with_ids r id (streamId r)) h) in *.
  assert (Hsm1 : small (scopes r1)).
  { pose proof (Hb1 (2 ^ 60 - 1) ltac:(lia) Hb) as Hb1'. intros u usc f Hu.
    specialize (Hb1' u usc f Hu). lia. }
  destruct (AddConn (scopes r1) (cs_scope c0) dir usefd) as [h1 err] eqn:Ha.
  assert (Hfin : exists r' res,
    match err with
    | Some e => r ← connDone (with_scopes r1 h1) c0; Some (r, inl (ErrScope e))
    | None => Some (with_scopes r1 h1, inr c0)
    end = Some (r', res) /\ opened r own ks P adm dir usefd r' res).
  { eapply (finish_open r ks r1 own (ks ++ [KConn])); eauto. simpl. lia. }
  destruct err as [e|]; [|exact Hfin].
  destruct (IsValid ip && Allowed al ep) eqn:Hal; [|exact Hfin].
  pose proof (AddConn_new r1 own _ P _ dir usefd h1 _ HI1 Hsm1 Ha) as Hh1. simpl in Hh1. subst h1.
  change (with_scopes r1 h) with r1.
  destruct (connDone_spec r1 own _ P c0 adm HI1 (proj1 Hi) (dag_live _ _ _ (proj2 Hi)) Hlim Hadm)
    as (r2 & -> & HI2 & Hx2 & Hlim2 & Hb2 & _). cbn [mbind option_bind].
  unfold newAllowListedConnectionScope, nextConnId. cbn [limits scopes with_ids].
  set (id2 := add64 (connId r2) 1).
  destruct (newResourceScope (scopes r2) _ _ _) as [h2 i2] eqn:Hn2.
  set (c2 := mkConnectionScope Endpoint i2 dir usefd true None ep AddrInvalid).
  assert (Hlc2 : limit_wf (GetConnLimits (limits r2))).
  { rewrite (ex_limits _ _ _ _ _ Hx2), (ex_limits _ _ _ _ _ Hx1). done. }
  destruct (new_conn_spec r2 own _ P c2 _ id2 h2 i2 HI2 Hlc2 Hn2) as (HI3 & Hx3 & Hi2 & Hb3 & Hil2).
  set (r3 := with_scopes (with_ids r2 id2 (streamId r2)) h2) in *.
  assert (Hsm3 : small (scopes r3)) by (apply Hb3, Hb2; [lia|lia|done]).
  destruct (AddConn (scopes r3) (cs_scope c2) dir usefd) as [h3 err3] eqn:Ha3.
  assert (Hx03 : ext [] r ks r3 ((ks ++ [KConn]) ++ [KConn])).
  { eapply ext_trans; [|exact Hx3]. eapply ext_trans_new; [exact Hx1|exact Hx2|simpl; lia]. }
  eapply (finish_open r ks r3 own _ P adm c2); eauto. simpl.
  rewrite Hil2, <- (tb_len _ _ (ri_tables _ _ _ _ HI2)), <- (tb_len _ _ (ri_tables _ _ _ _ HI)).
  rewrite length_app. lia.
Qed.

Lemma openConnection_spec rateOk r own ks P adm dir usefd ep ip :
  rinv r own ks P -> below (2 ^ 60 - 1) (scopes r) -> limiter_inv (climiter r) adm ->
  Z.of_nat (length adm) < MaxInt64 ->
  exists r' res, openConnection al rateOk r dir usefd ep ip = Some (r', res)
                 /\ opened r own ks P adm dir usefd r' res.
Proof.
  intros HI Hb Hlim Hadm. unfold openConnection. destruct rateOk; simpl.
  2: { eexists _, _. split; [done|]. exists ks. split; [apply ext_refl|done]. }
  destruct (IsValid ip) eqn:Hv.
  2: { apply attachConnection_spec; try done. unfold validIP. by rewrite Hv. }
  destruct (addConn_spec (climiter r) adm ip Hlim Hadm) as (cl & ok & -> & _ & _ & Hcl).
  cbn [mbind option_bind].
  pose proof (rinv_with_climiter r own ks P cl HI) as HI1. destruct ok; cbn [negb].
  - destruct (attachConnection_spec (with_climiter r cl) own ks P adm dir usefd ep ip HI1 Hb)
      as (r' & res & -> & (ks' & Hx & Hres)); [unfold validIP; by rewrite Hv|done|].
    eexists _, _. split; [done|]. exists ks'. split; [by destruct Hx|done].
  - eexists _, _. split; [done|]. exists ks. split; [|done]. by split.
Qed.
End conns.

(** ** Streams *)
Section streams.
Context (peerString : string -> string).

(** The edges of a stream: peer, transient and system scopes, then the
    protocol's instead of the transient scope, then the service's in addition. *)
Definition stream_edges (r : resourceManager) (ks : list kind) (s : streamScope) (es : list nat) : Prop :=
  match ss_proto s, peerProtoScope s, ss_svc s, peerSvcScope s with
  | None, _, None, _ => es = [pe_scope (ss_peer s); transient r; system r]
  | Some pr, Some pps, None, _ =>
      es = [pe_scope (ss_peer s); pps; pr_scope pr; system r]
      /\ ks !! pps = Some (KProtocolPeer (protoID pr) (peerID (ss_peer s)))
      /\ ks !! pr_scope pr = Some (KProtocol (protoID pr))
  | Some pr, Some pps, Some sv, Some sps =>
      es = [pe_scope (ss_peer s); pps; sps; pr_scope pr; svc_scope sv; system r]
  | _, _, _, _ => False
  end.

Definition stream_ok (r : resourceManager) (ks : list kind) (s : streamScope) : Prop :=
  ks !! ss_scope s = Some KStream /\ peer r !! peerID (ss_peer s) = Some (ss_peer s)
  /\ exists es, dag (scopes r) (ss_scope s) es /\ stream_edges r ks s es.

Lemma stream_ok_ext X r ks r' ks' s :
  ext X r ks r' ks' -> ss_scope s ∉ X -> stream_ok r ks s -> stream_ok r' ks' s.
Proof.
  intros Hext Hx (Hk & Hp & es & Hd & He). pose proof (ex_kinds _ _ _ _ _ Hext) as Hks.
  split_and!; [by eapply prefix_lookup_Some|by eapply ex_peer|].
  exists es. split; [by eapply ex_dag|]. unfold stream_edges in *.
  pose proof (ex_base _ _ _ _ _ Hext) as Hb. injection Hb as -> -> _ _.
  destruct (ss_proto s), (peerProtoScope s), (ss_svc s), (peerSvcScope s); try done;
    destruct He as (-> & ? & ?); (split_and!; [done|by eapply prefix_lookup_Some..]).
Qed.

Lemma getPeerScope_climiter r p r' pe :
  getPeerScope peerString r p = (r', pe) -> climiter r' = climiter r.
Proof.
  unfold getPeerScope, newPeerScope. destruct (peer r !! p); [by intros [= <- _]|].
  destruct (newResourceScope _ _ _ _). by intros [= <- _].
Qed.

Lemma edges_ok_stream r ks pe p :
  tables r ks -> peer r !! p = Some pe -> edges_ok r ks [pe_scope pe; transient r; system r].
Proof.
  intros HT Hpe. destruct (tb_peer _ _ HT p pe Hpe) as [_ Hp].
  pose proof (tb_system _ _ HT). pose proof (tb_transient _ _ HT).
  apply (edges_ok_kinds r ks [(pe_scope pe, KPeer p); (transient r, KTransient); (system r, KSystem)]).
  - repeat (apply NoDup_cons; split; [set_solver|]). constructor.
  - repeat constructor; eauto; done.
Qed.

Lemma OpenStream_spec r own ks P p dir r' res :
  rinv r own ks P -> below (2 ^ 60 - 1) (scopes r) -> OpenStream peerString r p dir = (r', res) ->
  exists ks', ext [] r ks r' ks' /\ climiter r' = climiter r /\
  match res with
  | inl _ => rinv r' own ks' P
  | inr s => rinv r' (credit own (ss_scope s) (op_delta (streamOp dir))) ks' P
             /\ stream_ok r' ks' s /\ (length (scopes r) <= ss_scope s)%nat /\ ss_dir s = dir
  end.
Proof.
  intros HI Hb. unfold OpenStream.
  destruct (getPeerScope peerString r p) as [r1 pe] eqn:Hg.
  destruct (getPeerScope_spec _ _ _ _ _ _ _ _ HI Hg) as (ks1 & HI1 & Hx1 & Hb1 & Hpe).
  pose proof (getPeerScope_climiter _ _ _ _ Hg) as Hcl.
  destruct (tb_peer _ _ (ri_tables _ _ _ _ HI1) p pe Hpe) as [Hpid Hpsc].
  pose proof (ri_tables _ _ _ _ HI1) as HT1.
  unfold newStreamScope, nextStreamId. cbn [limits scopes with_ids].
  set (id := add64 (streamId r1) 1).
  destruct (newResourceScope (scopes r1) _ _ _) as [h i] eqn:Hn.
  destruct (rinv_new r1 own ks1 _ _ _ _ KStream h i HI1 Hn) as (HI2 & Hx2 & Hi & Hb2);
    [apply HT1|exact (edges_ok_stream r1 ks1 pe p HT1 Hpe)|].
  set (ks2 := ks1 ++ [KStream]) in *. cbn [ss_scope with_scopes scopes].
  set (r3 := with_scopes (with_scopes (with_ids r1 (connId r1) id) h) (DecRef h (pe_scope pe))).
  assert (HI3 : rinv r3 own ks2 P).
  { apply (rinv_with_ids (with_scopes (with_scopes r1 h) (DecRef h (pe_scope pe))) _ _ _ (connId r1) id).
    eapply rinv_ext; [|apply (rinv_DecRef _ _ _ _ (pe_scope pe) HI2)].
    - intros t. unfold bump. destruct (decide _); lia.
    - eapply (is_scope_lt _ ks2 _ (KPeer p)), (is_scope_ext _ _ _ _ _ _ _ _ Hx2); [set_solver|done]. }
  assert (Hx3 : ext [] r ks r3 ks2).
  { eapply ext_trans; [exact Hx1|]. eapply ext_trans; [exact Hx2|].
    pose proof (ext_shape [] (with_scopes r1 h) ks2 _ (shape_DecRef h (pe_scope pe))) as Hx.
    by destruct Hx. }
  assert (Hsm3 : small (scopes r3)).
  { eapply below_core; [symmetry; apply DecRef_core|]. apply Hb2, Hb1; [lia|lia|].
    intros u usc f Hu. specialize (Hb u usc f Hu). lia. }
  assert (Hi3 : is_scope (scopes r3) ks2 i KStream [pe_scope pe; transient r1; system r1]).
  { split; [apply Hi|]. eapply dag_shape; [apply shape_DecRef|apply Hi]. }
  assert (Hil : (length (scopes r) <= i)%nat).
  { rewrite (newResourceScope_index _ _ _ _ _ _ Hn), <- (tb_len _ _ (ri_tables _ _ _ _ HI)),
      <- (tb_len _ _ HT1). apply prefix_length. apply (ex_kinds _ _ _ _ _ Hx1). }
  change (DecRef h (pe_scope pe)) with (scopes r3).
  pose proof (add_cases (streamOp dir) _ r3 own ks2 P i HI3) as Hc. unfold AddStream.
  destruct (add (chainFuel i) (streamOp dir) (scopes r3) i) as [h4 [e|]] eqn:Ha.
  - subst h4. intros [= <- <-]. exists ks2.
    destruct (rinv_Done_user r3 own ks2 P i KStream HI3 (proj1 Hi) eq_refl) as [HI4 Hx4].
    split_and!; [by eapply ext_trans_new|done|done].
  - intros [= <- <-]. destruct (rinv_add (streamOp dir) _ r3 own ks2 P i h4 HI3 Hsm3)
      as (HI4 & Hx4 & _ & Hsh); [|done|].
    { intros f. simpl. destruct (isInbound dir); case_decide; lia. }
    exists ks2. split_and!; [by eapply ext_trans|done|exact HI4| |done|done].
    split_and!; [apply Hi|simpl; by rewrite Hpid|].
    eexists. split; [eapply dag_shape; [exact Hsh|apply Hi3]|]. done.
Qed.

(** *** Reserving while a scope is looked up

    [SetProtocol] and [SetService] look the per-peer scope up after reserving in
    the protocol's or service's scope; the two steps commute. *)
Lemma IncRef_apply_rc g u h s : IncRef (apply_rc g [u] h) s = apply_rc g [u] (IncRef h s).
Proof.
  unfold IncRef, apply_rc. simpl. apply list_eq. intros i.
  destruct (decide (i = s)) as [->|], (decide (s = u)) as [->|];
    repeat first [rewrite list_lookup_alter_eq|rewrite list_lookup_alter_ne by congruence];
    try done; [by destruct (h !! u)|].
  destruct (decide (i = u)) as [->|];
    repeat first [rewrite list_lookup_alter_eq|rewrite list_lookup_alter_ne by congruence]; done.
Qed.

Lemma apply_rc_snoc g u h x : (u < length h)%nat -> apply_rc g [u] h ++ [x] = apply_rc g [u] (h ++ [x]).
Proof.
  intros Hu. unfold apply_rc. simpl. apply list_eq. intros i.
  destruct (decide (i < length h)%nat) as [Hi|Hi].
  - rewrite lookup_app_l by (by rewrite length_alter). destruct (decide (i = u)) as [->|].
    + rewrite !list_lookup_alter_eq, lookup_app_l by done. done.
    + rewrite !list_lookup_alter_ne, lookup_app_l by done. done.
  - rewrite lookup_app_r, length_alter by (rewrite length_alter; lia).
    rewrite list_lookup_alter_ne by lia. by rewrite lookup_app_r by lia.
Qed.

Lemma name_apply_rc g u (h : heap) i : name <$> apply_rc g [u] h !! i = name <$> h !! i.
Proof.
  unfold apply_rc. simpl. destruct (decide (i = u)) as [->|]; [|by rewrite list_lookup_alter_ne].
  rewrite list_lookup_alter_eq. by destruct (h !! u).
Qed.

Lemma protocolGetPeerScope_comm g u r sc p r' ps :
  (u < length (scopes r))%nat -> protocolGetPeerScope peerString r sc p = (r', ps) ->
  protocolGetPeerScope peerString (with_scopes r (apply_rc g [u] (scopes r))) sc p
  = (with_scopes r' (apply_rc g [u] (scopes r')), ps).
Proof.
  intros Hu. unfold protocolGetPeerScope. cbn [proto with_scopes scopes limits].
  destruct (pr_peers _ !! p); [intros [= <- <-]; by rewrite IncRef_apply_rc|].
  rewrite name_apply_rc. unfold newResourceScope. cbn [fold_left]. intros [= <- <-].
  rewrite apply_rc_length, apply_rc_snoc, IncRef_apply_rc by done. done.
Qed.

Lemma serviceGetPeerScope_comm g u r sc p r' ps :
  (u < length (scopes r))%nat -> serviceGetPeerScope peerString r sc p = (r', ps) ->
  serviceGetPeerScope peerString (with_scopes r (apply_rc g [u] (scopes r))) sc p
  = (with_scopes r' (apply_rc g [u] (scopes r')), ps).
Proof.
  intros Hu. unfold serviceGetPeerScope. cbn [svc with_scopes scopes limits].
  destruct (svc_peers _ !! p); [intros [= <- <-]; by rewrite IncRef_apply_rc|].
  rewrite name_apply_rc. unfold newResourceScope. cbn [fold_left]. intros [= <- <-].
  rewrite apply_rc_length, apply_rc_snoc, IncRef_apply_rc by done. done.
Qed.

(** Looking scopes up changes no counter. *)
Definition keeps_rc (h h' : heap) : Prop :=
  forall i sc, h !! i = Some sc -> exists sc', h' !! i = Some sc' /\ rc sc' = rc sc.

Lemma keeps_rc_core h h' : h ≃ h' -> keeps_rc h h'.
Proof. intros Hc i sc Hi. destruct (core_eq_lookup _ _ _ _ Hc Hi) as (sc' & ? & _ & _ & _ & ?). eauto. Qed.

Lemma keeps_rc_IncRef_snoc h x s : keeps_rc h (IncRef (h ++ [x]) s).
Proof.
  intros i sc Hi. apply (keeps_rc_core (h ++ [x])); [symmetry; apply IncRef_core|].
  by apply lookup_app_l_Some.
Qed.

Lemma keeps_rc_trans h1 h2 h3 : keeps_rc h1 h2 -> keeps_rc h2 h3 -> keeps_rc h1 h3.
Proof.
  intros H1 H2 i sc Hi. destruct (H1 i sc Hi) as (sc1 & Hi1 & <-). destruct (H2 i sc1 Hi1) as (sc2 & ? & ?).
  eauto.
Qed.

Lemma keeps_rc_IncRef_new h l es nm h' i s :
  newResourceScope h l es nm = (h', i) -> keeps_rc h (IncRef h' s).
Proof.
  unfold newResourceScope. intros [= <- _]. eapply keeps_rc_trans; [|apply keeps_rc_IncRef_snoc].
  apply keeps_rc_core. symmetry. apply fold_IncRef_core.
Qed.

Lemma getProtocolScope_rc r x r' sc :
  getProtocolScope r x = (r', sc) -> keeps_rc (scopes r) (scopes r').
Proof.
  unfold getProtocolScope, newProtocolScope. destruct (proto r !! x).
  - intros [= <- <-]. apply keeps_rc_core. symmetry. apply IncRef_core.
  - destruct (newResourceScope _ _ _ _) as [h i] eqn:Hn. intros [= <- <-]. by eapply keeps_rc_IncRef_new.
Qed.

Lemma getServiceScope_rc r x r' sc :
  getServiceScope r x = (r', sc) -> keeps_rc (scopes r) (scopes r').
Proof.
  unfold getServiceScope, newServiceScope. destruct (svc r !! x).
  - intros [= <- <-]. apply keeps_rc_core. symmetry. apply IncRef_core.
  - destruct (newResourceScope _ _ _ _) as [h i] eqn:Hn. intros [= <- <-]. by eapply keeps_rc_IncRef_new.
Qed.

Lemma protocolGetPeerScope_rc r sc p r' ps :
  protocolGetPeerScope peerString r sc p = (r', ps) -> keeps_rc (scopes r) (scopes r').
Proof.
  unfold protocolGetPeerScope. destruct (pr_peers _ !! p).
  - intros [= <- <-]. apply keeps_rc_core. symmetry. apply IncRef_core.
  - unfold newResourceScope. cbn [fold_left]. intros [= <- <-]. apply keeps_rc_IncRef_snoc.
Qed.

Lemma serviceGetPeerScope_rc r sc p r' ps :
  serviceGetPeerScope peerString r sc p = (r', ps) -> keeps_rc (scopes r) (scopes r').
Proof.
  unfold serviceGetPeerScope. destruct (svc_peers _ !! p).
  - intros [= <- <-]. apply keeps_rc_core. symmetry. apply IncRef_core.
  - unfold newResourceScope. cbn [fold_left]. intros [= <- <-]. apply keeps_rc_IncRef_snoc.
Qed.

Lemma reserve_wf h own st u :
  Inv h own -> takes h st u -> (forall f, 0 <= statGet f st) -> heap_wf (apply_rc (resf st) [u] h).
Proof.
  intros HI Ht Hst. split; [eapply shape_wf_shape; [symmetry; apply shape_apply_rc|apply HI]|]. red.
  apply (apply_rc_forall rc_wf); [apply NoDup_singleton|apply HI|].
  intros t tsc ->%list_elem_of_singleton Hl. by eapply resf_ok.
Qed.

(** The common part of [SetProtocol] and [SetService], from the state [r] in
    which the scopes [a] (of the protocol or service) and [b] (its per-peer
    scope) were looked up: both are reserved, the scopes [R] released and the
    edges replaced; or [b] refuses and [a] is released again. *)
Lemma move_stream r own ks P i sc es es' a b R xa xb :
  rinv r own ks (bump (bump P a 1) b 1) -> small (scopes r) ->
  is_scope (scopes r) ks i KStream es -> scopes r !! i = Some sc ->
  dag (scopes r) a xa -> dag (scopes r) b xb -> a <> b -> a ∉ es -> b ∉ es ->
  takes (scopes r) (stat (rc sc)) a ->
  edges_ok r ks es' -> NoDup R -> (forall u, u ∈ R -> u ∈ es) ->
  (forall u, u ∈ es' <-> (u ∈ es /\ u ∉ R) \/ u ∈ [a; b]) ->
  let ha := apply_rc (resf (stat (rc sc))) [a] (scopes r) in
  match ReserveForChild ha b (stat (rc sc)) with
  | (h, Some _) =>
      let h' := DecRef (DecRef (ReleaseForChild h a (stat (rc sc))) a) b in
      rinv (with_scopes r h') own ks P /\ h' ≃ scopes r
  | (h, None) =>
      let h' := fold_left (fun h e => DecRef (ReleaseForChild h e (stat (rc sc))) e) R h in
      rinv (with_scopes r (alter (to_edges es') i h')) own ks P
      /\ ext [i] r ks (with_scopes r (alter (to_edges es') i h')) ks
      /\ dag (alter (to_edges es') i h') i es'
  end.
Proof.
  intros HI Hsm Hi Hl Ha Hb Hab Hae Hbe Hta Hes' HR HRe Heq ha.
  set (st := stat (rc sc)) in *.
  assert (Hst : forall f, 0 <= statGet f st).
  { intros f. apply stat_nonneg. eapply (proj2 (proj1 (ri_inv _ _ _ _ HI))), Hl. }
  assert (Hwf : heap_wf ha) by (eapply reserve_wf; [apply HI|done|done]).
  destruct Hta as (asc & Hla & Hoka & _).
  pose proof (ReserveForChild_cases ha b st xb Hwf (dag_apply_rc _ _ _ _ _ Hb)) as Hres.
  destruct (ReserveForChild ha b st) as [h [e|]].
  - subst h. cbn zeta. rewrite (ReleaseForChild_dag _ _ _ xa) by (by apply dag_apply_rc).
    set (h' := DecRef (DecRef (apply_rc (relf st) [a] ha) a) b).
    assert (Hc : h' ≃ scopes r).
    { unfold h'. rewrite !DecRef_core. unfold ha.
      rewrite (reserve_release_core _ _ asc); [done|apply HI|done|done]. }
    split; [|done]. eapply rinv_core; [exact HI|done| |].
    + eapply refs_ok_ext; [|apply refs_ok_DecRef, refs_ok_DecRef, refs_ok_apply_rc, refs_ok_apply_rc, HI].
      intros t. unfold bump. repeat destruct (decide _); subst; done || lia.
    + intros t Ht. pose proof (proj1 (ri_fresh _ _ _ _ HI t Ht)) as Hz. unfold bump in Hz.
      destruct Ha as (? & ?%lookup_lt_Some & _), Hb as (? & ?%lookup_lt_Some & _).
      rewrite !decide_False in Hz by lia. lia.
  - destruct Hres as [-> (bsc & Hlb & Hokb)]. cbn zeta. unfold ha in Hlb.
    rewrite apply_rc_notin in Hlb by set_solver.
    set (h' := fold_left (fun h e => DecRef (ReleaseForChild h e st) e) R _).
    assert (Hc : h' ≃ moveStat st [a; b] R (scopes r)).
    { apply drop_edges_core; [done|]. intros e He%HRe.
      destruct (tb_edges _ _ (ri_tables _ _ _ _ HI) i es (proj2 Hi)) as (_ & Hed & _).
      destruct (Hed e He) as (k & x & [_ Hx] & _). exists x. by apply dag_apply_rc. }
    destruct (rinv_retarget r own ks _
      (fun t => bump (bump P a 1) b 1 t - if decide (t ∈ R) then 1 else 0)
      i KStream sc es es' [a; b] R h' HI Hsm (proj1 Hi) eq_refl Hl (proj2 Hi) Hes') as [HI' Hx]; try done.
    + apply NoDup_cons. split; [set_solver|apply NoDup_singleton].
    + set_solver.
    + intros u [->|Hu]%elem_of_cons; [eauto|]. apply list_elem_of_singleton in Hu as ->. eauto.
    + apply refs_ok_drop_edges; [done|]. apply refs_ok_apply_rc, refs_ok_apply_rc, HI.
    + intros t Ht. rewrite (proj1 (ri_fresh _ _ _ _ HI t Ht)), decide_False; [done|].
      intros Hin%HRe. destruct (tb_edges _ _ (ri_tables _ _ _ _ HI) i es (proj2 Hi)) as (_ & Hed & _).
      destruct (Hed t Hin) as (k & x & Hx%is_scope_lt & _). lia.
    + split_and!; [|done|].
      * eapply rinv_ext; [|exact HI']. intros t. specialize (Heq t). specialize (HRe t). refs_cases.
      * apply (dag_retarget _ _ es); [|by left]. eapply dag_shape; [|apply Hi].
        rewrite (core_eq_shape _ _ Hc). by rewrite moveStat_shape.
Qed.

Lemma getProtocolScope_climiter r x r' sc :
  getProtocolScope r x = (r', sc) -> climiter r' = climiter r.
Proof.
  unfold getProtocolScope, newProtocolScope. destruct (proto r !! x); [by intros [= <- _]|].
  destruct (newResourceScope _ _ _ _). by intros [= <- _].
Qed.

Lemma getServiceScope_climiter r x r' sc :
  getServiceScope r x = (r', sc) -> climiter r' = climiter r.
Proof.
  unfold getServiceScope, newServiceScope. destruct (svc r !! x); [by intros [= <- _]|].
  destruct (newResourceScope _ _ _ _). by intros [= <- _].
Qed.

Lemma protocolGetPeerScope_climiter r sc p r' ps :
  protocolGetPeerScope peerString r sc p = (r', ps) -> climiter r' = climiter r.
Proof.
  unfold protocolGetPeerScope. destruct (pr_peers _ !! p); [by intros [= <- _]|].
  destruct (newResourceScope _ _ _ _). by intros [= <- _].
Qed.

Lemma serviceGetPeerScope_climiter r sc p r' ps :
  serviceGetPeerScope peerString r sc p = (r', ps) -> climiter r' = climiter r.
Proof.
  unfold serviceGetPeerScope. destruct (svc_peers _ !! p); [by intros [= <- _]|].
  destruct (newResourceScope _ _ _ _). by intros [= <- _].
Qed.

(** *** SetProtocol *)
Lemma edges_ok_protocol r ks pe p sc x ps :
  tables r ks -> peer r !! p = Some pe -> is_scope (scopes r) ks (pr_scope sc) (KProtocol x) [system r] ->
  is_scope (scopes r) ks ps (KProtocolPeer x p) [] ->
  edges_ok r ks [pe_scope pe; ps; pr_scope sc; system r].
Proof.
  intros HT Hpe Hsc Hps. destruct (tb_peer _ _ HT p pe Hpe) as [_ Hp]. pose proof (tb_system _ _ HT).
  apply (edges_ok_kinds r ks [(pe_scope pe, KPeer p); (ps, KProtocolPeer x p);
    (pr_scope sc, KProtocol x); (system r, KSystem)]).
  - repeat (apply NoDup_cons; split; [set_solver|]). constructor.
  - repeat constructor; eauto; try done; simpl.
    intros q [= <-]. exists pe. split; [done|set_solver].
Qed.

(** Scopes of different kinds are different. *)
Lemma kind_ne (ks : list kind) a b ka kb :
  ks !! a = Some ka -> ks !! b = Some kb -> ka <> kb -> a <> b.
Proof. congruence. Qed.

Lemma SetProtocol_spec r own ks P s x r' s' err :
  rinv r own ks P -> small (scopes r) -> stream_ok r ks s ->
  SetProtocol peerString r s x = (r', s', err) ->
  exists ks', rinv r' own ks' P /\ ext [ss_scope s] r ks r' ks' /\ stream_ok r' ks' s'
    /\ ss_scope s' = ss_scope s /\ ss_dir s' = ss_dir s /\ climiter r' = climiter r
    /\ (err <> None -> keeps_rc (scopes r) (scopes r')).
Proof.
  intros HI Hsm Hs. unfold SetProtocol.
  destruct (ss_proto s) as [pr|] eqn:Hpr.
  { intros [= <- <- <-]. exists ks. split_and!; try done. intros _. by apply keeps_rc_core. }
  destruct (getProtocolScope r x) as [r1 sc] eqn:Hg.
  destruct (getProtocolScope_spec _ _ _ _ _ _ _ HI Hg) as (ks1 & HI1 & Hx1 & Hb1 & Hx).
  pose proof (getProtocolScope_climiter _ _ _ _ Hg) as Hcl1.
  pose proof (getProtocolScope_rc _ _ _ _ Hg) as Hrc1.
  specialize (Hb1 (2 ^ 61 - 1) ltac:(lia) Hsm).
  pose proof (stream_ok_ext _ _ _ _ _ _ Hx1 (not_elem_of_nil _) Hs) as Hs1.
  pose proof Hs1 as (Hk1 & Hpe1 & es & Hd1 & He1). pose proof Hd1 as (isc & Hl1 & _).
  destruct (tb_proto _ _ (ri_tables _ _ _ _ HI1) x sc Hx) as (Hid & Hsc & _).
  assert (Hsvc : ss_svc s = None /\ es = [pe_scope (ss_peer s); transient r1; system r1]).
  { unfold stream_edges in He1. rewrite Hpr in He1.
    destruct (peerProtoScope s), (ss_svc s), (peerSvcScope s); done. }
  destruct Hsvc as [Hsv ->]. unfold Stat. rewrite Hl1.
  cbn [fmap option_fmap option_map from_option id]. set (st := stat (rc isc)).
  pose proof (ReserveForChild_cases (scopes r1) (pr_scope sc) st _ (proj1 (ri_inv _ _ _ _ HI1))
    (proj2 Hsc)) as Hres.
  destruct (ReserveForChild (scopes r1) (pr_scope sc) st) as [h [e|]].
  { subst h. intros [= <- <- <-]. exists ks1.
    assert (Hx2 : ext [] r1 ks1 (with_scopes r1 (DecRef (scopes r1) (pr_scope sc))) ks1)
      by apply ext_shape, shape_DecRef.
    split_and!; [| |eapply (stream_ok_ext [] r1 ks1); [exact Hx2|set_solver|]|done|done|done|intros _; (eapply keeps_rc_trans; [exact Hrc1|apply keeps_rc_core; symmetry; apply DecRef_core])].
    - eapply rinv_ext; [|apply rinv_DecRef; [exact HI1|by eapply is_scope_lt]]. refs_eq.
    - eapply ext_weaken; [|by eapply ext_trans]. set_solver.
    - destruct Hs1 as (? & ? & es0 & ? & He0). split_and!; try done. exists es0. split; [done|].
      unfold stream_edges in *. simpl. rewrite Hsv. rewrite Hpr, Hsv in He0.
      destruct (peerProtoScope s), (peerSvcScope s); done. }
  destruct Hres as [-> (asc & Hla & Hoka)].
  destruct (protocolGetPeerScope peerString r1 sc (peerID (ss_peer s))) as [r2 ps] eqn:Hg2.
  rewrite (protocolGetPeerScope_comm _ _ _ _ _ _ _ (is_scope_lt _ _ _ _ _ Hsc) Hg2).
  destruct (protocolGetPeerScope_spec _ _ _ _ _ _ _ _ _ _ HI1 Hx Hg2) as (ks2 & HI2 & Hx2 & Hb2 & Hps).
  specialize (Hb2 (2 ^ 61 - 1) ltac:(lia) Hb1).
  pose proof (protocolGetPeerScope_rc _ _ _ _ _ Hg2) as Hrc.
  pose proof (protocolGetPeerScope_climiter _ _ _ _ _ Hg2) as Hcl2.
  destruct (Hrc _ _ Hl1) as (isc2 & Hl2 & Hisc). destruct (Hrc _ _ Hla) as (asc2 & Hla2 & Hasc).
  pose proof (is_scope_ext _ _ _ _ _ _ _ _ Hx2 (not_elem_of_nil _) Hsc) as Hsc2.
  pose proof (stream_ok_ext _ _ _ _ _ _ Hx2 (not_elem_of_nil _) Hs1) as Hs2.
  pose proof (ex_base _ _ _ _ _ Hx2) as Hbase. injection Hbase as Hb1' Hb2' Hb3' Hb4'.
  pose proof (ex_dag _ _ _ _ _ Hx2 _ _ (not_elem_of_nil _) Hd1) as Hd2.
  pose proof (ri_tables _ _ _ _ HI2) as HT2. rewrite <- Hb1', <- Hb2' in *.
  destruct (tb_peer _ _ HT2 _ _ (proj1 (proj2 Hs2))) as [_ Hpsc].
  pose proof (tb_transient _ _ HT2) as Htr. pose proof (tb_system _ _ HT2) as Hsys.
  assert (Hne : pr_scope sc <> ps /\ pr_scope sc ∉ [pe_scope (ss_peer s); transient r2; system r2]
    /\ ps ∉ [pe_scope (ss_peer s); transient r2; system r2]
    /\ transient r2 <> pe_scope (ss_peer s) /\ transient r2 <> system r2).
  { destruct Hsc2 as [? _], Hps as [? _], Hpsc as [? _], Htr as [? _], Hsys as [? _].
    rewrite !not_elem_of_cons. split_and!; try (eapply kind_ne; eauto; done); set_solver. }
  destruct Hne as (Hne1 & Hne2 & Hne3 & Hne4 & Hne5).
  assert (Hta : takes (scopes r2) (stat (rc isc2)) (pr_scope sc)).
  { exists asc2. rewrite Hasc, Hisc. split_and!; [done|done|]. rewrite <- Hasc, <- Hisc.
    by eapply small_fits. }
  pose proof (move_stream r2 own ks2 P (ss_scope s) isc2 _
    [pe_scope (ss_peer s); ps; pr_scope sc; system r2] (pr_scope sc) ps [transient r2] _ _
    HI2 Hb2 (conj (proj1 Hs2) Hd2) Hl2 (proj2 Hsc2) (proj2 Hps) Hne1 Hne2 Hne3 Hta
    (edges_ok_protocol r2 ks2 _ _ sc x ps HT2 (proj1 (proj2 Hs2)) Hsc2 Hps) (NoDup_singleton _)
    ltac:(set_solver) ltac:(intros u; rewrite !elem_of_cons; set_solver)) as Hmove.
  cbn zeta in Hmove. rewrite Hisc in Hmove. fold st in Hmove. cbn [scopes with_scopes].
  destruct (ReserveForChild _ ps st) as [h [e|]]; intros [= <- <- <-]; exists ks2.
  - destruct Hmove as [HI3 Hc3].
    assert (Hsh : shape (scopes r2) = _) by (symmetry; exact (core_eq_shape _ _ Hc3)).
    assert (Hx3 : ext [] r2 ks2 (with_scopes r2 (DecRef (DecRef (ReleaseForChild h (pr_scope sc) st)
      (pr_scope sc)) ps)) ks2) by (by apply ext_shape).
    split_and!; [done| | |done|done|simpl; congruence|intros _; (eapply keeps_rc_trans; [exact Hrc1|eapply keeps_rc_trans; [exact Hrc|apply keeps_rc_core; by symmetry]])].
    + eapply ext_weaken; [|eapply ext_trans; [exact Hx1|by eapply ext_trans]]. set_solver.
    + eapply (stream_ok_ext [] r2 ks2); [exact Hx3|apply not_elem_of_nil|].
      destruct Hs2 as (? & ? & _). split_and!; try done. eexists. split; [exact Hd2|].
      unfold stream_edges. simpl. rewrite Hsv. by destruct (peerSvcScope s).
  - destruct Hmove as (HI3 & Hx3 & Hd3). split_and!; [done| | |done|done|simpl; congruence|done].
    + eapply ext_trans; [|exact Hx3]. eapply ext_weaken; [|by eapply ext_trans]. set_solver.
    + destruct Hs2 as (? & ? & _). split_and!; try done. eexists. split; [exact Hd3|].
      unfold stream_edges. simpl. rewrite Hsv. rewrite Hid.
      destruct (peerSvcScope s); (split_and!; [done|apply Hps|apply Hsc2]).
Qed.

(** *** SetService *)
Lemma edges_ok_service r ks pe p pr x pps sc y ps i :
  tables r ks -> peer r !! p = Some pe ->
  dag (scopes r) i [pe_scope pe; pps; pr_scope pr; system r] ->
  ks !! pps = Some (KProtocolPeer x p) -> ks !! pr_scope pr = Some (KProtocol x) ->
  is_scope (scopes r) ks (svc_scope sc) (KService y) [system r] ->
  is_scope (scopes r) ks ps (KServicePeer y p) [] ->
  edges_ok r ks [pe_scope pe; pps; ps; pr_scope pr; svc_scope sc; system r].
Proof.
  intros HT Hpe Hd Hkp Hkr Hsc Hps. destruct (tb_peer _ _ HT p pe Hpe) as [_ Hp].
  pose proof (tb_system _ _ HT). destruct (tb_edges _ _ HT i _ Hd) as (_ & He & _).
  assert (Hpps : exists z, is_scope (scopes r) ks pps (KProtocolPeer x p) z).
  { destruct (He pps ltac:(set_solver)) as (k & z & [Hk Hz] & _). exists z. by split. }
  assert (Hprs : exists z, is_scope (scopes r) ks (pr_scope pr) (KProtocol x) z).
  { destruct (He (pr_scope pr) ltac:(set_solver)) as (k & z & [Hk Hz] & _). exists z. by split. }
  apply (edges_ok_kinds r ks [(pe_scope pe, KPeer p); (pps, KProtocolPeer x p);
    (ps, KServicePeer y p); (pr_scope pr, KProtocol x); (svc_scope sc, KService y); (system r, KSystem)]).
  - repeat (apply NoDup_cons; split; [set_solver|]). constructor.
  - repeat constructor; eauto; try done; simpl;
      intros q [= <-]; exists pe; (split; [done|set_solver]).
Qed.

Lemma SetService_spec r own ks P s y r' s' err :
  rinv r own ks P -> small (scopes r) -> stream_ok r ks s ->
  SetService peerString r s y = (r', s', err) ->
  exists ks', rinv r' own ks' P /\ ext [ss_scope s] r ks r' ks' /\ stream_ok r' ks' s'
    /\ ss_scope s' = ss_scope s /\ ss_dir s' = ss_dir s /\ climiter r' = climiter r
    /\ (err <> None -> keeps_rc (scopes r) (scopes r')).
Proof.
  intros HI Hsm Hs. unfold SetService.
  destruct (ss_svc s) as [sv|] eqn:Hsv.
  { intros [= <- <- <-]. exists ks. split_and!; try done. intros _. by apply keeps_rc_core. }
  destruct (ss_proto s) as [pr|] eqn:Hpr.
  2: { intros [= <- <- <-]. exists ks. split_and!; try done. intros _. by apply keeps_rc_core. }
  destruct (getServiceScope r y) as [r1 sc] eqn:Hg.
  destruct (getServiceScope_spec _ _ _ _ _ _ _ HI Hg) as (ks1 & HI1 & Hx1 & Hb1 & Hy).
  pose proof (getServiceScope_climiter _ _ _ _ Hg) as Hcl1.
  pose proof (getServiceScope_rc _ _ _ _ Hg) as Hrc1.
  specialize (Hb1 (2 ^ 61 - 1) ltac:(lia) Hsm).
  pose proof (stream_ok_ext _ _ _ _ _ _ Hx1 (not_elem_of_nil _) Hs) as Hs1.
  pose proof Hs1 as (Hk1 & Hpe1 & es & Hd1 & He1). pose proof Hd1 as (isc & Hl1 & _).
  destruct (tb_svc _ _ (ri_tables _ _ _ _ HI1) y sc Hy) as (Hid & Hsc & _).
  assert (Hpps : exists pps, peerProtoScope s = Some pps
    /\ es = [pe_scope (ss_peer s); pps; pr_scope pr; system r1]).
  { unfold stream_edges in He1. rewrite Hpr, Hsv in He1.
    destruct (peerProtoScope s) as [pps|], (peerSvcScope s); try done; exists pps; naive_solver. }
  destruct Hpps as (pps & Hpps & ->). unfold Stat. rewrite Hl1, Hpps.
  cbn [fmap option_fmap option_map from_option id]. set (st := stat (rc isc)).
  pose proof (ReserveForChild_cases (scopes r1) (svc_scope sc) st _ (proj1 (ri_inv _ _ _ _ HI1))
    (proj2 Hsc)) as Hres.
  assert (Hkeep : forall r0 ks0 sps, stream_ok r0 ks0 s -> stream_ok r0 ks0 (set_ss_svc s None sps)).
  { intros r0 ks0 sps (? & ? & es0 & ? & He0). split_and!; try done. exists es0. split; [done|].
    unfold stream_edges in *. simpl. rewrite Hpr, Hsv, Hpps in *. by destruct sps, (peerSvcScope s). }
  destruct (ReserveForChild (scopes r1) (svc_scope sc) st) as [h [e|]].
  { subst h. intros [= <- <- <-]. exists ks1.
    assert (Hx2 : ext [] r1 ks1 (with_scopes r1 (DecRef (scopes r1) (svc_scope sc))) ks1)
      by apply ext_shape, shape_DecRef.
    split_and!; [| |by apply Hkeep, (stream_ok_ext _ _ _ _ _ _ Hx2 (not_elem_of_nil _) Hs1)|done|done|done|intros _; (eapply keeps_rc_trans; [exact Hrc1|apply keeps_rc_core; symmetry; apply DecRef_core])].
    - eapply rinv_ext; [|apply rinv_DecRef; [exact HI1|by eapply is_scope_lt]]. refs_eq.
    - eapply ext_weaken; [|by eapply ext_trans]. set_solver. }
  destruct Hres as [-> (asc & Hla & Hoka)].
  destruct (serviceGetPeerScope peerString r1 sc (peerID (ss_peer s))) as [r2 ps] eqn:Hg2.
  rewrite (serviceGetPeerScope_comm _ _ _ _ _ _ _ (is_scope_lt _ _ _ _ _ Hsc) Hg2).
  destruct (serviceGetPeerScope_spec _ _ _ _ _ _ _ _ _ _ HI1 Hy Hg2) as (ks2 & HI2 & Hx2 & Hb2 & Hps).
  specialize (Hb2 (2 ^ 61 - 1) ltac:(lia) Hb1).
  pose proof (serviceGetPeerScope_rc _ _ _ _ _ Hg2) as Hrc.
  pose proof (serviceGetPeerScope_climiter _ _ _ _ _ Hg2) as Hcl2.
  destruct (Hrc _ _ Hl1) as (isc2 & Hl2 & Hisc). destruct (Hrc _ _ Hla) as (asc2 & Hla2 & Hasc).
  pose proof (is_scope_ext _ _ _ _ _ _ _ _ Hx2 (not_elem_of_nil _) Hsc) as Hsc2.
  pose proof (stream_ok_ext _ _ _ _ _ _ Hx2 (not_elem_of_nil _) Hs1) as Hs2.
  pose proof (ex_base _ _ _ _ _ Hx2) as Hbase. injection Hbase as Hb1' _ _ _.
  pose proof (ex_dag _ _ _ _ _ Hx2 _ _ (not_elem_of_nil _) Hd1) as Hd2.
  pose proof (ri_tables _ _ _ _ HI2) as HT2. rewrite <- Hb1' in *.
  destruct (tb_peer _ _ HT2 _ _ (proj1 (proj2 Hs2))) as [_ Hpsc].
  pose proof (tb_system _ _ HT2) as Hsys.
  assert (Hkk : ks2 !! pps = Some (KProtocolPeer (protoID pr) (peerID (ss_peer s)))
    /\ ks2 !! pr_scope pr = Some (KProtocol (protoID pr))).
  { destruct Hs2 as (_ & _ & es2 & _ & He2). unfold stream_edges in He2.
    rewrite Hpr, Hsv, Hpps in He2. destruct (peerSvcScope s); tauto. }
  destruct Hkk as [Hkp Hkr].
  assert (Hne : svc_scope sc <> ps
    /\ svc_scope sc ∉ [pe_scope (ss_peer s); pps; pr_scope pr; system r2]
    /\ ps ∉ [pe_scope (ss_peer s); pps; pr_scope pr; system r2]).
  { destruct Hsc2 as [? _], Hps as [? _], Hpsc as [? _], Hsys as [? _].
    rewrite !not_elem_of_cons. split_and!; try (eapply kind_ne; eauto; done); set_solver. }
  destruct Hne as (Hne1 & Hne2 & Hne3).
  assert (Hta : takes (scopes r2) (stat (rc isc2)) (svc_scope sc)).
  { exists asc2. rewrite Hasc, Hisc. split_and!; [done|done|]. rewrite <- Hasc, <- Hisc.
    by eapply small_fits. }
  pose proof (move_stream r2 own ks2 P (ss_scope s) isc2 _
    [pe_scope (ss_peer s); pps; ps; pr_scope pr; svc_scope sc; system r2] (svc_scope sc) ps [] _ _
    HI2 Hb2 (conj (proj1 Hs2) Hd2) Hl2 (proj2 Hsc2) (proj2 Hps) Hne1 Hne2 Hne3 Hta
    (edges_ok_service r2 ks2 _ _ pr _ pps sc y ps _ HT2 (proj1 (proj2 Hs2)) Hd2 Hkp Hkr Hsc2 Hps)
    (NoDup_nil_2) ltac:(set_solver) ltac:(intros u; set_solver)) as Hmove.
  cbn zeta in Hmove. rewrite Hisc in Hmove. fold st in Hmove. cbn [scopes with_scopes].
  destruct (ReserveForChild _ ps st) as [h [e|]]; intros [= <- <- <-]; exists ks2.
  - destruct Hmove as [HI3 Hc3].
    assert (Hsh : shape (scopes r2) = _) by (symmetry; exact (core_eq_shape _ _ Hc3)).
    assert (Hx3 : ext [] r2 ks2 (with_scopes r2 (DecRef (DecRef (ReleaseForChild h (svc_scope sc) st)
      (svc_scope sc)) ps)) ks2) by (by apply ext_shape).
    split_and!; [done| |by apply Hkeep, (stream_ok_ext _ _ _ _ _ _ Hx3 (not_elem_of_nil _) Hs2)|done|done|simpl; congruence|intros _; (eapply keeps_rc_trans; [exact Hrc1|eapply keeps_rc_trans; [exact Hrc|apply keeps_rc_core; by symmetry]])].
    eapply ext_weaken; [|eapply ext_trans; [exact Hx1|by eapply ext_trans]]. set_solver.
  - destruct Hmove as (HI3 & Hx3 & Hd3). split_and!; [done| | |done|done|simpl; congruence|done].
    + eapply ext_trans; [|exact Hx3]. eapply ext_weaken; [|by eapply ext_trans]. set_solver.
    + destruct Hs2 as (? & ? & _). split_and!; try done. eexists. split; [exact Hd3|].
      unfold stream_edges. simpl. rewrite Hpr, Hpps. done.
Qed.
End streams.
