(* ===== verification/RcmgrGc.v ===== *)
(** * Garbage collection of the resource manager (rcmgr.go, gc)

    [gc] closes protocol and peer scopes that [IsUnused] reports, and the
    per-peer scopes of dead peers without looking at them.  It keeps the
    invariant, and no scope that an open connection or stream is charged to is
    closed, in whatever order the maps are visited. *)
From Stdlib Require Import ZArith Lia.
From stdpp Require Import base tactics sets list numbers option strings pretty gmap.
From S2P Require Import Prelude Limits Resources Scope Ledger ConnLimiter Rcmgr Retarget RefCount RcmgrInv RcmgrOps.
Local Open Scope Z_scope.
Import Int64.

(** What [gc] keeps of the connection and stream scopes. *)
Record gext (r : resourceManager) (ks : list kind) (r' : resourceManager) : Prop := {
  gx_limits : limits r' = limits r;
  gx_climiter : climiter r' = climiter r;
  gx_base : (system r', transient r', allowlistedSystem r', allowlistedTransient r')
            = (system r, transient r, allowlistedSystem r, allowlistedTransient r);
  gx_len : length (scopes r') = length (scopes r);
  gx_dag t k es : is_scope (scopes r) ks t k es -> container k = false -> dag (scopes r') t es;
  gx_dead t : dead (scopes r) t -> dead (scopes r') t;
  gx_peer p pe t k es : peer r !! p = Some pe -> is_scope (scopes r) ks t k es ->
    container k = false -> pe_scope pe ∈ es -> peer r' !! p = Some pe }.

Lemma gext_refl r ks : gext r ks r.
Proof. split; try done. by intros t k es [_ ?]. Qed.

Lemma gext_trans r1 r2 r3 ks : gext r1 ks r2 -> gext r2 ks r3 -> gext r1 ks r3.
Proof.
  intros H1 H2.
  assert (Hd : forall t k es, is_scope (scopes r1) ks t k es -> container k = false ->
    is_scope (scopes r2) ks t k es).
  { intros t k es Hs Hc. split; [apply Hs|by eapply gx_dag]. }
  split.
  - etrans; [apply H2|apply H1].
  - etrans; [apply H2|apply H1].
  - etrans; [apply H2|apply H1].
  - etrans; [apply H2|apply H1].
  - intros t k es Hs Hc. eapply (gx_dag _ _ _ H2); eauto.
  - intros t ?%(gx_dead _ _ _ H1). by apply (gx_dead _ _ _ H2).
  - intros p pe t k es Hp Hs Hc Hin. eapply (gx_peer _ _ _ H2); eauto. by eapply (gx_peer _ _ _ H1).
Qed.

Lemma gext_fold {A} (f : resourceManager -> A -> resourceManager) (I : resourceManager -> Prop) ks :
  (forall r a, I r -> I (f r a) /\ gext r ks (f r a)) ->
  forall l r, I r -> I (fold_left f l r) /\ gext r ks (fold_left f l r).
Proof.
  intros Hf l. induction l as [|a l IH]; intros r Hr; [split; [done|apply gext_refl]|]. simpl.
  destruct (Hf r a Hr) as [Hr' Hg]. destruct (IH _ Hr'). split; [done|by eapply gext_trans].
Qed.

(** Dropping entries of the tables. *)
Lemma rinv_del_proto r own ks P x :
  rinv r own ks P -> rinv (with_proto r (delete x (proto r))) own ks P.
Proof.
  intros [HI HR HT HF]. split; try done. destruct HT. split; simpl; try done.
  intros y sc [? ?]%lookup_delete_Some. by apply tb_proto.
Qed.

Lemma rinv_del_peer r own ks P p pe :
  rinv r own ks P -> peer r !! p = Some pe -> no_dag_child (scopes r) (pe_scope pe) ->
  rinv (with_peer r (delete p (peer r))) own ks P.
Proof.
  intros [HI HR HT HF] Hp Hnc. split; try done. destruct HT. split; simpl; try done.
  - intros t es Hd. destruct (tb_edges t es Hd) as (Hnd & He & Hpe). split_and!; [done|done|].
    intros e k q Hin Hk Hq. destruct (Hpe e k q Hin Hk Hq) as (pe' & Hq' & Hin'). exists pe'.
    split; [|done]. simpl. rewrite lookup_delete_ne; [done|]. intros <-.
    assert (pe' = pe) as -> by congruence. destruct Hd as (tsc & ? & ? & ? & <-). by eapply Hnc.
  - intros q pe' [? ?]%lookup_delete_Some. by apply tb_peer.
Qed.

Lemma rinv_del_svcpeer r own ks P x sc p :
  rinv r own ks P -> svc r !! x = Some sc ->
  rinv (with_svc r (<[x := mkServiceScope (svc_scope sc) (service sc) (delete p (svc_peers sc))]> (svc r)))
    own ks P.
Proof.
  intros HI Hx. destruct (tb_svc _ _ (ri_tables _ _ _ _ HI) x sc Hx) as (Hid & Hs & Hps).
  apply rinv_with_svc; try done. simpl. intros q ps [? ?]%lookup_delete_Some. by apply Hps.
Qed.

Lemma rinv_del_protopeer r own ks P x sc p :
  rinv r own ks P -> proto r !! x = Some sc ->
  rinv (with_proto r (<[x := mkProtocolScope (pr_scope sc) (protoID sc) (delete p (pr_peers sc))]> (proto r)))
    own ks P.
Proof.
  intros HI Hx. destruct (tb_proto _ _ (ri_tables _ _ _ _ HI) x sc Hx) as (Hid & Hs & Hps).
  apply rinv_with_proto; try done. simpl. intros q ps [? ?]%lookup_delete_Some. by apply Hps.
Qed.

(** Closing a container that is in no table any more, in a manager [r1] that
    has the heap of [r]. *)
Lemma gext_Done r ks r1 s k es :
  shape_wf (scopes r) -> is_scope (scopes r) ks s k es -> container k = true ->
  scopes r1 = scopes r -> limits r1 = limits r -> climiter r1 = climiter r ->
  (system r1, transient r1, allowlistedSystem r1, allowlistedTransient r1)
  = (system r, transient r, allowlistedSystem r, allowlistedTransient r) ->
  (forall p pe t k es, peer r !! p = Some pe -> is_scope (scopes r) ks t k es ->
    container k = false -> pe_scope pe ∈ es -> peer r1 !! p = Some pe) ->
  gext r ks (with_scopes r1 (Done (scopes r) s)).
Proof.
  intros Hwf [Hk _] Hc Hs1 Hl Hcl Hb Hp. split; simpl; try done.
  - by apply Done_length.
  - intros t k' es' [Hk' Hd'] Hc'. apply dag_Done; [done|]. split; [congruence|done].
  - intros t. by apply dead_Done.
Qed.

(** ** The loops *)
Definition roomy (r : resourceManager) : Prop := Z.of_nat (length (scopes r)) < MaxInt64.

Lemma pins_bounds r s : 0 <= pins r s <= 1.
Proof. unfold pins. case_decide; lia. Qed.

(** An unused scope is on no open edge. *)
Lemma unused_free r own ks s k es :
  rinv r own ks (pins r) -> roomy r -> is_scope (scopes r) ks s k es ->
  default false (IsUnused <$> scopes r !! s) = true -> no_dag_child (scopes r) s.
Proof.
  intros HI Hr [_ (sc & Hl & Hd & _)] Hun. rewrite Hl in Hun. simpl in Hun.
  eapply (unused_no_child (scopes r) (pins r) s sc); try done; [apply HI|apply pins_bounds].
Qed.

Definition gcI (own : ledger) (ks : list kind) (r : resourceManager) : Prop :=
  rinv r own ks (pins r) /\ roomy r.

Lemma gcI_gext own ks r r' :
  gcI own ks r -> rinv r' own ks (pins r) -> gext r ks r' -> gcI own ks r'.
Proof.
  intros [_ Hr] HI' Hg. split.
  - pose proof (gx_base _ _ _ Hg) as Hb. injection Hb as H1 H2 H3 H4.
    eapply rinv_ext; [|exact HI']. intros t. unfold pins. by rewrite H1, H2, H3, H4.
  - unfold roomy in *. by rewrite (gx_len _ _ _ Hg).
Qed.

Lemma gcProto_ok own ks r x :
  gcI own ks r -> gcI own ks (gcProto r x) /\ gext r ks (gcProto r x).
Proof.
  intros HG. pose proof HG as [HI Hr]. unfold gcProto.
  destruct (proto r !! x) as [sc|] eqn:Hx; [|split; [done|apply gext_refl]].
  destruct (decide _); [split; [done|apply gext_refl]|].
  destruct (default false _) eqn:Hun; [|split; [done|apply gext_refl]].
  destruct (tb_proto _ _ (ri_tables _ _ _ _ HI) x sc Hx) as (Hid & Hs & _).
  pose proof (unused_free _ _ _ _ _ _ HI Hr Hs Hun) as Hnc.
  assert (Hg : gext r ks (with_scopes (with_proto r (delete x (proto r))) (Done (scopes r) (pr_scope sc)))).
  { eapply gext_Done; try done. apply HI. }
  split; [|done]. eapply gcI_gext; [done| |done].
  apply (rinv_Done (with_proto r (delete x (proto r)))); [by apply rinv_del_proto|done|].
  intros k es [Hk _]. destruct Hs as [Hk' _]. assert (k = KProtocol x) as -> by congruence.
  intros sc'. simpl. by rewrite lookup_delete_eq.
Qed.

Lemma gcPeer_ok own ks r dead p :
  gcI own ks r -> (forall q, q ∈ dead -> peer r !! q = None) ->
  let r' := (gcPeer (r, dead) p).1 in let dead' := (gcPeer (r, dead) p).2 in
  gcI own ks r' /\ gext r ks r' /\ (forall q, q ∈ dead' -> peer r' !! q = None).
Proof.
  intros HG Hdead. pose proof HG as [HI Hr]. unfold gcPeer.
  destruct (peer r !! p) as [pe|] eqn:Hp; [|split_and!; [done|apply gext_refl|done]].
  destruct (decide _); [split_and!; [done|apply gext_refl|done]|].
  destruct (default false _) eqn:Hun; [|split_and!; [done|apply gext_refl|done]].
  destruct (tb_peer _ _ (ri_tables _ _ _ _ HI) p pe Hp) as (Hid & Hs).
  pose proof (unused_free _ _ _ _ _ _ HI Hr Hs Hun) as Hnc. cbn [fst snd].
  assert (Hg : gext r ks (with_scopes (with_peer r (delete p (peer r))) (Done (scopes r) (pe_scope pe)))).
  { eapply gext_Done; try done; [apply HI|].
    intros q pe' t k es Hq [_ (tsc & Ht & Htd & Hto & <-)] _ Hin. simpl.
    rewrite lookup_delete_ne; [done|]. intros <-. assert (pe' = pe) as -> by congruence. by eapply Hnc. }
  split_and!; [|done|].
  - eapply gcI_gext; [done| |done].
    apply (rinv_Done (with_peer r (delete p (peer r)))); [by eapply rinv_del_peer|done|].
    intros k es [Hk _]. destruct Hs as [Hk' _]. assert (k = KPeer p) as -> by congruence.
    intros sc'. simpl. by rewrite lookup_delete_eq.
  - intros q Hq. simpl. apply lookup_delete_None. apply elem_of_app in Hq as [Hq|Hq].
    + right. by apply Hdead.
    + left. by apply list_elem_of_singleton in Hq as ->.
Qed.

Lemma gcPeers_ok own ks order r dead :
  gcI own ks r -> (forall q, q ∈ dead -> peer r !! q = None) ->
  let r' := (fold_left gcPeer order (r, dead)).1 in
  let dead' := (fold_left gcPeer order (r, dead)).2 in
  gcI own ks r' /\ gext r ks r' /\ (forall q, q ∈ dead' -> peer r' !! q = None).
Proof.
  revert r dead. induction order as [|p order IH]; intros r dead HG Hd;
    [split_and!; [done|apply gext_refl|done]|].
  destruct (gcPeer_ok own ks r dead p HG Hd) as (HG1 & Hg1 & Hd1). cbn [fold_left].
  destruct (gcPeer (r, dead) p) as [r1 dead1]. cbn [fst snd] in *.
  destruct (IH r1 dead1 HG1 Hd1) as (? & ? & ?). split_and!; [done|by eapply gext_trans|done].
Qed.

(** A per-peer scope of a peer that is not in the table is on no open edge. *)
Lemma orphan_free r own ks P s k es p :
  rinv r own ks P -> is_scope (scopes r) ks s k es -> peerOf k = Some p -> peer r !! p = None ->
  no_dag_child (scopes r) s.
Proof.
  intros HI [Hk _] Hp Hn u usc Hu Hud Huo Hin.
  destruct (tb_edges _ _ (ri_tables _ _ _ _ HI) u (edges usc)) as (_ & _ & Hpe); [by exists usc|].
  destruct (Hpe s k p Hin Hk Hp) as (pe & ? & _). congruence.
Qed.

(** One peer of one [peers] map. *)
Lemma dropSvcPeer_ok own ks r x sc p ps :
  gcI own ks r -> svc r !! x = Some sc -> svc_peers sc !! p = Some ps -> peer r !! p = None ->
  let sc' := mkServiceScope (svc_scope sc) (service sc) (delete p (svc_peers sc)) in
  let r' := with_scopes (with_svc r (<[x := sc']> (svc r))) (Done (scopes r) ps) in
  gcI own ks r' /\ gext r ks r'.
Proof.
  intros HG Hx Hps Hp sc' r'. pose proof HG as [HI Hr].
  destruct (tb_svc _ _ (ri_tables _ _ _ _ HI) x sc Hx) as (Hid & _ & Hall). specialize (Hall p ps Hps).
  pose proof (orphan_free _ _ _ _ _ _ _ _ HI Hall eq_refl Hp) as Hnc.
  assert (Hg : gext r ks r') by (eapply gext_Done; try done; apply HI).
  split; [|done]. eapply gcI_gext; [done| |done].
  apply (rinv_Done (with_svc r (<[x := sc']> (svc r)))); [by apply rinv_del_svcpeer|done|].
  intros k es [Hk _]. destruct Hall as [Hk' _]. assert (k = KServicePeer x p) as -> by congruence.
  intros sc0. simpl. rewrite lookup_insert_eq. intros [= <-]. simpl. by rewrite lookup_delete_eq.
Qed.

Lemma dropProtoPeer_ok own ks r x sc p ps :
  gcI own ks r -> proto r !! x = Some sc -> pr_peers sc !! p = Some ps -> peer r !! p = None ->
  let sc' := mkProtocolScope (pr_scope sc) (protoID sc) (delete p (pr_peers sc)) in
  let r' := with_scopes (with_proto r (<[x := sc']> (proto r))) (Done (scopes r) ps) in
  gcI own ks r' /\ gext r ks r'.
Proof.
  intros HG Hx Hps Hp sc' r'. pose proof HG as [HI Hr].
  destruct (tb_proto _ _ (ri_tables _ _ _ _ HI) x sc Hx) as (Hid & _ & Hall). specialize (Hall p ps Hps).
  pose proof (orphan_free _ _ _ _ _ _ _ _ HI Hall eq_refl Hp) as Hnc.
  assert (Hg : gext r ks r') by (eapply gext_Done; try done; apply HI).
  split; [|done]. eapply gcI_gext; [done| |done].
  apply (rinv_Done (with_proto r (<[x := sc']> (proto r)))); [by apply rinv_del_protopeer|done|].
  intros k es [Hk _]. destruct Hall as [Hk' _]. assert (k = KProtocolPeer x p) as -> by congruence.
  intros sc0. simpl. rewrite lookup_insert_eq. intros [= <-]. simpl. by rewrite lookup_delete_eq.
Qed.

Lemma dropSvcPeers_ok own ks x deadPeers : forall r sc,
  gcI own ks r -> svc r !! x = Some sc -> (forall p, p ∈ deadPeers -> peer r !! p = None) ->
  let res := dropPeers deadPeers (scopes r) (svc_peers sc) in
  let r' := with_scopes (with_svc r
    (<[x := mkServiceScope (svc_scope sc) (service sc) res.2]> (svc r))) res.1 in
  gcI own ks r' /\ gext r ks r'.
Proof.
  induction deadPeers as [|p dead IH]; intros r sc HG Hx Hd; cbn zeta; unfold dropPeers; cbn [fold_left].
  { cbn [fst snd]. replace (mkServiceScope (svc_scope sc) (service sc) (svc_peers sc)) with sc by (by destruct sc).
    rewrite insert_id by done. replace (with_scopes (with_svc r (svc r)) (scopes r)) with r by (by destruct r).
    split; [done|apply gext_refl]. }
  destruct (svc_peers sc !! p) as [ps|] eqn:Hps; [|apply IH; [done|done|set_solver]].
  destruct (dropSvcPeer_ok own ks r x sc p ps HG Hx Hps) as [HG1 Hg1]; [apply Hd; set_solver|].
  set (sc' := mkServiceScope (svc_scope sc) (service sc) (delete p (svc_peers sc))) in *.
  set (r1 := with_scopes (with_svc r (<[x := sc']> (svc r))) (Done (scopes r) ps)) in *.
  destruct (IH r1 sc' HG1) as [HG2 Hg2]; [simpl; by rewrite lookup_insert_eq|simpl; set_solver|].
  unfold dropPeers in HG2, Hg2. simpl in HG2, Hg2. rewrite insert_insert_eq in HG2, Hg2.
  split; [exact HG2|]. by eapply gext_trans.
Qed.

Lemma dropProtoPeers_ok own ks x deadPeers : forall r sc,
  gcI own ks r -> proto r !! x = Some sc -> (forall p, p ∈ deadPeers -> peer r !! p = None) ->
  let res := dropPeers deadPeers (scopes r) (pr_peers sc) in
  let r' := with_scopes (with_proto r
    (<[x := mkProtocolScope (pr_scope sc) (protoID sc) res.2]> (proto r))) res.1 in
  gcI own ks r' /\ gext r ks r'.
Proof.
  induction deadPeers as [|p dead IH]; intros r sc HG Hx Hd; cbn zeta; unfold dropPeers; cbn [fold_left].
  { cbn [fst snd]. replace (mkProtocolScope (pr_scope sc) (protoID sc) (pr_peers sc)) with sc by (by destruct sc).
    rewrite insert_id by done. replace (with_scopes (with_proto r (proto r)) (scopes r)) with r by (by destruct r).
    split; [done|apply gext_refl]. }
  destruct (pr_peers sc !! p) as [ps|] eqn:Hps; [|apply IH; [done|done|set_solver]].
  destruct (dropProtoPeer_ok own ks r x sc p ps HG Hx Hps) as [HG1 Hg1]; [apply Hd; set_solver|].
  set (sc' := mkProtocolScope (pr_scope sc) (protoID sc) (delete p (pr_peers sc))) in *.
  set (r1 := with_scopes (with_proto r (<[x := sc']> (proto r))) (Done (scopes r) ps)) in *.
  destruct (IH r1 sc' HG1) as [HG2 Hg2]; [simpl; by rewrite lookup_insert_eq|simpl; set_solver|].
  unfold dropPeers in HG2, Hg2. simpl in HG2, Hg2. rewrite insert_insert_eq in HG2, Hg2.
  split; [exact HG2|]. by eapply gext_trans.
Qed.

Definition gcD (own : ledger) (ks : list kind) (dead : list string) (r : resourceManager) : Prop :=
  gcI own ks r /\ forall p, p ∈ dead -> peer r !! p = None.

Lemma gcService_ok own ks dead r x :
  gcD own ks dead r -> gcD own ks dead (gcService dead r x) /\ gext r ks (gcService dead r x).
Proof.
  intros [HG Hd]. unfold gcService. destruct (svc r !! x) as [sc|] eqn:Hx.
  - pose proof (dropSvcPeers_ok own ks x dead r sc HG Hx Hd) as H.
    destruct (dropPeers _ _ _) as [h peers]. cbn in H. destruct H as [? ?]. by split_and!.
  - split; [by split|apply gext_refl].
Qed.

Lemma gcProtoPeers_ok own ks dead r x :
  gcD own ks dead r -> gcD own ks dead (gcProtoPeers dead r x) /\ gext r ks (gcProtoPeers dead r x).
Proof.
  intros [HG Hd]. unfold gcProtoPeers. destruct (proto r !! x) as [sc|] eqn:Hx.
  - pose proof (dropProtoPeers_ok own ks x dead r sc HG Hx Hd) as H.
    destruct (dropPeers _ _ _) as [h peers]. cbn in H. destruct H as [? ?]. by split_and!.
  - split; [by split|apply gext_refl].
Qed.

Lemma gc_spec own ks o1 o2 o3 o4 r :
  rinv r own ks (pins r) -> roomy r ->
  rinv (gc o1 o2 o3 o4 r) own ks (pins (gc o1 o2 o3 o4 r)) /\ gext r ks (gc o1 o2 o3 o4 r).
Proof.
  intros HI Hr. unfold gc.
  destruct (gext_fold gcProto (gcI own ks) ks (gcProto_ok own ks) o1 r (conj HI Hr)) as [HG1 Hg1].
  destruct (gcPeers_ok own ks o2 (fold_left gcProto o1 r) [] HG1) as (HG2 & Hg2 & Hd); [set_solver|].
  destruct (fold_left gcPeer o2 _) as [r2 dead]. cbn [fst snd] in *.
  destruct (gext_fold (gcService dead) (gcD own ks dead) ks (gcService_ok own ks dead) o3 r2
    (conj HG2 Hd)) as [HG3 Hg3].
  destruct (gext_fold (gcProtoPeers dead) (gcD own ks dead) ks (gcProtoPeers_ok own ks dead) o4 _ HG3)
    as [[[HG4 _] _] Hg4].
  split; [done|]. eapply gext_trans; [exact Hg1|]. eapply gext_trans; [exact Hg2|].
  by eapply gext_trans.
Qed.

(** ** Connection and stream scopes keep their edges *)
Lemma conn_ok_gext {Endpoint} r ks r' (c : connectionScope Endpoint) :
  gext r ks r' -> conn_ok r ks c -> conn_ok r' ks c.
Proof.
  intros Hg (Hk & es & Hd & He). split; [done|]. exists es.
  split; [by eapply (gx_dag _ _ _ Hg); [split|]|]. unfold conn_edges, connSystem, connTransient in *.
  pose proof (gx_base _ _ _ Hg) as Hb. injection Hb as -> -> -> ->. destruct (cs_peer c) as [pe|]; [|done].
  destruct He as [-> Hp]. split; [done|].
  eapply (gx_peer _ _ _ Hg); [done|by split|done|set_solver].
Qed.

Lemma stream_ok_gext r ks r' s : gext r ks r' -> stream_ok r ks s -> stream_ok r' ks s.
Proof.
  intros Hg (Hk & Hp & es & Hd & He).
  assert (Hin : pe_scope (ss_peer s) ∈ es).
  { unfold stream_edges in He. destruct (ss_proto s), (peerProtoScope s), (ss_svc s), (peerSvcScope s);
      try done; try (destruct He as (-> & _)); subst; set_solver. }
  split_and!; [done|by eapply (gx_peer _ _ _ Hg); [|split| |]|].
  exists es. split; [by eapply (gx_dag _ _ _ Hg); [split|]|]. unfold stream_edges in *.
  pose proof (gx_base _ _ _ Hg) as Hb. by injection Hb as -> -> _ _.
Qed.
