(* ===== verification/RcmgrWorld.v ===== *)
(** * The resource manager over time

    The reachable states of the manager together with the connection and stream
    scopes its users hold, under every operation of rcmgr.go and every call
    users make on scopes, and what holds in all of them. *)
From Stdlib Require Import ZArith Lia.
From stdpp Require Import base tactics sets list numbers option strings pretty relations gmap.
From S2P Require Import Prelude Limits Resources Scope Ledger ConnLimiter Rcmgr Retarget RefCount.
From S2P Require Import RcmgrInv RcmgrOps RcmgrGc.
Local Open Scope Z_scope.
Import Int64.

Section world.
Context {Endpoint : Type} (peerString : string -> string).
Abbreviation conn := (connectionScope Endpoint).

(** The manager, what was reserved and not released in each scope, the open
    connections and streams, and the closed ones. *)
Record world := mkWorld {
  w_rm : resourceManager;
  w_own : ledger;
  w_conns : list conn;
  w_streams : list streamScope;
  w_closedConns : list conn;
  w_closedStreams : list streamScope }.

(** Far from the ends of int64: counters below 2^60, fewer than 2^63 - 1 scopes
    and connections. *)
Definition calm (w : world) : Prop :=
  below (2 ^ 60 - 1) (scopes (w_rm w)) /\ roomy (w_rm w)
  /\ Z.of_nat (length (w_conns w)) < MaxInt64.

(** The counters of [sc] with another limit. *)
Definition relimit (l : Limit) (q : resources) : resources :=
  mkResources l (nconnsIn q) (nconnsOut q) (nstreamsIn q) (nstreamsOut q) (nfd q) (memory q).

(** A limit that [SetLimit] may give to the scope [t]: an [int64], and not below
    what the scope holds when it is set. *)
Definition admissible (h : heap) (t : nat) (l : Limit) : Prop :=
  limit_wf l /\ forall tsc, h !! t = Some tsc -> within_limits (relimit l (rc tsc)).

(** One operation.  The rate limiter's answer and the allowlist are arbitrary in
    every call.  Users reserve and release memory only, at most 2^60 bytes at a
    time, and release what they reserved.  Three uses are left out: a reservation
    in a state that is not [calm] (with the memory limit [MaxInt64] the sum is not
    checked and wraps, scope.go:111), [SetPeer] called again after a failed transfer
    out of the allowlist, which miscounts ([SetPeer_retry_miscounts] below), and a
    [SetLimit] below what the scope already holds.  Each operation is one step,
    though the code releases locks between its calls on scopes. *)
Inductive world_step : world -> world -> Prop :=
| ws_open (al : AllowlistView Endpoint) rateOk dir usefd ep ip r own cs ss cc sc r' c :
    calm (mkWorld r own cs ss cc sc) ->
    openConnection al rateOk r dir usefd ep ip = Some (r', inr c) ->
    world_step (mkWorld r own cs ss cc sc)
      (mkWorld r' (credit own (cs_scope c) (op_delta (connOp dir usefd))) (c :: cs) ss cc sc)
| ws_open_refused (al : AllowlistView Endpoint) rateOk dir usefd ep ip r own cs ss cc sc r' e :
    calm (mkWorld r own cs ss cc sc) ->
    openConnection al rateOk r dir usefd ep ip = Some (r', inl e) ->
    world_step (mkWorld r own cs ss cc sc) (mkWorld r' own cs ss cc sc)
| ws_setPeer (al : AllowlistView Endpoint) p r own l1 c l2 ss cc sc r' c' err :
    calm (mkWorld r own (l1 ++ c :: l2) ss cc sc) ->
    attached r c -> SetPeer peerString al r c p = (r', c', err) ->
    world_step (mkWorld r own (l1 ++ c :: l2) ss cc sc) (mkWorld r' own (l1 ++ c' :: l2) ss cc sc)
| ws_connDone r own l1 c l2 ss cc sc r' :
    calm (mkWorld r own (l1 ++ c :: l2) ss cc sc) -> connDone r c = Some r' ->
    world_step (mkWorld r own (l1 ++ c :: l2) ss cc sc) (mkWorld r' own (l1 ++ l2) ss (c :: cc) sc)
| ws_openStream p dir r own cs ss cc sc r' s :
    calm (mkWorld r own cs ss cc sc) -> OpenStream peerString r p dir = (r', inr s) ->
    world_step (mkWorld r own cs ss cc sc)
      (mkWorld r' (credit own (ss_scope s) (op_delta (streamOp dir))) cs (s :: ss) cc sc)
| ws_openStream_refused p dir r own cs ss cc sc r' e :
    calm (mkWorld r own cs ss cc sc) -> OpenStream peerString r p dir = (r', inl e) ->
    world_step (mkWorld r own cs ss cc sc) (mkWorld r' own cs ss cc sc)
| ws_setProtocol x r own cs l1 s l2 cc sc r' s' err :
    calm (mkWorld r own cs (l1 ++ s :: l2) cc sc) -> SetProtocol peerString r s x = (r', s', err) ->
    world_step (mkWorld r own cs (l1 ++ s :: l2) cc sc) (mkWorld r' own cs (l1 ++ s' :: l2) cc sc)
| ws_setService x r own cs l1 s l2 cc sc r' s' err :
    calm (mkWorld r own cs (l1 ++ s :: l2) cc sc) -> SetService peerString r s x = (r', s', err) ->
    world_step (mkWorld r own cs (l1 ++ s :: l2) cc sc) (mkWorld r' own cs (l1 ++ s' :: l2) cc sc)
| ws_streamDone r own cs l1 s l2 cc sc :
    world_step (mkWorld r own cs (l1 ++ s :: l2) cc sc)
      (mkWorld (with_scopes r (Done (scopes r) (ss_scope s))) own cs (l1 ++ l2) cc (s :: sc))
| ws_reserve size prio t r own cs ss cc sc h' :
    calm (mkWorld r own cs ss cc sc) -> 0 <= size <= 2 ^ 60 -> 0 <= prio <= 255 ->
    ReserveMemory (scopes r) t size prio = (h', None) ->
    world_step (mkWorld r own cs ss cc sc)
      (mkWorld (with_scopes r h') (credit own t (op_delta (memoryOp size prio))) cs ss cc sc)
| ws_reserve_refused size prio t r own cs ss cc sc h' e :
    0 <= size <= 2 ^ 60 -> 0 <= prio <= 255 -> ReserveMemory (scopes r) t size prio = (h', Some e) ->
    world_step (mkWorld r own cs ss cc sc) (mkWorld (with_scopes r h') own cs ss cc sc)
| ws_release size prio t r own cs ss cc sc :
    0 <= size <= 2 ^ 60 -> 0 <= prio <= 255 -> (t < length (scopes r))%nat -> size <= own t FMemory ->
    world_step (mkWorld r own cs ss cc sc)
      (mkWorld (with_scopes r (ReleaseMemory (scopes r) t size))
         (credit own t (fun f => - op_delta (memoryOp size prio) f)) cs ss cc sc)
| ws_span t r own cs ss cc sc h' t' :
    BeginSpan (scopes r) t = (h', inr t') ->
    world_step (mkWorld r own cs ss cc sc) (mkWorld (with_scopes r h') own cs ss cc sc)
| ws_spanDone t tsc o r own cs ss cc sc :
    scopes r !! t = Some tsc -> owner tsc = Some o ->
    world_step (mkWorld r own cs ss cc sc)
      (mkWorld (with_scopes r (Done (scopes r) t)) own cs ss cc sc)
| ws_gc o1 o2 o3 o4 r own cs ss cc sc :
    calm (mkWorld r own cs ss cc sc) ->
    world_step (mkWorld r own cs ss cc sc) (mkWorld (gc o1 o2 o3 o4 r) own cs ss cc sc)
| ws_setLimit t l r own cs ss cc sc :
    admissible (scopes r) t l ->
    world_step (mkWorld r own cs ss cc sc) (mkWorld (with_scopes r (SetLimit (scopes r) t l)) own cs ss cc sc)
| ws_protocolSetLimit p l r own cs ss cc sc :
    admissible (scopes r) (pr_scope p) l ->
    world_step (mkWorld r own cs ss cc sc) (mkWorld (protocolSetLimit r p l) own cs ss cc sc)
| ws_peerSetLimit p l r own cs ss cc sc :
    admissible (scopes r) (pe_scope p) l ->
    world_step (mkWorld r own cs ss cc sc) (mkWorld (peerSetLimit r p l) own cs ss cc sc).

Definition openIPs (cs : list conn) : list Addr := cs ≫= (fun c => validIP (cs_ip c)).

(** What each object accounts for, by the scope it is charged in. *)
Definition connShare (t : nat) (f : field) (c : conn) : Z :=
  if decide (cs_scope c = t) then op_delta (connOp (cs_dir c) (cs_usefd c)) f else 0.
Definition streamShare (t : nat) (f : field) (s : streamScope) : Z :=
  if decide (ss_scope s = t) then op_delta (streamOp (ss_dir s)) f else 0.

(** Connections, streams and file descriptors are reserved by the objects only. *)
Definition ledger_ok (w : world) : Prop :=
  forall t f, f <> FMemory ->
  w_own w t f = sumZ (connShare t f) (w_conns w ++ w_closedConns w)
                + sumZ (streamShare t f) (w_streams w ++ w_closedStreams w).

Record winv (w : world) (ks : list kind) : Prop := {
  wi_rinv : rinv (w_rm w) (w_own w) ks (pins (w_rm w));
  wi_conns : Forall (conn_ok (w_rm w) ks) (w_conns w);
  wi_connsND : NoDup (cs_scope <$> w_conns w);
  wi_streams : Forall (stream_ok (w_rm w) ks) (w_streams w);
  wi_streamsND : NoDup (ss_scope <$> w_streams w);
  wi_closedConns : Forall (fun c => dead (scopes (w_rm w)) (cs_scope c)) (w_closedConns w);
  wi_closedStreams : Forall (fun s => dead (scopes (w_rm w)) (ss_scope s)) (w_closedStreams w);
  wi_limiter : limiter_inv (climiter (w_rm w)) (openIPs (w_conns w));
  wi_ledger : ledger_ok w }.

(** ** Preservation *)
Lemma openIPs_length cs : (length (openIPs cs) <= length cs)%nat.
Proof.
  induction cs as [|c cs IH]; [done|].
  change (openIPs (c :: cs)) with (validIP (cs_ip c) ++ openIPs cs). rewrite length_app.
  assert (length (validIP (cs_ip c)) <= 1)%nat by (unfold validIP; destruct (IsValid _); simpl; lia).
  simpl. lia.
Qed.

Lemma limiter_inv_perm cl a b : a ≡ₚ b -> limiter_inv cl a -> limiter_inv cl b.
Proof.
  intros Hab [H4 H6]. assert (Hs : forall x, sameFamily x a ≡ₚ sameFamily x b)
    by (intros x; unfold sameFamily; by rewrite Hab).
  split; [by rewrite <- (Hs false)|by rewrite <- (Hs true)].
Qed.

Lemma openIPs_app a b : openIPs (a ++ b) = openIPs a ++ openIPs b.
Proof. apply bind_app. Qed.

Lemma openIPs_middle l1 c l2 : openIPs (l1 ++ c :: l2) ≡ₚ validIP (cs_ip c) ++ openIPs (l1 ++ l2).
Proof.
  rewrite !openIPs_app. change (openIPs (c :: l2)) with (validIP (cs_ip c) ++ openIPs l2).
  rewrite !app_assoc. apply Permutation_app_tail, Permutation_app_comm.
Qed.

(** The part of the invariant that concerns objects, carried along [ext]. *)
Lemma objects_ext X r ks r' ks' (cs : list conn) ss (cc : list conn) sc :
  ext X r ks r' ks' ->
  (forall c, c ∈ cs -> cs_scope c ∉ X) -> (forall s, s ∈ ss -> ss_scope s ∉ X) ->
  Forall (conn_ok r ks) cs -> Forall (stream_ok r ks) ss ->
  Forall (fun c => dead (scopes r) (cs_scope c)) cc -> Forall (fun s => dead (scopes r) (ss_scope s)) sc ->
  Forall (conn_ok r' ks') cs /\ Forall (stream_ok r' ks') ss
  /\ Forall (fun c => dead (scopes r') (cs_scope c)) cc
  /\ Forall (fun s => dead (scopes r') (ss_scope s)) sc.
Proof.
  intros Hx Hc Hs. rewrite !Forall_forall. intros H1 H2 H3 H4. split_and!.
  - intros c Hin. eapply conn_ok_ext; eauto.
  - intros s Hin. eapply stream_ok_ext; eauto.
  - intros c Hin. eapply ex_dead; eauto.
  - intros s Hin. eapply ex_dead; eauto.
Qed.

Lemma pins_ext X r ks r' ks' t : ext X r ks r' ks' -> pins r' t = pins r t.
Proof.
  intros Hx. pose proof (ex_base _ _ _ _ _ Hx) as Hb. injection Hb as H1 H2 H3 H4.
  unfold pins. by rewrite H1, H2, H3, H4.
Qed.

(** A step that changes no object. *)
Lemma winv_ext w ks r' own' ks' X :
  winv w ks -> ext X (w_rm w) ks r' ks' -> rinv r' own' ks' (pins (w_rm w)) ->
  (forall c, c ∈ w_conns w -> cs_scope c ∉ X) -> (forall s, s ∈ w_streams w -> ss_scope s ∉ X) ->
  limiter_inv (climiter r') (openIPs (w_conns w)) ->
  (forall t f, f <> FMemory -> own' t f = w_own w t f) ->
  winv (mkWorld r' own' (w_conns w) (w_streams w) (w_closedConns w) (w_closedStreams w)) ks'.
Proof.
  intros HW Hx HI Hc Hs Hcl Hown.
  destruct (objects_ext X (w_rm w) ks r' ks' _ _ _ _ Hx Hc Hs (wi_conns _ _ HW) (wi_streams _ _ HW)
    (wi_closedConns _ _ HW) (wi_closedStreams _ _ HW)) as (? & ? & ? & ?).
  split; simpl; try done; try apply HW.
  - eapply rinv_ext; [|exact HI]. intros t. symmetry. by eapply pins_ext.
  - intros t f Hf. simpl. rewrite Hown by done. by apply (wi_ledger _ _ HW).
Qed.

Lemma conn_scope_lt r ks (c : conn) : conn_ok r ks c -> (cs_scope c < length (scopes r))%nat.
Proof. intros (_ & es & (sc & ?%lookup_lt_Some & _) & _). done. Qed.

Lemma stream_scope_lt r ks s : stream_ok r ks s -> (ss_scope s < length (scopes r))%nat.
Proof. intros (_ & _ & es & (sc & ?%lookup_lt_Some & _) & _). done. Qed.

Lemma conn_stream_ne r ks (c : conn) s : conn_ok r ks c -> stream_ok r ks s -> cs_scope c <> ss_scope s.
Proof. intros [Hc _] [Hs _]. congruence. Qed.

Lemma winv_conn_lt w ks c : winv w ks -> c ∈ w_conns w -> (cs_scope c < length (scopes (w_rm w)))%nat.
Proof. intros HW Hc. eapply conn_scope_lt, Forall_forall; [apply HW|done]. Qed.

Lemma winv_stream_lt w ks s : winv w ks -> s ∈ w_streams w -> (ss_scope s < length (scopes (w_rm w)))%nat.
Proof. intros HW Hs. eapply stream_scope_lt, Forall_forall; [apply HW|done]. Qed.

(** Opening a connection. *)
Lemma winv_open w ks r' (c : conn) dir usefd ks' :
  winv w ks -> ext [] (w_rm w) ks r' ks' ->
  rinv r' (credit (w_own w) (cs_scope c) (op_delta (connOp dir usefd))) ks' (pins (w_rm w)) ->
  conn_ok r' ks' c -> (length (scopes (w_rm w)) <= cs_scope c)%nat ->
  cs_dir c = dir -> cs_usefd c = usefd ->
  limiter_inv (climiter r') (validIP (cs_ip c) ++ openIPs (w_conns w)) ->
  winv (mkWorld r' (credit (w_own w) (cs_scope c) (op_delta (connOp dir usefd)))
          (c :: w_conns w) (w_streams w) (w_closedConns w) (w_closedStreams w)) ks'.
Proof.
  intros HW Hx HI Hc Hfresh Hdir Hfd Hlim.
  destruct (objects_ext [] (w_rm w) ks r' ks' (w_conns w) (w_streams w) (w_closedConns w) (w_closedStreams w))
    as (? & ? & ? & ?); try apply HW; [done|set_solver|set_solver|].
  split; simpl; try done.
  - eapply rinv_ext; [|exact HI]. intros t. symmetry. by eapply pins_ext.
  - by constructor.
  - apply NoDup_cons. split; [|apply HW]. intros (c' & Heq & Hin)%list_elem_of_fmap.
    pose proof (winv_conn_lt _ _ _ HW Hin). lia.
  - apply HW.
  - intros t f Hf. cbn [w_own w_conns w_closedConns w_streams w_closedStreams app].
    unfold credit. rewrite sumZ_cons, (wi_ledger _ _ HW t f Hf).
    assert (connShare t f c = if decide (t = cs_scope c) then op_delta (connOp dir usefd) f else 0) as ->.
    { unfold connShare. rewrite Hdir, Hfd. by repeat case_decide. }
    case_decide; simpl; lia.
Qed.

Lemma winv_openStream w ks r' (s : streamScope) dir ks' :
  winv w ks -> ext [] (w_rm w) ks r' ks' ->
  rinv r' (credit (w_own w) (ss_scope s) (op_delta (streamOp dir))) ks' (pins (w_rm w)) ->
  stream_ok r' ks' s -> (length (scopes (w_rm w)) <= ss_scope s)%nat -> ss_dir s = dir ->
  climiter r' = climiter (w_rm w) ->
  winv (mkWorld r' (credit (w_own w) (ss_scope s) (op_delta (streamOp dir)))
          (w_conns w) (s :: w_streams w) (w_closedConns w) (w_closedStreams w)) ks'.
Proof.
  intros HW Hx HI Hs Hfresh Hdir Hcl.
  destruct (objects_ext [] (w_rm w) ks r' ks' (w_conns w) (w_streams w) (w_closedConns w) (w_closedStreams w))
    as (? & ? & ? & ?); try apply HW; [done|set_solver|set_solver|].
  split; simpl; try done; try apply HW.
  - eapply rinv_ext; [|exact HI]. intros t. symmetry. by eapply pins_ext.
  - by constructor.
  - apply NoDup_cons. split; [|apply HW]. intros (c' & Heq & Hin)%list_elem_of_fmap.
    pose proof (winv_stream_lt _ _ _ HW Hin). lia.
  - rewrite Hcl. apply HW.
  - intros t f Hf. cbn [w_own w_conns w_closedConns w_streams w_closedStreams app].
    unfold credit. rewrite sumZ_cons, (wi_ledger _ _ HW t f Hf).
    assert (streamShare t f s = if decide (t = ss_scope s) then op_delta (streamOp dir) f else 0) as ->.
    { unfold streamShare. rewrite Hdir. by repeat case_decide. }
    case_decide; simpl; lia.
Qed.

(** Replacing or removing one object in the middle of the list. *)
Lemma middle_facts {A} (i : A -> nat) l1 x l2 :
  NoDup (i <$> l1 ++ x :: l2) ->
  NoDup (i <$> l1 ++ l2) /\ forall y, y ∈ l1 ++ l2 -> i y <> i x.
Proof.
  rewrite !fmap_app. simpl. intros Hnd.
  assert (Hp : (i <$> l1) ++ i x :: (i <$> l2) ≡ₚ i x :: (i <$> l1) ++ (i <$> l2))
    by (symmetry; apply Permutation_middle).
  rewrite Hp in Hnd. apply NoDup_cons in Hnd as [Hnot Hnd]. split; [done|].
  intros y Hy Heq. apply Hnot. rewrite <- fmap_app, <- Heq. by apply list_elem_of_fmap_2.
Qed.

Lemma winv_setPeer r own l1 c l2 ss cc sc ks r' c' ks' :
  winv (mkWorld r own (l1 ++ c :: l2) ss cc sc) ks ->
  ext [cs_scope c] r ks r' ks' -> rinv r' own ks' (pins r) -> conn_ok r' ks' c' -> same_conn c c' ->
  climiter r' = climiter r ->
  winv (mkWorld r' own (l1 ++ c' :: l2) ss cc sc) ks'.
Proof.
  intros HW Hx HI Hc (Hsc & Hip & Hdir & Hfd) Hcl.
  destruct (middle_facts cs_scope l1 c l2 (wi_connsND _ _ HW)) as [_ Hne].
  pose proof (wi_conns _ _ HW) as Hcs. simpl in Hcs. rewrite Forall_app, Forall_cons in Hcs.
  destruct Hcs as (Hc1 & Hcc & Hc2).
  destruct (objects_ext [cs_scope c] r ks r' ks' (l1 ++ l2) ss cc sc) as (Hcs' & ? & ? & ?);
    try apply HW; [done| | |by apply Forall_app|].
  { intros c0 Hin. rewrite list_elem_of_singleton. by apply Hne. }
  { intros s Hin. rewrite list_elem_of_singleton. intros Heq.
    eapply (conn_stream_ne r ks c s); [done| |done].
    eapply Forall_forall; [apply (wi_streams _ _ HW)|done]. }
  apply Forall_app in Hcs' as [? ?].
  assert (Hshare : forall t f, connShare t f c' = connShare t f c)
    by (intros; unfold connShare; by rewrite Hsc, Hdir, Hfd).
  split; simpl; try done; try apply HW.
  - eapply rinv_ext; [|exact HI]. intros t. symmetry. by eapply pins_ext.
  - rewrite Forall_app, Forall_cons. done.
  - pose proof (wi_connsND _ _ HW) as Hnd. simpl in Hnd. rewrite fmap_app in Hnd |- *. simpl in *.
    by rewrite Hsc.
  - rewrite Hcl. eapply limiter_inv_perm; [|apply (wi_limiter _ _ HW)]. simpl.
    rewrite !openIPs_middle. by rewrite Hip.
  - intros t f Hf. pose proof (wi_ledger _ _ HW t f Hf) as Hled. simpl in Hled |- *. rewrite Hled.
    rewrite !sumZ_app, !sumZ_cons. rewrite Hshare. lia.
Qed.

Lemma winv_setStream r own cs l1 s l2 cc sc ks r' s' ks' :
  winv (mkWorld r own cs (l1 ++ s :: l2) cc sc) ks ->
  ext [ss_scope s] r ks r' ks' -> rinv r' own ks' (pins r) -> stream_ok r' ks' s' ->
  ss_scope s' = ss_scope s -> ss_dir s' = ss_dir s -> climiter r' = climiter r ->
  winv (mkWorld r' own cs (l1 ++ s' :: l2) cc sc) ks'.
Proof.
  intros HW Hx HI Hs Hsc Hdir Hcl.
  destruct (middle_facts ss_scope l1 s l2 (wi_streamsND _ _ HW)) as [_ Hne].
  pose proof (wi_streams _ _ HW) as Hss. simpl in Hss. rewrite Forall_app, Forall_cons in Hss.
  destruct Hss as (Hs1 & Hss & Hs2).
  destruct (objects_ext [ss_scope s] r ks r' ks' cs (l1 ++ l2) cc sc) as (? & Hss' & ? & ?);
    try apply HW; [done| | |by apply Forall_app|].
  { intros c Hin. rewrite list_elem_of_singleton.
    eapply (conn_stream_ne r ks c s); [|done]. eapply Forall_forall; [apply (wi_conns _ _ HW)|done]. }
  { intros s0 Hin. rewrite list_elem_of_singleton. by apply Hne. }
  apply Forall_app in Hss' as [? ?].
  assert (Hshare : forall t f, streamShare t f s' = streamShare t f s)
    by (intros; unfold streamShare; by rewrite Hsc, Hdir).
  split; simpl; try done; try apply HW.
  - eapply rinv_ext; [|exact HI]. intros t. symmetry. by eapply pins_ext.
  - rewrite Forall_app, Forall_cons. done.
  - pose proof (wi_streamsND _ _ HW) as Hnd. simpl in Hnd. rewrite fmap_app in Hnd |- *. simpl in *.
    by rewrite Hsc.
  - rewrite Hcl. apply HW.
  - intros t f Hf. pose proof (wi_ledger _ _ HW t f Hf) as Hled. simpl in Hled |- *. rewrite Hled.
    rewrite !sumZ_app, !sumZ_cons. rewrite Hshare. lia.
Qed.

(** Closing. *)
Lemma winv_connDone r own l1 c l2 ss cc sc ks r' :
  winv (mkWorld r own (l1 ++ c :: l2) ss cc sc) ks ->
  ext [cs_scope c] r ks r' ks -> rinv r' own ks (pins r) -> dead (scopes r') (cs_scope c) ->
  limiter_inv (climiter r') (openIPs (l1 ++ l2)) ->
  winv (mkWorld r' own (l1 ++ l2) ss (c :: cc) sc) ks.
Proof.
  intros HW Hx HI Hdead Hlim.
  destruct (middle_facts cs_scope l1 c l2 (wi_connsND _ _ HW)) as [Hnd Hne].
  pose proof (wi_conns _ _ HW) as Hcs. simpl in Hcs. rewrite Forall_app, Forall_cons in Hcs.
  destruct Hcs as (Hc1 & Hcc & Hc2).
  destruct (objects_ext [cs_scope c] r ks r' ks (l1 ++ l2) ss cc sc) as (Hcs' & ? & ? & ?);
    try apply HW; [done| | |by apply Forall_app|].
  { intros c0 Hin. rewrite list_elem_of_singleton. by apply Hne. }
  { intros s Hin. rewrite list_elem_of_singleton. intros Heq.
    eapply (conn_stream_ne r ks c s); [done| |done].
    eapply Forall_forall; [apply (wi_streams _ _ HW)|done]. }
  split; simpl; try done; try apply HW.
  - eapply rinv_ext; [|exact HI]. intros t. symmetry. by eapply pins_ext.
  - by constructor.
  - intros t f Hf. pose proof (wi_ledger _ _ HW t f Hf) as Hled. simpl in Hled |- *. rewrite Hled. f_equal. apply sumZ_perm.
    rewrite <- !app_assoc. apply Permutation_app_head. simpl. apply Permutation_middle.
Qed.

Lemma winv_streamDone r own cs l1 s l2 cc sc ks r' :
  winv (mkWorld r own cs (l1 ++ s :: l2) cc sc) ks ->
  ext [ss_scope s] r ks r' ks -> rinv r' own ks (pins r) -> dead (scopes r') (ss_scope s) ->
  climiter r' = climiter r ->
  winv (mkWorld r' own cs (l1 ++ l2) cc (s :: sc)) ks.
Proof.
  intros HW Hx HI Hdead Hcl.
  destruct (middle_facts ss_scope l1 s l2 (wi_streamsND _ _ HW)) as [Hnd Hne].
  pose proof (wi_streams _ _ HW) as Hss. simpl in Hss. rewrite Forall_app, Forall_cons in Hss.
  destruct Hss as (Hs1 & Hss & Hs2).
  destruct (objects_ext [ss_scope s] r ks r' ks cs (l1 ++ l2) cc sc) as (? & Hss' & ? & ?);
    try apply HW; [done| | |by apply Forall_app|].
  { intros c Hin. rewrite list_elem_of_singleton.
    eapply (conn_stream_ne r ks c s); [|done]. eapply Forall_forall; [apply (wi_conns _ _ HW)|done]. }
  { intros s0 Hin. rewrite list_elem_of_singleton. by apply Hne. }
  split; simpl; try done; try apply HW.
  - eapply rinv_ext; [|exact HI]. intros t. symmetry. by eapply pins_ext.
  - by constructor.
  - rewrite Hcl. apply HW.
  - intros t f Hf. pose proof (wi_ledger _ _ HW t f Hf) as Hled. simpl in Hled |- *. rewrite Hled. f_equal. apply sumZ_perm.
    rewrite <- !app_assoc. apply Permutation_app_head. simpl. apply Permutation_middle.
Qed.

Lemma attachPeer_climiter r (c : conn) sys tr p r' c' err :
  attachPeer peerString r c sys tr p = (r', c', err) -> climiter r' = climiter r.
Proof.
  unfold attachPeer. destruct (getPeerScope peerString r p) as [r1 pe] eqn:Hg.
  apply getPeerScope_climiter in Hg. destruct (ReserveForChild _ _ _) as [h [e|]];
    intros Heq; apply (f_equal (fun x => climiter x.1.1)) in Heq; simpl in Heq; congruence.
Qed.

Lemma SetPeer_climiter al r (c : conn) p r' c' err :
  SetPeer peerString al r c p = (r', c', err) -> climiter r' = climiter r.
Proof.
  unfold SetPeer. destruct (cs_peer c); [by intros [= <- _ _]|].
  destruct (isAllowlisted c); [|apply attachPeer_climiter].
  destruct (AllowedPeerAndMultiaddr al p (endpoint c)); simpl; [apply attachPeer_climiter|].
  destruct (transferAllowedToStandard r _) as [r1 e] eqn:Ht.
  assert (Hr1 : climiter r1 = climiter r).
  { revert Ht. unfold transferAllowedToStandard. destruct (ReserveForChild _ _ _) as [h1 [e1|]];
      [|destruct (ReserveForChild _ _ _) as [h2 [e2|]]];
      intros Heq; apply (f_equal (fun x => climiter x.1)) in Heq; done. }
  destruct e as [e|]; [|by intros ->%attachPeer_climiter].
  intros Heq. apply (f_equal (fun x => climiter x.1.1)) in Heq. simpl in Heq. congruence.
Qed.

(** A scope with an owner is no DAG scope. *)
Lemma span_Done r own ks P t tsc o :
  rinv r own ks P -> scopes r !! t = Some tsc -> owner tsc = Some o ->
  rinv (with_scopes r (Done (scopes r) t)) own ks P
  /\ ext [t] r ks (with_scopes r (Done (scopes r) t)) ks /\ forall es, ~ dag (scopes r) t es.
Proof.
  intros HI Ht Ho.
  assert (Hnd : forall es, ~ dag (scopes r) t es) by (intros es (sc & ? & _ & ? & _); congruence).
  destruct (rinv_Done r own ks P t) as [HI' Hx]; [done| | |done].
  - intros u usc Hu Hud Huo Hin.
    destruct (tb_edges _ _ (ri_tables _ _ _ _ HI) u (edges usc)) as (_ & He & _); [by exists usc|].
    destruct (He t Hin) as (k & x & [_ Hd] & _). by eapply Hnd.
  - intros k es [_ Hd]. by destruct (Hnd es).
Qed.

Lemma memoryOp_other size prio f : f <> FMemory -> op_delta (memoryOp size prio) f = 0.
Proof. intros. simpl. by rewrite decide_False. Qed.

Lemma memoryOp_le size prio f : 0 <= size <= 2 ^ 60 -> op_delta (memoryOp size prio) f <= 2 ^ 60.
Proof. intros. simpl. case_decide; lia. Qed.

Lemma winv_gc w ks o1 o2 o3 o4 :
  winv w ks -> roomy (w_rm w) ->
  winv (mkWorld (gc o1 o2 o3 o4 (w_rm w)) (w_own w) (w_conns w) (w_streams w) (w_closedConns w)
          (w_closedStreams w)) ks.
Proof.
  intros HW Hr. destruct (gc_spec (w_own w) ks o1 o2 o3 o4 (w_rm w) (wi_rinv _ _ HW) Hr) as [HI Hg].
  split; simpl; try done; try apply HW.
  - eapply Forall_impl; [apply (wi_conns _ _ HW)|]. intros c. by apply conn_ok_gext.
  - eapply Forall_impl; [apply (wi_streams _ _ HW)|]. intros s. by apply stream_ok_gext.
  - eapply Forall_impl; [apply (wi_closedConns _ _ HW)|]. intros c. apply (gx_dead _ _ _ Hg).
  - eapply Forall_impl; [apply (wi_closedStreams _ _ HW)|]. intros c. apply (gx_dead _ _ _ Hg).
  - rewrite (gx_climiter _ _ _ Hg). apply HW.
Qed.

(** Replacing a limit.  The marks of the pinned scopes concern [gc] alone. *)
Lemma SetLimit_apply_rc h t l : SetLimit h t l = apply_rc (relimit l) [t] h.
Proof. done. Qed.

Lemma rinv_SetLimit r own ks P t l :
  rinv r own ks P -> admissible (scopes r) t l ->
  rinv (with_scopes r (SetLimit (scopes r) t l)) own ks P
  /\ ext [] r ks (with_scopes r (SetLimit (scopes r) t l)) ks.
Proof.
  intros [((Hwf & Hcn) & [Hnn Hacc] & Hlim) Href HT Hfr] [Hl Hin]. rewrite SetLimit_apply_rc.
  assert (Hsh : shape (scopes r) = shape (apply_rc (relimit l) [t] (scopes r))) by (by rewrite shape_apply_rc).
  assert (Hlk : forall u usc', apply_rc (relimit l) [t] (scopes r) !! u = Some usc' ->
    exists usc, scopes r !! u = Some usc /\ done usc' = done usc /\ (forall f, get f (rc usc') = get f (rc usc))
      /\ (limit_wf (limit (rc usc)) /\ within_limits (rc usc) -> limit_wf (limit (rc usc')) /\ within_limits (rc usc'))).
  { intros u usc'. unfold apply_rc. simpl. destruct (decide (t = u)) as [->|Hne].
    - rewrite list_lookup_alter_eq. destruct (scopes r !! u) as [usc|] eqn:Hu; [|done]. intros [= <-].
      exists usc. split_and!; [done|done|by intros []|]. intros _. split; [done|by apply Hin].
    - rewrite list_lookup_alter_ne by done. intros Hu. exists usc'. done. }
  split; [|by apply ext_shape]. split; simpl.
  - split_and!; [split|split|].
    + exact (shape_wf_shape _ _ Hsh Hwf).
    + intros u usc' (usc & Hu & _ & Hg & _)%Hlk f. rewrite Hg. by eapply Hcn.
    + done.
    + intros u usc' (usc & Hu & Hd & Hg & _)%Hlk f. rewrite Hg, Hd, <- (charged_shape _ _ _ _ _ Hsh). by apply Hacc.
    + intros u usc' (usc & Hu & _ & _ & Hw)%Hlk. apply Hw. by eapply Hlim.
  - by apply (refs_ok_apply_rc (relimit l) [t]).
  - by apply tables_shape.
  - intros u Hu. apply Hfr. by rewrite (shape_length _ _ Hsh).
Qed.

Lemma rinv_sticky r own ks P a b : rinv r own ks P -> rinv (with_sticky r a b) own ks P.
Proof. intros [? ? [] ?]. split; done. Qed.

Lemma ext_sticky X r ks r' ks' a b : ext X (with_sticky r a b) ks r' ks' -> ext X r ks r' ks'.
Proof. intros []. by split. Qed.

Lemma winv_setLimit w ks t l a b :
  winv w ks -> admissible (scopes (w_rm w)) t l ->
  winv (mkWorld (with_scopes (with_sticky (w_rm w) a b) (SetLimit (scopes (w_rm w)) t l)) (w_own w) (w_conns w)
    (w_streams w) (w_closedConns w) (w_closedStreams w)) ks.
Proof.
  intros HW Ha. destruct (rinv_SetLimit (with_sticky (w_rm w) a b) (w_own w) ks (pins (w_rm w)) t l) as [HI Hx];
    [apply rinv_sticky, HW|done|]. apply (winv_ext w ks _ _ _ []); try done.
  - by eapply ext_sticky.
  - set_solver.
  - set_solver.
  - apply HW.
Qed.

Lemma with_sticky_id r : with_sticky r (stickyProto r) (stickyPeer r) = r.
Proof. by destruct r. Qed.

Lemma calm_small w : calm w -> small (scopes (w_rm w)).
Proof. intros [Hb _] u usc f Hu. specialize (Hb u usc f Hu). lia. Qed.

Lemma calm_ips w : calm w -> Z.of_nat (length (openIPs (w_conns w))) < MaxInt64.
Proof. intros (_ & _ & Hl). pose proof (openIPs_length (w_conns w)). lia. Qed.

Lemma connDone_middle r own l1 c l2 ss cc sc ks :
  winv (mkWorld r own (l1 ++ c :: l2) ss cc sc) ks ->
  Z.of_nat (length (l1 ++ c :: l2)) < MaxInt64 ->
  exists r', connDone r c = Some r' /\ rinv r' own ks (pins r) /\ ext [cs_scope c] r ks r' ks
    /\ limiter_inv (climiter r') (openIPs (l1 ++ l2)) /\ dead (scopes r') (cs_scope c).
Proof.
  intros HW Hlen. pose proof (wi_conns _ _ HW) as Hcs. simpl in Hcs.
  rewrite Forall_app, Forall_cons in Hcs. destruct Hcs as (_ & (Hk & es & Hd & _) & _).
  pose proof (openIPs_length (l1 ++ l2)) as Hil. rewrite length_app in Hlen, Hil. simpl in Hlen.
  destruct (connDone_spec r own ks (pins r) c (openIPs (l1 ++ l2)) (wi_rinv _ _ HW) Hk (dag_live _ _ _ Hd))
    as (r' & ? & ? & ? & ? & _ & ?); [|lia|by eauto 10].
  eapply limiter_inv_perm; [apply openIPs_middle|apply (wi_limiter _ _ HW)].
Qed.

Lemma winv_step w w' ks : world_step w w' -> winv w ks -> exists ks', winv w' ks'.
Proof.
  intros Hstep HW. pose proof (wi_rinv _ _ HW) as HI.
  destruct Hstep as [al rateOk dir usefd ep ip r own cs ss cc sc r' c Hcalm Ho
    |al rateOk dir usefd ep ip r own cs ss cc sc r' e Hcalm Ho
    |al p r own l1 c l2 ss cc sc r' c' err Hcalm Hatt Hset
    |r own l1 c l2 ss cc sc r' Hcalm Hdone
    |p dir r own cs ss cc sc r' s Hcalm Ho
    |p dir r own cs ss cc sc r' e Hcalm Ho
    |x r own cs l1 s l2 cc sc r' s' err Hcalm Hset
    |x r own cs l1 s l2 cc sc r' s' err Hcalm Hset
    |r own cs l1 s l2 cc sc
    |size prio t r own cs ss cc sc h' Hcalm Hsize Hprio Ha
    |size prio t r own cs ss cc sc h' e Hsize Hprio Ha
    |size prio t r own cs ss cc sc Hsize Hprio Ht Hown
    |t r own cs ss cc sc h' t' Hb
    |t tsc o r own cs ss cc sc Ht Ho
    |o1 o2 o3 o4 r own cs ss cc sc Hcalm
    |t l r own cs ss cc sc Ha|p l r own cs ss cc sc Ha|p l r own cs ss cc sc Ha].
  - destruct (openConnection_spec peerString al rateOk r own ks (pins r) (openIPs cs) dir usefd ep ip HI
      (proj1 Hcalm) (wi_limiter _ _ HW) (calm_ips _ Hcalm)) as (r0 & res & Ho' & ks' & Hx & Hres).
    rewrite Ho in Ho'. injection Ho' as <- <-. destruct Hres as (? & ? & _ & _ & ? & ? & ? & ?).
    exists ks'. by apply (winv_open (mkWorld r own cs ss cc sc) ks).
  - destruct (openConnection_spec peerString al rateOk r own ks (pins r) (openIPs cs) dir usefd ep ip HI
      (proj1 Hcalm) (wi_limiter _ _ HW) (calm_ips _ Hcalm)) as (r0 & res & Ho' & ks' & Hx & Hres).
    rewrite Ho in Ho'. injection Ho' as <- <-. destruct Hres as (HI' & Hlim). exists ks'.
    apply (winv_ext (mkWorld r own cs ss cc sc) ks r' own ks' []); try done; set_solver.
  - pose proof (SetPeer_climiter _ _ _ _ _ _ _ Hset) as Hcl.
    pose proof (wi_conns _ _ HW) as Hcs. simpl in Hcs. rewrite Forall_app, Forall_cons in Hcs.
    destruct (SetPeer_spec _ _ _ _ _ _ _ _ _ _ _ HI (proj1 Hcalm) (proj1 (proj2 Hcs)) Hatt Hset)
      as (ks' & ? & ? & ? & ?). exists ks'. by eapply winv_setPeer.
  - destruct (connDone_middle _ _ _ _ _ _ _ _ _ HW (proj2 (proj2 Hcalm))) as (r0 & Hd & ? & ? & ? & ?).
    rewrite Hdone in Hd. injection Hd as <-. exists ks. by eapply winv_connDone.
  - destruct (OpenStream_spec _ _ _ _ _ _ _ _ _ HI (proj1 Hcalm) Ho) as (ks' & Hx & Hcl & HI' & Hs & Hf & Hd).
    exists ks'. by apply (winv_openStream (mkWorld r own cs ss cc sc) ks).
  - destruct (OpenStream_spec _ _ _ _ _ _ _ _ _ HI (proj1 Hcalm) Ho) as (ks' & Hx & Hcl & HI').
    exists ks'. apply (winv_ext (mkWorld r own cs ss cc sc) ks r' own ks' []); try done;
      [set_solver|set_solver|]. rewrite Hcl. apply HW.
  - pose proof (wi_streams _ _ HW) as Hss. simpl in Hss. rewrite Forall_app, Forall_cons in Hss.
    destruct (SetProtocol_spec _ _ _ _ _ _ _ _ _ _ HI (calm_small _ Hcalm) (proj1 (proj2 Hss)) Hset)
      as (ks' & ? & ? & ? & ? & ? & ? & _). exists ks'. by eapply winv_setStream.
  - pose proof (wi_streams _ _ HW) as Hss. simpl in Hss. rewrite Forall_app, Forall_cons in Hss.
    destruct (SetService_spec _ _ _ _ _ _ _ _ _ _ HI (calm_small _ Hcalm) (proj1 (proj2 Hss)) Hset)
      as (ks' & ? & ? & ? & ? & ? & ? & _). exists ks'. by eapply winv_setStream.
  - pose proof (wi_streams _ _ HW) as Hss. simpl in Hss. rewrite Forall_app, Forall_cons in Hss.
    destruct Hss as (_ & Hs & _). pose proof (stream_scope_lt _ _ _ Hs).
    destruct (rinv_Done_user _ _ _ _ (ss_scope s) KStream HI (proj1 Hs) eq_refl) as [? ?].
    exists ks. eapply winv_streamDone; try done. simpl. apply Done_dead; [apply HI|done].
  - pose proof (memoryOp_laws size prio ltac:(int64_lia) Hprio) as Hlaws.
    destruct (rinv_add (memoryOp size prio) Hlaws _ _ _ _ t h' HI (calm_small _ Hcalm)
      (fun f => memoryOp_le size prio f Hsize) Ha) as (HI' & Hx & _).
    exists ks. apply (winv_ext (mkWorld r own cs ss cc sc) ks (with_scopes r h')
      (credit own t (op_delta (memoryOp size prio))) ks []); try done; [set_solver|set_solver|apply HW|].
    intros u f Hf. unfold credit. rewrite memoryOp_other by done. case_decide; simpl; lia.
  - pose proof (memoryOp_laws size prio ltac:(int64_lia) Hprio) as Hlaws.
    pose proof (add_cases (memoryOp size prio) Hlaws _ _ _ _ t HI) as Hc.
    unfold ReserveMemory in Ha. cbn [w_rm] in Hc. rewrite Ha in Hc. subst h'. exists ks. rewrite with_scopes_id. done.
  - pose proof (memoryOp_laws size prio ltac:(int64_lia) Hprio) as Hlaws.
    destruct (rinv_remove (memoryOp size prio) Hlaws false _ _ _ _ t HI Ht) as [HI' Hx].
    { intros f. simpl. case_decide; [by subst|]. apply HI. }
    exists ks. apply (winv_ext (mkWorld r own cs ss cc sc) ks (with_scopes r (ReleaseMemory (scopes r) t size))
      (credit own t (fun f => - op_delta (memoryOp size prio) f)) ks []); try done; [set_solver|set_solver|apply HW|].
    intros u f Hf. unfold credit. rewrite memoryOp_other by done. case_decide; simpl; lia.
  - destruct (rinv_BeginSpan _ _ _ _ _ _ _ HI Hb) as [HI' Hx]. eexists.
    apply (winv_ext (mkWorld r own cs ss cc sc) ks (with_scopes r h') own _ []); try done;
      [set_solver|set_solver|apply HW].
  - destruct (span_Done _ _ _ _ _ _ _ HI Ht Ho) as (HI' & Hx & Hnd). exists ks.
    apply (winv_ext (mkWorld r own cs ss cc sc) ks (with_scopes r (Done (scopes r) t)) own _ [t]); try done; [| |apply HW].
    + intros c Hin Heq%list_elem_of_singleton. pose proof (wi_conns _ _ HW) as Hcs.
      rewrite Forall_forall in Hcs. destruct (Hcs c Hin) as (_ & es & Hd & _).
      rewrite Heq in Hd. by eapply Hnd.
    + intros s Hin Heq%list_elem_of_singleton. pose proof (wi_streams _ _ HW) as Hss.
      rewrite Forall_forall in Hss. destruct (Hss s Hin) as (_ & _ & es & Hd & _).
      rewrite Heq in Hd. by eapply Hnd.
  - exists ks. apply (winv_gc (mkWorld r own cs ss cc sc)); [done|apply Hcalm].
  - exists ks. pose proof (winv_setLimit _ ks t l (stickyProto r) (stickyPeer r) HW Ha) as HW'.
    cbn [w_rm] in HW'. by rewrite with_sticky_id in HW'.
  - exists ks. by apply (winv_setLimit (mkWorld r own cs ss cc sc)).
  - exists ks. by apply (winv_setLimit (mkWorld r own cs ss cc sc)).
Qed.

(** ** The initial state *)
Definition startWorld (l : Limiter) (cl : connLimiter) : world :=
  mkWorld (NewResourceManager l cl) emptyLedger [] [] [] [].
Definition startKinds : list kind := [KSystem; KTransient; KAllowSystem; KAllowTransient].

Lemma start_lookup l cl s sc :
  scopes (NewResourceManager l cl) !! s = Some sc ->
  (s = 0%nat /\ sc = mkScope false 2 0 (newResources (GetSystemLimits l)) None [] "system")
  \/ (s = 1%nat /\ sc = mkScope false 1 0 (newResources (GetTransientLimits l)) None [0%nat] "transient")
  \/ (s = 2%nat /\ sc = mkScope false 2 0 (newResources (GetAllowlistedSystemLimits l)) None []
                          "allowlistedSystem")
  \/ (s = 3%nat /\ sc = mkScope false 1 0 (newResources (GetAllowlistedTransientLimits l)) None [2%nat]
                          "allowlistedTransient").
Proof.
  destruct s as [|[|[|[|s]]]]; cbn; intros H; try (injection H as <-); auto; [auto 6..|discriminate].
Qed.

Lemma start_dag l cl s es :
  dag (scopes (NewResourceManager l cl)) s es ->
  (s = 0%nat \/ s = 2%nat) /\ es = [] \/ s = 1%nat /\ es = [0%nat] \/ s = 3%nat /\ es = [2%nat].
Proof. intros (sc & H & _ & _ & <-). apply start_lookup in H. naive_solver. Qed.

Lemma start_scope l cl s k :
  startKinds !! s = Some k ->
  is_scope (scopes (NewResourceManager l cl)) startKinds s k
    (match s with 1%nat => [0%nat] | 3%nat => [2%nat] | _ => [] end).
Proof.
  intros Hk. split; [done|].
  destruct s as [|[|[|[|s]]]]; try discriminate Hk; cbn; eexists; (split_and!; reflexivity).
Qed.

Lemma start_accounts l cl : limiter_wf l -> Inv (scopes (NewResourceManager l cl)) emptyLedger.
Proof.
  intros Hl. split_and!; [split|split|].
  - intros s sc H. apply start_lookup in H.
    assert (H0 : exists x, scopes (NewResourceManager l cl) !! 0%nat = Some x /\ owner x = None)
      by (eexists; split; reflexivity).
    assert (H2 : exists x, scopes (NewResourceManager l cl) !! 2%nat = Some x /\ owner x = None)
      by (eexists; split; reflexivity).
    destruct H as [[-> ->]|[[-> ->]|[[-> ->]|[-> ->]]]]; unfold scope_shape_wf; simpl;
      (split_and!; [repeat constructor; set_solver|set_solver|]); intros e He;
      rewrite ?elem_of_nil, ?list_elem_of_singleton in He; by subst.
  - intros s sc H. apply start_lookup in H.
    destruct H as [[-> ->]|[[-> ->]|[[-> ->]|[-> ->]]]]; apply newResources_wf.
  - done.
  - intros s sc H f. replace (charged _ _ s f) with 0.
    + apply start_lookup in H. destruct H as [[-> ->]|[[-> ->]|[[-> ->]|[-> ->]]]]; by destruct f.
    + symmetry. apply sumZ_zero. intros t _. by case_decide.
  - intros s sc H. destruct Hl as (? & ? & ? & ? & _). apply start_lookup in H.
    destruct H as [[-> ->]|[[-> ->]|[[-> ->]|[-> ->]]]];
      (split; [done|apply newResources_within]).
Qed.

Lemma start_winv l cl : limiter_wf l -> configured cl -> winv (startWorld l cl) startKinds.
Proof.
  intros Hl Hcl. split; simpl; try constructor; try done.
  - by apply start_accounts.
  - intros s sc H. apply start_lookup in H.
    destruct H as [[-> ->]|[[-> ->]|[[-> ->]|[-> ->]]]]; vm_compute; reflexivity.
  - split; try done.
    + intros t es H. apply start_dag in H.
      pose proof (start_scope l cl 0 KSystem eq_refl). pose proof (start_scope l cl 2 KAllowSystem eq_refl).
      destruct H as [[_ ->]|[[_ ->]|[_ ->]]]; [apply edges_ok_nil| |];
        (split_and!; [apply NoDup_singleton| |]); intros e;
        [intros ->%list_elem_of_singleton; eauto
        |intros k p ->%list_elem_of_singleton [= <-]; done
        |intros ->%list_elem_of_singleton; eauto
        |intros k p ->%list_elem_of_singleton [= <-]; done].
    + by apply (start_scope l cl 0 KSystem).
    + by apply (start_scope l cl 1 KTransient).
    + by apply (start_scope l cl 2 KAllowSystem).
    + by apply (start_scope l cl 3 KAllowTransient).
  - intros t Ht. split; [|done]. unfold pins. rewrite decide_False; [done|].
    cbn in Ht. set_unfold. cbn. lia.
  - by apply configured_inv.
  - by apply configured_inv.
Qed.

Lemma reach_winv l cl w :
  limiter_wf l -> configured cl -> rtc world_step (startWorld l cl) w -> exists ks, winv w ks.
Proof.
  intros Hl Hcl Hr. pattern w. eapply rtc_ind_r; [|intros w1 w2 _ Hs [ks HW]|exact Hr].
  - exists startKinds. by apply start_winv.
  - by eapply winv_step.
Qed.

(** ** Counting *)
Lemma sumZ_point (D : nat -> bool) (i n : nat) (d : Z) :
  (i < n)%nat ->
  sumZ (fun t => if D t then (if decide (i = t) then d else 0) else 0) (seq 0 n) = if D i then d else 0.
Proof.
  intros Hi. rewrite (sumZ_update (fun _ => 0) _ i).
  - rewrite (sumZ_zero (fun _ => 0)) by done. rewrite decide_True by done. lia.
  - apply NoDup_seq.
  - apply elem_of_seq. lia.
  - intros t Ht. destruct (D t); [|done]. by rewrite decide_False by done.
Qed.

(** Summing the shares of the objects over the scopes. *)
Lemma sumZ_swap {A} (D : nat -> bool) (i : A -> nat) (d : A -> Z) (l : list A) n :
  (forall x, x ∈ l -> (i x < n)%nat) ->
  sumZ (fun t => if D t then sumZ (fun x => if decide (i x = t) then d x else 0) l else 0) (seq 0 n)
  = sumZ (fun x => if D (i x) then d x else 0) l.
Proof.
  induction l as [|x l IH]; intros Hl; simpl.
  { apply sumZ_zero. intros t _. by destruct (D t). }
  rewrite <- (sumZ_point D (i x) n (d x)) by (apply Hl; set_solver).
  fold (sumZ (fun x => if D (i x) then d x else 0) l). rewrite <- IH by (intros; apply Hl; set_solver).
  rewrite <- sumZ_add. apply sumZ_ext. intros t _. destruct (D t); unfold sumZ; lia.
Qed.

Definition edgesAt (h : heap) (t : nat) : list nat := default [] (edges <$> h !! t).

(** The connections, streams and descriptors of the open objects that have [u]
    as their own scope or on its edges. *)
Definition openShare (w : world) (u : nat) (f : field) : Z :=
  let h := scopes (w_rm w) in
  sumZ (fun c => if bool_decide (u ∈ cs_scope c :: edgesAt h (cs_scope c))
                 then op_delta (connOp (cs_dir c) (cs_usefd c)) f else 0) (w_conns w)
  + sumZ (fun s => if bool_decide (u ∈ ss_scope s :: edgesAt h (ss_scope s))
                   then op_delta (streamOp (ss_dir s)) f else 0) (w_streams w).

Lemma charge_dag r ks own P t es :
  rinv r own ks P -> dag (scopes r) t es -> charge (scopes r) t = t :: es.
Proof.
  intros HI Hd. pose proof Hd as (sc & Hl & Hdn & Ho & He).
  rewrite (charge_unfold _ t sc) by (apply HI || done). rewrite Hdn, Ho, He. f_equal.
  apply filter_all. intros e Hin.
  destruct (tb_edges _ _ (ri_tables _ _ _ _ HI) t es Hd) as (_ & Hed & _).
  destruct (Hed e Hin) as (k & x & [_ Hx] & _). by rewrite (dag_live _ _ _ Hx).
Qed.

Lemma charge_dead h t : shape_wf h -> dead h t -> charge h t = [].
Proof. intros Hwf (sc & Hl & Hd). by rewrite (charge_unfold h t sc), Hd by done. Qed.

Lemma edgesAt_dag h t es : dag h t es -> edgesAt h t = es.
Proof. intros (sc & Hl & _ & _ & <-). unfold edgesAt. by rewrite Hl. Qed.

(** The charge of a list of objects to a scope [u]. *)
Lemma objects_charge {A} r own ks P u (i : A -> nat) (d : A -> Z) (l cl : list A) :
  rinv r own ks P -> (forall x, x ∈ l -> exists es, dag (scopes r) (i x) es) ->
  (forall x, x ∈ cl -> dead (scopes r) (i x)) ->
  sumZ (fun t => if decide (u ∈ charge (scopes r) t)
                 then sumZ (fun x => if decide (i x = t) then d x else 0) (l ++ cl) else 0)
    (seq 0 (length (scopes r)))
  = sumZ (fun x => if bool_decide (u ∈ i x :: edgesAt (scopes r) (i x)) then d x else 0) l.
Proof.
  intros HI Hl Hcl.
  rewrite (sumZ_ext _ (fun t => if bool_decide (u ∈ charge (scopes r) t)
    then sumZ (fun x => if decide (i x = t) then d x else 0) (l ++ cl) else 0))
    by (intros t _; destruct (decide (u ∈ charge (scopes r) t));
        [by rewrite bool_decide_eq_true_2|by rewrite bool_decide_eq_false_2]).
  rewrite (sumZ_swap (fun t => bool_decide (u ∈ charge (scopes r) t))).
  2: { intros x [Hx|Hx]%elem_of_app.
       - destruct (Hl x Hx) as (es & sc & ?%lookup_lt_Some & _). done.
       - destruct (Hcl x Hx) as (sc & ?%lookup_lt_Some & _). done. }
  rewrite sumZ_app. rewrite (sumZ_zero _ cl).
  2: { intros x Hx. rewrite (charge_dead _ (i x)) by (apply HI || by apply Hcl).
       by rewrite (bool_decide_eq_false_2 (u ∈ [])) by apply not_elem_of_nil. }
  rewrite Z.add_0_r. apply sumZ_ext. intros x Hx. destruct (Hl x Hx) as (es & Hd).
  by rewrite (charge_dag _ _ _ _ _ _ HI Hd), (edgesAt_dag _ _ _ Hd).
Qed.

Lemma objects_counted w ks u usc f :
  winv w ks -> scopes (w_rm w) !! u = Some usc -> done usc = false -> f <> FMemory ->
  get f (rc usc) = openShare w u f.
Proof.
  intros HW Hu Hd Hf. pose proof (wi_rinv _ _ HW) as HI. destruct (ri_inv _ _ _ _ HI) as (_ & [_ Hacc] & _).
  pose proof (wi_conns _ _ HW) as Hcs. pose proof (wi_closedConns _ _ HW) as Hcc.
  pose proof (wi_streams _ _ HW) as Hss. pose proof (wi_closedStreams _ _ HW) as Hsc.
  rewrite Forall_forall in Hcs. rewrite Forall_forall in Hcc.
  rewrite Forall_forall in Hss. rewrite Forall_forall in Hsc.
  rewrite (Hacc _ _ Hu f), Hd. unfold charged, openShare.
  rewrite <- (objects_charge (w_rm w) (w_own w) ks _ u cs_scope
    (fun c => op_delta (connOp (cs_dir c) (cs_usefd c)) f) _ (w_closedConns w) HI); [|intros c Hc; by destruct (Hcs c Hc) as (_ & es & ? & _); eauto|done].
  rewrite <- (objects_charge (w_rm w) (w_own w) ks _ u ss_scope
    (fun s => op_delta (streamOp (ss_dir s)) f) _ (w_closedStreams w) HI); [|intros s Hs; by destruct (Hss s Hs) as (_ & _ & es & ? & _); eauto|done].
  rewrite <- sumZ_add. apply sumZ_ext. intros t _. case_decide; [|lia].
  rewrite (wi_ledger _ _ HW t f Hf). done.
Qed.

(** C1: the counters are exact.  In every state the manager reaches by
    [world_step] (so without a second [SetPeer] after a failed transfer out of
    the allowlist, and with reservations in [calm] states only), for every open
    scope: the numbers of inbound and outbound connections and streams and of
    file descriptors are those of the open connections and streams whose own
    scope it is or that have it on their edges, summed; and the memory is what
    was reserved and not released in the scopes charged to it: itself, the open
    spans begun in it, and the open scopes that have it on their edges, with
    their spans.  A closed scope counts nothing.  So nothing is counted twice,
    lost, or left over from closed objects, through every open, close, refused
    or successful [SetPeer], [SetProtocol] and [SetService], span, [SetLimit]
    and [gc]. *)
Theorem counters_count_open_objects l cl w u usc :
  limiter_wf l -> configured cl -> rtc world_step (startWorld l cl) w ->
  scopes (w_rm w) !! u = Some usc ->
  (done usc = false ->
     (forall f, f <> FMemory -> get f (rc usc) = openShare w u f)
     /\ get FMemory (rc usc) = charged (scopes (w_rm w)) (w_own w) u FMemory)
  /\ (done usc = true -> forall f, get f (rc usc) = 0).
Proof.
  intros Hl Hcl Hr Hu. destruct (reach_winv l cl w Hl Hcl Hr) as [ks HW].
  destruct (ri_inv _ _ _ _ (wi_rinv _ _ HW)) as (_ & [_ Hacc] & _).
  split; [intros Hd; split|intros Hd f].
  - intros f Hf. by eapply objects_counted.
  - by rewrite (Hacc _ _ Hu FMemory), Hd.
  - by rewrite (Hacc _ _ Hu f), Hd.
Qed.

(** C2: no limit is exceeded.  In every state reached by [world_step], every
    counter of every scope is a non-negative [int64] and at most the scope's
    limit, each direction and each total, as long as memory is reserved at most
    2^60 bytes at a time while all counters are below 2^60, and [SetLimit] is
    not given a limit below what the scope holds at that moment. *)
Theorem limits_never_exceeded l cl w u usc :
  limiter_wf l -> configured cl -> rtc world_step (startWorld l cl) w ->
  scopes (w_rm w) !! u = Some usc -> rc_wf (rc usc) /\ within_limits (rc usc).
Proof.
  intros Hl Hcl Hr Hu. destruct (reach_winv l cl w Hl Hcl Hr) as [ks HW].
  destruct (ri_inv _ _ _ _ (wi_rinv _ _ HW)) as ((_ & Hrc) & _ & Hlim).
  split; [by eapply Hrc|by eapply Hlim].
Qed.

(** The scope [t] is open, and so are all scopes it is charged to. *)
Definition fully_open (h : heap) (t : nat) : Prop :=
  live h t = true /\ forall e, e ∈ edgesAt h t -> live h e = true.

Lemma dag_fully_open r own ks P t es :
  rinv r own ks P -> dag (scopes r) t es -> fully_open (scopes r) t.
Proof.
  intros HI Hd. split; [by eapply dag_live|]. rewrite (edgesAt_dag _ _ _ Hd). intros e Hin.
  destruct (tb_edges _ _ (ri_tables _ _ _ _ HI) t es Hd) as (_ & He & _).
  destruct (He e Hin) as (k & x & [_ Hx] & _). by eapply dag_live.
Qed.

(** C3: garbage collection is safe.  Whatever the order in which [gc] visits the
    maps, it closes neither the scope of an open connection or stream nor any
    scope on its edges (peer, protocol, service, per-peer or system scope), and
    leaves those edges and the counters of the object alone. *)
Theorem gc_keeps_open_objects l cl w o1 o2 o3 o4 :
  limiter_wf l -> configured cl -> rtc world_step (startWorld l cl) w -> roomy (w_rm w) ->
  let h := scopes (w_rm w) in let h' := scopes (gc o1 o2 o3 o4 (w_rm w)) in
  (forall c, c ∈ w_conns w -> fully_open h' (cs_scope c)
     /\ edgesAt h' (cs_scope c) = edgesAt h (cs_scope c))
  /\ (forall s, s ∈ w_streams w -> fully_open h' (ss_scope s)
     /\ edgesAt h' (ss_scope s) = edgesAt h (ss_scope s)).
Proof.
  intros Hl Hcl Hr Hroom h h'. destruct (reach_winv l cl w Hl Hcl Hr) as [ks HW].
  destruct (gc_spec (w_own w) ks o1 o2 o3 o4 (w_rm w) (wi_rinv _ _ HW) Hroom) as [HI Hg].
  pose proof (wi_conns _ _ HW) as Hcs. pose proof (wi_streams _ _ HW) as Hss.
  rewrite Forall_forall in Hcs. rewrite Forall_forall in Hss. split.
  - intros c Hc. destruct (Hcs c Hc) as (Hk & es & Hd & _).
    pose proof (gx_dag _ _ _ Hg (cs_scope c) KConn es (conj Hk Hd) eq_refl) as Hd'.
    split; [by eapply dag_fully_open|]. by rewrite !(edgesAt_dag _ _ es).
  - intros s Hs. destruct (Hss s Hs) as (Hk & _ & es & Hd & _).
    pose proof (gx_dag _ _ _ Hg (ss_scope s) KStream es (conj Hk Hd) eq_refl) as Hd'.
    split; [by eapply dag_fully_open|]. by rewrite !(edgesAt_dag _ _ es).
Qed.

(** C6: the manager does not panic.  In every reachable state [openConnection]
    returns, with whatever arguments, rate limiter answer and allowlist, and so
    does [Done] of an open connection: no index of the connection limiter is out
    of range. *)
Theorem manager_never_panics l cl w (al : AllowlistView Endpoint) rateOk dir usefd ep ip :
  limiter_wf l -> configured cl -> rtc world_step (startWorld l cl) w -> calm w ->
  (exists r' res, openConnection al rateOk (w_rm w) dir usefd ep ip = Some (r', res))
  /\ forall c, c ∈ w_conns w -> exists r', connDone (w_rm w) c = Some r'.
Proof.
  intros Hl Hcl Hr Hcalm. destruct (reach_winv l cl w Hl Hcl Hr) as [ks HW]. split.
  - destruct (openConnection_spec peerString al rateOk (w_rm w) (w_own w) ks (pins (w_rm w))
      (openIPs (w_conns w)) dir usefd ep ip (wi_rinv _ _ HW) (proj1 Hcalm) (wi_limiter _ _ HW)
      (calm_ips _ Hcalm)) as (r' & res & ? & _). eauto.
  - intros c (l1 & l2 & Heq)%list_elem_of_split. destruct w as [r own cs ss cc sc]. simpl in *. subst cs.
    destruct (connDone_middle r own l1 c l2 ss cc sc ks HW (proj2 (proj2 Hcalm))) as (r' & ? & _). eauto.
Qed.

(** C4: a refused [SetProtocol] or [SetService] leaves every counter of every
    scope as it was, whichever of the two reservations was refused. *)
Theorem refused_attach_changes_nothing l cl w s x r' s' err :
  limiter_wf l -> configured cl -> rtc world_step (startWorld l cl) w -> calm w ->
  s ∈ w_streams w ->
  SetProtocol peerString (w_rm w) s x = (r', s', Some err)
  \/ SetService peerString (w_rm w) s x = (r', s', Some err) ->
  forall u usc, scopes (w_rm w) !! u = Some usc ->
  exists usc', scopes r' !! u = Some usc' /\ rc usc' = rc usc.
Proof.
  intros Hl Hcl Hr Hcalm Hs Hset. destruct (reach_winv l cl w Hl Hcl Hr) as [ks HW].
  pose proof (wi_streams _ _ HW) as Hss. rewrite Forall_forall in Hss. specialize (Hss s Hs).
  destruct Hset as [Hset|Hset].
  - destruct (SetProtocol_spec _ _ _ _ _ _ _ _ _ _ (wi_rinv _ _ HW) (calm_small _ Hcalm) Hss Hset)
      as (ks' & _ & _ & _ & _ & _ & _ & Hk). by apply Hk.
  - destruct (SetService_spec _ _ _ _ _ _ _ _ _ _ (wi_rinv _ _ HW) (calm_small _ Hcalm) Hss Hset)
      as (ks' & _ & _ & _ & _ & _ & _ & Hk). by apply Hk.
Qed.
End world.

(** ** A concrete run *)
Definition belowb (n : Z) (h : heap) : bool :=
  forallb (fun sc => forallb (fun f => get f (rc sc) <=? n)
    [FMemory; FStreamsIn; FStreamsOut; FConnsIn; FConnsOut; FFD]) h.

Lemma belowb_ok n h : belowb n h = true -> below n h.
Proof.
  intros Hb u usc f Hu. unfold belowb in Hb. rewrite forallb_forall in Hb.
  specialize (Hb usc). rewrite <- list_elem_of_In in Hb.
  specialize (Hb (list_elem_of_lookup_2 _ _ _ Hu)). rewrite forallb_forall in Hb.
  specialize (Hb f). rewrite Z.leb_le in Hb. apply Hb. destruct f; simpl; tauto.
Qed.

Module RcmgrExample.
Abbreviation uworld := (@world unit).
(** Eight inbound connections and streams per scope, one in the system scope of
    [tight]. *)
Definition lim (n : Z) : Limit := BaseLimit_Limit (mkBaseLimit n n n n n n n 1000).
Definition limiter (sys : Z) : Limiter :=
  mkLimiter (lim sys) (lim 8) (lim 8) (lim 8) (fun _ => lim 8) (fun _ => lim 8)
    (fun _ => lim 8) (fun _ => lim 8) (fun _ => lim 8) (fun _ => lim 8) (lim 8).
Definition str (p : string) : string := p.
(** Everybody is allowlisted by address, nobody by peer. *)
Definition al : AllowlistView unit := mkAllowlistView unit (fun _ => true) (fun _ _ => false).
Definition ip1 : Addr := LimiterExample.ip1.

Lemma limiter_is_wf n : limiter_wf (limiter n).
Proof. unfold limiter_wf. simpl. split_and!; intros; vm_compute; split; discriminate. Qed.

Lemma newConnLimiter_configured : configured newConnLimiter.
Proof. by vm_compute. Qed.

Definition w0 : uworld := @startWorld unit (limiter 8) newConnLimiter.
Definition open (w : uworld) : option (resourceManager * (rm_error + connectionScope unit)) :=
  openConnection al true (w_rm w) DirInbound true tt ip1.

(** A connection from [ip1], its peer, and a stream of that peer. *)
Definition c0 : connectionScope unit := mkConnectionScope unit 0 DirInbound true false None tt AddrInvalid.
Definition s0 : streamScope := mkStreamScope 0 DirInbound (mkPeerScope 0 "") None None None None.
Definition r1 := match open w0 with Some (r, _) => r | None => w_rm w0 end.
Definition c1 := match open w0 with Some (_, inr c) => c | _ => c0 end.
Definition w1 : uworld :=
  mkWorld r1 (credit emptyLedger (cs_scope c1) (op_delta (connOp DirInbound true))) [c1] [] [] [].
Definition r2 := (SetPeer str al r1 c1 "alice").1.1.
Definition c2 := (SetPeer str al r1 c1 "alice").1.2.
Definition w2 : uworld := mkWorld r2 (w_own w1) [c2] [] [] [].
Definition r3 := (OpenStream str r2 "alice" DirInbound).1.
Definition s3 := match (OpenStream str r2 "alice" DirInbound).2 with inr s => s | _ => s0 end.
Definition w3 : uworld :=
  mkWorld r3 (credit (w_own w2) (ss_scope s3) (op_delta (streamOp DirInbound))) [c2] [s3] [] [].

Lemma calm_check (w : uworld) :
  belowb (2 ^ 60 - 1) (scopes (w_rm w)) = true ->
  (Z.of_nat (length (scopes (w_rm w))) <? MaxInt64) = true ->
  (Z.of_nat (length (w_conns w)) <? MaxInt64) = true -> calm w.
Proof.
  intros H1 H2%Z.ltb_lt H3%Z.ltb_lt. split_and!; [by apply belowb_ok|done|done].
Qed.

Lemma w3_reached : rtc (world_step str) w0 w3.
Proof.
  eapply rtc_l; [|eapply rtc_l; [|eapply rtc_l; [|apply rtc_refl]]].
  - apply (ws_open str al true DirInbound true tt ip1 (w_rm w0) emptyLedger [] [] [] [] r1 c1).
    + apply calm_check; vm_compute; reflexivity.
    + vm_compute. reflexivity.
  - apply (ws_setPeer str al "alice" r1 (w_own w1) [] c1 [] [] [] [] r2 c2 None).
    + apply calm_check; vm_compute; reflexivity.
    + intros (sc & Hl & _ & _ & He). vm_compute in Hl. injection Hl as <-. discriminate He.
    + vm_compute. reflexivity.
  - apply (ws_openStream str "alice" DirInbound r2 (w_own w2) [c2] [] [] [] r3 s3).
    + apply calm_check; vm_compute; reflexivity.
    + vm_compute. reflexivity.
Qed.

(** A span of the stream, and 64 bytes reserved in it. *)
Definition h4 := (BeginSpan (scopes r3) (ss_scope s3)).1.
Definition t4 : nat := length (scopes r3).
Definition r4 := with_scopes r3 (ReserveMemory h4 t4 64 255).1.
Definition w4 : uworld :=
  mkWorld r4 (credit (w_own w3) t4 (op_delta (memoryOp 64 255))) [c2] [s3] [] [].

Lemma w4_reached : rtc (world_step str) w0 w4.
Proof.
  eapply rtc_r; [eapply rtc_r; [exact w3_reached|]|].
  - apply (ws_span str (ss_scope s3) r3 (w_own w3) [c2] [s3] [] [] h4 t4). vm_compute. reflexivity.
  - apply (ws_reserve str 64 255 t4 (with_scopes r3 h4) (w_own w3) [c2] [s3] [] [] (scopes r4)).
    + apply calm_check; vm_compute; reflexivity.
    + lia.
    + lia.
    + vm_compute. reflexivity.
Qed.
End RcmgrExample.

(** The peer's scope (5) counts the connection and the stream and holds the
    memory reserved in a span of the stream: all after 64 bytes were reserved. *)
Lemma counters_count_open_objects_witness :
  exists usc, scopes (w_rm RcmgrExample.w4) !! 5%nat = Some usc
    /\ get FConnsIn (rc usc) = openShare RcmgrExample.w4 5 FConnsIn
    /\ openShare RcmgrExample.w4 5 FConnsIn = 1 /\ openShare RcmgrExample.w4 5 FStreamsIn = 1
    /\ get FMemory (rc usc) = 64.
Proof.
  destruct (counters_count_open_objects RcmgrExample.str (RcmgrExample.limiter 8) newConnLimiter
    RcmgrExample.w4 5 (default (mkScope true 0 0 (newResources (RcmgrExample.lim 0)) None [] "")
                         (scopes (w_rm RcmgrExample.w4) !! 5%nat))
    (RcmgrExample.limiter_is_wf 8) RcmgrExample.newConnLimiter_configured RcmgrExample.w4_reached)
    as [Hopen _]; [vm_compute; reflexivity|].
  destruct Hopen as [Hobj Hmem]; [vm_compute; reflexivity|].
  eexists. split; [vm_compute; reflexivity|]. split; [exact (Hobj FConnsIn ltac:(discriminate))|].
  split; [vm_compute; reflexivity|]. split; [vm_compute; reflexivity|].
  etransitivity; [exact Hmem|vm_compute; reflexivity].
Defined.

Lemma limits_never_exceeded_witness :
  exists usc, scopes (w_rm RcmgrExample.w3) !! 0%nat = Some usc /\ within_limits (rc usc).
Proof.
  eexists. split; [vm_compute; reflexivity|].
  apply (limits_never_exceeded RcmgrExample.str (RcmgrExample.limiter 8) newConnLimiter RcmgrExample.w3 0).
  - apply RcmgrExample.limiter_is_wf.
  - apply RcmgrExample.newConnLimiter_configured.
  - apply RcmgrExample.w3_reached.
  - vm_compute. reflexivity.
Defined.

Lemma gc_keeps_open_objects_witness :
  fully_open (scopes (gc [] ["alice"] [] [] (w_rm RcmgrExample.w3))) (ss_scope RcmgrExample.s3).
Proof.
  refine (proj1 (proj2 (gc_keeps_open_objects RcmgrExample.str (RcmgrExample.limiter 8) newConnLimiter
    RcmgrExample.w3 [] ["alice"] [] [] (RcmgrExample.limiter_is_wf 8)
    RcmgrExample.newConnLimiter_configured RcmgrExample.w3_reached _) RcmgrExample.s3 _)).
  - vm_compute. reflexivity.
  - apply list_elem_of_singleton. reflexivity.
Defined.

Lemma manager_never_panics_witness :
  exists r', connDone (w_rm RcmgrExample.w3) RcmgrExample.c2 = Some r'.
Proof.
  refine (proj2 (manager_never_panics RcmgrExample.str (RcmgrExample.limiter 8) newConnLimiter
    RcmgrExample.w3 RcmgrExample.al true DirInbound false tt AddrInvalid (RcmgrExample.limiter_is_wf 8)
    RcmgrExample.newConnLimiter_configured RcmgrExample.w3_reached _) RcmgrExample.c2 _).
  - apply RcmgrExample.calm_check; vm_compute; reflexivity.
  - apply list_elem_of_singleton. reflexivity.
Defined.

(** A stream whose protocol admits no stream. *)
Module RefusedExample.
Import RcmgrExample.
Definition noProto : Limiter :=
  mkLimiter (lim 8) (lim 8) (lim 8) (lim 8) (fun _ => lim 8) (fun _ => lim 8)
    (fun _ => lim 0) (fun _ => lim 8) (fun _ => lim 8) (fun _ => lim 8) (lim 8).
Definition v0 : uworld := startWorld noProto newConnLimiter.
Definition v1r := (OpenStream str (w_rm v0) "alice" DirInbound).1.
Definition v1s := match (OpenStream str (w_rm v0) "alice" DirInbound).2 with inr s => s | _ => s0 end.
Definition v1 : uworld :=
  mkWorld v1r (credit emptyLedger (ss_scope v1s) (op_delta (streamOp DirInbound))) [] [v1s] [] [].

Lemma noProto_wf : limiter_wf noProto.
Proof. unfold limiter_wf. simpl. split_and!; intros; vm_compute; split; discriminate. Qed.

Lemma v1_reached : rtc (world_step str) v0 v1.
Proof.
  eapply rtc_l; [|apply rtc_refl].
  apply (ws_openStream str "alice" DirInbound (w_rm v0) emptyLedger [] [] [] [] v1r v1s).
  - apply calm_check; vm_compute; reflexivity.
  - vm_compute. reflexivity.
Qed.
End RefusedExample.

Lemma refused_attach_changes_nothing_witness :
  exists usc err, (SetProtocol RcmgrExample.str RefusedExample.v1r RefusedExample.v1s "/x").2 = Some err
  /\ scopes (SetProtocol RcmgrExample.str RefusedExample.v1r RefusedExample.v1s "/x").1.1 !! 1%nat = Some usc
  /\ get FStreamsIn (rc usc) = 1.
Proof.
  destruct (refused_attach_changes_nothing RcmgrExample.str RefusedExample.noProto newConnLimiter
    RefusedExample.v1 RefusedExample.v1s "/x"
    (SetProtocol RcmgrExample.str RefusedExample.v1r RefusedExample.v1s "/x").1.1
    (SetProtocol RcmgrExample.str RefusedExample.v1r RefusedExample.v1s "/x").1.2
    (ErrScope (ErrWrapped "protocol:/x"
       (ErrStreamOrConnLimitExceeded "cannot reserve inbound stream" 0 1 0)))
    RefusedExample.noProto_wf RcmgrExample.newConnLimiter_configured RefusedExample.v1_reached)
    with (u := 1%nat) (usc := default (mkScope true 0 0 (newResources (RcmgrExample.lim 0)) None [] "")
                                 (scopes RefusedExample.v1r !! 1%nat)) as (usc & Hu & Hrc).
  - apply RcmgrExample.calm_check; vm_compute; reflexivity.
  - apply list_elem_of_singleton. reflexivity.
  - left. vm_compute. reflexivity.
  - vm_compute. reflexivity.
  - exists usc. eexists. split; [vm_compute; reflexivity|]. split; [exact Hu|]. rewrite Hrc.
    vm_compute. reflexivity.
Defined.

(** [SetPeer] must not be retried after it failed to move an allowlisted
    connection to the standard scopes: the second call succeeds, but the
    connection is not counted in the system scope it is attached to, and the
    transient scope loses a reference it did not hold for it. *)
Theorem SetPeer_retry_miscounts :
  exists (r : resourceManager) (c : connectionScope unit) al p,
  let '(r1, c1, err1) := SetPeer RcmgrExample.str al r c p in
  let '(r2, c2, err2) := SetPeer RcmgrExample.str al r1 c1 p in
  err1 <> None /\ err2 = None
  /\ system r2 ∈ edgesAt (scopes r2) (cs_scope c2)
  /\ (fun sc => nconnsIn (rc sc)) <$> scopes r2 !! system r2 = Some 0
  /\ refCnt <$> scopes r1 !! transient r = Some 1 /\ refCnt <$> scopes r2 !! transient r = Some 0.
Proof.
  set (o := openConnection RcmgrExample.al true
    (NewResourceManager (RcmgrExample.limiter 0) newConnLimiter) DirInbound true tt RcmgrExample.ip1).
  exists (match o with Some (r, _) => r | None => w_rm RcmgrExample.w0 end),
         (match o with Some (_, inr c) => c | _ => RcmgrExample.c0 end), RcmgrExample.al, "mallory".
  vm_compute. split_and!; try reflexivity; [discriminate|]. right. left.
Qed.
