(* ===== verification/ScopeNames.v ===== *)
(** * Names of scopes (rcmgr.go, lines 595-654; scope.go, IsSpan)

    Metrics and traces recover the kind of a scope, the peer and the protocol
    from the scope's name.  [strings.Index] is [String.index 0]. *)
From Stdlib Require Import ZArith Lia Ascii String.
From stdpp Require Import base tactics list numbers option strings pretty.
From S2P Require Import Prelude Rcmgr.
Local Open Scope string_scope.

Definition HasPrefix (s pre : string) : bool := String.prefix pre s.
Definition Contains (s sub : string) : bool :=
  match String.index 0 sub s with Some _ => true | None => false end.
(** [s[n:]] *)
Fixpoint skip (n : nat) (s : string) : string :=
  match n, s with
  | O, _ => s
  | S n, String _ s => skip n s
  | S _, EmptyString => EmptyString
  end.

Definition IsSpan (name : string) : bool := Contains name ".span-".
Definition IsSystemScope (name : string) : bool := bool_decide (name = "system").
Definition IsTransientScope (name : string) : bool := bool_decide (name = "transient").
Definition IsStreamScope (name : string) : bool := HasPrefix name "stream-" && negb (IsSpan name).
Definition IsConnScope (name : string) : bool := HasPrefix name "conn-" && negb (IsSpan name).

Definition PeerStrInScopeName (name : string) : string :=
  if negb (HasPrefix name "peer:") || IsSpan name then ""
  else match String.index 0 "peer:" name with
       | None => ""
       | Some peerSplitIdx => skip (peerSplitIdx + 5) name
       end.

Definition ParseProtocolScopeName (name : string) : string :=
  if HasPrefix name "protocol:" && negb (IsSpan name) then
    if Contains name "peer:" then ""
    else match String.index 0 ":" name with
         | None => ""
         | Some separatorIdx => skip (separatorIdx + 1) name
         end
  else "".

(** ** Strings over a set of characters *)
Fixpoint over (P : ascii -> bool) (s : string) : bool :=
  match s with EmptyString => true | String a s => P a && over P s end.

Lemma over_app P s t : over P (s +:+ t) = over P s && over P t.
Proof. induction s as [|a s IH]; simpl; [done|]. rewrite IH. by rewrite andb_assoc. Qed.

(** A string with a character outside of [P] is not found in one over [P]. *)
Lemma prefix_over P sub s : over P s = true -> String.prefix sub s = true -> over P sub = true.
Proof.
  revert s. induction sub as [|a sub IH]; intros [|b s] Hs Hp; simpl in *; try done.
  destruct (ascii_dec a b) as [->|]; [|done]. apply andb_true_iff in Hs as [-> Hs]. simpl. by eapply IH.
Qed.

Lemma index_over P sub s :
  over P s = true -> over P sub = false -> String.index 0 sub s = None.
Proof.
  intros Hs Hsub. induction s as [|b s IH].
  - destruct sub; [done|reflexivity].
  - simpl in Hs. apply andb_true_iff in Hs as [Hb Hs].
    cbn [String.index]. destruct (String.prefix sub (String b s)) eqn:Hp.
    + exfalso. assert (over P sub = true); [|congruence].
      eapply prefix_over; [|exact Hp]. simpl. by rewrite Hb, Hs.
    + by rewrite IH.
Qed.

Definition decimal (a : ascii) : bool :=
  bool_decide (a = "-"%char) || ((48 <=? N_of_ascii a)%N && (N_of_ascii a <=? 57)%N).

Lemma pretty_N_char_decimal x : decimal (pretty_N_char x) = true.
Proof. destruct x as [|p]; [reflexivity|]. do 4 (destruct p as [p|p|]; try reflexivity). Qed.

Lemma pretty_N_go_decimal x s : over decimal s = true -> over decimal (pretty_N_go x s) = true.
Proof.
  revert s. induction (N.lt_wf_0 x) as [x _ IH]; intros s Hs.
  destruct (decide (x = 0)%N) as [->|Hx]; [by rewrite pretty_N_go_0|].
  rewrite pretty_N_go_step by lia. apply IH; [by apply N.div_lt; lia|].
  simpl. by rewrite pretty_N_char_decimal, Hs.
Qed.

Lemma pretty_Z_decimal (z : Z) : over decimal (pretty z) = true.
Proof.
  assert (Hp : forall p : positive, over decimal (pretty p) = true).
  { intros p. unfold pretty, pretty_positive, pretty, pretty_N. rewrite decide_False by done.
    by apply pretty_N_go_decimal. }
  destruct z as [|p|p]; [reflexivity|apply Hp|]. unfold pretty, pretty_Z. simpl. apply Hp.
Qed.

(** ** The prefix at the front *)
Lemma prefix_app pre s : String.prefix pre (pre +:+ s) = true.
Proof.
  induction pre as [|a pre IH]; simpl; [by destruct s|]. by destruct (ascii_dec a a).
Qed.

Lemma index_front pre s : pre <> "" -> String.index 0 pre (pre +:+ s) = Some 0%nat.
Proof.
  intros Hne. destruct pre as [|a pre]; [done|].
  change (String a pre +:+ s) with (String a (pre +:+ s)). cbn [String.index].
  change (String a (pre +:+ s)) with (String a pre +:+ s). by rewrite prefix_app.
Qed.

Lemma contains_middle a sub b : Contains (a +:+ sub +:+ b) sub = true.
Proof.
  unfold Contains. enough (String.index 0 sub (a +:+ sub +:+ b) <> None)
    by (by destruct (String.index 0 sub (a +:+ sub +:+ b))).
  induction a as [|x a IH].
  - change ("" +:+ sub +:+ b) with (sub +:+ b). destruct sub as [|y sub]; [by destruct b|].
    by rewrite index_front.
  - change (String x a +:+ sub +:+ b) with (String x (a +:+ sub +:+ b)). cbn [String.index].
    destruct (String.prefix sub _); [done|]. by destruct (String.index 0 sub (a +:+ sub +:+ b)).
Qed.

Definition noDot (a : ascii) : bool := negb (bool_decide (a = "."%char)).

Lemma over_impl (P Q : ascii -> bool) s :
  (forall a, P a = true -> Q a = true) -> over P s = true -> over Q s = true.
Proof.
  intros HPQ. induction s as [|a s IH]; simpl; [done|].
  intros [Ha Hs]%andb_true_iff. by rewrite HPQ, IH.
Qed.

Lemma decimal_noDot a : decimal a = true -> noDot a = true.
Proof. unfold noDot. case_bool_decide; [by subst|done]. Qed.

(** A number after a prefix without dots is no span. *)
Lemma numbered_not_span pre (id : Z) : over noDot pre = true -> IsSpan (pre +:+ pretty id) = false.
Proof.
  intros Hp. unfold IsSpan, Contains. rewrite (index_over noDot); [done| |done].
  rewrite over_app, Hp. simpl. eapply over_impl; [apply decimal_noDot|apply pretty_Z_decimal].
Qed.

Lemma string_assoc (a b c : string) : (a +:+ b) +:+ c = a +:+ (b +:+ c).
Proof. induction a as [|x a IH]; [done|]. exact (f_equal (String x) IH). Qed.

(** Names and their readers agree.  Connection and stream scopes are
    recognised by their names, for every id, and never as each other; a span of
    any scope is recognised as a span and as nothing else; the peer of a peer
    scope and the protocol of a protocol scope are read back from their names,
    unless these contain a marker themselves. *)
Theorem scope_names_roundtrip (id : Z) (peerString : string -> string) (p pr nm : string) (n : Z) :
  IsConnScope (connScopeName id) = true /\ IsStreamScope (streamScopeName id) = true
  /\ IsStreamScope (connScopeName id) = false /\ IsConnScope (streamScopeName id) = false
  /\ (IsSpan (nm +:+ ".span-" +:+ pretty n) = true)
  /\ (IsSpan (peerScopeName peerString p) = false ->
        PeerStrInScopeName (peerScopeName peerString p) = peerString p)
  /\ (IsSpan ("protocol:" +:+ pr) = false -> Contains ("protocol:" +:+ pr) "peer:" = false ->
        ParseProtocolScopeName ("protocol:" +:+ pr) = pr)
  /\ ParseProtocolScopeName ("protocol:" +:+ pr +:+ ".peer:" +:+ peerString p) = "".
Proof.
  assert (Hc : IsSpan (connScopeName id) = false) by (by apply numbered_not_span).
  assert (Hs : IsSpan (streamScopeName id) = false) by (by apply numbered_not_span).
  unfold IsConnScope, IsStreamScope, HasPrefix. rewrite Hc, Hs. unfold connScopeName, streamScopeName.
  rewrite !prefix_app. split_and!; try done.
  - apply contains_middle.
  - intros Hp. unfold PeerStrInScopeName, HasPrefix. rewrite Hp. unfold peerScopeName.
    rewrite prefix_app. cbn [negb orb]. by rewrite index_front.
  - intros Hp Hq. unfold ParseProtocolScopeName, HasPrefix. rewrite Hp, Hq, prefix_app. by destruct pr.
  - unfold ParseProtocolScopeName, HasPrefix. destruct (String.prefix _ _ && _); [|done].
    assert (Hsplit : pr +:+ ".peer:" +:+ peerString p = (pr +:+ ".") +:+ "peer:" +:+ peerString p)
      by (by rewrite string_assoc).
    rewrite Hsplit. rewrite <- (string_assoc "protocol:" (pr +:+ ".") ("peer:" +:+ peerString p)).
    by rewrite contains_middle.
Qed.
