(* ===== verification/GoBytes.v ===== *)
(** * Byte strings, outcomes and the string functions of Go

    A Go [string] and a [[]byte] are both lists of bytes here; a nil slice is
    the empty list.  [outcome] is what a Go call does: it returns a value, returns
    an error, panics, or (for a loop run with fuel) does not return.  The file
    holds the functions of the packages [strings], [strconv], [bytes] and
    [encoding/binary] that the multiaddr code calls, with their round trips. *)
From Stdlib Require Import ZArith Lia.
From Stdlib Require Import Strings.Byte Strings.String.
From stdpp Require Import base tactics list numbers option countable sets strings.
From S2P Require Import Prelude.
Local Open Scope Z_scope.

Abbreviation byte := Byte.byte.
Abbreviation bytes := (list Byte.byte).

#[export] Instance byte_eq_dec : EqDecision byte := Byte.byte_eq_dec.
#[export] Instance byte_countable : Countable byte.
Proof. refine (inj_countable Byte.to_N Byte.of_N Byte.of_to_N). Defined.

(** The bytes of a string literal. *)
Definition lit (s : string) : bytes := String.list_byte_of_string s.
#[global] Arguments lit !s%_stdpp /.

(** ** Outcomes *)
Inductive outcome (E A : Type) :=
  | Ok (a : A)
  | Err (e : E)
  | Panic
  | OutOfFuel.
Arguments Ok {E A} a.
Arguments Err {E A} e.
Arguments Panic {E A}.
Arguments OutOfFuel {E A}.

Definition obind {E A B} (m : outcome E A) (f : A -> outcome E B) : outcome E B :=
  match m with Ok a => f a | Err e => Err e | Panic => Panic | OutOfFuel => OutOfFuel end.

Declare Scope outcome_scope.
Delimit Scope outcome_scope with outcome.
Notation "'let!' x := m 'in' k" := (obind m (fun x => k))
  (at level 10, x pattern, m at level 100, k at level 200) : outcome_scope.
Notation "'guard!' b 'else' e 'in' k" := (if b then k else Err e)
  (at level 10, b at level 100, e at level 100, k at level 200)
  : outcome_scope.

(** A call that returns normally, with a value or an error. *)
Definition returns {E A} (m : outcome E A) : Prop :=
  match m with Ok _ | Err _ => True | _ => False end.

Definition isOk {E A} (m : outcome E A) : bool := match m with Ok _ => true | _ => false end.
Lemma isOk_inv {E A} (m : outcome E A) : isOk m = true -> exists a, m = Ok a.
Proof. destruct m; simpl; try discriminate. eauto. Qed.

Lemma obind_Ok {E A B} (m : outcome E A) (f : A -> outcome E B) b :
  obind m f = Ok b -> exists a, m = Ok a /\ f a = Ok b.
Proof. destruct m; simpl; try discriminate. eauto. Qed.

Lemma obind_returns {E A B} (m : outcome E A) (f : A -> outcome E B) :
  returns m -> (forall a, m = Ok a -> returns (f a)) -> returns (obind m f).
Proof. destruct m; simpl; auto. Qed.

(** Takes a successful chain of calls apart. *)
Ltac ok_inv :=
  repeat match goal with
  | H : obind ?m _ = Ok _ |- _ =>
      let a := fresh "a" in let Ha := fresh "Ha" in
      apply obind_Ok in H as (a & Ha & H)
  | H : Ok _ = Ok _ |- _ => injection H as H
  | H : Err _ = Ok _ |- _ => discriminate H
  | H : Panic = Ok _ |- _ => discriminate H
  | H : OutOfFuel = Ok _ |- _ => discriminate H
  | H : (if ?b then _ else _) = Ok _ |- _ => let E := fresh "E" in destruct b eqn:E
  end.

(** ** Bytes as numbers *)
Definition b2z (b : byte) : Z := Z.of_N (Byte.to_N b).
(** [byte(z)]: the low eight bits. *)
Definition z2b (z : Z) : byte := default "000"%byte (Byte.of_N (Z.to_N (z mod 256))).

Lemma b2z_range b : 0 <= b2z b < 256.
Proof. unfold b2z. pose proof (Byte.to_N_bounded b). lia. Qed.

Lemma z2b_b2z b : z2b (b2z b) = b.
Proof.
  unfold z2b. rewrite Z.mod_small by apply b2z_range. unfold b2z.
  by rewrite N2Z.id, Byte.of_to_N.
Qed.

Lemma b2z_z2b z : b2z (z2b z) = z mod 256.
Proof.
  unfold z2b, b2z. pose proof (Z.mod_pos_bound z 256 ltac:(lia)) as Hz.
  destruct (Byte.of_N (Z.to_N (z mod 256))) as [b|] eqn:E; simpl.
  - apply Byte.to_of_N in E. rewrite E. lia.
  - apply Byte.of_N_None_iff in E. lia.
Qed.

Lemma b2z_inj a b : b2z a = b2z b -> a = b.
Proof. intros H. rewrite <- (z2b_b2z a), <- (z2b_b2z b). by rewrite H. Qed.

(** A decidable property of all bytes is checked by computation. *)
Definition allBytes : bytes := z2b ∘ Z.of_nat <$> seq 0 256.

Lemma byte_forall (P : byte -> bool) : forallb P allBytes = true -> forall c, P c = true.
Proof.
  intros H c. rewrite forallb_forall in H. apply H. apply list_elem_of_In.
  apply list_elem_of_fmap. exists (Z.to_nat (b2z c)). pose proof (b2z_range c). split.
  - simpl. by rewrite Z2Nat.id, z2b_b2z by lia.
  - apply elem_of_seq. lia.
Qed.

(** ** Slices *)
Definition len (b : bytes) : Z := Z.of_nat (length b).

(** [b[i:]] and [b[:i]] *)
Definition sliceFrom {E} (b : bytes) (i : Z) : outcome E bytes :=
  if (0 <=? i) && (i <=? len b) then Ok (drop (Z.to_nat i) b) else Panic.
Definition sliceTo {E} (b : bytes) (i : Z) : outcome E bytes :=
  if (0 <=? i) && (i <=? len b) then Ok (take (Z.to_nat i) b) else Panic.

Lemma len_app a b : len (a ++ b) = len a + len b.
Proof. unfold len. rewrite length_app. lia. Qed.
Lemma len_nonneg b : 0 <= len b.
Proof. unfold len. lia. Qed.
Lemma len_zero b : len b = 0 -> b = [].
Proof. unfold len. destruct b; simpl; [done|lia]. Qed.

Lemma len_drop i b : 0 <= i <= len b -> len (drop (Z.to_nat i) b) = len b - i.
Proof. unfold len. rewrite length_drop. lia. Qed.
Lemma len_take i b : 0 <= i <= len b -> len (take (Z.to_nat i) b) = i.
Proof. unfold len. rewrite length_take. lia. Qed.

Lemma len_drop_length a b : len a <= len b -> len (drop (length a) b) = len b - len a.
Proof. unfold len. rewrite length_drop. lia. Qed.

Lemma sliceFrom_app {E} a b : sliceFrom (E:=E) (a ++ b) (len a) = Ok b.
Proof.
  unfold sliceFrom. rewrite len_app. pose proof (len_nonneg a). pose proof (len_nonneg b).
  rewrite !(proj2 (Z.leb_le _ _)) by lia. simpl. unfold len. by rewrite Nat2Z.id, drop_app_length.
Qed.

Lemma sliceTo_app {E} a b : sliceTo (E:=E) (a ++ b) (len a) = Ok a.
Proof.
  unfold sliceTo. rewrite len_app. pose proof (len_nonneg a). pose proof (len_nonneg b).
  rewrite !(proj2 (Z.leb_le _ _)) by lia. simpl. unfold len. by rewrite Nat2Z.id, take_app_length.
Qed.

Lemma sliceFrom_Ok {E} b i r :
  sliceFrom (E:=E) b i = Ok r -> 0 <= i <= len b /\ r = drop (Z.to_nat i) b.
Proof.
  unfold sliceFrom. destruct ((0 <=? i) && (i <=? len b)) eqn:E1; [|done].
  apply andb_true_iff in E1 as [?%Z.leb_le ?%Z.leb_le]. by intros [= <-].
Qed.

Lemma sliceTo_Ok {E} b i r :
  sliceTo (E:=E) b i = Ok r -> 0 <= i <= len b /\ r = take (Z.to_nat i) b.
Proof.
  unfold sliceTo. destruct ((0 <=? i) && (i <=? len b)) eqn:E1; [|done].
  apply andb_true_iff in E1 as [?%Z.leb_le ?%Z.leb_le]. by intros [= <-].
Qed.

Lemma sliceFrom_in {E} b i : 0 <= i <= len b -> sliceFrom (E:=E) b i = Ok (drop (Z.to_nat i) b).
Proof. intros. unfold sliceFrom. by rewrite !(proj2 (Z.leb_le _ _)) by lia. Qed.
Lemma sliceTo_in {E} b i : 0 <= i <= len b -> sliceTo (E:=E) b i = Ok (take (Z.to_nat i) b).
Proof. intros. unfold sliceTo. by rewrite !(proj2 (Z.leb_le _ _)) by lia. Qed.

(** ** Package strings, for a separator of one byte *)
Fixpoint split (sep : byte) (s : bytes) : list bytes :=
  match s with
  | [] => [[]]
  | c :: s =>
      if decide (c = sep) then [] :: split sep s
      else match split sep s with
           | [] => [[c]]
           | w :: ws => (c :: w) :: ws
           end
  end.

Fixpoint join (sep : byte) (l : list bytes) : bytes :=
  match l with
  | [] => []
  | [w] => w
  | w :: l => w ++ sep :: join sep l
  end.

(** [strings.TrimRight] with a cutset of one byte. *)
Fixpoint trimRight (c : byte) (s : bytes) : bytes :=
  match s with
  | [] => []
  | x :: s =>
      match trimRight c s with
      | [] => if decide (x = c) then [] else [x]
      | t => x :: t
      end
  end.

Definition contains (c : byte) (s : bytes) : bool := bool_decide (c ∈ s).

Lemma split_nonempty sep s : split sep s <> [].
Proof. destruct s; simpl; [done|]. case_decide; [done|]. by destruct (split sep s). Qed.

Lemma split_word sep w : sep ∉ w -> split sep w = [w].
Proof.
  induction w as [|c w IH]; intros Hs; [done|]. simpl.
  rewrite decide_False by set_solver. by rewrite IH by set_solver.
Qed.

Lemma split_app sep w s : sep ∉ w -> split sep (w ++ sep :: s) = w :: split sep s.
Proof.
  induction w as [|c w IH]; intros Hs; simpl; [by rewrite decide_True|].
  rewrite decide_False by set_solver. by rewrite IH by set_solver.
Qed.

Lemma split_join sep l :
  l <> [] -> Forall (fun w => sep ∉ w) l -> split sep (join sep l) = l.
Proof.
  intros Hl Hs. induction Hs as [|w l Hw Hs IH]; [done|].
  destruct l as [|w' l]; [by apply split_word|].
  change (join sep (w :: w' :: l)) with (w ++ sep :: join sep (w' :: l)).
  rewrite split_app by done. by rewrite IH.
Qed.

Lemma join_split sep s : join sep (split sep s) = s.
Proof.
  induction s as [|c s IH]; [done|]. simpl. case_decide as E.
  - subst. destruct (split sep s) eqn:Hs; [by apply split_nonempty in Hs|].
    change (join sep ([] :: l :: l0)) with (sep :: join sep (l :: l0)). by rewrite IH.
  - destruct (split sep s) as [|w ws] eqn:Hs; [by apply split_nonempty in Hs|].
    destruct ws; simpl in *; by rewrite <- IH.
Qed.

Lemma split_words sep s : Forall (fun w => sep ∉ w) (split sep s).
Proof.
  induction s as [|c s IH]; simpl; [repeat constructor; set_solver|].
  case_decide; [constructor; [set_solver|done]|].
  destruct IH as [|w ws Hw Hws]; repeat constructor; set_solver.
Qed.

(** A string that does not end in the byte is left alone. *)
Lemma trimRight_id c s : last s <> Some c -> trimRight c s = s.
Proof.
  induction s as [|x s IH]; intros Hl; [done|]. simpl.
  destruct s as [|y s].
  - simpl. rewrite decide_False; [done|]. intros ->. by apply Hl.
  - rewrite IH by (by rewrite last_cons_cons in Hl). done.
Qed.

(** ** Package strconv *)

(** The value of a decimal digit. *)
Definition digit (c : byte) : option Z :=
  let d := b2z c - 48 in if (0 <=? d) && (d <=? 9) then Some d else None.

(** [ParseUint(s, 10, bits)]: [None] for a syntax or a range error.  The source
    stops at the first digit that leaves the range; the value only grows, so the
    result is the one of the test at the end. *)
Fixpoint parseDigits (acc : Z) (s : bytes) : option Z :=
  match s with
  | [] => Some acc
  | c :: s => d ← digit c; parseDigits (acc * 10 + d) s
  end.

Definition ParseUint (s : bytes) (bits : Z) : option Z :=
  match s with
  | [] => None
  | _ => n ← parseDigits 0 s; if n <? 2 ^ bits then Some n else None
  end.

(** [FormatUint(n, 10)] for a number below [10^20], which covers [uint64]. *)
Fixpoint formatDigits (fuel : nat) (n : Z) (acc : bytes) : bytes :=
  match fuel with
  | O => acc
  | S fuel =>
      let acc := z2b (48 + n mod 10) :: acc in
      if n <? 10 then acc else formatDigits fuel (n / 10) acc
  end.
Definition FormatUint (n : Z) : bytes := formatDigits 20 n [].

Lemma digit_z2b d : 0 <= d <= 9 -> digit (z2b (48 + d)) = Some d.
Proof.
  intros Hd. unfold digit. rewrite b2z_z2b, Z.mod_small by lia.
  replace (48 + d - 48) with d by lia. by rewrite !(proj2 (Z.leb_le _ _)) by lia.
Qed.

Lemma parseDigits_format fuel n s :
  0 <= n < 10 ^ Z.of_nat fuel ->
  exists k, forall a, parseDigits a (formatDigits fuel n s) = parseDigits (a * k + n) s.
Proof.
  revert n s. induction fuel as [|fuel IH]; intros n s Hn.
  { exists 1. intros a. simpl in *. f_equal. lia. }
  assert (Hp : 10 ^ Z.of_nat (S fuel) = 10 * 10 ^ Z.of_nat fuel)
    by (rewrite Nat2Z.inj_succ, Z.pow_succ_r; lia).
  rewrite Hp in Hn. pose proof (Z.mod_pos_bound n 10 ltac:(lia)) as Hm.
  cbn [formatDigits]. destruct (Z.ltb_spec n 10) as [Hlt|Hge].
  - exists 10. intros a. cbn [parseDigits].
    rewrite (Z.mod_small n 10), digit_z2b by lia. reflexivity.
  - destruct (IH (n / 10) (z2b (48 + n mod 10) :: s)) as (k & Heq).
    { split; [apply Z.div_pos; lia|]. apply Z.div_lt_upper_bound; lia. }
    exists (k * 10). intros a. rewrite Heq. cbn [parseDigits].
    rewrite digit_z2b by lia. cbn [mbind option_bind]. f_equal. pose proof (Z.div_mod n 10 ltac:(lia)). lia.
Qed.

Lemma formatDigits_app fuel n acc : formatDigits fuel n acc = formatDigits fuel n [] ++ acc.
Proof.
  revert n acc. induction fuel as [|fuel IH]; intros n acc; [done|]. cbn [formatDigits].
  destruct (n <? 10); [done|]. rewrite IH, (IH _ [_]). by rewrite <- app_assoc.
Qed.

Lemma FormatUint_nonempty n : FormatUint n <> [].
Proof.
  unfold FormatUint. generalize 19%nat. intros fuel. cbn [formatDigits].
  destruct (n <? 10); [done|]. rewrite formatDigits_app. by destruct (formatDigits fuel _ []).
Qed.

(** Parsing what was formatted. *)
Lemma ParseUint_FormatUint n bits :
  0 <= n < 2 ^ bits -> bits <= 64 -> ParseUint (FormatUint n) bits = Some n.
Proof.
  intros Hn Hb. unfold ParseUint. pose proof (FormatUint_nonempty n) as Hne.
  destruct (FormatUint n) eqn:E; [done|]. rewrite <- E. unfold FormatUint.
  assert (2 ^ bits <= 2 ^ 64) by (apply Z.pow_le_mono_r; lia).
  destruct (parseDigits_format 20 n []) as (k & Heq).
  { assert (2 ^ 64 < 10 ^ Z.of_nat 20) by reflexivity. lia. }
  rewrite Heq. simpl. by rewrite (proj2 (Z.ltb_lt _ _)) by lia.
Qed.

(** Formatting gives digits only. *)
Definition isDigit (c : byte) : bool := bool_decide (is_Some (digit c)).

Lemma formatDigits_digits fuel n acc :
  0 <= n -> Forall (fun c => isDigit c = true) acc ->
  Forall (fun c => isDigit c = true) (formatDigits fuel n acc).
Proof.
  revert n acc. induction fuel as [|fuel IH]; intros n acc Hn Hacc; [done|]. cbn [formatDigits].
  assert (Forall (fun c => isDigit c = true) (z2b (48 + n mod 10) :: acc)).
  { constructor; [|done]. unfold isDigit. apply bool_decide_eq_true.
    rewrite digit_z2b by (pose proof (Z.mod_pos_bound n 10); lia). eauto. }
  destruct (n <? 10); [done|]. apply IH; [|done]. apply Z.div_pos; lia.
Qed.

Lemma FormatUint_notin n c : 0 <= n -> isDigit c = false -> c ∉ FormatUint n.
Proof.
  intros Hn Hc Hin. pose proof (formatDigits_digits 20 n [] Hn ltac:(constructor)) as H.
  rewrite Forall_forall in H. by rewrite (H c Hin) in Hc.
Qed.

(** ** Hexadecimal digits, as in [unhex] of net/url and the parser of net/netip *)
Definition inRange (c : byte) (lo hi : Z) : bool := (lo <=? b2z c) && (b2z c <=? hi).

Definition unhex (c : byte) : option Z :=
  if inRange c 48 57 then Some (b2z c - 48)
  else if inRange c 97 102 then Some (b2z c - 97 + 10)
  else if inRange c 65 70 then Some (b2z c - 65 + 10)
  else None.

(** ** Package encoding/binary *)
Fixpoint BigEndianPut (n : nat) (v : Z) : bytes :=
  match n with
  | O => []
  | S n => BigEndianPut n (v / 256) ++ [z2b v]
  end.

Definition BigEndianGet (b : bytes) : Z := fold_left (fun a c => a * 256 + b2z c) b 0.

Lemma BigEndianPut_len n v : len (BigEndianPut n v) = Z.of_nat n.
Proof. revert v. induction n; intros v; [done|]. simpl. rewrite len_app, IHn. unfold len. simpl. lia. Qed.

Lemma BigEndianGet_snoc b c : BigEndianGet (b ++ [c]) = BigEndianGet b * 256 + b2z c.
Proof. unfold BigEndianGet. by rewrite fold_left_app. Qed.

Lemma BigEndianGet_Put n v : 0 <= v < 256 ^ Z.of_nat n -> BigEndianGet (BigEndianPut n v) = v.
Proof.
  revert v. induction n as [|n IH]; intros v Hv; [simpl in *; unfold BigEndianGet; simpl; lia|].
  rewrite Nat2Z.inj_succ, Z.pow_succ_r in Hv by lia. simpl.
  rewrite BigEndianGet_snoc, b2z_z2b, IH.
  - pose proof (Z.div_mod v 256 ltac:(lia)). lia.
  - split; [apply Z.div_pos; lia|]. apply Z.div_lt_upper_bound; lia.
Qed.

Lemma BigEndianGet_range b : 0 <= BigEndianGet b < 256 ^ len b.
Proof.
  induction b as [|c b IH] using rev_ind; [by unfold BigEndianGet, len|].
  rewrite BigEndianGet_snoc, len_app. unfold len at 2. simpl length.
  rewrite Z.pow_add_r by (unfold len; lia). pose proof (b2z_range c). lia.
Qed.

Lemma BigEndianPut_Get b : BigEndianPut (length b) (BigEndianGet b) = b.
Proof.
  induction b as [|c b IH] using rev_ind; [done|].
  rewrite length_app, Nat.add_comm. cbn [length Nat.add BigEndianPut].
  rewrite BigEndianGet_snoc. pose proof (b2z_range c).
  replace ((BigEndianGet b * 256 + b2z c) / 256) with (BigEndianGet b)
    by (symmetry; rewrite Z.add_comm, Z.div_add, Z.div_small; lia).
  rewrite IH. f_equal. f_equal. apply b2z_inj. rewrite b2z_z2b.
  rewrite Z.add_comm, Z_mod_plus_full. by apply Z.mod_small.
Qed.
