(* ===== verification/Varint.v ===== *)
(** * Variable-length integers of multiaddrs (go-multiaddr/varint.go)

    The encoding itself is the package go-varint, a parameter: [Varint] has its
    functions, [VarintLaws] what its documentation promises of them (the minimal
    base-128 encoding of numbers below [2^63], as in encoding/binary), and
    [unsignedVarint] is an implementation with these laws.  On top of it
    [CodeToVarint] and [ReadVarintCode] restrict codes to 31 bits. *)
From Stdlib Require Import ZArith Lia.
From stdpp Require Import base tactics list numbers option sets.
From S2P Require Import Prelude GoBytes.
Local Open Scope Z_scope.
Local Open Scope outcome_scope.

Inductive varint_error := ErrOverflow | ErrUnderflow | ErrNotMinimal.

(** The errors of the package multiaddr, one constructor per place that makes one. *)
Inductive ma_error :=
  | EVarint (e : varint_error)
  | EInvalidCode
  | EMustBeginWithSlash
  | EEmptyMultiaddr
  | EUnknownProtocol (name : bytes)
  | EUnexpectedEnd
  | EInvalidValue (e : ma_error)
  | ETranscoder (what : bytes)
  | ENoProtocolWithCode (code : Z)
  | EInvalidSize (n : Z)
  | EAfterPath
  | EExtraData (n : Z)
  | ENilPtr
  | ENilProtocol
  | EStartIdx
  | EMissingVCode
  | ESizeMismatch (a b : Z)
  | EBadVCode
  | ENoValue (name : bytes)
  | EProtocolNotFound
  | EPanicked
  | EParse (e : ma_error)
  | ENameTaken (name : bytes)
  | ECodeTaken (code : Z)
  | ENoTranscoder
  | EPathSize.

Definition MaxInt32 : Z := 2 ^ 31 - 1.

(** [binary.PutUvarint]: the bytes it writes.  Ten bytes hold any [uint64]. *)
Fixpoint putUvarint (fuel : nat) (x : Z) : bytes :=
  match fuel with
  | O => []
  | S fuel =>
      if 128 <=? x then z2b (Z.lor x 128) :: putUvarint fuel (Z.shiftr x 7) else [z2b x]
  end.
Definition PutUvarint (x : Z) : bytes := putUvarint 10 x.

(** ** The package go-varint *)
Class Varint := {
  ToUvarint : Z -> bytes;
  FromUvarint : bytes -> outcome varint_error (Z * Z);
  UvarintSize : Z -> Z }.

Class VarintLaws (V : Varint) := {
  ToUvarint_spec n : 0 <= n < 2 ^ 63 -> ToUvarint n = PutUvarint n;
  UvarintSize_spec n : 0 <= n < 2 ^ 63 -> UvarintSize n = len (ToUvarint n);
  FromUvarint_ToUvarint n rest :
    0 <= n < 2 ^ 63 -> FromUvarint (ToUvarint n ++ rest) = Ok (n, len (ToUvarint n));
  FromUvarint_minimal b n k :
    FromUvarint b = Ok (n, k) ->
    0 <= n < 2 ^ 63 /\ k = len (ToUvarint n) /\ exists rest, b = ToUvarint n ++ rest;
  FromUvarint_returns b : returns (FromUvarint b) }.

Section codes.
Context `{V : Varint}.

Definition CodeToVarint (num : Z) : outcome ma_error bytes :=
  if (num <? 0) || (MaxInt32 <? num) then Err EInvalidCode else Ok (ToUvarint num).

Definition ReadVarintCode (b : bytes) : outcome ma_error (Z * Z) :=
  match FromUvarint b with
  | Ok (code, n) => if MaxInt32 <? code then Err (EVarint ErrOverflow) else Ok (code, n)
  | Err e => Err (EVarint e)
  | Panic => Panic
  | OutOfFuel => OutOfFuel
  end.
End codes.

(** ** An implementation: base 128, least significant group first, at most nine
    bytes, no superfluous zero group *)
Fixpoint decodeUvarint (fuel : nat) (first : bool) (b : bytes) : outcome varint_error (Z * Z) :=
  match fuel, b with
  | _, [] => Err ErrUnderflow
  | O, _ :: _ => Err ErrOverflow
  | S fuel, c :: b =>
      if b2z c <? 128 then
        if (b2z c =? 0) && negb first then Err ErrNotMinimal else Ok (b2z c, 1)
      else
        let! (n, k) := decodeUvarint fuel false b in
        Ok (b2z c - 128 + 128 * n, k + 1)
  end.

Definition unsignedVarint : Varint := {|
  ToUvarint := PutUvarint;
  FromUvarint := decodeUvarint 9 true;
  UvarintSize n := len (PutUvarint n) |}.

(** One more group: a byte with the continuation bit, then the rest. *)
Lemma lor_128 y : 0 <= y < 256 -> Z.lor y 128 = 128 + y mod 128.
Proof.
  intros Hy.
  assert (H : forallb (fun n => Z.lor (Z.of_nat n) 128 =? 128 + Z.of_nat n mod 128) (seq 0 256) = true)
    by (vm_compute; reflexivity).
  rewrite forallb_forall in H. specialize (H (Z.to_nat y)). rewrite Z2Nat.id in H by lia.
  apply Z.eqb_eq, H. apply in_seq. lia.
Qed.

Lemma group_byte x : b2z (z2b (Z.lor x 128)) = 128 + x mod 128.
Proof.
  rewrite b2z_z2b. change 256 with (2 ^ 8). rewrite <- Z.land_ones by lia.
  rewrite Z.land_lor_distr_l. change (Z.land 128 (Z.ones 8)) with 128.
  rewrite Z.land_ones by lia. pose proof (Z.mod_pos_bound x (2 ^ 8) ltac:(lia)).
  rewrite lor_128 by lia. f_equal. change (2 ^ 8) with (128 * 2).
  rewrite Z.rem_mul_r by lia. rewrite Z.mul_comm, Z_mod_plus_full. apply Z.mod_mod. lia.
Qed.

(** The decoder reads back what [putUvarint] wrote, whatever follows. *)
Lemma decode_putUvarint fuel extra x first rest :
  0 <= x < 128 ^ Z.of_nat fuel -> (first = true \/ 0 < x) -> fuel <> O ->
  decodeUvarint fuel first (putUvarint (fuel + extra) x ++ rest)
  = Ok (x, len (putUvarint (fuel + extra) x)).
Proof.
  revert x first. induction fuel as [|fuel IH]; intros x first Hx Hf Hfuel; [done|].
  rewrite Nat2Z.inj_succ, Z.pow_succ_r in Hx by lia. cbn [Nat.add putUvarint].
  destruct (Z.leb_spec 128 x) as [Hge|Hlt].
  - pose proof (Z.mod_pos_bound x 128 ltac:(lia)). pose proof (Z.div_mod x 128 ltac:(lia)).
    assert (Hsh : Z.shiftr x 7 = x / 128) by (by rewrite Z.shiftr_div_pow2 by lia).
    assert (Hq : 0 < x / 128 < 128 ^ Z.of_nat fuel).
    { split; [apply Z.div_str_pos; lia|]. apply Z.div_lt_upper_bound; lia. }
    cbn [app decodeUvarint]. rewrite group_byte. rewrite (proj2 (Z.ltb_ge _ _)) by lia.
    rewrite Hsh, IH; [|lia|lia|intros ->; simpl in Hq; lia]. simpl. f_equal. f_equal; [lia|].
    unfold len. simpl. lia.
  - cbn [app decodeUvarint]. rewrite b2z_z2b, Z.mod_small by lia.
    rewrite (proj2 (Z.ltb_lt _ _)) by lia. destruct (Z.eqb_spec x 0) as [->|]; [|done].
    destruct Hf as [->|]; [done|lia].
Qed.

(** What the decoder accepts is what [putUvarint] writes. *)
Lemma decode_minimal fuel extra first b n k :
  decodeUvarint fuel first b = Ok (n, k) ->
  0 <= n < 128 ^ Z.of_nat fuel /\ (first = true \/ 0 < n)
  /\ k = len (putUvarint (fuel + extra) n)
  /\ exists rest, b = putUvarint (fuel + extra) n ++ rest.
Proof.
  revert first b n k. induction fuel as [|fuel IH]; intros first b n k; [by destruct b|].
  destruct b as [|c b]; [done|]. cbn [decodeUvarint]. pose proof (b2z_range c) as Hc.
  rewrite Nat2Z.inj_succ, Z.pow_succ_r by lia.
  pose proof (Z.pow_pos_nonneg 128 (Z.of_nat fuel) ltac:(lia) ltac:(lia)).
  destruct (Z.ltb_spec (b2z c) 128) as [Hlt|Hge].
  - destruct ((b2z c =? 0) && negb first) eqn:E; [done|]. intros [= <- <-].
    cbn [Nat.add putUvarint]. rewrite (proj2 (Z.leb_gt _ _)) by lia. rewrite z2b_b2z.
    split_and!; [lia|lia| |done|by exists b].
    destruct first; [by left|right]. destruct (Z.eqb_spec (b2z c) 0); [done|lia].
  - intros H1. apply obind_Ok in H1 as ([m j] & Hd & [= <- <-]).
    destruct (IH _ _ _ _ Hd) as (Hm & [?|Hpos] & -> & rest & ->); [done|].
    cbn [Nat.add putUvarint]. rewrite (proj2 (Z.leb_le _ _)) by lia.
    assert (Hsh : Z.shiftr (b2z c - 128 + 128 * m) 7 = m).
    { rewrite Z.shiftr_div_pow2 by lia. change (2 ^ 7) with 128.
      rewrite Z.mul_comm, Z.div_add, Z.div_small; lia. }
    assert (Hb : z2b (Z.lor (b2z c - 128 + 128 * m) 128) = c).
    { apply b2z_inj. rewrite group_byte, Z.mul_comm, Z_mod_plus_full, Z.mod_small; lia. }
    rewrite Hsh, Hb. split_and!; [lia|lia|by right; lia| |by exists rest].
    unfold len. simpl. lia.
Qed.

Lemma decode_returns fuel first b : returns (decodeUvarint fuel first b).
Proof.
  revert first b. induction fuel as [|fuel IH]; intros first [|c b]; cbn [decodeUvarint]; try done.
  destruct (b2z c <? 128); [by destruct (_ && _)|].
  apply obind_returns; [apply IH|]. by intros [m j] _.
Qed.

#[export] Instance unsignedVarint_laws : VarintLaws unsignedVarint.
Proof.
  constructor; cbn [unsignedVarint ToUvarint FromUvarint UvarintSize]; try done.
  - intros n rest Hn. apply (decode_putUvarint 9 1); [exact Hn|by left|done].
  - intros b n k H. destruct (decode_minimal 9 1 _ _ _ _ H) as (? & _ & ? & ?). done.
  - apply decode_returns.
Qed.

(** ** Codes of 31 bits *)
Section code_laws.
Context `{VL : VarintLaws}.

Lemma ToUvarint_nonempty n : 0 <= n < 2 ^ 63 -> 0 < len (ToUvarint n).
Proof.
  intros Hn. rewrite ToUvarint_spec by done. unfold PutUvarint. generalize 9%nat. intros f.
  cbn [putUvarint]. destruct (128 <=? n); unfold len; simpl; lia.
Qed.

Lemma ReadVarintCode_ToUvarint n rest :
  0 <= n <= MaxInt32 -> ReadVarintCode (ToUvarint n ++ rest) = Ok (n, len (ToUvarint n)).
Proof.
  unfold MaxInt32. intros Hn. unfold ReadVarintCode. rewrite FromUvarint_ToUvarint by lia.
  unfold MaxInt32. by rewrite (proj2 (Z.ltb_ge _ _)) by lia.
Qed.

Lemma ReadVarintCode_inv b n k :
  ReadVarintCode b = Ok (n, k) ->
  0 <= n <= MaxInt32 /\ k = len (ToUvarint n) /\ exists rest, b = ToUvarint n ++ rest.
Proof.
  unfold ReadVarintCode. destruct (FromUvarint b) as [[c j]|e| |] eqn:E; try done.
  destruct (Z.ltb_spec MaxInt32 c); [done|]. intros [= <- <-].
  destruct (FromUvarint_minimal _ _ _ E) as (? & ? & ?). split_and!; [lia|lia|done..].
Qed.

Lemma ReadVarintCode_returns b : returns (ReadVarintCode b).
Proof.
  unfold ReadVarintCode. pose proof (FromUvarint_returns b).
  destruct (FromUvarint b) as [[c j]|e| |]; try done. by destruct (MaxInt32 <? c).
Qed.
End code_laws.

(** Codes are read exactly as they are written.  [ReadVarintCode] returns a code
    and a length if and only if the input begins with what [CodeToVarint] writes for
    that code, and the length is the one of it: codes of more than 31 bits and
    encodings that are not minimal are refused. *)
Theorem code_varint_exact `{VL : VarintLaws} b num n :
  ReadVarintCode b = Ok (num, n) <->
  exists enc rest, CodeToVarint num = Ok enc /\ b = enc ++ rest /\ n = len enc.
Proof.
  unfold CodeToVarint. split.
  - intros (Hn & -> & rest & ->)%ReadVarintCode_inv. exists (ToUvarint num), rest.
    rewrite (proj2 (Z.ltb_ge num 0)), (proj2 (Z.ltb_ge MaxInt32 num)) by lia. done.
  - intros (enc & rest & Henc & -> & ->).
    destruct (Z.ltb_spec num 0), (Z.ltb_spec MaxInt32 num); try discriminate.
    injection Henc as <-. apply ReadVarintCode_ToUvarint. lia.
Qed.

(** A code of four bytes; a fifth byte is left. *)
Lemma code_varint_exact_witness :
  @ReadVarintCode unsignedVarint (z2b 161 :: z2b 217 :: z2b 193 :: z2b 3 :: [z2b 9]) = Ok (7367841, 4)
  /\ exists enc rest, @CodeToVarint unsignedVarint 7367841 = Ok enc
       /\ z2b 161 :: z2b 217 :: z2b 193 :: z2b 3 :: [z2b 9] = enc ++ rest /\ 4 = len enc.
Proof.
  split; [vm_compute; reflexivity|].
  apply (proj1 (@code_varint_exact unsignedVarint unsignedVarint_laws _ _ _)).
  vm_compute. reflexivity.
Defined.
