(* ===== verification/MaProtocol.v ===== *)
(** * Protocols of multiaddrs and their registry (go-multiaddr/protocol.go)

    A [Protocol] describes one kind of multiaddr component; its [Transcoder]
    converts the argument between bytes and text.  The package variables
    [Protocols], [protocolsByName], [protocolsByCode] and [protocolPtrByCode]
    are the record [registry], which [AddProtocol] changes. *)
From Stdlib Require Import ZArith Lia.
From stdpp Require Import base tactics list numbers option gmap sets.
From S2P Require Import Prelude GoBytes Varint.
Local Open Scope Z_scope.
Local Open Scope outcome_scope.

(** A pointer to a [Protocol] is never compared, so it is the protocol it points
    to.  The interface value [Transcoder] may be nil. *)
Record Transcoder := mkTranscoder {
  StringToBytes : bytes -> outcome ma_error bytes;
  BytesToString : bytes -> outcome ma_error bytes;
  ValidateBytes : bytes -> outcome ma_error unit }.

Record Protocol := mkProtocol {
  Name : bytes;
  Code : Z;
  VCode : bytes;
  Size : Z;
  Path : bool;
  ProtoTranscoder : option Transcoder }.

Definition LengthPrefixedVarSize : Z := -1.

(** [Protocol{}] *)
Definition zeroProtocol : Protocol := mkProtocol [] 0 [] 0 false None.

Record registry := mkRegistry {
  Protocols : list Protocol;
  protocolsByName : gmap bytes Protocol;
  protocolsByCode : gmap Z Protocol;
  protocolPtrByCode : gmap Z Protocol }.

Definition emptyRegistry : registry := mkRegistry [] ∅ ∅ ∅.

Definition isNil {A} (o : option A) : bool := match o with None => true | Some _ => false end.

Definition AddProtocol (r : registry) (p : Protocol) : outcome ma_error registry :=
  match protocolsByName r !! Name p with
  | Some _ => Err (ENameTaken (Name p))
  | None =>
      match protocolsByCode r !! Code p with
      | Some _ => Err (ECodeTaken (Code p))
      | None =>
          if negb (Size p =? 0) && isNil (ProtoTranscoder p) then Err ENoTranscoder
          else if Path p && (0 <=? Size p) then Err EPathSize
          else if len (VCode p) =? 0 then Err EMissingVCode
          else Ok (mkRegistry (Protocols r ++ [p])
                 (<[Name p := p]> (protocolsByName r))
                 (<[Code p := p]> (protocolsByCode r))
                 (<[Code p := p]> (protocolPtrByCode r)))
      end
  end.

(** Reading a Go map at a missing key gives the zero value. *)
Definition ProtocolWithName (r : registry) (s : bytes) : Protocol :=
  default zeroProtocol (protocolsByName r !! s).
Definition ProtocolWithCode (r : registry) (c : Z) : Protocol :=
  default zeroProtocol (protocolsByCode r !! c).

(** [strings.Trim(s, "/")], then the protocol of each name. *)
Fixpoint protocolsOf (r : registry) (sp : list bytes) : outcome ma_error (list Protocol) :=
  match sp with
  | [] => Ok []
  | name :: sp =>
      let p := ProtocolWithName r name in
      if Code p =? 0 then Err (EUnknownProtocol name)
      else let! t := protocolsOf r sp in Ok (p :: t)
  end.

Fixpoint trimLeft (c : byte) (s : bytes) : bytes :=
  match s with
  | [] => []
  | x :: s' => if decide (x = c) then trimLeft c s' else s
  end.

Definition slash : byte := Byte.x2f.

Definition ProtocolsWithString (r : registry) (s : bytes) : outcome ma_error (list Protocol) :=
  protocolsOf r (split slash (trimRight slash (trimLeft slash s))).

(** ** The registry invariant *)

(** What [AddProtocol] checks of a protocol alone. *)
Definition protocol_ok (p : Protocol) : Prop :=
  (Size p <> 0 -> ProtoTranscoder p <> None)
  /\ (Path p = true -> Size p < 0) /\ VCode p <> [].

Record registry_ok (r : registry) : Prop := {
  ro_name p : p ∈ Protocols r -> protocolsByName r !! Name p = Some p;
  ro_nameIn n p : protocolsByName r !! n = Some p -> p ∈ Protocols r;
  ro_code p : p ∈ Protocols r <-> protocolsByCode r !! Code p = Some p;
  ro_codeKey c p : protocolsByCode r !! c = Some p -> Code p = c;
  ro_ptr : protocolPtrByCode r = protocolsByCode r;
  ro_ok : Forall protocol_ok (Protocols r);
  ro_nodup : NoDup (Protocols r) }.

Lemma registry_ok_empty : registry_ok emptyRegistry.
Proof.
  constructor; simpl; try done; try constructor; try set_solver.
Qed.

(** The protocols [AddProtocol] accepts, and the registry after it. *)
Lemma AddProtocol_Ok r p r' :
  AddProtocol r p = Ok r' ->
  protocolsByName r !! Name p = None /\ protocolsByCode r !! Code p = None /\ protocol_ok p
  /\ r' = mkRegistry (Protocols r ++ [p]) (<[Name p := p]> (protocolsByName r))
            (<[Code p := p]> (protocolsByCode r)) (<[Code p := p]> (protocolPtrByCode r)).
Proof.
  unfold AddProtocol. destruct (protocolsByName r !! Name p); [done|].
  destruct (protocolsByCode r !! Code p); [done|].
  destruct (negb (Size p =? 0) && isNil (ProtoTranscoder p)) eqn:E1; [done|].
  destruct (Path p && (0 <=? Size p)) eqn:E2; [done|].
  destruct (Z.eqb_spec (len (VCode p)) 0) as [|E3]; [done|]. intros [= <-].
  split_and!; try done. split_and!.
  - intros Hs Ht. rewrite Ht in E1. rewrite (proj2 (Z.eqb_neq _ _)) in E1 by done. done.
  - intros Hp. rewrite Hp in E2. simpl in E2. apply Z.leb_gt in E2. done.
  - intros Hv. rewrite Hv in E3. done.
Qed.

Lemma registry_ok_add r p r' : registry_ok r -> AddProtocol r p = Ok r' -> registry_ok r'.
Proof.
  intros [H1 H2 H3 H4 H5 H6 H7] (Hn & Hc & Hp & ->)%AddProtocol_Ok.
  assert (Hfresh : p ∉ Protocols r) by (intros Hin%H1; congruence).
  constructor; simpl.
  - intros q. rewrite elem_of_app, list_elem_of_singleton, lookup_insert_Some.
    intros [Hq%H1| ->]; [|by left]. right. split; [congruence|done].
  - intros n q. rewrite elem_of_app, list_elem_of_singleton.
    intros [[_ ->]|[_ ?%H2]]%lookup_insert_Some; [by right|by left].
  - intros q. rewrite elem_of_app, list_elem_of_singleton, H3, lookup_insert_Some. split.
    + intros [Hq| ->]; [|by left]. right. split; [congruence|done].
    + intros [[_ ->]|[_ ?]]; [by right|by left].
  - intros c q [[<- <-]|[_ ?]]%lookup_insert_Some; [done|by apply H4].
  - by rewrite H5.
  - apply Forall_app. split; [done|by constructor].
  - apply NoDup_app. split_and!; [done| |apply NoDup_singleton].
    intros q Hq ->%list_elem_of_singleton. done.
Qed.

(** [protocolsByName[n] = p], as [init] does for the alias of [p2p]. *)
Definition setName (r : registry) (n : bytes) (p : Protocol) : registry :=
  mkRegistry (Protocols r) (<[n := p]> (protocolsByName r)) (protocolsByCode r) (protocolPtrByCode r).

(** An alias must not hide the name of another protocol. *)
Lemma registry_ok_setName r n p :
  registry_ok r -> p ∈ Protocols r -> (forall q, q ∈ Protocols r -> Name q = n -> q = p) ->
  registry_ok (setName r n p).
Proof.
  intros [H1 H2 H3 H4 H5 H6 H7] Hp Hn. constructor; simpl; try done.
  - intros q Hq. destruct (decide (Name q = n)) as [E|].
    + pose proof (Hn q Hq E) as ->. by rewrite E, lookup_insert_eq.
    + rewrite lookup_insert_ne by done. by apply H1.
  - intros m q [[<- <-]|[_ ?%H2]]%lookup_insert_Some; done.
Qed.

(** The calls of [AddProtocol] that a program makes, in order. *)
Fixpoint addAll (r : registry) (ps : list Protocol) : outcome ma_error registry :=
  match ps with
  | [] => Ok r
  | p :: ps => let! r := AddProtocol r p in addAll r ps
  end.

Lemma addAll_ok r ps r' :
  registry_ok r -> addAll r ps = Ok r' ->
  registry_ok r' /\ Protocols r' = Protocols r ++ ps.
Proof.
  revert r. induction ps as [|p ps IH]; intros r Hr; simpl.
  - intros [= <-]. by rewrite app_nil_r.
  - intros (r1 & H1 & H2)%obind_Ok. pose proof (registry_ok_add _ _ _ Hr H1) as Hr1.
    destruct (IH _ Hr1 H2) as [? ->]. split; [done|].
    apply AddProtocol_Ok in H1 as (_ & _ & _ & ->). simpl. by rewrite <- app_assoc.
Qed.

(** Protocols with distinct fresh names and codes are all accepted. *)
Lemma AddProtocol_accepts r p :
  protocolsByName r !! Name p = None -> protocolsByCode r !! Code p = None -> protocol_ok p ->
  exists r', AddProtocol r p = Ok r'.
Proof.
  intros Hn Hc (Ht & Hp & Hv). unfold AddProtocol. rewrite Hn, Hc.
  destruct (Z.eqb_spec (Size p) 0) as [|Hs]; cbn [negb andb].
  2: { destruct (ProtoTranscoder p); [|by destruct (Ht Hs)]. cbn [isNil]. revert Hp.
       destruct (Path p); cbn [andb]; intros Hp;
         [rewrite (proj2 (Z.leb_gt _ _)) by (by apply Hp)|];
         (destruct (Z.eqb_spec (len (VCode p)) 0) as [E|]; [by apply len_zero in E|eauto]). }
  destruct (Path p); cbn [andb].
  - specialize (Hp eq_refl). lia.
  - destruct (Z.eqb_spec (len (VCode p)) 0) as [E|]; [by apply len_zero in E|eauto].
Qed.

Lemma addAll_accepts r ps :
  Forall protocol_ok ps -> NoDup (Name <$> ps) -> NoDup (Code <$> ps) ->
  (forall p, p ∈ ps -> protocolsByName r !! Name p = None /\ protocolsByCode r !! Code p = None) ->
  exists r', addAll r ps = Ok r'.
Proof.
  intros Hok. revert r. induction Hok as [|p ps Hp Hok IH]; intros r Hn Hc Hfresh; [simpl; eauto|].
  rewrite !fmap_cons in *. apply NoDup_cons in Hn as [Hn1 Hn2]. apply NoDup_cons in Hc as [Hc1 Hc2].
  destruct (Hfresh p ltac:(set_solver)) as [Hfn Hfc].
  destruct (AddProtocol_accepts r p Hfn Hfc Hp) as [r1 Hr1]. cbn [addAll]. rewrite Hr1. cbn [obind].
  apply IH; [done|done|]. apply AddProtocol_Ok in Hr1 as (_ & _ & _ & ->). simpl.
  intros q Hq. destruct (Hfresh q ltac:(set_solver)) as [? ?].
  assert (Name p <> Name q) by (intros E; apply Hn1; rewrite E; by apply list_elem_of_fmap_2).
  assert (Code p <> Code q) by (intros E; apply Hc1; rewrite E; by apply list_elem_of_fmap_2).
  by rewrite !lookup_insert_ne.
Qed.

Lemma addAll_names r ps r' n p :
  addAll r ps = Ok r' -> protocolsByName r' !! n = Some p ->
  protocolsByName r !! n = Some p \/ (p ∈ ps /\ Name p = n).
Proof.
  revert r. induction ps as [|q ps IH]; intros r; simpl; [intros [= <-]; by left|].
  intros (r1 & (_ & _ & _ & ->)%AddProtocol_Ok & H2)%obind_Ok Hl.
  destruct (IH _ H2 Hl) as [Hr|[? ?]]; [|right; set_solver]. simpl in Hr.
  apply lookup_insert_Some in Hr as [[<- ->]|[_ ?]]; [right; set_solver|by left].
Qed.

(** The registry is consistent.  After any sequence of accepted [AddProtocol]
    calls exactly the added protocols are found, by name and by code alike: a
    lookup by either key gives the same protocol, no two protocols share a key,
    and each one with an argument has a transcoder. *)
Theorem registry_lookup_agree ps r :
  addAll emptyRegistry ps = Ok r ->
  NoDup ps /\ (forall p, p ∈ ps ->
    ProtocolWithName r (Name p) = p /\ ProtocolWithCode r (Code p) = p
    /\ protocolPtrByCode r !! Code p = Some p /\ protocol_ok p)
  /\ (forall s, s ∉ Name <$> ps -> ProtocolWithName r s = zeroProtocol)
  /\ (forall c, c ∉ Code <$> ps -> ProtocolWithCode r c = zeroProtocol).
Proof.
  intros H. destruct (addAll_ok _ _ _ registry_ok_empty H) as [[H1 H2 H3 H4 H5 H6 H7] Hps].
  simpl in Hps. rewrite Hps in *. split_and!; [done| | |].
  - intros p Hp. unfold ProtocolWithName, ProtocolWithCode. rewrite H5.
    rewrite (H1 p Hp), (proj1 (H3 p) Hp). split_and!; try done.
    rewrite Forall_forall in H6. by apply H6.
  - intros s Hs. unfold ProtocolWithName. destruct (protocolsByName r !! s) as [p|] eqn:E; [|done].
    destruct (addAll_names _ _ _ _ _ H E) as [Hl|[Hp <-]]; [by destruct (lookup_empty_Some (M:=gmap bytes) s p)|].
    destruct Hs. by apply list_elem_of_fmap_2.
  - intros c Hc. unfold ProtocolWithCode. destruct (protocolsByCode r !! c) as [p|] eqn:E; [|done].
    destruct Hc. apply list_elem_of_fmap. exists p. pose proof (H4 _ _ E) as Hn. subst c.
    split; [done|]. by apply H3.
Qed.

(** One protocol without an argument. *)
Lemma registry_lookup_agree_witness :
  exists r, addAll emptyRegistry [mkProtocol [Byte.x61] 7 [Byte.x07] 0 false None] = Ok r
  /\ Code (ProtocolWithName r [Byte.x61]) = 7 /\ ProtocolWithName r [Byte.x62] = zeroProtocol.
Proof.
  eexists. split; [reflexivity|].
  destruct (registry_lookup_agree [mkProtocol [Byte.x61] 7 [Byte.x07] 0 false None] _ eq_refl)
    as (_ & Hin & Hout & _). split.
  - destruct (Hin (mkProtocol [Byte.x61] 7 [Byte.x07] 0 false None)) as [Hn _]; [set_solver|].
    exact (f_equal Code Hn).
  - apply Hout. intros H. by apply list_elem_of_singleton in H.
Defined.
