(* ===== verification/MaComponent.v ===== *)
(** * Components of multiaddrs (go-multiaddr/component.go)

    A [Component] holds the encoded bytes of one component, its protocol and the
    index where the value starts.  A method that accepts a nil receiver takes an
    [option Component].  [validateComponent] is characterised: the components it
    accepts are the ones [encodeComponent] builds from a protocol and a value the
    protocol's transcoder accepts. *)
From Stdlib Require Import ZArith Lia.
From stdpp Require Import base tactics list numbers option gmap sets strings.
From S2P Require Import Prelude GoBytes Varint MaProtocol.
Local Open Scope Z_scope.
Local Open Scope outcome_scope.

Record Component := mkComponent {
  c_bytes : bytes;
  c_protocol : option Protocol;
  valueStartIdx : Z }.

(** [copy(dst[off:], src)] and [binary.PutUvarint(dst[off:], x)] *)
Definition copyAt {E} (dst : bytes) (off : Z) (src : bytes) : outcome E (bytes * Z) :=
  let! room := sliceFrom dst off in
  let n := Z.min (len room) (len src) in
  Ok (take (Z.to_nat off) dst ++ take (Z.to_nat n) src ++ drop (Z.to_nat n) room, n).
Definition putUvarintAt {E} (dst : bytes) (off : Z) (x : Z) : outcome E (bytes * Z) :=
  let! room := sliceFrom dst off in
  if len room <? len (PutUvarint x) then Panic else copyAt dst off (PutUvarint x).

Section component.
Context `{V : Varint}.

Definition Component_Bytes (c : option Component) : bytes :=
  match c with None => [] | Some c => c_bytes c end.

Definition Component_Protocol (c : option Component) : Protocol :=
  match c with None => zeroProtocol | Some c => default zeroProtocol (c_protocol c) end.

Definition Component_Protocols (c : option Component) : list Protocol :=
  match c with
  | None => []
  | Some c => match c_protocol c with None => [] | Some p => [p] end
  end.

Definition Component_Equal (c o : option Component) : bool :=
  match c, o with
  | Some c, Some o => bool_decide (c_bytes c = c_bytes o)
  | None, None => true
  | _, _ => false
  end.

(** [strings.Compare] *)
Fixpoint compareBytes (a b : bytes) : Z :=
  match a, b with
  | [], [] => 0
  | [], _ :: _ => -1
  | _ :: _, [] => 1
  | x :: a, y :: b =>
      if b2z x <? b2z y then -1 else if b2z y <? b2z x then 1 else compareBytes a b
  end.

Definition Component_Compare (c o : option Component) : Z :=
  match c, o with
  | None, None => 0
  | None, Some _ => -1
  | Some _, None => 1
  | Some c, Some o => compareBytes (c_bytes c) (c_bytes o)
  end.

Definition RawValue (c : option Component) : outcome ma_error bytes :=
  match c with None => Ok [] | Some c => sliceFrom (c_bytes c) (valueStartIdx c) end.

Definition valueAndErr (c : option Component) : outcome ma_error bytes :=
  match c with
  | None => Err ENilPtr
  | Some c =>
      match c_protocol c with
      | None => Err ENilProtocol
      | Some p =>
          match ProtoTranscoder p with
          | None => Ok []
          | Some t => let! v := sliceFrom (c_bytes c) (valueStartIdx c) in BytesToString t v
          end
      end
  end.

(** The error of [valueAndErr] is dropped, a panic is not. *)
Definition Value (c : option Component) : outcome ma_error bytes :=
  match c with
  | None => Ok []
  | Some _ => match valueAndErr c with Err _ => Ok [] | o => o end
  end.

Definition Component_ValueForProtocol (c : option Component) (code : Z) : outcome ma_error bytes :=
  match c with
  | None => Err ENilPtr
  | Some c' =>
      match c_protocol c' with
      | None => Err ENilProtocol
      | Some p => if Code p =? code then Value c else Err EProtocolNotFound
      end
  end.

(** What [writeTo] appends to the builder. *)
Definition writeTo (c : option Component) : outcome ma_error bytes :=
  match c with
  | None => Ok []
  | Some c' =>
      match c_protocol c' with
      | None => Ok []
      | Some p =>
          let! value := Value c in
          let name := slash :: Name p in
          match value with
          | [] => Ok name
          | v0 :: _ =>
              if Path p && bool_decide (v0 = slash) then Ok (name ++ value)
              else Ok (name ++ slash :: value)
          end
      end
  end.

Definition Component_String (c : option Component) : outcome ma_error bytes :=
  match c with None => Ok (lit "<nil component>") | Some _ => writeTo c end.

(** The size checks in the middle of [validateComponent]. *)
Definition validateSize (p : Protocol) (b : bytes) (startIdx : Z) : outcome ma_error unit :=
  if Size p <? 0 then
    let! rest := sliceFrom b (len (VCode p)) in
    let! (size, n) := ReadVarintCode rest in
    let! value := sliceFrom b startIdx in
    if negb (size =? len value) then Err (ESizeMismatch size (len value))
    else if negb (len (VCode p) + n + size =? len b)
         then Err (ESizeMismatch (len (VCode p) + n + size) (len b))
         else Ok tt
  else
    let size := Z.quot (Size p) 8 in
    let! value := sliceFrom b startIdx in
    if negb (size =? len value) then Err (ESizeMismatch size (len value))
    else if negb (len (VCode p) + size =? len b)
         then Err (ESizeMismatch (len (VCode p) + size) (len b))
         else Ok tt.

Definition validateComponent (c : option Component) : outcome ma_error unit :=
  match c with
  | None => Err ENilPtr
  | Some c' =>
      match c_protocol c' with
      | None => Err ENilProtocol
      | Some p =>
          let b := c_bytes c' in
          if len b <? valueStartIdx c' then Err EStartIdx
          else if len (VCode p) =? 0 then Err EMissingVCode
          else if len b <? len (VCode p) then Err (ESizeMismatch (len b) (len (VCode p)))
          else
            let! vcode := sliceTo b (len (VCode p)) in
            if negb (bool_decide (vcode = VCode p)) then Err EBadVCode
            else
              let! _ := validateSize p b (valueStartIdx c') in
              let! _ := valueAndErr c in
              match ProtoTranscoder p with
              | None => Ok tt
              | Some t =>
                  let! value := sliceFrom b (valueStartIdx c') in ValidateBytes t value
              end
      end
  end.

Definition newComponent (r : registry) (protocol : Protocol) (bvalue : bytes)
    : outcome ma_error Component :=
  let protocolPtr := default protocol (protocolPtrByCode r !! Code protocol) in
  let size := len bvalue + len (VCode protocol) in
  let size := if Size protocol <? 0 then size + UvarintSize (len bvalue) else size in
  let maddr := replicate (Z.to_nat size) Byte.x00 in
  let! (maddr, offset) := copyAt maddr 0 (VCode protocol) in
  let! (maddr, offset) :=
    (if Size protocol <? 0 then
       let! (maddr, n) := putUvarintAt maddr offset (len bvalue) in Ok (maddr, offset + n)
     else Ok (maddr, offset)) in
  let! (maddr, _) := copyAt maddr offset bvalue in
  if negb (len maddr =? offset + len bvalue)
  then Err (ESizeMismatch (len maddr) (offset + len bvalue))
  else
    let c := mkComponent maddr (Some protocolPtr) offset in
    let! _ := validateComponent (Some c) in
    Ok c.

Definition NewComponent (r : registry) (protocol value : bytes) : outcome ma_error Component :=
  let p := ProtocolWithName r protocol in
  if Code p =? 0 then Err (EUnknownProtocol protocol)
  else match ProtoTranscoder p with
       | Some t => let! bts := StringToBytes t value in newComponent r p bts
       | None => if bool_decide (value = []) then newComponent r p [] else Err (ENoValue (Name p))
       end.

(** ** The components [validateComponent] accepts *)

(** What comes before the value: the code, and for a value of variable size its
    length. *)
Definition header (p : Protocol) (value : bytes) : bytes :=
  VCode p ++ if Size p <? 0 then ToUvarint (len value) else [].

Definition encodeComponent (p : Protocol) (value : bytes) : Component :=
  mkComponent (header p value ++ value) (Some p) (len (header p value)).

Definition transcodes (p : Protocol) (value : bytes) : Prop :=
  match ProtoTranscoder p with
  | None => True
  | Some t => (exists s, BytesToString t value = Ok s) /\ ValidateBytes t value = Ok tt
  end.

Definition value_ok (p : Protocol) (value : bytes) : Prop :=
  (Size p < 0 -> len value <= MaxInt32) /\ (0 <= Size p -> len value = Size p / 8)
  /\ transcodes p value.

Context {VL : VarintLaws V}.

Lemma header_len p value :
  len value <= MaxInt32 ->
  len (header p value)
  = len (VCode p) + if Size p <? 0 then len (ToUvarint (len value)) else 0.
Proof. intros. unfold header. rewrite len_app. by destruct (Size p <? 0). Qed.

Lemma valueAndErr_encode p value :
  valueAndErr (Some (encodeComponent p value)) =
    match ProtoTranscoder p with None => Ok [] | Some t => BytesToString t value end.
Proof.
  unfold valueAndErr, encodeComponent. simpl. destruct (ProtoTranscoder p); [|done].
  by rewrite sliceFrom_app.
Qed.

Lemma validateSize_encode p value :
  (Size p < 0 -> len value <= MaxInt32) -> (0 <= Size p -> len value = Size p / 8) ->
  validateSize p (header p value ++ value) (len (header p value)) = Ok tt.
Proof.
  intros Hvar Hfix. pose proof (len_nonneg value). unfold validateSize.
  rewrite sliceFrom_app. unfold header. rewrite <- app_assoc.
  destruct (Z.ltb_spec (Size p) 0) as [Hneg|Hpos].
  - rewrite sliceFrom_app. cbn [obind]. rewrite ReadVarintCode_ToUvarint by lia. cbn [obind].
    rewrite !len_app, !Z.add_assoc, !Z.eqb_refl. done.
  - rewrite Z.quot_div_nonneg by lia. rewrite <- Hfix by lia. cbn [obind].
    rewrite !len_app. change (len []) with 0. rewrite !Z.add_0_l, !Z.eqb_refl. done.
Qed.

Lemma validate_encode p value :
  VCode p <> [] -> value_ok p value -> validateComponent (Some (encodeComponent p value)) = Ok tt.
Proof.
  intros Hv (Hvar & Hfix & Htr). unfold validateComponent.
  rewrite valueAndErr_encode. cbn [encodeComponent c_protocol c_bytes valueStartIdx].
  rewrite validateSize_encode, sliceFrom_app by done.
  pose proof (len_nonneg value). pose proof (len_nonneg (VCode p)).
  rewrite (proj2 (Z.ltb_ge _ _)) by (rewrite len_app; lia).
  destruct (Z.eqb_spec (len (VCode p)) 0) as [E|_]; [by apply len_zero in E|].
  unfold header. rewrite <- app_assoc. rewrite (proj2 (Z.ltb_ge _ _)).
  2: { rewrite !len_app. pose proof (len_nonneg (if Size p <? 0 then ToUvarint (len value) else [])). lia. }
  rewrite sliceTo_app. cbn [obind]. rewrite bool_decide_true by done.
  cbn [negb]. unfold transcodes in Htr.
  destruct (ProtoTranscoder p) as [t|]; [|done]. destruct Htr as [[s ->] Hval]. done.
Qed.

(** What is before index [i] and what is from it on. *)
Lemma split_at (b : bytes) i : 0 <= i <= len b -> exists x y,
  b = x ++ y /\ len x = i /\ drop (Z.to_nat i) b = y /\ take (Z.to_nat i) b = x.
Proof.
  intros Hi. exists (take (Z.to_nat i) b), (drop (Z.to_nat i) b).
  by rewrite take_drop, len_take.
Qed.

Lemma app_len_inj (a b x y : bytes) : a ++ b = x ++ y -> len a = len x -> a = x /\ b = y.
Proof. unfold len. intros H Hl. apply app_inj_1; [lia|done]. Qed.

Lemma validateSize_inv p (v b : bytes) i :
  b = VCode p ++ v -> validateSize p b i = Ok tt ->
  exists value, b = header p value ++ value /\ i = len (header p value)
    /\ (Size p < 0 -> len value <= MaxInt32) /\ (0 <= Size p -> len value = Size p / 8).
Proof.
  intros -> H. unfold validateSize in H. unfold header.
  destruct (Z.ltb_spec (Size p) 0) as [Hneg|Hpos].
  - rewrite sliceFrom_app in H. cbn [obind] in H. apply obind_Ok in H as ([size n] & Hr & H).
    apply ReadVarintCode_inv in Hr as (Hs & -> & rest & ->).
    apply obind_Ok in H as (value & [Hi ->]%sliceFrom_Ok & H).
    destruct (Z.eqb_spec size (len (drop (Z.to_nat i) (VCode p ++ ToUvarint size ++ rest)))) as [E|];
      [|done]. rewrite len_drop in E by done.
    destruct (Z.eqb_spec (len (VCode p) + len (ToUvarint size) + size)
      (len (VCode p ++ ToUvarint size ++ rest))) as [E2|]; [|done].
    rewrite !len_app in *. exists rest. replace size with (len rest) in * by lia.
    rewrite <- app_assoc. split_and!; [done|rewrite len_app; lia|lia|lia].
  - apply obind_Ok in H as (value & [Hi ->]%sliceFrom_Ok & H).
    rewrite len_drop in H by done. rewrite Z.quot_div_nonneg, len_app in H by lia.
    destruct (Z.eqb_spec (Size p / 8) (len (VCode p) + len v - i)); [|done].
    destruct (Z.eqb_spec (len (VCode p) + Size p / 8) (len (VCode p) + len v)); [|done].
    exists v. rewrite app_nil_r. split_and!; [done|lia|lia|lia].
Qed.

(** [validateComponent] accepts exactly the encodings of values of the protocol. *)
Lemma validate_inv c :
  validateComponent (Some c) = Ok tt ->
  exists p value, c = encodeComponent p value /\ VCode p <> [] /\ value_ok p value.
Proof.
  destruct c as [b [p|] i]; [|done]. unfold validateComponent.
  cbn [c_protocol c_bytes valueStartIdx]. intros H.
  destruct (Z.ltb_spec (len b) i); [done|].
  destruct (Z.eqb_spec (len (VCode p)) 0) as [|Hv]; [done|].
  destruct (Z.ltb_spec (len b) (len (VCode p))); [done|].
  apply obind_Ok in H as (vcode & [Hr ->]%sliceTo_Ok & H).
  case_bool_decide as Hvc; [|done]. cbn [negb] in H.
  apply obind_Ok in H as ([] & Hsize & H).
  destruct (validateSize_inv p (drop (Z.to_nat (len (VCode p))) b) b i) as (value & -> & -> & ? & ?);
    [rewrite <- Hvc at 1; by rewrite take_drop|done|].
  exists p, value. split_and!; [done|by intros E; rewrite E in Hv|].
  split_and!; [done|done|]. unfold transcodes.
  destruct (ProtoTranscoder p) as [t|] eqn:Ht; [|done].
  apply obind_Ok in H as (s & Hs & H). unfold valueAndErr in Hs. simpl in Hs. rewrite Ht in Hs.
  rewrite sliceFrom_app in Hs, H. cbn [obind] in Hs, H. split; [by exists s|done].
Qed.

(** ** [newComponent] writes the encoding *)
Lemma copyAt_app {E} (a room src : bytes) :
  len src <= len room ->
  copyAt (E:=E) (a ++ room) (len a) src = Ok (a ++ src ++ drop (length src) room, len src).
Proof.
  intros Hl. unfold copyAt. rewrite sliceFrom_app. cbn [obind]. rewrite Z.min_r by done.
  unfold len at 1 2 3 4. rewrite !Nat2Z.id, take_app_length, take_ge by done. done.
Qed.

Lemma newComponent_eq r p value :
  len value < 2 ^ 63 ->
  newComponent r p value =
    let c := mkComponent (header p value ++ value)
               (Some (default p (protocolPtrByCode r !! Code p))) (len (header p value)) in
    let! _ := validateComponent (Some c) in Ok c.
Proof.
  intros Hl. unfold newComponent, header. pose proof (len_nonneg value).
  pose proof (len_nonneg (VCode p)).
  set (size := if Size p <? 0 then _ else _).
  assert (Hsize : size = len (VCode p)
            + ((if Size p <? 0 then len (ToUvarint (len value)) else 0) + len value)).
  { subst size. destruct (Size p <? 0); [rewrite UvarintSize_spec by lia|]; lia. }
  clearbody size.
  set (room := replicate (Z.to_nat size) _).
  assert (Hroom : len room = size).
  { unfold room, len. rewrite length_replicate, Hsize.
    pose proof (len_nonneg (ToUvarint (len value))). destruct (Size p <? 0); lia. }
  clearbody room. pose proof (len_nonneg (ToUvarint (len value))).
  rewrite (copyAt_app [] room (VCode p) : _ -> copyAt room 0 (VCode p) = _)
    by (destruct (Size p <? 0); lia). cbn [obind app].
  set (room1 := drop (length (VCode p)) room).
  assert (Hroom1 : len room1 = size - len (VCode p)).
  { unfold room1. rewrite len_drop_length by (destruct (Size p <? 0); lia). lia. }
  clearbody room1. destruct (Size p <? 0).
  - unfold putUvarintAt. rewrite sliceFrom_app. cbn [obind].
    pose proof (ToUvarint_spec (len value) ltac:(lia)) as HT. rewrite HT in *.
    rewrite (proj2 (Z.ltb_ge _ _)) by lia.
    rewrite copyAt_app by lia. cbn [obind].
    set (room2 := drop (length (PutUvarint (len value))) room1).
    assert (Hroom2 : len room2 = len value).
    { unfold room2. rewrite len_drop_length by lia. lia. }
    rewrite app_assoc, <- len_app, copyAt_app by lia. cbn [obind].
    rewrite drop_ge by (unfold len in *; lia). rewrite app_nil_r.
    rewrite <- len_app, Z.eqb_refl. done.
  - cbn [obind]. rewrite copyAt_app by lia. cbn [obind].
    rewrite drop_ge by (unfold len in *; lia). rewrite !app_nil_r.
    rewrite <- len_app, Z.eqb_refl. done.
Qed.
End component.
