(* ===== verification/MaCodec.v ===== *)
(** * Parsing and printing multiaddrs (go-multiaddr/codec.go, multiaddr.go)

    The binary and the text form: [readComponent], [readMultiaddr],
    [NewMultiaddrBytes], [Bytes] and [stringToBytes], [NewMultiaddr], [String].
    The loop over the input runs with fuel: a component takes at least one byte,
    so the length of the input is enough ([readMultiaddr_returns]). *)
From Stdlib Require Import ZArith Lia.
From stdpp Require Import base tactics list numbers option gmap sets.
From S2P Require Import Prelude GoBytes Varint MaProtocol MaComponent.
Local Open Scope Z_scope.
Local Open Scope outcome_scope.

(** [type Multiaddr []Component]; the nil and the empty slice are one list. *)
Abbreviation Multiaddr := (list Component).

Section codec.
Context `{V : Varint} (r : registry).

(** An error of the transcoder, wrapped in the message of [stringToBytes]. *)
Definition wrapErr {A} (m : outcome ma_error A) : outcome ma_error A :=
  match m with Err e => Err (EInvalidValue e) | o => o end.

(** The loop of [stringToBytes] over the parts of the split string. *)
Fixpoint stringLoop (sp : list bytes) : outcome ma_error bytes :=
  match sp with
  | [] => Ok []
  | name :: sp =>
      let p := ProtocolWithName r name in
      if Code p =? 0 then Err (EUnknownProtocol name)
      else if Size p =? 0 then let! b := stringLoop sp in Ok (VCode p ++ b)
      else
        match sp with
        | [] => Err EUnexpectedEnd
        | v :: sp' =>
            let value := if Path p then slash :: join slash sp else v in
            match ProtoTranscoder p with
            | None => Panic
            | Some t =>
                let! a := wrapErr (StringToBytes t value) in
                let! _ := wrapErr (ValidateBytes t a) in
                let! b := (if Path p then Ok [] else stringLoop sp') in
                Ok (VCode p ++ (if Size p <? 0 then ToUvarint (len a) else []) ++ a ++ b)
            end
        end
  end.

Definition stringToBytes (s : bytes) : outcome ma_error bytes :=
  match split slash (trimRight slash s) with
  | [] => Panic
  | sp0 :: sp =>
      if negb (bool_decide (sp0 = [])) then Err EMustBeginWithSlash
      else match sp with
           | [] => Err EEmptyMultiaddr
           | _ => stringLoop sp
           end
  end.

Definition readComponent (b : bytes) : outcome ma_error (Z * Component) :=
  let! (code, offset) := ReadVarintCode b in
  let p := ProtocolWithCode r code in
  if Code p =? 0 then Err (ENoProtocolWithCode code)
  else
    match protocolPtrByCode r !! code with
    | None => Err (ENoProtocolWithCode code)
    | Some pPtr =>
        if Size p =? 0 then
          let! cb := sliceTo b offset in
          let c := mkComponent cb (Some pPtr) offset in
          let! _ := validateComponent (Some c) in
          Ok (offset, c)
        else
          let! (size, offset) :=
            (if Size p <? 0 then
               let! rest := sliceFrom b offset in
               let! (size, n) := ReadVarintCode rest in
               Ok (size, offset + n)
             else Ok (Z.quot (Size p) 8, offset)) in
          let! rest := sliceFrom b offset in
          if (len rest <? size) || (size <=? 0) then Err (EInvalidSize (len rest))
          else
            let! cb := sliceTo b (offset + size) in
            let c := mkComponent cb (Some pPtr) offset in
            let! _ := validateComponent (Some c) in
            Ok (offset + size, c)
    end.

Fixpoint readLoop (fuel : nat) (b : bytes) (bytesRead : Z) (sawPathComponent : bool)
    (res : Multiaddr) : outcome ma_error (Z * Multiaddr) :=
  match fuel with
  | O => OutOfFuel
  | S fuel =>
      match b with
      | [] => Ok (bytesRead, res)
      | _ =>
          let! (n, c) := readComponent b in
          let! b := sliceFrom b n in
          if sawPathComponent then Err EAfterPath
          else match c_protocol c with
               | None => Panic
               | Some p => readLoop fuel b (bytesRead + n) (Path p) (res ++ [c])
               end
      end
  end.

Definition readMultiaddr (b : bytes) : outcome ma_error (Z * Multiaddr) :=
  if len b =? 0 then Err EEmptyMultiaddr else readLoop (S (length b)) b 0 false [].

(** The deferred [recover] turns a panic into an error. *)
Definition recover {A} (m : outcome ma_error A) : outcome ma_error A :=
  match m with Panic => Err EPanicked | o => o end.

Definition NewMultiaddrBytes (b : bytes) : outcome ma_error Multiaddr :=
  recover (
    let! (bytesRead, m) := readMultiaddr b in
    if negb (bytesRead =? len b) then Err (EExtraData (len b - bytesRead))
    else Ok m).

Definition NewMultiaddr (s : bytes) : outcome ma_error Multiaddr :=
  recover (let! b := stringToBytes s in NewMultiaddrBytes b).

Definition Bytes (m : Multiaddr) : bytes := concat (c_bytes <$> m).

Fixpoint String (m : Multiaddr) : outcome ma_error bytes :=
  match m with
  | [] => Ok []
  | c :: m => let! s := writeTo (Some c) in let! rest := String m in Ok (s ++ rest)
  end.

(** ** Unmarshalling into a component: what follows the first component is
    dropped. *)
Definition Component_UnmarshalBinary (data : bytes) : outcome ma_error Component :=
  let! (_, comp) := readComponent data in Ok comp.
Definition Component_UnmarshalText (data : bytes) : outcome ma_error Component :=
  let! b := stringToBytes data in
  let! (_, comp) := readComponent b in Ok comp.

(** ** Well-formed multiaddrs *)

Definition isPath (c : Component) : bool := Path (default zeroProtocol (c_protocol c)).

(** A component of a registered protocol with a value the protocol accepts; a
    protocol with an argument has a non-empty one. *)
Definition wf_component (c : Component) : Prop :=
  exists p value, c = encodeComponent p value /\ p ∈ Protocols r /\ Code p <> 0
    /\ VCode p <> [] /\ value_ok p value /\ (Size p <> 0 -> 0 < len value).

(** A path component has nothing after it. *)
Fixpoint pathLast (m : Multiaddr) : Prop :=
  match m with
  | [] => True
  | c :: m => (isPath c = true -> m = []) /\ pathLast m
  end.

Definition wf_multiaddr (m : Multiaddr) : Prop :=
  m <> [] /\ Forall wf_component m /\ pathLast m.
End codec.

(** The protocols have the varint of their code as [VCode]; all of the package's
    own table do. *)
Definition std_codes `{V : Varint} (r : registry) : Prop :=
  forall p, p ∈ Protocols r -> 0 < Code p <= MaxInt32 /\ VCode p = ToUvarint (Code p).

Section lookups.
Context (r : registry) (Hreg : registry_ok r).

Lemma with_name p : p ∈ Protocols r -> ProtocolWithName r (Name p) = p.
Proof. intros Hp. unfold ProtocolWithName. by rewrite (ro_name _ Hreg p Hp). Qed.

Lemma with_code p :
  p ∈ Protocols r -> ProtocolWithCode r (Code p) = p /\ protocolPtrByCode r !! Code p = Some p.
Proof.
  intros Hp. unfold ProtocolWithCode. rewrite (ro_ptr _ Hreg).
  by rewrite (proj1 (ro_code _ Hreg p) Hp).
Qed.

Lemma ptr_registered code p :
  protocolPtrByCode r !! code = Some p ->
  p ∈ Protocols r /\ Code p = code /\ ProtocolWithCode r code = p.
Proof.
  rewrite (ro_ptr _ Hreg). intros H. pose proof (ro_codeKey _ Hreg _ _ H) as <-.
  split_and!; [by apply (ro_code _ Hreg)|done|]. unfold ProtocolWithCode. by rewrite H.
Qed.
End lookups.

(** ** The binary form *)
Section binary.
Context `{VL : VarintLaws} (r : registry) (Hreg : registry_ok r).

Lemma readComponent_inv b n c :
  readComponent r b = Ok (n, c) ->
  wf_component r c /\ n = len (c_bytes c) /\ 0 < n /\ exists rest, b = c_bytes c ++ rest.
Proof.
  unfold readComponent. intros H.
  apply obind_Ok in H as ([code off] & (Hcode & -> & rest0 & ->)%ReadVarintCode_inv & H).
  destruct (Z.eqb_spec (Code (ProtocolWithCode r code)) 0) as [|Hc]; [done|].
  destruct (protocolPtrByCode r !! code) as [p|] eqn:Hp; [|done].
  apply (ptr_registered _ Hreg) in Hp as (Hin & <- & Hpc). rewrite Hpc in *.
  pose proof (ToUvarint_nonempty (Code p)) as Hne. unfold MaxInt32 in *.
  specialize (Hne ltac:(lia)).
  destruct (Z.eqb_spec (Size p) 0) as [Hs|Hs].
  - rewrite sliceTo_app in H. cbn [obind] in H.
    apply obind_Ok in H as ([] & Hval & [= <- <-]).
    apply validate_inv in Hval as (p' & v & Heq & Hv & Hok).
    assert (p' = p) as -> by (apply (f_equal c_protocol) in Heq; simpl in Heq; congruence).
    cbn [c_bytes]. split_and!; [|done|done|by exists rest0].
    exists p, v. split_and!; try done.
  - apply obind_Ok in H as ([size off] & Hsz & H).
    apply obind_Ok in H as (rest & [Hoff ->]%sliceFrom_Ok & H).
    destruct (_ || _) eqn:E; [done|]. apply orb_false_iff in E as [E1%Z.ltb_ge E2%Z.leb_gt].
    rewrite len_drop in E1 by done.
    apply obind_Ok in H as (cb & [Hcb ->]%sliceTo_Ok & H).
    apply obind_Ok in H as ([] & Hval & [= <- <-]).
    apply validate_inv in Hval as (p' & v & Heq & Hv & Hok).
    assert (p' = p) as -> by (apply (f_equal c_protocol) in Heq; simpl in Heq; congruence).
    cbn [c_bytes]. rewrite len_take by lia.
    split_and!; [|done|lia|eexists; symmetry; apply take_drop].
    exists p, v. split_and!; try done. intros _.
    pose proof (f_equal valueStartIdx Heq) as Ho. pose proof (f_equal (len ∘ c_bytes) Heq) as Hl.
    simpl in Ho, Hl. rewrite len_take, len_app in Hl by lia. lia.
Qed.

Lemma readComponent_encode c rest :
  std_codes r -> wf_component r c ->
  readComponent r (c_bytes c ++ rest) = Ok (len (c_bytes c), c).
Proof.
  intros Hstd (p & v & -> & Hin & Hc & Hv & Hok & Hne). unfold readComponent.
  destruct (Hstd p Hin) as [Hcode Hvc]. destruct (with_code r Hreg p Hin) as [Hpc Hptr].
  cbn [encodeComponent c_bytes].
  assert (Hb : (header p v ++ v) ++ rest
    = ToUvarint (Code p) ++ (if Size p <? 0 then ToUvarint (len v) else []) ++ v ++ rest)
    by (unfold header; rewrite Hvc, <- !app_assoc; done).
  assert (Hval := validate_encode p v Hv Hok). unfold encodeComponent in Hval.
  pose proof (len_nonneg v). destruct Hok as (Hvar & Hfix & _).
  rewrite Hb at 1. rewrite ReadVarintCode_ToUvarint by lia. cbn [obind]. rewrite Hpc.
  rewrite (proj2 (Z.eqb_neq _ _)) by done. rewrite Hptr.
  destruct (Z.eqb_spec (Size p) 0) as [Hs|Hs].
  - assert (v = []) as -> by (apply len_zero; rewrite Hfix by lia; by rewrite Hs).
    assert (Hh : header p [] = ToUvarint (Code p)) by (unfold header; by rewrite Hs, Hvc, app_nil_r).
    rewrite Hh in *. rewrite app_nil_r in *. rewrite sliceTo_app. cbn [obind].
    rewrite Hval. unfold encodeComponent. by rewrite Hh, app_nil_r.
  - assert (Hsz : (if Size p <? 0 then
               let! rest := sliceFrom ((header p v ++ v) ++ rest) (len (ToUvarint (Code p))) in
               let! (size, n) := ReadVarintCode rest in
               Ok (size, len (ToUvarint (Code p)) + n)
             else Ok (Z.quot (Size p) 8, len (ToUvarint (Code p))))
             = Ok (len v, len (header p v)) :> outcome ma_error (Z * Z)).
    { rewrite Hb. unfold header. destruct (Z.ltb_spec (Size p) 0).
      - rewrite sliceFrom_app. cbn [obind]. rewrite ReadVarintCode_ToUvarint by lia. cbn [obind].
        by rewrite len_app, Hvc.
      - rewrite app_nil_r, Hvc, Z.quot_div_nonneg by lia. by rewrite Hfix. }
    rewrite Hsz. cbn [obind]. rewrite <- app_assoc at 1. rewrite sliceFrom_app. cbn [obind].
    specialize (Hne Hs). pose proof (len_nonneg rest).
    rewrite (proj2 (Z.ltb_ge _ _)) by (rewrite len_app; lia).
    rewrite (proj2 (Z.leb_gt _ _)) by lia. cbn [orb].
    rewrite <- len_app, sliceTo_app. cbn [obind]. rewrite Hval. done.
Qed.

Lemma Bytes_cons c (m : Multiaddr) : Bytes (c :: m) = c_bytes c ++ Bytes m.
Proof. done. Qed.

(** What the loop reads: the components it adds are well formed and their bytes
    are the input. *)
Lemma readLoop_inv fuel b k saw res n m :
  readLoop r fuel b k saw res = Ok (n, m) ->
  exists m', m = res ++ m' /\ Forall (wf_component r) m' /\ pathLast m' /\ Bytes m' = b
    /\ n = k + len b /\ (saw = true -> m' = []).
Proof.
  revert b k saw res. induction fuel as [|fuel IH]; intros b k saw res H; [done|].
  destruct b as [|x b]; cbn [readLoop] in H.
  { injection H as <- <-. exists []. rewrite app_nil_r.
    split_and!; try done. unfold len; simpl; lia. }
  apply obind_Ok in H as ([j c] & (Hwf & -> & Hpos & rest & Hb)%readComponent_inv & H).
  rewrite Hb, sliceFrom_app in H. cbn [obind] in H. destruct saw; [done|].
  destruct (c_protocol c) as [p|] eqn:Hp; [|done].
  apply IH in H as (m' & -> & Hm' & Hpl & Hbm & -> & Hsaw).
  exists (c :: m'). rewrite <- app_assoc. split_and!; try done.
  - by constructor.
  - split; [|done]. unfold isPath. rewrite Hp. simpl. exact Hsaw.
  - by rewrite Bytes_cons, Hbm.
  - rewrite Hb, len_app. lia.
Qed.

Lemma wf_component_nonempty c : wf_component r c -> 0 < len (c_bytes c).
Proof.
  intros (p & v & -> & _ & _ & Hv & _). simpl. unfold header. rewrite !len_app.
  pose proof (len_nonneg v). pose proof (len_nonneg (if Size p <? 0 then ToUvarint (len v) else [])).
  pose proof (len_nonneg (VCode p)). destruct (decide (len (VCode p) = 0)) as [E|]; [|lia].
  by apply len_zero in E.
Qed.

Lemma readLoop_Bytes fuel (m : Multiaddr) k saw res :
  std_codes r -> Forall (wf_component r) m -> pathLast m -> (saw = true -> m = []) ->
  (length m < fuel)%nat ->
  readLoop r fuel (Bytes m) k saw res = Ok (k + len (Bytes m), res ++ m).
Proof.
  intros Hstd Hm. revert fuel k saw res.
  induction Hm as [|c m Hc Hm IH]; intros fuel k saw res Hpl Hsaw Hf;
    (destruct fuel as [|fuel]; [simpl in Hf; lia|]).
  { simpl. rewrite app_nil_r. f_equal. f_equal. unfold len. simpl. lia. }
  rewrite Bytes_cons. cbn [readLoop]. pose proof (wf_component_nonempty c Hc) as Hpos.
  destruct (c_bytes c ++ Bytes m) as [|x b] eqn:Hb.
  { apply (f_equal len) in Hb. rewrite len_app in Hb. pose proof (len_nonneg (Bytes m)).
    unfold len at 3 in Hb. simpl in Hb. lia. }
  rewrite <- Hb. rewrite readComponent_encode by done. cbn [obind]. rewrite sliceFrom_app.
  cbn [obind]. destruct saw; [by specialize (Hsaw eq_refl)|].
  destruct Hc as (p & v & -> & ?). cbn [encodeComponent c_protocol] in *.
  destruct Hpl as [Hp Hpl]. rewrite IH; [|done|exact Hp|simpl in Hf; lia].
  rewrite len_app, <- app_assoc. f_equal. f_equal. lia.
Qed.

Lemma length_Bytes (m : Multiaddr) : Forall (wf_component r) m -> (length m <= length (Bytes m))%nat.
Proof.
  induction 1 as [|c m Hc Hm IH]; [done|]. rewrite Bytes_cons, length_app.
  pose proof (wf_component_nonempty c Hc). unfold len in *. simpl. lia.
Qed.

(** Decoding: the accepted byte strings and what they decode to. *)
Lemma NewMultiaddrBytes_inv b m :
  NewMultiaddrBytes r b = Ok m -> wf_multiaddr r m /\ Bytes m = b.
Proof.
  unfold NewMultiaddrBytes, recover. destruct (obind _ _) as [m'|e| |] eqn:E; try done.
  intros [= ->]. apply obind_Ok in E as ([n m'] & Hr & E).
  destruct (negb _); [done|]. injection E as ->.
  unfold readMultiaddr in Hr. destruct (Z.eqb_spec (len b) 0) as [|Hb]; [done|].
  apply readLoop_inv in Hr as (m' & -> & Hm & Hpl & <- & _). simpl.
  split; [|done]. split_and!; [|done|done]. intros ->. by apply Hb.
Qed.

Lemma NewMultiaddrBytes_Bytes m :
  std_codes r -> wf_multiaddr r m -> NewMultiaddrBytes r (Bytes m) = Ok m.
Proof.
  intros Hstd (Hne & Hm & Hpl). unfold NewMultiaddrBytes, readMultiaddr.
  pose proof (length_Bytes m Hm). destruct (Z.eqb_spec (len (Bytes m)) 0) as [E|_].
  { destruct m; [done|]. unfold len in E. simpl in *. lia. }
  rewrite readLoop_Bytes; [|done|done|done|done|lia]. cbn [obind]. by rewrite Z.add_0_l, Z.eqb_refl.
Qed.
End binary.

(** ** Parsing returns *)

(** The transcoder neither panics nor diverges on values of the protocol's size. *)
Definition calm (p : Protocol) : Prop :=
  forall t v, ProtoTranscoder p = Some t -> (0 <= Size p -> len v = Size p / 8) ->
  returns (BytesToString t v) /\ returns (ValidateBytes t v).

Section returns.
Context `{VL : VarintLaws} (r : registry) (Hreg : registry_ok r).

Lemma validateSize_returns p b i :
  0 <= i <= len b -> len (VCode p) <= len b -> returns (validateSize p b i).
Proof.
  intros Hi Hv. unfold validateSize. rewrite !sliceFrom_in by (pose proof (len_nonneg (VCode p)); lia).
  destruct (Size p <? 0); cbn [obind].
  - apply obind_returns; [apply ReadVarintCode_returns|]. intros [s n] _.
    repeat (destruct (negb _); [done|]). done.
  - repeat (destruct (negb _); [done|]). done.
Qed.

Lemma validateComponent_returns b p i :
  calm p -> 0 <= i -> returns (validateComponent (Some (mkComponent b (Some p) i))).
Proof.
  intros Hcalm Hi. unfold validateComponent. cbn [c_protocol c_bytes valueStartIdx].
  destruct (Z.ltb_spec (len b) i); [done|]. destruct (_ =? 0); [done|].
  destruct (Z.ltb_spec (len b) (len (VCode p))); [done|].
  rewrite sliceTo_in by (pose proof (len_nonneg (VCode p)); lia). cbn [obind].
  case_bool_decide as Hvc; [|done]. cbn [negb].
  apply obind_returns; [apply validateSize_returns; lia|]. intros [] Hsize.
  destruct (validateSize_inv p (drop (Z.to_nat (len (VCode p))) b) b i) as (v & -> & -> & _ & Hfix);
    [rewrite <- Hvc at 1; by rewrite take_drop|done|].
  unfold valueAndErr. cbn [c_protocol c_bytes valueStartIdx]. rewrite !sliceFrom_app. cbn [obind].
  destruct (ProtoTranscoder p) as [t|] eqn:Ht; [|done].
  destruct (Hcalm t v Ht Hfix). by apply obind_returns.
Qed.

Context (Hcalm : forall p, p ∈ Protocols r -> calm p).

Lemma readComponent_returns b : returns (readComponent r b).
Proof.
  unfold readComponent. apply obind_returns; [apply ReadVarintCode_returns|].
  intros [code off] (Hcode & -> & rest & ->)%ReadVarintCode_inv.
  destruct (Code (ProtocolWithCode r code) =? 0); [done|].
  destruct (protocolPtrByCode r !! code) as [p|] eqn:Hp; [|done].
  apply (ptr_registered _ Hreg) in Hp as (Hin & <- & Hpc). rewrite Hpc in *.
  pose proof (len_nonneg (ToUvarint (Code p))) as Hl.
  destruct (Size p =? 0).
  { rewrite sliceTo_app. cbn [obind]. apply obind_returns; [|by intros [] _].
    apply validateComponent_returns; [by apply Hcalm|done]. }
  rewrite sliceFrom_app. apply obind_returns.
  { destruct (Size p <? 0); [|done]. cbn [obind].
    apply obind_returns; [apply ReadVarintCode_returns|by intros [? ?] _]. }
  intros [size off] Hsz.
  assert (Hoff : 0 <= off <= len (ToUvarint (Code p) ++ rest)).
  { rewrite len_app. pose proof (len_nonneg rest). destruct (Size p <? 0).
    - apply obind_Ok in Hsz as (rs & [= <-] & Hsz).
      apply obind_Ok in Hsz as ([? ?] & (_ & -> & r2 & ->)%ReadVarintCode_inv & [= <- <-]).
      rewrite len_app in *. pose proof (len_nonneg (ToUvarint z)). pose proof (len_nonneg r2). lia.
    - injection Hsz as <- <-. lia. }
  rewrite sliceFrom_in by done. cbn [obind].
  destruct (_ || _) eqn:E; [done|]. apply orb_false_iff in E as [E1%Z.ltb_ge E2%Z.leb_gt].
  rewrite len_drop in E1 by done. rewrite sliceTo_in by lia. cbn [obind].
  apply obind_returns; [|by intros [] _].
  apply validateComponent_returns; [by apply Hcalm|lia].
Qed.

Lemma readLoop_returns fuel b k saw res :
  (length b < fuel)%nat -> returns (readLoop r fuel b k saw res).
Proof.
  revert b k saw res. induction fuel as [|fuel IH]; intros b k saw res Hf; [lia|].
  destruct b as [|x b]; [done|]. cbn [readLoop].
  apply obind_returns; [apply readComponent_returns|].
  intros [n c] (Hwf & -> & Hpos & rest & Hb)%readComponent_inv; [|done].
  rewrite Hb, sliceFrom_app. cbn [obind]. destruct saw; [done|].
  destruct Hwf as (p & v & -> & _). cbn [encodeComponent c_protocol]. apply IH.
  apply (f_equal length) in Hb. rewrite length_app in Hb. unfold len in Hpos. simpl in *. lia.
Qed.

Lemma readMultiaddr_returns b : returns (readMultiaddr r b).
Proof. unfold readMultiaddr. destruct (len b =? 0); [done|]. apply readLoop_returns. lia. Qed.
End returns.

(** ** The text form *)

(** What the text form relies on in a protocol: a name without slashes, and a
    transcoder that reads back the text it writes.  The text is not empty and
    has no slash, or for a path protocol begins with a slash and does not end in
    one. *)
Definition text_ok (p : Protocol) : Prop :=
  Name p <> [] /\ slash ∉ Name p /\ (Size p = 0 -> ProtoTranscoder p = None)
  /\ forall t v s, ProtoTranscoder p = Some t -> value_ok p v -> BytesToString t v = Ok s ->
     StringToBytes t s = Ok v
     /\ if Path p then exists s', s = slash :: s' /\ last s <> Some slash
        else s <> [] /\ slash ∉ s.

(** The parts of a string, each after a slash. *)
Definition slashed (ws : list bytes) : bytes := concat (cons slash <$> ws).

Lemma slashed_app ws ws' : slashed (ws ++ ws') = slashed ws ++ slashed ws'.
Proof. unfold slashed. by rewrite fmap_app, concat_app. Qed.

Lemma slashed_cons w ws : slashed (w :: ws) = (slash :: w) ++ slashed ws.
Proof. done. Qed.

Lemma slashed_join ws : ws <> [] -> slashed ws = join slash ([] :: ws).
Proof.
  induction ws as [|w ws IH]; [done|]. intros _. destruct ws as [|w' ws].
  { unfold slashed. simpl. by rewrite app_nil_r. }
  rewrite slashed_cons, IH by done. done.
Qed.

Lemma slashed_split s : slashed (split slash s) = slash :: s.
Proof.
  rewrite slashed_join by apply split_nonempty. pose proof (split_nonempty slash s).
  destruct (split slash s) eqn:E; [done|]. rewrite <- E.
  transitivity (slash :: join slash (split slash s)); [by rewrite E|by rewrite join_split].
Qed.

Lemma last_not_in (x s : bytes) c : s <> [] -> c ∉ s -> last (x ++ s) <> Some c.
Proof.
  intros Hs Hc. destruct (exists_last Hs) as (s' & y & ->). rewrite app_assoc, last_snoc.
  intros [= ->]. set_solver.
Qed.

Section text.
Context `{VL : VarintLaws} (r : registry) (Hreg : registry_ok r).
Context (Htext : forall p, p ∈ Protocols r -> text_ok p).

(** A component in text: its parts, and what the parser makes of them. *)
Lemma writeTo_spec c :
  wf_component r c ->
  exists ws x, writeTo (Some c) = Ok (slashed ws) /\ ws <> [] /\ Forall (fun w => slash ∉ w) ws
    /\ slashed ws = slash :: x /\ last (slashed ws) <> Some slash
    /\ forall rest, (isPath c = true -> rest = []) ->
       stringLoop r (ws ++ rest) = let! b := stringLoop r rest in Ok (c_bytes c ++ b).
Proof.
  intros (p & v & -> & Hin & Hc & Hv & Hok & Hne).
  destruct (Htext p Hin) as (Hn & Hns & Hnone & Htr).
  unfold writeTo, Value. rewrite valueAndErr_encode. cbn [encodeComponent c_protocol c_bytes].
  pose proof Hok as (Hvar & Hfix & Htc). unfold transcodes in Htc.
  unfold isPath. cbn [encodeComponent c_protocol default].
  destruct (ProtoTranscoder p) as [t|] eqn:Ht.
  - destruct Htc as [[s Hs] Hval]. destruct (Htr t v s eq_refl Hok Hs) as [Hsb Hshape].
    assert (Hsz : (Size p =? 0) = false) by (apply Z.eqb_neq; intros E; by specialize (Hnone E)).
    assert (Hloop : forall rest sp', (if Path p then slash :: join slash rest else
        match rest with [] => [] | w :: _ => w end) = s -> rest <> [] -> (if Path p then True else tail rest = sp') ->
      stringLoop r (Name p :: rest) =
        let! b := (if Path p then Ok [] else stringLoop r sp') in Ok (header p v ++ v ++ b)).
    { intros rest sp' Hval' Hrest Htl. cbn [stringLoop]. rewrite (with_name r Hreg p Hin).
      rewrite (proj2 (Z.eqb_neq _ _)), Hsz, Ht by done. destruct rest as [|w rest]; [done|].
      cbv beta iota in Hval'. rewrite Hval', Hsb. cbn [wrapErr obind]. rewrite Hval.
      cbn [wrapErr obind]. unfold header. destruct (Path p); [cbn [obind]; by rewrite <- !app_assoc|].
      simpl in Htl. subst sp'. destruct (stringLoop r rest); cbn [obind]; by rewrite <- ?app_assoc. }
    rewrite Hs. cbn [obind]. destruct (Path p) eqn:Hp.
    + destruct Hshape as (s' & -> & Hlast). cbn [andb]. rewrite bool_decide_true by done.
      assert (Hsl : slashed (Name p :: split slash s') = (slash :: Name p) ++ slash :: s')
        by (by rewrite slashed_cons, slashed_split).
      exists (Name p :: split slash s'), (Name p ++ slash :: s'). rewrite Hsl.
      split_and!; [done|done|constructor; [done|apply split_words]|done| |].
      * by rewrite last_app_cons.
      * intros rest Hr. rewrite Hr by done. rewrite app_nil_r.
        rewrite (Hloop (split slash s') []); [|by rewrite join_split|apply split_nonempty|done].
        cbn [obind stringLoop]. by rewrite !app_nil_r.
    + destruct Hshape as [Hsne Hsns]. destruct s as [|s0 s]; [done|]. cbn [andb].
      assert (Hsl : slashed [Name p; s0 :: s] = (slash :: Name p) ++ slash :: s0 :: s)
        by (unfold slashed; simpl; by rewrite app_nil_r).
      exists [Name p; s0 :: s], (Name p ++ slash :: s0 :: s). rewrite Hsl.
      split_and!; [done|done|by repeat constructor|done| |].
      * rewrite (last_app_cons (slash :: Name p)).
        apply (last_not_in [slash] (s0 :: s) slash); done.
      * intros rest _. cbn [app]. rewrite (Hloop ((s0 :: s) :: rest) rest) by done.
        destruct (stringLoop r rest); cbn [obind]; by rewrite <- ?app_assoc.
  - assert (Hsz : Size p = 0).
    { destruct (decide (Size p = 0)) as [|Hs0]; [done|]. pose proof (ro_ok _ Hreg) as Hall.
      rewrite Forall_forall in Hall. destruct (Hall p Hin) as (Hpt & _). by destruct (Hpt Hs0). }
    assert (v = []) as -> by (apply len_zero; rewrite Hfix by lia; by rewrite Hsz).
    exists [Name p], (Name p). unfold slashed. cbn [fmap list_fmap concat obind]. rewrite app_nil_r.
    split_and!; [done|done|by repeat constructor|done| |].
    + by apply (last_not_in [slash] (Name p) slash).
    + intros rest _. cbn [app stringLoop]. rewrite (with_name r Hreg p Hin), Hsz.
      rewrite (proj2 (Z.eqb_neq _ _)) by done. cbn [Z.eqb]. unfold header. rewrite Hsz.
      cbn [Z.ltb Z.compare]. by rewrite !app_nil_r.
Qed.

Lemma String_spec (m : Multiaddr) :
  Forall (wf_component r) m -> pathLast m ->
  exists ws, String m = Ok (slashed ws) /\ Forall (fun w => slash ∉ w) ws
    /\ (m <> [] -> ws <> [] /\ last (slashed ws) <> Some slash)
    /\ stringLoop r ws = Ok (Bytes m).
Proof.
  induction 1 as [|c m Hc Hm IH]; intros Hpl.
  { exists []. repeat split; done || constructor. }
  destruct Hpl as [Hp Hpl]. destruct (IH Hpl) as (ws' & Hs' & Hf' & Hlast' & Hl').
  destruct (writeTo_spec c Hc) as (ws & x & Hw & Hne & Hf & Hx & Hlast & Hl).
  exists (ws ++ ws'). cbn [String]. rewrite Hw, Hs'. cbn [obind]. rewrite slashed_app.
  split_and!; [done|by apply Forall_app| |].
  - intros _. split; [by destruct ws|]. destruct m as [|c' m].
    + injection Hs' as <-. by rewrite app_nil_r.
    + destruct (Hlast' ltac:(done)) as [Hne' Hl2].
      destruct ws' as [|w' ws']; [done|]. rewrite slashed_cons in *. cbn [app] in *.
      by rewrite last_app_cons.
  - rewrite Hl, Hl' by (intros E; rewrite (Hp E) in Hs'; injection Hs' as E'; by destruct ws').
    done.
Qed.

(** Printing a well-formed multiaddr and parsing the text gives it back. *)
Lemma NewMultiaddr_String m :
  std_codes r -> wf_multiaddr r m -> exists s, String m = Ok s /\ NewMultiaddr r s = Ok m.
Proof.
  intros Hstd Hwf. pose proof Hwf as (Hne & Hm & Hpl).
  destruct (String_spec m Hm Hpl) as (ws & Hs & Hf & Hlast & Hl).
  destruct (Hlast Hne) as [Hws Hlst]. exists (slashed ws). split; [done|].
  unfold NewMultiaddr, stringToBytes. rewrite trimRight_id by done.
  rewrite slashed_join, split_join by (done || (constructor; [set_solver|done])).
  rewrite bool_decide_true by done. cbn [negb]. destruct ws as [|w ws]; [done|].
  rewrite Hl. cbn [obind]. by rewrite NewMultiaddrBytes_Bytes.
Qed.

Lemma NewMultiaddr_inv s m : NewMultiaddr r s = Ok m -> wf_multiaddr r m.
Proof.
  unfold NewMultiaddr, recover. destruct (obind _ _) as [m'|e| |] eqn:E; try done.
  intros [= ->]. apply obind_Ok in E as (b & _ & E). by apply NewMultiaddrBytes_inv in E as [? _].
Qed.
End text.
