(* ===== verification/MaOps.v ===== *)
(** * Operations on multiaddrs (go-multiaddr/multiaddr.go, util.go)

    Comparison, joining, taking apart, and the removal of duplicates.
    [SortFunc] is the function of the package golang.org/x/exp/slices, a
    parameter with the law [SorterLaws]; [mergeSorter] has it. *)
From Stdlib Require Import ZArith Lia.
From stdpp Require Import base tactics list numbers option gmap sets sorting.
From S2P Require Import Prelude GoBytes Varint MaProtocol MaComponent MaCodec.
Local Open Scope Z_scope.
Local Open Scope outcome_scope.

Fixpoint Equal (m m2 : Multiaddr) : bool :=
  match m, m2 with
  | [], [] => true
  | c :: m, c2 :: m2 => Component_Equal (Some c) (Some c2) && Equal m m2
  | _, _ => false
  end.

(** Componentwise up to the shorter one, then [cmp.Compare] of the lengths. *)
Fixpoint Compare (m o : Multiaddr) : Z :=
  match m, o with
  | c :: m, c2 :: o =>
      let cmp := Component_Compare (Some c) (Some c2) in
      if negb (cmp =? 0) then cmp else Compare m o
  | [], [] => 0
  | [], _ :: _ => -1
  | _ :: _, [] => 1
  end.

Definition Multiaddr_Protocols (m : Multiaddr) : list Protocol :=
  (fun c => Component_Protocol (Some c)) <$> m.

(** Nil components are skipped. *)
Definition AppendComponent (m : Multiaddr) (cs : list (option Component)) : Multiaddr :=
  fold_left (fun m c => match c with None => m | Some c => m ++ [c] end) cs m.

(** A nil [Multiaddrer] contributes nothing. *)
Definition Join (ms : list (option Multiaddr)) : Multiaddr := concat (default [] <$> ms).
Definition Encapsulate (m : Multiaddr) (other : option Multiaddr) : Multiaddr :=
  Join [Some m; other].

(** The inner loop of [Decapsulate] at position [k] of the left parts. *)
Fixpoint matchFrom (leftParts rightParts : Multiaddr) (k : nat) (foundMatch : bool) : bool :=
  match rightParts with
  | [] => foundMatch
  | rightC :: rightParts =>
      match leftParts !! k with
      | None => false
      | Some c =>
          if Component_Equal (Some rightC) (Some c)
          then matchFrom leftParts rightParts (S k) true else false
      end
  end.

Definition Decapsulate (m : Multiaddr) (rightPartsAny : option Multiaddr) : Multiaddr :=
  match rightPartsAny with
  | None => m
  | Some rightParts =>
      let lastIndex := fold_left (fun lastIndex i =>
        if matchFrom m rightParts i false then Z.of_nat i else lastIndex)
        (seq 0 (length m)) (-1) in
      if lastIndex =? 0 then []
      else if lastIndex <? 0 then m
      else take (Z.to_nat lastIndex) m
  end.

Fixpoint ValueForProtocol (m : Multiaddr) (code : Z) : outcome ma_error bytes :=
  match m with
  | [] => Err EProtocolNotFound
  | c :: m =>
      if Code (Component_Protocol (Some c)) =? code then Value (Some c) else ValueForProtocol m code
  end.

Definition FilterAddrs (a : list Multiaddr) (filters : list (Multiaddr -> bool)) : list Multiaddr :=
  filter (fun addr => forallb (fun f => f addr) filters = true) a.

Definition Contains (addrs : list Multiaddr) (addr : Multiaddr) : bool :=
  existsb (fun a => Equal addr a) addrs.

(** ** Splitting *)
Definition SplitFirst (m : Multiaddr) : option Component * Multiaddr :=
  match m with
  | [] => (None, [])
  | c :: m => (Some c, m)
  end.

Definition SplitLast (m : Multiaddr) : Multiaddr * option Component :=
  match m with
  | [] => ([], None)
  | _ => (take (length m - 1) m, last m)
  end.

Fixpoint splitIndex (cb : Component -> bool) (m : Multiaddr) : nat :=
  match m with
  | [] => O
  | c :: m => if cb c then O else S (splitIndex cb m)
  end.
Definition SplitFunc (m : Multiaddr) (cb : Component -> bool) : Multiaddr * Multiaddr :=
  let idx := splitIndex cb m in (take idx m, drop idx m).

(** ** Removing duplicates *)
Class Sorter := SortFunc : (Multiaddr -> Multiaddr -> Z) -> list Multiaddr -> list Multiaddr.

(** The second loop of [Unique], over the sorted array: [i] runs over the
    indices, [idx] is the next free place. *)
Fixpoint compactLoop (js : list nat) (idx : nat) (addrs : list Multiaddr)
    : nat * list Multiaddr :=
  match js with
  | [] => (idx, addrs)
  | i :: js =>
      match addrs !! (i - 1)%nat, addrs !! i with
      | Some a, Some b =>
          if Equal a b then compactLoop js idx addrs
          else compactLoop js (S idx) (<[idx := b]> addrs)
      | _, _ => (idx, addrs)
      end
  end.

Definition Unique `{Sorter} (addrs : list Multiaddr) : list Multiaddr :=
  match addrs with
  | [] => []
  | _ =>
      let addrs := SortFunc Compare addrs in
      let '(idx, addrs) := compactLoop (seq 1 (length addrs - 1)) 1 addrs in
      take idx addrs
  end.

(** ** Comparison is a total order, and zero exactly on equal addresses *)
Lemma compareBytes_opp a b : compareBytes b a = - compareBytes a b.
Proof.
  revert b. induction a as [|x a IH]; intros [|y b]; try done. simpl.
  destruct (Z.ltb_spec (b2z x) (b2z y)), (Z.ltb_spec (b2z y) (b2z x)); lia || apply IH.
Qed.

Lemma compareBytes_zero a b : compareBytes a b = 0 <-> a = b.
Proof.
  revert b. induction a as [|x a IH]; intros [|y b]; try done. simpl.
  destruct (Z.ltb_spec (b2z x) (b2z y)) as [H|H].
  { split; [done|]. intros [= -> ->]. lia. }
  destruct (Z.ltb_spec (b2z y) (b2z x)) as [H'|H'].
  { split; [done|]. intros [= -> ->]. lia. }
  assert (x = y) as -> by (apply b2z_inj; lia). rewrite IH. split; [by intros ->|by intros [= ->]].
Qed.

Lemma compareBytes_trans a b c :
  compareBytes a b <= 0 -> compareBytes b c <= 0 -> compareBytes a c <= 0.
Proof.
  revert b c. induction a as [|x a IH]; intros [|y b] [|z c]; simpl; try lia.
  repeat match goal with |- context [?p <? ?q] => destruct (Z.ltb_spec p q) end;
    try lia. by apply IH.
Qed.

Lemma Equal_spec m m2 : Equal m m2 = true <-> c_bytes <$> m = c_bytes <$> m2.
Proof.
  revert m2. induction m as [|c m IH]; intros [|c2 m2]; try done.
  cbn [Equal Component_Equal]. rewrite !fmap_cons, andb_true_iff, bool_decide_eq_true, IH.
  split; [by intros [-> ->]|by intros [= ? ?]].
Qed.

Lemma Compare_opp m o : Compare o m = - Compare m o.
Proof.
  revert o. induction m as [|c m IH]; intros [|c2 o]; try done. simpl.
  rewrite (compareBytes_opp (c_bytes c)).
  destruct (Z.eqb_spec (compareBytes (c_bytes c) (c_bytes c2)) 0) as [->|]; [apply IH|].
  destruct (Z.eqb_spec (- compareBytes (c_bytes c) (c_bytes c2)) 0); [lia|done].
Qed.

Lemma Compare_zero m o : Compare m o = 0 <-> Equal m o = true.
Proof.
  rewrite Equal_spec. revert o. induction m as [|c m IH]; intros [|c2 o]; try done.
  cbn [Compare Component_Compare]. rewrite !fmap_cons.
  destruct (Z.eqb_spec (compareBytes (c_bytes c) (c_bytes c2)) 0) as [E|E]; cbn [negb].
  - rewrite IH. apply compareBytes_zero in E as ->. split; [by intros ->|by intros [= ?]].
  - split; [done|]. intros [= Hc _]. by apply compareBytes_zero in Hc.
Qed.

Lemma Compare_trans m1 m2 m3 : Compare m1 m2 <= 0 -> Compare m2 m3 <= 0 -> Compare m1 m3 <= 0.
Proof.
  revert m2 m3. induction m1 as [|c m1 IH]; intros [|c2 m2] [|c3 m3]; simpl; try lia.
  set (x := compareBytes (c_bytes c) (c_bytes c2)).
  set (y := compareBytes (c_bytes c2) (c_bytes c3)).
  destruct (Z.eqb_spec x 0) as [Hx|Hx]; simpl.
  - apply compareBytes_zero in Hx. rewrite Hx. fold y.
    destruct (Z.eqb_spec y 0); simpl; [apply IH|done].
  - destruct (Z.eqb_spec y 0) as [Hy|Hy]; simpl; intros H1 H2.
    + apply compareBytes_zero in Hy. rewrite <- Hy. fold x. by rewrite (proj2 (Z.eqb_neq x 0)).
    + pose proof (compareBytes_trans _ _ _ H1 H2) as H3.
      destruct (Z.eqb_spec (compareBytes (c_bytes c) (c_bytes c3)) 0) as [H0|H0]; simpl; [|done].
      apply compareBytes_zero in H0. unfold y in *. rewrite <- H0, compareBytes_opp in *. fold x in H2. lia.
Qed.

(** The order [a.Compare(b) <= 0]. *)
Definition maLe (a b : Multiaddr) : Prop := Compare a b <= 0.
#[export] Instance maLe_dec a b : Decision (maLe a b) := Z_le_dec _ _.
#[export] Instance maLe_trans : Transitive maLe.
Proof. intros a b c. apply Compare_trans. Qed.
#[export] Instance maLe_total : Total maLe.
Proof. intros a b. unfold maLe. rewrite (Compare_opp b a). lia. Qed.

(** The documented behaviour of [slices.SortFunc]: a sorted permutation, when the
    comparison is a total preorder. *)
Class SorterLaws (S : Sorter) := {
  SortFunc_perm addrs : SortFunc Compare addrs ≡ₚ addrs;
  SortFunc_sorted addrs : Sorted maLe (SortFunc Compare addrs) }.

Definition mergeSorter : Sorter := fun cmp =>
  @merge_sort _ (fun a b => cmp a b <= 0) (fun a b => Z_le_dec _ _).
#[export] Instance mergeSorter_laws : SorterLaws mergeSorter.
Proof.
  constructor; intros addrs; unfold SortFunc, mergeSorter.
  - apply merge_sort_Permutation.
  - apply (Sorted_merge_sort maLe).
Qed.

(** ** [Decapsulate] *)

(** [o] starts at position [i] of [m]. *)
Definition occursAt (m o : Multiaddr) (i : nat) : Prop :=
  exists mid, mid `prefix_of` drop i m /\ Equal o mid = true.

Lemma Equal_cons_inv c (o mid : Multiaddr) :
  Equal (c :: o) mid = true ->
  exists c' mid', mid = c' :: mid' /\ Component_Equal (Some c) (Some c') = true /\ Equal o mid' = true.
Proof. destruct mid as [|c' mid]; [done|]. simpl. intros [? ?]%andb_true_iff. eauto. Qed.

Lemma matchFrom_spec m o k b :
  matchFrom m o k b = true <-> (if decide (o = []) then b = true else occursAt m o k).
Proof.
  revert k b. induction o as [|c o IH]; intros k b; [done|].
  rewrite decide_False by done. cbn [matchFrom]. unfold occursAt. split.
  - destruct (m !! k) as [c'|] eqn:Hk; [|done].
    destruct (Component_Equal (Some c) (Some c')) eqn:E; [|done].
    rewrite IH, (drop_S _ _ _ Hk). case_decide as Ho.
    + intros _. subst o. exists [c']. split; [by exists (drop (S k) m)|].
      cbn [Equal]. by rewrite E.
    + intros (mid & Hp & Hm). exists (c' :: mid). split; [by apply prefix_cons|].
      cbn [Equal]. by rewrite E.
  - intros (mid & [post Hp] & (c' & mid' & -> & E & Hm)%Equal_cons_inv).
    assert (Hk : m !! k = Some c').
    { rewrite <- (Nat.add_0_r k), <- lookup_drop, Hp. done. }
    rewrite Hk, E, IH. case_decide as Ho; [done|].
    exists mid'. split; [|done]. exists post.
    rewrite (drop_S _ _ _ Hk) in Hp. cbn [app] in Hp. congruence.
Qed.

(** The index the loop ends with: the last one with a match. *)
Lemma lastIndex_spec (P : nat -> bool) n :
  let last := fold_left (fun acc i => if P i then Z.of_nat i else acc) (seq 0 n) (-1) in
  (last = -1 /\ forall i, (i < n)%nat -> P i = false)
  \/ exists i, (i < n)%nat /\ last = Z.of_nat i /\ P i = true
       /\ forall j, (i < j < n)%nat -> P j = false.
Proof.
  induction n as [|n IH]; [by left; split; [done|lia]|].
  rewrite seq_S, fold_left_app. cbn [fold_left Nat.add]. cbv zeta in *.
  destruct (P n) eqn:Hn.
  - right. exists n. split_and!; done || lia || (intros j Hj; lia).
  - destruct IH as [[-> Hnone]|(i & Hi & -> & HP & Hlast)].
    + left. split; [done|]. intros i Hi. destruct (decide (i = n)) as [->|]; [done|]. apply Hnone. lia.
    + right. exists i. split_and!; try done; [lia|]. intros j Hj.
      destruct (decide (j = n)) as [->|]; [done|]. apply Hlast. lia.
Qed.

Lemma occursAt_length m o i : occursAt m o i -> o <> [] -> (i + length o <= length m)%nat.
Proof.
  intros (mid & [post Hp] & Heq) Ho. apply Equal_spec in Heq.
  apply (f_equal length) in Heq, Hp. rewrite !length_fmap in Heq.
  rewrite length_drop, length_app in Hp. destruct o; [done|]. simpl in *. lia.
Qed.

Lemma Encapsulate_app (m o : Multiaddr) : Encapsulate m (Some o) = m ++ o.
Proof. unfold Encapsulate, Join. simpl. by rewrite app_nil_r. Qed.

Lemma Equal_refl (m : Multiaddr) : Equal m m = true.
Proof. by apply Equal_spec. Qed.

(** [Decapsulate] cuts at the last occurrence.  For a non-empty [o] it returns
    what comes before the last place where [o] occurs in [m], and [m] itself when
    it does not occur; what [Encapsulate] added is taken off again. *)
Theorem Decapsulate_spec (m o : Multiaddr) :
  o <> [] ->
  ((forall i, ~ occursAt m o i) /\ Decapsulate m (Some o) = m
   \/ exists i, occursAt m o i /\ (forall j, (i < j)%nat -> ~ occursAt m o j)
        /\ Decapsulate m (Some o) = take i m)
  /\ Decapsulate (Encapsulate m (Some o)) (Some o) = m.
Proof.
  intros Ho.
  assert (Hspec : forall m, (forall i, ~ occursAt m o i) /\ Decapsulate m (Some o) = m
   \/ exists i, occursAt m o i /\ (forall j, (i < j)%nat -> ~ occursAt m o j)
        /\ Decapsulate m (Some o) = take i m).
  { clear m. intros m. unfold Decapsulate.
    assert (Hm : forall i, matchFrom m o i false = true <-> occursAt m o i).
    { intros i. rewrite matchFrom_spec. by rewrite decide_False. }
    assert (Hout : forall i, occursAt m o i -> (i < length m)%nat).
    { intros i Hi. pose proof (occursAt_length m o i Hi Ho). destruct o; [done|]. simpl in *. lia. }
    destruct (lastIndex_spec (fun i => matchFrom m o i false) (length m))
      as [[-> Hnone]|(i & Hi & -> & HP & Hlast)].
    - left. split; [|done]. intros i Hi. pose proof (Hnone i (Hout i Hi)) as Hf.
      apply Hm in Hi. congruence.
    - right. exists i. split_and!; [by apply Hm| |].
      + intros j Hj Hoj. pose proof (Hlast j (conj Hj (Hout j Hoj))) as Hf.
        apply Hm in Hoj. congruence.
      + destruct i as [|i]; [done|]. rewrite (proj2 (Z.eqb_neq _ _)) by lia.
        rewrite (proj2 (Z.ltb_ge _ _)) by lia. by rewrite Nat2Z.id. }
  split; [apply Hspec|].
  assert (Hat : occursAt (m ++ o) o (length m)).
  { exists o. rewrite drop_app_length. split; [done|apply Equal_refl]. }
  rewrite Encapsulate_app.
  destruct (Hspec (m ++ o)) as [[Hnone _]|(i & Hi & Hlast & ->)]; [by destruct (Hnone (length m))|].
  assert (i = length m) as ->; [|by rewrite take_app_length].
  pose proof (occursAt_length _ _ _ Hi Ho) as Hl. rewrite length_app in Hl.
  destruct (decide (i < length m)%nat) as [Hlt|]; [by destruct (Hlast _ Hlt)|lia].
Qed.

(** ** [Unique] *)

(** The addresses the loop keeps after [prev]. *)
Fixpoint dedupFrom (prev : Multiaddr) (l : list Multiaddr) : list Multiaddr :=
  match l with
  | [] => []
  | b :: l => if Equal prev b then dedupFrom b l else b :: dedupFrom b l
  end.

Lemma take_insert_snoc {A} (l : list A) idx b :
  (idx <= length l)%nat -> take (S idx) (<[idx := b]> (l ++ [b])) = take idx l ++ [b].
Proof.
  intros Hi. rewrite (take_S_r _ _ b).
  - by rewrite take_insert_ge, take_app_le by lia.
  - apply list_lookup_insert_eq; rewrite length_app. simpl. lia.
Qed.

(** The array loop computes [dedupFrom]: the places it overwrites were read. *)
Lemma compactLoop_spec (l : list Multiaddr) A prev idx :
  last A = Some prev -> (idx <= length A)%nat ->
  exists idx' arr', compactLoop (seq (length A) (length l)) idx (A ++ l) = (idx', arr')
    /\ take idx' arr' = take idx A ++ dedupFrom prev l.
Proof.
  revert A prev idx. induction l as [|b l IH]; intros A prev idx Hlast Hidx.
  { exists idx, A. simpl. by rewrite !app_nil_r. }
  cbn [length seq compactLoop dedupFrom]. rewrite last_lookup in Hlast.
  assert (HA : length A <> O) by (intros E; apply length_zero_iff_nil in E as ->; done).
  replace (length A - 1)%nat with (Nat.pred (length A)) by lia.
  rewrite lookup_app_l by lia. rewrite Hlast, list_lookup_middle by done.
  replace (A ++ b :: l) with ((A ++ [b]) ++ l) by (by rewrite <- app_assoc).
  destruct (Equal prev b).
  - specialize (IH (A ++ [b]) b idx). rewrite length_app, Nat.add_comm in IH. cbn [length Nat.add] in IH.
    destruct IH as (i' & arr' & -> & Ht); [apply last_snoc|simpl; lia|].
    exists i', arr'. by rewrite Ht, take_app_le.
  - rewrite insert_app_l by (rewrite length_app; simpl; lia).
    specialize (IH (<[idx := b]> (A ++ [b])) b (S idx)).
    rewrite length_insert, length_app, Nat.add_comm in IH. cbn [length Nat.add] in IH.
    destruct IH as (i' & arr' & -> & Ht); [|simpl; lia|].
    { rewrite last_lookup, length_insert, length_app. simpl. rewrite Nat.add_comm. simpl.
      destruct (decide (idx = length A)) as [->|].
      - apply list_lookup_insert_eq; rewrite length_app. simpl. lia.
      - rewrite list_lookup_insert_ne by done. by rewrite list_lookup_middle. }
    exists i', arr'. split; [done|]. rewrite Ht, take_insert_snoc by done. by rewrite <- app_assoc.
Qed.

Lemma Compare_bytes (a a' b : Multiaddr) : Equal a a' = true -> Compare a b = Compare a' b.
Proof.
  rewrite Equal_spec. revert a' b. induction a as [|c a IH]; intros [|c' a'] b; try done.
  rewrite !fmap_cons. intros [= Hc Ha]. destruct b as [|c2 b]; [done|].
  cbn [Compare Component_Compare]. by rewrite Hc, (IH a').
Qed.

Definition maLt (a b : Multiaddr) : Prop := Compare a b < 0.

Lemma maLt_trans a b c : maLt a b -> maLt b c -> maLt a c.
Proof.
  unfold maLt. intros H1 H2. pose proof (Compare_trans a b c ltac:(lia) ltac:(lia)).
  destruct (decide (Compare a c = 0)) as [E%Compare_zero|]; [|lia].
  rewrite (Compare_bytes a c b E), (Compare_opp b c) in H1. lia.
Qed.

Lemma dedupFrom_sorted prev l :
  Sorted maLe (prev :: l) -> StronglySorted maLt (prev :: dedupFrom prev l).
Proof.
  revert prev. induction l as [|b l IH]; intros prev Hs; [by repeat constructor|].
  inversion Hs as [|? ? Hs' Hhd]; subst. inversion Hhd as [|? ? Hle]; subst.
  specialize (IH b Hs'). cbn [dedupFrom]. inversion IH as [|? ? Hss Hall]; subst.
  destruct (Equal prev b) eqn:E.
  - constructor; [done|]. eapply Forall_impl; [exact Hall|]. unfold maLt. intros x Hx.
    by rewrite (Compare_bytes prev b x E).
  - assert (Hlt : maLt prev b).
    { unfold maLe in Hle. unfold maLt. destruct (decide (Compare prev b = 0)) as [E0|]; [|lia].
      apply Compare_zero in E0. congruence. }
    constructor; [done|]. constructor; [done|].
    eapply Forall_impl; [exact Hall|]. intros x. by apply maLt_trans.
Qed.

Lemma Equal_sym a b : Equal a b = true -> Equal b a = true.
Proof. rewrite !Equal_spec. done. Qed.
Lemma Equal_trans a b c : Equal a b = true -> Equal b c = true -> Equal a c = true.
Proof. rewrite !Equal_spec. congruence. Qed.

Lemma dedupFrom_subset prev l x : x ∈ dedupFrom prev l -> x ∈ l.
Proof.
  revert prev. induction l as [|b l IH]; intros prev; [done|]. cbn [dedupFrom].
  destruct (Equal prev b); [intros ?%IH; set_solver|].
  rewrite !elem_of_cons. intros [->|?%IH]; eauto.
Qed.

Lemma dedupFrom_covers prev l x :
  x ∈ prev :: l -> exists y, y ∈ prev :: dedupFrom prev l /\ Equal x y = true.
Proof.
  revert prev x. induction l as [|b l IH]; intros prev x Hx.
  { apply list_elem_of_singleton in Hx as ->. exists prev. split; [set_solver|apply Equal_refl]. }
  cbn [dedupFrom]. apply elem_of_cons in Hx as [->|Hx].
  { exists prev. split; [set_solver|apply Equal_refl]. }
  destruct (IH b x Hx) as (y & Hy & E). destruct (Equal prev b) eqn:Eb; [|exists y; set_solver].
  apply elem_of_cons in Hy as [->|Hy]; [|exists y; set_solver].
  exists prev. split; [set_solver|]. eapply Equal_trans; [exact E|]. by apply Equal_sym.
Qed.

Lemma Contains_spec addrs x : Contains addrs x = true <-> exists a, a ∈ addrs /\ Equal x a = true.
Proof.
  unfold Contains. rewrite existsb_exists. split; intros (a & Ha & E); exists a;
    (split; [|done]); by apply list_elem_of_In.
Qed.

(** [Unique] keeps one address of each kind.  With any sort function, the
    result is strictly increasing in [Compare] (so no two of its addresses are
    equal), consists of addresses of the input, and contains exactly the addresses
    the input contains: the compaction in place loses nothing. *)
Theorem Unique_spec `{SL : SorterLaws} (addrs : list Multiaddr) :
  StronglySorted maLt (Unique addrs)
  /\ (forall a, a ∈ Unique addrs -> a ∈ addrs)
  /\ (forall x, Contains (Unique addrs) x = Contains addrs x).
Proof.
  assert (H : forall s, Sorted maLe s -> s ≡ₚ addrs -> addrs <> [] ->
    exists p l, s = p :: l /\
      (let '(idx, arr) := compactLoop (seq 1 (length s - 1)) 1 s in take idx arr) = p :: dedupFrom p l).
  { intros s _ Hp Hne. destruct s as [|p l]; [by apply Permutation_nil_l in Hp|].
    exists p, l. split; [done|]. destruct (compactLoop_spec l [p] p 1) as (i & arr & E & Ht); [done..|].
    cbn [length app] in E. cbn [length]. rewrite Nat.sub_succ, Nat.sub_0_r, E, Ht. done. }
  unfold Unique. destruct addrs as [|a0 rest] eqn:Ha; [by repeat constructor|]. rewrite <- Ha in *.
  destruct (H (SortFunc Compare addrs) (SortFunc_sorted addrs) (SortFunc_perm addrs) ltac:(by rewrite Ha))
    as (p & l & Hs & ->).
  pose proof (SortFunc_sorted addrs) as Hsorted. pose proof (SortFunc_perm addrs) as Hperm.
  rewrite Hs in Hsorted, Hperm.
  assert (Hsub : forall a, a ∈ p :: dedupFrom p l -> a ∈ addrs).
  { intros a Hin. rewrite <- Hperm. apply elem_of_cons in Hin as [->|?%dedupFrom_subset]; set_solver. }
  split_and!; [by apply dedupFrom_sorted|done|].
  intros x. apply eq_bool_prop_intro. rewrite !Is_true_true, !Contains_spec. split.
  - intros (a & Hin & E). eauto.
  - intros (a & Hin & E). rewrite <- Hperm in Hin.
    destruct (dedupFrom_covers p l a Hin) as (y & Hy & Ey). exists y. split; [done|].
    by eapply Equal_trans.
Qed.

(** ** Splitting and joining *)

(** Splitting loses nothing.  The parts of [SplitFunc] join to the address, no
    component of the first part satisfies the callback and the first one of the
    second part does; [SplitFirst] and [SplitLast] take one component off and
    [AppendComponent] and [Join] put it back; the protocols and bytes of a joined
    address are those of its parts in order. *)
Theorem split_join_laws (m m2 : Multiaddr) (cb : Component -> bool) :
  (let '(pre, post) := SplitFunc m cb in
   Join [Some pre; Some post] = m /\ Forall (fun c => cb c = false) pre
   /\ match post with [] => True | c :: _ => cb c = true end)
  /\ (let '(c, rest) := SplitFirst m in Join [(fun c => [c]) <$> c; Some rest] = m)
  /\ (let '(rest, c) := SplitLast m in AppendComponent rest [c] = m)
  /\ Bytes (Encapsulate m (Some m2)) = Bytes m ++ Bytes m2
  /\ Multiaddr_Protocols (Encapsulate m (Some m2)) = Multiaddr_Protocols m ++ Multiaddr_Protocols m2.
Proof.
  rewrite Encapsulate_app. split_and!.
  - unfold SplitFunc. split_and!.
    + unfold Join. simpl. by rewrite app_nil_r, take_drop.
    + induction m as [|c m IH]; simpl; [done|]. destruct (cb c) eqn:E; by constructor.
    + induction m as [|c m IH]; simpl; [done|]. by destruct (cb c) eqn:E.
  - destruct m as [|c m]; [done|]. unfold Join. simpl. by rewrite app_nil_r.
  - destruct m as [|c0 m0] eqn:Hm; [done|]. rewrite <- Hm.
    destruct (exists_last (l:=m)) as (m' & c & E); [by rewrite Hm|].
    unfold SplitLast. rewrite Hm, <- Hm, E, last_snoc, length_app. simpl.
    by rewrite Nat.add_sub, take_app_length.
  - unfold Bytes. by rewrite fmap_app, concat_app.
  - unfold Multiaddr_Protocols. by rewrite fmap_app.
Qed.

(** ** Witnesses *)
Module MaOpsExample.
Definition comp (b : byte) : Component := mkComponent [b] None 1.
Definition ma (l : bytes) : Multiaddr := comp <$> l.
End MaOpsExample.
Import MaOpsExample.

(** [/a/b/a/b/c] without its last [/a/b] is [/a/b]. *)
Lemma Decapsulate_spec_witness :
  Decapsulate (ma [Byte.x61; Byte.x62; Byte.x61; Byte.x62; Byte.x63]) (Some (ma [Byte.x61; Byte.x62]))
    = ma [Byte.x61; Byte.x62]
  /\ Decapsulate (Encapsulate (ma [Byte.x61]) (Some (ma [Byte.x62]))) (Some (ma [Byte.x62])) = ma [Byte.x61].
Proof.
  split; [vm_compute; reflexivity|].
  apply (Decapsulate_spec (ma [Byte.x61]) (ma [Byte.x62])). discriminate.
Defined.

Lemma Unique_spec_witness :
  let l := [ma [Byte.x62]; ma [Byte.x61]; ma [Byte.x62]; ma []; ma [Byte.x61; Byte.x61]] in
  @Unique mergeSorter l = [ma []; ma [Byte.x61]; ma [Byte.x61; Byte.x61]; ma [Byte.x62]]
  /\ Contains (@Unique mergeSorter l) (ma [Byte.x62]) = Contains l (ma [Byte.x62]).
Proof.
  cbv zeta. split; [vm_compute; reflexivity|].
  apply (@Unique_spec mergeSorter mergeSorter_laws).
Defined.
