(* ===== verification/GoNet.v ===== *)
(** * Textual IP addresses (packages net and net/netip)

    What the transcoders use of Go's standard library: [net.ParseIP], [IP.To4],
    [IP.To16] and [IP.String], with the parsers of net/netip they call, and the
    fact that a printed address is read back.  An IP is its list of 4 or 16 bytes;
    the nil IP is [None]. *)
From Stdlib Require Import ZArith Lia.
From stdpp Require Import base tactics list numbers option sets strings.
From S2P Require Import Prelude GoBytes.
Local Open Scope Z_scope.

Definition dot : byte := z2b 46.
Definition colon : byte := z2b 58.
Definition percent : byte := z2b 37.
Definition zero : byte := z2b 48.

(** ** IPv4 *)

(** A field of [parseIPv4Fields]: digits without a leading zero, at most 255. *)
Definition parseOctet (w : bytes) : option byte :=
  match w with
  | [] => None
  | c :: rest =>
      if bool_decide (c = zero) && negb (bool_decide (rest = [])) then None
      else n ← parseDigits 0 w; if n <=? 255 then Some (z2b n) else None
  end.

Definition parseIPv4 (s : bytes) : option bytes :=
  match split dot s with
  | [a; b; c; d] =>
      a ← parseOctet a; b ← parseOctet b; c ← parseOctet c; d ← parseOctet d; Some [a; b; c; d]
  | _ => None
  end.

Definition formatIPv4 (ip : bytes) : bytes := join dot ((fun b => FormatUint (b2z b)) <$> ip).

(** ** IPv6 *)

(** The hexadecimal digits a string begins with, and the rest. *)
Fixpoint spanHex (s : bytes) : list Z * bytes :=
  match s with
  | [] => ([], [])
  | c :: s' =>
      match unhex c with
      | Some d => let '(ds, rest) := spanHex s' in (d :: ds, rest)
      | None => ([], s)
      end
  end.

(** The loop of [parseIPv6]: [ip] holds the [i] bytes read so far, [ellipsis] the
    place of the [::].  Eight rounds fill the address. *)
Fixpoint parse6 (fuel : nat) (s ip : bytes) (ellipsis : option nat)
    : option (bytes * option nat * bytes) :=
  match fuel with
  | O => Some (ip, ellipsis, s)
  | S fuel =>
      let '(ds, rest) := spanHex s in
      if (length ds =? 0)%nat || (4 <? length ds)%nat then None
      else if bool_decide (head rest = Some dot) then
        if bool_decide (ellipsis = None) && negb (length ip =? 12)%nat then None
        else if (16 <? length ip + 4)%nat then None
        else f ← parseIPv4 s; Some (ip ++ f, ellipsis, [])
      else
        let acc := fold_left (fun acc d => acc * 16 + d) ds 0 in
        let ip := ip ++ [z2b (acc / 256); z2b acc] in
        match rest with
        | [] => Some (ip, ellipsis, [])
        | c :: rest1 =>
            if negb (bool_decide (c = colon)) then None
            else match rest1 with
                 | [] => None
                 | c2 :: rest2 =>
                     if bool_decide (c2 = colon) then
                       match ellipsis, rest2 with
                       | Some _, _ => None
                       | None, [] => Some (ip, Some (length ip), [])
                       | None, _ => parse6 fuel rest2 ip (Some (length ip))
                       end
                     else parse6 fuel rest1 ip ellipsis
                 end
        end
  end.

(** An address with a zone is not an IP. *)
Definition parseIPv6 (s : bytes) : option bytes :=
  if contains percent s then None
  else
    let '(s', ellipsis) :=
      match s with
      | c1 :: c2 :: s' =>
          if bool_decide (c1 = colon) && bool_decide (c2 = colon) then (s', Some O) else (s, None)
      | _ => (s, None)
      end in
    if bool_decide (ellipsis = Some O) && bool_decide (s' = []) then Some (replicate 16 Byte.x00)
    else
      match parse6 8 s' [] ellipsis with
      | None => None
      | Some (ip, ellipsis, rest) =>
          if negb (bool_decide (rest = [])) then None
          else if (length ip <? 16)%nat then
            e ← ellipsis; Some (take e ip ++ replicate (16 - length ip) Byte.x00 ++ drop e ip)
          else match ellipsis with Some _ => None | None => Some ip end
      end.

(** [IPv4-mapped] addresses *)
Definition v4InV6Prefix : bytes := replicate 10 Byte.x00 ++ [Byte.xff; Byte.xff].

(** The first of the bytes [.], [:], [%] decides which parser is called. *)
Fixpoint addrKind (s : bytes) : option byte :=
  match s with
  | [] => None
  | c :: s => if bool_decide (c ∈ [dot; colon; percent]) then Some c else addrKind s
  end.

Definition ParseIP (s : bytes) : option bytes :=
  match addrKind s with
  | Some c =>
      if bool_decide (c = dot) then f ← parseIPv4 s; Some (v4InV6Prefix ++ f)
      else if bool_decide (c = colon) then parseIPv6 s else None
  | None => None
  end.

Definition To4 (ip : bytes) : option bytes :=
  if (length ip =? 4)%nat then Some ip
  else if (length ip =? 16)%nat && bool_decide (take 12 ip = v4InV6Prefix) then Some (drop 12 ip)
  else None.

Definition To16 (ip : bytes) : option bytes :=
  if (length ip =? 4)%nat then Some (v4InV6Prefix ++ ip)
  else if (length ip =? 16)%nat then Some ip
  else None.

(** ** Printing *)
Definition lowerhex (n : Z) : byte := z2b (if n <? 10 then 48 + n else 87 + n).

Definition appendHex (x : Z) : bytes :=
  (if 4096 <=? x then [lowerhex (x / 4096)] else [])
  ++ (if 256 <=? x then [lowerhex (x / 256 mod 16)] else [])
  ++ (if 16 <=? x then [lowerhex (x / 16 mod 16)] else [])
  ++ [lowerhex (x mod 16)].

Fixpoint groupsOf (ip : bytes) : list Z :=
  match ip with
  | a :: b :: ip => (b2z a * 256 + b2z b) :: groupsOf ip
  | _ => []
  end.

Fixpoint leadingZeros (gs : list Z) : nat :=
  match gs with
  | g :: gs => if g =? 0 then S (leadingZeros gs) else O
  | [] => O
  end.

(** The first longest run of at least two zero groups: its start and length. *)
Definition zeroRun (gs : list Z) : nat * nat :=
  fold_left (fun '(start, n) i =>
    let l := leadingZeros (drop i gs) in
    if (2 <=? l)%nat && (n <? l)%nat then (i, l) else (start, n)) (seq 0 8) (O, O).

Definition formatIPv6 (ip : bytes) : bytes :=
  let gs := groupsOf ip in
  let '(start, n) := zeroRun gs in
  if (n =? 0)%nat then join colon (appendHex <$> gs)
  else join colon (appendHex <$> take start gs) ++ [colon; colon]
       ++ join colon (appendHex <$> drop (start + n) gs).

Definition hexString (b : bytes) : bytes :=
  b ≫= fun c => [lowerhex (b2z c / 16); lowerhex (b2z c mod 16)].

Definition IP_String (ip : bytes) : bytes :=
  if (length ip =? 0)%nat then lit "<nil>"
  else if negb (length ip =? 4)%nat && negb (length ip =? 16)%nat then lit "?" ++ hexString ip
  else match To4 ip with
       | Some p4 => formatIPv4 p4
       | None => formatIPv6 ip
       end.

Definition is_Some_b {A} (o : option A) : bool := match o with Some _ => true | None => false end.

(** ** A printed address is read back *)
Lemma parseOctet_format c : parseOctet (FormatUint (b2z c)) = Some c.
Proof.
  apply (bool_decide_eq_true_1 (parseOctet (FormatUint (b2z c)) = Some c)).
  revert c. apply (byte_forall (fun c => bool_decide (parseOctet (FormatUint (b2z c)) = Some c))).
  vm_compute. reflexivity.
Qed.

Lemma parseIPv4_format ip : length ip = 4%nat -> parseIPv4 (formatIPv4 ip) = Some ip.
Proof.
  intros Hl. unfold parseIPv4, formatIPv4. rewrite split_join.
  - destruct ip as [|a [|b [|c [|d [|]]]]]; try discriminate. cbn [fmap list_fmap].
    by rewrite !parseOctet_format.
  - by destruct ip.
  - apply Forall_fmap, Forall_true. intros c. simpl.
    apply FormatUint_notin; [apply b2z_range|done].
Qed.

Lemma unhex_lowerhex d : 0 <= d < 16 -> unhex (lowerhex d) = Some d.
Proof.
  intros Hd. assert (H : forallb (fun n => bool_decide (unhex (lowerhex (Z.of_nat n)) = Some (Z.of_nat n)))
    (seq 0 16) = true) by (vm_compute; reflexivity).
  rewrite forallb_forall in H. specialize (H (Z.to_nat d)). rewrite Z2Nat.id in H by lia.
  apply bool_decide_eq_true in H; [done|]. apply in_seq. lia.
Qed.

(** Where a run of digits ends. *)
Definition hexEnd (rest : bytes) : Prop :=
  match rest with [] => True | c :: _ => unhex c = None end.

Lemma spanHex_digits ds rest :
  Forall (fun d => 0 <= d < 16) ds -> hexEnd rest ->
  spanHex ((lowerhex <$> ds) ++ rest) = (ds, rest).
Proof.
  intros Hds Hr. induction Hds as [|d ds Hd Hds IH].
  - destruct rest as [|c rest]; [done|]. simpl in *. by rewrite Hr.
  - rewrite fmap_cons. cbn [app spanHex]. by rewrite unhex_lowerhex, IH by done.
Qed.

Definition hexDigits (x : Z) : list Z :=
  (if 4096 <=? x then [x / 4096] else []) ++ (if 256 <=? x then [x / 256 mod 16] else [])
  ++ (if 16 <=? x then [x / 16 mod 16] else []) ++ [x mod 16].

Lemma appendHex_digits x : appendHex x = lowerhex <$> hexDigits x.
Proof.
  unfold appendHex, hexDigits. by destruct (4096 <=? x), (256 <=? x), (16 <=? x).
Qed.

Lemma hexDigits_spec x :
  0 <= x < 65536 ->
  Forall (fun d => 0 <= d < 16) (hexDigits x) /\ (1 <= length (hexDigits x) <= 4)%nat
  /\ fold_left (fun acc d => acc * 16 + d) (hexDigits x) 0 = x.
Proof.
  intros Hx. unfold hexDigits.
  destruct (Z.leb_spec 4096 x), (Z.leb_spec 256 x), (Z.leb_spec 16 x); try lia;
    cbn [app length fold_left]; (split; [repeat constructor|split; [lia|]]);
    Z.to_euclidean_division_equations; lia.
Qed.

(** The bytes of a list of groups. *)
Definition flat (gs : list Z) : bytes := gs ≫= fun g => [z2b (g / 256); z2b g].
Definition groups_ok (gs : list Z) : Prop := Forall (fun g => 0 <= g < 65536) gs.

Lemma flat_cons g gs : flat (g :: gs) = [z2b (g / 256); z2b g] ++ flat gs.
Proof. done. Qed.
Lemma flat_app gs gs' : flat (gs ++ gs') = flat gs ++ flat gs'.
Proof. apply bind_app. Qed.
Lemma length_flat gs : length (flat gs) = (2 * length gs)%nat.
Proof. induction gs as [|g gs IH]; [done|]. rewrite flat_cons, length_app, IH. simpl. lia. Qed.

Lemma appendHex_head x : 0 <= x < 65536 -> exists c s, appendHex x = c :: s /\ is_Some (unhex c).
Proof.
  intros Hx. destruct (hexDigits_spec x Hx) as (Hd & Hl & _). rewrite appendHex_digits.
  destruct (hexDigits x) as [|d ds]; [simpl in Hl; lia|]. rewrite fmap_cons.
  apply Forall_cons_1 in Hd as [Hd _]. eexists _, _. split; [done|].
  by rewrite unhex_lowerhex.
Qed.

(** One round of the loop on a group followed by [rest]. *)
Lemma parse6_group fuel x rest ip ell :
  0 <= x < 65536 -> hexEnd rest -> head rest <> Some dot ->
  parse6 (S fuel) (appendHex x ++ rest) ip ell =
    let ip := ip ++ [z2b (x / 256); z2b x] in
    match rest with
    | [] => Some (ip, ell, [])
    | c :: rest1 =>
        if negb (bool_decide (c = colon)) then None
        else match rest1 with
             | [] => None
             | c2 :: rest2 =>
                 if bool_decide (c2 = colon) then
                   match ell, rest2 with
                   | Some _, _ => None
                   | None, [] => Some (ip, Some (length ip), [])
                   | None, _ => parse6 fuel rest2 ip (Some (length ip))
                   end
                 else parse6 fuel rest1 ip ell
             end
    end.
Proof.
  intros Hx He Hd. destruct (hexDigits_spec x Hx) as (Hds & Hl & Hf). cbn [parse6].
  rewrite appendHex_digits, spanHex_digits by done.
  rewrite (proj2 (Nat.eqb_neq _ _)) by lia. rewrite (proj2 (Nat.ltb_ge _ _)) by lia. cbn [orb].
  rewrite bool_decide_false by done. by rewrite Hf.
Qed.

Lemma join_cons sep w l : l <> [] -> join sep (w :: l) = w ++ sep :: join sep l.
Proof. by destruct l. Qed.

(** A join of groups begins with a digit, not with a colon. *)
Lemma join_head gs :
  groups_ok gs -> gs <> [] ->
  exists c s, join colon (appendHex <$> gs) = c :: s /\ is_Some (unhex c) /\ c <> colon.
Proof.
  intros Hgs Hne. destruct Hgs as [|g gs Hg Hgs]; [done|].
  destruct (appendHex_head g Hg) as (c & s & E & Hc). rewrite fmap_cons.
  assert (c <> colon) by (intros ->; destruct Hc; done).
  destruct gs as [|g' gs]; [exists c, s; by rewrite E|].
  rewrite join_cons by done. rewrite E. eauto.
Qed.

(** The loop on the last groups. *)
Lemma parse6_join fuel gs ip ell :
  groups_ok gs -> gs <> [] -> (length gs <= fuel)%nat ->
  parse6 fuel (join colon (appendHex <$> gs)) ip ell = Some (ip ++ flat gs, ell, []).
Proof.
  intros Hgs. revert fuel ip. induction Hgs as [|g gs Hg Hgs IH]; intros fuel ip Hne Hl; [done|].
  destruct fuel as [|fuel]; [simpl in Hl; lia|]. rewrite fmap_cons, flat_cons.
  destruct gs as [|g' gs].
  - cbn [fmap list_fmap join]. rewrite <- (app_nil_r (appendHex g)), parse6_group by done. done.
  - rewrite join_cons by done. rewrite parse6_group by done. cbv zeta.
    rewrite bool_decide_true by done. cbn [negb].
    destruct (join_head (g' :: gs) Hgs ltac:(done)) as (c & s & Hj & _ & Hc). rewrite Hj.
    rewrite bool_decide_false by done. rewrite <- Hj, IH by (simpl in *; done || lia).
    by rewrite <- app_assoc.
Qed.

(** The loop on groups followed by the ellipsis. *)
Lemma parse6_ellipsis fuel gs rest ip :
  groups_ok gs -> gs <> [] -> (length gs <= fuel)%nat ->
  parse6 fuel (join colon (appendHex <$> gs) ++ colon :: colon :: rest) ip None =
    let ip := ip ++ flat gs in
    match rest with
    | [] => Some (ip, Some (length ip), [])
    | _ => parse6 (fuel - length gs) rest ip (Some (length ip))
    end.
Proof.
  intros Hgs. revert fuel ip. induction Hgs as [|g gs Hg Hgs IH]; intros fuel ip Hne Hl; [done|].
  destruct fuel as [|fuel]; [simpl in Hl; lia|]. rewrite fmap_cons, flat_cons.
  destruct gs as [|g' gs].
  - cbn [fmap list_fmap join flat mbind list_bind]. rewrite parse6_group by done. cbv zeta.
    rewrite !bool_decide_true by done. cbn [negb]. rewrite app_nil_r. cbn [length Nat.sub].
    by rewrite Nat.sub_0_r.
  - rewrite join_cons by done. rewrite <- app_assoc. cbn [app]. rewrite parse6_group by done. cbv zeta.
    rewrite bool_decide_true by done. cbn [negb].
    destruct (join_head (g' :: gs) Hgs ltac:(done)) as (c & s & Hj & _ & Hc).
    rewrite Hj. cbn [app]. rewrite bool_decide_false by done.
    replace (c :: s ++ colon :: colon :: rest) with ((c :: s) ++ colon :: colon :: rest) by done.
    rewrite <- Hj, IH by (simpl in *; done || lia). by rewrite <- app_assoc.
Qed.

Lemma flat_groupsOf n ip :
  length ip = (2 * n)%nat ->
  flat (groupsOf ip) = ip /\ length (groupsOf ip) = n /\ groups_ok (groupsOf ip).
Proof.
  revert ip. induction n as [|n IH]; intros ip Hl.
  { apply length_zero_iff_nil in Hl as ->. repeat split. constructor. }
  destruct ip as [|a [|b ip]]; [simpl in Hl; lia|simpl in Hl; lia|].
  destruct (IH ip) as (Hf & Hn & Hg); [simpl in Hl; lia|].
  pose proof (b2z_range a). pose proof (b2z_range b).
  cbn [groupsOf length]. rewrite flat_cons, Hf, Hn. split_and!; [|done|constructor; [lia|done]].
  assert ((b2z a * 256 + b2z b) / 256 = b2z a) as ->
    by (rewrite Z.add_comm, Z.div_add, Z.div_small by lia; lia).
  rewrite z2b_b2z. cbn [app]. f_equal. f_equal. apply b2z_inj.
  rewrite b2z_z2b, Z.add_comm, Z_mod_plus_full. by apply Z.mod_small.
Qed.

Lemma leadingZeros_spec gs :
  (leadingZeros gs <= length gs)%nat /\ take (leadingZeros gs) gs = replicate (leadingZeros gs) 0.
Proof.
  induction gs as [|g gs [IH1 IH2]]; [done|]. cbn [leadingZeros].
  destruct (Z.eqb_spec g 0) as [->|]; [|split; [simpl; lia|done]].
  split; [simpl; lia|]. cbn [take replicate]. by rewrite IH2.
Qed.

Lemma zeroRun_spec gs :
  length gs = 8%nat ->
  let '(s, n) := zeroRun gs in
  n = O \/ (s + n <= 8)%nat /\ gs = take s gs ++ replicate n 0 ++ drop (s + n) gs.
Proof.
  intros Hl. unfold zeroRun.
  set (P := fun '(s, n) => n = O \/ (s + n <= 8)%nat /\ gs = take s gs ++ replicate n 0 ++ drop (s + n) gs).
  assert (H : forall is0 acc, (forall i, i ∈ is0 -> (i < 8)%nat) -> P acc ->
    P (fold_left (fun '(start, n) i =>
        let l := leadingZeros (drop i gs) in
        if (2 <=? l)%nat && (n <? l)%nat then (i, l) else (start, n)) is0 acc)).
  { induction is0 as [|i is0 IH]; intros [s n] Hi Hacc; [done|]. cbn [fold_left]. apply IH; [set_solver|].
    cbv zeta. destruct (_ && _); [|done]. right.
    destruct (leadingZeros_spec (drop i gs)) as [H1 H2]. rewrite length_drop in H1.
    specialize (Hi i ltac:(set_solver)). split; [lia|].
    rewrite <- H2, <- (drop_drop gs). by rewrite !take_drop. }
  specialize (H (seq 0 8) (O, O)). destruct (fold_left _ _ _) as [s n]. apply H; [|by left].
  intros i ?%elem_of_seq. lia.
Qed.

Lemma flat_zeros n : flat (replicate n 0) = replicate (2 * n) Byte.x00.
Proof.
  induction n as [|n IH]; [done|]. cbn [replicate]. rewrite flat_cons, IH.
  replace (2 * S n)%nat with (S (S (2 * n))) by lia. done.
Qed.

(** The characters of a printed address. *)
Lemma appendHex_hex x c : 0 <= x < 65536 -> c ∈ appendHex x -> is_Some (unhex c).
Proof.
  intros Hx. destruct (hexDigits_spec x Hx) as (Hd & _). rewrite appendHex_digits.
  intros (d & -> & Hin)%list_elem_of_fmap. rewrite Forall_forall in Hd.
  rewrite unhex_lowerhex by (by apply Hd). eauto.
Qed.

Lemma elem_of_join sep l c : c ∈ join sep l -> c = sep \/ exists w, w ∈ l /\ c ∈ w.
Proof.
  induction l as [|w l IH]; [set_solver|]. destruct l as [|w' l]; [set_solver|].
  rewrite join_cons by done. rewrite elem_of_app, elem_of_cons.
  intros [?|[?|Hc]]; [right; set_solver|by left|].
  destruct (IH Hc) as [?|(w2 & ? & ?)]; [by left|right; set_solver].
Qed.

Lemma join_hex_percent gs : groups_ok gs -> percent ∉ join colon (appendHex <$> gs).
Proof.
  intros Hgs Hin. apply elem_of_join in Hin as [?|(w & Hw & Hc)]; [done|].
  apply list_elem_of_fmap in Hw as (g & -> & Hg).
  unfold groups_ok in Hgs. rewrite Forall_forall in Hgs. apply appendHex_hex in Hc; [|by apply Hgs].
  by destruct Hc.
Qed.

Lemma addrKind_hex s rest :
  (forall c, c ∈ s -> is_Some (unhex c)) -> addrKind (s ++ colon :: rest) = Some colon.
Proof.
  induction s as [|c s IH]; intros Hs; [done|]. cbn [app addrKind].
  rewrite bool_decide_false; [apply IH; set_solver|].
  intros Hin. destruct (Hs c ltac:(set_solver)) as [d Hd].
  repeat (apply elem_of_cons in Hin as [->|Hin]; [done|]). set_solver.
Qed.

(** A printed address begins with digits and a colon. *)
Lemma addrKind_format gs rest :
  groups_ok gs -> (2 <= length gs)%nat \/ (exists r, rest = colon :: r) ->
  addrKind (join colon (appendHex <$> gs) ++ rest) = Some colon.
Proof.
  intros Hgs Hl. destruct Hgs as [|g gs Hg Hgs].
  { destruct Hl as [Hl|[r ->]]; [simpl in Hl; lia|done]. }
  rewrite fmap_cons. destruct gs as [|g' gs].
  - destruct Hl as [Hl|[r ->]]; [simpl in Hl; lia|]. cbn [fmap list_fmap join].
    apply addrKind_hex. intros c. by apply appendHex_hex.
  - rewrite join_cons by done. rewrite <- app_assoc. cbn [app].
    apply addrKind_hex. intros c. by apply appendHex_hex.
Qed.

(** The text without the leading ellipsis. *)
Lemma parseIPv6_digit c s :
  c <> colon -> percent ∉ c :: s ->
  parseIPv6 (c :: s) =
    match parse6 8 (c :: s) [] None with
    | None => None
    | Some (ip, ellipsis, rest) =>
        if negb (bool_decide (rest = [])) then None
        else if (length ip <? 16)%nat then
          e ← ellipsis; Some (take e ip ++ replicate (16 - length ip) Byte.x00 ++ drop e ip)
        else match ellipsis with Some _ => None | None => Some ip end
    end.
Proof.
  intros Hc Hp. unfold parseIPv6, contains. rewrite bool_decide_false by done.
  destruct s as [|c2 s]; [done|]. by rewrite (bool_decide_false (c = colon)).
Qed.

Lemma join_nil_inv gs : groups_ok gs -> join colon (appendHex <$> gs) = [] -> gs = [].
Proof.
  intros Hgs E. destruct (decide (gs = [])) as [|He]; [done|].
  destruct (join_head gs Hgs He) as (? & ? & E' & _). congruence.
Qed.

(** The ellipsis first, and the ellipsis after some groups. *)
Lemma parseIPv6_front suf :
  groups_ok suf -> (length suf < 8)%nat ->
  parseIPv6 (colon :: colon :: join colon (appendHex <$> suf))
  = Some (replicate (16 - 2 * length suf) Byte.x00 ++ flat suf).
Proof.
  intros Hsuf Hl. pose proof (join_hex_percent _ Hsuf). pose proof (length_flat suf) as Hf.
  unfold parseIPv6, contains. rewrite bool_decide_false by set_solver.
  rewrite !(bool_decide_true (colon = colon)) by done. cbn [andb].
  rewrite (bool_decide_true (Some O = Some O)) by done. cbn [andb].
  case_bool_decide as He.
  - apply join_nil_inv in He as ->; [|done]. done.
  - rewrite parse6_join by (done || lia || by intros ->). cbn [app].
    rewrite bool_decide_true by done. cbn [negb].
    rewrite (proj2 (Nat.ltb_lt _ _)) by lia. cbn [mbind option_bind take drop app].
    by rewrite Hf.
Qed.

Lemma parseIPv6_middle pre suf :
  groups_ok pre -> groups_ok suf -> pre <> [] -> (length pre + length suf < 8)%nat ->
  parseIPv6 (join colon (appendHex <$> pre) ++ colon :: colon :: join colon (appendHex <$> suf))
  = Some (flat pre ++ replicate (16 - 2 * (length pre + length suf)) Byte.x00 ++ flat suf).
Proof.
  intros Hpre Hsuf Hne Hl. pose proof (join_hex_percent _ Hpre). pose proof (join_hex_percent _ Hsuf).
  pose proof (length_flat pre) as Hfp. pose proof (length_flat suf) as Hfs.
  destruct (join_head pre Hpre Hne) as (c & t & Hj & _ & Hc). rewrite Hj in *.
  rewrite <- app_comm_cons, parseIPv6_digit by (done || set_solver).
  rewrite app_comm_cons, <- Hj, parse6_ellipsis by (done || lia). cbv zeta. cbn [app].
  destruct (join colon (appendHex <$> suf)) as [|c' t'] eqn:Ej.
  - apply join_nil_inv in Ej as ->; [|done]. rewrite bool_decide_true by done. cbn [negb length] in *.
    rewrite (proj2 (Nat.ltb_lt _ _)) by lia. cbn [mbind option_bind].
    rewrite take_ge, drop_ge by done. by rewrite Hfp, Nat.add_0_r.
  - rewrite <- Ej, parse6_join by (done || lia || (intros E; by rewrite E in Ej)).
    rewrite bool_decide_true by done. cbn [negb]. rewrite length_app.
    rewrite (proj2 (Nat.ltb_lt _ _)) by lia. cbn [mbind option_bind].
    rewrite take_app_length, drop_app_length, Hfp, Hfs. by rewrite Nat.mul_add_distr_l.
Qed.

Lemma parseIPv6_format ip : length ip = 16%nat -> parseIPv6 (formatIPv6 ip) = Some ip.
Proof.
  intros Hl. destruct (flat_groupsOf 8 ip Hl) as (Hf & Hn & Hg). unfold formatIPv6.
  pose proof (zeroRun_spec (groupsOf ip) Hn) as Hz. destruct (zeroRun (groupsOf ip)) as [s n].
  assert (Hpre : groups_ok (take s (groupsOf ip))) by (by apply Forall_take).
  assert (Hsuf : groups_ok (drop (s + n) (groupsOf ip))) by (by apply Forall_drop).
  destruct (Nat.eqb_spec n 0) as [->|Hn0].
  - assert (Hne : groupsOf ip <> []) by (intros E; by rewrite E in Hn).
    destruct (join_head (groupsOf ip) Hg Hne) as (c & t & Hj & _ & Hc).
    pose proof (join_hex_percent _ Hg) as Hp. rewrite Hj in Hp |- *.
    rewrite parseIPv6_digit, <- Hj, parse6_join by (done || lia).
    cbn [app]. by rewrite Hf, Hl.
  - destruct Hz as [?|[Hsn Hgs]]; [done|]. rewrite <- Hf at 3. rewrite Hgs at 3.
    rewrite !flat_app, flat_zeros. cbn [app].
    destruct (decide (s = O)) as [->|Hs0].
    + change (take 0 (groupsOf ip)) with (@nil Z). cbn [fmap list_fmap join app].
      rewrite parseIPv6_front by (done || (rewrite length_drop; lia)).
      rewrite length_drop, Hn. by replace (16 - 2 * (8 - (0 + n)))%nat with (2 * n)%nat by lia.
    + rewrite parseIPv6_middle; [|done|done| |rewrite length_take, length_drop; lia].
      * rewrite length_take, length_drop, Hn.
        by replace (16 - 2 * (s `min` 8 + (8 - (s + n))))%nat with (2 * n)%nat by lia.
      * intros E. apply (f_equal length) in E. rewrite length_take in E. simpl in E. lia.
Qed.

(** ** The packages' functions on printed addresses *)
Lemma ParseIP_v4 ip : length ip = 4%nat -> ParseIP (formatIPv4 ip) = Some (v4InV6Prefix ++ ip).
Proof.
  intros Hl. unfold ParseIP. assert (Hk : addrKind (formatIPv4 ip) = Some dot).
  { destruct ip as [|a [|b ip]]; try discriminate. unfold formatIPv4. rewrite !fmap_cons, join_cons by done.
    assert (Hd : forall c, c ∈ FormatUint (b2z a) -> c ∉ [dot; colon; percent]).
    { intros c Hc. assert (Hn : isDigit c = true).
      { destruct (isDigit c) eqn:E; [done|]. by destruct (FormatUint_notin (b2z a) c (proj1 (b2z_range a)) E). }
      intros Hin. repeat (apply elem_of_cons in Hin as [->|Hin]; [done|]). set_solver. }
    revert Hd. generalize (FormatUint (b2z a)). intros w. induction w as [|c w IH]; intros Hd; [done|].
    cbn [app addrKind]. rewrite bool_decide_false by (apply Hd; set_solver). apply IH. set_solver. }
  rewrite Hk, bool_decide_true by done. by rewrite parseIPv4_format.
Qed.

Lemma ParseIP_v6 ip : length ip = 16%nat -> ParseIP (formatIPv6 ip) = Some ip.
Proof.
  intros Hl. unfold ParseIP. assert (Hk : addrKind (formatIPv6 ip) = Some colon).
  { destruct (flat_groupsOf 8 ip Hl) as (_ & Hn & Hg). unfold formatIPv6.
    destruct (zeroRun (groupsOf ip)) as [s n]. destruct (n =? 0)%nat.
    - rewrite <- (app_nil_r (join _ _)). apply addrKind_format; [done|left; lia].
    - apply addrKind_format; [by apply Forall_take|right; eauto]. }
  rewrite Hk, bool_decide_false, bool_decide_true by done. by apply parseIPv6_format.
Qed.

Lemma join_snoc_free sep l c : c <> sep -> (forall w, w ∈ l -> c ∉ w) -> c ∉ join sep l.
Proof. intros Hc Hl Hin. apply elem_of_join in Hin as [?|(w & Hw & ?)]; [done|]. by apply (Hl w). Qed.

(** The text [::ffff:] before a dotted address. *)
Definition mappedPrefix : bytes := lit "::ffff:".

Lemma spanHex_app w rest :
  (forall c, c ∈ w -> is_Some (unhex c)) -> hexEnd rest ->
  exists ds, spanHex (w ++ rest) = (ds, rest) /\ length ds = length w.
Proof.
  intros Hw Hr. induction w as [|c w IH].
  - exists []. destruct rest as [|c rest]; [done|]. simpl in *. by rewrite Hr.
  - destruct IH as (ds & E & Hl); [set_solver|]. destruct (Hw c ltac:(set_solver)) as [d Hd].
    exists (d :: ds). cbn [app spanHex]. rewrite Hd, E. simpl. by rewrite Hl.
Qed.

(** An octet in decimal: one to three digits. *)
Lemma octet_digits a :
  (forall c, c ∈ FormatUint (b2z a) -> is_Some (unhex c)) /\ (1 <= length (FormatUint (b2z a)) <= 3)%nat.
Proof.
  assert (H : forallb (fun c => is_Some_b (unhex c)) (FormatUint (b2z a))
              && (1 <=? length (FormatUint (b2z a)))%nat && (length (FormatUint (b2z a)) <=? 3)%nat = true).
  { revert a. apply (byte_forall (fun a => forallb (fun c => is_Some_b (unhex c)) (FormatUint (b2z a))
      && (1 <=? length (FormatUint (b2z a)))%nat && (length (FormatUint (b2z a)) <=? 3)%nat)).
    vm_compute. reflexivity. }
  apply andb_true_iff in H as [[H1 H2%Nat.leb_le]%andb_true_iff H3%Nat.leb_le]. split; [|lia].
  rewrite forallb_forall in H1. intros c Hc%list_elem_of_In%H1. destruct (unhex c); [eauto|done].
Qed.

(** The last round, on a dotted address. *)
Lemma parse6_dotted fuel p4 ip e :
  length p4 = 4%nat -> (length ip + 4 <= 16)%nat ->
  parse6 (S fuel) (formatIPv4 p4) ip (Some e) = Some (ip ++ p4, Some e, [])
  /\ exists c t, formatIPv4 p4 = c :: t /\ c <> colon.
Proof.
  intros Hl Hip. pose proof (parseIPv4_format p4 Hl) as Hparse.
  destruct p4 as [|a [|b p4]]; try discriminate. unfold formatIPv4 in *.
  rewrite !fmap_cons, join_cons in * by done. destruct (octet_digits a) as [Hd Hn].
  set (tl := dot :: _) in *. split.
  - cbn [parse6]. destruct (spanHex_app _ tl Hd) as (ds & -> & Hds); [done|].
    rewrite (proj2 (Nat.eqb_neq _ _)) by lia. rewrite (proj2 (Nat.ltb_ge 4 _)) by lia. cbn [orb].
    rewrite bool_decide_true by done. rewrite bool_decide_false by done. cbn [andb].
    rewrite (proj2 (Nat.ltb_ge 16 _)) by lia. by rewrite Hparse.
  - destruct (FormatUint (b2z a)) as [|c w]; [simpl in Hn; lia|]. exists c, (w ++ tl). split; [done|].
    intros ->. destruct (Hd colon ltac:(set_solver)). done.
Qed.

Lemma ParseIP_mapped p4 :
  length p4 = 4%nat -> ParseIP (mappedPrefix ++ formatIPv4 p4) = Some (v4InV6Prefix ++ p4).
Proof.
  intros Hl. unfold ParseIP.
  assert (Hk : addrKind (mappedPrefix ++ formatIPv4 p4) = Some colon) by done.
  rewrite Hk, bool_decide_false, bool_decide_true by done. clear Hk.
  destruct (parse6_dotted 6 p4 [Byte.xff; Byte.xff] 0 Hl ltac:(simpl; lia)) as (Hp & c & t & Hf & Hc).
  assert (Hperc : percent ∉ mappedPrefix ++ formatIPv4 p4).
  { rewrite elem_of_app. intros [Hin|Hin].
    - apply (bool_decide_eq_true_2 _) in Hin. by vm_compute in Hin.
    - revert Hin. apply join_snoc_free; [done|]. intros w (x & -> & _)%list_elem_of_fmap.
      apply FormatUint_notin; [apply b2z_range|done]. }
  change (mappedPrefix ++ formatIPv4 p4)
    with (colon :: colon :: appendHex 65535 ++ colon :: formatIPv4 p4) in *.
  unfold parseIPv6, contains. rewrite bool_decide_false by done.
  rewrite !(bool_decide_true (colon = colon)) by done. cbn [andb].
  rewrite (bool_decide_true (Some O = Some O)) by done. cbn [andb].
  rewrite bool_decide_false by done. rewrite parse6_group by done. cbv zeta.
  rewrite bool_decide_true by done. cbn [negb]. rewrite Hf, bool_decide_false by done.
  rewrite <- Hf. change ([] ++ [z2b (65535 / 256); z2b 65535]) with [Byte.xff; Byte.xff].
  rewrite Hp. rewrite bool_decide_true by done. cbn [negb].
  rewrite (proj2 (Nat.ltb_lt _ _)) by (rewrite length_app, Hl; simpl; lia).
  cbn [mbind option_bind take drop app length]. by rewrite Hl.
Qed.
