(* ===== verification/GoBase.v ===== *)
(** * Base32 and base64 (packages encoding/base32 and encoding/base64)

    The encodings with padding that the transcoders use, as streams of bits:
    bytes are eight bits each, characters five or six.  [decode32] and [decode64]
    follow the quantum loops of the packages, with their treatment of line breaks,
    padding and what comes after it; trailing bits are dropped, as both packages do
    when they are not strict. *)
From Stdlib Require Import ZArith Lia.
From stdpp Require Import base tactics list numbers option sets strings.
From S2P Require Import Prelude GoBytes.
Local Open Scope Z_scope.

(** ** Numbers of a fixed width as bits, the most significant first *)
Fixpoint toBits (k : nat) (n : Z) : list bool :=
  match k with O => [] | S k => Z.testbit n (Z.of_nat k) :: toBits k n end.

Definition ofBits (l : list bool) : Z := fold_left (fun acc (b : bool) => 2 * acc + (if b then 1 else 0)) l 0.

(** The list in pieces of [k]; the last one may be shorter. *)
Fixpoint chunks (fuel k : nat) {A} (l : list A) : list (list A) :=
  match fuel, l with
  | _, [] => []
  | O, _ => []
  | S fuel, _ => take k l :: chunks fuel k (drop k l)
  end.

Definition bitsOfBytes (b : bytes) : list bool := b ≫= fun c => toBits 8 (b2z c).
Definition bitsOfValues (k : nat) (vs : list Z) : list bool := vs ≫= toBits k.

(** Zero bits up to a multiple of [k]. *)
Definition padBits (k : nat) (l : list bool) : list bool :=
  l ++ replicate ((k - length l mod k) mod k) false.

Definition valuesOf (k : nat) (b : bytes) : list Z :=
  let l := padBits k (bitsOfBytes b) in ofBits <$> chunks (length l) k l.

(** The whole bytes of a list of [k]-bit values. *)
Definition bytesOf (k : nat) (vs : list Z) : bytes :=
  let l := bitsOfValues k vs in
  let n := (length l / 8)%nat in
  (fun w => z2b (ofBits w)) <$> chunks n 8 (take (8 * n) l).

(** ** Characters *)
Definition padChar : byte := z2b 61.
Definition isNewline (c : byte) : bool := (b2z c =? 10) || (b2z c =? 13).
Definition stripNewlines (s : bytes) : bytes := filter (fun c => isNewline c = false) s.

Definition charOf (alphabet : bytes) (v : Z) : byte := default padChar (alphabet !! Z.to_nat v).

Fixpoint indexOf (c : byte) (l : bytes) : option nat :=
  match l with
  | [] => None
  | x :: l => if decide (x = c) then Some O else S <$> indexOf c l
  end.
Definition valueOf (alphabet : bytes) (c : byte) : option Z := Z.of_nat <$> indexOf c alphabet.

(** [EncodeToString]: [k] bits a character, [q] characters a quantum. *)
Definition encodeBase (k q : nat) (alphabet : bytes) (b : bytes) : bytes :=
  let cs := charOf alphabet <$> valuesOf k b in
  cs ++ replicate ((q - length cs mod q) mod q) padChar.

(** One quantum of base32 from its [j]-th character on: the values of the
    quantum, whether the padding was reached, and the rest. *)
Fixpoint quantum32 (alphabet : bytes) (left : nat) (src : bytes) (acc : list Z)
    : option (list Z * bool * bytes) :=
  match left with
  | O => Some (acc, false, src)
  | S left' =>
      match src with
      | [] => None
      | c :: src' =>
          let j := (8 - left)%nat in
          if bool_decide (c = padChar) && (2 <=? j)%nat && (length src' <? 8)%nat then
            if (length src' + j <? 7)%nat then None
            else if forallb (fun x => bool_decide (x = padChar)) (take (7 - j) src') then
              if (j =? 3)%nat || (j =? 6)%nat then None else Some (acc, true, src')
            else None
          else
            v ← valueOf alphabet c; quantum32 alphabet left' src' (acc ++ [v])
      end
  end.

Fixpoint loop32 (fuel : nat) (alphabet src : bytes) : option (list Z) :=
  match fuel, src with
  | _, [] => Some []
  | O, _ => None
  | S fuel, _ =>
      match quantum32 alphabet 8 src [] with
      | None => None
      | Some (vs, true, _) => Some vs
      | Some (vs, false, rest) => (fun t => vs ++ t) <$> loop32 fuel alphabet rest
      end
  end.

Definition decode32 (alphabet s : bytes) : option bytes :=
  let src := stripNewlines s in bytesOf 5 <$> loop32 (length src) alphabet src.

(** One quantum of base64; nothing may follow the padding. *)
Fixpoint quantum64 (alphabet : bytes) (left : nat) (src : bytes) (acc : list Z)
    : option (list Z * bool * bytes) :=
  match left with
  | O => Some (acc, false, src)
  | S left' =>
      match src with
      | [] => None
      | c :: src' =>
          match valueOf alphabet c with
          | Some v => quantum64 alphabet left' src' (acc ++ [v])
          | None =>
              if negb (bool_decide (c = padChar)) then None
              else match (4 - left)%nat with
                   | 2%nat => if bool_decide (src' = [padChar]) then Some (acc, true, []) else None
                   | 3%nat => if bool_decide (src' = []) then Some (acc, true, []) else None
                   | _ => None
                   end
          end
      end
  end.

Fixpoint loop64 (fuel : nat) (alphabet src : bytes) : option (list Z) :=
  match fuel, src with
  | _, [] => Some []
  | O, _ => None
  | S fuel, _ =>
      match quantum64 alphabet 4 src [] with
      | None => None
      | Some (vs, true, _) => Some vs
      | Some (vs, false, rest) => (fun t => vs ++ t) <$> loop64 fuel alphabet rest
      end
  end.

Definition decode64 (alphabet s : bytes) : option bytes :=
  let src := stripNewlines s in bytesOf 6 <$> loop64 (length src) alphabet src.

(** [strings.ToLower] and, on ASCII, [strings.ToUpper] *)
Definition lowerByte (c : byte) : byte := if inRange c 65 90 then z2b (b2z c + 32) else c.
Definition upperByte (c : byte) : byte := if inRange c 97 122 then z2b (b2z c - 32) else c.

(** ** Bits and numbers *)
Lemma length_toBits k n : length (toBits k n) = k.
Proof. induction k; simpl; [done|by f_equal]. Qed.

Lemma ofBits_snoc l (b : bool) : ofBits (l ++ [b]) = 2 * ofBits l + (if b then 1 else 0).
Proof. unfold ofBits. by rewrite fold_left_app. Qed.

Lemma ofBits_range l : 0 <= ofBits l < 2 ^ Z.of_nat (length l).
Proof.
  induction l as [|b l IH] using rev_ind; [done|]. rewrite ofBits_snoc, length_app, Nat.add_comm.
  cbn [length Nat.add]. rewrite Nat2Z.inj_succ, Z.pow_succ_r by lia. destruct b; lia.
Qed.

Lemma toBits_snoc k n : toBits (S k) n = toBits k (n / 2) ++ [Z.testbit n 0].
Proof.
  induction k as [|k IH]; [done|].
  change (toBits (S (S k)) n) with (Z.testbit n (Z.of_nat (S k)) :: toBits (S k) n).
  rewrite IH. cbn [toBits app]. f_equal. rewrite <- Z.div2_div, Z.div2_spec, Z.shiftr_spec by lia.
  f_equal. lia.
Qed.

Lemma toBits_ofBits l : toBits (length l) (ofBits l) = l.
Proof.
  induction l as [|b l IH] using rev_ind; [done|].
  rewrite length_app, Nat.add_comm. cbn [length Nat.add]. rewrite toBits_snoc, ofBits_snoc.
  assert ((2 * ofBits l + (if b then 1 else 0)) / 2 = ofBits l) as ->
    by (rewrite Z.add_comm, Z.mul_comm, Z.div_add, Z.div_small by (destruct b; lia); lia).
  rewrite IH. f_equal. f_equal. destruct b; [apply Z.testbit_odd_0|].
  rewrite Z.add_0_r. apply Z.testbit_even_0.
Qed.

Lemma ofBits_toBits k n : 0 <= n < 2 ^ Z.of_nat k -> ofBits (toBits k n) = n.
Proof.
  revert n. induction k as [|k IH]; intros n Hn; [simpl in Hn; unfold ofBits; simpl; lia|].
  rewrite Nat2Z.inj_succ, Z.pow_succ_r in Hn by lia.
  rewrite toBits_snoc, ofBits_snoc, IH.
  - rewrite Z.bit0_odd. pose proof (Z.div_mod n 2 ltac:(lia)) as Hd.
    rewrite Zmod_odd in Hd. destruct (Z.odd n); lia.
  - split; [apply Z.div_pos; lia|apply Z.div_lt_upper_bound; lia].
Qed.

(** ** Pieces *)
Lemma chunks_concat {A} fuel k (l : list A) :
  (0 < k)%nat -> (length l <= fuel * k)%nat -> concat (chunks fuel k l) = l.
Proof.
  intros Hk. revert l. induction fuel as [|fuel IH]; intros l Hl.
  { destruct l; [done|simpl in Hl; lia]. }
  destruct l as [|x l]; [done|]. cbn [chunks concat]. rewrite IH; [apply take_drop|].
  rewrite length_drop. simpl in *. lia.
Qed.

Lemma chunks_S {A} fuel k (l : list A) :
  l <> [] -> chunks (S fuel) k l = take k l :: chunks fuel k (drop k l).
Proof. by destruct l. Qed.

Lemma chunks_exact {A} n fuel k (l : list A) :
  (0 < k)%nat -> length l = (n * k)%nat -> (n <= fuel)%nat ->
  Forall (fun c => length c = k) (chunks fuel k l) /\ length (chunks fuel k l) = n.
Proof.
  intros Hk. revert fuel l. induction n as [|n IH]; intros fuel l Hl Hf.
  { apply length_zero_iff_nil in Hl as ->. by destruct fuel. }
  destruct fuel as [|fuel]; [lia|].
  rewrite chunks_S by (intros ->; simpl in Hl; lia).
  destruct (IH fuel (drop k l)) as [IH1 IH2]; [rewrite length_drop; simpl in Hl; lia|lia|].
  split; [|simpl; lia]. constructor; [|done]. rewrite length_take. simpl in Hl. lia.
Qed.

Lemma bits_values k (ls : list (list bool)) :
  Forall (fun c => length c = k) ls -> bitsOfValues k (ofBits <$> ls) = concat ls.
Proof.
  induction 1 as [|c ls Hc Hls IH]; [done|]. unfold bitsOfValues in *.
  rewrite fmap_cons, bind_cons, IH. cbn [concat]. f_equal. by rewrite <- Hc, toBits_ofBits.
Qed.

Lemma length_padBits k l : (0 < k)%nat -> exists n, length (padBits k l) = (n * k)%nat
  /\ (length l <= n * k < length l + k)%nat.
Proof.
  intros Hk. unfold padBits. rewrite length_app, length_replicate.
  pose proof (Nat.div_mod (length l) k ltac:(lia)) as Hd.
  pose proof (Nat.mod_upper_bound (length l) k ltac:(lia)) as Hm.
  destruct (decide (length l mod k = 0)%nat) as [E|E].
  - exists (length l / k)%nat. rewrite E, Nat.sub_0_r, Nat.Div0.mod_same. lia.
  - exists (S (length l / k))%nat. rewrite (Nat.mod_small (k - _)) by lia. lia.
Qed.

Lemma length_bitsOfBytes b : length (bitsOfBytes b) = (8 * length b)%nat.
Proof.
  induction b as [|c b IH]; [done|]. unfold bitsOfBytes in *. rewrite bind_cons, length_app, IH.
  rewrite length_toBits. simpl. lia.
Qed.

(** The values of a byte string: their bits, their number and range. *)
Lemma valuesOf_spec k b :
  (0 < k)%nat ->
  bitsOfValues k (valuesOf k b) = padBits k (bitsOfBytes b)
  /\ (8 * length b <= length (valuesOf k b) * k < 8 * length b + k)%nat
  /\ Forall (fun v => 0 <= v < 2 ^ Z.of_nat k) (valuesOf k b).
Proof.
  intros Hk. unfold valuesOf. cbv zeta. set (l := padBits k (bitsOfBytes b)).
  destruct (length_padBits k (bitsOfBytes b) Hk) as (n & Hn & Hb). fold l in Hn.
  rewrite length_bitsOfBytes in Hb.
  destruct (chunks_exact n (length l) k l Hk Hn) as [H1 H2]; [rewrite Hn; nia|].
  split_and!.
  - rewrite bits_values by done. apply chunks_concat; [done|nia].
  - rewrite length_fmap, H2. lia.
  - rewrite length_fmap, H2. lia.
  - apply Forall_fmap. eapply Forall_impl; [exact H1|]. intros c Hc. simpl.
    rewrite <- Hc. apply ofBits_range.
Qed.

Lemma chunks_bytes b : chunks (length b) 8 (bitsOfBytes b) = (fun c => toBits 8 (b2z c)) <$> b.
Proof.
  induction b as [|c b IH]; [done|]. unfold bitsOfBytes in *. rewrite bind_cons, fmap_cons, <- IH.
  change (length (c :: b)) with (S (length b)).
  rewrite chunks_S by (intros E; by apply (f_equal length) in E).
  rewrite take_app_length' by (by rewrite length_toBits).
  by rewrite drop_app_length' by (by rewrite length_toBits).
Qed.

Lemma bytesOf_valuesOf k b : (0 < k <= 8)%nat -> bytesOf k (valuesOf k b) = b.
Proof.
  intros Hk. destruct (valuesOf_spec k b ltac:(lia)) as (Hbits & Hlen & _).
  unfold bytesOf. cbv zeta. rewrite Hbits.
  destruct (length_padBits k (bitsOfBytes b) ltac:(lia)) as (n & Hn & Hb).
  rewrite length_bitsOfBytes in Hb.
  assert (Hdiv : (length (padBits k (bitsOfBytes b)) / 8)%nat = length b).
  { symmetry. apply (Nat.div_unique _ 8 _ (length (padBits k (bitsOfBytes b)) - 8 * length b)); lia. }
  rewrite Hdiv. unfold padBits. rewrite take_app_le by (rewrite length_bitsOfBytes; lia).
  rewrite take_ge by (rewrite length_bitsOfBytes; lia). rewrite chunks_bytes, <- list_fmap_compose.
  rewrite <- (list_fmap_id b) at 2. apply list_fmap_ext. intros i c _.
  unfold compose, id. rewrite ofBits_toBits by apply b2z_range. by rewrite z2b_b2z.
Qed.

(** ** The alphabets: every value has a character of its own, which is neither the
    padding nor a line break *)
Definition alphabet_ok (k : nat) (alphabet : bytes) : bool :=
  forallb (fun v =>
    let c := charOf alphabet (Z.of_nat v) in
    bool_decide (valueOf alphabet c = Some (Z.of_nat v)) && negb (bool_decide (c = padChar))
    && negb (isNewline c)) (seq 0 (2 ^ k)) && negb (isNewline padChar)
  && bool_decide (valueOf alphabet padChar = None).

Lemma alphabet_char k alphabet v :
  alphabet_ok k alphabet = true -> 0 <= v < 2 ^ Z.of_nat k ->
  valueOf alphabet (charOf alphabet v) = Some v /\ charOf alphabet v <> padChar
  /\ isNewline (charOf alphabet v) = false.
Proof.
  intros [[H _]%andb_true_iff _]%andb_true_iff Hv. rewrite forallb_forall in H.
  specialize (H (Z.to_nat v)). cbv zeta in H. rewrite Z2Nat.id in H by lia.
  rewrite !andb_true_iff, !negb_true_iff, bool_decide_eq_true, bool_decide_eq_false in H.
  destruct H as [[? ?] ?]; [|done]. apply in_seq. split; [lia|]. simpl.
  rewrite <- (Nat2Z.id (2 ^ k)), Nat2Z.inj_pow. apply Z2Nat.inj_lt; lia.
Qed.

Lemma strip_id s : Forall (fun c => isNewline c = false) s -> stripNewlines s = s.
Proof.
  unfold stripNewlines. induction 1 as [|c s Hc Hs IH]; [done|].
  by rewrite filter_cons_True, IH.
Qed.

Lemma strip_encode k q alphabet b :
  alphabet_ok k alphabet = true -> (0 < k)%nat ->
  stripNewlines (encodeBase k q alphabet b) = encodeBase k q alphabet b.
Proof.
  intros Ha Hk. apply strip_id. unfold encodeBase. cbv zeta. rewrite Forall_forall.
  destruct (valuesOf_spec k b Hk) as (_ & _ & Hr). rewrite Forall_forall in Hr.
  intros c. rewrite elem_of_app. intros [(v & -> & Hv)%list_elem_of_fmap|(-> & _)%elem_of_replicate].
  - by apply (alphabet_char k alphabet v Ha (Hr v Hv)).
  - done.
Qed.

Section base32.
Context (alphabet : bytes) (Ha : alphabet_ok 5 alphabet = true).

Lemma quantum32_values vs left rest acc :
  Forall (fun v => 0 <= v < 2 ^ Z.of_nat 5) vs -> (length vs <= left <= 8)%nat ->
  quantum32 alphabet left ((charOf alphabet <$> vs) ++ rest) acc
  = quantum32 alphabet (left - length vs) rest (acc ++ vs).
Proof.
  intros Hvs. revert left acc. induction Hvs as [|v vs Hv Hvs IH]; intros left acc Hl.
  { simpl. by rewrite Nat.sub_0_r, app_nil_r. }
  destruct left as [|left]; [simpl in Hl; lia|]. rewrite fmap_cons. cbn [app quantum32].
  destruct (alphabet_char 5 alphabet v Ha Hv) as (Hval & Hpad & _).
  rewrite bool_decide_false by done. cbn [andb]. rewrite Hval. cbn [mbind option_bind].
  rewrite IH by (simpl in Hl; lia). by rewrite <- app_assoc.
Qed.

(** The number of padding characters after [n] values. *)
Definition pads (q n : nat) : bytes := replicate ((q - n mod q) mod q) padChar.

Lemma loop32_values fuel vs :
  Forall (fun v => 0 <= v < 2 ^ Z.of_nat 5) vs -> (length vs <= 8 * fuel)%nat ->
  (length vs mod 8 ∈ [0; 2; 4; 5; 7])%nat ->
  loop32 fuel alphabet ((charOf alphabet <$> vs) ++ pads 8 (length vs)) = Some vs.
Proof.
  revert vs. induction fuel as [|fuel IH]; intros vs Hvs Hl Hm.
  { destruct vs; [done|simpl in Hl; lia]. }
  destruct (decide (vs = [])) as [->|Hne]; [done|].
  assert (Hcs : (charOf alphabet <$> vs) ++ pads 8 (length vs) <> []) by (by destruct vs).
  destruct ((charOf alphabet <$> vs) ++ pads 8 (length vs)) eqn:E; [done|].
  cbn [loop32]. rewrite <- E. clear Hcs E b l.
  destruct (decide (8 <= length vs)%nat) as [H8|H8].
  - rewrite <- (take_drop 8 vs) at 1. rewrite fmap_app, <- app_assoc.
    rewrite quantum32_values by (first [by apply Forall_take | rewrite length_take; lia]).
    rewrite length_take, Nat.min_l by lia. cbn [Nat.sub quantum32 app].
    assert (Hd : length (drop 8 vs) = (length vs - 8)%nat) by apply length_drop.
    assert (Hmod : (length (drop 8 vs) mod 8 = length vs mod 8)%nat).
    { rewrite Hd. replace (length vs) with (length vs - 8 + 1 * 8)%nat at 2 by lia.
      by rewrite Nat.Div0.mod_add. }
    unfold pads in *. rewrite <- Hmod. rewrite IH; [|by apply Forall_drop|lia|by rewrite Hmod].
    simpl. by rewrite take_drop.
  - rewrite (Nat.mod_small (length vs)) in Hm by lia. rewrite quantum32_values by (done || lia).
    unfold pads. rewrite (Nat.mod_small (length vs)) by lia.
    assert (Hlen : length vs <> O) by (by destruct vs).
    set (m := length vs) in *. cbn [app].
    repeat (apply elem_of_cons in Hm as [Hm|Hm]; [rewrite Hm in *; first [lia | reflexivity]|]).
    by apply not_elem_of_nil in Hm.
Qed.

Lemma decode32_encode b : decode32 alphabet (encodeBase 5 8 alphabet b) = Some b.
Proof.
  unfold decode32. cbv zeta. rewrite strip_encode by (done || lia).
  destruct (valuesOf_spec 5 b ltac:(lia)) as (_ & Hlen & Hr).
  assert (Heq : encodeBase 5 8 alphabet b
    = (charOf alphabet <$> valuesOf 5 b) ++ pads 8 (length (valuesOf 5 b)))
    by (unfold encodeBase, pads; by rewrite length_fmap).
  rewrite Heq. rewrite loop32_values; [|done| |].
  - simpl. by rewrite bytesOf_valuesOf by lia.
  - rewrite length_app, length_fmap. lia.
  - set (n := length (valuesOf 5 b)) in *.
    assert (H : exists a c, length b = (5 * a + c)%nat /\ (c < 5)%nat).
    { exists (length b / 5)%nat, (length b mod 5)%nat. split; [apply Nat.div_mod; lia|].
      apply Nat.mod_upper_bound. lia. }
    destruct H as (a & c & Hb & Hc).
    assert (Hn : n = (8 * a + (if decide (c = 0) then 0 else if decide (c = 1) then 2
      else if decide (c = 2) then 4 else if decide (c = 3) then 5 else 7))%nat)
      by (repeat case_decide; lia).
    rewrite Hn, Nat.add_comm, Nat.mul_comm, Nat.Div0.mod_add.
    repeat case_decide; simpl; set_solver.
Qed.
End base32.

Section base64.
Context (alphabet : bytes) (Ha : alphabet_ok 6 alphabet = true).

Lemma quantum64_values vs left rest acc :
  Forall (fun v => 0 <= v < 2 ^ Z.of_nat 6) vs -> (length vs <= left)%nat ->
  quantum64 alphabet left ((charOf alphabet <$> vs) ++ rest) acc
  = quantum64 alphabet (left - length vs) rest (acc ++ vs).
Proof.
  intros Hvs. revert left acc. induction Hvs as [|v vs Hv Hvs IH]; intros left acc Hl.
  { simpl. by rewrite Nat.sub_0_r, app_nil_r. }
  destruct left as [|left]; [simpl in Hl; lia|]. rewrite fmap_cons. cbn [app quantum64].
  destruct (alphabet_char 6 alphabet v Ha Hv) as (Hval & _ & _). rewrite Hval.
  rewrite IH by (simpl in Hl; lia). by rewrite <- app_assoc.
Qed.

Lemma pad_value : valueOf alphabet padChar = None.
Proof. apply andb_true_iff in Ha as [_ H]. by apply bool_decide_eq_true in H. Qed.

Lemma quantum64_pads m vs :
  (m ∈ [2; 3])%nat ->
  quantum64 alphabet (4 - m) (replicate ((4 - m) mod 4) padChar) vs = Some (vs, true, []).
Proof.
  intros Hm. repeat (apply elem_of_cons in Hm as [->|Hm]; [simpl; rewrite pad_value; reflexivity|]).
  by apply not_elem_of_nil in Hm.
Qed.

Lemma loop64_values fuel vs :
  Forall (fun v => 0 <= v < 2 ^ Z.of_nat 6) vs -> (length vs <= 4 * fuel)%nat ->
  (length vs mod 4 ∈ [0; 2; 3])%nat ->
  loop64 fuel alphabet ((charOf alphabet <$> vs) ++ pads 4 (length vs)) = Some vs.
Proof.
  revert vs. induction fuel as [|fuel IH]; intros vs Hvs Hl Hm.
  { destruct vs; [done|simpl in Hl; lia]. }
  destruct (decide (vs = [])) as [->|Hne]; [done|].
  assert (Hcs : (charOf alphabet <$> vs) ++ pads 4 (length vs) <> []) by (by destruct vs).
  destruct ((charOf alphabet <$> vs) ++ pads 4 (length vs)) eqn:E; [done|].
  cbn [loop64]. rewrite <- E. clear Hcs E b l.
  destruct (decide (4 <= length vs)%nat) as [H4|H4].
  - rewrite <- (take_drop 4 vs) at 1. rewrite fmap_app, <- app_assoc.
    rewrite quantum64_values by (first [by apply Forall_take | rewrite length_take; lia]).
    rewrite length_take, Nat.min_l by lia. cbn [Nat.sub quantum64 app].
    assert (Hd : length (drop 4 vs) = (length vs - 4)%nat) by apply length_drop.
    assert (Hmod : (length (drop 4 vs) mod 4 = length vs mod 4)%nat).
    { rewrite Hd. replace (length vs) with (length vs - 4 + 1 * 4)%nat at 2 by lia.
      by rewrite Nat.Div0.mod_add. }
    unfold pads in *. rewrite <- Hmod. rewrite IH; [|by apply Forall_drop|lia|by rewrite Hmod].
    simpl. by rewrite take_drop.
  - rewrite (Nat.mod_small (length vs)) in Hm by lia. rewrite quantum64_values by (done || lia).
    unfold pads. rewrite (Nat.mod_small (length vs)) by lia.
    assert (Hlen : length vs <> O) by (by destruct vs). cbn [app].
    rewrite quantum64_pads; [done|]. set_solver.
Qed.

Lemma decode64_encode b : decode64 alphabet (encodeBase 6 4 alphabet b) = Some b.
Proof.
  unfold decode64. cbv zeta. rewrite strip_encode by (done || lia).
  destruct (valuesOf_spec 6 b ltac:(lia)) as (_ & Hlen & Hr).
  assert (Heq : encodeBase 6 4 alphabet b
    = (charOf alphabet <$> valuesOf 6 b) ++ pads 4 (length (valuesOf 6 b)))
    by (unfold encodeBase, pads; by rewrite length_fmap).
  rewrite Heq. rewrite loop64_values; [|done| |].
  - simpl. by rewrite bytesOf_valuesOf by lia.
  - rewrite length_app, length_fmap. lia.
  - set (n := length (valuesOf 6 b)) in *.
    assert (H : exists a c, length b = (3 * a + c)%nat /\ (c < 3)%nat).
    { exists (length b / 3)%nat, (length b mod 3)%nat. split; [apply Nat.div_mod; lia|].
      apply Nat.mod_upper_bound. lia. }
    destruct H as (a & c & Hb & Hc).
    assert (Hn : n = (4 * a + (if decide (c = 0) then 0 else if decide (c = 1) then 2 else 3))%nat)
      by (repeat case_decide; lia).
    rewrite Hn, Nat.add_comm, Nat.mul_comm, Nat.Div0.mod_add.
    repeat case_decide; simpl; set_solver.
Qed.
End base64.

(** ** What the transcoders need of the text *)
Lemma encodeBase_chars k q alphabet b c :
  (0 < k)%nat -> alphabet_ok k alphabet = true -> c ∈ encodeBase k q alphabet b ->
  c = padChar \/ exists v, 0 <= v < 2 ^ Z.of_nat k /\ c = charOf alphabet v.
Proof.
  intros Hk Ha. unfold encodeBase. cbv zeta. rewrite elem_of_app.
  destruct (valuesOf_spec k b Hk) as (_ & _ & Hr). rewrite Forall_forall in Hr.
  intros [(v & -> & Hv)%list_elem_of_fmap|(-> & _)%elem_of_replicate]; [right|by left]. eauto.
Qed.

(** The length of the text without padding, when the bytes fill the characters. *)
Lemma encodeBase_length k q alphabet b n :
  (0 < k)%nat -> (8 * length b = n * k)%nat -> (n mod q = 0)%nat -> q <> O ->
  encodeBase k q alphabet b = charOf alphabet <$> valuesOf k b
  /\ length (encodeBase k q alphabet b) = n.
Proof.
  intros Hk Hn Hq Hq0. destruct (valuesOf_spec k b Hk) as (_ & Hlen & _).
  assert (Hl : length (valuesOf k b) = n) by nia.
  unfold encodeBase. cbv zeta. rewrite length_fmap, Hl, Hq, Nat.sub_0_r, Nat.Div0.mod_same.
  rewrite app_nil_r, length_fmap. done.
Qed.
