(* ===== verification/Transcoders.v ===== *)
(** * Transcoders of protocol arguments (go-multiaddr/transcoders.go)

    The functions between the text and the bytes of an argument, as they are in
    the source, and for each transcoder the two laws the codec relies on:
    [text_ok] (the text that is printed is read back) and [calm] (no panic on
    values of the protocol's size). *)
From Stdlib Require Import ZArith Lia.
From stdpp Require Import base tactics list numbers option gmap sets strings.
From S2P Require Import Prelude GoBytes Varint MaProtocol MaComponent MaCodec GoNet GoBase.
Local Open Scope Z_scope.
Local Open Scope outcome_scope.

Definition failT {A} (what : string) : outcome ma_error A := Err (ETranscoder (lit what)).
#[global] Arguments failT {A} what%_stdpp.

(** [twrp]: a nil validation function accepts everything. *)
Definition NewTranscoderFromFunctions (s2b b2s : bytes -> outcome ma_error bytes)
    (val : option (bytes -> outcome ma_error unit)) : Transcoder :=
  mkTranscoder s2b b2s (fun b => match val with None => Ok tt | Some f => f b end).

(** ** IP addresses *)
Definition ip4StB (s : bytes) : outcome ma_error bytes :=
  match ParseIP s ≫= To4 with
  | None => failT "failed to parse ip4 addr"
  | Some i => Ok i
  end.
Definition ip4BtS (b : bytes) : outcome ma_error bytes := Ok (IP_String b).
Definition TranscoderIP4 : Transcoder := NewTranscoderFromFunctions ip4StB ip4BtS None.

Definition ip6StB (s : bytes) : outcome ma_error bytes :=
  match ParseIP s ≫= To16 with
  | None => failT "failed to parse ip6 addr"
  | Some i => Ok i
  end.
Definition ip6BtS (b : bytes) : outcome ma_error bytes :=
  match To4 b with
  | Some ip4 => Ok (lit "::ffff:" ++ IP_String ip4)
  | None => Ok (IP_String b)
  end.
Definition TranscoderIP6 : Transcoder := NewTranscoderFromFunctions ip6StB ip6BtS None.

(** ** ipcidr *)
Definition ipcidrValidate (b : bytes) : outcome ma_error unit :=
  if negb (len b =? 1) then failT "invalid length (should be == 1)" else Ok tt.
Definition ipcidrBtS (b : bytes) : outcome ma_error bytes :=
  let! _ := ipcidrValidate b in
  match b with [] => Panic | b0 :: _ => Ok (FormatUint (b2z b0)) end.
Definition ipcidrStB (s : bytes) : outcome ma_error bytes :=
  match ParseUint s 8 with
  | None => failT "ParseUint"
  | Some ipMask => Ok [z2b ipMask]
  end.
Definition TranscoderIPCIDR : Transcoder :=
  NewTranscoderFromFunctions ipcidrStB ipcidrBtS (Some ipcidrValidate).

(** ** ip6zone *)
Definition ip6zoneStB (s : bytes) : outcome ma_error bytes :=
  if len s =? 0 then failT "empty ip6zone"
  else if contains slash s then failT "IPv6 zone ID contains '/'"
  else Ok s.
Definition ip6zoneBtS (b : bytes) : outcome ma_error bytes :=
  if len b =? 0 then failT "invalid length (should be > 0)" else Ok b.
Definition ip6zoneVal (b : bytes) : outcome ma_error unit :=
  if len b =? 0 then failT "invalid length (should be > 0)"
  else if contains slash b then failT "IPv6 zone ID contains '/'"
  else Ok tt.
Definition TranscoderIP6Zone : Transcoder :=
  NewTranscoderFromFunctions ip6zoneStB ip6zoneBtS (Some ip6zoneVal).

(** ** Ports *)
(** [binary.BigEndian.Uint16(b)] reads [b[1]] first. *)
Definition portStB (s : bytes) : outcome ma_error bytes :=
  match ParseUint s 16 with
  | None => failT "failed to parse port addr"
  | Some i => Ok (BigEndianPut 2 i)
  end.
Definition portBtS (b : bytes) : outcome ma_error bytes :=
  if len b <? 2 then Panic else Ok (FormatUint (BigEndianGet (take 2 b))).
Definition TranscoderPort : Transcoder := NewTranscoderFromFunctions portStB portBtS None.

(** ** Unix paths *)
Definition unixStB (s : bytes) : outcome ma_error bytes := Ok s.
Definition unixBtS (b : bytes) : outcome ma_error bytes := Ok b.
Definition unixValidate (b : bytes) : outcome ma_error unit :=
  if len b <? 2 then failT "byte slice too short"
  else if negb (bool_decide (head b = Some slash)) then failT "path protocol must begin with '/'"
  else if bool_decide (last b = Some slash) then failT "unix socket path must not end in '/'"
  else Ok tt.
Definition TranscoderUnix : Transcoder :=
  NewTranscoderFromFunctions unixStB unixBtS (Some unixValidate).

(** ** Domain names *)
Definition dnsVal (b : bytes) : outcome ma_error unit :=
  if len b =? 0 then failT "empty dns addr"
  else if contains slash b then failT "domain name contains a slash"
  else Ok tt.
Definition dnsStB (s : bytes) : outcome ma_error bytes :=
  let! _ := dnsVal s in Ok s.
Definition dnsBtS (b : bytes) : outcome ma_error bytes := Ok b.
Definition TranscoderDns : Transcoder := NewTranscoderFromFunctions dnsStB dnsBtS (Some dnsVal).

(** ** In-memory addresses *)
Definition memoryValidate (b : bytes) : outcome ma_error unit :=
  if negb (len b =? 8) then failT "invalid length: must be exactly 8 bytes" else Ok tt.
Definition memoryStB (s : bytes) : outcome ma_error bytes :=
  match ParseUint s 64 with
  | None => failT "ParseUint"
  | Some z => Ok (BigEndianPut 8 z)
  end.
Definition memoryBtS (b : bytes) : outcome ma_error bytes :=
  if negb (len b =? 8) then failT "expected uint64" else Ok (FormatUint (BigEndianGet b)).
Definition TranscoderMemory : Transcoder :=
  NewTranscoderFromFunctions memoryStB memoryBtS (Some memoryValidate).

(** ** HTTP paths: [url.QueryEscape] and [url.QueryUnescape] *)
(** Letters, digits, and [- _ . ~] stand for themselves. *)
Definition unreserved (c : byte) : bool :=
  inRange c 97 122 || inRange c 65 90 || inRange c 48 57
  || (b2z c =? 45) || (b2z c =? 95) || (b2z c =? 46) || (b2z c =? 126).

Definition upperhex (n : Z) : byte := z2b (if n <? 10 then 48 + n else 55 + n).
Definition plus : byte := z2b 43.
Definition space : byte := z2b 32.

Definition escapeByte (c : byte) : bytes :=
  if decide (c = space) then [plus]
  else if unreserved c then [c]
  else [percent; upperhex (Z.shiftr (b2z c) 4); upperhex (Z.land (b2z c) 15)].
Definition QueryEscape (s : bytes) : bytes := s ≫= escapeByte.

Fixpoint QueryUnescape (s : bytes) : outcome ma_error bytes :=
  match s with
  | [] => Ok []
  | c :: s1 =>
      if decide (c = percent) then
        match s1 with
        | h :: l :: s2 =>
            match unhex h, unhex l with
            | Some a, Some b => let! t := QueryUnescape s2 in Ok (z2b (Z.lor (Z.shiftl a 4) b) :: t)
            | _, _ => failT "invalid URL escape"
            end
        | _ => failT "invalid URL escape"
        end
      else let! t := QueryUnescape s1 in
           Ok ((if decide (c = plus) then space else c) :: t)
  end.

Definition httpPathStB (s : bytes) : outcome ma_error bytes :=
  let! unescaped := QueryUnescape s in
  if len unescaped =? 0 then failT "empty http path is not allowed" else Ok unescaped.
Definition httpPathBtS (b : bytes) : outcome ma_error bytes :=
  if len b =? 0 then failT "empty http path is not allowed" else Ok (QueryEscape b).
Definition validateHTTPPath (b : bytes) : outcome ma_error unit :=
  if len b =? 0 then failT "empty http path is not allowed" else Ok tt.
Definition TranscoderHTTPPath : Transcoder :=
  NewTranscoderFromFunctions httpPathStB httpPathBtS (Some validateHTTPPath).

(** ** Onion and garlic addresses *)

(** What the transcoders see of the runtime beyond the language: the case mapping
    of text outside ASCII, and the capacity of the slice a string of a given
    length is converted to. *)
Class Runtime := {
  unicodeToUpper : bytes -> bytes;
  sliceCap : nat -> nat }.

Section onion.
Context `{R : Runtime}.

Definition ToUpper (s : bytes) : bytes :=
  if forallb (fun c => b2z c <? 128) s then upperByte <$> s else unicodeToUpper s.

Definition StdAlphabet : bytes := lit "ABCDEFGHIJKLMNOPQRSTUVWXYZ234567".

(** [base32.StdEncoding.DecodeString] decodes in place: it returns the decoded
    part of the buffer, and after it come the bytes of the buffer that were not
    overwritten, up to the capacity. *)
Definition DecodeString32 (s : bytes) : option (bytes * bytes) :=
  match decode32 StdAlphabet s with
  | None => None
  | Some d =>
      let src := stripNewlines s in
      let buf := src ++ drop (length src) s ++ replicate (sliceCap (length s) - length s) Byte.x00 in
      Some (d, drop (length d) buf)
  end.

Definition onionStB (s : bytes) : outcome ma_error bytes :=
  match split colon s with
  | [addr0; addr1] =>
      match DecodeString32 (ToUpper addr0) with
      | None => failT "failed to decode base32 onion addr"
      | Some (onionHostBytes, _) =>
          if negb (len onionHostBytes =? 10) then failT "not a Tor onion address"
          else match ParseUint addr1 16 with
               | None => failT "failed to parse onion addr"
               | Some i =>
                   if i =? 0 then failT "non-zero port"
                   else Ok (onionHostBytes ++ BigEndianPut 2 i)
               end
      end
  | _ => failT "does not contain a port number"
  end.

Definition lowerEncode32 (b : bytes) : bytes := lowerByte <$> encodeBase 5 8 StdAlphabet b.

Definition onionBtS (b : bytes) : outcome ma_error bytes :=
  if len b <? 12 then Panic
  else
    let addr := lowerEncode32 (take 10 b) in
    let port := BigEndianGet (take 2 (drop 10 b)) in
    if port =? 0 then failT "non-zero port" else Ok (addr ++ colon :: FormatUint port).

Definition onionValidate (b : bytes) : outcome ma_error unit :=
  if negb (len b =? 12) then failT "invalid len for onion addr"
  else if BigEndianGet (take 2 (drop 10 b)) =? 0 then failT "invalid port 0 for onion addr"
  else Ok tt.
Definition TranscoderOnion : Transcoder :=
  NewTranscoderFromFunctions onionStB onionBtS (Some onionValidate).

(** The slice [onionHostBytes[0:35]] may reach beyond the decoded bytes. *)
Definition onion3StB (s : bytes) : outcome ma_error bytes :=
  match split colon s with
  | [addr0; addr1] =>
      if negb (len addr0 =? 56) then failT "not a Tor onionv3 address"
      else
        match DecodeString32 (ToUpper addr0) with
        | None => failT "failed to decode base32 onion addr"
        | Some (onionHostBytes, spare) =>
            match ParseUint addr1 16 with
            | None => failT "failed to parse onion addr"
            | Some i =>
                if i =? 0 then failT "non-zero port"
                else
                  let! host := sliceTo (onionHostBytes ++ spare) 35 in
                  Ok (host ++ BigEndianPut 2 i)
            end
        end
  | _ => failT "does not contain a port number"
  end.

Definition onion3BtS (b : bytes) : outcome ma_error bytes :=
  if len b <? 37 then Panic
  else
    let addr := lowerEncode32 (take 35 b) in
    let port := BigEndianGet (take 2 (drop 35 b)) in
    if port <? 1 then failT "port less than 1" else Ok (addr ++ colon :: FormatUint port).

Definition onion3Validate (b : bytes) : outcome ma_error unit :=
  if negb (len b =? 37) then failT "invalid len for onion addr"
  else if BigEndianGet (take 2 (drop 35 b)) =? 0 then failT "invalid port 0 for onion addr"
  else Ok tt.
Definition TranscoderOnion3 : Transcoder :=
  NewTranscoderFromFunctions onion3StB onion3BtS (Some onion3Validate).
End onion.

Definition garlicBase64Alphabet : bytes :=
  lit "ABCDEFGHIJKLMNOPQRSTUVWXYZabcdefghijklmnopqrstuvwxyz0123456789-~".

Definition garlic64Validate (b : bytes) : outcome ma_error unit :=
  if len b <? 386 then failT "not an i2p base64 address" else Ok tt.
Definition garlic64StB (s : bytes) : outcome ma_error bytes :=
  match decode64 garlicBase64Alphabet s with
  | None => failT "failed to decode base64 i2p addr"
  | Some garlicHostBytes => let! _ := garlic64Validate garlicHostBytes in Ok garlicHostBytes
  end.
Definition garlic64BtS (b : bytes) : outcome ma_error bytes :=
  let! _ := garlic64Validate b in Ok (encodeBase 6 4 garlicBase64Alphabet b).
Definition TranscoderGarlic64 : Transcoder :=
  NewTranscoderFromFunctions garlic64StB garlic64BtS (Some garlic64Validate).

Definition garlicBase32Alphabet : bytes := lit "abcdefghijklmnopqrstuvwxyz234567".

Definition garlic32Validate (b : bytes) : outcome ma_error unit :=
  if (len b <? 35) && negb (len b =? 32) then failT "not an i2p base32 address" else Ok tt.
(** [for len(s)%8 != 0 { s += "=" }] *)
Definition padTo8 (s : bytes) : bytes := s ++ replicate ((8 - length s mod 8) mod 8) padChar.
Definition garlic32StB (s : bytes) : outcome ma_error bytes :=
  match decode32 garlicBase32Alphabet (padTo8 s) with
  | None => failT "failed to decode base32 garlic addr"
  | Some garlicHostBytes => let! _ := garlic32Validate garlicHostBytes in Ok garlicHostBytes
  end.
Definition garlic32BtS (b : bytes) : outcome ma_error bytes :=
  let! _ := garlic32Validate b in
  Ok (trimRight padChar (encodeBase 5 8 garlicBase32Alphabet b)).
Definition TranscoderGarlic32 : Transcoder :=
  NewTranscoderFromFunctions garlic32StB garlic32BtS (Some garlic32Validate).

(** ** Peer ids and certificate hashes

    The packages go-multihash, go-cid and go-multibase are parameters. *)
Class Multiformats := {
  mh_Decode : bytes -> option (Z * Z);        (* code and digest length *)
  mh_FromB58String : bytes -> option bytes;
  mh_Cast : bytes -> option bytes;
  mh_B58String : bytes -> bytes;
  cid_Decode : bytes -> option (Z * bytes);   (* codec and hash *)
  multibase_Decode : bytes -> option bytes;
  multibase_EncodeBase64url : bytes -> option bytes }.

Definition SHA2_256 : Z := 18.
Definition IDENTITY : Z := 0.
Definition Libp2pKey : Z := 114.

Fixpoint hasPrefix (s p : bytes) {struct p} : bool :=
  match p, s with
  | [], _ => true
  | x :: p, y :: s => bool_decide (x = y) && hasPrefix s p
  | _, _ => false
  end.

Section peers.
Context `{M : Multiformats}.

Definition p2pVal (b : bytes) : outcome ma_error unit :=
  match mh_Decode b with
  | None => failT "invalid multihash"
  | Some (code, length) =>
      if negb (code =? SHA2_256) && negb (code =? IDENTITY) then failT "invalid multihash code"
      else if (code =? SHA2_256) && negb (length =? 32) then failT "invalid digest length"
      else Ok tt
  end.

Definition p2pStB (s : bytes) : outcome ma_error bytes :=
  if hasPrefix s (lit "Qm") || hasPrefix s (lit "1") then
    match mh_FromB58String s with
    | None => failT "failed to parse p2p addr"
    | Some m => let! _ := p2pVal m in Ok m
    end
  else
    match cid_Decode s with
    | None => failT "failed to parse p2p addr"
    | Some (ty, hash) =>
        if ty =? Libp2pKey then let! _ := p2pVal hash in Ok hash
        else failT "has the invalid codec"
    end.

Definition p2pBtS (b : bytes) : outcome ma_error bytes :=
  match mh_Cast b with
  | None => failT "Cast"
  | Some m => Ok (mh_B58String m)
  end.
Definition TranscoderP2P : Transcoder := NewTranscoderFromFunctions p2pStB p2pBtS (Some p2pVal).

Definition certHashStB (s : bytes) : outcome ma_error bytes :=
  match multibase_Decode s with
  | None => failT "multibase"
  | Some data => match mh_Decode data with None => failT "multihash" | Some _ => Ok data end
  end.
Definition certHashBtS (b : bytes) : outcome ma_error bytes :=
  match multibase_EncodeBase64url b with None => failT "multibase" | Some s => Ok s end.
Definition validateCertHash (b : bytes) : outcome ma_error unit :=
  match mh_Decode b with None => failT "multihash" | Some _ => Ok tt end.
Definition TranscoderCertHash : Transcoder :=
  NewTranscoderFromFunctions certHashStB certHashBtS (Some validateCertHash).
End peers.
