(* ===== verification/TranscoderLaws.v ===== *)
(** * The transcoders are lawful (go-multiaddr/transcoders.go)

    For each transcoder: the text it prints for a value it accepts is read back,
    and is not empty and free of slashes (or a path).  For peer ids and
    certificate hashes this rests on [MultiformatsLaws], what the packages
    go-multihash and go-multibase document; [hexMultiformats] has these laws. *)
From Stdlib Require Import ZArith Lia.
From stdpp Require Import base tactics list numbers option gmap sets strings.
From S2P Require Import Prelude GoBytes Varint MaProtocol MaComponent MaCodec GoNet GoBase Transcoders.
Local Open Scope Z_scope.
Local Open Scope outcome_scope.

(** The text a transcoder prints for a value it accepts. *)
Definition reads_back (t : Transcoder) (ok : bytes -> Prop) (shape : bytes -> Prop) : Prop :=
  forall v s, ok v -> ValidateBytes t v = Ok tt -> BytesToString t v = Ok s ->
  StringToBytes t s = Ok v /\ shape s.

Definition slashFree (s : bytes) : Prop := s <> [] /\ slash ∉ s.
Definition pathShaped (s : bytes) : Prop := exists s', s = slash :: s' /\ last s <> Some slash.

Lemma FormatUint_slashFree n : 0 <= n -> slashFree (FormatUint n).
Proof. intros Hn. split; [apply FormatUint_nonempty|]. by apply FormatUint_notin. Qed.

Lemma ipcidr_reads_back : reads_back TranscoderIPCIDR (fun _ => True) slashFree.
Proof.
  intros v s _ _. cbn. unfold ipcidrBtS, ipcidrValidate, ipcidrStB.
  destruct (Z.eqb_spec (len v) 1) as [Hl|]; [|done]. cbn [negb obind].
  destruct v as [|b0 [|b1 v]]; [done| |unfold len in Hl; simpl in Hl; lia].
  intros [= <-]. pose proof (b2z_range b0).
  rewrite ParseUint_FormatUint, z2b_b2z by (change (2 ^ 8) with 256; lia).
  split; [done|]. apply FormatUint_slashFree. lia.
Qed.

Lemma port_reads_back : reads_back TranscoderPort (fun v => len v = 2) slashFree.
Proof.
  intros v s Hl _. cbn. unfold portBtS, portStB. rewrite (proj2 (Z.ltb_ge _ _)) by lia.
  intros [= <-]. rewrite take_ge by (unfold len in Hl; lia).
  pose proof (BigEndianGet_range v) as Hr. rewrite Hl in Hr.
  rewrite ParseUint_FormatUint by (change (2 ^ 16) with (256 ^ 2); lia).
  replace 2%nat with (length v) by (unfold len in Hl; lia). rewrite BigEndianPut_Get.
  split; [done|]. apply FormatUint_slashFree. lia.
Qed.

Lemma memory_reads_back : reads_back TranscoderMemory (fun _ => True) slashFree.
Proof.
  intros v s _ _. cbn. unfold memoryBtS, memoryStB.
  destruct (Z.eqb_spec (len v) 8) as [Hl|]; [|done]. cbn [negb]. intros [= <-].
  pose proof (BigEndianGet_range v) as Hr. rewrite Hl in Hr.
  rewrite ParseUint_FormatUint by (change (2 ^ 64) with (256 ^ 8); lia).
  replace 8%nat with (length v) by (unfold len in Hl; lia). rewrite BigEndianPut_Get.
  split; [done|]. apply FormatUint_slashFree. lia.
Qed.

(** A value that is its own text, not empty and without slashes. *)
Lemma nonempty_noslash b :
  (len b =? 0) = false -> contains slash b = false -> slashFree b.
Proof.
  intros H1 H2. split; [by intros ->|]. unfold contains in H2. by apply bool_decide_eq_false in H2.
Qed.

Lemma ip6zone_reads_back : reads_back TranscoderIP6Zone (fun _ => True) slashFree.
Proof.
  intros v s _. cbn. unfold ip6zoneVal, ip6zoneBtS, ip6zoneStB.
  destruct (len v =? 0) eqn:E1; [done|]. destruct (contains slash v) eqn:E2; [done|].
  intros _ [= <-]. rewrite E1, E2. split; [done|]. by apply nonempty_noslash.
Qed.

Lemma dns_reads_back : reads_back TranscoderDns (fun _ => True) slashFree.
Proof.
  intros v s _. cbn. unfold dnsStB, dnsBtS, dnsVal.
  destruct (len v =? 0) eqn:E1; [done|]. destruct (contains slash v) eqn:E2; [done|].
  intros _ [= <-]. rewrite E1, E2. split; [done|]. by apply nonempty_noslash.
Qed.

Lemma unix_reads_back : reads_back TranscoderUnix (fun _ => True) pathShaped.
Proof.
  intros v s _. cbn. unfold unixValidate, unixBtS, unixStB.
  destruct (len v <? 2); [done|]. case_bool_decide as Hh; [|done]. cbn [negb].
  case_bool_decide as Hl; [done|]. intros _ [= <-]. split; [done|].
  destruct v as [|c v]; [done|]. injection Hh as ->. by exists v.
Qed.

(** One escaped byte is read back, and is not empty and has no slash. *)
Definition escape_ok (c : byte) : bool :=
  match escapeByte c with
  | [x] => bool_decide (x <> percent) && bool_decide (x <> slash)
           && bool_decide ((if decide (x = plus) then space else x) = c)
  | [x; h; l] =>
      bool_decide (x = percent) && bool_decide (h <> slash) && bool_decide (l <> slash)
      && match unhex h, unhex l with
         | Some a, Some b => bool_decide (z2b (Z.lor (Z.shiftl a 4) b) = c)
         | _, _ => false
         end
  | _ => false
  end.

Lemma escape_ok_all c : escape_ok c = true.
Proof. apply byte_forall. vm_compute. reflexivity. Qed.

Lemma unescape_escapeByte c rest :
  QueryUnescape (escapeByte c ++ rest) = let! t := QueryUnescape rest in Ok (c :: t).
Proof.
  pose proof (escape_ok_all c) as H. unfold escape_ok in H.
  destruct (escapeByte c) as [|x [|h [|l [|]]]]; try done; cbn [app QueryUnescape].
  - apply andb_true_iff in H as [[H1%bool_decide_eq_true _]%andb_true_iff H2%bool_decide_eq_true].
    rewrite (decide_False (P := x = percent)) by done. by rewrite H2.
  - apply andb_true_iff in H as [[[->%bool_decide_eq_true _]%andb_true_iff _]%andb_true_iff H].
    rewrite decide_True by done. destruct (unhex h), (unhex l); try done.
    by apply bool_decide_eq_true in H as ->.
Qed.

Lemma escapeByte_shape c : slashFree (escapeByte c).
Proof.
  pose proof (escape_ok_all c) as H. unfold escape_ok in H.
  destruct (escapeByte c) as [|x [|h [|l [|]]]]; try done; (split; [done|]).
  - apply andb_true_iff in H as [[_ H1%bool_decide_eq_true]%andb_true_iff _]. set_solver.
  - apply andb_true_iff in H as [[[->%bool_decide_eq_true H1%bool_decide_eq_true]%andb_true_iff
      H2%bool_decide_eq_true]%andb_true_iff _].
    assert (percent <> slash) by done. set_solver.
Qed.

Lemma QueryUnescape_Escape s : QueryUnescape (QueryEscape s) = Ok s.
Proof.
  induction s as [|c s IH]; [done|]. unfold QueryEscape in *. rewrite bind_cons.
  rewrite unescape_escapeByte, IH. done.
Qed.

Lemma httpPath_reads_back : reads_back TranscoderHTTPPath (fun _ => True) slashFree.
Proof.
  intros v s _ _. cbn. unfold httpPathBtS, httpPathStB. destruct (len v =? 0) eqn:E; [done|].
  intros [= <-]. rewrite QueryUnescape_Escape. cbn [obind]. rewrite E. split; [done|].
  destruct v as [|c v]; [done|]. unfold QueryEscape. rewrite bind_cons. split.
  - destruct (escapeByte_shape c). by destruct (escapeByte c).
  - rewrite <- (bind_cons escapeByte c v). intros (c' & Hc & _)%list_elem_of_bind.
    by destruct (escapeByte_shape c').
Qed.

(** ** IP addresses *)
Lemma To4_v4 ip : length ip = 4%nat -> To4 ip = Some ip.
Proof. intros Hl. unfold To4. by rewrite Hl. Qed.

Lemma To4_mapped ip : length ip = 4%nat -> To4 (v4InV6Prefix ++ ip) = Some ip.
Proof.
  intros Hl. unfold To4. rewrite length_app, Hl. cbn [length v4InV6Prefix replicate app Nat.add Nat.eqb].
  by rewrite bool_decide_true.
Qed.

Lemma IP_String_v4 ip : length ip = 4%nat -> IP_String ip = formatIPv4 ip.
Proof. intros Hl. unfold IP_String. rewrite To4_v4 by done. by rewrite Hl. Qed.

Lemma formatIPv4_slashFree ip : length ip = 4%nat -> slashFree (formatIPv4 ip).
Proof.
  intros Hl. split.
  - intros E. pose proof (parseIPv4_format ip Hl) as H. by rewrite E in H.
  - apply join_snoc_free; [done|]. intros w (c & -> & _)%list_elem_of_fmap.
    apply FormatUint_notin; [apply b2z_range|done].
Qed.

Lemma ip4_reads_back : reads_back TranscoderIP4 (fun v => len v = 4) slashFree.
Proof.
  intros v s Hl _. assert (Hl4 : length v = 4%nat) by (unfold len in Hl; lia).
  cbn. unfold ip4BtS, ip4StB. rewrite IP_String_v4 by done. intros [= <-].
  rewrite ParseIP_v4 by done. cbn [mbind option_bind]. rewrite To4_mapped by done.
  split; [done|by apply formatIPv4_slashFree].
Qed.

Lemma join_hex_slash gs : groups_ok gs -> slash ∉ join colon (appendHex <$> gs).
Proof.
  intros Hgs. apply join_snoc_free; [done|]. intros w Hw Hc.
  apply list_elem_of_fmap in Hw as (g & -> & Hg).
  unfold groups_ok in Hgs. rewrite Forall_forall in Hgs. apply appendHex_hex in Hc; [|by apply Hgs].
  by destruct Hc.
Qed.

Lemma formatIPv6_slashFree ip : length ip = 16%nat -> slashFree (formatIPv6 ip).
Proof.
  intros Hl. split.
  - intros E. pose proof (parseIPv6_format ip Hl) as H. by rewrite E in H.
  - destruct (flat_groupsOf 8 ip Hl) as (_ & _ & Hg). unfold formatIPv6.
    destruct (zeroRun (groupsOf ip)) as [st n]. destruct (n =? 0)%nat; [by apply join_hex_slash|].
    rewrite !elem_of_app. intros [H|[H|H]].
    + revert H. by apply join_hex_slash, Forall_take.
    + repeat (apply elem_of_cons in H as [H|H]; [done|]). set_solver.
    + revert H. by apply join_hex_slash, Forall_drop.
Qed.

Lemma ip6_reads_back : reads_back TranscoderIP6 (fun v => len v = 16) slashFree.
Proof.
  intros v s Hl _. assert (Hl16 : length v = 16%nat) by (unfold len in Hl; lia).
  assert (Hto : forall ip, length ip = 16%nat -> To16 ip = Some ip)
    by (intros ip E; unfold To16; by rewrite E).
  cbn. unfold ip6BtS, ip6StB. destruct (To4 v) as [p4|] eqn:E4.
  - assert (v = v4InV6Prefix ++ p4 /\ length p4 = 4%nat) as [-> Hp4].
    { unfold To4 in E4. rewrite Hl16 in E4. cbn [Nat.eqb andb] in E4.
      case_bool_decide as Ht; [|done]. injection E4 as <-.
      rewrite <- Ht, take_drop. split; [done|]. by rewrite length_drop, Hl16. }
    intros [= <-]. rewrite IP_String_v4 by done. 
    match goal with |- context [ParseIP ?t] => change t with (mappedPrefix ++ formatIPv4 p4) end.
    rewrite ParseIP_mapped by done.
    cbn [mbind option_bind]. rewrite Hto by (by rewrite length_app, Hp4).
    split; [done|]. destruct (formatIPv4_slashFree p4 Hp4). split; [done|].
    rewrite elem_of_app. intros [Hin|Hin]; [|done].
    apply (bool_decide_eq_true_2 _) in Hin. by vm_compute in Hin.
  - intros [= <-]. unfold IP_String. rewrite Hl16, E4. cbn [Nat.eqb negb andb].
    rewrite ParseIP_v6 by done. cbn [mbind option_bind]. rewrite Hto by done.
    split; [done|by apply formatIPv6_slashFree].
Qed.

(** ** Onion addresses *)
Lemma std_alphabet_ok : alphabet_ok 5 StdAlphabet = true.
Proof. vm_compute. reflexivity. Qed.

(** The lower case of an encoded character: its upper case is the character, and
    it is neither a colon nor a slash. *)
Definition lower_ok (c : byte) : bool :=
  (b2z (lowerByte c) <? 128) && bool_decide (upperByte (lowerByte c) = c)
  && negb (bool_decide (lowerByte c = colon)) && negb (bool_decide (lowerByte c = slash)).

Lemma std_lower_ok v : 0 <= v < 32 -> lower_ok (charOf StdAlphabet v) = true.
Proof.
  intros Hv. assert (H : forallb (fun n => lower_ok (charOf StdAlphabet (Z.of_nat n))) (seq 0 32) = true)
    by (vm_compute; reflexivity).
  rewrite forallb_forall in H. specialize (H (Z.to_nat v)). rewrite Z2Nat.id in H by lia.
  apply H, in_seq. lia.
Qed.

Lemma encode32_lower_ok b c : c ∈ encodeBase 5 8 StdAlphabet b -> lower_ok c = true.
Proof.
  intros Hc. destruct (encodeBase_chars 5 8 StdAlphabet b c ltac:(lia) std_alphabet_ok Hc) as [->|(v & Hv & ->)].
  - vm_compute. reflexivity.
  - by apply std_lower_ok.
Qed.

Lemma lowerEncode32_shape b c : c ∈ lowerEncode32 b -> c <> colon /\ c <> slash.
Proof.
  unfold lowerEncode32. intros (x & -> & Hx)%list_elem_of_fmap. apply encode32_lower_ok in Hx.
  unfold lower_ok in Hx. rewrite !andb_true_iff, !negb_true_iff, !bool_decide_eq_false in Hx. tauto.
Qed.

Section onion_laws.
Context `{R : Runtime}.

Lemma ToUpper_lowerEncode32 b : ToUpper (lowerEncode32 b) = encodeBase 5 8 StdAlphabet b.
Proof.
  unfold ToUpper, lowerEncode32.
  assert (Hall : forall c, c ∈ encodeBase 5 8 StdAlphabet b -> lower_ok c = true)
    by apply encode32_lower_ok.
  revert Hall. generalize (encodeBase 5 8 StdAlphabet b). intros l Hall.
  assert (Hascii : forallb (fun c => b2z c <? 128) (lowerByte <$> l) = true).
  { apply forallb_forall. intros c (x & -> & Hx%Hall)%list_elem_of_In%list_elem_of_fmap.
    unfold lower_ok in Hx. rewrite !andb_true_iff in Hx. tauto. }
  rewrite Hascii, <- list_fmap_compose. rewrite <- (list_fmap_id l) at 2.
  apply list_fmap_ext. intros i c Hc%list_elem_of_lookup_2%Hall.
  unfold lower_ok in Hc. rewrite !andb_true_iff, bool_decide_eq_true in Hc. unfold compose, id. tauto.
Qed.

(** A decoded host whose length is a multiple of five has no padding. *)
Lemma DecodeString32_encode b :
  exists spare, DecodeString32 (encodeBase 5 8 StdAlphabet b) = Some (b, spare).
Proof.
  unfold DecodeString32. rewrite (decode32_encode StdAlphabet std_alphabet_ok). eauto.
Qed.

(** The address and the port of an onion text are taken apart again. *)
Lemma split_onion b port :
  0 <= port -> split colon (lowerEncode32 b ++ colon :: FormatUint port)
    = [lowerEncode32 b; FormatUint port].
Proof.
  intros Hp. rewrite split_app by (intros Hin; by apply lowerEncode32_shape in Hin as [? _]).
  by rewrite split_word by (by apply FormatUint_notin).
Qed.

Lemma onion_shape b port : 0 <= port -> slashFree (lowerEncode32 b ++ colon :: FormatUint port).
Proof.
  intros Hp. split; [by destruct (lowerEncode32 b)|]. rewrite elem_of_app, elem_of_cons.
  intros [Hin|[?|Hin]]; [by apply lowerEncode32_shape in Hin as [_ ?]|done|].
  by apply FormatUint_notin in Hin.
Qed.

(** Host and port bytes. *)
Lemma host_port (v : bytes) n :
  length v = (n + 2)%nat ->
  let port := BigEndianGet (take 2 (drop n v)) in
  0 <= port < 2 ^ 16 /\ take n v ++ BigEndianPut 2 port = v.
Proof.
  intros Hl port. assert (Hd : length (drop n v) = 2%nat) by (rewrite length_drop; lia).
  pose proof (BigEndianGet_range (take 2 (drop n v))) as Hr.
  subst port. rewrite take_ge in * by lia. unfold len in Hr. rewrite Hd in Hr.
  split; [exact Hr|]. rewrite <- Hd at 1. by rewrite BigEndianPut_Get, take_drop.
Qed.

Lemma onion_reads_back : reads_back TranscoderOnion (fun _ => True) slashFree.
Proof.
  intros v s _. cbn. unfold onionValidate, onionBtS, onionStB.
  destruct (Z.eqb_spec (len v) 12) as [Hl|]; [|done]. cbn [negb].
  destruct (host_port v 10) as [Hp Hv]; [unfold len in Hl; lia|]. cbv zeta in *.
  destruct (Z.eqb_spec (BigEndianGet (take 2 (drop 10 v))) 0) as [|Hp0]; [done|]. intros _.
  rewrite (proj2 (Z.ltb_ge _ _)) by lia. intros [= <-].
  rewrite split_onion, ToUpper_lowerEncode32 by lia.
  destruct (DecodeString32_encode (take 10 v)) as [spare ->].
  assert (Hh : len (take 10 v) = 10) by (unfold len in *; rewrite length_take; lia).
  rewrite Hh. cbn [Z.eqb negb Pos.eqb]. rewrite ParseUint_FormatUint by lia.
  rewrite (proj2 (Z.eqb_neq _ _)) by done. rewrite Hv. split; [done|]. apply onion_shape. lia.
Qed.

Lemma length_lowerEncode32 b n :
  (8 * length b = n * 5)%nat -> (n mod 8 = 0)%nat -> length (lowerEncode32 b) = n.
Proof.
  intros Hb Hn. unfold lowerEncode32. rewrite length_fmap.
  apply (encodeBase_length 5 8 StdAlphabet b n); [lia|done..].
Qed.

Lemma onion3_reads_back : reads_back TranscoderOnion3 (fun _ => True) slashFree.
Proof.
  intros v s _. cbn. unfold onion3Validate, onion3BtS, onion3StB.
  destruct (Z.eqb_spec (len v) 37) as [Hl|]; [|done]. cbn [negb].
  destruct (host_port v 35) as [Hp Hv]; [unfold len in Hl; lia|]. cbv zeta in *.
  destruct (Z.eqb_spec (BigEndianGet (take 2 (drop 35 v))) 0) as [|Hp0]; [done|]. intros _.
  rewrite (proj2 (Z.ltb_ge (len v) _)) by lia. rewrite (proj2 (Z.ltb_ge _ 1)) by lia. intros [= <-].
  assert (Hh : length (take 35 v) = 35%nat) by (unfold len in *; rewrite length_take; lia).
  rewrite split_onion by lia. unfold len at 1.
  rewrite (length_lowerEncode32 _ 56) by (rewrite ?Hh; done).
  change (negb (Z.of_nat 56 =? 56)) with false. cbv iota.
  rewrite ToUpper_lowerEncode32. destruct (DecodeString32_encode (take 35 v)) as [spare ->].
  rewrite ParseUint_FormatUint by lia. rewrite (proj2 (Z.eqb_neq _ _)) by done.
  replace 35 with (len (take 35 v)) by (unfold len; by rewrite Hh).
  rewrite sliceTo_app. cbn [obind]. rewrite Hv. split; [done|]. apply onion_shape. lia.
Qed.
End onion_laws.

(** ** Garlic addresses *)
Lemma garlic64_alphabet_ok : alphabet_ok 6 garlicBase64Alphabet = true.
Proof. vm_compute. reflexivity. Qed.
Lemma garlic32_alphabet_ok : alphabet_ok 5 garlicBase32Alphabet = true.
Proof. vm_compute. reflexivity. Qed.

(** No character of the alphabet is a slash. *)
Definition slashless (n : nat) (alphabet : bytes) : bool :=
  forallb (fun v => negb (bool_decide (charOf alphabet (Z.of_nat v) = slash))) (seq 0 n).

Lemma encodeBase_slash k q alphabet b :
  (0 < k)%nat -> alphabet_ok k alphabet = true -> slashless (2 ^ k) alphabet = true ->
  slash ∉ encodeBase k q alphabet b.
Proof.
  intros Hk Ha Hs Hin. destruct (encodeBase_chars k q alphabet b slash Hk Ha Hin) as [?|(v & Hv & E)]; [done|].
  unfold slashless in Hs. rewrite forallb_forall in Hs. specialize (Hs (Z.to_nat v)).
  rewrite Z2Nat.id, bool_decide_true in Hs by done || lia.
  discriminate Hs. apply in_seq. split; [lia|]. simpl.
  rewrite <- (Nat2Z.id (2 ^ k)), Nat2Z.inj_pow. apply Z2Nat.inj_lt; lia.
Qed.

Lemma valuesOf_nonempty k b : (0 < k)%nat -> b <> [] -> valuesOf k b <> [].
Proof.
  intros Hk Hb E. destruct (valuesOf_spec k b Hk) as (_ & Hlen & _). rewrite E in Hlen.
  destruct b; [done|]. simpl in Hlen. lia.
Qed.

Lemma garlic64_reads_back : reads_back TranscoderGarlic64 (fun _ => True) slashFree.
Proof.
  intros v s _. cbn [ValidateBytes BytesToString StringToBytes TranscoderGarlic64 NewTranscoderFromFunctions].
  unfold garlic64BtS, garlic64StB. intros Hv. rewrite Hv. cbn [obind]. intros [= <-].
  rewrite decode64_encode by apply garlic64_alphabet_ok. rewrite Hv. cbn [obind]. split; [done|].
  assert (v <> []) by (intros ->; done). split.
  - unfold encodeBase. cbv zeta. pose proof (valuesOf_nonempty 6 v ltac:(lia) ltac:(done)).
    by destruct (valuesOf 6 v).
  - apply encodeBase_slash; [lia|apply garlic64_alphabet_ok|vm_compute; reflexivity].
Qed.

Lemma trimRight_replicate c (s : bytes) n :
  last s <> Some c -> trimRight c (s ++ replicate n c) = s.
Proof.
  induction s as [|x s IH]; intros Hl; cbn [app trimRight].
  - induction n as [|n IHn]; [done|]. cbn [replicate trimRight]. rewrite IHn. by rewrite decide_True.
  - destruct s as [|y s].
    + assert (Ht : trimRight c ([] ++ replicate n c) = []).
      { cbn [app]. clear. induction n as [|n IHn]; [done|]. cbn [replicate trimRight].
        rewrite IHn. by rewrite decide_True. }
      rewrite Ht. rewrite decide_False; [done|]. intros ->. by apply Hl.
    + rewrite IH by (by rewrite last_cons_cons in Hl). done.
Qed.

Lemma garlic32_reads_back : reads_back TranscoderGarlic32 (fun _ => True) slashFree.
Proof.
  intros v s _. cbn [ValidateBytes BytesToString StringToBytes TranscoderGarlic32 NewTranscoderFromFunctions].
  unfold garlic32BtS, garlic32StB. intros Hv. rewrite Hv. cbn [obind]. intros [= <-].
  assert (Hne : v <> []) by (intros ->; done).
  pose proof (encodeBase_slash 5 8 garlicBase32Alphabet v ltac:(lia) garlic32_alphabet_ok
    ltac:(vm_compute; reflexivity)) as Hslash.
  pose proof (valuesOf_nonempty 5 v ltac:(lia) Hne) as Hvals.
  destruct (valuesOf_spec 5 v ltac:(lia)) as (_ & _ & Hr).
  set (cs := charOf garlicBase32Alphabet <$> valuesOf 5 v).
  assert (Henc : encodeBase 5 8 garlicBase32Alphabet v = padTo8 cs) by done.
  assert (Hlast : last cs <> Some padChar).
  { intros Hl. apply last_Some_elem_of in Hl. apply list_elem_of_fmap in Hl as (x & E & Hx).
    rewrite Forall_forall in Hr. destruct (alphabet_char 5 _ x garlic32_alphabet_ok (Hr x Hx)) as (_ & ? & _).
    congruence. }
  assert (Htrim : trimRight padChar (encodeBase 5 8 garlicBase32Alphabet v) = cs)
    by (rewrite Henc; by apply trimRight_replicate).
  rewrite Htrim, <- Henc, decode32_encode by apply garlic32_alphabet_ok. rewrite Hv. cbn [obind].
  split; [done|]. split.
  - unfold cs. by destruct (valuesOf 5 v).
  - intros Hin. apply Hslash. rewrite Henc. unfold padTo8. apply elem_of_app. by left.
Qed.

(** ** Peer ids and certificate hashes *)

(** What the packages document: a multihash is printed in base 58 and read back, a
    sha256 multihash begins with Qm in base 58 and an identity one with 1; a
    multibase string is decoded to the bytes it encodes. *)
Class MultiformatsLaws (M : Multiformats) := {
  mh_Cast_id b m : mh_Cast b = Some m -> m = b;
  mh_B58_roundtrip b : is_Some (mh_Decode b) -> mh_FromB58String (mh_B58String b) = Some b;
  mh_B58_alphabet b : slash ∉ mh_B58String b;
  mh_B58_sha256 b : mh_Decode b = Some (SHA2_256, 32) -> hasPrefix (mh_B58String b) (lit "Qm") = true;
  mh_B58_identity b n : mh_Decode b = Some (IDENTITY, n) -> hasPrefix (mh_B58String b) (lit "1") = true;
  multibase_roundtrip b s :
    multibase_EncodeBase64url b = Some s -> multibase_Decode s = Some b /\ s <> [] /\ slash ∉ s }.

Section peer_laws.
Context `{ML : MultiformatsLaws}.

Lemma hasPrefix_nonempty s p : hasPrefix s p = true -> p <> [] -> s <> [].
Proof. by destruct s, p. Qed.

Lemma p2p_reads_back : reads_back TranscoderP2P (fun _ => True) slashFree.
Proof.
  intros v s _. cbn [ValidateBytes BytesToString StringToBytes TranscoderP2P NewTranscoderFromFunctions].
  intros Hv. unfold p2pBtS, p2pStB. destruct (mh_Cast v) as [m|] eqn:Hc; [|done].
  apply mh_Cast_id in Hc as ->. intros [= <-].
  assert (Hpre : hasPrefix (mh_B58String v) (lit "Qm") || hasPrefix (mh_B58String v) (lit "1") = true
    /\ is_Some (mh_Decode v)).
  { unfold p2pVal in Hv. destruct (mh_Decode v) as [[code n]|] eqn:Hd; [|done]. split; [|eauto].
    destruct (Z.eqb_spec code SHA2_256) as [->|Hs].
    - destruct (Z.eqb_spec n 32) as [->|]; [|done]. by rewrite mh_B58_sha256.
    - destruct (Z.eqb_spec code IDENTITY) as [->|]; [|done].
      rewrite (mh_B58_identity _ _ Hd). by rewrite orb_true_r. }
  destruct Hpre as [Hpre Hsome]. rewrite Hpre, mh_B58_roundtrip, Hv by done. cbn [obind].
  split; [done|]. split; [|apply mh_B58_alphabet].
  apply orb_true_iff in Hpre as [H|H]; by eapply hasPrefix_nonempty.
Qed.

Lemma certHash_reads_back : reads_back TranscoderCertHash (fun _ => True) slashFree.
Proof.
  intros v s _. cbn [ValidateBytes BytesToString StringToBytes TranscoderCertHash NewTranscoderFromFunctions].
  unfold validateCertHash, certHashBtS, certHashStB. intros Hv.
  destruct (multibase_EncodeBase64url v) as [s'|] eqn:E; [|done]. intros [= <-].
  apply multibase_roundtrip in E as (-> & ? & ?). destruct (mh_Decode v); [|done]. done.
Qed.
End peer_laws.

(** An implementation: multihashes as specified, text in hexadecimal. *)
Fixpoint unhexString (s : bytes) : option bytes :=
  match s with
  | [] => Some []
  | h :: l :: s => a ← unhex h; b ← unhex l; t ← unhexString s; Some (z2b (a * 16 + b) :: t)
  | _ => None
  end.

Lemma unhexString_hexString b : unhexString (hexString b) = Some b.
Proof.
  induction b as [|c b IH]; [done|]. unfold hexString in *. rewrite bind_cons. cbn [app unhexString].
  pose proof (b2z_range c) as Hc.
  rewrite (unhex_lowerhex (b2z c / 16)) by (split; [apply Z.div_pos; lia|apply Z.div_lt_upper_bound; lia]).
  rewrite (unhex_lowerhex (b2z c mod 16)) by (apply Z.mod_pos_bound; lia). rewrite IH. cbn [mbind option_bind].
  assert (b2z c / 16 * 16 + b2z c mod 16 = b2z c) as ->
    by (pose proof (Z.div_mod (b2z c) 16 ltac:(lia)); lia).
  by rewrite z2b_b2z.
Qed.

Lemma hexString_slash b : slash ∉ hexString b.
Proof.
  assert (H : forallb (fun n => negb (bool_decide (lowerhex (Z.of_nat n) = slash))) (seq 0 16) = true)
    by (vm_compute; reflexivity).
  assert (Hd : forall d, 0 <= d < 16 -> lowerhex d <> slash).
  { intros d Hd. rewrite forallb_forall in H. specialize (H (Z.to_nat d)).
    rewrite Z2Nat.id, negb_true_iff, bool_decide_eq_false in H by lia. apply H, in_seq. lia. }
  unfold hexString. intros (c & Hin & _)%list_elem_of_bind. pose proof (b2z_range c) as Hc.
  apply elem_of_cons in Hin as [E|[E|Hin]%elem_of_cons]; [| |by apply not_elem_of_nil in Hin].
  - symmetry in E. revert E. apply Hd. split; [apply Z.div_pos; lia|apply Z.div_lt_upper_bound; lia].
  - symmetry in E. revert E. apply Hd, Z.mod_pos_bound. lia.
Qed.

Definition multihashDecode (b : bytes) : option (Z * Z) :=
  match decodeUvarint 9 true b with
  | Ok (code, n) =>
      match decodeUvarint 9 true (drop (Z.to_nat n) b) with
      | Ok (length, k) => if len b =? n + k + length then Some (code, length) else None
      | _ => None
      end
  | _ => None
  end.

Definition hexMultiformats : Multiformats := {|
  mh_Decode := multihashDecode;
  mh_FromB58String s :=
    if hasPrefix s (lit "Qm") then unhexString (drop 2 s) else unhexString (drop 1 s);
  mh_Cast b := match multihashDecode b with Some _ => Some b | None => None end;
  mh_B58String b :=
    match multihashDecode b with
    | Some (code, _) => if code =? SHA2_256 then lit "Qm" ++ hexString b else lit "1" ++ hexString b
    | None => lit "1" ++ hexString b
    end;
  cid_Decode _ := None;
  multibase_Decode s := unhexString (drop 1 s);
  multibase_EncodeBase64url b := Some (lit "u" ++ hexString b) |}.

#[export] Instance hexMultiformats_laws : MultiformatsLaws hexMultiformats.
Proof.
  constructor; cbn [hexMultiformats mh_Decode mh_FromB58String mh_Cast mh_B58String multibase_Decode
    multibase_EncodeBase64url].
  - intros b m. destruct (multihashDecode b); [|done]. by intros [= ->].
  - intros b [[code n] ->]. destruct (code =? SHA2_256).
    + assert (hasPrefix (lit "Qm" ++ hexString b) (lit "Qm") = true) as -> by (vm_compute; reflexivity).
      exact (unhexString_hexString b).
    + assert (hasPrefix (lit "1" ++ hexString b) (lit "Qm") = false) as -> by (vm_compute; reflexivity).
      exact (unhexString_hexString b).
  - intros b. pose proof (hexString_slash b).
    destruct (multihashDecode b) as [[code n]|]; [destruct (code =? SHA2_256)|];
      repeat (apply not_elem_of_cons; split; [done|]); done.
  - intros b ->. done.
  - intros b n ->. done.
  - intros b s [= <-]. split_and!; [exact (unhexString_hexString b)|done|].
    apply not_elem_of_cons. split; [done|apply hexString_slash].
Qed.
