(* ===== verification/MaProtocols.v ===== *)
(** * The protocol table and the correctness of the codec (go-multiaddr/protocols.go)

    The protocols of the package with their codes, the registry [init] builds
    from them, and the properties of parsing and printing: first for every
    registry with lawful transcoders, then the fact that the table is one. *)
From Stdlib Require Import ZArith Lia.
From stdpp Require Import base tactics list numbers option gmap sets strings.
From S2P Require Import Prelude GoBytes Varint MaProtocol MaComponent MaCodec MaOps GoNet GoBase Transcoders TranscoderLaws.
Local Open Scope Z_scope.
Local Open Scope outcome_scope.

Definition P_IP4 : Z := 4.
Definition P_TCP : Z := 6.
Definition P_DNS : Z := 53.
Definition P_DNS4 : Z := 54.
Definition P_DNS6 : Z := 55.
Definition P_DNSADDR : Z := 56.
Definition P_UDP : Z := 273.
Definition P_DCCP : Z := 33.
Definition P_IP6 : Z := 41.
Definition P_IP6ZONE : Z := 42.
Definition P_IPCIDR : Z := 43.
Definition P_QUIC : Z := 460.
Definition P_QUIC_V1 : Z := 461.
Definition P_WEBTRANSPORT : Z := 465.
Definition P_CERTHASH : Z := 466.
Definition P_SCTP : Z := 132.
Definition P_CIRCUIT : Z := 290.
Definition P_UDT : Z := 301.
Definition P_UTP : Z := 302.
Definition P_UNIX : Z := 400.
Definition P_P2P : Z := 421.
Definition P_IPFS : Z := P_P2P.
Definition P_HTTP : Z := 480.
Definition P_HTTP_PATH : Z := 481.
Definition P_HTTPS : Z := 443.
Definition P_ONION : Z := 444.
Definition P_ONION3 : Z := 445.
Definition P_GARLIC64 : Z := 446.
Definition P_GARLIC32 : Z := 447.
Definition P_P2P_WEBRTC_DIRECT : Z := 276.
Definition P_TLS : Z := 448.
Definition P_SNI : Z := 449.
Definition P_NOISE : Z := 454.
Definition P_WS : Z := 477.
Definition P_WSS : Z := 478.
Definition P_PLAINTEXTV2 : Z := 7367777.
Definition P_WEBRTC_DIRECT : Z := 280.
Definition P_WEBRTC : Z := 281.
Definition P_MEMORY : Z := 777.

Section table.
Context `{V : Varint} `{R : Runtime} `{M : Multiformats}.

(** [codeX, _ = CodeToVarint(P_X)]: the error is dropped. *)
Definition codeOf (code : Z) : bytes := match CodeToVarint code with Ok b => b | _ => [] end.

Definition proto (name : string) (code size : Z) (t : option Transcoder) : Protocol :=
  mkProtocol (lit name) code (codeOf code) size false t.

Definition protoIP4 := proto "ip4" P_IP4 32 (Some TranscoderIP4).
Definition protoTCP := proto "tcp" P_TCP 16 (Some TranscoderPort).
Definition protoDNS := proto "dns" P_DNS LengthPrefixedVarSize (Some TranscoderDns).
Definition protoDNS4 := proto "dns4" P_DNS4 LengthPrefixedVarSize (Some TranscoderDns).
Definition protoDNS6 := proto "dns6" P_DNS6 LengthPrefixedVarSize (Some TranscoderDns).
Definition protoDNSADDR := proto "dnsaddr" P_DNSADDR LengthPrefixedVarSize (Some TranscoderDns).
Definition protoUDP := proto "udp" P_UDP 16 (Some TranscoderPort).
Definition protoDCCP := proto "dccp" P_DCCP 16 (Some TranscoderPort).
Definition protoIP6 := proto "ip6" P_IP6 128 (Some TranscoderIP6).
Definition protoIP6ZONE := proto "ip6zone" P_IP6ZONE LengthPrefixedVarSize (Some TranscoderIP6Zone).
Definition protoIPCIDR := proto "ipcidr" P_IPCIDR 8 (Some TranscoderIPCIDR).
Definition protoSCTP := proto "sctp" P_SCTP 16 (Some TranscoderPort).
Definition protoCIRCUIT := proto "p2p-circuit" P_CIRCUIT 0 None.
Definition protoONION2 := proto "onion" P_ONION 96 (Some TranscoderOnion).
Definition protoONION3 := proto "onion3" P_ONION3 296 (Some TranscoderOnion3).
Definition protoGARLIC64 := proto "garlic64" P_GARLIC64 LengthPrefixedVarSize (Some TranscoderGarlic64).
Definition protoGARLIC32 := proto "garlic32" P_GARLIC32 LengthPrefixedVarSize (Some TranscoderGarlic32).
Definition protoUTP := proto "utp" P_UTP 0 None.
Definition protoUDT := proto "udt" P_UDT 0 None.
Definition protoQUIC := proto "quic" P_QUIC 0 None.
Definition protoQUICV1 := proto "quic-v1" P_QUIC_V1 0 None.
Definition protoWEBTRANSPORT := proto "webtransport" P_WEBTRANSPORT 0 None.
Definition protoCERTHASH := proto "certhash" P_CERTHASH LengthPrefixedVarSize (Some TranscoderCertHash).
Definition protoHTTP := proto "http" P_HTTP 0 None.
Definition protoHTTPPath := proto "http-path" P_HTTP_PATH LengthPrefixedVarSize (Some TranscoderHTTPPath).
Definition protoHTTPS := proto "https" P_HTTPS 0 None.
Definition protoP2P := proto "p2p" P_P2P LengthPrefixedVarSize (Some TranscoderP2P).
Definition protoUNIX :=
  mkProtocol (lit "unix") P_UNIX (codeOf P_UNIX) LengthPrefixedVarSize true (Some TranscoderUnix).
Definition protoP2P_WEBRTC_DIRECT := proto "p2p-webrtc-direct" P_P2P_WEBRTC_DIRECT 0 None.
Definition protoTLS := proto "tls" P_TLS 0 None.
Definition protoSNI := proto "sni" P_SNI LengthPrefixedVarSize (Some TranscoderDns).
Definition protoNOISE := proto "noise" P_NOISE 0 None.
Definition protoPlaintextV2 := proto "plaintextv2" P_PLAINTEXTV2 0 None.
Definition protoWS := proto "ws" P_WS 0 None.
Definition protoWSS := proto "wss" P_WSS 0 None.
Definition protoWebRTCDirect := proto "webrtc-direct" P_WEBRTC_DIRECT 0 None.
Definition protoWebRTC := proto "webrtc" P_WEBRTC 0 None.
Definition protoMemory := proto "memory" P_MEMORY 64 (Some TranscoderMemory).

Definition initProtocols : list Protocol :=
  [protoIP4; protoTCP; protoDNS; protoDNS4; protoDNS6; protoDNSADDR; protoUDP; protoDCCP;
   protoIP6; protoIP6ZONE; protoIPCIDR; protoSCTP; protoCIRCUIT; protoONION2; protoONION3;
   protoGARLIC64; protoGARLIC32; protoUTP; protoUDT; protoQUIC; protoQUICV1; protoWEBTRANSPORT;
   protoCERTHASH; protoHTTP; protoHTTPPath; protoHTTPS; protoP2P; protoUNIX;
   protoP2P_WEBRTC_DIRECT; protoTLS; protoSNI; protoNOISE; protoWS; protoWSS;
   protoPlaintextV2; protoWebRTCDirect; protoWebRTC; protoMemory].

(** [init]: a refused protocol panics; at the end the names [p2p] and [ipfs] are
    set to one protocol. *)
Definition init : outcome ma_error registry :=
  match addAll emptyRegistry initProtocols with
  | Ok r => Ok (setName (setName r (lit "p2p") protoP2P) (lit "ipfs") protoP2P)
  | _ => Panic
  end.

(** The registry after [init]. *)
Definition standard : registry := match init with Ok r => r | _ => emptyRegistry end.
End table.

(** ** The table is lawful *)
Lemma text_ok_intro p t ok shape :
  Name p <> [] -> slash ∉ Name p -> Size p <> 0 -> ProtoTranscoder p = Some t ->
  reads_back t ok shape -> (forall v, value_ok p v -> ok v) ->
  (forall s, shape s -> if Path p then exists s', s = slash :: s' /\ last s <> Some slash
                        else s <> [] /\ slash ∉ s) ->
  text_ok p.
Proof.
  intros Hn Hs Hsz Ht Hrb Hok Hsh. split_and!; try done.
  intros t' v s Ht' Hv Hbs. assert (t' = t) as -> by congruence.
  pose proof Hv as (_ & _ & Htr). unfold transcodes in Htr. rewrite Ht in Htr.
  destruct (Hrb v s (Hok v Hv) (proj2 Htr) Hbs). split; [done|by apply Hsh].
Qed.

Lemma text_ok_none p :
  Name p <> [] -> slash ∉ Name p -> ProtoTranscoder p = None -> text_ok p.
Proof. intros Hn Hs Ht. split_and!; try done. intros. congruence. Qed.

(** Membership of a byte in the bytes of a literal, by computation. *)
Ltac not_in_lit :=
  let H := fresh in intros H; apply (bool_decide_eq_true_2 _) in H; vm_compute in H; discriminate H.

Lemma proto_text_ok `{V : Varint} name code size t ok :
  lit name <> [] -> slash ∉ lit name -> size <> 0 -> reads_back t ok slashFree ->
  (forall v, value_ok (proto name code size (Some t)) v -> ok v) ->
  text_ok (proto name code size (Some t)).
Proof. intros. eapply text_ok_intro; try done. Qed.

Create HintDb transcoders.
#[export] Hint Resolve ip4_reads_back ip6_reads_back ipcidr_reads_back ip6zone_reads_back
  port_reads_back dns_reads_back memory_reads_back httpPath_reads_back onion_reads_back
  onion3_reads_back garlic64_reads_back garlic32_reads_back p2p_reads_back certHash_reads_back
  : transcoders.

(** A transcoder that returns on values of [n] bytes ([n] negative: on all). *)
Definition calmT (t : Transcoder) (size : Z) : Prop :=
  forall v, (0 <= size -> len v = size / 8) ->
  returns (BytesToString t v) /\ returns (ValidateBytes t v).

Ltac branches :=
  repeat match goal with
  | |- context [if ?b then _ else _] => destruct b
  | |- context [match ?o with Some _ => _ | None => _ end] => destruct o as [[? ?]|] || destruct o
  end; try done.

Lemma calm_port : calmT TranscoderPort 16.
Proof.
  intros v Hv. cbn. unfold portBtS. specialize (Hv ltac:(lia)). change (16 / 8) with 2 in Hv.
  by rewrite (proj2 (Z.ltb_ge _ _)) by lia.
Qed.
Lemma calm_onion `{R : Runtime} : calmT TranscoderOnion 96.
Proof.
  intros v Hv. cbn. unfold onionBtS, onionValidate. specialize (Hv ltac:(lia)). change (96 / 8) with 12 in Hv.
  rewrite (proj2 (Z.ltb_ge _ _)) by lia. cbv zeta. split; branches.
Qed.
Lemma calm_onion3 `{R : Runtime} : calmT TranscoderOnion3 296.
Proof.
  intros v Hv. cbn. unfold onion3BtS, onion3Validate. specialize (Hv ltac:(lia)).
  change (296 / 8) with 37 in Hv. rewrite (proj2 (Z.ltb_ge (len v) 37)) by lia. cbv zeta. split; branches.
Qed.
Lemma calm_ipcidr size : calmT TranscoderIPCIDR size.
Proof.
  intros v _. cbn. unfold ipcidrBtS, ipcidrValidate. destruct (Z.eqb_spec (len v) 1) as [E|]; [|done].
  by destruct v.
Qed.
Lemma calm_memory size : calmT TranscoderMemory size.
Proof. intros v _. cbn. unfold memoryBtS, memoryValidate. split; branches. Qed.
Lemma calm_ip4 size : calmT TranscoderIP4 size.
Proof. by intros v _. Qed.
Lemma calm_ip6 size : calmT TranscoderIP6 size.
Proof. intros v _. cbn. unfold ip6BtS. split; [|done]. by destruct (To4 v). Qed.
Lemma calm_ip6zone size : calmT TranscoderIP6Zone size.
Proof. intros v _. cbn. unfold ip6zoneBtS, ip6zoneVal. split; branches. Qed.
Lemma calm_dns size : calmT TranscoderDns size.
Proof. intros v _. cbn. unfold dnsBtS, dnsVal. split; branches. Qed.
Lemma calm_unix size : calmT TranscoderUnix size.
Proof. intros v _. cbn. unfold unixBtS, unixValidate. split; branches. Qed.
Lemma calm_httpPath size : calmT TranscoderHTTPPath size.
Proof. intros v _. cbn. unfold httpPathBtS, validateHTTPPath. split; branches. Qed.
Lemma calm_garlic64 size : calmT TranscoderGarlic64 size.
Proof. intros v _. cbn. unfold garlic64BtS, garlic64Validate. split; branches. Qed.
Lemma calm_garlic32 size : calmT TranscoderGarlic32 size.
Proof. intros v _. cbn. unfold garlic32BtS, garlic32Validate. split; branches. Qed.
Lemma calm_p2p `{M : Multiformats} size : calmT TranscoderP2P size.
Proof.
  intros v _. cbn. unfold p2pBtS, p2pVal. split; [by destruct (mh_Cast v)|].
  destruct (mh_Decode v) as [[? ?]|]; branches.
Qed.
Lemma calm_certHash `{M : Multiformats} size : calmT TranscoderCertHash size.
Proof.
  intros v _. cbn. unfold certHashBtS, validateCertHash.
  split; [by destruct (multibase_EncodeBase64url v)|by destruct (mh_Decode v)].
Qed.
#[export] Hint Resolve calm_port calm_onion calm_onion3 calm_ipcidr calm_memory calm_ip4 calm_ip6
  calm_ip6zone calm_dns calm_unix calm_httpPath calm_garlic64 calm_garlic32 calm_p2p calm_certHash
  : transcoders.

Lemma calm_intro p t : ProtoTranscoder p = Some t -> calmT t (Size p) -> calm p.
Proof. intros Ht Hc t' v Ht' Hv. assert (t' = t) as -> by congruence. by apply Hc. Qed.
Lemma calm_none p : ProtoTranscoder p = None -> calm p.
Proof. intros Ht t v Ht' _. congruence. Qed.

Section lawful.
Context `{VL : VarintLaws} `{R : Runtime}.

Lemma table_calm `{M : Multiformats} : Forall calm initProtocols.
Proof.
  repeat apply Forall_cons_2; try apply Forall_nil_2;
    first [by apply calm_none|eapply calm_intro; [reflexivity|]; cbn; auto with transcoders].
Qed.

Lemma table_text_ok `{ML : MultiformatsLaws} : Forall text_ok initProtocols.
Proof.
  repeat apply Forall_cons_2; try apply Forall_nil_2;
    first
    [ apply text_ok_none; [done|not_in_lit|reflexivity]
    | eapply proto_text_ok; [done|not_in_lit|done|eauto with transcoders|];
      intros v (_ & H & _); first [exact I|exact (H ltac:(done))]
    | eapply text_ok_intro; [done|not_in_lit|done|reflexivity|exact unix_reads_back|done|done] ].
Qed.

Lemma codeOf_eq code : 0 <= code <= MaxInt32 -> codeOf code = ToUvarint code.
Proof.
  intros Hc. unfold codeOf, CodeToVarint. rewrite (proj2 (Z.ltb_ge _ _)) by lia.
  by rewrite (proj2 (Z.ltb_ge _ _)) by lia.
Qed.

Lemma table_codes `{M : Multiformats} :
  Forall (fun p => 0 < Code p <= MaxInt32 /\ VCode p = codeOf (Code p)) initProtocols.
Proof.
  repeat apply Forall_cons_2; try apply Forall_nil_2; (split; [vm_compute; split; congruence|reflexivity]).
Qed.

Lemma table_protocol_ok `{M : Multiformats} : Forall protocol_ok initProtocols.
Proof.
  assert (Hs : Forall (fun p => (Size p <> 0 -> ProtoTranscoder p <> None) /\ (Path p = true -> Size p < 0))
    initProtocols) by (repeat apply Forall_cons_2; try apply Forall_nil_2; by split).
  pose proof table_codes as Hc. rewrite Forall_forall in *. intros p Hp.
  destruct (Hs p Hp) as [? ?]. destruct (Hc p Hp) as [Hr Hv]. split_and!; try done.
  intros E. rewrite Hv, codeOf_eq in E by lia. unfold MaxInt32 in Hr.
  pose proof (ToUvarint_nonempty (Code p) ltac:(lia)) as Hne. by rewrite E in Hne.
Qed.

Lemma table_added `{M : Multiformats} : exists r, addAll emptyRegistry initProtocols = Ok r.
Proof.
  apply addAll_accepts; [apply table_protocol_ok| | |done].
  - apply (bool_decide_eq_true_1 (NoDup (Name <$> initProtocols))). vm_compute. reflexivity.
  - apply (bool_decide_eq_true_1 (NoDup (Code <$> initProtocols))). vm_compute. reflexivity.
Qed.

Lemma init_standard `{M : Multiformats} :
  init = Ok standard /\ Protocols standard = initProtocols /\ registry_ok standard
  /\ std_codes standard.
Proof.
  destruct table_added as [r Hr]. destruct (addAll_ok _ _ _ registry_ok_empty Hr) as [Hok Hps].
  assert (Hi : init = Ok (setName (setName r (lit "p2p") protoP2P) (lit "ipfs") protoP2P))
    by (unfold init; by rewrite Hr).
  assert (Hstd : standard = setName (setName r (lit "p2p") protoP2P) (lit "ipfs") protoP2P)
    by (unfold standard; by rewrite Hi).
  cbn [emptyRegistry Protocols app] in Hps.
  assert (Hp2p : protoP2P ∈ initProtocols) by (unfold initProtocols; set_solver).
  assert (Hnames : forall q, q ∈ initProtocols -> Name q = lit "p2p" -> q = protoP2P).
  { intros q Hq En. pose proof (ro_name _ Hok q ltac:(by rewrite Hps)) as H1.
    pose proof (ro_name _ Hok protoP2P ltac:(by rewrite Hps)) as H2. rewrite En in H1.
    change (Name protoP2P) with (lit "p2p") in H2. congruence. }
  assert (Hipfs : forall q, q ∈ initProtocols -> Name q = lit "ipfs" -> q = protoP2P).
  { intros q Hq En. exfalso. assert (Hin : lit "ipfs" ∈ Name <$> initProtocols)
      by (rewrite <- En; by apply list_elem_of_fmap_2).
    apply (bool_decide_eq_true_2 _) in Hin. vm_compute in Hin. discriminate Hin. }
  split_and!; [by rewrite Hstd|by rewrite Hstd| |].
  - rewrite Hstd. apply registry_ok_setName; [|by simpl; rewrite Hps|simpl; by rewrite Hps].
    apply registry_ok_setName; [done|by rewrite Hps|by rewrite Hps].
  - rewrite Hstd. intros p Hp. simpl in Hp. rewrite Hps in Hp. pose proof table_codes as Hc.
    rewrite Forall_forall in Hc. destruct (Hc p Hp) as [? Hv]. split; [done|].
    rewrite Hv. apply codeOf_eq. lia.
Qed.
End lawful.

(** ** The properties *)
Section properties.
Context `{VL : VarintLaws} `{R : Runtime}.

(** C7: the binary form is exact.  [NewMultiaddrBytes] accepts a byte string if and
    only if it is [Bytes] of a well-formed multiaddr (registered protocols, values
    their transcoders accept, nothing after a path component), and then returns that
    multiaddr: decoding and encoding are inverse to each other, there is one
    encoding per address and no leftover bytes are tolerated. *)
Theorem binary_form_exact `{M : Multiformats} b m :
  NewMultiaddrBytes standard b = Ok m <-> wf_multiaddr standard m /\ Bytes m = b.
Proof.
  destruct init_standard as (_ & _ & Hok & Hstd). split.
  - by apply NewMultiaddrBytes_inv.
  - intros [Hwf <-]. by apply NewMultiaddrBytes_Bytes.
Qed.

(** C8: the text form is faithful.  Every well-formed multiaddr prints, and parsing
    what was printed gives the multiaddr back, for all protocols of the table; and
    what [NewMultiaddr] accepts is well formed.  So two addresses with the same text
    are the same address, and text and binary form carry the same information. *)
Theorem text_form_faithful `{ML : MultiformatsLaws} :
  (forall m, wf_multiaddr standard m ->
     exists s, String m = Ok s /\ NewMultiaddr standard s = Ok m)
  /\ (forall s m, NewMultiaddr standard s = Ok m -> wf_multiaddr standard m).
Proof.
  destruct init_standard as (_ & Hps & Hok & Hstd).
  assert (Htext : forall p, p ∈ Protocols standard -> text_ok p).
  { pose proof table_text_ok as H. rewrite Forall_forall in H. rewrite Hps. exact H. }
  split.
  - intros m Hwf. by apply NewMultiaddr_String.
  - intros s m. by apply NewMultiaddr_inv.
Qed.

(** C9: parsing terminates and does not panic.  On every input [readMultiaddr]
    returns a multiaddr or an error within as many rounds as the input has bytes:
    the fuel is enough and no slice is out of range, so [NewMultiaddrBytes] never
    needs its [recover]. *)
Theorem parsing_returns `{M : Multiformats} b :
  returns (readMultiaddr standard b)
  /\ NewMultiaddrBytes standard b =
       let! (bytesRead, m) := readMultiaddr standard b in
       if negb (bytesRead =? len b) then Err (EExtraData (len b - bytesRead)) else Ok m.
Proof.
  destruct init_standard as (_ & Hps & Hok & _).
  assert (Hcalm : forall p, p ∈ Protocols standard -> calm p).
  { pose proof table_calm as H. rewrite Forall_forall in H. rewrite Hps. exact H. }
  pose proof (readMultiaddr_returns standard Hok Hcalm b) as Hr. split; [done|].
  unfold NewMultiaddrBytes. destruct (readMultiaddr standard b) as [[n m]|e| |]; try done.
  cbn [obind]. by destruct (negb _).
Qed.
End properties.

(** ** Witnesses, with the implementations of the packages given above *)
Module MaExample.
#[export] Instance varint : Varint := unsignedVarint.
#[export] Instance formats : Multiformats := hexMultiformats.
#[export] Instance runtime : Runtime := {| unicodeToUpper s := s; sliceCap n := n |}.

(** A unix path after an IPv6 and a TCP component. *)
Definition text : bytes := lit "/ip6/2001:db8::1/tcp/4001/unix/run/x.sock".
Definition wire : bytes :=
  Eval vm_compute in match NewMultiaddr standard text with Ok m => Bytes m | _ => [] end.
End MaExample.
Import (hints) MaExample.

Lemma binary_form_exact_witness :
  exists m, NewMultiaddrBytes standard MaExample.wire = Ok m
  /\ wf_multiaddr standard m /\ Bytes m = MaExample.wire /\ length MaExample.wire = 34%nat.
Proof.
  destruct (isOk_inv (NewMultiaddrBytes standard MaExample.wire)) as [m H];
    [vm_compute; reflexivity|].
  destruct (proj1 (binary_form_exact _ _) H) as [Hwf Hb].
  exists m. split_and!; [exact H|exact Hwf|exact Hb|vm_compute; reflexivity].
Defined.

Lemma text_form_faithful_witness :
  exists m s, NewMultiaddr standard MaExample.text = Ok m
  /\ String m = Ok s /\ NewMultiaddr standard s = Ok m.
Proof.
  destruct (isOk_inv (NewMultiaddr standard MaExample.text)) as [m H]; [vm_compute; reflexivity|].
  destruct text_form_faithful as [Hprint Hparse].
  destruct (Hprint m (Hparse _ _ H)) as (s & Hs & Hm).
  exists m, s. split_and!; [exact H|exact Hs|exact Hm].
Defined.

Lemma parsing_returns_witness :
  returns (readMultiaddr standard MaExample.wire) /\ isOk (readMultiaddr standard MaExample.wire) = true.
Proof. split; [apply parsing_returns|vm_compute; reflexivity]. Defined.

(** An [onion3] address whose host is padded decodes to fewer than 35 bytes, and
    the slice of 35 bytes takes the rest from the buffer: the text is accepted, and
    the address it gives prints as another text. *)
Theorem onion3_padded_host_accepted :
  exists s m, last s <> Some slash /\ NewMultiaddr standard s = Ok m /\ String m <> Ok s
  /\ exists host, DecodeString32 (ToUpper (take 56 (drop 8 s))) = Some host /\ len host.1 = 31.
Proof.
  set (s := lit "/onion3/aaaaaaaaaaaaaaaaaaaaaaaaaaaaaaaaaaaaaaaaaaaaaaaaaa======:80").
  exists s. destruct (isOk_inv (NewMultiaddr standard s)) as [m H]; [vm_compute; reflexivity|].
  exists m. split_and!.
  - by vm_compute.
  - exact H.
  - intros Hs.
    assert (Hne : match NewMultiaddr standard s with
                  | Ok m => match String m with Ok s' => bool_decide (s' = s) | _ => true end
                  | _ => true end = false) by (vm_compute; reflexivity).
    rewrite H, Hs in Hne. rewrite bool_decide_true in Hne; done.
  - destruct (DecodeString32 (ToUpper (take 56 (drop 8 s)))) as [host|] eqn:E.
    + exists host. split; [done|]. assert (Hl : (len ∘ fst) <$> DecodeString32 (ToUpper (take 56 (drop 8 s))) = Some 31)
        by (vm_compute; reflexivity). rewrite E in Hl. by injection Hl.
    + vm_compute in E. discriminate E.
Qed.

