(* ===== verification/DialLimiter.v ===== *)
(** * The dial limiter (go-libp2p/p2p/net/swarm/limiter.go)

    [dialLimiter] hands out two kinds of tokens to dial jobs, one per peer and
    one per file descriptor, and queues the jobs it cannot start.  A job that
    is started runs in a goroutine of its own; the model keeps the multiset of
    running dials beside the limiter, so that what the counters are meant to
    count is in the state.  Every operation takes the contexts' [cancelled]
    answers as an argument: a job is asked at most once in an operation, so
    this covers every interleaving of cancellations. *)
From Stdlib Require Import ZArith Lia.
From stdpp Require Import base tactics list numbers option gmap strings sorting.
From S2P Require Import Prelude GoBytes Varint MaProtocol MaComponent MaCodec MaOps Transcoders MaProtocols.
Local Open Scope Z_scope.

(** ** Data *)
(** The identity of a job stands for its pointer; the response channel and the
    timeout belong to the environment. *)
Record dialJob := mkDialJob {
  dj_id : nat;
  dj_addr : Multiaddr;
  dj_peer : string }.

Record dialLimiter := mkDialLimiter {
  fdConsuming : Z;
  fdLimit : Z;
  waitingOnFd : list dialJob;
  activePerPeer : gmap string Z;
  perPeerLimit : Z;
  waitingOnPeerLimit : gmap string (list dialJob) }.

Definition set_fd (dl : dialLimiter) (n : Z) (w : list dialJob) : dialLimiter :=
  mkDialLimiter n (fdLimit dl) w (activePerPeer dl) (perPeerLimit dl) (waitingOnPeerLimit dl).
Definition set_active (dl : dialLimiter) (m : gmap string Z) : dialLimiter :=
  mkDialLimiter (fdConsuming dl) (fdLimit dl) (waitingOnFd dl) m (perPeerLimit dl) (waitingOnPeerLimit dl).
Definition set_waiting (dl : dialLimiter) (m : gmap string (list dialJob)) : dialLimiter :=
  mkDialLimiter (fdConsuming dl) (fdLimit dl) (waitingOnFd dl) (activePerPeer dl) (perPeerLimit dl) m.

Definition ConcurrentFdDials : Z := 160.
Definition DefaultPerPeerRateLimit : Z := 8.

Definition newDialLimiterWithParams (fdLimit perPeerLimit : Z) : dialLimiter :=
  mkDialLimiter 0 fdLimit [] ∅ perPeerLimit ∅.

(** ** Which dials need a file descriptor *)
(** [err == nil] of [ValueForProtocol] *)
Definition hasProtocol (m : Multiaddr) (code : Z) : bool := isOk (ValueForProtocol m code).

Definition isRelayAddr (addr : Multiaddr) : bool := hasProtocol addr P_CIRCUIT.

(** [SplitFunc] returns a nil first part when the address is empty and when
    its first component matches. *)
Definition isFdConsumingAddr (addr : Multiaddr) : bool :=
  let '(first, _) := SplitFunc addr (fun c => Code (Component_Protocol (Some c)) =? P_CIRCUIT) in
  match first with
  | [] => true
  | _ => hasProtocol first P_TCP || hasProtocol first P_UNIX
  end.

Definition shouldConsumeFd (addr : Multiaddr) : bool :=
  negb (isRelayAddr addr) && isFdConsumingAddr addr.

(** ** Operations: the limiter after the call, and the dials it started *)
Definition active (dl : dialLimiter) (p : string) : Z := default 0 (activePerPeer dl !! p).

Definition addCheckFdLimit (dl : dialLimiter) (dj : dialJob) : dialLimiter * list dialJob :=
  if shouldConsumeFd (dj_addr dj) then
    if fdLimit dl <=? fdConsuming dl then (set_fd dl (fdConsuming dl) (waitingOnFd dl ++ [dj]), [])
    else (set_fd dl (fdConsuming dl + 1) (waitingOnFd dl), [dj])
  else (dl, [dj]).

(** [activePerPeer[p]++] *)
Definition takePeerToken (dl : dialLimiter) (p : string) : dialLimiter :=
  set_active dl (<[p := active dl p + 1]> (activePerPeer dl)).

(** The loop of [freePeerToken] over the wait list of the peer. *)
Fixpoint peerLoop (cancelled : dialJob -> bool) (dl : dialLimiter) (waitlist : list dialJob)
    : dialLimiter * list dialJob :=
  match waitlist with
  | [] => (dl, [])
  | next :: waitlist =>
      let dl :=
        set_waiting dl
          (match waitlist with
           | [] => delete (dj_peer next) (waitingOnPeerLimit dl)
           | _ => <[dj_peer next := waitlist]> (waitingOnPeerLimit dl)
           end) in
      if cancelled next then peerLoop cancelled dl waitlist
      else addCheckFdLimit (takePeerToken dl (dj_peer next)) next
  end.

Definition freePeerToken (cancelled : dialJob -> bool) (dl : dialLimiter) (dj : dialJob)
    : dialLimiter * list dialJob :=
  let p := dj_peer dj in
  let n := active dl p - 1 in
  let dl := set_active dl (if n =? 0 then delete p (activePerPeer dl)
                           else <[p := n]> (activePerPeer dl)) in
  peerLoop cancelled dl (default [] (waitingOnPeerLimit dl !! p)).

(** The loop of [freeFDToken].  A cancelled job gives its peer token back, and
    that can put another job at the end of the queue: the fuel bounds the
    iterations, and [None] says that it ran out. *)
Fixpoint fdLoop (fuel : nat) (cancelled : dialJob -> bool) (dl : dialLimiter)
    : option (dialLimiter * list dialJob) :=
  match waitingOnFd dl with
  | [] => Some (dl, [])
  | next :: rest =>
      match fuel with
      | O => None
      | S fuel =>
          let dl := set_fd dl (fdConsuming dl) rest in
          if cancelled next then
            let '(dl, started) := freePeerToken cancelled dl next in
            '(dl, started') ← fdLoop fuel cancelled dl;
            Some (dl, started ++ started')
          else Some (set_fd dl (fdConsuming dl + 1) rest, [next])
      end
  end.

(** The jobs that wait, on a file descriptor or on their peer. *)
Definition peerQueues (m : gmap string (list dialJob)) : list dialJob := concat (map_to_list m).*2.
Definition waiting (dl : dialLimiter) : list dialJob :=
  waitingOnFd dl ++ peerQueues (waitingOnPeerLimit dl).

(** An iteration takes a job out of the queues for good, so their size is fuel
    enough. *)
Definition freeFDToken (cancelled : dialJob -> bool) (dl : dialLimiter)
    : option (dialLimiter * list dialJob) :=
  fdLoop (length (waiting dl)) cancelled (set_fd dl (fdConsuming dl - 1) (waitingOnFd dl)).

Definition finishedDial (cancelled : dialJob -> bool) (dl : dialLimiter) (dj : dialJob)
    : option (dialLimiter * list dialJob) :=
  '(dl, started) ← (if shouldConsumeFd (dj_addr dj) then freeFDToken cancelled dl else Some (dl, []));
  let '(dl, started') := freePeerToken cancelled dl dj in
  Some (dl, started ++ started').

Definition addCheckPeerLimit (dl : dialLimiter) (dj : dialJob) : dialLimiter * list dialJob :=
  let p := dj_peer dj in
  if perPeerLimit dl <=? active dl p
  then (set_waiting dl (<[p := default [] (waitingOnPeerLimit dl !! p) ++ [dj]]> (waitingOnPeerLimit dl)), [])
  else addCheckFdLimit (takePeerToken dl p) dj.

Definition AddDialJob (dl : dialLimiter) (dj : dialJob) : dialLimiter * list dialJob :=
  addCheckPeerLimit dl dj.

Definition clearAllPeerDials (dl : dialLimiter) (p : string) : dialLimiter :=
  set_waiting dl (delete p (waitingOnPeerLimit dl)).

(** What a dial goroutine does before [finishedDial]: nothing when its context
    is already cancelled; otherwise it dials and either hands the result over
    or, when the context ends first, closes the connection. *)
Inductive dialEffect :=
  | Dialled
  | SentUpdate (successful : bool)
  | ClosedConn.

Definition executeDial (cancelledAtStart con err ctxDone : bool) : list dialEffect :=
  if cancelledAtStart then []
  else Dialled :: (if ctxDone then (if con then [ClosedConn] else []) else [SentUpdate (negb err)]).

(** ** The limiter with its running dials *)
Record dialWorld := mkDialWorld {
  limiter : dialLimiter;
  running : list dialJob }.

Inductive dialStep (cancelled : dialJob -> bool) : dialWorld -> dialWorld -> Prop :=
  | step_add dl run dj dl' started :
      AddDialJob dl dj = (dl', started) ->
      dialStep cancelled (mkDialWorld dl run) (mkDialWorld dl' (run ++ started))
  | step_finish dl run1 dj run2 dl' started :
      finishedDial cancelled dl dj = Some (dl', started) ->
      dialStep cancelled (mkDialWorld dl (run1 ++ dj :: run2))
        (mkDialWorld dl' ((run1 ++ run2) ++ started))
  | step_clear dl run p :
      dialStep cancelled (mkDialWorld dl run) (mkDialWorld (clearAllPeerDials dl p) run).

(** The states reachable when the contexts answer as [allowed] says. *)
Inductive dialReach (allowed : (dialJob -> bool) -> Prop) (fd peer : Z) : dialWorld -> Prop :=
  | reach_new : dialReach allowed fd peer (mkDialWorld (newDialLimiterWithParams fd peer) [])
  | reach_step cancelled w w' :
      dialReach allowed fd peer w -> allowed cancelled -> dialStep cancelled w w' ->
      dialReach allowed fd peer w'.

(** ** What the counters count *)
Definition cnt (f : dialJob -> bool) (l : list dialJob) : Z := sumZ (fun j => Z.b2z (f j)) l.
Definition usesFd (j : dialJob) : bool := shouldConsumeFd (dj_addr j).
Definition onPeer (p : string) (j : dialJob) : bool := bool_decide (dj_peer j = p).

Lemma cnt_nil f : cnt f [] = 0.
Proof. done. Qed.
Lemma cnt_cons f j l : cnt f (j :: l) = Z.b2z (f j) + cnt f l.
Proof. done. Qed.
Lemma cnt_app f l1 l2 : cnt f (l1 ++ l2) = cnt f l1 + cnt f l2.
Proof. apply sumZ_app. Qed.
Lemma cnt_nonneg f l : 0 <= cnt f l.
Proof. apply sumZ_nonneg. intros j _. destruct (f j); simpl; lia. Qed.
Create Rewrite HintDb cnt.
#[export] Hint Rewrite cnt_app cnt_cons cnt_nil : cnt.

(** The counters: [extra] are jobs that hold a peer token and are neither
    running nor queued, in the middle of an operation. *)
Record counted (dl : dialLimiter) (run extra : list dialJob) : Prop := {
  counted_fd : fdConsuming dl = cnt usesFd run;
  counted_active p : active dl p = cnt (onPeer p) (run ++ waitingOnFd dl ++ extra);
  counted_fdq : Forall (fun j => usesFd j = true) (waitingOnFd dl);
  counted_queue p l : waitingOnPeerLimit dl !! p = Some l -> l ≠ [] /\ Forall (fun j => dj_peer j = p) l }.

(** The peer limit holds, and a job waits on it only when it is reached. *)
Definition peersOk (dl : dialLimiter) : Prop :=
  forall p, active dl p <= Z.max 0 (perPeerLimit dl)
    /\ (is_Some (waitingOnPeerLimit dl !! p) -> perPeerLimit dl <= active dl p).

(** A job waits on a file descriptor only when none is free. *)
Definition fdBusy (dl : dialLimiter) : Prop :=
  waitingOnFd dl ≠ [] -> fdLimit dl <= fdConsuming dl.

(** How an operation that frees no descriptor changes the descriptors. *)
Record fdKept (dl dl' : dialLimiter) : Prop := {
  kept_fdLimit : fdLimit dl' = fdLimit dl;
  kept_peerLimit : perPeerLimit dl' = perPeerLimit dl;
  kept_grows : fdConsuming dl <= fdConsuming dl';
  kept_bound : fdConsuming dl' <= Z.max (fdConsuming dl) (fdLimit dl);
  kept_busy : fdBusy dl -> fdBusy dl';
  kept_queue : waitingOnFd dl' = waitingOnFd dl \/ fdLimit dl <= fdConsuming dl' }.

(** Every job that waited is started, still waits, or was found cancelled. *)
Definition accounted (cancelled : dialJob -> bool) (before started after : list dialJob) : Prop :=
  exists dropped, Forall (fun j => cancelled j = true) dropped
    /\ before ≡ₚ started ++ dropped ++ after.

Lemma accounted_trans c l0 s0 l1 s1 l2 :
  accounted c l0 s0 l1 -> accounted c l1 s1 l2 -> accounted c l0 (s0 ++ s1) l2.
Proof.
  intros (d0 & Hd0 & H0) (d1 & Hd1 & H1). exists (d0 ++ d1). split; [by apply Forall_app|].
  rewrite H0, H1. solve_Permutation.
Qed.

Lemma accounted_length c l0 s l1 : accounted c l0 s l1 -> (length l1 + length s <= length l0)%nat.
Proof. intros (d & _ & ->). rewrite !length_app. lia. Qed.

Lemma addCheckFdLimit_spec dl run extra dj :
  counted dl run (dj :: extra) ->
  let '(dl', started) := addCheckFdLimit dl dj in
  counted dl' (run ++ started) extra /\ fdKept dl dl'
  /\ activePerPeer dl' = activePerPeer dl /\ waitingOnPeerLimit dl' = waitingOnPeerLimit dl
  /\ dj :: waiting dl ≡ₚ started ++ waiting dl'.
Proof.
  intros [Hfd Hact Hq Hw]. unfold addCheckFdLimit, fdBusy.
  destruct (shouldConsumeFd (dj_addr dj)) eqn:Hu; [destruct (Z.leb_spec (fdLimit dl) (fdConsuming dl))|];
    (split; [|split; [|split; [|split]]]); try done.
  - split; simpl; [by rewrite app_nil_r| | |done].
    + intros p. specialize (Hact p). unfold active in *. simpl. rewrite Hact.
      autorewrite with cnt. lia.
    + apply Forall_app. auto.
  - split; simpl; lia || done || auto. unfold fdBusy. simpl. auto.
  - unfold waiting. simpl. solve_Permutation.
  - split; simpl; [| |done|done].
    + autorewrite with cnt. unfold usesFd at 2. rewrite Hu, Hfd. simpl. lia.
    + intros p. specialize (Hact p). unfold active in *. simpl. rewrite Hact.
      autorewrite with cnt. lia.
  - split; simpl; lia || auto. unfold fdBusy. simpl. intros Hb Hne. specialize (Hb Hne). lia.
  - split; simpl; [| |done|done].
    + autorewrite with cnt. unfold usesFd at 2. rewrite Hu, Hfd. simpl. lia.
    + intros p. specialize (Hact p). unfold active in *. simpl. rewrite Hact.
      autorewrite with cnt. lia.
  - split; auto; lia.
Qed.

(** ** The queues as one multiset *)
Lemma peerQueues_insert p l m : peerQueues (<[p := l]> m) ≡ₚ l ++ peerQueues (delete p m).
Proof.
  rewrite <-insert_delete_eq. unfold peerQueues.
  rewrite (map_to_list_insert (delete p m)) by apply lookup_delete_eq. done.
Qed.

Lemma peerQueues_lookup p m : peerQueues m ≡ₚ default [] (m !! p) ++ peerQueues (delete p m).
Proof.
  destruct (m !! p) as [l|] eqn:E; simpl.
  - rewrite <-(insert_id m p l E) at 1. apply peerQueues_insert.
  - by rewrite delete_id.
Qed.

Lemma active_take dl p q :
  active (takePeerToken dl p) q = active dl q + Z.b2z (bool_decide (p = q)).
Proof.
  unfold takePeerToken, active. simpl. destruct (decide (p = q)) as [->|Hne].
  - rewrite lookup_insert_eq, bool_decide_true by done. done.
  - rewrite lookup_insert_ne, bool_decide_false by done. simpl. lia.
Qed.

Lemma counted_take dl run extra dj :
  counted dl run extra -> counted (takePeerToken dl (dj_peer dj)) run (dj :: extra).
Proof.
  intros [Hfd Hact Hq Hw]. split; try done. intros p. rewrite active_take, Hact. simpl.
  autorewrite with cnt. fold (onPeer p dj). lia.
Qed.

(** [freePeerToken] before its loop *)
Lemma active_release dl p q :
  active (set_active dl (if active dl p - 1 =? 0 then delete p (activePerPeer dl)
                         else <[p := active dl p - 1]> (activePerPeer dl))) q
  = active dl q - Z.b2z (bool_decide (p = q)).
Proof.
  unfold active at 1. simpl. destruct (decide (p = q)) as [->|Hne].
  - rewrite bool_decide_true by done.
    destruct (Z.eqb_spec (active dl q - 1) 0); simplify_map_eq; simpl; lia.
  - rewrite bool_decide_false by done.
    destruct (active dl p - 1 =? 0); simplify_map_eq; unfold active; simpl; lia.
Qed.

Lemma fdKept_refl dl dl' :
  fdConsuming dl' = fdConsuming dl -> fdLimit dl' = fdLimit dl -> perPeerLimit dl' = perPeerLimit dl ->
  waitingOnFd dl' = waitingOnFd dl -> fdKept dl dl'.
Proof. intros H1 H2 H3 H4. split; unfold fdBusy; rewrite ?H1, ?H2, ?H4; auto; lia. Qed.

Lemma fdKept_trans dl dl1 dl2 : fdKept dl dl1 -> fdKept dl1 dl2 -> fdKept dl dl2.
Proof.
  intros [] []. split; try lia; try congruence; auto.
  destruct kept_queue1 as [->|]; [destruct kept_queue0; [by left|right; lia]|right; lia].
Qed.

(** The queues after the first job [next] of its peer's queue was taken out. *)
Definition popQueue (m : gmap string (list dialJob)) (next : dialJob) (waitlist : list dialJob)
    : gmap string (list dialJob) :=
  match waitlist with [] => delete (dj_peer next) m | _ => <[dj_peer next := waitlist]> m end.

Lemma pop_queue dl run extra next waitlist :
  counted dl run extra -> waitingOnPeerLimit dl !! dj_peer next = Some (next :: waitlist) ->
  let m := popQueue (waitingOnPeerLimit dl) next waitlist in
  default [] (m !! dj_peer next) = waitlist
  /\ (forall q, is_Some (m !! q) -> is_Some (waitingOnPeerLimit dl !! q))
  /\ (forall q l, m !! q = Some l -> l ≠ [] /\ Forall (fun j => dj_peer j = q) l)
  /\ waiting dl ≡ₚ next :: waiting (set_waiting dl m).
Proof.
  intros Hc Hl. destruct (counted_queue _ _ _ Hc _ _ Hl) as [_ Hp].
  inversion Hp as [|?? _ Hrest]; subst; clear Hp. unfold waiting. simpl.
  rewrite (peerQueues_lookup (dj_peer next) (waitingOnPeerLimit dl)), Hl. simpl.
  destruct waitlist as [|x waitlist']; simpl.
  - split_and!; [by simplify_map_eq| | |solve_Permutation].
    + intros q [l Hs]. apply lookup_delete_Some in Hs as [_ Hs]. by eexists.
    + intros q l Hs. apply lookup_delete_Some in Hs as [_ Hs]. by apply (counted_queue _ _ _ Hc).
  - split_and!; [by simplify_map_eq| | |rewrite peerQueues_insert; solve_Permutation].
    + intros q [l Hs]. apply lookup_insert_Some in Hs as [[<- _]|[_ Hs]]; by eexists.
    + intros q l Hs. apply lookup_insert_Some in Hs as [[<- <-]|[_ Hs]]; [done|].
      by apply (counted_queue _ _ _ Hc).
Qed.

Lemma peerLoop_spec cancelled p waitlist dl run extra :
  counted dl run extra ->
  default [] (waitingOnPeerLimit dl !! p) = waitlist ->
  (forall q, active dl q + Z.b2z (bool_decide (p = q)) <= Z.max 0 (perPeerLimit dl)) ->
  (forall q, is_Some (waitingOnPeerLimit dl !! q) ->
    perPeerLimit dl <= active dl q + Z.b2z (bool_decide (p = q))) ->
  let '(dl', started) := peerLoop cancelled dl waitlist in
  counted dl' (run ++ started) extra /\ peersOk dl' /\ fdKept dl dl'
  /\ accounted cancelled (waiting dl) started (waiting dl').
Proof.
  revert dl. induction waitlist as [|next waitlist IH]; intros dl Hc Hq Hcap Hfull; cbn [peerLoop].
  { rewrite app_nil_r. split; [done|]. split; [|split; [by apply fdKept_refl|]].
    - intros q. split; [specialize (Hcap q); destruct (bool_decide _); simpl in *; lia|].
      intros Hs. specialize (Hfull q Hs). destruct (decide (p = q)) as [<-|].
      + destruct (counted_queue _ _ _ Hc p (default [] (waitingOnPeerLimit dl !! p))) as [? _].
        { by destruct Hs as [l ->]. } done.
      + rewrite bool_decide_false in Hfull by done. simpl in Hfull. lia.
    - exists []. by split. }
  assert (Hl : waitingOnPeerLimit dl !! p = Some (next :: waitlist)).
  { destruct (waitingOnPeerLimit dl !! p); simpl in Hq; congruence. }
  destruct (counted_queue _ _ _ Hc _ _ Hl) as [_ Hp].
  inversion Hp as [|?? Hnext Hrest]; subst; clear Hp.
  destruct (pop_queue dl run extra next waitlist Hc Hl) as (Hm1 & Hm2 & Hm3 & Hm4).
  fold (popQueue (waitingOnPeerLimit dl) next waitlist).
  set (m := popQueue (waitingOnPeerLimit dl) next waitlist) in *.
  assert (Hc' : counted (set_waiting dl m) run extra) by (destruct Hc; by split).
  destruct (cancelled next) eqn:Hcan.
  - specialize (IH (set_waiting dl m) Hc' Hm1 Hcap (fun q Hs => Hfull q (Hm2 q Hs))).
    destruct (peerLoop cancelled (set_waiting dl m) waitlist) as [dl' started].
    destruct IH as (H1 & H2 & H3 & H4). split; [done|]. split; [done|].
    split; [eapply fdKept_trans, H3; by apply fdKept_refl|].
    destruct H4 as (d & Hd & H4). exists (next :: d). split; [by constructor|].
    rewrite Hm4, H4. solve_Permutation.
  - pose proof (addCheckFdLimit_spec _ run extra next (counted_take _ _ _ _ Hc')) as Hadd.
    destruct (addCheckFdLimit _ next) as [dl' started].
    destruct Hadd as (H1 & H2 & H3 & H4 & H5). split; [done|]. split; [|split].
    + intros q. assert (Ha : active dl' q = active dl q + Z.b2z (bool_decide (dj_peer next = q))).
      { pose proof (active_take (set_waiting dl m) (dj_peer next) q) as Ha.
        unfold active in *. rewrite H3, Ha. done. }
      rewrite (kept_peerLimit _ _ H2), Ha, H4. split; [apply Hcap|]. intros Hs. by apply Hfull, Hm2.
    + eapply fdKept_trans, H2. by apply fdKept_refl.
    + exists []. split; [done|]. rewrite Hm4. rewrite <-H5. done.
Qed.

Lemma freePeerToken_spec cancelled dl run extra dj :
  counted dl run (dj :: extra) -> peersOk dl ->
  let '(dl', started) := freePeerToken cancelled dl dj in
  counted dl' (run ++ started) extra /\ peersOk dl' /\ fdKept dl dl'
  /\ accounted cancelled (waiting dl) started (waiting dl').
Proof.
  intros Hc Hp. unfold freePeerToken.
  set (dl0 := set_active dl _).
  assert (Ha : forall q, active dl0 q = active dl q - Z.b2z (bool_decide (dj_peer dj = q)))
    by apply active_release.
  assert (Hc0 : counted dl0 run extra).
  { destruct Hc as [Hfd Hact Hq Hw]. split; try done. intros q. rewrite Ha, Hact. simpl.
    autorewrite with cnt. fold (onPeer q dj). lia. }
  pose proof (peerLoop_spec cancelled (dj_peer dj) _ dl0 run extra Hc0 eq_refl) as Hl.
  destruct (peerLoop cancelled dl0 _) as [dl' started].
  destruct Hl as (H1 & H2 & H3 & H4).
  - intros q. rewrite Ha. destruct (Hp q). simpl. lia.
  - intros q Hs. rewrite Ha. destruct (Hp q). simpl in *. specialize (H0 Hs). lia.
  - split; [done|]. split; [done|]. split; [|done].
    eapply fdKept_trans, H3. by apply fdKept_refl.
Qed.

(** The loop of [freeFDToken] returns within its fuel; it starts at most one
    dial beyond those that find a free descriptor. *)
Lemma fdLoop_spec cancelled fuel dl run extra :
  counted dl run extra -> peersOk dl -> (length (waiting dl) <= fuel)%nat ->
  (waitingOnFd dl ≠ [] -> fdLimit dl <= fdConsuming dl + 1) ->
  exists dl' started, fdLoop fuel cancelled dl = Some (dl', started)
    /\ counted dl' (run ++ started) extra /\ peersOk dl' /\ fdBusy dl'
    /\ fdLimit dl' = fdLimit dl /\ perPeerLimit dl' = perPeerLimit dl
    /\ fdConsuming dl' <= Z.max (fdConsuming dl) (fdLimit dl) + 1
    /\ ((forall j, cancelled j = false) -> fdConsuming dl' <= fdConsuming dl + 1)
    /\ accounted cancelled (waiting dl) started (waiting dl').
Proof.
  revert dl run. induction fuel as [|fuel IH]; intros dl run Hc Hp Hfuel Hbusy; cbn [fdLoop];
    destruct (waitingOnFd dl) as [|next rest] eqn:Hw;
    try (unfold waiting in Hfuel; rewrite Hw in Hfuel; simpl in Hfuel; lia).
  1,2: exists dl, []; rewrite app_nil_r; split_and!; try done; try lia;
    [unfold fdBusy; by rewrite Hw | exists []; by split].
  assert (Hfd : usesFd next = true).
  { pose proof (counted_fdq _ _ _ Hc) as HF. rewrite Hw in HF. by inversion HF. }
  assert (Hwait : waiting dl = next :: waiting (set_fd dl (fdConsuming dl) rest))
    by (unfold waiting; simpl; by rewrite Hw).
  assert (Hact : forall q, active dl q = cnt (onPeer q) (run ++ rest ++ next :: extra)).
  { intros q. rewrite (counted_active _ _ _ Hc q), Hw. autorewrite with cnt. lia. }
  assert (Hrest : Forall (fun j => usesFd j = true) rest).
  { pose proof (counted_fdq _ _ _ Hc) as HF. rewrite Hw in HF. by inversion HF. }
  specialize (Hbusy ltac:(done)).
  destruct (cancelled next) eqn:Hcan.
  - assert (Hc0 : counted (set_fd dl (fdConsuming dl) rest) run (next :: extra))
      by (destruct Hc; by split).
    pose proof (freePeerToken_spec cancelled _ run extra next Hc0 Hp) as Hf.
    destruct (freePeerToken cancelled _ next) as [dl1 s1].
    destruct Hf as (H1 & H2 & H3 & H4). pose proof (accounted_length _ _ _ _ H4).
    destruct (IH dl1 (run ++ s1)) as (dl2 & s2 & -> & G1 & G2 & G3 & G4 & G5 & G6 & G7 & G8); try done.
    { rewrite Hwait in Hfuel. simpl in Hfuel. lia. }
    { intros _. rewrite (kept_fdLimit _ _ H3). pose proof (kept_grows _ _ H3). simpl in *. lia. }
    exists dl2, (s1 ++ s2). simpl. rewrite app_assoc.
    pose proof (kept_fdLimit _ _ H3). pose proof (kept_peerLimit _ _ H3).
    pose proof (kept_bound _ _ H3). simpl in *.
    split_and!; try done; try lia; try congruence.
    rewrite Hwait. destruct (accounted_trans _ _ _ _ _ _ H4 G8) as (d & Hd & Hperm).
    exists (next :: d). split; [by constructor|]. rewrite Hperm. solve_Permutation.
  - exists (set_fd dl (fdConsuming dl + 1) rest), [next].
    split_and!; try done; simpl; try lia.
    + destruct Hc as [Hc1 Hc2 Hc3 Hc4]. split; simpl; try done.
      * autorewrite with cnt. rewrite Hfd, <-Hc1. simpl. lia.
      * intros q. specialize (Hact q). unfold active in *. simpl. rewrite Hact.
        autorewrite with cnt. lia.
    + intros _. simpl. lia.
    + rewrite Hwait. exists []. by split.
Qed.

(** [finishedDial] returns; what it does to the state. *)
Lemma finishedDial_spec cancelled dl run1 dj run2 :
  counted dl (run1 ++ dj :: run2) [] -> peersOk dl -> fdBusy dl ->
  exists dl' started, finishedDial cancelled dl dj = Some (dl', started)
    /\ counted dl' ((run1 ++ run2) ++ started) [] /\ peersOk dl' /\ fdBusy dl'
    /\ fdLimit dl' = fdLimit dl /\ perPeerLimit dl' = perPeerLimit dl
    /\ fdConsuming dl' <= Z.max (fdConsuming dl) (fdLimit dl + 1)
    /\ ((forall j, cancelled j = false) -> fdConsuming dl' <= Z.max (fdConsuming dl) (fdLimit dl))
    /\ accounted cancelled (waiting dl) started (waiting dl').
Proof.
  intros Hc Hp Hb. unfold finishedDial. fold (usesFd dj).
  assert (Hact : forall q, active dl q = cnt (onPeer q) ((run1 ++ run2) ++ waitingOnFd dl ++ [dj])).
  { intros q. rewrite (counted_active _ _ _ Hc q). autorewrite with cnt. lia. }
  pose proof (counted_fd _ _ _ Hc) as Hfd. autorewrite with cnt in Hfd.
  assert (exists dl1 s1, (if usesFd dj then freeFDToken cancelled dl else Some (dl, [])) = Some (dl1, s1)
    /\ counted dl1 ((run1 ++ run2) ++ s1) [dj] /\ peersOk dl1 /\ fdBusy dl1
    /\ fdLimit dl1 = fdLimit dl /\ perPeerLimit dl1 = perPeerLimit dl
    /\ fdConsuming dl1 <= Z.max (fdConsuming dl) (fdLimit dl + 1)
    /\ ((forall j, cancelled j = false) -> fdConsuming dl1 <= fdConsuming dl)
    /\ accounted cancelled (waiting dl) s1 (waiting dl1))
    as (dl1 & s1 & -> & H1 & H2 & H3 & H4 & H5 & H6 & H7 & H8).
  { destruct (usesFd dj) eqn:Hu; simpl in Hfd.
    - destruct (fdLoop_spec cancelled (length (waiting dl)) (set_fd dl (fdConsuming dl - 1) (waitingOnFd dl))
        (run1 ++ run2) [dj]) as (dl1 & s1 & E & H1 & H2 & H3 & H4 & H5 & H6 & H7 & H8); try done.
      + destruct Hc. split; simpl; try done. autorewrite with cnt. lia.
      + intros Hne. specialize (Hb Hne). simpl. lia.
      + exists dl1, s1. simpl in *. split_and!; try done; try lia. intros Hn. specialize (H7 Hn). lia.
    - exists dl, []. rewrite app_nil_r. split_and!; try done; try lia; [|exists []; by split].
      destruct Hc. split; try done. autorewrite with cnt. lia. }
  simpl. pose proof (freePeerToken_spec cancelled dl1 _ [] dj H1 H2) as Hf.
  destruct (freePeerToken cancelled dl1 dj) as [dl2 s2]. destruct Hf as (G1 & G2 & G3 & G4).
  exists dl2, (s1 ++ s2). rewrite app_assoc. destruct G3.
  split_and!; try done; try lia; try congruence.
  - auto.
  - intros Hn. specialize (H7 Hn). lia.
  - by eapply accounted_trans.
Qed.

Lemma AddDialJob_spec dl run dj :
  counted dl run [] -> peersOk dl ->
  let '(dl', started) := AddDialJob dl dj in
  counted dl' (run ++ started) [] /\ peersOk dl' /\ fdKept dl dl'
  /\ dj :: waiting dl ≡ₚ started ++ waiting dl'.
Proof.
  intros Hc Hp. unfold AddDialJob, addCheckPeerLimit.
  destruct (Z.leb_spec (perPeerLimit dl) (active dl (dj_peer dj))).
  - rewrite app_nil_r. split; [|split; [|split; [by apply fdKept_refl|]]].
    + destruct Hc as [? ? ? Hq]. split; try done. simpl. intros p l Hs.
      apply lookup_insert_Some in Hs as [[<- <-]|[_ Hs]]; [|by apply Hq].
      split; [by destruct (default _ _)|]. apply Forall_app. split; [|by constructor].
      destruct (waitingOnPeerLimit dl !! dj_peer dj) eqn:E; simpl; [|constructor]. by apply (Hq _ _ E).
    + intros q. split; [apply Hp|]. simpl. intros [l Hs].
      apply lookup_insert_Some in Hs as [[<- _]|[_ Hs]]; [done|]. by apply Hp; eexists.
    + unfold waiting. simpl. rewrite peerQueues_insert, (peerQueues_lookup (dj_peer dj)).
      solve_Permutation.
  - pose proof (addCheckFdLimit_spec _ run [] dj (counted_take _ _ _ _ Hc)) as Ha.
    destruct (addCheckFdLimit _ dj) as [dl' started]. destruct Ha as (H1 & H2 & H3 & H4 & H5).
    split; [done|]. split; [|split; [eapply fdKept_trans, H2; by apply fdKept_refl|done]].
    intros q. pose proof (active_take dl (dj_peer dj) q) as Hq. unfold active at 1 in Hq.
    unfold active. rewrite H3, H4, Hq, (kept_peerLimit _ _ H2). simpl.
    destruct (Hp q) as [Hp1 Hp2]. destruct (decide (dj_peer dj = q)) as [<-|].
    + rewrite bool_decide_true by done. simpl. split; [lia|]. intros Hs. specialize (Hp2 Hs). lia.
    + rewrite bool_decide_false by done. simpl. split; [lia|]. intros Hs. specialize (Hp2 Hs). lia.
Qed.

(** ** The invariant of the reachable states *)
Definition noCancel (cancelled : dialJob -> bool) : Prop := forall j, cancelled j = false.
Definition anyCancel (cancelled : dialJob -> bool) : Prop := True.

Record dialInv (slack fd peer : Z) (w : dialWorld) : Prop := {
  inv_counted : counted (limiter w) (running w) [];
  inv_peers : peersOk (limiter w);
  inv_busy : fdBusy (limiter w);
  inv_fdLimit : fdLimit (limiter w) = fd;
  inv_peerLimit : perPeerLimit (limiter w) = peer;
  inv_fdBound : fdConsuming (limiter w) <= Z.max 0 fd + slack }.

Lemma dialInv_step slack fd peer cancelled w w' :
  0 <= slack -> (slack = 0 -> noCancel cancelled) ->
  dialInv slack fd peer w -> dialStep cancelled w w' -> dialInv slack fd peer w'.
Proof.
  intros Hs Hn [Hc Hp Hb Hfd Hpe Hbound] Hstep. destruct Hstep; simpl in *.
  - pose proof (AddDialJob_spec dl run dj Hc Hp) as Ha. rewrite H in Ha.
    destruct Ha as (H1 & H2 & [] & _). split; simpl; auto; lia.
  - destruct (finishedDial_spec cancelled dl run1 dj run2 Hc Hp Hb)
      as (dl1 & s1 & E & H1 & H2 & H3 & H4 & H5 & H6 & H7 & _).
    rewrite E in H. simplify_eq. split; simpl; try done; try lia.
    destruct (decide (slack = 0)) as [->|]; [specialize (H7 (Hn eq_refl)); lia|lia].
  - split; simpl; auto.
    + destruct Hc as [? ? ? Hq]. split; try done. simpl. intros q l Hl.
      apply lookup_delete_Some in Hl as [_ Hl]. by apply Hq.
    + intros q. split; [apply Hp|]. simpl. intros [l Hl].
      apply lookup_delete_Some in Hl as [_ Hl]. by apply Hp; eexists.
Qed.

Lemma dialInv_new slack fd peer :
  0 <= slack -> dialInv slack fd peer (mkDialWorld (newDialLimiterWithParams fd peer) []).
Proof.
  intros Hs. split; simpl.
  - split; simpl; [done|done|constructor|]. intros q l Hl. by rewrite lookup_empty in Hl.
  - intros q. unfold active. simpl. rewrite !lookup_empty. simpl. split; [lia|]. by intros [? ?].
  - intros Hne. by destruct Hne.
  - done.
  - done.
  - lia.
Qed.

Lemma dialReach_inv slack allowed fd peer w :
  0 <= slack -> (slack = 0 -> forall c, allowed c -> noCancel c) ->
  dialReach allowed fd peer w -> dialInv slack fd peer w.
Proof.
  intros Hs Hn. induction 1 as [|c w w' Hr IH Ha Hst]; [by apply dialInv_new|].
  eapply dialInv_step; eauto.
Qed.

(** ** Properties *)
(** C10: in every reachable state the limiter's counters are exact and within
    their limits: [fdConsuming] is the number of running dials that use a file
    descriptor, [activePerPeer] counts the running dials of a peer and those
    queued for a descriptor, and never exceeds the limit per peer.  The number
    of descriptors exceeds its limit by at most one, and not at all when no
    queued dial is cancelled. *)
Theorem dial_tokens_exact allowed fd peer w :
  dialReach allowed fd peer w ->
  fdConsuming (limiter w) = cnt usesFd (running w)
  /\ (forall p, active (limiter w) p = cnt (onPeer p) (running w ++ waitingOnFd (limiter w))
        /\ active (limiter w) p <= Z.max 0 peer)
  /\ fdConsuming (limiter w) <= Z.max 0 fd + 1
  /\ ((forall c, allowed c -> noCancel c) -> fdConsuming (limiter w) <= Z.max 0 fd).
Proof.
  intros Hr. destruct (dialReach_inv 1 allowed fd peer w) as [Hc Hp Hb Hfd Hpe Hbound]; [lia|lia|done|].
  split; [apply Hc|]. split; [|split; [done|]].
  - intros p. split; [|rewrite <-Hpe; apply Hp].
    rewrite (counted_active _ _ _ Hc p). by rewrite app_nil_r.
  - intros Hn. destruct (dialReach_inv 0 allowed fd peer w) as [_ _ _ _ _ H]; [lia|auto|done|lia].
Qed.

(** A run in which dials only finish; [gone] holds of the jobs whose contexts
    are found cancelled, [started] are the dials started on the way. *)
Inductive finishRun (gone : dialJob -> Prop) : nat -> dialWorld -> list dialJob -> dialWorld -> Prop :=
  | run_nil w : finishRun gone 0 w [] w
  | run_cons n cancelled dl run1 dj run2 dl' s s' w :
      (forall j, cancelled j = true -> gone j) ->
      finishedDial cancelled dl dj = Some (dl', s) ->
      finishRun gone n (mkDialWorld dl' ((run1 ++ run2) ++ s)) s' w ->
      finishRun gone (S n) (mkDialWorld dl (run1 ++ dj :: run2)) (s ++ s') w.

Lemma idle_nothing_waits slack fd peer w :
  dialInv slack fd peer w -> 0 < fd -> 0 < peer -> running w = [] -> waiting (limiter w) = [].
Proof.
  intros [Hc Hp Hb <- <- _] Hf Hpe Hrun. unfold waiting.
  pose proof (counted_fd _ _ _ Hc) as E. rewrite Hrun in E. autorewrite with cnt in E.
  assert (Hq : waitingOnFd (limiter w) = []).
  { destruct (waitingOnFd (limiter w)) eqn:Hw; [done|]. specialize (Hb ltac:(by rewrite Hw)). lia. }
  assert (Hm : waitingOnPeerLimit (limiter w) = ∅).
  { apply map_empty. intros p. apply eq_None_not_Some. intros Hs. apply (proj2 (Hp p)) in Hs.
    rewrite (counted_active _ _ _ Hc p), Hrun, Hq in Hs. simpl in Hs. autorewrite with cnt in Hs. lia. }
  rewrite Hq, Hm. done.
Qed.

Lemma finishRun_spec gone slack fd peer n w started w' :
  1 <= slack -> dialInv slack fd peer w -> finishRun gone n w started w' ->
  dialInv slack fd peer w'
  /\ (n + length (running w' ++ waiting (limiter w')) <= length (running w ++ waiting (limiter w)))%nat
  /\ exists dropped, Forall gone dropped
       /\ waiting (limiter w) ≡ₚ started ++ dropped ++ waiting (limiter w').
Proof.
  intros Hs Hi Hrun. induction Hrun as [w|n cancelled dl run1 dj run2 dl' s s' w Hgone E Hrun IH].
  { split; [done|]. split; [lia|]. exists []. by split. }
  assert (Hi' : dialInv slack fd peer (mkDialWorld dl' ((run1 ++ run2) ++ s))).
  { eapply dialInv_step; [| |exact Hi|by constructor]; lia. }
  destruct (IH Hi') as (H1 & H2 & d2 & Hd2 & H3).
  destruct Hi as [Hc Hp Hb _ _ _].
  destruct (finishedDial_spec cancelled dl run1 dj run2 Hc Hp Hb) as (dl1 & s1 & E1 & _ & _ & _ & _ & _ & _ & _ & Hacc).
  rewrite E in E1. injection E1 as <- <-. split; [done|]. simpl in *.
  pose proof (accounted_length _ _ _ _ Hacc) as Hlen. destruct Hacc as (d1 & Hd1 & Hacc). split.
  - rewrite !length_app in *. simpl. lia.
  - exists (d1 ++ d2). split.
    + apply Forall_app. split; [|done]. eapply Forall_impl; [done|]. auto.
    + rewrite Hacc, H3. solve_Permutation.
Qed.

(** C11: no dial waits for ever.  When dials finish and none is added, every run
    of the limiter is at most as long as the number of dials in it and can
    go on while one is running; when it ends nothing waits, and every job that
    waited at its start was started or found cancelled. *)
Theorem dial_limiter_drains gone fd peer w n started w' :
  dialReach anyCancel fd peer w -> 0 < fd -> 0 < peer -> finishRun gone n w started w' ->
  (n <= length (running w ++ waiting (limiter w)))%nat
  /\ (forall cancelled run1 dj run2, running w' = run1 ++ dj :: run2 ->
        exists dl' s, finishedDial cancelled (limiter w') dj = Some (dl', s))
  /\ (running w' = [] -> waiting (limiter w') = [] /\
        exists dropped, Forall gone dropped /\ waiting (limiter w) ≡ₚ started ++ dropped).
Proof.
  intros Hr Hf Hp Hrun. assert (Hi : dialInv 1 fd peer w) by (apply (dialReach_inv 1 anyCancel); [lia|lia|done]).
  destruct (finishRun_spec gone 1 fd peer n w started w') as (Hi' & Hlen & d & Hd & Hperm); [lia|done|done|].
  split; [rewrite !length_app in *; lia|]. split.
  - intros cancelled run1 dj run2 E. destruct Hi' as [Hc Hpe Hb _ _ _]. rewrite E in Hc.
    destruct (finishedDial_spec cancelled _ _ _ _ Hc Hpe Hb) as (dl' & s & ? & _). eauto.
  - intros E. rewrite (idle_nothing_waits 1 fd peer w') in * by done.
    split; [done|]. exists d. split; [done|]. by rewrite app_nil_r in Hperm.
Qed.

(** ** A limiter with one descriptor and one dial per peer *)
Module DialExample.
Definition tcp : Protocol := mkProtocol [] P_TCP [Byte.x06] 16 false (Some TranscoderPort).
Definition tcpAddr : Multiaddr := [mkComponent [Byte.x06; Byte.x1f; Byte.x90] (Some tcp) 1].
Definition job (n : nat) (p : string) : dialJob := mkDialJob n tcpAddr p.
(** [R] runs, [A] and [B] wait for its descriptor, [C] for the token of [A]. *)
Definition R : dialJob := job 0 "r".
Definition A : dialJob := job 1 "a".
Definition C : dialJob := job 2 "a".
Definition B : dialJob := job 3 "b".
Definition enqueue (w : dialWorld) (j : dialJob) : dialWorld :=
  let '(dl, s) := AddDialJob (limiter w) j in mkDialWorld dl (running w ++ s).
Definition full : dialWorld :=
  foldl enqueue (mkDialWorld (newDialLimiterWithParams 1 1) []) [R; A; C; B].
Definition onlyA (j : dialJob) : bool := bool_decide (dj_id j = 1%nat).
Definition none (j : dialJob) : bool := false.
Definition finish (cancelled : dialJob -> bool) : dialLimiter * list dialJob :=
  default (limiter full, []) (finishedDial cancelled (limiter full) R).
Definition after (cancelled : dialJob -> bool) : dialWorld :=
  mkDialWorld (finish cancelled).1 ([] ++ (finish cancelled).2).

Lemma enqueue_step c w j : dialStep c w (enqueue w j).
Proof.
  destruct w as [dl run]. unfold enqueue. simpl. destruct (AddDialJob dl j) as [dl' s] eqn:E.
  by constructor 1 with j.
Qed.

Lemma adds_reached allowed c fd peer w js :
  allowed c -> dialReach allowed fd peer w -> dialReach allowed fd peer (foldl enqueue w js).
Proof.
  intros Hc. revert w. induction js as [|j js IH]; intros w Hw; [done|].
  simpl. apply IH. econstructor; [done|done|apply enqueue_step].
Qed.

Lemma full_reached (allowed : (dialJob -> bool) -> Prop) : allowed none -> dialReach allowed 1 1 full.
Proof. intros Hn. apply (adds_reached allowed none); [done|constructor]. Qed.

Lemma finish_step c : finishedDial c (limiter full) R = Some (finish c) -> dialStep c full (after c).
Proof.
  intros E. change full with (mkDialWorld (limiter full) ([] ++ R :: [])).
  unfold after. destruct (finish c) as [dl s]. by apply step_finish with (run1 := []) (run2 := []) in E.
Qed.

Lemma after_reached (allowed : (dialJob -> bool) -> Prop) c :
  allowed none -> allowed c -> finishedDial c (limiter full) R = Some (finish c) ->
  dialReach allowed 1 1 (after c).
Proof. intros Hn Hc E. eapply reach_step; [by apply full_reached|done|by apply finish_step]. Qed.
End DialExample.

Lemma dial_tokens_exact_witness :
  length (running (DialExample.after DialExample.none)) = 1%nat
  /\ fdConsuming (limiter (DialExample.after DialExample.none)) <= 1.
Proof.
  split; [reflexivity|].
  apply (dial_tokens_exact noCancel 1 1 (DialExample.after DialExample.none)).
  - apply DialExample.after_reached; [by intros j|by intros j|reflexivity].
  - by intros c.
Defined.

Lemma dial_limiter_drains_witness :
  exists s dl, finishedDial DialExample.none (limiter DialExample.full) DialExample.R = Some (dl, s) /\ length s = 1%nat /\ (1 <= 4)%nat.
Proof.
  exists (DialExample.finish DialExample.none).2, (DialExample.finish DialExample.none).1.
  split; [reflexivity|]. split; [reflexivity|].
  apply (dial_limiter_drains (fun _ => True) 1 1 DialExample.full 1
    ((DialExample.finish DialExample.none).2 ++ []) (DialExample.after DialExample.none)).
  - by apply DialExample.full_reached.
  - lia.
  - lia.
  - apply run_cons with (run1 := []) (run2 := []) (cancelled := DialExample.none)
      (dl' := (DialExample.finish DialExample.none).1); [done|reflexivity|constructor].
Defined.

(** The limit on file descriptors can be exceeded.  When the first dial in
    the queue is cancelled, giving its peer token back starts a dial of the
    same peer, which takes the freed descriptor; the loop then goes on and
    starts the next queued dial as well.  With one descriptor allowed, two
    dials that use one are running. *)
Theorem fd_limit_exceeded :
  exists w, dialReach anyCancel 1 1 w /\ fdLimit (limiter w) = 1
    /\ fdConsuming (limiter w) = 2 /\ cnt usesFd (running w) = 2.
Proof.
  exists (DialExample.after DialExample.onlyA). split.
  - by apply DialExample.after_reached; [done|done|reflexivity].
  - split; [reflexivity|]. split; reflexivity.
Qed.
