(* ===== verification/Bitmask.v ===== *)
(** * Bitmasks (go-libp2p-blossomsub/pubsub.go, SliceBitmask)

    BlossomSub addresses messages with bitmasks.  A bitmask is sliced into the
    bitmasks of its single bits, and the meshes, subscriptions and caches are
    kept per slice.  The optimised routine is proved to return exactly the
    single-bit bitmasks of its argument. *)
From Stdlib Require Import ZArith Lia.
From stdpp Require Import base tactics list numbers option gmap.
From S2P Require Import Prelude GoBytes.
Local Open Scope Z_scope.
Local Notation x00 := Byte.x00.

(** ** The code *)
(** [make([]byte, n)] *)
Definition zeros (n : nat) : bytes := replicate n x00.

(** The values the loop body writes to [slice[i]] for the byte [b]. *)
Definition slicePatterns (b : byte) : list byte :=
  if b2z b =? 0 then []
  else if Z.land (b2z b) (b2z b - 1) =? 0 then [b]
  else omap (fun j => if Z.land (Z.shiftr (b2z b) j) 1 =? 1 then Some (z2b (Z.shiftl 1 j)) else None)
         [7; 6; 5; 4; 3; 2; 1; 0].

Definition SliceBitmask (bitmask : bytes) : list bytes :=
  if bool_decide (bitmask = zeros (length bitmask)) then [bitmask]
  else concat (imap (fun i b => (fun v => <[i := v]> (zeros (length bitmask))) <$> slicePatterns b) bitmask).

(** ** The specification *)
Definition bitAt (m : bytes) (i : nat) (j : Z) : bool :=
  match m !! i with Some b => Z.testbit (b2z b) j | None => false end.

(** The bitmask of length [n] with the bit [j] of its byte [i] alone. *)
Definition oneBit (n i : nat) (j : Z) : bytes := <[i := z2b (2 ^ j)]> (zeros n).

Definition bits : list Z := [7; 6; 5; 4; 3; 2; 1; 0].

Lemma slicePatterns_bits b :
  slicePatterns b = (fun j => z2b (2 ^ j)) <$> filter (fun j => Z.testbit (b2z b) j = true) bits.
Proof.
  assert (H : forall b, bool_decide (slicePatterns b =
    (fun j => z2b (2 ^ j)) <$> filter (fun j => Z.testbit (b2z b) j = true) bits) = true).
  { apply byte_forall. vm_compute. reflexivity. }
  apply (bool_decide_eq_true_1 _), H.
Qed.

Lemma elem_of_bits j : j ∈ bits <-> 0 <= j < 8.
Proof. unfold bits. rewrite !elem_of_cons, elem_of_nil. lia. Qed.

Lemma testbit_pow2 j k : 0 <= j < 8 -> 0 <= k < 8 -> Z.testbit (b2z (z2b (2 ^ j))) k = bool_decide (j = k).
Proof.
  intros Hj Hk. rewrite b2z_z2b, Z.mod_small.
  - rewrite Z.pow2_bits_eqb by lia. destruct (Z.eqb_spec j k); by case_bool_decide.
  - pose proof (Z.pow_lt_mono_r 2 j 8 ltac:(lia) ltac:(lia) ltac:(lia)). lia.
Qed.

Lemma oneBit_bitAt n i j i' j' :
  (i < n)%nat -> 0 <= j < 8 -> 0 <= j' < 8 ->
  bitAt (oneBit n i j) i' j' = bool_decide (i = i' /\ j = j').
Proof.
  intros Hi Hj Hj'. unfold bitAt, oneBit, zeros. destruct (decide (i = i')) as [<-|Hne].
  - rewrite list_lookup_insert_eq by (by rewrite length_replicate). rewrite testbit_pow2 by done.
    repeat case_bool_decide; tauto.
  - rewrite list_lookup_insert_ne, bool_decide_false by (done || tauto).
    destruct (replicate n x00 !! i') eqn:E; [|done].
    apply lookup_replicate in E as [-> _]. apply Z.testbit_0_l.
Qed.

Lemma oneBit_inj n i j i' j' :
  (i < n)%nat -> 0 <= j < 8 -> 0 <= j' < 8 -> oneBit n i j = oneBit n i' j' -> i = i' /\ j = j'.
Proof.
  intros Hi Hj Hj' E. destruct (decide (i' < n)%nat) as [Hi'|Hi'].
  - assert (H : bitAt (oneBit n i j) i' j' = true).
    { rewrite E, oneBit_bitAt by done. by apply bool_decide_eq_true_2. }
    rewrite oneBit_bitAt in H by done. by apply bool_decide_eq_true in H.
  - assert (H : bitAt (oneBit n i j) i j = true).
    { rewrite oneBit_bitAt by done. by apply bool_decide_eq_true_2. }
    rewrite E in H. unfold oneBit, bitAt, zeros in H.
    rewrite list_insert_ge in H by (rewrite length_replicate; lia).
    destruct (replicate n x00 !! i) eqn:E'; [|done].
    apply lookup_replicate in E' as [-> _]. by rewrite Z.testbit_0_l in H.
Qed.

(** The slices of a bitmask that is not zero. *)
Definition slices (m : bytes) : list bytes :=
  seq 0 (length m) ≫= fun i => oneBit (length m) i <$> filter (fun j => bitAt m i j = true) bits.

Lemma imap_seq {A B} (f : nat -> A -> B) (g : nat -> B) (l : list A) :
  (forall i x, l !! i = Some x -> f i x = g i) -> imap f l = g <$> seq 0 (length l).
Proof.
  intros H. apply list_eq. intros i. rewrite list_lookup_imap, list_lookup_fmap.
  destruct (l !! i) as [x|] eqn:E; simpl.
  - rewrite lookup_seq_lt by (by eapply lookup_lt_Some). simpl. by rewrite (H _ _ E).
  - by rewrite lookup_seq_ge by (by apply lookup_ge_None).
Qed.

Lemma SliceBitmask_slices m :
  SliceBitmask m = if bool_decide (m = zeros (length m)) then [m] else slices m.
Proof.
  unfold SliceBitmask, slices. case_bool_decide; [done|].
  rewrite (imap_seq _ (fun i => oneBit (length m) i <$> filter (fun j => bitAt m i j = true) bits)).
  - generalize (seq 0 (length m)). intros l. induction l as [|i l IH]; [done|].
    cbn. f_equal. exact IH.
  - intros i b Hb. rewrite slicePatterns_bits, <-list_fmap_compose. unfold bitAt. by rewrite Hb.
Qed.

Lemma elem_of_slices m s :
  s ∈ slices m <-> exists i j, 0 <= j < 8 /\ bitAt m i j = true /\ s = oneBit (length m) i j.
Proof.
  unfold slices. rewrite list_elem_of_bind. split.
  - intros (i & (j & -> & (Hb & Hj)%list_elem_of_filter)%list_elem_of_fmap & _).
    apply elem_of_bits in Hj. eauto.
  - intros (i & j & Hj & Hb & ->). exists i. split.
    + apply list_elem_of_fmap. exists j. split; [done|]. apply list_elem_of_filter. by rewrite elem_of_bits.
    + apply elem_of_seq. split; [lia|]. unfold bitAt in Hb.
      destruct (m !! i) eqn:E; [|done]. by apply lookup_lt_Some in E.
Qed.

Lemma NoDup_slices m : NoDup (slices m).
Proof.
  unfold slices. apply NoDup_bind; [| |apply NoDup_seq].
  - intros i i' s Hi%elem_of_seq _ (j & -> & (_ & Hj)%list_elem_of_filter)%list_elem_of_fmap
      (j' & E & (_ & Hj')%list_elem_of_filter)%list_elem_of_fmap.
    apply elem_of_bits in Hj, Hj'. by apply oneBit_inj in E as [-> _]; [|lia..].
  - intros i Hi%elem_of_seq. apply NoDup_fmap_2_strong.
    + intros j j' (_ & Hj)%list_elem_of_filter (_ & Hj')%list_elem_of_filter E.
      apply elem_of_bits in Hj, Hj'. by apply oneBit_inj in E as [_ ->]; [|lia..].
    + apply NoDup_filter. unfold bits. apply (bool_decide_eq_true_1 (NoDup _)). reflexivity.
Qed.

Lemma zero_bitAt n i j : bitAt (zeros n) i j = false.
Proof.
  unfold bitAt, zeros. destruct (replicate n x00 !! i) eqn:E; [|done].
  apply lookup_replicate in E as [-> _]. apply Z.testbit_0_l.
Qed.

(** [SliceBitmask] returns a bitmask of zeros as it is, and otherwise the
    single-bit bitmasks of the argument, each once: their bits together are the
    bits of the argument, and every slice has its length. *)
Theorem SliceBitmask_spec m :
  NoDup (SliceBitmask m)
  /\ Forall (fun s => length s = length m) (SliceBitmask m)
  /\ (m = zeros (length m) -> SliceBitmask m = [m])
  /\ (m <> zeros (length m) -> forall s, s ∈ SliceBitmask m <->
        exists i j, 0 <= j < 8 /\ bitAt m i j = true /\ s = oneBit (length m) i j)
  /\ (forall i j, 0 <= j < 8 -> bitAt m i j = true <-> exists s, s ∈ SliceBitmask m /\ bitAt s i j = true).
Proof.
  rewrite SliceBitmask_slices. case_bool_decide as Hz.
  - split_and!; [apply NoDup_singleton|by constructor|done|done|].
    intros i j _. split; [intros Hb; exists m; split; [set_solver|done]|].
    intros (s & ->%list_elem_of_singleton & Hs). done.
  - split_and!; [apply NoDup_slices| |done|intros _ s; apply elem_of_slices|].
    + apply Forall_forall. intros s (i & j & _ & _ & ->)%elem_of_slices.
      unfold oneBit, zeros. by rewrite length_insert, length_replicate.
    + intros i j Hj. assert (Hlt : forall i' j', bitAt m i' j' = true -> (i' < length m)%nat).
      { unfold bitAt. intros i' j' Hb. destruct (m !! i') eqn:E; [|done]. by apply lookup_lt_Some in E. }
      split.
      * intros Hb. exists (oneBit (length m) i j). rewrite elem_of_slices, oneBit_bitAt by eauto.
        split; [eauto 6|]. by apply bool_decide_eq_true_2.
      * intros (s & (i' & j' & Hj' & Hb & ->)%elem_of_slices & Hs).
        rewrite oneBit_bitAt in Hs by eauto. apply bool_decide_eq_true in Hs as [<- <-]. done.
Qed.

(** There is always a slice. *)
Lemma SliceBitmask_nonempty m : SliceBitmask m <> [].
Proof.
  rewrite SliceBitmask_slices. case_bool_decide as Hz; [done|]. intros E. apply Hz.
  apply list_eq. intros i. unfold zeros. destruct (m !! i) as [b|] eqn:Hb.
  - rewrite lookup_replicate_2 by (by eapply lookup_lt_Some). f_equal. apply b2z_inj.
    apply Z.bits_inj_iff'. intros j Hj. rewrite Z.testbit_0_l.
    pose proof (b2z_range b). destruct (decide (j < 8)).
    + assert (H0 : oneBit (length m) i j ∉ slices m) by (rewrite E; set_solver).
      rewrite elem_of_slices in H0. apply not_true_is_false. intros Ht. apply H0.
      exists i, j. unfold bitAt. rewrite Hb. split; [lia|done].
    + rewrite <-(Z.mod_small (b2z b) (2 ^ 8)) by lia. apply Z.mod_pow2_bits_high. lia.
  - symmetry. apply lookup_ge_None. rewrite length_replicate. by apply lookup_ge_None.
Qed.
