(* ===== verification/BlsRpc.v ===== *)
(** * RPC envelopes of BlossomSub (go-libp2p-blossomsub/comm.go, pb/rpc.proto,
      and appendOrMergeRPC of blossomsub.go)

    The messages peers exchange, the constructors of an envelope, and the
    routine that merges envelopes and splits them at a size limit.  The size of
    an envelope is computed by the protobuf library and is a parameter. *)
From Stdlib Require Import ZArith Lia.
From stdpp Require Import base tactics list numbers option gmap.
From S2P Require Import Prelude GoBytes.
Local Open Scope Z_scope.

(** ** Messages *)
Abbreviation PeerID := bytes.

Record pbMessage := mkPbMessage {
  pm_from : bytes; pm_data : bytes; pm_seqno : bytes; pm_bitmask : bytes;
  pm_signature : bytes; pm_key : bytes }.
Record SubOpts := mkSubOpts { Subscribe : bool; so_bitmask : bytes }.
Record ControlIHave := mkIHave { ih_bitmask : bytes; ih_messageIDs : list bytes }.
Record ControlIWant := mkIWant { iw_messageIDs : list bytes }.
Record ControlGraft := mkGraft { gr_bitmask : bytes }.
Record PeerInfo := mkPeerInfo { pi_peerID : PeerID; pi_signedPeerRecord : bytes }.
Record ControlPrune := mkPrune { pr_bitmask : bytes; pr_peers : list PeerInfo; pr_backoff : Z }.
Record ControlIDontWant := mkIDontWant { id_messageIDs : list bytes }.
Record ControlMessage := mkControl {
  Ihave : list ControlIHave;
  Iwant : list ControlIWant;
  Graft : list ControlGraft;
  Prune : list ControlPrune;
  Idontwant : list ControlIDontWant }.
Record RPC := mkRPC {
  Subscriptions : list SubOpts;
  Publish : list pbMessage;
  Control : option ControlMessage;
  rpc_from : PeerID }.

Definition emptyControl : ControlMessage := mkControl [] [] [] [] [].
Definition emptyRPC (p : PeerID) : RPC := mkRPC [] [] None p.

Definition rpcWithSubs (subs : list SubOpts) : RPC := mkRPC subs [] None [].
Definition rpcWithMessages (msgs : list pbMessage) : RPC := mkRPC [] msgs None [].
Definition rpcWithControl (msgs : list pbMessage) (ihave : list ControlIHave) (iwant : list ControlIWant)
    (graft : list ControlGraft) (prune : list ControlPrune) (idontwant : list ControlIDontWant) : RPC :=
  mkRPC [] msgs (Some (mkControl ihave iwant graft prune idontwant)) [].

(** [rpc.GetControl().GetX()] of a missing control message is empty. *)
Definition ctl (r : RPC) : ControlMessage := default emptyControl (Control r).

Definition set_subs (r : RPC) (l : list SubOpts) : RPC := mkRPC l (Publish r) (Control r) (rpc_from r).
Definition set_publish (r : RPC) (l : list pbMessage) : RPC := mkRPC (Subscriptions r) l (Control r) (rpc_from r).
Definition set_control (r : RPC) (c : option ControlMessage) : RPC :=
  mkRPC (Subscriptions r) (Publish r) c (rpc_from r).
Definition set_ihave (c : ControlMessage) (l : list ControlIHave) : ControlMessage :=
  mkControl l (Iwant c) (Graft c) (Prune c) (Idontwant c).
Definition set_iwant (c : ControlMessage) (l : list ControlIWant) : ControlMessage :=
  mkControl (Ihave c) l (Graft c) (Prune c) (Idontwant c).
Definition set_graft (c : ControlMessage) (l : list ControlGraft) : ControlMessage :=
  mkControl (Ihave c) (Iwant c) l (Prune c) (Idontwant c).
Definition set_prune (c : ControlMessage) (l : list ControlPrune) : ControlMessage :=
  mkControl (Ihave c) (Iwant c) (Graft c) l (Idontwant c).

(** ** Merging and splitting *)
Class ProtoSize := Size : RPC -> Z.

Section split.
Context `{PS : ProtoSize} (limit : Z).

(** The envelopes before the last one, and the last one, which the loops
    extend in place. *)
Definition builder : Type := list RPC * RPC.

(** The step every loop repeats: [cand] is the last envelope with one more
    entry; when it is over the limit the entry is taken out again and [fresh],
    a new envelope with that entry alone, becomes the last one. *)
Definition tryAppend (o : builder) (cand fresh : RPC) : builder :=
  if limit <? Size cand then (o.1 ++ [o.2], fresh) else (o.1, cand).

Definition addPublish (from : PeerID) (o : builder) (msg : pbMessage) : builder :=
  tryAppend o (set_publish o.2 (Publish o.2 ++ [msg])) (set_publish (emptyRPC from) [msg]).

Definition addSub (from : PeerID) (o : builder) (sub : SubOpts) : builder :=
  tryAppend o (set_subs o.2 (Subscriptions o.2 ++ [sub])) (set_subs (emptyRPC from) [sub]).

Definition withControl (from : PeerID) (c : ControlMessage) : RPC := set_control (emptyRPC from) (Some c).

Definition addControl (from : PeerID) (o : builder) : builder :=
  match Control o.2 with
  | None => tryAppend o (set_control o.2 (Some emptyControl)) (withControl from emptyControl)
  | Some _ => o
  end.

Definition addGraft (from : PeerID) (o : builder) (g : ControlGraft) : builder :=
  tryAppend o (set_control o.2 (Some (set_graft (ctl o.2) (Graft (ctl o.2) ++ [g]))))
    (withControl from (set_graft emptyControl [g])).

Definition addPrune (from : PeerID) (o : builder) (p : ControlPrune) : builder :=
  tryAppend o (set_control o.2 (Some (set_prune (ctl o.2) (Prune (ctl o.2) ++ [p]))))
    (withControl from (set_prune emptyControl [p])).

(** The single IWANT of an envelope. *)
Definition startIwant (from : PeerID) (o : builder) : builder :=
  match Iwant (ctl o.2) with
  | [] => tryAppend o (set_control o.2 (Some (set_iwant (ctl o.2) (Iwant (ctl o.2) ++ [mkIWant []]))))
            (withControl from (set_iwant emptyControl [mkIWant []]))
  | _ => o
  end.
(** [lastRPC.Control.Iwant[0].MessageIDs = append(...)] *)
Definition appendIwant (l : list ControlIWant) (mid : bytes) : list ControlIWant :=
  match l with [] => [] | w :: l => mkIWant (iw_messageIDs w ++ [mid]) :: l end.
Definition addIwantID (from : PeerID) (o : builder) (mid : bytes) : builder :=
  tryAppend o (set_control o.2 (Some (set_iwant (ctl o.2) (appendIwant (Iwant (ctl o.2)) mid))))
    (withControl from (set_iwant emptyControl [mkIWant [mid]])).
Definition addIwant (from : PeerID) (o : builder) (w : ControlIWant) : builder :=
  foldl (addIwantID from) (startIwant from o) (iw_messageIDs w).

(** A new IHAVE when the last one is for another bitmask. *)
Definition startIhave (from : PeerID) (bitmask : bytes) (o : builder) : builder :=
  if match last (Ihave (ctl o.2)) with Some h => bool_decide (ih_bitmask h = bitmask) | None => false end
  then o
  else tryAppend o (set_control o.2 (Some (set_ihave (ctl o.2) (Ihave (ctl o.2) ++ [mkIHave bitmask []]))))
         (withControl from (set_ihave emptyControl [mkIHave bitmask []])).
(** [lastIHave.MessageIDs = append(...)] *)
Fixpoint appendIhave (l : list ControlIHave) (mid : bytes) : list ControlIHave :=
  match l with
  | [] => []
  | [h] => [mkIHave (ih_bitmask h) (ih_messageIDs h ++ [mid])]
  | h :: l => h :: appendIhave l mid
  end.
Definition addIhaveID (from : PeerID) (bitmask : bytes) (o : builder) (mid : bytes) : builder :=
  tryAppend o (set_control o.2 (Some (set_ihave (ctl o.2) (appendIhave (Ihave (ctl o.2)) mid))))
    (withControl from (set_ihave emptyControl [mkIHave bitmask [mid]])).
Definition addIhave (from : PeerID) (o : builder) (h : ControlIHave) : builder :=
  foldl (addIhaveID from (ih_bitmask h)) (startIhave from (ih_bitmask h) o) (ih_messageIDs h).

(** The body of the loop over the elements. *)
Definition mergeElem (o : builder) (elem : RPC) : builder :=
  let from := rpc_from elem in
  let o := foldl (addPublish from) o (Publish elem) in
  let o := foldl (addSub from) o (Subscriptions elem) in
  match Control elem with
  | None => o
  | Some c =>
      let o := addControl from o in
      let o := foldl (addGraft from) o (Graft c) in
      let o := foldl (addPrune from) o (Prune c) in
      let o := foldl (addIwant from) o (Iwant c) in
      foldl (addIhave from) o (Ihave c)
  end.

Definition appendOrMergeRPC (slice elems : list RPC) : list RPC :=
  match elems with
  | [] => slice
  | elem :: rest =>
      if bool_decide (slice = []) && bool_decide (rest = []) && (Size elem <? limit)
      then slice ++ [elem]
      else
        let o : builder := match last slice with
                           | None => ([], emptyRPC (rpc_from elem))
                           | Some l => (take (length slice - 1) slice, l)
                           end in
        let '(out, lastRPC) := foldl mergeElem o elems in
        out ++ [lastRPC]
  end.
End split.

(** ** What an envelope carries *)
Record items := mkItems {
  i_subs : list SubOpts;
  i_pubs : list pbMessage;
  i_grafts : list ControlGraft;
  i_prunes : list ControlPrune;
  i_iwants : list bytes;
  i_ihaves : list (bytes * bytes) }.

(** IWANT and IHAVE are counted by message, an IHAVE with its bitmask. *)
Definition ihaves (l : list ControlIHave) : list (bytes * bytes) :=
  l ≫= fun h => pair (ih_bitmask h) <$> ih_messageIDs h.
Definition itemsOf (r : RPC) : items :=
  mkItems (Subscriptions r) (Publish r) (Graft (ctl r)) (Prune (ctl r))
    (Iwant (ctl r) ≫= iw_messageIDs) (ihaves (Ihave (ctl r))).
Definition noItems : items := mkItems [] [] [] [] [] [].
Definition plus (a b : items) : items :=
  mkItems (i_subs a ++ i_subs b) (i_pubs a ++ i_pubs b) (i_grafts a ++ i_grafts b)
    (i_prunes a ++ i_prunes b) (i_iwants a ++ i_iwants b) (i_ihaves a ++ i_ihaves b).
Definition total (l : list items) : items := foldr plus noItems l.
Definition numItems (a : items) : nat :=
  (length (i_subs a) + length (i_pubs a) + length (i_grafts a) + length (i_prunes a)
   + length (i_iwants a) + length (i_ihaves a))%nat.

Lemma plus_assoc a b c : plus a (plus b c) = plus (plus a b) c.
Proof. unfold plus. simpl. by rewrite !app_assoc. Qed.
Lemma plus_0_r a : plus a noItems = a.
Proof. destruct a. unfold plus. simpl. by rewrite !app_nil_r. Qed.
Lemma plus_0_l a : plus noItems a = a.
Proof. by destruct a. Qed.
Lemma total_app l1 l2 : total (l1 ++ l2) = plus (total l1) (total l2).
Proof. induction l1 as [|a l1 IH]; simpl; [by rewrite plus_0_l|]. by rewrite IH, plus_assoc. Qed.
Lemma total_single a : total [a] = a.
Proof. apply plus_0_r. Qed.
Create Rewrite HintDb items.
#[export] Hint Rewrite plus_assoc plus_0_r plus_0_l total_app total_single : items.

Lemma ihaves_app l1 l2 : ihaves (l1 ++ l2) = ihaves l1 ++ ihaves l2.
Proof. apply bind_app. Qed.

Section split_proofs.
Context `{PS : ProtoSize} (limit : Z).

(** An envelope is over the limit only when it cannot be split further. *)
Definition sized (r : RPC) : Prop := Size r <= limit \/ (numItems (itemsOf r) <= 1)%nat.
Definition envelopes (o : builder) : list RPC := o.1 ++ [o.2].

Record holds (o : builder) (x : items) : Prop := {
  holds_items : total (itemsOf <$> envelopes o) = x;
  holds_sized : Forall sized (envelopes o);
  holds_idontwant : Forall (fun r => Idontwant (ctl r) = []) (envelopes o);
  holds_iwant : (length (Iwant (ctl o.2)) <= 1)%nat }.

Lemma tryAppend_holds o x y cand fresh :
  holds o x -> itemsOf fresh = y -> itemsOf cand = plus (itemsOf o.2) y -> (numItems y <= 1)%nat ->
  Idontwant (ctl cand) = Idontwant (ctl o.2) -> Idontwant (ctl fresh) = [] ->
  (length (Iwant (ctl cand)) <= 1)%nat -> (length (Iwant (ctl fresh)) <= 1)%nat ->
  holds (tryAppend limit o cand fresh) (plus x y).
Proof.
  intros [<- Hs Hd _] <- Hc Hf Hdc Hdf Hw1 Hw2. unfold tryAppend, envelopes in *.
  apply Forall_app in Hs as [Hs1 Hs2]. apply Forall_app in Hd as [Hd1 Hd2]. inversion Hd2; subst.
  destruct (Z.ltb_spec limit (Size cand)); split; unfold envelopes; simpl;
    rewrite ?fmap_app; simpl; autorewrite with items; try done.
  - apply Forall_app. split; [by apply Forall_app|]. constructor; [|done]. by right.
  - apply Forall_app. split; [by apply Forall_app|]. by constructor.
  - by rewrite Hc; autorewrite with items.
  - apply Forall_app. split; [done|]. constructor; [|done]. left. lia.
  - apply Forall_app. split; [done|]. constructor; [|done]. congruence.
Qed.

Lemma foldl_holds {A} (f : builder -> A -> builder) (g : A -> items) o x l :
  (forall o x a, holds o x -> holds (f o a) (plus x (g a))) ->
  holds o x -> holds (foldl f o l) (plus x (total (g <$> l))).
Proof.
  intros Hf. revert o x. induction l as [|a l IH]; intros o x Ho; simpl.
  - by rewrite plus_0_r.
  - rewrite plus_assoc. apply IH. by apply Hf.
Qed.

Ltac few := unfold numItems; simpl; lia.
(** The side conditions of [tryAppend_holds] when an entry is appended. *)
Ltac try_append :=
  match goal with H : holds ?o _ |- _ => pose proof (holds_iwant _ _ H) end;
  eapply tryAppend_holds; [eassumption|reflexivity| |few|reflexivity|reflexivity|assumption|simpl; lia];
  unfold itemsOf, plus; simpl; rewrite ?app_nil_r; try reflexivity.

Lemma addPublish_holds from o x m :
  holds o x -> holds (addPublish limit from o m) (plus x (mkItems [] [m] [] [] [] [])).
Proof. intros. try_append. Qed.
Lemma addSub_holds from o x s :
  holds o x -> holds (addSub limit from o s) (plus x (mkItems [s] [] [] [] [] [])).
Proof. intros. try_append. Qed.
Lemma addGraft_holds from o x g :
  holds o x -> holds (addGraft limit from o g) (plus x (mkItems [] [] [g] [] [] [])).
Proof. intros. try_append. Qed.
Lemma addPrune_holds from o x p :
  holds o x -> holds (addPrune limit from o p) (plus x (mkItems [] [] [] [p] [] [])).
Proof. intros. try_append. Qed.
Lemma addControl_holds from o x : holds o x -> holds (addControl limit from o) x.
Proof.
  intros H. unfold addControl. destruct (Control o.2) as [c|] eqn:E; [done|].
  rewrite <-(plus_0_r x). eapply tryAppend_holds; [done|done| |few| |done|simpl; lia|simpl; lia];
    unfold itemsOf, plus, ctl; rewrite E; simpl; by rewrite ?app_nil_r.
Qed.

(** *** IWANT: every message identifier goes to the one IWANT of an envelope *)
Definition hasIwant (o : builder) : Prop := exists w, Iwant (ctl o.2) = [w].

Lemma startIwant_holds from o x : holds o x -> holds (startIwant limit from o) x /\ hasIwant (startIwant limit from o).
Proof.
  intros H. pose proof (holds_iwant _ _ H) as Hw. unfold startIwant, hasIwant.
  destruct (Iwant (ctl o.2)) as [|w [|]] eqn:E; simpl in Hw; [|split; [done|by eauto]|lia]. split.
  - rewrite <-(plus_0_r x). eapply tryAppend_holds; [done|done| |few|done|done|simpl; lia|simpl; lia].
    unfold itemsOf, plus. simpl. rewrite E, !app_nil_r. done.
  - unfold tryAppend. destruct (limit <? _); by eexists.
Qed.

Lemma addIwantID_holds from o x mid :
  holds o x -> hasIwant o ->
  holds (addIwantID limit from o mid) (plus x (mkItems [] [] [] [] [mid] []))
  /\ hasIwant (addIwantID limit from o mid).
Proof.
  intros H [w E]. split.
  - eapply tryAppend_holds; [done|done| |few|done|done|simpl; rewrite E; simpl; lia|simpl; lia].
    unfold itemsOf, plus. simpl. rewrite E. simpl. by rewrite !app_nil_r.
  - unfold addIwantID, tryAppend, hasIwant. destruct (limit <? _); simpl; rewrite ?E; by eexists.
Qed.

Lemma addIwant_holds from o x w :
  holds o x -> holds (addIwant limit from o w) (plus x (mkItems [] [] [] [] (iw_messageIDs w) [])).
Proof.
  intros H. unfold addIwant. destruct (startIwant_holds from o x H) as [H0 Hw]. clear H.
  revert H0 Hw. generalize (startIwant limit from o). clear o. intros o. revert o x.
  induction (iw_messageIDs w) as [|mid l IH]; intros o x H Hw; [by rewrite plus_0_r|]. simpl.
  destruct (addIwantID_holds from o x mid H Hw) as [H' Hw'].
  specialize (IH _ _ H' Hw'). by rewrite <-plus_assoc in IH.
Qed.

(** *** IHAVE: the identifiers of a bitmask go to the last IHAVE *)
Definition hasIhave (bitmask : bytes) (o : builder) : Prop :=
  exists l h, Ihave (ctl o.2) = l ++ [h] /\ ih_bitmask h = bitmask.

Lemma startIhave_holds from b o x :
  holds o x -> holds (startIhave limit from b o) x /\ hasIhave b (startIhave limit from b o).
Proof.
  intros H. unfold startIhave. destruct (last (Ihave (ctl o.2))) as [h|] eqn:E.
  2: assert (Hh : false = false) by done.
  1: case_bool_decide as Hh.
  { split; [done|]. apply last_Some in E as [l E]. by exists l, h. }
  all: split; [|unfold tryAppend; destruct (limit <? _); [by exists [], (mkIHave b [])|by eexists _, (mkIHave b [])]].
  all: pose proof (holds_iwant _ _ H); rewrite <-(plus_0_r x);
    eapply tryAppend_holds; [done|done| |few|done|done|simpl; lia|simpl; lia];
    unfold itemsOf, plus; simpl; rewrite ihaves_app; simpl; by rewrite !app_nil_r.
Qed.

Lemma appendIhave_last l h mid :
  appendIhave (l ++ [h]) mid = l ++ [mkIHave (ih_bitmask h) (ih_messageIDs h ++ [mid])].
Proof.
  induction l as [|h' l IH]; [done|]. simpl. destruct (l ++ [h]) eqn:E; [by destruct l|].
  by rewrite <-IH.
Qed.

Lemma addIhaveID_holds from b o x mid :
  holds o x -> hasIhave b o ->
  holds (addIhaveID limit from b o mid) (plus x (mkItems [] [] [] [] [] [(b, mid)]))
  /\ hasIhave b (addIhaveID limit from b o mid).
Proof.
  intros H (l & h & E & <-). pose proof (holds_iwant _ _ H). split.
  - eapply tryAppend_holds; [done|done| |few|done|done|simpl; lia|simpl; lia].
    unfold itemsOf, plus. simpl. rewrite E, appendIhave_last, !ihaves_app. unfold ihaves. simpl.
    by rewrite fmap_app, !app_nil_r, app_assoc.
  - unfold addIhaveID, tryAppend, hasIhave. destruct (limit <? _); simpl.
    + by exists [], (mkIHave (ih_bitmask h) [mid]).
    + rewrite E, appendIhave_last. by eexists _, _.
Qed.

Lemma addIhave_holds from o x h :
  holds o x -> holds (addIhave limit from o h) (plus x (mkItems [] [] [] [] [] (pair (ih_bitmask h) <$> ih_messageIDs h))).
Proof.
  intros H. unfold addIhave. destruct (startIhave_holds from (ih_bitmask h) o x H) as [H0 Hw]. clear H.
  revert H0 Hw. generalize (startIhave limit from (ih_bitmask h) o). clear o. intros o. revert o x.
  induction (ih_messageIDs h) as [|mid l IH]; intros o x H Hw; [by rewrite plus_0_r|]. simpl.
  destruct (addIhaveID_holds from _ o x mid H Hw) as [H' Hw'].
  specialize (IH _ _ H' Hw'). by rewrite <-plus_assoc in IH.
Qed.

Lemma total_fmap {A} (g : A -> items) (l : list A) :
  total (g <$> l) = mkItems (l ≫= (i_subs ∘ g)) (l ≫= (i_pubs ∘ g)) (l ≫= (i_grafts ∘ g))
    (l ≫= (i_prunes ∘ g)) (l ≫= (i_iwants ∘ g)) (l ≫= (i_ihaves ∘ g)).
Proof. induction l as [|a l IH]; [done|]. change (g <$> a :: l) with ([g a] ++ (g <$> l)). by rewrite total_app, total_single, IH. Qed.

Lemma bind_nil {A B} (l : list A) : l ≫= (fun _ => []) = @nil B.
Proof. by induction l. Qed.
Lemma bind_single {A} (l : list A) : l ≫= (fun a => [a]) = l.
Proof. induction l as [|a l IH]; [done|]. cbn. f_equal. exact IH. Qed.

Lemma mergeElem_holds o x elem : holds o x -> holds (mergeElem limit o elem) (plus x (itemsOf elem)).
Proof.
  intros H. unfold mergeElem.
  pose proof (foldl_holds _ _ _ _ (Publish elem) (addPublish_holds (rpc_from elem)) H) as H1.
  pose proof (foldl_holds _ _ _ _ (Subscriptions elem) (addSub_holds (rpc_from elem)) H1) as H2.
  unfold itemsOf, ctl. destruct (Control elem) as [c|]; simpl.
  - pose proof (foldl_holds _ _ _ _ (Graft c) (addGraft_holds (rpc_from elem)) (addControl_holds (rpc_from elem) _ _ H2)) as H3.
    pose proof (foldl_holds _ _ _ _ (Prune c) (addPrune_holds (rpc_from elem)) H3) as H4.
    pose proof (foldl_holds _ _ _ _ (Iwant c) (addIwant_holds (rpc_from elem)) H4) as H5.
    pose proof (foldl_holds _ _ _ _ (Ihave c) (addIhave_holds (rpc_from elem)) H5) as H6.
    match type of H6 with holds _ ?y => replace (plus x _) with y; [done|] end.
    rewrite !total_fmap. unfold plus. simpl. unfold compose. simpl.
    rewrite !bind_nil, !bind_single, !app_nil_r. done.
  - match type of H2 with holds _ ?y => replace (plus x _) with y; [done|] end.
    rewrite !total_fmap. unfold plus. simpl. unfold compose. simpl.
    rewrite !bind_nil, !bind_single, !app_nil_r. done.
Qed.
End split_proofs.

Section split_theorem.
Context `{PS : ProtoSize} (limit : Z).

Lemma merge_holds elems from :
  holds limit (foldl (mergeElem limit) ([], emptyRPC from) elems) (total (itemsOf <$> elems)).
Proof.
  rewrite <-(plus_0_l (total _)). apply foldl_holds; [intros; by apply mergeElem_holds|].
  split; simpl; [done| |by repeat constructor|lia]. constructor; [|done]. right. unfold numItems. simpl. lia.
Qed.

(** [appendOrMergeRPC] neither loses nor reorders what the envelopes carry:
    subscriptions, messages, GRAFTs, PRUNEs, IWANT and IHAVE identifiers of the
    result are those of the arguments, in their order, whatever the sizes are;
    and an envelope of the result is over the limit only when it carries a
    single item.  The exception are the IDONTWANTs: an envelope that reaches
    the limit comes out without any. *)
Theorem split_keeps_items elems :
  let out := appendOrMergeRPC limit [] elems in
  total (itemsOf <$> out) = total (itemsOf <$> elems)
  /\ Forall (fun r => Size r <= limit \/ (numItems (itemsOf r) <= 1)%nat) out
  /\ (forall elem, elems = [elem] -> limit <= Size elem -> Forall (fun r => Idontwant (ctl r) = []) out).
Proof.
  destruct elems as [|elem rest]; [done|]. cbn [appendOrMergeRPC last].
  destruct (bool_decide _ && _ && _) eqn:E.
  - apply andb_true_iff in E as [[_ Hr]%andb_true_iff Hs%Z.ltb_lt]. apply bool_decide_eq_true in Hr as ->.
    split; [done|]. split; [constructor; [left; lia|done]|]. intros e [= <-] Hle. lia.
  - pose proof (merge_holds (elem :: rest) (rpc_from elem)) as H.
    destruct (foldl _ _ _) as [out lastRPC]. destruct H as [H1 H2 H3 _]. split; [done|]. by split.
Qed.
End split_theorem.
