(* ===== verification/MessageCache.v ===== *)
(** * The message cache (go-libp2p-blossomsub/mcache.go)

    A window of [history] slots.  A message is put into the first slot, the
    heartbeat shifts the window by one, and a message falls out of the cache
    when its slot does.  The cache is a refinement of the window of messages
    itself, which is the abstract state here. *)
From Stdlib Require Import ZArith Lia.
From stdpp Require Import base tactics list numbers option gmap sets.
From S2P Require Import Prelude GoBytes Bitmask BlsRpc.
Local Open Scope Z_scope.

(** ** The code; [None] is a panic *)
Record Message := mkMessage {
  msg_pb : pbMessage;
  msg_ID : bytes;
  ReceivedFrom : PeerID;
  Local : bool }.
Definition GetBitmask (msg : Message) : bytes := pm_bitmask (msg_pb msg).
Definition GetFrom (msg : Message) : PeerID := pm_from (msg_pb msg).
Definition GetData (msg : Message) : bytes := pm_data (msg_pb msg).

Record CacheEntry := mkCacheEntry { ce_mid : bytes; ce_bitmask : bytes }.

Record MessageCache := mkMessageCache {
  msgs : gmap bytes Message;
  peertx : gmap bytes (gmap PeerID Z);
  history : list (list CacheEntry);
  gossip : Z;
  msgID : Message -> bytes }.

Definition NewMessageCache (defaultMsgID : Message -> bytes) (gossip history : Z) : option MessageCache :=
  if history <? gossip then None
  else if history <? 0 then None
  else Some (mkMessageCache ∅ ∅ (replicate (Z.to_nat history) []) gossip defaultMsgID).

Definition SetMsgIdFn (mc : MessageCache) (f : Message -> bytes) : MessageCache :=
  mkMessageCache (msgs mc) (peertx mc) (history mc) (gossip mc) f.

Definition Put (mc : MessageCache) (msg : Message) : option MessageCache :=
  let mid := msgID mc msg in
  match history mc with
  | [] => None
  | slot :: rest =>
      Some (mkMessageCache (<[mid := msg]> (msgs mc)) (peertx mc)
        ((slot ++ (mkCacheEntry mid <$> SliceBitmask (GetBitmask msg))) :: rest) (gossip mc) (msgID mc))
  end.

Definition Get (mc : MessageCache) (mid : bytes) : option Message := msgs mc !! mid.

Definition GetForPeer (mc : MessageCache) (mid : bytes) (p : PeerID) : MessageCache * option (Message * Z) :=
  match msgs mc !! mid with
  | None => (mc, None)
  | Some m =>
      let tx := default ∅ (peertx mc !! mid) in
      let n := default 0 (tx !! p) + 1 in
      (mkMessageCache (msgs mc) (<[mid := <[p := n]> tx]> (peertx mc)) (history mc) (gossip mc) (msgID mc),
       Some (m, n))
  end.

(** [mc.history[:mc.gossip]] panics when [gossip] is negative. *)
Definition GetGossipIDs (mc : MessageCache) (bitmask : bytes) : option (list bytes) :=
  if gossip mc <? 0 then None
  else Some (ce_mid <$> filter (fun e => ce_bitmask e = bitmask)
               (concat (take (Z.to_nat (gossip mc)) (history mc)))).

(** The last slot's array is reused for the first slot, cut to length zero. *)
Definition Shift (mc : MessageCache) : option MessageCache :=
  match last (history mc) with
  | None => None
  | Some lst =>
      Some (mkMessageCache
        (foldl (fun m e => delete (ce_mid e) m) (msgs mc) lst)
        (foldl (fun m e => delete (ce_mid e) m) (peertx mc) lst)
        ([] :: take (length (history mc) - 1) (history mc)) (gossip mc) (msgID mc))
  end.

(** ** The window of messages, newest slot first *)
Definition window : Type := list (list Message).
Definition putWindow (m : Message) (w : window) : window :=
  match w with [] => [] | slot :: rest => (slot ++ [m]) :: rest end.
Definition shiftWindow (w : window) : window := [] :: take (length w - 1) w.

(** The cache of the protocol: messages with an identifier that is in the
    cache are not put again, because the seen cache lives longer. *)
Inductive mcReach (f : Message -> bytes) (g h : Z) : MessageCache -> window -> Prop :=
  | mc_new mc : NewMessageCache f g h = Some mc ->
      mcReach f g h mc (replicate (Z.to_nat h) [])
  | mc_put mc w m mc' : mcReach f g h mc w -> f m ∉ f <$> concat w -> Put mc m = Some mc' ->
      mcReach f g h mc' (putWindow m w)
  | mc_get mc w mid p : mcReach f g h mc w -> mcReach f g h (GetForPeer mc mid p).1 w
  | mc_shift mc w mc' : mcReach f g h mc w -> Shift mc = Some mc' -> mcReach f g h mc' (shiftWindow w).

Definition entriesOf (f : Message -> bytes) (m : Message) : list CacheEntry :=
  mkCacheEntry (f m) <$> SliceBitmask (GetBitmask m).

Record mcInv (f : Message -> bytes) (g h : Z) (mc : MessageCache) (w : window) : Prop := {
  mc_gossip : gossip mc = g;
  mc_id : msgID mc = f;
  mc_len : length w = Z.to_nat h;
  mc_hist : history mc = (fun slot => slot ≫= entriesOf f) <$> w;
  mc_nodup : NoDup (f <$> concat w);
  mc_msgs mid m : msgs mc !! mid = Some m <-> m ∈ concat w /\ f m = mid;
  mc_tx : dom (peertx mc) ⊆ dom (msgs mc) }.

(** ** The cache refines the window *)
Lemma delete_entries_lookup {A} (M : gmap bytes A) (l : list CacheEntry) k :
  foldl (fun m e => delete (ce_mid e) m) M l !! k = if bool_decide (k ∈ ce_mid <$> l) then None else M !! k.
Proof.
  revert M. induction l as [|e l IH]; intros M; simpl; [done|]. rewrite IH.
  destruct (decide (ce_mid e = k)) as [->|Hne].
  - rewrite lookup_delete_eq, (bool_decide_true (k ∈ k :: _)) by set_solver. by destruct (bool_decide _).
  - rewrite lookup_delete_ne by done. repeat case_bool_decide; set_solver.
Qed.

Lemma entries_mids f (l : list Message) k : k ∈ ce_mid <$> (l ≫= entriesOf f) <-> k ∈ f <$> l.
Proof.
  rewrite !list_elem_of_fmap. split.
  - intros (e & -> & (m & (s & -> & _)%list_elem_of_fmap & Hm)%list_elem_of_bind). eauto.
  - intros (m & -> & Hm). pose proof (SliceBitmask_nonempty (GetBitmask m)) as Hne.
    destruct (SliceBitmask (GetBitmask m)) as [|s l'] eqn:E; [done|].
    exists (mkCacheEntry (f m) s). split; [done|]. apply list_elem_of_bind. exists m. split; [|done].
    unfold entriesOf. rewrite E. set_solver.
Qed.

Lemma mcInv_new f g h mc : NewMessageCache f g h = Some mc -> mcInv f g h mc (replicate (Z.to_nat h) []).
Proof.
  unfold NewMessageCache. intros E. repeat zcase; simplify_eq.
  assert (Hc : concat (replicate (Z.to_nat h) []) = @nil Message).
  { induction (Z.to_nat h); [done|]. done. }
  split; simpl; rewrite ?Hc; try done.
  - by rewrite length_replicate.
  - by rewrite fmap_replicate.
  - constructor.
  - intros mid m. rewrite lookup_empty. set_solver.
Qed.

Lemma mcInv_put f g h mc w m mc' :
  mcInv f g h mc w -> f m ∉ f <$> concat w -> Put mc m = Some mc' -> mcInv f g h mc' (putWindow m w).
Proof.
  intros [Hg Hid Hlen Hh Hnd Hm Htx] Hfresh E. unfold Put in E. rewrite Hh, Hid in E.
  destruct w as [|slot rest]; [done|]. simpl in E. injection E as <-.
  assert (Hp : concat (putWindow m (slot :: rest)) ≡ₚ m :: concat (slot :: rest)).
  { simpl. solve_Permutation. }
  split; simpl; try done.
  - f_equal. rewrite bind_app. simpl. by rewrite app_nil_r.
  - change (NoDup (f <$> concat (putWindow m (slot :: rest)))). rewrite Hp. by constructor.
  - intros mid m'. change ((slot ++ [m]) ++ concat rest) with (concat (putWindow m (slot :: rest))).
    rewrite Hp. destruct (decide (f m = mid)) as [<-|Hne].
    + rewrite lookup_insert_eq. split; [intros [= <-]; set_solver|].
      intros [[->|Hin]%elem_of_cons Hf]; [done|]. destruct Hfresh. rewrite <-Hf. by apply list_elem_of_fmap_2.
    + rewrite lookup_insert_ne, Hm by done. set_solver.
  - set_solver.
Qed.

Lemma mcInv_shift f g h mc w mc' :
  mcInv f g h mc w -> Shift mc = Some mc' -> mcInv f g h mc' (shiftWindow w).
Proof.
  intros [Hg Hid Hlen Hh Hnd Hm Htx] E. unfold Shift in E. rewrite Hh, fmap_last in E.
  destruct (last w) as [lst|] eqn:El; [|done]. simpl in E. injection E as <-.
  apply last_Some in El as [w0 ->]. unfold shiftWindow. rewrite length_fmap, length_app. simpl.
  replace (length w0 + 1 - 1)%nat with (length w0) by lia.
  rewrite fmap_app, concat_app in *. simpl in *. rewrite app_nil_r in *.
  rewrite !take_app_length' by (by rewrite ?length_fmap).
  rewrite fmap_app in Hnd. apply NoDup_app in Hnd as (Hnd0 & Hdisj & _).
  split; simpl; try done.
  - rewrite length_app in Hlen. simpl in Hlen. lia.
  - intros mid m. rewrite delete_entries_lookup. case_bool_decide as Hk; rewrite entries_mids in Hk.
    + split; [done|]. intros [Hin <-]. destruct (Hdisj (f m)); [by apply list_elem_of_fmap_2|done].
    + rewrite Hm, elem_of_app. split; [|tauto]. intros [[Hin|Hin] <-]; [done|].
      destruct Hk. by apply list_elem_of_fmap_2.
  - intros k. rewrite !elem_of_dom, !delete_entries_lookup. case_bool_decide; [done|].
    rewrite <-!elem_of_dom. apply Htx.
Qed.

Lemma mcInv_get f g h mc w mid p : mcInv f g h mc w -> mcInv f g h (GetForPeer mc mid p).1 w.
Proof.
  intros []. unfold GetForPeer. destruct (msgs mc !! mid) eqn:E; [|done]. split; simpl; try done.
  rewrite dom_insert. apply union_subseteq. split; [|done]. apply singleton_subseteq_l, elem_of_dom. by eexists.
Qed.

Lemma mcReach_inv f g h mc w : mcReach f g h mc w -> mcInv f g h mc w.
Proof.
  induction 1; [by apply mcInv_new|by eapply mcInv_put|by apply mcInv_get|by eapply mcInv_shift].
Qed.

Lemma gossip_window f (l : window) b :
  ce_mid <$> filter (fun e => ce_bitmask e = b) (concat ((fun slot => slot ≫= entriesOf f) <$> l))
  = f <$> filter (fun m => b ∈ SliceBitmask (GetBitmask m)) (concat l).
Proof.
  assert (H1 : forall m, ce_mid <$> filter (fun e => ce_bitmask e = b) (entriesOf f m)
      = if decide (b ∈ SliceBitmask (GetBitmask m)) then [f m] else []).
  { intros m. unfold entriesOf. destruct (SliceBitmask_spec (GetBitmask m)) as [Hnd _].
    induction Hnd as [|s l' Hs Hnd IH]; [done|]. rewrite fmap_cons, filter_cons. simpl.
    destruct (decide (s = b)) as [->|Hne].
    - rewrite decide_True by set_solver. rewrite fmap_cons, IH, decide_False by done. done.
    - rewrite IH. by destruct (decide (b ∈ l')), (decide (b ∈ s :: l')); set_solver. }
  assert (H2 : forall slot, ce_mid <$> filter (fun e => ce_bitmask e = b) (slot ≫= entriesOf f)
      = f <$> filter (fun m => b ∈ SliceBitmask (GetBitmask m)) slot).
  { induction slot as [|m slot IH]; [done|]. rewrite bind_cons, filter_app, fmap_app, IH, H1, filter_cons.
    by destruct (decide _). }
  induction l as [|slot l IH]; [done|]. rewrite fmap_cons. cbn [concat].
  by rewrite !filter_app, !fmap_app, IH, H2.
Qed.

(** The cache behaves as the sliding window of the messages put into it:
    a message is found by its identifier exactly while it is in one of the
    [history] slots, it is advertised for each of its slices exactly while it
    is in one of the first [gossip] slots, and no counter of a message outlives
    it; [Put] and [Shift] never panic when the window has a slot. *)
Theorem cache_refines_window f g h mc w :
  mcReach f g h mc w -> 0 <= g -> 0 < h ->
  (forall mid m, Get mc mid = Some m <-> m ∈ concat w /\ f m = mid)
  /\ (forall b, GetGossipIDs mc b
        = Some (f <$> filter (fun m => b ∈ SliceBitmask (GetBitmask m)) (concat (take (Z.to_nat g) w))))
  /\ (forall mid, is_Some (peertx mc !! mid) -> is_Some (Get mc mid))
  /\ (forall m, is_Some (Put mc m)) /\ is_Some (Shift mc).
Proof.
  intros Hr Hg Hh. apply mcReach_inv in Hr as [Eg Eid Hlen Hhist _ Hm Htx].
  split_and!; try done.
  - intros b. unfold GetGossipIDs. rewrite Eg, Hhist, (proj2 (Z.ltb_ge g 0)) by done.
    by rewrite <-fmap_take, gossip_window.
  - intros mid Hs. apply elem_of_dom, Htx, elem_of_dom. done.
  - intros m. unfold Put. rewrite Hhist. destruct w; [simpl in Hlen; lia|by eexists].
  - unfold Shift. rewrite Hhist, fmap_last. destruct (last w) eqn:E; [by eexists|].
    apply last_None in E as ->. simpl in Hlen. lia.
Qed.

(** A cache of two slots, one of them advertised, with one message. *)
Module CacheExample.
Definition m : Message := mkMessage (mkPbMessage [] [] [] [Byte.x03] [] []) [Byte.x01] [] false.
Definition mc0 : MessageCache := mkMessageCache ∅ ∅ [[]; []] 1 msg_ID.
Definition mc1 : MessageCache := default mc0 (Put mc0 m).
Lemma reached : mcReach msg_ID 1 2 mc1 [[m]; []].
Proof.
  apply (mc_put msg_ID 1 2 mc0 [[]; []] m); [by apply (mc_new msg_ID 1 2)| |reflexivity].
  intros Hin. by apply elem_of_nil in Hin.
Qed.
End CacheExample.

Lemma cache_refines_window_witness :
  GetGossipIDs CacheExample.mc1 [Byte.x02] = Some [[Byte.x01]] /\ is_Some (Shift CacheExample.mc1).
Proof.
  destruct (cache_refines_window msg_ID 1 2 CacheExample.mc1 [[CacheExample.m]; []] CacheExample.reached)
    as (_ & Hg & _ & _ & Hs); [lia|lia|].
  split; [|exact Hs]. rewrite Hg. vm_compute. reflexivity.
Defined.
