(* ===== verification/Router.v ===== *)
(** * The BlossomSub router: state and messages (go-libp2p-blossomsub/blossomsub.go)

    The state of [BlossomSubRouter] with the parts of [PubSub] it reads, the
    selection of peers, the sending of envelopes with its retries, and the
    handlers of control messages, of joining and leaving a bitmask and of
    publishing.  The heartbeat is in [Heartbeat].

    What the code draws from its environment is an argument [env] of every
    operation: the time, peer scores, the order in which Go ranges over a map,
    the results of [rand.Intn], whether a queue has room.  An order or a random
    number belongs to a site, a list of keys and a number, so that no two draws
    of an operation are tied together.  An operation happens at one instant. *)
From Stdlib Require Import ZArith Lia Floats.SpecFloat.
From stdpp Require Import base tactics list numbers option gmap sets fin_maps strings.
From S2P Require Import Prelude GoBytes Bitmask BlsRpc MessageCache.
Local Open Scope Z_scope.

(** ** Configuration *)
Definition BlossomSubHeartbeatInterval : Z := 700 * 10 ^ 6.

Record BlossomSubParams := mkParams {
  D : Z; Dlo : Z; Dhi : Z; Dscore : Z; Dout : Z;
  HistoryLength : Z; HistoryGossip : Z; Dlazy : Z;
  GossipFactor : spec_float; GossipRetransmission : Z;
  FanoutTTL : Z; PrunePeers : Z; PruneBackoff : Z; UnsubscribeBackoff : Z;
  MaxPendingConnections : Z; DirectConnectTicks : Z;
  OpportunisticGraftTicks : Z; OpportunisticGraftPeers : Z; GraftFloodThreshold : Z;
  MaxIHaveLength : Z; MaxIHaveMessages : Z; MaxIDontWantMessages : Z;
  IDontWantMessageThreshold : Z; IDontWantMessageTTL : Z }.

(** 0.25 *)
Definition quarter : spec_float := S754_finite false (2 ^ 52) (- 54).

Definition DefaultBlossomSubParams : BlossomSubParams :=
  mkParams 8 6 12 4 2 9 6 6 quarter 3 (60 * Second) 16 (60 * Second) (10 * Second)
    128 300 60 2 (10 * Second) 5000 10 5000 1024 60.

Inductive BlossomSubFeature := BlossomSubFeatureMesh | BlossomSubFeaturePX | BlossomSubFeatureIdontwant.
Definition BlossomSubID_v2 : bytes := lit "/blossomsub/2.0.0"%string.
Definition BlossomSubID_v21 : bytes := lit "/blossomsub/2.1.0"%string.
Definition BlossomSubDefaultProtocols : list bytes := [BlossomSubID_v21].
Definition BlossomSubDefaultFeatures (feat : BlossomSubFeature) (proto : bytes) : bool :=
  bool_decide (proto = BlossomSubID_v21).

(** ** Message identifiers (midgen.go) *)
(** [sha256] is the hash function of the Go library. *)
Definition DefaultMsgIdFn (sha256 : bytes -> bytes) (pmsg : pbMessage) : bytes :=
  Byte.x01 :: sha256 (pm_data pmsg).

Record msgIDGenerator := mkGen {
  Default : pbMessage -> bytes;
  bitmaskGens : gmap bytes (pbMessage -> bytes) }.
Definition newMsgIdGenerator (sha256 : bytes -> bytes) : msgIDGenerator := mkGen (DefaultMsgIdFn sha256) ∅.
Definition SetGen (m : msgIDGenerator) (bitmask : bytes) (gen : pbMessage -> bytes) : msgIDGenerator :=
  mkGen (Default m) (<[bitmask := gen]> (bitmaskGens m)).
Definition RawID (m : msgIDGenerator) (msg : pbMessage) : bytes :=
  default (Default m) (bitmaskGens m !! pm_bitmask msg) msg.
(** The identifier that [Validate] or an earlier call has put into [msg.ID] is used again. *)
Definition idOf (m : msgIDGenerator) (msg : Message) : bytes :=
  match msg_ID msg with [] => RawID m (msg_pb msg) | i => i end.

Record config := mkConfig {
  params : BlossomSubParams;
  feature : BlossomSubFeature -> bytes -> bool;
  peerFilter : PeerID -> bytes -> bool;
  idGen : msgIDGenerator;
  hostID : PeerID;
  softMaxMessageSize : Z;
  hardMaxMessageSize : Z;
  doPX : bool;
  floodPublish : bool;
  acceptPXThreshold : spec_float;
  gossipThreshold : spec_float;
  publishThreshold : spec_float;
  graylistThreshold : spec_float;
  opportunisticGraftThreshold : spec_float }.

(** ** State *)
(** The calls to the tracer, to the score and to the queues. *)
Inductive event :=
  | EvSendRPC (p : PeerID) (rpc : RPC) (fast : bool)
  | EvDropRPC (p : PeerID) (rpc : RPC)
  | EvGraft (p : PeerID) (bitmask : bytes)
  | EvPrune (p : PeerID) (bitmask : bytes)
  | EvJoin (bitmask : bytes)
  | EvLeave (bitmask : bytes)
  | EvPenalty (p : PeerID) (count : Z)
  | EvPromise (p : PeerID) (mids : list bytes)
  | EvDirectConnect (ps : list PeerID).

Record BlossomSubRouter := mkRouter {
  peers : gmap PeerID bytes (** peer protocols *);
  direct : gset PeerID (** direct peers *);
  mesh : gmap bytes (gset PeerID) (** bitmask meshes *);
  fanout : gmap bytes (gset PeerID) (** bitmask fanout *);
  lastpub : gmap bytes Z (** last publish time for fanout bitmasks *);
  pending : gmap PeerID (list ControlIHave) (** [gossip]: pending gossip *);
  control : gmap PeerID ControlMessage (** pending control messages *);
  peerhave : gmap PeerID Z (** IHAVEs received in the last heartbeat *);
  peerdontwant : gmap PeerID Z (** IDONTWANTs received in the last heartbeat *);
  unwanted : gmap PeerID (gmap bytes Z) (** TTL of the messages peers do not want *);
  iasked : gmap PeerID Z (** messages asked for in the last heartbeat *);
  outbound : gmap PeerID bool (** peers with outbound connections *);
  backoff : gmap bytes (gmap PeerID Z) (** prune backoff: expiry times *);
  connect : list PeerID (** [connect]: PX connection requests in the channel *);
  mcache : MessageCache (** message cache *);
  heartbeatTicks : Z (** heartbeats so far *);
  bitmasks : gmap bytes (gset PeerID) (** [p.bitmasks]: subscribers of a bitmask *);
  queues : gset PeerID (** [p.peers]: peers with an outgoing queue *);
  trace : list event (** what the router did, oldest first *) }.

Definition set_peers (bs : BlossomSubRouter) (x : gmap PeerID bytes) : BlossomSubRouter :=
  mkRouter x (direct bs) (mesh bs) (fanout bs) (lastpub bs) (pending bs) (control bs) (peerhave bs) (peerdontwant bs) (unwanted bs) (iasked bs) (outbound bs) (backoff bs) (connect bs) (mcache bs) (heartbeatTicks bs) (bitmasks bs) (queues bs) (trace bs).
Definition set_direct (bs : BlossomSubRouter) (x : gset PeerID) : BlossomSubRouter :=
  mkRouter (peers bs) x (mesh bs) (fanout bs) (lastpub bs) (pending bs) (control bs) (peerhave bs) (peerdontwant bs) (unwanted bs) (iasked bs) (outbound bs) (backoff bs) (connect bs) (mcache bs) (heartbeatTicks bs) (bitmasks bs) (queues bs) (trace bs).
Definition set_mesh (bs : BlossomSubRouter) (x : gmap bytes (gset PeerID)) : BlossomSubRouter :=
  mkRouter (peers bs) (direct bs) x (fanout bs) (lastpub bs) (pending bs) (control bs) (peerhave bs) (peerdontwant bs) (unwanted bs) (iasked bs) (outbound bs) (backoff bs) (connect bs) (mcache bs) (heartbeatTicks bs) (bitmasks bs) (queues bs) (trace bs).
Definition set_fanout (bs : BlossomSubRouter) (x : gmap bytes (gset PeerID)) : BlossomSubRouter :=
  mkRouter (peers bs) (direct bs) (mesh bs) x (lastpub bs) (pending bs) (control bs) (peerhave bs) (peerdontwant bs) (unwanted bs) (iasked bs) (outbound bs) (backoff bs) (connect bs) (mcache bs) (heartbeatTicks bs) (bitmasks bs) (queues bs) (trace bs).
Definition set_lastpub (bs : BlossomSubRouter) (x : gmap bytes Z) : BlossomSubRouter :=
  mkRouter (peers bs) (direct bs) (mesh bs) (fanout bs) x (pending bs) (control bs) (peerhave bs) (peerdontwant bs) (unwanted bs) (iasked bs) (outbound bs) (backoff bs) (connect bs) (mcache bs) (heartbeatTicks bs) (bitmasks bs) (queues bs) (trace bs).
Definition set_pending (bs : BlossomSubRouter) (x : gmap PeerID (list ControlIHave)) : BlossomSubRouter :=
  mkRouter (peers bs) (direct bs) (mesh bs) (fanout bs) (lastpub bs) x (control bs) (peerhave bs) (peerdontwant bs) (unwanted bs) (iasked bs) (outbound bs) (backoff bs) (connect bs) (mcache bs) (heartbeatTicks bs) (bitmasks bs) (queues bs) (trace bs).
Definition set_control (bs : BlossomSubRouter) (x : gmap PeerID ControlMessage) : BlossomSubRouter :=
  mkRouter (peers bs) (direct bs) (mesh bs) (fanout bs) (lastpub bs) (pending bs) x (peerhave bs) (peerdontwant bs) (unwanted bs) (iasked bs) (outbound bs) (backoff bs) (connect bs) (mcache bs) (heartbeatTicks bs) (bitmasks bs) (queues bs) (trace bs).
Definition set_peerhave (bs : BlossomSubRouter) (x : gmap PeerID Z) : BlossomSubRouter :=
  mkRouter (peers bs) (direct bs) (mesh bs) (fanout bs) (lastpub bs) (pending bs) (control bs) x (peerdontwant bs) (unwanted bs) (iasked bs) (outbound bs) (backoff bs) (connect bs) (mcache bs) (heartbeatTicks bs) (bitmasks bs) (queues bs) (trace bs).
Definition set_peerdontwant (bs : BlossomSubRouter) (x : gmap PeerID Z) : BlossomSubRouter :=
  mkRouter (peers bs) (direct bs) (mesh bs) (fanout bs) (lastpub bs) (pending bs) (control bs) (peerhave bs) x (unwanted bs) (iasked bs) (outbound bs) (backoff bs) (connect bs) (mcache bs) (heartbeatTicks bs) (bitmasks bs) (queues bs) (trace bs).
Definition set_unwanted (bs : BlossomSubRouter) (x : gmap PeerID (gmap bytes Z)) : BlossomSubRouter :=
  mkRouter (peers bs) (direct bs) (mesh bs) (fanout bs) (lastpub bs) (pending bs) (control bs) (peerhave bs) (peerdontwant bs) x (iasked bs) (outbound bs) (backoff bs) (connect bs) (mcache bs) (heartbeatTicks bs) (bitmasks bs) (queues bs) (trace bs).
Definition set_iasked (bs : BlossomSubRouter) (x : gmap PeerID Z) : BlossomSubRouter :=
  mkRouter (peers bs) (direct bs) (mesh bs) (fanout bs) (lastpub bs) (pending bs) (control bs) (peerhave bs) (peerdontwant bs) (unwanted bs) x (outbound bs) (backoff bs) (connect bs) (mcache bs) (heartbeatTicks bs) (bitmasks bs) (queues bs) (trace bs).
Definition set_outbound (bs : BlossomSubRouter) (x : gmap PeerID bool) : BlossomSubRouter :=
  mkRouter (peers bs) (direct bs) (mesh bs) (fanout bs) (lastpub bs) (pending bs) (control bs) (peerhave bs) (peerdontwant bs) (unwanted bs) (iasked bs) x (backoff bs) (connect bs) (mcache bs) (heartbeatTicks bs) (bitmasks bs) (queues bs) (trace bs).
Definition set_backoff (bs : BlossomSubRouter) (x : gmap bytes (gmap PeerID Z)) : BlossomSubRouter :=
  mkRouter (peers bs) (direct bs) (mesh bs) (fanout bs) (lastpub bs) (pending bs) (control bs) (peerhave bs) (peerdontwant bs) (unwanted bs) (iasked bs) (outbound bs) x (connect bs) (mcache bs) (heartbeatTicks bs) (bitmasks bs) (queues bs) (trace bs).
Definition set_connect (bs : BlossomSubRouter) (x : list PeerID) : BlossomSubRouter :=
  mkRouter (peers bs) (direct bs) (mesh bs) (fanout bs) (lastpub bs) (pending bs) (control bs) (peerhave bs) (peerdontwant bs) (unwanted bs) (iasked bs) (outbound bs) (backoff bs) x (mcache bs) (heartbeatTicks bs) (bitmasks bs) (queues bs) (trace bs).
Definition set_mcache (bs : BlossomSubRouter) (x : MessageCache) : BlossomSubRouter :=
  mkRouter (peers bs) (direct bs) (mesh bs) (fanout bs) (lastpub bs) (pending bs) (control bs) (peerhave bs) (peerdontwant bs) (unwanted bs) (iasked bs) (outbound bs) (backoff bs) (connect bs) x (heartbeatTicks bs) (bitmasks bs) (queues bs) (trace bs).
Definition set_heartbeatTicks (bs : BlossomSubRouter) (x : Z) : BlossomSubRouter :=
  mkRouter (peers bs) (direct bs) (mesh bs) (fanout bs) (lastpub bs) (pending bs) (control bs) (peerhave bs) (peerdontwant bs) (unwanted bs) (iasked bs) (outbound bs) (backoff bs) (connect bs) (mcache bs) x (bitmasks bs) (queues bs) (trace bs).
Definition set_bitmasks (bs : BlossomSubRouter) (x : gmap bytes (gset PeerID)) : BlossomSubRouter :=
  mkRouter (peers bs) (direct bs) (mesh bs) (fanout bs) (lastpub bs) (pending bs) (control bs) (peerhave bs) (peerdontwant bs) (unwanted bs) (iasked bs) (outbound bs) (backoff bs) (connect bs) (mcache bs) (heartbeatTicks bs) x (queues bs) (trace bs).
Definition set_queues (bs : BlossomSubRouter) (x : gset PeerID) : BlossomSubRouter :=
  mkRouter (peers bs) (direct bs) (mesh bs) (fanout bs) (lastpub bs) (pending bs) (control bs) (peerhave bs) (peerdontwant bs) (unwanted bs) (iasked bs) (outbound bs) (backoff bs) (connect bs) (mcache bs) (heartbeatTicks bs) (bitmasks bs) x (trace bs).
Definition set_trace (bs : BlossomSubRouter) (x : list event) : BlossomSubRouter :=
  mkRouter (peers bs) (direct bs) (mesh bs) (fanout bs) (lastpub bs) (pending bs) (control bs) (peerhave bs) (peerdontwant bs) (unwanted bs) (iasked bs) (outbound bs) (backoff bs) (connect bs) (mcache bs) (heartbeatTicks bs) (bitmasks bs) (queues bs) x.

(** ** The environment of an operation *)
Definition site : Type := list bytes * nat.

(** A connection: [Stat] and the protocols of its streams *)
Record connInfo := mkConn { Limited : bool; DirOutbound : bool; streamProtos : list bytes }.

Record env := mkEnv {
  now : Z;
  score : PeerID -> spec_float;               (** [bs.score.Score] *)
  liveScore : site -> PeerID -> spec_float;   (** the same, at a later call *)
  seen : bytes -> bool;                       (** [p.seenMessage] *)
  iter : site -> gset bytes -> list bytes;    (** the order of a range over a map *)
  intn : site -> nat -> nat;                  (** [rand.Intn(i + 1)] in the iteration [i] *)
  room : list event -> PeerID -> bool;        (** [TryPush] succeeds *)
  peerRecord : PeerID -> bytes;               (** the signed record of a peer, empty if none *)
  validRecord : PeerInfo -> bool;             (** a PX record is absent or verifies *)
  broken : list (PeerID * Z);                 (** [gossipTracer.GetBrokenPromises] *)
  revisits : list PeerID;                     (** entries added to a map while it is ranged over, and seen again *)
  connsToPeer : PeerID -> list connInfo }.    (** [host.Network().ConnsToPeer] *)

Record env_ok (e : env) : Prop := {
  iter_perm s X : iter e s X ≡ₚ elements X;
  intn_range s i : (intn e s i <= i)%nat }.

Definition zeroF : spec_float := S754_zero false.
(** [x < y] and [x >= y] on [float64]: both are false when one is NaN. *)
Definition ltF (x y : spec_float) : bool := SFltb x y.
Definition geF (x y : spec_float) : bool := SFleb y x.

Definition emit (bs : BlossomSubRouter) (l : list event) : BlossomSubRouter := set_trace bs (trace bs ++ l).

(** [m[k]] on a map of maps or sets, and [len] *)
Definition at_ (m : gmap bytes (gset PeerID)) (b : bytes) : gset PeerID := default ∅ (m !! b).
Definition count (m : gmap bytes Z) (p : PeerID) : Z := default 0 (m !! p).
Definition sizeZ (X : gset PeerID) : Z := Z.of_nat (size X).

(** ** Choosing peers *)
Definition swap {A} (l : list A) (i j : nat) : list A :=
  match l !! i, l !! j with
  | Some a, Some b => <[j := a]> (<[i := b]> l)
  | _, _ => l
  end.
(** [shufflePeers], [shufflePeerInfo] and [shuffleBytes] *)
Definition shufflePeers {A} (rnd : nat -> nat) (l : list A) : list A :=
  foldl (fun l i => swap l i (rnd i)) l (seq 0 (length l)).

Definition peerListToMap (l : list PeerID) : gset PeerID := list_to_set l.

Section router.
Context `{PS : ProtoSize} (cfg : config) (e : env).
Local Abbreviation par := (params cfg).

Definition featureOf (bs : BlossomSubRouter) (f : BlossomSubFeature) (p : PeerID) : bool :=
  feature cfg f (default [] (peers bs !! p)).

(** The loop of [getPeers] over the slices; [None] is the early [return nil]. *)
Fixpoint getPeersLoop (s : site) (bs : BlossomSubRouter) (flt : PeerID -> bool)
    (slices : list bytes) (set : list PeerID) : option (list PeerID) :=
  match slices with
  | [] => Some set
  | slice :: rest =>
      match bitmasks bs !! slice with
      | None => None
      | Some tmap =>
          let ps := filter (fun p => featureOf bs BlossomSubFeatureMesh p && flt p
                              && peerFilter cfg p slice = true) (iter e (slice :: s.1, s.2) tmap) in
          match set with
          | [] => getPeersLoop s bs flt rest ps
          | _ =>
              match filter (fun p => p ∈ set) ps with
              | [] => None
              | newSet => getPeersLoop s bs flt rest newSet
              end
          end
      end
  end.

Definition getPeers (s : site) (bs : BlossomSubRouter) (bitmask : bytes) (cnt : Z)
    (flt : PeerID -> bool) : list PeerID :=
  match getPeersLoop s bs flt (SliceBitmask bitmask) [] with
  | None => []
  | Some set =>
      let set := shufflePeers (intn e s) set in
      if (0 <? cnt) && (cnt <? Z.of_nat (length set)) then take (Z.to_nat cnt) set else set
  end.

Definition EnoughPeers (bs : BlossomSubRouter) (bitmask : bytes) (suggested : Z) : bool :=
  match bitmasks bs !! bitmask with
  | None => false
  | Some tmap =>
      let fsPeers := sizeZ (filter (fun p => featureOf bs BlossomSubFeatureMesh p = false) tmap) in
      let bsPeers := sizeZ (at_ (mesh bs) bitmask) in
      let suggested := if suggested =? 0 then Dlo par else suggested in
      (suggested <=? fsPeers + bsPeers) || (Dhi par <=? bsPeers)
  end.

(** ** Prune backoff *)
Definition doAddBackoff (bs : BlossomSubRouter) (p : PeerID) (bitmask : bytes) (interval : Z) : BlossomSubRouter :=
  let b := default ∅ (backoff bs !! bitmask) in
  let expire := now e + interval in
  (* a missing entry is the zero time, which is before every instant *)
  let b := if match b !! p with Some t => t <? expire | None => true end then <[p := expire]> b else b in
  set_backoff bs (<[bitmask := b]> (backoff bs)).

Definition addBackoff (bs : BlossomSubRouter) (p : PeerID) (bitmask : bytes) (isUnsubscribe : bool) : BlossomSubRouter :=
  doAddBackoff bs p bitmask (if isUnsubscribe then UnsubscribeBackoff par else PruneBackoff par).

(** ** Sending *)
Definition makePrune (s : site) (bs : BlossomSubRouter) (p : PeerID) (bitmask : bytes)
    (doPX isUnsubscribe : bool) : ControlPrune :=
  if featureOf bs BlossomSubFeaturePX p then
    let backoff := Z.quot (if isUnsubscribe then UnsubscribeBackoff par else PruneBackoff par) Second mod 2 ^ 64 in
    let px := if doPX then
                (fun p => mkPeerInfo p (peerRecord e p)) <$>
                  getPeers s bs bitmask (PrunePeers par)
                    (fun xp => negb (bool_decide (p = xp)) && geF (liveScore e s xp) zeroF)
              else [] in
    mkPrune bitmask px backoff
  else mkPrune bitmask [] 0.

Definition pushControl (bs : BlossomSubRouter) (p : PeerID) (c : ControlMessage) : BlossomSubRouter :=
  let c := set_iwant (set_ihave c []) [] in
  match Graft c, Prune c with
  | [], [] => bs
  | _, _ => set_control bs (<[p := c]> (control bs))
  end.

Definition inMesh (bs : BlossomSubRouter) (b : bytes) (p : PeerID) : bool := bool_decide (p ∈ at_ (mesh bs) b).

(** Stale entries are left out: a GRAFT whose peer is not in the mesh any
    more, a PRUNE whose peer is in it again. *)
Definition piggybackControl (bs : BlossomSubRouter) (p : PeerID) (out : RPC) (c : ControlMessage) : RPC :=
  let tograft := filter (fun g => inMesh bs (gr_bitmask g) p = true) (Graft c) in
  let toprune := filter (fun g => inMesh bs (pr_bitmask g) p = false) (Prune c) in
  match tograft, toprune with
  | [], [] => out
  | _, _ =>
      let x := ctl out in
      BlsRpc.set_control out (Some (set_prune (set_graft x (Graft x ++ tograft)) (Prune x ++ toprune)))
  end.

Definition piggybackGossip (out : RPC) (ihave : list ControlIHave) : RPC :=
  BlsRpc.set_control out (Some (set_ihave (ctl out) ihave)).

Definition doDropRPC (bs : BlossomSubRouter) (rpc : RPC) (p : PeerID) : BlossomSubRouter :=
  let bs := emit bs [EvDropRPC p rpc] in
  match Control rpc with None => bs | Some c => pushControl bs p c end.

Definition doSendRPC (bs : BlossomSubRouter) (rpc : RPC) (p : PeerID) (fast : bool) : BlossomSubRouter :=
  if room e (trace bs) p then emit bs [EvSendRPC p rpc fast] else doDropRPC bs rpc p.

Definition sendRPC (bs : BlossomSubRouter) (p : PeerID) (out : RPC) (fast : bool) : BlossomSubRouter :=
  let '(bs, out) :=
    match control bs !! p with
    | None => (bs, out)
    | Some c => (set_control bs (delete p (control bs)), piggybackControl bs p out c)
    end in
  let '(bs, out) :=
    match pending bs !! p with
    | None => (bs, out)
    | Some ihave => (set_pending bs (delete p (pending bs)), piggybackGossip out ihave)
    end in
  if bool_decide (p ∈ queues bs) then
    if Size out <? softMaxMessageSize cfg then doSendRPC bs out p fast
    else
      foldl (fun bs rpc =>
        if hardMaxMessageSize cfg <? Size rpc then doDropRPC bs out p else doSendRPC bs rpc p fast)
        bs (appendOrMergeRPC (softMaxMessageSize cfg) [] [out])
  else bs.

Definition sendGraft (bs : BlossomSubRouter) (p : PeerID) (bitmask : bytes) : BlossomSubRouter :=
  sendRPC bs p (rpcWithControl [] [] [] [mkGraft bitmask] [] []) false.

Definition sendPrune (bs : BlossomSubRouter) (p : PeerID) (bitmask : bytes) (isUnsubscribe : bool) : BlossomSubRouter :=
  sendRPC bs p (rpcWithControl [] [] [] [] [makePrune ([bitmask; p], 9%nat) bs p bitmask (doPX cfg) isUnsubscribe] []) false.

(** ** Peers come and go *)
(** A connection counts if it has a pubsub stream. *)
Definition hasOutbound (conns : list connInfo) (proto : bytes) : bool :=
  existsb (fun c => negb (Limited c) && DirOutbound c
                    && existsb (fun s => bool_decide (s = proto)) (streamProtos c)) conns.

Definition AddPeer (bs : BlossomSubRouter) (p : PeerID) (proto : bytes) : BlossomSubRouter :=
  set_outbound (set_peers bs (<[p := proto]> (peers bs)))
    (<[p := hasOutbound (connsToPeer e p) proto]> (outbound bs)).

Definition RemovePeer (bs : BlossomSubRouter) (p : PeerID) : BlossomSubRouter :=
  let bs := emit bs ((EvPrune p) <$> filter (fun b => inMesh bs b p = true)
                       (iter e ([p], 0%nat) (dom (mesh bs)))) in
  let drop := fmap (M := gmap bytes) (fun X : gset PeerID => X ∖ {[p]}) in
  let bs := set_peers bs (delete p (peers bs)) in
  let bs := set_fanout (set_mesh bs (drop (mesh bs))) (drop (fanout bs)) in
  let bs := set_control (set_pending bs (delete p (pending bs))) (delete p (control bs)) in
  set_unwanted (set_outbound bs (delete p (outbound bs))) (delete p (unwanted bs)).

Inductive AcceptStatus := AcceptNone | AcceptControl | AcceptAll.
(** [gate] is the answer of the peer gater. *)
Definition AcceptFrom (bs : BlossomSubRouter) (gate : AcceptStatus) (p : PeerID) : AcceptStatus :=
  if bool_decide (p ∈ direct bs) then AcceptAll
  else if ltF (score e p) (graylistThreshold cfg) then AcceptNone
  else gate.

(** ** Control messages.  Each handler reads the score of the peer once, when it
    begins; handlers before it may have changed the score. *)
(** The identifiers of an IHAVE we do not have, up to the length limit. *)
Definition unseen (h : ControlIHave) : list bytes :=
  filter (fun mid => seen e mid = false) (take (Z.to_nat (MaxIHaveLength par)) (ih_messageIDs h)).

Definition handleIHave (bs : BlossomSubRouter) (p : PeerID) (c : ControlMessage)
    : BlossomSubRouter * list ControlIWant :=
  if ltF (score e p) (gossipThreshold cfg) then (bs, [])
  else
    let n := count (peerhave bs) p + 1 in
    let bs := set_peerhave bs (<[p := n]> (peerhave bs)) in
    if MaxIHaveMessages par <? n then (bs, [])
    else if MaxIHaveLength par <=? count (iasked bs) p then (bs, [])
    else
      let iwant : gset bytes :=
        list_to_set (filter (fun h => bool_decide (is_Some (mesh bs !! ih_bitmask h))
                                      && peerFilter cfg p (ih_bitmask h) = true) (Ihave c) ≫= unseen) in
      if bool_decide (iwant = ∅) then (bs, [])
      else
        let iask := sizeZ iwant in
        let iask := if MaxIHaveLength par <? iask + count (iasked bs) p
                    then MaxIHaveLength par - count (iasked bs) p else iask in
        let iwantlst := take (Z.to_nat iask) (iter e ([p], 1%nat) iwant) in
        let bs := set_iasked bs (<[p := count (iasked bs) p + iask]> (iasked bs)) in
        (emit bs [EvPromise p iwantlst], [mkIWant iwantlst]).

(** The loop of [handleIWant]: the messages to send, by identifier. *)
Definition iwantStep (p : PeerID) (st : BlossomSubRouter * gmap bytes pbMessage) (mid : bytes)
    : BlossomSubRouter * gmap bytes pbMessage :=
  let '(bs, ihave) := st in
  let '(mc, r) := GetForPeer (mcache bs) mid p in
  let bs := set_mcache bs mc in
  match r with
  | None => (bs, ihave)
  | Some (msg, n) =>
      if negb (peerFilter cfg p (GetBitmask msg)) then (bs, ihave)
      else if GossipRetransmission par <? n then (bs, ihave)
      else (bs, <[mid := msg_pb msg]> ihave)
  end.

Definition isUnwanted (bs : BlossomSubRouter) (p : PeerID) (mid : bytes) : bool :=
  bool_decide (is_Some (default ∅ (unwanted bs !! p) !! mid)).

Definition handleIWant (bs : BlossomSubRouter) (p : PeerID) (c : ControlMessage)
    : BlossomSubRouter * list pbMessage :=
  if ltF (liveScore e ([p], 1%nat) p) (gossipThreshold cfg) then (bs, [])
  else
    let '(bs, ihave) := foldl (iwantStep p) (bs, ∅) (Iwant c ≫= iw_messageIDs) in
    let out := omap (fun mid => ihave !! mid) (iter e ([p], 2%nat) (dom ihave)) in
    (bs, filter (fun msg => negb (bool_decide (pm_from msg = p)) && negb (isUnwanted bs p (RawID (idGen cfg) msg)) = true) out).

(** The expiry of a backoff that has not expired yet. *)
Definition activeBackoff (bs : BlossomSubRouter) (bitmask : bytes) (p : PeerID) : option Z :=
  match default ∅ (backoff bs !! bitmask) !! p with
  | Some expire => if now e <? expire then Some expire else None
  | None => None
  end.

(** The outcome of one GRAFT: the router, the bitmasks to prune, [doPX]. *)
Definition graftStep (p : PeerID) (st : BlossomSubRouter * list bytes * bool) (g : ControlGraft)
    : BlossomSubRouter * list bytes * bool :=
  let '(bs, prune, px) := st in
  let bitmask := gr_bitmask g in
  if negb (peerFilter cfg p bitmask) then st
  else
    match mesh bs !! bitmask with
    | None => (bs, prune, false)
    | Some ps =>
        if bool_decide (p ∈ ps) then st
        else if bool_decide (p ∈ direct bs) then (bs, prune ++ [bitmask], false)
        else
          let refuse bs := (addBackoff bs p bitmask false, prune ++ [bitmask]) in
          match activeBackoff bs bitmask p with
          | Some expire =>
              let bs := emit bs [EvPenalty p 1] in
              let floodCutoff := expire + (GraftFloodThreshold par - PruneBackoff par) in
              let bs := if now e <? floodCutoff then emit bs [EvPenalty p 1] else bs in
              (refuse bs, false)
          | None =>
              if ltF (liveScore e ([p], 2%nat) p) zeroF then (refuse bs, false)
              else if (Dhi par <=? sizeZ ps) && negb (default false (outbound bs !! p)) then (refuse bs, px)
              else (emit (set_mesh bs (<[bitmask := {[p]} ∪ ps]> (mesh bs))) [EvGraft p bitmask], prune, px)
          end
    end.

Definition handleGraft (bs : BlossomSubRouter) (p : PeerID) (c : ControlMessage)
    : BlossomSubRouter * list ControlPrune :=
  let '(bs, prune, px) := foldl (graftStep p) (bs, [], doPX cfg) (Graft c) in
  (bs, imap (fun i b => makePrune ([b; p], (10 + i)%nat) bs p b px false) prune).

(** The channel drops a request when it is full.  [PrunePeers] is not negative:
    the slice of Go would panic. *)
Definition pxConnect (s : site) (bs : BlossomSubRouter) (l : list PeerInfo) : BlossomSubRouter :=
  let l := if PrunePeers par <? Z.of_nat (length l)
           then take (Z.to_nat (PrunePeers par)) (shufflePeers (intn e s) l) else l in
  let toconnect := filter (fun pi => bool_decide (peers bs !! pi_peerID pi = None) && validRecord e pi = true) l in
  foldl (fun bs pi =>
    if Z.of_nat (length (connect bs)) <? MaxPendingConnections par
    then set_connect bs (connect bs ++ [pi_peerID pi]) else bs) bs toconnect.

Definition pruneStep (p : PeerID) (bs : BlossomSubRouter) (pr : ControlPrune) : BlossomSubRouter :=
  let bitmask := pr_bitmask pr in
  match mesh bs !! bitmask with
  | None => bs
  | Some ps =>
      let bs := if bool_decide (p ∈ ps)
                then set_mesh (emit bs [EvPrune p bitmask]) (<[bitmask := ps ∖ {[p]}]> (mesh bs)) else bs in
      let bs := if 0 <? pr_backoff pr then doAddBackoff bs p bitmask (Int64.mul64 (Int64.wrap64 (pr_backoff pr)) Second)
                else addBackoff bs p bitmask false in
      match pr_peers pr with
      | [] => bs
      | px => if ltF (liveScore e ([p], 3%nat) p) (acceptPXThreshold cfg) then bs else pxConnect ([bitmask; p], 3%nat) bs px
      end
  end.

Definition handlePrune (bs : BlossomSubRouter) (p : PeerID) (c : ControlMessage) : BlossomSubRouter :=
  foldl (pruneStep p) bs (Prune c).

Definition handleIDontWant (bs : BlossomSubRouter) (p : PeerID) (c : ControlMessage) : BlossomSubRouter :=
  let bs := match unwanted bs !! p with
            | None => set_unwanted bs (<[p := ∅]> (unwanted bs)) | Some _ => bs end in
  if MaxIDontWantMessages par <=? count (peerdontwant bs) p then bs
  else
    let bs := set_peerdontwant bs (<[p := count (peerdontwant bs) p + 1]> (peerdontwant bs)) in
    let mids := Idontwant c ≫= id_messageIDs in
    set_unwanted bs (alter (fun m => foldl (fun m mid => <[mid := IDontWantMessageTTL par]> m) m mids) p (unwanted bs)).

Definition HandleRPC (bs : BlossomSubRouter) (rpc : RPC) : BlossomSubRouter :=
  match Control rpc with
  | None => bs
  | Some c =>
      let p := rpc_from rpc in
      let '(bs, iwant) := handleIHave bs p c in
      let '(bs, ihave) := handleIWant bs p c in
      let '(bs, prune) := handleGraft bs p c in
      let bs := handlePrune bs p c in
      let bs := handleIDontWant bs p c in
      match iwant, ihave, prune with
      | [], [], [] => bs
      | _, _, _ => sendRPC bs p (rpcWithControl ihave [] iwant [] prune []) false
      end
  end.

(** ** Joining, leaving, publishing *)
Definition hasBackoff (bs : BlossomSubRouter) (bitmask : bytes) (p : PeerID) : bool :=
  bool_decide (is_Some (default ∅ (backoff bs !! bitmask) !! p)).
Definition isDirect (bs : BlossomSubRouter) (p : PeerID) : bool := bool_decide (p ∈ direct bs).

(** The peers of the mesh that [Join] builds. *)
Definition joinPeers (bs : BlossomSubRouter) (bitmask : bytes) : gset PeerID :=
  match fanout bs !! bitmask with
  | Some gmap =>
      let gmap := filter (fun p => ltF (score e p) zeroF || hasBackoff bs bitmask p = false) gmap in
      if sizeZ gmap <? D par then
        gmap ∪ peerListToMap (getPeers ([bitmask], 4%nat) bs bitmask (D par - sizeZ gmap)
          (fun p => negb (bool_decide (p ∈ gmap)) && negb (isDirect bs p) && negb (hasBackoff bs bitmask p)
                    && geF (score e p) zeroF))
      else gmap
  | None =>
      peerListToMap (getPeers ([bitmask], 4%nat) bs bitmask (D par)
        (fun p => negb (isDirect bs p) && negb (hasBackoff bs bitmask p) && geF (score e p) zeroF))
  end.

Definition Join (bs : BlossomSubRouter) (bitmask : bytes) : BlossomSubRouter :=
  match mesh bs !! bitmask with
  | Some _ => bs
  | None =>
      let gmap := joinPeers bs bitmask in
      let bs := emit bs [EvJoin bitmask] in
      let bs := match fanout bs !! bitmask with
                | Some _ => set_lastpub (set_fanout bs (delete bitmask (fanout bs))) (delete bitmask (lastpub bs))
                | None => bs
                end in
      let bs := set_mesh bs (<[bitmask := gmap]> (mesh bs)) in
      foldl (fun bs p => sendGraft (emit bs [EvGraft p bitmask]) p bitmask) bs (iter e ([bitmask], 5%nat) gmap)
  end.

Definition Leave (bs : BlossomSubRouter) (bitmask : bytes) : BlossomSubRouter :=
  match mesh bs !! bitmask with
  | None => bs
  | Some gmap =>
      let bs := set_mesh (emit bs [EvLeave bitmask]) (delete bitmask (mesh bs)) in
      foldl (fun bs p =>
        addBackoff (sendPrune (emit bs [EvPrune p bitmask]) p bitmask true) p bitmask true)
        bs (iter e ([bitmask], 6%nat) gmap)
  end.

(** The fanout of a bitmask that is not joined, filled when it is empty, and
    the peers it gives. *)
Definition fanoutPeers (bs : BlossomSubRouter) (bitmask : bytes) : BlossomSubRouter * gset PeerID :=
  let gmap := at_ (fanout bs) bitmask in
  let '(bs, gmap) :=
    if bool_decide (gmap = ∅) then
      let ps := getPeers ([bitmask], 7%nat) bs bitmask (D par)
                  (fun p => negb (isDirect bs p) && geF (score e p) (publishThreshold cfg)) in
      match ps with
      | [] => (bs, gmap)
      | _ => (set_fanout bs (<[bitmask := peerListToMap ps]> (fanout bs)), peerListToMap ps)
      end
    else (bs, gmap) in
  (set_lastpub bs (<[bitmask := now e]> (lastpub bs)), gmap).

(** The peers to send a message to for one of its slices. *)
Definition publishSlice (bs : BlossomSubRouter) (from originalSender : PeerID) (mid bitmask : bytes)
    (tmap : gset PeerID) : BlossomSubRouter * gset PeerID :=
  let '(bs, tosend) :=
    if floodPublish cfg && bool_decide (from = hostID cfg) then
      (bs, filter (fun p => isDirect bs p || geF (score e p) (publishThreshold cfg) = true) tmap)
    else
      let tosend := filter (fun p => p ∈ tmap) (direct bs)
                    ∪ filter (fun p => negb (featureOf bs BlossomSubFeatureMesh p)
                                       && geF (score e p) (publishThreshold cfg) = true) tmap in
      let '(bs, gmap) := match mesh bs !! bitmask with
                         | Some gmap => (bs, gmap)
                         | None => fanoutPeers bs bitmask
                         end in
      (bs, tosend ∪ gmap) in
  (bs, filter (fun p => isUnwanted bs p mid = false) (tosend ∖ {[from]} ∖ {[originalSender]})).

(** The loop over the slices; the flag says that it returned early. *)
Fixpoint publishLoop (bs : BlossomSubRouter) (from originalSender : PeerID) (mid : bytes)
    (slices : list bytes) (acc : list (gset PeerID)) : BlossomSubRouter * option (list (gset PeerID)) :=
  match slices with
  | [] => (bs, Some acc)
  | bitmask :: rest =>
      match bitmasks bs !! bitmask with
      | None => (bs, None)
      | Some tmap =>
          let '(bs, tosend) := publishSlice bs from originalSender mid bitmask tmap in
          publishLoop bs from originalSender mid rest
            (if bool_decide (tosend = ∅) then acc else acc ++ [tosend])
      end
  end.

Definition PublishMsg (bs : BlossomSubRouter) (msg : Message) : option BlossomSubRouter :=
  mc ← Put (mcache bs) msg;
  let bs := set_mcache bs mc in
  let '(bs, all) := publishLoop bs (ReceivedFrom msg) (GetFrom msg) (idOf (idGen cfg) msg) (SliceBitmask (GetBitmask msg)) [] in
  match all with
  | None | Some [] => Some bs
  | Some toSendAll =>
      let toSend := default ∅ (toSendAll !! intn e ([], 8%nat) (length toSendAll - 1)) in
      Some (foldl (fun bs p => sendRPC bs p (rpcWithMessages [msg_pb msg]) false) bs
              (iter e ([], 8%nat) toSend))
  end.

(** ** IDONTWANT before validation *)
(** The messages of a slice, for the slices that occur. *)
Definition PreValidation (bs : BlossomSubRouter) (msgs : list Message) : BlossomSubRouter :=
  let big := filter (fun m => IDontWantMessageThreshold par <= len (GetData m)) msgs in
  let wants (p : PeerID) (m : Message) : bool :=
    existsb (fun b => inMesh bs b p) (SliceBitmask (GetBitmask m))
    && featureOf bs BlossomSubFeatureIdontwant p && negb (bool_decide (ReceivedFrom m = p)) in
  let toSend : gset PeerID :=
    filter (fun p => existsb (wants p) big = true) (⋃ (snd <$> map_to_list (mesh bs))) in
  foldl (fun bs p =>
    let mids := shufflePeers (intn e ([p], 9%nat)) (idOf (idGen cfg) <$> filter (fun m => wants p m = true) big) in
    sendRPC bs p (rpcWithControl [] [] [] [] [] [mkIDontWant mids]) true)
    bs (iter e ([], 9%nat) toSend).

(** ** The start *)
(** [direct0] is set by [WithDirectPeers]; [None] is a panic. *)
Definition NewBlossomSubRouter (sha256 : bytes -> bytes) (direct0 : gset PeerID) : option BlossomSubRouter :=
  if MaxPendingConnections par <? 0 then None
  else
    mc ← NewMessageCache (fun msg => DefaultMsgIdFn sha256 (msg_pb msg)) (HistoryGossip par) (HistoryLength par);
    Some (mkRouter ∅ direct0 ∅ ∅ ∅ ∅ ∅ ∅ ∅ ∅ ∅ ∅ ∅ [] mc 0 ∅ ∅ []).

Definition Attach (bs : BlossomSubRouter) : BlossomSubRouter :=
  set_mcache bs (SetMsgIdFn (mcache bs) (idOf (idGen cfg))).

(** The goroutine that [Attach] starts for the direct peers: it waits for room. *)
Definition connectDirect (bs : BlossomSubRouter) (p : PeerID) : option BlossomSubRouter :=
  if Z.of_nat (length (connect bs)) <? MaxPendingConnections par
  then Some (set_connect bs (connect bs ++ [p])) else None.
End router.

(** The features of a network other than 0 (NewBlossomSubRouter): an index out
    of range is a panic, [None]. *)
Definition networkFeature (protos : list bytes) (f : BlossomSubFeature) (proto : bytes) : option bool :=
  match f with
  | BlossomSubFeatureMesh | BlossomSubFeaturePX =>
      p0 ← protos !! 0%nat;
      if bool_decide (proto = p0) then Some true
      else p1 ← protos !! 1%nat; Some (bool_decide (proto = p1))
  | BlossomSubFeatureIdontwant => p0 ← protos !! 0%nat; Some (bool_decide (proto = p0))
  end.
Definition networkProtos (suffix : bytes) : list bytes := (fun p => p ++ suffix) <$> BlossomSubDefaultProtocols.
