(* ===== verification/RouterLaws.v ===== *)
(** * Laws of the router's parts

    Sending changes only the pending messages; [getPeers] returns peers that
    pass its filter; the comparison of scores is an order on the numbers. *)
From Stdlib Require Import ZArith Lia Floats.SpecFloat.
From stdpp Require Import base tactics list numbers option gmap sets fin_maps.
From S2P Require Import Prelude GoBytes Bitmask BlsRpc MessageCache Router.
Local Open Scope Z_scope.

(** ** Shuffling permutes *)
Lemma swap_perm {A} (l : list A) i j : swap l i j ≡ₚ l.
Proof.
  unfold swap. destruct (l !! i) as [a|] eqn:Ei; [|done]. destruct (l !! j) as [b|] eqn:Ej; [|done].
  by apply Permutation_insert_swap.
Qed.

Lemma shuffle_perm {A} rnd (l : list A) : shufflePeers rnd l ≡ₚ l.
Proof.
  unfold shufflePeers. generalize (seq 0 (length l)). intros idx. revert l.
  induction idx as [|i idx IH]; intros l; [done|]. simpl. rewrite IH. apply swap_perm.
Qed.

(** ** Scores: a total order on the numbers *)
Definition key (f : spec_float) : Z * Z * Z :=
  match f with
  | S754_zero _ => (0, 0, 0)
  | S754_infinity s => (if s then -2 else 2, 0, 0)
  | S754_nan => (3, 0, 0)
  | S754_finite s m e => if s then (-1, - e, Z.neg m) else (1, e, Z.pos m)
  end.
Definition keyLt (a b : Z * Z * Z) : Prop :=
  let '(a1, a2, a3) := a in let '(b1, b2, b3) := b in
  a1 < b1 \/ a1 = b1 /\ (a2 < b2 \/ a2 = b2 /\ a3 < b3).

Lemma ltF_key x y : x <> S754_nan -> y <> S754_nan -> ltF x y = true <-> keyLt (key x) (key y).
Proof.
  intros Hx Hy. unfold ltF, SFltb, SFcompare.
  destruct x as [sx|sx| |sx mx ex], y as [sy|sy| |sy my ey]; try done;
    try destruct sx; try destruct sy; simpl; try (split; [done|]; lia); try (split; [lia|done]).
  all: destruct (Z.compare_spec ex ey); simpl; try (split; [done|]; lia); try (split; [lia|done]).
  all: subst; rewrite <-?Pos.compare_antisym;
    try change (PosDef.Pos.compare_cont Eq mx my) with (mx ?= my)%positive;
    match goal with |- context [(?a ?= ?b)%positive] => destruct (Pos.compare_spec a b) end; simpl;
    try (split; [done|]; lia); try (split; [lia|done]).
Qed.

Definition strictWeak {A} (less : A -> A -> bool) : Prop :=
  (forall x y, less x y = true -> less y x = false)
  /\ (forall x y z, less x z = true -> less x y = true \/ less y z = true).

Lemma keyLt_asym a b : keyLt a b -> ~ keyLt b a.
Proof. destruct a as [[a1 a2] a3], b as [[b1 b2] b3]. simpl. lia. Qed.
Lemma keyLt_neg a b c : keyLt a c -> keyLt a b \/ keyLt b c.
Proof. destruct a as [[a1 a2] a3], b as [[b1 b2] b3], c as [[c1 c2] c3]. simpl. lia. Qed.

Lemma score_strictWeak (score : PeerID -> spec_float) :
  (forall p, score p <> S754_nan) -> strictWeak (fun p q => ltF (score p) (score q)).
Proof.
  intros Hn. split.
  - intros p q H. apply not_true_is_false. rewrite ltF_key in * by done. by apply keyLt_asym.
  - intros p q r H. rewrite ltF_key in H by done. rewrite !ltF_key by done. by apply keyLt_neg.
Qed.

Lemma strictWeak_flip {A} (less : A -> A -> bool) : strictWeak less -> strictWeak (fun x y => less y x).
Proof. intros [H1 H2]. split; [intros; by apply H1|]. intros x y z H. apply H2 with (y := y) in H. tauto. Qed.

Lemma geF_zero x : geF x zeroF = true -> ltF x zeroF = false.
Proof. by destruct x as [[]|[]| |[] m ex]. Qed.

Lemma ltF_nonneg_trans x y :
  x <> S754_nan -> y <> S754_nan -> ltF x zeroF = false -> ltF x y = true -> ltF y zeroF = false.
Proof.
  intros Hx Hy H0 Hxy. apply not_true_is_false. intros Hy0. apply not_true_iff_false in H0. apply H0.
  rewrite ltF_key in * by done.
  destruct (key x) as [[a1 a2] a3], (key y) as [[b1 b2] b3]. simpl in *. lia.
Qed.

(** On a network other than 0 a peer that speaks another protocol makes the
    test of the mesh feature panic: the list of protocols has one entry. *)
Lemma network_feature_panics suffix proto :
  proto <> BlossomSubID_v21 ++ suffix ->
  networkFeature (networkProtos suffix) BlossomSubFeatureMesh proto = None.
Proof. intros H. unfold networkFeature. cbn. by rewrite bool_decide_false. Qed.

(** ** Sending changes pending messages alone *)
Definition quiet (bs : BlossomSubRouter) : BlossomSubRouter :=
  set_trace (set_pending (set_control bs ∅) ∅) [].

Lemma foldl_quiet {A} (f : BlossomSubRouter -> A -> BlossomSubRouter) bs l :
  (forall bs a, quiet (f bs a) = quiet bs) -> quiet (foldl f bs l) = quiet bs.
Proof. intros Hf. revert bs. induction l as [|a l IH]; intros bs; [done|]. simpl. by rewrite IH, Hf. Qed.

Section laws.
Context `{PS : ProtoSize} (cfg : config) (e : env).

Lemma doDropRPC_quiet bs rpc p : quiet (doDropRPC bs rpc p) = quiet bs.
Proof.
  unfold doDropRPC, pushControl. destruct (Control rpc) as [c|]; [|done]. simpl.
  by destruct (Graft c), (Prune c).
Qed.

Lemma doSendRPC_quiet bs rpc p fast : quiet (doSendRPC e bs rpc p fast) = quiet bs.
Proof. unfold doSendRPC. destruct (room e _ p); [done|]. apply doDropRPC_quiet. Qed.

Lemma sendRPC_quiet bs p out fast : quiet (sendRPC cfg e bs p out fast) = quiet bs.
Proof.
  unfold sendRPC.
  set (r1 := match control bs !! p with None => _ | Some c => _ end).
  assert (H1 : quiet r1.1 = quiet bs) by (subst r1; by destruct (control bs !! p)).
  destruct r1 as [bs1 out1]. simpl in H1. rewrite <-H1.
  set (r2 := match pending bs1 !! p with None => _ | Some c => _ end).
  assert (H2 : quiet r2.1 = quiet bs1) by (subst r2; by destruct (pending bs1 !! p)).
  destruct r2 as [bs2 out2]. simpl in H2. rewrite <-H2. clear.
  case_bool_decide; [|done]. destruct (Size out2 <? _); [apply doSendRPC_quiet|].
  apply foldl_quiet. intros bs rpc. destruct (_ <? _); [apply doDropRPC_quiet|apply doSendRPC_quiet].
Qed.

(** ** Choosing peers *)
Definition eligible (bs : BlossomSubRouter) (flt : PeerID -> bool) (p : PeerID) : bool :=
  featureOf cfg bs BlossomSubFeatureMesh p && flt p.

Context (Eok : env_ok e).

Lemma NoDup_iter s X : NoDup (iter e s X).
Proof. rewrite (iter_perm e Eok). apply NoDup_elements. Qed.
Lemma elem_of_iter s X p : p ∈ iter e s X <-> p ∈ X.
Proof. rewrite (iter_perm e Eok). apply elem_of_elements. Qed.
Lemma length_iter s X : length (iter e s X) = size X.
Proof. by rewrite (iter_perm e Eok). Qed.

Lemma getPeersLoop_spec s bs flt slices set r :
  getPeersLoop cfg e s bs flt slices set = Some r ->
  NoDup set -> Forall (fun p => eligible bs flt p = true) set ->
  NoDup r /\ Forall (fun p => eligible bs flt p = true) r.
Proof.
  revert set. induction slices as [|slice slices IH]; intros set E Hnd HF; cbn [getPeersLoop] in E; [by simplify_eq|].
  destruct (bitmasks bs !! slice) as [tmap|]; [|done].
  set (ps := filter _ _) in E.
  assert (Hps : NoDup ps /\ Forall (fun p => eligible bs flt p = true) ps).
  { split; [apply NoDup_filter, NoDup_iter|]. apply Forall_forall. intros p [Hp _]%list_elem_of_filter.
    unfold eligible. by apply andb_true_iff in Hp as [-> _]. }
  destruct Hps as [Hps1 Hps2]. destruct set as [|x set]; [by eapply IH|].
  set (ns := filter _ ps) in E.
  assert (Hns : NoDup ns /\ Forall (fun p => eligible bs flt p = true) ns).
  { split; [by apply NoDup_filter|]. apply Forall_forall. intros p [_ Hp]%list_elem_of_filter.
    rewrite Forall_forall in Hps2. auto. }
  destruct ns as [|y ns]; [done|]. eapply IH; [done|apply Hns..].
Qed.

(** [getPeers] returns distinct peers that pass its filter and speak the mesh
    protocol, and no more than asked for. *)
Lemma getPeers_spec s bs b cnt flt :
  let l := getPeers cfg e s bs b cnt flt in
  NoDup l /\ Forall (fun p => eligible bs flt p = true) l /\ (0 < cnt -> Z.of_nat (length l) <= cnt).
Proof.
  unfold getPeers. destruct (getPeersLoop _ _ _ _ _ _ _) as [set|] eqn:E.
  2: { split_and!; [constructor|constructor|simpl; lia]. }
  destruct (getPeersLoop_spec _ _ _ _ _ _ E) as [Hnd HF]; [constructor|constructor|].
  set (sh := shufflePeers (intn e s) set).
  assert (Hsh : sh ≡ₚ set) by apply shuffle_perm. rewrite <-Hsh in Hnd, HF.
  destruct ((0 <? cnt) && (cnt <? Z.of_nat (length sh))) eqn:Ec.
  - apply andb_true_iff in Ec as [?%Z.ltb_lt ?%Z.ltb_lt]. split_and!.
    + eapply sublist_NoDup; [done|]. apply sublist_take.
    + by apply Forall_take.
    + rewrite length_take. lia.
  - split_and!; try done. apply andb_false_iff in Ec as [?%Z.ltb_ge|?%Z.ltb_ge]; lia.
Qed.

(** For a single-bit bitmask it returns as many as there are. *)
Lemma getPeers_single s bs b tmap cnt flt :
  SliceBitmask b = [b] -> bitmasks bs !! b = Some tmap -> 0 < cnt ->
  Z.of_nat (length (getPeers cfg e s bs b cnt flt))
  = Z.min cnt (sizeZ (filter (fun p => eligible bs flt p && peerFilter cfg p b = true) tmap)).
Proof.
  intros Hb Ht Hc. unfold getPeers. rewrite Hb. cbn [getPeersLoop]. rewrite Ht.
  set (ps := filter _ _). set (X := filter _ tmap).
  assert (Hlen : length (shufflePeers (intn e s) ps) = size X).
  { rewrite shuffle_perm. unfold size, set_size. apply Permutation_length, NoDup_Permutation.
    - apply NoDup_filter, NoDup_iter.
    - apply NoDup_elements.
    - intros p. rewrite elem_of_elements. unfold ps, X. rewrite list_elem_of_filter, elem_of_filter, elem_of_iter.
      done. }
  rewrite Hlen. rewrite (proj2 (Z.ltb_lt 0 cnt)) by done. simpl. unfold sizeZ.
  destruct (Z.ltb_spec cnt (Z.of_nat (size X))); [rewrite length_take, Hlen; lia|rewrite Hlen; lia].
Qed.

(** ** Which peers [getPeers] can return *)
(** The peers of a slice that [getPeers] considers *)
Definition considered (bs : BlossomSubRouter) (flt : PeerID -> bool) (slice : bytes) : gset PeerID :=
  filter (fun p => eligible bs flt p && peerFilter cfg p slice = true) (at_ (bitmasks bs) slice).

(** Every slice has subscribers. *)
Definition known (bs : BlossomSubRouter) (slices : list bytes) : Prop :=
  Forall (fun slice => is_Some (bitmasks bs !! slice)) slices.

Lemma getPeersLoop_cons s bs flt slice slices set : is_Some (bitmasks bs !! slice) ->
  exists ps, (forall p, p ∈ ps <-> p ∈ considered bs flt slice)
    /\ getPeersLoop cfg e s bs flt (slice :: slices) set
       = match set with
         | [] => getPeersLoop cfg e s bs flt slices ps
         | _ => match filter (fun p => p ∈ set) ps with
                | [] => None | newSet => getPeersLoop cfg e s bs flt slices newSet end
         end.
Proof.
  intros [tmap E]. cbn [getPeersLoop]. rewrite E. eexists. split; [|reflexivity].
  intros p. unfold considered, at_. rewrite E, list_elem_of_filter, elem_of_filter, elem_of_iter. done.
Qed.

Lemma getPeersLoop_inter s bs flt slices p : forall set, known bs slices -> set <> [] ->
  p ∈ default [] (getPeersLoop cfg e s bs flt slices set)
  <-> p ∈ set /\ forall slice, slice ∈ slices -> p ∈ considered bs flt slice.
Proof.
  induction slices as [|slice slices IH]; intros set Hk Hne; [cbn; set_solver|].
  inversion Hk as [|?? H1 Hk']; subst. destruct (getPeersLoop_cons s bs flt slice slices set H1) as (ps & Hps & ->).
  destruct set as [|x set]; [done|]. set (X := x :: set). change (x :: set) with X in Hne.
  pose proof (list_elem_of_filter (fun p => p ∈ X) ps p) as HF.
  destruct (filter (fun p => p ∈ X) ps) as [|y l].
  - cbn [default]. rewrite elem_of_nil in HF. split; [by intros ?%elem_of_nil|]. intros [HX Ha]. exfalso. apply HF.
    split; [done|]. apply Hps, Ha. by left.
  - rewrite IH, HF, Hps by done. split.
    + intros [[HX Hp] Ha]. split; [done|]. intros sl [->|?]%elem_of_cons; auto.
    + intros [HX Ha]. split; [split; [done|apply Ha; by left]|]. intros sl Hs. apply Ha. by right.
Qed.

Lemma getPeersLoop_skip s bs flt pre slices : known bs pre -> Forall (fun sl => considered bs flt sl = ∅) pre ->
  getPeersLoop cfg e s bs flt (pre ++ slices) [] = getPeersLoop cfg e s bs flt slices [].
Proof.
  induction pre as [|slice pre IH]; intros Hk He; [done|]. inversion Hk as [|?? H1 Hk']; subst.
  inversion He as [|?? H2 He']; subst. cbn [app].
  destruct (getPeersLoop_cons s bs flt slice (pre ++ slices) [] H1) as (ps & Hps & ->).
  destruct ps as [|x ps]; [by apply IH|]. exfalso. assert (Hx : x ∈ considered bs flt slice) by (apply Hps; by left).
  rewrite H2 in Hx. by apply elem_of_empty in Hx.
Qed.

(** Which peers [getPeers] returns when it is asked for all: those it
    considers in every slice of the bitmask, but for the slices at the beginning
    in which it considers nobody, which do not count. *)
Theorem getPeers_exact s bs b flt pre slice slices p :
  SliceBitmask b = pre ++ slice :: slices -> known bs (SliceBitmask b) ->
  Forall (fun sl => considered bs flt sl = ∅) pre -> considered bs flt slice <> ∅ ->
  p ∈ getPeers cfg e s bs b 0 flt <-> (forall sl, sl ∈ slice :: slices -> p ∈ considered bs flt sl).
Proof.
  intros Eb Hk Hpre Hne. rewrite Eb in Hk. apply Forall_app in Hk as [Hk1 Hk2]. inversion Hk2 as [|?? H1 Hk3]; subst.
  unfold getPeers. rewrite Eb, getPeersLoop_skip by done.
  destruct (getPeersLoop_cons s bs flt slice slices [] H1) as (ps & Hps & ->).
  assert (Hps0 : ps <> []) by (intros ->; apply Hne; apply elem_of_equiv_empty_L; intros x Hx%Hps; by apply elem_of_nil in Hx).
  pose proof (getPeersLoop_inter s bs flt slices p ps Hk3 Hps0) as HI. rewrite Hps in HI.
  transitivity (p ∈ default [] (getPeersLoop cfg e s bs flt slices ps)).
  - destruct (getPeersLoop cfg e s bs flt slices ps); [|done]. cbn [Z.ltb andb default]. simpl. by rewrite shuffle_perm.
  - rewrite HI. split.
    + intros [H2 H3] sl [->|?]%elem_of_cons; auto.
    + intros H2. split; [apply H2; by left|]. intros sl Hs. apply H2. by right.
Qed.
End laws.
