(* ===== verification/Heartbeat.v ===== *)
(** * The heartbeat of BlossomSub (go-libp2p-blossomsub/blossomsub.go, heartbeat)

    Every heartbeat clears counters and expired backoffs, brings the mesh of
    each joined bitmask back to its size, maintains the fanout, gossips, sends
    the GRAFTs and PRUNEs it decided on and shifts the message cache. *)
From Stdlib Require Import ZArith Lia Floats.SpecFloat.
From stdpp Require Import base tactics list numbers option gmap sets fin_maps.
From S2P Require Import Prelude Limits GoBytes Bitmask BlsRpc MessageCache Router.
Local Open Scope Z_scope.

(** [sort.Slice] *)
Class SortSlice := sortSlice : (PeerID -> PeerID -> bool) -> list PeerID -> list PeerID.

(** ** Keeping the excess peers: bubbling up outbound peers *)
(** [plst[i]] moved to the front. *)
Definition rotate (plst : list PeerID) (i : nat) : list PeerID :=
  match plst !! i with Some p => p :: delete i plst | None => plst end.

(** The two loops that rotate outbound peers to the front: over the indices
    [is], at most [n] peers. *)
Fixpoint bubble (out : PeerID -> bool) (idx : list nat) (n : Z) (plst : list PeerID) : list PeerID :=
  match idx with
  | [] => plst
  | i :: idx =>
      if n <=? 0 then plst
      else match plst !! i with
           | None => plst
           | Some p => if out p then bubble out idx (n - 1) (rotate plst i) else bubble out idx n plst
           end
  end.

Definition countOut (out : PeerID -> bool) (l : list PeerID) : Z :=
  Z.of_nat (length (filter (fun p => out p = true) l)).

(** The peers in the order in which they are kept: the first [d] stay. *)
Definition arrange (out : PeerID -> bool) (d dout : Z) (plst : list PeerID) : list PeerID :=
  let o := countOut out (take (Z.to_nat d) plst) in
  if o <? dout then
    let plst := if 0 <? o then bubble out (seq 1 (Z.to_nat d - 1)) o plst else plst in
    bubble out (seq (Z.to_nat d) (length plst - Z.to_nat d)) (dout - o) plst
  else plst.

Section heartbeat.
Context `{PS : ProtoSize} `{SS : SortSlice} (cfg : config) (e : env).
Local Abbreviation par := (params cfg).

Record hbState := mkHb {
  hb : BlossomSubRouter;
  tograft : gmap PeerID (list bytes);
  toprune : gmap PeerID (list bytes);
  noPX : gset PeerID }.

Definition push (m : gmap PeerID (list bytes)) (p : PeerID) (b : bytes) : gmap PeerID (list bytes) :=
  <[p := default [] (m !! p) ++ [b]]> m.
Definition meshOf (h : hbState) (b : bytes) : gset PeerID := at_ (mesh (hb h)) b.
Definition isOutbound (bs : BlossomSubRouter) (p : PeerID) : bool := default false (outbound bs !! p).

Definition prunePeer (b : bytes) (h : hbState) (p : PeerID) : hbState :=
  let bs := emit (hb h) [EvPrune p b] in
  let bs := set_mesh bs (alter (fun X : gset PeerID => X ∖ {[p]}) b (mesh bs)) in
  mkHb (addBackoff cfg e bs p b false) (tograft h) (push (toprune h) p b) (noPX h).

Definition graftPeer (b : bytes) (h : hbState) (p : PeerID) : hbState :=
  let bs := emit (hb h) [EvGraft p b] in
  mkHb (set_mesh bs (alter (fun X : gset PeerID => {[p]} ∪ X) b (mesh bs)))
    (push (tograft h) p b) (toprune h) (noPX h).

(** ** The steps for one bitmask *)
Definition dropNegative (b : bytes) (h : hbState) : hbState :=
  foldl (fun h p =>
    if ltF (score e p) zeroF then
      let h := prunePeer b h p in mkHb (hb h) (tograft h) (toprune h) ({[p]} ∪ noPX h)
    else h) h (iter e ([b], 20%nat) (meshOf h b)).

(** Not in the mesh, not backed off, not direct *)
Definition candidate (h : hbState) (b : bytes) (p : PeerID) : bool :=
  negb (bool_decide (p ∈ meshOf h b)) && negb (hasBackoff (hb h) b p) && negb (isDirect (hb h) p).

Definition graftSome (n : nat) (b : bytes) (h : hbState) (cnt : Z) (flt : PeerID -> bool) : hbState :=
  foldl (graftPeer b) h
    (getPeers cfg e ([b], n) (hb h) b cnt (fun p => candidate h b p && flt p)).

Definition fillMesh (b : bytes) (h : hbState) : hbState :=
  let l := sizeZ (meshOf h b) in
  if l <? Dlo par then graftSome 21 b h (D par - l) (fun p => geF (score e p) zeroF) else h.

(** The peers of the mesh, best first, the tail after [Dscore] shuffled. *)
Definition ranked (b : bytes) (h : hbState) : list PeerID :=
  let plst := shufflePeers (intn e ([b], 22%nat)) (iter e ([b], 22%nat) (meshOf h b)) in
  let plst := sortSlice (fun p q => ltF (score e q) (score e p)) plst in
  let n := Z.to_nat (Dscore par) in
  if Dscore par <? Z.of_nat (length plst)
  then take n plst ++ shufflePeers (intn e ([b], 23%nat)) (drop n plst) else plst.

(** The slices [plst[Dscore:]], [plst[:D]] and [plst[D:]] are out of range. *)
Definition trimPanics (b : bytes) (h : hbState) : bool :=
  (Dhi par <? sizeZ (meshOf h b))
  && negb ((0 <=? Dscore par) && (0 <=? D par) && (D par <=? sizeZ (meshOf h b))).

Definition trimMesh (b : bytes) (h : hbState) : hbState :=
  if Dhi par <? sizeZ (meshOf h b) then
    let plst := arrange (isOutbound (hb h)) (D par) (Dout par) (ranked b h) in
    foldl (prunePeer b) h (drop (Z.to_nat (D par)) plst)
  else h.

Definition fillOutbound (b : bytes) (h : hbState) : hbState :=
  if Dlo par <=? sizeZ (meshOf h b) then
    let o := countOut (isOutbound (hb h)) (elements (meshOf h b)) in
    if o <? Dout par
    then graftSome 24 b h (Dout par - o) (fun p => isOutbound (hb h) p && geF (score e p) zeroF)
    else h
  else h.

Definition opportunisticGraft (b : bytes) (h : hbState) : hbState :=
  if (heartbeatTicks (hb h) mod OpportunisticGraftTicks par =? 0) && (1 <? sizeZ (meshOf h b)) then
    let plst := sortSlice (fun p q => ltF (score e p) (score e q)) (iter e ([b], 25%nat) (meshOf h b)) in
    let medianIndex := (size (meshOf h b) / 2)%nat in
    let medianScore := score e (default [] (plst !! medianIndex)) in
    if ltF medianScore (opportunisticGraftThreshold cfg)
    then graftSome 25 b h (OpportunisticGraftPeers par) (fun p => ltF medianScore (score e p))
    else h
  else h.

(** ** Gossip *)
Definition enqueueGossip (bs : BlossomSubRouter) (p : PeerID) (h : ControlIHave) : BlossomSubRouter :=
  set_pending bs (<[p := default [] (pending bs !! p) ++ [h]]> (pending bs)).

(** One IHAVE per chosen peer; a list that is too long is shuffled again and
    cut for every peer. *)
Definition gossipStep (b : bytes) (st : BlossomSubRouter * list bytes) (p : PeerID) : BlossomSubRouter * list bytes :=
  let '(bs, mids) := st in
  if MaxIHaveLength par <? Z.of_nat (length mids) then
    let mids := shufflePeers (intn e ([b; p], 27%nat)) mids in
    (enqueueGossip bs p (mkIHave b (take (Z.to_nat (MaxIHaveLength par)) mids)), mids)
  else (enqueueGossip bs p (mkIHave b mids), mids).

Definition emitGossip (b : bytes) (bs : BlossomSubRouter) (exclude : gset PeerID) : option BlossomSubRouter :=
  mids ← GetGossipIDs (mcache bs) b;
  match mids with
  | [] => Some bs
  | _ =>
      let mids := shufflePeers (intn e ([b], 26%nat)) mids in
      let ps := filter (fun p => negb (bool_decide (p ∈ exclude)) && negb (isDirect bs p)
                          && featureOf cfg bs BlossomSubFeatureMesh p
                          && geF (liveScore e ([b], 26%nat) p) (gossipThreshold cfg) = true)
                  (iter e ([b], 26%nat) (at_ (bitmasks bs) b)) in
      let factor := int_of_float64 (SFmul 53 1024 (GossipFactor par) (float64_of_int (Z.of_nat (length ps)))) in
      let target := Z.max (Dlazy par) factor in
      let ps' := if Z.of_nat (length ps) <? target then ps
                 else take (Z.to_nat target) (shufflePeers (intn e ([b], 28%nat)) ps) in
      if (target <? 0) || (negb (bool_decide (ps' = [])) && (MaxIHaveLength par <? 0)) then None
      else Some (foldl (gossipStep b) (bs, mids) ps').1
  end.

(** The body of the loop over the meshes. *)
Definition maintainMesh (b : bytes) (h : hbState) : hbState :=
  opportunisticGraft b (fillOutbound b (trimMesh b (fillMesh b (dropNegative b h)))).

Definition maintain (h : hbState) (b : bytes) : option hbState :=
  if trimPanics b (fillMesh b (dropNegative b h)) then None else
  let h := maintainMesh b h in
  bs ← emitGossip b (hb h) (meshOf h b);
  Some (mkHb bs (tograft h) (toprune h) (noPX h)).

(** ** Clean-up *)
Definition clearBackoff (bs : BlossomSubRouter) : BlossomSubRouter :=
  if negb (heartbeatTicks bs mod 15 =? 0) then bs
  else
    let live : gmap bytes (gmap PeerID Z) :=
      filter (fun kv => now e <= kv.2 + 2 * BlossomSubHeartbeatInterval) <$> backoff bs in
    set_backoff bs (filter (fun kv => kv.2 <> ∅) live).

Definition clearIHaveCounters (bs : BlossomSubRouter) : BlossomSubRouter :=
  set_iasked (set_peerhave bs ∅) ∅.

Definition clearIDontWantCounters (bs : BlossomSubRouter) : BlossomSubRouter :=
  set_unwanted (set_peerdontwant bs ∅)
    ((fun m : gmap bytes Z => filter (fun kv => kv.2 <> 0) ((fun n => n - 1) <$> m)) <$> unwanted bs).

Definition applyIwantPenalties (bs : BlossomSubRouter) : BlossomSubRouter :=
  emit bs ((fun pc => EvPenalty pc.1 pc.2) <$> broken e).

Definition directConnect (bs : BlossomSubRouter) : BlossomSubRouter :=
  if negb (heartbeatTicks bs mod DirectConnectTicks par =? 0) then bs
  else
    match filter (fun p => peers bs !! p = None) (iter e ([], 29%nat) (direct bs)) with
    | [] => bs
    | toconnect => emit bs [EvDirectConnect toconnect]
    end.

(** ** Fanout *)
Definition expireFanout (bs : BlossomSubRouter) : BlossomSubRouter :=
  let expired : gset bytes :=
    dom (filter (fun kv => Int64.add64 kv.2 (FanoutTTL par) < now e) (lastpub bs)) in
  set_lastpub (set_fanout bs (filter (fun kv => kv.1 ∉ expired) (fanout bs)))
    (filter (fun kv => kv.1 ∉ expired) (lastpub bs)).

Definition maintainFanout (bs : BlossomSubRouter) (b : bytes) : option BlossomSubRouter :=
  let ps := filter (fun p => bool_decide (p ∈ at_ (bitmasks bs) b)
                       && negb (ltF (score e p) (publishThreshold cfg)) = true) (at_ (fanout bs) b) in
  let ps := if sizeZ ps <? D par then
              ps ∪ peerListToMap (getPeers cfg e ([b], 30%nat) bs b (D par - sizeZ ps)
                (fun p => negb (bool_decide (p ∈ ps)) && negb (isDirect bs p)
                          && geF (score e p) (publishThreshold cfg)))
            else ps in
  emitGossip b (set_fanout bs (<[b := ps]> (fanout bs))) ps.

(** ** Sending what was decided *)
Definition prunesFor (bs : BlossomSubRouter) (npx : gset PeerID) (p : PeerID) (l : list bytes) : list ControlPrune :=
  (fun b => makePrune cfg e ([b; p], 31%nat) bs p b (doPX cfg && negb (bool_decide (p ∈ npx))) false) <$> l.

Definition sendGraftPrune (bs : BlossomSubRouter) (tograft toprune : gmap PeerID (list bytes)) (npx : gset PeerID)
    : BlossomSubRouter :=
  let bs := foldl (fun bs p =>
    sendRPC cfg e bs p (rpcWithControl [] [] [] (mkGraft <$> default [] (tograft !! p))
      (prunesFor bs npx p (default [] (toprune !! p))) []) false) bs (iter e ([], 31%nat) (dom tograft)) in
  foldl (fun bs p =>
    sendRPC cfg e bs p (rpcWithControl [] [] [] [] (prunesFor bs npx p (default [] (toprune !! p))) []) false)
    bs (iter e ([], 32%nat) (dom toprune ∖ dom tograft)).

(** An entry that a failed send puts back into [control] may be seen again. *)
Definition flush (bs : BlossomSubRouter) : BlossomSubRouter :=
  let bs := foldl (fun bs p =>
    match pending bs !! p with
    | None => bs
    | Some ihave => sendRPC cfg e (set_pending bs (delete p (pending bs))) p
                      (rpcWithControl [] ihave [] [] [] []) false
    end) bs (iter e ([], 33%nat) (dom (pending bs))) in
  foldl (fun bs p =>
    match control bs !! p with
    | None => bs
    | Some c => sendRPC cfg e (set_control bs (delete p (control bs))) p
                  (rpcWithControl [] [] [] (Graft c) (Prune c) []) false
    end) bs (iter e ([], 34%nat) (dom (control bs)) ++ revisits e).

(** ** The heartbeat; [None] is a panic *)

Definition cleanUp (bs : BlossomSubRouter) : BlossomSubRouter :=
  directConnect (applyIwantPenalties (clearIDontWantCounters (clearIHaveCounters (clearBackoff
    (set_heartbeatTicks bs ((heartbeatTicks bs + 1) mod 2 ^ 64)))))).

Definition heartbeat (bs : BlossomSubRouter) : option BlossomSubRouter :=
  if (DirectConnectTicks par =? 0)
     || ((OpportunisticGraftTicks par =? 0) && negb (bool_decide (mesh bs = ∅))) then None
  else
    let bs := cleanUp bs in
    h ← foldlM maintain (mkHb bs ∅ ∅ ∅) (iter e ([], 35%nat) (dom (mesh bs)));
    let bs := expireFanout (hb h) in
    bs ← foldlM maintainFanout bs (iter e ([], 36%nat) (dom (fanout bs)));
    let bs := flush (sendGraftPrune bs (tograft h) (toprune h) (noPX h)) in
    mc ← Shift (mcache bs);
    Some (set_mcache bs mc).
End heartbeat.
