(* ===== verification/HeartbeatLaws.v ===== *)
(** * Properties of the heartbeat's selections

    Shuffling and [getPeers], and which peers stay in a mesh that has too many:
    the best by score and enough outbound ones. *)
From Stdlib Require Import ZArith Lia Floats.SpecFloat.
From stdpp Require Import base tactics list numbers option gmap sets fin_maps.
From S2P Require Import Prelude Limits GoBytes Bitmask BlsRpc MessageCache Router RouterLaws Heartbeat.
Local Open Scope Z_scope.

(** ** Bubbling up *)
Lemma countOut_nil out : countOut out [] = 0.
Proof. done. Qed.
Lemma countOut_cons out p l : countOut out (p :: l) = Z.b2z (out p) + countOut out l.
Proof.
  unfold countOut. rewrite filter_cons. destruct (out p); [rewrite decide_True by done|rewrite decide_False by done]; simpl; lia.
Qed.
Lemma countOut_app out l1 l2 : countOut out (l1 ++ l2) = countOut out l1 + countOut out l2.
Proof. unfold countOut. rewrite filter_app, length_app. lia. Qed.
Lemma countOut_perm out l1 l2 : l1 ≡ₚ l2 -> countOut out l1 = countOut out l2.
Proof. intros H. unfold countOut. by rewrite H. Qed.
Lemma countOut_nonneg out l : 0 <= countOut out l.
Proof. unfold countOut. lia. Qed.
Lemma countOut_all out l : Forall (fun p => out p = true) l -> countOut out l = Z.of_nat (length l).
Proof. induction 1 as [|p l Hp _ IH]; [done|]. rewrite countOut_cons, Hp, IH. cbn [Z.b2z length]. lia. Qed.
Create Rewrite HintDb countOut.
#[export] Hint Rewrite countOut_nil countOut_cons countOut_app : countOut.

Definition nonOut (out : PeerID -> bool) (l : list PeerID) : list PeerID := filter (fun p => out p = false) l.

Lemma nonOut_id out l : countOut out l = 0 -> nonOut out l = l.
Proof.
  unfold nonOut. induction l as [|q l IH]; intros Hz; [done|]. autorewrite with countOut in Hz.
  pose proof (countOut_nonneg out l). destruct (out q) eqn:E; simpl in Hz; [lia|].
  rewrite filter_cons, decide_True by done. f_equal. apply IH. lia.
Qed.

Lemma rotate_middle A p B : rotate (A ++ p :: B) (length A) = p :: A ++ B.
Proof. unfold rotate. by rewrite list_lookup_middle, delete_middle. Qed.

(** A loop of bubbling over the part [B] of the list: it takes the first
    outbound peers of [B], as many as asked for, to the front. *)
Lemma bubble_spec out B : forall A k R,
  exists Q B', bubble out (seq (length A) (length B)) k (A ++ B ++ R) = Q ++ A ++ B' ++ R
    /\ Q ++ B' ≡ₚ B /\ Forall (fun p => out p = true) Q
    /\ Z.of_nat (length Q) = Z.min (Z.max 0 k) (countOut out B)
    /\ (countOut out B <= k -> B' = nonOut out B).
Proof.
  induction B as [|p B IH]; intros A k R.
  { exists [], []. split_and!; try done. autorewrite with countOut. simpl. lia. }
  cbn [length seq bubble]. change ((p :: B) ++ R) with (p :: (B ++ R)).
  rewrite list_lookup_middle by done.
  pose proof (countOut_nonneg out B). destruct (Z.leb_spec k 0).
  { exists [], (p :: B). split_and!; [done|done|by constructor|..]; autorewrite with countOut.
    - simpl. destruct (out p); simpl; lia.
    - intros Hle. rewrite nonOut_id; [done|]. autorewrite with countOut.
      destruct (out p); simpl in *; lia. }
  destruct (out p) eqn:Ep.
  - rewrite rotate_middle. destruct (IH (p :: A) (k - 1) R) as (Q & B' & E & Hp & HQ & Hlen & Hall).
    exists (Q ++ [p]), B'. cbn [length] in E. simpl in E. split_and!.
    + rewrite <-app_assoc. simpl. exact E.
    + rewrite <-Hp. solve_Permutation.
    + by apply Forall_app; split; [|constructor].
    + rewrite length_app, countOut_cons, Ep. simpl. lia.
    + rewrite countOut_cons, Ep. intros Hle. rewrite Hall by (simpl in Hle; lia).
      unfold nonOut. by rewrite filter_cons, Ep, decide_False.
  - destruct (IH (A ++ [p]) k R) as (Q & B' & E & Hp & HQ & Hlen & Hall).
    exists Q, (p :: B'). rewrite length_app, <-!app_assoc in E. simpl in E.
    replace (length A + 1)%nat with (S (length A)) in E by lia. split_and!; try done.
    + rewrite <-Hp. solve_Permutation.
    + rewrite countOut_cons, Ep. simpl. lia.
    + rewrite countOut_cons, Ep. intros Hle. rewrite Hall by (simpl in Hle; lia).
      unfold nonOut. by rewrite filter_cons, Ep, decide_True.
Qed.

(** After the first loop the outbound peers among the first [d] are in front,
    and the others follow in their order. *)
Lemma bubble_front out d plst :
  (1 <= d <= length plst)%nat ->
  let o := countOut out (take d plst) in
  exists O, (if 0 <? o then bubble out (seq 1 (d - 1)) o plst else plst)
      = O ++ nonOut out (take d plst) ++ drop d plst
    /\ O ++ nonOut out (take d plst) ≡ₚ take d plst
    /\ Forall (fun p => out p = true) O /\ Z.of_nat (length O) = o.
Proof.
  intros Hd o. pose proof (countOut_nonneg out (take d plst)). destruct (Z.ltb_spec 0 o) as [Ho|Ho].
  2: { exists []. assert (Hz : countOut out (take d plst) = 0) by lia. rewrite nonOut_id by done.
       split_and!; [by rewrite take_drop|done|by constructor|simpl; lia]. }
  destruct plst as [|x l]; [simpl in Hd; lia|]. destruct d as [|d]; [lia|].
  replace (S d - 1)%nat with d by lia. simpl in Hd.
  pose proof (bubble_spec out (take d l) [x] o (drop d l)) as (Q & B' & E & Hp & HQ & Hlen & Hall).
  rewrite length_take_le in E by lia. rewrite take_drop in E. simpl in E.
  assert (Ho' : o = Z.b2z (out x) + countOut out (take d l)) by (unfold o; simpl; by rewrite countOut_cons).
  pose proof (countOut_nonneg out (take d l)).
  assert (Hle : countOut out (take d l) <= o) by (destruct (out x); simpl in Ho'; lia).
  specialize (Hall Hle). subst B'. cbn [take drop]. destruct (out x) eqn:Ex; simpl in Ho'.
  - exists (Q ++ [x]). unfold nonOut. rewrite filter_cons, Ex, decide_False by done. fold (nonOut out (take d l)).
    rewrite <-!app_assoc. simpl. split_and!; [exact E| | |].
    + by rewrite <-Permutation_middle, Hp.
    + by apply Forall_app; split; [|constructor].
    + rewrite length_app. simpl. lia.
  - exists Q. unfold nonOut. rewrite filter_cons, Ex, decide_True by done. fold (nonOut out (take d l)).
    split_and!; [exact E| |done|lia]. by rewrite <-Permutation_middle, Hp.
Qed.

Lemma arrange_shape out d dout plst :
  (1 <= d <= length plst)%nat -> 0 <= dout ->
  let o := countOut out (take d plst) in o < dout ->
  exists Q O R, arrange out (Z.of_nat d) dout plst = Q ++ (O ++ nonOut out (take d plst)) ++ R
    /\ Q ++ R ≡ₚ drop d plst /\ O ++ nonOut out (take d plst) ≡ₚ take d plst
    /\ Forall (fun p => out p = true) (Q ++ O) /\ Z.of_nat (length O) = o
    /\ Z.of_nat (length Q) = Z.min (dout - o) (countOut out (drop d plst)).
Proof.
  intros Hd Hdout o Ho. unfold arrange. rewrite Nat2Z.id. fold o. rewrite (proj2 (Z.ltb_lt o dout)) by done.
  destruct (bubble_front out d plst Hd) as (O & E & Hp & HO & Hlen). fold o in E, Hlen. rewrite E.
  set (K := O ++ nonOut out (take d plst)) in *. rewrite app_assoc. fold K.
  assert (HK : length K = d) by (rewrite Hp; apply length_take_le; lia).
  rewrite length_app, HK. replace (d + length (drop d plst) - d)%nat with (length (drop d plst)) by lia.
  destruct (bubble_spec out (drop d plst) K (dout - o) []) as (Q & R & E2 & Hp2 & HQ & HlenQ & _).
  rewrite HK, !app_nil_r in E2. exists Q, O, R. rewrite E2. split_and!; try done; [|lia].
  by apply Forall_app.
Qed.

Lemma take_subset {A} (n m : nat) (l : list A) (p : A) : (n <= m)%nat -> p ∈ take n l -> p ∈ take m l.
Proof. intros Hle (i & Hi & Hlt)%elem_of_take. apply elem_of_take. exists i. split; [done|lia]. Qed.

Lemma nonOut_app out l1 l2 : nonOut out (l1 ++ l2) = nonOut out l1 ++ nonOut out l2.
Proof. apply filter_app. Qed.

(** What is kept when outbound peers are bubbled up. *)
Lemma arrange_take out d dout plst :
  (1 <= d <= length plst)%nat -> 0 <= dout <= Z.of_nat d -> countOut out (take d plst) < dout ->
  exists QO n, Forall (fun p => out p = true) QO
    /\ take d (arrange out (Z.of_nat d) dout plst) = QO ++ take n (nonOut out (take d plst))
    /\ arrange out (Z.of_nat d) dout plst ≡ₚ plst
    /\ Z.of_nat (length QO) = Z.min dout (countOut out plst) /\ Z.of_nat d = Z.of_nat (length QO) + Z.of_nat n
    /\ (forall p, out p = true -> p ∈ take d plst -> p ∈ QO).
Proof.
  intros Hd Hdout Ho.
  destruct (arrange_shape out d dout plst Hd) as (Q & O & R & -> & HQR & HK & Hall & HlenO & HlenQ); [lia|done|].
  pose proof (countOut_nonneg out (drop d plst)). pose proof (countOut_nonneg out (take d plst)).
  set (N := nonOut out (take d plst)) in *.
  assert (Hcnt : countOut out plst = countOut out (take d plst) + countOut out (drop d plst))
    by (by rewrite <-countOut_app, take_drop).
  assert (HlenK : length (O ++ N) = d) by (rewrite HK; apply length_take_le; lia).
  rewrite length_app in HlenK.
  exists (Q ++ O), (d - length Q - length O)%nat. split_and!; [done| | | | |].
  - replace (Q ++ (O ++ N) ++ R) with ((Q ++ O) ++ (N ++ R)) by (by rewrite <-!app_assoc).
    rewrite take_app_ge by (rewrite length_app; lia). f_equal.
    rewrite take_app_le by (rewrite length_app; lia). f_equal. rewrite length_app. lia.
  - transitivity ((O ++ N) ++ (Q ++ R)); [solve_Permutation|]. by rewrite HK, HQR, take_drop.
  - rewrite length_app. lia.
  - rewrite length_app. lia.
  - intros p Hp Hin. rewrite <-HK in Hin. apply elem_of_app in Hin as [Hin|Hin]; [set_solver|].
    apply list_elem_of_filter in Hin as [Hf _]. congruence.
Qed.

(** The peers kept: the outbound quota, and the best. *)
Lemma arrange_keeps out d dscore dout plst :
  (1 <= d <= length plst)%nat -> 0 <= dout -> Z.of_nat dscore + dout <= Z.of_nat d ->
  let l := arrange out (Z.of_nat d) dout plst in
  l ≡ₚ plst
  /\ Z.min dout (countOut out plst) <= countOut out (take d l)
  /\ (forall p, p ∈ take dscore plst -> p ∈ take d l).
Proof.
  intros Hd Hdout Hsum l. subst l. destruct (Z.lt_ge_cases (countOut out (take d plst)) dout) as [Ho|Ho].
  - destruct (arrange_take out d dout plst) as (QO & n & HF & E & Hp & Hlen & Hn & Hout); [lia|lia|done|].
    rewrite E. split; [done|]. split.
    + rewrite countOut_app, (countOut_all out QO) by done.
      pose proof (countOut_nonneg out (take n (nonOut out (take d plst)))). lia.
    + intros p Hin. apply elem_of_app. destruct (out p) eqn:Ep.
      * left. apply Hout; [done|]. apply take_subset with dscore; [lia|done].
      * right. assert (Hsp : take dscore plst ++ drop dscore (take d plst) = take d plst).
        { rewrite <-(take_drop dscore (take d plst)) at 2. by rewrite take_take, Nat.min_l by lia. }
        rewrite <-Hsp.
        rewrite nonOut_app. assert (Hpre : p ∈ nonOut out (take dscore plst)) by (by apply list_elem_of_filter).
        assert (Hle : (length (nonOut out (take dscore plst)) <= n)%nat).
        { unfold nonOut. rewrite length_filter, length_take. lia. }
        rewrite take_app_ge by done. set_solver.
  - unfold arrange. rewrite Nat2Z.id, (proj2 (Z.ltb_ge _ dout)) by done.
    split_and!; [done|lia|]. intros p Hin. apply take_subset with dscore; [lia|done].
Qed.

(** ** [sort.Slice] sorts with respect to a strict weak order *)
Class SortSliceLaws (SS : SortSlice) : Prop := {
  sort_perm less l : sortSlice less l ≡ₚ l;
  sort_sorted less l i j p q : strictWeak less -> (i < j)%nat ->
    sortSlice less l !! i = Some p -> sortSlice less l !! j = Some q -> less q p = false }.

Section maintain.
Context `{PS : ProtoSize} {SS : SortSlice} {SL : SortSliceLaws SS} (cfg : config) (e : env) (Eok : env_ok e).
Local Abbreviation par := (params cfg).

(** What pruning and grafting leave alone. *)
Definition still (bs : BlossomSubRouter) : BlossomSubRouter := set_backoff (set_mesh (quiet bs) ∅) ∅.

Lemma isOutbound_still bs bs' : still bs' = still bs -> isOutbound bs' = isOutbound bs.
Proof. intros E. unfold isOutbound. by change (outbound bs') with (outbound (still bs')); rewrite E. Qed.

Lemma at_alter f b m : f ∅ = ∅ \/ is_Some (m !! b) -> at_ (alter f b m) b = f (at_ m b).
Proof. unfold at_. rewrite lookup_alter_eq. intros [E|[X ->]]; [|done]. by destruct (m !! b). Qed.

Lemma prune_fold b l : forall h,
  let h' := foldl (prunePeer cfg e b) h l in
  meshOf h' b = meshOf h b ∖ list_to_set l /\ still (hb h') = still (hb h)
  /\ (is_Some (mesh (hb h') !! b) <-> is_Some (mesh (hb h) !! b)).
Proof.
  induction l as [|p l IH]; intros h h'; [simpl; split_and!; [set_solver|done|done]|].
  destruct (IH (prunePeer cfg e b h p)) as (H1 & H2 & H3). split_and!.
  - change h' with (foldl (prunePeer cfg e b) (prunePeer cfg e b h p) l). rewrite H1. unfold meshOf, prunePeer. simpl.
    rewrite at_alter by (left; set_solver). set_solver.
  - exact H2.
  - etransitivity; [exact H3|]. simpl. rewrite lookup_alter_eq. by destruct (mesh (hb h) !! b).
Qed.

Lemma graft_fold b l : forall h,
  is_Some (mesh (hb h) !! b) ->
  let h' := foldl (graftPeer b) h l in
  meshOf h' b = meshOf h b ∪ list_to_set l /\ still (hb h') = still (hb h)
  /\ is_Some (mesh (hb h') !! b) /\ backoff (hb h') = backoff (hb h).
Proof.
  induction l as [|p l IH]; intros h Hb h'; [simpl; split_and!; [set_solver|done|done|done]|].
  destruct (IH (graftPeer b h p)) as (H1 & H2 & H3 & H4).
  { simpl. rewrite lookup_alter_eq. destruct Hb as [X ->]. by eexists. }
  split_and!; [|exact H2|exact H3|exact H4].
  change h' with (foldl (graftPeer b) (graftPeer b h p) l). rewrite H1. unfold meshOf, graftPeer. simpl.
  rewrite at_alter by (by right). set_solver.
Qed.

(** ** Which peers stay when there are too many *)
Lemma ranked_perm b h : ranked cfg e b h ≡ₚ elements (meshOf h b).
Proof.
  unfold ranked. set (l := sortSlice _ _).
  assert (Hl : l ≡ₚ elements (meshOf h b)) by (unfold l; by rewrite sort_perm, shuffle_perm, (iter_perm e Eok)).
  destruct (_ <? _); [|done]. by rewrite shuffle_perm, take_drop.
Qed.

Lemma countOut_elements (out : PeerID -> bool) (X : gset PeerID) (l : list PeerID) : X = list_to_set l -> NoDup l -> countOut out (elements X) = countOut out l.
Proof. intros -> Hnd. apply countOut_perm. by apply elements_list_to_set. Qed.

(** The best [Dscore] peers of the ranking: nobody else is better. *)
Lemma ranked_best b h p q :
  (forall p, score e p <> S754_nan) -> 0 <= Dscore par < sizeZ (meshOf h b) ->
  p ∈ take (Z.to_nat (Dscore par)) (ranked cfg e b h) ->
  q ∈ meshOf h b -> q ∉ take (Z.to_nat (Dscore par)) (ranked cfg e b h) ->
  ltF (score e p) (score e q) = false.
Proof.
  intros Hn Hd. unfold ranked. set (l := sortSlice _ _). set (n := Z.to_nat (Dscore par)).
  assert (Hl : l ≡ₚ elements (meshOf h b)) by (unfold l; by rewrite sort_perm, shuffle_perm, (iter_perm e Eok)).
  assert (Hlen : Z.of_nat (length l) = sizeZ (meshOf h b)) by (rewrite Hl; done).
  rewrite Hlen, (proj2 (Z.ltb_lt _ _)) by lia. rewrite take_app_length' by (rewrite length_take; lia).
  intros (i & Hi & Hlt)%elem_of_take Hq Hnq. rewrite <-elem_of_elements, <-Hl in Hq.
  apply list_elem_of_lookup in Hq as [j Hj].
  assert (Hge : (n <= j)%nat).
  { destruct (Nat.lt_ge_cases j n); [|done]. exfalso. apply Hnq, elem_of_take. by exists j. }
  pose proof (sort_sorted _ _ i j p q (strictWeak_flip _ (score_strictWeak (score e) Hn)) ltac:(lia) Hi Hj) as Hs.
  exact Hs.
Qed.

(** ** The stages of the maintenance *)
Lemma hasBackoff_add bs p b u b' q :
  hasBackoff (addBackoff cfg e bs p b u) b' q = true <-> hasBackoff bs b' q = true \/ (b' = b /\ q = p).
Proof.
  unfold hasBackoff, addBackoff, doAddBackoff. simpl. rewrite !bool_decide_eq_true.
  destruct (decide (b = b')) as [<-|Hb]; [|rewrite lookup_insert_ne by done; naive_solver].
  rewrite lookup_insert_eq. simpl. set (m := default ∅ (backoff bs !! b)).
  destruct (match m !! p with Some t => _ | None => true end) eqn:Ei.
  - destruct (decide (p = q)) as [<-|Hq]; [rewrite lookup_insert_eq; naive_solver|].
    rewrite lookup_insert_ne by done. naive_solver.
  - destruct (m !! p) eqn:Em; [|done]. split; [tauto|]. intros [H|[_ ->]]; [done|]. rewrite Em. by eexists.
Qed.

Definition negative (p : PeerID) : bool := ltF (score e p) zeroF.

Definition dropStep (b : bytes) (h : hbState) (p : PeerID) : hbState :=
  if negative p then
    let h := prunePeer cfg e b h p in mkHb (hb h) (tograft h) (toprune h) ({[p]} ∪ noPX h)
  else h.

Lemma drop_fold b l : forall h,
  let h' := foldl (dropStep b) h l in
  meshOf h' b = meshOf h b ∖ list_to_set (filter (fun p => negative p = true) l) /\ still (hb h') = still (hb h)
  /\ (is_Some (mesh (hb h') !! b) <-> is_Some (mesh (hb h) !! b))
  /\ (forall b' q, hasBackoff (hb h') b' q = true <->
        hasBackoff (hb h) b' q = true \/ b' = b /\ q ∈ filter (fun p => negative p = true) l).
Proof.
  induction l as [|p l IH]; intros h h'; [simpl; split_and!; [set_solver|done|done|set_solver]|].
  subst h'. cbn [foldl]. destruct (IH (dropStep b h p)) as (H1 & H2 & H3 & H4). rewrite H1, H2, H3.
  setoid_rewrite H4. clear. rewrite filter_cons. unfold dropStep. destruct (negative p) eqn:Ep; simpl; [|done].
  split_and!; [|done| |].
  - unfold meshOf. simpl. rewrite at_alter by (left; set_solver). set_solver.
  - rewrite lookup_alter_eq. by destruct (mesh (hb h) !! b).
  - intros b' q. rewrite hasBackoff_add, elem_of_cons. unfold hasBackoff. simpl. tauto.
Qed.

Lemma dropNegative_spec b h :
  let h' := dropNegative cfg e b h in
  meshOf h' b = filter (fun p => negative p = false) (meshOf h b) /\ still (hb h') = still (hb h)
  /\ (is_Some (mesh (hb h') !! b) <-> is_Some (mesh (hb h) !! b))
  /\ (forall b' q, hasBackoff (hb h') b' q = true -> hasBackoff (hb h) b' q = true \/ b' = b /\ q ∈ meshOf h b)
  /\ (forall b' q, hasBackoff (hb h) b' q = true -> hasBackoff (hb h') b' q = true).
Proof.
  intros h'. set (l := iter e ([b], 20%nat) (meshOf h b)). destruct (drop_fold b l h) as (H1 & H2 & H3 & H4).
  change (foldl (dropStep b) h l) with h' in *. split_and!; [|exact H2|exact H3| |].
  - rewrite H1. apply set_eq. intros p.
    rewrite elem_of_difference, elem_of_list_to_set, elem_of_filter, list_elem_of_filter.
    unfold l. rewrite (elem_of_iter e Eok). destruct (negative p); naive_solver.
  - intros b' q Hq. apply H4 in Hq as [Hq|[-> [_ Hq]%list_elem_of_filter]]; [by left|].
    right. split; [done|]. by apply (elem_of_iter e Eok) in Hq.
  - intros b' q Hq. apply H4. by left.
Qed.

(** A graft of some peers: who is grafted, and how many. *)
Lemma graftSome_spec n b h cnt flt :
  is_Some (mesh (hb h) !! b) -> 0 < cnt ->
  let h' := graftSome cfg e n b h cnt flt in
  exists G : gset PeerID, meshOf h' b = meshOf h b ∪ G /\ G ## meshOf h b /\ sizeZ G <= cnt
    /\ (forall p, p ∈ G -> candidate h b p = true /\ flt p = true /\ featureOf cfg (hb h) BlossomSubFeatureMesh p = true)
    /\ still (hb h') = still (hb h) /\ is_Some (mesh (hb h') !! b) /\ backoff (hb h') = backoff (hb h)
    /\ (forall T, SliceBitmask b = [b] -> bitmasks (hb h) !! b = Some T ->
          sizeZ G = Z.min cnt (sizeZ (filter (fun p => eligible cfg (hb h) (fun p => candidate h b p && flt p) p
                                                && peerFilter cfg p b = true) T))).
Proof.
  intros Hb Hc. unfold graftSome. set (l := getPeers _ _ _ _ _ _ _).
  destruct (getPeers_spec cfg e Eok ([b], n) (hb h) b cnt (fun p => candidate h b p && flt p)) as (Hnd & HF & Hlen).
  fold l in Hnd, HF, Hlen. rewrite Forall_forall in HF.
  destruct (graft_fold b l h Hb) as (H1 & H2 & H3 & H4).
  assert (Hel : forall p, p ∈ l -> candidate h b p = true /\ flt p = true /\ featureOf cfg (hb h) BlossomSubFeatureMesh p = true).
  { intros p Hp. apply HF in Hp. unfold eligible in Hp. apply andb_true_iff in Hp as [? [? ?]%andb_true_iff]. done. }
  exists (list_to_set l). split_and!; try done.
  - intros p Hp%elem_of_list_to_set HM. apply Hel in Hp as (Hp & _). unfold candidate in Hp.
    rewrite bool_decide_true in Hp by done. done.
  - unfold sizeZ. rewrite size_list_to_set by done. by apply Hlen.
  - intros p Hp%elem_of_list_to_set. by apply Hel.
  - intros T Hs HT. unfold sizeZ. rewrite size_list_to_set by done. by apply getPeers_single.
Qed.

(** The mesh after a trim is a prefix of the arranged ranking. *)
Lemma trim_kept b h dscore :
  0 <= Dout par -> Z.of_nat dscore + Dout par <= D par -> 1 <= D par <= Dhi par -> Dhi par < sizeZ (meshOf h b) ->
  exists kept : list PeerID, meshOf (trimMesh cfg e b h) b = list_to_set kept /\ NoDup kept
    /\ (forall p, p ∈ kept -> p ∈ meshOf h b) /\ Z.of_nat (length kept) = D par
    /\ Z.min (Dout par) (countOut (isOutbound (hb h)) (elements (meshOf h b))) <= countOut (isOutbound (hb h)) kept
    /\ (forall p, p ∈ take dscore (ranked cfg e b h) -> p ∈ kept).
Proof.
  intros Hdo Hsum Hd Hsz. unfold trimMesh. rewrite (proj2 (Z.ltb_lt _ _)) by done.
  set (out := isOutbound (hb h)). set (rk := ranked cfg e b h). set (l := arrange out (D par) (Dout par) rk).
  set (n := Z.to_nat (D par)). destruct (prune_fold b (drop n l) h) as (HM & _ & _). rewrite HM.
  assert (Hrk : rk ≡ₚ elements (meshOf h b)) by apply ranked_perm.
  assert (Hlen : length rk = size (meshOf h b)) by (by rewrite Hrk). unfold sizeZ in Hsz.
  destruct (arrange_keeps out n dscore (Dout par) rk) as (Hp & Hcnt & Hbest); [lia|lia|lia|].
  unfold n in Hp, Hcnt, Hbest. rewrite Z2Nat.id in Hp, Hcnt, Hbest by lia. fold l n in Hp, Hcnt, Hbest.
  assert (Hin : forall p, p ∈ meshOf h b <-> p ∈ take n l ++ drop n l)
    by (intros p; by rewrite take_drop, Hp, Hrk, elem_of_elements).
  assert (Hnd : NoDup (take n l ++ drop n l)) by (rewrite take_drop, Hp, Hrk; apply NoDup_elements).
  apply NoDup_app in Hnd as (Hnd & Hdisj & _). exists (take n l). split_and!; try done.
  - apply set_eq. intros p. rewrite elem_of_difference, !elem_of_list_to_set, Hin, elem_of_app. naive_solver.
  - intros p Hpin. apply Hin. set_solver.
  - rewrite length_take, Hp, Hlen. lia.
  - by rewrite <-(countOut_perm out _ _ Hrk).
Qed.

(** C14: when a mesh has more than [Dhi] peers the heartbeat keeps [D] of them:
    the [Dscore] best by score, so that no other peer of the mesh is better than
    one of these, and at least [Dout] peers with outbound connections, or all
    of them when there are fewer; whatever the shuffles and the order of the map. *)
Theorem trim_keeps_best_and_outbound b h :
  (forall p, score e p <> S754_nan) ->
  0 <= Dscore par -> 0 <= Dout par -> Dscore par + Dout par <= D par -> 1 <= D par <= Dhi par ->
  Dhi par < sizeZ (meshOf h b) ->
  let M := meshOf h b in
  let M' := meshOf (trimMesh cfg e b h) b in
  M' ⊆ M /\ sizeZ M' = D par
  /\ Z.min (Dout par) (countOut (isOutbound (hb h)) (elements M)) <= countOut (isOutbound (hb h)) (elements M')
  /\ exists best : gset PeerID, best ⊆ M' /\ sizeZ best = Dscore par
       /\ forall p q, p ∈ best -> q ∈ M -> q ∉ best -> ltF (score e p) (score e q) = false.
Proof.
  intros Hn Hds Hdo Hsum Hd Hsz M M'. set (n := Z.to_nat (Dscore par)).
  destruct (trim_kept b h n) as (kept & E & Hnd & Hsub & Hlen & Hcnt & Hbest); [lia|lia|lia|done|].
  fold M' in E. fold M in Hsub, Hcnt. split_and!.
  - intros p. rewrite E, elem_of_list_to_set. apply Hsub.
  - unfold sizeZ. by rewrite E, size_list_to_set.
  - by rewrite (countOut_elements _ M' kept E Hnd).
  - assert (Hnds : NoDup (take n (ranked cfg e b h))).
    { eapply sublist_NoDup; [|apply sublist_take]. rewrite ranked_perm. apply NoDup_elements. }
    exists (list_to_set (take n (ranked cfg e b h))). split_and!.
    + intros p. rewrite E, !elem_of_list_to_set. apply Hbest.
    + unfold sizeZ in *. rewrite size_list_to_set, length_take, ranked_perm by done.
      change (length (elements (meshOf h b))) with (size (meshOf h b)). lia.
    + intros p q. rewrite !elem_of_list_to_set. intros Hp Hq Hnq.
      eapply (ranked_best b h p q); [done|lia|done..].
Qed.

(** ** A whole round of maintenance *)
(** What every stage keeps: the bitmask stays joined, backoffs stay. *)
Record stage (b : bytes) (h h' : hbState) : Prop := {
  stage_joined : is_Some (mesh (hb h') !! b);
  stage_still : still (hb h') = still (hb h);
  stage_backoff q : hasBackoff (hb h) b q = true -> hasBackoff (hb h') b q = true }.

Lemma stage_trans b h1 h2 h3 : stage b h1 h2 -> stage b h2 h3 -> stage b h1 h3.
Proof. intros [] []. split; [done|congruence|auto]. Qed.
Lemma stage_refl b h : is_Some (mesh (hb h) !! b) -> stage b h h.
Proof. by split. Qed.

Lemma graftSome_stage n b h cnt flt :
  is_Some (mesh (hb h) !! b) -> 0 < cnt -> stage b h (graftSome cfg e n b h cnt flt).
Proof.
  intros Hb Hc. destruct (graftSome_spec n b h cnt flt Hb Hc) as (G & _ & _ & _ & _ & H1 & H2 & H3 & _).
  split; [done|done|]. intros q. unfold hasBackoff. by rewrite H3.
Qed.

Lemma trimMesh_stage b h : is_Some (mesh (hb h) !! b) -> stage b h (trimMesh cfg e b h).
Proof.
  intros Hb. unfold trimMesh. destruct (_ <? _); [|by apply stage_refl].
  generalize (drop (Z.to_nat (D par)) (arrange (isOutbound (hb h)) (D par) (Dout par) (ranked cfg e b h))).
  intros l. destruct (prune_fold b l h) as (_ & H2 & H3). split; [by apply H3|done|]. clear -l.
  revert h. induction l as [|p l IH]; intros h q Hq; [done|]. simpl. apply IH. cbn [hb prunePeer].
  apply hasBackoff_add. left. exact Hq.
Qed.

Lemma candidate_iff h b p :
  candidate h b p = true <-> p ∉ meshOf h b /\ hasBackoff (hb h) b p = false /\ p ∉ direct (hb h).
Proof.
  unfold candidate, isDirect. rewrite !andb_true_iff, !negb_true_iff, !bool_decide_eq_false. tauto.
Qed.

(** The peers that can be grafted into the mesh of [b]. *)
Definition graftable (b : bytes) (h : hbState) (T : gset PeerID) : gset PeerID :=
  filter (fun p => eligible cfg (hb h) (fun p => candidate h b p && geF (score e p) zeroF) p
                   && peerFilter cfg p b = true) T.

(** The stages that graft: who is new, and how many. *)
Definition grafted (b : bytes) (h h' : hbState) (n : Z) : Prop :=
  meshOf h b ⊆ meshOf h' b /\ sizeZ (meshOf h' b) <= sizeZ (meshOf h b) + n
  /\ forall p, p ∈ meshOf h' b -> p ∉ meshOf h b -> candidate h b p = true /\ negative p = false.

Lemma grafted_refl b h n : 0 <= n -> grafted b h h n.
Proof. intros Hn. split_and!; [done|lia|done]. Qed.

Lemma graftSome_grafted n b h cnt flt :
  is_Some (mesh (hb h) !! b) -> 0 < cnt ->
  (forall p, flt p = true -> negative p = false) -> grafted b h (graftSome cfg e n b h cnt flt) cnt.
Proof.
  intros Hb Hc Hflt. destruct (graftSome_spec n b h cnt flt Hb Hc) as (G & E & Hdisj & Hsz & Hel & _).
  unfold grafted. rewrite E. split_and!; [set_solver| |].
  - unfold sizeZ in *. rewrite size_union by set_solver. lia.
  - intros p Hp Hnp. destruct (Hel p) as (H1 & H2 & _); [set_solver|]. auto.
Qed.

Lemma fillOutbound_spec b h :
  is_Some (mesh (hb h) !! b) -> 0 <= Dout par ->
  stage b h (fillOutbound cfg e b h) /\ grafted b h (fillOutbound cfg e b h) (Dout par).
Proof.
  intros Hb Hd. unfold fillOutbound. destruct (_ <=? _); [|split; [by apply stage_refl|by apply grafted_refl]].
  destruct (Z.ltb_spec (countOut (isOutbound (hb h)) (elements (meshOf h b))) (Dout par));
    [|split; [by apply stage_refl|by apply grafted_refl]].
  pose proof (countOut_nonneg (isOutbound (hb h)) (elements (meshOf h b))).
  split; [apply graftSome_stage; [done|lia]|].
  destruct (graftSome_grafted 24 b h (Dout par - countOut (isOutbound (hb h)) (elements (meshOf h b)))
    (fun p => isOutbound (hb h) p && geF (score e p) zeroF) Hb) as (H1 & H2 & H3); [lia| |].
  - intros p [_ Hp]%andb_true_iff. by apply geF_zero.
  - split_and!; [done|lia|done].
Qed.

Lemma opportunisticGraft_spec b h :
  is_Some (mesh (hb h) !! b) -> 0 < OpportunisticGraftPeers par ->
  (forall p, score e p <> S754_nan) -> (forall p, p ∈ meshOf h b -> negative p = false) ->
  stage b h (opportunisticGraft cfg e b h)
  /\ grafted b h (opportunisticGraft cfg e b h) (OpportunisticGraftPeers par).
Proof.
  intros Hb Ho Hn HM. unfold opportunisticGraft.
  destruct (_ && (1 <? sizeZ (meshOf h b))) eqn:Eg;
    [|split; [by apply stage_refl|apply grafted_refl; lia]].
  apply andb_true_iff in Eg as [_ Hsz%Z.ltb_lt]. unfold sizeZ in Hsz.
  set (plst := sortSlice _ _). destruct (ltF _ _); [|split; [by apply stage_refl|apply grafted_refl; lia]].
  split; [by apply graftSome_stage|]. apply graftSome_grafted; [done|done|].
  assert (Hpl : plst ≡ₚ elements (meshOf h b)) by (unfold plst; by rewrite sort_perm, (iter_perm e Eok)).
  assert (Hlt : (size (meshOf h b) / 2 < length plst)%nat).
  { rewrite Hpl. change (length (elements (meshOf h b))) with (size (meshOf h b)). apply Nat.div_lt; lia. }
  apply lookup_lt_is_Some_2 in Hlt as [x Hx]. rewrite Hx. simpl. intros p Hp.
  apply (ltF_nonneg_trans (score e x)); [done|done| |done]. apply HM. rewrite <-elem_of_elements, <-Hpl.
  by eapply list_elem_of_lookup_2.
Qed.

Lemma fillMesh_spec b h :
  is_Some (mesh (hb h) !! b) -> Dlo par <= D par ->
  stage b h (fillMesh cfg e b h)
  /\ (exists n, grafted b h (fillMesh cfg e b h) n)
  /\ (sizeZ (meshOf (fillMesh cfg e b h) b) <= D par \/ fillMesh cfg e b h = h)
  /\ (forall T, SliceBitmask b = [b] -> bitmasks (hb h) !! b = Some T ->
        Z.min (Dlo par) (sizeZ (meshOf h b) + sizeZ (graftable b h T)) <= sizeZ (meshOf (fillMesh cfg e b h) b)).
Proof.
  intros Hb Hd. unfold fillMesh. destruct (Z.ltb_spec (sizeZ (meshOf h b)) (Dlo par)).
  - destruct (graftSome_spec 21 b h (D par - sizeZ (meshOf h b)) (fun p => geF (score e p) zeroF) Hb)
      as (G & E & Hdisj & Hsz & _ & _ & _ & _ & HT); [lia|].
    assert (HG : sizeZ (meshOf h b ∪ G) = sizeZ (meshOf h b) + sizeZ G)
      by (unfold sizeZ; rewrite size_union by set_solver; lia).
    split_and!.
    + apply graftSome_stage; [done|lia].
    + eexists. apply graftSome_grafted; [done|lia|]. intros p. apply geF_zero.
    + left. rewrite E, HG. lia.
    + intros T Hs Ht. rewrite E, HG, (HT T Hs Ht). unfold graftable. lia.
  - split_and!; [by apply stage_refl|exists 0; by apply grafted_refl|by right|].
    intros T _ _. unfold sizeZ in *. lia.
Qed.

Lemma trimMesh_spec b h :
  0 <= Dout par <= D par -> 1 <= D par <= Dhi par ->
  meshOf (trimMesh cfg e b h) b ⊆ meshOf h b /\ sizeZ (meshOf (trimMesh cfg e b h) b) <= Dhi par
  /\ Z.min (D par) (sizeZ (meshOf h b)) <= sizeZ (meshOf (trimMesh cfg e b h) b).
Proof.
  intros Hdo Hd. destruct (Z.lt_ge_cases (Dhi par) (sizeZ (meshOf h b))) as [Hsz|Hsz].
  - destruct (trim_kept b h 0) as (kept & E & Hnd & Hsub & Hlen & _); [lia|lia|lia|done|].
    assert (Hs : sizeZ (meshOf (trimMesh cfg e b h) b) = D par) by (unfold sizeZ; by rewrite E, size_list_to_set).
    split_and!; [|lia|lia]. intros p. rewrite E, elem_of_list_to_set. apply Hsub.
  - unfold trimMesh. rewrite (proj2 (Z.ltb_ge _ _)) by done. split_and!; [done|lia|lia].
Qed.

Lemma candidate_before b h h' p :
  stage b h h' -> candidate h' b p = true -> p ∉ direct (hb h) /\ hasBackoff (hb h) b p = false.
Proof.
  intros [_ Hst Hbk] (_ & Hnb & Hnd)%candidate_iff. split.
  - change (direct (hb h)) with (direct (still (hb h))). rewrite <-Hst. exact Hnd.
  - apply not_true_is_false. intros Hb%Hbk. congruence.
Qed.

Lemma graftable_dropNegative b h T :
  sizeZ (graftable b h T) <= sizeZ (graftable b (dropNegative cfg e b h) T).
Proof.
  destruct (dropNegative_spec b h) as (HM & Hst & _ & Hbk & _). set (h' := dropNegative cfg e b h) in *.
  unfold sizeZ. apply inj_le, subseteq_size. unfold graftable. intros p.
  rewrite !elem_of_filter. intros [Hp HT]. split; [|done].
  apply andb_true_iff in Hp as [Hp ->]. unfold eligible in *. unfold featureOf in *.
  change (peers (hb h')) with (peers (still (hb h'))). rewrite Hst. change (peers (still (hb h))) with (peers (hb h)).
  apply andb_true_iff in Hp as [-> [Hc ->]%andb_true_iff]. rewrite !andb_true_r, !andb_true_l.
  apply candidate_iff in Hc as (Hnm & Hnb & Hnd). apply candidate_iff. split_and!.
  - rewrite HM, elem_of_filter. tauto.
  - apply not_true_is_false. intros [Hb|[_ Hb]]%Hbk; congruence || done.
  - change (direct (hb h')) with (direct (still (hb h'))). rewrite Hst. exact Hnd.
Qed.

(** After the heartbeat's maintenance of a joined bitmask its mesh has no
    peer with a negative score; it has at most [Dhi] peers and those the last
    two steps may add, and at least [Dlo] when there are so many peers to graft,
    for a bitmask of a single bit; and no new peer of it is direct or is backed
    off. *)
Theorem mesh_maintained b h :
  (forall p, score e p <> S754_nan) ->
  1 <= Dlo par <= D par -> D par <= Dhi par -> 0 <= Dout par <= D par -> 0 < OpportunisticGraftPeers par ->
  is_Some (mesh (hb h) !! b) ->
  let M := meshOf h b in
  let M' := meshOf (maintainMesh cfg e b h) b in
  sizeZ M' <= Dhi par + Dout par + OpportunisticGraftPeers par
  /\ (forall p, p ∈ M' -> ltF (score e p) zeroF = false)
  /\ (forall p, p ∈ M' -> p ∉ M -> p ∉ direct (hb h) /\ hasBackoff (hb h) b p = false)
  /\ (forall T, SliceBitmask b = [b] -> bitmasks (hb h) !! b = Some T ->
        Z.min (Dlo par) (sizeZ (filter (fun p => ltF (score e p) zeroF = false) M) + sizeZ (graftable b h T))
        <= sizeZ M').
Proof.
  intros Hn Hlo Hhi Hdo Hop Hb M M'. unfold M', maintainMesh.
  destruct (dropNegative_spec b h) as (HM1 & Hst1 & Hb1 & _ & Hbk1). set (h1 := dropNegative cfg e b h) in *.
  apply Hb1 in Hb as Hj1.
  assert (S1 : stage b h h1) by (split; [done|done|apply Hbk1]).
  destruct (fillMesh_spec b h1 Hj1) as (S2 & (n2 & G2a & _ & G2) & Hsz2 & HT2); [lia|]. set (h2 := fillMesh cfg e b h1) in *.
  pose proof (trimMesh_stage b h2 (stage_joined _ _ _ S2)) as S3.
  destruct (trimMesh_spec b h2) as (Hsub3 & Hsz3 & Hlo3); [lia|lia|]. set (h3 := trimMesh cfg e b h2) in *.
  destruct (fillOutbound_spec b h3 (stage_joined _ _ _ S3)) as (S4 & G4a & Hsz4 & G4); [lia|].
  set (h4 := fillOutbound cfg e b h3) in *.
  assert (N2 : forall p, p ∈ meshOf h2 b -> negative p = false).
  { intros p Hp. destruct (decide (p ∈ meshOf h1 b)) as [Hp1|Hp1]; [|by apply G2].
    rewrite HM1 in Hp1. by apply elem_of_filter in Hp1 as [? _]. }
  assert (N4 : forall p, p ∈ meshOf h4 b -> negative p = false).
  { intros p Hp. destruct (decide (p ∈ meshOf h3 b)) as [Hp3|Hp3]; [by apply N2, Hsub3|by apply G4]. }
  destruct (opportunisticGraft_spec b h4 (stage_joined _ _ _ S4) Hop Hn N4) as (S5 & G5a & Hsz5 & G5).
  set (h5 := opportunisticGraft cfg e b h4) in *. split_and!.
  - lia.
  - intros p Hp. destruct (decide (p ∈ meshOf h4 b)) as [Hp4|Hp4]; [by apply N4|by apply G5].
  - intros p Hp HnM. destruct (decide (p ∈ meshOf h4 b)) as [Hp4|Hp4].
    2: { eapply candidate_before; [|by apply G5]. eauto using stage_trans. }
    destruct (decide (p ∈ meshOf h3 b)) as [Hp3|Hp3].
    2: { eapply candidate_before; [|by apply G4]. eauto using stage_trans. }
    eapply candidate_before; [exact S1|]. apply G2; [by apply Hsub3|].
    rewrite HM1, elem_of_filter. tauto.
  - intros T Hs HT. pose proof (graftable_dropNegative b h T) as Hg. fold h1 in Hg.
    assert (HT1 : bitmasks (hb h1) !! b = Some T).
    { change (bitmasks (hb h1)) with (bitmasks (still (hb h1))). rewrite Hst1. exact HT. }
    specialize (HT2 T Hs HT1). rewrite HM1 in HT2.
    assert (sizeZ (meshOf h3 b) <= sizeZ (meshOf h5 b)).
    { unfold sizeZ. apply inj_le, subseteq_size. set_solver. }
    unfold negative in HT2. fold M in HT2. lia.
Qed.
End maintain.
