(* ===== verification/RouterInv.v ===== *)
(** * The BlossomSub router as a state machine

    Every operation of the router as a step, the invariant of the reachable
    states, and the rule that nobody enters a mesh while he is backed off. *)
From Stdlib Require Import ZArith Lia Floats.SpecFloat.
From stdpp Require Import base tactics list numbers option gmap sets fin_maps.
From S2P Require Import Prelude GoBytes Bitmask BlsRpc MessageCache Router RouterLaws Heartbeat HeartbeatLaws.
Local Open Scope Z_scope.

(** ** Who may enter a mesh *)
(** The backoff of [p] for [b] has not expired at [t]. *)
Definition backedOff (bs : BlossomSubRouter) (b : bytes) (p : PeerID) (t : Z) : bool :=
  match default ∅ (backoff bs !! b) !! p with Some expire => t <? expire | None => false end.

Lemma activeBackoff_None e bs b p : activeBackoff e bs b p = None <-> backedOff bs b p (now e) = false.
Proof. unfold activeBackoff, backedOff. destruct (_ !! p) as [x|]; [|done]. by destruct (_ <? _). Qed.

Record admits (e : env) (bs bs' : BlossomSubRouter) : Prop := {
  adm_direct : direct bs' = direct bs;
  adm_mesh b p : p ∈ at_ (mesh bs') b ->
    p ∈ at_ (mesh bs) b \/ (p ∉ direct bs /\ activeBackoff e bs b p = None);
  adm_backoff b p t : now e <= t -> backedOff bs b p t = true -> backedOff bs' b p t = true }.

Lemma admits_same e bs bs' :
  direct bs' = direct bs -> mesh bs' = mesh bs -> backoff bs' = backoff bs -> admits e bs bs'.
Proof. intros H1 H2 H3. split; [done|rewrite H2; auto|]. unfold backedOff. by rewrite H3. Qed.

Lemma admits_trans e bs1 bs2 bs3 : admits e bs1 bs2 -> admits e bs2 bs3 -> admits e bs1 bs3.
Proof.
  intros [D1 M1 B1] [D2 M2 B2]. split; [congruence| |auto].
  intros b p [Hp|[Hd Hb%activeBackoff_None]]%M2; [by apply M1|]. right. rewrite D1 in Hd. split; [done|].
  apply activeBackoff_None, not_true_is_false. intros H%B1; [congruence|lia].
Qed.

Lemma admits_quiet e bs bs' : quiet bs' = quiet bs -> admits e bs bs'.
Proof.
  intros E. apply admits_same.
  - exact (f_equal direct E).
  - exact (f_equal mesh E).
  - exact (f_equal backoff E).
Qed.

Lemma admits_foldl {A} e (f : BlossomSubRouter -> A -> BlossomSubRouter) bs l :
  (forall bs a, admits e bs (f bs a)) -> admits e bs (foldl f bs l).
Proof.
  intros Hf. revert bs. induction l as [|a l IH]; intros bs; [by apply admits_same|].
  simpl. eapply admits_trans; [apply Hf|apply IH].
Qed.

Lemma admits_shrink e bs m :
  (forall b, at_ m b ⊆ at_ (mesh bs) b) -> admits e bs (set_mesh bs m).
Proof. intros H. split; [done| |done]. intros b p Hp. left. by apply H. Qed.

Lemma admits_addBackoff e bs p b i : admits e bs (doAddBackoff e bs p b i).
Proof.
  split; [done|auto|]. intros b' q t _. unfold backedOff, doAddBackoff. simpl.
  destruct (decide (b = b')) as [<-|Hb]; [|by rewrite lookup_insert_ne].
  rewrite lookup_insert_eq. simpl. set (m := default ∅ (backoff bs !! b)).
  destruct (decide (p = q)) as [<-|Hq].
  2: { destruct (if m !! p is Some _ then _ else _); [by rewrite lookup_insert_ne|done]. }
  destruct (m !! p) as [x|] eqn:Em; [|done].
  destruct (Z.ltb_spec x (now e + i)); [|by rewrite Em].
  rewrite lookup_insert_eq, !Z.ltb_lt. lia.
Qed.

(** After it the backoff lasts for the interval. *)
Lemma backedOff_add e bs p b i t : t < now e + i -> backedOff (doAddBackoff e bs p b i) b p t = true.
Proof.
  intros Ht. unfold backedOff, doAddBackoff. simpl. rewrite lookup_insert_eq. simpl.
  destruct (default ∅ (backoff bs !! b) !! p) as [x|] eqn:Em; [destruct (Z.ltb_spec x (now e + i))|].
  - rewrite lookup_insert_eq. by apply Z.ltb_lt.
  - rewrite Em. apply Z.ltb_lt. lia.
  - rewrite lookup_insert_eq. by apply Z.ltb_lt.
Qed.

(** A peer that is neither direct nor backed off enters. *)
Lemma admits_graft e bs b p m :
  p ∉ direct bs -> activeBackoff e bs b p = None ->
  (forall b' q, q ∈ at_ m b' -> q ∈ at_ (mesh bs) b' \/ (b' = b /\ q = p)) -> admits e bs (set_mesh bs m).
Proof. intros Hd Hb Hm. split; [done| |done]. intros b' q [Hq|[-> ->]]%Hm; [by left|by right]. Qed.

Lemma at_insert m b X b' : at_ (<[b := X]> m) b' = if decide (b = b') then X else at_ m b'.
Proof. unfold at_. case_decide as E; [subst; by rewrite lookup_insert_eq|by rewrite lookup_insert_ne]. Qed.

Lemma hasBackoff_active e bs b p : hasBackoff bs b p = false -> activeBackoff e bs b p = None.
Proof.
  unfold hasBackoff, activeBackoff. intros H%bool_decide_eq_false. destruct (_ !! p) eqn:E; [|done].
  destruct H. by eexists.
Qed.

Section steps.
Context `{PS : ProtoSize} {SS : SortSlice} {SL : SortSliceLaws SS} (cfg : config) (e : env).
Local Abbreviation par := (params cfg).

(** *** Handlers *)
Lemma graftStep_admits p st g : admits e st.1.1 (graftStep cfg e p st g).1.1.
Proof.
  destruct st as [[bs prune] px]. unfold graftStep. destruct (negb _); [by apply admits_same|].
  destruct (mesh bs !! gr_bitmask g) as [ps|] eqn:Em; [|by apply admits_same].
  case_bool_decide; [by apply admits_same|]. case_bool_decide as Hd; [by apply admits_same|].
  destruct (activeBackoff e bs (gr_bitmask g) p) as [t|] eqn:Eb.
  { simpl. destruct (_ <? _); (eapply admits_trans; [|apply admits_addBackoff]); by apply admits_same. }
  destruct (ltF _ _); [apply admits_addBackoff|]. destruct (_ && _); [apply admits_addBackoff|].
  simpl. eapply admits_trans; [|apply (admits_same e (set_mesh bs (<[gr_bitmask g := {[p]} ∪ ps]> (mesh bs)))); done].
  apply (admits_graft e bs (gr_bitmask g) p); [done|done|]. intros b' q. rewrite at_insert.
  case_decide as E; [subst|by left]. unfold at_. rewrite Em. set_solver.
Qed.

Lemma handleGraft_admits bs p c : admits e bs (handleGraft cfg e bs p c).1.
Proof.
  unfold handleGraft.
  assert (H : forall l st, admits e st.1.1 (foldl (graftStep cfg e p) st l).1.1).
  { induction l as [|g l IH]; intros st; [by apply admits_same|]. simpl.
    eapply admits_trans; [apply graftStep_admits|apply IH]. }
  specialize (H (Graft c) (bs, [], doPX cfg)). by destruct (foldl _ _ _) as [[bs' prune] px].
Qed.

Lemma pxConnect_fold bs s l :
  exists q, pxConnect cfg e s bs l = set_connect bs q
    /\ (Z.of_nat (length (connect bs)) <= Z.max 0 (MaxPendingConnections par) ->
        Z.of_nat (length q) <= Z.max 0 (MaxPendingConnections par)).
Proof.
  unfold pxConnect. set (l0 := if PrunePeers par <? Z.of_nat (length l) then _ else l). clearbody l0.
  generalize (filter (fun pi => bool_decide (peers bs !! pi_peerID pi = None) && validRecord e pi = true) l0).
  clear l l0. intros l. revert bs. induction l as [|pi l IH]; intros bs; simpl.
  { exists (connect bs). split; [by destruct bs|done]. }
  destruct (Z.ltb_spec (Z.of_nat (length (connect bs))) (MaxPendingConnections par)).
  - destruct (IH (set_connect bs (connect bs ++ [pi_peerID pi]))) as (q & -> & Hq).
    exists q. split; [done|]. intros _. apply Hq. simpl. rewrite length_app. simpl. lia.
  - apply IH.
Qed.

Lemma pruneStep_admits p bs pr : admits e bs (pruneStep cfg e p bs pr).
Proof.
  unfold pruneStep. destruct (mesh bs !! pr_bitmask pr) as [ps|] eqn:Em; [|by apply admits_same].
  set (bs1 := if bool_decide (p ∈ ps) then _ else bs).
  assert (H1 : admits e bs bs1).
  { subst bs1. case_bool_decide; [|by apply admits_same].
    eapply admits_trans; [by apply (admits_same e bs (emit bs [EvPrune p (pr_bitmask pr)]))|].
    apply admits_shrink. intros b. rewrite at_insert. simpl. case_decide as E; [|done]. subst.
    unfold at_. rewrite Em. set_solver. }
  set (bs2 := if 0 <? pr_backoff pr then _ else _).
  assert (H2 : admits e bs bs2).
  { eapply admits_trans; [exact H1|]. subst bs2. destruct (0 <? _); apply admits_addBackoff. }
  destruct (pr_peers pr); [done|]. destruct (ltF _ _); [done|].
  destruct (pxConnect_fold bs2 ([pr_bitmask pr; p], 3%nat) (p0 :: l)) as (q & -> & _).
  eapply admits_trans; [exact H2|by apply admits_same].
Qed.

(** What the operations of the message cache do not change. *)
Definition shape (mc : MessageCache) : nat * Z := (length (history mc), gossip mc).

Lemma iwant_fold p l : forall bs ihave,
  exists mc, (foldl (iwantStep cfg p) (bs, ihave) l).1 = set_mcache bs mc /\ shape mc = shape (mcache bs).
Proof.
  induction l as [|mid l IH]; intros bs ihave; [exists (mcache bs); split; [by destruct bs|done]|].
  cbn [foldl]. destruct (iwantStep cfg p (bs, ihave) mid) as [bs1 ihave1] eqn:E1.
  assert (exists mc, bs1 = set_mcache bs mc /\ shape mc = shape (mcache bs)) as (mc & -> & Hs).
  { assert (Hg : shape (GetForPeer (mcache bs) mid p).1 = shape (mcache bs))
      by (unfold GetForPeer; by destruct (msgs (mcache bs) !! mid)).
    unfold iwantStep in E1. destruct (GetForPeer (mcache bs) mid p) as [mc [[msg n]|]];
      repeat case_match; simplify_eq; exists mc; unfold shape; split; congruence. }
  destruct (IH (set_mcache bs mc) ihave1) as (mc' & -> & Hs'). exists mc'. split; [done|exact (eq_trans Hs' Hs)].
Qed.

(** *** The invariant, apart from the meshes *)
Record rest (bs : BlossomSubRouter) : Prop := {
  ri_fanout b : at_ (fanout bs) b ## direct bs;
  ri_disj : dom (mesh bs) ## dom (fanout bs);
  ri_pub : dom (fanout bs) ⊆ dom (lastpub bs);
  ri_asked p : 0 <= count (iasked bs) p <= Z.max 0 (MaxIHaveLength par);
  ri_unwanted p m mid n : unwanted bs !! p = Some m -> m !! mid = Some n -> 0 < n <= IDontWantMessageTTL par;
  ri_connect : Z.of_nat (length (connect bs)) <= Z.max 0 (MaxPendingConnections par);
  ri_cache : shape (mcache bs) = (Z.to_nat (HistoryLength par), HistoryGossip par) }.

Lemma rest_same bs bs' :
  direct bs' = direct bs -> dom (mesh bs') = dom (mesh bs) -> fanout bs' = fanout bs -> lastpub bs' = lastpub bs ->
  iasked bs' = iasked bs -> unwanted bs' = unwanted bs -> connect bs' = connect bs ->
  shape (mcache bs') = shape (mcache bs) -> rest bs -> rest bs'.
Proof.
  intros H1 H2 H3 H4 H5 H6 H7 H8 [R1 R2 R3 R4 R5 R6 R7].
  split; rewrite ?H1, ?H2, ?H3, ?H4, ?H5, ?H6, ?H7, ?H8; assumption.
Qed.

Lemma rest_quiet bs bs' : quiet bs' = quiet bs -> rest bs -> rest bs'.
Proof.
  intros E. apply rest_same.
  - exact (f_equal direct E).
  - exact (f_equal (fun b => dom (mesh b)) E).
  - exact (f_equal fanout E).
  - exact (f_equal lastpub E).
  - exact (f_equal iasked E).
  - exact (f_equal unwanted E).
  - exact (f_equal connect E).
  - exact (f_equal (fun b => shape (mcache b)) E).
Qed.

Lemma rest_foldl {A} (f : BlossomSubRouter -> A -> BlossomSubRouter) bs l :
  (forall bs a, rest bs -> rest (f bs a)) -> rest bs -> rest (foldl f bs l).
Proof. intros Hf. revert bs. induction l as [|a l IH]; intros bs H; [done|]. simpl. auto. Qed.

Lemma handleIHave_rest bs p c : rest bs -> rest (handleIHave cfg e bs p c).1.
Proof.
  intros R. unfold handleIHave. destruct (ltF _ _); [done|].
  destruct (_ <? _); [by apply (rest_same bs)|]. simpl. destruct (Z.leb_spec (MaxIHaveLength par) (count (iasked bs) p)) as [|Hlt];
    [by apply (rest_same bs)|].
  set (iwant := list_to_set _ : gset bytes). case_bool_decide; [by apply (rest_same bs)|].
  destruct R as [R1 R2 R3 R4 R5 R6 R7]. split; try done. simpl. intros q. unfold count.
  destruct (decide (p = q)) as [<-|Hq]; [|rewrite lookup_insert_ne by done; apply R4].
  rewrite lookup_insert_eq. simpl. fold (count (iasked bs) p). pose proof (R4 p).
  assert (0 <= sizeZ iwant) by (unfold sizeZ; lia).
  destruct (Z.ltb_spec (MaxIHaveLength par) (sizeZ iwant + count (iasked bs) p)); lia.
Qed.

Lemma handleIWant_rest bs p c : rest bs -> rest (handleIWant cfg e bs p c).1.
Proof.
  intros R. unfold handleIWant. destruct (ltF _ _); [done|].
  destruct (iwant_fold p (Iwant c ≫= iw_messageIDs) bs ∅) as (mc & E & Hs).
  destruct (foldl _ _ _) as [bs' ihave]. simpl in *. subst. by apply (rest_same bs).
Qed.

Lemma graftStep_rest p st g : rest st.1.1 -> rest (graftStep cfg e p st g).1.1.
Proof.
  destruct st as [[bs prune] px]. intros R. unfold graftStep. simpl in R. destruct (negb _); [done|].
  destruct (mesh bs !! gr_bitmask g) as [ps|] eqn:Em; [|done].
  case_bool_decide; [done|]. case_bool_decide as Hd; [done|].
  destruct (activeBackoff e bs (gr_bitmask g) p) as [t|]; [simpl; destruct (_ <? _); by apply (rest_same bs)|].
  destruct (ltF _ _); [by apply (rest_same bs)|]. destruct (_ && _); [by apply (rest_same bs)|].
  apply (rest_same bs); try done. simpl. by apply dom_insert_lookup_L.
Qed.

Lemma handleGraft_rest bs p c : rest bs -> rest (handleGraft cfg e bs p c).1.
Proof.
  intros R. unfold handleGraft.
  assert (H : forall l st, rest st.1.1 -> rest (foldl (graftStep cfg e p) st l).1.1).
  { induction l as [|g l IH]; intros st Hst; [done|]. simpl. by apply IH, graftStep_rest. }
  specialize (H (Graft c) (bs, [], doPX cfg) R). by destruct (foldl _ _ _) as [[bs' prune] px].
Qed.

Lemma pruneStep_rest p bs pr : rest bs -> rest (pruneStep cfg e p bs pr).
Proof.
  intros R. unfold pruneStep. destruct (mesh bs !! pr_bitmask pr) as [ps|] eqn:Em; [|done].
  set (bs1 := if bool_decide (p ∈ ps) then _ else bs).
  assert (H1 : rest bs1).
  { subst bs1. case_bool_decide; [|done]. apply (rest_same bs); try done. simpl. by apply dom_insert_lookup_L. }
  set (bs2 := if 0 <? pr_backoff pr then _ else _).
  assert (H2 : rest bs2) by (subst bs2; destruct (0 <? _); by apply (rest_same bs1)).
  destruct (pr_peers pr); [done|]. destruct (ltF _ _); [done|].
  destruct (pxConnect_fold bs2 ([pr_bitmask pr; p], 3%nat) (p0 :: l)) as (q & -> & Hq).
  destruct H2. split; try done. simpl. auto.
Qed.

Lemma handleIDontWant_rest bs p c : 0 < IDontWantMessageTTL par -> rest bs -> rest (handleIDontWant cfg bs p c).
Proof.
  intros Httl R. unfold handleIDontWant.
  set (bs1 := match unwanted bs !! p with None => _ | Some _ => bs end).
  assert (H1 : rest bs1).
  { subst bs1. destruct (unwanted bs !! p) eqn:E; [done|]. destruct R as [R1 R2 R3 R4 R5 R6 R7]. split; try done. simpl.
    intros q m mid n [[<- <-]|[_ Hq]]%lookup_insert_Some Hn; [by rewrite lookup_empty in Hn|by eapply R5]. }
  destruct (_ <=? _); [done|]. destruct H1 as [R1 R2 R3 R4 R5 R6 R7]. split; try done. simpl.
  generalize (Idontwant c ≫= id_messageIDs). intros mids q m mid n Hq Hn.
  apply lookup_alter_Some in Hq as [(<- & m0 & Hm0 & ->)|[_ Hq]]; [|by eapply R5].
  assert (Hall : forall mid n, m0 !! mid = Some n -> 0 < n <= IDontWantMessageTTL par) by (intros; by eapply R5).
  clear -Hn Hall Httl. revert m0 Hall Hn. induction mids as [|x mids IH]; intros m0 Hall Hn; [by eapply Hall|].
  simpl in Hn. eapply IH; [|exact Hn]. intros y k [[<- <-]|[_ Hy]]%lookup_insert_Some; [lia|by eapply Hall].
Qed.

(** *** Every operation keeps the invariant and admits only who may enter *)
Definition keeps (bs bs' : BlossomSubRouter) : Prop := rest bs -> rest bs' /\ admits e bs bs'.

Lemma keeps_trans bs1 bs2 bs3 : keeps bs1 bs2 -> keeps bs2 bs3 -> keeps bs1 bs3.
Proof. intros H1 H2 R. destruct (H1 R) as [R2 A1]. destruct (H2 R2) as [R3 A2]. split; [done|by eapply admits_trans]. Qed.
Lemma keeps_quiet bs bs' : quiet bs' = quiet bs -> keeps bs bs'.
Proof. intros E R. split; [by apply (rest_quiet bs)|by apply admits_quiet]. Qed.
Lemma keeps_refl bs : keeps bs bs.
Proof. by apply keeps_quiet. Qed.
Lemma keeps_foldl {A} (f : BlossomSubRouter -> A -> BlossomSubRouter) bs l :
  (forall bs a, keeps bs (f bs a)) -> keeps bs (foldl f bs l).
Proof.
  intros Hf. revert bs. induction l as [|a l IH]; intros bs; [apply keeps_refl|].
  simpl. eapply keeps_trans; [apply Hf|apply IH].
Qed.
Lemma keeps_foldlM {A} (f : BlossomSubRouter -> A -> option BlossomSubRouter) bs l bs' :
  (forall bs a bs', f bs a = Some bs' -> keeps bs bs') -> foldlM f bs l = Some bs' -> keeps bs bs'.
Proof.
  intros Hf. revert bs. induction l as [|a l IH]; intros bs E; simpl in E; [simplify_eq; apply keeps_refl|].
  destruct (f bs a) as [bs1|] eqn:E1; [|done]. eapply keeps_trans; [by apply (Hf bs a)|by apply IH].
Qed.
Lemma keeps_same bs bs' :
  direct bs' = direct bs -> mesh bs' = mesh bs -> fanout bs' = fanout bs -> lastpub bs' = lastpub bs ->
  iasked bs' = iasked bs -> unwanted bs' = unwanted bs -> connect bs' = connect bs -> backoff bs' = backoff bs ->
  shape (mcache bs') = shape (mcache bs) -> keeps bs bs'.
Proof.
  intros H1 H2 H3 H4 H5 H6 H7 H8 H9 R. split; [|by apply admits_same]. apply (rest_same bs); congruence.
Qed.

Lemma keeps_sendRPC bs p out fast : keeps bs (sendRPC cfg e bs p out fast).
Proof. apply keeps_quiet, sendRPC_quiet. Qed.

Lemma keeps_HandleRPC bs rpc : 0 < IDontWantMessageTTL par -> keeps bs (HandleRPC cfg e bs rpc).
Proof.
  intros Httl R. unfold HandleRPC. destruct (Control rpc) as [c|]; [|by apply keeps_refl].
  set (p := rpc_from rpc).
  assert (K1 : keeps bs (handleIHave cfg e bs p c).1).
  { split; [by apply handleIHave_rest|]. unfold handleIHave. repeat case_match; by apply admits_same. }
  destruct (handleIHave cfg e bs p c) as [bs1 iwant]. simpl in K1.
  assert (K2 : keeps bs1 (handleIWant cfg e bs1 p c).1).
  { intros R1. split; [by apply handleIWant_rest|]. unfold handleIWant. destruct (ltF _ _); [by apply admits_same|].
    destruct (iwant_fold p (Iwant c ≫= iw_messageIDs) bs1 ∅) as (mc & E & _).
    destruct (foldl _ _ _) as [bs' ihave]. simpl in *. subst. by apply admits_same. }
  destruct (handleIWant cfg e bs1 p c) as [bs2 ihave]. simpl in K2.
  assert (K3 : keeps bs2 (handleGraft cfg e bs2 p c).1)
    by (split; [by apply handleGraft_rest|apply handleGraft_admits]).
  destruct (handleGraft cfg e bs2 p c) as [bs3 prune]. simpl in K3.
  assert (K4 : keeps bs3 (handlePrune cfg e bs3 p c)).
  { apply keeps_foldl. intros bs' pr R'. split; [by apply pruneStep_rest|apply pruneStep_admits]. }
  set (bs4 := handlePrune cfg e bs3 p c) in *.
  assert (K5 : keeps bs4 (handleIDontWant cfg bs4 p c)).
  { split; [by apply handleIDontWant_rest|]. unfold handleIDontWant. repeat case_match; by apply admits_same. }
  assert (K : keeps bs (handleIDontWant cfg bs4 p c)) by eauto using keeps_trans.
  destruct iwant, ihave, prune; try by apply K.
  all: apply (keeps_trans _ _ _ K (keeps_sendRPC _ _ _ _)), R.
Qed.

Context (Eok : env_ok e).

Lemma getPeers_flt s bs b cnt flt p : p ∈ getPeers cfg e s bs b cnt flt -> flt p = true.
Proof.
  intros Hp. destruct (getPeers_spec cfg e Eok s bs b cnt flt) as (_ & HF & _). rewrite Forall_forall in HF.
  apply HF in Hp. by apply andb_true_iff in Hp as [_ ?].
Qed.

Lemma joinPeers_free bs b p : rest bs -> p ∈ joinPeers cfg e bs b -> p ∉ direct bs /\ hasBackoff bs b p = false.
Proof.
  intros R. unfold joinPeers. destruct (fanout bs !! b) as [gm|] eqn:Ef.
  - set (g := filter _ gm). assert (Hg : p ∈ g -> p ∉ direct bs /\ hasBackoff bs b p = false).
    { unfold g. rewrite elem_of_filter. intros [[_ Hb]%orb_false_iff Hp]. split; [|done].
      pose proof (ri_fanout _ R b) as Hd. unfold at_ in Hd. rewrite Ef in Hd. simpl in Hd. set_solver. }
    destruct (_ <? _); [|done]. rewrite elem_of_union. intros [Hp|Hp]; [auto|].
    apply elem_of_list_to_set, getPeers_flt in Hp. unfold isDirect in Hp.
    rewrite !andb_true_iff, !negb_true_iff, !bool_decide_eq_false in Hp. tauto.
  - intros Hp%elem_of_list_to_set%getPeers_flt. unfold isDirect in Hp.
    rewrite !andb_true_iff, !negb_true_iff, !bool_decide_eq_false in Hp. tauto.
Qed.

Lemma keeps_Join bs b : keeps bs (Join cfg e bs b).
Proof.
  unfold Join. destruct (mesh bs !! b) as [|] eqn:Em; [apply keeps_refl|].
  set (g := joinPeers cfg e bs b). set (bs1 := emit bs [EvJoin b]).
  set (bs2 := match fanout bs1 !! b with Some _ => _ | None => bs1 end).
  eapply keeps_trans; [|apply keeps_foldl; intros bs' p; eapply keeps_trans; [|apply keeps_sendRPC]; by apply keeps_quiet].
  intros R.
  assert (Hf : (fanout bs2 = delete b (fanout bs) /\ lastpub bs2 = delete b (lastpub bs))
               \/ (fanout bs2 = fanout bs /\ lastpub bs2 = lastpub bs /\ fanout bs !! b = None)).
  { subst bs2. change (fanout bs1) with (fanout bs). destruct (fanout bs !! b); [by left|by right]. }
  assert (Hs : direct bs2 = direct bs /\ mesh bs2 = mesh bs /\ iasked bs2 = iasked bs /\ unwanted bs2 = unwanted bs
               /\ connect bs2 = connect bs /\ backoff bs2 = backoff bs /\ mcache bs2 = mcache bs)
    by (subst bs2; by destruct (fanout bs1 !! b)).
  destruct Hs as (H1 & H2 & H3 & H4 & H5 & H6 & H7). split.
  - destruct R as [R1 R2 R3 R4 R5 R6 R7]. split; simpl; rewrite ?H1, ?H2, ?H3, ?H4, ?H5, ?H7; try done.
    + intros b'. destruct Hf as [[-> _]|[-> _]]; [|apply R1]. unfold at_. specialize (R1 b'). unfold at_ in R1.
      destruct (decide (b = b')) as [<-|]; [rewrite lookup_delete_eq; set_solver|by rewrite lookup_delete_ne].
    + rewrite dom_insert. destruct Hf as [[-> _]|(-> & _ & Hn)]; [rewrite dom_delete; set_solver|].
      apply not_elem_of_dom in Hn. set_solver.
    + destruct Hf as [[-> ->]|(-> & -> & _)]; [rewrite !dom_delete; set_solver|done].
  - eapply admits_trans; [by apply (admits_same e bs bs2)|]. split; [done| |done]. simpl. intros b' p.
    rewrite at_insert, H1, H2. case_decide as E; [subst|by left]. intros Hp. right.
    destruct (joinPeers_free bs b' p R Hp) as [Hd Hb]. split; [done|].
    apply hasBackoff_active. unfold hasBackoff in *. by rewrite H6.
Qed.

Lemma keeps_addBackoff bs p b u : keeps bs (addBackoff cfg e bs p b u).
Proof. intros R. split; [by apply (rest_same bs)|apply admits_addBackoff]. Qed.

Lemma keeps_Leave bs b : keeps bs (Leave cfg e bs b).
Proof.
  unfold Leave. destruct (mesh bs !! b) as [g|] eqn:Em; [|apply keeps_refl].
  eapply keeps_trans; [|apply keeps_foldl; intros bs' p; eapply keeps_trans; [|apply keeps_addBackoff];
    eapply keeps_trans; [|apply keeps_sendRPC]; by apply keeps_quiet].
  intros R. split.
  - destruct R as [R1 R2 R3 R4 R5 R6 R7]. split; try done. simpl. rewrite dom_delete. set_solver.
  - split; [done| |done]. simpl. intros b' p Hp. left. unfold at_ in *.
    destruct (decide (b = b')) as [<-|]; [rewrite lookup_delete_eq in Hp; set_solver|by rewrite lookup_delete_ne in Hp].
Qed.

Lemma keeps_fanoutPeers bs b : mesh bs !! b = None -> keeps bs (fanoutPeers cfg e bs b).1.
Proof.
  intros Em R. unfold fanoutPeers.
  set (r := if bool_decide _ then _ else _).
  assert (Hr : exists f, r.1 = set_fanout bs f /\ dom f ⊆ {[b]} ∪ dom (fanout bs)
    /\ forall b', at_ f b' ## direct bs).
  { destruct R as [R1 _ _ _ _ _ _].
    assert (Hid : bs = set_fanout bs (fanout bs)) by (by destruct bs).
    subst r. case_bool_decide; [|exists (fanout bs); split_and!; [done|set_solver|done]].
    destruct (getPeers _ _ _ _ _ _ _) as [|x l] eqn:Eg; [exists (fanout bs); split_and!; [done|set_solver|done]|].
    exists (<[b := peerListToMap (x :: l)]> (fanout bs)). split_and!; [done|by rewrite dom_insert|].
    intros b'. rewrite at_insert. case_decide; [|apply R1]. intros p Hp Hd.
    apply elem_of_list_to_set in Hp. rewrite <-Eg in Hp. apply getPeers_flt in Hp.
    apply andb_true_iff in Hp as [Hp _]. unfold isDirect in Hp. by rewrite bool_decide_true in Hp. }
  destruct r as [bs1 gm]. destruct Hr as (f & E & Hdom & Hfree). simpl in *. subst bs1. split; [|by apply admits_same].
  destruct R as [R1 R2 R3 R4 R5 R6 R7]. apply not_elem_of_dom in Em. split; try done; simpl.
  - set_solver.
  - rewrite dom_insert. set_solver.
Qed.

Lemma keeps_publishSlice bs from osnd mid b tmap : keeps bs (publishSlice cfg e bs from osnd mid b tmap).1.
Proof.
  unfold publishSlice. destruct (_ && _); [apply keeps_refl|].
  destruct (mesh bs !! b) as [g|] eqn:Em; [apply keeps_refl|].
  pose proof (keeps_fanoutPeers bs b Em) as K. by destruct (fanoutPeers cfg e bs b) as [bs1 gm].
Qed.

Lemma keeps_publishLoop slices from osnd mid : forall bs acc, keeps bs (publishLoop cfg e bs from osnd mid slices acc).1.
Proof.
  induction slices as [|b slices IH]; intros bs acc; simpl; [apply keeps_refl|].
  destruct (bitmasks bs !! b) as [tmap|]; [|apply keeps_refl].
  pose proof (keeps_publishSlice bs from osnd mid b tmap) as K.
  destruct (publishSlice cfg e bs from osnd mid b tmap) as [bs1 tosend]. by eapply keeps_trans.
Qed.

Lemma shape_Put mc msg mc' : Put mc msg = Some mc' -> shape mc' = shape mc.
Proof. unfold Put, shape. destruct (history mc); [done|]. by intros [= <-]. Qed.
Lemma shape_Shift mc mc' : Shift mc = Some mc' -> shape mc' = shape mc.
Proof.
  unfold Shift, shape. destruct (history mc) as [|x l] eqn:E; [done|]. case_match; [|done].
  intros [= <-]. cbn [history gossip length]. rewrite length_take. f_equal. simpl. lia.
Qed.

Lemma keeps_PublishMsg bs msg bs' : PublishMsg cfg e bs msg = Some bs' -> keeps bs bs'.
Proof.
  unfold PublishMsg. destruct (Put (mcache bs) msg) as [mc|] eqn:Ep; [|done]. simpl.
  pose proof (keeps_publishLoop (SliceBitmask (GetBitmask msg)) (ReceivedFrom msg) (GetFrom msg) (idOf (idGen cfg) msg)
    (set_mcache bs mc) []) as K.
  destruct (publishLoop _ _ _ _ _ _ _ _) as [bs1 all]. simpl in K.
  assert (K0 : keeps bs bs1) by (eapply keeps_trans; [|exact K]; apply keeps_same; try done;
    by apply (shape_Put _ msg)).
  destruct all as [[|x l]|]; intros [= <-]; [done| |done].
  eapply keeps_trans; [exact K0|]. apply keeps_foldl. intros. apply keeps_sendRPC.
Qed.

Lemma keeps_PreValidation bs msgs : keeps bs (PreValidation cfg e bs msgs).
Proof. unfold PreValidation. apply keeps_foldl. intros. apply keeps_sendRPC. Qed.

Lemma at_fmap (f : gset PeerID -> gset PeerID) (m : gmap bytes (gset PeerID)) b : f ∅ = ∅ -> at_ (f <$> m) b = f (at_ m b).
Proof. intros Hf. unfold at_. rewrite lookup_fmap. by destruct (m !! b). Qed.

Lemma keeps_RemovePeer bs p : keeps bs (RemovePeer e bs p).
Proof.
  intros R. unfold RemovePeer. split.
  - destruct R as [R1 R2 R3 R4 R5 R6 R7]. split; simpl; try done.
    + intros b. rewrite at_fmap by set_solver. set_solver.
    + by rewrite !dom_fmap.
    + by rewrite dom_fmap.
    + intros q m mid n [_ Hq]%lookup_delete_Some. by eapply R5.
  - split; [done| |done]. simpl. intros b q. rewrite at_fmap by set_solver. set_solver.
Qed.

(** *** The heartbeat *)
Lemma keeps_clearBackoff bs : keeps bs (clearBackoff e bs).
Proof.
  intros R. unfold clearBackoff. destruct (negb _); [by apply keeps_refl|]. split; [by apply (rest_same bs)|].
  split; [done|auto|]. intros b p t Ht. unfold backedOff. simpl.
  set (live := filter (fun kv => now e <= kv.2 + 2 * BlossomSubHeartbeatInterval) <$> backoff bs).
  destruct (backoff bs !! b) as [m|] eqn:Eb; [|done]. simpl. destruct (m !! p) as [x|] eqn:Em; [|done].
  intros Hlt%Z.ltb_lt.
  assert (Hl : filter (fun kv => now e <= kv.2 + 2 * BlossomSubHeartbeatInterval) m !! p = Some x).
  { apply map_lookup_filter_Some. split; [done|]. simpl. unfold BlossomSubHeartbeatInterval. lia. }
  assert (Hf : filter (fun kv : bytes * gmap PeerID Z => kv.2 <> ∅) live !! b
    = Some (filter (fun kv => now e <= kv.2 + 2 * BlossomSubHeartbeatInterval) m)).
  { apply map_lookup_filter_Some. split; [unfold live; by rewrite lookup_fmap, Eb|]. simpl. intros E.
    by rewrite E, lookup_empty in Hl. }
  rewrite Hf. simpl. rewrite Hl. by apply Z.ltb_lt.
Qed.

Lemma keeps_cleanUp bs : keeps bs (cleanUp cfg e bs).
Proof.
  unfold cleanUp. eapply keeps_trans; [by apply (keeps_same bs (set_heartbeatTicks bs ((heartbeatTicks bs + 1) mod 2 ^ 64)))|].
  eapply keeps_trans; [apply keeps_clearBackoff|]. set (b1 := clearBackoff e _).
  eapply keeps_trans; [|eapply keeps_trans; [|eapply (keeps_trans _ (applyIwantPenalties e (clearIDontWantCounters (clearIHaveCounters b1))))]].
  - intros R. split; [|by apply (admits_same e b1 (clearIHaveCounters b1))].
    destruct R. split; try done. simpl. intros q. unfold count. rewrite lookup_empty. simpl. lia.
  - intros R. split; [|by apply (admits_same e _ (clearIDontWantCounters (clearIHaveCounters b1)))].
    destruct R as [R1 R2 R3 R4 R5 R6 R7]. split; try done. simpl. intros q m mid n Hq Hn.
    rewrite lookup_fmap in Hq. destruct (unwanted b1 !! q) as [m0|] eqn:Eu; [|done]. simpl in Hq. injection Hq as <-.
    apply map_lookup_filter_Some in Hn as [Hn Hne]. rewrite lookup_fmap in Hn. simpl in Hne.
    destruct (m0 !! mid) as [k|] eqn:Ek; [|done]. simpl in Hn. injection Hn as <-.
    specialize (R5 q m0 mid k Eu Ek). lia.
  - by apply keeps_quiet.
  - unfold directConnect. destruct (negb _); [apply keeps_refl|]. destruct (filter _ _); [apply keeps_refl|].
    by apply keeps_quiet.
Qed.

Lemma keeps_prunePeer b h p : keeps (hb h) (hb (prunePeer cfg e b h p)).
Proof.
  eapply keeps_trans; [|apply keeps_addBackoff]. intros R. split.
  - apply (rest_same (hb h)); try done. simpl. by rewrite dom_alter_L.
  - split; [done| |done]. simpl. intros b' q. unfold at_. rewrite lookup_alter.
    case_decide; [subst|by left]. destruct (mesh (hb h) !! b'); simpl; set_solver.
Qed.

Lemma keeps_graftPeer b h p :
  p ∉ direct (hb h) -> activeBackoff e (hb h) b p = None -> keeps (hb h) (hb (graftPeer b h p)).
Proof.
  intros Hd Hb R. split.
  - apply (rest_same (hb h)); try done. simpl. by rewrite dom_alter_L.
  - eapply admits_trans; [by apply (admits_same e (hb h) (emit (hb h) [EvGraft p b]))|].
    apply (admits_graft _ _ b p); [done|done|]. simpl. intros b' q. unfold at_. rewrite lookup_alter.
    case_decide; [subst|by left]. destruct (mesh (hb h) !! b'); simpl; set_solver.
Qed.

Lemma keeps_graftSome n b h cnt flt : keeps (hb h) (hb (graftSome cfg e n b h cnt flt)).
Proof.
  unfold graftSome. set (l := getPeers _ _ _ _ _ _ _).
  assert (Hl : Forall (fun p => p ∉ direct (hb h) /\ activeBackoff e (hb h) b p = None) l).
  { apply Forall_forall. intros p Hp. apply getPeers_flt, andb_true_iff in Hp as [(_ & Hb & Hd)%candidate_iff _].
    split; [done|by apply hasBackoff_active]. }
  clearbody l. revert h Hl. induction l as [|p l IH]; intros h Hl; [apply keeps_refl|].
  inversion Hl as [|?? [Hd Hb] Hl']; subst. simpl. eapply keeps_trans; [by apply (keeps_graftPeer b h p)|].
  apply (IH (graftPeer b h p)). exact Hl'.
Qed.

Lemma keeps_hbfold (f : hbState -> PeerID -> hbState) h l :
  (forall h p, keeps (hb h) (hb (f h p))) -> keeps (hb h) (hb (foldl f h l)).
Proof.
  intros Hf. revert h. induction l as [|p l IH]; intros h; [apply keeps_refl|]. simpl.
  eapply keeps_trans; [apply Hf|apply IH].
Qed.

Lemma keeps_maintainMesh b h : keeps (hb h) (hb (maintainMesh cfg e b h)).
Proof.
  assert (K1 : forall h, keeps (hb h) (hb (dropNegative cfg e b h))).
  { intros h0. unfold dropNegative. apply keeps_hbfold. intros h' p.
    destruct (ltF _ _); [exact (keeps_prunePeer b h' p)|apply keeps_refl]. }
  assert (K2 : forall h, keeps (hb h) (hb (fillMesh cfg e b h))).
  { intros h0. unfold fillMesh. destruct (_ <? _); [apply keeps_graftSome|apply keeps_refl]. }
  assert (K3 : forall h, keeps (hb h) (hb (trimMesh cfg e b h))).
  { intros h0. unfold trimMesh. destruct (_ <? _); [apply keeps_hbfold, keeps_prunePeer|apply keeps_refl]. }
  assert (K4 : forall h, keeps (hb h) (hb (fillOutbound cfg e b h))).
  { intros h0. unfold fillOutbound. destruct (_ <=? _); [|apply keeps_refl].
    destruct (_ <? _); [apply keeps_graftSome|apply keeps_refl]. }
  assert (K5 : forall h, keeps (hb h) (hb (opportunisticGraft cfg e b h))).
  { intros h0. unfold opportunisticGraft. destruct (_ && _); [|apply keeps_refl].
    destruct (ltF _ _); [apply keeps_graftSome|apply keeps_refl]. }
  unfold maintainMesh. eauto using keeps_trans.
Qed.

Lemma emitGossip_quiet b bs X bs' : emitGossip cfg e b bs X = Some bs' -> quiet bs' = quiet bs.
Proof.
  unfold emitGossip. destruct (GetGossipIDs (mcache bs) b) as [[|m mids]|]; simpl; [by intros [= <-]| |done].
  destruct (_ || _); [done|]. intros [= <-]. generalize (shufflePeers (intn e ([b], 26%nat)) (m :: mids)).
  match goal with |- context [foldl _ _ ?l] => generalize l end. clear. intros l. revert bs.
  induction l as [|p l IH]; intros bs ms; [done|]. cbn [foldl].
  destruct (gossipStep cfg e b (bs, ms) p) as [bs1 ms1] eqn:E. rewrite IH.
  unfold gossipStep in E. destruct (_ <? _); by simplify_eq.
Qed.

Lemma keeps_maintain h b h' : maintain cfg e h b = Some h' -> keeps (hb h) (hb h').
Proof.
  unfold maintain. destruct (trimPanics _ _ _); [done|]. destruct (emitGossip _ _ _ _ _) as [bs|] eqn:E; simpl; [|done]. intros [= <-]. simpl.
  eapply keeps_trans; [apply (keeps_maintainMesh b h)|]. by apply keeps_quiet, (emitGossip_quiet _ _ _ _ E).
Qed.

Lemma keeps_maintainAll l : forall h h', foldlM (maintain cfg e) h l = Some h' -> keeps (hb h) (hb h').
Proof.
  induction l as [|b l IH]; intros h h' E; simpl in E; [simplify_eq; apply keeps_refl|].
  destruct (maintain cfg e h b) as [h1|] eqn:E1; [|done]. eapply keeps_trans; [by apply (keeps_maintain h b)|by apply IH].
Qed.

Lemma keeps_expireFanout bs : keeps bs (expireFanout cfg e bs).
Proof.
  intros R. split; [|by apply admits_same]. unfold expireFanout. set (X := dom (filter _ (lastpub bs))).
  destruct R as [R1 R2 R3 R4 R5 R6 R7].
  assert (Hdom : forall (A : Type) (m : gmap bytes A), dom (filter (fun kv : bytes * A => kv.1 ∉ X) m) = dom m ∖ X).
  { intros A m. apply set_eq. intros k. rewrite elem_of_difference, !elem_of_dom. unfold is_Some.
    setoid_rewrite map_lookup_filter_Some. simpl. naive_solver. }
  split; simpl; try done.
  - intros b. specialize (R1 b). unfold at_ in *. destruct (filter _ (fanout bs) !! b) as [Y|] eqn:E; simpl; [|set_solver].
    apply map_lookup_filter_Some in E as [E _]. by rewrite E in R1.
  - rewrite Hdom. set_solver.
  - rewrite !Hdom. set_solver.
Qed.

Lemma keeps_maintainFanout bs b bs' :
  maintainFanout cfg e bs b = Some bs' -> b ∈ dom (fanout bs) -> keeps bs bs' /\ dom (fanout bs') = dom (fanout bs).
Proof.
  unfold maintainFanout. set (ps := filter _ (at_ (fanout bs) b)). set (ps' := if _ <? _ then _ else ps).
  intros E Hb. assert (Hd : dom (<[b := ps']> (fanout bs)) = dom (fanout bs)) by (rewrite dom_insert_L; set_solver).
  apply emitGossip_quiet in E. split.
  - eapply keeps_trans; [|by apply (keeps_quiet _ _ E)]. intros R. split; [|by apply admits_same].
    destruct R as [R1 R2 R3 R4 R5 R6 R7]. split; simpl; try done; try by rewrite Hd.
    intros b'. rewrite at_insert. case_decide; [|apply R1]. subst b'. specialize (R1 b).
    assert (Hps : ps ## direct bs) by (unfold ps; intros p [_ Hp]%elem_of_filter; set_solver).
    unfold ps'. destruct (_ <? _); [|done]. intros p [Hp|Hp]%elem_of_union Hdir; [set_solver|].
    apply elem_of_list_to_set, getPeers_flt in Hp. unfold isDirect in Hp.
    rewrite !andb_true_iff, !negb_true_iff, !bool_decide_eq_false in Hp. tauto.
  - rewrite (f_equal fanout E : fanout bs' = _). exact Hd.
Qed.

Lemma keeps_fanoutAll l : forall bs bs',
  foldlM (maintainFanout cfg e) bs l = Some bs' -> Forall (fun b => b ∈ dom (fanout bs)) l -> keeps bs bs'.
Proof.
  induction l as [|b l IH]; intros bs bs' E Hl; simpl in E; [simplify_eq; apply keeps_refl|].
  destruct (maintainFanout cfg e bs b) as [bs1|] eqn:E1; [|done]. inversion Hl as [|?? Hb Hl']; subst.
  destruct (keeps_maintainFanout bs b bs1 E1 Hb) as [K Hd].
  eapply keeps_trans; [exact K|]. apply (IH _ _ E). by rewrite Hd.
Qed.

Lemma sendGraftPrune_quiet bs tg tp npx : quiet (sendGraftPrune cfg e bs tg tp npx) = quiet bs.
Proof.
  unfold sendGraftPrune. rewrite foldl_quiet; [apply foldl_quiet|]; intros; apply sendRPC_quiet.
Qed.

Lemma flush_quiet bs : quiet (flush cfg e bs) = quiet bs.
Proof.
  unfold flush. rewrite foldl_quiet; [apply foldl_quiet|].
  - intros bs' p. destruct (pending bs' !! p); [|done]. by rewrite sendRPC_quiet.
  - intros bs' p. destruct (control bs' !! p); [|done]. by rewrite sendRPC_quiet.
Qed.


Lemma keeps_shiftCache bs bs' : (mc ← Shift (mcache bs); Some (set_mcache bs mc)) = Some bs' -> keeps bs bs'.
Proof. 
  destruct (Shift (mcache bs)) as [mc|] eqn:E; simpl; [|done]. intros [= <-]. apply keeps_same; try done.
  by apply shape_Shift.
Qed.

Lemma keeps_heartbeat bs bs' : heartbeat cfg e bs = Some bs' -> keeps bs bs'.
Proof.
  unfold heartbeat. destruct (_ || _); [done|].
  pose proof (keeps_cleanUp bs) as K0. generalize dependent (cleanUp cfg e bs). intros bs0 K0.
  destruct (foldlM (maintain cfg e) _ _) as [h|] eqn:E1; cbn [mbind option_bind]; [|done].
  pose proof (keeps_maintainAll _ _ _ E1) as K1. cbn [hb] in K1.
  pose proof (keeps_expireFanout (hb h)) as K2. generalize dependent (expireFanout cfg e (hb h)). intros bs1 K2.
  destruct (foldlM (maintainFanout cfg e) bs1 _) as [bs2|] eqn:E2; cbn [mbind option_bind]; [|done].
  assert (K3 : keeps bs1 bs2).
  { apply (keeps_fanoutAll _ _ _ E2). apply Forall_forall. intros b Hb. by apply (elem_of_iter e Eok) in Hb. }
  pose proof (keeps_quiet _ _ (flush_quiet (sendGraftPrune cfg e bs2 (tograft h) (toprune h) (noPX h)))) as K5.
  pose proof (keeps_quiet _ _ (sendGraftPrune_quiet bs2 (tograft h) (toprune h) (noPX h))) as K4.
  generalize dependent (flush cfg e (sendGraftPrune cfg e bs2 (tograft h) (toprune h) (noPX h))). intros bs4 K5 E.
  apply keeps_shiftCache in E.
  eauto 8 using keeps_trans.
Qed.
End steps.
