(* ===== verification/RouterRun.v ===== *)
(** * Executions of the BlossomSub router

    The router as a state machine: its operations, in the order in which the
    event loop of [PubSub] runs them, each in an environment of its own, with
    time that does not go back.  The invariant of the reachable states, the
    absence of panics, and that a pruned peer stays out of the mesh until his
    backoff ends. *)
From Stdlib Require Import ZArith Lia Floats.SpecFloat.
From stdpp Require Import base tactics list numbers option gmap sets fin_maps.
From S2P Require Import Prelude Limits GoBytes Bitmask BlsRpc MessageCache Router RouterLaws Heartbeat HeartbeatLaws RouterInv.
Local Open Scope Z_scope.

Section run.
Context `{PS : ProtoSize} {SS : SortSlice} {SL : SortSliceLaws SS} (cfg : config).
Local Abbreviation par := (params cfg).
Context (sha256 : bytes -> bytes).

(** ** Steps *)
Inductive routerStep (e : env) : BlossomSubRouter -> BlossomSubRouter -> Prop :=
  | step_AddPeer bs p proto : routerStep e bs (AddPeer e bs p proto)
  | step_RemovePeer bs p : routerStep e bs (RemovePeer e bs p)
  | step_HandleRPC bs rpc : routerStep e bs (HandleRPC cfg e bs rpc)
  | step_Join bs b : routerStep e bs (Join cfg e bs b)
  | step_Leave bs b : routerStep e bs (Leave cfg e bs b)
  | step_PublishMsg bs msg bs' : PublishMsg cfg e bs msg = Some bs' -> routerStep e bs bs'
  | step_PreValidation bs msgs : routerStep e bs (PreValidation cfg e bs msgs)
  | step_heartbeat bs bs' : heartbeat cfg e bs = Some bs' -> routerStep e bs bs'
  | step_connectDirect bs p bs' : p ∈ direct bs -> connectDirect cfg bs p = Some bs' -> routerStep e bs bs'
  | step_connector bs p q : connect bs = p :: q -> routerStep e bs (set_connect bs q)
  (** [PubSub] changes the subscribers and the queues. *)
  | step_bitmasks bs m : routerStep e bs (set_bitmasks bs m)
  | step_queues bs X : routerStep e bs (set_queues bs X)
  (** it sends announcements itself *)
  | step_emit bs l : routerStep e bs (emit bs l).

(** Executions from a state at an instant to a state at an instant *)
Inductive routerRun (bs : BlossomSubRouter) (t : Z) : BlossomSubRouter -> Z -> Prop :=
  | run_refl : routerRun bs t bs t
  | run_step bs1 t1 e bs2 :
      routerRun bs t bs1 t1 -> env_ok e -> t1 <= now e -> routerStep e bs1 bs2 -> routerRun bs t bs2 (now e).

Definition routerReach (bs : BlossomSubRouter) (t : Z) : Prop :=
  exists direct0 bs0 t0, NewBlossomSubRouter cfg sha256 direct0 = Some bs0 /\ routerRun (Attach cfg bs0) t0 bs t.

(** ** Every step keeps the invariant *)
Lemma keeps_connectDirect e bs p bs' : connectDirect cfg bs p = Some bs' -> keeps cfg e bs bs'.
Proof.
  unfold connectDirect. destruct (Z.ltb_spec (Z.of_nat (length (connect bs))) (MaxPendingConnections par)); [|done].
  intros [= <-] R. split; [|by apply admits_same]. destruct R. split; try done.
  simpl. rewrite length_app. simpl. lia.
Qed.

Lemma keeps_connector e bs p q : connect bs = p :: q -> keeps cfg e bs (set_connect bs q).
Proof.
  intros E R. split; [|by apply admits_same]. destruct R as [R1 R2 R3 R4 R5 R6 R7]. split; try done.
  simpl. rewrite E in R6. simpl in R6. lia.
Qed.

Context (Httl : 0 < IDontWantMessageTTL par).

Lemma step_keeps e bs bs' : env_ok e -> routerStep e bs bs' -> keeps cfg e bs bs'.
Proof.
  intros Eok []; try by apply keeps_same.
  - by apply keeps_RemovePeer.
  - by apply keeps_HandleRPC.
  - by apply keeps_Join.
  - by apply keeps_Leave.
  - by eapply keeps_PublishMsg.
  - by apply keeps_PreValidation.
  - by eapply keeps_heartbeat.
  - by eapply keeps_connectDirect.
  - by eapply keeps_connector.
Qed.

Lemma run_trans bs1 t1 bs2 t2 bs3 t3 : routerRun bs1 t1 bs2 t2 -> routerRun bs2 t2 bs3 t3 -> routerRun bs1 t1 bs3 t3.
Proof. intros H1 H2. induction H2; [done|]. by eapply run_step. Qed.
(** A step at the instant of the state *)
Lemma run_once e bs bs' : env_ok e -> routerStep e bs bs' -> routerRun bs (now e) bs' (now e).
Proof. intros He Hs. by eapply run_step; [apply run_refl| |lia|]. Qed.

Lemma run_time bs t bs' t' : routerRun bs t bs' t' -> t <= t'.
Proof. induction 1; lia. Qed.

Lemma run_rest bs t bs' t' : routerRun bs t bs' t' -> rest cfg bs -> rest cfg bs'.
Proof. induction 1 as [|bs1 t1 e bs2 _ IH Eok Ht Hs]; [done|]. intros R. by apply (step_keeps e bs1 bs2 Eok Hs), IH. Qed.

(** No direct peer is in a mesh. *)
Definition undirected (bs : BlossomSubRouter) : Prop := forall b, at_ (mesh bs) b ## direct bs.

Lemma run_undirected bs t bs' t' :
  routerRun bs t bs' t' -> rest cfg bs -> undirected bs -> undirected bs'.
Proof.
  induction 1 as [|bs1 t1 e bs2 Hr IH Eok Ht Hs]; [done|]. intros R U.
  destruct (step_keeps e bs1 bs2 Eok Hs (run_rest _ _ _ _ Hr R)) as [_ A]. specialize (IH R U).
  intros b p Hp. rewrite (adm_direct _ _ _ A). apply (adm_mesh _ _ _ A) in Hp as [Hp|[Hp _]]; [|done].
  exact (IH b p Hp).
Qed.

(** A peer that is out of the mesh and backed off stays out until the backoff ends. *)
Lemma run_backedOff bs t bs' t' b p T :
  routerRun bs t bs' t' -> rest cfg bs -> p ∉ at_ (mesh bs) b -> backedOff bs b p T = true -> t' <= T ->
  p ∉ at_ (mesh bs') b /\ backedOff bs' b p T = true.
Proof.
  induction 1 as [|bs1 t1 e bs2 Hr IH Eok Ht Hs]; [done|]. intros R Hp HT HtT.
  destruct (step_keeps e bs1 bs2 Eok Hs (run_rest _ _ _ _ Hr R)) as [_ A].
  destruct IH as [IH1 IH2]; [done..|lia|]. split; [|by apply (adm_backoff _ _ _ A); [lia|]].
  intros [Hm|[_ Hb%activeBackoff_None]]%(adm_mesh _ _ _ A); [done|].
  unfold backedOff in *. destruct (default ∅ (backoff bs1 !! b) !! p); [|done]. apply Z.ltb_lt in IH2. apply Z.ltb_ge in Hb. lia.
Qed.

Lemma start_ok direct0 bs0 :
  NewBlossomSubRouter cfg sha256 direct0 = Some bs0 -> rest cfg (Attach cfg bs0) /\ undirected (Attach cfg bs0).
Proof.
  unfold NewBlossomSubRouter. destruct (Z.ltb_spec (MaxPendingConnections par) 0); [done|].
  unfold NewMessageCache. destruct (Z.ltb_spec (HistoryLength par) (HistoryGossip par)); [done|].
  destruct (Z.ltb_spec (HistoryLength par) 0); [done|]. simpl. intros [= <-]. split; [split|]; simpl.
  - intros b. set_solver.
  - done.
  - done.
  - intros p. unfold count. rewrite lookup_empty. simpl. lia.
  - intros p m mid n Hm. by rewrite lookup_empty in Hm.
  - lia.
  - unfold shape. simpl. by rewrite length_replicate.
  - intros b. unfold at_. simpl. rewrite lookup_empty. set_solver.
Qed.

Lemma reach_ok bs t : routerReach bs t -> rest cfg bs /\ undirected bs.
Proof.
  intros (d & bs0 & t0 & [R U]%start_ok & Hr). split; [by eapply run_rest|by eapply run_undirected].
Qed.

(** C13: in every reachable state of the router no direct peer is in a mesh or a
    fanout, no bitmask has both a mesh and a fanout, every fanout has the time
    of its last use, the messages asked of a peer since the last heartbeat are
    at most [MaxIHaveLength], every unwanted message has a time to live between
    1 and the configured one, and the channel of connection requests is within
    its capacity. *)
Theorem router_invariant bs t :
  routerReach bs t ->
  (forall b, at_ (mesh bs) b ## direct bs) /\ (forall b, at_ (fanout bs) b ## direct bs)
  /\ dom (mesh bs) ## dom (fanout bs) /\ dom (fanout bs) ⊆ dom (lastpub bs)
  /\ (forall p, 0 <= count (iasked bs) p <= Z.max 0 (MaxIHaveLength par))
  /\ (forall p m mid n, unwanted bs !! p = Some m -> m !! mid = Some n -> 0 < n <= IDontWantMessageTTL par)
  /\ Z.of_nat (length (connect bs)) <= Z.max 0 (MaxPendingConnections par).
Proof. intros [[] U]%reach_ok. by split_and!. Qed.

(** ** A pruned peer stays out *)
(** How long the router backs off after a PRUNE *)
Definition pruneInterval (pr : ControlPrune) : Z :=
  if 0 <? pr_backoff pr then Int64.mul64 (Int64.wrap64 (pr_backoff pr)) Second else PruneBackoff par.

Lemma pruneStep_out e p bs pr :
  is_Some (mesh bs !! pr_bitmask pr) ->
  let bs' := pruneStep cfg e p bs pr in
  p ∉ at_ (mesh bs') (pr_bitmask pr)
  /\ forall t, t < now e + pruneInterval pr -> backedOff bs' (pr_bitmask pr) p t = true.
Proof.
  intros [ps Em]. unfold pruneStep. rewrite Em. set (b := pr_bitmask pr) in *.
  set (bs1 := if bool_decide (p ∈ ps) then _ else bs).
  assert (H1 : p ∉ at_ (mesh bs1) b).
  { subst bs1. case_bool_decide; [|unfold at_; by rewrite Em]. simpl. rewrite at_insert, decide_True by done. set_solver. }
  set (bs2 := if 0 <? pr_backoff pr then _ else _).
  assert (H2 : p ∉ at_ (mesh bs2) b /\ forall t, t < now e + pruneInterval pr -> backedOff bs2 b p t = true).
  { subst bs2. unfold pruneInterval. destruct (0 <? pr_backoff pr); (split; [exact H1|]);
      intros t Ht; by apply backedOff_add. }
  clearbody bs2. destruct (pr_peers pr) as [|pi l]; [done|]. destruct (ltF _ _); [done|].
  by destruct (pxConnect_fold cfg e bs2 ([b; p], 3%nat) (pi :: l)) as (q & -> & _).
Qed.

Lemma pruneStep_dom e p bs pr : dom (mesh (pruneStep cfg e p bs pr)) = dom (mesh bs).
Proof.
  unfold pruneStep. destruct (mesh bs !! pr_bitmask pr) as [ps|] eqn:Em; [|done].
  set (bs1 := if bool_decide (p ∈ ps) then _ else bs).
  assert (H1 : dom (mesh bs1) = dom (mesh bs))
    by (subst bs1; case_bool_decide; [by apply dom_insert_lookup_L|done]).
  set (bs2 := if 0 <? pr_backoff pr then _ else _).
  assert (H2 : dom (mesh bs2) = dom (mesh bs)) by (subst bs2; by destruct (0 <? pr_backoff pr)).
  clearbody bs2. destruct (pr_peers pr) as [|pi l]; [done|]. destruct (ltF _ _); [done|].
  by destruct (pxConnect_fold cfg e bs2 ([pr_bitmask pr; p], 3%nat) (pi :: l)) as (q & -> & _).
Qed.

(** Out of the mesh of [b], and backed off until [T] *)
Definition isOut (e : env) (b : bytes) (p : PeerID) (T : Z) (bs : BlossomSubRouter) : Prop :=
  p ∉ at_ (mesh bs) b /\ forall t, now e <= t < T -> backedOff bs b p t = true.

Lemma admits_isOut e bs bs' b p T : now e < T -> admits e bs bs' -> isOut e b p T bs -> isOut e b p T bs'.
Proof.
  intros HT A [Hp Hb]. split; [|intros t Ht; apply (adm_backoff _ _ _ A); [lia|by apply Hb]].
  intros [Hm|[_ Hn%activeBackoff_None]]%(adm_mesh _ _ _ A); [done|]. rewrite Hb in Hn by lia. done.
Qed.

Lemma prunes_out e p pr l : forall bs,
  pr ∈ l -> pr_bitmask pr ∈ dom (mesh bs) -> 0 < pruneInterval pr ->
  isOut e (pr_bitmask pr) p (now e + pruneInterval pr) (foldl (pruneStep cfg e p) bs l).
Proof.
  induction l as [|x l IH]; intros bs Hin Hb Hi; [by apply elem_of_nil in Hin|].
  apply elem_of_cons in Hin as [->|Hin]; cbn [foldl]; [|apply IH; [done|by rewrite pruneStep_dom|done]].
  apply (admits_isOut e (pruneStep cfg e p bs x)); [lia| |].
  - apply admits_foldl. intros. apply pruneStep_admits.
  - apply elem_of_dom in Hb. destruct (pruneStep_out e p bs x Hb) as [H1 H2]. split; [done|].
    intros t Ht. apply H2. lia.
Qed.

Lemma graftStep_dom e p st g : dom (mesh (graftStep cfg e p st g).1.1) = dom (mesh st.1.1).
Proof.
  destruct st as [[bs prune] px]. unfold graftStep. destruct (negb _); [done|].
  destruct (mesh bs !! gr_bitmask g) as [ps|] eqn:Em; [|done].
  case_bool_decide; [done|]. case_bool_decide; [done|].
  destruct (activeBackoff e bs (gr_bitmask g) p) as [t|]; [simpl; by destruct (_ <? _)|].
  destruct (ltF _ _); [done|]. destruct (_ && _); [done|]. by apply dom_insert_lookup_L.
Qed.

Lemma grafts_dom e p l : forall st, dom (mesh (foldl (graftStep cfg e p) st l).1.1) = dom (mesh st.1.1).
Proof. induction l as [|g l IH]; intros st; [done|]. cbn [foldl]. by rewrite IH, graftStep_dom. Qed.

(** The PRUNEs of an RPC are handled after its other messages that change the meshes. *)
Lemma HandleRPC_prunes e bs rpc c : Control rpc = Some c ->
  exists bs1, dom (mesh bs1) = dom (mesh bs)
    /\ admits e (handlePrune cfg e bs1 (rpc_from rpc) c) (HandleRPC cfg e bs rpc).
Proof.
  intros Ec. unfold HandleRPC. rewrite Ec. set (p := rpc_from rpc).
  assert (D1 : dom (mesh (handleIHave cfg e bs p c).1) = dom (mesh bs))
    by (unfold handleIHave; by repeat case_match).
  destruct (handleIHave cfg e bs p c) as [bs1 iwant]. cbn [fst] in D1.
  assert (D2 : dom (mesh (handleIWant cfg e bs1 p c).1) = dom (mesh bs1)).
  { unfold handleIWant. destruct (ltF _ _); [done|].
    destruct (iwant_fold cfg p (Iwant c ≫= iw_messageIDs) bs1 ∅) as (mc & E & _).
    destruct (foldl _ _ _) as [bs' ihave]. cbn [fst] in *. by subst. }
  destruct (handleIWant cfg e bs1 p c) as [bs2 ihave]. cbn [fst] in D2.
  assert (D3 : dom (mesh (handleGraft cfg e bs2 p c).1) = dom (mesh bs2)).
  { unfold handleGraft. pose proof (grafts_dom e p (Graft c) (bs2, [], doPX cfg)) as D.
    by destruct (foldl (graftStep cfg e p) _ _) as [[bs' prune] px]. }
  destruct (handleGraft cfg e bs2 p c) as [bs3 prune]. cbn [fst] in D3.
  exists bs3. split; [congruence|]. set (bs4 := handlePrune cfg e bs3 p c).
  assert (A : admits e bs4 (handleIDontWant cfg bs4 p c))
    by (unfold handleIDontWant; repeat case_match; by apply admits_same).
  destruct iwant, ihave, prune; try exact A.
  all: eapply admits_trans; [exact A|apply admits_quiet, sendRPC_quiet].
Qed.

(** C12: a peer whose PRUNE of a joined bitmask the router handled, in any
    reachable state, is not in the mesh of the bitmask in any later state until
    the backoff that the PRUNE asked for, or the default one, has passed:
    whatever the router and its peers do, GRAFTs, joins and heartbeats included. *)
Theorem prune_respected bs t e rpc c pr bs' t' :
  routerReach bs t -> env_ok e -> t <= now e ->
  Control rpc = Some c -> pr ∈ Prune c -> is_Some (mesh bs !! pr_bitmask pr) ->
  routerRun (HandleRPC cfg e bs rpc) (now e) bs' t' -> t' < now e + pruneInterval pr ->
  rpc_from rpc ∉ at_ (mesh bs') (pr_bitmask pr).
Proof.
  intros [R _]%reach_ok Eok Ht Ec Hpr Hb Hrun Ht'. pose proof (run_time _ _ _ _ Hrun) as Hle.
  destruct (HandleRPC_prunes e bs rpc c Ec) as (bs1 & Hd & A).
  assert (O : isOut e (pr_bitmask pr) (rpc_from rpc) (now e + pruneInterval pr) (HandleRPC cfg e bs rpc)).
  { eapply admits_isOut; [lia|exact A|]. apply prunes_out; [done| |lia].
    rewrite Hd. by apply elem_of_dom. }
  destruct O as [O1 O2]. apply (keeps_HandleRPC cfg e bs rpc Httl) in R as [R _].
  by apply (run_backedOff _ _ _ _ _ _ t' Hrun R O1); [apply O2; lia|lia].
Qed.

(** ** No panic *)
Context (Hlazy : 0 <= Dlazy par) (Hih : 0 <= MaxIHaveLength par).

Lemma emitGossip_some e b bs X : 0 <= gossip (mcache bs) -> is_Some (emitGossip cfg e b bs X).
Proof.
  intros Hg. unfold emitGossip, GetGossipIDs. destruct (Z.ltb_spec (gossip (mcache bs)) 0); [lia|].
  cbn [mbind option_bind]. destruct (_ <$> _); [by eexists|].
  rewrite (proj2 (Z.ltb_ge (MaxIHaveLength par) 0)), andb_false_r by done.
  destruct (Z.ltb_spec (Z.max (Dlazy par) (int_of_float64 (SFmul 53 1024 (GossipFactor par) (float64_of_int
    (Z.of_nat (length (filter (fun p => negb (bool_decide (p ∈ X)) && negb (isDirect bs p)
      && featureOf cfg bs BlossomSubFeatureMesh p && geF (liveScore e ([b], 26%nat) p) (gossipThreshold cfg) = true)
      (iter e ([b], 26%nat) (at_ (bitmasks bs) b))))))))) 0); [lia|by eexists].
Qed.

Context (Hgos : 0 <= HistoryGossip par) (Hlen : 0 < HistoryLength par).
Context (Hds : 0 <= Dscore par) (HD : 0 <= D par <= Dhi par).

Lemma trim_in_range b h : trimPanics cfg b h = false.
Proof.
  unfold trimPanics. destruct (Z.ltb_spec (Dhi par) (sizeZ (meshOf h b))); [|done].
  by rewrite !(proj2 (Z.leb_le _ _)) by lia.
Qed.

Lemma rest_gossip bs : rest cfg bs -> 0 <= gossip (mcache bs).
Proof. intros R. pose proof (ri_cache _ _ R) as E. injection E as _ E. lia. Qed.

Lemma maintainAll_some e l : env_ok e -> forall h, rest cfg (hb h) ->
  exists h', foldlM (maintain cfg e) h l = Some h' /\ rest cfg (hb h').
Proof.
  intros Eok. induction l as [|b l IH]; intros h R; [by exists h|]. cbn [foldlM].
  destruct (maintain cfg e h b) as [h1|] eqn:E1.
  - simpl. apply IH. by apply (keeps_maintain cfg e Eok h b h1 E1).
  - unfold maintain in E1. rewrite trim_in_range in E1. destruct (keeps_maintainMesh cfg e Eok b h R) as [R1 _].
    destruct (emitGossip_some e b (hb (maintainMesh cfg e b h)) (meshOf (maintainMesh cfg e b h) b)) as [bs1 E2];
      [by apply rest_gossip|]. by rewrite E2 in E1.
Qed.

Lemma fanoutAll_some e l : env_ok e -> forall bs, rest cfg bs -> Forall (fun b => b ∈ dom (fanout bs)) l ->
  exists bs', foldlM (maintainFanout cfg e) bs l = Some bs'.
Proof.
  intros Eok. induction l as [|b l IH]; intros bs R Hl; [by exists bs|]. cbn [foldlM].
  inversion Hl as [|?? Hb Hl']; subst. destruct (maintainFanout cfg e bs b) as [bs1|] eqn:E1.
  - destruct (keeps_maintainFanout cfg e Eok bs b bs1 E1 Hb) as [K Hd]. simpl. apply IH; [by apply K|by rewrite Hd].
  - unfold maintainFanout in E1. match type of E1 with emitGossip _ _ _ ?x ?y = _ =>
      destruct (emitGossip_some e b x y) as [bs1 E2]; [exact (rest_gossip bs R)|] end. by rewrite E2 in E1.
Qed.

Lemma Shift_some bs : rest cfg bs -> is_Some (Shift (mcache bs)).
Proof.
  intros R. pose proof (ri_cache _ _ R) as E. injection E as E _. unfold Shift.
  destruct (history (mcache bs)) as [|x l] eqn:Eh; [simpl in E; lia|].
  destruct (last (x :: l)) eqn:El; [by eexists|]. by apply last_None in El.
Qed.

Lemma heartbeat_some e bs : env_ok e -> rest cfg bs ->
  DirectConnectTicks par <> 0 -> OpportunisticGraftTicks par <> 0 -> is_Some (heartbeat cfg e bs).
Proof.
  intros Eok R H1 H2. unfold heartbeat. rewrite (proj2 (Z.eqb_neq _ _)), (proj2 (Z.eqb_neq _ _)) by done. cbn [orb andb].
  destruct (keeps_cleanUp cfg e bs R) as [R0 _]. generalize dependent (cleanUp cfg e bs). intros bs0 R0.
  destruct (maintainAll_some e (iter e ([], 35%nat) (dom (mesh bs0))) Eok (mkHb bs0 ∅ ∅ ∅) R0) as (h & -> & Rh).
  cbn [mbind option_bind]. destruct (keeps_expireFanout cfg e Eok (hb h) Rh) as [R1 _].
  generalize dependent (expireFanout cfg e (hb h)). intros bs1 R1.
  destruct (fanoutAll_some e (iter e ([], 36%nat) (dom (fanout bs1))) Eok bs1 R1) as [bs2 E2].
  { apply Forall_forall. intros b Hb. by apply (elem_of_iter e Eok) in Hb. }
  assert (K : keeps cfg e bs1 bs2).
  { apply (keeps_fanoutAll cfg e Eok _ _ _ E2), Forall_forall. intros b Hb. by apply (elem_of_iter e Eok) in Hb. }
  rewrite E2. cbn [mbind option_bind].
  pose proof (keeps_quiet cfg e _ _ (flush_quiet cfg e (sendGraftPrune cfg e bs2 (tograft h) (toprune h) (noPX h)))) as K5.
  pose proof (keeps_quiet cfg e _ _ (sendGraftPrune_quiet cfg e bs2 (tograft h) (toprune h) (noPX h))) as K4.
  generalize dependent (flush cfg e (sendGraftPrune cfg e bs2 (tograft h) (toprune h) (noPX h))). intros bs4 K5.
  destruct (Shift_some bs4) as [mc ->]; [|by eexists]. by apply K5, K4, K.
Qed.

(** C15: with a message history, non-zero tick counts and sizes that are not
    negative, [D] at most [Dhi], the router does not panic: in every reachable state the heartbeat and the publication of any
    message finish, whatever the environment. *)
Theorem router_never_panics bs t e msg :
  routerReach bs t -> env_ok e -> DirectConnectTicks par <> 0 -> OpportunisticGraftTicks par <> 0 ->
  is_Some (heartbeat cfg e bs) /\ is_Some (PublishMsg cfg e bs msg).
Proof.
  intros [R _]%reach_ok Eok H1 H2. split; [by apply heartbeat_some|].
  pose proof (ri_cache _ _ R) as E. injection E as E _. unfold PublishMsg, Put.
  destruct (history (mcache bs)) as [|x l]; [simpl in E; lia|]. simpl.
  destruct (publishLoop _ _ _ _ _ _ _ _) as [bs1 [[|y l']|]]; by eexists.
Qed.
End run.
