(* ===== verification/RouterFrame.v ===== *)
(** * What the router leaves alone

    The operations of the router do not change the subscribers of bitmasks and
    the queues, which belong to [PubSub], and only joining and leaving change
    which bitmasks have a mesh. *)
From Stdlib Require Import ZArith Lia Floats.SpecFloat.
From stdpp Require Import base tactics list numbers option gmap sets fin_maps.
From S2P Require Import Prelude GoBytes Bitmask BlsRpc MessageCache Router RouterLaws Heartbeat HeartbeatLaws RouterInv RouterRun.
Local Open Scope Z_scope.

Record frame (bs bs' : BlossomSubRouter) : Prop := {
  fr_bitmasks : bitmasks bs' = bitmasks bs;
  fr_queues : queues bs' = queues bs;
  fr_mesh : dom (mesh bs') = dom (mesh bs) }.

Lemma frame_trans bs1 bs2 bs3 : frame bs1 bs2 -> frame bs2 bs3 -> frame bs1 bs3.
Proof. intros [] []. split; congruence. Qed.
Lemma frame_quiet bs bs' : quiet bs' = quiet bs -> frame bs bs'.
Proof.
  intros E. split.
  - exact (f_equal bitmasks E).
  - exact (f_equal queues E).
  - exact (f_equal (fun b => dom (mesh b)) E).
Qed.
Lemma frame_same bs bs' : bitmasks bs' = bitmasks bs -> queues bs' = queues bs -> mesh bs' = mesh bs -> frame bs bs'.
Proof. intros H1 H2 H3. split; congruence. Qed.
Lemma frame_refl bs : frame bs bs.
Proof. by split. Qed.
#[export] Hint Resolve frame_refl : golibp2p.
Lemma frame_foldl {A} (f : BlossomSubRouter -> A -> BlossomSubRouter) bs l :
  (forall bs a, frame bs (f bs a)) -> frame bs (foldl f bs l).
Proof.
  intros Hf. revert bs. induction l as [|a l IH]; intros bs; [apply frame_refl|].
  simpl. eapply frame_trans; [apply Hf|apply IH].
Qed.

Section frame.
Context `{PS : ProtoSize} {SS : SortSlice} (cfg : config) (e : env).

Lemma frame_sendRPC bs p out fast : frame bs (sendRPC cfg e bs p out fast).
Proof. apply frame_quiet, sendRPC_quiet. Qed.

Lemma frame_graftStep p st g : frame st.1.1 (graftStep cfg e p st g).1.1.
Proof.
  destruct st as [[bs prune] px]. unfold graftStep. destruct (negb _); [apply frame_refl|].
  destruct (mesh bs !! gr_bitmask g) as [ps|] eqn:Em; [|apply frame_refl].
  case_bool_decide; [apply frame_refl|]. case_bool_decide; [apply frame_refl|].
  destruct (activeBackoff e bs (gr_bitmask g) p) as [t|]; [simpl; destruct (_ <? _); by apply frame_same|].
  destruct (ltF _ _); [by apply frame_same|]. destruct (_ && _); [by apply frame_same|].
  split; [done|done|]. simpl. by apply dom_insert_lookup_L.
Qed.

Lemma frame_pruneStep p bs pr : frame bs (pruneStep cfg e p bs pr).
Proof.
  split; [| |apply pruneStep_dom].
  all: unfold pruneStep; destruct (mesh bs !! pr_bitmask pr) as [ps|]; [|done].
  all: set (bs2 := if 0 <? pr_backoff pr then _ else _).
  all: destruct (pr_peers pr) as [|pi l]; [unfold bs2; by repeat case_match|]; destruct (ltF _ _); [unfold bs2; by repeat case_match|].
  all: destruct (pxConnect_fold cfg e bs2 ([pr_bitmask pr; p], 3%nat) (pi :: l)) as (q & -> & _); unfold bs2; by repeat case_match.
Qed.

Lemma frame_HandleRPC bs rpc : frame bs (HandleRPC cfg e bs rpc).
Proof.
  unfold HandleRPC. destruct (Control rpc) as [c|]; [|apply frame_refl]. set (p := rpc_from rpc).
  assert (F1 : frame bs (handleIHave cfg e bs p c).1) by (unfold handleIHave; repeat case_match; by apply frame_same).
  destruct (handleIHave cfg e bs p c) as [bs1 iwant]. cbn [fst] in F1.
  assert (F2 : frame bs1 (handleIWant cfg e bs1 p c).1).
  { unfold handleIWant. destruct (ltF _ _); [apply frame_refl|].
    destruct (iwant_fold cfg p (Iwant c ≫= iw_messageIDs) bs1 ∅) as (mc & E & _).
    destruct (foldl _ _ _) as [bs' ihave]. cbn [fst] in *. subst. by apply frame_same. }
  destruct (handleIWant cfg e bs1 p c) as [bs2 ihave]. cbn [fst] in F2.
  assert (F3 : frame bs2 (handleGraft cfg e bs2 p c).1).
  { unfold handleGraft. assert (H : forall l st, frame st.1.1 (foldl (graftStep cfg e p) st l).1.1).
    { induction l as [|g l IH]; intros st; [apply frame_refl|]. cbn [foldl]. eapply frame_trans; [apply frame_graftStep|apply IH]. }
    specialize (H (Graft c) (bs2, [], doPX cfg)). by destruct (foldl (graftStep cfg e p) _ _) as [[bs' prune] px]. }
  destruct (handleGraft cfg e bs2 p c) as [bs3 prune]. cbn [fst] in F3.
  assert (F4 : frame bs3 (handlePrune cfg e bs3 p c)) by (apply frame_foldl; intros; apply frame_pruneStep).
  set (bs4 := handlePrune cfg e bs3 p c) in *.
  assert (F5 : frame bs4 (handleIDontWant cfg bs4 p c)) by (unfold handleIDontWant; repeat case_match; by apply frame_same).
  assert (F : frame bs (handleIDontWant cfg bs4 p c)) by eauto using frame_trans.
  destruct iwant, ihave, prune; try exact F. all: eapply frame_trans; [exact F|apply frame_sendRPC].
Qed.

Lemma frame_PublishMsg bs msg bs' : PublishMsg cfg e bs msg = Some bs' -> frame bs bs'.
Proof.
  unfold PublishMsg. destruct (Put (mcache bs) msg) as [mc|]; [|done]. simpl.
  assert (HL : forall slices from osnd mid bs acc, frame bs (publishLoop cfg e bs from osnd mid slices acc).1).
  { clear. induction slices as [|b slices IH]; intros from osnd mid bs acc; simpl; [apply frame_refl|].
    destruct (bitmasks bs !! b) as [tmap|]; [|apply frame_refl].
    assert (F : frame bs (publishSlice cfg e bs from osnd mid b tmap).1).
    { unfold publishSlice. destruct (_ && _); [apply frame_refl|]. destruct (mesh bs !! b); [apply frame_refl|].
      unfold fanoutPeers. case_bool_decide; [|by apply frame_same]. destruct (getPeers _ _ _ _ _ _ _); by apply frame_same. }
    destruct (publishSlice cfg e bs from osnd mid b tmap) as [bs1 tosend]. eapply frame_trans; [exact F|apply IH]. }
  specialize (HL (SliceBitmask (GetBitmask msg)) (ReceivedFrom msg) (GetFrom msg) (idOf (idGen cfg) msg) (set_mcache bs mc) []).
  destruct (publishLoop _ _ _ _ _ _ _ _) as [bs1 all]. simpl in HL.
  assert (F : frame bs bs1) by (destruct HL; by split).
  destruct all as [[|x l]|]; intros [= <-]; [done| |done].
  eapply frame_trans; [exact F|]. apply frame_foldl. intros. apply frame_sendRPC.
Qed.

Lemma frame_PreValidation bs msgs : frame bs (PreValidation cfg e bs msgs).
Proof. unfold PreValidation. apply frame_foldl. intros. apply frame_sendRPC. Qed.
Lemma frame_AddPeer bs p proto : frame bs (AddPeer e bs p proto).
Proof. by apply frame_same. Qed.
Lemma frame_RemovePeer bs p : frame bs (RemovePeer e bs p).
Proof. split; [done|done|]. simpl. apply dom_fmap_L. Qed.

(** *** Joining and leaving *)
Lemma join_fold bs b l :
  frame bs (foldl (fun bs p => sendGraft cfg e (emit bs [EvGraft p b]) p b) bs l).
Proof.
  apply frame_foldl. intros bs' p. eapply frame_trans; [by apply (frame_same bs' (emit bs' [EvGraft p b]))|].
  apply frame_sendRPC.
Qed.
Lemma leave_fold bs b l :
  frame bs (foldl (fun bs p => addBackoff cfg e (sendPrune cfg e (emit bs [EvPrune p b]) p b true) p b true) bs l).
Proof.
  apply frame_foldl. intros bs' p. eapply frame_trans; [by apply (frame_same bs' (emit bs' [EvPrune p b]))|].
  eapply frame_trans; [apply frame_sendRPC|]. by apply frame_same.
Qed.

Lemma Join_frame bs b :
  bitmasks (Join cfg e bs b) = bitmasks bs /\ queues (Join cfg e bs b) = queues bs
  /\ dom (mesh (Join cfg e bs b)) = {[b]} ∪ dom (mesh bs).
Proof.
  unfold Join. destruct (mesh bs !! b) as [g|] eqn:Em.
  { split_and!; try done. assert (b ∈ dom (mesh bs)) by (apply elem_of_dom; eauto). set_solver. }
  match goal with |- context [foldl _ ?x ?l] => destruct (join_fold x b l) as [F1 F2 F3] end.
  rewrite F1, F2, F3. simpl. destruct (fanout bs !! b); simpl; by rewrite dom_insert_L.
Qed.

Lemma Leave_frame bs b :
  bitmasks (Leave cfg e bs b) = bitmasks bs /\ queues (Leave cfg e bs b) = queues bs
  /\ dom (mesh (Leave cfg e bs b)) = dom (mesh bs) ∖ {[b]}.
Proof.
  unfold Leave. destruct (mesh bs !! b) as [g|] eqn:Em.
  2: { split_and!; try done. apply not_elem_of_dom in Em. set_solver. }
  match goal with |- context [foldl _ ?x ?l] => destruct (leave_fold x b l) as [F1 F2 F3] end.
  rewrite F1, F2, F3. simpl. by rewrite dom_delete_L.
Qed.

(** *** The heartbeat *)
Lemma frame_prunePeer b h p : frame (hb h) (hb (prunePeer cfg e b h p)).
Proof. split; [done|done|]. simpl. by rewrite dom_alter_L. Qed.
Lemma frame_graftPeer b h p : frame (hb h) (hb (graftPeer b h p)).
Proof. split; [done|done|]. simpl. by rewrite dom_alter_L. Qed.

Lemma frame_hbfold (f : hbState -> PeerID -> hbState) h l :
  (forall h p, frame (hb h) (hb (f h p))) -> frame (hb h) (hb (foldl f h l)).
Proof.
  intros Hf. revert h. induction l as [|p l IH]; intros h; [apply frame_refl|]. simpl.
  eapply frame_trans; [apply Hf|apply IH].
Qed.

Lemma frame_maintainMesh b h : frame (hb h) (hb (maintainMesh cfg e b h)).
Proof.
  assert (G : forall n h cnt flt, frame (hb h) (hb (graftSome cfg e n b h cnt flt)))
    by (intros; apply frame_hbfold; intros; apply frame_graftPeer).
  assert (F1 : forall h, frame (hb h) (hb (dropNegative cfg e b h))).
  { intros h0. apply frame_hbfold. intros h' p. destruct (ltF _ _); [exact (frame_prunePeer b h' p)|apply frame_refl]. }
  assert (F2 : forall h, frame (hb h) (hb (fillMesh cfg e b h))) by (intros h0; unfold fillMesh; destruct (_ <? _); auto with golibp2p).
  assert (F3 : forall h, frame (hb h) (hb (trimMesh cfg e b h))).
  { intros h0. unfold trimMesh. destruct (_ <? _); [apply frame_hbfold, frame_prunePeer|apply frame_refl]. }
  assert (F4 : forall h, frame (hb h) (hb (fillOutbound cfg e b h)))
    by (intros h0; unfold fillOutbound; destruct (_ <=? _); [destruct (_ <? _)|]; auto with golibp2p).
  assert (F5 : forall h, frame (hb h) (hb (opportunisticGraft cfg e b h)))
    by (intros h0; unfold opportunisticGraft; destruct (_ && _); [destruct (ltF _ _)|]; auto with golibp2p).
  clear G. unfold maintainMesh. do 4 (eapply frame_trans; [|match goal with H : forall h, _ |- _ => apply H end]). apply F1.
Qed.

Lemma frame_maintainAll l : forall h h', foldlM (maintain cfg e) h l = Some h' -> frame (hb h) (hb h').
Proof.
  induction l as [|b l IH]; intros h h' E; simpl in E; [simplify_eq; apply frame_refl|].
  destruct (maintain cfg e h b) as [h1|] eqn:E1; [|done]. eapply frame_trans; [|by apply IH].
  unfold maintain in E1. destruct (trimPanics _ _ _); [done|]. destruct (emitGossip _ _ _ _ _) as [bs|] eqn:E2; [|done].
  simpl in E1. injection E1 as <-. eapply frame_trans; [apply (frame_maintainMesh b h)|].
  by apply frame_quiet, (emitGossip_quiet cfg e b _ _ _ E2).
Qed.

Lemma frame_fanoutAll l : forall bs bs', foldlM (maintainFanout cfg e) bs l = Some bs' -> frame bs bs'.
Proof.
  induction l as [|b l IH]; intros bs bs' E; simpl in E; [simplify_eq; apply frame_refl|].
  destruct (maintainFanout cfg e bs b) as [bs1|] eqn:E1; [|done]. eapply frame_trans; [|by apply IH].
  unfold maintainFanout in E1. apply emitGossip_quiet, frame_quiet in E1.
  eapply frame_trans; [|exact E1]. by apply frame_same.
Qed.

Lemma frame_heartbeat bs bs' : heartbeat cfg e bs = Some bs' -> frame bs bs'.
Proof.
  unfold heartbeat. destruct (_ || _); [done|].
  assert (F0 : frame bs (cleanUp cfg e bs)).
  { unfold cleanUp, directConnect, clearBackoff. repeat case_match; by apply frame_same. }
  generalize dependent (cleanUp cfg e bs). intros bs0 F0.
  destruct (foldlM (maintain cfg e) _ _) as [h|] eqn:E1; cbn [mbind option_bind]; [|done].
  pose proof (frame_maintainAll _ _ _ E1) as F1. cbn [hb] in F1.
  assert (F2 : frame (hb h) (expireFanout cfg e (hb h))) by (by apply frame_same).
  generalize dependent (expireFanout cfg e (hb h)). intros bs1 F2.
  destruct (foldlM (maintainFanout cfg e) bs1 _) as [bs2|] eqn:E2; cbn [mbind option_bind]; [|done].
  pose proof (frame_fanoutAll _ _ _ E2) as F3.
  pose proof (frame_quiet _ _ (flush_quiet cfg e (sendGraftPrune cfg e bs2 (tograft h) (toprune h) (noPX h)))) as F5.
  pose proof (frame_quiet _ _ (sendGraftPrune_quiet cfg e bs2 (tograft h) (toprune h) (noPX h))) as F4.
  generalize dependent (flush cfg e (sendGraftPrune cfg e bs2 (tograft h) (toprune h) (noPX h))). intros bs4 F5 E.
  destruct (Shift (mcache bs4)) as [mc|]; [|done]. simpl in E. injection E as <-.
  assert (F6 : frame bs4 (set_mcache bs4 mc)) by (by apply frame_same). eauto 8 using frame_trans.
Qed.
End frame.
