(* ===== verification/RouterExample.v ===== *)
(** * A small router

    [sort.Slice] by merge sort, an environment that ranges over maps in one
    order, and a router with four peers: the properties of the router at work. *)
From Stdlib Require Import ZArith Lia Floats.SpecFloat.
From stdpp Require Import base tactics list numbers option gmap sets fin_maps sorting.
From S2P Require Import Prelude GoBytes Bitmask BlsRpc MessageCache Router RouterLaws Heartbeat HeartbeatLaws RouterInv RouterRun.
Local Open Scope Z_scope.

Lemma StronglySorted_lookup {A} (R : A -> A -> Prop) l i j x y :
  StronglySorted R l -> (i < j)%nat -> l !! i = Some x -> l !! j = Some y -> R x y.
Proof.
  intros H. revert i j. induction H as [|a l _ IH Ha]; intros i j Hij Hx Hy; [done|].
  destruct j as [|j]; [lia|]. destruct i as [|i]; simpl in *.
  - simplify_eq. rewrite Forall_forall in Ha. by eapply Ha, list_elem_of_lookup_2.
  - apply (IH i j); [lia|done|done].
Qed.

Module RouterExample.
(** [sort.Slice] *)
#[export] Instance sortInst : SortSlice := fun less l =>
  @merge_sort _ (fun x y => less y x = false) (fun x y => decide (less y x = false)) l.
#[export] Instance sortLaws : SortSliceLaws sortInst.
Proof.
  split; [intros; apply merge_sort_Permutation|]. intros less l i j p q [H1 H2] Hij Hp Hq.
  refine (StronglySorted_lookup (fun x y => less y x = false) _ i j p q _ Hij Hp Hq).
  apply StronglySorted_merge_sort.
  - intros x y z Hxy Hyz. apply not_true_is_false. intros [?|?]%(H2 _ y); congruence.
  - intros x y. destruct (less y x) eqn:E; [right; by apply H1|by left].
Qed.
#[export] Instance sizeInst : ProtoSize := fun _ => 0.

Definition b : bytes := [Byte.x01].
Definition peer (n : Byte.byte) : PeerID := [n].
Definition p1 : PeerID := peer Byte.x01.
Definition p2 : PeerID := peer Byte.x02.
Definition p3 : PeerID := peer Byte.x03.
Definition p4 : PeerID := peer Byte.x04.

Definition par : BlossomSubParams :=
  mkParams 2 1 3 1 1 3 2 2 quarter 3 (60 * Second) 16 (60 * Second) (10 * Second) 128 300 60 2 (10 * Second) 5000 10 5000 1024 60.
Definition cfg : config :=
  mkConfig par BlossomSubDefaultFeatures (fun _ _ => true) (newMsgIdGenerator id) [] 1000 2000 true false
    zeroF zeroF zeroF zeroF zeroF.
Definition one : spec_float := S754_finite false (2 ^ 52) (- 52).
Definition e0 (t : Z) : env :=
  mkEnv t (fun p => if decide (p = p2) then one else zeroF) (fun _ _ => zeroF) (fun _ => false)
    (fun _ => elements) (fun _ _ => 0%nat) (fun _ _ => true) (fun _ => []) (fun _ => true) [] []
    (fun p => if decide (p = p4) then [mkConn false true [BlossomSubID_v21]] else []).
Lemma e0_ok t : env_ok (e0 t).
Proof. split; [done|intros; simpl; lia]. Qed.
Lemma score_number t p : score (e0 t) p <> S754_nan.
Proof. simpl. by case_decide. Qed.

Definition rpcOf (p : PeerID) (c : ControlMessage) : RPC := mkRPC [] [] (Some c) p.
Definition graftRPC (p : PeerID) : RPC := rpcOf p (mkControl [] [] [mkGraft b] [] []).
Definition pruneOf : ControlPrune := mkPrune b [] 0.
Definition pruneRPC (p : PeerID) : RPC := rpcOf p (mkControl [] [] [] [pruneOf] []).

(** Four peers, [p3] direct, connect and subscribe; the host joins the bitmask:
    two of the others are in its mesh. *)
Definition start : BlossomSubRouter :=
  Attach cfg (mkRouter ∅ {[p3]} ∅ ∅ ∅ ∅ ∅ ∅ ∅ ∅ ∅ ∅ ∅ []
    (mkMessageCache ∅ ∅ (replicate 3 []) 2 (fun msg => DefaultMsgIdFn id (msg_pb msg))) 0 ∅ ∅ []).
Definition connected : BlossomSubRouter :=
  foldl (fun bs p => AddPeer (e0 1) bs p BlossomSubID_v21) start [p1; p2; p3; p4].
Definition subscribed : BlossomSubRouter := set_bitmasks connected {[b := {[p1; p2; p3; p4]}]}.
Definition joined : BlossomSubRouter := Join cfg (e0 2) subscribed b.
(** [p1] prunes us, tries to come back, and a heartbeat passes. *)
Definition pruned : BlossomSubRouter := HandleRPC cfg (e0 3) joined (pruneRPC p1).
Definition regraft : BlossomSubRouter := HandleRPC cfg (e0 4) pruned (graftRPC p1).

Lemma started : NewBlossomSubRouter cfg id {[p3]} =
  Some (mkRouter ∅ {[p3]} ∅ ∅ ∅ ∅ ∅ ∅ ∅ ∅ ∅ ∅ ∅ []
    (mkMessageCache ∅ ∅ (replicate 3 []) 2 (fun msg => DefaultMsgIdFn id (msg_pb msg))) 0 ∅ ∅ []).
Proof. reflexivity. Qed.

Lemma joined_reached : routerReach cfg id joined 2.
Proof.
  exists {[p3]}. eexists. exists 0. split; [exact started|].
  apply (run_step cfg _ _ subscribed 1 (e0 2)); [|apply e0_ok|simpl; lia|apply step_Join].
  apply (run_step cfg _ _ connected 1 (e0 1)); [|apply e0_ok|simpl; lia|apply step_bitmasks].
  do 3 (eapply (run_step cfg _ _ _ 1 (e0 1)); [|apply e0_ok|simpl; lia|apply step_AddPeer]).
  eapply (run_step cfg _ _ _ 0 (e0 1)); [|apply e0_ok|simpl; lia|apply step_AddPeer]. apply run_refl.
Qed.

(** A mesh of four peers, where three is the most. *)
Definition big : hbState :=
  mkHb (set_mesh joined {[b := {[p1; p2; p4; peer Byte.x05]}]}) ∅ ∅ ∅.
End RouterExample.

Section witnesses.
Import RouterExample.

Lemma trim_keeps_best_and_outbound_witness :
  sizeZ (meshOf (trimMesh cfg (e0 5) b big) b) = 2
  /\ p4 ∈ meshOf (trimMesh cfg (e0 5) b big) b /\ p2 ∈ meshOf (trimMesh cfg (e0 5) b big) b.
Proof.
  destruct (trim_keeps_best_and_outbound cfg (e0 5) (e0_ok 5) b big) as (_ & Hs & _);
    [apply score_number|by vm_compute..|].
  split; [exact Hs|]. split; apply (bool_decide_unpack _); vm_compute; exact I.
Defined.

Lemma mesh_maintained_witness :
  sizeZ (meshOf (maintainMesh cfg (e0 5) b big) b) <= 6
  /\ 1 <= sizeZ (meshOf (maintainMesh cfg (e0 5) b big) b).
Proof.
  destruct (mesh_maintained cfg (e0 5) (e0_ok 5) b big) as (H1 & _ & _ & H2);
    [apply score_number|by vm_compute..|by eexists|]. split; [exact H1|].
  exact (H2 {[p1; p2; p3; p4]} eq_refl eq_refl).
Defined.

Lemma router_invariant_witness : at_ (mesh joined) b ## {[p3]} /\ sizeZ (at_ (mesh joined) b) = 2.
Proof.
  destruct (router_invariant cfg id ltac:(by vm_compute) joined 2 joined_reached) as (H & _).
  split; [exact (H b)|by vm_compute].
Defined.

Lemma prune_respected_witness : p1 ∈ at_ (mesh joined) b /\ p1 ∉ at_ (mesh regraft) b.
Proof.
  split; [apply (bool_decide_unpack _); vm_compute; exact I|].
  apply (prune_respected cfg id ltac:(by vm_compute) joined 2 (e0 3) (pruneRPC p1)
    (mkControl [] [] [] [pruneOf] []) pruneOf regraft 4).
  - apply joined_reached.
  - apply e0_ok.
  - simpl. lia.
  - reflexivity.
  - apply list_elem_of_singleton. reflexivity.
  - by eexists.
  - apply (run_step cfg _ _ pruned 3 (e0 4)); [apply run_refl|apply e0_ok|simpl; lia|apply step_HandleRPC].
  - by vm_compute.
Defined.

(** Nobody of the first slice is considered: a peer of the second one is
    returned although he has not subscribed to the first. *)
Lemma getPeers_exact_witness :
  let bs := set_bitmasks connected {[ [Byte.x02] := {[p3]}; [Byte.x01] := {[p1]} ]} in
  p1 ∉ at_ (bitmasks bs) [Byte.x02]
  /\ p1 ∈ getPeers cfg (e0 3) ([], 0%nat) bs [Byte.x03] 0 (fun p => negb (isDirect bs p)).
Proof.
  intros bs. split; [apply (bool_decide_unpack _); vm_compute; exact I|].
  apply (getPeers_exact cfg (e0 3) (e0_ok 3) ([], 0%nat) bs [Byte.x03] _ [[Byte.x02]] [Byte.x01] [] p1).
  - by vm_compute.
  - unfold known. apply (bool_decide_unpack _). vm_compute. exact I.
  - apply (bool_decide_unpack _). vm_compute. exact I.
  - apply (bool_decide_unpack _). vm_compute. exact I.
  - intros sl ->%list_elem_of_singleton. apply (bool_decide_unpack _). vm_compute. exact I.
Defined.

Lemma router_never_panics_witness : is_Some (heartbeat cfg (e0 6) joined).
Proof.
  refine (proj1 (router_never_panics cfg id _ _ _ _ _ _ _ joined 2 (e0 6)
    (mkMessage (mkPbMessage [] [] [] b [] []) [] [] false) joined_reached (e0_ok 6) _ _)); by vm_compute.
Defined.
End witnesses.
