(* ===== verification/TimeCache.v ===== *)
(** * The cache of seen messages (go-libp2p-blossomsub/timecache)

    A cache remembers an identifier for its time to live, counted from when it
    was first added or from when it was last looked at.  [TimeCache] is the Go
    interface, the two strategies are its instances, and what [PubSub] relies on
    is proved against the laws of the interface: no message is new twice within
    the time to live. *)
From Stdlib Require Import ZArith Lia.
From stdpp Require Import base tactics list numbers option gmap sets fin_maps.
From S2P Require Import Prelude GoBytes.
Local Open Scope Z_scope.

Record cache := mkCache { entries : gmap bytes Z (** expiry *); ttl : Z }.

(** The methods take the time of the call and give the cache after it. *)
Class TimeCache := {
  tcAdd : Z -> cache -> bytes -> cache * bool;
  tcHas : Z -> cache -> bytes -> cache * bool }.

Definition touch (now : Z) (tc : cache) (s : bytes) : cache :=
  mkCache (<[s := now + ttl tc]> (entries tc)) (ttl tc).

(** ** First seen *)
Definition FirstSeenHas (now : Z) (tc : cache) (s : bytes) : cache * bool :=
  (tc, bool_decide (is_Some (entries tc !! s))).
Definition FirstSeenAdd (now : Z) (tc : cache) (s : bytes) : cache * bool :=
  if bool_decide (is_Some (entries tc !! s)) then (tc, false) else (touch now tc s, true).
Definition FirstSeenCache : TimeCache := {| tcAdd := FirstSeenAdd; tcHas := FirstSeenHas |}.

(** ** Last seen *)
Definition LastSeenAdd (now : Z) (tc : cache) (s : bytes) : cache * bool :=
  (touch now tc s, negb (bool_decide (is_Some (entries tc !! s)))).
Definition LastSeenHas (now : Z) (tc : cache) (s : bytes) : cache * bool :=
  if bool_decide (is_Some (entries tc !! s)) then (touch now tc s, true) else (tc, false).
Definition LastSeenCache : TimeCache := {| tcAdd := LastSeenAdd; tcHas := LastSeenHas |}.

Inductive Strategy := Strategy_FirstSeen | Strategy_LastSeen | Strategy_other.
Definition NewTimeCacheWithStrategy (strategy : Strategy) (ttl : Z) : TimeCache * cache :=
  (match strategy with
   | Strategy_FirstSeen => FirstSeenCache
   | Strategy_LastSeen => LastSeenCache
   | Strategy_other => FirstSeenCache
   end, mkCache ∅ ttl).

(** ** Background sweeping: what has expired before [now] goes *)
Definition sweep (now : Z) (tc : cache) : cache :=
  mkCache (filter (fun kv => now <= kv.2) (entries tc)) (ttl tc).

(** ** PubSub's use of it (pubsub.go): [seenMessage], [markSeen] *)
Definition seenMessage `{TC : TimeCache} (now : Z) (tc : cache) (id : bytes) : cache * bool := tcHas now tc id.
Definition markSeen `{TC : TimeCache} (now : Z) (tc : cache) (id : bytes) : cache * bool := tcAdd now tc id.

(** ** The promise of the interface *)
Class TimeCacheLaws (TC : TimeCache) : Prop := {
  add_ttl now tc s : ttl (tcAdd now tc s).1 = ttl tc;
  has_ttl now tc s : ttl (tcHas now tc s).1 = ttl tc;
  add_new now tc s : (tcAdd now tc s).2 = true <-> entries tc !! s = None;
  has_old now tc s : (tcHas now tc s).2 = true <-> is_Some (entries tc !! s);
  add_expiry now tc s : entries tc !! s = None -> entries (tcAdd now tc s).1 !! s = Some (now + ttl tc);
  (** an entry stays, as it is or renewed *)
  add_keeps now tc s k x : entries tc !! k = Some x ->
    exists y, entries (tcAdd now tc s).1 !! k = Some y /\ (y = x \/ y = now + ttl tc);
  has_keeps now tc s k x : entries tc !! k = Some x ->
    exists y, entries (tcHas now tc s).1 !! k = Some y /\ (y = x \/ y = now + ttl tc);
  (** nothing appears but what is added *)
  add_only now tc s k : k <> s -> entries (tcAdd now tc s).1 !! k = entries tc !! k;
  has_only now tc s : dom (entries (tcHas now tc s).1) = dom (entries tc) }.

Lemma touch_keeps now tc s k x : entries tc !! k = Some x ->
  exists y, entries (touch now tc s) !! k = Some y /\ (y = x \/ y = now + ttl tc).
Proof.
  intros E. destruct (decide (s = k)) as [<-|Hk]; simpl.
  - rewrite lookup_insert_eq. eauto.
  - rewrite lookup_insert_ne by done. eauto.
Qed.

#[export] Instance FirstSeenLaws : TimeCacheLaws FirstSeenCache.
Proof.
  split; intros now tc s; simpl; unfold FirstSeenAdd, FirstSeenHas;
    destruct (entries tc !! s) as [v|] eqn:E; simpl; try done.
  all: try (by intros k x Hk; eauto).
  - intros _. by rewrite lookup_insert_eq.
  - intros k x Hk. by apply touch_keeps.
  - intros k Hk. by rewrite lookup_insert_ne.
Qed.

#[export] Instance LastSeenLaws : TimeCacheLaws LastSeenCache.
Proof.
  split; intros now tc s; simpl; unfold LastSeenAdd, LastSeenHas;
    destruct (entries tc !! s) as [v|] eqn:E; simpl; try done.
  all: try (intros k x Hk; exact (touch_keeps now tc s k x Hk) || by eauto).
  all: try (intros k Hk; by rewrite lookup_insert_ne).
  - by rewrite lookup_insert_eq.
  - rewrite dom_insert_L. assert (s ∈ dom (entries tc)) by (apply elem_of_dom; eauto). set_solver.
Qed.

(** ** Histories *)
Inductive op := OpAdd (s : bytes) | OpHas (s : bytes) | OpSweep.

Section histories.
Context `{TC : TimeCache}.

Definition step (tc : cache) (o : Z * op) : cache :=
  match o.2 with
  | OpAdd s => (markSeen o.1 tc s).1
  | OpHas s => (seenMessage o.1 tc s).1
  | OpSweep => sweep o.1 tc
  end.
Definition run : cache -> list (Z * op) -> cache := foldl step.

(** Times from [t1] to [t2], not decreasing *)
Fixpoint ordered (t1 : Z) (h : list (Z * op)) (t2 : Z) : Prop :=
  match h with [] => t1 <= t2 | o :: h => t1 <= o.1 /\ ordered o.1 h t2 end.

Context {TL : TimeCacheLaws TC}.

Lemma ordered_le h : forall t1 t2, ordered t1 h t2 -> t1 <= t2.
Proof. induction h as [|o h IH]; intros t1 t2; simpl; [done|]. intros [H1 H2%IH]. lia. Qed.

Lemma step_ttl tc o : ttl (step tc o) = ttl tc.
Proof. destruct o as [t []]; simpl; [apply add_ttl|apply has_ttl|done]. Qed.

(** An entry that expires at [x] or later survives until then. *)
Lemma cacheStep_keeps tc t o s x : 0 <= ttl tc -> t <= o.1 <= x -> x <= t + ttl tc ->
  (exists y, entries tc !! s = Some y /\ x <= y) -> exists y, entries (step tc o) !! s = Some y /\ x <= y.
Proof.
  intros Htl Ht Hx (y & Ey & Hy). destruct o as [t' o]. simpl in Ht.
  assert (Hin : forall m : gmap bytes Z, (exists z, m !! s = Some z /\ (z = y \/ z = t' + ttl tc)) ->
    exists z, m !! s = Some z /\ x <= z).
  { intros m (z & Ez & [->| ->]); eexists; (split; [exact Ez|lia]). }
  destruct o as [k|k|]; simpl.
  - by apply Hin, add_keeps.
  - by apply Hin, has_keeps.
  - exists y. split; [|done]. apply map_lookup_filter_Some. split; [done|simpl; lia].
Qed.

Lemma run_keeps h : forall tc t t2 s x, 0 <= ttl tc -> ordered t h t2 -> t2 <= x -> x <= t + ttl tc ->
  (exists y, entries tc !! s = Some y /\ x <= y) -> exists y, entries (run tc h) !! s = Some y /\ x <= y.
Proof.
  induction h as [|o h IH]; intros tc t t2 s x Htl Ho H2 Hx HE; [done|]. destruct Ho as [H1 Ho]. simpl.
  pose proof (ordered_le _ _ _ Ho). apply (IH _ o.1 t2); [by rewrite step_ttl|done|done|rewrite step_ttl; lia|].
  apply (cacheStep_keeps tc t); try done; lia.
Qed.

(** A message identifier that [markSeen] reports as new is not reported as
    new again, and [seenMessage] finds it, at any instant up to the end of the
    time to live, whatever is added, looked up and swept in between; an
    identifier that was never added is not found. *)
Theorem seen_once tc t1 s h t2 :
  0 <= ttl tc -> (markSeen t1 tc s).2 = true -> ordered t1 h t2 -> t2 <= t1 + ttl tc ->
  let tc' := run (markSeen t1 tc s).1 h in
  (markSeen t2 tc' s).2 = false /\ (seenMessage t2 tc' s).2 = true
  /\ (forall t s' h', s' ∉ omap (fun o => match o.2 with OpAdd k => Some k | _ => None end) h' ->
        (seenMessage t (run (mkCache ∅ (ttl tc)) h') s').2 = false).
Proof.
  intros Htl Hnew Ho Hle tc'. apply add_new in Hnew.
  destruct (run_keeps h (markSeen t1 tc s).1 t1 t2 s t2) as (y & Ey & _).
  - unfold markSeen. by rewrite add_ttl.
  - done.
  - lia.
  - unfold markSeen. rewrite add_ttl. pose proof (ordered_le _ _ _ Ho). lia.
  - exists (t1 + ttl tc). split; [by apply add_expiry|lia].
  - fold tc' in Ey. split_and!.
    + apply not_true_is_false. intros H%add_new. congruence.
    + apply has_old. by eexists.
    + intros t s' h' Hs. apply not_true_is_false. intros H%has_old.
      assert (HN : forall c, entries c !! s' = None -> entries (run c h') !! s' = None).
      { clear -TL Hs. induction h' as [|o h' IH]; intros c Hc; [done|]. destruct o as [t [k|k|]]; simpl in *.
        - apply not_elem_of_cons in Hs as [Hk Hs]. apply (IH Hs). unfold step, markSeen. simpl. by rewrite add_only.
        - apply (IH Hs). unfold step, seenMessage. simpl. apply not_elem_of_dom. rewrite has_only. by apply not_elem_of_dom.
        - apply (IH Hs). apply map_lookup_filter_None. by left. }
      rewrite HN in H; [by destruct H|done].
Qed.
End histories.

(** After the sweep at an instant every entry expires at it or later: the cache
    does not keep what the sweep finds expired. *)
Lemma sweep_expired now tc s x : entries (sweep now tc) !! s = Some x -> now <= x.
Proof. by intros [_ ?]%map_lookup_filter_Some. Qed.

(** Last seen, a message that is looked up every minute is never new. *)
Definition minute : Z := 60 * 10 ^ 9.
Lemma seen_once_witness :
  let tc := mkCache ∅ (2 * minute) in
  (markSeen (TC := LastSeenCache) (2 * minute)
     (run (TC := LastSeenCache) (markSeen (TC := LastSeenCache) 0 tc []).1
        [(minute, OpHas []); (2 * minute, OpSweep)]) []).2 = false.
Proof.
  intros tc. refine (proj1 (seen_once (TC := LastSeenCache) tc 0 [] [(minute, OpHas []); (2 * minute, OpSweep)] (2 * minute) _ _ _ _)).
  - vm_compute. done.
  - vm_compute. done.
  - vm_compute. done.
  - vm_compute. done.
Defined.
