(* ===== verification/GossipTracer.v ===== *)
(** * Promises of gossip (go-libp2p-blossomsub/gossip_tracer.go)

    When the router asks a peer for messages it remembers one of them as a
    promise.  A promise is kept in two maps, by message and by peer; a peer whose
    promise expires is reported to the router for a penalty.  The two maps
    together are shown to implement one table of promises. *)
From Stdlib Require Import ZArith Lia.
From stdpp Require Import base tactics list numbers option gmap sets fin_maps.
From S2P Require Import Prelude GoBytes BlsRpc MessageCache Router.
Local Open Scope Z_scope.

(** Reasons for the rejection of a message (tracer.go, validation.go) *)
Inductive RejectReason :=
  | RejectBlacklstedPeer | RejectBlacklistedSource | RejectMissingSignature | RejectUnexpectedSignature
  | RejectUnexpectedAuthInfo | RejectInvalidSignature | RejectValidationQueueFull | RejectValidationThrottled
  | RejectValidationFailed | RejectValidationIgnored | RejectSelfOrigin.

Record gossipTracer := mkTracer {
  gt_idGen : msgIDGenerator;
  followUpTime : Z;
  promises : gmap bytes (gmap PeerID Z);
  peerPromises : gmap PeerID (gset bytes) }.

Definition newGossipTracer (sha256 : bytes -> bytes) : gossipTracer := mkTracer (newMsgIdGenerator sha256) 0 ∅ ∅.
Definition StartTracer (gt : gossipTracer) (idGen : msgIDGenerator) (iwantFollowupTime : Z) : gossipTracer :=
  mkTracer idGen iwantFollowupTime (promises gt) (peerPromises gt).

Definition set_promises (gt : gossipTracer) (m : gmap bytes (gmap PeerID Z)) (pp : gmap PeerID (gset bytes)) : gossipTracer :=
  mkTracer (gt_idGen gt) (followUpTime gt) m pp.

(** [idx] is [rand.Intn(len(msgIDs))]; [None] is its panic. *)
Definition AddPromise (gt : gossipTracer) (now : Z) (idx : nat) (p : PeerID) (msgIDs : list bytes) : option gossipTracer :=
  mid ← msgIDs !! idx;
  let ps := default ∅ (promises gt !! mid) in
  match ps !! p with
  | Some _ => Some (set_promises gt (<[mid := ps]> (promises gt)) (peerPromises gt))
  | None =>
      Some (set_promises gt (<[mid := <[p := now + followUpTime gt]> ps]> (promises gt))
        (<[p := {[mid]} ∪ default ∅ (peerPromises gt !! p)]> (peerPromises gt)))
  end.

(** [delete(peerPromises[p], mid)], and the entry of [p] when it is empty then *)
Definition unpromise (pp : gmap PeerID (gset bytes)) (mp : bytes * PeerID) : gmap PeerID (gset bytes) :=
  match pp !! mp.2 with
  | None => pp
  | Some X => if bool_decide (X ∖ {[mp.1]} = ∅) then delete mp.2 pp else <[mp.2 := X ∖ {[mp.1]}]> pp
  end.
(** The same for the promises of a message *)
Definition dropPeer (m : gmap bytes (gmap PeerID Z)) (p : PeerID) (mid : bytes) : gmap bytes (gmap PeerID Z) :=
  match m !! mid with
  | None => m
  | Some ps => if bool_decide (delete p ps = ∅) then delete mid m else <[mid := delete p ps]> m
  end.

(** The expired promises, in the order in which the loops come across them *)
Definition expiredPairs (gt : gossipTracer) (now : Z) : gset (bytes * PeerID) :=
  list_to_set (map_to_list (promises gt) ≫= fun mps =>
    (fun px => (mps.1, px.1)) <$> filter (fun px : PeerID * Z => px.2 < now) (map_to_list mps.2)).

Definition GetBrokenPromises (gt : gossipTracer) (now : Z) : gossipTracer * gmap PeerID Z :=
  let broken := elements (expiredPairs gt now) in
  let res := foldl (fun (r : gmap PeerID Z) mp => <[mp.2 := default 0 (r !! mp.2) + 1]> r) ∅ broken in
  let live : gmap bytes (gmap PeerID Z) :=
    (fun ps : gmap PeerID Z => filter (fun px => now <= px.2) ps) <$> promises gt in
  (set_promises gt (filter (fun mps => mps.2 <> ∅) live) (foldl unpromise (peerPromises gt) broken), res).

Definition fulfillPromise (gt : gossipTracer) (msg : Message) : gossipTracer :=
  let mid := idOf (gt_idGen gt) msg in
  match promises gt !! mid with
  | None => gt
  | Some ps =>
      set_promises gt (delete mid (promises gt))
        (foldl unpromise (peerPromises gt) ((fun p => (mid, p)) <$> elements (dom ps)))
  end.

Definition DeliverMessage (gt : gossipTracer) (msg : Message) : gossipTracer := fulfillPromise gt msg.
Definition RejectMessage (gt : gossipTracer) (msg : Message) (reason : RejectReason) : gossipTracer :=
  match reason with
  | RejectMissingSignature | RejectInvalidSignature => gt
  | _ => fulfillPromise gt msg
  end.
Definition ValidateMessage (gt : gossipTracer) (msg : Message) : gossipTracer := fulfillPromise gt msg.

Definition ThrottlePeer (gt : gossipTracer) (p : PeerID) : gossipTracer :=
  match peerPromises gt !! p with
  | None => gt
  | Some mids =>
      set_promises gt (foldl (fun m mid => dropPeer m p mid) (promises gt) (elements mids)) (delete p (peerPromises gt))
  end.

(** ** One table of promises *)
Definition promised (m : gmap bytes (gmap PeerID Z)) (mid : bytes) (p : PeerID) : option Z :=
  default ∅ (m !! mid) !! p.
Definition indexed (pp : gmap PeerID (gset bytes)) (p : PeerID) : gset bytes := default ∅ (pp !! p).

(** The two maps agree, and neither keeps an empty entry. *)
Record consistent (gt : gossipTracer) : Prop := {
  co_index mid p : mid ∈ indexed (peerPromises gt) p <-> is_Some (promised (promises gt) mid p);
  co_promises mid : promises gt !! mid <> Some ∅;
  co_peers p : peerPromises gt !! p <> Some ∅ }.

Lemma unpromise_spec pp mp p : indexed (unpromise pp mp) p = if decide (p = mp.2) then indexed pp p ∖ {[mp.1]} else indexed pp p.
Proof.
  unfold unpromise, indexed. destruct (pp !! mp.2) as [X|] eqn:E.
  - case_bool_decide as Hz; case_decide; subst; rewrite ?lookup_delete_eq, ?lookup_insert_eq, ?E;
      rewrite ?lookup_delete_ne, ?lookup_insert_ne by done; done || by rewrite Hz.
  - case_decide; subst; rewrite ?E; set_solver.
Qed.

Lemma unpromise_full pp mp p : (forall q, pp !! q <> Some ∅) -> unpromise pp mp !! p <> Some ∅.
Proof.
  intros H. unfold unpromise. destruct (pp !! mp.2) as [X|]; [|done]. case_bool_decide as Hz.
  - by intros [_ ?%H]%lookup_delete_Some.
  - intros [[_ ?]|[_ ?%H]]%lookup_insert_Some; done.
Qed.

Lemma unpromise_fold l : forall pp p mid,
  mid ∈ indexed (foldl unpromise pp l) p <-> mid ∈ indexed pp p /\ (mid, p) ∉ l.
Proof.
  induction l as [|mp l IH]; intros pp p mid; [set_solver|]. simpl. rewrite IH, unpromise_spec, not_elem_of_cons.
  destruct mp as [mid' p']. simpl. case_decide; [subst|naive_solver].
  rewrite elem_of_difference, elem_of_singleton. naive_solver.
Qed.

Lemma unpromise_fold_full l : forall pp, (forall q, pp !! q <> Some ∅) -> forall p, foldl unpromise pp l !! p <> Some ∅.
Proof. induction l as [|mp l IH]; intros pp H p; [done|]. simpl. apply IH. intros q. by apply unpromise_full. Qed.

Lemma dropPeer_spec m p mid mid' p' :
  promised (dropPeer m p mid) mid' p' = if decide (mid' = mid /\ p' = p) then None else promised m mid' p'.
Proof.
  unfold dropPeer, promised. destruct (m !! mid) as [ps|] eqn:E.
  - case_bool_decide as Hz; destruct (decide (mid' = mid)) as [->|Hm];
      rewrite ?lookup_delete_eq, ?lookup_insert_eq, ?E; rewrite ?lookup_delete_ne, ?lookup_insert_ne by done; simpl.
    + rewrite lookup_empty. case_decide as Hd; [done|]. symmetry.
      rewrite <-(lookup_delete_ne ps p p') by naive_solver. by rewrite Hz.
    + by rewrite decide_False by naive_solver.
    + destruct (decide (p' = p)) as [->|Hp]; [by rewrite lookup_delete_eq, decide_True|].
      by rewrite lookup_delete_ne, decide_False by naive_solver.
    + by rewrite decide_False by naive_solver.
  - case_decide as Hd; [|done]. destruct Hd as [-> ->]. by rewrite E.
Qed.

Lemma dropPeer_fold p l : forall m mid' p',
  promised (foldl (fun m mid => dropPeer m p mid) m l) mid' p'
  = if decide (p' = p /\ mid' ∈ l) then None else promised m mid' p'.
Proof.
  induction l as [|mid l IH]; intros m mid' p'; simpl; [by rewrite decide_False by set_solver|].
  rewrite IH, dropPeer_spec. repeat case_decide; try done; set_solver.
Qed.

Lemma dropPeer_fold_full p l : forall m, (forall x, m !! x <> Some ∅) ->
  forall x, foldl (fun m mid => dropPeer m p mid) m l !! x <> Some ∅.
Proof.
  induction l as [|mid l IH]; intros m H x; [done|]. simpl. apply IH. intros y. unfold dropPeer.
  destruct (m !! mid) as [ps|]; [|done]. case_bool_decide as Hz.
  - by intros [_ ?%H]%lookup_delete_Some.
  - intros [[_ ?]|[_ ?%H]]%lookup_insert_Some; done.
Qed.

Lemma elem_of_expiredPairs gt now mid p :
  (mid, p) ∈ expiredPairs gt now <-> exists x, promised (promises gt) mid p = Some x /\ x < now.
Proof.
  unfold expiredPairs, promised. rewrite elem_of_list_to_set, list_elem_of_bind. split.
  - intros ([mid' ps] & ([p' x] & [= -> ->] & [Hx Hp%elem_of_map_to_list]%list_elem_of_filter)%list_elem_of_fmap &
      Hm%elem_of_map_to_list). exists x. simpl in *. by rewrite Hm.
  - intros (x & Hp & Hx). destruct (promises gt !! mid) as [ps|] eqn:E; [|done].
    exists (mid, ps). split; [|by apply elem_of_map_to_list]. apply list_elem_of_fmap. exists (p, x). split; [done|].
    apply list_elem_of_filter. split; [done|]. by apply elem_of_map_to_list.
Qed.

Lemma count_fold l : forall (r : gmap PeerID Z) p,
  default 0 (foldl (fun (r : gmap PeerID Z) (mp : bytes * PeerID) => <[mp.2 := default 0 (r !! mp.2) + 1]> r) r l !! p)
  = default 0 (r !! p) + Z.of_nat (length (filter (fun mp => mp.2 = p) l)).
Proof.
  induction l as [|mp l IH]; intros r p; simpl; [lia|]. rewrite IH, filter_cons. case_decide as E; simpl.
  - subst. rewrite lookup_insert_eq. simpl. lia.
  - by rewrite lookup_insert_ne.
Qed.

(** The table that the tracer stands for: the expiry of the promise of a message by a peer *)
Definition book : Type := bytes -> PeerID -> option Z.
Definition tracks (gt : gossipTracer) (bk : book) : Prop :=
  consistent gt /\ forall mid p, promised (promises gt) mid p = bk mid p.

Lemma tracks_new sha256 idGen t : tracks (StartTracer (newGossipTracer sha256) idGen t) (fun _ _ => None).
Proof.
  split; [split; simpl|done].
  - intros mid p. unfold indexed, promised. rewrite !lookup_empty. simpl. split; [set_solver|by intros [? ?]].
  - done.
  - done.
Qed.

Lemma AddPromise_tracks gt bk now idx p msgIDs mid :
  tracks gt bk -> msgIDs !! idx = Some mid -> exists gt', AddPromise gt now idx p msgIDs = Some gt'
    /\ tracks gt' (fun m q => if decide (m = mid /\ q = p) then Some (default (now + followUpTime gt) (bk mid p)) else bk m q).
Proof.
  intros [C HB] Hi. unfold AddPromise. rewrite Hi. cbn [mbind option_bind].
  pose proof (HB mid p) as Hmp. unfold promised in Hmp. destruct (default ∅ (promises gt !! mid) !! p) as [x|] eqn:E.
  - eexists. split; [done|]. destruct (promises gt !! mid) as [ps|] eqn:Em; [|done].
    assert (Hid : set_promises gt (<[mid := ps]> (promises gt)) (peerPromises gt) = gt)
      by (unfold set_promises; rewrite insert_id by done; by destruct gt).
    simpl. rewrite Hid. split; [done|]. intros m q. case_decide as Hd; [|apply HB]. destruct Hd as [-> ->].
    rewrite <-Hmp. simpl. unfold promised. rewrite Em. done.
  - eexists. split; [done|]. rewrite <-Hmp. simpl.
    assert (HP : forall m q, promised (<[mid := <[p := now + followUpTime gt]> (default ∅ (promises gt !! mid))]> (promises gt)) m q
      = if decide (m = mid /\ q = p) then Some (now + followUpTime gt) else promised (promises gt) m q).
    { intros m q. unfold promised. destruct (decide (m = mid)) as [->|Hm].
      - rewrite lookup_insert_eq. simpl. destruct (decide (q = p)) as [->|Hq].
        + by rewrite lookup_insert_eq, decide_True.
        + by rewrite lookup_insert_ne, decide_False by naive_solver.
      - by rewrite lookup_insert_ne, decide_False by naive_solver. }
    split; [split; simpl|].
    + intros m q. rewrite HP. destruct (decide (q = p)) as [->|Hq].
      * unfold indexed. rewrite lookup_insert_eq. simpl. fold (indexed (peerPromises gt) p).
        rewrite elem_of_union, elem_of_singleton, (co_index _ C).
        case_decide as Hd; [naive_solver|]. naive_solver.
      * unfold indexed. rewrite lookup_insert_ne, decide_False by naive_solver. apply (co_index _ C).
    + intros m [[_ H]|[_ ?%(co_promises _ C)]]%lookup_insert_Some; [|done]. by apply insert_non_empty in H.
    + intros q [[_ H]|[_ ?%(co_peers _ C)]]%lookup_insert_Some; [|done]. set_solver.
    + intros m q. simpl. rewrite HP. case_decide; [done|apply HB].
Qed.

Lemma GetBrokenPromises_tracks gt bk now :
  tracks gt bk ->
  tracks (GetBrokenPromises gt now).1 (fun m q => x ← bk m q; if now <=? x then Some x else None)
  /\ forall p, exists l : list bytes, NoDup l /\ (forall mid, mid ∈ l <-> exists x, bk mid p = Some x /\ x < now)
       /\ default 0 ((GetBrokenPromises gt now).2 !! p) = Z.of_nat (length l).
Proof.
  intros [C HB]. unfold GetBrokenPromises. cbn [fst snd]. set (live := _ <$> promises gt).
  assert (HP : forall m q, promised (filter (fun mps : bytes * gmap PeerID Z => mps.2 <> ∅) live) m q
    = x ← promised (promises gt) m q; if now <=? x then Some x else None).
  { intros m q. unfold promised. transitivity (default ∅ (live !! m) !! q).
    - destruct (live !! m) as [ps|] eqn:El; [destruct (decide (ps = ∅)) as [->|Hne]|].
      + rewrite (proj2 (map_lookup_filter_None _ _ m)); [done|]. right. intros x Hx. naive_solver.
      + by rewrite (proj2 (map_lookup_filter_Some _ _ m ps)).
      + by rewrite (proj2 (map_lookup_filter_None _ _ m)) by (by left).
    - unfold live. rewrite lookup_fmap. destruct (promises gt !! m) as [ps|]; [|done]. simpl.
      destruct (filter _ ps !! q) as [x|] eqn:E.
      + apply map_lookup_filter_Some in E as [E Hx]. rewrite E. simpl in *. by rewrite (proj2 (Z.leb_le _ _)).
      + apply map_lookup_filter_None in E as [E|E]; [by rewrite E|]. destruct (ps !! q) as [x|] eqn:Eq; [|done]. simpl.
        specialize (E x eq_refl). simpl in E. by rewrite (proj2 (Z.leb_gt _ _)) by lia. }
  split.
  - split; [split; simpl|].
    + intros m q. rewrite unpromise_fold, elem_of_elements, elem_of_expiredPairs, HP, (co_index _ C).
      destruct (promised (promises gt) m q) as [x|]; simpl; [|naive_solver].
      destruct (Z.leb_spec now x); [|naive_solver]. split; [done|]. intros _. split; [done|].
      intros (y & [= ->] & ?). lia.
    + intros m [_ H]%map_lookup_filter_Some. done.
    + apply unpromise_fold_full, (co_peers _ C).
    + intros m q. simpl. rewrite HP. by rewrite HB.
  - intros p. exists (fst <$> filter (fun mp => mp.2 = p) (elements (expiredPairs gt now))). split_and!.
    + apply NoDup_fmap_2_strong; [|apply NoDup_filter, NoDup_elements].
      intros [m1 q1] [m2 q2] [H1 _]%list_elem_of_filter [H2 _]%list_elem_of_filter. simpl in *. by intros ->; subst.
    + intros mid. rewrite list_elem_of_fmap. setoid_rewrite list_elem_of_filter. setoid_rewrite elem_of_elements.
      rewrite <-HB, <-elem_of_expiredPairs. split.
      * by intros ([m q] & -> & ? & ?); simpl in *; subst.
      * intros H. by exists (mid, p).
    + rewrite count_fold, length_fmap, lookup_empty. simpl. lia.
Qed.

Lemma fulfillPromise_tracks gt bk msg :
  tracks gt bk ->
  tracks (fulfillPromise gt msg) (fun m q => if decide (m = idOf (gt_idGen gt) msg) then None else bk m q).
Proof.
  intros [C HB]. unfold fulfillPromise. set (mid := idOf (gt_idGen gt) msg).
  destruct (promises gt !! mid) as [ps|] eqn:E.
  - assert (HP : forall m q, promised (delete mid (promises gt)) m q = if decide (m = mid) then None else promised (promises gt) m q).
    { intros m q. unfold promised. case_decide; [subst; by rewrite lookup_delete_eq|by rewrite lookup_delete_ne]. }
    split; [split; simpl|].
    + intros m q. rewrite unpromise_fold, list_elem_of_fmap, HP, (co_index _ C).
      setoid_rewrite elem_of_elements. setoid_rewrite elem_of_dom. case_decide as Hd.
      * subst m. split; [|by intros [? ?]]. intros [H Hn]. destruct Hn. exists q. split; [done|].
        unfold promised in H. rewrite E in H. done.
      * split; [tauto|]. intros H. split; [done|]. intros (? & [= ? ?] & _). congruence.
    + intros m [_ ?%(co_promises _ C)]%lookup_delete_Some. done.
    + apply unpromise_fold_full, (co_peers _ C).
    + intros m q. simpl. rewrite HP. case_decide; [done|apply HB].
  - split; [done|]. intros m q. case_decide; [|apply HB]. subst. unfold promised. by rewrite E.
Qed.

Lemma ThrottlePeer_tracks gt bk p :
  tracks gt bk -> tracks (ThrottlePeer gt p) (fun m q => if decide (q = p) then None else bk m q).
Proof.
  intros [C HB]. unfold ThrottlePeer.
  assert (HX : forall m, m ∈ indexed (peerPromises gt) p <-> is_Some (promised (promises gt) m p)) by (intros; apply (co_index _ C)).
  unfold indexed in HX. destruct (peerPromises gt !! p) as [mids|] eqn:E; simpl in HX.
  - assert (HP : forall m q, promised (foldl (fun m mid => dropPeer m p mid) (promises gt) (elements mids)) m q
      = if decide (q = p) then None else promised (promises gt) m q).
    { intros m q. rewrite dropPeer_fold. destruct (decide (q = p)) as [->|Hq];
        [|by rewrite decide_False by naive_solver]. case_decide as Hd; [done|].
      destruct (promised (promises gt) m p) eqn:Ep; [|done]. destruct Hd. split; [done|].
      apply elem_of_elements, HX. by eexists. }
    split; [split; simpl|].
    + intros m q. rewrite HP. unfold indexed. case_decide as Hd.
      * subst q. rewrite lookup_delete_eq. split; [set_solver|by intros [? ?]].
      * rewrite lookup_delete_ne by done. apply (co_index _ C).
    + apply dropPeer_fold_full, (co_promises _ C).
    + intros q [_ ?%(co_peers _ C)]%lookup_delete_Some. done.
    + intros m q. simpl. rewrite HP. case_decide; [done|apply HB].
  - split; [done|]. intros m q. case_decide; [|apply HB]. subst. rewrite HB. destruct (bk m p) eqn:Eb; [|done].
    exfalso. assert (m ∈ (∅ : gset bytes)) by (apply HX; rewrite HB, Eb; by eexists). set_solver.
Qed.

(** The two maps of the tracer are one table of promises.  A new promise
    expires after the follow-up time and an old one is not prolonged;
    [GetBrokenPromises] reports for every peer how many of his promises have
    expired, and forgets exactly these; a message that is delivered, validated or
    rejected fulfils the promises of everybody for it, unless it was rejected for
    its signature; throttling a peer forgets his promises.  The tables stay in
    agreement throughout. *)
Theorem tracer_refines_book gt bk :
  tracks gt bk ->
  (forall now idx p msgIDs mid, msgIDs !! idx = Some mid -> exists gt', AddPromise gt now idx p msgIDs = Some gt'
     /\ tracks gt' (fun m q => if decide (m = mid /\ q = p) then Some (default (now + followUpTime gt) (bk mid p)) else bk m q))
  /\ (forall now, tracks (GetBrokenPromises gt now).1 (fun m q => x ← bk m q; if now <=? x then Some x else None)
     /\ forall p, exists l : list bytes, NoDup l /\ (forall mid, mid ∈ l <-> exists x, bk mid p = Some x /\ x < now)
          /\ default 0 ((GetBrokenPromises gt now).2 !! p) = Z.of_nat (length l))
  /\ (forall msg, let bk' : book := fun m q => if decide (m = idOf (gt_idGen gt) msg) then None else bk m q in
       tracks (DeliverMessage gt msg) bk' /\ tracks (ValidateMessage gt msg) bk'
       /\ forall reason, tracks (RejectMessage gt msg reason)
            (match reason with RejectMissingSignature | RejectInvalidSignature => bk | _ => bk' end))
  /\ (forall p, tracks (ThrottlePeer gt p) (fun m q => if decide (q = p) then None else bk m q)).
Proof.
  intros T. split_and!.
  - intros. by apply AddPromise_tracks.
  - intros now. by apply GetBrokenPromises_tracks.
  - intros msg. pose proof (fulfillPromise_tracks gt bk msg T) as F. split_and!; [exact F|exact F|]. by intros [].
  - intros p. by apply ThrottlePeer_tracks.
Qed.

(** A promise that nobody fulfils is broken once. *)
Module TracerExample.
Definition gt0 : gossipTracer := StartTracer (newGossipTracer id) (newMsgIdGenerator id) 3.
Definition p : PeerID := [Byte.x01].
Definition gt1 : gossipTracer := default gt0 (AddPromise gt0 10 0 p [[Byte.x07]]).
End TracerExample.

Lemma tracer_refines_book_witness :
  exists gt', AddPromise TracerExample.gt0 10 0 TracerExample.p [[Byte.x07]] = Some gt'
    /\ (GetBrokenPromises gt' 14).2 !! TracerExample.p = Some 1
    /\ promises (GetBrokenPromises gt' 14).1 = ∅.
Proof.
  destruct (tracer_refines_book TracerExample.gt0 (fun _ _ => None)) as (H & _); [apply tracks_new|].
  destruct (H 10 0%nat TracerExample.p [[Byte.x07]] [Byte.x07] eq_refl) as (gt' & E & _).
  exists gt'. split; [exact E|]. injection E as <-. vm_compute. split; reflexivity.
Defined.
