(* ===== verification/PeerBackoff.v ===== *)
(** * Backing off from peers (go-libp2p-blossomsub/backoff.go)

    The delay before the next attempt to open a stream to a peer: nothing for the
    first, then from a minimum, doubling with some jitter up to a maximum, until
    the attempts are used up; after a time without attempts it starts again. *)
From Stdlib Require Import ZArith Lia.
From stdpp Require Import base tactics list numbers option gmap sets fin_maps.
From S2P Require Import Prelude GoBytes BlsRpc.
Local Open Scope Z_scope.

Definition Millisecond : Z := 10 ^ 6.
Definition MinBackoffDelay : Z := 100 * Millisecond.
Definition MaxBackoffDelay : Z := 10 * 1000 * Millisecond.
Definition TimeToLive : Z := 600 * 1000 * Millisecond.
Definition BackoffMultiplier : Z := 2.
Definition MaxBackoffJitterCoff : Z := 100.

Record backoffHistory := mkHistory { duration : Z; lastTried : Z; attempts : Z }.
Record backoff := mkBackoff { info : gmap PeerID backoffHistory; maxAttempts : Z }.
Definition newBackoff (maxAttempts : Z) : backoff := mkBackoff ∅ maxAttempts.

Definition expired (now : Z) (h : backoffHistory) : bool := TimeToLive <? now - lastTried h.

(** The third and the fourth case: the next delay *)
Definition nextDelay (jitter d : Z) : Z :=
  if d <? MinBackoffDelay then MinBackoffDelay
  else if d <? MaxBackoffDelay then
    let d := Int64.add64 (Int64.mul64 BackoffMultiplier d) (jitter * Millisecond) in
    if (MaxBackoffDelay <? d) || (d <? 0) then MaxBackoffDelay else d
  else d.

(** [jitter] is [rand.Intn(MaxBackoffJitterCoff)]; [None] is the error. *)
Definition updateAndGet (now jitter : Z) (b : backoff) (id : PeerID) : backoff * option Z :=
  let put h := (mkBackoff (<[id := mkHistory (duration h) now (attempts h + 1)]> (info b)) (maxAttempts b),
                Some (duration h)) in
  match info b !! id with
  | None => put (mkHistory 0 now 0)
  | Some h =>
      if expired now h then put (mkHistory 0 now 0)
      else if maxAttempts b <=? attempts h then (b, None)
      else put (mkHistory (nextDelay jitter (duration h)) now (attempts h))
  end.

Definition cleanup (now : Z) (b : backoff) : backoff :=
  mkBackoff (filter (fun kv => expired now kv.2 = false) (info b)) (maxAttempts b).

(** ** The schedule *)
(** The least delay after [n] attempts *)
Definition leastDelay (n : Z) : Z := Z.min MaxBackoffDelay (MinBackoffDelay * 2 ^ (n - 1)).

Definition scheduled (mx : Z) (h : backoffHistory) : Prop :=
  1 <= attempts h <= Z.max 1 mx /\ 0 <= duration h <= MaxBackoffDelay
  /\ (2 <= attempts h -> leastDelay (attempts h - 1) <= duration h)
  /\ (attempts h = 1 -> duration h = 0).

Inductive backoffReach (mx : Z) : Z -> backoff -> Prop :=
  | reach_new now : backoffReach mx now (newBackoff mx)
  | reach_update now now' b jitter id : backoffReach mx now b -> now <= now' -> 0 <= jitter < MaxBackoffJitterCoff ->
      backoffReach mx now' (updateAndGet now' jitter b id).1
  | reach_cleanup now now' b : backoffReach mx now b -> now <= now' -> backoffReach mx now' (cleanup now' b).

Lemma nextDelay_spec jitter d n : 0 <= jitter < MaxBackoffJitterCoff -> 0 <= d <= MaxBackoffDelay -> 1 <= n ->
  (n = 1 -> d = 0) -> (2 <= n -> leastDelay (n - 1) <= d) ->
  let d' := nextDelay jitter d in d <= d' <= MaxBackoffDelay /\ leastDelay n <= d' /\ d' <= 2 * d + MinBackoffDelay.
Proof.
  intros Hj Hd Hn H1 H2. unfold nextDelay, leastDelay in *.
  assert (Hmin : MinBackoffDelay = 100000000) by reflexivity.
  assert (Hmax : MaxBackoffDelay = 10000000000) by reflexivity.
  assert (Hms : Millisecond = 1000000) by reflexivity. unfold MaxBackoffJitterCoff, BackoffMultiplier in *.
  destruct (decide (n = 1)) as [->|Hne].
  { rewrite H1 by done. split_and!; by vm_compute. }
  specialize (H2 ltac:(lia)). assert (Hp : 2 ^ (n - 1) = 2 * 2 ^ (n - 1 - 1)) by (rewrite <-Z.pow_succ_r by lia; f_equal; lia).
  assert (1 <= 2 ^ (n - 1 - 1)) by (pose proof (Z.pow_pos_nonneg 2 (n - 1 - 1)); lia).
  rewrite Hp. clear Hp. rewrite Hmin, Hmax in *. set (P := 2 ^ (n - 1 - 1)) in *. clearbody P.
  destruct (Z.ltb_spec d 100000000); [lia|]. destruct (Z.ltb_spec d 10000000000); [|lia]. cbn zeta.
  rewrite Hms. unfold Int64.add64, Int64.mul64. rewrite (Int64.wrap64_small (2 * d)) by int64_lia.
  rewrite Int64.wrap64_small by int64_lia.
  destruct (Z.ltb_spec 10000000000 (2 * d + jitter * 1000000)); cbn [orb]; [lia|].
  destruct (Z.ltb_spec (2 * d + jitter * 1000000) 0); lia.
Qed.

Lemma reach_scheduled mx now b : backoffReach mx now b -> maxAttempts b = mx /\ map_Forall (fun _ => scheduled mx) (info b).
Proof.
  induction 1 as [now|now now' b jitter id H [Hm IH] Ht Hj|now now' b H [Hm IH] Ht]; [by split|..].
  - unfold updateAndGet. destruct (info b !! id) as [h|] eqn:E; [destruct (expired now' h)|].
    2: destruct (Z.leb_spec (maxAttempts b) (attempts h)); [done|].
    all: split; [done|]; apply map_Forall_insert_2; [|done].
    all: unfold scheduled; simpl; try (split_and!; try done; try lia; intros; lia).
    destruct (IH id h E) as (Ha & Hd & Hl & Hz).
    destruct (nextDelay_spec jitter (duration h) (attempts h)) as (H1 & H2 & _); [done|done|lia|done|done|].
    split_and!; try lia. intros _. by replace (attempts h + 1 - 1) with (attempts h) by lia.
  - split; [done|]. intros id h [Hh _]%map_lookup_filter_Some. by apply (IH id).
Qed.

(** The delays that [updateAndGet] gives.  A peer that was not tried for the
    time to live starts at once.  Otherwise, after [n] attempts, the next one
    waits at least the minimum doubled [n - 1] times or the maximum, never longer
    than the maximum and never shorter than the time before; when the attempts
    are used up it is an error and nothing changes. *)
Theorem backoff_schedule mx now b now' jitter id :
  backoffReach mx now b -> now <= now' -> 0 <= jitter < MaxBackoffJitterCoff ->
  match info b !! id with
  | Some h =>
      if expired now' h then
        updateAndGet now' jitter b id = (mkBackoff (<[id := mkHistory 0 now' 1]> (info b)) mx, Some 0)
      else if mx <=? attempts h then updateAndGet now' jitter b id = (b, None)
      else exists d, updateAndGet now' jitter b id
             = (mkBackoff (<[id := mkHistory d now' (attempts h + 1)]> (info b)) mx, Some d)
           /\ duration h <= d <= MaxBackoffDelay /\ leastDelay (attempts h) <= d /\ d <= 2 * duration h + MinBackoffDelay
           /\ attempts h + 1 <= mx
  | None => updateAndGet now' jitter b id = (mkBackoff (<[id := mkHistory 0 now' 1]> (info b)) mx, Some 0)
  end.
Proof.
  intros [Hm HF]%reach_scheduled Ht Hj. unfold updateAndGet. rewrite Hm. destruct (info b !! id) as [h|] eqn:E; [|done].
  destruct (expired now' h); [done|]. destruct (Z.leb_spec mx (attempts h)); [done|].
  destruct (HF id h E) as (Ha & Hd & Hl & Hz). eexists. split; [done|]. simpl.
  destruct (nextDelay_spec jitter (duration h) (attempts h)) as (H1 & H2 & H3); [done|done|lia|done|done|].
  split_and!; lia.
Qed.

(** The second attempt waits for the minimum. *)
Lemma backoff_schedule_witness :
  let b := (updateAndGet 0 0 (newBackoff 4) []).1 in
  exists d, (updateAndGet 5 7 b []).2 = Some d /\ MinBackoffDelay <= d.
Proof.
  intros b. destruct (backoff_schedule 4 0 b 5 7 []) as (d & E & _ & H & _).
  - apply (reach_update 4 0); [apply reach_new|lia|unfold MaxBackoffJitterCoff; lia].
  - lia.
  - unfold MaxBackoffJitterCoff. lia.
  - exists d. rewrite E. split; [reflexivity|exact H].
Defined.
