(* ===== verification/SubFilter.v ===== *)
(** * Subscription filters (go-libp2p-blossomsub/subscription_filter.go)

    Which subscription notifications of an RPC are looked at.  A filter is an
    instance of the Go interface; a limit wraps another filter. *)
From Stdlib Require Import ZArith Lia.
From stdpp Require Import base tactics list numbers option gmap sets fin_maps.
From S2P Require Import Prelude GoBytes BlsRpc.
Local Open Scope Z_scope.

(** [None] is [ErrTooManySubscriptions]. *)
Record SubscriptionFilter := mkFilter {
  CanSubscribe : bytes -> bool;
  FilterIncomingSubscriptions : PeerID -> list SubOpts -> option (list SubOpts) }.

Definition acceptStep (flt : bytes -> bool) (accept : gmap bytes SubOpts) (sub : SubOpts) : gmap bytes SubOpts :=
  let bitmask := so_bitmask sub in
  if negb (flt bitmask) then accept
  else
    match accept !! bitmask with
    | Some otherSub => if Bool.eqb (Subscribe sub) (Subscribe otherSub) then accept else delete bitmask accept
    | None => <[bitmask := sub]> accept
    end.

(** The result is in the order of a range over the map. *)
Definition FilterSubscriptions (subs : list SubOpts) (flt : bytes -> bool) : list SubOpts :=
  snd <$> map_to_list (foldl (acceptStep flt) ∅ subs).

Definition NewAllowlistSubscriptionFilter (bitmasks : list bytes) : SubscriptionFilter :=
  let allow : gset bytes := list_to_set bitmasks in
  let can b := bool_decide (b ∈ allow) in
  mkFilter can (fun _ subs => Some (FilterSubscriptions subs can)).

Definition WrapLimitSubscriptionFilter (filter : SubscriptionFilter) (limit : Z) : SubscriptionFilter :=
  mkFilter (CanSubscribe filter)
    (fun from subs => if limit <? Z.of_nat (length subs) then None else FilterIncomingSubscriptions filter from subs).

(** ** What is left of the notifications for a bitmask *)
(** A contradiction takes back the notification before it. *)
Definition settle (s : option bool) (f : bool) : option bool :=
  match s with None => Some f | Some g => if Bool.eqb f g then s else None end.
Definition flags (b : bytes) (subs : list SubOpts) : list bool :=
  Subscribe <$> filter (fun s => so_bitmask s = b) subs.
Definition settled (b : bytes) (subs : list SubOpts) : option bool := foldl settle None (flags b subs).

Lemma settle_same l g : Forall (fun f => f = g) l -> l <> [] -> foldl settle None l = Some g.
Proof.
  destruct l as [|x l]; [done|]. intros H _. inversion H as [|?? -> Hl]; subst. simpl. clear H.
  induction Hl as [|y l -> _ IH]; [done|]. simpl. by rewrite Bool.eqb_reflx.
Qed.

(** The map while the loop runs: for an allowed bitmask it holds what is settled. *)
Lemma accept_lookup flt subs : forall m b,
  map_Forall (fun k s => so_bitmask s = k /\ flt k = true) m ->
  let m' := foldl (acceptStep flt) m subs in
  map_Forall (fun k s => so_bitmask s = k /\ flt k = true) m'
  /\ (flt b = true -> Subscribe <$> m' !! b = foldl settle (Subscribe <$> m !! b) (flags b subs)).
Proof.
  induction subs as [|s subs IH]; intros m b Hm; [by split|]. cbn [foldl].
  assert (Hs : map_Forall (fun k s => so_bitmask s = k /\ flt k = true) (acceptStep flt m s)).
  { unfold acceptStep. destruct (flt (so_bitmask s)) eqn:Ef; simpl; [|done].
    destruct (m !! so_bitmask s) as [o|]; [destruct (Bool.eqb _ _); [done|by apply map_Forall_delete]|].
    by apply map_Forall_insert_2. }
  destruct (IH (acceptStep flt m s) b Hs) as [H1 H2]. split; [done|]. intros Hb. rewrite (H2 Hb). unfold flags.
  rewrite filter_cons. unfold acceptStep. destruct (decide (so_bitmask s = b)) as [<-|Hne].
  - rewrite Hb. cbn [negb fmap list_fmap foldl]. f_equal. destruct (m !! so_bitmask s) as [o|] eqn:E; simpl.
    + destruct (Bool.eqb (Subscribe s) (Subscribe o)); simpl; [by rewrite E|by rewrite lookup_delete_eq].
    + by rewrite lookup_insert_eq.
  - f_equal. f_equal. destruct (negb _); [done|]. destruct (m !! so_bitmask s); [destruct (Bool.eqb _ _); [done|]|].
    + by rewrite lookup_delete_ne.
    + by rewrite lookup_insert_ne.
Qed.

(** [FilterSubscriptions] returns at most one notification per bitmask, for
    the bitmasks that the filter allows, and exactly what is settled for them: a
    bitmask whose notifications agree is kept once, and a notification that
    contradicts the one in force takes it back.  With a limit, an RPC with more
    notifications is an error and the others are filtered. *)
Theorem filter_subscriptions_spec subs flt :
  let r := FilterSubscriptions subs flt in
  NoDup (so_bitmask <$> r)
  /\ (forall s, s ∈ r <-> flt (so_bitmask s) = true /\ settled (so_bitmask s) subs = Some (Subscribe s))
  /\ (forall b f, flt b = true -> flags b subs <> [] -> Forall (fun g => g = f) (flags b subs) -> mkSubOpts f b ∈ r)
  /\ (forall fl limit from, FilterIncomingSubscriptions (WrapLimitSubscriptionFilter fl limit) from subs
       = if limit <? Z.of_nat (length subs) then None else FilterIncomingSubscriptions fl from subs).
Proof.
  intros r. unfold r, FilterSubscriptions. set (m := foldl (acceptStep flt) ∅ subs).
  assert (Hm : map_Forall (fun k s => so_bitmask s = k /\ flt k = true) m)
    by (apply (accept_lookup flt subs ∅ []); apply map_Forall_empty).
  assert (Hl : forall b, flt b = true -> Subscribe <$> m !! b = settled b subs)
    by (intros b; exact (proj2 (accept_lookup flt subs ∅ b (map_Forall_empty _)))).
  assert (Hin : forall s, s ∈ snd <$> map_to_list m <-> m !! so_bitmask s = Some s).
  { intros s. rewrite list_elem_of_fmap. split.
    - intros ([k s'] & -> & Hk%elem_of_map_to_list). simpl. by destruct (Hm k s' Hk) as [-> _].
    - intros Hk. exists (so_bitmask s, s). split; [done|]. by apply elem_of_map_to_list. }
  assert (Hspec : forall s, s ∈ snd <$> map_to_list m <-> flt (so_bitmask s) = true /\ settled (so_bitmask s) subs = Some (Subscribe s)).
  { intros s. rewrite Hin. split.
    - intros Hs. destruct (Hm _ _ Hs) as [_ Hf]. split; [done|]. by rewrite <-Hl, Hs.
    - intros [Hf Hs]. rewrite <-(Hl _ Hf) in Hs. destruct (m !! so_bitmask s) as [s'|] eqn:E; [|done].
      destruct (Hm _ _ E) as [Hb _]. destruct s as [f b], s' as [f' b']. simpl in *. by simplify_eq. }
  split_and!; try done.
  - rewrite <-list_fmap_compose. rewrite (list_fmap_ext _ fst).
    + apply NoDup_fst_map_to_list.
    + intros i [k s] Hi%list_elem_of_lookup_2%elem_of_map_to_list. by destruct (Hm _ _ Hi).
  - intros b f Hf Hne HF. apply Hspec. split; [done|]. by apply settle_same.
Qed.
