(* ===== verification/Validation.v ===== *)
(** * The validation pipeline (go-libp2p-blossomsub/validation.go, sign.go)

    A message that [PubSub] lets through is validated before it is delivered and
    forwarded: its signature, then the inline validators one after the other,
    then the others in goroutines of their own.  A validator, the verification of
    a signature and the tokens of a validator are the environment [venv] of a
    call; the queue, the tasks in flight, the cache of seen messages and the
    channel of messages to send are the state. *)
From Stdlib Require Import ZArith Lia.
From stdpp Require Import base tactics list numbers option gmap sets fin_maps.
From S2P Require Import Prelude GoBytes BlsRpc MessageCache Router TimeCache GossipTracer.
Local Open Scope Z_scope.

(** ** Signature policy (sign.go) *)
Definition msgSigning : Z := 1.
Definition msgVerification : Z := 2.
Definition StrictSign : Z := Z.lor msgSigning msgVerification.
Definition StrictNoSign : Z := msgVerification.
Definition LaxSign : Z := msgSigning.
Definition LaxNoSign : Z := 0.
Definition mustVerify (policy : Z) : bool := negb (Z.land policy msgVerification =? 0).
Definition mustSign (policy : Z) : bool := negb (Z.land policy msgSigning =? 0).

(** ** Validators *)
Inductive ValidationResult := ValidationAccept | ValidationReject | ValidationIgnore | validationThrottled.
#[export] Instance ValidationResult_eq_dec : EqDecision ValidationResult.
Proof. solve_decision. Defined.

Record validatorImpl := mkVal { v_bitmask : bytes; v_id : nat; validateInline : bool }.
#[export] Instance validatorImpl_eq_dec : EqDecision validatorImpl.
Proof. solve_decision. Defined.

(** What a validator answered, an integer: anything unknown is [ValidationIgnore]. *)
Definition validateMsg (r : Z) : ValidationResult :=
  if r =? 0 then ValidationAccept else if r =? 1 then ValidationReject else ValidationIgnore.

Record venv := mkVenv {
  v_now : Z;
  verdict : validatorImpl -> Message -> Z; (** the answers of the validators *)
  noToken : validatorImpl -> bool;      (** [validateThrottle] of a validator is full *)
  validSignature : pbMessage -> bool;   (** [verifyMessageSignature] *)
  arrival : list validatorImpl -> list validatorImpl }. (** the order in which answers arrive *)
Definition venv_ok (e : venv) : Prop := forall l, arrival e l ≡ₚ l.

Definition validateReq : Type := list validatorImpl * PeerID * Message.
Record asyncTask := mkTask { t_vals : list validatorImpl; t_src : PeerID; t_msg : Message; t_result : ValidationResult }.

Record validation := mkValidation {
  bitmaskVals : gmap bytes validatorImpl;
  defaultVals : list validatorImpl;
  validateQ : list validateReq;
  validateQSize : Z;
  validateThrottle : Z (** the capacity *);
  active : list asyncTask (** goroutines that hold a token of [validateThrottle] *) }.

Definition DefaultValidateQueueSize : Z := 16384.
Definition DefaultValidateThrottle : Z := 8192.
Definition newValidation : validation := mkValidation ∅ [] [] DefaultValidateQueueSize DefaultValidateThrottle [].

(** The calls to the tracer *)
Inductive traceEvent :=
  | TrReject (msg : Message) (reason : RejectReason)
  | TrDuplicate (msg : Message)
  | TrValidate (msg : Message)
  | TrDeliver (msg : Message)
  | TrPublish (msg : Message)
  | TrUndeliverable (msg : Message)
  | TrRecvRPC (rpc : RPC)
  | TrThrottlePeer (p : PeerID).

(** The parts of [PubSub] that the pipeline uses *)
Record pipeline := mkPipeline {
  val : validation;
  seenMessages : cache;
  sendMsg : list Message;
  tr : list traceEvent }.
Definition set_val (st : pipeline) (v : validation) : pipeline := mkPipeline v (seenMessages st) (sendMsg st) (tr st).
Definition set_seen (st : pipeline) (c : cache) : pipeline := mkPipeline (val st) c (sendMsg st) (tr st).
Definition set_sendMsg (st : pipeline) (l : list Message) : pipeline := mkPipeline (val st) (seenMessages st) l (tr st).
Definition trace1 (st : pipeline) (ev : traceEvent) : pipeline := mkPipeline (val st) (seenMessages st) (sendMsg st) (tr st ++ [ev]).
Definition set_queue (v : validation) (q : list validateReq) : validation :=
  mkValidation (bitmaskVals v) (defaultVals v) q (validateQSize v) (validateThrottle v) (active v).
Definition set_active (v : validation) (l : list asyncTask) : validation :=
  mkValidation (bitmaskVals v) (defaultVals v) (validateQ v) (validateQSize v) (validateThrottle v) l.
Definition set_vals (v : validation) (m : gmap bytes validatorImpl) : validation :=
  mkValidation m (defaultVals v) (validateQ v) (validateQSize v) (validateThrottle v) (active v).

(** ** Validators come and go; the flag says that there is no error. *)
Definition AddValidator (v : validation) (x : validatorImpl) : validation * bool :=
  match bitmaskVals v !! v_bitmask x with
  | Some _ => (v, false)
  | None => (set_vals v (<[v_bitmask x := x]> (bitmaskVals v)), true)
  end.
Definition RemoveValidator (v : validation) (bitmask : bytes) : validation * bool :=
  match bitmaskVals v !! bitmask with
  | Some _ => (set_vals v (delete bitmask (bitmaskVals v)), true)
  | None => (v, false)
  end.
Definition getValidators (v : validation) (msg : Message) : list validatorImpl :=
  match bitmaskVals v !! GetBitmask msg with
  | None => defaultVals v
  | Some x => defaultVals v ++ [x]
  end.

Definition hasSignature (m : pbMessage) : bool := negb (bool_decide (pm_signature m = [])).

Section validate.
Context `{TC : TimeCache} (policy : Z) (gen : msgIDGenerator) (e : venv).

(** The loop over the inline validators: the first rejection ends it. *)
Fixpoint inlineResult (msg : Message) (vals : list validatorImpl) (result : ValidationResult) : ValidationResult :=
  match vals with
  | [] => result
  | v :: vals =>
      match validateMsg (verdict e v msg) with
      | ValidationReject => ValidationReject
      | ValidationIgnore => inlineResult msg vals ValidationIgnore
      | _ => inlineResult msg vals result
      end
  end.

(** What [validate] returns: nothing, the error, or the blocked send. *)
Inductive verr := NoError | ValidationError (reason : RejectReason).

Definition validate (st : pipeline) (vals : list validatorImpl) (src : PeerID) (msg : Message) (synchronous : bool)
    : pipeline * verr :=
  if hasSignature (msg_pb msg) && mustVerify policy && negb (validSignature e (msg_pb msg)) then
    (trace1 st (TrReject msg RejectInvalidSignature), ValidationError RejectInvalidSignature)
  else
    let '(c, fresh) := markSeen (v_now e) (seenMessages st) (idOf gen msg) in
    let st := set_seen st c in
    if negb fresh then (trace1 st (TrDuplicate msg), NoError)
    else
      let st := trace1 st (TrValidate msg) in
      let inline := filter (fun v => validateInline v || synchronous = true) vals in
      let async := filter (fun v => validateInline v || synchronous = false) vals in
      match inlineResult msg inline ValidationAccept with
      | ValidationReject =>
          (trace1 st (TrReject msg RejectValidationFailed), ValidationError RejectValidationFailed)
      | result =>
          match async with
          | [] =>
              if decide (result = ValidationIgnore)
              then (trace1 st (TrReject msg RejectValidationIgnored), ValidationError RejectValidationIgnored)
              else (set_sendMsg st (sendMsg st ++ [msg]), NoError)
          | _ =>
              if Z.of_nat (length (active (val st))) <? validateThrottle (val st)
              then (set_val st (set_active (val st) (active (val st) ++ [mkTask async src msg result])), NoError)
              else (trace1 st (TrReject msg RejectValidationThrottled), NoError)
          end
      end.

(** ** Asynchronous validators *)
Definition answer (msg : Message) (v : validatorImpl) : ValidationResult :=
  if noToken e v then validationThrottled else validateMsg (verdict e v msg).

(** The loop that collects the answers in the order in which they arrive *)
Fixpoint collect (rs : list ValidationResult) (result : ValidationResult) : ValidationResult :=
  match rs with
  | [] => result
  | ValidationAccept :: rs => collect rs result
  | ValidationReject :: _ => ValidationReject
  | ValidationIgnore :: rs =>
      collect rs (if decide (result = validationThrottled) then result else ValidationIgnore)
  | validationThrottled :: rs => collect rs validationThrottled
  end.

Definition validateBitmask (msg : Message) (vals : list validatorImpl) : ValidationResult :=
  match vals with
  | [v] => answer msg v
  | _ => collect (answer msg <$> arrival e vals) ValidationAccept
  end.

(** The end of a task: the message is sent or its fate is traced. *)
Definition doValidateBitmask (st : pipeline) (t : asyncTask) : pipeline :=
  let result := validateBitmask (t_msg t) (t_vals t) in
  let result := if decide (result = ValidationAccept) then t_result t else result in
  match result with
  | ValidationAccept => set_sendMsg st (sendMsg st ++ [t_msg t])
  | ValidationReject => trace1 st (TrReject (t_msg t) RejectValidationFailed)
  | ValidationIgnore => trace1 st (TrReject (t_msg t) RejectValidationIgnored)
  | validationThrottled => trace1 st (TrReject (t_msg t) RejectValidationThrottled)
  end.

(** ** The front end *)
(** The flag says that the message needs no validation. *)
Definition Push (st : pipeline) (src : PeerID) (msg : Message) : pipeline * bool :=
  let vals := getValidators (val st) msg in
  if negb (bool_decide (vals = [])) || hasSignature (msg_pb msg) then
    if Z.of_nat (length (validateQ (val st))) <? validateQSize (val st)
    then (set_val st (set_queue (val st) (validateQ (val st) ++ [(vals, src, msg)])), false)
    else (trace1 st (TrReject msg RejectValidationQueueFull), false)
  else (st, true).

(** A worker takes the first request. *)
Definition validateWorker (st : pipeline) : option pipeline :=
  match validateQ (val st) with
  | [] => None
  | (vals, src, msg) :: q => Some (validate (set_val st (set_queue (val st) q)) vals src msg false).1
  end.

(** A task ends and gives its token back. *)
Definition asyncDone (st : pipeline) (i : nat) : option pipeline :=
  t ← active (val st) !! i;
  let st := doValidateBitmask st t in
  Some (set_val st (set_active (val st) (delete i (active (val st))))).
End validate.

(** The signing policy before anything else (pubsub.go, checkSigningPolicy); [None] is no error. *)
Definition checkSigningPolicy (policy : Z) (signID : bytes) (m : pbMessage) : option RejectReason :=
  if mustVerify policy then
    if mustSign policy then
      if hasSignature m then None else Some RejectMissingSignature
    else if hasSignature m then Some RejectUnexpectedSignature
    else if bool_decide (signID = []) && negb (bool_decide (pm_seqno m = [] /\ pm_from m = [] /\ pm_key m = []))
    then Some RejectUnexpectedAuthInfo
    else None
  else None.

Definition PushLocal `{TC : TimeCache} (policy : Z) (signID : bytes) (gen : msgIDGenerator) (e : venv)
    (st : pipeline) (msg : Message) : pipeline * verr :=
  let st := trace1 st (TrPublish msg) in
  match checkSigningPolicy policy signID (msg_pb msg) with
  | Some reason => (trace1 st (TrReject msg reason), ValidationError reason)
  | None => validate policy gen e st (getValidators (val st) msg) (ReceivedFrom msg) msg true
  end.

(** ** The verdict on a message does not depend on the order of the answers *)
(** The worst answer: a rejection, else a throttling, else an ignore *)
Definition worst (rs : list ValidationResult) : ValidationResult :=
  if bool_decide (ValidationReject ∈ rs) then ValidationReject
  else if bool_decide (validationThrottled ∈ rs) then validationThrottled
  else if bool_decide (ValidationIgnore ∈ rs) then ValidationIgnore
  else ValidationAccept.

Lemma worst_perm rs rs' : rs ≡ₚ rs' -> worst rs = worst rs'.
Proof.
  intros H. assert (E : forall x, bool_decide (x ∈ rs) = bool_decide (x ∈ rs')) by (intros x; apply bool_decide_ext; by rewrite H).
  unfold worst. by rewrite !E.
Qed.

Lemma worst_accept rs : worst rs = ValidationAccept <-> Forall (fun r => r = ValidationAccept) rs.
Proof.
  unfold worst. rewrite Forall_forall. split.
  - repeat case_bool_decide; try done. intros _ [] Hr; done.
  - intros Ha. rewrite !bool_decide_false; [done|..]; by intros ?%Ha.
Qed.

Lemma collect_worst rs : forall r, r <> ValidationReject ->
  collect rs r = worst (r :: rs).
Proof.
  induction rs as [|x rs IH]; intros r Hr.
  - by destruct r.
  - destruct x; cbn [collect].
    + rewrite IH by done. unfold worst. repeat case_bool_decide; set_solver.
    + unfold worst. by rewrite bool_decide_true by set_solver.
    + rewrite IH by (by case_decide). unfold worst. repeat case_bool_decide; try done; case_decide; set_solver.
    + rewrite IH by done. unfold worst. repeat case_bool_decide; set_solver.
Qed.

Lemma worst_accept_cons rs : worst (ValidationAccept :: rs) = worst rs.
Proof. unfold worst. repeat case_bool_decide; set_solver. Qed.

Lemma inlineResult_worst e msg vals : forall r, r <> ValidationReject -> r <> validationThrottled ->
  inlineResult e msg vals r = worst (r :: ((fun v => validateMsg (verdict e v msg)) <$> vals)).
Proof.
  induction vals as [|v vals IH]; intros r Hr Ht; [by destruct r|]. cbn [inlineResult fmap list_fmap].
  assert (Hv : validateMsg (verdict e v msg) <> validationThrottled) by (unfold validateMsg; by repeat case_match).
  destruct (validateMsg (verdict e v msg)); [..|done].
  - rewrite IH by done. unfold worst. repeat case_bool_decide; set_solver.
  - unfold worst. by rewrite bool_decide_true by set_solver.
  - rewrite IH by done. unfold worst. repeat case_bool_decide; set_solver.
Qed.

Lemma validateBitmask_worst e msg vals : venv_ok e ->
  validateBitmask e msg vals = worst (answer e msg <$> vals).
Proof.
  intros Eok. assert (H : collect (answer e msg <$> arrival e vals) ValidationAccept = worst (answer e msg <$> vals)).
  { rewrite collect_worst, worst_accept_cons by done. apply worst_perm. by rewrite (Eok vals). }
  destruct vals as [|v [|w vals]]; [exact H| |exact H]. simpl. by destruct (answer e msg v).
Qed.

(** ** What is sent *)
Definition allAccept (rs : list ValidationResult) : bool := bool_decide (Forall (fun r => r = ValidationAccept) rs).
Lemma allAccept_worst rs : allAccept rs = bool_decide (worst rs = ValidationAccept).
Proof. apply bool_decide_ext. symmetry. apply worst_accept. Qed.

Lemma doValidate_sends e st t : venv_ok e -> t_result t <> ValidationReject -> t_result t <> validationThrottled ->
  sendMsg (doValidateBitmask e st t) = sendMsg st ++
    (if bool_decide (t_result t = ValidationAccept) && allAccept (answer e (t_msg t) <$> t_vals t) then [t_msg t] else []).
Proof.
  intros Eok H1 H2. unfold doValidateBitmask. rewrite validateBitmask_worst by done. rewrite allAccept_worst.
  destruct (worst _) eqn:Ew; [|rewrite andb_false_r; by rewrite app_nil_r..]. rewrite decide_True by done.
  destruct (t_result t); simpl; by rewrite ?app_nil_r.
Qed.

Lemma worst_reject rs : worst rs = ValidationReject <-> ValidationReject ∈ rs.
Proof. unfold worst. repeat case_bool_decide; done. Qed.

Lemma inline_not_throttled e msg vals :
  worst ((fun v => validateMsg (verdict e v msg)) <$> vals) <> validationThrottled.
Proof.
  unfold worst. repeat case_bool_decide; try done.
  match goal with H : validationThrottled ∈ _ |- _ => apply list_elem_of_fmap in H as (v & Hv & _) end.
  unfold validateMsg in Hv. by repeat case_match.
Qed.

(** The error [validate] returns for what the inline validators said *)
Definition inlineError (rs : list ValidationResult) : verr :=
  if bool_decide (ValidationReject ∈ rs) then ValidationError RejectValidationFailed
  else if bool_decide (ValidationIgnore ∈ rs) then ValidationError RejectValidationIgnored
  else NoError.

Lemma inlineError_worst rs : worst rs <> validationThrottled ->
  inlineError rs = match worst rs with
                   | ValidationReject => ValidationError RejectValidationFailed
                   | ValidationIgnore => ValidationError RejectValidationIgnored
                   | _ => NoError
                   end.
Proof. unfold inlineError, worst. by repeat case_bool_decide. Qed.

(** C18: what becomes of a message that [validate] gets.  With a bad signature
    it is an error, and a message that was seen is dropped; both leave the
    channel and the tasks alone.  When no validator is asynchronous, it is sent
    exactly when all validators accept it, and the error says whether one
    rejected it or one ignored it.  Otherwise nothing is sent at once; when an
    inline validator rejects, that is the error and no task starts; when the
    throttle has no token, no task starts, and the message is dropped and traced
    as throttled, whatever its validators would say; else exactly one task
    starts, and when that task ends, in whatever order the answers arrive, the
    message is sent exactly when every inline validator accepted and every
    asynchronous one got a token and accepts. *)
Theorem validation_verdict `{TC : TimeCache} policy gen e st vals src msg sync :
  let st' := (validate policy gen e st vals src msg sync).1 in
  let err := (validate policy gen e st vals src msg sync).2 in
  let inline := filter (fun v => validateInline v || sync = true) vals in
  let async := filter (fun v => validateInline v || sync = false) vals in
  let results := (fun v => validateMsg (verdict e v msg)) <$> inline in
  let bad := hasSignature (msg_pb msg) && mustVerify policy && negb (validSignature e (msg_pb msg)) in
  let new := (markSeen (v_now e) (seenMessages st) (idOf gen msg)).2 in
  if bad then
    err = ValidationError RejectInvalidSignature /\ sendMsg st' = sendMsg st /\ active (val st') = active (val st)
  else if negb new then err = NoError /\ sendMsg st' = sendMsg st /\ active (val st') = active (val st)
  else if bool_decide (async = []) then
    err = inlineError results
    /\ sendMsg st' = sendMsg st ++ (if allAccept results then [msg] else []) /\ active (val st') = active (val st)
  else if bool_decide (ValidationReject ∈ results) then
    err = ValidationError RejectValidationFailed /\ sendMsg st' = sendMsg st /\ active (val st') = active (val st)
  else if Z.of_nat (length (active (val st))) <? validateThrottle (val st) then
    err = NoError /\ sendMsg st' = sendMsg st
    /\ exists t, active (val st') = active (val st) ++ [t] /\ t_msg t = msg
       /\ forall e2 st2, venv_ok e2 -> sendMsg (doValidateBitmask e2 st2 t)
            = sendMsg st2 ++ (if allAccept results && allAccept (answer e2 msg <$> async) then [msg] else [])
  else
    err = NoError /\ sendMsg st' = sendMsg st /\ active (val st') = active (val st)
    /\ tr st' = tr st ++ [TrValidate msg; TrReject msg RejectValidationThrottled].
Proof.
  cbn zeta. unfold validate. destruct (_ && _ && _) eqn:Eb; [done|].
  destruct (markSeen _ _ _) as [c new]. cbn [snd]. destruct new; cbn [negb]; [|done].
  rewrite inlineResult_worst, worst_accept_cons, allAccept_worst by done.
  pose proof (inline_not_throttled e msg (filter (fun v => validateInline v || sync = true) vals)) as Hr.
  set (rs := (fun v => validateMsg (verdict e v msg)) <$> filter (fun v => validateInline v || sync = true) vals) in *.
  set (asy := filter (fun v => validateInline v || sync = false) vals).
  rewrite (bool_decide_ext (ValidationReject ∈ rs) (worst rs = ValidationReject)) by (symmetry; apply worst_reject).
  rewrite (inlineError_worst rs Hr). case_bool_decide as Ha; [rewrite Ha; by destruct (worst rs); simpl; rewrite ?app_nil_r|].
  destruct asy as [|v asy'] eqn:Ea; [done|]. rewrite <- Ea.
  destruct (worst rs) eqn:Ew; [|done| |done]; (rewrite bool_decide_false by done; cbn [val set_seen trace1];
    destruct (_ <? _); [|split_and!; try done; simpl; by rewrite <- app_assoc]; (split; [done|split; [done|]]; eexists; split; [done|split; [done|]];
    intros e2 st2 Eok; by rewrite doValidate_sends)).
Qed.

(** One inline and one asynchronous validator; the asynchronous one accepts, and
    the inline one accepts or ignores. *)
Module ValidationExample.
Definition inl1 : validatorImpl := mkVal [] 1 true.
Definition asy2 : validatorImpl := mkVal [] 2 false.
Definition m : Message := mkMessage (mkPbMessage [] [] [] [] [] []) [Byte.x07] [] false.
Definition gen : msgIDGenerator := newMsgIdGenerator (fun b => b).
Definition env (inlineSays : Z) : venv :=
  mkVenv 0 (fun v _ => if validateInline v then inlineSays else 0) (fun _ => false) (fun _ => true) (fun l => rev l).
Definition st0 : pipeline := mkPipeline newValidation (mkCache ∅ 120) [] [].
Lemma reversed_ok x : venv_ok (env x).
Proof. intros l. symmetry. apply Permutation_rev. Qed.
End ValidationExample.

Lemma validation_verdict_witness :
  let run x := (validate (TC := FirstSeenCache) StrictNoSign ValidationExample.gen (ValidationExample.env x)
    ValidationExample.st0 [ValidationExample.inl1; ValidationExample.asy2] [] ValidationExample.m false).1 in
  exists t u, active (val (run 0)) = [t] /\ active (val (run 2)) = [u]
    /\ sendMsg (doValidateBitmask (ValidationExample.env 0) ValidationExample.st0 t) = [ValidationExample.m]
    /\ sendMsg (doValidateBitmask (ValidationExample.env 0) ValidationExample.st0 u) = [].
Proof.
  pose proof (fun x => validation_verdict (TC := FirstSeenCache) StrictNoSign ValidationExample.gen
    (ValidationExample.env x) ValidationExample.st0 [ValidationExample.inl1; ValidationExample.asy2] []
    ValidationExample.m false) as H.
  destruct (H 0) as (_ & _ & t & Ht & _ & Hs). destruct (H 2) as (_ & _ & u & Hu & _ & Hn).
  exists t, u. split; [exact Ht|]. split; [exact Hu|]. split.
  - etransitivity; [apply (Hs (ValidationExample.env 0)), ValidationExample.reversed_ok|reflexivity].
  - etransitivity; [apply (Hn (ValidationExample.env 0)), ValidationExample.reversed_ok|reflexivity].
Defined.
