(* ===== verification/SeqnoValidator.v ===== *)
(** * The sequence number validator (go-libp2p-blossomsub/validation_builtin.go)

    A message is accepted if its sequence number is greater than the largest one seen
    from its author.  The metadata store is behind an interface: its content is a map,
    and each call may fail.  The check is made twice, the second time under the lock;
    validations of several messages may be interleaved between the two. *)
From Stdlib Require Import ZArith Lia.
From stdpp Require Import base tactics list numbers option gmap sets fin_maps relations sorting.
From S2P Require Import Prelude Collections GoBytes BlsRpc Validation.
Local Open Scope Z_scope.
Local Open Scope outcome_scope.

(** [binary.BigEndian.Uint64] panics on fewer than eight bytes *)
Definition Uint64 (b : bytes) : outcome unit Z := if (length b <? 8)%nat then Panic else Ok (BigEndianGet (take 8 b)).
Definition PutUint64 (v : Z) : bytes := BigEndianPut 8 v.
(** The number in a slice, or the value the variable had *)
Definition numberOf (old : Z) (b : bytes) : outcome unit Z := match b with [] => Ok old | _ => Uint64 b end.

Abbreviation MetaStore := (gmap PeerID bytes).
(** [Get]; [fails] says whether the call fails *)
Definition Get (meta : MetaStore) (fails : bool) (p : PeerID) : option bytes := if fails then None else Some (default [] (meta !! p)).
Definition Put (meta : MetaStore) (fails : bool) (p : PeerID) (b : bytes) : MetaStore := if fails then meta else <[p := b]> meta.

(** The first part of [validate]: a verdict, or the nonce and the sequence number to go on with *)
Definition validateFirst (meta : MetaStore) (getFails : bool) (p : PeerID) (seqnoBytes : bytes) : outcome unit (ValidationResult + Z * Z) :=
  match Get meta getFails p with
  | None => Ok (inl ValidationIgnore)
  | Some nonceBytes =>
      let! nonce := numberOf 0 nonceBytes in
      let! seqno := numberOf 0 seqnoBytes in
      Ok (if seqno <=? nonce then inl ValidationIgnore else inr (nonce, seqno))
  end.
(** The second part, under the lock *)
Definition validateSecond (meta : MetaStore) (getFails putFails : bool) (p : PeerID) (nonce seqno : Z) : outcome unit (ValidationResult * MetaStore) :=
  match Get meta getFails p with
  | None => Ok (ValidationIgnore, meta)
  | Some nonceBytes =>
      let! nonce := numberOf nonce nonceBytes in
      Ok (if seqno <=? nonce then (ValidationIgnore, meta) else (ValidationAccept, Put meta putFails p (PutUint64 seqno)))
  end.

(** ** Interleavings *)
(** A validation between its two parts *)
Record valRun := mkVal { v_peer : PeerID; v_nonce : Z; v_seqno : Z }.
(** An accepted message: its number, and whether the write of it succeeded *)
Record acceptance := mkAcc { a_peer : PeerID; a_seqno : Z; a_stored : bool }.
Record valWorld := mkValWorld { meta : MetaStore; running : gmap nat valRun; accepted : list acceptance }.
Definition emptyStore : valWorld := mkValWorld ∅ ∅ [].
(** Any read and any write of the store may fail. *)
Inductive valStep : valWorld -> valWorld -> Prop :=
| v_first w i getFails p seqnoBytes nonce seqno : running w !! i = None -> validateFirst (meta w) getFails p seqnoBytes = Ok (inr (nonce, seqno)) ->
    valStep w (mkValWorld (meta w) (<[i := mkVal p nonce seqno]> (running w)) (accepted w))
| v_second w i v getFails putFails res meta' : running w !! i = Some v ->
    validateSecond (meta w) getFails putFails (v_peer v) (v_nonce v) (v_seqno v) = Ok (res, meta') ->
    valStep w (mkValWorld meta' (delete i (running w))
      (if decide (res = ValidationAccept) then accepted w ++ [mkAcc (v_peer v) (v_seqno v) (negb putFails)] else accepted w)).

(** The messages accepted from a peer, in order, and the numbers of those that were stored *)
Definition acceptedFrom (w : valWorld) (p : PeerID) : list acceptance := filter (fun a => a_peer a = p) (accepted w).
Definition stored (l : list acceptance) : list Z := a_seqno <$> filter (fun a => a_stored a = true) l.
(** What is accepted after a message whose number was stored has a greater number. *)
Definition supersedes (a b : acceptance) : Prop := a_stored a = true -> a_seqno a < a_seqno b.
Definition uint64 (n : Z) : Prop := 0 <= n < 2 ^ 64.
Record valInv (w : valWorld) : Prop := {
  vi_store p : meta w !! p = PutUint64 <$> last (stored (acceptedFrom w p));
  vi_sorted p : StronglySorted supersedes (acceptedFrom w p);
  vi_max p n : n ∈ stored (acceptedFrom w p) -> exists m, last (stored (acceptedFrom w p)) = Some m /\ n <= m;
  vi_range p a : a ∈ acceptedFrom w p -> uint64 (a_seqno a) /\ 0 < a_seqno a;
  vi_running i v : running w !! i = Some v -> uint64 (v_seqno v) /\ uint64 (v_nonce v) /\ v_nonce v < v_seqno v }.

Lemma Uint64_range b n : Uint64 b = Ok n -> uint64 n.
Proof.
  unfold Uint64. destruct (length b <? 8)%nat eqn:E; [done|]. intros [= <-]. assert (H : forall l : bytes, 0 <= BigEndianGet l < 256 ^ Z.of_nat (length l)).
  { induction l as [|c l IH] using rev_ind; [done|]. rewrite BigEndianGet_snoc, length_app. simpl. replace (length l + 1)%nat with (S (length l)) by lia.
    rewrite Nat2Z.inj_succ, Z.pow_succ_r by lia. pose proof (b2z_range c). nia. }
  specialize (H (take 8 b)). apply Nat.ltb_ge in E. rewrite length_take, Nat.min_l in H by lia. exact H.
Qed.
Lemma numberOf_range old b n : uint64 old -> numberOf old b = Ok n -> uint64 n.
Proof. destruct b; simpl; [by intros ? [= <-]|]. intros _. apply Uint64_range. Qed.
Lemma Uint64_Put n old : uint64 n -> numberOf old (PutUint64 n) = Ok n.
Proof.
  intros H. assert (L : length (PutUint64 n) = 8%nat). { pose proof (BigEndianPut_len 8 n) as L. unfold len in L. unfold PutUint64. lia. }
  assert (E : numberOf old (PutUint64 n) = Uint64 (PutUint64 n)) by (destruct (PutUint64 n); done). rewrite E. unfold Uint64. rewrite L. change (8 <? 8)%nat with false. cbv iota.
  rewrite take_ge by lia. f_equal. by apply BigEndianGet_Put.
Qed.
Lemma acceptedFrom_snoc w p a m r :
  acceptedFrom (mkValWorld m r (accepted w ++ [a])) p = if decide (a_peer a = p) then acceptedFrom w p ++ [a] else acceptedFrom w p.
Proof.
  unfold acceptedFrom. simpl. rewrite filter_app. destruct (decide (a_peer a = p)) as [E|].
  - by rewrite filter_cons_True, filter_nil by done.
  - rewrite filter_cons_False, filter_nil by done. by rewrite app_nil_r.
Qed.
Lemma stored_snoc l a : stored (l ++ [a]) = if a_stored a then stored l ++ [a_seqno a] else stored l.
Proof.
  unfold stored. rewrite filter_app. destruct (a_stored a) eqn:E.
  - rewrite filter_cons_True, filter_nil by done. by rewrite fmap_app.
  - rewrite filter_cons_False, filter_nil by congruence. by rewrite app_nil_r.
Qed.
Lemma stored_elem l n : n ∈ stored l <-> exists a, a ∈ l /\ a_stored a = true /\ a_seqno a = n.
Proof. unfold stored. rewrite list_elem_of_fmap. setoid_rewrite list_elem_of_filter. naive_solver. Qed.
Lemma sorted_snoc {A} (R : A -> A -> Prop) l a : StronglySorted R l -> Forall (fun b => R b a) l -> StronglySorted R (l ++ [a]).
Proof.
  induction l as [|b l IH]; intros Hs Hl; [repeat constructor|]. apply StronglySorted_inv in Hs as [Hs Hb]. apply Forall_cons in Hl as [Hba Hl].
  simpl. constructor; [by apply IH|]. apply Forall_app. by repeat constructor.
Qed.
(** The nonce that the second part compares with is the last number stored, and so the greatest. *)
Lemma nonce_greatest w p old n : valInv w -> numberOf old (default [] (meta w !! p)) = Ok n -> forall m, m ∈ stored (acceptedFrom w p) -> m <= n.
Proof.
  intros O H m Hm. destruct (vi_max _ O p m Hm) as (k & Hk & Hle). rewrite (vi_store _ O p), Hk in H.
  cbn [fmap option_fmap option_map default from_option id] in H. rewrite Uint64_Put in H; [by injection H as <-|].
  apply last_Some_elem_of, stored_elem in Hk as (a & Ha & _ & <-). by apply (vi_range _ O p).
Qed.
(** A number greater than the nonce is accepted. *)
Lemma accept_ok w i v n putFails : valInv w -> running w !! i = Some v -> n < v_seqno v ->
  (forall m, m ∈ stored (acceptedFrom w (v_peer v)) -> m <= n) -> 0 <= n ->
  valInv (mkValWorld (Put (meta w) putFails (v_peer v) (PutUint64 (v_seqno v))) (delete i (running w))
    (accepted w ++ [mkAcc (v_peer v) (v_seqno v) (negb putFails)])).
Proof.
  intros O Hi Hlt Hmax Hn. destruct (vi_running _ O i v Hi) as (U1 & U2 & U3).
  split; [intros p; rewrite acceptedFrom_snoc; cbn [a_peer]..|].
  - simpl. destruct (decide (v_peer v = p)) as [<-|Hp]; [|rewrite <- (vi_store _ O p); unfold Put; destruct putFails; [done|by rewrite lookup_insert_ne]].
    rewrite stored_snoc. unfold Put. destruct putFails; cbn [a_stored negb]; [apply (vi_store _ O)|]. by rewrite lookup_insert_eq, last_snoc.
  - destruct (decide (v_peer v = p)) as [<-|]; [|apply O]. apply sorted_snoc; [apply O|]. apply Forall_forall. intros a Ha Hs. simpl.
    apply Z.le_lt_trans with n; [|done]. apply Hmax, stored_elem. eauto.
  - intros m. destruct (decide (v_peer v = p)) as [<-|]; [|apply (vi_max _ O)]. rewrite stored_snoc. destruct putFails; cbn [a_stored a_seqno negb]; [apply (vi_max _ O)|].
    rewrite last_snoc. intros [H%Hmax| ->%list_elem_of_singleton]%elem_of_app; eexists; (split; [done|lia]).
  - intros a. destruct (decide (v_peer v = p)) as [<-|]; [|apply (vi_range _ O)]. intros [H| ->%list_elem_of_singleton]%elem_of_app; [by apply (vi_range _ O) in H|].
    simpl. split; [done|lia].
  - intros j v'. cbn [running]. intros [_ H]%lookup_delete_Some. by apply (vi_running _ O j).
Qed.
Lemma ended_ok w i : valInv w -> valInv (mkValWorld (meta w) (delete i (running w)) (accepted w)).
Proof. intros [V1 V2 V3 V4 V5]. split; try done. intros j v'. cbn [running]. intros [_ H]%lookup_delete_Some. by apply (V5 j). Qed.
Lemma valStep_ok w w' : valInv w -> valStep w w' -> valInv w'.
Proof.
  intros O H. revert O. destruct H as [w i gf p sb nonce seqno Hi Hf|w i v gf pf res meta' Hi Hs]; intros O.
  - destruct O as [V1 V2 V3 V4 V5]. split; [done..|]. intros j v. simpl. destruct (decide (j = i)) as [->|]; [|rewrite lookup_insert_ne by done; apply V5].
    rewrite lookup_insert_eq. intros [= <-]. simpl. unfold validateFirst, Get in Hf. destruct gf; [done|].
    destruct (numberOf 0 (default [] (meta w !! p))) as [n| | |] eqn:En; try done. simpl in Hf. destruct (numberOf 0 sb) as [q| | |] eqn:Eq; try done. simpl in Hf.
    destruct (q <=? n) eqn:E; [done|]. injection Hf as -> ->. assert (U0 : uint64 0) by done.
    split_and!; [by eapply numberOf_range|by eapply numberOf_range|lia].
  - unfold validateSecond, Get in Hs. destruct (vi_running _ O i v Hi) as (U1 & U2 & U3). destruct gf; [injection Hs as <- <-; by apply ended_ok|].
    destruct (numberOf (v_nonce v) _) as [n| | |] eqn:En; try done. simpl in Hs. destruct (v_seqno v <=? n) eqn:E; [injection Hs as <- <-; by apply ended_ok|].
    injection Hs as <- <-. rewrite decide_True by done. pose proof (nonce_greatest w _ _ _ O En) as Hmax. pose proof (numberOf_range _ _ _ U2 En) as [Un _].
    apply (accept_ok w i v n); done || lia.
Qed.

Lemma all_stored_sorted l : StronglySorted supersedes l -> Forall (fun a => a_stored a = true) l -> StronglySorted Z.lt (a_seqno <$> l).
Proof.
  induction 1 as [|a l Hs IH Ha]; intros Hl; [constructor|]. apply Forall_cons in Hl as [H1 H2]. simpl. constructor; [by apply IH|].
  apply Forall_fmap. eapply Forall_impl; [exact Ha|]. intros b Hb. by apply Hb.
Qed.

(** C35: No replay is accepted once its number is stored.  However validations of messages are interleaved and whichever
    reads and writes of the store fail: once the number of an accepted message is written, only greater numbers are
    accepted from its author, and the store holds the last number written, the greatest; so as long as no write fails
    the numbers accepted from a peer are strictly increasing, and no message is accepted twice.  (When the write fails
    the message is accepted all the same, and again: [failed_put_replays].) *)
Theorem no_replay_accepted w : rtc valStep emptyStore w -> forall p,
  StronglySorted supersedes (acceptedFrom w p)
  /\ Forall (fun a => 0 < a_seqno a < 2 ^ 64) (acceptedFrom w p)
  /\ meta w !! p = PutUint64 <$> last (stored (acceptedFrom w p))
  /\ (Forall (fun a => a_stored a = true) (acceptedFrom w p) -> StronglySorted Z.lt (a_seqno <$> acceptedFrom w p)).
Proof.
  intros R p. assert (O : valInv w).
  { assert (G : forall a b, rtc valStep a b -> valInv a -> valInv b) by (induction 1; eauto using valStep_ok). apply (G _ _ R).
    split; unfold acceptedFrom, stored; simpl; [done|constructor|by intros ? ? ?%elem_of_nil|by intros ? ? ?%elem_of_nil|done]. }
  split_and!; [apply O| |apply O|apply all_stored_sorted, O]. apply Forall_forall. intros n Hn. destruct (vi_range _ O p n Hn) as [[? ?] ?]. lia.
Qed.

(** A sequence number of one to seven bytes makes the validator panic. *)
Lemma short_seqno_panics m p b : Get m false p = Some [] -> (0 < length b < 8)%nat -> validateFirst m false p b = Panic.
Proof.
  intros Hg [H0 H8]. unfold validateFirst. rewrite Hg. simpl. destruct b as [|c b]; [simpl in H0; lia|]. unfold numberOf, Uint64.
  destruct (_ <? 8)%nat eqn:E; [done|]. apply Nat.ltb_ge in E. lia.
Qed.
(** When a write fails the message is accepted all the same, and again when it is replayed. *)
Lemma failed_put_replays p n : uint64 n -> 0 < n -> exists m, validateSecond ∅ false true p 0 n = Ok (ValidationAccept, m) /\ validateSecond m false true p 0 n = Ok (ValidationAccept, m).
Proof.
  intros _ Hn. exists ∅. unfold validateSecond, Get. rewrite lookup_empty. simpl. destruct (n <=? 0) eqn:E; [lia|done].
Qed.

Module SeqnoExample.
Definition author : PeerID := [Byte.x01].
Definition number (n : Z) : bytes := PutUint64 n.
(** Three validations of the same message, all past the first check; the write of the first one fails. *)
Definition run : valRun := mkVal author 0 5.
Definition v1 : valWorld := mkValWorld ∅ {[0%nat := run]} [].
Definition v2 : valWorld := mkValWorld ∅ (<[1%nat := run]> (running v1)) [].
Definition v3 : valWorld := mkValWorld ∅ (<[2%nat := run]> (running v2)) [].
Definition v4 : valWorld := mkValWorld ∅ (delete 0%nat (running v3)) [mkAcc author 5 false].
Definition v5 : valWorld := mkValWorld {[author := PutUint64 5]} (delete 1%nat (running v4)) (accepted v4 ++ [mkAcc author 5 true]).
Definition v6 : valWorld := mkValWorld (meta v5) (delete 2%nat (running v5)) (accepted v5).
Lemma val_run6 : rtc valStep emptyStore v6.
Proof.
  eapply rtc_l; [by apply (v_first emptyStore 0 false author (number 5) 0 5)|]. eapply rtc_l; [by apply (v_first v1 1 false author (number 5) 0 5)|].
  eapply rtc_l; [by apply (v_first v2 2 false author (number 5) 0 5)|].
  eapply rtc_l; [by apply (v_second v3 0 run false true ValidationAccept (meta v4))|].
  eapply rtc_l; [by apply (v_second v4 1 run false false ValidationAccept (meta v5))|].
  eapply rtc_l; [by apply (v_second v5 2 run false false ValidationIgnore (meta v5))|constructor].
Qed.
End SeqnoExample.
Import SeqnoExample.
Lemma no_replay_accepted_witness : a_seqno <$> acceptedFrom v6 author = [5; 5] /\ stored (acceptedFrom v6 author) = [5]
  /\ StronglySorted supersedes (acceptedFrom v6 author) /\ meta v6 !! author = Some (number 5).
Proof.
  split; [vm_compute; reflexivity|]. split; [vm_compute; reflexivity|].
  destruct (no_replay_accepted v6 val_run6 author) as (H1 & _ & H3 & _). split; [exact H1|]. etransitivity; [exact H3|vm_compute; reflexivity].
Defined.
