(* ===== verification/PubSub.v ===== *)
(** * The event loop of PubSub (go-libp2p-blossomsub/pubsub.go, bitmask.go, comm.go)

    [PubSub] owns the subscriptions, the relays, the peers and the pipeline of
    messages, and drives the router.  Its event loop runs one handler at a time;
    every handler is a function here.  The router's state holds the maps of
    [PubSub] that the router reads: the subscribers of a bitmask ([bitmasks]) and
    the peers with a queue ([queues], the field [peers] of [PubSub]). *)
From Stdlib Require Import ZArith Lia Floats.SpecFloat.
From stdpp Require Import base tactics list numbers option gmap sets fin_maps.
From S2P Require Import Prelude GoBytes Bitmask BlsRpc MessageCache Router Heartbeat TimeCache GossipTracer PeerBackoff SubFilter Validation.
Local Open Scope Z_scope.

(** ** Event handlers of a bitmask (bitmask.go) *)
Inductive EventType := PeerJoin | PeerLeave.
#[export] Instance EventType_eq_dec : EqDecision EventType.
Proof. solve_decision. Defined.

(** [told] is not in the code: the peers that the application has been told of. *)
Record BitmaskEventHandler := mkHandler { evtLog : gmap PeerID EventType; told : gset PeerID }.

Definition addToEventLog (h : BitmaskEventHandler) (ty : EventType) (p : PeerID) : BitmaskEventHandler :=
  match evtLog h !! p with
  | None => mkHandler (<[p := ty]> (evtLog h)) (told h)
  | Some ev => if decide (ev = ty) then h else mkHandler (delete p (evtLog h)) (told h)
  end.
(** The event that [NextPeerEvent] returns for the peer [k] that the range over the map gives *)
Definition pullFromEventLog (h : BitmaskEventHandler) (k : PeerID) : option (BitmaskEventHandler * EventType) :=
  match evtLog h !! k with
  | None => None
  | Some ty => Some (mkHandler (delete k (evtLog h))
                       (match ty with PeerJoin => {[k]} ∪ told h | PeerLeave => told h ∖ {[k]} end), ty)
  end.

(** ** State *)
Record PubSub := mkPubSub {
  rt : BlossomSubRouter;
  pl : pipeline;
  mySubs : gmap bytes (gset nat) (** subscriptions *);
  myRelays : gmap bytes Z;
  myBitmasks : gmap bytes (gmap nat BitmaskEventHandler);
  newPeersPend : gset PeerID;
  peerDeadPend : gset PeerID;
  blacklist : gset PeerID;
  deadPeerBackoff : PeerBackoff.backoff;
  retries : list (PeerID * bytes * bool) (** goroutines of [announceRetry] *);
  advertised : list (bytes * bool) (** calls of [disc.Advertise] and [disc.StopAdvertise] *);
  deliveries : list (nat * Message) (** messages put into the channels of subscriptions *) }.

Definition set_rt (ps : PubSub) (x : BlossomSubRouter) : PubSub :=
  mkPubSub x (pl ps) (mySubs ps) (myRelays ps) (myBitmasks ps) (newPeersPend ps) (peerDeadPend ps) (blacklist ps) (deadPeerBackoff ps) (retries ps) (advertised ps) (deliveries ps).
Definition set_pl (ps : PubSub) (x : pipeline) : PubSub :=
  mkPubSub (rt ps) x (mySubs ps) (myRelays ps) (myBitmasks ps) (newPeersPend ps) (peerDeadPend ps) (blacklist ps) (deadPeerBackoff ps) (retries ps) (advertised ps) (deliveries ps).
Definition set_mySubs (ps : PubSub) (x : gmap bytes (gset nat)) : PubSub :=
  mkPubSub (rt ps) (pl ps) x (myRelays ps) (myBitmasks ps) (newPeersPend ps) (peerDeadPend ps) (blacklist ps) (deadPeerBackoff ps) (retries ps) (advertised ps) (deliveries ps).
Definition set_myRelays (ps : PubSub) (x : gmap bytes Z) : PubSub :=
  mkPubSub (rt ps) (pl ps) (mySubs ps) x (myBitmasks ps) (newPeersPend ps) (peerDeadPend ps) (blacklist ps) (deadPeerBackoff ps) (retries ps) (advertised ps) (deliveries ps).
Definition set_myBitmasks (ps : PubSub) (x : gmap bytes (gmap nat BitmaskEventHandler)) : PubSub :=
  mkPubSub (rt ps) (pl ps) (mySubs ps) (myRelays ps) x (newPeersPend ps) (peerDeadPend ps) (blacklist ps) (deadPeerBackoff ps) (retries ps) (advertised ps) (deliveries ps).
Definition set_newPeersPend (ps : PubSub) (x : gset PeerID) : PubSub :=
  mkPubSub (rt ps) (pl ps) (mySubs ps) (myRelays ps) (myBitmasks ps) x (peerDeadPend ps) (blacklist ps) (deadPeerBackoff ps) (retries ps) (advertised ps) (deliveries ps).
Definition set_peerDeadPend (ps : PubSub) (x : gset PeerID) : PubSub :=
  mkPubSub (rt ps) (pl ps) (mySubs ps) (myRelays ps) (myBitmasks ps) (newPeersPend ps) x (blacklist ps) (deadPeerBackoff ps) (retries ps) (advertised ps) (deliveries ps).
Definition set_blacklist (ps : PubSub) (x : gset PeerID) : PubSub :=
  mkPubSub (rt ps) (pl ps) (mySubs ps) (myRelays ps) (myBitmasks ps) (newPeersPend ps) (peerDeadPend ps) x (deadPeerBackoff ps) (retries ps) (advertised ps) (deliveries ps).
Definition set_deadPeerBackoff (ps : PubSub) (x : PeerBackoff.backoff) : PubSub :=
  mkPubSub (rt ps) (pl ps) (mySubs ps) (myRelays ps) (myBitmasks ps) (newPeersPend ps) (peerDeadPend ps) (blacklist ps) x (retries ps) (advertised ps) (deliveries ps).
Definition set_retries (ps : PubSub) (x : list (PeerID * bytes * bool)) : PubSub :=
  mkPubSub (rt ps) (pl ps) (mySubs ps) (myRelays ps) (myBitmasks ps) (newPeersPend ps) (peerDeadPend ps) (blacklist ps) (deadPeerBackoff ps) x (advertised ps) (deliveries ps).
Definition set_advertised (ps : PubSub) (x : list (bytes * bool)) : PubSub :=
  mkPubSub (rt ps) (pl ps) (mySubs ps) (myRelays ps) (myBitmasks ps) (newPeersPend ps) (peerDeadPend ps) (blacklist ps) (deadPeerBackoff ps) (retries ps) x (deliveries ps).
Definition set_deliveries (ps : PubSub) (x : list (nat * Message)) : PubSub :=
  mkPubSub (rt ps) (pl ps) (mySubs ps) (myRelays ps) (myBitmasks ps) (newPeersPend ps) (peerDeadPend ps) (blacklist ps) (deadPeerBackoff ps) (retries ps) (advertised ps) x.

(** ** Configuration and environment *)
Record psConfig := mkPsConfig {
  rc : config;
  signPolicy : Z;
  signID : bytes;
  subFilter : option SubscriptionFilter }.

Record psEnv := mkPsEnv {
  re : env;
  ve : venv;
  connected : PeerID -> bool;        (** [host.Network().Connectedness(pid) == network.Connected] *)
  gate : PeerID -> AcceptStatus;     (** [bs.gate.AcceptFrom] *)
  inspect : RPC -> bool;             (** [appSpecificRpcInspector], true when there is none *)
  jitter : Z;                        (** [rand.Intn] of the backoff *)
  subRoom : nat -> bool }.           (** the channel of a subscription has room *)

Definition subsOf (ps : PubSub) (b : bytes) : gset nat := default ∅ (mySubs ps !! b).
Definition relaysOf (ps : PubSub) (b : bytes) : Z := default 0 (myRelays ps !! b).
Definition subscribersOf (ps : PubSub) (b : bytes) : gset PeerID := at_ (bitmasks (rt ps)) b.

Section pubsub.
Context `{PS : ProtoSize} `{SS : SortSlice} `{TC : TimeCache} (cfg : psConfig) (e : psEnv).
Local Abbreviation now_ := (now (re e)).

(** ** Peers' subscriptions *)
Definition notify (ps : PubSub) (ty : EventType) (bitmask : bytes) (p : PeerID) : PubSub :=
  match myBitmasks ps !! bitmask with
  | None => ps
  | Some hs => set_myBitmasks ps (<[bitmask := (fun h => addToEventLog h ty p) <$> hs]> (myBitmasks ps))
  end.
Definition notifyLeave (ps : PubSub) (bitmask : bytes) (p : PeerID) : PubSub := notify ps PeerLeave bitmask p.

Definition setSubscribers (ps : PubSub) (b : bytes) (X : gset PeerID) : PubSub :=
  set_rt ps (set_bitmasks (rt ps) (<[b := X]> (bitmasks (rt ps)))).

(** The body of the loop over the notifications of an RPC *)
Definition subscriptionStep (from : PeerID) (ps : PubSub) (subopt : SubOpts) : PubSub :=
  let t := so_bitmask subopt in
  if negb (peerFilter (rc cfg) from t) then ps
  else if Subscribe subopt then
    let tmap := subscribersOf ps t in
    if bool_decide (from ∈ tmap) then ps
    else notify (setSubscribers ps t ({[from]} ∪ tmap)) PeerJoin t from
  else
    match bitmasks (rt ps) !! t with
    | None => ps
    | Some tmap =>
        if bool_decide (from ∈ tmap) then notifyLeave (setSubscribers ps t (tmap ∖ {[from]})) t from else ps
    end.

(** A peer that is gone, in [handleDeadPeers] and for the blacklist: his queue,
    his subscriptions and his place in the router *)
Definition dropPeer (ps : PubSub) (pid : PeerID) : PubSub :=
  let ps := set_rt ps (set_queues (rt ps) (queues (rt ps) ∖ {[pid]})) in
  let ps := foldl (fun ps t =>
    let tmap := subscribersOf ps t in
    if bool_decide (pid ∈ tmap) then notifyLeave (setSubscribers ps t (tmap ∖ {[pid]})) t pid else ps)
    ps (iter (re e) ([pid], 40%nat) (dom (bitmasks (rt ps)))) in
  set_rt ps (RemovePeer (re e) (rt ps) pid).

(** ** Announcements *)
(** The interests that [getHelloPacket] lists, in the order of a range over the map *)
Definition getHelloPacket (s : site) (ps : PubSub) : RPC :=
  rpcWithSubs ((fun t => mkSubOpts true t) <$> iter (re e) s (dom (mySubs ps) ∪ dom (myRelays ps))).

(** [TryPush] of an announcement; a failure is retried by a goroutine. *)
Definition announceTo (bitmask : bytes) (sub : bool) (ps : PubSub) (pid : PeerID) : PubSub :=
  let out := rpcWithSubs [mkSubOpts sub bitmask] in
  if room (re e) (trace (rt ps)) pid
  then set_rt ps (emit (rt ps) [EvSendRPC pid out false])
  else set_retries (set_rt ps (emit (rt ps) [EvDropRPC pid out])) (retries ps ++ [(pid, bitmask, sub)]).
Definition announce (ps : PubSub) (bitmask : bytes) (sub : bool) : PubSub :=
  foldl (announceTo bitmask sub) ps (iter (re e) ([bitmask], 41%nat) (queues (rt ps))).

Definition doAnnounceRetry (ps : PubSub) (pid : PeerID) (bitmask : bytes) (sub : bool) : PubSub :=
  if bool_decide (pid ∈ queues (rt ps)) then announceTo bitmask sub ps pid else ps.
(** The thunk of a goroutine of [announceRetry]: the [i]th *)
Definition announceRetry (ps : PubSub) (i : nat) : option PubSub :=
  r ← retries ps !! i;
  let '(pid, bitmask, sub) := r in
  let ps := set_retries ps (delete i (retries ps)) in
  let ok := bool_decide (is_Some (mySubs ps !! bitmask)) || bool_decide (is_Some (myRelays ps !! bitmask)) in
  Some (if (ok && sub) || (negb ok && negb sub) then doAnnounceRetry ps pid bitmask sub else ps).

(** ** Peers *)
(** A queue for a peer, with the hello packet in it *)
Definition newQueue (ps : PubSub) (pid : PeerID) : PubSub :=
  let bs := emit (rt ps) [EvSendRPC pid (getHelloPacket ([pid], 42%nat) ps) true] in
  set_rt ps (set_queues bs ({[pid]} ∪ queues bs)).

Definition handlePendingPeers (ps : PubSub) : PubSub :=
  let newPeers := newPeersPend ps in
  foldl (fun ps pid =>
    if negb (connected e pid) then ps
    else if bool_decide (pid ∈ queues (rt ps)) then ps
    else if bool_decide (pid ∈ blacklist ps) then ps
    else newQueue ps pid)
    (set_newPeersPend ps ∅) (iter (re e) ([], 43%nat) newPeers).

Definition handleDeadPeers (ps : PubSub) : PubSub :=
  let deadPeers := peerDeadPend ps in
  foldl (fun ps pid =>
    if negb (bool_decide (pid ∈ queues (rt ps))) then ps
    else
      let ps := dropPeer ps pid in
      if connected e pid then
        let '(b, r) := updateAndGet now_ (jitter e) (deadPeerBackoff ps) pid in
        let ps := set_deadPeerBackoff ps b in
        match r with None => ps | Some _ => newQueue ps pid end
      else ps)
    (set_peerDeadPend ps ∅) (iter (re e) ([], 44%nat) deadPeers).

Definition newPeerStream (ps : PubSub) (pid : PeerID) (proto : bytes) : PubSub :=
  if negb (bool_decide (pid ∈ queues (rt ps))) then ps
  else if bool_decide (pid ∈ blacklist ps) then set_rt ps (set_queues (rt ps) (queues (rt ps) ∖ {[pid]}))
  else set_rt ps (AddPeer (re e) (rt ps) pid proto).

Definition newPeerError (ps : PubSub) (pid : PeerID) : PubSub :=
  set_rt ps (set_queues (rt ps) (queues (rt ps) ∖ {[pid]})).

Definition blacklistPeer (ps : PubSub) (pid : PeerID) : PubSub :=
  let ps := set_blacklist ps ({[pid]} ∪ blacklist ps) in
  if bool_decide (pid ∈ queues (rt ps)) then dropPeer ps pid else ps.

Definition notifyNewPeer (ps : PubSub) (pid : PeerID) : PubSub := set_newPeersPend ps ({[pid]} ∪ newPeersPend ps).
Definition notifyPeerDead (ps : PubSub) (pid : PeerID) : PubSub := set_peerDeadPend ps ({[pid]} ∪ peerDeadPend ps).

(** ** Our subscriptions and relays *)
Definition join (ps : PubSub) (bitmask : bytes) : PubSub :=
  let ps := set_advertised ps (advertised ps ++ [(bitmask, true)]) in
  let ps := announce ps bitmask true in
  set_rt ps (Router.Join (rc cfg) (re e) (rt ps) bitmask).
Definition leave (ps : PubSub) (bitmask : bytes) : PubSub :=
  let ps := set_advertised ps (advertised ps ++ [(bitmask, false)]) in
  let ps := announce ps bitmask false in
  set_rt ps (Leave (rc cfg) (re e) (rt ps) bitmask).

Definition handleAddSubscription (ps : PubSub) (bitmask : bytes) (sub : nat) : PubSub :=
  let ps := if bool_decide (subsOf ps bitmask = ∅) && (relaysOf ps bitmask =? 0) then join ps bitmask else ps in
  set_mySubs ps (<[bitmask := {[sub]} ∪ subsOf ps bitmask]> (mySubs ps)).

Definition handleRemoveSubscription (ps : PubSub) (bitmask : bytes) (sub : nat) : PubSub :=
  match mySubs ps !! bitmask with
  | None => ps
  | Some subs =>
      let subs := subs ∖ {[sub]} in
      if bool_decide (subs = ∅) then
        let ps := set_mySubs ps (delete bitmask (mySubs ps)) in
        if relaysOf ps bitmask =? 0 then leave ps bitmask else ps
      else set_mySubs ps (<[bitmask := subs]> (mySubs ps))
  end.

Definition handleAddRelay (ps : PubSub) (bitmask : bytes) : PubSub :=
  let ps := set_myRelays ps (<[bitmask := relaysOf ps bitmask + 1]> (myRelays ps)) in
  if (relaysOf ps bitmask =? 1) && bool_decide (subsOf ps bitmask = ∅) then join ps bitmask else ps.

Definition handleRemoveRelay (ps : PubSub) (bitmask : bytes) : PubSub :=
  if relaysOf ps bitmask =? 0 then ps
  else
    let ps := set_myRelays ps (<[bitmask := relaysOf ps bitmask - 1]> (myRelays ps)) in
    if relaysOf ps bitmask =? 0 then
      let ps := set_myRelays ps (delete bitmask (myRelays ps)) in
      if bool_decide (subsOf ps bitmask = ∅) then leave ps bitmask else ps
    else ps.

Definition handleAddBitmask (ps : PubSub) (bitmask : bytes) : PubSub :=
  match myBitmasks ps !! bitmask with
  | Some _ => ps
  | None => set_myBitmasks ps (<[bitmask := ∅]> (myBitmasks ps))
  end.
(** The flag says that there is no error. *)
Definition handleRemoveBitmask (ps : PubSub) (bitmask : bytes) : PubSub * bool :=
  match myBitmasks ps !! bitmask with
  | None => (ps, true)
  | Some hs =>
      if bool_decide (hs = ∅) && bool_decide (subsOf ps bitmask = ∅) && (relaysOf ps bitmask =? 0)
      then (set_myBitmasks ps (delete bitmask (myBitmasks ps)), true)
      else (ps, false)
  end.

(** [EventHandler]: the thunk that makes the handler [id] *)
Definition addEventHandler (ps : PubSub) (bitmask : bytes) (id : nat) : PubSub :=
  match myBitmasks ps !! bitmask with
  | None => ps
  | Some hs =>
      let h := mkHandler (gset_to_gmap PeerJoin (subscribersOf ps bitmask)) ∅ in
      set_myBitmasks ps (<[bitmask := <[id := h]> hs]> (myBitmasks ps))
  end.
(** [Cancel] and [NextPeerEvent] of a handler *)
Definition cancelHandler (ps : PubSub) (bitmask : bytes) (id : nat) : PubSub :=
  match myBitmasks ps !! bitmask with
  | None => ps
  | Some hs => set_myBitmasks ps (<[bitmask := delete id hs]> (myBitmasks ps))
  end.
Definition nextPeerEvent (ps : PubSub) (bitmask : bytes) (id : nat) (k : PeerID) : option PubSub :=
  hs ← myBitmasks ps !! bitmask;
  h ← hs !! id;
  r ← pullFromEventLog h k;
  Some (set_myBitmasks ps (<[bitmask := <[id := r.1]> hs]> (myBitmasks ps))).

(** ** Messages *)
Definition trace2 (ps : PubSub) (ev : traceEvent) : PubSub := set_pl ps (trace1 (pl ps) ev).

(** [None] is a panic: a bitmask has at least one slice. *)
Definition notifySubs (ps : PubSub) (msg : Message) : option PubSub :=
  slice ← head (SliceBitmask (GetBitmask msg));
  Some (foldl (fun ps f =>
    if subRoom e f then set_deliveries ps (deliveries ps ++ [(f, msg)]) else trace2 ps (TrUndeliverable msg))
    ps (elements (subsOf ps slice))).

Definition publishMessage (ps : PubSub) (msg : Message) : option PubSub :=
  let ps := trace2 ps (TrDeliver msg) in
  ps ← notifySubs ps msg;
  if Local msg then Some ps
  else bs ← PublishMsg (rc cfg) (re e) (rt ps) msg; Some (set_rt ps bs).

Definition subscribedToMsg (ps : PubSub) (msg : pbMessage) : bool :=
  negb (bool_decide (mySubs ps = ∅))
  && forallb (fun slice => bool_decide (is_Some (mySubs ps !! slice))) (SliceBitmask (pm_bitmask msg)).
Definition canRelayMsg (ps : PubSub) (msg : pbMessage) : bool :=
  negb (bool_decide (myRelays ps = ∅))
  && existsb (fun slice => 0 <? relaysOf ps slice) (SliceBitmask (pm_bitmask msg)).

(** The identifier is kept in the message. *)
Definition withID (msg : Message) : Message :=
  mkMessage (msg_pb msg) (idOf (idGen (rc cfg)) msg) (ReceivedFrom msg) (Local msg).

Definition shouldPush (ps : PubSub) (msg : Message) : PubSub * bool :=
  let src := ReceivedFrom msg in
  let self := hostID (rc cfg) in
  if bool_decide (src ∈ blacklist ps) then (trace2 ps (TrReject msg RejectBlacklstedPeer), false)
  else if bool_decide (GetFrom msg ∈ blacklist ps) then (trace2 ps (TrReject msg RejectBlacklistedSource), false)
  else
    match checkSigningPolicy (signPolicy cfg) (signID cfg) (msg_pb msg) with
    | Some reason => (trace2 ps (TrReject msg reason), false)
    | None =>
        if bool_decide (GetFrom msg = self) && negb (bool_decide (src = self))
        then (trace2 ps (TrReject msg RejectSelfOrigin), false)
        else
          let '(c, seen) := seenMessage now_ (seenMessages (pl ps)) (idOf (idGen (rc cfg)) msg) in
          let ps := set_pl ps (set_seen (pl ps) c) in
          if seen then (trace2 ps (TrDuplicate (withID msg)), false) else (ps, true)
    end.

Definition pushMsg (ps : PubSub) (msg : Message) : option PubSub :=
  let '(st, now) := Push (pl ps) (ReceivedFrom msg) msg in
  let ps := set_pl ps st in
  if negb now then Some ps
  else
    let '(c, fresh) := markSeen now_ (seenMessages (pl ps)) (idOf (idGen (rc cfg)) msg) in
    let ps := set_pl ps (set_seen (pl ps) c) in
    if fresh then publishMessage ps msg else Some ps.

(** The messages of an RPC that are pushed *)
Definition filterPublish (ps : PubSub) (from : PeerID) (msgs : list pbMessage) : PubSub * list Message :=
  foldl (fun st pmsg =>
    let '(ps, toPush) := st in
    if negb (subscribedToMsg ps pmsg || canRelayMsg ps pmsg) then (ps, toPush)
    else
      let msg := mkMessage pmsg [] from false in
      let '(ps, ok) := shouldPush ps msg in
      (ps, if ok : bool then toPush ++ [withID msg] else toPush)) (ps, []) msgs.

(** The identifiers that [handleIHave] looks up in the cache *)
Definition ihaveLookups (bs : BlossomSubRouter) (p : PeerID) (c : ControlMessage) : list bytes :=
  let par := params (rc cfg) in
  if ltF (score (re e) p) (gossipThreshold (rc cfg)) then []
  else if MaxIHaveMessages par <? count (peerhave bs) p + 1 then []
  else if MaxIHaveLength par <=? count (iasked bs) p then []
  else filter (fun h => bool_decide (is_Some (mesh bs !! ih_bitmask h)) && peerFilter (rc cfg) p (ih_bitmask h) = true) (Ihave c)
         ≫= fun h => take (Z.to_nat (MaxIHaveLength par)) (ih_messageIDs h).

(** The environment of the router, with the answers of the cache *)
Definition routerEnv (c : cache) : env :=
  let r := re e in
  mkEnv (now r) (score r) (liveScore r) (fun id => (seenMessage (now r) c id).2) (iter r) (intn r) (room r)
    (peerRecord r) (validRecord r) (broken r) (revisits r) (connsToPeer r).

Definition handleControl (ps : PubSub) (rpc : RPC) : PubSub :=
  let c := seenMessages (pl ps) in
  let lookups := match Control rpc with None => [] | Some ctl => ihaveLookups (rt ps) (rpc_from rpc) ctl end in
  let ps' := set_rt ps (HandleRPC (rc cfg) (routerEnv c) (rt ps) rpc) in
  set_pl ps' (set_seen (pl ps') (foldl (fun c id => (seenMessage now_ c id).1) c lookups)).

Definition handleIncomingRPC (ps : PubSub) (rpc : RPC) : option PubSub :=
  if negb (inspect e rpc) then Some ps
  else
    let ps := trace2 ps (TrRecvRPC rpc) in
    let subs := Subscriptions rpc in
    match (match subFilter cfg with
           | Some f => match subs with [] => Some subs | _ => FilterIncomingSubscriptions f (rpc_from rpc) subs end
           | None => Some subs
           end) with
    | None => Some ps
    | Some subs =>
        let ps := foldl (subscriptionStep (rpc_from rpc)) ps subs in
        match AcceptFrom (rc cfg) (re e) (rt ps) (gate e (rpc_from rpc)) (rpc_from rpc) with
        | AcceptNone => Some ps
        | AcceptControl => Some (handleControl (trace2 ps (TrThrottlePeer (rpc_from rpc))) rpc)
        | AcceptAll =>
            let '(ps, toPush) := filterPublish ps (rpc_from rpc) (Publish rpc) in
            let ps := set_rt ps (PreValidation (rc cfg) (re e) (rt ps) toPush) in
            ps ← foldlM pushMsg ps toPush;
            Some (handleControl ps rpc)
        end
    end.

(** [case msg := <-p.sendMsg] *)
Definition receiveSendMsg (ps : PubSub) : option PubSub :=
  match sendMsg (pl ps) with
  | [] => Some ps
  | msg :: rest => publishMessage (set_pl ps (set_sendMsg (pl ps) rest)) msg
  end.

(** ** The peers of a bitmask *)
Fixpoint inBitmaskLoop (ps : PubSub) (slices : list bytes) (acc : list PeerID) : list PeerID :=
  match slices with
  | [] => acc
  | slice :: slices =>
      match bitmasks (rt ps) !! slice with
      | None => []
      | Some tmap =>
          let peerset := filter (fun p => p ∈ tmap) (iter (re e) ([slice], 45%nat) (queues (rt ps))) in
          match acc with
          | [] => inBitmaskLoop ps slices peerset
          | _ =>
              match filter (fun p => p ∈ peerset) acc with
              | [] => []
              | update => inBitmaskLoop ps slices update
              end
          end
      end
  end.
Definition getPeersInBitmask (ps : PubSub) (bitmask : bytes) : list PeerID :=
  inBitmaskLoop ps (SliceBitmask bitmask) [].
End pubsub.

(** ** The start: the options of [NewPubSub] are in the configuration *)
Definition MaxBackoffAttempts : Z := 4.
Definition NewPubSub (cfg : psConfig) (bs : BlossomSubRouter) (seenMsgTTL : Z) : PubSub :=
  mkPubSub (Attach (rc cfg) bs) (mkPipeline newValidation (mkCache ∅ seenMsgTTL) [] [])
    ∅ ∅ ∅ ∅ ∅ ∅ (newBackoff MaxBackoffAttempts) [] [] [].
