(* ===== verification/PubSubInv.v ===== *)
(** * PubSub as a state machine

    The handlers of the event loop and the goroutines of the pipeline as steps.
    The router is joined to exactly the bitmasks we are interested in, a
    blacklisted peer has no queue, event handlers report exactly the subscribers,
    and a message passes once within the time to live of the cache. *)
From Stdlib Require Import ZArith Lia Floats.SpecFloat.
From stdpp Require Import base tactics list numbers option gmap sets fin_maps.
From S2P Require Import Prelude GoBytes Bitmask BlsRpc MessageCache Router RouterLaws Heartbeat HeartbeatLaws RouterInv RouterRun RouterFrame TimeCache GossipTracer PeerBackoff SubFilter Validation PubSub.
Local Open Scope Z_scope.

(** ** Event handlers *)
(** The application, once it has read the log, knows exactly the subscribers. *)
Definition faithful (h : BitmaskEventHandler) (X : gset PeerID) : Prop := forall p,
  match evtLog h !! p with
  | Some PeerJoin => p ∉ told h /\ p ∈ X
  | Some PeerLeave => p ∈ told h /\ p ∉ X
  | None => p ∈ told h <-> p ∈ X
  end.

Lemma faithful_event h X ty p :
  faithful h X -> (p ∈ X <-> ty = PeerLeave) ->
  faithful (addToEventLog h ty p) (match ty with PeerJoin => {[p]} ∪ X | PeerLeave => X ∖ {[p]} end).
Proof.
  intros F Hty q. pose proof (F p) as Fp. pose proof (F q) as Fq. unfold addToEventLog.
  destruct (evtLog h !! p) as [ev|] eqn:Ep; [case_decide as Hd|]; simpl.
  - subst ev. destruct ty; naive_solver.
  - destruct (decide (p = q)) as [<-|Hpq]; [rewrite lookup_delete_eq|rewrite lookup_delete_ne by done].
    + destruct ev, ty; simpl; set_solver.
    + destruct (evtLog h !! q) as [[]|], ty; set_solver.
  - destruct (decide (p = q)) as [<-|Hpq]; [rewrite lookup_insert_eq|rewrite lookup_insert_ne by done].
    + destruct ty; set_solver.
    + destruct (evtLog h !! q) as [[]|], ty; set_solver.
Qed.

Definition logsOk (ps : PubSub) : Prop := forall b hs id h,
  myBitmasks ps !! b = Some hs -> hs !! id = Some h -> faithful h (subscribersOf ps b).

Definition noBlack (ps : PubSub) : Prop := blacklist ps ## queues (rt ps).

(** A change of the subscribers with its notification *)
Lemma notify_logs ps ty b p :
  logsOk ps -> (p ∈ subscribersOf ps b <-> ty = PeerLeave) ->
  logsOk (notify (setSubscribers ps b (match ty with PeerJoin => {[p]} ∪ subscribersOf ps b
                                       | PeerLeave => subscribersOf ps b ∖ {[p]} end)) ty b p).
Proof.
  intros L Hty b' hs id h. unfold notify. set (X := match ty with PeerJoin => _ | PeerLeave => _ end).
  assert (HX : forall b', at_ (<[b := X]> (bitmasks (rt ps))) b' = if decide (b = b') then X else subscribersOf ps b')
    by (intros; apply at_insert).
  cbn [myBitmasks setSubscribers set_rt]. destruct (myBitmasks ps !! b) as [hs0|] eqn:Eb.
  - cbn [myBitmasks set_myBitmasks]. unfold subscribersOf at 1. cbn. rewrite HX.
    intros [[<- <-]|[Hne Hb]]%lookup_insert_Some Hh.
    + rewrite decide_True by done. rewrite lookup_fmap in Hh. destruct (hs0 !! id) as [h0|] eqn:E0; [|done].
      simpl in Hh. injection Hh as <-. apply faithful_event; [by eapply L|done].
    + rewrite decide_False by done. by eapply L.
  - intros Hb Hh. unfold subscribersOf. cbn in *. rewrite HX. rewrite decide_False by (intros ->; congruence). by eapply L.
Qed.

Lemma filter_length_submseteq {A} (P : A -> Prop) `{!forall x, Decision (P x)} (l k : list A) :
  l ⊆+ k -> (length (filter P l) <= length (filter P k))%nat.
Proof. intros [j ->]%submseteq_Permutation. rewrite filter_app, length_app. lia. Qed.

Section steps.
Context `{PS : ProtoSize} {SS : SortSlice} {SL : SortSliceLaws SS} `{TC : TimeCache} {TL : TimeCacheLaws TC} (cfg : psConfig).

(** ** Steps *)
Inductive psStep (e : psEnv) : PubSub -> PubSub -> Prop :=
  | ps_notifyNewPeer ps pid : psStep e ps (notifyNewPeer ps pid)
  | ps_notifyPeerDead ps pid : psStep e ps (notifyPeerDead ps pid)
  | ps_pending ps : psStep e ps (handlePendingPeers e ps)
  | ps_dead ps : psStep e ps (handleDeadPeers e ps)
  | ps_stream ps pid proto : psStep e ps (newPeerStream e ps pid proto)
  | ps_error ps pid : psStep e ps (newPeerError ps pid)
  | ps_blacklist ps pid : psStep e ps (blacklistPeer e ps pid)
  | ps_addSub ps b s : psStep e ps (handleAddSubscription cfg e ps b s)
  | ps_rmSub ps b s : psStep e ps (handleRemoveSubscription cfg e ps b s)
  | ps_addRelay ps b : psStep e ps (handleAddRelay cfg e ps b)
  | ps_rmRelay ps b : psStep e ps (handleRemoveRelay cfg e ps b)
  | ps_addBitmask ps b : psStep e ps (handleAddBitmask ps b)
  | ps_rmBitmask ps b : psStep e ps (handleRemoveBitmask ps b).1
  | ps_retry ps i ps' : announceRetry e ps i = Some ps' -> psStep e ps ps'
  | ps_addHandler ps b id : psStep e ps (addEventHandler ps b id)
  | ps_cancelHandler ps b id : psStep e ps (cancelHandler ps b id)
  | ps_nextEvent ps b id k ps' : nextPeerEvent ps b id k = Some ps' -> psStep e ps ps'
  | ps_incoming ps rpc ps' : handleIncomingRPC cfg e ps rpc = Some ps' -> psStep e ps ps'
  | ps_sendMsg ps ps' : receiveSendMsg cfg e ps = Some ps' -> psStep e ps ps'
  | ps_heartbeat ps bs : heartbeat (rc cfg) (re e) (rt ps) = Some bs -> psStep e ps (set_rt ps bs)
  | ps_worker ps st : validateWorker (signPolicy cfg) (idGen (rc cfg)) (ve e) (pl ps) = Some st -> psStep e ps (set_pl ps st)
  | ps_async ps i st : asyncDone (ve e) (pl ps) i = Some st -> psStep e ps (set_pl ps st)
  | ps_local ps msg : psStep e ps (set_pl ps (PushLocal (signPolicy cfg) (signID cfg) (idGen (rc cfg)) (ve e) (pl ps) msg).1)
  | ps_addVal ps v : psStep e ps (set_pl ps (set_val (pl ps) (AddValidator (val (pl ps)) v).1))
  | ps_rmVal ps b : psStep e ps (set_pl ps (set_val (pl ps) (RemoveValidator (val (pl ps)) b).1))
  | ps_sweep ps : psStep e ps (set_pl ps (set_seen (pl ps) (sweep (now (re e)) (seenMessages (pl ps)))))
  | ps_connect ps p q : connect (rt ps) = p :: q -> psStep e ps (set_rt ps (set_connect (rt ps) q))
  | ps_direct ps p bs : p ∈ direct (rt ps) -> connectDirect (rc cfg) (rt ps) p = Some bs -> psStep e ps (set_rt ps bs)
  | ps_backoff ps : psStep e ps (set_deadPeerBackoff ps (cleanup (now (re e)) (deadPeerBackoff ps))).

(** The clocks of the router and of the pipeline are one. *)
Record psEnv_ok (e : psEnv) : Prop := {
  pe_env : env_ok (re e);
  pe_now : v_now (ve e) = now (re e) }.

Inductive psRun (ps : PubSub) (t : Z) : PubSub -> Z -> Prop :=
  | psrun_refl : psRun ps t ps t
  | psrun_step ps1 t1 e ps2 :
      psRun ps t ps1 t1 -> psEnv_ok e -> t1 <= now (re e) -> psStep e ps1 ps2 -> psRun ps t ps2 (now (re e)).

(** ** What a step does to the pipeline *)
Definition touched (t : Z) (c c' : cache) : Prop := exists h, Forall (fun o => o.1 = t) h /\ c' = run c h.

Lemma touched_refl t c : touched t c c.
Proof. by exists []. Qed.
Lemma touched_trans t c1 c2 c3 : touched t c1 c2 -> touched t c2 c3 -> touched t c1 c3.
Proof.
  intros (h1 & F1 & ->) (h2 & F2 & ->). exists (h1 ++ h2). split; [by apply Forall_app|]. unfold run. by rewrite foldl_app.
Qed.
Lemma touched_add t c s : touched t c (markSeen t c s).1.
Proof. exists [(t, OpAdd s)]. split; [by repeat constructor|done]. Qed.
Lemma touched_has t c s : touched t c (seenMessage t c s).1.
Proof. exists [(t, OpHas s)]. split; [by repeat constructor|done]. Qed.
Lemma touched_sweep t c : touched t c (sweep t c).
Proof. exists [(t, OpSweep)]. split; [by repeat constructor|done]. Qed.
Lemma touched_ttl t c c' : touched t c c' -> ttl c' = ttl c.
Proof.
  intros (h & _ & ->). revert c. induction h as [|o h IH]; intros c; [done|]. simpl. by rewrite IH, step_ttl.
Qed.

(** The identifier stays in the cache until [T]. *)
Definition alive (T : Z) (s : bytes) (c : cache) : bool :=
  match entries c !! s with Some y => T <=? y | None => false end.

Lemma touched_alive t c c' T s :
  0 <= ttl c -> t <= T <= t + ttl c -> touched t c c' -> alive T s c = true -> alive T s c' = true.
Proof.
  intros Htl HT (h & F & ->) HA. unfold alive in *. destruct (entries c !! s) as [y|] eqn:Ey; [|done].
  destruct (run_keeps h c t t s T) as (z & Ez & Hz); [done| |lia|lia| |].
  - clear HA. induction F as [|o h Ho F IH]; simpl; [lia|]. rewrite Ho. split; [lia|done].
  - exists y. split; [done|lia].
  - rewrite Ez. lia.
Qed.

(** The messages that are past the cache: delivered, or on their way *)
Definition deliveredMsg (ev : traceEvent) : option Message := match ev with TrDeliver m => Some m | _ => None end.
Definition carried (st : pipeline) : list Message :=
  omap deliveredMsg (tr st) ++ sendMsg st ++ (t_msg <$> active (val st)).
Definition carriedId (st : pipeline) (s : bytes) : nat := length (filter (fun m => idOf (idGen (rc cfg)) m = s) (carried st)).

(** The messages with an identifier that are past the cache, and the one that may still pass *)
Definition potential (T : Z) (s : bytes) (st : pipeline) : nat :=
  (carriedId st s + if alive T s (seenMessages st) then 0 else 1)%nat.

Record once (t : Z) (st st' : pipeline) : Prop := {
  on_seen : touched t (seenMessages st) (seenMessages st');
  on_potential : forall s T, 0 <= ttl (seenMessages st) -> t <= T <= t + ttl (seenMessages st) ->
    (potential T s st' <= potential T s st)%nat }.

Lemma once_trans t st1 st2 st3 : once t st1 st2 -> once t st2 st3 -> once t st1 st3.
Proof.
  intros [S1 P1] [S2 P2]. split; [by eapply touched_trans|]. intros s T Htl HT. pose proof (touched_ttl _ _ _ S1) as E.
  etrans; [apply P2; by rewrite E|by apply P1].
Qed.
Lemma carriedId_sub st st' s : carried st' ⊆+ carried st -> (carriedId st' s <= carriedId st s)%nat.
Proof. intros H. unfold carriedId. by apply filter_length_submseteq. Qed.

(** No message passes. *)
Lemma once_quiet t st st' :
  touched t (seenMessages st) (seenMessages st') -> carried st' ⊆+ carried st -> once t st st'.
Proof.
  intros HT HC. split; [done|]. intros s T Htl Hx. pose proof (carriedId_sub _ _ s HC). unfold potential.
  pose proof (touched_alive _ _ _ T s Htl Hx HT). destruct (alive T s (seenMessages st)), (alive T s (seenMessages st')); naive_solver lia.
Qed.
Lemma once_refl t st : once t st st.
Proof. apply once_quiet; [apply touched_refl|done]. Qed.
(** A new message passes, and its identifier is in the cache from now on. *)
Lemma once_fresh t st st' msg :
  (markSeen t (seenMessages st) (idOf (idGen (rc cfg)) msg)).2 = true ->
  seenMessages st' = (markSeen t (seenMessages st) (idOf (idGen (rc cfg)) msg)).1 ->
  carried st' ⊆+ msg :: carried st -> once t st st'.
Proof.
  intros Hnew Hs HC. split; [rewrite Hs; apply touched_add|]. intros s T Htl Hx.
  assert (HT : touched t (seenMessages st) (seenMessages st')) by (rewrite Hs; apply touched_add).
  pose proof (touched_alive _ _ _ T s Htl Hx HT) as HA. unfold potential.
  assert (HL : (carriedId st' s <= carriedId st s + if decide (idOf (idGen (rc cfg)) msg = s) then 1 else 0)%nat).
  { unfold carriedId. etrans; [by apply filter_length_submseteq|]. rewrite filter_cons. case_decide; simpl; lia. }
  case_decide as Hd; [|destruct (alive T s (seenMessages st)), (alive T s (seenMessages st')); naive_solver lia].
  subst s. replace (alive T _ (seenMessages st')) with true.
  - unfold alive. replace (entries (seenMessages st) !! _) with (@None Z) by (symmetry; by apply (add_new t)). lia.
  - symmetry. unfold alive. rewrite Hs. unfold markSeen. rewrite add_expiry by (by apply (add_new t)). lia.
Qed.

Lemma carried_trace st ev : deliveredMsg ev = None -> carried (trace1 st ev) = carried st.
Proof. intros H. unfold carried. simpl. rewrite omap_app. simpl. by rewrite H, app_nil_r. Qed.
Lemma once_trace t st ev : deliveredMsg ev = None -> once t st (trace1 st ev).
Proof. intros H. apply once_quiet; [apply touched_refl|by rewrite carried_trace]. Qed.

(** ** What the steps other than joining and leaving do *)
Record calm (e : psEnv) (ps ps' : PubSub) : Prop := {
  ca_rt : routerRun (rc cfg) (rt ps) (now (re e)) (rt ps') (now (re e));
  ca_mesh : dom (mesh (rt ps')) = dom (mesh (rt ps));
  ca_subs : mySubs ps' = mySubs ps;
  ca_relays : myRelays ps' = myRelays ps;
  ca_black : blacklist ps' = blacklist ps;
  ca_noBlack : noBlack ps -> noBlack ps';
  ca_pl : once (now (re e)) (pl ps) (pl ps');
  ca_logs : logsOk ps -> logsOk ps' }.

Lemma calm_trans e ps1 ps2 ps3 : calm e ps1 ps2 -> calm e ps2 ps3 -> calm e ps1 ps3.
Proof.
  intros [] []. split; try congruence; eauto using run_trans, once_trans.
Qed.
Lemma calm_same e ps ps' :
  rt ps' = rt ps -> mySubs ps' = mySubs ps -> myRelays ps' = myRelays ps -> blacklist ps' = blacklist ps ->
  once (now (re e)) (pl ps) (pl ps') -> myBitmasks ps' = myBitmasks ps -> calm e ps ps'.
Proof.
  intros H1 H2 H3 H4 H5 H6. split; try done.
  - rewrite H1. apply run_refl.
  - by rewrite H1.
  - unfold noBlack. by rewrite H1, H4.
  - unfold logsOk, subscribersOf. by rewrite H1, H6.
Qed.
Lemma calm_refl e ps : calm e ps ps.
Proof. apply calm_same; try done. apply once_refl. Qed.
Lemma calm_foldl {A} e (f : PubSub -> A -> PubSub) ps l : (forall ps a, calm e ps (f ps a)) -> calm e ps (foldl f ps l).
Proof.
  intros Hf. revert ps. induction l as [|a l IH]; intros ps; [apply calm_refl|]. simpl.
  eapply calm_trans; [apply Hf|apply IH].
Qed.
(** An operation of the router that keeps the frame *)
Lemma calm_frame e e' ps bs :
  env_ok e' -> now e' = now (re e) -> routerStep (rc cfg) e' (rt ps) bs -> frame (rt ps) bs -> calm e ps (set_rt ps bs).
Proof.
  intros Eok En Hs [F1 F2 F3]. split; try done.
  - rewrite <-En. by apply run_once.
  - unfold noBlack. simpl. by rewrite F2.
  - apply once_refl.
  - unfold logsOk, subscribersOf. simpl. by rewrite F1.
Qed.
(** A queue less *)
Lemma calm_queues e ps X : env_ok (re e) -> X ⊆ queues (rt ps) -> calm e ps (set_rt ps (set_queues (rt ps) X)).
Proof.
  intros Eok HX. split; try done.
  - apply (run_once (rc cfg) (re e)); [done|apply step_queues].
  - unfold noBlack. simpl. set_solver.
  - apply once_refl.
Qed.

Context (e : psEnv) (Eok : psEnv_ok e).
Local Abbreviation Rok := (pe_env e Eok).

Lemma calm_notify ps ty b p :
  (p ∈ subscribersOf ps b <-> ty = PeerLeave) ->
  calm e ps (notify (setSubscribers ps b (match ty with PeerJoin => {[p]} ∪ subscribersOf ps b
                                          | PeerLeave => subscribersOf ps b ∖ {[p]} end)) ty b p).
Proof.
  intros Hty. set (X := match ty with PeerJoin => _ | PeerLeave => _ end).
  assert (Hn : forall ps, rt (notify ps ty b p) = rt ps /\ mySubs (notify ps ty b p) = mySubs ps
    /\ myRelays (notify ps ty b p) = myRelays ps /\ blacklist (notify ps ty b p) = blacklist ps /\ pl (notify ps ty b p) = pl ps)
    by (intros ps0; unfold notify; by destruct (myBitmasks ps0 !! b)).
  destruct (Hn (setSubscribers ps b X)) as (H1 & H2 & H3 & H4 & H5). split; rewrite ?H1, ?H2, ?H3, ?H4, ?H5; try done.
  - apply (run_once (rc cfg) (re e)); [apply Rok|apply step_bitmasks].
  - unfold noBlack. by rewrite H1, H4.
  - apply once_refl.
  - intros L. by apply notify_logs.
Qed.

Lemma calm_subscription from ps so : calm e ps (subscriptionStep cfg from ps so).
Proof.
  unfold subscriptionStep. destruct (negb _); [apply calm_refl|]. destruct (Subscribe so).
  - case_bool_decide as Hin; [apply calm_refl|]. apply (calm_notify ps PeerJoin). split; [done|discriminate].
  - destruct (bitmasks (rt ps) !! so_bitmask so) as [tmap|] eqn:E; [|apply calm_refl].
    assert (Ht : tmap = subscribersOf ps (so_bitmask so)) by (unfold subscribersOf, at_; by rewrite E). subst tmap.
    case_bool_decide as Hin; [|apply calm_refl]. by apply (calm_notify ps PeerLeave).
Qed.

Lemma calm_dropPeer ps pid : calm e ps (PubSub.dropPeer e ps pid).
Proof.
  unfold PubSub.dropPeer. set (ps1 := set_rt ps (set_queues (rt ps) _)).
  assert (C1 : calm e ps ps1) by (apply calm_queues; [apply Rok|set_solver]).
  set (ps2 := foldl _ ps1 _).
  assert (C2 : calm e ps1 ps2).
  { apply calm_foldl. intros ps' t. case_bool_decide as Hin; [|apply calm_refl]. by apply (calm_notify ps' PeerLeave). }
  eapply calm_trans; [exact C1|]. eapply calm_trans; [exact C2|].
  apply (calm_frame e (re e)); [apply Rok|done|apply step_RemovePeer|apply frame_RemovePeer].
Qed.

Lemma dropPeer_queues ps pid : queues (rt (PubSub.dropPeer e ps pid)) = queues (rt ps) ∖ {[pid]}.
Proof.
  unfold PubSub.dropPeer. set (ps1 := set_rt ps (set_queues (rt ps) _)). set (f := fun ps t => _).
  assert (H : forall l ps, queues (rt (foldl f ps l)) = queues (rt ps)).
  { induction l as [|t l IH]; intros ps'; [done|]. cbn [foldl]. rewrite IH. unfold f. cbn zeta.
    case_bool_decide; [|done]. unfold notifyLeave, notify. by case_match. }
  cbn [rt set_rt]. by rewrite (fr_queues _ _ (frame_RemovePeer (re e) _ pid)), H.
Qed.

Lemma calm_emit ps l : calm e ps (set_rt ps (emit (rt ps) l)).
Proof. apply (calm_frame e (re e)); [apply Rok|done|apply step_emit|by apply frame_same]. Qed.

Lemma calm_announceTo b s ps pid : calm e ps (announceTo e b s ps pid).
Proof.
  unfold announceTo. destruct (room _ _ _); [apply calm_emit|].
  eapply calm_trans; [apply calm_emit|]. apply calm_same; try done. apply once_refl.
Qed.
Lemma calm_announce ps b s : calm e ps (announce e ps b s).
Proof. apply calm_foldl. intros. apply calm_announceTo. Qed.

Lemma calm_newQueue ps pid : pid ∉ blacklist ps -> calm e ps (newQueue e ps pid).
Proof.
  intros Hb. unfold newQueue. eapply calm_trans; [apply calm_emit|]. split; try done.
  - apply (run_once (rc cfg) (re e)); [apply Rok|apply step_queues].
  - unfold noBlack. simpl. set_solver.
  - apply once_refl.
Qed.

Lemma calm_requeue ps0 ps pid : (noBlack ps0 -> pid ∉ blacklist ps) -> calm e ps0 ps -> calm e ps0 (newQueue e ps pid).
Proof.
  intros Hb C. destruct C as [C1 C2 C3 C4 C5 C6 C7 C8]. split; try done.
  - eapply run_trans; [exact C1|]. eapply run_trans.
    + apply (run_once (rc cfg) (re e)); [apply Rok|]. apply (step_emit (rc cfg) (re e) (rt ps)).
    + apply (run_once (rc cfg) (re e)); [apply Rok|apply step_queues].
  - intros H. pose proof (C6 H). specialize (Hb H). unfold noBlack in *. simpl. set_solver.
Qed.

Lemma calm_pending ps : calm e ps (handlePendingPeers e ps).
Proof.
  unfold handlePendingPeers. eapply calm_trans; [apply (calm_same e ps (set_newPeersPend ps ∅)); try done; apply once_refl|].
  apply calm_foldl. intros ps' pid. destruct (negb _); [apply calm_refl|]. case_bool_decide; [apply calm_refl|].
  case_bool_decide; [apply calm_refl|]. by apply calm_newQueue.
Qed.

Lemma calm_dead ps : calm e ps (handleDeadPeers e ps).
Proof.
  unfold handleDeadPeers. eapply calm_trans; [apply (calm_same e ps (set_peerDeadPend ps ∅)); try done; apply once_refl|].
  apply calm_foldl. intros ps' pid. case_bool_decide as Hq; cbn [negb]; [|apply calm_refl].
  pose proof (calm_dropPeer ps' pid) as C. destruct (connected e pid); [|done].
  destruct (updateAndGet _ _ _ _) as [b r].
  assert (C' : calm e ps' (set_deadPeerBackoff (PubSub.dropPeer e ps' pid) b))
    by (eapply calm_trans; [exact C|]; apply calm_same; try done; apply once_refl).
  destruct r; [|done]. apply calm_requeue; [|done]. intros HB. rewrite (ca_black _ _ _ C'). unfold noBlack in HB. set_solver.
Qed.

(** *** Handlers of a bitmask *)
Lemma calm_logs ps m : (logsOk ps -> logsOk (set_myBitmasks ps m)) -> calm e ps (set_myBitmasks ps m).
Proof. intros H. split; try done; [apply run_refl|apply once_refl]. Qed.

(** The handlers of one bitmask change. *)
Lemma logs_insert ps b hs :
  (logsOk ps -> forall id h, hs !! id = Some h -> faithful h (subscribersOf ps b)) ->
  logsOk ps -> logsOk (set_myBitmasks ps (<[b := hs]> (myBitmasks ps))).
Proof.
  intros H L b' hs' id h Hb Hh. cbn in Hb. apply lookup_insert_Some in Hb as [[<- <-]|[_ Hb]]; [exact (H L id h Hh)|by eapply L].
Qed.

Lemma calm_addBitmask ps b : calm e ps (handleAddBitmask ps b).
Proof.
  unfold handleAddBitmask. destruct (myBitmasks ps !! b); [apply calm_refl|].
  by apply calm_logs, logs_insert.
Qed.
Lemma calm_rmBitmask ps b : calm e ps (handleRemoveBitmask ps b).1.
Proof.
  unfold handleRemoveBitmask. destruct (myBitmasks ps !! b); [|apply calm_refl].
  destruct (_ && _ && _); [|apply calm_refl]. apply calm_logs. intros L b' hs id h Hb. cbn in Hb.
  apply lookup_delete_Some in Hb as [_ Hb]. by eapply L.
Qed.
Lemma calm_addHandler ps b id : calm e ps (addEventHandler ps b id).
Proof.
  unfold addEventHandler. destruct (myBitmasks ps !! b) as [hs|] eqn:E; [|apply calm_refl].
  apply calm_logs, logs_insert. intros L id' h [[_ <-]|[_ Hh]]%lookup_insert_Some; [|by eapply L].
  intros p. simpl. rewrite lookup_gset_to_gmap. destruct (decide (p ∈ subscribersOf ps b)).
  - rewrite option_guard_True by done. set_solver.
  - rewrite option_guard_False by done. set_solver.
Qed.
Lemma calm_cancelHandler ps b id : calm e ps (cancelHandler ps b id).
Proof.
  unfold cancelHandler. destruct (myBitmasks ps !! b) as [hs|] eqn:E; [|apply calm_refl].
  apply calm_logs, logs_insert. intros L id' h [_ Hh]%lookup_delete_Some. by eapply L.
Qed.
Lemma calm_nextEvent ps b id k ps' : nextPeerEvent ps b id k = Some ps' -> calm e ps ps'.
Proof.
  unfold nextPeerEvent. destruct (myBitmasks ps !! b) as [hs|] eqn:E; [|done]. simpl.
  destruct (hs !! id) as [h|] eqn:Eh; [|done]. simpl. unfold pullFromEventLog.
  destruct (evtLog h !! k) as [ty|] eqn:El; [|done]. simpl. intros [= <-].
  apply calm_logs, logs_insert. intros L id' h' [[_ <-]|[_ Hh]]%lookup_insert_Some; [|by eapply L].
  intros q. pose proof (L b hs id h E Eh) as F. pose proof (F k) as Fk. pose proof (F q) as Fq. simpl.
  rewrite El in Fk. destruct (decide (k = q)) as [<-|Hkq]; [rewrite lookup_delete_eq|rewrite lookup_delete_ne by done].
  - destruct ty; set_solver.
  - destruct (evtLog h !! q) as [[]|], ty; set_solver.
Qed.

(** *** Messages *)
Lemma calm_pl ps st : once (now (re e)) (pl ps) st -> calm e ps (set_pl ps st).
Proof. intros H. by apply calm_same. Qed.
Lemma calm_trace2 ps ev : deliveredMsg ev = None -> calm e ps (trace2 ps ev).
Proof. intros H. by apply calm_pl, once_trace. Qed.

Lemma calm_foldlM {A} (f : PubSub -> A -> option PubSub) l : (forall ps a ps', f ps a = Some ps' -> calm e ps ps') ->
  forall ps ps', foldlM f ps l = Some ps' -> calm e ps ps'.
Proof.
  intros Hf. induction l as [|a l IH]; intros ps ps' E; simpl in E; [simplify_eq; apply calm_refl|].
  destruct (f ps a) as [ps1|] eqn:E1; [|done]. eapply calm_trans; [by eapply Hf|by apply IH].
Qed.

Lemma calm_notifySubs ps msg ps' : notifySubs e ps msg = Some ps' -> calm e ps ps'.
Proof.
  unfold notifySubs. destruct (head _); [|done]. simpl. intros [= <-]. apply calm_foldl. intros ps0 f.
  destruct (subRoom e f); [|by apply calm_trace2]. apply calm_same; try done. apply once_refl.
Qed.

(** After the delivery is traced *)
Lemma calm_publish ps msg ps' : publishMessage cfg e ps msg = Some ps' -> calm e (trace2 ps (TrDeliver msg)) ps'.
Proof.
  unfold publishMessage. destruct (notifySubs e _ msg) as [ps1|] eqn:E1; [|done]. simpl.
  apply calm_notifySubs in E1 as C. destruct (Local msg); [by intros [= <-]|].
  destruct (PublishMsg _ _ _ _) as [bs|] eqn:E2; [|done]. simpl. intros [= <-].
  eapply calm_trans; [exact C|]. apply (calm_frame e (re e)); [apply Rok|done|by eapply step_PublishMsg|].
  by eapply frame_PublishMsg.
Qed.

Lemma once_seen t st s : once t st (set_seen st (seenMessage t (seenMessages st) s).1).
Proof. by apply once_quiet; [apply touched_has|]. Qed.

Lemma calm_shouldPush ps msg : calm e ps (shouldPush cfg e ps msg).1.
Proof.
  unfold shouldPush. case_bool_decide; [by apply calm_trace2|]. case_bool_decide; [by apply calm_trace2|].
  destruct (checkSigningPolicy _ _ _); [by apply calm_trace2|]. destruct (_ && _); [by apply calm_trace2|].
  pose proof (calm_pl ps _ (once_seen (now (re e)) (pl ps) (idOf (idGen (rc cfg)) msg))) as C.
  destruct (seenMessage _ _ _) as [c b]. simpl in C.
  destruct b; [|done]. eapply calm_trans; [exact C|by apply calm_trace2].
Qed.

Lemma once_Push t st src msg : once t st (Push st src msg).1.
Proof.
  unfold Push. destruct (_ || _); [|apply once_refl]. destruct (_ <? _); [|by apply once_trace].
  by apply once_quiet; [apply touched_refl|].
Qed.

Lemma calm_pushMsg ps msg ps' : pushMsg cfg e ps msg = Some ps' -> calm e ps ps'.
Proof.
  unfold pushMsg. pose proof (calm_pl ps _ (once_Push (now (re e)) (pl ps) (ReceivedFrom msg) msg)) as C.
  destruct (Push _ _ _) as [st ok]. simpl in C. destruct ok; simpl; [|by intros [= <-]].
  destruct (markSeen _ _ _) as [c fresh] eqn:Em. destruct fresh.
  - intros E%calm_publish. eapply calm_trans; [exact C|]. eapply calm_trans; [|exact E].
    apply (calm_same e); try done. apply (once_fresh _ _ _ msg); cbn; [by rewrite Em|by rewrite Em|].
    unfold carried. simpl. rewrite omap_app. simpl. rewrite <-app_assoc. simpl. by rewrite <-Permutation_middle.
  - intros [= <-]. eapply calm_trans; [exact C|]. apply calm_pl, once_quiet; [|done].
    simpl. replace c with (markSeen (now (re e)) (seenMessages st) (idOf (idGen (rc cfg)) msg)).1 by (by rewrite Em). apply touched_add.
Qed.

Lemma calm_filterPublish from msgs ps : calm e ps (filterPublish cfg e ps from msgs).1.
Proof.
  unfold filterPublish. set (F := fun st pmsg => _).
  assert (H : forall acc ps, calm e ps (foldl F (ps, acc) msgs).1); [|apply H].
  induction msgs as [|m msgs IH]; intros acc ps0; [apply calm_refl|].
  cbn [foldl]. unfold F at 2. cbn beta iota. destruct (negb _); [apply IH|].
  pose proof (calm_shouldPush ps0 (mkMessage m [] from false)) as C.
  destruct (shouldPush cfg e ps0 (mkMessage m [] from false)) as [ps1 ok]. eapply calm_trans; [exact C|apply IH].
Qed.

Lemma touched_lookups l : forall c, touched (now (re e)) c (foldl (fun c id => (seenMessage (now (re e)) c id).1) c l).
Proof.
  induction l as [|x l IH]; intros c; [apply touched_refl|]. simpl. eapply touched_trans; [apply touched_has|apply IH].
Qed.

Lemma calm_control ps rpc : calm e ps (handleControl cfg e ps rpc).
Proof.
  unfold handleControl. set (r := routerEnv e (seenMessages (pl ps))).
  eapply calm_trans; [apply (calm_frame e r ps (HandleRPC (rc cfg) r (rt ps) rpc))|].
  - split; [apply (iter_perm _ Rok)|apply (intn_range _ Rok)].
  - done.
  - apply step_HandleRPC.
  - apply frame_HandleRPC.
  - apply calm_pl, once_quiet; [simpl; apply touched_lookups|done].
Qed.

Lemma calm_incoming ps rpc ps' : handleIncomingRPC cfg e ps rpc = Some ps' -> calm e ps ps'.
Proof.
  unfold handleIncomingRPC. destruct (negb _); [intros [= <-]; apply calm_refl|].
  pose proof (calm_trace2 ps (TrRecvRPC rpc) eq_refl) as C0. generalize dependent (trace2 ps (TrRecvRPC rpc)). intros ps0 C0.
  set (subs := match subFilter cfg with Some f => _ | None => _ end). destruct subs as [subs|]; [|by intros [= <-]].
  assert (C1 : calm e ps (foldl (subscriptionStep cfg (rpc_from rpc)) ps0 subs))
    by (eapply calm_trans; [exact C0|]; apply calm_foldl; intros; apply calm_subscription).
  generalize dependent (foldl (subscriptionStep cfg (rpc_from rpc)) ps0 subs). intros ps1 C1.
  destruct (AcceptFrom _ _ _ _ _); [by intros [= <-]|intros [= <-]|].
  - eapply calm_trans; [exact C1|]. eapply calm_trans; [by apply (calm_trace2 _ (TrThrottlePeer (rpc_from rpc)))|apply calm_control].
  - pose proof (calm_filterPublish (rpc_from rpc) (Publish rpc) ps1) as C2.
    destruct (filterPublish cfg e ps1 (rpc_from rpc) (Publish rpc)) as [ps2 toPush]. cbn [fst] in C2.
    assert (C3 : calm e ps2 (set_rt ps2 (PreValidation (rc cfg) (re e) (rt ps2) toPush)))
      by (apply (calm_frame e (re e)); [apply Rok|done|apply step_PreValidation|apply frame_PreValidation]).
    generalize dependent (set_rt ps2 (PreValidation (rc cfg) (re e) (rt ps2) toPush)). intros ps3 C3.
    destruct (foldlM (pushMsg cfg e) ps3 toPush) as [ps4|] eqn:E4; [|done]. simpl. intros [= <-].
    apply (calm_foldlM _ _ (fun ps a ps' => calm_pushMsg ps a ps')) in E4.
    eapply calm_trans; [exact C1|]. eapply calm_trans; [exact C2|]. eapply calm_trans; [exact C3|].
    eapply calm_trans; [exact E4|apply calm_control].
Qed.

Lemma calm_sendMsg ps ps' : receiveSendMsg cfg e ps = Some ps' -> calm e ps ps'.
Proof.
  unfold receiveSendMsg. destruct (sendMsg (pl ps)) as [|msg rest] eqn:Es; [intros [= <-]; apply calm_refl|].
  intros E%calm_publish. eapply calm_trans; [|exact E]. apply (calm_same e); try done.
  apply once_quiet; [apply touched_refl|]. unfold carried. simpl. rewrite omap_app, Es. simpl. by rewrite <-app_assoc.
Qed.

(** *** The pipeline *)
Lemma once_validate st vals src msg sync :
  once (now (re e)) st (validate (signPolicy cfg) (idGen (rc cfg)) (ve e) st vals src msg sync).1.
Proof.
  unfold validate. rewrite (pe_now e Eok). destruct (_ && _ && _); [by apply once_trace|].
  pose proof (touched_add (now (re e)) (seenMessages st) (idOf (idGen (rc cfg)) msg)) as HT.
  destruct (markSeen (now (re e)) _ _) as [c fresh] eqn:Em. simpl in HT.
  assert (Q : forall st', seenMessages st' = c -> carried st' ⊆+ carried st -> once (now (re e)) st st')
    by (intros st' E HC; apply once_quiet; [by rewrite E|done]).
  destruct fresh; cbn [negb]; [|cbn [fst]; apply Q; [done|by rewrite carried_trace]].
  assert (F : forall st', seenMessages st' = c -> carried st' ⊆+ msg :: carried st -> once (now (re e)) st st')
    by (intros st' E HC; apply (once_fresh _ _ _ msg); [by rewrite Em|by rewrite Em|done]).
  set (st0 := trace1 (set_seen st c) (TrValidate msg)).
  assert (E0 : carried st0 = carried st) by (by apply (carried_trace (set_seen st c))).
  assert (R : forall reason, once (now (re e)) st (trace1 st0 (TrReject msg reason)))
    by (intros; apply Q; [done|by rewrite carried_trace, E0]).
  assert (S : once (now (re e)) st (set_sendMsg st0 (sendMsg st0 ++ [msg]))).
  { apply F; [done|]. rewrite <-E0. unfold carried. simpl. rewrite !omap_app. simpl. solve_submseteq. }
  assert (A : forall vs r, once (now (re e)) st (set_val st0 (set_active (val st0) (active (val st0) ++ [mkTask vs src msg r])))).
  { intros. apply F; [done|]. rewrite <-E0. unfold carried. simpl. rewrite !omap_app, fmap_app. simpl. solve_submseteq. }
  repeat case_match; first [apply R|apply S|apply A].
Qed.

Lemma calm_worker ps st :
  validateWorker (signPolicy cfg) (idGen (rc cfg)) (ve e) (pl ps) = Some st -> calm e ps (set_pl ps st).
Proof.
  unfold validateWorker. destruct (validateQ (val (pl ps))) as [|[[vals src] msg] q]; [done|]. intros [= <-].
  apply calm_pl. eapply once_trans; [|apply once_validate]. by apply once_quiet; [apply touched_refl|].
Qed.
Lemma calm_local ps msg :
  calm e ps (set_pl ps (PushLocal (signPolicy cfg) (signID cfg) (idGen (rc cfg)) (ve e) (pl ps) msg).1).
Proof.
  apply calm_pl. unfold PushLocal. assert (O : once (now (re e)) (pl ps) (trace1 (pl ps) (TrPublish msg))) by (by apply once_trace).
  destruct (checkSigningPolicy _ _ _); (eapply once_trans; [exact O|]); [by apply once_trace|apply once_validate].
Qed.
Lemma calm_async ps i st : asyncDone (ve e) (pl ps) i = Some st -> calm e ps (set_pl ps st).
Proof.
  unfold asyncDone. destruct (active (val (pl ps)) !! i) as [t|] eqn:Ei; [|done]. simpl. intros [= <-]. apply calm_pl.
  apply delete_Permutation, (fmap_Permutation t_msg) in Ei. rewrite fmap_cons in Ei.
  assert (Q : forall st', seenMessages st' = seenMessages (pl ps) -> val st' = val (pl ps) ->
    omap deliveredMsg (tr st') ++ sendMsg st' ⊆+ t_msg t :: omap deliveredMsg (tr (pl ps)) ++ sendMsg (pl ps) ->
    once (now (re e)) (pl ps) (set_val st' (set_active (val st') (delete i (active (val st')))))).
  { intros st' Es Ev HC. apply once_quiet; [simpl; rewrite Es; apply touched_refl|].
    unfold carried. simpl. rewrite Ev, !(assoc_L (++)). etrans; [by apply submseteq_skips_r|].
    by rewrite Ei, <-Permutation_middle. }
  unfold doValidateBitmask. repeat case_match; apply Q; try done; simpl; rewrite ?omap_app; simpl; rewrite ?app_nil_r; solve_submseteq.
Qed.

(** *** The other goroutines *)
Lemma calm_stream ps pid proto : calm e ps (newPeerStream e ps pid proto).
Proof.
  unfold newPeerStream. destruct (negb _); [apply calm_refl|]. case_bool_decide.
  - apply calm_queues; [apply Rok|set_solver].
  - apply (calm_frame e (re e)); [apply Rok|done|apply step_AddPeer|apply frame_AddPeer].
Qed.
Lemma calm_retry ps i ps' : announceRetry e ps i = Some ps' -> calm e ps ps'.
Proof.
  unfold announceRetry. destruct (retries ps !! i) as [[[pid b] s]|]; [|done]. cbn [mbind option_bind]. intros [= <-].
  set (ps1 := set_retries ps _). assert (C : calm e ps ps1) by (apply calm_same; try done; apply once_refl).
  destruct (_ || _); [|done]. eapply calm_trans; [exact C|]. unfold doAnnounceRetry. case_bool_decide; [apply calm_announceTo|apply calm_refl].
Qed.
End steps.
