(* ===== verification/PubSubRun.v ===== *)
(** * Executions of PubSub

    The invariants of the reachable states, and that a message is delivered at
    most once within the time to live of the cache of seen messages. *)
From Stdlib Require Import ZArith Lia Floats.SpecFloat.
From stdpp Require Import base tactics list numbers option gmap sets fin_maps.
From S2P Require Import Prelude GoBytes Bitmask BlsRpc MessageCache Router RouterLaws Heartbeat HeartbeatLaws RouterInv RouterRun RouterFrame RouterExample TimeCache GossipTracer PeerBackoff SubFilter Validation PubSub PubSubInv.
Local Open Scope Z_scope.

Section run.
Context `{PS : ProtoSize} {SS : SortSlice} {SL : SortSliceLaws SS} `{TC : TimeCache} {TL : TimeCacheLaws TC} (cfg : psConfig).

(** ** What every step does *)
Record sound (e : psEnv) (ps ps' : PubSub) : Prop := {
  so_rt : routerRun (rc cfg) (rt ps) (now (re e)) (rt ps') (now (re e));
  so_noBlack : noBlack ps -> noBlack ps';
  so_pl : once cfg (now (re e)) (pl ps) (pl ps');
  so_logs : logsOk ps -> logsOk ps' }.

Lemma sound_calm e ps ps' : calm cfg e ps ps' -> sound e ps ps'.
Proof. by intros []. Qed.
Lemma sound_trans e ps1 ps2 ps3 : sound e ps1 ps2 -> sound e ps2 ps3 -> sound e ps1 ps3.
Proof. intros [A1 B1 C1 D1] [A2 B2 C2 D2]. split; [by eapply run_trans|auto|by eapply once_trans|auto]. Qed.

(** Our own interest: subscriptions or relays *)
Definition interested (ps : PubSub) (b : bytes) : Prop := is_Some (mySubs ps !! b) \/ is_Some (myRelays ps !! b).
(** What the maps hold of one bitmask *)
Definition entryOk (ps : PubSub) (b : bytes) : Prop :=
  (b ∈ dom (mesh (rt ps)) <-> interested ps b) /\ mySubs ps !! b <> Some ∅ /\ (forall n, myRelays ps !! b = Some n -> 0 < n).
Definition joinOk (ps : PubSub) : Prop := forall b, entryOk ps b.

(** A state with the same interests and meshes but those of [b] *)
Record changes (b : bytes) (ps ps' : PubSub) : Prop := {
  ch_mesh : forall b', b' <> b -> b' ∈ dom (mesh (rt ps')) <-> b' ∈ dom (mesh (rt ps));
  ch_subs : forall b', b' <> b -> mySubs ps' !! b' = mySubs ps !! b';
  ch_relays : forall b', b' <> b -> myRelays ps' !! b' = myRelays ps !! b' }.

Lemma joinOk_changes b ps ps' : changes b ps ps' -> entryOk ps' b -> joinOk ps -> joinOk ps'.
Proof.
  intros [C1 C2 C3] Hb J b'. destruct (decide (b' = b)) as [->|Hne]; [done|].
  unfold entryOk, interested. rewrite C1, C2, C3 by done. apply J.
Qed.
Lemma joinOk_calm e ps ps' : calm cfg e ps ps' -> joinOk ps -> joinOk ps'.
Proof.
  intros [_ C2 C3 C4 _ _ _ _] J b. unfold entryOk, interested. rewrite C2, C3, C4. apply J.
Qed.

Context (e : psEnv) (Eok : psEnv_ok e).

(** ** Joining and leaving *)
Lemma sound_router ps bs :
  routerStep (rc cfg) (re e) (rt ps) bs -> queues bs = queues (rt ps) -> bitmasks bs = bitmasks (rt ps) -> sound e ps (set_rt ps bs).
Proof.
  intros Hs Hq Hb. split.
  - by apply run_once; [apply (pe_env _ Eok)|].
  - unfold noBlack. simpl. by rewrite Hq.
  - apply once_refl.
  - unfold logsOk, subscribersOf. simpl. by rewrite Hb.
Qed.
Lemma calm_advertised ps x : calm cfg e ps (set_advertised ps x).
Proof. apply calm_same; try done. apply once_refl. Qed.

Lemma join_spec ps b :
  sound e ps (join cfg e ps b) /\ mySubs (join cfg e ps b) = mySubs ps /\ myRelays (join cfg e ps b) = myRelays ps
  /\ dom (mesh (rt (join cfg e ps b))) = {[b]} ∪ dom (mesh (rt ps)).
Proof.
  unfold join. set (ps1 := set_advertised ps _). pose proof (calm_announce cfg e Eok ps1 b true) as C.
  assert (C' : calm cfg e ps (announce e ps1 b true)) by (eapply calm_trans; [apply calm_advertised|exact C]).
  destruct (Join_frame (rc cfg) (re e) (rt (announce e ps1 b true)) b) as (F1 & F2 & F3). split_and!.
  - eapply sound_trans; [by apply sound_calm|]. apply sound_router; [apply step_Join|done|done].
  - exact (ca_subs _ _ _ _ C').
  - exact (ca_relays _ _ _ _ C').
  - cbn [rt set_rt]. by rewrite F3, (ca_mesh _ _ _ _ C').
Qed.
Lemma leave_spec ps b :
  sound e ps (leave cfg e ps b) /\ mySubs (leave cfg e ps b) = mySubs ps /\ myRelays (leave cfg e ps b) = myRelays ps
  /\ dom (mesh (rt (leave cfg e ps b))) = dom (mesh (rt ps)) ∖ {[b]}.
Proof.
  unfold leave. set (ps1 := set_advertised ps _). pose proof (calm_announce cfg e Eok ps1 b false) as C.
  assert (C' : calm cfg e ps (announce e ps1 b false)) by (eapply calm_trans; [apply calm_advertised|exact C]).
  destruct (Leave_frame (rc cfg) (re e) (rt (announce e ps1 b false)) b) as (F1 & F2 & F3). split_and!.
  - eapply sound_trans; [by apply sound_calm|]. apply sound_router; [apply step_Leave|done|done].
  - exact (ca_subs _ _ _ _ C').
  - exact (ca_relays _ _ _ _ C').
  - cbn [rt set_rt]. by rewrite F3, (ca_mesh _ _ _ _ C').
Qed.

Lemma sound_mySubs ps m : sound e ps (set_mySubs ps m).
Proof. split; try done; [apply run_refl|apply once_refl]. Qed.
Lemma sound_myRelays ps m : sound e ps (set_myRelays ps m).
Proof. split; try done; [apply run_refl|apply once_refl]. Qed.

Definition good (ps ps' : PubSub) : Prop := sound e ps ps' /\ (joinOk ps -> joinOk ps').
Lemma good_calm ps ps' : calm cfg e ps ps' -> good ps ps'.
Proof. intros C. split; [by apply sound_calm|by eapply joinOk_calm]. Qed.

(** The interest in [b] changes, and the mesh with it. *)
Lemma good_changes b ps ps' :
  sound e ps ps' -> changes b ps ps' -> (entryOk ps b -> entryOk ps' b) -> good ps ps'.
Proof. intros S C H. split; [done|]. intros J. apply (joinOk_changes b ps); auto. Qed.

(** A new interest joins unless something holds the mesh already. *)
Lemma good_joins ps ps' b (c : bool) :
  sound e (if c then join cfg e ps b else ps) ps' -> rt ps' = rt (if c then join cfg e ps b else ps) ->
  (forall b', b' <> b -> mySubs ps' !! b' = mySubs ps !! b' /\ myRelays ps' !! b' = myRelays ps !! b') ->
  (entryOk ps b -> c = false -> interested ps b) ->
  (entryOk ps b -> interested ps' b /\ mySubs ps' !! b <> Some ∅ /\ (forall n, myRelays ps' !! b = Some n -> 0 < n)) ->
  good ps ps'.
Proof.
  intros S Er C Hc Hi. destruct c.
  - destruct (join_spec ps b) as (S2 & _ & _ & E3). apply (good_changes b).
    + by eapply sound_trans.
    + split; intros b' Hb; [rewrite Er, E3; set_solver|by apply C..].
    + intros J. destruct (Hi J) as [H1 H2]. split; [|done]. rewrite Er, E3. set_solver.
  - apply (good_changes b); [done|split; intros b' Hb; [by rewrite Er|by apply C..]|].
    intros J. destruct (Hi J) as [H1 H2]. split; [|done]. rewrite Er. split; [done|]. intros _. by apply J, Hc.
Qed.

(** An interest that ends leaves unless something else holds the mesh. *)
Lemma good_leaves ps ps1 b (c : bool) :
  sound e ps ps1 -> rt ps1 = rt ps -> changes b ps ps1 -> interested ps b ->
  (entryOk ps b -> (if c then ~ interested ps1 b else interested ps1 b)
     /\ mySubs ps1 !! b <> Some ∅ /\ (forall n, myRelays ps1 !! b = Some n -> 0 < n)) ->
  good ps (if c then leave cfg e ps1 b else ps1).
Proof.
  intros S Er C Hi Hc. destruct c.
  - destruct (leave_spec ps1 b) as (S2 & E1 & E2 & E3). destruct C as [C1 C2 C3]. apply (good_changes b).
    + by eapply sound_trans.
    + split; intros b' Hb; rewrite ?E1, ?E2, ?E3; auto. rewrite Er. set_solver.
    + intros J. destruct (Hc J) as [H1 H2]. unfold entryOk, interested in *. rewrite E1, E2, E3. split; [set_solver|done].
  - apply (good_changes b); [done|done|]. intros J. destruct (Hc J) as [H1 H2]. split; [|done].
    rewrite Er. split; [done|]. intros _. by apply J.
Qed.

Lemma subsOf_empty ps b : mySubs ps !! b <> Some ∅ -> subsOf ps b = ∅ <-> mySubs ps !! b = None.
Proof. unfold subsOf. destruct (mySubs ps !! b) eqn:E; simpl; naive_solver. Qed.
Lemma relaysOf_zero ps b : (forall n, myRelays ps !! b = Some n -> 0 < n) -> relaysOf ps b = 0 <-> myRelays ps !! b = None.
Proof.
  unfold relaysOf. destruct (myRelays ps !! b) as [n|] eqn:E; simpl; intros H; [|done].
  specialize (H n eq_refl). split; [lia|done].
Qed.
Lemma not_interested ps b : ~ interested ps b <-> mySubs ps !! b = None /\ myRelays ps !! b = None.
Proof. unfold interested. rewrite !eq_None_not_Some. tauto. Qed.
Lemma interested_dec ps b : interested ps b \/ ~ interested ps b.
Proof.
  unfold interested. destruct (mySubs ps !! b); [left; by left|]. destruct (myRelays ps !! b); [left; by right|].
  right. by intros [[]|[]].
Qed.

Lemma good_addSub ps b s : good ps (handleAddSubscription cfg e ps b s).
Proof.
  unfold handleAddSubscription. set (c := _ && _).
  assert (E : mySubs (if c then join cfg e ps b else ps) = mySubs ps
    /\ myRelays (if c then join cfg e ps b else ps) = myRelays ps) by (destruct c; [split; apply join_spec|done]).
  destruct E as [E1 E2]. apply (good_joins _ _ b c); [apply sound_mySubs|done|..].
  - intros b' Hb. simpl. rewrite E1, E2, lookup_insert_ne by done. done.
  - intros (J1 & J2 & J3) Hc. destruct (interested_dec ps b) as [|[H1 H2]%not_interested]; [done|].
    apply subsOf_empty in H1; [|done]. apply relaysOf_zero in H2; [|done]. subst c. rewrite H1, H2 in Hc. done.
  - intros (J1 & J2 & J3). unfold interested. simpl. rewrite E2, lookup_insert_eq. split_and!; [by left; eexists| |done].
    intros [= H]. set_solver.
Qed.

Lemma good_rmSub ps b s : good ps (handleRemoveSubscription cfg e ps b s).
Proof.
  unfold handleRemoveSubscription. destruct (mySubs ps !! b) as [subs|] eqn:Eb; [|apply good_calm, calm_refl].
  assert (Hi : interested ps b) by (left; by rewrite Eb). case_bool_decide as Hd; cbn zeta.
  - set (ps1 := set_mySubs ps _). apply (good_leaves ps ps1); [apply sound_mySubs|done| |done|].
    + split; intros b' Hne; try done. simpl. by rewrite lookup_delete_ne.
    + intros (J1 & J2 & J3). unfold interested. simpl. rewrite lookup_delete_eq. split_and!; [|done|done].
      change (relaysOf ps1 b) with (relaysOf ps b). destruct (Z.eqb_spec (relaysOf ps b) 0) as [Hz|Hz].
      * apply relaysOf_zero in Hz; [|done]. rewrite Hz. by intros [[]|[]].
      * right. destruct (myRelays ps !! b) eqn:Er; [done|]. destruct Hz. unfold relaysOf. by rewrite Er.
  - apply (good_leaves ps _ b false); [apply sound_mySubs|done| |done|].
    + split; intros b' Hne; try done. simpl. by rewrite lookup_insert_ne.
    + intros (J1 & J2 & J3). unfold interested. simpl. rewrite lookup_insert_eq. split_and!; [by left|naive_solver|done].
Qed.

Lemma good_addRelay ps b : good ps (handleAddRelay cfg e ps b).
Proof.
  unfold handleAddRelay. set (ps1 := set_myRelays ps _).
  assert (Er : relaysOf ps1 b = relaysOf ps b + 1) by (unfold relaysOf at 1; simpl; by rewrite lookup_insert_eq).
  rewrite Er. set (c := _ && _).
  assert (Hs : mySubs (if c then join cfg e ps1 b else ps1) = mySubs ps
    /\ myRelays (if c then join cfg e ps1 b else ps1) = <[b := relaysOf ps b + 1]> (myRelays ps)
    /\ dom (mesh (rt (if c then join cfg e ps1 b else ps1))) = (if c then {[b]} else ∅) ∪ dom (mesh (rt ps))).
  { destruct c; [destruct (join_spec ps1 b) as (_ & -> & -> & ->)|]; split_and!; try done. set_solver. }
  destruct Hs as (E1 & E2 & E3). apply (good_changes b).
  - eapply sound_trans; [apply (sound_myRelays ps)|]. destruct c; [apply join_spec|apply sound_calm, calm_refl].
  - split; intros b' Hne; rewrite ?E1, ?E2, ?E3; [destruct c; set_solver|done|by rewrite lookup_insert_ne].
  - intros (K2 & K3 & K4). unfold entryOk, interested. rewrite E1, E2, E3, lookup_insert_eq.
    assert (Hr : 0 <= relaysOf ps b) by (unfold relaysOf; destruct (myRelays ps !! b) as [n|]; [specialize (K4 n eq_refl); simpl; lia|done]).
    split_and!; [|done|intros n [= <-]; lia]. split; [by right|]. intros _.
    destruct c eqn:Ec; [set_solver|]. apply elem_of_union_r, K2.
    destruct (interested_dec ps b) as [|[H1 H2]%not_interested]; [done|].
    apply subsOf_empty in H1; [|done]. apply relaysOf_zero in H2; [|done]. subst c.
    change (subsOf ps1 b) with (subsOf ps b) in Ec. rewrite H1, H2 in Ec. done.
Qed.

Lemma good_rmRelay ps b : good ps (handleRemoveRelay cfg e ps b).
Proof.
  unfold handleRemoveRelay. destruct (Z.eqb_spec (relaysOf ps b) 0) as [|Hz]; [apply good_calm, calm_refl|].
  destruct (myRelays ps !! b) as [n|] eqn:Eb; [|unfold relaysOf in Hz; by rewrite Eb in Hz].
  assert (Hi : interested ps b) by (right; by rewrite Eb). assert (En : relaysOf ps b = n) by (unfold relaysOf; by rewrite Eb).
  set (ps1 := set_myRelays ps _).
  assert (E1 : relaysOf ps1 b = n - 1) by (unfold relaysOf at 1; simpl; rewrite lookup_insert_eq; simpl; lia).
  rewrite E1. destruct (Z.eqb_spec (n - 1) 0) as [H0|H0].
  - set (ps2 := set_myRelays ps1 _). apply (good_leaves ps ps2).
    + eapply sound_trans; apply sound_myRelays.
    + done.
    + split; intros b' Hne; try done. simpl. by rewrite lookup_delete_ne, lookup_insert_ne by done.
    + done.
    + intros (J1 & J2 & J3). unfold interested. simpl. rewrite lookup_delete_eq. split_and!; [|done|done].
      change (subsOf ps2 b) with (subsOf ps b). case_bool_decide as Hs.
      * apply subsOf_empty in Hs; [|done]. rewrite Hs. by intros [[]|[]].
      * left. destruct (mySubs ps !! b) eqn:Es; [done|]. destruct Hs. unfold subsOf. by rewrite Es.
  - apply (good_leaves ps _ b false); [apply sound_myRelays|done| |done|].
    + split; intros b' Hne; try done. simpl. by rewrite lookup_insert_ne.
    + intros (J1 & J2 & J3). unfold interested. simpl. rewrite lookup_insert_eq. split_and!; [by right|done|].
      intros k [= <-]. specialize (J3 n Eb). lia.
Qed.

Lemma good_blacklist ps pid : good ps (blacklistPeer e ps pid).
Proof.
  unfold blacklistPeer. set (ps1 := set_blacklist ps _).
  assert (O : once cfg (now (re e)) (pl ps) (pl ps1)) by apply once_refl. case_bool_decide as Hq.
  - pose proof (calm_dropPeer cfg e Eok ps1 pid) as C. split.
    + destruct C as [C1 C2 C3 C4 C5 C6 C7 C8]. split; try done. unfold noBlack. rewrite C5, dropPeer_queues. simpl. set_solver.
    + intros J. by apply (joinOk_calm e ps1).
  - split; [|done]. split; try done; [apply run_refl|]. unfold noBlack. simpl in *. set_solver.
Qed.

Lemma step_good ps ps' : psStep cfg e ps ps' -> good ps ps'.
Proof.
  pose proof (pe_env _ Eok) as Rok.
  intros [].
  1,2: apply good_calm, calm_same; try done; apply once_refl.
  all: eauto using good_calm, calm_pending, calm_dead, calm_stream, calm_addBitmask, calm_rmBitmask, calm_retry,
    calm_addHandler, calm_cancelHandler, calm_nextEvent, calm_incoming, calm_sendMsg, calm_worker, calm_async, calm_local,
    good_addSub, good_rmSub, good_addRelay, good_rmRelay, good_blacklist.
  all: apply good_calm.
  - apply calm_queues; [done|set_solver].
  - apply (calm_frame _ _ (re e)); [done|done|by apply step_heartbeat|by eapply frame_heartbeat].
  - by apply calm_pl, once_quiet; [apply touched_refl|unfold AddValidator; repeat case_match].
  - by apply calm_pl, once_quiet; [apply touched_refl|unfold RemoveValidator; repeat case_match].
  - by apply calm_pl, once_quiet; [apply touched_sweep|].
  - apply (calm_frame _ _ (re e)); [done|done|by eapply step_connector|by apply frame_same].
  - apply (calm_frame _ _ (re e)); [done|done|by eapply step_connectDirect|].
    unfold connectDirect in *. repeat case_match; [|done]. simplify_eq. by apply frame_same.
  - apply calm_same; try done. apply once_refl.
Qed.
End run.

Section reach.
Context `{PS : ProtoSize} {SS : SortSlice} {SL : SortSliceLaws SS} `{TC : TimeCache} {TL : TimeCacheLaws TC} (cfg : psConfig).
Context (sha256 : bytes -> bytes).

(** The states of a [PubSub] made by [NewPubSub] with a router made by [NewBlossomSubRouter] *)
Definition psReach (ps : PubSub) (t : Z) : Prop :=
  exists direct0 bs0 ttl t0, NewBlossomSubRouter (rc cfg) sha256 direct0 = Some bs0
    /\ psRun cfg (NewPubSub cfg bs0 ttl) t0 ps t.

(** Time passes. *)
Lemma router_wait e bs t : env_ok e -> t <= now e -> routerRun (rc cfg) bs t bs (now e).
Proof.
  intros Eok Ht. eapply (run_step (rc cfg) bs t bs t e); [apply run_refl|done|done|].
  pose proof (step_queues (rc cfg) e bs (queues bs)) as H. by destruct bs.
Qed.
Lemma psRun_router ps t ps' t' : psRun cfg ps t ps' t' -> routerRun (rc cfg) (rt ps) t (rt ps') t'.
Proof.
  induction 1 as [|ps1 t1 e ps2 Hr IH Eok Ht Hs]; [apply run_refl|].
  destruct (step_good cfg e Eok _ _ Hs) as [[S _ _ _] _]. eapply run_trans; [exact IH|].
  eapply run_trans; [|exact S]. apply router_wait; [apply (pe_env _ Eok)|done].
Qed.
Lemma psRun_keeps (P : PubSub -> Prop) ps t ps' t' :
  (forall e ps ps', psEnv_ok e -> good cfg e ps ps' -> P ps -> P ps') -> psRun cfg ps t ps' t' -> P ps -> P ps'.
Proof.
  intros HP. induction 1 as [|ps1 t1 e ps2 Hr IH Eok Ht Hs]; [done|]. intros H.
  apply (HP e ps1); [done|by apply step_good|auto].
Qed.
Lemma psReach_keeps (P : PubSub -> Prop) ps t :
  (forall e ps ps', psEnv_ok e -> good cfg e ps ps' -> P ps -> P ps') ->
  (forall bs ttl, mesh bs = ∅ -> queues bs = ∅ -> P (NewPubSub cfg bs ttl)) -> psReach ps t -> P ps.
Proof.
  intros HP H0 (d & bs0 & ttl & t0 & Hnew & Hr). apply (psRun_keeps P _ _ _ _ HP Hr). apply H0.
  all: unfold NewBlossomSubRouter in Hnew; repeat case_match; try done.
  all: destruct (NewMessageCache _ _ _); simplify_eq/=; done.
Qed.

Context (Httl : 0 < IDontWantMessageTTL (params (rc cfg))).

(** C17: in every reachable state of [PubSub] the router has a mesh for exactly
    the bitmasks with a subscription or a relay of ours; the entries of the two
    maps are in use; no blacklisted peer has a queue; and the router's state is a
    reachable one, in which no direct peer is in a mesh and no bitmask has both
    a mesh and a fanout. *)
Theorem pubsub_invariant ps t :
  psReach ps t ->
  (forall b, b ∈ dom (mesh (rt ps)) <-> subsOf ps b <> ∅ \/ 0 < relaysOf ps b)
  /\ (forall b X, mySubs ps !! b = Some X -> X <> ∅) /\ (forall b n, myRelays ps !! b = Some n -> 0 < n)
  /\ blacklist ps ## queues (rt ps)
  /\ (forall b, at_ (mesh (rt ps)) b ## direct (rt ps)) /\ dom (mesh (rt ps)) ## dom (fanout (rt ps)).
Proof.
  intros Hr.
  assert (J : joinOk ps).
  { revert Hr. apply psReach_keeps; [intros e ps1 ps2 _ [_ H]; exact H|]. intros bs ttl Hm _ b.
    unfold entryOk, interested. simpl. rewrite Hm, dom_empty_L, !lookup_empty. split_and!; [|done|done].
    split; [set_solver|by intros [[]|[]]]. }
  assert (B : noBlack ps).
  { revert Hr. apply psReach_keeps; [intros e ps1 ps2 _ [[] _]; auto|]. intros bs ttl _ Hq. unfold noBlack. simpl. set_solver. }
  assert (R : routerReach (rc cfg) sha256 (rt ps) t).
  { destruct Hr as (d & bs0 & ttl & t0 & Hnew & Hr). exists d, bs0, t0. split; [done|exact (psRun_router _ _ _ _ Hr)]. }
  destruct (reach_ok (rc cfg) sha256 Httl _ _ R) as [[] U]. split_and!; try done.
  - intros b. destruct (J b) as (J1 & J2 & J3). rewrite J1. unfold interested, subsOf, relaysOf.
    destruct (mySubs ps !! b), (myRelays ps !! b) as [n|]; simpl; try specialize (J3 n eq_refl); naive_solver.
  - intros b X Hb ->. by destruct (J b) as (_ & J2 & _).
  - intros b n Hb. by apply (J b).
Qed.

(** An event handler that has handed out all its events has told the
    application exactly the peers subscribed to the bitmask; and while events
    are pending, the joins are of subscribers not yet told and the leaves of
    told peers that are no subscribers any more. *)
Theorem event_handlers_faithful ps t b hs id h :
  psReach ps t -> myBitmasks ps !! b = Some hs -> hs !! id = Some h ->
  (evtLog h = ∅ -> told h = subscribersOf ps b)
  /\ (forall p, evtLog h !! p = Some PeerJoin -> p ∉ told h /\ p ∈ subscribersOf ps b)
  /\ (forall p, evtLog h !! p = Some PeerLeave -> p ∈ told h /\ p ∉ subscribersOf ps b)
  /\ (forall p, evtLog h !! p = None -> p ∈ told h <-> p ∈ subscribersOf ps b).
Proof.
  intros Hr Hb Hh.
  assert (L : logsOk ps).
  { revert Hr. apply psReach_keeps; [intros e ps1 ps2 _ [[] _]; auto|]. intros bs ttl _ _ b' hs' id' h'. simpl. by rewrite lookup_empty. }
  specialize (L b hs id h Hb Hh). split_and!.
  - intros He. apply set_eq. intros p. specialize (L p). by rewrite He, lookup_empty in L.
  - intros p Hp. specialize (L p). by rewrite Hp in L.
  - intros p Hp. specialize (L p). by rewrite Hp in L.
  - intros p Hp. specialize (L p). by rewrite Hp in L.
Qed.

(** ** A message is delivered at most once *)
Lemma psRun_time ps t ps' t' : psRun cfg ps t ps' t' -> t <= t'.
Proof. induction 1; lia. Qed.
Lemma psRun_potential ps t ps' t' T s :
  psRun cfg ps t ps' t' -> 0 <= ttl (seenMessages (pl ps)) -> t' <= T <= t + ttl (seenMessages (pl ps)) ->
  (potential cfg T s (pl ps') <= potential cfg T s (pl ps))%nat /\ ttl (seenMessages (pl ps')) = ttl (seenMessages (pl ps)).
Proof.
  intros Hr Htl. induction Hr as [|ps1 t1 e ps2 Hr IH Eok Ht Hs]; [done|]. intros HT.
  pose proof (psRun_time _ _ _ _ Hr). destruct IH as [IH1 IH2]; [lia|].
  destruct (step_good cfg e Eok _ _ Hs) as [[_ _ O _] _]. split.
  - etrans; [|exact IH1]. apply (on_potential _ _ _ _ O); rewrite IH2; [done|lia].
  - by rewrite (touched_ttl _ _ _ (on_seen _ _ _ _ O)).
Qed.

(** The deliveries of an identifier that were traced *)
Definition deliveries_ (ps : PubSub) (s : bytes) : nat :=
  length (filter (fun m => idOf (idGen (rc cfg)) m = s) (omap deliveredMsg (tr (pl ps)))).
(** The messages with an identifier that wait for the event loop or for validators *)
Definition inFlight (ps : PubSub) (s : bytes) : nat :=
  length (filter (fun m => idOf (idGen (rc cfg)) m = s) (sendMsg (pl ps) ++ (t_msg <$> active (val (pl ps))))).

(** C16: whatever arrives, is validated and is published in an execution that is
    not longer than the time to live of the cache, at most one message with a
    given identifier is delivered in addition to those already in flight; and
    none when the identifier is in the cache until the end of the execution. *)
Theorem message_delivered_once ps t ps' t' s :
  psRun cfg ps t ps' t' -> t' <= t + ttl (seenMessages (pl ps)) ->
  (deliveries_ ps' s + inFlight ps' s <= deliveries_ ps s + inFlight ps s + 1)%nat
  /\ (alive t' s (seenMessages (pl ps)) = true ->
       (deliveries_ ps' s + inFlight ps' s <= deliveries_ ps s + inFlight ps s)%nat).
Proof.
  intros Hr HT. pose proof (psRun_time _ _ _ _ Hr).
  destruct (psRun_potential ps t ps' t' t' s Hr) as [HP _]; [lia|lia|].
  assert (E : forall ps, potential cfg t' s (pl ps)
    = (deliveries_ ps s + inFlight ps s + if alive t' s (seenMessages (pl ps)) then 0 else 1)%nat).
  { intros. unfold potential, carriedId, carried, deliveries_, inFlight. by rewrite filter_app, length_app. }
  rewrite !E in HP. split; [|intros HA; rewrite HA in HP]; repeat case_match; lia.
Qed.
End reach.

(** ** A small PubSub *)
Module PubSubExample.
Import RouterExample.
#[export] Instance cacheInst : TimeCache := FirstSeenCache.
Definition pcfg : psConfig := mkPsConfig cfg LaxNoSign [] None.
Definition pe (t : Z) : psEnv :=
  mkPsEnv (e0 t) (mkVenv t (fun _ _ => 0) (fun _ => false) (fun _ => true) id)
    (fun _ => true) (fun _ => AcceptAll) (fun _ => true) 0 (fun _ => true).
Lemma pe_ok t : psEnv_ok (pe t).
Proof. split; [apply e0_ok|done]. Qed.

Definition fresh : PubSub := NewPubSub pcfg (mkRouter ∅ {[p3]} ∅ ∅ ∅ ∅ ∅ ∅ ∅ ∅ ∅ ∅ ∅ []
  (mkMessageCache ∅ ∅ (replicate 3 []) 2 (fun msg => DefaultMsgIdFn id (msg_pb msg))) 0 ∅ ∅ []) minute.

(** The steps of a small execution, a second each *)
Definition script : list (psEnv -> PubSub -> option PubSub) :=
  let msg := mkPbMessage p1 [] [Byte.x01] b [] [] in
  [ (fun e ps => Some (notifyNewPeer ps p1));
    (fun e ps => Some (notifyNewPeer ps p2));
    (fun e ps => Some (handlePendingPeers e ps));
    (fun e ps => Some (newPeerStream e ps p1 BlossomSubID_v21));
    (fun e ps => Some (newPeerStream e ps p2 BlossomSubID_v21));
    (fun e ps => Some (handleAddBitmask ps b));
    (fun e ps => Some (addEventHandler ps b 0%nat));
    (fun e ps => handleIncomingRPC pcfg e ps (mkRPC [mkSubOpts true b] [] None p1));
    (fun e ps => handleIncomingRPC pcfg e ps (mkRPC [mkSubOpts true b] [] None p2));
    (fun e ps => Some (handleAddSubscription pcfg e ps b 7%nat));
    (fun e ps => nextPeerEvent ps b 0%nat p1);
    (fun e ps => nextPeerEvent ps b 0%nat p2);
    (fun e ps => handleIncomingRPC pcfg e ps (mkRPC [] [msg] None p1));
    (fun e ps => handleIncomingRPC pcfg e ps (mkRPC [] [msg; msg] None p2));
    (fun e ps => Some (blacklistPeer e ps p2)) ].
Definition play (st : option (PubSub * Z)) (f : psEnv -> PubSub -> option PubSub) : option (PubSub * Z) :=
  r ← st; ps ← f (pe (r.2 + 1)) r.1; Some (ps, r.2 + 1).
Definition final : option (PubSub * Z) := foldl play (Some (fresh, 0)) script.

Lemma play_run ps t f ps' t' : (forall e ps ps', f e ps = Some ps' -> psStep pcfg e ps ps') ->
  play (Some (ps, t)) f = Some (ps', t') -> psRun pcfg ps t ps' t'.
Proof.
  intros Hf. unfold play. simpl. destruct (f (pe (t + 1)) ps) as [ps1|] eqn:E; [|done]. simpl. intros [= <- <-].
  apply (psrun_step pcfg ps t ps t (pe (t + 1))); [apply psrun_refl|apply pe_ok|simpl; lia|by apply Hf].
Qed.
Lemma psRun_trans ps1 t1 ps2 t2 ps3 t3 : psRun pcfg ps1 t1 ps2 t2 -> psRun pcfg ps2 t2 ps3 t3 -> psRun pcfg ps1 t1 ps3 t3.
Proof. intros H1 H2. induction H2; [done|]. by eapply psrun_step. Qed.
Lemma plays_run fs : Forall (fun f => forall e ps ps', f e ps = Some ps' -> psStep pcfg e ps ps') fs ->
  forall ps t ps' t', foldl play (Some (ps, t)) fs = Some (ps', t') -> psRun pcfg ps t ps' t'.
Proof.
  induction 1 as [|f fs Hf _ IH]; intros ps t ps' t' E; [simplify_eq/=; apply psrun_refl|].
  cbn [foldl] in E. destruct (play (Some (ps, t)) f) as [[ps1 t1]|] eqn:E1.
  - eapply psRun_trans; [by eapply play_run|by apply IH].
  - exfalso. clear -E. induction fs; [done|by apply IHfs].
Qed.
Lemma script_steps : Forall (fun f => forall e ps ps', f e ps = Some ps' -> psStep pcfg e ps ps') script.
Proof.
  unfold script. repeat apply Forall_cons_2; [..|apply Forall_nil_2]; intros e ps ps' E;
    first [exact (ps_incoming pcfg e ps _ ps' E)|exact (ps_nextEvent pcfg e ps _ _ _ ps' E)|injection E as <-; constructor].
Qed.

Definition end_ : PubSub := match final with Some (ps, _) => ps | None => fresh end.
Lemma end_run : psRun pcfg fresh 0 end_ 15.
Proof.
  apply (plays_run script script_steps). unfold end_, final. 
  assert (H : exists ps, foldl play (Some (fresh, 0)) script = Some (ps, 15)); [|by destruct H as [ps ->]].
  assert (H : (snd <$> foldl play (Some (fresh, 0)) script) = Some 15) by (vm_compute; reflexivity).
  destruct (foldl play _ _) as [[ps t]|]; [|done]. simplify_eq/=. by eexists.
Qed.
Lemma end_reached : psReach pcfg id end_ 15.
Proof. exists {[p3]}. eexists. exists minute, 0. split; [exact started|exact end_run]. Qed.
End PubSubExample.

Section witnesses.
Import RouterExample PubSubExample.

Lemma pubsub_invariant_witness : p2 ∉ queues (rt end_) /\ b ∈ dom (mesh (rt end_)) /\ p2 ∈ blacklist end_.
Proof.
  destruct (pubsub_invariant pcfg id ltac:(by vm_compute) end_ 15 end_reached) as (H1 & _ & _ & H4 & _).
  assert (Hb : p2 ∈ blacklist end_) by (apply (bool_decide_unpack _); vm_compute; exact I).
  split_and!; [intros Hq; exact (H4 p2 Hb Hq)| |exact Hb].
  apply H1. left. apply (bool_decide_unpack _). vm_compute. exact I.
Defined.

Lemma event_handlers_faithful_witness :
  exists hs h, myBitmasks end_ !! b = Some hs /\ hs !! 0%nat = Some h
    /\ evtLog h !! p2 = Some PeerLeave /\ p2 ∈ told h /\ subscribersOf end_ b = {[p1]}.
Proof.
  destruct (myBitmasks end_ !! b) as [hs|] eqn:Eb; [|vm_compute in Eb; discriminate].
  destruct (hs !! 0%nat) as [h|] eqn:Eh; [|exfalso; vm_compute in Eb; simplify_eq; vm_compute in Eh; discriminate].
  assert (El : evtLog h !! p2 = Some PeerLeave) by (vm_compute in Eb; simplify_eq; vm_compute in Eh; simplify_eq; vm_compute; reflexivity).
  destruct (event_handlers_faithful pcfg id end_ 15 b hs 0%nat h end_reached Eb Eh) as (_ & _ & H & _).
  exists hs, h. split_and!; [reflexivity|exact Eh|exact El|exact (proj1 (H p2 El))|].
  apply (bool_decide_unpack _). vm_compute. exact I.
Defined.

(** The message came three times and was delivered once. *)
Lemma message_delivered_once_witness :
  deliveries end_ <> [] /\ (deliveries_ pcfg end_ (p1 ++ [Byte.x01]) <= 1)%nat.
Proof.
  pose proof (proj1 (message_delivered_once pcfg fresh 0 end_ 15 (p1 ++ [Byte.x01]) end_run ltac:(by vm_compute))) as H.
  split; [vm_compute; discriminate|]. change (deliveries_ pcfg fresh _ + inFlight pcfg fresh _ + 1)%nat with 1%nat in H. lia.
Defined.
End witnesses.
