(* ===== verification/ScoreParams.v ===== *)
(** * Parameters of the peer score (go-libp2p-blossomsub/score_params.go)

    The parameters and what their validation accepts.  A [float64] is a
    [spec_float] with the operations of binary64; a validation error is [None] or
    [false]. *)
From Stdlib Require Import ZArith Lia Floats.SpecFloat.
From stdpp Require Import base tactics list numbers option gmap sets fin_maps.
From S2P Require Import Prelude GoBytes GoNet BlsRpc Router.
Local Open Scope Z_scope.

(** ** [float64] *)
Definition addF (x y : spec_float) : spec_float := SFadd 53 1024 x y.
Definition subF (x y : spec_float) : spec_float := SFsub 53 1024 x y.
Definition mulF (x y : spec_float) : spec_float := SFmul 53 1024 x y.
Definition eqF (x y : spec_float) : bool := SFeqb x y.
Definition leF (x y : spec_float) : bool := SFleb x y.
(** [float64] of an integer *)
Definition ofZ (n : Z) : spec_float := binary_normalize 53 1024 n 0 false.
Definition oneF : spec_float := ofZ 1.

Definition isInvalidNumber (num : spec_float) : bool :=
  match num with S754_nan | S754_infinity _ => true | _ => false end.

(** ** Thresholds *)
Record PeerScoreThresholds := mkThresholds {
  th_SkipAtomicValidation : bool;
  GossipThreshold : spec_float; PublishThreshold : spec_float; GraylistThreshold : spec_float;
  AcceptPXThreshold : spec_float; OpportunisticGraftThreshold : spec_float }.

(** [p.X != 0]; NaN is different from 0 *)
Definition set (x : spec_float) : bool := negb (eqF x zeroF).

Definition validateThresholds (p : PeerScoreThresholds) : bool :=
  let skip := th_SkipAtomicValidation p in
  (if negb skip || set (PublishThreshold p) || set (GossipThreshold p) || set (GraylistThreshold p) then
     negb (ltF zeroF (GossipThreshold p) || isInvalidNumber (GossipThreshold p))
     && negb (ltF zeroF (PublishThreshold p) || ltF (GossipThreshold p) (PublishThreshold p) || isInvalidNumber (PublishThreshold p))
     && negb (ltF zeroF (GraylistThreshold p) || ltF (PublishThreshold p) (GraylistThreshold p) || isInvalidNumber (GraylistThreshold p))
   else true)
  && (if negb skip || set (AcceptPXThreshold p) then
        negb (ltF (AcceptPXThreshold p) zeroF || isInvalidNumber (AcceptPXThreshold p)) else true)
  && (if negb skip || set (OpportunisticGraftThreshold p) then
        negb (ltF (OpportunisticGraftThreshold p) zeroF || isInvalidNumber (OpportunisticGraftThreshold p)) else true).

(** ** Parameters of a bitmask *)
Record BitmaskScoreParams := mkBitmaskParams {
  b_SkipAtomicValidation : bool;
  BitmaskWeight : spec_float;
  TimeInMeshWeight : spec_float; TimeInMeshQuantum : Z; TimeInMeshCap : spec_float;
  FirstMessageDeliveriesWeight : spec_float; FirstMessageDeliveriesDecay : spec_float; FirstMessageDeliveriesCap : spec_float;
  MeshMessageDeliveriesWeight : spec_float; MeshMessageDeliveriesDecay : spec_float;
  MeshMessageDeliveriesCap : spec_float; MeshMessageDeliveriesThreshold : spec_float;
  MeshMessageDeliveriesWindow : Z; MeshMessageDeliveriesActivation : Z;
  MeshFailurePenaltyWeight : spec_float; MeshFailurePenaltyDecay : spec_float;
  InvalidMessageDeliveriesWeight : spec_float; InvalidMessageDeliveriesDecay : spec_float }.

(** [d <= 0 || d >= 1 || isInvalidNumber(d)] *)
Definition badDecay (d : spec_float) : bool := leF d zeroF || leF oneF d || isInvalidNumber d.
(** [c <= 0 || isInvalidNumber(c)] *)
Definition badCap (c : spec_float) : bool := leF c zeroF || isInvalidNumber c.

Definition validateTimeInMeshParams (p : BitmaskScoreParams) : bool :=
  if b_SkipAtomicValidation p && eqF (TimeInMeshWeight p) zeroF && (TimeInMeshQuantum p =? 0) && eqF (TimeInMeshCap p) zeroF then true
  else
    negb (TimeInMeshQuantum p =? 0)
    && negb (ltF (TimeInMeshWeight p) zeroF || isInvalidNumber (TimeInMeshWeight p))
    && negb (set (TimeInMeshWeight p) && (TimeInMeshQuantum p <=? 0))
    && negb (set (TimeInMeshWeight p) && badCap (TimeInMeshCap p)).

Definition validateMessageDeliveryParams (p : BitmaskScoreParams) : bool :=
  let w := FirstMessageDeliveriesWeight p in
  if b_SkipAtomicValidation p && eqF w zeroF && eqF (FirstMessageDeliveriesCap p) zeroF && eqF (FirstMessageDeliveriesDecay p) zeroF then true
  else
    negb (ltF w zeroF || isInvalidNumber w)
    && negb (set w && badDecay (FirstMessageDeliveriesDecay p))
    && negb (set w && badCap (FirstMessageDeliveriesCap p)).

Definition validateMeshMessageDeliveryParams (p : BitmaskScoreParams) : bool :=
  let w := MeshMessageDeliveriesWeight p in
  if b_SkipAtomicValidation p && eqF w zeroF && eqF (MeshMessageDeliveriesCap p) zeroF && eqF (MeshMessageDeliveriesDecay p) zeroF
     && eqF (MeshMessageDeliveriesThreshold p) zeroF && (MeshMessageDeliveriesWindow p =? 0) && (MeshMessageDeliveriesActivation p =? 0)
  then true
  else
    negb (ltF zeroF w || isInvalidNumber w)
    && negb (set w && badDecay (MeshMessageDeliveriesDecay p))
    && negb (set w && badCap (MeshMessageDeliveriesCap p))
    && negb (set w && badCap (MeshMessageDeliveriesThreshold p))
    && negb (MeshMessageDeliveriesWindow p <? 0)
    && negb (set w && (MeshMessageDeliveriesActivation p <? Second)).

Definition validateMessageFailurePenaltyParams (p : BitmaskScoreParams) : bool :=
  let w := MeshFailurePenaltyWeight p in
  if b_SkipAtomicValidation p && eqF (MeshFailurePenaltyDecay p) zeroF && eqF w zeroF then true
  else
    negb (ltF zeroF w || isInvalidNumber w) && negb (set w && badDecay (MeshFailurePenaltyDecay p)).

Definition validateInvalidMessageDeliveryParams (p : BitmaskScoreParams) : bool :=
  let w := InvalidMessageDeliveriesWeight p in
  if b_SkipAtomicValidation p && eqF (InvalidMessageDeliveriesDecay p) zeroF && eqF w zeroF then true
  else
    negb (ltF zeroF w || isInvalidNumber w) && negb (badDecay (InvalidMessageDeliveriesDecay p)).

Definition validateBitmaskParams (p : BitmaskScoreParams) : bool :=
  negb (ltF (BitmaskWeight p) zeroF || isInvalidNumber (BitmaskWeight p))
  && validateTimeInMeshParams p && validateMessageDeliveryParams p && validateMeshMessageDeliveryParams p
  && validateMessageFailurePenaltyParams p && validateInvalidMessageDeliveryParams p.

(** ** Parameters of the score *)
(** [*net.IPNet] *)
Record IPNet := mkIPNet { net_IP : bytes; net_Mask : bytes }.
Definition land8 (x y : byte) : byte := z2b (Z.land (b2z x) (b2z y)).
Definition networkNumberAndMask (n : IPNet) : option (bytes * bytes) :=
  ip ← (match To4 (net_IP n) with
        | Some ip => Some ip
        | None => if bool_decide (length (net_IP n) = 16%nat) then Some (net_IP n) else None
        end);
  let m := net_Mask n in
  if bool_decide (length m = 4%nat) then (if bool_decide (length ip = 4%nat) then Some (ip, m) else None)
  else if bool_decide (length m = 16%nat) then Some (ip, if bool_decide (length ip = 4%nat) then drop 12 m else m)
  else None.
(** [nn] and [m] of length 0 when there is no network number *)
Definition Contains (n : IPNet) (ip : bytes) : bool :=
  let '(nn, m) := default ([], []) (networkNumberAndMask n) in
  let ip := default ip (To4 ip) in
  bool_decide (length ip = length nn) && bool_decide (zip_with land8 nn m = zip_with land8 ip m).

Record PeerScoreParams := mkScoreParams {
  SkipAtomicValidation : bool;
  Bitmasks : gmap bytes BitmaskScoreParams;
  BitmaskScoreCap : spec_float;
  AppSpecificScore : option (PeerID -> spec_float); (** [None] is nil *)
  AppSpecificWeight : spec_float;
  IPColocationFactorWeight : spec_float; IPColocationFactorThreshold : Z; IPColocationFactorWhitelist : list IPNet;
  BehaviourPenaltyWeight : spec_float; BehaviourPenaltyThreshold : spec_float; BehaviourPenaltyDecay : spec_float;
  DecayInterval : Z; DecayToZero : spec_float; RetainScore : Z; SeenMsgTTL : Z }.

Definition set_Bitmasks (p : PeerScoreParams) (m : gmap bytes BitmaskScoreParams) : PeerScoreParams :=
  mkScoreParams (SkipAtomicValidation p) m (BitmaskScoreCap p) (AppSpecificScore p) (AppSpecificWeight p)
    (IPColocationFactorWeight p) (IPColocationFactorThreshold p) (IPColocationFactorWhitelist p)
    (BehaviourPenaltyWeight p) (BehaviourPenaltyThreshold p) (BehaviourPenaltyDecay p)
    (DecayInterval p) (DecayToZero p) (RetainScore p) (SeenMsgTTL p).
Definition set_AppSpecificScore (p : PeerScoreParams) (f : PeerID -> spec_float) : PeerScoreParams :=
  mkScoreParams (SkipAtomicValidation p) (Bitmasks p) (BitmaskScoreCap p) (Some f) (AppSpecificWeight p)
    (IPColocationFactorWeight p) (IPColocationFactorThreshold p) (IPColocationFactorWhitelist p)
    (BehaviourPenaltyWeight p) (BehaviourPenaltyThreshold p) (BehaviourPenaltyDecay p)
    (DecayInterval p) (DecayToZero p) (RetainScore p) (SeenMsgTTL p).

(** The checks before the application's score, and after it *)
Definition validateCap (p : PeerScoreParams) : bool :=
  if negb (SkipAtomicValidation p) || set (BitmaskScoreCap p) then
    negb (ltF (BitmaskScoreCap p) zeroF || isInvalidNumber (BitmaskScoreCap p)) else true.
Definition validateRest (p : PeerScoreParams) : bool :=
  let skip := SkipAtomicValidation p in
  let iw := IPColocationFactorWeight p in
  let bw := BehaviourPenaltyWeight p in
  (if negb skip || set iw then
     negb (ltF zeroF iw || isInvalidNumber iw) && negb (set iw && (IPColocationFactorThreshold p <? 1)) else true)
  && (if negb skip || set bw || set (BehaviourPenaltyThreshold p) then
        negb (ltF zeroF bw || isInvalidNumber bw) && negb (set bw && badDecay (BehaviourPenaltyDecay p))
        && negb (ltF (BehaviourPenaltyThreshold p) zeroF || isInvalidNumber (BehaviourPenaltyThreshold p)) else true)
  && (if negb skip || negb (DecayInterval p =? 0) || set (DecayToZero p) then
        negb (DecayInterval p <? Second) && negb (badDecay (DecayToZero p)) else true).

(** [None] is an error; without a function of the application the parameters get one. *)
Definition validateParams (p : PeerScoreParams) : option PeerScoreParams :=
  if forallb (fun kv => validateBitmaskParams kv.2) (map_to_list (Bitmasks p)) && validateCap p then
    p' ← (match AppSpecificScore p with
          | Some _ => Some p
          | None => if SkipAtomicValidation p then Some (set_AppSpecificScore p (fun _ => zeroF)) else None
          end);
    if validateRest p then Some p' else None
  else None.
