(* ===== verification/Score.v ===== *)
(** * The peer score (go-libp2p-blossomsub/score.go)

    Statistics per peer and bitmask, an index of the peers by IP, and a record of
    every message that was seen lately.  A panic of the code (a missing entry of
    the parameters, a write to a nil map, a division by zero) is [None].  Time is
    in nanoseconds; the zero [time.Time] is [None]. *)
From Stdlib Require Import ZArith Lia Floats.SpecFloat.
From stdpp Require Import base tactics list numbers option gmap sets fin_maps.
From S2P Require Import Prelude GoBytes GoNet BlsRpc MessageCache Router Heartbeat GossipTracer ScoreParams.
Local Open Scope Z_scope.

(** ** State *)
Record bitmaskStats := mkBStats {
  ts_inMesh : bool; graftTime : Z; meshTime : Z;
  firstMessageDeliveries : spec_float; meshMessageDeliveries : spec_float; meshMessageDeliveriesActive : bool;
  meshFailurePenalty : spec_float; invalidMessageDeliveries : spec_float }.
Definition newBStats : bitmaskStats := mkBStats false 0 0 zeroF zeroF false zeroF zeroF.

Record peerStats := mkPStats {
  ps_connected : bool; expire : Z;
  ps_bitmasks : gmap bytes bitmaskStats;
  ips : list bytes;
  ipWhitelist : gmap bytes bool; (** nil is empty *)
  behaviourPenalty : spec_float }.
Definition newPStats : peerStats := mkPStats false 0 ∅ [] ∅ zeroF.

Inductive deliveryStatus := deliveryUnknown | deliveryValid | deliveryInvalid | deliveryIgnored | deliveryThrottled.
#[export] Instance deliveryStatus_eq_dec : EqDecision deliveryStatus.
Proof. solve_decision. Defined.

(** [d_peers] is a map that may be nil. *)
Record deliveryRecord := mkRecord {
  d_status : deliveryStatus; firstSeen : Z; validated : option Z; d_peers : option (gset PeerID) }.
(** The linked list from [head] to [tail] *)
Record messageDeliveries := mkDeliveries {
  seenMsgTTL : Z; records : gmap bytes deliveryRecord; queue : list (bytes * Z) }.

Record peerScore := mkScore {
  sp : PeerScoreParams;
  stats : gmap PeerID peerStats;
  peerIPs : gmap bytes (gset PeerID);
  deliveries : messageDeliveries;
  sc_idGen : msgIDGenerator }.

Definition set_stats (ps : peerScore) (x : gmap PeerID peerStats) : peerScore := mkScore (sp ps) x (peerIPs ps) (deliveries ps) (sc_idGen ps).
Definition set_peerIPs (ps : peerScore) (x : gmap bytes (gset PeerID)) : peerScore := mkScore (sp ps) (stats ps) x (deliveries ps) (sc_idGen ps).
Definition set_deliveries (ps : peerScore) (x : messageDeliveries) : peerScore := mkScore (sp ps) (stats ps) (peerIPs ps) x (sc_idGen ps).
Definition set_records (d : messageDeliveries) (m : gmap bytes deliveryRecord) : messageDeliveries := mkDeliveries (seenMsgTTL d) m (queue d).

Definition TimeCacheDuration : Z := 3600 * Second.
Definition newPeerScore (sha256 : bytes -> bytes) (params : PeerScoreParams) : peerScore :=
  let ttl := if SeenMsgTTL params =? 0 then TimeCacheDuration else SeenMsgTTL params in
  mkScore params ∅ ∅ (mkDeliveries ttl ∅ []) (newMsgIdGenerator sha256).
Definition Start (ps : peerScore) (idGen : msgIDGenerator) : peerScore :=
  mkScore (sp ps) (stats ps) (peerIPs ps) (deliveries ps) idGen.

(** ** Environment *)
(** A connection: whether it is limited, and the IP of its remote address if it has one *)
Record scoreConn := mkSConn { c_limited : bool; c_ip : option bytes }.
Record scoreEnv := mkSEnv {
  s_now : Z;
  s_order : gset bytes -> list bytes;           (** the order of a range over bitmasks *)
  s_conns : PeerID -> list scoreConn }.          (** [host.Network().ConnsToPeer] *)
Record scoreEnv_ok (e : scoreEnv) : Prop := { s_perm X : s_order e X ≡ₚ elements X }.

Definition IPv6loopback : bytes := replicate 15 Byte.x00 ++ [Byte.x01].
Definition IsLoopback (ip : bytes) : bool :=
  match To4 ip with
  | Some ip4 => bool_decide (head ip4 = Some (z2b 127))
  | None => bool_decide (ip = IPv6loopback)
  end.

Section score.
Context (e : scoreEnv).

Definition getIPs (p : PeerID) : list bytes :=
  s_conns e p ≫= fun c =>
    if c_limited c then []
    else match c_ip c with
         | None => []
         | Some ip =>
             if IsLoopback ip then []
             else if is_Some_b (To4 ip) then [IP_String ip]
             else [IP_String ip; IP_String (take 8 ip ++ replicate 8 Byte.x00)]
         end.

(** ** The index of IPs *)
Definition trackIP (p : PeerID) (m : gmap bytes (gset PeerID)) (ip : bytes) : gmap bytes (gset PeerID) :=
  <[ip := {[p]} ∪ default ∅ (m !! ip)]> m.
Definition untrackIP (p : PeerID) (m : gmap bytes (gset PeerID)) (ip : bytes) : gmap bytes (gset PeerID) :=
  match m !! ip with
  | None => m
  | Some peers => if bool_decide (peers ∖ {[p]} = ∅) then delete ip m else <[ip := peers ∖ {[p]}]> m
  end.
Definition setIPs (m : gmap bytes (gset PeerID)) (p : PeerID) (newips oldips : list bytes) : gmap bytes (gset PeerID) :=
  let m := foldl (trackIP p) m (filter (fun ip => ip ∉ oldips) newips) in
  foldl (untrackIP p) m (filter (fun ip => ip ∉ newips) oldips).
Definition removeIPs (m : gmap bytes (gset PeerID)) (p : PeerID) (l : list bytes) : gmap bytes (gset PeerID) :=
  foldl (untrackIP p) m l.

(** ** The score *)
Definition whitelisted (ps : peerScore) (ip : bytes) : bool :=
  existsb (fun n => Contains n (default [] (ParseIP ip))) (IPColocationFactorWhitelist (sp ps)).

(** One IP of a peer: the whitelist cache and the sum *)
Definition colocationStep (ps : peerScore) (st : gmap bytes bool * spec_float) (ip : bytes) : gmap bytes bool * spec_float :=
  let '(wl, result) := st in
  let '(wl, skip) :=
    if bool_decide (IPColocationFactorWhitelist (sp ps) = []) then (wl, false)
    else match wl !! ip with
         | Some w => (wl, w)
         | None => (<[ip := whitelisted ps ip]> wl, whitelisted ps ip)
         end in
  if skip then (wl, result)
  else
    let peersInIP := Z.of_nat (size (default ∅ (peerIPs ps !! ip))) in
    let th := IPColocationFactorThreshold (sp ps) in
    if th <? peersInIP then
      let surpluss := ofZ (peersInIP - th) in (wl, addF result (mulF surpluss surpluss))
    else (wl, result).

Definition ipColocationFactor (ps : peerScore) (p : PeerID) : peerScore * spec_float :=
  match stats ps !! p with
  | None => (ps, zeroF)
  | Some pst =>
      let '(wl, result) := foldl (colocationStep ps) (ipWhitelist pst, zeroF) (ips pst) in
      (set_stats ps (<[p := mkPStats (ps_connected pst) (expire pst) (ps_bitmasks pst) (ips pst) wl (behaviourPenalty pst)]> (stats ps)),
       result)
  end.

(** The score of a bitmask; the quotient of durations panics on a quantum of zero. *)
Definition bitmaskScore (bp : BitmaskScoreParams) (ts : bitmaskStats) : option spec_float :=
  s ← (if ts_inMesh ts then
         if TimeInMeshQuantum bp =? 0 then None
         else
           let p1 := ofZ (Z.quot (meshTime ts) (TimeInMeshQuantum bp)) in
           let p1 := if ltF (TimeInMeshCap bp) p1 then TimeInMeshCap bp else p1 in
           Some (addF zeroF (mulF p1 (TimeInMeshWeight bp)))
       else Some zeroF);
  let s := addF s (mulF (firstMessageDeliveries ts) (FirstMessageDeliveriesWeight bp)) in
  let s := if meshMessageDeliveriesActive ts && ltF (meshMessageDeliveries ts) (MeshMessageDeliveriesThreshold bp) then
             let deficit := subF (MeshMessageDeliveriesThreshold bp) (meshMessageDeliveries ts) in
             addF s (mulF (mulF deficit deficit) (MeshMessageDeliveriesWeight bp))
           else s in
  let s := addF s (mulF (meshFailurePenalty ts) (MeshFailurePenaltyWeight bp)) in
  let p4 := mulF (invalidMessageDeliveries ts) (invalidMessageDeliveries ts) in
  Some (addF s (mulF p4 (InvalidMessageDeliveriesWeight bp))).

Definition bitmaskStep (ps : peerScore) (pst : peerStats) (acc : spec_float) (bitmask : bytes) : option spec_float :=
  match ps_bitmasks pst !! bitmask, Bitmasks (sp ps) !! bitmask with
  | Some ts, Some bp => s ← bitmaskScore bp ts; Some (addF acc (mulF s (BitmaskWeight bp)))
  | _, _ => Some acc
  end.

(** [p.AppSpecificScore] is not nil after validation; calling nil panics. *)
Definition score (ps : peerScore) (p : PeerID) : option (peerScore * spec_float) :=
  match stats ps !! p with
  | None => Some (ps, zeroF)
  | Some pst =>
      s ← foldlM (bitmaskStep ps pst) zeroF (s_order e (dom (ps_bitmasks pst)));
      let s := if ltF zeroF (BitmaskScoreCap (sp ps)) && ltF (BitmaskScoreCap (sp ps)) s then BitmaskScoreCap (sp ps) else s in
      app ← AppSpecificScore (sp ps);
      let s := addF s (mulF (app p) (AppSpecificWeight (sp ps))) in
      let '(ps, p6) := ipColocationFactor ps p in
      let s := addF s (mulF p6 (IPColocationFactorWeight (sp ps))) in
      let th := BehaviourPenaltyThreshold (sp ps) in
      let s := if ltF th (behaviourPenalty pst) then
                 let excess := subF (behaviourPenalty pst) th in
                 addF s (mulF (mulF excess excess) (BehaviourPenaltyWeight (sp ps)))
               else s in
      Some (ps, s)
  end.

(** ** Updates of the statistics of a peer *)
Definition set_bitmaskStats (pst : peerStats) (m : gmap bytes bitmaskStats) : peerStats :=
  mkPStats (ps_connected pst) (expire pst) m (ips pst) (ipWhitelist pst) (behaviourPenalty pst).
Definition set_penalty (pst : peerStats) (x : spec_float) : peerStats :=
  mkPStats (ps_connected pst) (expire pst) (ps_bitmasks pst) (ips pst) (ipWhitelist pst) x.
Definition set_ips (pst : peerStats) (c : bool) (l : list bytes) : peerStats :=
  mkPStats c (expire pst) (ps_bitmasks pst) l (ipWhitelist pst) (behaviourPenalty pst).

Definition AddPenalty (ps : peerScore) (p : PeerID) (cnt : Z) : peerScore :=
  match stats ps !! p with
  | None => ps
  | Some pst => set_stats ps (<[p := set_penalty pst (addF (behaviourPenalty pst) (ofZ cnt))]> (stats ps))
  end.

(** [getBitmaskStats]: the statistics, and [None] when the bitmask is not scored *)
Definition getBitmaskStats (pst : peerStats) (bitmask : bytes) (params : PeerScoreParams) : option bitmaskStats :=
  match ps_bitmasks pst !! bitmask with
  | Some ts => Some ts
  | None => match Bitmasks params !! bitmask with None => None | Some _ => Some newBStats end
  end.
(** An update of the statistics of a peer and a bitmask, if they exist or can; the
    update may look at the parameters of the bitmask. *)
Definition withStats (ps : peerScore) (p : PeerID) (bitmask : bytes)
    (f : bitmaskStats -> option bitmaskStats) : option peerScore :=
  match stats ps !! p with
  | None => Some ps
  | Some pst =>
      match getBitmaskStats pst bitmask (sp ps) with
      | None => Some ps
      | Some ts => ts' ← f ts; Some (set_stats ps (<[p := set_bitmaskStats pst (<[bitmask := ts']> (ps_bitmasks pst))]> (stats ps)))
      end
  end.

Definition clampF (cap x : spec_float) : spec_float := if ltF cap x then cap else x.
Definition set_first (ts : bitmaskStats) (x : spec_float) : bitmaskStats :=
  mkBStats (ts_inMesh ts) (graftTime ts) (meshTime ts) x (meshMessageDeliveries ts) (meshMessageDeliveriesActive ts) (meshFailurePenalty ts) (invalidMessageDeliveries ts).
Definition set_meshDel (ts : bitmaskStats) (x : spec_float) : bitmaskStats :=
  mkBStats (ts_inMesh ts) (graftTime ts) (meshTime ts) (firstMessageDeliveries ts) x (meshMessageDeliveriesActive ts) (meshFailurePenalty ts) (invalidMessageDeliveries ts).
Definition set_invalid (ts : bitmaskStats) (x : spec_float) : bitmaskStats :=
  mkBStats (ts_inMesh ts) (graftTime ts) (meshTime ts) (firstMessageDeliveries ts) (meshMessageDeliveries ts) (meshMessageDeliveriesActive ts) (meshFailurePenalty ts) x.
Definition set_inMesh (ts : bitmaskStats) (b : bool) : bitmaskStats :=
  mkBStats b (graftTime ts) (meshTime ts) (firstMessageDeliveries ts) (meshMessageDeliveries ts) (meshMessageDeliveriesActive ts) (meshFailurePenalty ts) (invalidMessageDeliveries ts).
Definition set_failure (ts : bitmaskStats) (x : spec_float) : bitmaskStats :=
  mkBStats (ts_inMesh ts) (graftTime ts) (meshTime ts) (firstMessageDeliveries ts) (meshMessageDeliveries ts) (meshMessageDeliveriesActive ts) x (invalidMessageDeliveries ts).

Definition Graft (ps : peerScore) (p : PeerID) (bitmask : bytes) : option peerScore :=
  withStats ps p bitmask (fun ts =>
    Some (mkBStats true (s_now e) 0 (firstMessageDeliveries ts) (meshMessageDeliveries ts) false (meshFailurePenalty ts) (invalidMessageDeliveries ts))).

(** The sticky penalty for a deficit of deliveries *)
Definition stickyPenalty (threshold : spec_float) (ts : bitmaskStats) : bitmaskStats :=
  let deficit := subF threshold (meshMessageDeliveries ts) in
  set_failure ts (addF (meshFailurePenalty ts) (mulF deficit deficit)).
Definition pruneStats (threshold : spec_float) (ts : bitmaskStats) : bitmaskStats :=
  set_inMesh (if meshMessageDeliveriesActive ts && ltF (meshMessageDeliveries ts) threshold then stickyPenalty threshold ts else ts) false.
Definition Prune (ps : peerScore) (p : PeerID) (bitmask : bytes) : option peerScore :=
  withStats ps p bitmask (fun ts =>
    bp ← Bitmasks (sp ps) !! bitmask; Some (pruneStats (MeshMessageDeliveriesThreshold bp) ts)).

(** What [RemovePeer] keeps of a bitmask *)
Definition retainStats (threshold : spec_float) (ts : bitmaskStats) : bitmaskStats :=
  let ts := set_first ts zeroF in
  set_inMesh (if ts_inMesh ts && meshMessageDeliveriesActive ts && ltF (meshMessageDeliveries ts) threshold
              then stickyPenalty threshold ts else ts) false.
Definition retainAll (ps : peerScore) (m : gmap bytes bitmaskStats) : option (gmap bytes bitmaskStats) :=
  foldlM (fun acc kv => bp ← Bitmasks (sp ps) !! kv.1;
    Some (<[kv.1 := retainStats (MeshMessageDeliveriesThreshold bp) kv.2]> acc)) ∅ (map_to_list m).

Definition AddPeer (ps : peerScore) (p : PeerID) : peerScore :=
  let pst := default newPStats (stats ps !! p) in
  let l := getIPs p in
  set_stats (set_peerIPs ps (setIPs (peerIPs ps) p l (ips pst))) (<[p := set_ips pst true l]> (stats ps)).

Definition RemovePeer (ps : peerScore) (p : PeerID) : option peerScore :=
  match stats ps !! p with
  | None => Some ps
  | Some _ =>
      r ← score ps p;
      let '(ps, s) := r in
      pst ← stats ps !! p;
      if ltF zeroF s then
        Some (set_stats (set_peerIPs ps (removeIPs (peerIPs ps) p (ips pst))) (delete p (stats ps)))
      else
        m ← retainAll ps (ps_bitmasks pst);
        Some (set_stats ps (<[p := mkPStats false (s_now e + RetainScore (sp ps)) m (ips pst) (ipWhitelist pst) (behaviourPenalty pst)]> (stats ps)))
  end.

(** ** Periodic maintenance *)
Definition decay (zero d x : spec_float) : spec_float := let y := mulF x d in if ltF y zero then zeroF else y.
Definition decayStats (zero : spec_float) (bp : BitmaskScoreParams) (ts : bitmaskStats) : bitmaskStats :=
  let mt := if ts_inMesh ts then s_now e - graftTime ts else meshTime ts in
  mkBStats (ts_inMesh ts) (graftTime ts) mt
    (decay zero (FirstMessageDeliveriesDecay bp) (firstMessageDeliveries ts))
    (decay zero (MeshMessageDeliveriesDecay bp) (meshMessageDeliveries ts))
    ((ts_inMesh ts && (MeshMessageDeliveriesActivation bp <? mt)) || meshMessageDeliveriesActive ts)
    (decay zero (MeshFailurePenaltyDecay bp) (meshFailurePenalty ts))
    (decay zero (InvalidMessageDeliveriesDecay bp) (invalidMessageDeliveries ts)).
Definition decayPeer (ps : peerScore) (pst : peerStats) : peerStats :=
  let zero := DecayToZero (sp ps) in
  set_penalty (set_bitmaskStats pst (map_imap (fun b ts =>
    Some (match Bitmasks (sp ps) !! b with None => ts | Some bp => decayStats zero bp ts end)) (ps_bitmasks pst)))
    (decay zero (BehaviourPenaltyDecay (sp ps)) (behaviourPenalty pst)).
Definition refreshStep (ps : peerScore) (p : PeerID) : peerScore :=
  match stats ps !! p with
  | None => ps
  | Some pst =>
      if ps_connected pst then set_stats ps (<[p := decayPeer ps pst]> (stats ps))
      else if expire pst <? s_now e then
        set_stats (set_peerIPs ps (removeIPs (peerIPs ps) p (ips pst))) (delete p (stats ps))
      else ps
  end.
Definition refreshScores (ps : peerScore) : peerScore := foldl refreshStep ps (elements (dom (stats ps))).

Definition refreshIPStep (ps : peerScore) (p : PeerID) : peerScore :=
  match stats ps !! p with
  | None => ps
  | Some pst =>
      if ps_connected pst then
        let l := getIPs p in
        set_stats (set_peerIPs ps (setIPs (peerIPs ps) p l (ips pst))) (<[p := set_ips pst true l]> (stats ps))
      else ps
  end.
Definition refreshIPs (ps : peerScore) : peerScore := foldl refreshIPStep ps (elements (dom (stats ps))).

(** The caps of the counters are lowered at once. *)
Definition recap (p : BitmaskScoreParams) (ts : bitmaskStats) : bitmaskStats :=
  set_meshDel (set_first ts (clampF (FirstMessageDeliveriesCap p) (firstMessageDeliveries ts)))
    (clampF (MeshMessageDeliveriesCap p) (meshMessageDeliveries ts)).
Definition SetBitmaskScoreParams (ps : peerScore) (bitmask : bytes) (p : BitmaskScoreParams) : peerScore :=
  let ps' := mkScore (set_Bitmasks (sp ps) (<[bitmask := p]> (Bitmasks (sp ps)))) (stats ps) (peerIPs ps) (deliveries ps) (sc_idGen ps) in
  match Bitmasks (sp ps) !! bitmask with
  | None => ps'
  | Some old =>
      if ltF (FirstMessageDeliveriesCap p) (FirstMessageDeliveriesCap old)
         || ltF (MeshMessageDeliveriesCap p) (MeshMessageDeliveriesCap old)
      then set_stats ps' ((fun pst => set_bitmaskStats pst (alter (recap p) bitmask (ps_bitmasks pst))) <$> stats ps)
      else ps'
  end.

(** ** Delivery records *)
Definition getRecord (d : messageDeliveries) (id : bytes) : messageDeliveries * deliveryRecord :=
  match records d !! id with
  | Some rec => (d, rec)
  | None =>
      let rec := mkRecord deliveryUnknown (s_now e) None (Some ∅) in
      (mkDeliveries (seenMsgTTL d) (<[id := rec]> (records d)) (queue d ++ [(id, s_now e + seenMsgTTL d)]), rec)
  end.
Fixpoint gcLoop (q : list (bytes * Z)) (m : gmap bytes deliveryRecord) : list (bytes * Z) * gmap bytes deliveryRecord :=
  match q with
  | (id, x) :: q' => if x <? s_now e then gcLoop q' (delete id m) else (q, m)
  | [] => ([], m)
  end.
Definition gc (d : messageDeliveries) : messageDeliveries :=
  let '(q, m) := gcLoop (queue d) (records d) in mkDeliveries (seenMsgTTL d) m q.
Definition gcDeliveryRecords (ps : peerScore) : peerScore := set_deliveries ps (gc (deliveries ps)).

Definition setRecord (ps : peerScore) (id : bytes) (r : deliveryRecord) : peerScore :=
  set_deliveries ps (set_records (deliveries ps) (<[id := r]> (records (deliveries ps)))).

(** ** Deliveries count for the peers *)
Definition markInvalidMessageDelivery (msg : Message) (ps : peerScore) (p : PeerID) : option peerScore :=
  withStats ps p (GetBitmask msg) (fun ts => Some (set_invalid ts (addF (invalidMessageDeliveries ts) oneF))).

Definition addMeshDelivery (bp : BitmaskScoreParams) (ts : bitmaskStats) : bitmaskStats :=
  set_meshDel ts (clampF (MeshMessageDeliveriesCap bp) (addF (meshMessageDeliveries ts) oneF)).
Definition markFirstMessageDelivery (ps : peerScore) (p : PeerID) (msg : Message) : option peerScore :=
  withStats ps p (GetBitmask msg) (fun ts =>
    bp ← Bitmasks (sp ps) !! GetBitmask msg;
    let ts := set_first ts (clampF (FirstMessageDeliveriesCap bp) (addF (firstMessageDeliveries ts) oneF)) in
    Some (if ts_inMesh ts then addMeshDelivery bp ts else ts)).

Definition markDuplicateMessageDelivery (msg : Message) (valid : option Z) (ps : peerScore) (p : PeerID) : option peerScore :=
  withStats ps p (GetBitmask msg) (fun ts =>
    if negb (ts_inMesh ts) then Some ts
    else
      bp ← Bitmasks (sp ps) !! GetBitmask msg;
      match valid with
      | Some t => if MeshMessageDeliveriesWindow bp <? s_now e - t then Some ts else Some (addMeshDelivery bp ts)
      | None => Some (addMeshDelivery bp ts)
      end).

Definition ValidateMessage (ps : peerScore) (msg : Message) : peerScore :=
  set_deliveries ps (getRecord (deliveries ps) (idOf (sc_idGen ps) msg)).1.

Definition DeliverMessage (ps : peerScore) (msg : Message) : option peerScore :=
  ps ← markFirstMessageDelivery ps (ReceivedFrom msg) msg;
  let id := idOf (sc_idGen ps) msg in
  let '(d, drec) := getRecord (deliveries ps) id in
  let ps := set_deliveries ps d in
  if negb (bool_decide (d_status drec = deliveryUnknown)) then Some ps
  else
    let ps := setRecord ps id (mkRecord deliveryValid (firstSeen drec) (Some (s_now e)) (d_peers drec)) in
    foldlM (fun ps p => if bool_decide (p = ReceivedFrom msg) then Some ps else markDuplicateMessageDelivery msg None ps p)
      ps (elements (default ∅ (d_peers drec))).

Definition RejectMessage (ps : peerScore) (msg : Message) (reason : RejectReason) : option peerScore :=
  match reason with
  | RejectMissingSignature | RejectInvalidSignature | RejectUnexpectedSignature | RejectUnexpectedAuthInfo
  | RejectSelfOrigin => markInvalidMessageDelivery msg ps (ReceivedFrom msg)
  | RejectBlacklstedPeer | RejectBlacklistedSource | RejectValidationQueueFull => Some ps
  | _ =>
      let id := idOf (sc_idGen ps) msg in
      let '(d, drec) := getRecord (deliveries ps) id in
      let ps := set_deliveries ps d in
      if negb (bool_decide (d_status drec = deliveryUnknown)) then Some ps
      else
        let close s := setRecord ps id (mkRecord s (firstSeen drec) (validated drec) None) in
        match reason with
        | RejectValidationThrottled => Some (close deliveryThrottled)
        | RejectValidationIgnored => Some (close deliveryIgnored)
        | _ =>
            ps ← markInvalidMessageDelivery msg (close deliveryInvalid) (ReceivedFrom msg);
            foldlM (markInvalidMessageDelivery msg) ps (elements (default ∅ (d_peers drec)))
        end
  end.

(** A peer enters the map of a record; the map must not be nil. *)
Definition notePeer (ps : peerScore) (id : bytes) (drec : deliveryRecord) (p : PeerID) : option peerScore :=
  X ← d_peers drec;
  Some (setRecord ps id (mkRecord (d_status drec) (firstSeen drec) (validated drec) (Some ({[p]} ∪ X)))).

Definition DuplicateMessage (ps : peerScore) (msg : Message) : option peerScore :=
  let id := idOf (sc_idGen ps) msg in
  let '(d, drec) := getRecord (deliveries ps) id in
  let ps := set_deliveries ps d in
  let p := ReceivedFrom msg in
  if bool_decide (p ∈ default ∅ (d_peers drec)) then Some ps
  else match d_status drec with
  | deliveryUnknown => notePeer ps id drec p
  | deliveryValid => ps ← notePeer ps id drec p; markDuplicateMessageDelivery msg (validated drec) ps p
  | deliveryInvalid => markInvalidMessageDelivery msg ps p
  | deliveryThrottled | deliveryIgnored => Some ps
  end.
End score.
