(* ===== verification/ScoreInv.v ===== *)
(** * What the peer score keeps

    The index of IPs lists exactly the peers that have an IP, the queue of
    deliveries lists exactly the records in the order of their expiry, every
    bitmask with statistics has parameters, and no operation panics when the
    parameters are sound. *)
From Stdlib Require Import ZArith Lia Sorted String Floats.SpecFloat.
From stdpp Require Import base tactics list numbers option gmap sets fin_maps sorting.
From S2P Require Import Prelude GoBytes GoNet BlsRpc MessageCache Router Heartbeat GossipTracer ScoreParams Score.
Local Open Scope Z_scope.

(** ** The index *)
Definition tracked (m : gmap bytes (gset PeerID)) (ip : bytes) (p : PeerID) : Prop := p ∈ default ∅ (m !! ip).
Definition noEmpty (m : gmap bytes (gset PeerID)) : Prop := forall ip, m !! ip <> Some ∅.

Lemma trackIP_spec p m ip ip' q :
  tracked (trackIP p m ip) ip' q <-> tracked m ip' q \/ (q = p /\ ip' = ip).
Proof.
  unfold tracked, trackIP. destruct (decide (ip = ip')) as [->|Hne].
  - rewrite lookup_insert_eq. simpl. set_solver.
  - rewrite lookup_insert_ne by done. naive_solver.
Qed.
Lemma untrackIP_spec p m ip ip' q :
  tracked (untrackIP p m ip) ip' q <-> tracked m ip' q /\ ~ (q = p /\ ip' = ip).
Proof.
  unfold tracked, untrackIP. destruct (m !! ip) as [X|] eqn:Em.
  - case_bool_decide as HX.
    + destruct (decide (ip = ip')) as [->|Hne]; [rewrite lookup_delete_eq, Em|rewrite lookup_delete_ne by done]; simpl; set_solver.
    + destruct (decide (ip = ip')) as [->|Hne]; [rewrite lookup_insert_eq, Em|rewrite lookup_insert_ne by done]; simpl; set_solver.
  - split; [|naive_solver]. intros H. split; [done|]. intros [-> ->]. rewrite Em in H. set_solver.
Qed.
Lemma trackIP_noEmpty p m ip : noEmpty m -> noEmpty (trackIP p m ip).
Proof.
  intros H ip'. unfold trackIP. destruct (decide (ip = ip')) as [->|Hne].
  - rewrite lookup_insert_eq. intros [= E]. set_solver.
  - by rewrite lookup_insert_ne.
Qed.
Lemma untrackIP_noEmpty p m ip : noEmpty m -> noEmpty (untrackIP p m ip).
Proof.
  intros H ip'. unfold untrackIP. destruct (m !! ip) as [X|]; [|done]. case_bool_decide.
  - destruct (decide (ip = ip')) as [->|Hne]; [by rewrite lookup_delete_eq|by rewrite lookup_delete_ne].
  - destruct (decide (ip = ip')) as [->|Hne]; [rewrite lookup_insert_eq; naive_solver|by rewrite lookup_insert_ne].
Qed.

Lemma track_fold p l : forall m, noEmpty m -> noEmpty (foldl (trackIP p) m l)
  /\ forall ip q, tracked (foldl (trackIP p) m l) ip q <-> tracked m ip q \/ (q = p /\ ip ∈ l).
Proof.
  induction l as [|x l IH]; intros m Hm; [split; [done|]; set_solver|]. cbn [foldl].
  destruct (IH (trackIP p m x) (trackIP_noEmpty p m x Hm)) as [H1 H2]. split; [done|]. intros ip q.
  rewrite H2, trackIP_spec. set_solver.
Qed.
Lemma untrack_fold p l : forall m, noEmpty m -> noEmpty (foldl (untrackIP p) m l)
  /\ forall ip q, tracked (foldl (untrackIP p) m l) ip q <-> tracked m ip q /\ ~ (q = p /\ ip ∈ l).
Proof.
  induction l as [|x l IH]; intros m Hm; [split; [done|]; set_solver|]. cbn [foldl].
  destruct (IH (untrackIP p m x) (untrackIP_noEmpty p m x Hm)) as [H1 H2]. split; [done|]. intros ip q.
  rewrite H2, untrackIP_spec. set_solver.
Qed.

Lemma setIPs_spec m p new old :
  noEmpty m -> (forall ip, tracked m ip p <-> ip ∈ old) ->
  noEmpty (setIPs m p new old)
  /\ forall ip q, tracked (setIPs m p new old) ip q <-> if decide (q = p) then ip ∈ new else tracked m ip q.
Proof.
  intros Hm Hold. unfold setIPs.
  destruct (track_fold p (filter (fun ip => ip ∉ old) new) m Hm) as [H1 H2].
  destruct (untrack_fold p (filter (fun ip => ip ∉ new) old) _ H1) as [H3 H4]. split; [exact H3|]. intros ip q.
  rewrite H4, H2, !list_elem_of_filter. case_decide as Hq; [subst q; rewrite Hold|naive_solver].
  destruct (decide (ip ∈ old)), (decide (ip ∈ new)); naive_solver.
Qed.
Lemma removeIPs_spec m p old :
  noEmpty m -> (forall ip, tracked m ip p <-> ip ∈ old) ->
  noEmpty (removeIPs m p old) /\ forall ip q, tracked (removeIPs m p old) ip q <-> q <> p /\ tracked m ip q.
Proof.
  intros Hm Hold. destruct (untrack_fold p old m Hm) as [H1 H2]. split; [done|]. intros ip q.
  unfold removeIPs. rewrite H2. destruct (decide (q = p)) as [->|]; [rewrite Hold|]; naive_solver.
Qed.

(** ** The invariant of the state *)
Record indexOk (ps : peerScore) : Prop := {
  ix_noEmpty : noEmpty (peerIPs ps);
  ix_exact : forall ip p, tracked (peerIPs ps) ip p <-> exists pst, stats ps !! p = Some pst /\ ip ∈ ips pst }.

Definition recordOk (r : deliveryRecord) : Prop :=
  (d_status r = deliveryUnknown \/ d_status r = deliveryValid) -> is_Some (d_peers r).

(** The records at the instant [t] *)
Record deliveriesOk (t : Z) (d : messageDeliveries) : Prop := {
  dl_nodup : NoDup (queue d).*1;
  dl_dom : dom (records d) = list_to_set (queue d).*1;
  dl_sorted : StronglySorted Z.le (queue d).*2;
  dl_recent : Forall (fun x => x <= t + seenMsgTTL d) (queue d).*2;
  dl_records : map_Forall (fun _ => recordOk) (records d) }.

Definition scoredOk (ps : peerScore) : Prop :=
  forall p pst, stats ps !! p = Some pst -> dom (ps_bitmasks pst) ⊆ dom (Bitmasks (sp ps)).

Record scoreInv (t : Z) (ps : peerScore) : Prop := {
  si_index : indexOk ps;
  si_deliveries : deliveriesOk t (deliveries ps);
  si_scored : scoredOk ps;
  si_app : is_Some (AppSpecificScore (sp ps)) }.

(** ** Deliveries *)
Section deliveries.
Context (e : scoreEnv).
Abbreviation t := (s_now e).

Lemma deliveriesOk_later t0 d : t0 <= t -> deliveriesOk t0 d -> deliveriesOk t d.
Proof. intros Ht []. split; try done. eapply Forall_impl; [done|]. simpl. lia. Qed.

Lemma getRecord_spec d id : deliveriesOk t d ->
  let '(d', r) := getRecord e d id in
  deliveriesOk t d' /\ records d' !! id = Some r /\ recordOk r
  /\ (forall id', id' <> id -> records d' !! id' = records d !! id')
  /\ (forall r0, records d !! id = Some r0 -> r = r0 /\ d' = d).
Proof.
  intros D. unfold getRecord. destruct (records d !! id) as [r|] eqn:Er.
  - split_and!; try done; [by eapply (dl_records _ _ D)|by intros ? [= ->]].
  - destruct D as [D1 D2 D3 D4 D5]. split_and!; simpl; try done; [|by rewrite lookup_insert_eq| |by intros; rewrite lookup_insert_ne].
    2: { intros _. by eexists. }
    assert (Hid : id ∉ (queue d).*1).
    { apply not_elem_of_dom in Er. rewrite D2 in Er. by rewrite elem_of_list_to_set in Er. }
    split; simpl; rewrite ?fmap_app; simpl.
    + apply NoDup_app. split_and!; [done| |apply NoDup_singleton]. set_solver.
    + rewrite dom_insert_L, D2, list_to_set_app_L. simpl. set_solver.
    + apply StronglySorted_app. split_and!; [|done|repeat constructor].
      intros x1 x2 H1 ->%list_elem_of_singleton. rewrite Forall_forall in D4. by apply D4.
    + apply Forall_app. split; [done|]. repeat constructor. simpl. lia.
    + apply map_Forall_insert_2; [|done]. intros _. by eexists.
Qed.

Lemma setRecord_ok d id r : deliveriesOk t d -> is_Some (records d !! id) -> recordOk r ->
  deliveriesOk t (set_records d (<[id := r]> (records d))).
Proof.
  intros [D1 D2 D3 D4 D5] Hid Hr. split; simpl; try done.
  - rewrite dom_insert_L, D2. apply elem_of_dom in Hid. rewrite D2 in Hid. set_solver.
  - by apply map_Forall_insert_2.
Qed.

(** The garbage collection drops a prefix of the queue, exactly what has expired. *)
Lemma gcLoop_spec q : forall m, StronglySorted Z.le q.*2 ->
  let '(q', m') := gcLoop e q m in
  exists pre, q = pre ++ q' /\ Forall (fun ix => ix.2 < t) pre /\ Forall (fun ix => t <= ix.2) q'
    /\ forall i, m' !! i = if decide (i ∈ pre.*1) then None else m !! i.
Proof.
  induction q as [|[id x] q IH]; intros m Hs; simpl.
  { exists []. split_and!; try done. }
  apply StronglySorted_inv in Hs as [Hs Hall]. destruct (Z.ltb_spec x t) as [Hx|Hx].
  - specialize (IH (delete id m) Hs). destruct (gcLoop e q (delete id m)) as [q' m']. destruct IH as (pre & -> & H1 & H2 & H3).
    exists ((id, x) :: pre). split_and!; [done|by constructor|done|]. intros i. rewrite H3. cbn [fmap list_fmap fst].
    destruct (decide (i = id)) as [->|Hne].
    + rewrite lookup_delete_eq, (decide_True (P := id ∈ id :: pre.*1)) by set_solver. by case_decide.
    + rewrite lookup_delete_ne by done. apply decide_ext. set_solver.
  - exists []. split_and!; [done|done| |intros i; rewrite decide_False by set_solver; done]. constructor; [done|]. change (Forall (Z.le x) (snd <$> q)) in Hall. rewrite Forall_fmap in Hall.
    eapply Forall_impl; [done|]. simpl. lia.
Qed.

End deliveries.

Lemma gc_ok e d : deliveriesOk (s_now e) d -> deliveriesOk (s_now e) (gc e d)
  /\ (forall id x, (id, x) ∈ queue d -> records (gc e d) !! id = if x <? s_now e then None else records d !! id).
Proof.
  intros [D1 D2 D3 D4 D5]. unfold gc. pose proof (gcLoop_spec e (queue d) (records d) D3) as H.
  destruct (gcLoop e (queue d) (records d)) as [q m]. destruct H as (pre & E & H1 & H2 & H3). rewrite E, (fmap_app fst) in D1, D2. rewrite E, (fmap_app snd) in D3, D4. rewrite E. cbn [records queue]. apply NoDup_app in D1 as (N1 & N2 & N3). split; [split; simpl|].
  - done.
  - apply set_eq. intros id. rewrite elem_of_dom, H3, elem_of_list_to_set.
    assert (Hd := D2). rewrite set_eq in Hd. specialize (Hd id).
    rewrite elem_of_dom, elem_of_list_to_set, elem_of_app in Hd. case_decide as Hp; [|naive_solver].
    split; [by intros []|]. intros Hq. by destruct (N2 id Hp).
  - by apply StronglySorted_app in D3 as (_ & _ & ?).
  - by apply Forall_app in D4 as [_ ?].
  - intros id r. rewrite H3. case_decide; [done|]. apply D5.
  - intros id x Hx. simpl. rewrite H3. apply elem_of_app in Hx as [Hx|Hx].
    + rewrite decide_True by (apply list_elem_of_fmap; by exists (id, x)). rewrite Forall_forall in H1. specialize (H1 _ Hx).
      simpl in H1. by destruct (Z.ltb_spec x (s_now e)); [|lia].
    + rewrite decide_False. 2: { intros Hp. apply (N2 id Hp), list_elem_of_fmap. by exists (id, x). }
      rewrite Forall_forall in H2. specialize (H2 _ Hx). simpl in H2. by destruct (Z.ltb_spec x (s_now e)); [lia|].
Qed.

(** ** Operations that change only the statistics of bitmasks *)
Record mild (ps ps' : peerScore) : Prop := {
  mi_sp : sp ps' = sp ps;
  mi_peerIPs : peerIPs ps' = peerIPs ps;
  mi_deliveries : deliveries ps' = deliveries ps;
  mi_idGen : sc_idGen ps' = sc_idGen ps;
  mi_ips : forall p, ips <$> stats ps' !! p = ips <$> stats ps !! p;
  mi_scored : scoredOk ps -> scoredOk ps' }.

Lemma mild_refl ps : mild ps ps.
Proof. by split. Qed.
Lemma mild_trans ps1 ps2 ps3 : mild ps1 ps2 -> mild ps2 ps3 -> mild ps1 ps3.
Proof. intros [A1 A2 A3 A4 A5 A6] [B1 B2 B3 B4 B5 B6]. split; [congruence..|intros p; by rewrite B5|auto]. Qed.

Lemma index_same ps ps' : peerIPs ps' = peerIPs ps -> (forall p, ips <$> stats ps' !! p = ips <$> stats ps !! p) ->
  indexOk ps -> indexOk ps'.
Proof.
  intros E1 E2 [I1 I2]. split; rewrite E1; [done|]. intros ip p. rewrite I2. specialize (E2 p).
  split; intros (st & Est & Hin); rewrite Est in E2.
  - destruct (stats ps' !! p) as [st'|]; [|done]. injection E2 as E2. exists st'. by rewrite E2.
  - destruct (stats ps !! p) as [st'|]; [|done]. injection E2 as E2. exists st'. by rewrite <-E2.
Qed.
Lemma mild_inv t ps ps' : mild ps ps' -> scoreInv t ps -> scoreInv t ps'.
Proof.
  intros [A1 A2 A3 A4 A5 A6] [I1 I2 I3 I4].
  split; [by eapply index_same|by rewrite A3|auto|by rewrite A1].
Qed.
(** Likewise with a change of the records *)
Lemma deliveries_inv t ps d : scoreInv t ps -> deliveriesOk t d -> scoreInv t (set_deliveries ps d).
Proof. intros [[I0 I1] I2 I3 I4] D. by split. Qed.

Lemma mild_insert ps p pst pst' :
  stats ps !! p = Some pst -> ips pst' = ips pst ->
  (dom (ps_bitmasks pst) ⊆ dom (Bitmasks (sp ps)) -> dom (ps_bitmasks pst') ⊆ dom (Bitmasks (sp ps))) ->
  mild ps (set_stats ps (<[p := pst']> (stats ps))).
Proof.
  intros Hp Hi Hd. split; try done.
  - intros q. simpl. destruct (decide (p = q)) as [<-|]; [rewrite lookup_insert_eq, Hp; simpl; by rewrite Hi|by rewrite lookup_insert_ne].
  - intros S q st. simpl. intros [[<- <-]|[_ Hq]]%lookup_insert_Some; [by apply Hd, (S p)|by apply (S q)].
Qed.

Lemma withStats_mild ps p b f : scoredOk ps ->
  (forall ts, is_Some (Bitmasks (sp ps) !! b) -> is_Some (f ts)) -> exists ps', withStats ps p b f = Some ps' /\ mild ps ps'.
Proof.
  intros S Hf. unfold withStats. destruct (stats ps !! p) as [pst|] eqn:Hp; [|by eexists; split; [|apply mild_refl]].
  unfold getBitmaskStats.
  assert (H : forall ts, is_Some (Bitmasks (sp ps) !! b) -> exists ps',
    (ts' ← f ts; Some (set_stats ps (<[p := set_bitmaskStats pst (<[b := ts']> (ps_bitmasks pst))]> (stats ps)))) = Some ps' /\ mild ps ps').
  { intros ts Hb. destruct (Hf ts Hb) as [ts' ->]. simpl. eexists. split; [done|]. apply (mild_insert ps p pst); [done|done|].
    simpl. rewrite dom_insert_L. apply elem_of_dom in Hb. set_solver. }
  destruct (ps_bitmasks pst !! b) as [ts|] eqn:Eb.
  - apply H, elem_of_dom. apply (S p pst Hp). by eapply elem_of_dom_2.
  - destruct (Bitmasks (sp ps) !! b) eqn:Ep; [by apply H|]. by eexists; split; [|apply mild_refl].
Qed.

Lemma mild_foldlM {A} (f : peerScore -> A -> option peerScore) l :
  (forall ps a, scoredOk ps -> exists ps', f ps a = Some ps' /\ mild ps ps') ->
  forall ps, scoredOk ps -> exists ps', foldlM f ps l = Some ps' /\ mild ps ps'.
Proof.
  intros Hf. induction l as [|a l IH]; intros ps S; [by eexists; split; [|apply mild_refl]|]. simpl.
  destruct (Hf ps a S) as (ps1 & -> & M1). simpl. destruct (IH ps1 (mi_scored _ _ M1 S)) as (ps2 & E & M2).
  exists ps2. split; [done|by eapply mild_trans].
Qed.

Section ops.
Context (e : scoreEnv).

Lemma markInvalid_mild msg ps p : scoredOk ps -> exists ps', markInvalidMessageDelivery msg ps p = Some ps' /\ mild ps ps'.
Proof. intros S. apply withStats_mild; [done|]. by eexists. Qed.
Lemma markFirst_mild ps p msg : scoredOk ps -> exists ps', markFirstMessageDelivery ps p msg = Some ps' /\ mild ps ps'.
Proof. intros S. apply withStats_mild; [done|]. intros ts [bp ->]. by eexists. Qed.
Lemma markDuplicate_mild msg v ps p : scoredOk ps -> exists ps', markDuplicateMessageDelivery e msg v ps p = Some ps' /\ mild ps ps'.
Proof.
  intros S. apply withStats_mild; [done|]. intros ts [bp ->]. simpl. destruct (negb _); [by eexists|].
  destruct v as [t|]; [|by eexists]. destruct (_ <? _); by eexists.
Qed.
Lemma Graft_mild ps p b : scoredOk ps -> exists ps', Graft e ps p b = Some ps' /\ mild ps ps'.
Proof. intros S. apply withStats_mild; [done|]. by eexists. Qed.
Lemma Prune_mild ps p b : scoredOk ps -> exists ps', Prune ps p b = Some ps' /\ mild ps ps'.
Proof. intros S. apply withStats_mild; [done|]. intros ts [bp ->]. by eexists. Qed.

(** ** The score *)
(** A bitmask of the peer whose time in the mesh is divided by zero *)
Definition zeroQuantum (ps : peerScore) (p : PeerID) : Prop :=
  exists pst b ts bp, stats ps !! p = Some pst /\ ps_bitmasks pst !! b = Some ts
    /\ Bitmasks (sp ps) !! b = Some bp /\ ts_inMesh ts = true /\ TimeInMeshQuantum bp = 0.

Lemma bitmaskScore_none bp ts : bitmaskScore bp ts = None <-> ts_inMesh ts = true /\ TimeInMeshQuantum bp = 0.
Proof.
  unfold bitmaskScore. destruct (ts_inMesh ts); [|by split; [|intros []]].
  destruct (Z.eqb_spec (TimeInMeshQuantum bp) 0); simpl; naive_solver.
Qed.
Lemma bitmaskStep_none ps pst acc b : bitmaskStep ps pst acc b = None <-> exists ts bp,
  ps_bitmasks pst !! b = Some ts /\ Bitmasks (sp ps) !! b = Some bp /\ ts_inMesh ts = true /\ TimeInMeshQuantum bp = 0.
Proof.
  unfold bitmaskStep. destruct (ps_bitmasks pst !! b) as [ts|]; [|split; [done|naive_solver]].
  destruct (Bitmasks (sp ps) !! b) as [bp|]; [|split; [done|naive_solver]].
  pose proof (bitmaskScore_none bp ts). destruct (bitmaskScore bp ts); simpl; naive_solver.
Qed.
Lemma bitmaskSteps_none ps pst l : forall acc,
  foldlM (bitmaskStep ps pst) acc l = None <-> exists b, b ∈ l /\ bitmaskStep ps pst zeroF b = None.
Proof.
  induction l as [|b l IH]; intros acc; cbn [foldlM]; [split; [done|set_solver]|].
  destruct (bitmaskStep ps pst acc b) as [x|] eqn:E; cbn [mbind option_bind].
  - rewrite IH. split; intros (b' & Hb & H); exists b'; [set_solver|]. apply elem_of_cons in Hb as [->|]; [|done].
    rewrite bitmaskStep_none in H. rewrite <- (bitmaskStep_none _ _ acc) in H. congruence.
  - split; [|done]. intros _. exists b. split; [left|]. rewrite bitmaskStep_none in E |- *. done.
Qed.
Lemma ipColocation_mild ps p : mild ps (ipColocationFactor ps p).1.
Proof.
  unfold ipColocationFactor. destruct (stats ps !! p) as [pst|] eqn:Hp; [|apply mild_refl].
  destruct (foldl _ _ _) as [wl r]. by apply (mild_insert ps p pst).
Qed.
Lemma ipColocation_stats ps p pst : stats ps !! p = Some pst ->
  exists wl, stats (ipColocationFactor ps p).1 !! p
    = Some (mkPStats (ps_connected pst) (expire pst) (ps_bitmasks pst) (ips pst) wl (behaviourPenalty pst)).
Proof.
  intros Hp. unfold ipColocationFactor. rewrite Hp. destruct (foldl _ _ _) as [wl r]. exists wl. simpl. by rewrite lookup_insert_eq.
Qed.

(** The score panics exactly on a zero quantum, *)
Lemma score_none t ps p : scoreEnv_ok e -> scoreInv t ps -> score e ps p = None <-> zeroQuantum ps p.
Proof.
  intros He I. unfold score, zeroQuantum. destruct (stats ps !! p) as [pst|] eqn:Hp; [|split; [done|naive_solver]].
  assert (Hl : foldlM (bitmaskStep ps pst) zeroF (s_order e (dom (ps_bitmasks pst))) = None
    <-> exists b ts bp, ps_bitmasks pst !! b = Some ts /\ Bitmasks (sp ps) !! b = Some bp
          /\ ts_inMesh ts = true /\ TimeInMeshQuantum bp = 0).
  { rewrite bitmaskSteps_none. split.
    - intros (b & _ & H%bitmaskStep_none). eauto.
    - intros (b & ts & bp & H). exists b. rewrite bitmaskStep_none. split; [|eauto].
      rewrite (s_perm _ He), elem_of_elements, elem_of_dom. destruct H as (-> & _). eauto. }
  destruct (foldlM _ _ _) as [s|].
  - destruct (si_app _ _ I) as [app ->]. cbn [mbind option_bind]. destruct (ipColocationFactor ps p). split; [done|].
    intros (pst' & b & ts & bp & [= <-] & H). exfalso. assert (Hn : Some s = None) by (apply Hl; eauto). done.
  - split; [|done]. intros _. destruct (proj1 Hl eq_refl) as (b & ts & bp & H). eauto 10.
Qed.
(** else it changes only the whitelist cache, and so keeps the rest of the statistics. *)
Lemma score_mild t ps p : scoreEnv_ok e -> scoreInv t ps -> ~ zeroQuantum ps p ->
  exists ps' s, score e ps p = Some (ps', s) /\ mild ps ps'
  /\ forall pst, stats ps !! p = Some pst -> exists wl, stats ps' !! p
    = Some (mkPStats (ps_connected pst) (expire pst) (ps_bitmasks pst) (ips pst) wl (behaviourPenalty pst)).
Proof.
  intros He I Hz. rewrite <- (score_none t) in Hz by done. unfold score in *.
  destruct (stats ps !! p) as [pst|] eqn:Hp; [|by do 2 eexists; split_and!; [|apply mild_refl|]].
  destruct (foldlM _ _ _) as [s|]; [|done].
  destruct (si_app _ _ I) as [app Ea]. rewrite Ea in *. cbn [mbind option_bind]. pose proof (ipColocation_mild ps p) as M.
  pose proof (ipColocation_stats ps p pst Hp) as H. destruct (ipColocationFactor ps p) as [ps' p6].
  do 2 eexists. split_and!; [done|exact M|]. intros ? [= <-]. exact H.
Qed.

(** ** Peers come, change and go *)
Lemma exact_at ps p pst : indexOk ps -> stats ps !! p = Some pst -> forall ip, tracked (peerIPs ps) ip p <-> ip ∈ ips pst.
Proof. intros [_ I] Hp ip. rewrite I. naive_solver. Qed.

Lemma setIPs_inv t ps p pst l :
  scoreInv t ps -> (stats ps !! p = Some pst \/ stats ps !! p = None /\ pst = newPStats) ->
  scoreInv t (set_stats (set_peerIPs ps (setIPs (peerIPs ps) p l (ips pst))) (<[p := set_ips pst true l]> (stats ps))).
Proof.
  intros [[I0 I1] I2 I3 I4] Hp.
  assert (Hold : forall ip, tracked (peerIPs ps) ip p <-> ip ∈ ips pst).
  { intros ip. rewrite I1. destruct Hp as [Hp|[Hp ->]]; rewrite Hp; [naive_solver|]. split; [naive_solver|set_solver]. }
  destruct (setIPs_spec (peerIPs ps) p l (ips pst) I0 Hold) as [S1 S2]. split; try done; [split; [done|]|].
  - intros ip q. cbn [peerIPs set_stats set_peerIPs stats]. rewrite S2. case_decide as Hq.
    + subst q. rewrite lookup_insert_eq. naive_solver.
    + rewrite lookup_insert_ne by done. apply I1.
  - intros q st. cbn. intros [[<- <-]|[_ Hq]]%lookup_insert_Some; [|by apply (I3 q)]. simpl.
    destruct Hp as [Hp|[_ ->]]; [by apply (I3 p)|]. simpl. set_solver.
Qed.
Lemma AddPeer_inv t ps p : scoreInv t ps -> scoreInv t (AddPeer e ps p).
Proof. intros I. apply setIPs_inv; [done|]. destruct (stats ps !! p); [by left|by right]. Qed.

Lemma removeIPs_inv t ps p pst :
  scoreInv t ps -> stats ps !! p = Some pst ->
  scoreInv t (set_stats (set_peerIPs ps (removeIPs (peerIPs ps) p (ips pst))) (delete p (stats ps))).
Proof.
  intros I Hp. destruct (removeIPs_spec (peerIPs ps) p (ips pst) (ix_noEmpty _ (si_index _ _ I)) (exact_at ps p pst (si_index _ _ I) Hp)) as [S1 S2].
  destruct I as [[I0 I1] I2 I3 I4]. split; try done; [split; [done|]|].
  - intros ip q. cbn [peerIPs set_stats set_peerIPs stats]. rewrite S2, I1. destruct (decide (p = q)) as [->|Hne].
    + rewrite lookup_delete_eq. naive_solver.
    + rewrite lookup_delete_ne by done. naive_solver.
  - intros q st. cbn. intros [_ Hq]%lookup_delete_Some. by apply (I3 q).
Qed.

Lemma retainAll_some ps m : dom m ⊆ dom (Bitmasks (sp ps)) -> exists m', retainAll ps m = Some m' /\ dom m' = dom m
  /\ forall b ts bp, m !! b = Some ts -> Bitmasks (sp ps) !! b = Some bp ->
       m' !! b = Some (retainStats (MeshMessageDeliveriesThreshold bp) ts).
Proof.
  intros Hd. unfold retainAll. set (F := fun acc kv => _).
  assert (H : forall l acc, NoDup l.*1 -> Forall (fun kv => is_Some (Bitmasks (sp ps) !! kv.1)) l ->
    exists m', foldlM F acc l = Some m' /\ dom m' = dom acc ∪ list_to_set l.*1
      /\ (forall b, b ∉ l.*1 -> m' !! b = acc !! b)
      /\ (forall b ts bp, (b, ts) ∈ l -> Bitmasks (sp ps) !! b = Some bp -> m' !! b = Some (retainStats (MeshMessageDeliveriesThreshold bp) ts))).
  { induction l as [|[b ts] l IH]; intros acc Hn Hl; [exists acc; split_and!; [done|set_solver|done|set_solver]|].
    apply NoDup_cons in Hn as [Hb Hn]. inversion Hl as [|?? [bp Hbp] Hl']; subst.
    assert (EF : F acc (b, ts) = Some (<[b := retainStats (MeshMessageDeliveriesThreshold bp) ts]> acc)) by (unfold F; simpl in *; by rewrite Hbp).
    simpl in *. rewrite EF. simpl.
    destruct (IH (<[b := retainStats (MeshMessageDeliveriesThreshold bp) ts]> acc) Hn Hl') as (m' & -> & E1 & E2 & E3).
    exists m'. split_and!; [done|rewrite E1, dom_insert_L; set_solver| |].
    - intros b' [Hne Hb']%not_elem_of_cons. rewrite E2, lookup_insert_ne by done. done.
    - intros b' ts' bp' [[= -> ->]|Hin]%elem_of_cons Hp; [|by apply E3]. rewrite E2, lookup_insert_eq by done. by simplify_eq. }
  destruct (H (map_to_list m) ∅) as (m' & E & E1 & _ & E3).
  - apply NoDup_fst_map_to_list.
  - apply Forall_forall. intros [b ts] Hb%elem_of_map_to_list. simpl. apply elem_of_dom, Hd. by eapply elem_of_dom_2.
  - exists m'. split_and!; [done| |].
    + rewrite E1, dom_empty_L, union_empty_l_L. apply set_eq. intros b. rewrite elem_of_list_to_set, list_elem_of_fmap, elem_of_dom. split.
      * intros ([b' ts] & -> & Hb%elem_of_map_to_list). by eexists.
      * intros [ts Hb]. exists (b, ts). by rewrite elem_of_map_to_list.
    + intros b ts bp Hb Hp. apply E3; [by apply elem_of_map_to_list|done].
Qed.

(** What is left of a peer that disconnects *)
Definition retained (ps : peerScore) (pst pst' : peerStats) : Prop :=
  ps_connected pst' = false /\ expire pst' = s_now e + RetainScore (sp ps) /\ behaviourPenalty pst' = behaviourPenalty pst
  /\ dom (ps_bitmasks pst') = dom (ps_bitmasks pst)
  /\ forall b ts, ps_bitmasks pst !! b = Some ts -> exists bp, Bitmasks (sp ps) !! b = Some bp
       /\ ps_bitmasks pst' !! b = Some (retainStats (MeshMessageDeliveriesThreshold bp) ts).

Lemma RemovePeer_spec t ps p : scoreEnv_ok e -> scoreInv t ps -> ~ zeroQuantum ps p -> exists ps', RemovePeer e ps p = Some ps' /\ scoreInv t ps'
  /\ forall pst, stats ps !! p = Some pst -> exists ps1 s, score e ps p = Some (ps1, s)
     /\ if ltF zeroF s then stats ps' !! p = None /\ (forall ip, ~ tracked (peerIPs ps') ip p)
        else exists pst', stats ps' !! p = Some pst' /\ retained ps pst pst'.
Proof.
  intros He I Hz. unfold RemovePeer. destruct (stats ps !! p) as [pst|] eqn:Hp; [|by exists ps].
  destruct (score_mild t ps p He I Hz) as (ps1 & s & Es & M & Hw). destruct (Hw pst Hp) as [wl E1]. rewrite Es. cbn [mbind option_bind].
  rewrite E1. cbn [mbind option_bind]. pose proof (mild_inv t _ _ M I) as I1. destruct (ltF zeroF s) eqn:El.
  - eexists. split_and!; [done|exact (removeIPs_inv t ps1 p _ I1 E1)|]. intros ? [= <-]. exists ps1, s. split; [done|]. rewrite El.
    split; [simpl; by rewrite lookup_delete_eq|]. intros ip.
    destruct (removeIPs_spec (peerIPs ps1) p (ips pst) (ix_noEmpty _ (si_index _ _ I1)) (exact_at ps1 p _ (si_index _ _ I1) E1)) as [_ S].
    simpl. rewrite S. naive_solver.
  - assert (Hd : dom (ps_bitmasks pst) ⊆ dom (Bitmasks (sp ps1))) by (rewrite (mi_sp _ _ M); by apply (si_scored _ _ I p)).
    destruct (retainAll_some ps1 (ps_bitmasks pst) Hd) as (m & Em & E2 & E3). cbn [ps_bitmasks]. rewrite Em. cbn [mbind option_bind].
    eexists. split_and!; [done| |].
    + apply (mild_inv t ps1); [|done]. apply (mild_insert ps1 p _ _ E1); [done|]. simpl. by rewrite E2.
    + intros ? [= <-]. exists ps1, s. split; [done|]. rewrite El. eexists. split; [simpl; by rewrite lookup_insert_eq|].
      unfold retained. simpl. rewrite (mi_sp _ _ M) in *. split_and!; try done. intros b ts Hb.
      assert (is_Some (Bitmasks (sp ps) !! b)) as [bp Hbp] by (apply elem_of_dom, Hd; by eapply elem_of_dom_2). exists bp. eauto.
Qed.

(** *** Maintenance *)
Lemma decayPeer_dom ps pst : dom (ps_bitmasks (decayPeer e ps pst)) = dom (ps_bitmasks pst).
Proof.
  apply set_eq. intros b. simpl. rewrite !elem_of_dom, map_lookup_imap. destruct (ps_bitmasks pst !! b); simpl; [|by split].
  split; by eexists.
Qed.
Lemma refreshStep_inv t ps p : scoreInv t ps -> scoreInv t (refreshStep e ps p).
Proof.
  intros I. unfold refreshStep. destruct (stats ps !! p) as [pst|] eqn:Hp; [|done]. destruct (ps_connected pst).
  - apply (mild_inv t ps); [|done]. apply (mild_insert ps p pst); [done|done|]. by rewrite decayPeer_dom.
  - destruct (_ <? _); [|done]. by apply removeIPs_inv.
Qed.
Lemma refreshIPStep_inv t ps p : scoreInv t ps -> scoreInv t (refreshIPStep e ps p).
Proof.
  intros I. unfold refreshIPStep. destruct (stats ps !! p) as [pst|] eqn:Hp; [|done]. destruct (ps_connected pst); [|done].
  apply setIPs_inv; [done|by left].
Qed.
Lemma fold_inv {A} t (f : peerScore -> A -> peerScore) l :
  (forall ps a, scoreInv t ps -> scoreInv t (f ps a)) -> forall ps, scoreInv t ps -> scoreInv t (foldl f ps l).
Proof. intros Hf. induction l as [|a l IH]; intros ps I; [done|]. simpl. auto. Qed.

Lemma SetParams_inv t ps b p : scoreInv t ps -> scoreInv t (SetBitmaskScoreParams ps b p).
Proof.
  intros I. unfold SetBitmaskScoreParams. set (ps' := mkScore _ _ _ _ _).
  assert (I' : scoreInv t ps').
  { destruct I as [[I0 I1] I2 I3 I4]. split; try done.
    intros q st Hst. simpl. rewrite dom_insert_L. specialize (I3 q st Hst). set_solver. }
  destruct (Bitmasks (sp ps) !! b); [|done]. destruct (_ || _); [|done]. apply (mild_inv t ps'); [|done]. split; try done.
  - intros q. simpl. rewrite lookup_fmap. by destruct (stats ps !! q).
  - intros S q st. simpl. rewrite lookup_fmap. destruct (stats ps !! q) as [st0|] eqn:E0; [|done]. intros [= <-]. simpl.
    rewrite dom_alter_L. by apply (S q).
Qed.
Lemma AddPenalty_inv t ps p n : scoreInv t ps -> scoreInv t (AddPenalty ps p n).
Proof.
  intros I. unfold AddPenalty. destruct (stats ps !! p) as [pst|] eqn:Hp; [|done]. apply (mild_inv t ps); [|done].
  by apply (mild_insert ps p pst).
Qed.

(** *** Messages *)
Abbreviation t := (s_now e).

(** After [getRecord]: the record is there, and writing it back keeps the invariant. *)
Lemma getRecord_inv ps id : scoreInv t ps ->
  let '(d, r) := getRecord e (deliveries ps) id in
  recordOk r /\ scoreInv t (set_deliveries ps d)
  /\ forall r', recordOk r' -> scoreInv t (setRecord (set_deliveries ps d) id r').
Proof.
  intros I. pose proof (getRecord_spec e (deliveries ps) id (si_deliveries _ _ I)) as H.
  destruct (getRecord e (deliveries ps) id) as [d r]. destruct H as (D & E & Hr & _). split_and!; [done|by apply deliveries_inv|].
  intros r' Hr'. apply deliveries_inv; [by apply deliveries_inv|]. apply setRecord_ok; [done|by eexists|done].
Qed.

Lemma final_recordOk st f v X : st <> deliveryUnknown -> st <> deliveryValid -> recordOk (mkRecord st f v X).
Proof. by intros H1 H2 [|]. Qed.

Lemma others_mild msg ps p : scoredOk ps -> exists ps',
  (if bool_decide (p = ReceivedFrom msg) then Some ps else markDuplicateMessageDelivery e msg None ps p) = Some ps' /\ mild ps ps'.
Proof. intros S. case_bool_decide; [by eexists; split; [|apply mild_refl]|by apply markDuplicate_mild]. Qed.

Lemma Deliver_some ps msg : scoreInv t ps -> exists ps', DeliverMessage e ps msg = Some ps' /\ scoreInv t ps'.
Proof.
  intros I. unfold DeliverMessage. destruct (markFirst_mild ps (ReceivedFrom msg) msg (si_scored _ _ I)) as (ps1 & -> & M1).
  cbn [mbind option_bind]. pose proof (mild_inv t _ _ M1 I) as I1.
  pose proof (getRecord_inv ps1 (idOf (sc_idGen ps1) msg) I1) as H.
  destruct (getRecord e (deliveries ps1) (idOf (sc_idGen ps1) msg)) as [d r]. destruct H as (Hr & Hd & Hw).
  destruct (negb _) eqn:En; [by eexists|]. apply negb_false_iff, bool_decide_eq_true in En.
  set (ps2 := setRecord _ _ _). assert (I2 : scoreInv t ps2) by (apply Hw; intros _; apply Hr; by left).
  destruct (mild_foldlM (fun ps p => if bool_decide (p = ReceivedFrom msg) then Some ps else markDuplicateMessageDelivery e msg None ps p)
    (elements (default ∅ (d_peers r))) (others_mild msg) ps2 (si_scored _ _ I2)) as (ps3 & -> & M3).
  eexists. split; [done|by apply (mild_inv t ps2)].
Qed.

Lemma Reject_some ps msg reason : scoreInv t ps -> exists ps', RejectMessage e ps msg reason = Some ps' /\ scoreInv t ps'.
Proof.
  intros I. unfold RejectMessage.
  assert (HI : exists ps', markInvalidMessageDelivery msg ps (ReceivedFrom msg) = Some ps' /\ scoreInv t ps').
  { destruct (markInvalid_mild msg ps (ReceivedFrom msg) (si_scored _ _ I)) as (ps1 & -> & M1). eexists. split; [done|by apply (mild_inv t ps)]. }
  pose proof (getRecord_inv ps (idOf (sc_idGen ps) msg) I) as H.
  destruct (getRecord e (deliveries ps) (idOf (sc_idGen ps) msg)) as [d r]. destruct H as (Hr & Hd & Hw).
  assert (HF : exists ps', (ps ← markInvalidMessageDelivery msg (setRecord (set_deliveries ps d) (idOf (sc_idGen ps) msg)
      (mkRecord deliveryInvalid (firstSeen r) (validated r) None)) (ReceivedFrom msg);
      foldlM (markInvalidMessageDelivery msg) ps (elements (default ∅ (d_peers r)))) = Some ps' /\ scoreInv t ps').
  { set (ps1 := setRecord _ _ _). assert (I1 : scoreInv t ps1) by (apply Hw; by apply final_recordOk).
    destruct (markInvalid_mild msg ps1 (ReceivedFrom msg) (si_scored _ _ I1)) as (ps2 & -> & M2). cbn [mbind option_bind].
    pose proof (mild_inv t _ _ M2 I1) as I2.
    destruct (mild_foldlM (markInvalidMessageDelivery msg) (elements (default ∅ (d_peers r))) (markInvalid_mild msg) ps2 (si_scored _ _ I2)) as (ps3 & -> & M3).
    eexists. split; [done|by apply (mild_inv t ps2)]. }
  destruct reason; try done; try (by exists ps); destruct (negb _); try (by eexists);
    try exact HF; eexists; (split; [done|]); apply Hw; by apply final_recordOk.
Qed.

Lemma Duplicate_some ps msg : scoreInv t ps -> exists ps', DuplicateMessage e ps msg = Some ps' /\ scoreInv t ps'.
Proof.
  intros I. unfold DuplicateMessage. pose proof (getRecord_inv ps (idOf (sc_idGen ps) msg) I) as H.
  destruct (getRecord e (deliveries ps) (idOf (sc_idGen ps) msg)) as [d r]. destruct H as (Hr & Hd & Hw).
  case_bool_decide; [by eexists|].
  assert (HN : d_status r = deliveryUnknown \/ d_status r = deliveryValid ->
    exists ps', notePeer (set_deliveries ps d) (idOf (sc_idGen ps) msg) r (ReceivedFrom msg) = Some ps' /\ scoreInv t ps').
  { intros Hs. unfold notePeer. destruct (Hr Hs) as [X ->]. simpl. eexists. split; [done|]. apply Hw. by eexists. }
  destruct (d_status r) eqn:Es.
  - apply HN. by left.
  - destruct (HN (or_intror eq_refl)) as (ps1 & -> & I1). simpl.
    destruct (markDuplicate_mild msg (validated r) ps1 (ReceivedFrom msg) (si_scored _ _ I1)) as (ps2 & -> & M2).
    eexists. split; [done|by apply (mild_inv t ps1)].
  - destruct (markInvalid_mild msg (set_deliveries ps d) (ReceivedFrom msg) (si_scored _ _ Hd)) as (ps2 & -> & M2).
    eexists. split; [done|by apply (mild_inv t (set_deliveries ps d))].
  - by eexists.
  - by eexists.
Qed.
End ops.

(** ** Executions *)
Inductive scoreOp :=
  | SAddPeer (p : PeerID) | SRemovePeer (p : PeerID) | SGraft (p : PeerID) (b : bytes) | SPrune (p : PeerID) (b : bytes)
  | SValidate (msg : Message) | SDeliver (msg : Message) | SReject (msg : Message) (reason : RejectReason) | SDuplicate (msg : Message)
  | SAddPenalty (p : PeerID) (n : Z) | SScore (p : PeerID) | SSetParams (b : bytes) (bp : BitmaskScoreParams)
  | SRefreshScores | SRefreshIPs | SGc.
(** [None] is a panic. *)
Definition scoreStep (e : scoreEnv) (ps : peerScore) (o : scoreOp) : option peerScore :=
  match o with
  | SAddPeer p => Some (AddPeer e ps p)
  | SRemovePeer p => RemovePeer e ps p
  | SGraft p b => Graft e ps p b
  | SPrune p b => Prune ps p b
  | SValidate msg => Some (ValidateMessage e ps msg)
  | SDeliver msg => DeliverMessage e ps msg
  | SReject msg reason => RejectMessage e ps msg reason
  | SDuplicate msg => DuplicateMessage e ps msg
  | SAddPenalty p n => Some (AddPenalty ps p n)
  | SScore p => fst <$> score e ps p
  | SSetParams b bp => Some (SetBitmaskScoreParams ps b bp)
  | SRefreshScores => Some (refreshScores e ps)
  | SRefreshIPs => Some (refreshIPs e ps)
  | SGc => Some (gcDeliveryRecords e ps)
  end.
(** The operation computes the score of [p]. *)
Definition scores (o : scoreOp) (p : PeerID) : Prop := o = SScore p \/ o = SRemovePeer p.

Section reach.
Context (sha256 : bytes -> bytes) (raw params : PeerScoreParams).

(** The score at an instant, with the parameters [params]; later parameters of a
    bitmask are arbitrary. *)
Inductive scoreReach : peerScore -> Z -> Prop :=
  | sreach_new idGen t : scoreReach (Start (newPeerScore sha256 params) idGen) t
  | sreach_step ps t e o ps' :
      scoreReach ps t -> t <= s_now e -> scoreEnv_ok e -> scoreStep e ps o = Some ps' -> scoreReach ps' (s_now e).

Lemma step_inv e ps o : scoreEnv_ok e -> scoreInv (s_now e) ps -> (forall p, scores o p -> ~ zeroQuantum ps p) ->
  exists ps', scoreStep e ps o = Some ps' /\ scoreInv (s_now e) ps'.
Proof.
  intros He I Ho.
  assert (HM : forall f, (exists ps', f = Some ps' /\ mild ps ps') -> exists ps', f = Some ps' /\ scoreInv (s_now e) ps')
    by (intros f (ps' & -> & M); exists ps'; split; [done|by eapply mild_inv]).
  destruct o; simpl.
  - eexists. split; [done|by apply AddPeer_inv].
  - destruct (RemovePeer_spec e (s_now e) ps p He I) as (ps' & -> & I' & _); [apply Ho; by right|]. by eexists.
  - by apply HM, Graft_mild, I.
  - by apply HM, Prune_mild, I.
  - eexists. split; [done|]. unfold ValidateMessage. pose proof (getRecord_inv e ps (idOf (sc_idGen ps) msg) I) as H.
    destruct (getRecord e (deliveries ps) (idOf (sc_idGen ps) msg)) as [d r]. by apply H.
  - by apply Deliver_some.
  - by apply Reject_some.
  - by apply Duplicate_some.
  - eexists. split; [done|by apply AddPenalty_inv].
  - destruct (score_mild e (s_now e) ps p He I) as (ps' & s & -> & M & _); [apply Ho; by left|].
    eexists. split; [done|by eapply mild_inv].
  - eexists. split; [done|by apply SetParams_inv].
  - eexists. split; [done|]. apply fold_inv; [intros; by apply refreshStep_inv|done].
  - eexists. split; [done|]. apply fold_inv; [intros; by apply refreshIPStep_inv|done].
  - eexists. split; [done|]. apply deliveries_inv; [done|]. apply gc_ok, (si_deliveries _ _ I).
Qed.

(** An operation that computes the score of a peer with a zero quantum panics. *)
Lemma step_none e ps o p : scoreEnv_ok e -> scoreInv (s_now e) ps -> scores o p -> zeroQuantum ps p -> scoreStep e ps o = None.
Proof.
  intros He I Ho Hz. pose proof (proj2 (score_none e (s_now e) ps p He I) Hz) as E. destruct Ho as [->| ->]; simpl.
  - by rewrite E.
  - unfold RemovePeer. destruct Hz as (pst & _ & _ & _ & -> & _). by rewrite E.
Qed.

(** The parameters were validated. *)
Context (Hval : validateParams raw = Some params).

Lemma valid_app : is_Some (AppSpecificScore params).
Proof.
  revert Hval. unfold validateParams. destruct (_ && _); [|done].
  destruct (AppSpecificScore raw) eqn:Ea; [|destruct (SkipAtomicValidation raw); [|done]]; cbn [mbind option_bind];
    (destruct (validateRest raw); [|done]); intros [= <-]; [by rewrite Ea|by eexists].
Qed.

Lemma later_inv t e ps : t <= s_now e -> scoreInv t ps -> scoreInv (s_now e) ps.
Proof. intros Ht [I1 I2 I3 I4]. split; try done. by eapply deliveriesOk_later. Qed.

(** A score that is computed meets no zero quantum. *)
Lemma step_no_zero e ps o ps' p :
  scoreEnv_ok e -> scoreInv (s_now e) ps -> scoreStep e ps o = Some ps' -> scores o p -> ~ zeroQuantum ps p.
Proof. intros He I E Hs Hz. by rewrite (step_none e ps o p) in E. Qed.

Lemma reach_inv ps t : scoreReach ps t -> scoreInv t ps.
Proof.
  induction 1 as [idGen t|ps t e o ps' _ IH Ht He Es].
  - split; simpl; try done; [| |apply valid_app].
    + split; simpl; [intros ip; by rewrite lookup_empty|]. intros ip p. unfold tracked. rewrite !lookup_empty. simpl.
      split; [set_solver|by intros (? & ? & _)].
    + split; simpl; try done; [constructor|constructor].
  - pose proof (later_inv _ _ _ Ht IH) as I.
    destruct (step_inv e ps o He I) as (ps2 & E2 & I2); [|by simplify_eq].
    intros p. by apply (step_no_zero e ps o ps').
Qed.


(** In every reachable state the index of IPs lists for an IP exactly the
    peers with statistics that have it, and has no empty entry, so the number
    that the colocation factor uses is the number of those peers; the delivery
    records are exactly those in the queue, and the garbage collection removes a
    record exactly when it has expired. *)
Theorem score_index_exact ps t :
  scoreReach ps t ->
  (forall ip p, p ∈ default ∅ (peerIPs ps !! ip) <-> exists pst, stats ps !! p = Some pst /\ ip ∈ ips pst)
  /\ (forall ip, peerIPs ps !! ip <> Some ∅)
  /\ (forall id, is_Some (records (deliveries ps) !! id) <-> id ∈ (queue (deliveries ps)).*1)
  /\ (forall e id x, t <= s_now e -> (id, x) ∈ queue (deliveries ps) ->
        is_Some (records (deliveries (gcDeliveryRecords e ps)) !! id) <-> s_now e <= x).
Proof.
  intros R. pose proof (reach_inv _ _ R) as I. destruct (si_index _ _ I) as [I0 I1]. destruct (si_deliveries _ _ I) as [D1 D2 D3 D4 D5].
  assert (HD : forall id, is_Some (records (deliveries ps) !! id) <-> id ∈ (queue (deliveries ps)).*1).
  { intros id. rewrite <-elem_of_dom, D2. by rewrite elem_of_list_to_set. }
  split_and!; try done. intros e id x Ht Hx.
  destruct (gc_ok e (deliveries ps)) as [_ G]; [by apply (deliveriesOk_later e t)|]. simpl. rewrite (G id x Hx).
  destruct (Z.ltb_spec x (s_now e)) as [Hlt|Hge]; [split; [by intros []|lia]|]. split; [done|]. intros _.
  apply HD, list_elem_of_fmap. by exists (id, x).
Qed.
End reach.

(** ** Retention *)
Lemma refreshStep_sp e ps p : sp (refreshStep e ps p) = sp ps.
Proof. unfold refreshStep. destruct (stats ps !! p); [|done]. by repeat case_match. Qed.
Lemma refreshStep_other e ps p q : p <> q -> stats (refreshStep e ps p) !! q = stats ps !! q.
Proof.
  intros Hne. unfold refreshStep. destruct (stats ps !! p); [|done]. destruct (ps_connected _); [simpl; by rewrite lookup_insert_ne|].
  destruct (_ <? _); [simpl; by rewrite lookup_delete_ne|done].
Qed.
(** What a refresh makes of the statistics of a peer *)
Definition refreshed (e : scoreEnv) (ps : peerScore) (pst : peerStats) : option peerStats :=
  if ps_connected pst then Some (decayPeer e ps pst) else if expire pst <? s_now e then None else Some pst.
Lemma refreshStep_at e ps p : stats (refreshStep e ps p) !! p = stats ps !! p ≫= refreshed e ps.
Proof.
  unfold refreshStep, refreshed. destruct (stats ps !! p) as [pst|] eqn:Hp; simpl; [|by rewrite Hp].
  destruct (ps_connected pst); [simpl; by rewrite lookup_insert_eq|].
  destruct (_ <? _); [simpl; by rewrite lookup_delete_eq|done].
Qed.
Lemma refreshed_sp e ps ps' pst : sp ps' = sp ps -> refreshed e ps' pst = refreshed e ps pst.
Proof. intros E. unfold refreshed, decayPeer. by rewrite E. Qed.
Lemma refresh_fold e p l : forall ps, NoDup l -> stats (foldl (refreshStep e) ps l) !! p
  = if decide (p ∈ l) then stats ps !! p ≫= refreshed e ps else stats ps !! p.
Proof.
  induction l as [|q l IH]; intros ps Hn; [rewrite decide_False by set_solver; done|].
  apply NoDup_cons in Hn as [Hq Hn]. cbn [foldl]. rewrite IH by done.
  destruct (decide (q = p)) as [->|Hne].
  - rewrite (decide_False (P := p ∈ l)), decide_True by set_solver. apply refreshStep_at.
  - rewrite refreshStep_other by done.
    destruct (decide (p ∈ l)); [rewrite decide_True by set_solver|rewrite decide_False by set_solver; done]. destruct (stats ps !! p) as [pst|]; [|done]. simpl. apply refreshed_sp, refreshStep_sp.
Qed.
Lemma refreshScores_lookup e ps p : stats (refreshScores e ps) !! p = stats ps !! p ≫= refreshed e ps.
Proof.
  unfold refreshScores. rewrite refresh_fold by apply NoDup_elements. case_decide as Hp; [done|].
  rewrite elem_of_elements in Hp. apply not_elem_of_dom in Hp. by rewrite Hp.
Qed.

(** A peer that disconnects with a positive score is forgotten and leaves the
    index; any other peer keeps its statistics, with the reward for first
    deliveries taken back and the mesh penalty applied, and refreshing the scores
    neither decays nor drops them until the retention time has passed, after
    which it drops them. *)
Theorem retention sha256 raw params ps t e e2 p pst :
  validateParams raw = Some params -> scoreEnv_ok e -> ~ zeroQuantum ps p ->
  scoreReach sha256 params ps t -> t <= s_now e -> stats ps !! p = Some pst ->
  exists ps' ps1 s, RemovePeer e ps p = Some ps' /\ score e ps p = Some (ps1, s)
  /\ if ltF zeroF s then stats ps' !! p = None /\ (forall ip, p ∉ default ∅ (peerIPs ps' !! ip))
     else exists pst', stats ps' !! p = Some pst' /\ retained e ps pst pst'
       /\ stats (refreshScores e2 ps') !! p = if s_now e + RetainScore (sp ps) <? s_now e2 then None else Some pst'.
Proof.
  intros Hv He Hz R Ht Hp. pose proof (later_inv t e ps Ht (reach_inv sha256 raw params Hv _ _ R)) as I.
  destruct (RemovePeer_spec e (s_now e) ps p He I Hz) as (ps' & E & I' & H). destruct (H pst Hp) as (ps1 & s & Es & Hr).
  exists ps', ps1, s. split_and!; [done|done|]. destruct (ltF zeroF s); [done|]. destruct Hr as (pst' & E' & Hr).
  exists pst'. split_and!; [done|done|]. rewrite refreshScores_lookup, E'. simpl. unfold refreshed.
  destruct Hr as (-> & -> & _). done.
Qed.

(** ** Examples *)
Module ScoreExample.
Definition p1 : PeerID := [Byte.x01].
Definition b : bytes := [Byte.x01].
Definition half : spec_float := S754_finite false (2 ^ 52) (- 53).
Definition bparams : BitmaskScoreParams :=
  mkBitmaskParams false oneF oneF Second (ofZ 10) oneF half (ofZ 10) (ofZ (-1)) half (ofZ 10) (ofZ 5) 0 Second (ofZ (-1)) half (ofZ (-1)) half.
Definition params : PeerScoreParams :=
  mkScoreParams false {[b := bparams]} zeroF (Some (fun _ => zeroF)) oneF (ofZ (-1)) 1 [] (ofZ (-1)) zeroF half Second half (10 * Second) 0.
Definition env (t : Z) : scoreEnv :=
  mkSEnv t elements (fun _ => [mkSConn false (Some (map z2b [10; 0; 0; 7]))]).
Definition bad : Message := mkMessage (mkPbMessage [] [] [] b [] []) [Byte.x05] p1 false.

Definition ps0 : peerScore := Start (newPeerScore id params) (newMsgIdGenerator id).
Definition run (st : option (peerScore * Z)) (o : scoreOp) : option (peerScore * Z) :=
  r ← st; ps ← scoreStep (env (r.2 + Second)) r.1 o; Some (ps, r.2 + Second).
(** A peer joins the mesh, delivers an invalid message, and time passes. *)
Definition final : option (peerScore * Z) :=
  foldl run (Some (ps0, 0)) [SAddPeer p1; SGraft p1 b; SValidate bad; SReject bad RejectValidationFailed; SRefreshScores].
Definition last : peerScore := match final with Some (ps, _) => ps | None => ps0 end.

Lemma valid : validateParams params = Some params.
Proof. reflexivity. Qed.
Lemma scoreEnv_is_ok x : scoreEnv_ok (env x).
Proof. split. done. Qed.
Lemma no_zero ps q : Bitmasks (sp ps) = Bitmasks params -> ~ zeroQuantum ps q.
Proof.
  intros E (pst & k & ts & bp & _ & _ & H & _ & Hz). rewrite E in H. simpl in H.
  by apply lookup_singleton_Some in H as [_ <-].
Qed.
Lemma runs ps t l ps' t' : scoreReach id params ps t -> foldl run (Some (ps, t)) l = Some (ps', t') -> scoreReach id params ps' t'.
Proof.
  revert ps t. induction l as [|o l IH]; intros ps t R E; [by simplify_eq/=|]. cbn [foldl] in E.
  unfold run at 2 in E. cbn in E. destruct (scoreStep (env (t + Second)) ps o) as [ps1|] eqn:E1; simpl in E.
  - apply (IH ps1 (t + Second)); [|done]. apply (sreach_step id params ps t (env (t + Second)) o); [done|cbn; unfold Second; lia|apply scoreEnv_is_ok|done].
  - exfalso. clear -E. induction l; [done|by apply IHl].
Qed.
Lemma last_reached : scoreReach id params last (5 * Second).
Proof.
  apply (runs ps0 0 [SAddPeer p1; SGraft p1 b; SValidate bad; SReject bad RejectValidationFailed; SRefreshScores]).
  - apply sreach_new.
  - unfold last, final. assert (H : (snd <$> foldl run (Some (ps0, 0)) [SAddPeer p1; SGraft p1 b; SValidate bad; SReject bad RejectValidationFailed; SRefreshScores]) = Some (5 * Second)) by (vm_compute; reflexivity).
    destruct (foldl run _ _) as [[ps t]|]; [|done]. by simplify_eq/=.
Qed.
End ScoreExample.

Section witnesses.
Import ScoreExample.

Lemma score_index_exact_witness : p1 ∈ default ∅ (peerIPs last !! lit "10.0.0.7"%string) /\ is_Some (records (Score.deliveries last) !! [Byte.x05]).
Proof.
  destruct (score_index_exact id params params valid last (5 * Second) last_reached) as (H1 & _ & H3 & _).
  destruct (stats last !! p1) as [pst|] eqn:E; [|vm_compute in E; discriminate].
  split; [apply H1; exists pst; split; [exact E|]|apply H3; apply (bool_decide_unpack _); vm_compute; exact I].
  assert (Ei : ips pst = [lit "10.0.0.7"%string]) by (vm_compute in E; simplify_eq; vm_compute; reflexivity).
  rewrite Ei. left.
Defined.

Lemma retention_witness : exists ps' pst', RemovePeer (env (6 * Second)) last p1 = Some ps'
  /\ stats (refreshScores (env (16 * Second)) ps') !! p1 = Some pst' /\ stats (refreshScores (env (17 * Second)) ps') !! p1 = None.
Proof.
  destruct (stats last !! p1) as [pst|] eqn:E; [|vm_compute in E; discriminate].
  pose proof (retention id params params last (5 * Second) (env (6 * Second)) (env (16 * Second)) p1 pst valid (scoreEnv_is_ok _) (no_zero last p1 ltac:(vm_compute; reflexivity)) last_reached ltac:(by vm_compute) E) as (ps' & ps1 & s & H1 & H2 & H3).
  pose proof (retention id params params last (5 * Second) (env (6 * Second)) (env (17 * Second)) p1 pst valid (scoreEnv_is_ok _) (no_zero last p1 ltac:(vm_compute; reflexivity)) last_reached ltac:(by vm_compute) E) as (ps'' & ps1' & s' & H1' & H2' & H3').
  assert (Es : ltF zeroF s = false).
  { assert (Hs : (ltF zeroF ∘ snd) <$> score (env (6 * Second)) last p1 = Some false) by (vm_compute; reflexivity).
    rewrite H2 in Hs. cbn in Hs. congruence. }
  assert (Eq : s' = s) by congruence. subst s'. rewrite Es in H3, H3'.
  destruct H3 as (pst' & E1 & _ & E2). destruct H3' as (pst'' & E1' & _ & E2').
  exists ps', pst'. split; [exact H1|]. assert (Ep : ps'' = ps') by congruence. subst ps''.
  split; [exact E2|exact E2'].
Defined.
End witnesses.

(** Parameters that are not validated atomically may leave the time in mesh at
    zero; the score of a peer in the mesh then divides by a zero quantum. *)
Definition skipped : BitmaskScoreParams :=
  mkBitmaskParams true oneF zeroF 0 zeroF zeroF zeroF zeroF zeroF zeroF zeroF zeroF 0 0 zeroF zeroF zeroF zeroF.
Definition skippedParams : PeerScoreParams :=
  mkScoreParams true {[ScoreExample.b := skipped]} zeroF None zeroF zeroF 0 [] zeroF zeroF zeroF 0 zeroF 0 0.
Lemma zero_quantum_panics :
  (params ← validateParams skippedParams;
   ps ← scoreStep (ScoreExample.env 1) (Start (newPeerScore id params) (newMsgIdGenerator id)) (SAddPeer ScoreExample.p1);
   ps ← scoreStep (ScoreExample.env 2) ps (SGraft ScoreExample.p1 ScoreExample.b);
   Some (negb (is_Some_b (score (ScoreExample.env 3) ps ScoreExample.p1)))) = Some true.
Proof. vm_compute. reflexivity. Qed.
