(* ===== verification/KadQuery.v ===== *)
(** * Kademlia lookups (go-libp2p-kad-dht/query.go, qpeerset/qpeerset.go)

    A lookup keeps a set of peers labelled with a state and asks the closest ones
    it has only heard about, at most [alpha] at a time, until the [beta] closest
    have answered or nobody is left.  The event loop of [run] and the goroutines
    of [queryPeer] are steps of one state machine; the channel between them is a
    list.  The distance of a peer from the key (go-keyspace) is a parameter; a
    panic is [None]. *)
From Stdlib Require Import ZArith Lia Sorted.
From stdpp Require Import base tactics list numbers option gmap sets fin_maps sorting.
From S2P Require Import Prelude GoBytes BlsRpc.
Local Open Scope Z_scope.

(** ** The set of peers (qpeerset.go) *)
Inductive PeerState := PeerHeard | PeerWaiting | PeerQueried | PeerUnreachable.
#[export] Instance PeerState_eq_dec : EqDecision PeerState.
Proof. solve_decision. Defined.

Record queryPeerState := mkQPS { q_id : PeerID; q_distance : Z; q_state : PeerState; referredBy : PeerID }.
Record QueryPeerset := mkQP { all : list queryPeerState; q_sorted : bool }.
Definition NewQueryPeerset : QueryPeerset := mkQP [] false.

(** [sort.Sort], with what its documentation promises *)
Class SortSort := sortSort : (queryPeerState -> queryPeerState -> bool) -> list queryPeerState -> list queryPeerState.
Class SortSortLaws (SS : SortSort) : Prop := {
  sortSort_perm less l : sortSort less l ≡ₚ l;
  sortSort_sorted (f : queryPeerState -> Z) l :
    StronglySorted Z.le (f <$> sortSort (fun x y => f x <? f y) l) }.

Section qpeerset.
Context {SS : SortSort} (distanceToKey : PeerID -> Z).

Fixpoint findIn (l : list queryPeerState) (p : PeerID) : option nat :=
  match l with
  | [] => None
  | x :: l => if bool_decide (q_id x = p) then Some O else S <$> findIn l p
  end.
(** [None] is -1. *)
Definition find (qp : QueryPeerset) (p : PeerID) : option nat := findIn (all qp) p.

Definition TryAdd (qp : QueryPeerset) (p by_ : PeerID) : QueryPeerset * bool :=
  match find qp p with
  | Some _ => (qp, false)
  | None => (mkQP (all qp ++ [mkQPS p (distanceToKey p) PeerHeard by_]) false, true)
  end.
Definition sort (qp : QueryPeerset) : QueryPeerset :=
  if q_sorted qp then qp else mkQP (sortSort (fun x y => q_distance x <? q_distance y) (all qp)) true.

Definition SetState (qp : QueryPeerset) (p : PeerID) (s : PeerState) : option QueryPeerset :=
  i ← find qp p;
  Some (mkQP (alter (fun x => mkQPS (q_id x) (q_distance x) s (referredBy x)) i (all qp)) (q_sorted qp)).
Definition GetState (qp : QueryPeerset) (p : PeerID) : option PeerState :=
  i ← find qp p; x ← all qp !! i; Some (q_state x).
Definition GetReferrer (qp : QueryPeerset) (p : PeerID) : option PeerID :=
  i ← find qp p; x ← all qp !! i; Some (referredBy x).

(** The set is sorted in place; [result[:n]] of a negative [n] panics. *)
Definition inStates (states : list PeerState) (l : list queryPeerState) : list PeerID :=
  q_id <$> filter (fun x => q_state x ∈ states) l.
Definition GetClosestNInStates (qp : QueryPeerset) (n : Z) (states : list PeerState) : option (QueryPeerset * list PeerID) :=
  let qp := sort qp in
  let result := inStates states (all qp) in
  if n <=? Z.of_nat (length result) then (if n <? 0 then None else Some (qp, take (Z.to_nat n) result))
  else Some (qp, result).
Definition GetClosestInStates (qp : QueryPeerset) (states : list PeerState) : option (QueryPeerset * list PeerID) :=
  GetClosestNInStates qp (Z.of_nat (length (all qp))) states.
Definition NumHeard (qp : QueryPeerset) : option (QueryPeerset * Z) :=
  r ← GetClosestInStates qp [PeerHeard]; Some (r.1, Z.of_nat (length r.2)).
Definition NumWaiting (qp : QueryPeerset) : option (QueryPeerset * Z) :=
  r ← GetClosestInStates qp [PeerWaiting]; Some (r.1, Z.of_nat (length r.2)).
End qpeerset.

(** ** A query *)
Record queryUpdate := mkUpdate {
  cause : PeerID; queried : list PeerID; heard : list PeerID; unreachable : list PeerID; queryDuration : Z }.

Inductive LookupTerminationReason := LookupStopped | LookupCancelled | LookupStarvation | LookupCompleted.

Record query := mkQuery {
  queryPeers : QueryPeerset;
  peerTimes : gmap PeerID Z;
  terminated : option LookupTerminationReason; (** with the reason that is published *)
  running : list PeerID (** goroutines of [queryPeer] *);
  ch : list queryUpdate;
  asked : list PeerID (** not in the code: the peers that were queried, in order *) }.
Definition set_peers (q : query) (qp : QueryPeerset) : query :=
  mkQuery qp (peerTimes q) (terminated q) (running q) (ch q) (asked q).

(** The parts of the DHT that a query reads *)
Record dhtConfig := mkDht {
  self : PeerID; alpha : Z; beta : Z; bucketSize : Z;
  queryPeerFilter : PeerID -> bool;
  distance : PeerID -> Z (** to the key of the lookup *) }.

Section query.
Context {SS : SortSort} (dht : dhtConfig) (key : bytes) (stopFn : QueryPeerset -> bool).

(** What a goroutine reports: the dial or the RPC failed, or the peers of the answer *)
Definition queryPeer (p : PeerID) (answer : option (list PeerID)) (duration : Z) : queryUpdate :=
  match answer with
  | None => mkUpdate p [] [] [p] 0
  | Some newPeers =>
      let saw := filter (fun next => bool_decide (next = self dht) = false
        /\ bool_decide (next = key) || queryPeerFilter dht next = true) newPeers in
      mkUpdate p [p] saw [] duration
  end.

Definition heardStep (cause : PeerID) (qp : QueryPeerset) (p : PeerID) : QueryPeerset :=
  if bool_decide (p = self dht) then qp else (TryAdd (distance dht) qp p cause).1.
(** The transition from [PeerWaiting] to a final state; anything else panics. *)
Definition settleStep (s : PeerState) (q : query) (p : PeerID) : option query :=
  if bool_decide (p = self dht) then Some q
  else
    st ← GetState (queryPeers q) p;
    match st with
    | PeerWaiting => qp ← SetState (queryPeers q) p s; Some (set_peers q qp)
    | _ => None
    end.
Definition timeStep (d : Z) (q : query) (p : PeerID) : query :=
  if bool_decide (p = self dht) then q
  else mkQuery (queryPeers q) (<[p := d]> (peerTimes q)) (terminated q) (running q) (ch q) (asked q).
Definition updateState (q : query) (up : queryUpdate) : option query :=
  match terminated q with
  | Some _ => None
  | None =>
      let q := set_peers q (foldl (heardStep (cause up)) (queryPeers q) (heard up)) in
      q ← foldlM (fun q p => q ← settleStep PeerQueried q p; Some (timeStep (queryDuration up) q p)) q (queried up);
      foldlM (settleStep PeerUnreachable) q (unreachable up)
  end.

(** *** Termination *)
Definition isStarvationTermination (qp : QueryPeerset) : option (QueryPeerset * bool) :=
  h ← NumHeard qp;
  if h.2 =? 0 then w ← NumWaiting h.1; Some (w.1, w.2 =? 0) else Some (h.1, false).
Fixpoint allQueried (qp : QueryPeerset) (peers : list PeerID) : option bool :=
  match peers with
  | [] => Some true
  | p :: peers => st ← GetState qp p; if bool_decide (st = PeerQueried) then allQueried qp peers else Some false
  end.
Definition isLookupTermination (qp : QueryPeerset) : option (QueryPeerset * bool) :=
  r ← GetClosestNInStates qp (beta dht) [PeerHeard; PeerWaiting; PeerQueried];
  b ← allQueried r.1 r.2; Some (r.1, b).

(** The loop stops when the counter, incremented, equals the number. *)
Fixpoint firstPeers (l : list PeerID) (cnt n : Z) : list PeerID :=
  match l with
  | [] => []
  | p :: l => p :: (if cnt + 1 =? n then [] else firstPeers l (cnt + 1) n)
  end.

(** The reason to terminate, or the peers to query *)
Definition isReadyToTerminate (qp : QueryPeerset) (nPeersToQuery : Z)
    : option (QueryPeerset * (LookupTerminationReason + list PeerID)) :=
  if stopFn qp then Some (qp, inl LookupStopped)
  else
    s ← isStarvationTermination qp;
    if (s.2 : bool) then Some (s.1, inl LookupStarvation)
    else
      l ← isLookupTermination s.1;
      if (l.2 : bool) then Some (l.1, inl LookupCompleted)
      else
        r ← GetClosestInStates l.1 [PeerHeard];
        Some (r.1, inr (firstPeers r.2 0 nPeersToQuery)).

Definition terminate (q : query) (reason : LookupTerminationReason) : query :=
  match terminated q with
  | Some _ => q
  | None => mkQuery (queryPeers q) (peerTimes q) (Some reason) (running q) (ch q) (asked q)
  end.

Definition spawnQuery (q : query) (p : PeerID) : option query :=
  _ ← GetReferrer (queryPeers q) p;
  qp ← SetState (queryPeers q) p PeerWaiting;
  Some (mkQuery qp (peerTimes q) (terminated q) (running q ++ [p]) (ch q) (asked q ++ [p])).

(** *** One iteration of the loop of [run] *)
(** After the [select] *)
Definition loopTail (q : query) : option query :=
  w ← NumWaiting (queryPeers q);
  r ← isReadyToTerminate w.1 (alpha dht - w.2);
  let q := set_peers q r.1 in
  let q := match r.2 with inl reason => terminate q reason | inr _ => q end in
  match terminated q, r.2 with
  | None, inr qPeers => foldlM spawnQuery q qPeers
  | _, _ => Some q
  end.
(** [case update := <-ch] *)
Definition loopUpdate (q : query) (up : queryUpdate) (rest : list queryUpdate) : option query :=
  q ← updateState (mkQuery (queryPeers q) (peerTimes q) (terminated q) (running q) rest (asked q)) up;
  loopTail q.
(** [case <-pathCtx.Done()] *)
Definition loopCancelled (q : query) : option query := loopTail (terminate q LookupCancelled).

Definition startQuery (seedPeers : list PeerID) : query :=
  mkQuery NewQueryPeerset ∅ None [] [mkUpdate (self dht) [] seedPeers [] 0] [].

(** ** The result *)
Record lookupWithFollowupResult := mkResult {
  peers : list PeerID; state : list PeerState; closest : list PeerID; completed : bool }.

(** [kb.SortClosestPeers] of the routing-table library sorts by the distance to the target. *)
Definition constructLookupResult (sortClosestPeers : list PeerID -> list PeerID) (q : query) : option lookupWithFollowupResult :=
  l ← isLookupTermination (queryPeers q);
  s ← (if (l.2 : bool) then Some l else isStarvationTermination l.1);
  r ← GetClosestNInStates s.1 (bucketSize dht) [PeerHeard; PeerWaiting; PeerQueried];
  let sortedPeers := sortClosestPeers r.2 in
  let sortedPeers := if bucketSize dht <? Z.of_nat (length sortedPeers) then take (Z.to_nat (bucketSize dht)) sortedPeers else sortedPeers in
  c ← GetClosestNInStates r.1 (bucketSize dht) [PeerHeard; PeerWaiting; PeerQueried; PeerUnreachable];
  Some (mkResult sortedPeers ((fun p => default PeerHeard (GetState r.1 p)) <$> sortedPeers) c.2 s.2).

(** ** Valuable peers *)
Definition mvpStep (q : query) (mvp : Z) (p : PeerID) : Z :=
  match peerTimes q !! p with Some t => if t <? mvp then t else mvp | None => mvp end.
(** The seed peers that [recordPeerIsValuable] is called for *)
Definition recordValuablePeers (seedPeers : list PeerID) (q : query) : list PeerID :=
  let mvpDuration := foldl (mvpStep q) Int64.MaxInt64 seedPeers in
  filter (fun p => match peerTimes q !! p with Some t => t <? Int64.mul64 mvpDuration 2 | None => false end = true) seedPeers.

(** ** The follow-up *)
Definition followUpPeers (res : lookupWithFollowupResult) : list PeerID :=
  fst <$> filter (fun ps => ps.2 = PeerHeard \/ ps.2 = PeerWaiting) (zip (peers res) (state res)).
(** What the [select] of the loop sees: an answer, with what the stop function says then, or the end of the context *)
Inductive followEvent := FollowDone (stop : bool) | FollowCancelled.
(** Whether the loop over [n] answers, of which [i] have come, is completed *)
Fixpoint processFollowUp (n : nat) (i : nat) (evs : list followEvent) (completed : bool) : bool :=
  match evs with
  | FollowDone stop :: evs =>
      if stop then (if bool_decide (S i < n)%nat then false else completed)
      else processFollowUp n (S i) evs completed
  | FollowCancelled :: _ => false
  | [] => completed
  end.
Definition set_completed (r : lookupWithFollowupResult) (b : bool) : lookupWithFollowupResult :=
  mkResult (peers r) (state r) (closest r) b.
(** [runLookupWithFollowup] after [runQuery]; [halted] is [ctx.Err() != nil || stopFn(qps)] *)
Definition followUp (res : lookupWithFollowupResult) (halted : bool) (evs : list followEvent) : lookupWithFollowupResult :=
  match followUpPeers res with
  | [] => res
  | l => if halted then set_completed res false
         else set_completed res (processFollowUp (length l) 0 (take (length l) evs) (completed res))
  end.
End query.
