(* ===== verification/KadQueryInv.v ===== *)
(** * What a lookup keeps

    The peers waited for are exactly those with a goroutine or an update in the
    channel, at most [alpha] of them; nobody is asked twice; the loop never
    panics, never waits for nothing, and ends. *)
From Stdlib Require Import ZArith Lia Sorted.
From stdpp Require Import base tactics list numbers option gmap sets fin_maps sorting.
From S2P Require Import Prelude GoBytes BlsRpc KadQuery.
Local Open Scope Z_scope.

(** ** The set of peers *)
Definition ids (l : list queryPeerState) : list PeerID := q_id <$> l.

Lemma find_split l p i : findIn l p = Some i ->
  exists l1 x l2, l = l1 ++ x :: l2 /\ length l1 = i /\ q_id x = p.
Proof.
  revert i. induction l as [|x l IH]; intros i; [done|]. simpl. case_bool_decide as Hx.
  - intros [= <-]. by exists [], x, l.
  - destruct (findIn l p) as [j|]; [|done]. intros [= <-]. destruct (IH j eq_refl) as (l1 & y & l2 & -> & Hl & Hy).
    exists (x :: l1), y, l2. split_and!; [done|simpl; lia|done].
Qed.
Lemma find_none l p : findIn l p = None <-> p ∉ ids l.
Proof.
  induction l as [|x l IH]; simpl; [set_solver|]. case_bool_decide as Hx; [set_solver|].
  destruct (findIn l p); simpl; [|set_solver]. split; [done|]. set_solver.
Qed.
Lemma find_app l1 x l2 p : p ∉ ids l1 -> q_id x = p -> findIn (l1 ++ x :: l2) p = Some (length l1).
Proof.
  intros H1 Hx. induction l1 as [|y l1 IH]; simpl; [by rewrite bool_decide_true|].
  rewrite bool_decide_false by set_solver. rewrite IH by set_solver. done.
Qed.

(** The entry of a peer *)
Lemma entry_split l p : p ∈ ids l -> NoDup (ids l) ->
  exists l1 x l2, l = l1 ++ x :: l2 /\ q_id x = p /\ p ∉ ids l1 /\ p ∉ ids l2 /\ findIn l p = Some (length l1).
Proof.
  intros Hp Hn. destruct (findIn l p) as [i|] eqn:E; [|by apply find_none in E].
  destruct (find_split _ _ _ E) as (l1 & x & l2 & -> & <- & Hx). exists l1, x, l2. unfold ids in *.
  rewrite fmap_app, fmap_cons in Hn. apply NoDup_app in Hn as (_ & N1 & N2). apply NoDup_cons in N2 as [N2 _].
  subst p. split_and!; [done|done| |done|done]. intros H. apply (N1 _ H). by left.
Qed.

Definition with_state (x : queryPeerState) (s : PeerState) : queryPeerState := mkQPS (q_id x) (q_distance x) s (referredBy x).
(** A peer changes its state. *)
Record moved (p : PeerID) (s : PeerState) (qp qp' : QueryPeerset) : Prop := {
  mv_split : exists l1 x l2, all qp = l1 ++ x :: l2 /\ q_id x = p /\ GetState qp p = Some (q_state x)
    /\ all qp' = l1 ++ with_state x s :: l2;
  mv_sorted : q_sorted qp' = q_sorted qp }.

Lemma SetState_moved qp p s : p ∈ ids (all qp) -> NoDup (ids (all qp)) -> exists qp', SetState qp p s = Some qp' /\ moved p s qp qp'.
Proof.
  intros Hp Hn. destruct (entry_split _ _ Hp Hn) as (l1 & x & l2 & E & Hx & _ & _ & Hf).
  unfold SetState, find. rewrite Hf. simpl. eexists. split; [done|]. split; [|done].
  exists l1, x, l2. split_and!; [done|done| |].
  - unfold GetState, find. rewrite Hf. simpl. rewrite E, list_lookup_middle by done. done.
  - simpl. rewrite E, alter_app_r_alt by lia. by rewrite Nat.sub_diag.
Qed.
Lemma GetState_of l1 x l2 b : q_id x ∉ ids l1 -> GetState (mkQP (l1 ++ x :: l2) b) (q_id x) = Some (q_state x).
Proof. intros H. unfold GetState, find. simpl. rewrite find_app by done. simpl. by rewrite list_lookup_middle. Qed.
Lemma GetState_elem qp x : NoDup (ids (all qp)) -> x ∈ all qp -> GetState qp (q_id x) = Some (q_state x).
Proof.
  intros Hn [l1 [l2 E]]%list_elem_of_split. destruct qp as [l b]. simpl in *. subst l. apply GetState_of.
  unfold ids in Hn. rewrite fmap_app in Hn. apply NoDup_app in Hn as (_ & N & _). intros H. apply (N _ H). by left.
Qed.
Lemma GetReferrer_some qp p : p ∈ ids (all qp) -> NoDup (ids (all qp)) -> is_Some (GetReferrer qp p).
Proof.
  intros Hp Hn. destruct (entry_split _ _ Hp Hn) as (l1 & x & l2 & E & _ & _ & _ & Hf).
  unfold GetReferrer, find. rewrite Hf. simpl. rewrite E, list_lookup_middle by done. by eexists.
Qed.

(** The peers with a state *)
Definition having (s : PeerState) (l : list queryPeerState) : list PeerID := inStates [s] l.
Lemma inStates_app st l1 l2 : inStates st (l1 ++ l2) = inStates st l1 ++ inStates st l2.
Proof. unfold inStates. by rewrite filter_app, fmap_app. Qed.
Lemma inStates_cons st x l : inStates st (x :: l) = (if decide (q_state x ∈ st) then [q_id x] else []) ++ inStates st l.
Proof. unfold inStates. rewrite filter_cons. by case_decide. Qed.
Lemma inStates_perm st l l' : l ≡ₚ l' -> inStates st l ≡ₚ inStates st l'.
Proof. intros H. unfold inStates. by rewrite H. Qed.
Lemma elem_of_inStates st l p : p ∈ inStates st l <-> exists x, x ∈ l /\ q_id x = p /\ q_state x ∈ st.
Proof. unfold inStates. rewrite list_elem_of_fmap. setoid_rewrite list_elem_of_filter. naive_solver. Qed.
Lemma inStates_ids st l p : p ∈ inStates st l -> p ∈ ids l.
Proof. rewrite elem_of_inStates. intros (x & Hx & <- & _). apply list_elem_of_fmap. by exists x. Qed.
Lemma inStates_NoDup st l : NoDup (ids l) -> NoDup (inStates st l).
Proof.
  induction l as [|x l IH]; intros H; [constructor|]. apply NoDup_cons in H as [Hx H]. rewrite inStates_cons.
  case_decide; [|by apply IH]. simpl. constructor; [|by apply IH]. intros Hi. by apply Hx, (inStates_ids st).
Qed.

Lemma moved_ids p s qp qp' : moved p s qp qp' -> ids (all qp') = ids (all qp).
Proof. intros [(l1 & x & l2 & -> & _ & _ & ->) _]. unfold ids. by rewrite !fmap_app, !fmap_cons. Qed.
(** The state of a peer before the change *)
Lemma moved_state p s s1 qp qp' : NoDup (ids (all qp)) -> moved p s qp qp' -> p ∈ having s1 (all qp) ->
  exists l1 x l2, all qp = l1 ++ x :: l2 /\ q_id x = p /\ q_state x = s1 /\ all qp' = l1 ++ with_state x s :: l2.
Proof.
  intros Hn [(l1 & x & l2 & E & Hx & Hg & E') _] Hp. exists l1, x, l2. split_and!; try done.
  apply elem_of_inStates in Hp as (y & Hy & Hyp & Hys). assert (GetState qp p = Some (q_state y)) by (rewrite <-Hyp; by apply GetState_elem).
  assert (q_state y = s1) by set_solver. congruence.
Qed.
(** The peers in the states [st] when the state changes from [s1] to [s] *)
Lemma moved_leave p s s1 st qp qp' : NoDup (ids (all qp)) -> moved p s qp qp' -> p ∈ having s1 (all qp) ->
  s1 ∈ st -> s ∉ st -> inStates st (all qp) ≡ₚ p :: inStates st (all qp').
Proof.
  intros Hn M Hp H1 H2. destruct (moved_state p s s1 qp qp' Hn M Hp) as (l1 & x & l2 & -> & Hx & Hs & ->).
  rewrite !inStates_app, !inStates_cons. cbn [q_state with_state q_id]. rewrite Hs.
  rewrite decide_True, decide_False by done. simpl. by rewrite Hx, Permutation_middle.
Qed.
Lemma moved_enter p s s1 st qp qp' : NoDup (ids (all qp)) -> moved p s qp qp' -> p ∈ having s1 (all qp) ->
  s1 ∉ st -> s ∈ st -> inStates st (all qp') ≡ₚ p :: inStates st (all qp).
Proof.
  intros Hn M Hp H1 H2. destruct (moved_state p s s1 qp qp' Hn M Hp) as (l1 & x & l2 & -> & Hx & Hs & ->).
  rewrite !inStates_app, !inStates_cons. cbn [q_state with_state q_id]. rewrite Hs.
  rewrite decide_True, decide_False by done. simpl. by rewrite Hx, Permutation_middle.
Qed.
Lemma moved_within p s s1 st qp qp' : NoDup (ids (all qp)) -> moved p s qp qp' -> p ∈ having s1 (all qp) ->
  (s1 ∈ st <-> s ∈ st) -> inStates st (all qp') = inStates st (all qp).
Proof.
  intros Hn M Hp H. destruct (moved_state p s s1 qp qp' Hn M Hp) as (l1 & x & l2 & -> & Hx & Hs & ->).
  rewrite !inStates_app, !inStates_cons. cbn [q_state with_state q_id]. rewrite Hs. by rewrite (decide_ext _ _ _ _ H).
Qed.

(** ** The invariant of the set *)
Section inv.
Context {SS : SortSort} {SL : SortSortLaws SS} (dht : dhtConfig).

Record setOk (qp : QueryPeerset) : Prop := {
  so_nodup : NoDup (ids (all qp));
  so_self : self dht ∉ ids (all qp);
  so_distance : Forall (fun x => q_distance x = distance dht (q_id x)) (all qp);
  so_sorted : q_sorted qp = true -> StronglySorted Z.le (q_distance <$> all qp) }.

Lemma sort_perm qp : all (sort qp) ≡ₚ all qp.
Proof. unfold sort. destruct (q_sorted qp); [done|apply sortSort_perm]. Qed.
Lemma sort_flag qp : q_sorted (sort qp) = true.
Proof. unfold sort. by destruct (q_sorted qp) eqn:E. Qed.
Lemma sort_sort qp : sort (sort qp) = sort qp.
Proof. unfold sort at 1. by rewrite sort_flag. Qed.
Lemma sort_ok qp : setOk qp -> setOk (sort qp).
Proof.
  intros [S1 S2 S3 S4]. pose proof (sort_perm qp) as P. split.
  - unfold ids. by rewrite P.
  - unfold ids. by rewrite P.
  - by rewrite P.
  - intros _. unfold sort. destruct (q_sorted qp); [by apply S4|apply sortSort_sorted].
Qed.

Lemma peer_moved_ok p s qp qp' : moved p s qp qp' -> setOk qp -> setOk qp'.
Proof.
  intros M [S1 S2 S3 S4]. rewrite <-(moved_ids p s qp qp' M) in S1, S2. destruct M as [(l1 & x & l2 & E & _ & _ & E') Es].
  split; [done|done| |].
  - rewrite E in S3. rewrite E'. apply Forall_app in S3 as [F1 F2]. apply Forall_app. inversion F2; subst. split; [done|by constructor].
  - rewrite Es, E'. rewrite E in S4. rewrite !fmap_app, !fmap_cons in *. exact S4.
Qed.

Lemma TryAdd_ok qp p by_ : setOk qp -> p <> self dht -> setOk (TryAdd (distance dht) qp p by_).1
  /\ ids (all (TryAdd (distance dht) qp p by_).1) ⊆ p :: ids (all qp)
  /\ forall st, PeerHeard ∉ st -> inStates st (all (TryAdd (distance dht) qp p by_).1) = inStates st (all qp).
Proof.
  intros [S1 S2 S3 S4] Hp. unfold TryAdd. destruct (find qp p) eqn:E; [split_and!; [done|set_solver|done]|].
  apply find_none in E. simpl. split_and!.
  - split; simpl; unfold ids; rewrite ?fmap_app; simpl.
    + apply NoDup_app. split_and!; [done| |apply NoDup_singleton]. intros x Hx ->%list_elem_of_singleton. done.
    + set_solver.
    + apply Forall_app. split; [done|by repeat constructor].
    + done.
  - unfold ids. rewrite fmap_app. set_solver.
  - intros st Hst. rewrite inStates_app, inStates_cons. simpl. rewrite decide_False by done. by rewrite app_nil_r.
Qed.

(** ** Reading the set *)
Lemma closestN_eq qp n st : 0 <= n ->
  GetClosestNInStates qp n st = Some (sort qp, take (Z.to_nat n) (inStates st (all (sort qp)))).
Proof.
  intros Hn. unfold GetClosestNInStates. destruct (Z.leb_spec n (Z.of_nat (length (inStates st (all (sort qp)))))) as [H|H].
  - by destruct (Z.ltb_spec n 0); [lia|].
  - rewrite take_ge by lia. done.
Qed.
Lemma length_inStates st l : (length (inStates st l) <= length l)%nat.
Proof. unfold inStates. rewrite length_fmap. apply length_filter. Qed.
Lemma closest_eq qp st : GetClosestInStates qp st = Some (sort qp, inStates st (all (sort qp))).
Proof.
  unfold GetClosestInStates. rewrite closestN_eq by lia. rewrite take_ge; [done|].
  rewrite Nat2Z.id, <-(Permutation_length (sort_perm qp)). apply length_inStates.
Qed.
Lemma NumWaiting_eq qp : NumWaiting qp = Some (sort qp, Z.of_nat (length (having PeerWaiting (all qp)))).
Proof.
  unfold NumWaiting. rewrite closest_eq. simpl. by rewrite (Permutation_length (inStates_perm _ _ _ (sort_perm qp))).
Qed.
Lemma starvation_eq qp : isStarvationTermination qp
  = Some (sort qp, bool_decide (having PeerHeard (all qp) = [] /\ having PeerWaiting (all qp) = [])).
Proof.
  unfold isStarvationTermination, NumHeard. rewrite closest_eq. cbn [mbind option_bind fst snd].
  rewrite (Permutation_length (inStates_perm [PeerHeard] _ _ (sort_perm qp))). fold (having PeerHeard (all qp)).
  destruct (Z.eqb_spec (Z.of_nat (length (having PeerHeard (all qp)))) 0) as [H|H].
  - rewrite NumWaiting_eq. simpl. rewrite sort_sort. f_equal. f_equal.
    assert (HH : having PeerHeard (all qp) = []) by (apply length_zero_iff_nil; lia).
    unfold having at 1. rewrite (Permutation_length (inStates_perm [PeerWaiting] _ _ (sort_perm qp))). fold (having PeerWaiting (all qp)).
    destruct (Z.eqb_spec (Z.of_nat (length (having PeerWaiting (all qp)))) 0) as [Hw|Hw]; symmetry; [apply bool_decide_eq_true|apply bool_decide_eq_false].
    + split; [done|]. apply length_zero_iff_nil. lia.
    + intros [_ Hw2]. rewrite Hw2 in Hw. simpl in Hw. lia.
  - f_equal. f_equal. symmetry. apply bool_decide_eq_false. intros [HH _]. rewrite HH in H. simpl in H. lia.
Qed.
Lemma allQueried_eq qp l : setOk qp -> l ⊆ ids (all qp) ->
  allQueried qp l = Some (bool_decide (Forall (fun p => GetState qp p = Some PeerQueried) l)).
Proof.
  intros S Hl. induction l as [|p l IH]; [done|]. simpl.
  assert (Hp : p ∈ ids (all qp)) by set_solver. apply list_elem_of_fmap in Hp as (x & -> & Hx).
  rewrite (GetState_elem qp x (so_nodup _ S) Hx). simpl. destruct (bool_decide_reflect (q_state x = PeerQueried)) as [Hq|Hq].
  - rewrite IH by set_solver. f_equal. apply bool_decide_ext. rewrite Forall_cons, (GetState_elem qp x (so_nodup _ S) Hx), Hq. naive_solver.
  - f_equal. symmetry. apply bool_decide_eq_false. rewrite Forall_cons, (GetState_elem qp x (so_nodup _ S) Hx). naive_solver.
Qed.
Definition closestOf (n : Z) (st : list PeerState) (qp : QueryPeerset) : list PeerID :=
  take (Z.to_nat n) (inStates st (all (sort qp))).
Lemma closestOf_ids n st qp : closestOf n st qp ⊆ ids (all (sort qp)).
Proof. intros p Hp. apply (inStates_ids st). unfold closestOf in Hp. by eapply (subseteq_take _ _ p Hp). Qed.
Lemma peer_lookup_eq qp : setOk qp -> 0 <= beta dht -> isLookupTermination dht qp
  = Some (sort qp, bool_decide (Forall (fun p => GetState (sort qp) p = Some PeerQueried)
      (closestOf (beta dht) [PeerHeard; PeerWaiting; PeerQueried] qp))).
Proof.
  intros S Hb. unfold isLookupTermination. rewrite closestN_eq by done. cbn [mbind option_bind fst snd].
  rewrite allQueried_eq; [done|by apply sort_ok|apply closestOf_ids].
Qed.
Lemma firstPeers_take n l : forall c, 0 <= c < n -> firstPeers l c n = take (Z.to_nat (n - c)) l.
Proof.
  induction l as [|p l IH]; intros c Hc; [by rewrite take_nil|]. simpl.
  replace (Z.to_nat (n - c)) with (S (Z.to_nat (n - (c + 1)))) by lia. simpl. f_equal.
  destruct (Z.eqb_spec (c + 1) n); [replace (Z.to_nat (n - (c + 1))) with 0%nat by lia; done|]. apply IH. lia.
Qed.

(** ** Changes of state *)
Abbreviation touched := [PeerWaiting; PeerQueried; PeerUnreachable].

(** What [updateState] and spawning leave alone *)
Record same (q q' : query) : Prop := {
  sa_terminated : terminated q' = terminated q;
  sa_ch : ch q' = ch q }.

Lemma settle_ok s q p : setOk (queryPeers q) -> p ∈ having PeerWaiting (all (queryPeers q)) -> s = PeerQueried \/ s = PeerUnreachable ->
  exists qp, settleStep dht s q p = Some (set_peers q qp) /\ setOk qp
    /\ having PeerWaiting (all (queryPeers q)) ≡ₚ p :: having PeerWaiting (all qp)
    /\ inStates touched (all qp) = inStates touched (all (queryPeers q))
    /\ having PeerHeard (all qp) = having PeerHeard (all (queryPeers q)) /\ ids (all qp) = ids (all (queryPeers q)).
Proof.
  intros S Hp Hs. unfold settleStep. assert (Hi : p ∈ ids (all (queryPeers q))) by (by apply (inStates_ids [PeerWaiting])).
  rewrite bool_decide_false by (intros ->; by apply (so_self _ S)).
  assert (Hg : GetState (queryPeers q) p = Some PeerWaiting).
  { apply elem_of_inStates in Hp as (x & Hx & <- & Hx2). rewrite (GetState_elem _ x (so_nodup _ S) Hx). f_equal. set_solver. }
  rewrite Hg. simpl. destruct (SetState_moved (queryPeers q) p s Hi (so_nodup _ S)) as (qp & -> & M). simpl.
  pose proof (so_nodup _ S) as N. exists qp. split_and!; [done|by eapply peer_moved_ok| | | |by eapply moved_ids].
  - apply (moved_leave p s PeerWaiting); [done..|set_solver|destruct Hs; set_solver].
  - apply (moved_within p s PeerWaiting); [done..|destruct Hs; set_solver].
  - apply (moved_within p s PeerWaiting); [done..|destruct Hs; set_solver].
Qed.

Lemma heard_ok c l : forall qp, setOk qp ->
  setOk (foldl (heardStep dht c) qp l)
  /\ (forall st, PeerHeard ∉ st -> inStates st (all (foldl (heardStep dht c) qp l)) = inStates st (all qp))
  /\ (forall p, p ∈ ids (all (foldl (heardStep dht c) qp l)) -> p ∈ ids (all qp) \/ p ∈ l).
Proof.
  induction l as [|p l IH]; intros qp S; [split_and!; [done|done|by left]|]. cbn [foldl].
  assert (H0 : setOk (heardStep dht c qp p) /\ (forall st, PeerHeard ∉ st -> inStates st (all (heardStep dht c qp p)) = inStates st (all qp))
    /\ ids (all (heardStep dht c qp p)) ⊆ p :: ids (all qp)).
  { unfold heardStep. case_bool_decide as Hp; [split_and!; [done|done|set_solver]|].
    destruct (TryAdd_ok qp p c S Hp) as (T1 & T2 & T3). by split_and!. }
  destruct H0 as (T1 & T2 & T3). destruct (IH _ T1) as (H1 & H2 & H3). split_and!; [done|intros st Hst; by rewrite H2, T2|].
  intros x [Hx%T3|Hx]%H3; set_solver.
Qed.

(** An update of a goroutine *)
Definition normal (u : queryUpdate) : Prop :=
  exists p, (queried u = [p] /\ unreachable u = []) \/ (queried u = [] /\ unreachable u = [p]).
Definition owes (u : queryUpdate) : list PeerID := queried u ++ unreachable u.
Definition pending (l : list queryUpdate) : list PeerID := l ≫= owes.

Lemma updateState_ok q up rest : setOk (queryPeers q) -> terminated q = None ->
  having PeerWaiting (all (queryPeers q)) ≡ₚ owes up ++ rest -> (owes up = [] \/ normal up) ->
  exists q', updateState dht q up = Some q' /\ setOk (queryPeers q') /\ same q q' /\ running q' = running q /\ asked q' = asked q
    /\ having PeerWaiting (all (queryPeers q')) ≡ₚ rest
    /\ inStates touched (all (queryPeers q')) = inStates touched (all (queryPeers q))
    /\ (forall p, p ∈ ids (all (queryPeers q')) -> p ∈ ids (all (queryPeers q)) \/ p ∈ heard up).
Proof.
  intros S Ht Hw Hn. unfold updateState. rewrite Ht.
  destruct (heard_ok (cause up) (heard up) (queryPeers q) S) as (S1 & H1 & H3).
  set (q1 := set_peers q (foldl (heardStep dht (cause up)) (queryPeers q) (heard up))).
  assert (Hw1 : having PeerWaiting (all (queryPeers q1)) ≡ₚ owes up ++ rest) by (unfold having; simpl; rewrite H1 by set_solver; exact Hw).
  assert (Ht1 : inStates touched (all (queryPeers q1)) = inStates touched (all (queryPeers q))) by (simpl; apply H1; set_solver).
  destruct Hn as [Hn|(p & [[Eq Eu]|[Eq Eu]])].
  - unfold owes in Hn. apply app_eq_nil in Hn as [E1 E2]. unfold owes in Hw1. rewrite E1, E2 in Hw1 |- *.
    cbn [foldlM mbind option_bind]. exists q1. by split_and!.
  - rewrite Eq, Eu in *. unfold owes in Hw1. rewrite Eq, Eu in Hw1. cbn [foldlM].
    destruct (settle_ok PeerQueried q1 p S1) as (qp & -> & S2 & P2 & T2 & _ & I2); [rewrite Hw1; by left|by left|].
    cbn [mbind option_bind foldlM]. eexists. split; [done|]. unfold timeStep. case_bool_decide; simpl; rewrite T2, I2; split_and!; try done.
    all: rewrite P2 in Hw1; by apply Permutation_cons_inv in Hw1.
  - rewrite Eq, Eu in *. unfold owes in Hw1. rewrite Eq, Eu in Hw1. cbn [foldlM mbind option_bind].
    destruct (settle_ok PeerUnreachable q1 p S1) as (qp & -> & S2 & P2 & T2 & _ & I2); [rewrite Hw1; by left|by right|].
    cbn [mbind option_bind foldlM]. eexists. split; [done|]. simpl. rewrite T2, I2. split_and!; try done.
    rewrite P2 in Hw1. by apply Permutation_cons_inv in Hw1.
Qed.

Lemma spawns_ok l : forall q, setOk (queryPeers q) -> NoDup l -> l ⊆ having PeerHeard (all (queryPeers q)) ->
  exists q', foldlM spawnQuery q l = Some q' /\ setOk (queryPeers q') /\ same q q'
    /\ running q' = running q ++ l /\ asked q' = asked q ++ l
    /\ having PeerWaiting (all (queryPeers q')) ≡ₚ having PeerWaiting (all (queryPeers q)) ++ l
    /\ inStates touched (all (queryPeers q')) ≡ₚ inStates touched (all (queryPeers q)) ++ l
    /\ ids (all (queryPeers q')) = ids (all (queryPeers q)).
Proof.
  induction l as [|p l IH]; intros q S Hn Hl; [exists q; rewrite !app_nil_r; by split_and!|].
  apply NoDup_cons in Hn as [Hp Hn]. assert (Hh : p ∈ having PeerHeard (all (queryPeers q))) by (apply Hl; by left).
  assert (Hi : p ∈ ids (all (queryPeers q))) by (by apply (inStates_ids [PeerHeard])). pose proof (so_nodup _ S) as N.
  destruct (SetState_moved (queryPeers q) p PeerWaiting Hi N) as (qp & Eq & M).
  pose proof (moved_leave p PeerWaiting PeerHeard [PeerHeard] _ _ N M Hh ltac:(set_solver) ltac:(set_solver)) as L1.
  pose proof (moved_enter p PeerWaiting PeerHeard [PeerWaiting] _ _ N M Hh ltac:(set_solver) ltac:(set_solver)) as L2.
  pose proof (moved_enter p PeerWaiting PeerHeard touched _ _ N M Hh ltac:(set_solver) ltac:(set_solver)) as L3.
  set (q1 := mkQuery qp (peerTimes q) (terminated q) (running q ++ [p]) (ch q) (asked q ++ [p])).
  assert (E1 : spawnQuery q p = Some q1).
  { unfold spawnQuery. destruct (GetReferrer_some _ _ Hi N) as [r ->]. simpl. by rewrite Eq. }
  cbn [foldlM]. rewrite E1. cbn [mbind option_bind].
  destruct (IH q1) as (q' & -> & S' & [A1 A2] & R & A & W & T & I).
  - by eapply peer_moved_ok.
  - done.
  - intros x Hx. assert (Hx2 : x ∈ p :: having PeerHeard (all qp)) by (unfold having; rewrite <-L1; apply Hl; by right).
    apply elem_of_cons in Hx2 as [->|]; [done|]. done.
  - exists q'. split_and!; [done|done|by split|rewrite R; simpl; by rewrite <-app_assoc|rewrite A; simpl; by rewrite <-app_assoc| | |].
    + rewrite W. cbn [queryPeers q1]. unfold having in *. rewrite L2. by rewrite <-Permutation_middle.
    + rewrite T. cbn [queryPeers q1]. rewrite L3. by rewrite <-Permutation_middle.
    + rewrite I. cbn [queryPeers q1]. by eapply moved_ids.
Qed.

(** ** The loop *)
Record qInv (q : query) : Prop := {
  qi_set : setOk (queryPeers q);
  qi_wait : having PeerWaiting (all (queryPeers q)) ≡ₚ running q ++ pending (ch q);
  qi_asked : asked q ≡ₚ inStates touched (all (queryPeers q));
  qi_ch : Forall normal (ch q) \/ (exists seeds, ch q = [mkUpdate (self dht) [] seeds [] 0] /\ running q = []);
  qi_total : Z.of_nat (length (ch q) + length (running q)) <= alpha dht;
  qi_alive : terminated q = None -> ch q <> [] \/ running q <> [] }.

Lemma pending_length l : Forall normal l -> length (pending l) = length l.
Proof.
  induction 1 as [|u l (p & Hu) _ IH]; [done|]. unfold pending in *. cbn [mbind list_bind]. rewrite length_app, IH. unfold owes.
  destruct Hu as [[-> ->]|[-> ->]]; done.
Qed.

Section loop.
Context (Hb : 0 <= beta dht) (stopFn : QueryPeerset -> bool).

(** [isReadyToTerminate]: a reason, or the closest peers we have only heard about *)
Lemma ready_ok qp n : setOk qp -> exists qp' r, isReadyToTerminate dht stopFn qp n = Some (qp', r)
  /\ (qp' = qp \/ qp' = sort qp)
  /\ match r with
     | inl LookupCompleted => Forall (fun p => GetState (sort qp) p = Some PeerQueried) (closestOf (beta dht) [PeerHeard; PeerWaiting; PeerQueried] qp)
     | inl LookupStarvation => having PeerHeard (all qp) = [] /\ having PeerWaiting (all qp) = []
     | inl LookupStopped => stopFn qp = true
     | inl LookupCancelled => False
     | inr l => qp' = sort qp /\ l = firstPeers (having PeerHeard (all (sort qp))) 0 n
         /\ ~ (having PeerHeard (all qp) = [] /\ having PeerWaiting (all qp) = [])
     end.
Proof.
  intros S. unfold isReadyToTerminate. destruct (stopFn qp) eqn:Es; [do 2 eexists; split_and!; [done|by left|done]|].
  rewrite starvation_eq. cbn [mbind option_bind fst snd]. case_bool_decide as Hs; [do 2 eexists; split_and!; [done|by right|done]|].
  rewrite peer_lookup_eq by (done || by apply sort_ok). cbn [mbind option_bind fst snd]. unfold closestOf. rewrite !sort_sort.
  case_bool_decide as Hl; [do 2 eexists; split_and!; [done|by right|done]|].
  rewrite closest_eq, sort_sort. cbn [mbind option_bind fst snd]. do 2 eexists. split_and!; [done|by right|].
  done.
Qed.

(** What the reason of the termination says *)
Definition outcome (q : query) : Prop :=
  match terminated q with
  | Some LookupCompleted => Forall (fun p => GetState (sort (queryPeers q)) p = Some PeerQueried)
      (closestOf (beta dht) [PeerHeard; PeerWaiting; PeerQueried] (queryPeers q))
  | Some LookupStarvation => having PeerHeard (all (queryPeers q)) = [] /\ having PeerWaiting (all (queryPeers q)) = []
  | _ => True
  end.

Lemma loopTail_ok q : setOk (queryPeers q) -> terminated q = None ->
  having PeerWaiting (all (queryPeers q)) ≡ₚ running q ++ pending (ch q) ->
  asked q ≡ₚ inStates touched (all (queryPeers q)) -> Forall normal (ch q) ->
  Z.of_nat (length (ch q) + length (running q)) < alpha dht ->
  exists q', loopTail dht stopFn q = Some q' /\ qInv q' /\ Forall normal (ch q')
    /\ (forall p, p ∈ ids (all (queryPeers q')) <-> p ∈ ids (all (queryPeers q)))
    /\ terminated q' <> Some LookupCancelled /\ ch q' = ch q /\ outcome q'
    /\ (exists l, asked q' = asked q ++ l /\ running q' = running q ++ l).
Proof.
  intros S Ht Hw Ha Hn Hl. unfold loopTail. rewrite NumWaiting_eq. cbn [mbind option_bind fst snd].
  set (qs := sort (queryPeers q)). assert (Eqs : sort qs = qs) by apply sort_sort.
  assert (Ss : setOk qs) by (by apply sort_ok).
  assert (HP : forall st, inStates st (all qs) ≡ₚ inStates st (all (queryPeers q))) by (intros; apply inStates_perm, sort_perm).
  assert (Hi : forall p, p ∈ ids (all qs) <-> p ∈ ids (all (queryPeers q))) by (intros p; unfold ids, qs; by rewrite (sort_perm (queryPeers q))).
  assert (Hlen : Z.of_nat (length (having PeerWaiting (all (queryPeers q)))) = Z.of_nat (length (running q) + length (ch q))).
  { rewrite (Permutation_length Hw), length_app, pending_length by done. done. }
  destruct (ready_ok qs (alpha dht - Z.of_nat (length (having PeerWaiting (all (queryPeers q)))))) as (qp' & r & -> & Hqp & Hr); [done|].
  assert (Eqp : qp' = qs) by (rewrite Eqs in Hqp; by destruct Hqp). subst qp'. clearbody qs.
  cbn [mbind option_bind fst snd].
  assert (I0 : forall t, terminated q = None -> t <> None -> qInv (mkQuery qs (peerTimes q) t (running q) (ch q) (asked q))).
  { intros t _ Ht'. split; simpl; try done; [unfold having; by rewrite HP|by rewrite HP|by left|lia]. }
  destruct r as [reason|l].
  - unfold terminate. cbn [terminated set_peers]. rewrite Ht. eexists. split; [done|]. split; [by apply I0|].
    simpl. split_and!; try done.
    + by destruct reason.
    + unfold outcome. simpl. by destruct reason; try rewrite Eqs in Hr |- *.
    + exists []. by rewrite !app_nil_r.
  - destruct Hr as (_ & -> & Hne). cbn [terminated set_peers]. rewrite Ht.
    rewrite Eqs, firstPeers_take, Z.sub_0_r by lia. set (hs := having PeerHeard (all qs)).
    destruct (spawns_ok (take (Z.to_nat (alpha dht - Z.of_nat (length (having PeerWaiting (all (queryPeers q)))))) hs)
      (set_peers q qs)) as (q' & -> & S' & [A1 A2] & R & A & W & T & I).
    + done.
    + eapply sublist_NoDup; [apply (inStates_NoDup [PeerHeard]), (so_nodup _ Ss)|apply sublist_take].
    + apply subseteq_take.
    + cbn in A1, A2, R, A, W, T, I. exists q'. split; [done|].
      assert (Hal : terminated q' = None -> ch q' <> [] \/ running q' <> []).
      { intros _. rewrite R, A2. destruct (decide (ch q = [])) as [Hc|]; [|by left]. right. intros [Hr0 Htk]%app_eq_nil.
        apply Hne. assert (Hw0 : having PeerWaiting (all (queryPeers q)) = []) by (rewrite Hc, Hr0 in Hw; by apply Permutation_nil_r in Hw).
        assert (Hw1 : having PeerWaiting (all qs) = []) by (apply Permutation_nil_r; unfold having in *; by rewrite HP, Hw0).
        split; [|done]. rewrite Hw0 in Htk. simpl in Htk. fold hs. destruct hs; [done|]. exfalso.
        replace (Z.to_nat (alpha dht - Z.of_nat 0)) with (Datatypes.S (Z.to_nat (alpha dht - 1))) in Htk by lia. discriminate. }
      split_and!.
      * split; [done| | |rewrite A2; by left| |done].
        -- rewrite W, R, A2. match goal with |- context [take ?n hs] => generalize (take n hs); intros k end. unfold having. rewrite HP. fold (having PeerWaiting (all (queryPeers q))). rewrite Hw. rewrite <-!app_assoc.
           apply Permutation_app_head. apply Permutation_app_comm.
        -- rewrite A, T, HP. by rewrite Ha.
        -- rewrite A2, R, length_app, length_take. lia.
      * by rewrite A2.
      * intros p. by rewrite I.
      * by rewrite A1, Ht.
      * done.
      * unfold outcome. by rewrite A1, Ht.
      * by eexists.
Qed.

(** When the context ends, whatever the number of queries in flight *)
Lemma loopCancelled_ok q : qInv q -> terminated q = None ->
  exists qp, loopCancelled dht stopFn q = Some (mkQuery qp (peerTimes q) (Some LookupCancelled) (running q) (ch q) (asked q))
    /\ (qp = queryPeers q \/ qp = sort (queryPeers q)).
Proof.
  intros I Ht. unfold loopCancelled, terminate, loopTail. rewrite Ht. cbn [queryPeers]. rewrite NumWaiting_eq. cbn [mbind option_bind fst snd].
  match goal with |- context [isReadyToTerminate dht stopFn ?qs ?n] => destruct (ready_ok qs n) as (qp & r & -> & Hqp & _) end.
  { apply sort_ok, (qi_set _ I). }
  cbn [mbind option_bind fst snd]. exists qp. rewrite sort_sort in Hqp. split; [|by destruct Hqp; right].
  by destruct r.
Qed.

(** ** A run: updates taken from the channel, the end of the context, answers of the goroutines.  What [stopFn] says may
    depend on more than the peers of the query, for instance on connections: it is another function in every step. *)
Inductive qStep (key : bytes) (q : query) : query -> Prop :=
  | step_update stop up rest q' : terminated q = None -> ch q = up :: rest -> loopUpdate dht stop q up rest = Some q' -> qStep key q q'
  | step_cancel stop q' : terminated q = None -> loopCancelled dht stop q = Some q' -> qStep key q q'
  | step_finish r1 p r2 answer d : running q = r1 ++ p :: r2 -> Z.of_nat (length (ch q)) < alpha dht ->
      qStep key q (mkQuery (queryPeers q) (peerTimes q) (terminated q) (r1 ++ r2)
        (ch q ++ [queryPeer dht key p answer d]) (asked q)).

Lemma start_inv seeds : 1 <= alpha dht -> qInv (startQuery dht seeds).
Proof using Type.
  intros Ha. clear stopFn Hb SL SS. split; simpl; try done.
  - split; simpl; try done; [constructor|set_solver].
  - right. by exists seeds.
  - by left.
Qed.

Lemma update_ok q up rest : qInv q -> 1 <= alpha dht -> terminated q = None -> ch q = up :: rest ->
  exists q', loopUpdate dht stopFn q up rest = Some q' /\ qInv q' /\ terminated q' <> Some LookupCancelled
    /\ ch q' = rest /\ outcome q' /\ (exists l, asked q' = asked q ++ l /\ running q' = running q ++ l).
Proof.
  intros I Ha Ht Hc. pose proof (qi_wait _ I) as Hw. pose proof (qi_ch _ I) as Hn. pose proof (qi_total _ I) as Hl.
  rewrite Hc in Hw, Hn, Hl. cbn [length] in Hl.
  assert (Hup : (owes up = [] \/ normal up) /\ Forall normal rest).
  { destruct Hn as [[Hu Hr]%Forall_cons|(seeds & [= -> ->] & _)]; [by split; [right|]|by split; [left|constructor]]. }
  destruct Hup as [Hup Hrest]. unfold loopUpdate.
  set (q0 := mkQuery (queryPeers q) (peerTimes q) (terminated q) (running q) rest (asked q)).
  assert (Hw0 : having PeerWaiting (all (queryPeers q0)) ≡ₚ owes up ++ (running q ++ pending rest)).
  { cbn [queryPeers q0]. rewrite Hw. unfold pending. cbn [mbind list_bind]. by rewrite !app_assoc, (Permutation_app_comm (running q)). }
  destruct (updateState_ok q0 up _ (qi_set _ I) Ht Hw0 Hup) as (q1 & -> & S1 & [T1 C1] & R1 & A1 & W1 & P1 & _).
  cbn [mbind option_bind]. cbn in T1, C1, R1, A1.
  destruct (loopTail_ok q1) as (q' & E & I' & _ & _ & Hnc & Hch & Ho & Hx).
  - done.
  - by rewrite T1.
  - by rewrite W1, R1, C1.
  - rewrite A1, P1. cbn [queryPeers q0]. apply (qi_asked _ I).
  - by rewrite C1.
  - rewrite C1, R1. lia.
  - exists q'. rewrite E. split_and!; try done; [by rewrite Hch, C1|]. by rewrite <-A1, <-R1.
Qed.

Lemma queryPeer_normal key p answer d : normal (queryPeer dht key p answer d) /\ owes (queryPeer dht key p answer d) = [p].
Proof. destruct answer as [l|]; (split; [exists p|done]); [by left|by right]. Qed.

End loop.

Lemma qStep_inv key q q' : 0 <= beta dht -> 1 <= alpha dht -> qInv q -> qStep key q q' -> qInv q'.
Proof.
  intros Hb Ha I [stop up rest q1 Ht Hc E|stop q1 Ht E|r1 p r2 answer d Hr Hroom].
  - destruct (update_ok Hb stop q up rest I Ha Ht Hc) as (q2 & E2 & I2 & _). congruence.
  - destruct (loopCancelled_ok Hb stop q I Ht) as (qp & E2 & Hqp). rewrite E in E2. injection E2 as ->.
    destruct I as [I1 I2 I3 I4 I5 I6].
    assert (HP : all qp ≡ₚ all (queryPeers q)) by (destruct Hqp as [->| ->]; [done|apply sort_perm]).
    split; simpl; try done.
    + destruct Hqp as [->| ->]; [done|by apply sort_ok].
    + unfold having. by rewrite (inStates_perm _ _ _ HP).
    + by rewrite (inStates_perm _ _ _ HP).
  - destruct (queryPeer_normal key p answer d) as [N O]. destruct I as [I1 I2 I3 I4 I5 I6]. split; simpl; try done.
    + rewrite I2, Hr. unfold pending. rewrite bind_app. cbn [mbind list_bind]. rewrite O. simpl. rewrite <-!app_assoc.
      simpl. apply Permutation_app_head. rewrite Permutation_cons_append. by rewrite <-app_assoc.
    + left. apply Forall_app. split; [|by repeat constructor]. destruct I4 as [|(? & _ & Hr')]; [done|]. rewrite Hr' in Hr. by destruct r1.
    + rewrite Hr in I5. rewrite length_app in *. simpl in *. rewrite length_app. lia.
    + intros _. left. by destruct (ch q).
Qed.
End inv.
