(* ===== verification/KadQueryRun.v ===== *)
(** * Lookups: safety, termination and the result

    The theorems on the runs of the machine of [KadQuery]: the loop of [run], the
    goroutines it starts and the channel between them, for every behaviour of the
    peers and every schedule. *)
From Stdlib Require Import ZArith Lia Sorted.
From stdpp Require Import base tactics list numbers option gmap sets fin_maps sorting relations.
From S2P Require Import Prelude GoBytes BlsRpc KadQuery KadQueryInv.
Local Open Scope Z_scope.

(** ** Sorted lists of peers *)
Lemma sorted_filter (l : list queryPeerState) (st : list PeerState) : StronglySorted Z.le (q_distance <$> l) ->
  StronglySorted Z.le (q_distance <$> filter (fun x => q_state x ∈ st) l).
Proof.
  induction l as [|x l IH]; intros H; [done|]. rewrite fmap_cons in H. inversion H as [|? ? H1 H2]; subst.
  rewrite filter_cons. case_decide; [|by apply IH]. rewrite fmap_cons. constructor; [by apply IH|].
  apply Forall_fmap, Forall_forall. intros y [_ Hy]%list_elem_of_filter. rewrite Forall_fmap, Forall_forall in H2. by apply H2.
Qed.
Lemma sorted_split (l1 l2 : list Z) x y : StronglySorted Z.le (l1 ++ l2) -> x ∈ l1 -> y ∈ l2 -> x <= y.
Proof.
  induction l1 as [|z l1 IH]; intros H Hx Hy; [by apply elem_of_nil in Hx|]. simpl in H. inversion H as [|? ? H1 H2]; subst.
  apply elem_of_cons in Hx as [->|Hx]; [|by apply IH]. rewrite Forall_forall in H2. apply H2. set_solver.
Qed.

Section runs.
Context {SS : SortSort} {SL : SortSortLaws SS} (dht : dhtConfig).

Lemma inStates_distance qp st : setOk dht qp -> distance dht <$> inStates st (all qp) = q_distance <$> filter (fun x => q_state x ∈ st) (all qp).
Proof.
  intros S. unfold inStates. rewrite <-list_fmap_compose. apply list_fmap_ext. intros i x Hx. simpl.
  apply list_elem_of_lookup_2, list_elem_of_filter in Hx as [_ Hx]. symmetry. pose proof (so_distance _ _ S) as F. rewrite Forall_forall in F. by apply F.
Qed.
(** The [n] closest: nobody else in these states is closer. *)
Lemma closestOf_closest qp n st p p' : setOk dht qp -> p ∈ closestOf n st qp ->
  p' ∈ inStates st (all qp) -> p' ∉ closestOf n st qp -> distance dht p <= distance dht p'.
Proof.
  intros S Hp Hp' Hn. pose proof (sort_ok dht qp S) as S'. set (l := inStates st (all (sort qp))).
  assert (Hs : StronglySorted Z.le (distance dht <$> l)).
  { unfold l. rewrite inStates_distance by done. apply sorted_filter, (so_sorted _ _ S'), sort_flag. }
  rewrite <-(take_drop (Z.to_nat n) l), fmap_app in Hs. eapply sorted_split; [exact Hs| |].
  - by apply list_elem_of_fmap_2.
  - apply list_elem_of_fmap_2. assert (Hl : p' ∈ l) by (unfold l; by rewrite (inStates_perm st _ _ (sort_perm qp))).
    rewrite <-(take_drop (Z.to_nat n) l) in Hl. apply elem_of_app in Hl as [|]; done.
Qed.

(** ** The result *)
Abbreviation reachableStates := [PeerHeard; PeerWaiting; PeerQueried].

Lemma constructLookupResult_eq sortClosestPeers q : setOk dht (queryPeers q) -> 0 <= beta dht -> 0 <= bucketSize dht ->
  (forall l, sortClosestPeers l ≡ₚ l) ->
  exists b, constructLookupResult dht sortClosestPeers q = Some (mkResult
      (sortClosestPeers (closestOf (bucketSize dht) reachableStates (queryPeers q)))
      ((fun p => default PeerHeard (GetState (sort (queryPeers q)) p)) <$> sortClosestPeers (closestOf (bucketSize dht) reachableStates (queryPeers q)))
      (closestOf (bucketSize dht) [PeerHeard; PeerWaiting; PeerQueried; PeerUnreachable] (queryPeers q)) b)
    /\ (b = true <-> Forall (fun p => GetState (sort (queryPeers q)) p = Some PeerQueried) (closestOf (beta dht) reachableStates (queryPeers q))
         \/ (having PeerHeard (all (queryPeers q)) = [] /\ having PeerWaiting (all (queryPeers q)) = [])).
Proof.
  intros S Hb Hk Hp. unfold constructLookupResult. rewrite peer_lookup_eq by done. cbn [mbind option_bind fst snd].
  set (C := Forall _ _). set (qs := sort (queryPeers q)). set (c := bool_decide C).
  assert (Hc : c = true <-> C) by apply bool_decide_eq_true. clearbody c.
  assert (E : exists b, (if c then Some (qs, c) else isStarvationTermination qs) = Some (qs, b)
    /\ (b = true <-> C \/ (having PeerHeard (all (queryPeers q)) = [] /\ having PeerWaiting (all (queryPeers q)) = []))).
  { destruct c; [exists true; naive_solver|]. rewrite starvation_eq. rewrite (sort_sort (queryPeers q) : sort qs = qs). eexists. split; [done|].
    rewrite bool_decide_eq_true. unfold having, qs. rewrite <-!length_zero_iff_nil, !(Permutation_length (inStates_perm _ _ _ (sort_perm (queryPeers q)))). naive_solver. }
  destruct E as (b & -> & Hbb). cbn [mbind option_bind fst snd]. exists b. split; [|done].
  rewrite !closestN_eq by done. cbn [mbind option_bind fst snd]. unfold qs. rewrite !sort_sort. unfold closestOf.
  set (l := sortClosestPeers _). assert (Hl : Z.of_nat (length l) <= bucketSize dht).
  { unfold l. rewrite (Permutation_length (Hp _)), length_take. lia. }
  destruct (Z.ltb_spec (bucketSize dht) (Z.of_nat (length l))); [lia|].
  rewrite closestN_eq by done. cbn [mbind option_bind fst snd]. by rewrite sort_sort.
Qed.
(** ** Runs *)
Context (key : bytes).

(** What holds all along a run of [n] steps; every step but a cancellation is an
    answer or the update that carries it. *)
Definition cancels (q : query) : nat := match terminated q with Some LookupCancelled => 1 | _ => 0 end.
Record runOk (n : nat) (q : query) : Prop := {
  ro_inv : qInv dht q;
  ro_outcome : outcome dht q;
  ro_count : (n + 2 * length (running q) + length (ch q) = 1 + 2 * length (asked q) + cancels q)%nat }.

Lemma runOk_start seeds : 1 <= alpha dht -> runOk 0 (startQuery dht seeds).
Proof. intros Ha. split; [by apply start_inv|done|done]. Qed.

Lemma runOk_step n q q' : 1 <= alpha dht -> 0 <= beta dht -> runOk n q -> qStep dht key q q' -> runOk (S n) q'.
Proof.
  intros Ha Hb [I O N] St. pose proof (qStep_inv dht key q q' Hb Ha I St) as I'.
  destruct St as [stop up rest q1 Ht Hc E|stop q1 Ht E|r1 p r2 answer d Hr Hroom].
  - destruct (update_ok dht Hb stop q up rest I Ha Ht Hc) as (q2 & E2 & _ & Hnc & Hch & Ho & (l & Hl1 & Hl2)).
    assert (q2 = q1) as -> by congruence. split; [done|done|].
    assert (cancels q = 0%nat) by (unfold cancels; by rewrite Ht). assert (cancels q1 = 0%nat) by (unfold cancels; by destruct (terminated q1) as [[]|]).
    rewrite Hl1, Hl2, Hch, !length_app. rewrite Hc in N. simpl in N. lia.
  - destruct (loopCancelled_ok dht Hb stop q I Ht) as (qp & E2 & _). rewrite E in E2. injection E2 as ->.
    assert (cancels q = 0%nat) by (unfold cancels; by rewrite Ht). split; [done|done|]. rewrite H in N. cbn -[Nat.mul]. lia.
  - split; [done|done|]. rewrite Hr in N. unfold cancels in *. simpl. rewrite !length_app in *. simpl in *. lia.
Qed.
Lemma runOk_run n seeds q : 1 <= alpha dht -> 0 <= beta dht -> nsteps (qStep dht key) n (startQuery dht seeds) q -> runOk n q.
Proof.
  intros Ha Hb. revert q. induction n as [|n IH]; intros q H; [inversion H; by apply runOk_start|].
  apply nsteps_inv_r in H as (q1 & H1 & H2). eapply runOk_step; [done|done|by apply IH|done].
Qed.

Lemma asked_known q : qInv dht q -> (length (asked q) <= length (all (queryPeers q)))%nat.
Proof. intros I. rewrite (Permutation_length (qi_asked _ _ I)). apply length_inStates. Qed.
Lemma asked_ids q : qInv dht q -> asked q ⊆ ids (all (queryPeers q)).
Proof. intros I p Hp. rewrite (qi_asked _ _ I) in Hp. by eapply inStates_ids. Qed.

(** The loop has something to wait for. *)
Lemma qStep_progress q : 1 <= alpha dht -> 0 <= beta dht -> qInv dht q -> terminated q = None \/ running q <> [] -> exists q', qStep dht key q q'.
Proof.
  intros Ha Hb I H. assert (Hr : running q <> [] -> exists q', qStep dht key q q').
  { intros Hr. destruct (running q) as [|p r] eqn:E; [done|]. eexists. apply (step_finish _ _ _ [] p r None 0); [done|].
    pose proof (qi_total _ _ I) as Hl. rewrite E in Hl. simpl in Hl. lia. }
  destruct H as [Ht|]; [|by apply Hr]. destruct (qi_alive _ _ I Ht) as [Hc|]; [|by apply Hr].
  destruct (ch q) as [|up rest] eqn:E; [done|]. destruct (update_ok dht Hb (fun _ => false) q up rest I Ha Ht E) as (q' & E' & _).
  exists q'. by eapply step_update.
Qed.

End runs.

(** ** The theorems *)
(** C20: A lookup never panics and never hangs, for every seed list, every answer of the peers and every schedule of the
    goroutines: at most [alpha] queries are outstanding and the channel has room for each of them; a peer is asked at most
    once and the node itself never; a loop that has not terminated can take an update or awaits a goroutine; and every
    update it takes, and the end of its context, is processed without a panic. *)
Theorem lookup_safe {SS : SortSort} {SL : SortSortLaws SS} (dht : dhtConfig) (key : bytes) (stopFn : QueryPeerset -> bool) (seeds : list PeerID) (q : query) :
  1 <= alpha dht -> 0 <= beta dht ->
  rtc (qStep dht key) (startQuery dht seeds) q ->
  Z.of_nat (length (ch q) + length (running q)) <= alpha dht
  /\ NoDup (asked q) /\ self dht ∉ asked q
  /\ (terminated q = None -> ch q <> [] \/ running q <> [])
  /\ (forall up rest, terminated q = None -> ch q = up :: rest -> is_Some (loopUpdate dht stopFn q up rest))
  /\ (terminated q = None -> is_Some (loopCancelled dht stopFn q)).
Proof.
  intros Ha Hb [n H]%rtc_nsteps. destruct (runOk_run dht key n seeds q Ha Hb H) as [I _ _]. split_and!.
  - apply (qi_total _ _ I).
  - rewrite (qi_asked _ _ I). apply inStates_NoDup, (so_nodup _ _ (qi_set _ _ I)).
  - intros Hs. by eapply (so_self _ _ (qi_set _ _ I)), asked_ids.
  - apply (qi_alive _ _ I).
  - intros up rest Ht Hc. destruct (update_ok dht Hb stopFn q up rest I Ha Ht Hc) as (q' & -> & _). by eexists.
  - intros Ht. destruct (loopCancelled_ok dht Hb stopFn q I Ht) as (qp & -> & _). by eexists.
Qed.

(** C21: A lookup ends: after [n] steps of the loop and its goroutines at least [(n - 2) / 2] different peers have been heard
    of, so in a network of finitely many peers it stops, and where it cannot go on it has terminated with a reason and
    every goroutine has delivered its update, so that the wait for them returns. *)
Theorem lookup_terminates {SS : SortSort} {SL : SortSortLaws SS} (dht : dhtConfig) (key : bytes) (seeds : list PeerID) (n : nat) (q : query) :
  1 <= alpha dht -> 0 <= beta dht ->
  nsteps (qStep dht key) n (startQuery dht seeds) q ->
  NoDup (ids (all (queryPeers q))) /\ (n <= 2 + 2 * length (ids (all (queryPeers q))))%nat
  /\ ((forall q', ~ qStep dht key q q') -> is_Some (terminated q) /\ running q = []).
Proof.
  intros Ha Hb H. destruct (runOk_run dht key n seeds q Ha Hb H) as [I _ N]. split_and!.
  - apply (so_nodup _ _ (qi_set _ _ I)).
  - pose proof (asked_known dht q I). unfold ids. rewrite length_fmap. unfold cancels in N. destruct (terminated q) as [[]|]; lia.
  - intros Hn. assert (Hp : ~ (terminated q = None \/ running q <> [])).
    { intros Hp. destruct (qStep_progress dht key q Ha Hb I Hp) as [q' Hq]. by apply (Hn q'). }
    split; [destruct (terminated q); [by eexists|]; exfalso; apply Hp; by left|].
    destruct (running q) eqn:E; [done|]. exfalso. apply Hp. by right.
Qed.

(** What a lookup returns: the [bucketSize] closest to the key of the peers it knows and has not found unreachable, in
    the order of distance; it is reported complete exactly when the [beta] closest of them have answered or nobody is left
    to ask, and a lookup that ended for one of these two reasons is reported complete. *)
Theorem lookup_result {SS : SortSort} {SL : SortSortLaws SS} (dht : dhtConfig) (key : bytes) (seeds : list PeerID) (q : query)
  (sortClosestPeers : list PeerID -> list PeerID) :
  1 <= alpha dht -> 0 <= beta dht -> 0 <= bucketSize dht ->
  (forall l, sortClosestPeers l ≡ₚ l) -> (forall l, StronglySorted Z.le (distance dht <$> sortClosestPeers l)) ->
  rtc (qStep dht key) (startQuery dht seeds) q ->
  let known := inStates [PeerHeard; PeerWaiting; PeerQueried] (all (queryPeers q)) in
  exists res, constructLookupResult dht sortClosestPeers q = Some res
    /\ StronglySorted Z.le (distance dht <$> peers res) /\ NoDup (peers res) /\ peers res ⊆ known
    /\ length (peers res) = Nat.min (Z.to_nat (bucketSize dht)) (length known)
    /\ (forall p p', p ∈ peers res -> p' ∈ known -> p' ∉ peers res -> distance dht p <= distance dht p')
    /\ (completed res = true <->
         Forall (fun p => GetState (sort (queryPeers q)) p = Some PeerQueried) (closestOf (beta dht) [PeerHeard; PeerWaiting; PeerQueried] (queryPeers q))
         \/ (having PeerHeard (all (queryPeers q)) = [] /\ having PeerWaiting (all (queryPeers q)) = []))
    /\ (terminated q = Some LookupCompleted \/ terminated q = Some LookupStarvation -> completed res = true).
Proof.
  intros Ha Hb Hk Hp Hs [n H]%rtc_nsteps known. destruct (runOk_run dht key n seeds q Ha Hb H) as [I O _].
  pose proof (qi_set _ _ I) as S. destruct (constructLookupResult_eq dht sortClosestPeers q S Hb Hk Hp) as (b & -> & Hbb).
  eexists. split; [done|]. cbn [peers completed]. assert (HP := Hp (closestOf (bucketSize dht) [PeerHeard; PeerWaiting; PeerQueried] (queryPeers q))).
  assert (HK : inStates [PeerHeard; PeerWaiting; PeerQueried] (all (sort (queryPeers q))) ≡ₚ known) by apply inStates_perm, sort_perm.
  split_and!; [by apply Hs| | | | |done|].
  - rewrite HP. eapply sublist_NoDup; [|apply sublist_take]. rewrite HK. apply inStates_NoDup, (so_nodup _ _ S).
  - intros p. rewrite HP, <-HK. by apply subseteq_take.
  - rewrite (Permutation_length HP). unfold closestOf. by rewrite length_take, (Permutation_length HK).
  - intros p p'. rewrite HP. intros H1 H2 H3. by eapply closestOf_closest.
  - intros Ht. apply Hbb. unfold outcome in O. destruct Ht as [Ht|Ht]; rewrite Ht in O; [by left|by right].
Qed.

(** ** A lookup that asks three peers *)
Module KadExample.
#[export] Instance sortSortInst : SortSort := fun less l =>
  @merge_sort _ (fun x y => less y x = false) (fun x y => decide (less y x = false)) l.
#[export] Instance sortSortLaws : SortSortLaws sortSortInst.
Proof.
  split; [intros; apply merge_sort_Permutation|]. intros f l.
  assert (H : StronglySorted (fun x y => (f y <? f x) = false) (sortSortInst (fun x y => f x <? f y) l)).
  { apply StronglySorted_merge_sort.
    - intros x y z Hxy Hyz. apply Z.ltb_ge in Hxy, Hyz. apply Z.ltb_ge. lia.
    - intros x y. rewrite !Z.ltb_ge. lia. }
  unfold sortSort. induction H as [|x l' _ IH Hx]; [constructor|]. rewrite fmap_cons. constructor; [done|].
  apply Forall_fmap. eapply Forall_impl; [exact Hx|]. intros y Hy. by apply Z.ltb_ge in Hy.
Qed.

Inductive event := EvUpdate | EvCancel | EvFinish (p : PeerID) (answer : option (list PeerID)) (d : Z).
Definition doEvent (dht : dhtConfig) (stopFn : QueryPeerset -> bool) (key : bytes) (q : query) (ev : event) : option query :=
  match ev with
  | EvUpdate => match terminated q, ch q with None, up :: rest => loopUpdate dht stopFn q up rest | _, _ => None end
  | EvCancel => match terminated q with None => loopCancelled dht stopFn q | _ => None end
  | EvFinish p answer d =>
      match running q with
      | p' :: r => if bool_decide (p' = p /\ Z.of_nat (length (ch q)) < alpha dht)
          then Some (mkQuery (queryPeers q) (peerTimes q) (terminated q) r (ch q ++ [queryPeer dht key p answer d]) (asked q))
          else None
      | [] => None
      end
  end.
Lemma doEvent_step dht stopFn key q ev q' : doEvent dht stopFn key q ev = Some q' -> qStep dht key q q'.
Proof.
  destruct ev as [| |p answer d]; simpl.
  - destruct (terminated q) eqn:Ht, (ch q) eqn:Hc; try done. by eapply step_update.
  - destruct (terminated q) eqn:Ht; try done. by eapply step_cancel.
  - destruct (running q) as [|p' r] eqn:Hr; [done|]. case_bool_decide as H; [|done]. destruct H as [-> H]. intros [= <-].
    by apply (step_finish _ _ _ [] p r answer d).
Qed.
Lemma doEvents_steps dht stopFn key evs : forall q q', foldlM (doEvent dht stopFn key) q evs = Some q' ->
  nsteps (qStep dht key) (length evs) q q'.
Proof.
  induction evs as [|ev evs IH]; intros q q'; cbn [foldlM length]; [intros [= ->]; constructor|].
  destruct (doEvent dht stopFn key q ev) as [q1|] eqn:E; [|done]. intros H. eapply nsteps_l; [by eapply doEvent_step|by apply IH].
Qed.

Definition peer (n : Byte.byte) : PeerID := [n].
Definition dht : dhtConfig := mkDht (peer Byte.x09) 2 1 2 (fun _ => true)
  (fun p => match p with b :: _ => Z.of_N (Byte.to_N b) | [] => 0 end).
Definition seeds : list PeerID := [peer Byte.x03].
Definition evs : list event :=
  [EvUpdate; EvFinish (peer Byte.x03) (Some [peer Byte.x01; peer Byte.x09; peer Byte.x02]) 5; EvUpdate;
   EvFinish (peer Byte.x01) (Some []) 7; EvUpdate; EvFinish (peer Byte.x02) None 0].
Definition stopFn (qp : QueryPeerset) : bool := false.
Definition final : option query := foldlM (doEvent dht stopFn []) (startQuery dht seeds) evs.
Definition sortPeers (l : list PeerID) : list PeerID := @merge_sort _ (fun x y => distance dht x <= distance dht y) (fun x y => Z_le_dec _ _) l.
Lemma final_run : exists q, final = Some q /\ nsteps (qStep dht []) (length evs) (startQuery dht seeds) q
  /\ terminated q = Some LookupCompleted /\ asked q = [peer Byte.x03; peer Byte.x01; peer Byte.x02].
Proof. destruct final as [q|] eqn:E; vm_compute in E; [|done]. exists q. split_and!; [done|by apply (doEvents_steps dht stopFn)| |]; injection E as <-; done. Qed.
Lemma sortPeers_perm l : sortPeers l ≡ₚ l.
Proof. apply merge_sort_Permutation. Qed.
Lemma sortPeers_sorted l : StronglySorted Z.le (distance dht <$> sortPeers l).
Proof.
  assert (H : StronglySorted (fun x y => distance dht x <= distance dht y) (sortPeers l)).
  { apply StronglySorted_merge_sort; [intros x y z; lia|intros x y; lia]. }
  induction H as [|x l' _ IH Hx]; [constructor|]. rewrite fmap_cons. constructor; [done|]. by apply Forall_fmap.
Qed.
End KadExample.
Import KadExample.

(** Three peers are asked, each once. *)
Lemma lookup_safe_witness : exists q, asked q = [peer Byte.x03; peer Byte.x01; peer Byte.x02] /\ NoDup (asked q).
Proof.
  destruct final_run as (q & _ & H & _ & Ha). exists q. split; [done|].
  refine (proj1 (proj2 (lookup_safe dht [] stopFn seeds q _ _ _))); [done|done|by eapply rtc_nsteps_2].
Defined.
Lemma lookup_terminates_witness : exists q, nsteps (qStep dht []) 6 (startQuery dht seeds) q
  /\ (6 <= 2 + 2 * length (ids (all (queryPeers q))))%nat.
Proof.
  destruct final_run as (q & _ & H & _). exists q. split; [done|].
  refine (proj1 (proj2 (lookup_terminates dht [] seeds 6 q _ _ _))); done.
Defined.
(** The two closest peers known are the result, whether they have answered or not. *)
Lemma lookup_result_witness : exists q res, terminated q = Some LookupCompleted
  /\ constructLookupResult dht sortPeers q = Some res /\ completed res = true /\ length (peers res) = 2%nat.
Proof.
  destruct final_run as (q & E & H & Ht & _). exists q.
  destruct (lookup_result dht [] seeds q sortPeers) as (res & Hr & _ & _ & _ & Hl & _ & _ & Hc);
    [done|done|done|apply sortPeers_perm|apply sortPeers_sorted|by eapply rtc_nsteps_2|].
  exists res. split_and!; [done|done|apply Hc; by left|]. rewrite Hl. vm_compute in E. injection E as <-. done.
Defined.
