(* ===== verification/Relay.v ===== *)
(** * The circuit relay service (p2p/protocol/circuitv2/relay)

    Reservations with their constraints, circuits with their resources, and the
    copying of relayed bytes.  A handler is cut where it takes or releases the
    lock or calls the resource manager: what other goroutines do in between is a
    step of its own.  The network, the resource manager and the connection
    manager answer through the arguments of the steps; the spans, the memory and
    the tags that the service holds there are part of the state. *)
From Stdlib Require Import ZArith Lia.
From stdpp Require Import base tactics list numbers option gmap sets fin_maps.
From S2P Require Import Prelude GoBytes Varint MaProtocol MaComponent MaCodec MaOps GoNet MaProtocols BlsRpc.
Local Open Scope Z_scope.

(** ** Addresses *)
(** [manet.ToIP] *)
Fixpoint ToIP (addr : Multiaddr) : outcome ma_error bytes :=
  match addr with
  | [] => Err EProtocolNotFound
  | c :: addr =>
      let code := Code (Component_Protocol (Some c)) in
      if code =? P_IP6ZONE then ToIP addr
      else if (code =? P_IP6) || (code =? P_IP4) then RawValue (Some c)
      else Err EProtocolNotFound
  end.
Definition isRelayAddr (a : Multiaddr) : bool := isOk (ValueForProtocol a P_CIRCUIT).

(** ** Resources *)
Record RelayLimit := mkRelayLimit { Limit_Duration : Z; Limit_Data : Z }.
Record Resources := mkRelayResources {
  Limit : option RelayLimit; ReservationTTL : Z; MaxReservations : Z; MaxCircuits : Z; BufferSize : Z;
  MaxReservationsPerIP : Z; MaxReservationsPerASN : Z }.
Definition DefaultLimit : RelayLimit := mkRelayLimit (120 * Second) (Z.shiftl 1 17).
Definition DefaultResources : Resources := mkRelayResources (Some DefaultLimit) (3600 * Second) 128 16 2048 8 32.

(** ** Constraints on reservations *)
Record peerWithExpiry := mkPWE { Expiry : Z; Peer : PeerID }.
Record constraints := mkConstraints {
  total : list peerWithExpiry;
  ips : gmap bytes (list peerWithExpiry);
  asns : gmap Z (list peerWithExpiry) }.
Definition newConstraints : constraints := mkConstraints [] ∅ ∅.

Inductive reserveError := errTooManyReservations | errNoIP | errTooManyReservationsForIP | errTooManyReservationsForASN.

(** [slices.DeleteFunc] *)
Definition deleteFunc {A} (del : A -> bool) (l : list A) : list A := filter (fun x => del x = false) l.
(** The loop over a map of lists, which deletes the keys whose list becomes empty *)
Definition purge `{Countable K} {A} (del : A -> bool) (m : gmap K (list A)) : gmap K (list A) :=
  omap (fun l => match deleteFunc del l with [] => None | l' => Some l' end) m.
Definition purgeAll (del : peerWithExpiry -> bool) (c : constraints) : constraints :=
  mkConstraints (deleteFunc del (total c)) (purge del (ips c)) (purge del (asns c)).
Definition cleanup (c : constraints) (now : Z) : constraints := purgeAll (fun pe => Expiry pe <? now) c.
Definition cleanupPeer (c : constraints) (p : PeerID) : constraints := purgeAll (fun pe => bool_decide (Peer pe = p)) c.

Section relay.
(** [asnutil.AsnForIPv6] *)
Context (AsnForIPv6 : bytes -> Z).

(** The number of the autonomous system that counts, 0 for none *)
Definition asnOf (ip : bytes) : Z := match To4 ip with None => AsnForIPv6 ip | Some _ => 0 end.

(** The constraints are purged before they are checked, also when the result is an error. *)
Definition Reserve (rc : Resources) (c : constraints) (p : PeerID) (a : Multiaddr) (expiry now : Z) : constraints * option reserveError :=
  let c := cleanupPeer (cleanup c now) p in
  if MaxReservations rc <=? Z.of_nat (length (total c)) then (c, Some errTooManyReservations)
  else
    match ToIP a with
    | Ok ip =>
        let ipReservations := default [] (ips c !! IP_String ip) in
        if MaxReservationsPerIP rc <=? Z.of_nat (length ipReservations) then (c, Some errTooManyReservationsForIP)
        else
          let asn := asnOf ip in
          let asnReservations := default [] (asns c !! asn) in
          if negb (asn =? 0) && (MaxReservationsPerASN rc <=? Z.of_nat (length asnReservations))
          then (c, Some errTooManyReservationsForASN)
          else
            let pe := mkPWE expiry p in
            (mkConstraints (total c ++ [pe]) (<[IP_String ip := ipReservations ++ [pe]]> (ips c))
               (if asn =? 0 then asns c else <[asn := asnReservations ++ [pe]]> (asns c)), None)
    | _ => (c, Some errNoIP)
    end.

(** ** The service *)
Inductive Status := Status_UNUSED | Status_OK | Status_RESERVATION_REFUSED | Status_RESOURCE_LIMIT_EXCEEDED | Status_PERMISSION_DENIED
  | Status_CONNECTION_FAILED | Status_NO_RESERVATION | Status_MALFORMED_MESSAGE | Status_UNEXPECTED_MESSAGE.

Record ACLFilter := mkACL {
  AllowReserve : PeerID -> Multiaddr -> bool;
  AllowConnect : PeerID -> Multiaddr -> PeerID -> bool }.

(** A circuit that the handler has admitted: the goroutines that copy, 0 during the handshake *)
Record circuit := mkCircuit { c_src : PeerID; c_dest : PeerID; goroutines : Z }.

(** How far [Close] has come: [closed] is set, the reservations are collected,
    the scope of the service is done. *)
Inductive relayClosePhase := NotClosed | Marked | Collected | ScopeDone.
#[export] Instance relayClosePhase_eq_dec : EqDecision relayClosePhase.
Proof. solve_decision. Defined.

Record Relay := mkRelay {
  rc : Resources;
  acl : option ACLFilter;
  cstr : constraints;
  rsvp : gmap PeerID Z;
  conns : gmap PeerID Z;
  r_close : relayClosePhase;
  circuits : list circuit  (** with the closures [cleanup] and [done] of the handler *);
  begun : Z  (** handlers that hold a span with memory and have not yet got the lock *);
  ending : Z  (** handlers that are about to call [span.Done] *);
  spans : Z  (** open spans of the scope of the service *);
  memory : Z  (** of the scope of the service *);
  hopTags : gset PeerID  (** tagged [relay-v2-hop] *);
  rsvpTags : gset PeerID  (** tagged [relay-reservation] *) }.

Definition NewRelay (rc : Resources) (acl : option ACLFilter) : Relay := mkRelay rc acl newConstraints ∅ ∅ NotClosed [] 0 0 0 0 ∅ ∅.
Definition r_closed (r : Relay) : bool := negb (bool_decide (r_close r = NotClosed)).
Definition scopeDone (r : Relay) : bool := bool_decide (r_close r = ScopeDone).

Definition set_rsvp (r : Relay) (c : constraints) (m : gmap PeerID Z) (tags : gset PeerID) : Relay :=
  mkRelay (rc r) (acl r) c m (conns r) (r_close r) (circuits r) (begun r) (ending r) (spans r) (memory r) (hopTags r) tags.
Definition set_conns (r : Relay) (m : gmap PeerID Z) (tags : gset PeerID) : Relay :=
  mkRelay (rc r) (acl r) (cstr r) (rsvp r) m (r_close r) (circuits r) (begun r) (ending r) (spans r) (memory r) tags (rsvpTags r).
Definition set_circuits (r : Relay) (l : list circuit) : Relay :=
  mkRelay (rc r) (acl r) (cstr r) (rsvp r) (conns r) (r_close r) l (begun r) (ending r) (spans r) (memory r) (hopTags r) (rsvpTags r).
Definition set_handlers (r : Relay) (b e : Z) : Relay :=
  mkRelay (rc r) (acl r) (cstr r) (rsvp r) (conns r) (r_close r) (circuits r) b e (spans r) (memory r) (hopTags r) (rsvpTags r).
Definition set_spans (r : Relay) (n mem : Z) : Relay :=
  mkRelay (rc r) (acl r) (cstr r) (rsvp r) (conns r) (r_close r) (circuits r) (begun r) (ending r) n mem (hopTags r) (rsvpTags r).
Definition set_close (r : Relay) (ph : relayClosePhase) : Relay :=
  mkRelay (rc r) (acl r) (cstr r) (rsvp r) (conns r) ph (circuits r) (begun r) (ending r) (spans r) (memory r) (hopTags r) (rsvpTags r).

(** [sent] tells whether the response could be written to the stream. *)
Definition handleReserve (r : Relay) (p : PeerID) (a : Multiaddr) (now : Z) (sent : bool) : Relay * Status :=
  if isRelayAddr a then (r, Status_PERMISSION_DENIED)
  else if match acl r with Some f => negb (AllowReserve f p a) | None => false end then (r, Status_PERMISSION_DENIED)
  else if r_closed r then (r, Status_PERMISSION_DENIED)
  else
    let expire := now + ReservationTTL (rc r) in
    match Reserve (rc r) (cstr r) p a expire now with
    | (c, Some _) => (set_rsvp r c (rsvp r) (rsvpTags r), Status_RESERVATION_REFUSED)
    | (c, None) => (set_rsvp r c (<[p := expire]> (rsvp r)) ({[p]} ∪ rsvpTags r), if sent then Status_OK else Status_CONNECTION_FAILED)
    end.

Definition connsOf (r : Relay) (p : PeerID) : Z := default 0 (conns r !! p).
Definition addConn (r : Relay) (p : PeerID) : Relay :=
  let n := connsOf r p + 1 in
  set_conns r (<[p := n]> (conns r)) (if n =? 1 then {[p]} ∪ hopTags r else hopTags r).
Definition rmConn (r : Relay) (p : PeerID) : Relay :=
  let n := connsOf r p - 1 in
  if 0 <? n then set_conns r (<[p := n]> (conns r)) (hopTags r)
  else set_conns r (delete p (conns r)) (hopTags r ∖ {[p]}).

(** *** Connecting *)
Definition relayMemory (r : Relay) : Z := 2 * BufferSize (rc r).

(** The span of the request and its memory: whether [scope.BeginSpan] and
    [span.ReserveMemory] are granted.  A scope that is done begins no span. *)
Definition connectBegin (r : Relay) (span mem : bool) : Relay * option Status :=
  if scopeDone r || negb span then (r, Some Status_RESOURCE_LIMIT_EXCEEDED)
  else
    let r := set_spans r (spans r + 1) (memory r) in
    if negb mem then (set_spans r (spans r - 1) (memory r), Some Status_RESOURCE_LIMIT_EXCEEDED)
    else (set_handlers (set_spans r (spans r) (memory r + relayMemory r)) (begun r + 1) (ending r), None).

(** [span.Done]: what the span holds is given back to the scope of the service,
    unless that is done. *)
Definition spanDone (r : Relay) : Relay :=
  set_handlers (set_spans r (spans r - 1) (if scopeDone r then memory r else memory r - relayMemory r)) (begun r) (ending r - 1).

(** The checks and the admission; [dest] is what [PeerToPeerInfoV2] made of the
    message.  A handler that fails has to end its span. *)
Definition connectAdmit (r : Relay) (src : PeerID) (a : Multiaddr) (dest : option PeerID) : Relay * (Status + circuit) :=
  let r := set_handlers r (begun r - 1) (ending r) in
  let fail status := (set_handlers r (begun r) (ending r + 1), inl status) in
  if isRelayAddr a then fail Status_PERMISSION_DENIED
  else match dest with
  | None => fail Status_MALFORMED_MESSAGE
  | Some dest =>
      if match acl r with Some f => negb (AllowConnect f src a dest) | None => false end then fail Status_PERMISSION_DENIED
      else match rsvp r !! dest with
      | None => fail Status_NO_RESERVATION
      | Some _ =>
          if MaxCircuits (rc r) <=? connsOf r src then fail Status_RESOURCE_LIMIT_EXCEEDED
          else if MaxCircuits (rc r) <=? connsOf r dest then fail Status_RESOURCE_LIMIT_EXCEEDED
          else
            let r := addConn (addConn r src) dest in
            let c := mkCircuit src dest 0 in
            (set_circuits r (circuits r ++ [c]), inr c)
      end
  end.

(** [cleanup] of a circuit, up to the deferred end of its span *)
Definition cleanupCircuit (r : Relay) (c : circuit) : Relay :=
  let r := rmConn (rmConn r (c_src c)) (c_dest c) in
  set_handlers r (begun r) (ending r + 1).

(** The handshake with the destination: every call can fail. *)
Record handshakeEnv := mkHandshakeEnv {
  he_newStream : bool; he_setService : bool; he_reserveMemory : bool; he_writeStop : bool;
  he_readStop : option (bool * bool)  (** whether the type is STATUS and the status OK *);
  he_writeResponse : bool }.
Definition handshake (e : handshakeEnv) : Status :=
  if negb (he_newStream e) then Status_CONNECTION_FAILED
  else if negb (he_setService e) then Status_RESOURCE_LIMIT_EXCEEDED
  else if negb (he_reserveMemory e) then Status_RESOURCE_LIMIT_EXCEEDED
  else if negb (he_writeStop e) then Status_CONNECTION_FAILED
  else match he_readStop e with
       | Some (true, true) => if he_writeResponse e then Status_OK else Status_CONNECTION_FAILED
       | _ => Status_CONNECTION_FAILED
       end.
(** The rest of the handler for the circuit between [l1] and [l2] *)
Definition connectFinish (r : Relay) (l1 : list circuit) (c : circuit) (l2 : list circuit) (e : handshakeEnv) : Relay * Status :=
  match handshake e with
  | Status_OK => (set_circuits r (l1 ++ mkCircuit (c_src c) (c_dest c) 2 :: l2), Status_OK)
  | status => (cleanupCircuit (set_circuits r (l1 ++ l2)) c, status)
  end.
(** [done]: one of the two goroutines ends. *)
Definition circuitDone (r : Relay) (l1 : list circuit) (c : circuit) (l2 : list circuit) : Relay :=
  if goroutines c - 1 =? 0 then cleanupCircuit (set_circuits r (l1 ++ l2)) c
  else set_circuits r (l1 ++ mkCircuit (c_src c) (c_dest c) (goroutines c - 1) :: l2).

(** *** Maintenance *)
Definition gcRelay (r : Relay) (now : Z) : Relay :=
  let gone := filter (fun pe => r_closed r || (pe.2 <? now) = true) (rsvp r) in
  let r := set_rsvp r (cstr r) (filter (fun pe => r_closed r || (pe.2 <? now) = false) (rsvp r)) (rsvpTags r ∖ dom gone) in
  set_conns r (filter (fun pc => pc.2 <> 0) (conns r)) (hopTags r).
(** [Close]: the first call sets [closed] under the lock, *)
Definition CloseRelay (r : Relay) : Relay := if r_closed r then r else set_close r Marked.
(** goes on to collect all reservations under the lock, *)
Definition closeGc (r : Relay) (now : Z) : Relay :=
  if decide (r_close r = Marked) then set_close (gcRelay r now) Collected else r.
(** and at last ends the scope of the service, which gives back whatever the
    spans of open circuits still hold. *)
Definition endServiceScope (r : Relay) : Relay :=
  if decide (r_close r = Collected) then set_spans (set_close r ScopeDone) (spans r) 0 else r.
(** [connected]: there is another connection to the peer. *)
Definition disconnected (r : Relay) (p : PeerID) (connected : bool) : Relay :=
  if connected then r else set_rsvp r (cleanupPeer (cstr r) p) (delete p (rsvp r)) (rsvpTags r).

(** [makeLimitMsg]: the duration in seconds as a uint32, the data as a uint64 *)
Definition makeLimitMsg (r : Relay) : option (Z * Z) :=
  (fun l => (Z.quot (Limit_Duration l) Second mod 2 ^ 32, Limit_Data l mod 2 ^ 64)) <$> Limit (rc r).
End relay.

(** ** Copying *)
(** A stream to read: what arrives, piece by piece, and the error that comes with a
    piece.  The list is finite: it ends with the end of the stream. *)
Inductive readError := EOF | ReadFailed.
Abbreviation Reader := (list (bytes * option readError)).
(** [Read] with a buffer of [n] bytes: the rest of a piece stays. *)
Definition Read (rd : Reader) (n : nat) : Reader * bytes * option readError :=
  match rd with
  | [] => ([], [], Some EOF)
  | (c, e) :: rest => if (length c <=? n)%nat then (rest, c, e) else ((drop n c, e) :: rest, take n c, None)
  end.
(** [io.LimitedReader] *)
Record LimitedReader := mkLimited { lr_R : Reader; lr_N : Z }.
Definition LimitedRead (l : LimitedReader) (n : nat) : LimitedReader * bytes * option readError :=
  if lr_N l <=? 0 then (l, [], Some EOF)
  else
    let n := if lr_N l <? Z.of_nat n then Z.to_nat (lr_N l) else n in
    let '(rd, b, e) := Read (lr_R l) n in
    (mkLimited rd (lr_N l - Z.of_nat (length b)), b, e).

Inductive copyError := ErrWrite | ErrInvalidWrite | ErrShortWrite | ErrRead.

Section copy.
Context {R : Type} (read : R -> nat -> R * bytes * option readError).
(** The answer of the [k]-th [Write] to some bytes: the count and whether there is an error *)
Context (write : nat -> bytes -> Z * bool).
Context (bufSize : nat).

(** [None]: out of fuel.  The last component is not in the code: the bytes that
    the destination says it has taken. *)
Fixpoint copyWithBuffer (fuel : nat) (k : nat) (src : R) (written : Z) (sent : bytes) : option (R * Z * option copyError * bytes) :=
  match fuel with
  | O => None
  | S fuel =>
      let '(src, b, er) := read src bufSize in
      let finish written sent :=
        match er with
        | None => copyWithBuffer fuel (S k) src written sent
        | Some EOF => Some (src, written, None, sent)
        | Some ReadFailed => Some (src, written, Some ErrRead, sent)
        end in
      let nr := Z.of_nat (length b) in
      if 0 <? nr then
        let '(nw, ew) := write k b in
        let '(nw, ew) := if (nw <? 0) || (nr <? nw) then (0, Some (if ew then ErrWrite else ErrInvalidWrite)) else (nw, if ew then Some ErrWrite else None) in
        let written := Int64.add64 written nw in
        let sent := sent ++ take (Z.to_nat nw) b in
        match ew with
        | Some e => Some (src, written, Some e, sent)
        | None => if nr =? nw then finish written sent else Some (src, written, Some ErrShortWrite, sent)
        end
      else finish written sent
  end.
End copy.

(** What a goroutine does to its two streams at the end *)
Record relayEnd := mkRelayEnd { re_count : Z; re_sent : bytes; re_reset : bool; re_closeWrite : bool; re_closeRead : bool }.
(** The pieces and the bytes that can be read: every [Read] takes one. *)
Definition readFuel (rd : Reader) : nat := S (sum_list_with (fun ce => S (length ce.1)) rd).
Definition relayLimited (bufSize : nat) (write : nat -> bytes -> Z * bool) (src : Reader) (limit : Z) : option relayEnd :=
  '(_, count, err, sent) ← copyWithBuffer LimitedRead write bufSize (readFuel src) 0 (mkLimited src limit) 0 [];
  Some (match err with
        | Some _ => mkRelayEnd count sent true false false
        | None => mkRelayEnd count sent false true (count =? limit)
        end).
Definition relayUnlimited (bufSize : nat) (write : nat -> bytes -> Z * bool) (src : Reader) : option relayEnd :=
  '(_, count, err, sent) ← copyWithBuffer Read write bufSize (readFuel src) 0 src 0 [];
  Some (match err with
        | Some _ => mkRelayEnd count sent true false false
        | None => mkRelayEnd count sent false true false
        end).
