(* ===== verification/RelayInv.v ===== *)
(** * What the relay service keeps

    The constraints implement one table of reservations; circuits hold exactly
    the resources that are counted for them; copying delivers a prefix. *)
From Stdlib Require Import ZArith Lia.
From stdpp Require Import base tactics list numbers option gmap sets fin_maps relations.
From S2P Require Import Prelude GoBytes Varint MaProtocol MaComponent MaCodec MaOps GoNet MaProtocols BlsRpc Relay.
Local Open Scope Z_scope.

(** ** The table of reservations *)
Record entry := mkEntry { en_expiry : Z; en_ip : bytes; en_asn : Z }.
Abbreviation book := (gmap PeerID entry).
Definition pwe (px : PeerID * entry) : peerWithExpiry := mkPWE (en_expiry px.2) px.1.
(** The reservations of the table that satisfy [f], as the code stores them *)
Definition rows (f : entry -> bool) (b : book) : list peerWithExpiry := pwe <$> filter (fun px => f px.2 = true) (map_to_list b).
Definition everything (_ : entry) : bool := true.
Definition atIP (k : bytes) (x : entry) : bool := bool_decide (en_ip x = k).
Definition atASN (n : Z) (x : entry) : bool := en_asn x =? n.

(** A map of lists holds the parts of the table. *)
Definition indexes `{Countable K} (m : gmap K (list peerWithExpiry)) (part : K -> entry -> bool) (b : book) : Prop :=
  forall k, default [] (m !! k) ≡ₚ rows (part k) b /\ m !! k <> Some [].
Definition asnPart (n : Z) (x : entry) : bool := negb (n =? 0) && atASN n x.
Record represents (b : book) (c : constraints) : Prop := {
  rep_total : total c ≡ₚ rows everything b;
  rep_ips : indexes (ips c) atIP b;
  rep_asns : indexes (asns c) asnPart b }.

(** The table's own version of the operations *)
Definition bookPurge (del : peerWithExpiry -> bool) (b : book) : book := filter (fun px => del (pwe px) = false) b.
Section spec.
Context (AsnForIPv6 : bytes -> Z).
Definition bookReserve (rc : Resources) (b : book) (p : PeerID) (a : Multiaddr) (expiry now : Z) : book * option reserveError :=
  let b := delete p (filter (fun px => now <= en_expiry px.2) b) in
  if MaxReservations rc <=? Z.of_nat (size b) then (b, Some errTooManyReservations)
  else
    match ToIP a with
    | Ok ip =>
        let asn := asnOf AsnForIPv6 ip in
        if MaxReservationsPerIP rc <=? Z.of_nat (size (filter (fun px => en_ip px.2 = IP_String ip) b)) then (b, Some errTooManyReservationsForIP)
        else if negb (asn =? 0) && (MaxReservationsPerASN rc <=? Z.of_nat (size (filter (fun px => en_asn px.2 = asn) b)))
        then (b, Some errTooManyReservationsForASN)
        else (<[p := mkEntry expiry (IP_String ip) asn]> b, None)
    | _ => (b, Some errNoIP)
    end.
End spec.

Lemma filter_fmap_gen {A B} (g : A -> B) (P : B -> Prop) `{!forall x, Decision (P x)} (l : list A) :
  filter P (g <$> l) = g <$> filter (fun x => P (g x)) l.
Proof. induction l as [|x l IH]; [done|]. rewrite fmap_cons, !filter_cons. case_decide; simpl; by rewrite IH. Qed.
Lemma filter_comm {A} (P Q : A -> Prop) `{!forall x, Decision (P x)} `{!forall x, Decision (Q x)} (l : list A) :
  filter P (filter Q l) = filter Q (filter P l).
Proof.
  induction l as [|x l IH]; [done|]. rewrite !filter_cons. repeat case_decide; rewrite ?filter_cons; repeat case_decide; try done; by rewrite IH.
Qed.

Lemma map_to_list_filtered `{Countable K} {A} (P : K * A -> Prop) `{!forall x, Decision (P x)} (m : gmap K A) :
  map_to_list (filter P m) ≡ₚ filter P (map_to_list m).
Proof.
  rewrite map_filter_alt. apply map_to_list_to_map. eapply sublist_NoDup; [apply (NoDup_fst_map_to_list m)|].
  apply fmap_sublist, sublist_filter.
Qed.

Lemma rows_purge del f b : deleteFunc del (rows f b) ≡ₚ rows f (bookPurge del b).
Proof.
  unfold deleteFunc, rows, bookPurge. rewrite filter_fmap_gen. apply fmap_Permutation. rewrite filter_comm.
  by rewrite map_to_list_filtered.
Qed.
Lemma indexes_purge `{Countable K} (m : gmap K (list peerWithExpiry)) part b del : indexes m part b -> indexes (purge del m) part (bookPurge del b).
Proof.
  intros H0 k. destruct (H0 k) as [H1 H2]. unfold purge. rewrite lookup_omap. rewrite <-rows_purge.
  destruct (m !! k) as [l|]; simpl in *.
  - assert (E : deleteFunc del l ≡ₚ deleteFunc del (rows (part k) b)) by (unfold deleteFunc; by rewrite H1).
    destruct (deleteFunc del l); simpl; split; congruence || done.
  - split; [|done]. unfold deleteFunc. by rewrite <-H1.
Qed.
Lemma represents_purge del b c : represents b c -> represents (bookPurge del b) (purgeAll del c).
Proof.
  intros [R1 R2 R3]. split; simpl; [|by apply indexes_purge|by apply indexes_purge].
  rewrite <-rows_purge. unfold deleteFunc. by rewrite R1.
Qed.
Lemma bookPurge_expired now b : bookPurge (fun pe => Expiry pe <? now) b = filter (fun px => now <= en_expiry px.2) b.
Proof. unfold bookPurge. apply map_filter_ext. intros p x _. simpl. rewrite Z.ltb_ge. done. Qed.
Lemma bookPurge_peer p b : bookPurge (fun pe => bool_decide (Peer pe = p)) b = delete p b.
Proof.
  apply map_eq. intros q. unfold bookPurge. destruct (decide (q = p)) as [->|Hq].
  - rewrite lookup_delete_eq, map_lookup_filter_None. right. intros x _. simpl. by rewrite bool_decide_true.
  - rewrite lookup_delete_ne by done. apply option_eq. intros x. rewrite map_lookup_filter_Some. simpl. rewrite bool_decide_false by congruence. naive_solver.
Qed.

Lemma rows_insert f b p x : b !! p = None -> rows f (<[p := x]> b) ≡ₚ (if f x then rows f b ++ [mkPWE (en_expiry x) p] else rows f b).
Proof.
  intros Hp. unfold rows. rewrite map_to_list_insert, filter_cons by done. simpl. destruct (f x).
  - rewrite decide_True by done. rewrite fmap_cons. unfold pwe at 1. simpl. apply Permutation_cons_append.
  - by rewrite decide_False.
Qed.
Lemma indexes_insert `{Countable K} (m : gmap K (list peerWithExpiry)) part b p x k : indexes m part b -> b !! p = None ->
  part k x = true -> (forall k', k' <> k -> part k' x = false) ->
  indexes (<[k := default [] (m !! k) ++ [mkPWE (en_expiry x) p]]> m) part (<[p := x]> b).
Proof.
  intros I Hp Hk Hne k'. destruct (I k') as [I1 I2]. rewrite rows_insert by done. destruct (decide (k' = k)) as [->|Hk'].
  - rewrite lookup_insert_eq, Hk. simpl. split; [by rewrite I1|]. by destruct (default [] (m !! k)).
  - rewrite lookup_insert_ne by done. by rewrite Hne.
Qed.
Lemma indexes_skip `{Countable K} (m : gmap K (list peerWithExpiry)) part b p x : indexes m part b -> b !! p = None ->
  (forall k, part k x = false) -> indexes m part (<[p := x]> b).
Proof. intros I Hp Hk k. destruct (I k) as [I1 I2]. rewrite rows_insert, Hk by done. done. Qed.
Lemma rows_size f b (P : PeerID * entry -> Prop) `{!forall x, Decision (P x)} : (forall p x, f x = true <-> P (p, x)) ->
  length (rows f b) = size (filter P b).
Proof.
  intros Hf. unfold rows. rewrite length_fmap, <-length_map_to_list, map_to_list_filtered.
  f_equal. apply list_filter_iff. intros [p x]. apply Hf.
Qed.

(** ** The constraints implement the table *)
Section refine.
Context (AsnForIPv6 : bytes -> Z).

Lemma reserve_refines rc b c p a expiry now : represents b c ->
  represents (bookReserve AsnForIPv6 rc b p a expiry now).1 (Reserve AsnForIPv6 rc c p a expiry now).1
  /\ (Reserve AsnForIPv6 rc c p a expiry now).2 = (bookReserve AsnForIPv6 rc b p a expiry now).2.
Proof.
  intros R. assert (R' : represents (delete p (filter (fun px => now <= en_expiry px.2) b)) (cleanupPeer (cleanup c now) p)).
  { rewrite <-bookPurge_peer, <-bookPurge_expired. by do 2 apply represents_purge. }
  unfold Reserve, bookReserve. set (b' := delete p _) in *. set (c' := cleanupPeer _ _) in *.
  assert (Hp : b' !! p = None) by apply lookup_delete_eq. clearbody b' c'. destruct R' as [R1 R2 R3].
  assert (L1 : length (total c') = size b').
  { rewrite (Permutation_length R1). rewrite (rows_size everything b' (fun _ => True)) by done. f_equal. apply map_filter_id. done. }
  rewrite L1. destruct (MaxReservations rc <=? Z.of_nat (size b')); [by split; [split|]|].
  destruct (ToIP a) as [ip| | |]; [|by split; [split|]..].
  destruct (R2 (IP_String ip)) as [I1 _].
  rewrite (Permutation_length I1), (rows_size _ b' (fun px => en_ip px.2 = IP_String ip)) by (intros q x; apply bool_decide_eq_true).
  destruct (MaxReservationsPerIP rc <=? _); [by split; [split|]|].
  set (asn := asnOf AsnForIPv6 ip). destruct (Z.eqb_spec asn 0) as [Ha|Ha]; cbn [negb andb].
  - split; [|done]. simpl. split; simpl.
    + rewrite rows_insert by done. simpl. by rewrite R1.
    + apply (indexes_insert (ips c') atIP b' p (mkEntry expiry (IP_String ip) asn)); [done|done| |]; intros; unfold atIP; simpl; [by apply bool_decide_eq_true|by apply bool_decide_eq_false].
    + apply indexes_skip; [done|done|]. intros n. unfold asnPart, atASN. simpl. rewrite Ha. by destruct (Z.eqb_spec n 0), (Z.eqb_spec 0 n).
  - destruct (R3 asn) as [A1 _]. rewrite (Permutation_length A1), (rows_size _ b' (fun px => en_asn px.2 = asn)).
    2:{ intros q x. unfold asnPart, atASN. simpl. destruct (Z.eqb_spec asn 0); [done|]. simpl. by rewrite Z.eqb_eq. }
    destruct (MaxReservationsPerASN rc <=? _); [by split; [split|]|]. split; [|done]. simpl. split; simpl.
    + rewrite rows_insert by done. simpl. by rewrite R1.
    + apply (indexes_insert (ips c') atIP b' p (mkEntry expiry (IP_String ip) asn)); [done|done| |]; intros; unfold atIP; simpl; [by apply bool_decide_eq_true|by apply bool_decide_eq_false].
    + apply (indexes_insert (asns c') asnPart b' p (mkEntry expiry (IP_String ip) asn)); [done|done| |]; unfold asnPart, atASN; simpl.
      * rewrite Z.eqb_refl. by destruct (Z.eqb_spec asn 0).
      * intros n Hn. destruct (Z.eqb_spec asn n); [congruence|]. by rewrite andb_false_r.
Qed.
End refine.

(** ** The limits of the constraints *)
Record withinLimits (rc : Resources) (c : constraints) : Prop := {
  wl_total : Z.of_nat (length (total c)) <= Z.max 0 (MaxReservations rc);
  wl_ips k l : ips c !! k = Some l -> Z.of_nat (length l) <= Z.max 0 (MaxReservationsPerIP rc);
  wl_asns n l : asns c !! n = Some l -> Z.of_nat (length l) <= Z.max 0 (MaxReservationsPerASN rc) }.

Lemma purge_lookup `{Countable K} {A} (del : A -> bool) (m : gmap K (list A)) k l : purge del m !! k = Some l ->
  exists l0, m !! k = Some l0 /\ (length l <= length l0)%nat.
Proof.
  unfold purge. rewrite lookup_omap. destruct (m !! k) as [l0|]; [|done]. simpl. intros E. exists l0. split; [done|].
  assert (length (deleteFunc del l0) <= length l0)%nat by apply length_filter. destruct (deleteFunc del l0); naive_solver.
Qed.
Lemma within_purge rc del c : withinLimits rc c -> withinLimits rc (purgeAll del c).
Proof.
  intros [W1 W2 W3]. split; simpl.
  - assert (length (deleteFunc del (total c)) <= length (total c))%nat by apply length_filter. lia.
  - intros k l (l0 & H0%W2 & Hl)%purge_lookup. lia.
  - intros n l (l0 & H0%W3 & Hl)%purge_lookup. lia.
Qed.
Lemma within_insert `{Countable K} (m : gmap K (list peerWithExpiry)) k pe mx :
  (forall k l, m !! k = Some l -> Z.of_nat (length l) <= Z.max 0 mx) -> Z.of_nat (length (default [] (m !! k))) < mx ->
  forall k' l, <[k := default [] (m !! k) ++ [pe]]> m !! k' = Some l -> Z.of_nat (length l) <= Z.max 0 mx.
Proof.
  intros Hm Hl k' l. destruct (decide (k' = k)) as [->|Hk]; [rewrite lookup_insert_eq|rewrite lookup_insert_ne by done; apply Hm].
  intros [= <-]. rewrite length_app. simpl. lia.
Qed.
Lemma within_Reserve AsnForIPv6 rc c p a expiry now : withinLimits rc c -> withinLimits rc (Reserve AsnForIPv6 rc c p a expiry now).1.
Proof.
  intros W. assert (W' : withinLimits rc (cleanupPeer (cleanup c now) p)) by (by do 2 apply within_purge).
  unfold Reserve. set (c' := cleanupPeer _ _) in *. clearbody c'. clear W.
  destruct (Z.leb_spec (MaxReservations rc) (Z.of_nat (length (total c')))); [done|]. destruct (ToIP a) as [ip| | |]; try done.
  destruct (Z.leb_spec (MaxReservationsPerIP rc) (Z.of_nat (length (default [] (ips c' !! IP_String ip))))); [done|].
  destruct W' as [W1 W2 W3]. destruct (Z.eqb_spec (asnOf AsnForIPv6 ip) 0) as [E|E]; simpl.
  - split; simpl; [rewrite length_app; simpl; lia|by apply within_insert|done].
  - destruct (Z.leb_spec (MaxReservationsPerASN rc) (Z.of_nat (length (default [] (asns c' !! asnOf AsnForIPv6 ip))))); [done|].
    split; simpl; [rewrite length_app; simpl; lia|by apply within_insert|by apply within_insert].
Qed.

(** ** Circuits and what is counted for them *)
Definition b2n (b : bool) : Z := if b then 1 else 0.
Definition endsAt (p : PeerID) (c : circuit) : Z := b2n (bool_decide (c_src c = p)) + b2n (bool_decide (c_dest c = p)).
Definition ends (l : list circuit) (p : PeerID) : Z := sumZ (endsAt p) l.
Definition selfAt (p : PeerID) (c : circuit) : Prop := c_src c = p /\ c_dest c = p.
Definition countsOf (n : Z) : option Z := if n =? 0 then None else Some n.

Record circuitsOk (r : Relay) : Prop := {
  co_conns p : conns r !! p = countsOf (ends (circuits r) p);
  co_tags : hopTags r = dom (conns r);
  co_handlers : 0 <= begun r /\ 0 <= ending r;
  co_spans : spans r = Z.of_nat (length (circuits r)) + begun r + ending r;
  co_memory : memory r = if scopeDone r then 0 else relayMemory r * spans r;
  co_running : Forall (fun c => 0 <= goroutines c <= 2) (circuits r) }.

Lemma ends_app l1 l2 p : ends (l1 ++ l2) p = ends l1 p + ends l2 p.
Proof. apply sumZ_app. Qed.
Lemma ends_one c p : ends [c] p = endsAt p c.
Proof. unfold ends. simpl. lia. Qed.
Lemma ends_cons c l p : ends (c :: l) p = endsAt p c + ends l p.
Proof. done. Qed.
Lemma endsAt_bounds p c : 0 <= endsAt p c <= 2.
Proof. unfold endsAt, b2n. repeat case_bool_decide; lia. Qed.
Lemma ends_nonneg l p : 0 <= ends l p.
Proof. induction l as [|c l IH]; [done|]. unfold ends in *. simpl. pose proof (endsAt_bounds p c). lia. Qed.

(** The table of the connections as the counting sees it *)
Definition counted (f : PeerID -> Z) (m : gmap PeerID Z) : Prop := forall p, m !! p = countsOf (f p).
Lemma counted_get f m p : counted f m -> default 0 (m !! p) = f p.
Proof. intros C. rewrite C. unfold countsOf. by destruct (Z.eqb_spec (f p) 0). Qed.
Lemma addConn_counted f r p : counted f (conns r) -> (forall q, 0 <= f q) -> hopTags r = dom (conns r) ->
  counted (fun q => f q + b2n (bool_decide (p = q))) (conns (addConn r p)) /\ hopTags (addConn r p) = dom (conns (addConn r p)).
Proof.
  intros C Hf Ht. unfold addConn, connsOf. rewrite (counted_get f) by done. specialize (Hf p). simpl. split.
  - intros q. unfold b2n. case_bool_decide as Hq.
    + subst q. rewrite lookup_insert_eq. unfold countsOf. destruct (Z.eqb_spec (f p + 1) 0); [lia|done].
    + rewrite lookup_insert_ne by done. by rewrite C, Z.add_0_r.
  - rewrite dom_insert_L, Ht. destruct (Z.eqb_spec (f p + 1) 1); [done|].
    assert (p ∈ dom (conns r)); [|set_solver]. apply elem_of_dom. rewrite C. unfold countsOf. destruct (Z.eqb_spec (f p) 0); [lia|by eexists].
Qed.
Lemma rmConn_counted f r p : counted f (conns r) -> 1 <= f p -> hopTags r = dom (conns r) ->
  counted (fun q => f q - b2n (bool_decide (p = q))) (conns (rmConn r p)) /\ hopTags (rmConn r p) = dom (conns (rmConn r p)).
Proof.
  intros C Hf Ht. unfold rmConn, connsOf. rewrite (counted_get f) by done. destruct (Z.ltb_spec 0 (f p - 1)); simpl; split.
  - intros q. unfold b2n. case_bool_decide as Hq.
    + subst q. rewrite lookup_insert_eq. unfold countsOf. destruct (Z.eqb_spec (f p - 1) 0); [lia|done].
    + rewrite lookup_insert_ne by done. by rewrite C, Z.sub_0_r.
  - rewrite dom_insert_L, Ht. assert (p ∈ dom (conns r)); [|set_solver]. apply elem_of_dom. rewrite C. unfold countsOf. destruct (Z.eqb_spec (f p) 0); [lia|by eexists].
  - intros q. unfold b2n. case_bool_decide as Hq.
    + subst q. rewrite lookup_delete_eq. unfold countsOf. destruct (Z.eqb_spec (f p - 1) 0); [done|lia].
    + rewrite lookup_delete_ne by done. by rewrite C, Z.sub_0_r.
  - by rewrite dom_delete_L, Ht.
Qed.

(** A handler that begins and one that ends a span *)
Lemma connectBegin_ok r sp mem : circuitsOk r -> circuitsOk (connectBegin r sp mem).1.
Proof.
  intros C. unfold connectBegin. destruct (scopeDone r) eqn:Ed; [done|].
  destruct sp; cbn [orb negb]; [|done]. destruct C as [C1 C2 C3 C4 C5 C6]. rewrite Ed in C5. destruct mem; cbn [negb fst]; split; simpl; try done; try lia.
  - change (scopeDone _) with (scopeDone r). rewrite Ed. unfold relayMemory in *. simpl. lia.
  - change (scopeDone _) with (scopeDone r). rewrite Ed. unfold relayMemory in *. simpl. lia.
Qed.
Lemma spanDone_ok r : circuitsOk r -> 0 < ending r -> circuitsOk (spanDone r).
Proof.
  intros [C1 C2 C3 C4 C5 C6] He. split; simpl; try done; try lia.
  change (scopeDone (spanDone r)) with (scopeDone r). destruct (scopeDone r); [done|]. unfold relayMemory in *. simpl. lia.
Qed.

(** A refused connection only has its span to end; an admitted one is counted for both peers. *)
Definition refusedConn (r : Relay) : Relay := set_handlers r (begun r - 1) (ending r + 1).
Definition admitted (r : Relay) (c : circuit) : Relay :=
  let r1 := addConn (addConn r (c_src c)) (c_dest c) in
  set_handlers (set_circuits r1 (circuits r ++ [c])) (begun r - 1) (ending r).
Lemma connectAdmit_spec r src a d :
  (exists st, connectAdmit r src a d = (refusedConn r, inl st))
  \/ (exists dest, let c := mkCircuit src dest 0 in connectAdmit r src a d = (admitted r c, inr c)
       /\ isRelayAddr a = false /\ d = Some dest
       /\ is_Some (rsvp r !! dest) /\ connsOf r src < MaxCircuits (rc r) /\ connsOf r dest < MaxCircuits (rc r)).
Proof.
  unfold connectAdmit. cbn [set_handlers acl rsvp rc begun ending connsOf conns].
  destruct (isRelayAddr a); [left; by eexists|]. destruct d as [dest|]; [|left; by eexists].
  destruct (match acl r with Some f => _ | None => _ end); [left; by eexists|].
  destruct (rsvp r !! dest) eqn:Er; [|left; by eexists].
  match goal with |- context [MaxCircuits (rc r) <=? connsOf ?x src] => change (connsOf x src) with (connsOf r src);
    change (connsOf x dest) with (connsOf r dest) end.
  destruct (Z.leb_spec (MaxCircuits (rc r)) (connsOf r src)) as [|H1]; [left; by eexists|].
  destruct (Z.leb_spec (MaxCircuits (rc r)) (connsOf r dest)) as [|H2]; [left; by eexists|].
  right. exists dest. split_and!; try done.
Qed.
Lemma refusedConn_ok r : circuitsOk r -> 0 < begun r -> circuitsOk (refusedConn r).
Proof. intros [C1 C2 C3 C4 C5 C6] Hb. split; simpl; try done; lia. Qed.

Lemma admitted_ok r c : circuitsOk r -> 0 < begun r -> goroutines c = 0 -> circuitsOk (admitted r c).
Proof.
  intros [C1 C2 C3 C4 C5 C6] Hb Hg.
  destruct (addConn_counted (ends (circuits r)) r (c_src c) C1 (ends_nonneg _) C2) as [D1 D2].
  destruct (addConn_counted _ (addConn r (c_src c)) (c_dest c) D1) as [E1 E2]; [|done|].
  { intros q. pose proof (ends_nonneg (circuits r) q). unfold b2n. case_bool_decide; lia. }
  split; simpl; try done.
  - intros p. rewrite ends_app, ends_one, E1. f_equal. unfold endsAt. lia.
  - lia.
  - rewrite length_app. simpl. lia.
  - apply Forall_app. split; [done|]. constructor; [lia|constructor].
Qed.

Lemma cleanupCircuit_ok r l1 c l2 : circuitsOk r -> circuits r = l1 ++ c :: l2 -> circuitsOk (cleanupCircuit (set_circuits r (l1 ++ l2)) c).
Proof.
  intros [C1 C2 C3 C4 C5 C6] El. set (r0 := set_circuits r (l1 ++ l2)).
  assert (He : forall p, ends (circuits r) p = ends (l1 ++ l2) p + endsAt p c).
  { intros p. rewrite El, !ends_app, ends_cons. lia. }
  assert (H1 : 1 <= ends (circuits r) (c_src c)).
  { rewrite He. pose proof (ends_nonneg (l1 ++ l2) (c_src c)). unfold endsAt, b2n. rewrite bool_decide_true by done. case_bool_decide; lia. }
  destruct (rmConn_counted (ends (circuits r)) r0 (c_src c)) as [D1 D2]; [exact C1|exact H1|exact C2|].
  destruct (rmConn_counted _ (rmConn r0 (c_src c)) (c_dest c) D1) as [E1 E2]; [|done|].
  { rewrite He. pose proof (ends_nonneg (l1 ++ l2) (c_dest c)). unfold endsAt, b2n. rewrite (bool_decide_true (c_dest c = c_dest c)) by done.
    case_bool_decide; lia. }
  assert (Hk : circuits (cleanupCircuit r0 c) = l1 ++ l2 /\ conns (cleanupCircuit r0 c) = conns (rmConn (rmConn r0 (c_src c)) (c_dest c))
    /\ hopTags (cleanupCircuit r0 c) = hopTags (rmConn (rmConn r0 (c_src c)) (c_dest c))
    /\ begun (cleanupCircuit r0 c) = begun r /\ ending (cleanupCircuit r0 c) = ending r + 1
    /\ spans (cleanupCircuit r0 c) = spans r /\ memory (cleanupCircuit r0 c) = memory r
    /\ rc (cleanupCircuit r0 c) = rc r /\ scopeDone (cleanupCircuit r0 c) = scopeDone r).
  { unfold cleanupCircuit, rmConn, relayMemory, scopeDone. repeat case_match; done. }
  destruct Hk as (K1 & K2 & K3 & Kb & Ke & Ks & Km & Kr & Kd).
  assert (Hl : length (circuits r) = S (length (l1 ++ l2))) by (rewrite El, !length_app; simpl; lia).
  split.
  - intros p. rewrite K1, K2, E1, He. f_equal. unfold endsAt. lia.
  - by rewrite K2, K3.
  - rewrite Kb, Ke. lia.
  - rewrite K1, Kb, Ke, Ks, C4, Hl. lia.
  - unfold relayMemory in *. by rewrite Kr, Kd, Ks, Km.
  - rewrite K1. rewrite El in C6. apply Forall_app in C6 as [F1 F2]. inversion F2; subst. by apply Forall_app.
Qed.
Lemma set_goroutines_ok r l1 c l2 n : circuitsOk r -> circuits r = l1 ++ c :: l2 -> 0 <= n <= 2 ->
  circuitsOk (set_circuits r (l1 ++ mkCircuit (c_src c) (c_dest c) n :: l2)).
Proof.
  intros [C1 C2 C3 C4 C5 C6] El Hn. rewrite El in *. split; simpl; try done.
  - intros p. rewrite C1. f_equal. by rewrite !ends_app.
  - rewrite C4, !length_app. done.
  - apply Forall_app in C6 as [F1 F2]. inversion F2; subst. apply Forall_app. split; [done|by constructor].
Qed.

(** *** How many circuits a peer has *)
Definition circuitBound (mx : Z) (l : list circuit) : Prop := forall p,
  ends l p <= Z.max 0 mx \/ ((exists c, c ∈ l /\ selfAt p c) /\ ends l p <= mx + 1).

Lemma bound_admit mx l c : circuitBound mx l -> ends l (c_src c) < mx -> ends l (c_dest c) < mx -> circuitBound mx (l ++ [c]).
Proof.
  intros B H1 H2 p. rewrite ends_app, ends_one. unfold endsAt, b2n.
  case_bool_decide as Hs; case_bool_decide as Hd.
  - right. split; [exists c; split; [set_solver|done]|]. subst p. lia.
  - left. subst p. lia.
  - left. subst p. lia.
  - destruct (B p) as [|[(c' & Hc & Hs') B2]]; [left; lia|right; split; [exists c'; split; [set_solver|done]|lia]].
Qed.
Lemma bound_remove mx l1 c l2 : circuitBound mx (l1 ++ c :: l2) -> circuitBound mx (l1 ++ l2).
Proof.
  intros B p. assert (He : ends (l1 ++ c :: l2) p = ends (l1 ++ l2) p + endsAt p c).
  { rewrite !ends_app, ends_cons. lia. }
  pose proof (endsAt_bounds p c). destruct (B p) as [|[(c' & Hc & Hs) B2]]; [left; lia|].
  apply elem_of_app in Hc as [Hc|[->|Hc]%elem_of_cons]; [right; split; [exists c'; split; [set_solver|done]|lia]| |right; split; [exists c'; split; [set_solver|done]|lia]].
  left. unfold endsAt, b2n in He. destruct Hs as [Hs1 Hs2]. rewrite !bool_decide_true in He by done. lia.
Qed.
Lemma bound_change mx l1 c n l2 : circuitBound mx (l1 ++ c :: l2) -> circuitBound mx (l1 ++ mkCircuit (c_src c) (c_dest c) n :: l2).
Proof.
  intros B p. assert (He : ends (l1 ++ mkCircuit (c_src c) (c_dest c) n :: l2) p = ends (l1 ++ c :: l2) p) by (by rewrite !ends_app).
  rewrite He. destruct (B p) as [|[(c' & Hc & Hs) B2]]; [by left|]. right. split; [|done].
  apply elem_of_app in Hc as [Hc|[->|Hc]%elem_of_cons]; [exists c'; split; [set_solver|done]|eexists; split; [apply elem_of_app; right; by left|done]|exists c'; split; [set_solver|done]].
Qed.
