(* ===== verification/RelayRun.v ===== *)
(** * The relay service: runs

    The handlers, cut at the points where they let go of the lock, the goroutines
    that copy, the garbage collection and the notifications, in any order. *)
From Stdlib Require Import ZArith Lia.
From stdpp Require Import base tactics list numbers option gmap sets fin_maps relations.
From S2P Require Import Prelude GoBytes Varint MaProtocol MaComponent MaCodec MaOps GoNet MaProtocols BlsRpc Relay RelayInv.
Local Open Scope Z_scope.

Section run.
Context (AsnForIPv6 : bytes -> Z).

(** A peer that has a reservation asks for another one and is refused. *)
Definition refusedRefresh (r : Relay) (p : PeerID) (a : Multiaddr) (now : Z) (sent : bool) : Prop :=
  is_Some (rsvp r !! p) /\ (handleReserve AsnForIPv6 r p a now sent).2 = Status_RESERVATION_REFUSED.

(** The time and the service; with [strict] no refresh is refused. *)
Inductive rStep (strict : bool) : Z * Relay -> Z * Relay -> Prop :=
  | rs_reserve t r p a now sent : t <= now -> (strict = true -> ~ refusedRefresh r p a now sent) ->
      rStep strict (t, r) (now, (handleReserve AsnForIPv6 r p a now sent).1)
  | rs_begin t r sp mem : rStep strict (t, r) (t, (connectBegin r sp mem).1)
  | rs_admit t r src a dest : 0 < begun r -> rStep strict (t, r) (t, (connectAdmit r src a dest).1)
  | rs_spanDone t r : 0 < ending r -> rStep strict (t, r) (t, spanDone r)
  | rs_finish t r l1 c l2 e : circuits r = l1 ++ c :: l2 -> goroutines c = 0 -> rStep strict (t, r) (t, (connectFinish r l1 c l2 e).1)
  | rs_done t r l1 c l2 : circuits r = l1 ++ c :: l2 -> 0 < goroutines c -> rStep strict (t, r) (t, circuitDone r l1 c l2)
  | rs_gc t r now : t <= now -> rStep strict (t, r) (now, gcRelay r now)
  | rs_close t r : rStep strict (t, r) (t, CloseRelay r)
  | rs_closeGc t r now : t <= now -> rStep strict (t, r) (now, closeGc r now)
  | rs_endServiceScope t r : rStep strict (t, r) (t, endServiceScope r)
  | rs_disconnected t r p connected : rStep strict (t, r) (t, disconnected r p connected).

(** ** The invariant *)
(** [Close] has collected the reservations. *)
Definition collected (r : Relay) : bool := bool_decide (r_close r = Collected \/ r_close r = ScopeDone).

Record relayOk (r : Relay) : Prop := {
  ok_circuits : circuitsOk r;
  ok_bound : circuitBound (MaxCircuits (rc r)) (circuits r);
  ok_closed : collected r = true -> rsvp r = ∅;
  ok_rsvpTags : dom (rsvp r) ⊆ rsvpTags r;
  ok_book : exists b, represents b (cstr r);
  ok_limits : withinLimits (rc r) (cstr r) }.

(** What a step of the circuits leaves alone *)
Record sameRsvp (r r' : Relay) : Prop := {
  sr_rc : rc r' = rc r; sr_closed : r_close r' = r_close r; sr_rsvp : rsvp r' = rsvp r;
  sr_tags : rsvpTags r' = rsvpTags r; sr_cstr : cstr r' = cstr r }.
(** What a step of the reservations leaves alone *)
Record sameCircuits (r r' : Relay) : Prop := {
  sc_rc : rc r' = rc r; sc_circuits : circuits r' = circuits r; sc_conns : conns r' = conns r;
  sc_tags : hopTags r' = hopTags r; sc_begun : begun r' = begun r; sc_ending : ending r' = ending r;
  sc_spans : spans r' = spans r; sc_memory : memory r' = memory r; sc_done : scopeDone r' = scopeDone r }.

Lemma relayOk_circuits r r' : relayOk r -> sameRsvp r r' -> circuitsOk r' -> circuitBound (MaxCircuits (rc r)) (circuits r') -> relayOk r'.
Proof.
  intros [O1 O2 O3 O4 O5 O6] [S1 S2 S3 S4 S5] C B.
  split; [done|by rewrite S1|unfold collected in *; by rewrite S2, S3|by rewrite S3, S4|by rewrite S5|by rewrite S1, S5].
Qed.
Lemma relayOk_rsvp r r' : relayOk r -> sameCircuits r r' -> (collected r' = true -> rsvp r' = ∅) -> dom (rsvp r') ⊆ rsvpTags r' ->
  (exists b, represents b (cstr r')) -> withinLimits (rc r') (cstr r') -> relayOk r'.
Proof.
  intros [[C1 C2 C3 C4 C5 C6] O2 O3 O4 O5 O6] [S1 S2 S3 S4 S5 S6 S7 S8 S9] H1 H2 H3 H4. split; try done.
  - split; [intros p; by rewrite S2, S3|by rewrite S3, S4|by rewrite S5, S6|by rewrite S2, S5, S6, S7| |by rewrite S2].
    unfold relayMemory in *. by rewrite S1, S7, S8, S9.
  - by rewrite S1, S2.
Qed.

Lemma represents_cleanupPeer c p : (exists b, represents b c) -> exists b, represents b (cleanupPeer c p).
Proof. intros [b R]. eexists. by apply represents_purge. Qed.

Lemma NewRelay_ok rc acl : relayOk (NewRelay rc acl).
Proof.
  split; simpl; try done.
  - split; simpl; try done; lia.
  - intros p. left. unfold ends. simpl. lia.
  - exists ∅. split; [done| |]; (intros k; by split).
  - split; simpl; [lia|intros ? ? H; by rewrite lookup_empty in H..].
Qed.

Lemma handleReserve_ok r p a now sent : relayOk r -> relayOk (handleReserve AsnForIPv6 r p a now sent).1.
Proof.
  intros O. unfold handleReserve. destruct (isRelayAddr a); [done|]. destruct (match acl r with Some f => _ | None => _ end); [done|].
  destruct (r_closed r) eqn:Er; [done|]. pose proof (ok_book _ O) as [b R].
  assert (Ec : collected r = false).
  { unfold r_closed, collected in *. apply negb_false_iff, bool_decide_eq_true in Er. apply bool_decide_eq_false. rewrite Er. by intros []. }
  pose proof (reserve_refines AsnForIPv6 (rc r) b (cstr r) p a (now + ReservationTTL (rc r)) now R) as [R' _].
  pose proof (within_Reserve AsnForIPv6 (rc r) (cstr r) p a (now + ReservationTTL (rc r)) now (ok_limits _ O)) as W'.
  destruct (Reserve AsnForIPv6 (rc r) (cstr r) p a (now + ReservationTTL (rc r)) now) as [c [err|]]; simpl in *.
  - apply (relayOk_rsvp r); simpl; [done|done|intros Hc; change (collected r = true) in Hc; congruence|apply (ok_rsvpTags _ O)|by eexists|done].
  - apply (relayOk_rsvp r); simpl; [done|done|intros Hc; change (collected r = true) in Hc; congruence| |by eexists|done]. rewrite dom_insert_L. pose proof (ok_rsvpTags _ O). set_solver.
Qed.

Lemma gcRelay_spec r now : circuitsOk r ->
  gcRelay r now = set_rsvp r (cstr r) (filter (fun pe => r_closed r || (pe.2 <? now) = false) (rsvp r))
    (rsvpTags r ∖ dom (filter (fun pe => r_closed r || (pe.2 <? now) = true) (rsvp r))).
Proof.
  intros [C1 _ _ _ _ _]. unfold gcRelay, set_conns, set_rsvp. cbn. f_equal. apply map_filter_id. intros p n Hn. simpl.
  rewrite C1 in Hn. unfold countsOf in Hn. destruct (Z.eqb_spec (ends (circuits r) p) 0); naive_solver.
Qed.
Lemma gcRelay_ok r now : relayOk r -> relayOk (gcRelay r now).
Proof.
  intros O. rewrite gcRelay_spec by apply O. apply (relayOk_rsvp r); simpl; [done|done| | |apply O|apply O].
  - intros Hc. change (collected r = true) in Hc. by rewrite (ok_closed _ O Hc), map_filter_empty.
  - intros p Hp. apply elem_of_dom in Hp as [e He]. apply map_lookup_filter_Some in He as [H1 H2].
    pose proof (ok_rsvpTags _ O) as Ht. apply elem_of_difference. split; [apply Ht, elem_of_dom; by eexists|].
    intros [e' He']%elem_of_dom. apply map_lookup_filter_Some in He' as [H3 H4]. simpl in *. congruence.
Qed.
Lemma set_close_ok r ph mem : relayOk r -> (ph = Collected \/ ph = ScopeDone -> rsvp r = ∅) ->
  mem = (if bool_decide (ph = ScopeDone) then 0 else relayMemory r * spans r) -> relayOk (set_spans (set_close r ph) (spans r) mem).
Proof.
  intros [[C1 C2 C3 C4 C5 C6] O2 O3 O4 O5 O6] Hp Hm. split; try done. intros H%bool_decide_eq_true. by apply Hp.
Qed.
Lemma set_close_spans r ph : set_spans (set_close r ph) (spans r) (memory r) = set_close r ph.
Proof. done. Qed.
Lemma memory_not_done r : relayOk r -> r_close r <> ScopeDone -> memory r = relayMemory r * spans r.
Proof. intros [[C1 C2 C3 C4 C5 C6] _ _ _ _ _] H. rewrite C5. unfold scopeDone. by rewrite bool_decide_false. Qed.

Lemma closing_ok r : relayOk r -> relayOk (CloseRelay r).
Proof.
  intros O. unfold CloseRelay. destruct (r_closed r) eqn:Hc; [done|]. unfold r_closed in Hc. apply negb_false_iff, bool_decide_eq_true in Hc.
  rewrite <-set_close_spans. apply set_close_ok; [done|by intros []|]. rewrite bool_decide_false by done. by apply memory_not_done; [|rewrite Hc].
Qed.
Lemma closeGc_ok r now : relayOk r -> relayOk (closeGc r now) /\ (r_close r = Marked -> rsvp (closeGc r now) = ∅).
Proof.
  intros O. unfold closeGc. destruct (decide (r_close r = Marked)) as [Hm|]; [|by split]. pose proof (gcRelay_ok r now O) as O'.
  assert (E : rsvp (gcRelay r now) = ∅).
  { rewrite gcRelay_spec by apply O. simpl. apply map_empty. intros p. apply map_lookup_filter_None. right. intros e _. simpl.
    unfold r_closed. by rewrite Hm. }
  assert (Hp : r_close (gcRelay r now) = Marked) by done.
  split; [|done]. rewrite <-set_close_spans. apply set_close_ok; [done|done|]. rewrite bool_decide_false by done.
  by apply memory_not_done; [|rewrite Hp].
Qed.
Lemma endServiceScope_ok r : relayOk r -> relayOk (endServiceScope r).
Proof.
  intros O. unfold endServiceScope. destruct (decide (r_close r = Collected)) as [Hc|]; [|done].
  change (spans r) with (spans (set_close r ScopeDone)). apply (set_close_ok r ScopeDone 0); [done|intros _; apply (ok_closed _ O)|by rewrite bool_decide_true].
  unfold collected. apply bool_decide_eq_true. by left.
Qed.

Lemma sameRsvp_cleanup r l c : sameRsvp r (cleanupCircuit (set_circuits r l) c).
Proof. unfold cleanupCircuit, rmConn. repeat case_match; done. Qed.
Lemma circuits_cleanup r l c : circuits (cleanupCircuit (set_circuits r l) c) = l.
Proof. unfold cleanupCircuit, rmConn. repeat case_match; done. Qed.

Lemma sameRsvp_begin r sp mem : sameRsvp r (connectBegin r sp mem).1.
Proof. unfold connectBegin. repeat case_match; simplify_eq; done. Qed.
Lemma circuits_begin r sp mem : circuits (connectBegin r sp mem).1 = circuits r.
Proof. unfold connectBegin. repeat case_match; simplify_eq; done. Qed.

Lemma end_ok r l1 c l2 : relayOk r -> circuits r = l1 ++ c :: l2 -> relayOk (cleanupCircuit (set_circuits r (l1 ++ l2)) c).
Proof.
  intros O El. apply (relayOk_circuits r); [done|apply sameRsvp_cleanup|by apply cleanupCircuit_ok; [apply O|]|].
  rewrite circuits_cleanup. pose proof (ok_bound _ O) as B. rewrite El in B. by eapply bound_remove.
Qed.
Lemma change_ok r l1 c l2 n : relayOk r -> circuits r = l1 ++ c :: l2 -> 0 <= n <= 2 -> relayOk (set_circuits r (l1 ++ mkCircuit (c_src c) (c_dest c) n :: l2)).
Proof.
  intros O El Hn. apply (relayOk_circuits r); [done|done|by apply set_goroutines_ok; [apply O|..]|].
  simpl. pose proof (ok_bound _ O) as B. rewrite El in B. by apply bound_change.
Qed.

Lemma rStep_ok strict s s' : relayOk s.2 -> rStep strict s s' -> relayOk s'.2.
Proof.
  intros O H. destruct H as [t r p a now sent _ _|t r sp mem|t r src a d Hb|t r Hb|t r l1 c l2 e El Hg|t r l1 c l2 El Hg|t r now _|t r|t r now _|t r|t r p b]; simpl in *.
  - by apply handleReserve_ok.
  - apply (relayOk_circuits r); [done|by apply sameRsvp_begin|apply connectBegin_ok, O|]. rewrite circuits_begin. apply O.
  - destruct (connectAdmit_spec r src a d) as [[st ->]|(dest & -> & _ & _ & _ & Hs & Hd)]; cbn [fst].
    { apply (relayOk_circuits r); [done|done|by apply refusedConn_ok; [apply O|]|apply O]. }
    assert (G : forall p, connsOf r p = ends (circuits r) p) by (intros p; apply counted_get; exact (co_conns _ (ok_circuits _ O))).
    apply (relayOk_circuits r); [done|done|by apply admitted_ok; [apply O|..]|]. simpl. rewrite !G in Hs, Hd. by apply bound_admit; [apply O|..].
  - apply (relayOk_circuits r); [done|done|by apply spanDone_ok; [apply O|]|apply O].
  - unfold connectFinish. destruct (handshake e); simpl; by (apply end_ok; done) || (apply change_ok; done || lia).
  - unfold circuitDone. destruct (Z.eqb_spec (goroutines c - 1) 0); [by apply end_ok|]. apply change_ok; [done|done|].
    pose proof (co_running _ (ok_circuits _ O)) as F. rewrite El in F. apply Forall_app in F as [_ F]. inversion F; subst. lia.
  - by apply gcRelay_ok.
  - by apply closing_ok.
  - by apply closeGc_ok.
  - by apply endServiceScope_ok.
  - unfold disconnected. destruct b; [done|]. apply (relayOk_rsvp r); simpl; [done|done| | |apply represents_cleanupPeer, O|apply within_purge, O].
    + intros Hc. change (collected r = true) in Hc. by rewrite (ok_closed _ O Hc), delete_empty.
    + rewrite dom_delete_L. pose proof (ok_rsvpTags _ O). set_solver.
Qed.
Lemma run_ok strict s s' : relayOk s.2 -> rtc (rStep strict) s s' -> relayOk s'.2.
Proof. intros O. induction 1 as [|s1 s2 s3 H _ IH]; [done|]. apply IH. by eapply rStep_ok. Qed.

(** ** Reservations that the constraints count *)
Definition accounted (s : Z * Relay) : Prop := forall p e, rsvp s.2 !! p = Some e -> s.1 <= e -> mkPWE e p ∈ total (cstr s.2).

Lemma elem_deleteFunc {A} (del : A -> bool) l x : x ∈ deleteFunc del l <-> del x = false /\ x ∈ l.
Proof. unfold deleteFunc. by rewrite list_elem_of_filter. Qed.
Lemma elem_purged (c : constraints) now p x : x ∈ total (cleanupPeer (cleanup c now) p) <-> Peer x <> p /\ now <= Expiry x /\ x ∈ total c.
Proof. simpl. rewrite !elem_deleteFunc, bool_decide_eq_false, Z.ltb_ge. naive_solver. Qed.
Lemma Reserve_total rc c p a expiry now :
  let c0 := cleanupPeer (cleanup c now) p in
  match Reserve AsnForIPv6 rc c p a expiry now with
  | (c', Some _) => c' = c0
  | (c', None) => total c' = total c0 ++ [mkPWE expiry p]
  end.
Proof. unfold Reserve. cbn zeta. repeat case_match; simplify_eq; done. Qed.

Lemma accounted_step s s' : relayOk s.2 -> accounted s -> rStep true s s' -> accounted s'.
Proof.
  intros O A H. destruct H as [t r p a now sent Ht Hr|t r sp mem|t r src a d Hb|t r Hb|t r l1 c l2 e El Hg|t r l1 c l2 El Hg|t r now Ht|t r|t r now Ht|t r|t r p b]; unfold accounted in *; cbn [fst snd] in *.
  - assert (A' : forall q e, rsvp r !! q = Some e -> now <= e -> mkPWE e q ∈ total (cstr r)) by (intros q e He Hn; apply A; [done|lia]).
    specialize (Hr eq_refl). unfold refusedRefresh, handleReserve in *. destruct (isRelayAddr a); [done|].
    destruct (match acl r with Some f => _ | None => _ end); [done|]. destruct (r_closed r); [done|].
    pose proof (Reserve_total (rc r) (cstr r) p a (now + ReservationTTL (rc r)) now) as E.
    destruct (Reserve AsnForIPv6 (rc r) (cstr r) p a (now + ReservationTTL (rc r)) now) as [c [err|]]; simpl in *; intros q e He Hn.
    + subst c. change (mkPWE e q ∈ total (cleanupPeer (cleanup (cstr r) now) p)). rewrite elem_purged. simpl. split; [|by split; [|apply A']].
      intros ->. apply Hr. split; [by eexists|done].
    + rewrite E. destruct (decide (q = p)) as [->|Hq].
      * rewrite lookup_insert_eq in He. injection He as <-. apply elem_of_app. right. by left.
      * rewrite lookup_insert_ne in He by done. apply elem_of_app. left.
        change (mkPWE e q ∈ total (cleanupPeer (cleanup (cstr r) now) p)). rewrite elem_purged. simpl. split; [done|by split; [|apply A']].
  - destruct (sameRsvp_begin r sp mem) as [_ _ -> _ ->]. done.
  - destruct (connectAdmit_spec r src a d) as [[st ->]|(dest & -> & _)]; done.
  - done.
  - unfold connectFinish. destruct (handshake e); cbn [fst]; try done; destruct (sameRsvp_cleanup r (l1 ++ l2) c) as [_ _ -> _ ->]; done.
  - unfold circuitDone. case_match; [|done]. destruct (sameRsvp_cleanup r (l1 ++ l2) c) as [_ _ -> _ ->]; done.
  - rewrite gcRelay_spec by apply O. simpl. intros p e [He _]%map_lookup_filter_Some Hn. apply A; [done|lia].
  - unfold CloseRelay. by destruct (r_closed r).
  - destruct (decide (r_close r = Marked)) as [Hm|Hm].
    + destruct (closeGc_ok r now O) as [_ E]. rewrite E by done. intros p e. by rewrite lookup_empty.
    + unfold closeGc. rewrite decide_False by done. intros p e He Hn. apply A; [done|lia].
  - unfold endServiceScope. by case_decide.
  - unfold disconnected. destruct b; [done|]. simpl. intros q e [Hq He]%lookup_delete_Some Hn. apply elem_deleteFunc. split; [by apply bool_decide_eq_false|by apply A].
Qed.
Lemma accounted_run s s' : relayOk s.2 -> accounted s -> rtc (rStep true) s s' -> accounted s'.
Proof.
  intros O A H. induction H as [|s1 s2 s3 H _ IH]; [done|]. apply IH; [by eapply rStep_ok|by eapply accounted_step].
Qed.
Lemma live_count r now : relayOk r -> accounted (now, r) ->
  Z.of_nat (size (filter (fun pe => now <= pe.2) (rsvp r))) <= Z.max 0 (MaxReservations (rc r)).
Proof.
  intros O A. etrans; [|apply (wl_total _ _ (ok_limits _ O))]. apply Nat2Z.inj_le. rewrite <-length_map_to_list.
  rewrite <-(length_fmap (fun pe : PeerID * Z => mkPWE pe.2 pe.1)). apply submseteq_length, NoDup_submseteq.
  - apply NoDup_fmap; [|apply NoDup_map_to_list]. intros [p1 e1] [p2 e2]. simpl. by intros [= -> ->].
  - intros x ([p e] & -> & Hpe)%list_elem_of_fmap. apply elem_of_map_to_list, map_lookup_filter_Some in Hpe as [H1 H2]. by apply A.
Qed.
End run.

(** ** The theorems *)
(** C22: The constraints of the relay implement one table with at most one reservation per peer: along every sequence of
    reservations and removals the three lists hold exactly the rows of the table (all of them, those of an address, those
    of an autonomous system), and each request is answered as the table answers it, so that a reservation is refused
    exactly when the unexpired ones of the other peers exhaust a limit or there is no address. *)
Theorem constraints_refine_table (AsnForIPv6 : bytes -> Z) (rc : Resources) (b : book) (c : constraints) (p : PeerID) (a : Multiaddr) (expiry now : Z) :
  represents b c ->
  represents (bookReserve AsnForIPv6 rc b p a expiry now).1 (Reserve AsnForIPv6 rc c p a expiry now).1
  /\ (Reserve AsnForIPv6 rc c p a expiry now).2 = (bookReserve AsnForIPv6 rc b p a expiry now).2
  /\ represents (delete p b) (cleanupPeer c p)
  /\ represents ∅ newConstraints.
Proof.
  intros R. destruct (reserve_refines AsnForIPv6 rc b c p a expiry now R) as [R1 R2]. split_and!; [done|done| |].
  - rewrite <-bookPurge_peer. by apply represents_purge.
  - split; [done| |]; (intros k; by split).
Qed.


(** As long as no peer that has a reservation is refused a new one, there are never more than [MaxReservations]
    reservations that have not expired. *)
Theorem live_reservations_bounded (AsnForIPv6 : bytes -> Z) (rc0 : Resources) (acl0 : option ACLFilter) (t0 t now : Z) (r : Relay) :
  rtc (rStep AsnForIPv6 true) (t0, NewRelay rc0 acl0) (t, r) -> t <= now ->
  Z.of_nat (size (filter (fun pe => now <= pe.2) (rsvp r))) <= Z.max 0 (MaxReservations (rc r)).
Proof.
  intros H Hn. pose proof (run_ok AsnForIPv6 true (t0, NewRelay rc0 acl0) _ (NewRelay_ok rc0 acl0) H) as O.
  apply live_count; [done|]. intros p e He Hpe. refine (accounted_run AsnForIPv6 (t0, NewRelay rc0 acl0) _ (NewRelay_ok rc0 acl0) _ H p e He _); [|simpl in *; lia].
  intros q x Hx. simpl in Hx. by rewrite lookup_empty in Hx.
Qed.

(** ** Three peers at a relay with two slots *)
Module RelayExample.
Definition peer (n : Byte.byte) : PeerID := [n].
Definition addr (n : Byte.byte) : Multiaddr := [mkComponent [Byte.x04; Byte.x0a; Byte.x00; Byte.x00; n] (Some (@protoIP4 unsignedVarint)) 1].
Definition asn (_ : bytes) : Z := 0.
Definition rc2 : Resources := mkRelayResources (Some DefaultLimit) 100 2 1 2048 1 32.
Definition r0 : Relay := NewRelay rc2 None.
Definition ask (r : Relay) (p ip : Byte.byte) : Relay := (handleReserve asn r (peer p) (addr ip) 5 true).1.
(** Two peers reserve; the first asks again from the address of the second and is refused. *)
Definition r1 : Relay := ask r0 Byte.x01 Byte.x01.
Definition r2 : Relay := ask r1 Byte.x02 Byte.x02.
Definition r3 : Relay := ask r2 Byte.x01 Byte.x02.
Definition r4 : Relay := ask r3 Byte.x03 Byte.x03.

Lemma reserve_step strict r p ip : (strict = true -> (handleReserve asn r (peer p) (addr ip) 5 true).2 <> Status_RESERVATION_REFUSED) ->
  rStep asn strict (5, r) (5, ask r p ip).
Proof. intros H. apply rs_reserve; [done|]. intros Hs [_ H2]. by apply (H Hs). Qed.
Lemma run2 strict : rtc (rStep asn strict) (5, r0) (5, r2).
Proof. eapply rtc_l; [apply (reserve_step strict r0 Byte.x01 Byte.x01); by vm_compute|]. eapply rtc_l; [apply (reserve_step strict r1 Byte.x02 Byte.x02); by vm_compute|constructor]. Qed.
End RelayExample.
Import RelayExample.

(** A refused refresh frees the slot of a reservation that stays valid: a relay with two slots has three live reservations. *)
Lemma refused_refresh_overbooks : rtc (rStep asn false) (5, NewRelay rc2 None) (5, r4)
  /\ MaxReservations (rc r4) = 2 /\ size (filter (fun pe => 5 <= pe.2) (rsvp r4)) = 3%nat /\ length (total (cstr r4)) = 2%nat.
Proof.
  split_and!; [|by vm_compute..]. eapply rtc_r; [eapply rtc_r; [apply run2|]|].
  - by apply (reserve_step false r2 Byte.x01 Byte.x02).
  - by apply (reserve_step false r3 Byte.x03 Byte.x03).
Qed.

(** The third peer is refused while two others hold the slots. *)
Lemma constraints_refine_table_witness : exists b, size b = 2%nat
  /\ (Reserve asn rc2 (cstr r2) (peer Byte.x03) (addr Byte.x03) 105 5).2 = (bookReserve asn rc2 b (peer Byte.x03) (addr Byte.x03) 105 5).2.
Proof.
  assert (R0 : represents ∅ newConstraints) by (split; [done| |]; (intros k; by split)).
  destruct (constraints_refine_table asn rc2 ∅ newConstraints (peer Byte.x01) (addr Byte.x01) 105 5 R0) as [R1 _].
  destruct (constraints_refine_table asn rc2 _ _ (peer Byte.x02) (addr Byte.x02) 105 5 R1) as [R2 _].
  destruct (constraints_refine_table asn rc2 _ _ (peer Byte.x03) (addr Byte.x03) 105 5 R2) as (_ & E & _).
  eexists. split; [|exact E]. by vm_compute.
Defined.
Lemma live_reservations_bounded_witness : size (filter (fun pe => 7 <= pe.2) (rsvp r2)) = 2%nat
  /\ Z.of_nat (size (filter (fun pe => 7 <= pe.2) (rsvp r2))) <= Z.max 0 (MaxReservations (rc r2)).
Proof. split; [by vm_compute|]. refine (live_reservations_bounded asn rc2 None 5 5 7 r2 _ _); [apply run2|lia]. Defined.
