(* ===== verification/RelayCopy.v ===== *)
(** * Copying between the streams of a circuit (relay.go)

    [copyWithBuffer] ends, and delivers a prefix of what arrives: all of it, up
    to the limit, unless it reports an error. *)
From Stdlib Require Import ZArith Lia.
From stdpp Require Import base tactics list numbers option.
From S2P Require Import Prelude GoBytes Relay.
Local Open Scope Z_scope.

(** The bytes that arrive before the end of the stream or an error *)
Fixpoint stream (rd : Reader) : bytes :=
  match rd with
  | [] => []
  | (c, None) :: rd => c ++ stream rd
  | (c, Some _) :: _ => c
  end.
(** What can still be read *)
Definition left_in (rd : Reader) : nat := sum_list_with (fun ce => S (length ce.1)) rd.

(** A [Read] takes something away and returns the first bytes. *)
Record reads {R} (read : R -> nat -> R * bytes * option readError) (I : R -> Prop) (avail : R -> bytes) (measure : R -> nat) : Prop := {
  rd_more s n s' b : (1 <= n)%nat -> I s -> read s n = (s', b, None) -> I s' /\ avail s = b ++ avail s' /\ (measure s' < measure s)%nat;
  rd_last s n s' b e : I s -> read s n = (s', b, Some e) -> avail s = b }.

Lemma Read_reads : reads Read (fun _ => True) stream left_in.
Proof.
  split.
  - intros rd n rd' b Hn _. destruct rd as [|[c e] rd]; [done|]. unfold Read. destruct (Nat.leb_spec (length c) n).
    + intros [= <- <- ->]. split_and!; [done|done|]. unfold left_in. simpl. lia.
    + intros [= <- <-]. split; [done|]. simpl. split.
      * destruct e; [by rewrite take_drop|]. by rewrite app_assoc, take_drop.
      * unfold left_in. simpl. rewrite length_drop. lia.
  - intros rd n rd' b e _. destruct rd as [|[c e0] rd]; [by intros [= _ <- _]|]. unfold Read. destruct (Nat.leb_spec (length c) n); [|done].
    by intros [= _ <- ->].
Qed.

Lemma take_app_split (b s : bytes) (N : Z) : Z.of_nat (length b) <= N ->
  take (Z.to_nat N) (b ++ s) = b ++ take (Z.to_nat (N - Z.of_nat (length b))) s.
Proof. intros H. rewrite take_app_ge by lia. do 2 f_equal. lia. Qed.
Lemma Read_length rd n : (length (Read rd n).1.2 <= n)%nat.
Proof.
  unfold Read. destruct rd as [|[c e] rd]; simpl; [lia|]. destruct (Nat.leb_spec (length c) n); simpl; [done|]. rewrite length_take. lia.
Qed.
Lemma LimitedRead_reads : reads LimitedRead (fun l => 0 <= lr_N l) (fun l => take (Z.to_nat (lr_N l)) (stream (lr_R l))) (fun l => left_in (lr_R l)).
Proof.
  assert (Hb : forall (l : LimitedReader) n, 0 < lr_N l ->
    let n' := if lr_N l <? Z.of_nat n then Z.to_nat (lr_N l) else n in ((1 <= n)%nat -> (1 <= n')%nat) /\ Z.of_nat n' <= lr_N l).
  { intros l n Hl. simpl. destruct (Z.ltb_spec (lr_N l) (Z.of_nat n)); lia. }
  split.
  - intros l n l' b Hn Hl. unfold LimitedRead. destruct (Z.leb_spec (lr_N l) 0); [done|].
    destruct (Hb l n ltac:(lia)) as [H1 H2]. set (n' := if lr_N l <? _ then _ else _) in *.
    pose proof (Read_length (lr_R l) n') as Hlen. destruct (Read (lr_R l) n') as [[rd b0] e] eqn:E. intros [= <- <- ->]. simpl in *.
    destruct (rd_more _ _ _ _ Read_reads (lr_R l) n' rd b0 (H1 Hn) I E) as (_ & Hs & Hm). split_and!; [lia| |done].
    rewrite Hs. apply take_app_split. lia.
  - intros l n l' b e Hl. unfold LimitedRead. destruct (Z.leb_spec (lr_N l) 0).
    + intros [= _ <- _]. by replace (Z.to_nat (lr_N l)) with 0%nat by lia.
    + destruct (Hb l n ltac:(lia)) as [H1 H2]. set (n' := if lr_N l <? _ then _ else _) in *.
      pose proof (Read_length (lr_R l) n') as Hlen. destruct (Read (lr_R l) n') as [[rd b0] e0] eqn:E. intros [= _ <- ->]. simpl in *.
      rewrite (rd_last _ _ _ _ Read_reads (lr_R l) n' rd b0 e I E). apply take_ge. lia.
Qed.

Section copy.
Context {R : Type} (read : R -> nat -> R * bytes * option readError) (I : R -> Prop) (avail : R -> bytes) (measure : R -> nat).
Context (RD : reads read I avail measure) (write : nat -> bytes -> Z * bool) (bufSize : nat) (Hbuf : (1 <= bufSize)%nat).

(** From a state in which [sent] has been delivered *)
Lemma copy_spec fuel : forall k src written sent, I src -> (measure src < fuel)%nat ->
  written = Z.of_nat (length sent) -> Z.of_nat (length sent + length (avail src)) <= Int64.MaxInt64 ->
  exists src' err out, copyWithBuffer read write bufSize fuel k src written sent = Some (src', Z.of_nat (length (sent ++ out)), err, sent ++ out)
    /\ out `prefix_of` avail src /\ (err = None -> out = avail src).
Proof.
  induction fuel as [|fuel IH]; intros k src written sent HI Hm Hw Hmax; [lia|]. cbn [copyWithBuffer].
  destruct (read src bufSize) as [[src' b] er] eqn:E.
  (** what is left to do once the piece is delivered *)
  assert (Fin : forall written', written' = Z.of_nat (length (sent ++ b)) ->
    exists src2 err out, match er with
      | None => copyWithBuffer read write bufSize fuel (S k) src' written' (sent ++ b)
      | Some EOF => Some (src', written', None, sent ++ b)
      | Some ReadFailed => Some (src', written', Some ErrRead, sent ++ b)
      end = Some (src2, Z.of_nat (length (sent ++ out)), err, sent ++ out) /\ out `prefix_of` avail src /\ (err = None -> out = avail src)).
  { intros written' Hw'. destruct er as [e|].
    - rewrite (rd_last _ _ _ _ RD src bufSize src' b e HI E). destruct e; do 2 eexists; exists b; rewrite Hw'; split_and!; done.
    - destruct (rd_more _ _ _ _ RD src bufSize src' b Hbuf HI E) as (HI' & Ha & Hm'). rewrite Ha in Hmax |- *.
      destruct (IH (S k) src' written' (sent ++ b) HI') as (src2 & err & out & -> & Hp & Hn); [lia|done|rewrite !length_app in *; lia|].
      exists src2, err, (b ++ out). rewrite !app_assoc. split_and!; [done|by apply prefix_app|intros He; by rewrite Hn]. }
  assert (Hpre : b `prefix_of` avail src).
  { destruct er as [e|]; [by rewrite (rd_last _ _ _ _ RD src bufSize src' b e HI E)|].
    destruct (rd_more _ _ _ _ RD src bufSize src' b Hbuf HI E) as (_ & -> & _). by apply prefix_app_r. }
  assert (Hlen : (length b <= length (avail src))%nat) by (by apply prefix_length).
  destruct (Z.ltb_spec 0 (Z.of_nat (length b))) as [Hb|Hb].
  2:{ assert (b = []) as -> by (destruct b; [done|simpl in Hb; lia]). rewrite app_nil_r in Fin. by apply Fin. }
  destruct (write k b) as [nw ew].
  (** after a write of [n] of the bytes *)
  assert (Part : forall n, 0 <= n <= Z.of_nat (length b) -> Int64.add64 written n = Z.of_nat (length (sent ++ take (Z.to_nat n) b))
    /\ take (Z.to_nat n) b `prefix_of` avail src).
  { intros n Hn. split; [|etrans; [apply prefix_take|done]]. rewrite length_app, length_take. unfold Int64.add64.
    rewrite Int64.wrap64_small; [lia|]. unfold Int64.is_int64, Int64.MinInt64, Int64.MaxInt64 in *. lia. }
  assert (Stop : forall n (e : copyError), 0 <= n <= Z.of_nat (length b) -> exists src2 err out,
    @Some (R * Z * option copyError * bytes) (src', Int64.add64 written n, Some e, sent ++ take (Z.to_nat n) b) = Some (src2, Z.of_nat (length (sent ++ out)), err, sent ++ out)
    /\ out `prefix_of` avail src /\ (err = None -> out = avail src)).
  { intros n e Hn. destruct (Part n Hn) as [-> Hp]. do 3 eexists. split_and!; [done|done|done]. }
  destruct ((nw <? 0) || (Z.of_nat (length b) <? nw)) eqn:Ew.
  - destruct ew; apply Stop; lia.
  - apply orb_false_iff in Ew as [?%Z.ltb_ge ?%Z.ltb_ge]. destruct ew; [by apply Stop|].
    destruct (Z.eqb_spec (Z.of_nat (length b)) nw) as [En|]; [|by apply Stop].
    destruct (Part nw ltac:(lia)) as [P1 _]. rewrite (take_ge b (Z.to_nat nw)) in P1 |- * by lia. by apply Fin.
Qed.
End copy.

(** C24: A relayed connection copies faithfully and within its limit: with a buffer of at least one byte the goroutine ends;
    what it has delivered is a prefix of the bytes that arrived, it counts it right and it is never longer than the limit;
    and when it does not reset the streams it has delivered everything up to the limit, has closed the destination for
    writing, and the source for reading exactly if the limit was reached. *)
Theorem relay_copies_within_limit (bufSize : nat) (write : nat -> bytes -> Z * bool) (src : Reader) (limit : Z) :
  (1 <= bufSize)%nat -> 0 <= limit <= Int64.MaxInt64 ->
  exists e, relayLimited bufSize write src limit = Some e
    /\ re_sent e `prefix_of` stream src /\ re_count e = Z.of_nat (length (re_sent e)) /\ re_count e <= limit
    /\ (re_reset e = false -> re_sent e = take (Z.to_nat limit) (stream src) /\ re_closeWrite e = true /\ re_closeRead e = (re_count e =? limit))
    /\ (re_reset e = true -> re_closeWrite e = false).
Proof.
  intros Hb Hl. unfold relayLimited.
  destruct (copy_spec LimitedRead _ _ _ LimitedRead_reads write bufSize Hb (readFuel src) 0 (mkLimited src limit) 0 []) as (src' & err & out & -> & Hp & Hn).
  - simpl. lia.
  - simpl. unfold readFuel, left_in. lia.
  - done.
  - simpl. rewrite length_take. lia.
  - simpl in *. pose proof (prefix_length _ _ Hp) as Hlen. rewrite length_take in Hlen.
    assert (Hs : out `prefix_of` stream src) by (etrans; [done|apply prefix_take]).
    eexists. split; [done|]. destruct err; simpl; split_and!; try done; try lia. intros _. by rewrite Hn.
Qed.
Lemma relay_copies_within_limit_witness : exists e, relayLimited 4 (fun _ b => (Z.of_nat (length b), false))
    [([Byte.x01; Byte.x02; Byte.x03], None); ([Byte.x04; Byte.x05; Byte.x06; Byte.x07; Byte.x08], Some EOF)] 5 = Some e
  /\ re_count e = 5 /\ re_closeRead e = true /\ re_sent e = [Byte.x01; Byte.x02; Byte.x03; Byte.x04; Byte.x05].
Proof.
  destruct (relay_copies_within_limit 4 (fun _ b => (Z.of_nat (length b), false))
    [([Byte.x01; Byte.x02; Byte.x03], None); ([Byte.x04; Byte.x05; Byte.x06; Byte.x07; Byte.x08], Some EOF)] 5) as (e & E & _); [lia|done|].
  exists e. split; [exact E|]. vm_compute in E. injection E as <-. done.
Defined.
