(* ===== verification/Manet.v ===== *)
(** * Classes of IP addresses (go-multiaddr/net/ip.go, private.go)

    Loopback, link-local, unspecified, NAT64, public and private addresses, and
    the function [net.ParseCIDR] that builds their networks. *)
From Stdlib Require Import ZArith Lia.
From stdpp Require Import base tactics list numbers option strings.
From S2P Require Import Prelude GoBytes Varint MaProtocol MaComponent MaCodec MaOps GoNet MaProtocols BlsRpc ScoreParams Score.
Local Open Scope Z_scope.

(** ** net.ParseCIDR *)
Definition CIDRMask (ones bits : Z) : bytes :=
  (fun i => let n := ones - 8 * Z.of_nat i in z2b (if 8 <=? n then 255 else if 0 <? n then 255 - (255 / 2 ^ n) else 0))
    <$> seq 0 (Z.to_nat (bits / 8)).
Definition ParseCIDR (s : bytes) : option IPNet :=
  match split (z2b 47) s with
  | [addr; mask] =>
      ip16 ← ParseIP addr;
      n ← ParseUint mask 8;
      let ip := if bool_decide (addrKind addr = Some dot) then drop 12 ip16 else ip16 in
      if 8 * len ip <? n then None
      else let m := CIDRMask n (8 * len ip) in Some (mkIPNet (zip_with land8 ip m) m)
  | _ => None
  end.

(** ** The networks *)
Definition parseCIDR (cidrs : list bytes) : list IPNet := default [] (mapM ParseCIDR cidrs).
Definition Private4 : list IPNet := Eval vm_compute in parseCIDR
  [lit "127.0.0.0/8"; lit "10.0.0.0/8"; lit "100.64.0.0/10"; lit "172.16.0.0/12"; lit "192.168.0.0/16"; lit "169.254.0.0/16"].
Definition Private6 : list IPNet := Eval vm_compute in parseCIDR [lit "::1/128"; lit "fc00::/7"; lit "fe80::/10"].
Definition Unroutable4 : list IPNet := Eval vm_compute in parseCIDR
  [lit "0.0.0.0/8"; lit "192.0.0.0/26"; lit "192.0.2.0/24"; lit "192.88.99.0/24"; lit "198.18.0.0/15"; lit "198.51.100.0/24";
   lit "203.0.113.0/24"; lit "224.0.0.0/4"; lit "240.0.0.0/4"; lit "255.255.255.255/32"].
Definition Unroutable6 : list IPNet := Eval vm_compute in parseCIDR [lit "ff00::/8"; lit "2001:db8::/32"].
Definition globalUnicast : list IPNet := Eval vm_compute in parseCIDR [lit "2000::/3"].
Definition nat64 : list IPNet := Eval vm_compute in parseCIDR [lit "64:ff9b:1::/48"; lit "64:ff9b::/96"].
Definition inAddrRange (ip : bytes) (ipnets : list IPNet) : bool := existsb (fun n => ScoreParams.Contains n ip) ipnets.

(** ** Domains *)
Definition unResolvableDomains : list bytes := [lit ".in-addr.arpa"; lit ".ip6.arpa"; lit ".invalid"].
Definition privateUseDomains : list bytes := [lit ".home.arpa"; lit ".local"; lit ".test"].
Definition localHostDomain : bytes := lit ".localhost".
Definition HasSuffix (s suffix : bytes) : bool := bool_decide (suffix `suffix_of` s).
Definition isSubdomain (child parent : bytes) : bool := HasSuffix child parent || bool_decide (child = drop 1 parent).

(** ** Addresses *)
Definition protoCode (c : Component) : Z := Code (Component_Protocol (Some c)).
(** [RawValue] and [Value] of a component that the package has built do not panic. *)
Definition rawOf (c : Component) : bytes := match RawValue (Some c) with Ok b => b | _ => [] end.
Definition valueOf (c : Component) : bytes := match Value (Some c) with Ok b => b | _ => [] end.

(** A nil address is the empty one. *)
Definition zoneless (m : Multiaddr) : Multiaddr :=
  match m with
  | [] => []
  | head :: tail =>
      if protoCode head =? P_IP6ZONE then
        match tail with
        | [] => []
        | tailhead :: _ => if negb (protoCode tailhead =? P_IP6) then [] else tail
        end
      else m
  end.
Definition IsThinWaist (m : Multiaddr) : bool :=
  match zoneless m with
  | [] => false
  | c0 :: rest =>
      if negb (protoCode c0 =? P_IP4) && negb (protoCode c0 =? P_IP6) then false
      else match rest with
           | [] => true
           | c1 :: _ => (protoCode c1 =? P_TCP) || (protoCode c1 =? P_UDP) || (protoCode c1 =? P_IP4) || (protoCode c1 =? P_IP6)
           end
  end.
Definition IsIPLoopback (m : Multiaddr) : bool :=
  match zoneless m with
  | [] => false
  | c :: _ => if (protoCode c =? P_IP4) || (protoCode c =? P_IP6) then IsLoopback (rawOf c) else false
  end.
(** [net.IP.IsLinkLocalMulticast] and [IsLinkLocalUnicast] *)
Definition byteAt (ip : bytes) (i : nat) : Z := default 0 (b2z <$> ip !! i).
Definition IsLinkLocalMulticast (ip : bytes) : bool :=
  match To4 ip with
  | Some ip4 => (byteAt ip4 0 =? 224) && (byteAt ip4 1 =? 0) && (byteAt ip4 2 =? 0)
  | None => (len ip =? 16) && (byteAt ip 0 =? 255) && (Z.land (byteAt ip 1) 15 =? 2)
  end.
Definition IsLinkLocalUnicast (ip : bytes) : bool :=
  match To4 ip with
  | Some ip4 => (byteAt ip4 0 =? 169) && (byteAt ip4 1 =? 254)
  | None => (len ip =? 16) && (byteAt ip 0 =? 254) && (Z.land (byteAt ip 1) 192 =? 128)
  end.
Definition IsIP6LinkLocal (m : Multiaddr) : bool :=
  match zoneless m with
  | [] => false
  | c :: _ => if negb (protoCode c =? P_IP6) then false else IsLinkLocalMulticast (rawOf c) || IsLinkLocalUnicast (rawOf c)
  end.
Definition IsUnspecified (ip : bytes) : bool :=
  bool_decide (To4 ip = Some (replicate 4 Byte.x00)) || bool_decide (ip = replicate 16 Byte.x00).
Definition IsIPUnspecified (m : Multiaddr) : bool :=
  match zoneless m with [] => false | c :: _ => IsUnspecified (rawOf c) end.
Definition IsNAT64IPv4ConvertedIPv6Addr (addr : Multiaddr) : bool :=
  match addr with [] => false | c :: _ => (protoCode c =? P_IP6) && inAddrRange (rawOf c) nat64 end.

Definition isDNS (code : Z) : bool := (code =? P_DNS) || (code =? P_DNS4) || (code =? P_DNS6) || (code =? P_DNSADDR).
(** The loop goes on only after a zone. *)
Fixpoint IsPublicAddr (a : Multiaddr) : bool :=
  match a with
  | [] => false
  | c :: a =>
      if protoCode c =? P_IP6ZONE then IsPublicAddr a
      else if protoCode c =? P_IP4 then negb (inAddrRange (rawOf c) Private4) && negb (inAddrRange (rawOf c) Unroutable4)
      else if protoCode c =? P_IP6 then
        if inAddrRange (rawOf c) globalUnicast && negb (inAddrRange (rawOf c) Unroutable6) then true else inAddrRange (rawOf c) nat64
      else if isDNS (protoCode c) then
        if isSubdomain (valueOf c) localHostDomain then false
        else if existsb (isSubdomain (valueOf c)) unResolvableDomains then false
        else negb (existsb (isSubdomain (valueOf c)) privateUseDomains)
      else false
  end.
Fixpoint IsPrivateAddr (a : Multiaddr) : bool :=
  match a with
  | [] => false
  | c :: a =>
      if protoCode c =? P_IP6ZONE then IsPrivateAddr a
      else if protoCode c =? P_IP4 then inAddrRange (rawOf c) Private4
      else if protoCode c =? P_IP6 then inAddrRange (rawOf c) Private6
      else if isDNS (protoCode c) then isSubdomain (valueOf c) localHostDomain
      else false
  end.

(** ** Public addresses are not private *)
(** A byte of an address inside a network *)
Lemma Contains_byte nn m ip i x y : networkNumberAndMask (mkIPNet nn m) = Some (nn, m) -> ScoreParams.Contains (mkIPNet nn m) ip = true ->
  nn !! i = Some x -> m !! i = Some y ->
  exists z, default ip (To4 ip) !! i = Some z /\ land8 x y = land8 z y /\ length (default ip (To4 ip)) = length nn.
Proof.
  intros E. unfold ScoreParams.Contains. rewrite E. simpl. intros [Hl Hz]%andb_true_iff Hx Hy.
  apply bool_decide_eq_true in Hl, Hz. destruct (lookup_lt_is_Some_2 (default ip (To4 ip)) i) as [z Hi].
  { rewrite Hl. by eapply lookup_lt_Some. }
  exists z. split_and!; [done| |done]. assert (H : zip_with land8 nn m !! i = zip_with land8 (default ip (To4 ip)) m !! i) by by rewrite Hz.
  rewrite !lookup_zip_with, Hx, Hy, Hi in H. by injection H.
Qed.
(** The test of a byte against a masked one, for every byte *)
Definition inMask (x y z : byte) : bool := bool_decide (land8 x y = land8 z y).
Definition masks (i : nat) (n : IPNet) : byte -> bool :=
  fun z => match net_IP n !! i, net_Mask n !! i with Some x, Some y => inMask x y z | _, _ => false end.
Definition knownByte (i : nat) (n : IPNet) : bool :=
  bool_decide (networkNumberAndMask n = Some (net_IP n, net_Mask n)) && is_Some_b (net_IP n !! i) && is_Some_b (net_Mask n !! i).
Lemma Contains_masks n ip i : knownByte i n = true -> ScoreParams.Contains n ip = true ->
  exists z, default ip (To4 ip) !! i = Some z /\ masks i n z = true.
Proof.
  destruct n as [nn m]. unfold knownByte, masks. simpl. intros [[HN%bool_decide_eq_true Hx]%andb_true_iff Hy]%andb_true_iff Hc.
  destruct (nn !! i) as [x|] eqn:Ex; [|done]. destruct (m !! i) as [y|] eqn:Ey; [|done].
  destruct (Contains_byte nn m ip i x y HN Hc Ex Ey) as (z & Hz & He & _). exists z. split; [done|]. by apply bool_decide_eq_true.
Qed.
(** Some byte tells the two networks apart. *)
Definition apart (n n' : IPNet) : bool :=
  existsb (fun i => knownByte i n && knownByte i n' && forallb (fun z => negb (masks i n z && masks i n' z)) allBytes) (seq 0 16).
Lemma ranges_disjoint (l k : list IPNet) ip : forallb (fun n => forallb (apart n) k) l = true ->
  inAddrRange ip l = true -> inAddrRange ip k = true -> False.
Proof.
  intros Ha (n & Hn & Hc)%existsb_exists (n' & Hn' & Hc')%existsb_exists.
  rewrite forallb_forall in Ha. specialize (Ha n Hn). rewrite forallb_forall in Ha. specialize (Ha n' Hn').
  apply existsb_exists in Ha as (i & _ & [[K K']%andb_true_iff Hall]%andb_true_iff).
  destruct (Contains_masks n ip i K Hc) as (z & Hz & Hm). destruct (Contains_masks n' ip i K' Hc') as (z' & Hz' & Hm').
  assert (z' = z) as -> by congruence. pose proof (byte_forall _ Hall z) as Hd. simpl in Hd. by rewrite Hm, Hm' in Hd.
Qed.

Lemma global_not_private ip : inAddrRange ip globalUnicast = true -> inAddrRange ip Private6 = true -> False.
Proof. apply ranges_disjoint; vm_compute; reflexivity. Qed.
Lemma nat64_not_private ip : inAddrRange ip nat64 = true -> inAddrRange ip Private6 = true -> False.
Proof. apply ranges_disjoint; vm_compute; reflexivity. Qed.

(** No address is both public and private: whatever the address, [IsPublicAddr] and [IsPrivateAddr] do not both hold. *)
Theorem public_not_private a : IsPublicAddr a && IsPrivateAddr a = false.
Proof.
  induction a as [|c a IH]; [done|]. cbn [IsPublicAddr IsPrivateAddr].
  destruct (protoCode c =? P_IP6ZONE); [done|]. destruct (protoCode c =? P_IP4).
  { destruct (inAddrRange (rawOf c) Private4); [done|by rewrite andb_false_r]. }
  destruct (protoCode c =? P_IP6).
  { destruct (inAddrRange (rawOf c) Private6) eqn:P; [|by rewrite andb_false_r]. rewrite andb_true_r.
    destruct (inAddrRange (rawOf c) globalUnicast) eqn:G; [by destruct (global_not_private _ G P)|]. simpl.
    destruct (inAddrRange (rawOf c) nat64) eqn:N; [by destruct (nat64_not_private _ N P)|done]. }
  destruct (isDNS (protoCode c)); [|done]. destruct (isSubdomain _ localHostDomain); [done|by rewrite andb_false_r].
Qed.
