(* ===== verification/Madns.v ===== *)
(** * DNS multiaddrs (go-multiaddr-dns/resolve.go, util.go; swarm.go ResolveDNSAddr; core/peer/addrinfo.go)

    [Resolve] replaces the first DNS component of an address by what a resolver
    answers for it; [ResolveDNSAddr] follows the /dnsaddr records that it finds, up to
    a depth and within a limit.  The lookups are parameters (the network), as is
    [Fqdn] of the DNS library. *)
From Stdlib Require Import ZArith Lia.
From stdpp Require Import base tactics list numbers option gmap sets sorting strings.
From S2P Require Import Prelude Collections GoBytes Varint MaProtocol MaComponent MaCodec MaOps GoNet MaProtocols Manet.
Local Open Scope Z_scope.
Local Open Scope outcome_scope.

Definition maxResolvedAddrs : nat := 100.
Definition dnsaddrTXTPrefix : bytes := lit "dnsaddr=".
(** The lookups of a resolver; [None] is an error. *)
Record BasicResolver := mkBasic { LookupIPAddr : bytes -> option (list bytes); LookupTXT : bytes -> option (list bytes) }.
Record Resolver := mkResolver { def : BasicResolver; custom : gmap bytes BasicResolver }.
Inductive dnsErr := ELookup | EAddr (e : ma_error).

Definition dnsComponent (c : Component) : bool := isDNS (protoCode c).
Definition Matches (m : Multiaddr) : bool := existsb dnsComponent m.
Definition addrLen (m : Multiaddr) : nat := length m.
Fixpoint offset (m : Multiaddr) (n : nat) : Multiaddr :=
  match m, n with
  | [], _ => []
  | _, O => m
  | _ :: m, S n => offset m n
  end.

(** ** Peer IDs in addresses *)
Definition IDFromP2PAddr (m : Multiaddr) : option bytes :=
  c ← last m; if protoCode c =? P_P2P then Some (rawOf c) else None.

Section madns.
Context `{V : Varint} (r : registry) (Fqdn : bytes -> bytes).
Definition WithDomainResolver (rs : Resolver) (domain : bytes) (rslv : BasicResolver) : Resolver :=
  mkResolver (def rs) (<[Fqdn domain := rslv]> (custom rs)).
(** The loop over the parent domains: what follows each dot *)
Fixpoint parentResolver (custom : gmap bytes BasicResolver) (fqdn : bytes) : option BasicResolver :=
  match fqdn with
  | [] => None
  | c :: fqdn =>
      if bool_decide (c = dot) then
        match fqdn with
        | [] => None
        | _ => match custom !! fqdn with Some rslv => Some rslv | None => parentResolver custom fqdn end
        end
      else parentResolver custom fqdn
  end.
Definition getResolver (rs : Resolver) (domain : bytes) : BasicResolver :=
  let fqdn := Fqdn domain in
  match custom rs !! fqdn with
  | Some rslv => rslv
  | None => default (def rs) (parentResolver (custom rs) fqdn)
  end.

Definition parsed (s : bytes) : outcome dnsErr Multiaddr :=
  match NewMultiaddr r s with Ok m => Ok m | Err e => Err (EAddr e) | Panic => Panic | OutOfFuel => OutOfFuel end.
Definition ip4Text (ip4 : bytes) : bytes := lit "/ip4/" ++ IP_String ip4.
Definition ip6Text (ip : bytes) : bytes := lit "/ip6/" ++ IP_String ip.
(** The records of an A or AAAA lookup *)
Fixpoint ipLoop (v4only v6only : bool) (records : list bytes) : outcome dnsErr (list Multiaddr) :=
  match records with
  | [] => Ok []
  | ip :: records =>
      match To4 ip with
      | None => if v4only then ipLoop v4only v6only records
                else let! rmaddr := parsed (ip6Text ip) in let! resolved := ipLoop v4only v6only records in Ok (rmaddr :: resolved)
      | Some ip4 => if v6only then ipLoop v4only v6only records
                    else let! rmaddr := parsed (ip4Text ip4) in let! resolved := ipLoop v4only v6only records in Ok (rmaddr :: resolved)
      end
  end.
(** A TXT record: the address without the suffix [postDNS], if it is a dnsaddr record that ends with it *)
Definition stripSuffix (postDNS rmaddr : Multiaddr) : option Multiaddr :=
  match postDNS with
  | [] => Some rmaddr
  | _ =>
      if (addrLen rmaddr <? addrLen postDNS)%nat then None
      else if negb (Equal postDNS (offset rmaddr (addrLen rmaddr - addrLen postDNS))) then None
      else Some (Decapsulate rmaddr (Some postDNS))
  end.
Fixpoint txtLoop (postDNS : Multiaddr) (records : list bytes) : outcome dnsErr (list Multiaddr) :=
  match records with
  | [] => Ok []
  | t :: records =>
      if negb (bool_decide (dnsaddrTXTPrefix `prefix_of` t)) then txtLoop postDNS records
      else
        match NewMultiaddr r (drop (length dnsaddrTXTPrefix) t) with
        | Ok rmaddr =>
            match stripSuffix postDNS rmaddr with
            | None | Some [] => txtLoop postDNS records
            | Some x => let! resolved := txtLoop postDNS records in Ok (x :: resolved)
            end
        | Err _ => txtLoop postDNS records
        | Panic => Panic
        | OutOfFuel => OutOfFuel
        end
  end.
(** What a DNS component resolves to *)
Definition lookupComponent (rs : Resolver) (resolve : Component) (postDNS : Multiaddr) : outcome dnsErr (list Multiaddr) :=
  let code := protoCode resolve in
  let value := valueOf resolve in
  let rslv := getResolver rs value in
  if (code =? P_DNS4) || (code =? P_DNS6) || (code =? P_DNS) then
    match LookupIPAddr rslv value with
    | None => Err ELookup
    | Some records => ipLoop (code =? P_DNS4) (code =? P_DNS6) records
    end
  else if code =? P_DNSADDR then
    match LookupTXT rslv (lit "_dnsaddr." ++ value) with
    | None => Err ELookup
    | Some records => txtLoop postDNS records
    end
  else Panic.
Definition Resolve (rs : Resolver) (maddr : Multiaddr) : outcome dnsErr (list Multiaddr) :=
  match maddr with
  | [] => Ok []
  | _ =>
      let '(preDNS, maddr) := SplitFunc maddr dnsComponent in
      match SplitFirst maddr with
      | (None, _) => Ok [preDNS]
      | (Some resolve, postDNS) =>
          let! resolved := lookupComponent rs resolve postDNS in
          let resolved := if (maxResolvedAddrs <? length resolved)%nat then take maxResolvedAddrs resolved else resolved in
          let resolved := match preDNS with [] => resolved | _ => (fun m => Encapsulate preDNS (Some m)) <$> resolved end in
          let resolved := match postDNS with [] => resolved | _ => (fun m => Encapsulate m (Some postDNS)) <$> resolved end in
          Ok resolved
      end
  end.

(** ** Following /dnsaddr records *)
Definition startsWithDNSADDR (m : Multiaddr) : bool := match m with c :: _ => protoCode c =? P_DNSADDR | [] => false end.
Definition cut (limit : Z) (l : list Multiaddr) : list Multiaddr := if limit <? Z.of_nat (length l) then take (Z.to_nat limit) l else l.
(** The loop over the addresses to resolve further; [next] is the recursive call *)
Fixpoint followLoop (next : Multiaddr -> Z -> outcome dnsErr (list Multiaddr)) (outputLimit : Z) (toResolve resolved : list Multiaddr)
    : outcome dnsErr (list Multiaddr) :=
  match toResolve with
  | [] => Ok resolved
  | addr :: rest =>
      let nextOutputLimit := outputLimit - Z.of_nat (length resolved) - Z.of_nat (length toResolve) + 1 in
      match next addr nextOutputLimit with
      | Ok resolvedAddrs => followLoop next outputLimit rest (resolved ++ resolvedAddrs)
      | Err _ => followLoop next outputLimit rest resolved
      | Panic => Panic
      | OutOfFuel => OutOfFuel
      end
  end.
Definition peerMatches (expectedPeerID : bytes) (a : Multiaddr) : bool :=
  match IDFromP2PAddr a with None => true | Some id => bool_decide (id = expectedPeerID) end.
Fixpoint ResolveDNSAddr (rs : Resolver) (expectedPeerID : bytes) (recursionLimit : nat) (maddr : Multiaddr) (outputLimit : Z)
    : outcome dnsErr (list Multiaddr) :=
  if outputLimit <=? 0 then Ok []
  else
    match recursionLimit with
    | O => Ok [maddr]
    | S recursionLimit =>
        let! addrs := Resolve rs maddr in
        let addrs := cut outputLimit addrs in
        let toResolve := filter (fun a => startsWithDNSADDR a = true) addrs in
        let resolved := filter (fun a => startsWithDNSADDR a = false) addrs in
        let! resolved := followLoop (ResolveDNSAddr rs expectedPeerID recursionLimit) outputLimit toResolve resolved in
        let resolved := cut outputLimit resolved in
        Ok (if bool_decide (expectedPeerID = []) then resolved else filter (fun a => peerMatches expectedPeerID a = true) resolved)
    end.
Definition ResolveDNSComponent (rs : Resolver) (maddr : Multiaddr) (outputLimit : Z) : outcome dnsErr (list Multiaddr) :=
  let! addrs := Resolve rs maddr in Ok (cut outputLimit addrs).
End madns.

(** ** Records and results *)
Lemma offset_drop m n : offset m n = drop n m.
Proof. revert n. induction m as [|c m IH]; intros [|n]; simpl; auto. Qed.
Lemma stripSuffix_ok post rm x : stripSuffix post rm = Some x -> c_bytes <$> rm = c_bytes <$> (x ++ post).
Proof.
  unfold stripSuffix. destruct post as [|c0 post0]; [intros [= ->]; by rewrite app_nil_r|]. set (post := c0 :: post0). unfold addrLen.
  destruct (_ <? _)%nat eqn:Hl; [done|]. apply Nat.ltb_ge in Hl. rewrite offset_drop. set (i0 := (length rm - length post)%nat) in *.
  destruct (Equal post (drop i0 rm)) eqn:He; [|done]. intros [= <-].
  change (c_bytes <$> rm = c_bytes <$> (Decapsulate rm (Some post) ++ post)).
  assert (Hocc : occursAt rm post i0) by by (exists (drop i0 rm); split).
  destruct (Decapsulate_spec rm post ltac:(done)) as [[[Hno _]|(i & Hi & Hlast & ->)] _]; [by destruct (Hno i0)|].
  pose proof (occursAt_length _ _ _ Hi ltac:(done)). assert (i = i0) as ->.
  { destruct (decide (i < i0)%nat) as [Hlt|]; [by destruct (Hlast i0 Hlt)|]. unfold i0 in *. lia. }
  apply Equal_spec in He. rewrite fmap_app, He, <-fmap_app. by rewrite take_drop.
Qed.
Lemma stripSuffix_complete post rm x : x <> [] -> c_bytes <$> rm = c_bytes <$> (x ++ post) ->
  exists x', stripSuffix post rm = Some x' /\ c_bytes <$> x' = c_bytes <$> x.
Proof.
  intros Hx E. assert (G : exists x', stripSuffix post rm = Some x').
  { unfold stripSuffix. destruct post as [|c0 post0]; [by eexists|]. set (post := c0 :: post0) in *. unfold addrLen.
    pose proof (f_equal length E) as L. rewrite !length_fmap, length_app in L. destruct (_ <? _)%nat eqn:Hl; [apply Nat.ltb_lt in Hl; lia|].
    rewrite offset_drop. assert (Equal post (drop (length rm - length post) rm) = true) as ->; [|by eexists].
    apply Equal_spec. rewrite fmap_drop, E, <-fmap_drop. replace (length rm - length post)%nat with (length x) by lia. by rewrite drop_app_length. }
  destruct G as [x' H]. exists x'. split; [done|]. apply stripSuffix_ok in H. rewrite E, !fmap_app in H. by apply app_inv_tail in H.
Qed.

Section laws.
Context `{V : Varint} (r : registry) (Fqdn : bytes -> bytes).
Definition ipAnswer (v4only v6only : bool) (records : list bytes) (x : Multiaddr) : Prop :=
  exists ip, ip ∈ records /\ ((To4 ip = None /\ v4only = false /\ NewMultiaddr r (ip6Text ip) = Ok x) \/
    (exists ip4, To4 ip = Some ip4 /\ v6only = false /\ NewMultiaddr r (ip4Text ip4) = Ok x)).
Definition txtAnswer (post : Multiaddr) (records : list bytes) (x : Multiaddr) : Prop :=
  x <> [] /\ exists s rec, dnsaddrTXTPrefix ++ s ∈ records /\ NewMultiaddr r s = Ok rec /\ c_bytes <$> rec = c_bytes <$> (x ++ post).

Lemma parsed_ok s m : parsed r s = Ok m <-> NewMultiaddr r s = Ok m.
Proof. unfold parsed. destruct (NewMultiaddr r s); naive_solver. Qed.
Lemma ipLoop_ok v4 v6 recs l : ipLoop r v4 v6 recs = Ok l -> forall x, x ∈ l <-> ipAnswer v4 v6 recs x.
Proof.
  assert (Hcons : forall ip recs x, ipAnswer v4 v6 (ip :: recs) x <-> ipAnswer v4 v6 [ip] x \/ ipAnswer v4 v6 recs x).
  { intros. unfold ipAnswer. setoid_rewrite elem_of_cons. setoid_rewrite elem_of_nil. naive_solver. }
  revert l. induction recs as [|ip recs IH]; intros l.
  { intros [= <-] x. split; [by intros ?%elem_of_nil|by intros (ip & ?%elem_of_nil & _)]. }
  simpl. intros H x. rewrite Hcons. assert (H1 : ipAnswer v4 v6 [ip] x <-> (To4 ip = None /\ v4 = false /\ NewMultiaddr r (ip6Text ip) = Ok x) \/
    (exists ip4, To4 ip = Some ip4 /\ v6 = false /\ NewMultiaddr r (ip4Text ip4) = Ok x)).
  { unfold ipAnswer. setoid_rewrite list_elem_of_singleton. naive_solver. }
  rewrite H1. destruct (To4 ip) as [ip4|]; [destruct v6|destruct v4].
  - rewrite (IH l H). naive_solver.
  - destruct (parsed r _) as [m| | |] eqn:P in H; try done. simpl in H. destruct (ipLoop _ _ _ _) as [l'| | |]; try done. injection H as <-.
    apply parsed_ok in P. rewrite elem_of_cons, (IH l' eq_refl). split.
    + intros [->|?]; [left; right; by exists ip4|by right].
    + intros [[[? _]|(ip4' & [= <-] & _ & E)]|?]; [done|left; congruence|by right].
  - rewrite (IH l H). naive_solver.
  - destruct (parsed r _) as [m| | |] eqn:P in H; try done. simpl in H. destruct (ipLoop _ _ _ _) as [l'| | |]; try done. injection H as <-.
    apply parsed_ok in P. rewrite elem_of_cons, (IH l' eq_refl). split.
    + intros [->|?]; [by left; left|by right].
    + intros [[(_ & _ & E)|(? & ? & _)]|?]; [left; congruence|done|by right].
Qed.

(** The results of the TXT records are their answers, up to the identity of components with the same bytes. *)
Lemma txtLoop_sound post recs l x : txtLoop r post recs = Ok l -> x ∈ l -> txtAnswer post recs x.
Proof.
  revert l. induction recs as [|t recs IH]; intros l; [by intros [= <-] ?%elem_of_nil|].
  assert (Hrest : txtAnswer post recs x -> txtAnswer post (t :: recs) x) by (intros (? & s & rec & ? & ?); split; [done|]; exists s, rec; set_solver).
  cbn [txtLoop]. case_bool_decide as Hp; cbn [negb]; [|intros; eauto]. destruct Hp as [s ->]. rewrite drop_app_length.
  destruct (NewMultiaddr r s) as [rm| | |] eqn:En; try done; [|eauto]. destruct (stripSuffix post rm) as [[|c x']|] eqn:Es; [eauto| |eauto].
  destruct (txtLoop r post recs) as [l'| | |]; try done. intros [= <-] [->|Hx]%elem_of_cons; [|eauto]. split; [done|]. exists s, rm.
  split; [left|]. split; [done|]. by apply stripSuffix_ok.
Qed.
Lemma txtLoop_complete post recs l x : txtLoop r post recs = Ok l -> txtAnswer post recs x -> exists x', x' ∈ l /\ c_bytes <$> x' = c_bytes <$> x.
Proof.
  intros H (Hx & s & rec & Hin & En & Eb). revert l H. induction recs as [|t recs IH]; [by apply elem_of_nil in Hin|]. intros l.
  cbn [txtLoop]. apply elem_of_cons in Hin as [<-|Hin].
  - rewrite bool_decide_true by by eexists. cbn [negb]. rewrite drop_app_length, En.
    destruct (stripSuffix_complete post rec x Hx Eb) as (x' & -> & Ex). destruct x' as [|c x']; [by destruct x|].
    destruct (txtLoop r post recs) as [l'| | |]; try done. intros [= <-]. exists (c :: x'). split; [left|done].
  - case_bool_decide as Hp; cbn [negb]; [|by apply IH]. destruct (NewMultiaddr r (drop (length dnsaddrTXTPrefix) t)) as [rm| | |]; [|by apply IH|done..].
    destruct (stripSuffix post rm) as [[|c x']|]; [by apply IH| |by apply IH].
    destruct (txtLoop r post recs) as [l'| | |] eqn:El; try done. intros [= <-]. destruct (IH Hin l' eq_refl) as (y & Hy & ?). exists y. set_solver.
Qed.

(** What the network answers for the component [c] before [post] *)
Definition answers (rs : Resolver) (c : Component) (post x : Multiaddr) : Prop :=
  let rslv := getResolver Fqdn rs (valueOf c) in
  if protoCode c =? P_DNSADDR then exists records, LookupTXT rslv (lit "_dnsaddr." ++ valueOf c) = Some records /\ txtAnswer post records x
  else exists records, LookupIPAddr rslv (valueOf c) = Some records /\ ipAnswer (protoCode c =? P_DNS4) (protoCode c =? P_DNS6) records x.
Lemma lookupComponent_ok rs c post l : dnsComponent c = true -> lookupComponent r Fqdn rs c post = Ok l ->
  (forall x, x ∈ l -> answers rs c post x) /\ (forall x, answers rs c post x -> exists x', x' ∈ l /\ c_bytes <$> x' = c_bytes <$> x).
Proof.
  intros Hc. unfold lookupComponent, answers. destruct ((protoCode c =? P_DNS4) || _ || _) eqn:Hd.
  - replace (protoCode c =? P_DNSADDR) with false by (unfold P_DNS4, P_DNS6, P_DNS, P_DNSADDR in *; lia).
    destruct (LookupIPAddr _ _) as [recs|]; [|done]. intros H. pose proof (ipLoop_ok _ _ _ _ H) as G.
    split; [intros x Hx; exists recs; split; [done|]; by apply G|]. intros x (recs' & [= <-] & Hx). exists x. split; [by apply G|done].
  - unfold dnsComponent, isDNS in Hc. assert (protoCode c =? P_DNSADDR = true) as -> by (unfold P_DNS4, P_DNS6, P_DNS, P_DNSADDR in *; lia).
    destruct (LookupTXT _ _) as [recs|]; [|done]. intros H. split; [intros x Hx; exists recs; split; [done|]; by eapply txtLoop_sound|].
    intros x (recs' & [= <-] & Hx). by eapply txtLoop_complete.
Qed.

(** Resolving replaces the first DNS component by the answers of the network.  An address without one resolves to
    itself.  Otherwise at most 100 addresses come back, each of them the old address with the component replaced by an
    answer: for /dns4 and /dns6 an IP address of that family, for /dnsaddr the rest of a TXT record that ends with what
    follows the component.  If there are fewer than 100, every answer is among them. *)
Theorem resolve_matches_records rs m l : Resolve r Fqdn rs m = Ok l -> m <> [] ->
  (Matches m = false -> l = [m]) /\
  (forall pre c post, m = pre ++ c :: post -> Matches pre = false -> dnsComponent c = true ->
    (length l <= maxResolvedAddrs)%nat /\
    (forall a, a ∈ l -> exists x, a = pre ++ x ++ post /\ answers rs c post x) /\
    ((length l < maxResolvedAddrs)%nat -> forall x, answers rs c post x -> Contains l (pre ++ x ++ post) = true)).
Proof.
  intros H Hm. assert (Hno : forall l0, Matches l0 = false <-> Forall (fun c => dnsComponent c = false) l0).
  { intros l0. unfold Matches. induction l0 as [|c l0 IH]; simpl; [done|]. rewrite orb_false_iff, Forall_cons, IH. done. }
  assert (Hsplit : forall pre c post, Matches pre = false -> dnsComponent c = true -> SplitFunc (pre ++ c :: post) dnsComponent = (pre, c :: post)).
  { intros pre c post Hp Hc. unfold SplitFunc. assert (splitIndex dnsComponent (pre ++ c :: post) = length pre) as ->; [|by rewrite take_app_length, drop_app_length].
    apply Hno in Hp. induction Hp as [|c' pre Hc' _ IH]; simpl; [by rewrite Hc|]. by rewrite Hc', IH. }
  assert (Hall : Matches m = false -> SplitFunc m dnsComponent = (m, [])).
  { intros Hp. unfold SplitFunc. assert (splitIndex dnsComponent m = length m) as ->; [|by rewrite firstn_all, drop_all].
    apply Hno in Hp. clear -Hp. induction Hp as [|c' pre Hc' _ IH]; simpl; [done|]. by rewrite Hc', IH. }
  unfold Resolve in H. destruct m as [|m0 ms] eqn:Em; [done|]. rewrite <-Em in *. split.
  { intros Hp. rewrite (Hall Hp) in H. by injection H as <-. }
  intros pre c post -> Hp Hc. rewrite (Hsplit pre c post Hp Hc) in H. simpl in H.
  destruct (lookupComponent r Fqdn rs c post) as [res| | |] eqn:El; try done. simpl in H. destruct (lookupComponent_ok rs c post res Hc El) as [L1 L2].
  set (res' := if (maxResolvedAddrs <? length res)%nat then take maxResolvedAddrs res else res) in *.
  assert (Hl : l = (fun x => pre ++ x ++ post) <$> res').
  { injection H as <-. destruct pre as [|p0 pre], post as [|q0 post]; rewrite <-?list_fmap_compose.
    - induction res' as [|x res' IH]; [done|]. rewrite fmap_cons, <-IH. by rewrite app_nil_l, app_nil_r.
    - apply list_fmap_ext. intros _ x _. unfold compose. by rewrite !Encapsulate_app.
    - apply list_fmap_ext. intros _ x _. unfold compose. by rewrite !Encapsulate_app, app_nil_r.
    - apply list_fmap_ext. intros _ x _. unfold compose. by rewrite !Encapsulate_app, app_assoc. }
  assert (Hr : (length res' <= maxResolvedAddrs)%nat /\ (forall x, x ∈ res' -> x ∈ res) /\ ((length res' < maxResolvedAddrs)%nat -> res' = res)).
  { unfold res'. destruct (_ <? _)%nat eqn:E; [apply Nat.ltb_lt in E|by apply Nat.ltb_ge in E]. rewrite length_take. split_and!; [lia| |lia].
    intros x Hx. rewrite <-(take_drop maxResolvedAddrs res). apply elem_of_app. by left. }
  destruct Hr as (R1 & R2 & R3). rewrite Hl, length_fmap. split_and!; [done| |].
  - intros a (x & -> & Hx)%list_elem_of_fmap. eauto.
  - intros Hlt x Hx. apply Contains_spec. destruct (L2 x Hx) as (x' & Hx' & Ex). exists (pre ++ x' ++ post).
    split; [apply list_elem_of_fmap; exists x'; by rewrite (R3 Hlt)|]. apply Equal_spec. by rewrite !fmap_app, Ex.
Qed.

Lemma cut_length limit l : Z.of_nat (length (cut limit l)) <= Z.max 0 limit.
Proof. unfold cut. destruct (limit <? _) eqn:E; [rewrite length_take; lia|lia]. Qed.
Lemma ResolveDNSAddr_ok rs p n m limit l : ResolveDNSAddr r Fqdn rs p n m limit = Ok l ->
  Z.of_nat (length l) <= Z.max 0 limit /\ (p <> [] -> (0 < n)%nat -> Forall (fun a => IDFromP2PAddr a = None \/ IDFromP2PAddr a = Some p) l).
Proof.
  destruct n as [|n]; cbn [ResolveDNSAddr]; (destruct (limit <=? 0) eqn:E; [intros [= <-]; split; [simpl; lia|by constructor]|]).
  { intros [= <-]. split; [simpl; lia|lia]. }
  destruct (Resolve r Fqdn rs m) as [addrs| | |]; try done. cbn [obind]. destruct (followLoop _ _ _ _) as [res| | |]; try done. cbn [obind]. intros [= <-].
  pose proof (cut_length limit res). case_bool_decide as Hp; [done|]. split.
  - pose proof (length_filter (fun a => peerMatches p a = true) (cut limit res)). lia.
  - intros _ _. apply Forall_forall. intros a [Ha _]%list_elem_of_filter. unfold peerMatches in Ha.
    destruct (IDFromP2PAddr a); [right|by left]. by apply bool_decide_eq_true in Ha as ->.
Qed.

(** Following /dnsaddr records is bounded.  [ResolveDNSAddr] returns no more addresses than it is asked for, and if it
    follows records for a given peer, none that names another peer. *)
Theorem resolve_dnsaddr_bounded rs p n m limit l : ResolveDNSAddr r Fqdn rs p n m limit = Ok l ->
  Z.of_nat (length l) <= Z.max 0 limit /\ (p <> [] -> (0 < n)%nat -> Forall (fun a => IDFromP2PAddr a = None \/ IDFromP2PAddr a = Some p) l).
Proof. apply ResolveDNSAddr_ok. Qed.
End laws.

Module DnsExample.
#[export] Instance varint : Varint := unsignedVarint.
#[export] Instance formats : Transcoders.Multiformats := TranscoderLaws.hexMultiformats.
#[export] Instance runtime : Transcoders.Runtime := {| Transcoders.unicodeToUpper s := s; Transcoders.sliceCap n := n |}.
Definition address (s : bytes) : Multiaddr := match NewMultiaddr standard s with Ok m => m | _ => [] end.
(** Domains are taken as they are written. *)
Definition fqdn (s : bytes) : bytes := s ++ [dot].
Definition basic : BasicResolver := mkBasic (fun _ => None) (fun txt =>
  if bool_decide (txt = lit "_dnsaddr.a.b") then Some [lit "dnsaddr=/ip4/1.2.3.4/tcp/1"; lit "v=1"; lit "dnsaddr=/ip4/1.2.3.4/udp/1"; lit "dnsaddr=/dnsaddr/c/tcp/1"]
  else if bool_decide (txt = lit "_dnsaddr.c") then Some [lit "dnsaddr=/ip4/5.6.7.8/tcp/1"] else None).
Definition resolver0 : Resolver := WithDomainResolver fqdn (mkResolver (mkBasic (fun _ => None) (fun _ => Some [])) ∅) (lit "b") basic.
Definition resolver1 : Resolver := WithDomainResolver fqdn resolver0 (lit "c") basic.
Definition question : Multiaddr := address (lit "/dnsaddr/a.b/tcp/1").
Definition once : outcome dnsErr (list Multiaddr) := Resolve standard fqdn resolver1 question.
Definition followed : outcome dnsErr (list Multiaddr) := ResolveDNSAddr standard fqdn resolver1 [] 4 question 100.
End DnsExample.
Import DnsExample.
Lemma followed_addresses : (match followed with Ok l => String <$> l | _ => [] end) = [Ok (lit "/ip4/1.2.3.4/tcp/1"); Ok (lit "/ip4/5.6.7.8/tcp/1")].
Proof. by vm_compute. Qed.

(** Two of four records match, and one of them is followed. *)
Lemma resolve_matches_records_witness : exists l, once = Ok l /\ length l = 2%nat /\ (Matches question = false -> l = [question]).
Proof.
  destruct (isOk_inv once) as [l H]; [vm_compute; reflexivity|]. exists l. split; [exact H|]. split.
  - assert (E : match once with Ok l => length l | _ => O end = 2%nat) by (vm_compute; reflexivity). rewrite H in E. exact E.
  - unfold once in H. destruct (resolve_matches_records standard fqdn resolver1 question l H) as [R _]; [|exact R]. intros E.
    assert (L : length question = 2%nat) by (vm_compute; reflexivity). rewrite E in L. discriminate L.
Defined.
Lemma resolve_dnsaddr_bounded_witness : exists l, followed = Ok l /\ Z.of_nat (length l) <= 100.
Proof.
  destruct (isOk_inv followed) as [l H]; [vm_compute; reflexivity|]. exists l. split; [exact H|]. unfold followed in H.
  exact (proj1 (resolve_dnsaddr_bounded standard fqdn resolver1 [] 4 question 100 l H)).
Defined.
