(* ===== verification/Reachability.v ===== *)
(** * Tracking the reachability of addresses (p2p/host/basic/addrs_reachability_tracker.go)

    The tracker asks peers to dial our public addresses and keeps the outcomes.
    [probeManager] decides which address needs a probe; the workers of
    [refreshReachability] run probes until none is needed; [background] starts
    them, publishes the confirmed addresses and tells when they change.

    Times are nanoseconds, [None] is the zero time.  A probe is the list of the
    addresses of its requests, as [SendDialData] is always set.  What the code
    does under one lock is one step, so that the steps of workers interleave in
    any order; the answers of the client are part of the steps. *)
From Stdlib Require Import ZArith Lia.
From stdpp Require Import base tactics list numbers option gmap sets fin_maps sorting.
From S2P Require Import Prelude Collections GoBytes MaProtocol MaComponent MaCodec MaOps Manet.
Local Open Scope Z_scope.

Definition Minute : Z := 60 * Second.
Definition maxAddrsPerRequest : Z := 10.
Definition maxTrackedAddrs : nat := 50.
Definition defaultMaxConcurrency : nat := 5.
Definition newAddrsProbeDelay : Z := 1 * Second.
Definition maxBackoffInterval : Z := 5 * Minute.
Definition backoffStartInterval : Z := 5 * Second.
Definition maxConsecutiveErrors : Z := 20.
Definition recentProbeInterval : Z := 10 * Minute.
Definition maxConsecutiveRefusals : Z := 5.
Definition maxRecentDialsPerAddr : Z := 10.
Definition targetConfidence : Z := 3.
Definition minConfidence : Z := 2.
Definition maxRecentDialsWindow : Z := targetConfidence + 2.
Definition highConfidenceAddrProbeInterval : Z := 60 * Minute.
Definition maxProbeResultTTL : Z := maxRecentDialsWindow * highConfidenceAddrProbeInterval.

Inductive Reachability := ReachabilityUnknown | ReachabilityPublic | ReachabilityPrivate.
#[export] Instance Reachability_dec : EqDecision Reachability.
Proof. solve_decision. Defined.

(** ** The status of an address *)
Record dialOutcome := mkOutcome { Success : bool; At : Z }.
Record addrStatus := mkStatus {
  st_Addr : Multiaddr;
  lastRefusalTime : option Z;
  consecutiveRefusals : Z;
  dialTimes : list Z;
  outcomes : list dialOutcome }.
Definition newStatus (addr : Multiaddr) : addrStatus := mkStatus addr None 0 [] [].
Definition set_outcomes (s : addrStatus) (o : list dialOutcome) : addrStatus :=
  mkStatus (st_Addr s) (lastRefusalTime s) (consecutiveRefusals s) (dialTimes s) o.

Fixpoint countOutcomes (l : list dialOutcome) (successes failures : Z) : Z * Z :=
  match l with
  | [] => (successes, failures)
  | r :: l => if Success r then countOutcomes l (successes + 1) failures else countOutcomes l successes (failures + 1)
  end.
Definition reachabilityAndCounts (s : addrStatus) : Reachability * Z * Z :=
  let '(successes, failures) := countOutcomes (outcomes s) 0 0 in
  if minConfidence <=? successes - failures then (ReachabilityPublic, successes, failures)
  else if minConfidence <=? failures - successes then (ReachabilityPrivate, successes, failures)
  else (ReachabilityUnknown, successes, failures).
Definition reachabilityOf (s : addrStatus) : Reachability := (reachabilityAndCounts s).1.1.

(** [slices.Backward(s.dialTimes)]: the loop gets the reversed list. *)
Fixpoint recentLoop (now : Z) (l : list Z) (cnt : Z) : Z :=
  match l with
  | [] => cnt
  | t :: l => if recentProbeInterval <? now - t then cnt else recentLoop now l (cnt + 1)
  end.
Definition recentDialCount (s : addrStatus) (now : Z) : Z := recentLoop now (reverse (dialTimes s)) 0.

Fixpoint dropBefore (t : Z) (l : list dialOutcome) : list dialOutcome :=
  match l with
  | [] => []
  | o :: l' => if At o <? t then dropBefore t l' else l
  end.
Definition RemoveBefore (s : addrStatus) (t : Z) : addrStatus := set_outcomes s (dropBefore t (outcomes s)).

Definition requiredProbeCountForConfirmation (s : addrStatus) (now : Z) : Z :=
  let '(reachability, successes, failures) := reachabilityAndCounts s in
  let confidence := successes - failures in
  let confidence := if confidence <? 0 then - confidence else confidence in
  let cnt := targetConfidence - confidence in
  if 0 <? cnt then cnt else
  match last (outcomes s) with
  | None => 0
  | Some lastOutcome =>
      if highConfidenceAddrProbeInterval <? now - At lastOutcome then 1 else
      match reachability with
      | ReachabilityPublic => if negb (Success lastOutcome) then 1 else 0
      | ReachabilityPrivate => if Success lastOutcome then 1 else 0
      | ReachabilityUnknown => 1
      end
  end.

(** [now.Sub(s.lastRefusalTime) < recentProbeInterval]; the distance to the zero time is the largest duration. *)
Definition refusedRecently (s : addrStatus) (now : Z) : bool :=
  match lastRefusalTime s with Some t => now - t <? recentProbeInterval | None => false end.
(** The count, and the status after the reset *)
Definition RequiredProbeCount (s : addrStatus) (now : Z) : Z * addrStatus :=
  if (maxConsecutiveRefusals <=? consecutiveRefusals s) && refusedRecently s now then (0, s) else
  let s := if maxConsecutiveRefusals <=? consecutiveRefusals s then mkStatus (st_Addr s) None 0 (dialTimes s) (outcomes s) else s in
  if maxRecentDialsPerAddr <=? recentDialCount s now then (0, s)
  else (requiredProbeCountForConfirmation s now, s).

Definition AddRefusal (s : addrStatus) (now : Z) : addrStatus :=
  mkStatus (st_Addr s) (Some now) (consecutiveRefusals s + 1) (dialTimes s) (outcomes s).
(** The loop over the dial times: the list from the first recent one on *)
Fixpoint fromRecent (at_ : Z) (l : list Z) : option (list Z) :=
  match l with
  | [] => None
  | t :: l' => if at_ - t <? recentProbeInterval then Some l else fromRecent at_ l'
  end.
Definition AddOutcome (s : addrStatus) (at_ : Z) (rch : Reachability) (windowSize : Z) : addrStatus :=
  let times := dialTimes s ++ [at_] in
  let s := mkStatus (st_Addr s) None 0 (default times (fromRecent at_ times)) (outcomes s) in
  let s := RemoveBefore s (at_ - maxProbeResultTTL) in
  match rch with
  | ReachabilityUnknown => s
  | _ =>
      let o := outcomes s ++ [mkOutcome (bool_decide (rch = ReachabilityPublic)) at_] in
      set_outcomes s (if windowSize <? Z.of_nat (length o) then drop (length o - Z.to_nat windowSize) o else o)
  end.

(** ** The probe manager *)
Notation probe := (list Multiaddr) (only parsing).
Record probeManager := mkPM {
  inProgressProbes : gmap bytes Z;
  inProgressProbesTotal : Z;
  statuses : gmap bytes addrStatus;
  addrs : list Multiaddr }.
Definition newProbeManager : probeManager := mkPM ∅ 0 ∅ [].
Definition set_statuses (m : probeManager) (st : gmap bytes addrStatus) : probeManager :=
  mkPM (inProgressProbes m) (inProgressProbesTotal m) st (addrs m).

(** The answer of the client *)
Record Result := mkResult { res_Addr : Multiaddr; res_Idx : Z; res_Reachability : Reachability; AllAddrsRefused : bool }.

(** An address without a status is a nil pointer: [None] is the panic.
    The clock is read for every address: [now] is the sequence of its readings. *)
Fixpoint confirmLoop (now : nat -> Z) (l : list Multiaddr) (st : gmap bytes addrStatus) (reachable unreachable unknown : list Multiaddr)
    : option (gmap bytes addrStatus * (list Multiaddr * list Multiaddr * list Multiaddr)) :=
  match l with
  | [] => Some (st, (reachable, unreachable, unknown))
  | a :: l =>
      s ← st !! Bytes a;
      let s := RemoveBefore s (now O - maxProbeResultTTL) in
      let now := fun i => now (S i) in
      let st := <[Bytes a := s]> st in
      match reachabilityOf s with
      | ReachabilityPublic => confirmLoop now l st (reachable ++ [a]) unreachable unknown
      | ReachabilityPrivate => confirmLoop now l st reachable (unreachable ++ [a]) unknown
      | ReachabilityUnknown => confirmLoop now l st reachable unreachable (unknown ++ [a])
      end
  end.
Definition AppendConfirmedAddrs (m : probeManager) (now : nat -> Z) (reachable unreachable unknown : list Multiaddr)
    : option (probeManager * (list Multiaddr * list Multiaddr * list Multiaddr)) :=
  '(st, res) ← confirmLoop now (addrs m) (statuses m) reachable unreachable unknown;
  Some (set_statuses m st, res).

Definition keepStatus (old st : gmap bytes addrStatus) (addr : Multiaddr) : gmap bytes addrStatus :=
  <[Bytes addr := default (newStatus addr) (old !! Bytes addr)]> st.
Definition UpdateProbedAddrs `{Sorter} (m : probeManager) (addrs : list Multiaddr) : probeManager :=
  let addrs := SortFunc Compare addrs in
  mkPM (inProgressProbes m) (inProgressProbesTotal m) (fold_left (keepStatus (statuses m)) addrs ∅) addrs.

(** The loop over the other addresses; [js] are the indices. *)
Fixpoint secondaryLoop (now : Z) (i : nat) (ads : list Multiaddr) (js : list nat) (st : gmap bytes addrStatus) (reqs : probe)
    : option (gmap bytes addrStatus * probe) :=
  match js with
  | [] => Some (st, reqs)
  | j :: js =>
      a ← ads !! ((i + j) mod length ads)%nat;
      s ← st !! Bytes a;
      let '(pc, s) := RequiredProbeCount s now in
      let st := <[Bytes a := s]> st in
      if pc =? 0 then secondaryLoop now i ads js st reqs else
      let reqs := reqs ++ [a] in
      if maxAddrsPerRequest <=? Z.of_nat (length reqs) then Some (st, reqs) else secondaryLoop now i ads js st reqs
  end.
(** The loop over the primary addresses, with its index *)
Fixpoint primaryLoop (now : Z) (inProgress : gmap bytes Z) (ads : list Multiaddr) (i : nat) (l : list Multiaddr) (st : gmap bytes addrStatus)
    : option (gmap bytes addrStatus * probe) :=
  match l with
  | [] => Some (st, [])
  | a :: l =>
      s ← st !! Bytes a;
      let '(pc, s) := RequiredProbeCount s now in
      let st := <[Bytes a := s]> st in
      if pc <=? default 0 (inProgress !! Bytes a) then primaryLoop now inProgress ads (S i) l st
      else secondaryLoop now i ads (seq 1 (length ads - 1)) st [a]
  end.
Definition GetProbe (m : probeManager) (now : Z) : option (probeManager * probe) :=
  '(st, reqs) ← primaryLoop now (inProgressProbes m) (addrs m) 0 (addrs m) (statuses m);
  Some (set_statuses m st, reqs).

Definition MarkProbeInProgress (m : probeManager) (reqs : probe) : probeManager :=
  match reqs with
  | [] => m
  | a :: _ => mkPM (<[Bytes a := default 0 (inProgressProbes m !! Bytes a) + 1]> (inProgressProbes m)) (inProgressProbesTotal m + 1) (statuses m) (addrs m)
  end.
Definition onStatus (f : addrStatus -> addrStatus) (k : bytes) (m : probeManager) : probeManager :=
  match statuses m !! k with Some s => set_statuses m (<[k := f s]> (statuses m)) | None => m end.
(** [err] tells whether the error is not nil. *)
Definition CompleteProbe (m : probeManager) (now : Z) (reqs : probe) (res : Result) (err : bool) : probeManager :=
  match reqs with
  | [] => m
  | a :: _ =>
      let k := Bytes a in
      let n := default 0 (inProgressProbes m !! k) - 1 in
      let inProgress := if n <=? 0 then delete k (inProgressProbes m) else <[k := n]> (inProgressProbes m) in
      let m := mkPM inProgress (inProgressProbesTotal m - 1) (statuses m) (addrs m) in
      if err then m else
      if AllAddrsRefused res then onStatus (fun s => AddRefusal s now) k m else
      let d := Bytes (res_Addr res) in
      let m := if bool_decide (d = k) then m else onStatus (fun s => AddRefusal s now) k m in
      onStatus (fun s => AddOutcome s now (res_Reachability res) maxRecentDialsWindow) d m
  end.

(** ** The client that counts errors *)
Inductive clientErr := ErrPrivateAddrs | ErrNoPeers | ErrCanceled | ErrOther.
#[export] Instance clientErr_dec : EqDecision clientErr.
Proof. solve_decision. Defined.
(** An error of the client, and whether it is wrapped in [errTooManyConsecutiveFailures] *)
Record probeErr := mkErr { cause : clientErr; tooManyConsecutiveFailures : bool }.
Definition isErrorPersistent (err : option probeErr) : bool :=
  match err with
  | None => false
  | Some e => bool_decide (cause e = ErrPrivateAddrs) || bool_decide (cause e = ErrNoPeers) || tooManyConsecutiveFailures e
  end.
(** [errCountingClient.GetReachability] after the call: the new counter and the error *)
Definition countErrors (consecutiveErrors : Z) (err : option clientErr) : Z * option probeErr :=
  match err with
  | Some e =>
      if decide (e = ErrCanceled) then (0, Some (mkErr e false)) else
      let c := consecutiveErrors + 1 in (c, Some (mkErr e (maxConsecutiveErrors <? c)))
  | None => (0, None)
  end.

(** ** The workers of a refresh *)
Inductive worker :=
| WTop                                                     (* before the look at the context *)
| WGet                                                     (* before [GetProbe] *)
| WMark (reqs : probe)                                     (* before [MarkProbeInProgress] *)
| WAsk (reqs : probe)                                      (* the client works *)
| WDone (reqs : probe) (res : Result) (err : option probeErr)  (* before [CompleteProbe] *)
| WEnd.
Record refresh := mkRefresh {
  rf_pm : probeManager;
  rf_workers : list worker;
  consecutiveErrors : Z;
  rf_backoff : bool;
  rf_cancelled : bool }.
Definition with_worker (s : refresh) (i : nat) (w : worker) (m : probeManager) : refresh :=
  mkRefresh m (<[i := w]> (rf_workers s)) (consecutiveErrors s) (rf_backoff s) (rf_cancelled s).

(** The steps.  [RCancel] is the end of the context; the client reports a
    cancellation only of a context that has ended, which is the documented meaning
    of [context.Canceled].  The tracker's own calls of [AppendConfirmedAddrs] are
    steps of the tracker below. *)
Inductive rfEvent :=
| RTop (i : nat)
| RGet (i : nat) (now : Z)
| RMark (i : nat)
| RAnswer (i : nat) (res : Result) (err : option clientErr)
| RComplete (i : nat) (now : Z)
| RCancel.
Definition rfStep (s : refresh) (e : rfEvent) : option refresh :=
  match e with
  | RTop i =>
      match rf_workers s !! i with
      | Some WTop => Some (with_worker s i (if rf_cancelled s then WEnd else WGet) (rf_pm s))
      | _ => None
      end
  | RGet i now =>
      match rf_workers s !! i with
      | Some WGet => '(m, reqs) ← GetProbe (rf_pm s) now; Some (with_worker s i (if reqs is [] then WEnd else WMark reqs) m)
      | _ => None
      end
  | RMark i =>
      match rf_workers s !! i with
      | Some (WMark reqs) => Some (with_worker s i (WAsk reqs) (MarkProbeInProgress (rf_pm s) reqs))
      | _ => None
      end
  | RAnswer i res err =>
      match rf_workers s !! i with
      | Some (WAsk reqs) =>
          if bool_decide (err = Some ErrCanceled) && negb (rf_cancelled s) then None else
          let '(c, err) := countErrors (consecutiveErrors s) err in
          Some (mkRefresh (rf_pm s) (<[i := WDone reqs res err]> (rf_workers s)) c (rf_backoff s) (rf_cancelled s))
      | _ => None
      end
  | RComplete i now =>
      match rf_workers s !! i with
      | Some (WDone reqs res err) =>
          let m := CompleteProbe (rf_pm s) now reqs res (bool_decide (is_Some err)) in
          Some (if isErrorPersistent err
                then mkRefresh m (<[i := WEnd]> (rf_workers s)) (consecutiveErrors s) true (rf_cancelled s)
                else with_worker s i WTop m)
      | _ => None
      end
  | RCancel => if rf_cancelled s then None else Some (mkRefresh (rf_pm s) (rf_workers s) (consecutiveErrors s) (rf_backoff s) true)
  end.
Fixpoint rfRun (s : refresh) (es : list rfEvent) : option refresh :=
  match es with [] => Some s | e :: es => s ← rfStep s e; rfRun s es end.
Definition ended (s : refresh) : Prop := Forall (eq WEnd) (rf_workers s).
Definition startRefresh (m : probeManager) (n : nat) : refresh := mkRefresh m (replicate n WTop) 0 false false.

(** ** The tracker *)
Definition newBackoffInterval (current : Z) : Z :=
  if current <=? 0 then backoffStartInterval else
  let current := current * 2 in if maxBackoffInterval <? current then maxBackoffInterval else current.

(** [ma.Unique] sorts and compacts its argument in place: the length of the result and the array it leaves behind *)
Definition uniqueInPlace `{Sorter} (l : list Multiaddr) : nat * list Multiaddr :=
  match l with [] => (O, []) | _ => let l := SortFunc Compare l in compactLoop (seq 1 (length l - 1)) 1 l end.
(** The answer, and what is left of the two arrays *)
Definition areAddrsDifferent `{Sorter} (prev current : list Multiaddr) : bool * list Multiaddr * list Multiaddr :=
  let '(i, prevA) := uniqueInPlace prev in
  let '(j, currentA) := uniqueInPlace current in
  if negb (i =? j)%nat then (true, prevA, currentA) else
  let prev := SortFunc Compare (take i prevA) in
  let current := SortFunc Compare (take j currentA) in
  (negb (forallb (fun ab => Equal ab.1 ab.2) (zip prev current)), prev ++ drop i prevA, current ++ drop j currentA).

Definition addrLists : Type := list Multiaddr * list Multiaddr * list Multiaddr.
Record tracker := mkTracker {
  tr_run : refresh;                (* the manager, and the workers of the task *)
  tr_task : bool;                  (* [task.BackoffCh != nil] *)
  nextProbeTime : option Z;
  backoffInterval : Z;
  tr_published : addrLists;        (* [reachableAddrs], [unreachableAddrs], [unknownAddrs] *)
  tr_prev : addrLists;
  tr_notified : nat;               (* calls of [notify] *)
  tr_draining : option (option (list Multiaddr));  (* waiting for a cancelled task, before new addresses or the end *)
  tr_closed : bool }.
Definition noTask (m : probeManager) : refresh := mkRefresh m [] 0 false false.
Definition newTracker : tracker := mkTracker (noTask newProbeManager) false None 0 ([], [], []) ([], [], []) 0 None false.

Definition updateTrackedAddrs `{Sorter} (m : probeManager) (l : list Multiaddr) : probeManager :=
  UpdateProbedAddrs m (take maxTrackedAddrs (filter (fun a => IsPublicAddr a = true) l)).

Definition with_task (t : tracker) (r : refresh) (task : bool) : tracker :=
  mkTracker r task (nextProbeTime t) (backoffInterval t) (tr_published t) (tr_prev t) (tr_notified t) (tr_draining t) (tr_closed t).
Definition with_next (t : tracker) (n : option Z) : tracker :=
  mkTracker (tr_run t) (tr_task t) n (backoffInterval t) (tr_published t) (tr_prev t) (tr_notified t) (tr_draining t) (tr_closed t).
Definition refreshReachability (t : tracker) (now : Z) : option tracker :=
  '(m, reqs) ← GetProbe (rf_pm (tr_run t)) now;
  Some (if reqs is [] then with_task t (noTask m) false else with_task t (startRefresh m defaultMaxConcurrency) true).

(** The end of an iteration; the comparisons stop at the first difference. *)
Definition publish `{Sorter} (t : tracker) (clk : nat -> Z) : option tracker :=
  '(m, (r, u, k)) ← AppendConfirmedAddrs (rf_pm (tr_run t)) clk [] [] [];
  let '(pr, pu, pk) := tr_prev t in
  let '(d1, pr, r') := areAddrsDifferent pr r in
  let '(d2, pu, u') := if d1 : bool then (true, pu, u) else areAddrsDifferent pu u in
  let '(d3, pk, k') := if d2 : bool then (true, pk, k) else areAddrsDifferent pk k in
  let run := tr_run t in
  Some (mkTracker (mkRefresh m (rf_workers run) (consecutiveErrors run) (rf_backoff run) (rf_cancelled run)) (tr_task t) (nextProbeTime t) (backoffInterval t)
    (r, u, k) (r', u', k') (if d3 : bool then S (tr_notified t) else tr_notified t) (tr_draining t) (tr_closed t)).

Inductive trEvent :=
| TTicker (now : Z) (clk : nat -> Z)
| TTimer (now : Z) (clk : nat -> Z)
| TBackoff (now : Z) (clk : nat -> Z)
| TNewAddrs (l : list Multiaddr) (now : Z) (clk : nat -> Z)
| TDrained (now : Z) (clk : nat -> Z)
| TClose
| TWorker (e : rfEvent).
Definition applyAddrs `{Sorter} (t : tracker) (l : list Multiaddr) (now : Z) : tracker :=
  let newAddrsNextTime := now + newAddrsProbeDelay in
  let next := match nextProbeTime t with Some n => if n <? newAddrsNextTime then newAddrsNextTime else n | None => newAddrsNextTime end in
  with_next (with_task t (noTask (updateTrackedAddrs (rf_pm (tr_run t)) l)) false) (Some next).
Definition cancelTask (t : tracker) (why : option (list Multiaddr)) : tracker :=
  let run := tr_run t in
  mkTracker (mkRefresh (rf_pm run) (rf_workers run) (consecutiveErrors run) (rf_backoff run) true) (tr_task t) (nextProbeTime t) (backoffInterval t)
    (tr_published t) (tr_prev t) (tr_notified t) (Some why) (tr_closed t).
Definition closeTracker (t : tracker) : tracker :=
  mkTracker (noTask (rf_pm (tr_run t))) false (nextProbeTime t) (backoffInterval t) (tr_published t) (tr_prev t) (tr_notified t) None true.
Definition undrain (t : tracker) : tracker :=
  mkTracker (tr_run t) (tr_task t) (nextProbeTime t) (backoffInterval t) (tr_published t) (tr_prev t) (tr_notified t) None (tr_closed t).
(** The goroutine that runs the workers sends its result when all have ended. *)
Definition endedb (r : refresh) : bool := forallb (fun w => if w is WEnd then true else false) (rf_workers r).
Definition trStep `{Sorter} (t : tracker) (e : trEvent) : option tracker :=
  if tr_closed t then None else
  match e, tr_draining t with
  | TTicker now clk, None =>
      t ← if negb (tr_task t) && bool_decide (nextProbeTime t = None) then refreshReachability t now else Some t;
      publish t clk
  | TTimer now clk, None =>
      t ← if negb (tr_task t) then refreshReachability t now else Some t;
      publish (with_next t None) clk
  | TBackoff now clk, None =>
      if tr_task t && endedb (tr_run t) then
        let b := if rf_backoff (tr_run t) then newBackoffInterval (backoffInterval t) else -1 * Second in
        publish (mkTracker (noTask (rf_pm (tr_run t))) false (Some (now + b)) b (tr_published t) (tr_prev t) (tr_notified t) None false) clk
      else None
  | TNewAddrs l now clk, None => if tr_task t then Some (cancelTask t (Some l)) else publish (applyAddrs t l now) clk
  | TClose, None => if tr_task t then Some (cancelTask t None) else Some (closeTracker t)
  | TDrained now clk, Some why =>
      if endedb (tr_run t) then
        match why with Some l => publish (undrain (applyAddrs t l now)) clk | None => Some (closeTracker t) end
      else None
  | TWorker e, _ => if tr_task t then r ← rfStep (tr_run t) e; Some (with_task t r true) else None
  | _, _ => None
  end.
Fixpoint trRun `{Sorter} (t : tracker) (es : list trEvent) : option tracker :=
  match es with [] => Some t | e :: es => t ← trStep t e; trRun t es end.
