(* ===== verification/ReachabilityRun.v ===== *)
(** * A refresh of the reachability comes to an end

    The workers of a refresh probe concurrently, and every answer changes what
    the others see.  The potential of an address is the number of probes it can
    still take within ten minutes: each dial costs six, each refusal one, and a
    dial forgets the refusals.  An answer to a probe whose address is exhausted
    is paid for by the step that exhausted it. *)
From Stdlib Require Import ZArith Lia.
From stdpp Require Import base tactics list numbers option gmap sets fin_maps sorting.
From S2P Require Import Prelude Collections GoBytes MaProtocol MaComponent MaCodec MaOps Manet Reachability Varint MaProtocols.
Local Open Scope Z_scope.

(** ** Potentials *)
Section potential.
Context (T0 : Z).
Definition inWindow (now : Z) : Prop := T0 <= now < T0 + recentProbeInterval.

(** The dials of the window, from the last one back *)
Fixpoint newDials (l : list Z) : Z :=
  match l with [] => 0 | t :: l => if T0 <=? t then 1 + newDials l else 0 end.
Definition dialsOf (s : addrStatus) : Z := newDials (reverse (dialTimes s)).
Definition refusalsOf (s : addrStatus) : Z :=
  if (maxConsecutiveRefusals <=? consecutiveRefusals s) && negb (from_option (fun t => T0 <=? t) false (lastRefusalTime s)) then 0
  else consecutiveRefusals s `min` 5.
Definition potential (s : addrStatus) : Z := if 10 <=? dialsOf s then 0 else 6 * (10 - dialsOf s) - refusalsOf s.
Definition avail (s : addrStatus) : bool := (dialsOf s <? 10) && (refusalsOf s <? 5).

Lemma newDials_nonneg l : 0 <= newDials l.
Proof. induction l as [|t l IH]; simpl; [lia|]. destruct (T0 <=? t); lia. Qed.
Lemma newDials_app l k : newDials l = Z.of_nat (length l) -> newDials (l ++ k) = Z.of_nat (length l) + newDials k.
Proof.
  induction l as [|t l IH]; [done|]. cbn [app newDials length]. destruct (T0 <=? t); [|lia]. intros H. rewrite IH by lia. lia.
Qed.
Lemma newDials_split l : exists k r, l = k ++ r /\ newDials l = Z.of_nat (length k) /\ newDials k = Z.of_nat (length k) /\ Forall (fun t => T0 <= t) k.
Proof.
  induction l as [|t l (k & r & -> & H1 & H2 & H3)]; [by exists [], []|]. simpl. destruct (Z.leb_spec T0 t).
  - exists (t :: k), r. simpl. destruct (Z.leb_spec T0 t); [|lia]. split_and!; [done|lia|lia|by constructor].
  - by exists [], (t :: k ++ r).
Qed.

Lemma recentLoop_acc now l c : recentLoop now l c = c + recentLoop now l 0.
Proof.
  revert c. induction l as [|t l IH]; intros c; simpl; [lia|]. destruct (recentProbeInterval <? now - t); [lia|].
  rewrite (IH (c + 1)), (IH (0 + 1)). lia.
Qed.
Lemma recentLoop_nonneg now l : 0 <= recentLoop now l 0.
Proof. induction l as [|t l IH]; simpl; [lia|]. destruct (recentProbeInterval <? now - t); [lia|]. rewrite recentLoop_acc. lia. Qed.
Lemma newDials_recent now l : inWindow now -> newDials l <= recentLoop now l 0.
Proof.
  intros Hw. induction l as [|t l IH]; simpl; [lia|]. unfold inWindow in Hw.
  destruct (Z.leb_spec T0 t), (Z.ltb_spec recentProbeInterval (now - t)); try (rewrite recentLoop_acc; pose proof (recentLoop_nonneg now l); lia); lia.
Qed.

Lemma fromRecent_app at_ l k : (exists t, t ∈ k /\ at_ - t < recentProbeInterval) ->
  exists l', fromRecent at_ (l ++ k) = Some (l' ++ k) \/ exists k1 k2, k = k1 ++ k2 /\ fromRecent at_ (l ++ k) = Some k2 /\ Forall (fun t => recentProbeInterval <= at_ - t) k1.
Proof.
  intros (t & Ht & Hr). induction l as [|x l (l' & IH)].
  - exists []. right. simpl. induction k as [|y k IH]; [set_solver|]. simpl. destruct (Z.ltb_spec (at_ - y) recentProbeInterval).
    + by exists [], (y :: k).
    + apply elem_of_cons in Ht as [->|Ht]; [lia|]. destruct (IH Ht) as (k1 & k2 & -> & E & F). exists (y :: k1), k2. split_and!; [done..|].
      constructor; [lia|done].
  - simpl. destruct (Z.ltb_spec (at_ - x) recentProbeInterval); [exists (x :: l); by left|]. by exists l'.
Qed.

(** A dial of the window is never forgotten in it. *)
Lemma AddOutcome_dials s at_ rch n : inWindow at_ -> dialsOf s + 1 <= dialsOf (AddOutcome s at_ rch n).
Proof.
  intros Hw.
  assert (E : dialTimes (AddOutcome s at_ rch n) = default (dialTimes s ++ [at_]) (fromRecent at_ (dialTimes s ++ [at_])))
    by (by destruct rch).
  unfold dialsOf. rewrite E. destruct (newDials_split (reverse (dialTimes s))) as (k & r & Hs & -> & Hk & Hf).
  assert (Hd : dialTimes s = reverse r ++ reverse k) by (by rewrite <-reverse_app, <-Hs, reverse_involutive).
  assert (Hall : forall t, t ∈ reverse k ++ [at_] -> at_ - t < recentProbeInterval).
  { intros t. rewrite elem_of_app, elem_of_reverse, list_elem_of_singleton. rewrite Forall_forall in Hf. unfold inWindow in Hw.
    intros [H%Hf| ->]; [lia|]. rewrite Z.sub_diag. by vm_compute. }
  rewrite Hd, <-app_assoc.
  assert (G : forall l, Z.of_nat (length k) + 1 <= newDials (reverse (l ++ reverse k ++ [at_]))).
  { intros l. rewrite !reverse_app, reverse_involutive. simpl. unfold inWindow in Hw. destruct (Z.leb_spec T0 at_); [|lia].
    rewrite newDials_app by done. pose proof (newDials_nonneg (reverse l)). lia. }
  destruct (fromRecent_app at_ (reverse r) (reverse k ++ [at_])) as (l' & [-> | (k1 & k2 & Ek & -> & F)]); [|apply G|].
  { exists at_. split; [set_solver|apply Hall; set_solver]. }
  destruct k1 as [|t k1]; [simpl in Ek; simpl; rewrite <-Ek; apply (G [])|]. inversion F; subst.
  pose proof (Hall t ltac:(rewrite Ek; set_solver)). lia.
Qed.

Lemma AddOutcome_refusals s at_ rch n : refusalsOf (AddOutcome s at_ rch n) = 0.
Proof. by destruct rch. Qed.
Lemma AddRefusal_refusals s now : inWindow now -> refusalsOf (AddRefusal s now) = (consecutiveRefusals s + 1) `min` 5.
Proof.
  intros [Hw _]. unfold refusalsOf, AddRefusal. simpl. destruct (Z.leb_spec T0 now); [|lia]. by rewrite andb_false_r.
Qed.

(** ** Statuses only lose potential *)
Definition wfStatus (s : addrStatus) : Prop := 0 <= consecutiveRefusals s /\ Z.of_nat (length (outcomes s)) <= maxRecentDialsWindow.
Definition drops (s s' : addrStatus) : Prop := potential s' <= potential s /\ (avail s = true -> avail s' = false -> potential s' < potential s).

Lemma refusalsOf_bounds s : wfStatus s -> 0 <= refusalsOf s <= 5 /\ refusalsOf s <= consecutiveRefusals s.
Proof. intros [H _]. unfold refusalsOf. destruct (_ && _); lia. Qed.
Lemma dialsOf_nonneg s : 0 <= dialsOf s.
Proof. apply newDials_nonneg. Qed.
Lemma potential_bounds s : wfStatus s -> 0 <= potential s <= 60.
Proof.
  intros W. pose proof (refusalsOf_bounds s W). pose proof (dialsOf_nonneg s). unfold potential. destruct (Z.leb_spec 10 (dialsOf s)); lia.
Qed.
Lemma avail_potential s : wfStatus s -> avail s = true -> 1 <= potential s.
Proof.
  intros W. pose proof (refusalsOf_bounds s W). unfold avail, potential. rewrite andb_true_iff, !Z.ltb_lt.
  destruct (Z.leb_spec 10 (dialsOf s)); lia.
Qed.

Lemma AddRefusal_drops s now : wfStatus s -> inWindow now -> drops s (AddRefusal s now) /\ (avail s = true -> potential (AddRefusal s now) < potential s).
Proof.
  intros W Hw. pose proof (refusalsOf_bounds s W) as B.
  assert (H : avail s = true -> potential (AddRefusal s now) < potential s).
  { unfold avail, potential. rewrite AddRefusal_refusals by done. change (dialsOf (AddRefusal s now)) with (dialsOf s).
    rewrite andb_true_iff, !Z.ltb_lt. destruct (Z.leb_spec 10 (dialsOf s)); lia. }
  split; [split|]; [|intros A _; exact (H A)|exact H]. unfold potential. rewrite AddRefusal_refusals by done.
  change (dialsOf (AddRefusal s now)) with (dialsOf s). destruct (Z.leb_spec 10 (dialsOf s)); lia.
Qed.
Lemma AddOutcome_drops s now rch n : wfStatus s -> inWindow now ->
  drops s (AddOutcome s now rch n) /\ (avail s = true -> potential (AddOutcome s now rch n) < potential s).
Proof.
  intros W Hw. pose proof (refusalsOf_bounds s W) as B. pose proof (AddOutcome_dials s now rch n Hw) as D.
  assert (H : avail s = true -> potential (AddOutcome s now rch n) < potential s).
  { unfold avail, potential. rewrite AddOutcome_refusals, andb_true_iff, !Z.ltb_lt.
    destruct (Z.leb_spec 10 (dialsOf s)), (Z.leb_spec 10 (dialsOf (AddOutcome s now rch n))); lia. }
  split; [split|]; [|intros A _; exact (H A)|exact H]. unfold potential. rewrite AddOutcome_refusals.
  destruct (Z.leb_spec 10 (dialsOf s)), (Z.leb_spec 10 (dialsOf (AddOutcome s now rch n))); lia.
Qed.

(** Counting the probes needed resets refusals of before the window only. *)
Lemma RequiredProbeCount_drops s now pc s' : wfStatus s -> inWindow now -> RequiredProbeCount s now = (pc, s') ->
  dialsOf s' = dialsOf s /\ refusalsOf s' = refusalsOf s /\ wfStatus s' /\ outcomes s' = outcomes s /\ (0 < pc -> avail s' = true).
Proof.
  intros [W1 W2] Hw. unfold RequiredProbeCount. destruct (Z.leb_spec maxConsecutiveRefusals (consecutiveRefusals s)) as [H5|H5]; simpl.
  - destruct (refusedRecently s now) eqn:R; [intros [= <- <-]; split_and!; done || lia|].
    set (s0 := mkStatus _ _ _ _ _).
    assert (E : refusalsOf s0 = refusalsOf s).
    { unfold refusalsOf. rewrite (proj2 (Z.leb_le _ _) H5). simpl. unfold refusedRecently in R. destruct (lastRefusalTime s) as [t|]; simpl; [|done].
      apply Z.ltb_ge in R. unfold inWindow in Hw. destruct (Z.leb_spec T0 t); [lia|done]. }
    destruct (Z.leb_spec maxRecentDialsPerAddr (recentDialCount s0 now)) as [Hd|Hd]; intros [= <- <-];
      (refine (conj _ (conj _ (conj _ (conj _ _)))); [done|done|by split|done|]); [lia|]. intros _. unfold avail.
    pose proof (newDials_recent now (reverse (dialTimes s0)) Hw) as N. unfold recentDialCount, maxRecentDialsPerAddr in Hd.
    rewrite andb_true_iff, !Z.ltb_lt. split; [unfold dialsOf; lia|done].
  - destruct (Z.leb_spec maxRecentDialsPerAddr (recentDialCount s now)) as [Hd|Hd]; intros [= <- <-];
      (refine (conj _ (conj _ (conj _ (conj _ _)))); [done|done|by split|done|]); [lia|]. intros _. unfold avail.
    pose proof (newDials_recent now (reverse (dialTimes s)) Hw) as N. unfold recentDialCount, maxRecentDialsPerAddr in Hd.
    rewrite andb_true_iff, !Z.ltb_lt. split; [unfold dialsOf; lia|]. unfold refusalsOf, maxConsecutiveRefusals in *.
    destruct (Z.leb_spec 5 (consecutiveRefusals s)); simpl; lia.
Qed.
End potential.

Lemma AddRefusal_wf s now : wfStatus s -> wfStatus (AddRefusal s now).
Proof. intros [H1 H2]. split; simpl; [lia|done]. Qed.
Lemma dropBefore_suffix t l : dropBefore t l `suffix_of` l.
Proof. induction l as [|o l IH]; simpl; [done|]. destruct (At o <? t); [by apply suffix_cons_r|done]. Qed.
Lemma RemoveBefore_wf s t : wfStatus s -> wfStatus (RemoveBefore s t).
Proof. intros [H1 H2]. split; [done|]. simpl. pose proof (suffix_length _ _ (dropBefore_suffix t (outcomes s))). lia. Qed.
(** The window holds the last five outcomes. *)
Lemma AddOutcome_wf s now rch : wfStatus s -> wfStatus (AddOutcome s now rch maxRecentDialsWindow).
Proof.
  intros W. unfold AddOutcome. set (s0 := RemoveBefore _ _).
  assert (W0 : wfStatus s0) by (apply RemoveBefore_wf; split; [done|exact (proj2 W)]).
  assert (G : forall o : list dialOutcome, Z.of_nat (length (if maxRecentDialsWindow <? Z.of_nat (length o)
    then drop (length o - Z.to_nat maxRecentDialsWindow) o else o)) <= maxRecentDialsWindow).
  { intros o. destruct (Z.ltb_spec maxRecentDialsWindow (Z.of_nat (length o))); [|done]. rewrite length_drop.
    unfold maxRecentDialsWindow, targetConfidence in *. lia. }
  destruct rch; [done|split; [done|apply G]..].
Qed.

(** An address is left alone for one of three reasons: its last refusals, its last
    dials, or a result that at least three probes confirm, the last of them within
    the hour.  The branches of the code that its comments call impossible are. *)
Lemma confirmed_reason s now : requiredProbeCountForConfirmation s now = 0 ->
  exists o, last (outcomes s) = Some o /\ now - At o <= highConfidenceAddrProbeInterval
    /\ reachabilityOf s = (if Success o then ReachabilityPublic else ReachabilityPrivate)
    /\ (let '(successes, failures) := countOutcomes (outcomes s) 0 0 in targetConfidence <= Z.abs (successes - failures)).
Proof.
  unfold requiredProbeCountForConfirmation, reachabilityOf, reachabilityAndCounts, targetConfidence, minConfidence.
  destruct (countOutcomes (outcomes s) 0 0) as [a b] eqn:C.
  destruct (last (outcomes s)) as [o|] eqn:L; [|apply last_None in L; rewrite L in C; cbn in C; injection C as <- <-; done].
  intros E. exists o. split; [done|].
  destruct (Z.leb_spec 2 (a - b)), (Z.leb_spec 2 (b - a)), (Z.ltb_spec (a - b) 0), (Success o); cbn [fst negb] in *;
    repeat match type of E with context [?x <? ?y] => destruct (Z.ltb_spec x y) end; try lia; split_and!; done || lia.
Qed.
Lemma quiet_reason s now s' : RequiredProbeCount s now = (0, s') ->
  (maxConsecutiveRefusals <= consecutiveRefusals s /\ refusedRecently s now = true)
  \/ maxRecentDialsPerAddr <= recentDialCount s now
  \/ exists o, last (outcomes s) = Some o /\ now - At o <= highConfidenceAddrProbeInterval
       /\ reachabilityOf s = (if Success o then ReachabilityPublic else ReachabilityPrivate)
       /\ (let '(successes, failures) := countOutcomes (outcomes s) 0 0 in targetConfidence <= Z.abs (successes - failures)).
Proof.
  unfold RequiredProbeCount. destruct (Z.leb_spec maxConsecutiveRefusals (consecutiveRefusals s)) as [H5|H5], (refusedRecently s now) eqn:R; cbn [andb];
    [by left| | |]; cbv zeta;
    (case_match eqn:Hd; [apply Z.leb_le in Hd; intros _; right; left; exact Hd|]); intros [= E _]; right; right; by apply confirmed_reason in E.
Qed.

Record wfPM (m : probeManager) : Prop := {
  wf_covers a : a ∈ addrs m -> is_Some (statuses m !! Bytes a);
  wf_statuses k s : statuses m !! k = Some s -> wfStatus s }.

Lemma onStatus_addrs f k m : addrs (onStatus f k m) = addrs m.
Proof. unfold onStatus. by destruct (statuses m !! k). Qed.
Lemma onStatus_inProgress f k m : inProgressProbes (onStatus f k m) = inProgressProbes m.
Proof. unfold onStatus. by destruct (statuses m !! k). Qed.
Lemma onStatus_total f k m : inProgressProbesTotal (onStatus f k m) = inProgressProbesTotal m.
Proof. unfold onStatus. by destruct (statuses m !! k). Qed.
Lemma onStatus_lookup f k m j : statuses (onStatus f k m) !! j = if decide (j = k) then f <$> statuses m !! k else statuses m !! j.
Proof.
  unfold onStatus. destruct (statuses m !! k) as [s|] eqn:E; simpl; case_decide; subst; by rewrite ?lookup_insert_eq, ?lookup_insert_ne by done.
Qed.
Lemma onStatus_wf f k m : wfPM m -> (forall s, wfStatus s -> wfStatus (f s)) -> wfPM (onStatus f k m).
Proof.
  intros [H1 H2] Hf. split.
  - intros a. rewrite onStatus_addrs, onStatus_lookup. intros Ha%H1. case_decide as E; [rewrite <-E|]; by rewrite ?fmap_is_Some.
  - intros j s. rewrite onStatus_lookup. case_decide; [|apply H2]. destruct (statuses m !! k) as [s0|] eqn:E; [|done].
    intros [= <-]. apply Hf, (H2 _ _ E).
Qed.

Lemma CompleteProbe_wf m now reqs res err : wfPM m -> wfPM (CompleteProbe m now reqs res err).
Proof.
  intros H. destruct reqs as [|a reqs]; [done|]. unfold CompleteProbe.
  set (m1 := mkPM _ _ _ _). assert (H1 : wfPM m1) by (destruct H; by split).
  destruct err; [done|]. destruct (AllAddrsRefused res); [apply onStatus_wf; auto using AddRefusal_wf|].
  case_bool_decide; repeat apply onStatus_wf; auto using AddRefusal_wf, AddOutcome_wf.
Qed.
Lemma MarkProbeInProgress_wf m reqs : wfPM m -> wfPM (MarkProbeInProgress m reqs).
Proof. intros [H1 H2]. destruct reqs; by split. Qed.

(** ** The potential of the manager *)
Section manager.
Context (T0 : Z).
Local Notation inWindow := (inWindow T0).
Definition mu (m : probeManager) : Z := sumMap (potential T0) (statuses m).
Definition availAt (m : probeManager) (k : bytes) : bool := from_option (avail T0) false (statuses m !! k).
Definition pmDrops (m m' : probeManager) : Prop :=
  mu m' <= mu m /\ (forall k, availAt m k = true -> availAt m' k = false -> mu m' < mu m).
#[local] Instance pmDrops_refl : Reflexive pmDrops.
Proof. intros m. split; [lia|]. intros k -> . done. Qed.
#[local] Instance pmDrops_trans : Transitive pmDrops.
Proof.
  intros m1 m2 m3 [L1 S1] [L2 S2]. split; [lia|]. intros k A1 A3. destruct (availAt m2 k) eqn:A2.
  - specialize (S2 k A2 A3). lia.
  - specialize (S1 k A1 A2). lia.
Qed.

Lemma sumMap_nonneg_in `{Countable K} {A} (f : A -> Z) (m : gmap K A) : (forall k x, m !! k = Some x -> 0 <= f x) -> 0 <= sumMap f m.
Proof.
  intros Hf. apply sumZ_nonneg. intros [k x] Hx. simpl. apply (Hf k). by apply elem_of_map_to_list.
Qed.
Lemma mu_nonneg m : wfPM m -> 0 <= mu m.
Proof. intros H. apply sumMap_nonneg_in. intros k s E. apply potential_bounds, (wf_statuses m H _ _ E). Qed.
Lemma mu_avail m k : wfPM m -> availAt m k = true -> 1 <= mu m.
Proof.
  intros H. unfold availAt. destruct (statuses m !! k) as [s|] eqn:E; [|done]. simpl. intros A.
  pose proof (sumMap_delete (potential T0) (statuses m) k) as D. rewrite E in D. simpl in D.
  assert (0 <= sumMap (potential T0) (delete k (statuses m))).
  { apply sumMap_nonneg_in. intros j x (_ & Hx)%lookup_delete_Some. apply potential_bounds, (wf_statuses m H _ _ Hx). }
  pose proof (avail_potential T0 s (wf_statuses m H _ _ E) A). unfold mu. lia.
Qed.
Lemma mu_bound m : wfPM m -> mu m <= 60 * Z.of_nat (size (statuses m)).
Proof.
  intros H. unfold mu, sumMap, sumMapK. rewrite <-length_map_to_list.
  assert (G : forall k s, (k, s) ∈ map_to_list (statuses m) -> potential T0 s <= 60).
  { intros k s E%elem_of_map_to_list. apply potential_bounds, (wf_statuses m H _ _ E). }
  induction (map_to_list (statuses m)) as [|[k s] l IH]; simpl; [lia|].
  pose proof (G k s ltac:(set_solver)). specialize (IH ltac:(intros k0 s0 E; apply (G k0); by constructor)). lia.
Qed.

Lemma onStatus_mu f k m s : statuses m !! k = Some s -> mu (onStatus f k m) = mu m + potential T0 (f s) - potential T0 s.
Proof. intros E. unfold onStatus, mu. rewrite E. simpl. rewrite sumMap_insert, E. simpl. lia. Qed.
Lemma onStatus_none f k m : statuses m !! k = None -> onStatus f k m = m.
Proof. unfold onStatus. by intros ->. Qed.
Lemma onStatus_drops f k m : (forall s, statuses m !! k = Some s -> drops T0 s (f s)) -> pmDrops m (onStatus f k m).
Proof.
  intros Hf. destruct (statuses m !! k) as [s|] eqn:E; [|rewrite onStatus_none by done; reflexivity].
  destruct (Hf s eq_refl) as [L S]. split; [rewrite (onStatus_mu f k m s E); lia|].
  intros j. unfold availAt. rewrite onStatus_lookup, (onStatus_mu f k m s E). case_decide as J; [subst j|].
  - rewrite E. simpl. intros A A'. specialize (S A A'). lia.
  - by intros ->.
Qed.
Lemma onStatus_strict f k m : availAt m k = true -> (forall s, statuses m !! k = Some s -> avail T0 s = true -> potential T0 (f s) < potential T0 s) ->
  mu (onStatus f k m) < mu m.
Proof.
  unfold availAt. intros A Hf. destruct (statuses m !! k) as [s|] eqn:E; [|done]. rewrite (onStatus_mu f k m s E). specialize (Hf s eq_refl A). lia.
Qed.

(** An answer takes potential away, at least one when the first address of the probe has any. *)
Lemma CompleteProbe_drops m now a reqs res : wfPM m -> inWindow now ->
  pmDrops m (CompleteProbe m now (a :: reqs) res false) /\ (availAt m (Bytes a) = true -> mu (CompleteProbe m now (a :: reqs) res false) < mu m).
Proof.
  intros H Hw. unfold CompleteProbe. set (m1 := mkPM _ _ _ _). assert (H1 : wfPM m1) by (destruct H; by split).
  change (pmDrops m) with (pmDrops m1). change (availAt m) with (availAt m1). change (mu m) with (mu m1).
  assert (HR : forall k, pmDrops m1 (onStatus (fun s => AddRefusal s now) k m1)).
  { intros k. apply onStatus_drops. intros s E. apply AddRefusal_drops; [apply (wf_statuses m1 H1 _ _ E)|done]. }
  assert (HS : forall k, availAt m1 k = true -> mu (onStatus (fun s => AddRefusal s now) k m1) < mu m1).
  { intros k A. apply onStatus_strict; [done|]. intros s E. apply AddRefusal_drops; [apply (wf_statuses m1 H1 _ _ E)|done]. }
  assert (HO : forall m2 k, wfPM m2 -> pmDrops m2 (onStatus (fun s => AddOutcome s now (res_Reachability res) maxRecentDialsWindow) k m2)).
  { intros m2 k W. apply onStatus_drops. intros s E. apply AddOutcome_drops; [apply (wf_statuses m2 W _ _ E)|done]. }
  destruct (AllAddrsRefused res); [by split; [|intros A]; auto|]. case_bool_decide as E.
  - split; [by apply HO|]. intros A. rewrite E. apply onStatus_strict; [done|]. intros s Es.
    apply AddOutcome_drops; [apply (wf_statuses m1 H1 _ _ Es)|done].
  - set (m2 := onStatus _ (Bytes a) m1). assert (W2 : wfPM m2) by (apply onStatus_wf; auto using AddRefusal_wf).
    split; [transitivity m2; [apply HR|by apply HO]|]. intros A. specialize (HS _ A). fold m2 in HS.
    destruct (HO m2 (Bytes (res_Addr res)) W2) as [L _]. lia.
Qed.

(** ** Choosing a probe *)
(** A pass over statuses: counting resets old refusals and nothing else. *)
Definition sameStatuses (st st' : gmap bytes addrStatus) : Prop :=
  forall k, option_Forall2 (fun s s' => dialsOf T0 s' = dialsOf T0 s /\ refusalsOf T0 s' = refusalsOf T0 s /\ outcomes s' = outcomes s) (st !! k) (st' !! k).
Definition wfMap (st : gmap bytes addrStatus) : Prop := forall k s, st !! k = Some s -> wfStatus s.
#[local] Instance sameStatuses_refl : Reflexive sameStatuses.
Proof. intros st k. destruct (st !! k); by constructor. Qed.
#[local] Instance sameStatuses_trans : Transitive sameStatuses.
Proof.
  intros s1 s2 s3 H1 H2 k. specialize (H1 k). specialize (H2 k). inversion H1 as [x y (A & B & C) E1 E2|E1 E2]; rewrite <-E2 in H2; inversion H2 as [? z (A' & B' & C')|];
    subst; constructor. split_and!; congruence.
Qed.
Lemma count_same st k s now pc s' : wfMap st -> inWindow now -> st !! k = Some s -> RequiredProbeCount s now = (pc, s') ->
  sameStatuses st (<[k := s']> st) /\ wfMap (<[k := s']> st) /\ (0 < pc -> avail T0 s' = true).
Proof.
  intros W Hw E R. destruct (RequiredProbeCount_drops T0 s now pc s' (W _ _ E) Hw R) as (D & F & W' & O & A). split_and!; [| |done].
  - intros j. destruct (decide (j = k)) as [->|J]; [rewrite E, lookup_insert_eq; by constructor|].
    rewrite lookup_insert_ne by done. destruct (st !! j); by constructor.
  - intros j x. destruct (decide (j = k)) as [->|J]; [rewrite lookup_insert_eq; by intros [= <-]|]. rewrite lookup_insert_ne by done. apply W.
Qed.
Lemma same_some st st' k : sameStatuses st st' -> is_Some (st !! k) -> is_Some (st' !! k).
Proof. intros H [s E]. specialize (H k). rewrite E in H. inversion H. eauto. Qed.
Lemma same_avail s s' : dialsOf T0 s' = dialsOf T0 s -> refusalsOf T0 s' = refusalsOf T0 s -> avail T0 s' = avail T0 s /\ potential T0 s' = potential T0 s.
Proof. unfold avail, potential. intros -> ->. done. Qed.
Lemma same_availAt st st' k : sameStatuses st st' -> from_option (avail T0) false (st' !! k) = from_option (avail T0) false (st !! k).
Proof. intros H. specialize (H k). inversion H as [x y (A & B & C)|]; simpl; [|done]. by apply same_avail. Qed.

Lemma secondaryLoop_ok now i ads js st reqs : wfMap st -> inWindow now -> (forall a, a ∈ ads -> is_Some (st !! Bytes a)) -> ads <> [] ->
  exists st' more, secondaryLoop now i ads js st reqs = Some (st', reqs ++ more) /\ sameStatuses st st' /\ wfMap st'.
Proof.
  revert st reqs. induction js as [|j js IH]; intros st reqs W Hw Hc Hne; simpl.
  { exists st, []. by rewrite app_nil_r. }
  assert (Hj : ((i + j) mod length ads < length ads)%nat) by (apply Nat.mod_upper_bound; by destruct ads).
  destruct (lookup_lt_is_Some_2 _ _ Hj) as [a Ea]. rewrite Ea. cbn [mbind option_bind].
  destruct (Hc a (list_elem_of_lookup_2 _ _ _ Ea)) as [s Es]. rewrite Es. cbn [mbind option_bind].
  destruct (RequiredProbeCount s now) as [pc s'] eqn:R. destruct (count_same st (Bytes a) s now pc s' W Hw Es R) as (S1 & W1 & _).
  set (st1 := <[Bytes a := s']> st) in *.
  assert (Hc1 : forall b, b ∈ ads -> is_Some (st1 !! Bytes b)) by (intros b Hb; by eapply same_some, Hc).
  destruct (pc =? 0).
  - destruct (IH st1 reqs W1 Hw Hc1 Hne) as (st' & more & -> & S2 & W2). exists st', more. split_and!; [done|by etrans|done].
  - case_match; [exists st1, [a]; done|]. destruct (IH st1 (reqs ++ [a]) W1 Hw Hc1 Hne) as (st' & more & -> & S2 & W2).
    exists st', (a :: more). rewrite <-app_assoc. split_and!; [done|by etrans|done].
Qed.
(** The first address of a probe has potential. *)
Lemma primaryLoop_ok now inP ads i l st : wfMap st -> inWindow now -> (forall k n, inP !! k = Some n -> 0 <= n) -> (forall a, a ∈ ads -> is_Some (st !! Bytes a)) -> (forall a, a ∈ l -> a ∈ ads) ->
  exists st' reqs, primaryLoop now inP ads i l st = Some (st', reqs) /\ sameStatuses st st' /\ wfMap st'
    /\ forall a r, reqs = a :: r -> a ∈ l /\ from_option (avail T0) false (st' !! Bytes a) = true.
Proof.
  intros W Hw Hp. revert i st W. induction l as [|a l IH]; intros i st W Hc Hl; simpl; [by exists st, []|].
  destruct (Hc a) as [s Es]; [apply Hl; by constructor|]. rewrite Es. cbn [mbind option_bind].
  destruct (RequiredProbeCount s now) as [pc s'] eqn:R. destruct (count_same st (Bytes a) s now pc s' W Hw Es R) as (S1 & W1 & A1).
  set (st1 := <[Bytes a := s']> st) in *.
  assert (Hc1 : forall b, b ∈ ads -> is_Some (st1 !! Bytes b)) by (intros b Hb; by eapply same_some, Hc).
  destruct (Z.leb_spec pc (default 0 (inP !! Bytes a))) as [L|L].
  - destruct (IH (S i) st1 W1 Hc1) as (st' & reqs & -> & S2 & W2 & H2); [intros b Hb; apply Hl; by constructor|].
    exists st', reqs. split_and!; [done|by etrans|done|]. intros b r E. destruct (H2 b r E). split; [by constructor|done].
  - destruct (secondaryLoop_ok now i ads (seq 1 (length ads - 1)) st1 [a] W1 Hw Hc1) as (st' & more & -> & S2 & W2).
    { intros ->. by apply (not_elem_of_nil a), Hl; constructor. }
    exists st', (a :: more). split_and!; [done|by etrans|done|]. intros b r [= <- <-]. split; [by constructor|].
    rewrite (same_availAt st1 st' _ S2). unfold st1. rewrite lookup_insert_eq. apply A1.
    destruct (inP !! Bytes a) as [n|] eqn:En; simpl in L; [specialize (Hp _ _ En)|]; lia.
Qed.

Lemma same_mu st st' : sameStatuses st st' -> sumMap (potential T0) st' = sumMap (potential T0) st.
Proof.
  revert st'. induction st as [|k s st Hk IH] using map_ind; intros st' H.
  - assert (st' = ∅) as ->; [|done]. apply map_empty. intros k. specialize (H k). rewrite lookup_empty in H. by inversion H.
  - pose proof (H k) as Hks. rewrite lookup_insert_eq in Hks. inversion Hks as [? s' (A & B & C) E1 E2|]; subst.
    rewrite sumMap_insert_new by done. rewrite <-(insert_delete_id st' k s') by done. rewrite sumMap_insert_new by apply lookup_delete_eq.
    rewrite IH; [destruct (same_avail s s' A B); lia|]. intros j. destruct (decide (j = k)) as [->|J].
    + rewrite lookup_delete_eq, Hk. constructor.
    + rewrite lookup_delete_ne by done. specialize (H j). by rewrite lookup_insert_ne in H by done.
Qed.
Lemma GetProbe_ok m now : wfPM m -> inWindow now -> (forall k n, inProgressProbes m !! k = Some n -> 0 <= n) ->
  exists m' reqs, GetProbe m now = Some (m', reqs) /\ wfPM m' /\ mu m' = mu m /\ (forall k, availAt m' k = availAt m k)
    /\ addrs m' = addrs m /\ inProgressProbes m' = inProgressProbes m /\ inProgressProbesTotal m' = inProgressProbesTotal m
    /\ forall a r, reqs = a :: r -> a ∈ addrs m /\ availAt m' (Bytes a) = true.
Proof.
  intros [H1 H2] Hw Hp. destruct (primaryLoop_ok now (inProgressProbes m) (addrs m) 0 (addrs m) (statuses m) H2 Hw Hp H1) as (st' & reqs & E & S & W & A); [done|].
  unfold GetProbe. rewrite E. cbn [mbind option_bind]. exists (set_statuses m st'), reqs. split_and!; try done.
  - split; [intros a Ha; by eapply same_some, H1|exact W].
  - by apply same_mu.
  - intros k. by apply same_availAt.
Qed.
End manager.

(** ** The workers *)
Definition primary (reqs : probe) : bytes := match reqs with a :: _ => Bytes a | [] => [] end.
Definition marked (w : worker) : option bytes :=
  match w with WAsk reqs | WDone reqs _ _ => Some (primary reqs) | _ => None end.
Definition hasProbe (w : worker) : bool := match w with WMark [] | WAsk [] | WDone [] _ _ => false | _ => true end.
Definition marks (ws : list worker) (k : bytes) : Z := sumZ (fun w => if decide (marked w = Some k) then 1 else 0) ws.
Definition marksAll (ws : list worker) : Z := sumZ (fun w => if marked w then 1 else 0) ws.

(** The counters of the manager count the workers. *)
Record wfRefresh (s : refresh) : Prop := {
  wr_pm : wfPM (rf_pm s);
  wr_probes : Forall (fun w => hasProbe w = true) (rf_workers s);
  wr_marks k : inProgressProbes (rf_pm s) !! k = if marks (rf_workers s) k =? 0 then None else Some (marks (rf_workers s) k);
  wr_total : inProgressProbesTotal (rf_pm s) = marksAll (rf_workers s);
  wr_errors : 0 <= consecutiveErrors s }.

Lemma marks_nonneg ws k : 0 <= marks ws k.
Proof. apply sumZ_nonneg. intros w _. case_decide; lia. Qed.
Lemma inProgress_nonneg s : wfRefresh s -> forall k n, inProgressProbes (rf_pm s) !! k = Some n -> 0 <= n.
Proof. intros H k n. rewrite (wr_marks s H). destruct (_ =? 0); [done|]. intros [= <-]. apply marks_nonneg. Qed.

(** A worker that moves on and keeps its mark *)
Lemma marks_same ws i w w' : ws !! i = Some w -> marked w' = marked w -> (forall k, marks (<[i := w']> ws) k = marks ws k) /\ marksAll (<[i := w']> ws) = marksAll ws.
Proof. intros E M. unfold marks, marksAll. split; [intros k|]; rewrite (sumZ_insert _ _ _ _ _ E), M; lia. Qed.
Lemma wf_move s i w w' m c b x : wfRefresh s -> rf_workers s !! i = Some w -> marked w' = marked w -> hasProbe w' = true -> wfPM m -> 0 <= c ->
  inProgressProbes m = inProgressProbes (rf_pm s) -> inProgressProbesTotal m = inProgressProbesTotal (rf_pm s) ->
  wfRefresh (mkRefresh m (<[i := w']> (rf_workers s)) c b x).
Proof.
  intros [H1 H2 H3 H4 H5] E M P W C E1 E2. destruct (marks_same _ _ _ _ E M) as [M1 M2]. split; simpl; [done| | | |done].
  - by apply Forall_insert.
  - intros k. rewrite E1, M1. apply H3.
  - by rewrite E2, M2.
Qed.
Lemma wf_worker s i w : wfRefresh s -> rf_workers s !! i = Some w -> hasProbe w = true.
Proof. intros H E. exact (Forall_lookup_1 _ _ _ _ (wr_probes s H) E). Qed.

Lemma mark_wf s i reqs : wfRefresh s -> rf_workers s !! i = Some (WMark reqs) ->
  wfRefresh (with_worker s i (WAsk reqs) (MarkProbeInProgress (rf_pm s) reqs)).
Proof.
  intros H E. pose proof (wf_worker _ _ _ H E) as P. destruct reqs as [|a reqs]; [done|]. destruct H as [H1 H2 H3 H4 H5].
  split; simpl; [by apply (MarkProbeInProgress_wf _ (a :: reqs))|by apply Forall_insert| | |done].
  - intros k. unfold marks. rewrite (sumZ_insert _ _ _ _ _ E). fold (marks (rf_workers s) k). simpl.
    pose proof (marks_nonneg (rf_workers s) k) as N. destruct (decide (k = Bytes a)) as [->|K].
    + rewrite lookup_insert_eq, decide_True, H3 by done. destruct (Z.eqb_spec (marks (rf_workers s) (Bytes a)) 0) as [Z0|Z0]; simpl;
        destruct (Z.eqb_spec (marks (rf_workers s) (Bytes a) + 1 - 0) 0); [lia|f_equal; lia|lia|f_equal; lia].
    + rewrite lookup_insert_ne, decide_False, H3 by congruence. by rewrite Z.add_0_r, Z.sub_0_r.
  - unfold marksAll in *. rewrite (sumZ_insert _ _ _ _ _ E), H4. simpl. lia.
Qed.

Lemma CompleteProbe_progress m now a reqs res err :
  inProgressProbes (CompleteProbe m now (a :: reqs) res err) =
    (let n := default 0 (inProgressProbes m !! Bytes a) - 1 in if n <=? 0 then delete (Bytes a) (inProgressProbes m) else <[Bytes a := n]> (inProgressProbes m))
  /\ inProgressProbesTotal (CompleteProbe m now (a :: reqs) res err) = inProgressProbesTotal m - 1
  /\ addrs (CompleteProbe m now (a :: reqs) res err) = addrs m.
Proof.
  unfold CompleteProbe. cbv zeta. destruct err; [done|]. destruct (AllAddrsRefused res); [|case_bool_decide];
    by rewrite ?onStatus_inProgress, ?onStatus_total, ?onStatus_addrs.
Qed.
Lemma complete_wf s i now reqs res err w b : wfRefresh s -> rf_workers s !! i = Some (WDone reqs res err) -> marked w = None -> hasProbe w = true ->
  wfRefresh (mkRefresh (CompleteProbe (rf_pm s) now reqs res (bool_decide (is_Some err))) (<[i := w]> (rf_workers s)) (consecutiveErrors s) b (rf_cancelled s)).
Proof.
  intros H E M P. pose proof (wf_worker _ _ _ H E) as Pr. destruct reqs as [|a reqs]; [done|]. destruct H as [H1 H2 H3 H4 H5].
  destruct (CompleteProbe_progress (rf_pm s) now a reqs res (bool_decide (is_Some err))) as (E1 & E2 & E3).
  split; [by apply CompleteProbe_wf|by apply Forall_insert| | |done]; cbn [rf_pm rf_workers]; rewrite ?E1, ?E2.
  - intros k. unfold marks. rewrite (sumZ_insert _ _ _ _ _ E). fold (marks (rf_workers s) k). rewrite M. simpl.
    assert (N : 0 <= marks (rf_workers s) k - (if decide (Some (Bytes a) = Some k) then 1 else 0)).
    { pose proof (marks_nonneg (<[i := w]> (rf_workers s)) k) as N. unfold marks in N. rewrite (sumZ_insert _ _ _ _ _ E), M in N. simpl in N.
      unfold marks. lia. }
    rewrite H3. destruct (decide (k = Bytes a)) as [->|K].
    + rewrite decide_True in * by done. destruct (Z.eqb_spec (marks (rf_workers s) (Bytes a)) 0) as [Z0|Z0]; simpl; [lia|].
      destruct (Z.leb_spec (marks (rf_workers s) (Bytes a) - 1) 0); destruct (Z.eqb_spec (marks (rf_workers s) (Bytes a) + 0 - 1) 0); try lia.
      * by rewrite lookup_delete_eq.
      * rewrite lookup_insert_eq. f_equal. lia.
    + rewrite decide_False in * by congruence. rewrite Z.add_0_r, Z.sub_0_r. case_match; rewrite ?lookup_delete_ne, ?lookup_insert_ne by done; apply H3.
  - unfold marksAll in *. rewrite (sumZ_insert _ _ _ _ _ E), H4, M. simpl. lia.
Qed.

(** ** The measure *)
Section measure.
Context (T0 : Z).
(** A worker whose answer, if it comes, finds its address exhausted *)
Definition staleW (m : probeManager) (w : worker) : bool :=
  match w with
  | WMark reqs | WAsk reqs | WDone reqs _ None => negb (availAt T0 m (primary reqs))
  | _ => false
  end.
Definition stale (m : probeManager) (ws : list worker) : Z := sumZ (fun w => if staleW m w then 1 else 0) ws.
Definition answered (w : worker) : Z := match w with WDone _ _ None => 1 | _ => 0 end.
Definition budget (s : refresh) : Z :=
  Z.of_nat (length (rf_workers s)) * mu T0 (rf_pm s) + stale (rf_pm s) (rf_workers s) - sumZ answered (rf_workers s).

Definition weight (cancelled : bool) (w : worker) : Z :=
  if cancelled then match w with WTop => 1 | WDone _ _ _ => 2 | WAsk _ => 3 | WMark _ => 4 | WGet => 5 | WEnd => 0 end
  else match w with WTop => 10 | WGet => 9 | WMark _ => 8 | WAsk _ => 7 | WDone _ _ err => if isErrorPersistent err then 6 else 11 | WEnd => 0 end.
Definition errorsLeft (s : refresh) : Z := if rf_cancelled s then 0 else 5 * (21 - consecutiveErrors s `min` 21) + 1.
Definition measure (s : refresh) : Z := 110 * budget s + errorsLeft s + sumZ (weight (rf_cancelled s)) (rf_workers s).

Lemma stale_bounds m ws : 0 <= stale m ws <= Z.of_nat (length ws).
Proof. unfold stale. induction ws as [|w ws IH]; simpl; [lia|]. destruct (staleW m w); lia. Qed.
Lemma stale_mono m m' ws : (forall k, availAt T0 m k = true -> availAt T0 m' k = true) -> stale m' ws <= stale m ws.
Proof.
  intros H. apply sumZ_le. intros w _. unfold staleW.
  assert (G : forall k, (if negb (availAt T0 m' k) then 1 else 0) <= (if negb (availAt T0 m k) then 1 else 0)).
  { intros k. specialize (H k). destruct (availAt T0 m k); [by rewrite H|]. destruct (availAt T0 m' k); simpl; lia. }
  destruct w as [| | | |? ? []|]; try lia; apply G.
Qed.
(** What exhausts an address pays for the workers that wait on it. *)
Lemma drops_pays m m' ws : pmDrops T0 m m' ->
  Z.of_nat (length ws) * mu T0 m' + stale m' ws <= Z.of_nat (length ws) * mu T0 m + stale m ws.
Proof.
  intros [L S]. destruct (decide (mu T0 m' = mu T0 m)) as [E|E].
  - rewrite E. apply Z.add_le_mono_l, stale_mono. intros k A. destruct (availAt T0 m' k) eqn:A'; [done|]. specialize (S k A A'). lia.
  - pose proof (stale_bounds m' ws). pose proof (stale_bounds m ws). nia.
Qed.
Lemma budget_nonneg s : wfRefresh s -> 0 <= budget s.
Proof.
  intros H. pose proof (mu_nonneg T0 _ (wr_pm s H)) as N. pose proof (stale_bounds (rf_pm s) (rf_workers s)) as B. unfold budget.
  destruct (decide (mu T0 (rf_pm s) = 0)) as [E|E].
  - rewrite E. assert (sumZ answered (rf_workers s) <= stale (rf_pm s) (rf_workers s)); [|lia]. apply sumZ_le. intros w _.
    destruct w as [| | | |reqs res []|]; simpl; try case_match; try lia. destruct (availAt T0 (rf_pm s) (primary reqs)) eqn:A; [|done].
    pose proof (mu_avail T0 _ _ (wr_pm s H) A). lia.
  - assert (sumZ answered (rf_workers s) <= Z.of_nat (length (rf_workers s))); [|nia].
    clear. induction (rf_workers s) as [|w ws IH]; simpl; [lia|]. destruct w as [| | | |? ? []|]; simpl; lia.
Qed.

(** A worker moves from [w] to [w'] and the manager from [m] to [m'] *)
Lemma budget_move s i w w' m c b x : rf_workers s !! i = Some w -> pmDrops T0 (rf_pm s) m ->
  budget (mkRefresh m (<[i := w']> (rf_workers s)) c b x) <=
  budget s + (if staleW (rf_pm s) w' then 1 else 0) - (if staleW (rf_pm s) w then 1 else 0) - answered w' + answered w.
Proof.
  intros E D. unfold budget. cbn [rf_workers rf_pm]. pose proof (drops_pays _ _ (<[i := w']> (rf_workers s)) D) as P.
  rewrite length_insert in *. rewrite (sumZ_insert _ _ _ _ _ E). unfold stale in P at 2. rewrite (sumZ_insert _ _ _ _ _ E) in P.
  fold (stale (rf_pm s) (rf_workers s)) in P. lia.
Qed.
(** The answer to a probe *)
Lemma budget_complete s i a reqs res now w' b : wfRefresh s -> rf_workers s !! i = Some (WDone (a :: reqs) res None) -> inWindow T0 now ->
  (w' = WTop \/ w' = WEnd) ->
  budget (mkRefresh (CompleteProbe (rf_pm s) now (a :: reqs) res false) (<[i := w']> (rf_workers s)) (consecutiveErrors s) b (rf_cancelled s)) <= budget s.
Proof.
  intros H E Hw Hw'. destruct (CompleteProbe_drops T0 (rf_pm s) now a reqs res (wr_pm s H) Hw) as [D St].
  assert (W0 : forall m, staleW m w' = false) by (by destruct Hw' as [-> | ->]). assert (A0 : answered w' = 0) by (by destruct Hw' as [-> | ->]).
  destruct (availAt T0 (rf_pm s) (Bytes a)) eqn:A.
  - specialize (St eq_refl). unfold budget. cbn [rf_workers rf_pm]. rewrite length_insert, (sumZ_insert _ _ _ _ _ E), A0. simpl answered.
    pose proof (stale_bounds (rf_pm s) (rf_workers s)).
    assert (stale (CompleteProbe (rf_pm s) now (a :: reqs) res false) (<[i := w']> (rf_workers s)) <= Z.of_nat (length (rf_workers s)) - 1); [|nia].
    pose proof (lookup_lt_Some _ _ _ E) as L. rewrite insert_take_drop by done. unfold stale. rewrite sumZ_app, sumZ_cons, W0.
    pose proof (stale_bounds (CompleteProbe (rf_pm s) now (a :: reqs) res false) (take i (rf_workers s))) as B1.
    pose proof (stale_bounds (CompleteProbe (rf_pm s) now (a :: reqs) res false) (drop (S i) (rf_workers s))) as B2.
    rewrite length_take in B1. rewrite length_drop in B2. unfold stale in B1, B2. lia.
  - pose proof (budget_move s i _ w' _ (consecutiveErrors s) b (rf_cancelled s) E D) as P. rewrite W0, A0 in P. cbn [staleW primary answered] in P. rewrite A in P. cbn [negb] in P. lia.
Qed.
End measure.

(** ** Every step is paid for *)
Section step.
Context (T0 : Z).
Definition timely (e : rfEvent) : Prop := match e with RGet _ now | RComplete _ now => inWindow T0 now | _ => True end.
Definition answers (e : rfEvent) : Z := match e with RAnswer _ _ None => 1 | _ => 0 end.
Record stepOk (s s' : refresh) (e : rfEvent) : Prop := {
  so_wf : wfRefresh s';
  so_length : length (rf_workers s') = length (rf_workers s);
  so_addrs : addrs (rf_pm s') = addrs (rf_pm s);
  so_budget : budget T0 s' + answers e <= budget T0 s;
  so_measure : measure T0 s' + 1 <= measure T0 s }.

Lemma weights_move s i w w' c : rf_workers s !! i = Some w -> sumZ (weight c) (<[i := w']> (rf_workers s)) = sumZ (weight c) (rf_workers s) + weight c w' - weight c w.
Proof. apply sumZ_insert. Qed.
Lemma pmDrops_same m m' : mu T0 m' = mu T0 m -> (forall k, availAt T0 m' k = availAt T0 m k) -> pmDrops T0 m m'.
Proof. intros E A. split; [lia|]. intros k. rewrite A. by intros ->. Qed.
(** A move that leaves the counter of errors alone *)
Lemma move_ok s i w w' m b : wfRefresh s -> rf_workers s !! i = Some w ->
  wfRefresh (mkRefresh m (<[i := w']> (rf_workers s)) (consecutiveErrors s) b (rf_cancelled s)) -> addrs m = addrs (rf_pm s) ->
  budget T0 (mkRefresh m (<[i := w']> (rf_workers s)) (consecutiveErrors s) b (rf_cancelled s)) <= budget T0 s ->
  weight (rf_cancelled s) w' < weight (rf_cancelled s) w -> forall e, answers e = 0 ->
  stepOk s (mkRefresh m (<[i := w']> (rf_workers s)) (consecutiveErrors s) b (rf_cancelled s)) e.
Proof.
  intros H E W A B L e He. split; [done|apply length_insert|done|lia|]. unfold measure, errorsLeft. cbn [rf_workers rf_pm consecutiveErrors rf_cancelled].
  rewrite (weights_move s i w w' _ E). lia.
Qed.

Lemma top_ok s i : wfRefresh s -> rf_workers s !! i = Some WTop ->
  stepOk s (with_worker s i (if rf_cancelled s then WEnd else WGet) (rf_pm s)) (RTop i).
Proof.
  intros H E. set (w' := if rf_cancelled s then WEnd else WGet).
  assert (F : marked w' = None /\ hasProbe w' = true /\ staleW T0 (rf_pm s) w' = false /\ answered w' = 0) by (unfold w'; by destruct (rf_cancelled s)).
  destruct F as (F1 & F2 & F3 & F4).
  apply (move_ok s i WTop); [done|done|eapply wf_move; try done; [apply H|apply (wr_errors s H)]|done| |unfold w'; by destruct (rf_cancelled s)|done].
  etrans; [apply (budget_move T0 s i WTop w' _ _ _ _ E), pmDrops_same; done|]. rewrite F3, F4. simpl. lia.
Qed.
Lemma get_ok s i now : wfRefresh s -> rf_workers s !! i = Some WGet -> inWindow T0 now ->
  exists s', rfStep s (RGet i now) = Some s' /\ stepOk s s' (RGet i now).
Proof.
  intros H E Hw. cbn [rfStep]. rewrite E. destruct (GetProbe_ok T0 (rf_pm s) now (wr_pm s H) Hw (inProgress_nonneg s H)) as (m & reqs & -> & W & M & A & Ad & I1 & I2 & P).
  cbn [mbind option_bind]. eexists. split; [done|]. set (w' := match reqs with [] => WEnd | _ => WMark reqs end).
  assert (F : marked w' = None /\ hasProbe w' = true /\ staleW T0 (rf_pm s) w' = false /\ answered w' = 0 /\ weight (rf_cancelled s) w' < weight (rf_cancelled s) WGet).
  { unfold w'. destruct reqs as [|a r]; [by destruct (rf_cancelled s)|]. destruct (P a r eq_refl) as [_ Pa]. rewrite A in Pa. simpl. rewrite Pa. by destruct (rf_cancelled s). }
  destruct F as (F1 & F2 & F3 & F4 & F5). apply (move_ok s i WGet); [done|done|eapply wf_move; try done; apply (wr_errors s H)|done| |done|done].
  etrans; [apply (budget_move T0 s i WGet w' _ _ _ _ E), pmDrops_same; done|]. rewrite F3, F4. simpl. lia.
Qed.
Lemma mark_ok s i reqs : wfRefresh s -> rf_workers s !! i = Some (WMark reqs) ->
  stepOk s (with_worker s i (WAsk reqs) (MarkProbeInProgress (rf_pm s) reqs)) (RMark i).
Proof.
  intros H E. apply (move_ok s i (WMark reqs)); [done|done|by apply mark_wf|by destruct reqs| |by destruct (rf_cancelled s)|done].
  etrans; [apply (budget_move T0 s i (WMark reqs) _ _ _ _ _ E), pmDrops_same; by destruct reqs|]. simpl. lia.
Qed.
Lemma complete_ok s i reqs res err now w' b : wfRefresh s -> rf_workers s !! i = Some (WDone reqs res err) -> inWindow T0 now ->
  w' = (if isErrorPersistent err then WEnd else WTop) ->
  stepOk s (mkRefresh (CompleteProbe (rf_pm s) now reqs res (bool_decide (is_Some err))) (<[i := w']> (rf_workers s)) (consecutiveErrors s) b (rf_cancelled s)) (RComplete i now).
Proof.
  intros H E Hw Hw'. pose proof (wf_worker _ _ _ H E) as P. destruct reqs as [|a reqs]; [done|].
  assert (F : w' = WTop \/ w' = WEnd) by (destruct (isErrorPersistent err); eauto).
  apply (move_ok s i (WDone (a :: reqs) res err)); [done|done|by apply complete_wf; destruct F as [-> | ->]|apply CompleteProbe_progress| | |done].
  - destruct err as [e|]; [|by apply budget_complete].
    etrans; [apply (budget_move T0 s i _ w' _ _ _ _ E), pmDrops_same; by rewrite bool_decide_eq_true_2|]. destruct F as [-> | ->]; simpl; lia.
  - subst w'. unfold weight. destruct (rf_cancelled s), (isErrorPersistent err); lia.
Qed.
(** Twenty errors in a row are allowed, the next one stops its worker; an answer starts the count again. *)
Lemma countErrors_spec c err c' err' : 0 <= c -> countErrors c err = (c', err') ->
  0 <= c' /\ bool_decide (is_Some err') = bool_decide (is_Some err)
  /\ (err <> None -> err <> Some ErrCanceled -> c' = c + 1 /\ (isErrorPersistent err' = false -> c' <= maxConsecutiveErrors)).
Proof.
  intros C. destruct err as [e|]; cbn [countErrors].
  - case_decide; intros [= <- <-]; (split_and!; [lia|by rewrite !bool_decide_eq_true_2 by eauto|]); intros _ Hc; [congruence|].
    split; [done|]. cbn [isErrorPersistent cause tooManyConsecutiveFailures]. rewrite !orb_false_iff, Z.ltb_ge. lia.
  - by intros [= <- <-].
Qed.
Lemma answer_ok s i reqs res err s' : wfRefresh s -> rf_workers s !! i = Some (WAsk reqs) -> rfStep s (RAnswer i res err) = Some s' -> stepOk s s' (RAnswer i res err).
Proof.
  intros H E. cbn [rfStep]. rewrite E. destruct (bool_decide (err = Some ErrCanceled) && negb (rf_cancelled s)) eqn:Hc; [done|].
  destruct (countErrors (consecutiveErrors s) err) as [c' err'] eqn:Ce. destruct (countErrors_spec _ _ _ _ (wr_errors s H) Ce) as (C0 & Es & Ec).
  intros [= <-].
  assert (B : budget T0 (mkRefresh (rf_pm s) (<[i := WDone reqs res err']> (rf_workers s)) c' (rf_backoff s) (rf_cancelled s)) + answers (RAnswer i res err) <= budget T0 s).
  { pose proof (budget_move T0 s i (WAsk reqs) (WDone reqs res err') (rf_pm s) c' (rf_backoff s) (rf_cancelled s) E ltac:(by apply pmDrops_same)) as P.
    destruct err, err'; try done; cbn [staleW answered answers] in *; try case_match; lia. }
  split; [|apply length_insert|done|done|].
  - eapply wf_move; try done; [exact (wf_worker _ _ _ H E)|apply H].
  - unfold measure, errorsLeft. cbn [rf_workers rf_pm consecutiveErrors rf_cancelled]. rewrite (weights_move s i (WAsk reqs) _ _ E).
    pose proof (wr_errors s H) as C1. set (b' := budget T0 (mkRefresh _ _ _ _ _)) in *. clearbody b'. destruct (rf_cancelled s) eqn:X.
    { change (weight true (WDone reqs res err')) with 2. change (weight true (WAsk reqs)) with 3. unfold answers in B; destruct err; lia. }
    change (weight false (WDone reqs res err')) with (if isErrorPersistent err' then 6 else 11). change (weight false (WAsk reqs)) with 7.
    destruct err as [e|].
    + destruct (Ec ltac:(done)) as [-> Cp]; [intros [= ->]; by rewrite bool_decide_eq_true_2 in Hc|]. cbn [answers] in B.
      destruct (isErrorPersistent err'); [lia|]. specialize (Cp eq_refl). unfold maxConsecutiveErrors in Cp. lia.
    + cbn [answers] in B. destruct (isErrorPersistent err'); lia.
Qed.
Lemma cancel_ok s s' : wfRefresh s -> rfStep s RCancel = Some s' -> stepOk s s' RCancel.
Proof.
  intros H. simpl. destruct (rf_cancelled s) eqn:X; [done|]. intros [= <-]. split; simpl; [destruct H; by split|done|done|unfold budget; simpl; lia|].
  unfold measure, errorsLeft, budget. simpl. rewrite X. pose proof (wr_errors s H).
  assert (sumZ (weight true) (rf_workers s) <= sumZ (weight false) (rf_workers s)); [|lia].
  apply sumZ_le. intros w _. unfold weight. destruct w; try lia. destruct (isErrorPersistent err); lia.
Qed.

Lemma rfStep_ok s e s' : wfRefresh s -> timely e -> rfStep s e = Some s' -> stepOk s s' e.
Proof.
  intros H Ht. destruct e as [i|i now|i|i res err|i now|].
  - simpl. destruct (rf_workers s !! i) as [[]|] eqn:E; try done. intros [= <-]. by apply top_ok.
  - intros Es. assert (E : rf_workers s !! i = Some WGet) by (simpl in Es; by destruct (rf_workers s !! i) as [[]|]).
    destruct (get_ok s i now H E Ht) as (s2 & E2 & O). congruence.
  - simpl. destruct (rf_workers s !! i) as [[]|] eqn:E; try done. intros [= <-]. by apply mark_ok.
  - intros Es. assert (exists reqs, rf_workers s !! i = Some (WAsk reqs)) as [reqs E] by (simpl in Es; destruct (rf_workers s !! i) as [[]|]; try done; eauto).
    by eapply answer_ok.
  - cbn [rfStep]. destruct (rf_workers s !! i) as [[| | | |reqs res err|]|] eqn:E; try done.
    destruct (isErrorPersistent err) eqn:P; intros [= <-]; eapply complete_ok; try done; by rewrite P.
  - by apply cancel_ok.
Qed.
Lemma rfRun_ok s es s' : wfRefresh s -> Forall timely es -> rfRun s es = Some s' ->
  wfRefresh s' /\ length (rf_workers s') = length (rf_workers s) /\ addrs (rf_pm s') = addrs (rf_pm s)
  /\ budget T0 s' + sumZ answers es <= budget T0 s /\ measure T0 s' + Z.of_nat (length es) <= measure T0 s.
Proof.
  intros H Ht. revert s H. induction Ht as [|e es He Ht IH]; intros s H; simpl.
  { intros [= <-]. split_and!; done || lia. }
  destruct (rfStep s e) as [s1|] eqn:E; [|done]. destruct (rfStep_ok s e s1 H He E) as [O1 O2 O3 O4 O5]. intros R.
  destruct (IH s1 O1 R) as (R1 & R2 & R3 & R4 & R5). split_and!; [done|congruence|congruence|lia|lia].
Qed.
Lemma measure_nonneg s : wfRefresh s -> 0 <= measure T0 s.
Proof.
  intros H. pose proof (budget_nonneg T0 s H). unfold measure, errorsLeft. pose proof (wr_errors s H).
  assert (0 <= sumZ (weight (rf_cancelled s)) (rf_workers s)).
  { apply sumZ_nonneg. intros w _. unfold weight. destruct (rf_cancelled s), w; try lia. destruct (isErrorPersistent err); lia. }
  destruct (rf_cancelled s); lia.
Qed.
(** While a worker runs, one of its steps is possible. *)
Lemma rfStep_progress s : wfRefresh s -> ended s \/ exists e s', timely e /\ rfStep s e = Some s'.
Proof.
  intros H. assert (dec : forall w, {WEnd = w} + {WEnd <> w}) by (intros []; (by left) || (right; discriminate)).
  destruct (Forall_Exists_dec (eq WEnd) (fun w => WEnd <> w) dec (rf_workers s)) as [F|F]; [by left|right].
  apply Exists_exists in F as (w & (i & E)%list_elem_of_lookup & Hne).
  assert (Hw : inWindow T0 T0) by (unfold inWindow, recentProbeInterval, Minute, Second; lia).
  destruct w as [| |reqs|reqs|reqs res err|].
  - exists (RTop i). simpl. rewrite E. by eexists.
  - destruct (get_ok s i T0 H E Hw) as (s' & E' & _). by exists (RGet i T0), s'.
  - exists (RMark i). simpl. rewrite E. by eexists.
  - exists (RAnswer i (mkResult [] 0 ReachabilityUnknown true) None). simpl. rewrite E. by eexists.
  - exists (RComplete i T0). simpl. rewrite E. by eexists.
  - done.
Qed.
Lemma ended_marks s : wfRefresh s -> ended s -> inProgressProbes (rf_pm s) = ∅ /\ inProgressProbesTotal (rf_pm s) = 0.
Proof.
  intros H F. split.
  - apply map_empty. intros k. rewrite (wr_marks s H). unfold marks. rewrite sumZ_zero; [done|]. intros w Hw.
    unfold ended in F. rewrite Forall_forall in F. by rewrite <-(F w Hw).
  - rewrite (wr_total s H). unfold marksAll. apply sumZ_zero. intros w Hw. unfold ended in F. rewrite Forall_forall in F. by rewrite <-(F w Hw).
Qed.
End step.

Lemma start_wf m n : wfPM m -> inProgressProbes m = ∅ -> inProgressProbesTotal m = 0 -> wfRefresh (startRefresh m n).
Proof.
  intros W E T. assert (Z0 : forall f : worker -> Z, f WTop = 0 -> sumZ f (replicate n WTop) = 0).
  { intros f Hf. apply sumZ_zero. intros w (-> & _)%elem_of_replicate. done. }
  split; simpl; [done|by apply Forall_replicate| | |lia].
  - intros k. unfold marks. by rewrite E, Z0.
  - unfold marksAll. by rewrite T, Z0.
Qed.
Lemma start_budget T0 m n : budget T0 (startRefresh m n) = Z.of_nat n * mu T0 m /\ measure T0 (startRefresh m n) = 110 * (Z.of_nat n * mu T0 m) + 106 + 10 * Z.of_nat n.
Proof.
  assert (Zc : forall (f : worker -> Z), sumZ f (replicate n WTop) = Z.of_nat n * f WTop) by (intros f; induction n as [|n IH]; simpl; [lia|rewrite IH; lia]).
  unfold measure, errorsLeft, budget, stale. simpl. rewrite length_replicate, !Zc. simpl. lia.
Qed.

(** C36: A refresh comes to an end.  Whatever the client answers and however the
    steps of its [n] workers interleave within ten minutes (the context of a
    refresh ends after five), at most [60 * n] probes are answered for each tracked
    address and the number of steps is bounded; nothing panics, as long as a
    worker runs a step is possible, and when all have ended no probe is counted as
    being in progress. *)
Theorem refresh_terminates (T0 : Z) (m : probeManager) (n : nat) (es : list rfEvent) (s : refresh) :
  wfPM m -> inProgressProbes m = ∅ -> inProgressProbesTotal m = 0 ->
  Forall (timely T0) es -> rfRun (startRefresh m n) es = Some s ->
  sumZ answers es <= 60 * Z.of_nat n * Z.of_nat (size (statuses m))
  /\ Z.of_nat (length es) <= 6600 * Z.of_nat n * Z.of_nat (size (statuses m)) + 106 + 10 * Z.of_nat n
  /\ (ended s \/ exists e s', timely T0 e /\ rfStep s e = Some s')
  /\ (ended s -> inProgressProbes (rf_pm s) = ∅ /\ inProgressProbesTotal (rf_pm s) = 0).
Proof.
  intros W E T Ht R. pose proof (start_wf m n W E T) as W0. destruct (start_budget T0 m n) as [B0 M0].
  destruct (rfRun_ok T0 _ _ _ W0 Ht R) as (W' & _ & _ & B & M). pose proof (budget_nonneg T0 s W'). pose proof (measure_nonneg T0 s W').
  pose proof (mu_bound T0 m W) as Mu. split_and!; [nia|nia|by apply rfStep_progress|by apply ended_marks].
Qed.

(** ** The tracked addresses *)
Lemma keepStatus_fold old l st a : (a ∈ l \/ is_Some (st !! Bytes a)) -> is_Some (fold_left (keepStatus old) l st !! Bytes a).
Proof.
  revert st. induction l as [|b l IH]; intros st H; simpl; [destruct H; [set_solver|done]|]. apply IH. unfold keepStatus.
  destruct (decide (Bytes a = Bytes b)) as [->|N]; [right; rewrite lookup_insert_eq; eauto|]. rewrite lookup_insert_ne by done.
  destruct H as [[->|H]%elem_of_cons|H]; [done|by left|by right].
Qed.
Lemma keepStatus_wf old l st : wfMap old -> wfMap st -> wfMap (fold_left (keepStatus old) l st).
Proof.
  intros Ho. revert st. induction l as [|b l IH]; intros st H; simpl; [done|]. apply IH. unfold keepStatus. intros k s.
  destruct (decide (k = Bytes b)) as [->|N]; [|rewrite lookup_insert_ne by done; apply H]. rewrite lookup_insert_eq. intros [= <-].
  destruct (old !! Bytes b) as [s|] eqn:E; [apply (Ho _ _ E)|by split].
Qed.
Lemma UpdateProbedAddrs_wf `{Sorter} m l : wfPM m -> wfPM (UpdateProbedAddrs m l).
Proof.
  intros [_ H2]. split.
  - intros a Ha. apply keepStatus_fold. by left.
  - apply keepStatus_wf; [exact H2|]. intros k s. by rewrite lookup_empty.
Qed.
Lemma newProbeManager_wf : wfPM newProbeManager.
Proof. split; [set_solver|]. intros k s E. cbn in E. by rewrite lookup_empty in E. Qed.

Module RefreshExample.
Definition pubAddr (n : Byte.byte) : Multiaddr :=
  [mkComponent [Byte.x04; Byte.x05; Byte.x01; Byte.x01; n] None 1].
Definition tracked : probeManager := @UpdateProbedAddrs mergeSorter newProbeManager [pubAddr Byte.x07].
Definition ok : Result := mkResult (pubAddr Byte.x07) 0 ReachabilityPublic false.
(** Two workers, three answers *)
Definition steps : list rfEvent :=
  [RTop 0; RGet 0 0; RTop 1; RMark 0; RGet 1 5; RMark 1; RAnswer 1 ok None; RAnswer 0 ok None; RComplete 1 20; RComplete 0 10;
   RTop 0; RGet 0 30; RMark 0; RTop 1; RAnswer 0 ok None; RComplete 0 40; RGet 1 50; RTop 0; RGet 0 60].
Definition final : refresh := default (startRefresh tracked 2) (rfRun (startRefresh tracked 2) steps).
End RefreshExample.
Lemma refresh_terminates_witness :
  rfRun (startRefresh RefreshExample.tracked 2) RefreshExample.steps = Some RefreshExample.final
  /\ sumZ answers RefreshExample.steps = 3 /\ ended RefreshExample.final
  /\ inProgressProbesTotal (rf_pm RefreshExample.final) = 0.
Proof.
  assert (R : rfRun (startRefresh RefreshExample.tracked 2) RefreshExample.steps = Some RefreshExample.final) by (vm_compute; reflexivity).
  assert (E : ended RefreshExample.final) by (unfold ended; vm_compute; repeat constructor).
  assert (T : Forall (timely 0) RefreshExample.steps) by (repeat constructor; vm_compute; congruence).
  destruct (refresh_terminates 0 RefreshExample.tracked 2 RefreshExample.steps RefreshExample.final
    (UpdateProbedAddrs_wf _ _ newProbeManager_wf) eq_refl eq_refl T R) as (_ & _ & _ & F).
  split; [exact R|]. split; [reflexivity|]. split; [exact E|]. exact (proj2 (F E)).
Defined.

(** ** What the reachability tracker publishes

    The tracker starts at most one task at a time, waits for its workers before
    it changes the tracked addresses, publishes every address in the list of its
    reachability, and notifies exactly when one of the lists has changed. *)
(** ** Comparing lists of addresses *)
Definition sameAddrs (l k : list Multiaddr) : Prop := forall x, Contains l x = Contains k x.
#[export] Instance sameAddrs_equiv : Equivalence sameAddrs.
Proof. split; [done|by intros l k H x|]. intros l k j H1 H2 x. by rewrite H1, H2. Qed.

Lemma Contains_perm l k : l ≡ₚ k -> sameAddrs l k.
Proof.
  intros H x. apply eq_true_iff_eq. rewrite !Contains_spec. split; intros (a & Ha & E); exists a; (split; [|done]); by rewrite H in * || by rewrite <-H.
Qed.
Lemma Compare_bytes_r (a b b' : Multiaddr) : Equal b b' = true -> Compare a b = Compare a b'.
Proof. intros E. rewrite (Compare_opp b a), (Compare_opp b' a). f_equal. by apply Compare_bytes. Qed.
(** Strictly increasing lists with the same addresses are equal, address by address. *)
Lemma strict_same l k : StronglySorted maLt l -> StronglySorted maLt k -> sameAddrs l k -> Forall2 (fun a b => Equal a b = true) l k.
Proof.
  intros Sl. revert k. induction Sl as [|a l Sl IH Ha]; intros k Sk H.
  - destruct k as [|b k]; [done|]. specialize (H b). cbn in H. by rewrite Equal_refl in H.
  - destruct Sk as [|b k Sk Hb]; [specialize (H a); cbn in H; by rewrite Equal_refl in H|].
    rewrite Forall_forall in Ha, Hb.
    assert (Eab : Equal a b = true).
    { apply Compare_zero.
      assert (C1 : exists y, y ∈ b :: k /\ Equal a y = true) by (apply Contains_spec; rewrite <-H; apply Contains_spec; exists a; split; [by constructor|apply Equal_refl]).
      assert (C2 : exists y, y ∈ a :: l /\ Equal b y = true) by (apply Contains_spec; rewrite H; apply Contains_spec; exists b; split; [by constructor|apply Equal_refl]).
      destruct C1 as (y & [->|Hy]%elem_of_cons & E1); [by apply Compare_zero|]. destruct C2 as (z & [->|Hz]%elem_of_cons & E2).
      { rewrite (Compare_opp b a). apply Compare_zero in E2. lia. }
      pose proof (Hb _ Hy) as L1. pose proof (Ha _ Hz) as L2. unfold maLt in *. rewrite (Compare_bytes_r a z b) in L2 by (by apply Equal_sym).
      rewrite (Compare_bytes_r b y a) in L1 by (by apply Equal_sym). rewrite (Compare_opp b a) in *. lia. }
    constructor; [done|]. apply IH; [done|]. intros x. apply eq_true_iff_eq. rewrite !Contains_spec.
    assert (G : forall a b l k, Equal a b = true -> sameAddrs (a :: l) (b :: k) -> (forall y, y ∈ l -> maLt a y) -> (exists y, y ∈ l /\ Equal x y = true) -> exists y, y ∈ k /\ Equal x y = true).
    { clear. intros a b l k Eab H Ha (y & Hy & E). specialize (Ha _ Hy). unfold maLt in Ha.
      assert (C : exists z, z ∈ b :: k /\ Equal x z = true) by (apply Contains_spec; rewrite <-H; apply Contains_spec; exists y; split; [by constructor|done]).
      destruct C as (z & [->|Hz]%elem_of_cons & E'); [|eauto].
      assert (Equal a y = true) as E0%Compare_zero by (rewrite Equal_spec in *; congruence). lia. }
    split; [by apply (G a b)|]. apply (G b a); [by apply Equal_sym|by symmetry|done].
Qed.

Section compare.
Context `{SL : SorterLaws}.
Lemma compactLoop_places js idx (A : list Multiaddr) :
  ((compactLoop js idx A).1 <= idx + length js)%nat /\ length (compactLoop js idx A).2 = length A /\ forall x, x ∈ (compactLoop js idx A).2 -> x ∈ A.
Proof.
  revert idx A. induction js as [|j js IH]; intros idx A; simpl; [split_and!; done || lia|].
  destruct (A !! (j - 1)%nat) as [m|] eqn:E1; [|split_and!; done || (simpl; lia)].
  destruct (A !! j) as [b|] eqn:E2; [|split_and!; done || (simpl; lia)]. destruct (Equal m b).
  - destruct (IH idx A) as (H1 & H2 & H3). split_and!; done || lia.
  - destruct (IH (S idx) (<[idx := b]> A)) as (H1 & H2 & H3). rewrite length_insert in H2. split_and!; [lia|done|]. intros x Hx%H3.
    apply list_elem_of_lookup in Hx as (i & Hi). apply list_lookup_insert_Some in Hi as [(-> & -> & _)|(_ & Hi)]; by eapply list_elem_of_lookup_2.
Qed.
Lemma uniqueInPlace_spec l : let '(i, arr) := uniqueInPlace l in take i arr = Unique l /\ i = length (Unique l) /\ (forall a, a ∈ arr -> a ∈ l).
Proof.
  unfold uniqueInPlace, Unique. destruct l as [|a l]; [done|]. set (s := SortFunc Compare (a :: l)).
  assert (Hs : s ≡ₚ a :: l) by apply SortFunc_perm. assert (Ls : length s = S (length l)) by (by rewrite Hs).
  destruct (compactLoop_places (seq 1 (length s - 1)) 1 s) as (H1 & H2 & H3). destruct (compactLoop _ _ _) as [i arr]. simpl in *.
  rewrite length_seq in H1. split_and!; [done|rewrite length_take; lia|]. intros x Hx%H3. by rewrite <-Hs.
Qed.
Lemma uniqueInPlace_same l : let '(i, arr) := uniqueInPlace l in sameAddrs arr l.
Proof.
  pose proof (uniqueInPlace_spec l) as H. destruct (uniqueInPlace l) as [i arr]. destruct H as (H1 & _ & H2). intros x.
  apply eq_true_iff_eq. split.
  - rewrite !Contains_spec. intros (a & Ha%H2 & E). eauto.
  - destruct (Unique_spec l) as (_ & _ & U). rewrite <-U, <-H1, !Contains_spec. intros (a & Ha & E). exists a. split; [|done].
    rewrite <-(take_drop i arr). apply elem_of_app. by left.
Qed.
Lemma sort_unique l : SortFunc Compare (Unique l) = Unique l.
Proof.
  destruct (Unique_spec l) as (S & _ & _). apply (StronglySorted_unique_strong maLe); [| | |apply SortFunc_perm].
  - intros a b Ha Hb L1 L2. rewrite SortFunc_perm in Ha. unfold maLe in *. rewrite (Compare_opp a b) in L2.
    assert (Z0 : Compare a b = 0) by lia. clear -S Ha Hb Z0. induction S as [|x k S IH Hx]; [set_solver|]. rewrite Forall_forall in Hx.
    apply elem_of_cons in Ha as [->|Ha], Hb as [->|Hb]; [done| | |auto].
    + specialize (Hx _ Hb). unfold maLt in Hx. lia.
    + specialize (Hx _ Ha). unfold maLt in Hx. rewrite (Compare_opp a x) in Hx. lia.
  - apply Sorted_StronglySorted; [apply maLe_trans|apply SortFunc_sorted].
  - clear -S. induction S as [|x k S IH Hx]; constructor; [done|]. eapply Forall_impl; [exact Hx|]. unfold maLt, maLe. lia.
Qed.
(** The comparison is that of sets, and sorting in place loses no address. *)
Lemma areAddrsDifferent_spec prev current : let '(d, prev', current') := areAddrsDifferent prev current in
  sameAddrs prev' prev /\ sameAddrs current' current /\ (d = false <-> sameAddrs prev current).
Proof.
  unfold areAddrsDifferent. pose proof (uniqueInPlace_spec prev) as P. pose proof (uniqueInPlace_same prev) as P2.
  pose proof (uniqueInPlace_spec current) as C. pose proof (uniqueInPlace_same current) as C2.
  destruct (uniqueInPlace prev) as [i pa], (uniqueInPlace current) as [j ca]. destruct P as (P1 & P3 & _), C as (C1 & C3 & _).
  destruct (Unique_spec prev) as (Sp & _ & Up), (Unique_spec current) as (Sc & _ & Uc).
  assert (F : sameAddrs prev current <-> Forall2 (fun a b => Equal a b = true) (Unique prev) (Unique current)).
  { split.
    - intros H. apply strict_same; [done..|]. intros x. by rewrite Up, Uc.
    - intros H x. rewrite <-Up, <-Uc. clear -H. induction H as [|a b l k E H IH]; [done|]. simpl. f_equal; [|apply IH].
      apply eq_true_iff_eq. rewrite !Equal_spec in *. split; congruence. }
  destruct (Nat.eqb_spec i j) as [Eij|Nij]; cbn [negb].
  - rewrite P1, C1, !sort_unique. rewrite <-P1 at 1. rewrite <-C1 at 1. rewrite !take_drop. split_and!; [done..|].
    rewrite F, negb_false_iff, forallb_forall. assert (E : length (Unique prev) = length (Unique current)) by congruence. clear -E.
    generalize dependent (Unique current). induction (Unique prev) as [|a l IH]; intros [|b k] E; try done; simpl.
    rewrite Forall2_cons, <-IH by (simpl in E; lia). split.
    + intros H. split; [apply (H (a, b)); by left|]. intros x Hx. apply H. by right.
    + intros [H1 H2] x [<-|Hx]; [done|by apply H2].
  - split_and!; [done..|]. split; [done|]. intros H%F%Forall2_length. congruence.
Qed.
End compare.

(** ** The confirmed addresses *)
Definition listOf (ls : addrLists) (rch : Reachability) : list Multiaddr :=
  match rch with ReachabilityPublic => ls.1.1 | ReachabilityPrivate => ls.1.2 | ReachabilityUnknown => ls.2 end.
Definition flat (ls : addrLists) : list Multiaddr := ls.1.1 ++ ls.1.2 ++ ls.2.
Lemma confirmLoop_ok clk l st r u k : wfMap st -> (forall a, a ∈ l -> is_Some (st !! Bytes a)) ->
  exists st' ls, confirmLoop clk l st r u k = Some (st', (r ++ ls.1.1, u ++ ls.1.2, k ++ ls.2)) /\ flat ls ≡ₚ l /\ wfMap st'
    /\ (forall j, is_Some (st' !! j) <-> is_Some (st !! j)) /\ (forall j, j ∉ Bytes <$> l -> st' !! j = st !! j)
    /\ (NoDup (Bytes <$> l) -> forall a, a ∈ l -> exists s, st' !! Bytes a = Some s /\ a ∈ listOf ls (reachabilityOf s)).
Proof.
  revert clk st r u k. induction l as [|a l IH]; intros clk st r u k W Hc; simpl.
  { exists st, ([], [], []). simpl. rewrite !app_nil_r. split_and!; try done. set_solver. }
  destruct (Hc a) as [s E]; [by constructor|]. rewrite E. cbn [mbind option_bind]. set (s' := RemoveBefore s _). set (st1 := <[Bytes a := s']> st).
  assert (W1 : wfMap st1).
  { intros j x. unfold st1. destruct (decide (j = Bytes a)) as [->|J]; [|rewrite lookup_insert_ne by done; apply W].
    rewrite lookup_insert_eq. intros [= <-]. by apply RemoveBefore_wf, (W _ _ E). }
  assert (D1 : forall j, is_Some (st1 !! j) <-> is_Some (st !! j)).
  { intros j. unfold st1. destruct (decide (j = Bytes a)) as [->|J]; [|by rewrite lookup_insert_ne]. rewrite lookup_insert_eq, E. split; eauto. }
  assert (Hc1 : forall b, b ∈ l -> is_Some (st1 !! Bytes b)) by (intros b Hb; apply D1, Hc; by constructor).
  set (grow := fun ls : addrLists => match reachabilityOf s' with
    | ReachabilityPublic => (a :: ls.1.1, ls.1.2, ls.2) | ReachabilityPrivate => (ls.1.1, a :: ls.1.2, ls.2) | ReachabilityUnknown => (ls.1.1, ls.1.2, a :: ls.2) end).
  assert (G : exists st' ls, (match reachabilityOf s' with
    | ReachabilityPublic => confirmLoop (fun i => clk (S i)) l st1 (r ++ [a]) u k
    | ReachabilityPrivate => confirmLoop (fun i => clk (S i)) l st1 r (u ++ [a]) k
    | ReachabilityUnknown => confirmLoop (fun i => clk (S i)) l st1 r u (k ++ [a]) end)
      = Some (st', (r ++ (grow ls).1.1, u ++ (grow ls).1.2, k ++ (grow ls).2)) /\ flat ls ≡ₚ l /\ wfMap st'
    /\ (forall j, is_Some (st' !! j) <-> is_Some (st1 !! j)) /\ (forall j, j ∉ Bytes <$> l -> st' !! j = st1 !! j)
    /\ (NoDup (Bytes <$> l) -> forall b, b ∈ l -> exists s, st' !! Bytes b = Some s /\ b ∈ listOf ls (reachabilityOf s))).
  { unfold grow. destruct (reachabilityOf s');
      [destruct (IH (fun i => clk (S i)) st1 r u (k ++ [a]) W1 Hc1) as (st' & ls & -> & H)
      |destruct (IH (fun i => clk (S i)) st1 (r ++ [a]) u k W1 Hc1) as (st' & ls & -> & H)
      |destruct (IH (fun i => clk (S i)) st1 r (u ++ [a]) k W1 Hc1) as (st' & ls & -> & H)];
      exists st', ls; (split; [by rewrite <-?app_assoc|exact H]). }
  destruct G as (st' & ls & -> & P & W' & D & Fr & C). exists st', (grow ls). split; [done|]. split_and!.
  - unfold flat, grow in *. rewrite <-P. destruct (reachabilityOf s'); simpl; [|done|by rewrite <-Permutation_middle]. by rewrite (app_assoc ls.1.1), <-Permutation_middle, <-app_assoc.
  - done.
  - intros j. by rewrite D, D1.
  - intros j Hj. rewrite Fr by set_solver. unfold st1. rewrite lookup_insert_ne; [done|]. set_solver.
  - rewrite NoDup_cons. intros [Na Nd] b [->|Hb]%elem_of_cons.
    + exists s'. rewrite Fr by done. unfold st1. rewrite lookup_insert_eq. split; [done|]. unfold grow. destruct (reachabilityOf s'); simpl; by constructor.
    + destruct (C Nd b Hb) as (x & Ex & Hx). exists x. split; [done|]. unfold grow. destruct (reachabilityOf s'), (reachabilityOf x); simpl in *; try done; by constructor.
Qed.

(** ** One iteration *)
Definition sameLists (x y : addrLists) : Prop := forall rch, sameAddrs (listOf x rch) (listOf y rch).
Definition confirmed (t : tracker) : Prop :=
  NoDup (Bytes <$> addrs (rf_pm (tr_run t))) ->
  forall a, a ∈ addrs (rf_pm (tr_run t)) -> exists s, statuses (rf_pm (tr_run t)) !! Bytes a = Some s /\ a ∈ listOf (tr_published t) (reachabilityOf s).
Record published (t t' : tracker) : Prop := {
  pb_run : exists m, tr_run t' = mkRefresh m (rf_workers (tr_run t)) (consecutiveErrors (tr_run t)) (rf_backoff (tr_run t)) (rf_cancelled (tr_run t))
    /\ wfPM m /\ addrs m = addrs (rf_pm (tr_run t)) /\ inProgressProbes m = inProgressProbes (rf_pm (tr_run t)) /\ inProgressProbesTotal m = inProgressProbesTotal (rf_pm (tr_run t));
  pb_rest : tr_task t' = tr_task t /\ backoffInterval t' = backoffInterval t /\ tr_draining t' = tr_draining t /\ tr_closed t' = tr_closed t /\ nextProbeTime t' = nextProbeTime t;
  pb_perm : flat (tr_published t') ≡ₚ addrs (rf_pm (tr_run t'));
  pb_confirmed : confirmed t';
  pb_prev : sameLists (tr_prev t') (tr_published t');
  pb_same : sameLists (tr_prev t) (tr_published t') -> tr_notified t' = tr_notified t;
  pb_diff : ~ sameLists (tr_prev t) (tr_published t') -> tr_notified t' = S (tr_notified t) }.
Section iteration.
Context `{SL : SorterLaws}.
Lemma publish_ok t clk : wfPM (rf_pm (tr_run t)) -> exists t', publish t clk = Some t' /\ published t t'.
Proof.
  intros [W1 W2]. unfold publish, AppendConfirmedAddrs.
  destruct (confirmLoop_ok clk (addrs (rf_pm (tr_run t))) (statuses (rf_pm (tr_run t))) [] [] [] W2 W1) as (st' & [[r u] k] & -> & P & W' & D & _ & C).
  cbn [mbind option_bind app fst snd]. destruct (tr_prev t) as [[pr pu] pk] eqn:Ep.
  pose proof (areAddrsDifferent_spec pr r) as A1. destruct (areAddrsDifferent pr r) as [[d1 pr'] r']. destruct A1 as (_ & R1 & B1).
  assert (A2 : exists d2 pu' u', (if d1 : bool then (true, pu, u) else areAddrsDifferent pu u) = (d2, pu', u') /\ sameAddrs u' u
    /\ (d2 = false <-> sameAddrs pr r /\ sameAddrs pu u)).
  { pose proof (areAddrsDifferent_spec pu u) as A. destruct d1; [exists true, pu, u; split_and!; done || naive_solver|].
    destruct (areAddrsDifferent pu u) as [[d2 pu'] u']. exists d2, pu', u'. destruct A as (_ & R & B). split_and!; naive_solver. }
  destruct A2 as (d2 & pu' & u' & -> & R2 & B2).
  assert (A3 : exists d3 pk' k', (if d2 : bool then (true, pk, k) else areAddrsDifferent pk k) = (d3, pk', k') /\ sameAddrs k' k
    /\ (d3 = false <-> (sameAddrs pr r /\ sameAddrs pu u) /\ sameAddrs pk k)).
  { pose proof (areAddrsDifferent_spec pk k) as A. destruct d2; [exists true, pk, k; split_and!; done || naive_solver|].
    destruct (areAddrsDifferent pk k) as [[d3 pk'] k']. exists d3, pk', k'. destruct A as (_ & R & B). split_and!; naive_solver. }
  destruct A3 as (d3 & pk' & k' & -> & R3 & B3). eexists. split; [done|].
  assert (B : d3 = false <-> sameLists (pr, pu, pk) (r, u, k)).
  { rewrite B3. split; [intros [[? ?] ?] []; done|]. intros H. split; [split|]; [apply (H ReachabilityPublic)|apply (H ReachabilityPrivate)|apply (H ReachabilityUnknown)]. }
  split; cbn [tr_run tr_task backoffInterval tr_draining tr_closed nextProbeTime tr_published tr_prev tr_notified rf_pm]; rewrite ?Ep.
  - exists (set_statuses (rf_pm (tr_run t)) st'). split_and!; try done. split; [|exact W']. intros a Ha. apply D, W1, Ha.
  - done.
  - done.
  - exact C.
  - intros []; done.
  - intros H%B. by rewrite H.
  - intros H. destruct d3; [done|]. by destruct H; apply B.
Qed.
End iteration.

(** ** The invariant *)
Record preOk (t : tracker) : Prop := {
  to_run : wfRefresh (tr_run t);
  to_task : tr_task t = false -> rf_workers (tr_run t) = [];
  to_drain : tr_draining t <> None -> tr_task t = true;
  to_size : (length (addrs (rf_pm (tr_run t))) <= maxTrackedAddrs)%nat;
  to_public : Forall (fun a => IsPublicAddr a = true) (addrs (rf_pm (tr_run t)));
  to_backoff : backoffInterval t <= maxBackoffInterval }.
Record trOk (t : tracker) : Prop := {
  to_pre : preOk t;
  to_perm : flat (tr_published t) ≡ₚ addrs (rf_pm (tr_run t));
  to_prev : sameLists (tr_prev t) (tr_published t) }.
(** Notified exactly when a list has changed *)
Definition notifies (t t' : tracker) : Prop :=
  (sameLists (tr_published t) (tr_published t') -> tr_notified t' = tr_notified t)
  /\ (~ sameLists (tr_published t) (tr_published t') -> tr_notified t' = S (tr_notified t)).

Lemma sameLists_sym x y : sameLists x y -> sameLists y x.
Proof. intros H rch. symmetry. apply H. Qed.
Lemma sameLists_trans x y z : sameLists x y -> sameLists y z -> sameLists x z.
Proof. intros H1 H2 rch. etrans; [apply H1|apply H2]. Qed.
Lemma quiet_notifies t t' : tr_published t' = tr_published t -> tr_notified t' = tr_notified t -> notifies t t'.
Proof. intros E N. unfold notifies. rewrite E. split; [intros _; exact N|]. intros H. destruct H. intros rch. reflexivity. Qed.

(** The steps of workers, at any time *)
Lemma rfStep_wf s e s' : wfRefresh s -> rfStep s e = Some s' -> wfRefresh s' /\ addrs (rf_pm s') = addrs (rf_pm s).
Proof.
  intros H E. set (T0 := match e with RGet _ now | RComplete _ now => now | _ => 0 end).
  destruct (rfStep_ok T0 s e s' H) as [O1 _ O3 _ _]; [|done|done]. unfold T0. destruct e; simpl; try done; unfold inWindow, recentProbeInterval, Minute, Second; lia.
Qed.
Lemma noTask_wf m : wfPM m -> inProgressProbes m = ∅ -> inProgressProbesTotal m = 0 -> wfRefresh (noTask m).
Proof. apply (start_wf m 0). Qed.
Lemma endedb_ended r : endedb r = true -> ended r.
Proof. unfold endedb, ended. rewrite forallb_forall, Forall_forall. intros H w Hw. specialize (H w (proj1 (list_elem_of_In _ _) Hw)). by destruct w. Qed.
Lemma idle_progress t : preOk t -> (tr_task t = false \/ endedb (tr_run t) = true) ->
  inProgressProbes (rf_pm (tr_run t)) = ∅ /\ inProgressProbesTotal (rf_pm (tr_run t)) = 0.
Proof.
  intros H [E|E]; apply (ended_marks _ (to_run t H)); [|by apply endedb_ended]. unfold ended. by rewrite (to_task t H E).
Qed.

Lemma refreshReachability_ok t now : preOk t -> tr_task t = false -> exists t', refreshReachability t now = Some t' /\ preOk t'
  /\ addrs (rf_pm (tr_run t')) = addrs (rf_pm (tr_run t)) /\ tr_published t' = tr_published t /\ tr_prev t' = tr_prev t /\ tr_notified t' = tr_notified t.
Proof.
  intros H E. destruct (idle_progress t H (or_introl E)) as [I1 I2]. unfold refreshReachability.
  destruct (GetProbe_ok now (rf_pm (tr_run t)) now (wr_pm _ (to_run t H))) as (m & reqs & -> & W & _ & _ & A & P1 & P2 & _).
  { unfold inWindow, recentProbeInterval, Minute, Second. lia. }
  { apply (inProgress_nonneg _ (to_run t H)). }
  cbn [mbind option_bind]. eexists. split; [done|]. rewrite I1 in P1. rewrite I2 in P2.
  assert (D : tr_draining t = None) by (destruct (tr_draining t) eqn:D; [|done]; rewrite (to_drain t H) in E; [done|by rewrite D]).
  destruct reqs as [|a r]; (split; [|done]); (split; simpl; [by apply (start_wf m 0) || by apply start_wf|done|by rewrite D|rewrite A; apply H|rewrite A; apply H|apply H]).
Qed.

Section tracker.
Context `{SL : SorterLaws}.
Lemma updateTrackedAddrs_ok m l : wfPM m -> wfPM (updateTrackedAddrs m l) /\ (length (addrs (updateTrackedAddrs m l)) <= maxTrackedAddrs)%nat
  /\ Forall (fun a => IsPublicAddr a = true) (addrs (updateTrackedAddrs m l)).
Proof.
  intros W. split; [by apply UpdateProbedAddrs_wf|]. unfold updateTrackedAddrs. cbn [addrs UpdateProbedAddrs]. rewrite SortFunc_perm, length_take. split; [lia|].
  apply Forall_take, Forall_forall. intros a Ha. by apply list_elem_of_filter in Ha as [? _].
Qed.
Lemma applyAddrs_ok t l now : preOk t -> (tr_task t = false \/ endedb (tr_run t) = true) -> preOk (undrain (applyAddrs t l now)).
Proof.
  intros H E. destruct (idle_progress t H E) as [I1 I2]. destruct (updateTrackedAddrs_ok (rf_pm (tr_run t)) l (wr_pm _ (to_run t H))) as (W & L & F).
  split; simpl; [by apply noTask_wf|done|done|done|done|apply H].
Qed.
Lemma cancelTask_ok t why : preOk t -> tr_task t = true -> preOk (cancelTask t why).
Proof. intros H E. split; simpl; [destruct (to_run t H); by split|by rewrite E|done|apply H|apply H|apply H]. Qed.
Lemma closeTracker_ok t : preOk t -> (tr_task t = false \/ endedb (tr_run t) = true) -> preOk (closeTracker t).
Proof. intros H E. destruct (idle_progress t H E) as [I1 I2]. split; simpl; [by apply noTask_wf; [apply (wr_pm _ (to_run t H))|..]|done|done|apply H|apply H|apply H]. Qed.

(** Publishing from a state [t1] that the iteration has prepared from [t] *)
Lemma publish_step t t1 clk : trOk t -> preOk t1 -> tr_prev t1 = tr_prev t -> tr_notified t1 = tr_notified t ->
  exists t', publish t1 clk = Some t' /\ trOk t' /\ notifies t t' /\ confirmed t'.
Proof.
  intros H H1 Ep En. destruct (publish_ok t1 clk (wr_pm _ (to_run t1 H1))) as (t' & E & [(m & Er & W & A & P1 & P2) (R1 & R2 & R3 & R4 & R5) Pp Pc Pv Ps Pd]).
  exists t'. split; [done|]. split_and!; [|split|done].
  - split; [|done|done]. split; rewrite ?R1, ?R2, ?R3, ?Er; cbn [rf_pm rf_workers]; rewrite ?A; try apply H1.
    destruct (to_run t1 H1) as [F1 F2 F3 F4 F5]. split; cbn [rf_pm rf_workers consecutiveErrors]; [done|done|by rewrite P1|by rewrite P2|done].
  - rewrite <-En. intros S. apply Ps. rewrite Ep. by eapply sameLists_trans, S; apply (to_prev t H).
  - rewrite <-En. intros S. apply Pd. rewrite Ep. intros S'. apply S. eapply sameLists_trans, S'. by apply sameLists_sym, (to_prev t H).
Qed.

(** The states from which an iteration publishes *)
Lemma ticker_ok t now : preOk t -> exists t1, (if negb (tr_task t) && bool_decide (nextProbeTime t = None) then refreshReachability t now else Some t) = Some t1
  /\ preOk t1 /\ tr_prev t1 = tr_prev t /\ tr_notified t1 = tr_notified t.
Proof.
  intros H. destruct (tr_task t) eqn:E; simpl; [by exists t|]. case_bool_decide; [|by exists t].
  destruct (refreshReachability_ok t now H E) as (t1 & -> & H1 & _ & _ & P & N). by exists t1.
Qed.
Lemma timer_ok t now : preOk t -> exists t1, (if negb (tr_task t) then refreshReachability t now else Some t) = Some t1
  /\ preOk (with_next t1 None) /\ tr_prev t1 = tr_prev t /\ tr_notified t1 = tr_notified t.
Proof.
  intros H. destruct (tr_task t) eqn:E; simpl; [exists t; split_and!; try done; by destruct H; split|].
  destruct (refreshReachability_ok t now H E) as (t1 & -> & H1 & _ & _ & P & N). exists t1. split_and!; try done. by destruct H1; split.
Qed.
Lemma newBackoffInterval_max d : newBackoffInterval d <= maxBackoffInterval.
Proof. unfold newBackoffInterval, backoffStartInterval, maxBackoffInterval, Minute, Second. destruct (Z.leb_spec d 0); [lia|]. case_match; lia. Qed.
Lemma backoff_pre t now : preOk t -> endedb (tr_run t) = true ->
  let b := if rf_backoff (tr_run t) then newBackoffInterval (backoffInterval t) else -1 * Second in
  preOk (mkTracker (noTask (rf_pm (tr_run t))) false (Some (now + b)) b (tr_published t) (tr_prev t) (tr_notified t) None false).
Proof.
  intros H E b. destruct (idle_progress t H (or_intror E)) as [I1 I2].
  split; simpl; [by apply noTask_wf; [apply (wr_pm _ (to_run t H))|..]|done|done|apply H|apply H|].
  unfold b. destruct (rf_backoff (tr_run t)); [apply newBackoffInterval_max|]. unfold maxBackoffInterval, Minute, Second. lia.
Qed.
Lemma workerStep_ok t e r : trOk t -> tr_task t = true -> rfStep (tr_run t) e = Some r -> trOk (with_task t r true) /\ notifies t (with_task t r true).
Proof.
  intros [H P V] E R. destruct (rfStep_wf _ _ _ (to_run t H) R) as [W A]. split; [|by apply quiet_notifies].
  split; simpl; [|by rewrite A|done]. destruct H. split; simpl; rewrite ?A; try done.
Qed.
Lemma undrained_ok t l now : preOk t -> tr_task t = false -> preOk (applyAddrs t l now).
Proof.
  intros H E. pose proof (applyAddrs_ok t l now H (or_introl E)) as [F1 F2 F3 F4 F5 F6]. split; try done.
  intros D. by rewrite (to_drain t H) in E.
Qed.

(** Does the step end an iteration? *)
Definition endsIteration (e : trEvent) (t' : tracker) : Prop := match e with TWorker _ => False | _ => tr_draining t' = None /\ tr_closed t' = false end.
Lemma trStep_ok t e t' : trOk t -> trStep t e = Some t' -> trOk t' /\ notifies t t' /\ (endsIteration e t' -> confirmed t').
Proof.
  intros H. pose proof (to_pre t H) as Hp. unfold trStep. destruct (tr_closed t); [done|].
  assert (Pub : forall t1 clk, preOk t1 -> tr_prev t1 = tr_prev t -> tr_notified t1 = tr_notified t -> publish t1 clk = Some t' -> trOk t' /\ notifies t t' /\ (endsIteration e t' -> confirmed t')).
  { intros t1 clk H1 P N E. destruct (publish_step t t1 clk H H1 P N) as (t2 & E2 & O & Nt & C). simplify_eq. by split_and!. }
  assert (Can : forall why, tr_task t = true -> trOk (cancelTask t why) /\ notifies t (cancelTask t why)).
  { intros why E. split; [|by apply quiet_notifies]. destruct H. split; [by apply cancelTask_ok|done|done]. }
  assert (Clo : (tr_task t = false \/ endedb (tr_run t) = true) -> trOk (closeTracker t) /\ notifies t (closeTracker t)).
  { intros E. split; [|by apply quiet_notifies]. destruct H. split; [by apply closeTracker_ok|done|done]. }
  destruct e as [now clk|now clk|now clk|l now clk|now clk| |e], (tr_draining t) as [why|] eqn:D; try done.
  - destruct (ticker_ok t now Hp) as (t1 & -> & H1 & P & N). by apply Pub.
  - destruct (timer_ok t now Hp) as (t1 & -> & H1 & P & N). by apply Pub.
  - destruct (tr_task t && endedb (tr_run t)) eqn:E; [|done]. apply andb_true_iff in E as [_ E]. by apply Pub; [apply backoff_pre|..].
  - destruct (tr_task t) eqn:E; [|by apply Pub; [apply undrained_ok|..]]. intros [= <-]. destruct (Can (Some l) eq_refl). split_and!; [done..|]. by intros [].
  - destruct (endedb (tr_run t)) eqn:E; [|done]. destruct why as [l|]; [by apply Pub; [apply applyAddrs_ok; [|right]|..]|].
    intros [= <-]. destruct (Clo (or_intror eq_refl)). split_and!; [done..|]. by intros [].
  - destruct (tr_task t) eqn:E; intros [= <-]; [destruct (Can None eq_refl)|destruct (Clo (or_introl eq_refl))]; (split_and!; [done..|]); by intros [].
  - destruct (tr_task t) eqn:E; [|done]. destruct (rfStep (tr_run t) e) as [r|] eqn:R; [|done]. intros [= <-]. destruct (workerStep_ok t e r H E R). by split_and!.
  - destruct (tr_task t) eqn:E; [|done]. destruct (rfStep (tr_run t) e) as [r|] eqn:R; [|done]. intros [= <-]. destruct (workerStep_ok t e r H E R). by split_and!.
Qed.
Lemma newTracker_ok : trOk newTracker.
Proof.
  split; [|done|intros []; done]. split; simpl; [by apply noTask_wf; [apply newProbeManager_wf|..]|done|done|unfold maxTrackedAddrs; simpl; lia|by constructor|].
  unfold maxBackoffInterval, Minute, Second. lia.
Qed.
Lemma trRun_ok t es t' : trOk t -> trRun t es = Some t' -> trOk t'.
Proof.
  revert t. induction es as [|e es IH]; intros t H; simpl; [by intros [= <-]|]. destruct (trStep t e) as [t1|] eqn:E; [|done]. apply IH, (trStep_ok t e t1 H E).
Qed.
(** No branch of the loop panics. *)
Lemma trStep_live t clk now l : trOk t -> tr_closed t = false ->
  match tr_draining t with
  | None => is_Some (trStep t (TTicker now clk)) /\ is_Some (trStep t (TTimer now clk)) /\ is_Some (trStep t (TNewAddrs l now clk)) /\ is_Some (trStep t TClose)
      /\ (tr_task t = true -> endedb (tr_run t) = true -> is_Some (trStep t (TBackoff now clk)))
  | Some _ => endedb (tr_run t) = true -> is_Some (trStep t (TDrained now clk))
  end.
Proof.
  intros H Ec. pose proof (to_pre t H) as Hp. unfold trStep. rewrite Ec.
  assert (Pub : forall t1, preOk t1 -> is_Some (publish t1 clk)) by (intros t1 H1; destruct (publish_ok t1 clk (wr_pm _ (to_run t1 H1))) as (t2 & -> & _); eauto).
  destruct (tr_draining t) as [why|] eqn:D.
  - intros E. rewrite E. destruct why as [l'|]; [|eauto]. apply Pub, applyAddrs_ok; [done|by right].
  - split_and!.
    + destruct (ticker_ok t now Hp) as (t1 & -> & H1 & _). by apply Pub.
    + destruct (timer_ok t now Hp) as (t1 & -> & H1 & _). by apply Pub.
    + destruct (tr_task t) eqn:E; [eauto|]. by apply Pub, undrained_ok.
    + destruct (tr_task t); eauto.
    + intros -> E. rewrite E. simpl. by apply Pub, backoff_pre.
Qed.
End tracker.

(** C37: In every execution of the tracker, whatever the client answers and however
    the workers interleave, it tracks at most fifty addresses, all public, and what
    it publishes is a partition of them; while no task runs no probe is in
    progress; the backoff is at most five minutes and no branch of the loop panics.  A
    step notifies exactly when it changes one of the published lists as a set, and
    the end of an iteration leaves every address in the list of its reachability
    (unless two tracked addresses have the same bytes). *)
Theorem tracker_publishes `{SL : SorterLaws} (es : list trEvent) (t : tracker) : trRun newTracker es = Some t ->
  (length (addrs (rf_pm (tr_run t))) <= maxTrackedAddrs)%nat
  /\ Forall (fun a => IsPublicAddr a = true) (addrs (rf_pm (tr_run t)))
  /\ flat (tr_published t) ≡ₚ addrs (rf_pm (tr_run t))
  /\ (tr_task t = false -> inProgressProbes (rf_pm (tr_run t)) = ∅ /\ inProgressProbesTotal (rf_pm (tr_run t)) = 0)
  /\ backoffInterval t <= maxBackoffInterval
  /\ (tr_closed t = false -> tr_draining t = None -> forall now clk l, is_Some (trStep t (TTicker now clk)) /\ is_Some (trStep t (TTimer now clk)) /\ is_Some (trStep t (TNewAddrs l now clk)))
  /\ forall e t', trStep t e = Some t' -> notifies t t' /\ (endsIteration e t' -> confirmed t').
Proof.
  intros R. pose proof (trRun_ok _ _ _ newTracker_ok R) as H. pose proof (to_pre t H) as Hp.
  split_and!; [apply Hp|apply Hp|apply H|intros E; by apply (idle_progress t Hp); left|apply Hp| |].
  - intros Ec Ed now clk l. pose proof (trStep_live t clk now l H Ec) as L. rewrite Ed in L. destruct L as (L1 & L2 & L3 & _). done.
  - intros e t' E. by apply (trStep_ok t e t' H E).
Qed.

Module TrackerExample.
Definition ipAddr (a b : Byte.byte) : Multiaddr := [mkComponent [Byte.x04; a; Byte.x01; Byte.x01; b] (Some (@protoIP4 unsignedVarint)) 1].
Definition public : Multiaddr := ipAddr Byte.x05 Byte.x07.
Definition ok : Result := mkResult public 0 ReachabilityPublic false.
Definition clock (_ : nat) : Z := 10 * Second.
Definition probeSteps : list trEvent := TWorker <$> [RTop 0; RGet 0 0; RMark 0; RAnswer 0 ok None; RComplete 0 0].
Definition endSteps : list trEvent := (fun i => TWorker (RTop i)) <$> seq 0 5.
Definition getSteps : list trEvent := (fun i => TWorker (RGet i 0)) <$> seq 0 5.
(** New addresses, one of them private; then three probes reach the public one. *)
Definition run : list trEvent :=
  [TNewAddrs [ipAddr Byte.x0a Byte.x01; public] 0 clock; TTimer (2 * Second) clock]
  ++ probeSteps ++ probeSteps ++ probeSteps ++ endSteps ++ getSteps ++ [TBackoff (3 * Second) clock].
Definition final : option tracker := @trRun mergeSorter newTracker run.
Definition reachable (t : tracker) : list bytes := Bytes <$> (tr_published t).1.1.
End TrackerExample.
Lemma tracker_publishes_witness :
  from_option (fun t => (length (addrs (rf_pm (tr_run t))) <= maxTrackedAddrs)%nat /\ flat (tr_published t) ≡ₚ addrs (rf_pm (tr_run t))) False TrackerExample.final
  /\ TrackerExample.reachable <$> TrackerExample.final = Some [Bytes TrackerExample.public] /\ tr_notified <$> TrackerExample.final = Some 2%nat.
Proof.
  split; [|split; vm_compute; reflexivity].
  assert (S : (if TrackerExample.final is Some _ then true else false) = true) by (vm_compute; reflexivity).
  destruct TrackerExample.final as [t|] eqn:R; [|discriminate S].
  destruct (@tracker_publishes mergeSorter mergeSorter_laws TrackerExample.run t R) as (H1 & _ & H3 & _). exact (conj H1 H3).
Defined.
