(* ===== verification/AutoNatServer.v ===== *)
(** * The AutoNAT v2 server (p2p/protocol/autonatv2/server.go)

    A peer asks the server to dial one of its addresses.  [rateLimiter] bounds
    the requests of a minute, overall, per peer and with dial data, and the
    concurrent ones of a peer.  A request for an address with another IP than the
    observed one has to pay with data, so that the server cannot be used to
    amplify an attack.

    [serveDialRequest] is cut at the calls of the limiter, which is the only state
    that requests share: requests interleave between these calls.  What the
    network answers is part of the steps; [reg] is the table of protocols.  Times are nanoseconds, [None] is a nil
    map, and [None] as a result a panic. *)
From Stdlib Require Import ZArith Lia.
From stdpp Require Import base tactics list numbers option gmap sets fin_maps.
From S2P Require Import Prelude Collections GoBytes Varint MaProtocol MaComponent MaCodec MaOps GoNet MaProtocols BlsRpc Relay Manet.
Local Open Scope Z_scope.

Definition maxMsgSize : Z := 8192.
Definition minHandshakeSizeBytes : Z := 30000.
Definition maxHandshakeSizeBytes : Z := 100000.
Definition maxPeerAddresses : nat := 50.
Definition minute : Z := 60 * Second.

(** ** The limiter *)
Record limits := mkLimits { RPM : Z; PerPeerRPM : Z; DialDataRPM : Z; MaxConcurrentRequestsPerPeer : Z }.
Record rateLimiter := mkLimiter {
  rl_closed : bool;
  reqs : list (PeerID * Z);
  peerReqs : option (gmap PeerID (list Z));
  dialDataReqs : list Z;
  inProgressReqs : option (gmap PeerID Z) }.
Definition newLimiter : rateLimiter := mkLimiter false [] None [] None.

Definition rl_init (r : rateLimiter) : rateLimiter :=
  match peerReqs r with
  | None => mkLimiter (rl_closed r) (reqs r) (Some ∅) (dialDataReqs r) (Some ∅)
  | Some _ => r
  end.

(** The slice from the first entry of the last minute on *)
Fixpoint freshFrom (now : Z) (l : list Z) : list Z :=
  match l with
  | [] => []
  | t :: l' => if now - t <? minute then l else freshFrom now l'
  end.
Fixpoint cleanupReqs (now : Z) (l : list (PeerID * Z)) (pr : gmap PeerID (list Z)) : list (PeerID * Z) * gmap PeerID (list Z) :=
  match l with
  | [] => ([], pr)
  | (p, t) :: l' =>
      if minute <=? now - t then
        let ts := freshFrom now (default [] (pr !! p)) in
        cleanupReqs now l' (match ts with [] => delete p pr | _ => <[p := ts]> pr end)
      else (l, pr)
  end.
Definition rl_cleanup (r : rateLimiter) (now : Z) : rateLimiter :=
  let '(l, pr) := cleanupReqs now (reqs r) (default ∅ (peerReqs r)) in
  mkLimiter (rl_closed r) l (Some pr) (freshFrom now (dialDataReqs r)) (inProgressReqs r).

Section limiter.
Context (cfg : limits).
Definition Accept (r : rateLimiter) (p : PeerID) (nw : Z) : rateLimiter * bool :=
  if rl_closed r then (r, false) else
  let r := rl_cleanup (rl_init r) nw in
  let inP := default ∅ (inProgressReqs r) in
  let pr := default ∅ (peerReqs r) in
  if MaxConcurrentRequestsPerPeer cfg <=? default 0 (inP !! p) then (r, false) else
  if (RPM cfg <=? Z.of_nat (length (reqs r))) || (PerPeerRPM cfg <=? Z.of_nat (length (default [] (pr !! p)))) then (r, false) else
  (mkLimiter false (reqs r ++ [(p, nw)]) (Some (<[p := default [] (pr !! p) ++ [nw]]> pr)) (dialDataReqs r)
     (Some (<[p := default 0 (inP !! p) + 1]> inP)), true).

Definition AcceptDialDataRequest (r : rateLimiter) (nw : Z) : rateLimiter * bool :=
  if rl_closed r then (r, false) else
  let r := rl_cleanup (rl_init r) nw in
  if DialDataRPM cfg <=? Z.of_nat (length (dialDataReqs r)) then (r, false) else
  (mkLimiter false (reqs r) (peerReqs r) (dialDataReqs r ++ [nw]) (inProgressReqs r), true).
End limiter.

(** Writing to a nil map panics. *)
Definition CompleteRequest (r : rateLimiter) (p : PeerID) : option rateLimiter :=
  inP ← inProgressReqs r;
  let n := default 0 (inP !! p) - 1 in
  Some (mkLimiter (rl_closed r) (reqs r) (peerReqs r) (dialDataReqs r) (Some (if n <=? 0 then delete p inP else <[p := n]> inP))).
Definition rl_Close (r : rateLimiter) : rateLimiter := mkLimiter true (reqs r) None [] None.

(** ** Dial data *)
(** The bytes of data in a message of [l] bytes *)
Definition dataLen (l : Z) : Z :=
  let bytesLen := l - 2 in
  let bytesLen := if 127 <? bytesLen then bytesLen - 1 else bytesLen in
  let bytesLen := bytesLen - 2 in
  if 127 <? bytesLen then bytesLen - 1 else bytesLen.
(** [msgs] are the lengths of the messages that come in, [None] is an error and so
    is the end.  The result, and the bytes that were read *)
Fixpoint readDialData (remain : Z) (msgs : list (option Z)) : bool * Z :=
  if remain <=? 0 then (true, 0) else
  match msgs with
  | [] | None :: _ => (false, 0)
  | Some l :: msgs =>
      let bytesLen := dataLen l in
      let remain := if 0 <? bytesLen then remain - bytesLen else remain in
      if (bytesLen <? 100) && (0 <? remain) then (false, l)
      else let '(ok, n) := readDialData remain msgs in (ok, l + n)
  end.
(** [rnd] is the number that [rand.Intn] gives, [wErr] tells whether writing fails. *)
Definition getDialData (wErr : bool) (rnd : Z) (msgs : list (option Z)) : bool * Z :=
  if wErr then (false, 0) else readDialData (minHandshakeSizeBytes + rnd) msgs.

(** [net.IP.Equal] *)
Definition IP_Equal (ip x : bytes) : bool :=
  if (length ip =? length x)%nat then bool_decide (ip = x)
  else if (length ip =? 4)%nat && (length x =? 16)%nat then bool_decide (take 12 x = v4InV6Prefix) && bool_decide (ip = drop 12 x)
  else if (length ip =? 16)%nat && (length x =? 4)%nat then bool_decide (take 12 ip = v4InV6Prefix) && bool_decide (drop 12 ip = x)
  else false.
Definition amplificationAttackPrevention (observedAddr dialAddr : Multiaddr) : bool :=
  match ToIP observedAddr with
  | Ok observedIP => match ToIP dialAddr with Ok dialIP => negb (IP_Equal observedIP dialIP) | _ => true end
  | _ => true
  end.

(** ** A request *)
Inductive ResponseStatus := E_INTERNAL_ERROR | E_REQUEST_REJECTED | E_DIAL_REFUSED | ResponseOK.
Inductive DialStatus := DialUnused | E_DIAL_ERROR | E_DIAL_BACK_ERROR | DialOK.
Inductive serveError := ErrService | ErrResourceLimit | ErrWrite | ErrRead | ErrBadRequest | ErrDialDataRefused | ErrContext.
Record EventDialRequestCompleted := mkCompleted {
  ec_Error : option serveError;
  ec_ResponseStatus : ResponseStatus;
  ec_DialStatus : DialStatus;
  ec_DialDataRequired : bool;
  ec_DialedAddr : option Multiaddr }.
Definition failed (e : serveError) : EventDialRequestCompleted := mkCompleted (Some e) E_INTERNAL_ERROR DialUnused false None.
Definition responded (wErr : bool) (st : ResponseStatus) (data : bool) : EventDialRequestCompleted :=
  mkCompleted (if wErr then Some ErrWrite else None) st DialUnused data None.

(** The answers of the network to [dialBack]: whether connecting, opening a stream and writing the nonce fail *)
Record dialEnv := mkDialEnv { connectErr : bool; newStreamErr : bool; nonceErr : bool }.
Definition dialBack (e : dialEnv) : DialStatus :=
  if connectErr e then E_DIAL_ERROR else if newStreamErr e then E_DIAL_BACK_ERROR else if nonceErr e then E_DIAL_BACK_ERROR else DialOK.

Record dialRequest := mkDialRequest { dr_Addrs : list bytes; dr_Nonce : Z }.
(** What reading the request gives *)
Inductive readResult := ReadErr | OtherMessage | DialRequestMsg (m : dialRequest).

(** Where a request is: it has been accepted, it is going to dial, it is going to give its place back, it is over. *)
Inductive phase :=
| PRead (p : PeerID) (observed : Multiaddr)
| PWork (p : PeerID) (observed dialAddr : Multiaddr) (addrIdx : nat) (nonce : Z) (isDialDataRequired : bool)
| PEnd (p : PeerID) (e : EventDialRequestCompleted)
| PDone (e : EventDialRequestCompleted)
| PPanic.
(** A dial, with the bytes that were received before it *)
Record dialDone := mkDialDone { dd_peer : PeerID; dd_observed : Multiaddr; dd_addr : Multiaddr; dd_received : Z }.
Record server := mkServer {
  limiter : rateLimiter;
  handlers : list phase;
  accepted : list (PeerID * Z);
  dataAccepted : list Z;
  dials : list dialDone }.

Section server.
Context `{V : Varint} (reg : registry) (cfg : limits) (allowPrivateAddrs : bool) (dataRequestPolicy : Multiaddr -> Multiaddr -> bool) (CanDial : PeerID -> Multiaddr -> bool).

(** The loop over the addresses of the request; at most fifty are looked at.  An
    address that does not parse is skipped ([parsing_returns]: parsing returns). *)
Fixpoint chooseAddr (p : PeerID) (i : nat) (l : list bytes) : option (Multiaddr * nat) :=
  match l with
  | [] => None
  | ab :: l =>
      if (maxPeerAddresses <=? i)%nat then None else
      match NewMultiaddrBytes reg ab with
      | Ok a =>
          if negb allowPrivateAddrs && negb (IsPublicAddr a) then chooseAddr p (S i) l
          else if negb (CanDial p a) then chooseAddr p (S i) l
          else Some (a, i)
      | _ => chooseAddr p (S i) l
      end
  end.

(** Up to [Accept]: [service] and [memory] tell whether the resource manager refuses. *)
Definition beginRequest (r : rateLimiter) (p : PeerID) (observed : Multiaddr) (service memory wErr : bool) (now : Z) : rateLimiter * phase :=
  if service then (r, PDone (failed ErrService)) else
  if memory then (r, PDone (failed ErrResourceLimit)) else
  let '(r, ok) := Accept cfg r p now in
  (r, if ok then PRead p observed else PDone (responded wErr E_REQUEST_REJECTED false)).
(** Up to [AcceptDialDataRequest] *)
Definition readRequest (r : rateLimiter) (p : PeerID) (observed : Multiaddr) (res : readResult) (wErr : bool) (now : Z) : rateLimiter * phase :=
  match res with
  | ReadErr => (r, PEnd p (failed ErrRead))
  | OtherMessage => (r, PEnd p (failed ErrBadRequest))
  | DialRequestMsg m =>
      match chooseAddr p 0 (dr_Addrs m) with
      | None => (r, PEnd p (responded wErr E_DIAL_REFUSED false))
      | Some (a, i) =>
          let required := dataRequestPolicy observed a in
          if required then
            let '(r, ok) := AcceptDialDataRequest cfg r now in
            (r, if ok then PWork p observed a i (dr_Nonce m) true else PEnd p (responded wErr E_REQUEST_REJECTED true))
          else (r, PWork p observed a i (dr_Nonce m) false)
      end
  end.
(** Data, the dial and the response.  [dataErr], [rnd], [msgs] are for [getDialData]; [late] tells whether the context ends before the timer. *)
Definition workRequest (p : PeerID) (observed a : Multiaddr) (required : bool)
    (dataErr : bool) (rnd : Z) (msgs : list (option Z)) (late : bool) (e : dialEnv) (wErr : bool) : phase * option dialDone :=
  let '(ok, n) := if required then getDialData dataErr rnd msgs else (true, 0) in
  if negb ok then (PEnd p (mkCompleted (Some ErrDialDataRefused) E_INTERNAL_ERROR DialUnused true (Some a)), None) else
  if required && late then (PEnd p (mkCompleted (Some ErrContext) E_INTERNAL_ERROR DialUnused true (Some a)), None) else
  (PEnd p (mkCompleted (if wErr then Some ErrWrite else None) ResponseOK (dialBack e) required (Some a)), Some (mkDialDone p observed a n)).

Inductive svEvent :=
| SBegin (p : PeerID) (observed : Multiaddr) (service memory wErr : bool) (now : Z)
| SRead (i : nat) (res : readResult) (wErr : bool) (now : Z)
| SWork (i : nat) (dataErr : bool) (rnd : Z) (msgs : list (option Z)) (late : bool) (e : dialEnv) (wErr : bool)
| SComplete (i : nat)
| SClose.
Definition svStep (s : server) (e : svEvent) : option server :=
  match e with
  | SBegin p observed service memory wErr now =>
      let '(r, ph) := beginRequest (limiter s) p observed service memory wErr now in
      Some (mkServer r (handlers s ++ [ph]) (if ph is PRead _ _ then accepted s ++ [(p, now)] else accepted s) (dataAccepted s) (dials s))
  | SRead i res wErr now =>
      match handlers s !! i with
      | Some (PRead p observed) =>
          let '(r, ph) := readRequest (limiter s) p observed res wErr now in
          Some (mkServer r (<[i := ph]> (handlers s)) (accepted s) (if ph is PWork _ _ _ _ _ true then dataAccepted s ++ [now] else dataAccepted s) (dials s))
      | _ => None
      end
  | SWork i dataErr rnd msgs late e wErr =>
      match handlers s !! i with
      | Some (PWork p observed a _ _ required) =>
          let '(ph, d) := workRequest p observed a required dataErr rnd msgs late e wErr in
          Some (mkServer (limiter s) (<[i := ph]> (handlers s)) (accepted s) (dataAccepted s) (dials s ++ from_option (fun d => [d]) [] d))
      | _ => None
      end
  | SComplete i =>
      match handlers s !! i with
      | Some (PEnd p e) =>
          Some (match CompleteRequest (limiter s) p with
                | Some r => mkServer r (<[i := PDone e]> (handlers s)) (accepted s) (dataAccepted s) (dials s)
                | None => mkServer (limiter s) (<[i := PPanic]> (handlers s)) (accepted s) (dataAccepted s) (dials s)
                end)
      | _ => None
      end
  | SClose => Some (mkServer (rl_Close (limiter s)) (handlers s) (accepted s) (dataAccepted s) (dials s))
  end.
Fixpoint svRun (s : server) (es : list svEvent) : option server :=
  match es with [] => Some s | e :: es => s ← svStep s e; svRun s es end.
Definition newServer : server := mkServer newLimiter [] [] [] [].
End server.

(** ** The AutoNAT v2 server respects its limits and does not amplify

    The lists of the limiter are suffixes of the history of accepted requests, and
    what they have dropped is at least a minute old: counting the list is counting
    the last minute.  Requests hold their place from [Accept] to [CompleteRequest]. *)
(** ** Sliding windows *)
(** How many of the times are in the minute that ends at [T] *)
Definition countIn (T : Z) (l : list Z) : Z := sumZ (fun t => if (T - minute <? t) && (t <=? T) then 1 else 0) l.
Definition staleAt (now t : Z) : Prop := minute <= now - t.
(** [k] is what is left of [l] when times that are stale at [now] have been dropped at the front. *)
Definition suffixAt (now : Z) (l k : list Z) : Prop := exists old, l = old ++ k /\ Forall (staleAt now) old.

Lemma countIn_app T l k : countIn T (l ++ k) = countIn T l + countIn T k.
Proof. apply sumZ_app. Qed.
Lemma countIn_length T l : 0 <= countIn T l <= Z.of_nat (length l).
Proof. unfold countIn. induction l as [|t l IH]; simpl; [lia|]. destruct (_ && _); lia. Qed.
Lemma countIn_stale now T l : Forall (staleAt now) l -> now <= T -> countIn T l = 0.
Proof.
  intros H L. apply sumZ_zero. intros t Ht. rewrite Forall_forall in H. specialize (H _ Ht). unfold staleAt in H.
  destruct (Z.ltb_spec (T - minute) t); [lia|done].
Qed.
Lemma countIn_suffix now T l k : suffixAt now l k -> now <= T -> countIn T l <= Z.of_nat (length k).
Proof. intros (old & -> & H) L. rewrite countIn_app, (countIn_stale now) by done. pose proof (countIn_length T k). lia. Qed.
Lemma suffixAt_later now now' l k : suffixAt now l k -> now <= now' -> suffixAt now' l k.
Proof. intros (old & E & H) L. exists old. split; [done|]. eapply Forall_impl; [exact H|]. unfold staleAt. lia. Qed.
Lemma suffixAt_trans now l k j : suffixAt now l k -> suffixAt now k j -> suffixAt now l j.
Proof. intros (o1 & -> & H1) (o2 & -> & H2). exists (o1 ++ o2). by rewrite app_assoc, Forall_app. Qed.
Lemma suffixAt_snoc now l k t : suffixAt now l k -> suffixAt now (l ++ [t]) (k ++ [t]).
Proof. intros (old & -> & H). exists old. by rewrite app_assoc. Qed.
(** Appending a time to a history whose window is not full keeps every window within the bound. *)
Lemma countIn_push b now l : (forall T, countIn T l <= Z.max 0 b) -> (forall T, now <= T -> countIn T l < b) -> forall T, countIn T (l ++ [now]) <= Z.max 0 b.
Proof.
  intros H1 H2 T. rewrite countIn_app. unfold countIn at 2. simpl. specialize (H1 T). destruct (Z.leb_spec now T) as [L|L].
  - specialize (H2 T L). destruct (_ <? _); simpl; lia.
  - rewrite andb_false_r. lia.
Qed.

Lemma freshFrom_suffix now l : suffixAt now l (freshFrom now l).
Proof.
  induction l as [|t l (old & E & H)]; simpl; [by exists []|]. destruct (Z.ltb_spec (now - t) minute); [by exists []|].
  exists (t :: old). simpl. rewrite <-E. split; [done|]. by constructor.
Qed.
Lemma cleanupReqs_suffix now l pr : let '(l', pr') := cleanupReqs now l pr in
  suffixAt now (snd <$> l) (snd <$> l') /\ forall p, suffixAt now (default [] (pr !! p)) (default [] (pr' !! p)).
Proof.
  revert pr. induction l as [|[p t] l IH]; intros pr; simpl; [split; [|intros p]; by exists []|].
  destruct (Z.leb_spec minute (now - t)); [|split; [|intros q]; by exists []].
  set (pr1 := match _ with [] => _ | _ => _ end). specialize (IH pr1). destruct (cleanupReqs now l pr1) as [l' pr']. destruct IH as [(old & E & F) H2]. split.
  - exists (t :: old). simpl. rewrite <-E. split; [done|]. by constructor.
  - intros q. eapply suffixAt_trans, H2. unfold pr1. pose proof (freshFrom_suffix now (default [] (pr !! p))) as S.
    destruct (decide (q = p)) as [->|N].
    + destruct (freshFrom now (default [] (pr !! p))); [by rewrite lookup_delete_eq|by rewrite lookup_insert_eq].
    + destruct (freshFrom now (default [] (pr !! p))); rewrite ?lookup_delete_ne, ?lookup_insert_ne by done; by exists [].
Qed.

(** ** The limiter *)
Definition timesOf (p : PeerID) (l : list (PeerID * Z)) : list Z := snd <$> filter (fun e => e.1 = p) l.
Definition peerTimes (r : rateLimiter) (p : PeerID) : list Z := default [] (default ∅ (peerReqs r) !! p).
Definition inProgress (r : rateLimiter) (p : PeerID) : Z := default 0 (default ∅ (inProgressReqs r) !! p).
(** What the limiter remembers of the histories, at the time [now] *)
Record remembers (r : rateLimiter) (acc : list (PeerID * Z)) (dacc : list Z) (now : Z) : Prop := {
  rm_reqs : suffixAt now (snd <$> acc) (snd <$> reqs r);
  rm_peer p : suffixAt now (timesOf p acc) (peerTimes r p);
  rm_data : suffixAt now dacc (dialDataReqs r);
  rm_nil : peerReqs r = None -> inProgressReqs r = None }.

Lemma remembers_later r acc dacc now now' : remembers r acc dacc now -> now <= now' -> remembers r acc dacc now'.
Proof. intros [H1 H2 H3 H4] L. split; [|intros p| |done]; (eapply suffixAt_later; [|exact L]); [exact H1|exact (H2 p)|exact H3]. Qed.
Lemma cleanup_remembers r acc dacc now : remembers r acc dacc now -> remembers (rl_cleanup (rl_init r) now) acc dacc now
  /\ (forall p, inProgress (rl_cleanup (rl_init r) now) p = inProgress r p) /\ rl_closed (rl_cleanup (rl_init r) now) = rl_closed r
  /\ exists pr, peerReqs (rl_cleanup (rl_init r) now) = Some pr.
Proof.
  intros [H1 H2 H3 H4].
  assert (I : remembers (rl_init r) acc dacc now /\ (forall p, inProgress (rl_init r) p = inProgress r p) /\ rl_closed (rl_init r) = rl_closed r /\ peerReqs (rl_init r) <> None).
  { unfold rl_init. destruct (peerReqs r) as [pr|] eqn:E; [split_and!; [split; (done || by rewrite E)|done|done|by rewrite E]|]. split_and!; [split|..]; try done.
    - intros p. specialize (H2 p). unfold peerTimes in *. by rewrite E in H2.
    - intros p. unfold inProgress. by rewrite (H4 eq_refl). }
  destruct I as ([I1 I2 I3 _] & IP & C & N). set (r1 := rl_init r) in *. clearbody r1. unfold rl_cleanup. pose proof (cleanupReqs_suffix now (reqs r1) (default ∅ (peerReqs r1))) as S.
  destruct (cleanupReqs now (reqs r1) (default ∅ (peerReqs r1))) as [l pr]. destruct S as [S1 S2]. split_and!; [split|..]; cbn [reqs peerReqs dialDataReqs inProgressReqs rl_closed]; try done; eauto.
  - by eapply suffixAt_trans.
  - intros p. by eapply suffixAt_trans, S2.
  - by eapply suffixAt_trans, freshFrom_suffix.
Qed.

Lemma timesOf_snoc p q acc t : timesOf q (acc ++ [(p, t)]) = if decide (p = q) then timesOf q acc ++ [t] else timesOf q acc.
Proof.
  unfold timesOf. rewrite filter_app, fmap_app. case_decide as E; [rewrite filter_cons_True by done|rewrite filter_cons_False by done]; simpl; by rewrite ?app_nil_r.
Qed.

Section limits.
Context (cfg : limits).
Record within (acc : list (PeerID * Z)) (dacc : list Z) : Prop := {
  wi_all T : countIn T (snd <$> acc) <= Z.max 0 (RPM cfg);
  wi_peer p T : countIn T (timesOf p acc) <= Z.max 0 (PerPeerRPM cfg);
  wi_data T : countIn T dacc <= Z.max 0 (DialDataRPM cfg) }.

Lemma Accept_ok r acc dacc p now r' ok : rl_closed r = false -> remembers r acc dacc now -> within acc dacc -> Accept cfg r p now = (r', ok) ->
  let acc' := if ok : bool then acc ++ [(p, now)] else acc in
  rl_closed r' = false /\ remembers r' acc' dacc now /\ within acc' dacc
  /\ (forall q, inProgress r' q = inProgress r q + (if ok && bool_decide (p = q) then 1 else 0))
  /\ (ok = true -> inProgress r p < MaxConcurrentRequestsPerPeer cfg).
Proof.
  intros C R W. unfold Accept. rewrite C. destruct (cleanup_remembers r acc dacc now R) as (R1 & IP & C1 & (pr & Ep)). set (r1 := rl_cleanup (rl_init r) now) in *.
  fold (inProgress r1 p). rewrite IP. destruct (Z.leb_spec (MaxConcurrentRequestsPerPeer cfg) (inProgress r p)) as [L|L].
  { intros [= <- <-]. simpl. split_and!; try done; [congruence|]. intros q. rewrite IP. lia. }
  fold (peerTimes r1 p). destruct (_ || _) eqn:G; [intros [= <- <-]; simpl; split_and!; try done; [congruence|]; intros q; rewrite IP; lia|].
  apply orb_false_iff in G as [G1 G2]. rewrite Z.leb_gt in G1, G2. intros [= <- <-]. simpl. destruct R1 as [R1 R2 R3 R4]. split_and!; [done|split|split|..].
  - simpl. rewrite !fmap_app. by apply suffixAt_snoc.
  - intros q. unfold peerTimes at 1. simpl. rewrite timesOf_snoc. case_decide as E.
    + subst q. rewrite lookup_insert_eq. simpl. by apply suffixAt_snoc.
    + rewrite lookup_insert_ne by done. apply R2.
  - done.
  - done.
  - rewrite fmap_app. apply countIn_push; [apply W|]. intros T HT. pose proof (countIn_suffix now T _ _ R1 HT) as N. rewrite length_fmap in N. lia.
  - intros q. rewrite timesOf_snoc. case_decide as E; [subst q|apply W]. apply countIn_push; [apply W|]. intros T HT.
    pose proof (countIn_suffix now T _ _ (R2 p) HT). lia.
  - apply W.
  - intros q. unfold inProgress at 1. simpl. case_bool_decide as E.
    + subst q. rewrite lookup_insert_eq. simpl. by rewrite <-IP.
    + rewrite lookup_insert_ne by done. rewrite Z.add_0_r. apply IP.
  - done.
Qed.
Lemma AcceptDialDataRequest_ok r acc dacc now r' ok : rl_closed r = false -> remembers r acc dacc now -> within acc dacc -> AcceptDialDataRequest cfg r now = (r', ok) ->
  let dacc' := if ok : bool then dacc ++ [now] else dacc in
  rl_closed r' = false /\ remembers r' acc dacc' now /\ within acc dacc' /\ (forall q, inProgress r' q = inProgress r q).
Proof.
  intros C R W. unfold AcceptDialDataRequest. rewrite C. destruct (cleanup_remembers r acc dacc now R) as (R1 & IP & C1 & (pr & Ep)). set (r1 := rl_cleanup (rl_init r) now) in *.
  destruct (Z.leb_spec (DialDataRPM cfg) (Z.of_nat (length (dialDataReqs r1)))) as [L|L]; intros [= <- <-]; simpl; [split_and!; try done; congruence|].
  destruct R1 as [R1 R2 R3 R4]. split_and!; [done|split|split|]; try done; try apply W.
  - by apply suffixAt_snoc.
  - apply countIn_push; [apply W|]. intros T HT. pose proof (countIn_suffix now T _ _ R3 HT). lia.
Qed.
Lemma CompleteRequest_ok r acc dacc p now : rl_closed r = false -> remembers r acc dacc now -> 0 < inProgress r p ->
  exists r', CompleteRequest r p = Some r' /\ rl_closed r' = false /\ remembers r' acc dacc now
    /\ forall q, inProgress r' q = inProgress r q - (if bool_decide (p = q) then 1 else 0).
Proof.
  intros C [R1 R2 R3 R4] L. unfold CompleteRequest, inProgress in *. destruct (inProgressReqs r) as [inP|] eqn:E; simpl in *; [|by rewrite lookup_empty in L].
  eexists. split; [done|]. split_and!; [done|split; try done; intros H%R4; done|]. intros q. cbn [inProgressReqs default]. case_bool_decide as Q.
  - subst q. destruct (Z.leb_spec (default 0 (inP !! p) - 1) 0); simpl; [rewrite lookup_delete_eq; simpl; lia|by rewrite lookup_insert_eq].
  - rewrite Z.sub_0_r. destruct (_ <=? 0); simpl; by rewrite ?lookup_delete_ne, ?lookup_insert_ne.
Qed.
End limits.

(** ** Dial data *)
(** The server counts the bytes of data of a message exactly, for messages in the encoding of protobuf up to the maximal size. *)
Definition varintSize (n : Z) : Z := if n <? 128 then 1 else 2.
Lemma dataLen_exact d : 0 <= d -> let inner := 1 + varintSize d + d in let l := 1 + varintSize inner + inner in l <= maxMsgSize -> dataLen l = d.
Proof.
  intros Hd inner l Hl. unfold dataLen, l, inner, varintSize in *.
  repeat match goal with |- context [?a <? ?b] => destruct (Z.ltb_spec a b) end; lia.
Qed.
Lemma dataLen_le l : dataLen l <= l - 4.
Proof. unfold dataLen. repeat case_match; lia. Qed.
(** The data that lets a request through has been received. *)
Lemma readDialData_received remain msgs n : Forall (from_option (fun l => 0 <= l) True) msgs -> readDialData remain msgs = (true, n) -> remain <= n /\ 0 <= n.
Proof.
  intros F. revert remain n. induction F as [|m msgs Hm F IH]; intros remain n; simpl.
  - destruct (Z.leb_spec remain 0); [intros [= <-]; lia|done].
  - destruct (Z.leb_spec remain 0); [intros [= <-]; lia|]. destruct m as [l|]; [|done]. simpl in Hm. pose proof (dataLen_le l) as D.
    set (rem := if 0 <? dataLen l then remain - dataLen l else remain). destruct (_ && _) eqn:G; [done|].
    destruct (readDialData rem msgs) as [ok k] eqn:E. intros [= -> <-]. destruct (IH _ _ E) as [H1 H2]. unfold rem in *.
    destruct (Z.ltb_spec 0 (dataLen l)); lia.
Qed.

(** ** The server *)
Definition placeOf (ph : phase) : option PeerID :=
  match ph with PRead p _ | PWork p _ _ _ _ _ | PEnd p _ => Some p | _ => None end.
Definition active (hs : list phase) (p : PeerID) : Z := sumZ (fun ph => if decide (placeOf ph = Some p) then 1 else 0) hs.
(** Requests that may still dial, and those of them that have to bring data *)
Definition pending (ph : phase) : Z := match ph with PRead _ _ | PWork _ _ _ _ _ _ => 1 | _ => 0 end.
Definition pendingData (ph : phase) : Z := match ph with PWork _ _ _ _ _ true => 1 | _ => 0 end.

Section served.
Context `{V : Varint} (reg : registry) (cfg : limits) (allowPrivateAddrs : bool) (dataRequestPolicy : Multiaddr -> Multiaddr -> bool) (CanDial : PeerID -> Multiaddr -> bool).
Local Notation svStep := (svStep reg cfg allowPrivateAddrs dataRequestPolicy CanDial).
Local Notation svRun := (svRun reg cfg allowPrivateAddrs dataRequestPolicy CanDial).

Definition dialable (p : PeerID) (a : Multiaddr) : Prop := (allowPrivateAddrs = true \/ IsPublicAddr a = true) /\ CanDial p a = true.
Definition phaseGood (ph : phase) : Prop :=
  match ph with PWork p observed a _ _ required => dialable p a /\ required = dataRequestPolicy observed a | _ => True end.
Definition dialGood (d : dialDone) : Prop :=
  dialable (dd_peer d) (dd_addr d) /\ (dataRequestPolicy (dd_observed d) (dd_addr d) = true -> minHandshakeSizeBytes <= dd_received d).
Definition withData (d : dialDone) : Z := if dataRequestPolicy (dd_observed d) (dd_addr d) then 1 else 0.
Record svOk (s : server) (last : Z) : Prop := {
  sk_limiter : rl_closed (limiter s) = false ->
    remembers (limiter s) (accepted s) (dataAccepted s) last /\ forall p, inProgress (limiter s) p = active (handlers s) p;
  sk_within : within cfg (accepted s) (dataAccepted s);
  sk_active p : active (handlers s) p <= Z.max 0 (MaxConcurrentRequestsPerPeer cfg);
  sk_handlers : Forall phaseGood (handlers s);
  sk_dials : Forall dialGood (dials s);
  sk_count : Z.of_nat (length (dials s)) + sumZ pending (handlers s) <= Z.of_nat (length (accepted s));
  sk_data : sumZ withData (dials s) + sumZ pendingData (handlers s) <= Z.of_nat (length (dataAccepted s)) }.

Definition evTime (e : svEvent) : option Z := match e with SBegin _ _ _ _ _ now | SRead _ _ _ now => Some now | _ => None end.
(** The numbers that [rand.Intn] gives and the lengths of messages *)
Definition svValid (e : svEvent) : Prop :=
  match e with
  | SWork _ _ rnd msgs _ _ _ => 0 <= rnd < maxHandshakeSizeBytes - minHandshakeSizeBytes /\ Forall (from_option (fun l => 0 <= l <= maxMsgSize) True) msgs
  | _ => True
  end.
Fixpoint monotone (last : Z) (es : list svEvent) : Prop :=
  match es with [] => True | e :: es => last <= default last (evTime e) /\ monotone (default last (evTime e)) es end.

Lemma active_move hs i ph ph' p : hs !! i = Some ph -> active (<[i := ph']> hs) p =
  active hs p + (if decide (placeOf ph' = Some p) then 1 else 0) - (if decide (placeOf ph = Some p) then 1 else 0).
Proof. apply sumZ_insert. Qed.
Lemma chooseAddr_good p i l a j : chooseAddr reg allowPrivateAddrs CanDial p i l = Some (a, j) -> dialable p a.
Proof.
  revert i. induction l as [|b l IH]; intros i; cbn [chooseAddr]; [done|]. destruct (maxPeerAddresses <=? i)%nat; [done|].
  destruct (NewMultiaddrBytes reg b) as [m|e| |]; [|apply IH..]. destruct (negb allowPrivateAddrs && negb (IsPublicAddr m)) eqn:P; [apply IH|].
  destruct (CanDial p m) eqn:C; simpl; [|apply IH]. intros [= <- <-]. split; [|done]. destruct allowPrivateAddrs; [by left|right]. by destruct (IsPublicAddr m).
Qed.

Lemma begin_ok s last p observed service memory wErr now s' : svOk s last -> last <= now -> svStep s (SBegin p observed service memory wErr now) = Some s' -> svOk s' now.
Proof.
  intros [K1 K2 K3 K4 K5 K6 K7] L. cbn [AutoNatServer.svStep].
  assert (Skip : forall ph r, placeOf ph = None -> phaseGood ph -> pending ph = 0 -> pendingData ph = 0 ->
    (rl_closed r = false -> remembers r (accepted s) (dataAccepted s) now /\ forall q, inProgress r q = active (handlers s) q) ->
    svOk (mkServer r (handlers s ++ [ph]) (accepted s) (dataAccepted s) (dials s)) now).
  { intros ph r Hp Hg H0 H1 Hr. assert (A : forall q, active (handlers s ++ [ph]) q = active (handlers s) q).
    { intros q. unfold active. rewrite sumZ_app. simpl. rewrite Hp. simpl. lia. }
    split; simpl; [|done|intros q; by rewrite A|by rewrite Forall_app, Forall_singleton|done|rewrite sumZ_app; simpl; lia|rewrite sumZ_app; simpl; lia].
    intros C. destruct (Hr C) as [R I]. split; [done|]. intros q. by rewrite A. }
  assert (Keep : rl_closed (limiter s) = false -> remembers (limiter s) (accepted s) (dataAccepted s) now /\ forall q, inProgress (limiter s) q = active (handlers s) q).
  { intros C. destruct (K1 C) as [R I]. split; [by eapply remembers_later|done]. }
  unfold beginRequest. destruct service; [intros [= <-]; by apply Skip|]. destruct memory; [intros [= <-]; by apply Skip|].
  destruct (Accept cfg (limiter s) p now) as [r ok] eqn:E. destruct (rl_closed (limiter s)) eqn:C.
  { unfold Accept in E. rewrite C in E. injection E as <- <-. intros [= <-]. apply Skip; [done..|]. by rewrite C. }
  destruct (Keep eq_refl) as [R I]. destruct (Accept_ok cfg _ _ _ _ _ _ _ C R K2 E) as (C' & R' & W' & IP & M). destruct ok.
  - intros [= <-]. assert (A : forall q, active (handlers s ++ [PRead p observed]) q = active (handlers s) q + (if bool_decide (p = q) then 1 else 0)).
    { intros q. unfold active. rewrite sumZ_app. cbn [sumZ foldr placeOf]. destruct (decide (Some p = Some q)), (decide (p = q)) as [Q|Q];
        rewrite ?(bool_decide_eq_true_2 _ Q), ?(bool_decide_eq_false_2 _ Q); congruence || lia. }
    split; simpl; [|done| |rewrite Forall_app, Forall_singleton; by split|done|rewrite length_app, sumZ_app; simpl; lia|rewrite sumZ_app; simpl; lia].
    + intros _. split; [done|]. intros q. rewrite IP, A, I. done.
    + intros q. rewrite A. specialize (M eq_refl). rewrite I in M. case_bool_decide as Q; [subst q; lia|]. specialize (K3 q). lia.
  - intros [= <-]. apply Skip; [done..|]. intros _. split; [done|]. intros q. rewrite IP, I. simpl. lia.
Qed.

(** A handler that moves on and keeps its place *)
Lemma move_svOk s last now i ph ph' r acc dacc ds : svOk s last -> handlers s !! i = Some ph -> placeOf ph' = placeOf ph -> phaseGood ph' ->
  (rl_closed r = false -> remembers r acc dacc now /\ forall q, inProgress r q = active (handlers s) q) -> within cfg acc dacc -> Forall dialGood ds ->
  Z.of_nat (length ds) + pending ph' <= Z.of_nat (length acc) - Z.of_nat (length (accepted s)) + Z.of_nat (length (dials s)) + pending ph ->
  sumZ withData ds + pendingData ph' <= Z.of_nat (length dacc) - Z.of_nat (length (dataAccepted s)) + sumZ withData (dials s) + pendingData ph ->
  svOk (mkServer r (<[i := ph']> (handlers s)) acc dacc ds) now.
Proof.
  intros [K1 K2 K3 K4 K5 K6 K7] E P G R W D L1 L2.
  assert (A : forall q, active (<[i := ph']> (handlers s)) q = active (handlers s) q) by (intros q; rewrite (active_move _ _ _ _ _ E), P; lia).
  split; simpl; [|done|intros q; by rewrite A|by apply Forall_insert|done|rewrite (sumZ_insert _ _ _ _ _ E); lia|rewrite (sumZ_insert _ _ _ _ _ E); lia].
  intros C. destruct (R C) as [R1 R2]. split; [done|]. intros q. by rewrite A.
Qed.
Lemma read_ok s last i res wErr now s' : svOk s last -> last <= now -> svStep s (SRead i res wErr now) = Some s' -> svOk s' now.
Proof.
  intros K L. pose proof K as [K1 K2 K3 K4 K5 K6 K7]. cbn [AutoNatServer.svStep]. destruct (handlers s !! i) as [[p observed| | | |]|] eqn:E; try done.
  assert (Keep : rl_closed (limiter s) = false -> remembers (limiter s) (accepted s) (dataAccepted s) now /\ forall q, inProgress (limiter s) q = active (handlers s) q).
  { intros C. destruct (K1 C) as [R I]. split; [by eapply remembers_later|done]. }
  assert (Mv : forall ph', placeOf ph' = Some p -> phaseGood ph' -> pending ph' <= 1 -> pendingData ph' = 0 -> svOk (mkServer (limiter s) (<[i := ph']> (handlers s)) (accepted s) (dataAccepted s) (dials s)) now).
  { intros ph' H1 H2 H3 H4. eapply move_svOk; try done; simpl; lia. }
  unfold readRequest. destruct res as [| |m]; [intros [= <-]; by apply Mv..|].
  destruct (chooseAddr reg allowPrivateAddrs CanDial p 0 (dr_Addrs m)) as [[a j]|] eqn:Ec; [|intros [= <-]; by apply Mv].
  pose proof (chooseAddr_good _ _ _ _ _ Ec) as Da. destruct (dataRequestPolicy observed a) eqn:Po; [|intros [= <-]; by apply Mv].
  destruct (AcceptDialDataRequest cfg (limiter s) now) as [r ok] eqn:Ea. destruct (rl_closed (limiter s)) eqn:C.
  { unfold AcceptDialDataRequest in Ea. rewrite C in Ea. injection Ea as <- <-. intros [= <-]. by apply Mv. }
  destruct (Keep eq_refl) as [R I]. destruct (AcceptDialDataRequest_ok cfg _ _ _ _ _ _ C R K2 Ea) as (C' & R' & W' & IP).
  destruct ok; intros [= <-].
  - eapply move_svOk; try done; simpl; [intros _; split; [done|intros q; by rewrite IP]|lia|rewrite length_app; simpl; lia].
  - eapply move_svOk; try done; simpl; [intros _; split; [done|intros q; by rewrite IP]|lia|lia].
Qed.
Lemma work_ok s last i dataErr rnd msgs late e wErr s' : svOk s last -> svValid (SWork i dataErr rnd msgs late e wErr) -> svStep s (SWork i dataErr rnd msgs late e wErr) = Some s' -> svOk s' last.
Proof.
  intros K [Hr Hm]. pose proof K as [K1 K2 K3 K4 K5 K6 K7]. cbn [AutoNatServer.svStep]. destruct (handlers s !! i) as [[|p observed a j nonce required| | |]|] eqn:E; try done.
  destruct (Forall_lookup_1 _ _ _ _ K4 E) as [Da Po].
  assert (Mv : forall ev, svOk (mkServer (limiter s) (<[i := PEnd p ev]> (handlers s)) (accepted s) (dataAccepted s) (dials s ++ [])) last).
  { intros ev. rewrite app_nil_r. eapply move_svOk; try done; simpl; destruct required; lia. }
  unfold workRequest. destruct (if required then getDialData dataErr rnd msgs else (true, 0)) as [ok n] eqn:G.
  destruct ok; simpl; [|intros [= <-]; apply Mv]. destruct (required && late); [intros [= <-]; apply Mv|]. intros [= <-].
  assert (Dg : dialGood (mkDialDone p observed a n)).
  { split; [done|]. simpl. rewrite <-Po. intros ->. unfold getDialData in G. destruct dataErr; [done|].
    apply readDialData_received in G as [G _]; [lia|]. eapply Forall_impl; [exact Hm|]. intros []; simpl; lia. }
  eapply move_svOk; try done; simpl.
  - by rewrite Forall_app, Forall_singleton.
  - rewrite length_app. simpl. lia.
  - rewrite sumZ_app. simpl. unfold withData. simpl. rewrite <-Po. destruct required; lia.
Qed.
Lemma complete_svOk s last i s' : svOk s last -> svStep s (SComplete i) = Some s' -> svOk s' last.
Proof.
  intros [K1 K2 K3 K4 K5 K6 K7]. cbn [AutoNatServer.svStep]. destruct (handlers s !! i) as [[| |p ev| |]|] eqn:E; try done.
  assert (A : forall ph q, placeOf ph = None -> active (<[i := ph]> (handlers s)) q = active (handlers s) q - (if bool_decide (p = q) then 1 else 0)).
  { intros ph q H. rewrite (active_move _ _ _ _ _ E), H. cbn [placeOf]. destruct (decide (Some p = Some q)), (decide (p = q)) as [Q|Q];
      rewrite ?(bool_decide_eq_true_2 _ Q), ?(bool_decide_eq_false_2 _ Q); congruence || (simpl; lia). }
  assert (Mv : forall ph r, placeOf ph = None -> phaseGood ph -> pending ph = 0 -> pendingData ph = 0 ->
    (rl_closed r = false -> remembers r (accepted s) (dataAccepted s) last /\ forall q, inProgress r q = active (handlers s) q - (if bool_decide (p = q) then 1 else 0)) ->
    svOk (mkServer r (<[i := ph]> (handlers s)) (accepted s) (dataAccepted s) (dials s)) last).
  { intros ph r H0 H1 H2 H3 Hr. split; simpl; [|done| |by apply Forall_insert|done|rewrite (sumZ_insert _ _ _ _ _ E); simpl; lia|rewrite (sumZ_insert _ _ _ _ _ E); simpl; lia].
    - intros C. destruct (Hr C) as [R I]. split; [done|]. intros q. by rewrite A.
    - intros q. rewrite A by done. specialize (K3 q). case_bool_decide; lia. }
  destruct (rl_closed (limiter s)) eqn:C.
  { destruct (CompleteRequest (limiter s) p) as [r|] eqn:Cr; intros [= <-]; apply Mv; try done; [|by rewrite C].
    unfold CompleteRequest in Cr. destruct (inProgressReqs (limiter s)); [|done]. injection Cr as <-. simpl. by rewrite C. }
  destruct (K1 eq_refl) as [R I].
  assert (P : 0 < inProgress (limiter s) p).
  { rewrite I. assert (N : 0 <= active (<[i := PPanic]> (handlers s)) p) by (apply sumZ_nonneg; intros x _; case_decide; lia).
    rewrite A, bool_decide_eq_true_2 in N by done. lia. }
  destruct (CompleteRequest_ok _ _ _ p _ C R P) as (r & -> & C' & R' & IP). intros [= <-]. apply Mv; try done. intros _. split; [done|]. intros q. by rewrite IP, I.
Qed.
Lemma close_svOk s last : svOk s last -> svOk (mkServer (rl_Close (limiter s)) (handlers s) (accepted s) (dataAccepted s) (dials s)) last.
Proof. intros [K1 K2 K3 K4 K5 K6 K7]. by split. Qed.

Lemma svRun_ok s last es s' : svOk s last -> monotone last es -> Forall svValid es -> svRun s es = Some s' -> exists last', svOk s' last'.
Proof.
  intros K M F. revert s last K M. induction F as [|e es Fe F IH]; intros s last K M; simpl; [intros [= <-]; eauto|].
  destruct M as [M1 M2]. destruct (svStep s e) as [s1|] eqn:E; [|done]. cbn [mbind option_bind]. apply IH with (last := default last (evTime e)); [|done].
  destruct e; simpl in *.
  - by eapply begin_ok.
  - by eapply read_ok.
  - by eapply work_ok.
  - by eapply complete_svOk.
  - injection E as <-. by apply close_svOk.
Qed.
Lemma newServer_ok T : svOk newServer T.
Proof.
  split; simpl; try (by constructor); try lia.
  - intros _. split; [|done]. split; try done; intros; by exists [].
  - split; intros; unfold countIn; simpl; lia.
Qed.
End served.

(** *** The policy *)
(** The sixteen bytes of an IP: an IPv4 address counts as the IPv6 address it is mapped to. *)
Definition ip16 (ip : bytes) : bytes := if (length ip =? 4)%nat then v4InV6Prefix ++ ip else ip.
(** Both addresses begin with an IP, the same one. *)
Definition sameHost (a b : Multiaddr) : Prop := exists x y, ToIP a = Ok x /\ ToIP b = Ok y /\ ip16 x = ip16 y.

Lemma mapped_iff (x y : bytes) : length x = 4%nat -> length y = 16%nat -> (take 12 y = v4InV6Prefix /\ x = drop 12 y) <-> v4InV6Prefix ++ x = y.
Proof.
  intros Hx Hy. split; [intros [H1 H2]; rewrite <- H1, H2; apply take_drop|]. intros <-.
  assert (L : length v4InV6Prefix = 12%nat) by done. rewrite take_app_length', drop_app_length' by done. done.
Qed.
Lemma IP_Equal_iff x y : IP_Equal x y = true <-> ip16 x = ip16 y.
Proof.
  unfold IP_Equal, ip16. assert (L : length v4InV6Prefix = 12%nat) by done.
  destruct (Nat.eqb_spec (length x) (length y)) as [E|E].
  { rewrite bool_decide_eq_true. split; [by intros ->|]. rewrite <- E. destruct (length x =? 4)%nat; [apply app_inv_head|done]. }
  destruct (Nat.eqb_spec (length x) 4) as [Hx|Hx], (Nat.eqb_spec (length y) 16) as [Hy|Hy]; cbn [andb];
    destruct (Nat.eqb_spec (length y) 4) as [Hy4|Hy4]; try lia.
  - rewrite andb_true_iff, !bool_decide_eq_true. by apply mapped_iff.
  - rewrite andb_false_r. split; [done|]. intros H%(f_equal length). rewrite length_app in H. lia.
  - rewrite andb_false_r. split; [done|]. intros H%(f_equal length). lia.
  - destruct (Nat.eqb_spec (length x) 16) as [Hx16|Hx16]; cbn [andb].
    + rewrite andb_true_iff, !bool_decide_eq_true. pose proof (mapped_iff y x Hy4 Hx16). split; [intros [? ?]|intros ?]; [symmetry|]; naive_solver.
    + split; [done|]. intros H%(f_equal length). rewrite length_app in H. lia.
  - rewrite andb_false_r. split; [done|]. congruence.
Qed.
Lemma no_data_iff observed a : amplificationAttackPrevention observed a = false <-> sameHost observed a.
Proof.
  unfold amplificationAttackPrevention, sameHost. destruct (ToIP observed) as [x| | |]; try (split; [done|naive_solver]).
  destruct (ToIP a) as [y| | |]; try (split; [done|naive_solver]). rewrite negb_false_iff, IP_Equal_iff. naive_solver.
Qed.

(** C38: In every execution of the server, however requests interleave, no minute
    has more accepted requests than [RPM], more of one peer than [PerPeerRPM] or
    more with dial data than [DialDataRPM]; a peer has at most
    [MaxConcurrentRequestsPerPeer] requests at a time.  Dials follow accepted
    requests, and those that need data follow accepted data requests; every dialled
    address is public (unless private ones are allowed) and dialable; and the server
    cannot be used to amplify an attack: it dials the IP that the request came from,
    or had received at least 30000 bytes before the dial (also when one of the two
    addresses has no IP).  This is the default policy,
    [amplificationAttackPrevention]. *)
Theorem autonat_server_limits `{V : Varint} (reg : registry) (cfg : limits) (allowPrivate : bool)
    (CanDial : PeerID -> Multiaddr -> bool) (T0 : Z) (es : list svEvent) (s : server) :
  monotone T0 es -> Forall svValid es -> svRun reg cfg allowPrivate amplificationAttackPrevention CanDial newServer es = Some s ->
  (forall T, countIn T (snd <$> accepted s) <= Z.max 0 (RPM cfg))
  /\ (forall p T, countIn T (timesOf p (accepted s)) <= Z.max 0 (PerPeerRPM cfg))
  /\ (forall T, countIn T (dataAccepted s) <= Z.max 0 (DialDataRPM cfg))
  /\ (forall p, active (handlers s) p <= Z.max 0 (MaxConcurrentRequestsPerPeer cfg))
  /\ (length (dials s) <= length (accepted s))%nat
  /\ sumZ (fun d => if amplificationAttackPrevention (dd_observed d) (dd_addr d) then 1 else 0) (dials s) <= Z.of_nat (length (dataAccepted s))
  /\ forall d, d ∈ dials s -> (allowPrivate = true \/ IsPublicAddr (dd_addr d) = true) /\ CanDial (dd_peer d) (dd_addr d) = true
       /\ (sameHost (dd_observed d) (dd_addr d) \/ minHandshakeSizeBytes <= dd_received d).
Proof.
  intros M F R. destruct (svRun_ok reg cfg allowPrivate amplificationAttackPrevention CanDial newServer T0 es s (newServer_ok _ _ _ _ T0) M F R) as (last & [_ [W1 W2 W3] K3 _ K5 K6 K7]).
  assert (N : 0 <= sumZ pending (handlers s) /\ 0 <= sumZ pendingData (handlers s)).
  { split; apply sumZ_nonneg; intros ph _; [destruct ph; simpl; lia|destruct ph as [| ? ? ? ? ? []| | |]; simpl; lia]. }
  split_and!; try done; [lia|unfold withData in K7; lia|]. intros d Hd. rewrite Forall_forall in K5. destruct (K5 d Hd) as [[D1 D2] D3].
  split_and!; [done|done|]. destruct (amplificationAttackPrevention (dd_observed d) (dd_addr d)) eqn:E; [right; by apply D3|left; by apply no_data_iff].
Qed.

Module AutoNatExample.
Definition peer : PeerID := [Byte.x01].
Definition ip (a b : Byte.byte) : Component := mkComponent [Byte.x04; a; Byte.x01; Byte.x01; b] (Some (@protoIP4 unsignedVarint)) 1.
Definition observed : Multiaddr := [ip Byte.x05 Byte.x05].
Definition other : bytes := [Byte.x04; Byte.x06; Byte.x01; Byte.x01; Byte.x05].
Definition cfg : limits := mkLimits 60 12 12 2.
Import (hints) MaExample.
Definition reg : registry := standard.
(** A request for another IP, which brings its data *)
Definition run : list svEvent :=
  [SBegin peer observed false false false 0; SRead 0 (DialRequestMsg (mkDialRequest [other] 7)) false Second;
   SWork 0 false 100 [Some 8192; Some 8192; Some 8192; Some 8192] false (mkDialEnv false false false) false; SComplete 0].
Definition final : option server := @svRun unsignedVarint reg cfg false amplificationAttackPrevention (fun _ _ => true) newServer run.
End AutoNatExample.
Lemma autonat_server_limits_witness :
  from_option (fun s => (length (dials s) <= length (accepted s))%nat /\ forall d, d ∈ dials s -> IsPublicAddr (dd_addr d) = true
    /\ (sameHost (dd_observed d) (dd_addr d) \/ minHandshakeSizeBytes <= dd_received d)) False AutoNatExample.final
  /\ (fun s => dd_received <$> dials s) <$> AutoNatExample.final = Some [32768].
Proof.
  split; [|vm_compute; reflexivity].
  assert (S : (if AutoNatExample.final is Some _ then true else false) = true) by (vm_compute; reflexivity).
  destruct AutoNatExample.final as [s|] eqn:R; [|discriminate S].
  assert (M : monotone 0 AutoNatExample.run) by (repeat split; discriminate).
  assert (F : Forall svValid AutoNatExample.run) by (repeat constructor; discriminate).
  destruct (@autonat_server_limits unsignedVarint AutoNatExample.reg AutoNatExample.cfg false (fun _ _ => true) 0 AutoNatExample.run s M F R)
    as (_ & _ & _ & _ & L & _ & D).
  split; [exact L|]. intros d Hd. destruct (D d Hd) as ([E|E] & _ & H); [discriminate E|]. split; [exact E|exact H].
Defined.

(** A request that is in progress when the server is closed panics when it gives its place back: the map is nil by then. *)
Lemma complete_after_close_panics :
  (fun s => handlers s) <$> @svRun unsignedVarint AutoNatExample.reg AutoNatExample.cfg false amplificationAttackPrevention (fun _ _ => true) newServer
    [SBegin AutoNatExample.peer AutoNatExample.observed false false false 0; SRead 0 ReadErr false Second; SClose; SComplete 0] = Some [PPanic].
Proof. vm_compute. reflexivity. Qed.
