(* ===== verification/AutoNatClient.v ===== *)
(** * The AutoNAT v2 client (p2p/protocol/autonatv2/client.go, autonat.go)

    The client asks a server to dial one of its addresses and waits for the nonce
    of the request on the connection of the dial-back.  [getReachability] is cut
    where it reads from the network or from the channel of the nonce; a channel of
    capacity one is an optional address.  Status codes are those of the protobuf
    messages.  [AutoNAT] chooses the server, and remembers when it was last asked. *)
From Stdlib Require Import ZArith Lia.
From stdpp Require Import base tactics list numbers option gmap sets fin_maps.
From S2P Require Import Prelude Collections GoBytes Varint MaProtocol MaComponent MaCodec MaOps GoNet MaProtocols BlsRpc Relay Manet Reachability AutoNatServer.
Local Open Scope Z_scope.

(** ** Which addresses are consistent *)
(** The states of [IsWebtransportMultiaddr] *)
Inductive wtState := wtInit | foundUDP | foundQuicV1 | foundWebTransport.
Definition wtStep (acc : wtState * nat) (c : Component) : wtState * nat :=
  let '(st, n) := acc in
  let code := protoCode c in
  if code =? P_UDP then (if st is wtInit then foundUDP else st, n)
  else if code =? P_QUIC_V1 then (if st is foundUDP then foundQuicV1 else st, n)
  else if code =? P_WEBTRANSPORT then (if st is foundQuicV1 then foundWebTransport else st, n)
  else if code =? P_CERTHASH then (st, if st is foundWebTransport then S n else n)
  else (st, n).
Definition IsWebtransportMultiaddr (a : Multiaddr) : bool * nat :=
  let '(st, n) := fold_left wtStep a (wtInit, O) in (if st is foundWebTransport then true else false, n).
Fixpoint webrtcLoop (a : Multiaddr) (udp webrtc : bool) (n : nat) : bool * nat :=
  match a with
  | [] => (udp && webrtc, n)
  | c :: a =>
      let code := protoCode c in
      if negb udp then webrtcLoop a (code =? P_UDP) webrtc n
      else if negb webrtc then if negb (code =? P_WEBRTC_DIRECT) then (udp && webrtc, n) else webrtcLoop a udp true n
      else if code =? P_CERTHASH then webrtcLoop a udp webrtc (S n) else (udp && webrtc, n)
  end.
Definition IsWebRTCDirectMultiaddr (a : Multiaddr) : bool * nat := webrtcLoop a false false O.
Definition normalizeMultiaddr (addr : Multiaddr) : Multiaddr :=
  let '(ok, n) := let '(ok, n) := IsWebtransportMultiaddr addr in if ok : bool then (ok, n) else IsWebRTCDirectMultiaddr addr in
  if ok && (0 <? n)%nat then Nat.iter n (fun out => (SplitLast out).1) addr else addr.

(** The loop over the protocols of the two addresses; [i] is zero at the first ones only. *)
Fixpoint protosConsistent (first : bool) (local external : list Z) : bool :=
  match local, external with
  | lp :: local, ep :: external =>
      (if first then
         if (ep =? P_DNS) || (ep =? P_DNSADDR) then (lp =? P_IP4) || (lp =? P_IP6)
         else if ep =? P_DNS4 then lp =? P_IP4
         else if ep =? P_DNS6 then lp =? P_IP6
         else lp =? ep
       else lp =? ep) && protosConsistent false local external
  | _, _ => true
  end.
Definition areAddrsConsistent (connLocalAddr dialedAddr : Multiaddr) : bool :=
  if (length connLocalAddr =? 0)%nat || (length dialedAddr =? 0)%nat then false else
  let localProtos := protoCode <$> normalizeMultiaddr connLocalAddr in
  let externalProtos := protoCode <$> normalizeMultiaddr dialedAddr in
  if negb (length localProtos =? length externalProtos)%nat then false else protosConsistent true localProtos externalProtos.

(** ** Requests and responses *)
Record Request := mkRequest { rq_Addr : Multiaddr; SendDialData : bool }.
Definition ResponseStatus_OK : Z := 200.
Definition ResponseStatus_E_DIAL_REFUSED : Z := 101.
Definition DialStatus_UNUSED : Z := 0.
Definition DialStatus_E_DIAL_ERROR : Z := 100.
Definition DialStatus_E_DIAL_BACK_ERROR : Z := 101.
Definition DialStatus_OK : Z := 200.
Record DialResponse := mkResponse { rs_Status : Z; rs_DialStatus : Z; rs_AddrIdx : nat }.
Record DialDataRequest := mkDataRequest { dq_AddrIdx : nat; dq_NumBytes : Z }.
Inductive message := MsgResponse (r : DialResponse) | MsgDataRequest (r : DialDataRequest) | MsgOther.

Inductive clientError :=
| EOpenStream | ESetService | EMemory | EWriteRequest | EReadMsg | EBadDataRequest | ESendData | EReadResponse | EResponseType | EMsgType
| EResponseStatus | EUnusedStatus | EIndexRange | EInconsistent | EDialBackStream | EStatusCode.

Definition validateDialDataRequest (rqs : list Request) (m : DialDataRequest) : bool :=
  match rqs !! dq_AddrIdx m with
  | None => false
  | Some r => if maxHandshakeSizeBytes <? dq_NumBytes m then false else SendDialData r
  end.
(** A nil address is [None]. *)
Definition newResult (resp : DialResponse) (rqs : list Request) (dialBackAddr : option Multiaddr) : Result + clientError :=
  match rqs !! rs_AddrIdx resp with
  | None => inr EIndexRange
  | Some r =>
      let addr := rq_Addr r in
      let consistent := areAddrsConsistent (default [] dialBackAddr) addr in
      if rs_DialStatus resp =? DialStatus_OK then
        if negb consistent then inr EInconsistent else inl (mkResult addr (Z.of_nat (rs_AddrIdx resp)) ReachabilityPublic false)
      else if rs_DialStatus resp =? DialStatus_E_DIAL_BACK_ERROR then
        if negb consistent then inr EDialBackStream else inl (mkResult addr (Z.of_nat (rs_AddrIdx resp)) ReachabilityPublic false)
      else if rs_DialStatus resp =? DialStatus_E_DIAL_ERROR then inl (mkResult addr (Z.of_nat (rs_AddrIdx resp)) ReachabilityPrivate false)
      else inr EStatusCode
  end.

(** ** Sending dial data *)
Definition dialDataSize : Z := 4000.
(** The lengths of the data in the messages that [sendDialData] writes *)
Fixpoint sendLoop (fuel : nat) (remain data : Z) : list Z :=
  match fuel with
  | O => []
  | S fuel =>
      if remain <=? 0 then [] else
      let data := if remain <? data then remain else data in
      data :: sendLoop fuel (remain - dialDataSize) data
  end.
Definition sendDialData (numBytes : Z) : list Z := sendLoop (Z.to_nat numBytes) numBytes dialDataSize.

(** ** The client *)
Inductive call :=
| CSent (nonce : Z) (ch : nat) (rqs : list Request)
| CAwait (nonce : Z) (ch : nat) (rqs : list Request) (resp : DialResponse)
| CFinish (nonce : Z) (rqs : list Request) (r : Result + clientError)
| CDone (nonce : Z) (rqs : list Request) (r : Result + clientError).
Record client := mkClient {
  dialBackQueues : gmap Z nat;
  chans : list (option Multiaddr);
  calls : list call;
  dialBacks : list (Z * Multiaddr) }.   (* the dial-backs that came in: nonce and local address *)
Definition newClient : client := mkClient ∅ [] [] [].
Definition with_call (c : client) (i : nat) (k : call) : client := mkClient (dialBackQueues c) (chans c) (<[i := k]> (calls c)) (dialBacks c).

(** What the client does with the first message, and with the second one after dial data *)
Definition readResponse (rqs : list Request) (msg : option message) (sendErr : bool) (msg2 : option message) : DialResponse + clientError :=
  match msg with
  | None => inr EReadMsg
  | Some (MsgResponse r) => inl r
  | Some (MsgDataRequest m) =>
      if negb (validateDialDataRequest rqs m) then inr EBadDataRequest else
      if sendErr then inr ESendData else
      match msg2 with None => inr EReadResponse | Some (MsgResponse r) => inl r | Some _ => inr EResponseType end
  | Some MsgOther => inr EMsgType
  end.
Definition onResponse (nonce : Z) (ch : nat) (rqs : list Request) (resp : DialResponse) : call :=
  if negb (rs_Status resp =? ResponseStatus_OK) then
    CFinish nonce rqs (if rs_Status resp =? ResponseStatus_E_DIAL_REFUSED then inl (mkResult [] 0 ReachabilityUnknown true) else inr EResponseStatus)
  else if rs_DialStatus resp =? DialStatus_UNUSED then CFinish nonce rqs (inr EUnusedStatus)
  else if (length rqs <=? rs_AddrIdx resp)%nat then CFinish nonce rqs (inr EIndexRange)
  else if rs_DialStatus resp =? DialStatus_OK then CAwait nonce ch rqs resp
  else CFinish nonce rqs (newResult resp rqs None).

(** The dial-back of a nonce; a second one finds the channel full.  The lookup of
    the channel and the send, between which the code releases the lock, are one step. *)
Definition handleDialBack (c : client) (nonce : Z) (local : Multiaddr) : client :=
  match dialBackQueues c !! nonce with
  | None => c
  | Some ch =>
      match chans c !! ch with
      | Some None => mkClient (dialBackQueues c) (<[ch := Some local]> (chans c)) (calls c) (dialBacks c ++ [(nonce, local)])
      | _ => c
      end
  end.

Inductive clEvent :=
| KFail (e : clientError)                                   (* no stream, or the resource manager refuses *)
| KBegin (nonce : Z) (rqs : list Request)                   (* the nonce is registered *)
| KRead (i : nat) (wErr : bool) (msg : option message) (sendErr : bool) (msg2 : option message)
| KNonce (i : nat)                                          (* the channel gives an address *)
| KTimeout (i : nat)
| KReturn (i : nat)                                         (* the nonce is removed *)
| KDialBack (nonce : Z) (local : Multiaddr).                (* [handleDialBack] *)
Definition clStep (c : client) (e : clEvent) : option client :=
  match e with
  | KFail err => Some (mkClient (dialBackQueues c) (chans c) (calls c ++ [CDone 0 [] (inr err)]) (dialBacks c))
  | KBegin nonce rqs =>
      let ch := length (chans c) in
      Some (mkClient (<[nonce := ch]> (dialBackQueues c)) (chans c ++ [None]) (calls c ++ [CSent nonce ch rqs]) (dialBacks c))
  | KRead i wErr msg sendErr msg2 =>
      match calls c !! i with
      | Some (CSent nonce ch rqs) =>
          Some (with_call c i (if wErr then CFinish nonce rqs (inr EWriteRequest) else
            match readResponse rqs msg sendErr msg2 with inr err => CFinish nonce rqs (inr err) | inl resp => onResponse nonce ch rqs resp end))
      | _ => None
      end
  | KNonce i =>
      match calls c !! i with
      | Some (CAwait nonce ch rqs resp) =>
          match chans c !! ch with
          | Some (Some a) => Some (mkClient (dialBackQueues c) (<[ch := None]> (chans c)) (<[i := CFinish nonce rqs (newResult resp rqs (Some a))]> (calls c)) (dialBacks c))
          | _ => None
          end
      | _ => None
      end
  | KTimeout i =>
      match calls c !! i with
      | Some (CAwait nonce ch rqs resp) => Some (with_call c i (CFinish nonce rqs (newResult resp rqs None)))
      | _ => None
      end
  | KReturn i =>
      match calls c !! i with
      | Some (CFinish nonce rqs r) => Some (mkClient (delete nonce (dialBackQueues c)) (chans c) (<[i := CDone nonce rqs r]> (calls c)) (dialBacks c))
      | _ => None
      end
  | KDialBack nonce local => Some (handleDialBack c nonce local)
  end.
Fixpoint clRun (c : client) (es : list clEvent) : option client :=
  match es with [] => Some c | e :: es => c ← clStep c e; clRun c es end.

(** ** The servers *)
Record peersMap := mkPeers { peerIdx : gmap PeerID nat; peers : list PeerID }.
Definition newPeersMap : peersMap := mkPeers ∅ [].
(** From the random number [start] on *)
Definition Shuffled (p : peersMap) (start : nat) : list PeerID :=
  omap (fun i => peers p !! ((i + start) mod length (peers p))%nat) (seq 0 (length (peers p))).
Definition peers_Put (p : peersMap) (id : PeerID) : peersMap :=
  match peerIdx p !! id with
  | Some _ => p
  | None => mkPeers (<[id := length (peers p)]> (peerIdx p)) (peers p ++ [id])
  end.
(** [None] is an index out of range *)
Definition peers_Delete (p : peersMap) (id : PeerID) : option peersMap :=
  match peerIdx p !! id with
  | None => Some p
  | Some idx =>
      let n := length (peers p) in
      lastPeer ← peers p !! (n - 1)%nat;
      _ ← peers p !! idx;
      let ps := <[idx := lastPeer]> (peers p) in
      Some (mkPeers (delete id (<[lastPeer := idx]> (peerIdx p))) (take (n - 1) ps))
  end.

(** [updatePeer]: what the peer store and the swarm say of the peer *)
Definition updatePeer (p : peersMap) (id : PeerID) (protosErr connected supports : bool) : option peersMap :=
  if negb protosErr && connected && supports then Some (peers_Put p id) else peers_Delete p id.

(** The loop of [GetReachability] over the servers; [now2] is the second reading of the clock. *)
Fixpoint chooseServer (dur now now2 : Z) (l : list PeerID) (throttle : gmap PeerID Z) : option PeerID * gmap PeerID Z :=
  match l with
  | [] => (None, throttle)
  | pr :: l =>
      if from_option (fun t => now <? t) false (throttle !! pr) then chooseServer dur now now2 l throttle
      else (Some pr, <[pr := now2 + dur]> throttle)
  end.
(** The ticker of [background] *)
Definition dropThrottled (now : Z) (throttle : gmap PeerID Z) : gmap PeerID Z := filter (fun pt => now <= pt.2) throttle.
(** The requests that are sent, [None] is [ErrPrivateAddrs] *)
Definition publicRequests (allowPrivate : bool) (rqs : list Request) : option (list Request) :=
  if allowPrivate then Some rqs else
  match filter (fun r => IsPublicAddr (rq_Addr r) = true) rqs with [] => None | l => Some l end.
(** The index of the address in the original requests *)
Fixpoint restoreIdx (i : nat) (rqs : list Request) (res : Result) : Result :=
  match rqs with
  | [] => res
  | r :: rqs => if Equal (rq_Addr r) (res_Addr res) then mkResult (res_Addr res) (Z.of_nat i) (res_Reachability res) (AllAddrsRefused res) else restoreIdx (S i) rqs res
  end.

(** ** Laws *)
(** What [sendDialData] writes is what the server has asked for, and the server counts it as such. *)
(** The wire format of protobuf: a field of [d] bytes in a message that is itself a field of a message; each has a tag of one
    byte and a length in base 128 of at most two bytes. *)
Definition wireLen (d : Z) : Z := let inner := 1 + varintSize d + d in 1 + varintSize inner + inner.
Section dialData.
(** The length of the encoded message, which the protobuf library determines *)
Context (messageLen : Z -> Z) (messageLen_wire : forall d, 0 <= d <= dialDataSize -> messageLen d = wireLen d).
Lemma messageLen_bounds d : 0 <= d <= dialDataSize -> d + 4 <= messageLen d <= d + 6 /\ messageLen d <= maxMsgSize /\ dataLen (messageLen d) = d.
Proof.
  intros Hd. rewrite (messageLen_wire d Hd). assert (B : d + 4 <= wireLen d <= d + 6) by (unfold wireLen, varintSize; repeat case_match; lia).
  unfold dialDataSize in Hd. assert (M : wireLen d <= maxMsgSize) by (unfold maxMsgSize; lia). split_and!; try lia. apply dataLen_exact; [lia|exact M].
Qed.
Lemma sendLoop_read fuel remain : 0 < remain -> remain <= dialDataSize * Z.of_nat fuel ->
  exists n, readDialData remain ((fun d => Some (messageLen d)) <$> sendLoop fuel remain dialDataSize) = (true, n) /\ sumZ id (sendLoop fuel remain dialDataSize) = remain
    /\ Forall (fun d => messageLen d <= maxMsgSize) (sendLoop fuel remain dialDataSize).
Proof.
  revert remain. induction fuel as [|fuel IH]; intros remain H0 Hf; [unfold dialDataSize in Hf; lia|].
  cbn [sendLoop]. rewrite (proj2 (Z.leb_gt _ _)) by lia. destruct (Z.ltb_spec remain dialDataSize) as [L|L].
  - destruct (messageLen_bounds remain) as (_ & B & E); [lia|]. assert (N : sendLoop fuel (remain - dialDataSize) remain = []).
    { destruct fuel; [done|]. cbn [sendLoop]. by rewrite (proj2 (Z.leb_le _ _)) by lia. }
    rewrite N. cbn [fmap list_fmap readDialData]. rewrite (proj2 (Z.leb_gt _ _)) by lia. rewrite E, (proj2 (Z.ltb_lt 0 remain)) by lia.
    rewrite Z.sub_diag, andb_false_r. eexists. split; [reflexivity|]. split; [simpl; unfold id; lia|by repeat constructor].
  - destruct (messageLen_bounds dialDataSize) as (_ & B & E); [unfold dialDataSize; lia|].
    destruct (decide (remain = dialDataSize)) as [->|Ne].
    + assert (N : sendLoop fuel (dialDataSize - dialDataSize) dialDataSize = []) by (by destruct fuel).
      rewrite N. cbn [fmap list_fmap readDialData]. rewrite E. eexists. split; [reflexivity|]. split; [done|by repeat constructor].
    + destruct (IH (remain - dialDataSize)) as (n & R & S & F); [lia|lia|]. cbn [fmap list_fmap readDialData].
      rewrite (proj2 (Z.leb_gt _ _)) by lia. rewrite E. change (0 <? dialDataSize) with true. cbn iota.
      change (dialDataSize <? 100) with false. cbn [andb]. change (list_fmap _ _ ?f ?l) with (f <$> l). rewrite R. eexists. split; [reflexivity|]. split; [rewrite sumZ_cons, S; unfold id; lia|by constructor].
Qed.

(** C40: Dial data makes the round trip.  Whatever number of bytes the server asks
    for, the client accepts the request exactly when the index is that of one of
    its addresses and it is willing to send data for it ([SendDialData]); what it
    then sends is exactly that many bytes, in messages of at most the maximal size,
    and the server, which counts the bytes from the lengths of the messages, is
    satisfied. *)
Theorem dial_data_roundtrip (rnd : Z) (rqs : list Request) (idx : nat) :
  0 <= rnd < maxHandshakeSizeBytes - minHandshakeSizeBytes ->
  let n := minHandshakeSizeBytes + rnd in
  validateDialDataRequest rqs (mkDataRequest idx n) = from_option SendDialData false (rqs !! idx)
  /\ sumZ id (sendDialData n) = n
  /\ Forall (fun d => messageLen d <= maxMsgSize) (sendDialData n)
  /\ (getDialData false rnd ((fun d => Some (messageLen d)) <$> sendDialData n)).1 = true.
Proof.
  intros Hr n. unfold minHandshakeSizeBytes, maxHandshakeSizeBytes in *.
  destruct (sendLoop_read (Z.to_nat n) n) as (k & R & Su & F); [unfold n; lia|unfold dialDataSize, n; lia|]. split_and!; [|done|done|].
  - unfold validateDialDataRequest. cbn [dq_AddrIdx dq_NumBytes]. destruct (rqs !! idx); [|done]. unfold maxHandshakeSizeBytes. by rewrite (proj2 (Z.ltb_ge _ _)) by (unfold n; lia).
  - unfold getDialData, minHandshakeSizeBytes. fold n. unfold sendDialData. by rewrite R.
Qed.
End dialData.
Lemma dial_data_roundtrip_witness :
  validateDialDataRequest [mkRequest [] true; mkRequest [] false] (mkDataRequest 0 34321) = true
  /\ validateDialDataRequest [mkRequest [] true; mkRequest [] false] (mkDataRequest 1 34321) = false
  /\ (getDialData false 4321 ((fun d => Some (wireLen d)) <$> sendDialData 34321)).1 = true /\ last (sendDialData 34321) = Some 2321.
Proof.
  pose proof (fun i => dial_data_roundtrip wireLen (fun _ _ => eq_refl) 4321 [mkRequest [] true; mkRequest [] false] i
    ltac:(split; vm_compute; congruence)) as D.
  split; [exact (proj1 (D 0%nat))|]. split; [exact (proj1 (D 1%nat))|]. split; [exact (proj2 (proj2 (proj2 (D 0%nat))))|vm_compute; reflexivity].
Defined.

(** ** The client *)
(** What makes a result trustworthy: when it says public, the nonce of the request came back on a connection that fits the address. *)
Definition trustworthy (dbs : list (Z * Multiaddr)) (nonce : Z) (rqs : list Request) (r : Result + clientError) : Prop :=
  match r with
  | inr _ => True
  | inl res =>
      (AllAddrsRefused res = true /\ res_Reachability res = ReachabilityUnknown)
      \/ ((exists rq i, rqs !! i = Some rq /\ res_Idx res = Z.of_nat i /\ res_Addr res = rq_Addr rq)
          /\ (res_Reachability res = ReachabilityPublic -> exists a, (nonce, a) ∈ dbs /\ areAddrsConsistent a (res_Addr res) = true))
  end.
Lemma newResult_trustworthy dbs nonce rqs resp a : (forall x, a = Some x -> (nonce, x) ∈ dbs) -> trustworthy dbs nonce rqs (newResult resp rqs a).
Proof.
  intros Ha. unfold newResult. destruct (rqs !! rs_AddrIdx resp) as [r|] eqn:E; [|done].
  assert (P : areAddrsConsistent (default [] a) (rq_Addr r) = true ->
    trustworthy dbs nonce rqs (inl (mkResult (rq_Addr r) (Z.of_nat (rs_AddrIdx resp)) ReachabilityPublic false))).
  { intros C. right. split; [by exists r, (rs_AddrIdx resp)|]. intros _. destruct a as [x|]; [|done]. exists x. split; [by apply Ha|done]. }
  destruct (_ =? DialStatus_OK); [destruct (areAddrsConsistent _ _); [by apply P|done]|].
  destruct (_ =? DialStatus_E_DIAL_BACK_ERROR); [destruct (areAddrsConsistent _ _); [by apply P|done]|].
  destruct (_ =? DialStatus_E_DIAL_ERROR); [|done]. right. split; [by exists r, (rs_AddrIdx resp)|done].
Qed.
Lemma trustworthy_more dbs dbs' nonce rqs r : (forall x, x ∈ dbs -> x ∈ dbs') -> trustworthy dbs nonce rqs r -> trustworthy dbs' nonce rqs r.
Proof. intros H. destruct r as [res|]; [|done]. intros [?|[? P]]; [by left|right]. split; [done|]. intros Q. destruct (P Q) as (a & Ha & C). eauto. Qed.

(** [ns] gives every channel the nonce it was made for. *)
Definition callGood (ns : list Z) (dbs : list (Z * Multiaddr)) (k : call) : Prop :=
  match k with
  | CSent nonce ch _ | CAwait nonce ch _ _ => ns !! ch = Some nonce
  | CFinish nonce rqs r | CDone nonce rqs r => trustworthy dbs nonce rqs r
  end.
Record clOk (ns : list Z) (c : client) : Prop := {
  co_length : length ns = length (chans c);
  co_queues nonce ch : dialBackQueues c !! nonce = Some ch -> ns !! ch = Some nonce;
  co_chans ch a : chans c !! ch = Some (Some a) -> exists nonce, ns !! ch = Some nonce /\ (nonce, a) ∈ dialBacks c;
  co_calls : Forall (callGood ns (dialBacks c)) (calls c) }.

Lemma callGood_more ns ns' dbs dbs' k : (forall ch n, ns !! ch = Some n -> ns' !! ch = Some n) -> (forall x, x ∈ dbs -> x ∈ dbs') -> callGood ns dbs k -> callGood ns' dbs' k.
Proof. intros H1 H2. destruct k; simpl; eauto using trustworthy_more. Qed.
Lemma with_call_ok ns c i k : clOk ns c -> callGood ns (dialBacks c) k -> clOk ns (with_call c i k).
Proof. intros [H1 H2 H3 H4] G. split; simpl; [done..|]. by apply Forall_insert. Qed.
Lemma onResponse_ok ns dbs nonce ch rqs resp : ns !! ch = Some nonce -> callGood ns dbs (onResponse nonce ch rqs resp).
Proof.
  intros E. unfold onResponse. destruct (negb _); [simpl; destruct (_ =? _); [by left|done]|]. destruct (_ =? DialStatus_UNUSED); [done|].
  destruct (_ <=? _)%nat; [done|]. destruct (_ =? DialStatus_OK); [done|]. by apply newResult_trustworthy.
Qed.
Lemma clStep_ok ns c e c' : clOk ns c -> clStep c e = Some c' -> exists ns', clOk ns' c'.
Proof.
  intros H. pose proof H as [H1 H2 H3 H4]. destruct e as [err|nonce rqs|i wErr msg sendErr msg2|i|i|i|nonce local]; cbn [clStep].
  - intros [= <-]. exists ns. split; simpl; [done..|]. by rewrite Forall_app, Forall_singleton.
  - intros [= <-]. exists (ns ++ [nonce]). split; simpl.
    + rewrite !length_app. simpl. lia.
    + intros n ch. destruct (decide (n = nonce)) as [->|N].
      * rewrite lookup_insert_eq. intros [= <-]. rewrite <-H1. by apply list_lookup_middle.
      * rewrite lookup_insert_ne by done. intros E%H2. by apply lookup_app_l_Some.
    + intros ch a E. apply lookup_app_Some in E as [E|[_ E]]; [|by apply list_lookup_singleton_Some in E as [_ ?]].
      destruct (H3 _ _ E) as (n & En & D). exists n. split; [by apply lookup_app_l_Some|done].
    + rewrite Forall_app, Forall_singleton. split; [|simpl; rewrite <-H1; by apply list_lookup_middle].
      eapply Forall_impl; [exact H4|]. intros k. apply callGood_more; [|done]. intros ch n E. by apply lookup_app_l_Some.
  - destruct (calls c !! i) as [[nonce ch rqs| | |]|] eqn:E; try done. intros [= <-]. exists ns. apply with_call_ok; [done|].
    pose proof (Forall_lookup_1 _ _ _ _ H4 E) as G. simpl in G. destruct wErr; [done|]. destruct (readResponse rqs msg sendErr msg2); [by apply onResponse_ok|done].
  - destruct (calls c !! i) as [[|nonce ch rqs resp| |]|] eqn:E; try done. destruct (chans c !! ch) as [[a|]|] eqn:Ec; try done. intros [= <-]. exists ns.
    pose proof (Forall_lookup_1 _ _ _ _ H4 E) as G. simpl in G. destruct (H3 _ _ Ec) as (n & En & D). simplify_eq. split; simpl.
    + by rewrite length_insert.
    + done.
    + intros ch' a' E'. apply H3. apply list_lookup_insert_Some in E' as [(_ & ? & _)|(_ & E')]; done.
    + apply Forall_insert; [done|]. apply newResult_trustworthy. by intros x [= <-].
  - destruct (calls c !! i) as [[|nonce ch rqs resp| |]|] eqn:E; try done. intros [= <-]. exists ns. apply with_call_ok; [done|]. by apply newResult_trustworthy.
  - destruct (calls c !! i) as [[| |nonce rqs r|]|] eqn:E; try done. intros [= <-]. exists ns. pose proof (Forall_lookup_1 _ _ _ _ H4 E) as G. split; simpl; [done| |done|by apply Forall_insert].
    intros n ch [_ Hn]%lookup_delete_Some. by apply H2.
  - intros [= <-]. unfold handleDialBack. destruct (dialBackQueues c !! nonce) as [ch|] eqn:E; [|eauto]. destruct (chans c !! ch) as [[a|]|] eqn:Ec; [eauto| |eauto].
    exists ns. split; simpl; [by rewrite length_insert|done| |].
    + intros ch' a' E'. apply list_lookup_insert_Some in E' as [(-> & [= <-] & _)|(_ & E')]; [exists nonce; split; [by apply H2|set_solver]|].
      destruct (H3 _ _ E') as (n & En & D). exists n. set_solver.
    + eapply Forall_impl; [exact H4|]. intros k. apply callGood_more; [done|set_solver].
Qed.
Lemma clRun_ok ns c es c' : clOk ns c -> clRun c es = Some c' -> exists ns', clOk ns' c'.
Proof.
  revert ns c. induction es as [|e es IH]; intros ns c H; simpl; [intros [= <-]; eauto|]. destruct (clStep c e) as [c1|] eqn:E; [|done].
  destruct (clStep_ok _ _ _ _ H E) as (ns1 & H1). by apply (IH ns1).
Qed.

(** C39: The client believes no server.  However calls and dial-backs interleave, and
    whatever servers answer, a call that reports an address as public reports one of
    the addresses it asked about, with its index, and the nonce of the call came back
    on a connection whose local address is consistent with it. *)
Theorem client_reports_dialled (es : list clEvent) (c : client) (nonce : Z) (rqs : list Request) (res : Result) :
  clRun newClient es = Some c -> CDone nonce rqs (inl res) ∈ calls c -> AllAddrsRefused res = false ->
  (exists rq i, rqs !! i = Some rq /\ res_Idx res = Z.of_nat i /\ res_Addr res = rq_Addr rq)
  /\ (res_Reachability res = ReachabilityPublic -> exists a, (nonce, a) ∈ dialBacks c /\ areAddrsConsistent a (res_Addr res) = true).
Proof.
  intros R Hin Hr. destruct (clRun_ok [] newClient es c) as (ns & [_ _ _ H4]); [|done|].
  { split; simpl; [done| |done|by constructor]. intros n ch. by rewrite lookup_empty. }
  rewrite Forall_forall in H4. destruct (H4 _ Hin) as [[? _]|?]; [congruence|done].
Qed.

Module ClientExample.
Definition ip (a b : Byte.byte) : Component := mkComponent [Byte.x04; a; Byte.x01; Byte.x01; b] (Some (@protoIP4 unsignedVarint)) 1.
Definition tcp : Component := mkComponent [Byte.x06; Byte.x0f; Byte.xa1] (Some (@protoTCP unsignedVarint)) 1.
Definition external : Multiaddr := [ip Byte.x05 Byte.x05; tcp].
Definition local : Multiaddr := [ip Byte.x0a Byte.x01; tcp].
Definition requests : list Request := [mkRequest external true].
Definition run : list clEvent :=
  [KBegin 7 requests; KDialBack 8 local; KDialBack 7 local; KRead 0 false (Some (MsgResponse (mkResponse 200 200 0))) false None; KNonce 0; KReturn 0].
Definition final : option client := clRun newClient run.
Definition result : Result := mkResult external 0 ReachabilityPublic false.
End ClientExample.
Lemma client_reports_dialled_witness :
  from_option (fun c => exists a, (7, a) ∈ dialBacks c /\ areAddrsConsistent a ClientExample.external = true) False ClientExample.final.
Proof.
  destruct ClientExample.final as [c|] eqn:R; [|discriminate R].
  assert (H : CDone 7 ClientExample.requests (inl ClientExample.result) ∈ calls c).
  { injection R as <-. apply list_elem_of_here. }
  exact (proj2 (client_reports_dialled ClientExample.run c 7 ClientExample.requests ClientExample.result R H eq_refl) eq_refl).
Defined.

(** The client waits for the nonce only when the status is OK: the branch for a
    dial-back error, which takes the address for public when the nonce has come,
    always ends in an error. *)
Lemma dial_back_error_never_public nonce ch rqs i :
  exists e, onResponse nonce ch rqs (mkResponse ResponseStatus_OK DialStatus_E_DIAL_BACK_ERROR i) = CFinish nonce rqs (inr e).
Proof.
  unfold onResponse. simpl. destruct (length rqs <=? i)%nat; [by eexists|]. unfold newResult. simpl. destruct (rqs !! i) as [r|]; [|by eexists].
  unfold areAddrsConsistent. simpl. by eexists.
Qed.
(** Of an address that ends with the identity of a peer, the identity is removed and not the hash of the certificate. *)
Lemma normalize_keeps_certhash (a udp quic wt cert p2p : Component) :
  protoCode a = P_IP4 -> protoCode udp = P_UDP -> protoCode quic = P_QUIC_V1 -> protoCode wt = P_WEBTRANSPORT -> protoCode cert = P_CERTHASH -> protoCode p2p = P_P2P ->
  normalizeMultiaddr [a; udp; quic; wt; cert; p2p] = [a; udp; quic; wt; cert].
Proof.
  intros E1 E2 E3 E4 E5 E6. unfold normalizeMultiaddr, IsWebtransportMultiaddr. cbn [fold_left]. unfold wtStep. by rewrite E1, E2, E3, E4, E5, E6.
Qed.

(** ** The servers *)
(** The index and the list are inverse to each other. *)
Definition peersOk (p : peersMap) : Prop := forall id i, peerIdx p !! id = Some i <-> peers p !! i = Some id.
Lemma peersOk_nodup p : peersOk p -> NoDup (peers p).
Proof. intros H. apply NoDup_alt. intros i j x Hi%H Hj%H. congruence. Qed.
Lemma peers_Put_ok p id : peersOk p -> peersOk (peers_Put p id) /\ forall q, q ∈ peers (peers_Put p id) <-> q ∈ peers p \/ q = id.
Proof.
  intros H. unfold peers_Put. destruct (peerIdx p !! id) as [i|] eqn:E.
  { split; [done|]. intros q. split; [by left|]. intros [?| ->]; [done|]. eapply list_elem_of_lookup_2, H, E. }
  split; [|intros q; simpl; set_solver]. intros q i. simpl. rewrite lookup_app_Some, list_lookup_singleton_Some. destruct (decide (q = id)) as [->|N].
  - rewrite lookup_insert_eq. split.
    + intros [= <-]. right. split; [done|]. split; [lia|done].
    + intros [F%H|[L [D _]]]; [congruence|]. f_equal. lia.
  - rewrite lookup_insert_ne by done. rewrite (H q i). split; [by left|]. intros [?|[_ [_ ?]]]; [done|congruence].
Qed.
Lemma peers_Delete_ok p id : peersOk p -> exists p', peers_Delete p id = Some p' /\ peersOk p' /\ forall q, q ∈ peers p' <-> q ∈ peers p /\ q <> id.
Proof.
  intros H. pose proof (peersOk_nodup p H) as Nd. unfold peers_Delete. destruct (peerIdx p !! id) as [i|] eqn:E.
  2:{ exists p. split_and!; [done..|]. intros q. split; [|by intros []]. intros Hq. split; [done|]. intros ->. apply list_elem_of_lookup in Hq as [j Hj%H]. congruence. }
  pose proof (proj1 (H _ _) E) as Ei. pose proof (lookup_lt_Some _ _ _ Ei) as Li.
  destruct (lookup_lt_is_Some_2 (peers p) (length (peers p) - 1)) as [l El]; [lia|]. rewrite El, Ei. cbn [mbind option_bind]. eexists. split; [done|].
  assert (K : forall q j, peers p !! j = Some q -> q = id -> j = i) by (intros q j Hj ->; exact (NoDup_lookup _ _ _ _ Nd Hj Ei)).
  assert (Kl : forall q j, peers p !! j = Some q -> q = l -> j = (length (peers p) - 1)%nat) by (intros q j Hj ->; exact (NoDup_lookup _ _ _ _ Nd Hj El)).
  assert (O : peersOk (mkPeers (delete id (<[l := i]> (peerIdx p))) (take (length (peers p) - 1) (<[i := l]> (peers p))))).
  { intros q j. simpl. rewrite lookup_delete_Some, lookup_take_Some, list_lookup_insert_Some, lookup_insert_Some. split.
    - intros (N & [[-> <-]|[N' Hq%H]]).
      + assert (i <> length (peers p) - 1)%nat by (intros ->; congruence). split; [|lia]. left. by split_and!.
      + assert (j <> length (peers p) - 1)%nat by (intros ->; congruence). pose proof (lookup_lt_Some _ _ _ Hq). split; [|lia].
        right. split; [|done]. intros <-. congruence.
    - intros ([(-> & <- & _)|[N Hq]] & L).
      + split; [|by left]. intros <-. pose proof (K _ _ El eq_refl). lia.
      + split; [intros <-; by pose proof (K _ _ Hq eq_refl)|]. right. split; [|by apply H]. intros <-. pose proof (Kl _ _ Hq eq_refl). lia. }
  split; [exact O|]. intros q. rewrite !list_elem_of_lookup. split.
  - intros [j Hj]. apply (proj2 (O q j)) in Hj. simpl in Hj. apply lookup_delete_Some in Hj as [N [[-> <-]|[_ Hq%H]]%lookup_insert_Some]; [by split; [exists (length (peers p) - 1)%nat|]|by split; [exists j|]].
  - intros [[j Hj] N]. destruct (decide (q = l)) as [->|N'].
    + exists i. apply O. simpl. by rewrite lookup_delete_ne, lookup_insert_eq.
    + exists j. apply O. simpl. rewrite lookup_delete_ne, lookup_insert_ne by done. by apply H.
Qed.
Lemma Shuffled_peers p start q : q ∈ Shuffled p start -> q ∈ peers p.
Proof. unfold Shuffled. intros (i & _ & E)%list_elem_of_omap. by eapply list_elem_of_lookup_2. Qed.
(** A server is not asked again before its time is over. *)
Lemma chooseServer_throttles dur now now2 l throttle p throttle' : now <= now2 -> 0 <= dur -> chooseServer dur now now2 l throttle = (Some p, throttle') ->
  p ∈ l /\ (forall t, throttle !! p = Some t -> t <= now) /\ throttle' = <[p := now2 + dur]> throttle
  /\ forall now3 now4 k th, now3 < now2 + dur -> (forall t, throttle' !! p = Some t -> th !! p = Some t) -> (chooseServer dur now3 now4 k th).1 <> Some p.
Proof.
  intros L D E. assert (A : p ∈ l /\ (forall t, throttle !! p = Some t -> t <= now) /\ throttle' = <[p := now2 + dur]> throttle).
  { induction l as [|q l IH]; simpl in E; [done|]. destruct (from_option _ _ _) eqn:F; [destruct (IH E) as (? & ? & ?); split_and!; [by constructor|done..]|].
    injection E as -> <-. split_and!; [by constructor| |done]. intros t Ht. rewrite Ht in F. simpl in F. by apply Z.ltb_ge in F. }
  destruct A as (A1 & A2 & ->). split_and!; [done..|]. intros now3 now4 k th L3 Hth. specialize (Hth _ (lookup_insert_eq _ _ _)).
  induction k as [|q k IH]; simpl; [done|]. destruct (from_option _ _ (th !! q)) eqn:F; [done|]. simpl. intros [= ->]. rewrite Hth in F. simpl in F. apply Z.ltb_ge in F. lia.
Qed.
