(* ===== verification/ObservedAddrs.v ===== *)
(** * Observed addresses (p2p/host/observedaddrs/manager.go)

    Peers tell us under which address they see us.  The manager counts, for each
    local thin waist (IP and port) and each external one, the observers, and
    proposes the external addresses with the most of them.  A connection is a
    number with its two addresses; a pointer to an [observerSet] is the pair of
    keys under which the manager stores it. *)
From Stdlib Require Import ZArith Lia.
From stdpp Require Import base tactics list numbers option gmap sets fin_maps sorting.
From S2P Require Import Prelude Collections GoBytes Varint MaProtocol MaComponent MaCodec MaOps GoNet MaProtocols BlsRpc Relay Manet.
Local Open Scope Z_scope.

Definition ActivationThresh : Z := 4.
Definition observedAddrManagerWorkerChannelSize : Z := 16.
Definition maxExternalThinWaistAddrsPerLocalAddr : Z := 3.
Definition observerSetCacheSize : Z := 10.

(** ** Thin waists *)
Record thinWaist := mkTW { tw_Addr : Multiaddr; tw_TW : Multiaddr; tw_Rest : Multiaddr }.
Definition thinWaistForm (a : Multiaddr) : option thinWaist :=
  match a with
  | c0 :: c1 :: _ =>
      if (negb (protoCode c0 =? P_IP4) && negb (protoCode c0 =? P_IP6)) || (negb (protoCode c1 =? P_TCP) && negb (protoCode c1 =? P_UDP)) then None
      else Some (mkTW a (take 2 a) (drop 2 a))
  | _ => None
  end.
(** An IPv6 observer is the first 56 bits of its address. *)
Definition getObserver (a : Multiaddr) : option bytes :=
  match ToIP a with
  | Ok ip =>
      match To4 ip with
      | Some ip4 => Some (IP_String ip4)
      | None => Some (IP_String (if (length ip =? 16)%nat then take 7 ip ++ replicate 9 Byte.x00 else []))
      end
  | _ => None
  end.
Definition hasConsistentTransport (aTW bTW : Multiaddr) : bool :=
  (length aTW =? length bTW)%nat && forallb (fun ab => protoCode ab.2 =? protoCode ab.1) (zip aTW bTW).
Definition isRelayedAddress (a : Multiaddr) : bool := existsb (fun c => protoCode c =? P_CIRCUIT) a.

(** ** Sets of observers *)
Record observerSet := mkOS { ObservedTWAddr : Multiaddr; ObservedBy : gmap bytes Z; cachedMultiaddrs : gmap bytes Multiaddr }.
Definition set_ObservedBy (s : observerSet) (m : gmap bytes Z) : observerSet := mkOS (ObservedTWAddr s) m (cachedMultiaddrs s).
Definition set_cached (s : observerSet) (m : gmap bytes Multiaddr) : observerSet := mkOS (ObservedTWAddr s) (ObservedBy s) m.

(** [None] is a nil address; [evict] is the first key of a range over the cache. *)
Definition cacheMultiaddr (evict : gset bytes -> bytes) (s : observerSet) (addr : option Multiaddr) : observerSet * Multiaddr :=
  match addr with
  | None => (s, ObservedTWAddr s)
  | Some addr =>
      let addrStr := Bytes addr in
      match cachedMultiaddrs s !! addrStr with
      | Some res => (s, res)
      | None =>
          let cache := cachedMultiaddrs s in
          let cache := if Z.of_nat (size cache) =? observerSetCacheSize then delete (evict (dom cache)) cache else cache in
          let res := Join [Some (ObservedTWAddr s); Some addr] in
          (set_cached s (<[addrStr := res]> cache), res)
      end
  end.

(** ** The manager *)
Abbreviation extAddrs := (gmap bytes (gmap bytes observerSet)).
Abbreviation Conn := nat.
Inductive NATDeviceType := NATDeviceTypeUnknown | NATDeviceTypeEndpointIndependent | NATDeviceTypeEndpointDependent.
#[export] Instance NATDeviceType_dec : EqDecision NATDeviceType.
Proof. solve_decision. Defined.
Inductive NATTransport := NATTransportUDP | NATTransportTCP.

Record Manager := mkManager {
  externalAddrs : extAddrs;
  connObservedTWAddrs : gmap Conn Multiaddr;
  wch : list (Conn * Multiaddr);
  udpNATType : NATDeviceType; tcpNATType : NATDeviceType  (** the variables of [eventHandler] *) }.
Definition newManager : Manager := mkManager ∅ ∅ [] NATDeviceTypeUnknown NATDeviceTypeUnknown.
Definition set_tables (o : Manager) (x : extAddrs) (m : gmap Conn Multiaddr) : Manager := mkManager x m (wch o) (udpNATType o) (tcpNATType o).
Definition set_external (o : Manager) (x : extAddrs) : Manager := set_tables o x (connObservedTWAddrs o).
Definition set_wch (o : Manager) (q : list (Conn * Multiaddr)) : Manager := mkManager (externalAddrs o) (connObservedTWAddrs o) q (udpNATType o) (tcpNATType o).

Definition observers (x : extAddrs) (l : bytes) : gmap bytes observerSet := default ∅ (x !! l).
Definition getSet (x : extAddrs) (l k : bytes) : option observerSet := observers x l !! k.
Definition putSet (x : extAddrs) (l k : bytes) (s : observerSet) : extAddrs := <[l := <[k := s]> (observers x l)]> x.

(** *** Recording *)
Definition removeExternalAddrsUnlocked (x : extAddrs) (observer localTWStr observedTWStr : bytes) : extAddrs :=
  match getSet x localTWStr observedTWStr with
  | None => x
  | Some s =>
      let n := default 0 (ObservedBy s !! observer) - 1 in
      let by_ := if n <=? 0 then delete observer (ObservedBy s) else <[observer := n]> (ObservedBy s) in
      let m := observers x localTWStr in
      let m := if bool_decide (by_ = ∅) then delete observedTWStr m else <[observedTWStr := set_ObservedBy s by_]> m in
      if bool_decide (m = ∅) then delete localTWStr x else <[localTWStr := m]> x
  end.
Definition addExternalAddrsUnlocked (x : extAddrs) (observedTWAddr : Multiaddr) (observer localTWStr observedTWStr : bytes) : extAddrs :=
  let s := default (mkOS observedTWAddr ∅ ∅) (getSet x localTWStr observedTWStr) in
  putSet x localTWStr observedTWStr (set_ObservedBy s (<[observer := default 0 (ObservedBy s !! observer) + 1]> (ObservedBy s))).

Section manager.
Context {GS : GoSort} (evict : gset bytes -> bytes) (LocalMultiaddr RemoteMultiaddr : Conn -> Multiaddr).

Definition recordObservationUnlocked (o : Manager) (isClosed : bool) (conn : Conn) (localTW observedTW : thinWaist) : Manager :=
  if isClosed then o
  else
    let localTWStr := Bytes (tw_TW localTW) in
    let observedTWStr := Bytes (tw_TW observedTW) in
    match getObserver (RemoteMultiaddr conn) with
    | None => o
    | Some observer =>
        let record x := set_tables o (addExternalAddrsUnlocked x (tw_TW observedTW) observer localTWStr observedTWStr)
                          (<[conn := tw_TW observedTW]> (connObservedTWAddrs o)) in
        match connObservedTWAddrs o !! conn with
        | None => record (externalAddrs o)
        | Some prev =>
            if Equal prev (tw_TW observedTW) then o
            else record (removeExternalAddrsUnlocked (externalAddrs o) observer localTWStr (Bytes prev))
        end
    end.
(** A nil address is empty. *)
Definition shouldRecordObservation (listenAddrs : list Multiaddr) (conn : Conn) (observed : Multiaddr) : option (thinWaist * thinWaist) :=
  if bool_decide (observed = []) then None
  else if IsIPLoopback observed then None
  else if IsNAT64IPv4ConvertedIPv6Addr observed then None
  else if isRelayedAddress observed then None
  else
    localTW ← thinWaistForm (LocalMultiaddr conn);
    let listenTWs := (fun a => match thinWaistForm a with None => [] | Some tw => tw_TW tw end) <$> listenAddrs in
    if negb (Contains listenTWs (tw_TW localTW)) then None
    else
      observedTW ← thinWaistForm observed;
      if negb (hasConsistentTransport (tw_TW localTW) (tw_TW observedTW)) then None else Some (localTW, observedTW).
Definition maybeRecordObservation (o : Manager) (listenAddrs : list Multiaddr) (isClosed : bool) (conn : Conn) (observed : Multiaddr) : Manager :=
  match shouldRecordObservation listenAddrs conn observed with
  | None => o
  | Some (localTW, observedTW) => recordObservationUnlocked o isClosed conn localTW observedTW
  end.
Definition removeConn (o : Manager) (conn : Conn) : Manager :=
  match connObservedTWAddrs o !! conn with
  | None => o
  | Some observedTWAddr =>
      let o := set_tables o (externalAddrs o) (delete conn (connObservedTWAddrs o)) in
      match thinWaistForm (LocalMultiaddr conn), getObserver (RemoteMultiaddr conn) with
      | Some localTW, Some observer =>
          set_external o (removeExternalAddrsUnlocked (externalAddrs o) observer (Bytes (tw_TW localTW)) (Bytes observedTWAddr))
      | _, _ => o
      end
  end.

(** *** Asking *)
Definition numObservers (s : observerSet) : Z := Z.of_nat (size (ObservedBy s)).
Definition cmpSets (a b : bytes * observerSet) : Z :=
  let diff := numObservers b.2 - numObservers a.2 in
  if negb (diff =? 0) then diff else Compare (ObservedTWAddr a.2) (ObservedTWAddr b.2).
Definition getTopExternalAddrs (x : extAddrs) (localTWStr : bytes) (minObservers : Z) : list bytes :=
  let sets := filter (fun ks => minObservers <= numObservers ks.2) (map_to_list (observers x localTWStr)) in
  take (Z.to_nat maxExternalThinWaistAddrsPerLocalAddr) (fst <$> sortFunc cmpSets sets).

(** [s.cacheMultiaddr(rest)] for the sets [keys], which share the local address *)
Definition cacheStep (l : bytes) (rest : Multiaddr) (r : extAddrs * list Multiaddr) (k : bytes) : extAddrs * list Multiaddr :=
  match getSet r.1 l k with
  | None => r
  | Some s => let '(s, a) := cacheMultiaddr evict s (Some rest) in (putSet r.1 l k s, r.2 ++ [a])
  end.
Definition cacheAll (x : extAddrs) (l : bytes) (rest : Multiaddr) (keys : list bytes) : extAddrs * list Multiaddr :=
  foldl (cacheStep l rest) (x, []) keys.

Definition AddrsFor (o : Manager) (addr : Multiaddr) : Manager * list Multiaddr :=
  match thinWaistForm addr with
  | None => (o, [])
  | Some tw =>
      let l := Bytes (tw_TW tw) in
      let '(x, res) := cacheAll (externalAddrs o) l (tw_Rest tw) (getTopExternalAddrs (externalAddrs o) l ActivationThresh) in
      (set_external o x, res)
  end.

(** The loop of [appendInferredAddrs]: [top] gives the sets of a local address. *)
Definition inferStep (top : bytes -> list bytes) (r : extAddrs * gset bytes * list Multiaddr) (a : Multiaddr) : extAddrs * gset bytes * list Multiaddr :=
  let '(x, seen, addrs) := r in
  if bool_decide (Bytes a ∈ seen) then r
  else
    let seen := {[Bytes a]} ∪ seen in
    match thinWaistForm a with
    | None => (x, seen, addrs)
    | Some t =>
        let '(x, new) := cacheAll x (Bytes (tw_TW t)) (tw_Rest t) (top (Bytes (tw_TW t))) in
        (x, seen, addrs ++ new)
    end.
Definition appendInferredAddrs (x : extAddrs) (top : bytes -> list bytes) (listenAddrs : list Multiaddr) : extAddrs * list Multiaddr :=
  let '(x, _, addrs) := foldl (inferStep top) (x, ∅, []) listenAddrs in (x, addrs).
Definition Addrs (o : Manager) (listenAddrs : list Multiaddr) (minObservers : Z) : Manager * list Multiaddr :=
  let minObservers := if minObservers <=? 0 then ActivationThresh else minObservers in
  let '(x, addrs) := appendInferredAddrs (externalAddrs o) (fun l => getTopExternalAddrs (externalAddrs o) l minObservers) listenAddrs in
  (set_external o x, addrs).

(** *** The type of the NAT *)
Definition isTCPSet (s : observerSet) : bool := existsb (fun c => protoCode c =? P_TCP) (ObservedTWAddr s).
(** The counts of the local addresses that are TCP, or are not *)
Definition countsOf (tcp : bool) (x : extAddrs) : list Z :=
  '(_, m) ← map_to_list x;
  let isTCP := existsb (fun ks => isTCPSet ks.2) (map_to_list m) in
  if Bool.eqb isTCP tcp then (fun ks => numObservers ks.2) <$> map_to_list m else [].
Definition natType (counts : list Z) : NATDeviceType :=
  let total := sumZ id counts in
  let top := sumZ id (take (Z.to_nat maxExternalThinWaistAddrsPerLocalAddr) (sortFunc (fun a b => b - a) counts)) in
  if 3 * maxExternalThinWaistAddrsPerLocalAddr <=? total then
    if Z.quot total 2 <=? top then NATDeviceTypeEndpointIndependent else NATDeviceTypeEndpointDependent
  else NATDeviceTypeUnknown.
(** The results are named [tcpNATType] and [udpNATType]. *)
Definition getNATType (o : Manager) : NATDeviceType * NATDeviceType :=
  (natType (countsOf true (externalAddrs o)), natType (countsOf false (externalAddrs o))).

(** *** The goroutines *)
(** [case e := <-identifySub.Out()] *)
Definition handleIdentified (o : Manager) (conn : Conn) (observed : Multiaddr) : Manager :=
  if Z.of_nat (length (wch o)) <? observedAddrManagerWorkerChannelSize then set_wch o (wch o ++ [(conn, observed)]) else o.
(** [case <-natTypeTicker.C]: the emitted events *)
Definition handleTick (o : Manager) : Manager * list (NATTransport * NATDeviceType) :=
  let '(newUDPNAT, newTCPNAT) := getNATType o in
  (mkManager (externalAddrs o) (connObservedTWAddrs o) (wch o) newUDPNAT newTCPNAT,
   (if bool_decide (newUDPNAT = udpNATType o) then [] else [(NATTransportUDP, newUDPNAT)])
   ++ (if bool_decide (newTCPNAT = tcpNATType o) then [] else [(NATTransportTCP, newTCPNAT)])).
(** A round of [worker] *)
Definition workerStep (o : Manager) (listenAddrs : list Multiaddr) (isClosed : Conn -> bool) : option Manager :=
  match wch o with
  | [] => None
  | (conn, observed) :: q => Some (maybeRecordObservation (set_wch o q) listenAddrs (isClosed conn) conn observed)
  end.
End manager.
