(* ===== verification/ObservedRun.v ===== *)
(** * What the manager of observed addresses keeps

    The counters are exactly the reports of the connections that are open, and
    the addresses that are proposed have the most observers. *)
From Stdlib Require Import ZArith Lia.
From stdpp Require Import base tactics list numbers option gmap sets fin_maps sorting relations.
From S2P Require Import Prelude Collections GoBytes Varint MaProtocol MaComponent MaCodec MaOps GoNet MaProtocols BlsRpc Relay Manet ObservedAddrs.
Local Open Scope Z_scope.

(** ** Sets of observers *)
Definition cntAt (x : extAddrs) (l k ob : bytes) : Z := default 0 (s ← getSet x l k; ObservedBy s !! ob).
Record setOk (k : bytes) (s : observerSet) : Prop := {
  so_key : Bytes (ObservedTWAddr s) = k;
  so_some : ObservedBy s <> ∅;
  so_pos ob n : ObservedBy s !! ob = Some n -> 0 < n;
  so_cache r a : cachedMultiaddrs s !! r = Some a -> Bytes a = k ++ r;
  so_size : Z.of_nat (size (cachedMultiaddrs s)) <= observerSetCacheSize }.
Record extOk (x : extAddrs) : Prop := {
  eo_some l t : x !! l = Some t -> t <> ∅;
  eo_set l k s : getSet x l k = Some s -> setOk k s }.

Lemma getSet_insert x l t l' k : getSet (<[l := t]> x) l' k = if decide (l' = l) then t !! k else getSet x l' k.
Proof. unfold getSet, observers. destruct (decide (l' = l)) as [->|]; [by rewrite lookup_insert_eq|by rewrite lookup_insert_ne]. Qed.
Lemma getSet_delete x l l' k : getSet (delete l x) l' k = if decide (l' = l) then None else getSet x l' k.
Proof. unfold getSet, observers. destruct (decide (l' = l)) as [->|]; [by rewrite lookup_delete_eq|by rewrite lookup_delete_ne]. Qed.
Lemma getSet_put x l k s l' k' : getSet (putSet x l k s) l' k' = if decide (l' = l /\ k' = k) then Some s else getSet x l' k'.
Proof.
  unfold putSet. rewrite getSet_insert. destruct (decide (l' = l)) as [->|]; [|by rewrite decide_False by tauto].
  destruct (decide (k' = k)) as [->|]; [by rewrite lookup_insert_eq, decide_True|]. by rewrite lookup_insert_ne, decide_False by (congruence || tauto).
Qed.
Lemma putSet_ok x l k s : extOk x -> setOk k s -> extOk (putSet x l k s).
Proof.
  intros [E1 E2] S. split.
  - intros l' t. unfold putSet. destruct (decide (l' = l)) as [->|]; [|rewrite lookup_insert_ne by done; apply E1].
    rewrite lookup_insert_eq. intros [= <-]. apply insert_non_empty.
  - intros l' k' s'. rewrite getSet_put. destruct (decide _) as [[-> ->]|]; [by intros [= <-]|apply E2].
Qed.
(** The number of an observer, as [ObservedBy] has it *)
Lemma cntAt_put x l k s l' k' ob : cntAt (putSet x l k s) l' k' ob = if decide (l' = l /\ k' = k) then default 0 (ObservedBy s !! ob) else cntAt x l' k' ob.
Proof. unfold cntAt. rewrite getSet_put. by destruct (decide _). Qed.

Definition hit (l k ob l' k' ob' : bytes) : Z := if decide (l' = l /\ k' = k /\ ob' = ob) then 1 else 0.
Ltac hits := unfold hit in *; repeat (destruct (decide _)); naive_solver lia.

Lemma add_ok x tw ob l k : extOk x -> Bytes tw = k ->
  extOk (addExternalAddrsUnlocked x tw ob l k) /\
  forall l' k' ob', cntAt (addExternalAddrsUnlocked x tw ob l k) l' k' ob' = cntAt x l' k' ob' + hit l k ob l' k' ob'.
Proof.
  intros E Hk. unfold addExternalAddrsUnlocked. set (s := default _ _).
  assert (Hs : Bytes (ObservedTWAddr s) = k /\ (forall ob n, ObservedBy s !! ob = Some n -> 0 < n) /\
    (forall r a, cachedMultiaddrs s !! r = Some a -> Bytes a = k ++ r) /\ Z.of_nat (size (cachedMultiaddrs s)) <= observerSetCacheSize /\
    forall ob, cntAt x l k ob = default 0 (ObservedBy s !! ob)).
  { unfold s, cntAt. destruct (getSet x l k) as [s0|] eqn:G; simpl.
    - destruct (eo_set _ E _ _ _ G). by split_and!.
    - split_and!; [done|intros ? ? H; by rewrite lookup_empty in H..|done|]. intros ob'. by rewrite lookup_empty. }
  destruct Hs as (H1 & H2 & H3 & H4 & H5). split.
  - apply putSet_ok; [done|]. split; simpl; [done|apply insert_non_empty| |done..]. intros ob' n.
    destruct (decide (ob' = ob)) as [->|]; [|rewrite lookup_insert_ne by done; apply H2]. rewrite lookup_insert_eq. intros [= <-].
    destruct (ObservedBy s !! ob) eqn:Eo; simpl; [apply H2 in Eo|]; lia.
  - intros l' k' ob'. rewrite cntAt_put. unfold hit. destruct (decide (l' = l /\ k' = k)) as [[-> ->]|]; [|rewrite decide_False by tauto; lia].
    simpl. rewrite H5. destruct (decide (ob' = ob)) as [->|]; [rewrite lookup_insert_eq, decide_True by done; simpl; lia|].
    rewrite lookup_insert_ne, decide_False by (congruence || tauto). lia.
Qed.

(** The table after a set has been replaced, or dropped when it is empty *)
Definition dropOrPut (x : extAddrs) (l k : bytes) (os : option observerSet) : extAddrs :=
  let m := match os with None => delete k (observers x l) | Some s => <[k := s]> (observers x l) end in
  if bool_decide (m = ∅) then delete l x else <[l := m]> x.
Lemma getSet_drop x l k os l' k' : getSet (dropOrPut x l k os) l' k' = if decide (l' = l /\ k' = k) then os else getSet x l' k'.
Proof.
  unfold dropOrPut. set (m := match os with None => _ | Some _ => _ end).
  assert (Hm : forall k', m !! k' = if decide (k' = k) then os else observers x l !! k').
  { intros k0. unfold m. destruct os as [s|], (decide (k0 = k)) as [->|];
      rewrite ?lookup_insert_eq, ?lookup_insert_ne, ?lookup_delete_eq, ?lookup_delete_ne by congruence; done. }
  assert (Hl : getSet (if bool_decide (m = ∅) then delete l x else <[l := m]> x) l' k' = if decide (l' = l) then m !! k' else getSet x l' k').
  { case_bool_decide as Hb; [|apply getSet_insert]. rewrite getSet_delete. destruct (decide _); [|done]. by rewrite Hb, lookup_empty. }
  rewrite Hl, Hm. destruct (decide (l' = l)) as [->|]; [|by rewrite decide_False by tauto].
  destruct (decide (k' = k)) as [->|]; [by rewrite decide_True|by rewrite decide_False by tauto].
Qed.
Lemma dropOrPut_ok x l k os : extOk x -> (forall s, os = Some s -> setOk k s) -> extOk (dropOrPut x l k os).
Proof.
  intros [E1 E2] Hs. split.
  - intros l' t. unfold dropOrPut. set (m := match os with None => _ | Some _ => _ end). case_bool_decide.
    + intros [_ ?]%lookup_delete_Some. by eapply E1.
    + destruct (decide (l' = l)) as [->|]; [rewrite lookup_insert_eq; by intros [= <-]|rewrite lookup_insert_ne by done; apply E1].
  - intros l' k' s. rewrite getSet_drop. destruct (decide _) as [[-> ->]|]; [apply Hs|apply E2].
Qed.

Lemma remove_ok x ob l k : extOk x -> 0 < cntAt x l k ob ->
  extOk (removeExternalAddrsUnlocked x ob l k) /\
  forall l' k' ob', cntAt (removeExternalAddrsUnlocked x ob l k) l' k' ob' = cntAt x l' k' ob' - hit l k ob l' k' ob'.
Proof.
  intros E Hc. unfold removeExternalAddrsUnlocked. destruct (getSet x l k) as [s|] eqn:G; [|unfold cntAt in Hc; by rewrite G in Hc].
  assert (Hs : default 0 (ObservedBy s !! ob) = cntAt x l k ob) by by unfold cntAt; rewrite G. rewrite Hs.
  set (by_ := if _ <=? 0 then _ else _). destruct (eo_set _ E _ _ _ G) as [S1 S2 S3 S4 S5].
  assert (Hby : forall ob', default 0 (by_ !! ob') = default 0 (ObservedBy s !! ob') - (if decide (ob' = ob) then 1 else 0)).
  { intros ob'. unfold by_. destruct (Z.leb_spec (cntAt x l k ob - 1) 0), (decide (ob' = ob)) as [->|];
      rewrite ?lookup_delete_eq, ?lookup_insert_eq, ?lookup_delete_ne, ?lookup_insert_ne by congruence; simpl; rewrite ?Hs; lia. }
  assert (Hpos : forall ob' n, by_ !! ob' = Some n -> 0 < n).
  { intros ob' n. unfold by_. destruct (Z.leb_spec (cntAt x l k ob - 1) 0).
    - intros [_ ?]%lookup_delete_Some. by eapply S3.
    - destruct (decide (ob' = ob)) as [->|]; [rewrite lookup_insert_eq; intros [= <-]; lia|rewrite lookup_insert_ne by done; apply S3]. }
  set (os := if decide (by_ = ∅) then None else Some (set_ObservedBy s by_)).
  assert (Hx : forall m : gmap bytes observerSet, (if bool_decide (by_ = ∅) then delete k m else <[k := set_ObservedBy s by_]> m)
                         = match os with None => delete k m | Some s => <[k := s]> m end).
  { intros m. unfold os. destruct (decide (by_ = ∅)); [by rewrite bool_decide_true|by rewrite bool_decide_false]. }
  replace (if bool_decide _ then delete l x else _) with (dropOrPut x l k os) by (unfold dropOrPut; by rewrite <-Hx).
  split.
  - apply dropOrPut_ok; [done|]. unfold os. intros s'. destruct (decide _); [done|]. by intros [= <-].
  - intros l' k' ob'. unfold cntAt at 1. rewrite getSet_drop. unfold hit. destruct (decide (l' = l /\ k' = k)) as [[-> ->]|].
    + replace (default 0 (s ← os; ObservedBy s !! ob')) with (default 0 (by_ !! ob')).
      * rewrite Hby. unfold cntAt. rewrite G. simpl. destruct (decide (ob' = ob)); [by rewrite decide_True|by rewrite decide_False by tauto].
      * unfold os. destruct (decide (by_ = ∅)) as [->|]; [by rewrite lookup_empty|done].
    + rewrite decide_False by tauto. unfold cntAt. lia.
Qed.

(** ** The counters and the connections *)
Section manager.
Context {GS : GoSort} (evict : gset bytes -> bytes) (evict_in : forall X, X <> ∅ -> evict X ∈ X).
Context (LocalMultiaddr RemoteMultiaddr : Conn -> Multiaddr).

(** What a connection reports for: its local thin waist and its observer *)
Definition reporter (c : Conn) : option (bytes * bytes) :=
  tw ← thinWaistForm (LocalMultiaddr c); ob ← getObserver (RemoteMultiaddr c); Some (Bytes (tw_TW tw), ob).
Definition reports (l k ob : bytes) (ca : Conn * Multiaddr) : Prop := reporter ca.1 = Some (l, ob) /\ Bytes ca.2 = k.
#[global] Instance reports_dec l k ob ca : Decision (reports l k ob ca) := _.
Definition reported (m : gmap Conn Multiaddr) (l k ob : bytes) : Z := sumMapK (fun c a => if decide (reports l k ob (c, a)) then 1 else 0) m.

Record mgrOk (o : Manager) : Prop := {
  mo_ext : extOk (externalAddrs o);
  mo_count l k ob : cntAt (externalAddrs o) l k ob = reported (connObservedTWAddrs o) l k ob;
  mo_conn c a : connObservedTWAddrs o !! c = Some a -> is_Some (reporter c);
  mo_queue : Z.of_nat (length (wch o)) <= observedAddrManagerWorkerChannelSize }.

Lemma newManager_ok : mgrOk newManager.
Proof.
  split; simpl; [split| | |by vm_compute].
  - intros l t. by rewrite lookup_empty.
  - intros l k s. unfold getSet, observers. by rewrite lookup_empty.
  - intros l k ob. unfold cntAt, getSet, observers, reported. by rewrite lookup_empty, sumMapK_empty.
  - intros c a. by rewrite lookup_empty.
Qed.
Lemma reported_hit l k ob c a l' k' ob' : reporter c = Some (l, ob) -> Bytes a = k ->
  (if decide (reports l' k' ob' (c, a)) then 1 else 0) = hit l k ob l' k' ob'.
Proof.
  intros Hc Ha. unfold hit. apply decide_ext. unfold reports. simpl. rewrite Hc, Ha. naive_solver.
Qed.
(** A connection that has reported is counted. *)
Lemma reported_pos o c a l ob : mgrOk o -> connObservedTWAddrs o !! c = Some a -> reporter c = Some (l, ob) ->
  0 < cntAt (externalAddrs o) l (Bytes a) ob.
Proof.
  intros O Hc Hr. rewrite (mo_count _ O). unfold reported.
  pose proof (sumMapK_lookup (fun c a => if decide (reports l (Bytes a) ob (c, a)) then 1 else 0)).
  eapply Z.lt_le_trans; [|eapply sumMapK_lookup; [|exact Hc]].
  - simpl. by rewrite decide_True.
  - intros k x. destruct (decide _); lia.
Qed.

Lemma record_ok o closed c localTW observedTW : mgrOk o -> thinWaistForm (LocalMultiaddr c) = Some localTW ->
  mgrOk (recordObservationUnlocked RemoteMultiaddr o closed c localTW observedTW).
Proof.
  intros O Hl. unfold recordObservationUnlocked. destruct closed; [done|].
  destruct (getObserver (RemoteMultiaddr c)) as [ob|] eqn:Hob; [|done].
  assert (Hr : reporter c = Some (Bytes (tw_TW localTW), ob)) by by unfold reporter; rewrite Hl, Hob.
  assert (Hrec : forall x d, extOk x -> (forall l' k' ob', cntAt x l' k' ob' = cntAt (externalAddrs o) l' k' ob' - d l' k' ob') ->
    (forall l' k' ob', d l' k' ob' = default 0 ((fun a => if decide (reports l' k' ob' (c, a)) then 1 else 0) <$> connObservedTWAddrs o !! c)) ->
    mgrOk (set_tables o (addExternalAddrsUnlocked x (tw_TW observedTW) ob (Bytes (tw_TW localTW)) (Bytes (tw_TW observedTW)))
             (<[c := tw_TW observedTW]> (connObservedTWAddrs o)))).
  { intros x d Ex Hx Hd. destruct (add_ok x (tw_TW observedTW) ob (Bytes (tw_TW localTW)) _ Ex eq_refl) as [Ea Ca].
    split; simpl; [done| | |apply O].
    - intros l' k' ob'. rewrite Ca, Hx, (mo_count _ O), Hd. unfold reported. rewrite sumMapK_insert.
      rewrite (reported_hit _ _ _ _ _ _ _ _ Hr eq_refl). lia.
    - intros c' a. destruct (decide (c' = c)) as [->|]; [by rewrite Hr|rewrite lookup_insert_ne by done; apply (mo_conn _ O)]. }
  destruct (connObservedTWAddrs o !! c) as [prev|] eqn:Hp.
  - destruct (Equal prev (tw_TW observedTW)); [done|].
    destruct (remove_ok (externalAddrs o) ob (Bytes (tw_TW localTW)) (Bytes prev) (mo_ext _ O) (reported_pos _ _ _ _ _ O Hp Hr)) as [Ed Cd].
    apply (Hrec _ _ Ed Cd). intros. simpl. by rewrite (reported_hit _ _ _ _ _ _ _ _ Hr eq_refl).
  - apply (Hrec _ (fun _ _ _ => 0)); [apply O|intros; lia|done].
Qed.

Lemma removeConn_ok o c : mgrOk o -> mgrOk (removeConn LocalMultiaddr RemoteMultiaddr o c).
Proof.
  intros O. unfold removeConn. destruct (connObservedTWAddrs o !! c) as [a|] eqn:Ha; [|done].
  destruct (mo_conn _ O _ _ Ha) as [[l ob] Hr]. pose proof Hr as Hr'. unfold reporter in Hr'.
  destruct (thinWaistForm (LocalMultiaddr c)) as [tw|]; [|done]. destruct (getObserver (RemoteMultiaddr c)) as [ob'|]; [|done].
  injection Hr' as <- ->. simpl.
  destruct (remove_ok (externalAddrs o) ob (Bytes (tw_TW tw)) (Bytes a) (mo_ext _ O) (reported_pos _ _ _ _ _ O Ha Hr)) as [Ed Cd].
  split; simpl; [done| | |apply O].
  - intros l' k' ob'. rewrite Cd, (mo_count _ O). unfold reported. rewrite sumMapK_delete, Ha. simpl.
    by rewrite (reported_hit _ _ _ _ _ _ _ _ Hr eq_refl).
  - intros c' a' [_ H]%lookup_delete_Some. by eapply (mo_conn _ O).
Qed.
Lemma maybeRecord_ok o listen closed c observed : mgrOk o ->
  mgrOk (maybeRecordObservation LocalMultiaddr RemoteMultiaddr o listen closed c observed).
Proof.
  intros O. unfold maybeRecordObservation. destruct (shouldRecordObservation _ _ _ _) as [[tw otw]|] eqn:E; [|done].
  apply record_ok; [done|]. unfold shouldRecordObservation in E. repeat (case_match; [done|]).
  destruct (thinWaistForm (LocalMultiaddr c)) as [tw'|]; [|done]. simpl in E. case_match; [done|].
  destruct (thinWaistForm observed); [|done]. simpl in E. case_match; [done|]. by simplify_eq.
Qed.
End manager.

(** ** Observed addresses: proposals and executions *)
(** ** The best addresses *)
Section top.
Context {GS : GoSort} {GL : GoSortLaws GS}.

Lemma cmpSets_comparison : comparison cmpSets.
Proof.
  split; intros [ka a] [kb b]; unfold cmpSets; simpl.
  - destruct (Z.eqb_spec (numObservers b - numObservers a) 0), (Z.eqb_spec (numObservers a - numObservers b) 0); simpl; try lia.
    rewrite (Compare_opp (ObservedTWAddr b)). lia.
  - intros [kc c]. simpl. destruct (Z.eqb_spec (numObservers b - numObservers a) 0), (Z.eqb_spec (numObservers c - numObservers b) 0),
      (Z.eqb_spec (numObservers c - numObservers a) 0); simpl; try lia. apply Compare_trans.
Qed.
Lemma cmpSets_num a b : cmpSets a b <= 0 -> numObservers b.2 <= numObservers a.2.
Proof. unfold cmpSets. destruct (Z.eqb_spec (numObservers b.2 - numObservers a.2) 0); simpl; lia. Qed.

Lemma top_spec x l minO : let keys := getTopExternalAddrs x l minO in
  NoDup keys /\ Z.of_nat (length keys) <= maxExternalThinWaistAddrsPerLocalAddr /\
  (forall k, k ∈ keys -> exists s, getSet x l k = Some s /\ minO <= numObservers s) /\
  (forall k' s', getSet x l k' = Some s' -> minO <= numObservers s' -> k' ∉ keys ->
     Z.of_nat (length keys) = maxExternalThinWaistAddrsPerLocalAddr /\
     forall k s, k ∈ keys -> getSet x l k = Some s -> numObservers s' <= numObservers s).
Proof.
  unfold getTopExternalAddrs. set (sets := filter _ _). set (n := Z.to_nat _). simpl. rewrite <-fmap_take.
  set (srt := sortFunc cmpSets sets). assert (Hp : srt ≡ₚ sets) by apply sortFunc_perm.
  assert (Hin : forall ks, ks ∈ srt <-> getSet x l ks.1 = Some ks.2 /\ minO <= numObservers ks.2).
  { intros [k s]. rewrite Hp. unfold sets. rewrite list_elem_of_filter. rewrite elem_of_map_to_list. simpl. unfold getSet. tauto. }
  assert (Hnd : NoDup (fst <$> srt)).
  { rewrite Hp. unfold sets. eapply sublist_NoDup; [apply (NoDup_fst_map_to_list (observers x l))|]. apply fmap_sublist, sublist_filter. }
  rewrite <-(take_drop n srt), fmap_app, NoDup_app in Hnd. destruct Hnd as (Hnd & _ & _). split_and!.
  - done.
  - rewrite length_fmap, length_take. unfold maxExternalThinWaistAddrsPerLocalAddr in *. lia.
  - intros k ([k0 s] & -> & Hks)%list_elem_of_fmap. exists s. apply Hin. apply subseteq_take in Hks. done.
  - intros k' s' Hg Hm Hn. assert (Hd : (k', s') ∈ drop n srt).
    { assert (H : (k', s') ∈ srt) by by apply Hin. rewrite <-(take_drop n srt), elem_of_app in H. destruct H as [H|]; [|done].
      destruct Hn. apply list_elem_of_fmap. by exists (k', s'). }
    assert (Hl : (n < length srt)%nat).
    { destruct (Nat.lt_ge_cases n (length srt)) as [|H]; [done|]. rewrite drop_ge in Hd by done. by apply elem_of_nil in Hd. }
    split. { rewrite length_fmap, length_take, Nat.min_l by lia. done. }
    intros k s ([k0 s0] & -> & Hks)%list_elem_of_fmap Hg'. simpl in Hg'.
    assert (s0 = s) as ->. { pose proof (subseteq_take _ _ _ Hks) as H%Hin. simpl in H. naive_solver congruence. }
    exact (cmpSets_num _ _ (sortFunc_prefix cmpSets sets n cmpSets_comparison _ _ Hks Hd)).
Qed.
End top.

(** ** The cache *)
Lemma Bytes_join (a b : Multiaddr) : Bytes (Join [Some a; Some b]) = Bytes a ++ Bytes b.
Proof. unfold Join. simpl. rewrite app_nil_r. induction a as [|c a IH]; [done|]. by rewrite <-app_comm_cons, !Bytes_cons, IH, app_assoc. Qed.

Section cache.
Context (evict : gset bytes -> bytes) (evict_in : forall X : gset bytes, X <> ∅ -> evict X ∈ X).

Lemma cacheMultiaddr_ok k s rest s' a : setOk k s -> cacheMultiaddr evict s (Some rest) = (s', a) ->
  setOk k s' /\ ObservedBy s' = ObservedBy s /\ Bytes a = k ++ Bytes rest.
Proof.
  intros [S1 S2 S3 S4 S5]. unfold cacheMultiaddr. destruct (cachedMultiaddrs s !! Bytes rest) as [res|] eqn:E.
  { intros [= <- <-]. split_and!; [by split|done|by apply S4]. }
  intros [= <- <-]. set (cache := if _ =? _ then _ else _).
  assert (Hc : cache ⊆ cachedMultiaddrs s) by (unfold cache; case_match; [apply delete_subseteq|done]).
  assert (Hs : Z.of_nat (size cache) < observerSetCacheSize).
  { unfold cache. destruct (Z.eqb_spec (Z.of_nat (size (cachedMultiaddrs s))) observerSetCacheSize) as [H|]; [|lia].
    assert (Hd : evict (dom (cachedMultiaddrs s)) ∈ dom (cachedMultiaddrs s)).
    { apply evict_in. intros H0. apply dom_empty_inv_L in H0. rewrite H0, map_size_empty in H. done. }
    apply elem_of_dom in Hd as [y Hy]. rewrite map_size_delete, Hy. simpl. unfold observerSetCacheSize in *. lia. }
  split_and!; [|done|by rewrite Bytes_join, S1]. split; simpl; [done..| |].
  - intros r b. destruct (decide (r = Bytes rest)) as [->|]; [rewrite lookup_insert_eq; intros [= <-]; by rewrite Bytes_join, S1|].
    rewrite lookup_insert_ne by done. intros H. by apply S4, (lookup_weaken _ _ _ _ H).
  - rewrite map_size_insert_None; [lia|]. by eapply lookup_weaken_None.
Qed.

Definition sameSets (x x' : extAddrs) : Prop := forall l k, ObservedBy <$> getSet x' l k = ObservedBy <$> getSet x l k.
#[global] Instance sameSets_preorder : PreOrder sameSets.
Proof. split; [by intros ? ? ?|]. intros x y z H1 H2 l k. by rewrite H2, H1. Qed.
Lemma sameSets_cnt x x' l k ob : sameSets x x' -> cntAt x' l k ob = cntAt x l k ob.
Proof.
  intros H. unfold cntAt.
  assert (Hy : forall y, (s ← getSet y l k; ObservedBy s !! ob) = (m ← ObservedBy <$> getSet y l k; m !! ob)) by (intros y; by destruct (getSet y l k)).
  by rewrite !Hy, H.
Qed.
Lemma sameSets_some x x' l k : sameSets x x' -> is_Some (getSet x l k) -> is_Some (getSet x' l k).
Proof. intros H [s Hs]. specialize (H l k). rewrite Hs in H. simpl in H. apply fmap_Some in H as (s' & -> & _). by eexists. Qed.

Lemma cacheStep_ok l rest x res k : extOk x -> is_Some (getSet x l k) ->
  exists x' a, cacheStep evict l rest (x, res) k = (x', res ++ [a]) /\ extOk x' /\ sameSets x x' /\ Bytes a = k ++ Bytes rest.
Proof.
  intros E [s Hs]. unfold cacheStep. cbn [fst snd]. rewrite Hs. destruct (cacheMultiaddr evict s (Some rest)) as [s' a] eqn:Hc.
  destruct (cacheMultiaddr_ok k s rest s' a (eo_set _ E _ _ _ Hs) Hc) as (S' & Hby & Ha). exists (putSet x l k s'), a. split_and!; [done| | |done].
  - by apply putSet_ok.
  - intros l' k'. rewrite getSet_put. destruct (decide _) as [[-> ->]|]; [|done]. simpl. by rewrite Hs, Hby.
Qed.
Lemma cacheAll_ok l rest keys : forall x res, extOk x -> (forall k, k ∈ keys -> is_Some (getSet x l k)) ->
  exists x' new, foldl (cacheStep evict l rest) (x, res) keys = (x', res ++ new) /\ extOk x' /\ sameSets x x' /\
    Bytes <$> new = (fun k => k ++ Bytes rest) <$> keys.
Proof.
  induction keys as [|k keys IH]; intros x res E Hk.
  { exists x, []. split_and!; [by rewrite app_nil_r|done|done|done]. }
  destruct (cacheStep_ok l rest x res k E (Hk k ltac:(set_solver))) as (x1 & a & H1 & E1 & S1 & Ha). simpl. rewrite H1.
  destruct (IH x1 (res ++ [a]) E1) as (x2 & new & H2 & E2 & S2 & Hn).
  { intros k' Hk'. apply (sameSets_some x); [done|]. apply Hk. set_solver. }
  exists x2, (a :: new). rewrite H2, <-app_assoc. split_and!; [done|done|by transitivity x1|]. rewrite !fmap_cons, Ha, Hn. done.
Qed.

Context {GS : GoSort} {GL : GoSortLaws GS}.
Lemma AddrsFor_spec o addr tw : extOk (externalAddrs o) -> thinWaistForm addr = Some tw ->
  let l := Bytes (tw_TW tw) in let keys := getTopExternalAddrs (externalAddrs o) l ActivationThresh in
  exists x res, AddrsFor evict o addr = (set_external o x, res) /\ extOk x /\ sameSets (externalAddrs o) x /\
    Bytes <$> res = (fun k => k ++ Bytes (tw_Rest tw)) <$> keys.
Proof.
  intros E Htw l keys. unfold AddrsFor. rewrite Htw. fold l keys. unfold cacheAll.
  destruct (cacheAll_ok l (tw_Rest tw) keys (externalAddrs o) [] E) as (x & new & H & E' & S & Hn).
  { intros k Hk. destruct (top_spec (externalAddrs o) l ActivationThresh) as (_ & _ & H & _). by destruct (H k Hk) as (s & -> & _). }
  exists x, new. simpl in H. rewrite H. by split_and!.
Qed.

Lemma infer_ok top l : forall x seen res, extOk x -> (forall l k, k ∈ top l -> is_Some (getSet x l k)) ->
  exists x' seen' res', foldl (inferStep evict top) (x, seen, res) l = (x', seen', res') /\ extOk x' /\ sameSets x x'.
Proof.
  induction l as [|a l IH]; intros x seen res E Ht; [by exists x, seen, res|]. simpl. case_bool_decide; [by apply IH|].
  destruct (thinWaistForm a) as [t|]; [|by apply IH]. unfold cacheAll.
  destruct (cacheAll_ok (Bytes (tw_TW t)) (tw_Rest t) (top (Bytes (tw_TW t))) x [] E (Ht _)) as (x1 & new & -> & E1 & S1 & _). simpl.
  destruct (IH x1 ({[Bytes a]} ∪ seen) (res ++ new) E1) as (x2 & seen2 & res2 & H2 & E2 & S2).
  { intros l' k Hk. apply (sameSets_some x); [done|by apply Ht]. }
  exists x2, seen2, res2. split_and!; [done|done|by transitivity x1].
Qed.
Lemma Addrs_ok o listen minO : extOk (externalAddrs o) ->
  exists x res, Addrs evict o listen minO = (set_external o x, res) /\ extOk x /\ sameSets (externalAddrs o) x.
Proof.
  intros E. unfold Addrs, appendInferredAddrs. set (mo := if _ <=? 0 then _ else _).
  destruct (infer_ok (fun l => getTopExternalAddrs (externalAddrs o) l mo) listen (externalAddrs o) ∅ [] E) as (x & seen & res & -> & E' & S).
  { intros l k Hk. destruct (top_spec (externalAddrs o) l mo) as (_ & _ & H & _). by destruct (H k Hk) as (s & -> & _). }
  by exists x, res.
Qed.
End cache.

(** ** Executions *)
(** The connections that are closed, and those whose end has been notified *)
Record world := mkWorld { mgr : Manager; closed : gset Conn; gone : gset Conn }.
Definition with_mgr (w : world) (o : Manager) : world := mkWorld o (closed w) (gone w).

Section run.
Context {GS : GoSort} {GL : GoSortLaws GS} (evict : gset bytes -> bytes) (evict_in : forall X : gset bytes, X <> ∅ -> evict X ∈ X).
Context (LocalMultiaddr RemoteMultiaddr : Conn -> Multiaddr).

(** A connection is closed before its end is notified; the listen addresses can change. *)
Inductive oStep : world -> world -> Prop :=
| o_identified w c observed : oStep w (with_mgr w (handleIdentified (mgr w) c observed))
| o_worker w listen o : workerStep LocalMultiaddr RemoteMultiaddr (mgr w) listen (fun c => bool_decide (c ∈ closed w)) = Some o -> oStep w (with_mgr w o)
| o_closed w c : oStep w (mkWorld (mgr w) ({[c]} ∪ closed w) (gone w))
| o_disconnected w c : c ∈ closed w -> oStep w (mkWorld (removeConn LocalMultiaddr RemoteMultiaddr (mgr w) c) (closed w) ({[c]} ∪ gone w))
| o_addrsFor w a : oStep w (with_mgr w (AddrsFor evict (mgr w) a).1)
| o_addrs w listen n : oStep w (with_mgr w (Addrs evict (mgr w) listen n).1)
| o_tick w : oStep w (with_mgr w (handleTick (mgr w)).1).

Record worldOk (w : world) : Prop := {
  wo_mgr : mgrOk LocalMultiaddr RemoteMultiaddr (mgr w);
  wo_gone : gone w ⊆ closed w;
  wo_conns c a : connObservedTWAddrs (mgr w) !! c = Some a -> c ∉ gone w }.
Definition start : world := mkWorld newManager ∅ ∅.
Lemma obs_start_ok : worldOk start.
Proof. split; [apply newManager_ok|done|]. intros c a. simpl. by rewrite lookup_empty. Qed.

Lemma mgrOk_same o x : mgrOk LocalMultiaddr RemoteMultiaddr o -> extOk x -> sameSets (externalAddrs o) x ->
  mgrOk LocalMultiaddr RemoteMultiaddr (set_external o x).
Proof. intros [O1 O2 O3 O4] E S. split; simpl; [done| |done..]. intros l k ob. rewrite (sameSets_cnt _ _ _ _ _ S). apply O2. Qed.
Lemma worker_ok w o listen q conn observed : worldOk w -> wch (mgr w) = (conn, observed) :: q ->
  o = maybeRecordObservation LocalMultiaddr RemoteMultiaddr (set_wch (mgr w) q) listen (bool_decide (conn ∈ closed w)) conn observed ->
  worldOk (with_mgr w o).
Proof.
  intros [[W1 W2 W3 W4] Wg Wc] Hq ->. split; simpl; [|done|].
  - apply maybeRecord_ok. split; [done..|]. rewrite Hq in W4. simpl in *. lia.
  - intros c a. unfold maybeRecordObservation. destruct (shouldRecordObservation _ _ _ _) as [[tw otw]|]; [|by apply Wc].
    unfold recordObservationUnlocked. case_bool_decide as Hcl; [by apply Wc|]. destruct (getObserver _); [|by apply Wc].
    assert (H : forall m, (<[conn := tw_TW otw]> m : gmap Conn Multiaddr) !! c = Some a -> (m !! c = Some a -> c ∉ gone w) -> c ∉ gone w).
    { intros m. destruct (decide (c = conn)) as [->|]; [set_solver|]. rewrite lookup_insert_ne by done. auto. }
    simpl. destruct (connObservedTWAddrs (mgr w) !! conn); [case_match; [by apply Wc|]|]; intros Hl; apply (H _ Hl), Wc.
Qed.
Lemma oStep_ok w w' : worldOk w -> oStep w w' -> worldOk w'.
Proof.
  intros W S. pose proof W as [O Wg Wc]. destruct S as [w c observed|w listen o H|w c|w c Hc|w a|w listen n|w].
  - unfold handleIdentified. case_match eqn:E; [|by destruct w]. apply Z.ltb_lt in E. destruct O as [O1 O2 O3 O4].
    split; simpl; [split; simpl; [done..|]|done|done]. rewrite length_app. simpl. lia.
  - unfold workerStep in H. destruct (wch (mgr w)) as [|[conn observed] q] eqn:Eq; [done|]. injection H as <-. by eapply worker_ok.
  - split; simpl; [done|set_solver|done].
  - split; simpl; [by apply removeConn_ok|set_solver|]. intros c' a. unfold removeConn.
    destruct (connObservedTWAddrs (mgr w) !! c) as [b|] eqn:E.
    + intros H. assert (Hd : delete c (connObservedTWAddrs (mgr w)) !! c' = Some a) by (repeat case_match; exact H).
      apply lookup_delete_Some in Hd as [Hne Hl]. specialize (Wc _ _ Hl). set_solver.
    + intros Hl. pose proof (Wc _ _ Hl). assert (c' <> c) by congruence. set_solver.
  - destruct (thinWaistForm a) as [tw|] eqn:Htw.
    + destruct (AddrsFor_spec evict evict_in (mgr w) a tw (mo_ext _ _ _ O) Htw) as (x & res & -> & E & S & _). split; simpl; [by apply mgrOk_same|done..].
    + unfold AddrsFor. rewrite Htw. by destruct w.
  - destruct (Addrs_ok evict evict_in (mgr w) listen n (mo_ext _ _ _ O)) as (x & res & -> & E & S). split; simpl; [by apply mgrOk_same|done..].
  - unfold handleTick. destruct (getNATType (mgr w)) as [u t]. destruct O. split; simpl; [by split|done..].
Qed.
Lemma run_worldOk w : rtc oStep start w -> worldOk w.
Proof.
  assert (H : forall a b, rtc oStep a b -> worldOk a -> worldOk b) by (induction 1; eauto using oStep_ok).
  intros R. exact (H _ _ R obs_start_ok).
Qed.

(** C29: The manager counts exactly what open connections report.  In every reachable state the counter of an observer for a
    local and an external thin waist is the number of connections with that local address and observer whose last report
    is that external address; none of them has been disconnected; no counter is zero, and no set is stored that is empty;
    a cached address is the external thin waist followed by the rest it is cached for; cache and channel are bounded. *)
Theorem observations_exact w l k : rtc oStep start w ->
  (forall ob, cntAt (externalAddrs (mgr w)) l k ob =
     Z.of_nat (size (filter (reports LocalMultiaddr RemoteMultiaddr l k ob) (connObservedTWAddrs (mgr w))))) /\
  (forall c a, connObservedTWAddrs (mgr w) !! c = Some a -> c ∉ gone w) /\
  (forall s, getSet (externalAddrs (mgr w)) l k = Some s -> setOk k s) /\
  externalAddrs (mgr w) !! l <> Some ∅ /\
  Z.of_nat (length (wch (mgr w))) <= observedAddrManagerWorkerChannelSize.
Proof.
  intros [O _ Hc]%run_worldOk. split_and!; [|done|by apply O| |apply O].
  - intros ob. rewrite (mo_count _ _ _ O). unfold reported. apply sumMapK_count.
  - intros H. by apply (eo_some _ (mo_ext _ _ _ O) l ∅).
Qed.

(** The addresses proposed for a listen address are the best supported ones.  In every reachable state [AddrsFor]
    returns, for some external thin waists without repetition, each followed by the rest of the listen address; there are
    at most three of them, each has at least four observers, and an external thin waist with at least four observers is
    left out only if there are three, none of which has fewer observers.  What has been counted does not change. *)
Theorem addrs_for_best_supported w addr tw : rtc oStep start w -> thinWaistForm addr = Some tw ->
  let x := externalAddrs (mgr w) in let l := Bytes (tw_TW tw) in let '(o', res) := AddrsFor evict (mgr w) addr in
  exists keys, Bytes <$> res = (fun k => k ++ Bytes (tw_Rest tw)) <$> keys /\ NoDup keys /\
    Z.of_nat (length keys) <= maxExternalThinWaistAddrsPerLocalAddr /\
    (forall k, k ∈ keys -> exists s, getSet x l k = Some s /\ ActivationThresh <= numObservers s) /\
    (forall k' s', getSet x l k' = Some s' -> ActivationThresh <= numObservers s' -> k' ∉ keys ->
       Z.of_nat (length keys) = maxExternalThinWaistAddrsPerLocalAddr /\
       forall k s, k ∈ keys -> getSet x l k = Some s -> numObservers s' <= numObservers s) /\
    (forall l k, ObservedBy <$> getSet (externalAddrs o') l k = ObservedBy <$> getSet x l k).
Proof.
  intros W%run_worldOk Htw. simpl. destruct (AddrsFor_spec evict evict_in (mgr w) addr tw (mo_ext _ _ _ (wo_mgr _ W)) Htw) as (x & res & -> & _ & S & Hr).
  exists (getTopExternalAddrs (externalAddrs (mgr w)) (Bytes (tw_TW tw)) ActivationThresh).
  destruct (top_spec (externalAddrs (mgr w)) (Bytes (tw_TW tw)) ActivationThresh) as (T1 & T2 & T3 & T4). split_and!; try done.
Qed.
End run.

(** ** Nine peers behind the same NAT *)
Module ObservedExample.
Definition ip (a b : Byte.byte) : Component := mkComponent [Byte.x04; a; Byte.x01; Byte.x01; b] (Some (@protoIP4 unsignedVarint)) 1.
Definition tcp (p : Byte.byte) : Component := mkComponent [Byte.x06; Byte.x0f; p] (Some (@protoTCP unsignedVarint)) 1.
Definition listen : list Multiaddr := [[ip Byte.x0a Byte.x01; tcp Byte.xa1]].
Definition local (_ : Conn) : Multiaddr := [ip Byte.x0a Byte.x01; tcp Byte.xa1].
Definition remote (c : Conn) : Multiaddr := [ip Byte.x14 (z2b (Z.of_nat c)); tcp Byte.x00].
Definition external : Multiaddr := [ip Byte.x05 Byte.x05; tcp Byte.xa1].
Definition evict (X : gset bytes) : bytes := default [] (head (elements X)).
Lemma evict_in (X : gset bytes) : X <> ∅ -> evict X ∈ X.
Proof.
  intros HX. unfold evict. destruct (elements X) as [|k l] eqn:E; [by apply elements_empty_iff, leibniz_equiv in E|]. simpl. apply elem_of_elements. rewrite E. set_solver.
Qed.
(** The report of a connection is queued and recorded. *)
Definition report (o : Manager) (c : Conn) : Manager :=
  maybeRecordObservation local remote (set_wch (handleIdentified o c external) []) listen false c external.
Definition reportAll (n : nat) : Manager := foldl report newManager (seq 0 n).
Lemma report_run o c : wch o = [] -> rtc (oStep (GS := mergeSort) evict local remote) (mkWorld o ∅ ∅) (mkWorld (report o c) ∅ ∅).
Proof.
  intros Hq. assert (Hh : wch (handleIdentified o c external) = [(c, external)]) by (unfold handleIdentified; by rewrite Hq).
  eapply rtc_l; [apply (o_identified _ _ _ (mkWorld o ∅ ∅) c external)|]. eapply rtc_l; [|constructor].
  apply (o_worker _ _ _ (mkWorld (handleIdentified o c external) ∅ ∅) listen). unfold workerStep. simpl. by rewrite Hh.
Qed.
Lemma report_queue o c : wch (report o c) = [].
Proof.
  unfold report, maybeRecordObservation. destruct (shouldRecordObservation _ _ _ _) as [[? ?]|]; [|done].
  unfold recordObservationUnlocked. repeat case_match; done.
Qed.
Lemma reportAll_run n : rtc (oStep (GS := mergeSort) evict local remote) start (mkWorld (reportAll n) ∅ ∅).
Proof.
  unfold reportAll, start. assert (H : forall l o, wch o = [] -> rtc (oStep (GS := mergeSort) evict local remote) (mkWorld o ∅ ∅) (mkWorld (foldl report o l) ∅ ∅)).
  { intros l. induction l as [|c l IH]; intros o Hq; [constructor|]. etransitivity; [by apply report_run|]. apply IH, report_queue. }
  by apply H.
Qed.
Definition w5 : world := mkWorld (reportAll 5) ∅ ∅.
Lemma obs_run5 : rtc (oStep (GS := mergeSort) evict local remote) start w5.
Proof. apply reportAll_run. Qed.
Definition localTW : thinWaist := mkTW (local 0) (local 0) [].
End ObservedExample.
Import ObservedExample.

(** [getNATType] returns the type for TCP first, and [eventHandler] takes it for that of UDP: observations of TCP addresses
    only make the manager announce the type of a UDP NAT. *)
Lemma nat_events_swapped : forall c, getNATType (GS := mergeSort) (reportAll 9) = (NATDeviceTypeEndpointIndependent, NATDeviceTypeUnknown)
  /\ (handleTick (GS := mergeSort) (reportAll 9)).2 = [(NATTransportUDP, NATDeviceTypeEndpointIndependent)]
  /\ isTCPSet (default (mkOS [] ∅ ∅) (getSet (externalAddrs (reportAll 9)) (Bytes (local c)) (Bytes external))) = true.
Proof. intros c. by vm_compute. Qed.

Lemma observations_exact_witness : Z.of_nat (size (ObservedBy (default (mkOS [] ∅ ∅) (getSet (externalAddrs (reportAll 5)) (Bytes (local 0)) (Bytes external))))) = 5
  /\ (forall c a, connObservedTWAddrs (reportAll 5) !! c = Some a -> c ∉ (∅ : gset Conn)).
Proof.
  split; [by vm_compute|].
  pose proof (observations_exact evict evict_in local remote (mkWorld (reportAll 5) ∅ ∅) (Bytes (local 0)) (Bytes external) (reportAll_run 5)) as H.
  cbn [mgr gone] in H. destruct H as (_ & H & _). exact H.
Defined.
Lemma addrs_for_best_supported_witness : thinWaistForm (local 0) = Some localTW /\
  let '(_, res) := AddrsFor (GS := mergeSort) evict (mgr w5) (local 0) in
  exists keys, Bytes <$> res = (fun k => k ++ Bytes (tw_Rest localTW)) <$> keys /\ NoDup keys.
Proof.
  split; [exact (eq_refl (Some localTW))|].
  pose proof (addrs_for_best_supported evict evict_in local remote w5 (local 0) localTW obs_run5 (eq_refl (Some localTW))) as H. cbv zeta in H.
  destruct (AddrsFor evict (mgr w5) (local 0)) as [o res]. destruct H as (keys & H1 & H2 & _). exists keys. split; [exact H1|exact H2].
Defined.
(** The proposal for the listen address *)
Lemma five_reports : Bytes <$> (AddrsFor (GS := mergeSort) evict (mgr w5) (local 0)).2 = [Bytes external].
Proof. by vm_compute. Qed.
