(* ===== verification/DialRank.v ===== *)
(** * The order of dials (p2p/net/swarm/dial_ranker.go, swarm_dial.go, dial_worker.go)

    The ranking of the addresses of a peer with delays in nanoseconds, the filter
    of addresses for which there is a better one, and the queue of dials. *)
From Stdlib Require Import ZArith Lia.
From stdpp Require Import base tactics list numbers option gmap sets sorting.
From S2P Require Import Prelude Collections GoBytes Varint MaProtocol MaComponent MaCodec MaOps GoNet MaProtocols BlsRpc DialLimiter Relay Manet.
Local Open Scope Z_scope.

Definition Millisecond : Z := 1000000.
Definition PublicTCPDelay : Z := 250 * Millisecond.
Definition PrivateTCPDelay : Z := 30 * Millisecond.
Definition PublicQUICDelay : Z := 250 * Millisecond.
Definition PrivateQUICDelay : Z := 30 * Millisecond.
Definition RelayDelay : Z := 500 * Millisecond.
Definition PublicOtherDelay : Z := 1000 * Millisecond.
Definition PrivateOtherDelay : Z := 100 * Millisecond.

Record AddrDelay := mkAddrDelay { ad_Addr : Multiaddr; ad_Delay : Z }.

(** ** Scores *)
Definition isProtocolAddr (a : Multiaddr) (p : Z) : bool := existsb (fun c => protoCode c =? p) a.
Definition isQUICAddr (a : Multiaddr) : bool := isProtocolAddr a P_QUIC || isProtocolAddr a P_QUIC_V1.
(** [strconv.Atoi] of the port, which is printed without a sign; 0 for an error *)
Definition portOf (a : Multiaddr) (p : Z) : option Z := match ValueForProtocol a p with Ok v => ParseUint v 63 | _ => None end.
Definition score (a : Multiaddr) : Z :=
  let ip4Weight := if isProtocolAddr a P_IP4 then 2 ^ 18 else 0 in
  if isOk (ValueForProtocol a P_WEBTRANSPORT) then ip4Weight + 2 ^ 19 + default 0 (portOf a P_UDP)
  else if isOk (ValueForProtocol a P_QUIC) then ip4Weight + default 0 (portOf a P_UDP) + 2 ^ 17
  else if isOk (ValueForProtocol a P_QUIC_V1) then ip4Weight + default 0 (portOf a P_UDP)
  else if isOk (ValueForProtocol a P_TCP) then ip4Weight + default 0 (portOf a P_TCP) + 2 ^ 20
  else if isOk (ValueForProtocol a P_WEBRTC_DIRECT) then 2 ^ 21
  else 2 ^ 30.

(** ** Ranking *)
(** The loop of [filterAddrs], which swaps in place *)
Definition swapAt (l : list Multiaddr) (i j : nat) : list Multiaddr :=
  match l !! i, l !! j with Some a, Some b => <[j := a]> (<[i := b]> l) | _, _ => l end.
Definition filterStep (f : Multiaddr -> bool) (r : list Multiaddr * nat) (i : nat) : list Multiaddr * nat :=
  match r.1 !! i with
  | Some a => if f a then (swapAt r.1 i r.2, S r.2) else r
  | None => r
  end.
Definition filterAddrs (addrs : list Multiaddr) (f : Multiaddr -> bool) : list Multiaddr * list Multiaddr :=
  let '(l, j) := foldl (filterStep f) (addrs, O) (seq 0 (length addrs)) in (take j l, drop j l).

(** The first index from [i] on *)
Definition findFrom (f : Multiaddr -> bool) (l : list Multiaddr) (i : nat) : option nat :=
  (fun k => (i + fst k)%nat) <$> list_find (fun a => f a = true) (drop i l).
(** The element at [j] moves to [k], and those in between to the right. *)
Definition moveTo (l : list Multiaddr) (j k : nat) : list Multiaddr :=
  match l !! j with
  | Some a => if (k <? j)%nat then take k l ++ a :: drop k (take j l) ++ drop (S j) l else l
  | None => l
  end.
Definition isIP6 (l : list Multiaddr) (i : nat) : bool := match l !! i with Some a => isProtocolAddr a P_IP6 | None => false end.
(** With the order for happy eyeballs: the addresses, whether QUIC and TCP have both versions, the index of the first TCP address *)
Definition happyEyeballs (addrs : list Multiaddr) : list Multiaddr * bool * bool * nat :=
  let quic4 a := isQUICAddr a && isProtocolAddr a P_IP4 in
  let tcp4 a := isProtocolAddr a P_TCP && isProtocolAddr a P_IP4 in
  let '(addrs, hq, i) :=
    if match addrs with a :: _ => isQUICAddr a && isProtocolAddr a P_IP6 | [] => false end then
      match findFrom quic4 addrs 1 with Some j => (moveTo addrs j 1, true, S j) | None => (addrs, false, O) end
    else (addrs, false, O) in
  let tcpStartIdx := default (Nat.max i (length addrs)) (findFrom (fun a => isProtocolAddr a P_TCP) addrs i) in
  if isIP6 addrs tcpStartIdx then
    match findFrom tcp4 addrs (S tcpStartIdx) with
    | Some j => (moveTo addrs j (S tcpStartIdx), hq, true, tcpStartIdx)
    | None => (addrs, hq, false, tcpStartIdx)
    end
  else (addrs, hq, false, tcpStartIdx).

(** [tcpFirstDialDelay], [lastQUICOrTCPDelay] and the result so far *)
Record delays := mkDelays { tcpFirst : Z; lastQUICOrTCP : Z; ranked_ : list AddrDelay }.
Definition delayStep (tcpDelay quicDelay otherDelay offset : Z) (hq ht : bool) (tcpStartIdx : nat) (d : delays) (ia : nat * Multiaddr) : delays :=
  let '(i, addr) := ia in
  if isQUICAddr addr then
    let delay := if (i =? 0)%nat then 0 else if (i =? 1)%nat then quicDelay else if hq then 2 * quicDelay else quicDelay in
    mkDelays (delay + tcpDelay) delay (ranked_ d ++ [mkAddrDelay addr (offset + delay)])
  else if isProtocolAddr addr P_TCP then
    let delay := if (i =? S tcpStartIdx)%nat then tcpDelay else if (S tcpStartIdx <? i)%nat then (if ht then 2 * tcpDelay else tcpDelay) else 0 in
    let delay := delay + tcpFirst d in
    mkDelays (tcpFirst d) delay (ranked_ d ++ [mkAddrDelay addr (offset + delay)])
  else mkDelays (tcpFirst d) (lastQUICOrTCP d) (ranked_ d ++ [mkAddrDelay addr (offset + (lastQUICOrTCP d + otherDelay))]).

Section rank.
Context {GS : GoSort}.
Definition getAddrDelay (addrs : list Multiaddr) (tcpDelay quicDelay otherDelay offset : Z) : list AddrDelay :=
  let addrs := sortLess (fun a b => score a <? score b) addrs in
  let '(addrs, hq, ht, tcpStartIdx) := happyEyeballs addrs in
  ranked_ (foldl (delayStep tcpDelay quicDelay otherDelay offset hq ht tcpStartIdx) (mkDelays 0 0 []) (imap pair addrs)).
Definition NoDelayDialRanker (addrs : list Multiaddr) : list AddrDelay := getAddrDelay addrs 0 0 0 0.
Definition DefaultDialRanker (addrs : list Multiaddr) : list AddrDelay :=
  let '(relay, addrs) := filterAddrs addrs DialLimiter.isRelayAddr in
  let '(pvt, addrs) := filterAddrs addrs IsPrivateAddr in
  let '(public, addrs) := filterAddrs addrs (fun a => isProtocolAddr a P_IP4 || isProtocolAddr a P_IP6) in
  let relayOffset := match public with [] => 0 | _ => RelayDelay end in
  let res := getAddrDelay pvt PrivateTCPDelay PrivateQUICDelay PrivateOtherDelay 0
             ++ getAddrDelay public PublicTCPDelay PublicQUICDelay PublicOtherDelay 0
             ++ getAddrDelay relay PublicTCPDelay PublicQUICDelay PublicOtherDelay relayOffset in
  let maxDelay := default 0 (ad_Delay <$> last res) in
  res ++ ((fun a => mkAddrDelay a (maxDelay + PublicOtherDelay)) <$> addrs).
End rank.

(** ** Addresses with a better alternative *)
(** [netip.AddrPort]: the bytes of the IP and the port *)
Definition addrPort (a : Multiaddr) (p : Z) : option (bytes * Z) :=
  match ToIP a with
  | Ok ip => pi ← portOf a p; if (length ip =? 4)%nat || (length ip =? 16)%nat then Some (ip, pi mod 2 ^ 16) else None
  | _ => None
  end.
Definition noteAddr (r : gset (bytes * Z) * gset (bytes * Z)) (a : Multiaddr) : gset (bytes * Z) * gset (bytes * Z) :=
  let '(quicV1Addr, tcpAddr) := r in
  if isProtocolAddr a P_WEBTRANSPORT then r
  else if isProtocolAddr a P_QUIC_V1 then match addrPort a P_UDP with Some ap => ({[ap]} ∪ quicV1Addr, tcpAddr) | None => r end
  else if isProtocolAddr a P_WS || isProtocolAddr a P_WSS then r
  else if isProtocolAddr a P_TCP then match addrPort a P_TCP with Some ap => (quicV1Addr, {[ap]} ∪ tcpAddr) | None => r end
  else r.
Definition lowPriority (quicV1Addr tcpAddr : gset (bytes * Z)) (a : Multiaddr) : bool :=
  if isProtocolAddr a P_WEBTRANSPORT || isProtocolAddr a P_QUIC then
    match addrPort a P_UDP with Some ap => bool_decide (ap ∈ quicV1Addr) | None => false end
  else if isProtocolAddr a P_WS || isProtocolAddr a P_WSS then
    match addrPort a P_TCP with Some ap => bool_decide (ap ∈ tcpAddr) | None => false end
  else false.
Definition filterLowPriorityAddresses (addrs : list Multiaddr) : list Multiaddr :=
  let '(quicV1Addr, tcpAddr) := foldl noteAddr (∅, ∅) addrs in
  filter (fun a => lowPriority quicV1Addr tcpAddr a = false) addrs.

(** ** The queue *)
Abbreviation dialQueue := (list AddrDelay).
Definition insertAt (q : dialQueue) (i : nat) (x : AddrDelay) : dialQueue := take i q ++ x :: drop i q.
(** The loop of [Add] at index [i - 1] *)
Fixpoint addLoop (q : dialQueue) (x : AddrDelay) (i : nat) : dialQueue :=
  match i with
  | O => insertAt q 0 x
  | S i => match q !! i with
           | Some y => if ad_Delay y <=? ad_Delay x then insertAt q (S i) x else addLoop q x i
           | None => q
           end
  end.
Definition dq_Add (q : dialQueue) (x : AddrDelay) : dialQueue := addLoop q x (length q).
Definition deleteAt (q : dialQueue) (i : nat) : dialQueue := take i q ++ drop (S i) q.
(** The loop of [UpdateOrAdd] at index [i], and whether it returned; the length bounds the rounds *)
Fixpoint updateLoop (fuel : nat) (q : dialQueue) (x : AddrDelay) (i : nat) : dialQueue * bool :=
  match fuel with
  | O => (q, false)
  | S fuel =>
      match q !! i with
      | None => (q, false)
      | Some y =>
          if Equal (ad_Addr y) (ad_Addr x) then
            if ad_Delay y =? ad_Delay x then (q, true) else updateLoop fuel (deleteAt q i) x (S i)
          else updateLoop fuel q x (S i)
      end
  end.
Definition dq_UpdateOrAdd (q : dialQueue) (x : AddrDelay) : dialQueue :=
  let '(q, same) := updateLoop (length q) q x 0 in if same then q else dq_Add q x.
(** The elements in front with the delay [d] *)
Fixpoint batchLen (d : Z) (q : dialQueue) : nat :=
  match q with
  | x :: q => if negb (ad_Delay x =? d) then O else S (batchLen d q)
  | [] => O
  end.
Definition dq_NextBatch (q : dialQueue) : dialQueue * list AddrDelay :=
  match q with
  | [] => ([], [])
  | x :: _ => let i := batchLen (ad_Delay x) q in (drop i q, take i q)
  end.
