(* ===== verification/DialRankLaws.v ===== *)
(** * Laws of the ranking and of the queue of dials *)
From Stdlib Require Import ZArith Lia.
From stdpp Require Import base tactics list numbers option gmap sets sorting.
From S2P Require Import Prelude Collections GoBytes Varint MaProtocol MaComponent MaCodec MaOps GoNet MaProtocols BlsRpc DialLimiter Relay Manet DialRank.
Local Open Scope Z_scope.

(** ** [filterAddrs] *)
Lemma swapAt_perm l i j : swapAt l i j ≡ₚ l.
Proof.
  unfold swapAt. destruct (l !! i) as [a|] eqn:Ei; [|done]. destruct (l !! j) as [b|] eqn:Ej; [|done]. by apply Permutation_insert_swap.
Qed.
(** After the first [n] rounds: what has been found is in front. *)
Lemma filterLoop_ok f addrs n : (n <= length addrs)%nat -> let '(l, j) := foldl (filterStep f) (addrs, O) (seq 0 n) in
  l ≡ₚ addrs /\ (j <= n)%nat /\ (forall k a, (k < j)%nat -> l !! k = Some a -> f a = true) /\
  (forall k a, (j <= k < n)%nat -> l !! k = Some a -> f a = false).
Proof.
  induction n as [|n IH]; intros Hn; [simpl; split_and!; [done|lia|lia..]|].
  rewrite seq_S, foldl_app. destruct (foldl (filterStep f) (addrs, O) (seq 0 n)) as [l j]. destruct (IH ltac:(lia)) as (Hp & Hj & H1 & H2).
  simpl. unfold filterStep. simpl. destruct (l !! n) as [a|] eqn:Ha; [|apply lookup_ge_None in Ha; rewrite Hp in Ha; lia].
  destruct (f a) eqn:Hf.
  - assert (Hl : length l = length addrs) by by rewrite Hp. destruct (lookup_lt_is_Some_2 l j ltac:(lia)) as [b Hb].
    split_and!; [by rewrite swapAt_perm|lia| |]; intros k c Hk; unfold swapAt; rewrite Ha, Hb.
    + destruct (decide (k = j)) as [->|]; [rewrite list_lookup_insert_eq by (rewrite length_insert; lia); congruence|].
      rewrite list_lookup_insert_ne, list_lookup_insert_ne by lia. apply H1. lia.
    + rewrite list_lookup_insert_ne by lia. destruct (decide (k = n)) as [->|].
      * rewrite list_lookup_insert_eq by lia. intros [= <-]. apply (H2 j); [|done]. lia.
      * rewrite list_lookup_insert_ne by lia. apply H2. lia.
  - split_and!; [done|lia|done|]. intros k c Hk. destruct (decide (k = n)) as [->|]; [congruence|]. apply H2. lia.
Qed.
Lemma filterAddrs_ok f addrs x y : filterAddrs addrs f = (x, y) ->
  x ++ y ≡ₚ addrs /\ Forall (fun a => f a = true) x /\ Forall (fun a => f a = false) y.
Proof.
  unfold filterAddrs. pose proof (filterLoop_ok f addrs (length addrs) ltac:(lia)) as H.
  destruct (foldl _ _ _) as [l j]. destruct H as (Hp & Hj & H1 & H2). intros [= <- <-]. split_and!.
  - by rewrite take_drop.
  - apply Forall_forall. intros a [k Hk]%list_elem_of_lookup. apply lookup_take_Some in Hk as [Hk ?]. by eapply H1.
  - apply Forall_forall. intros a [k Hk]%list_elem_of_lookup. rewrite lookup_drop in Hk. apply (H2 (j + k)%nat); [|done].
    apply lookup_lt_Some in Hk. rewrite Hp in Hk. lia.
Qed.

(** ** Happy eyeballs *)
Lemma moveTo_perm l j k : moveTo l j k ≡ₚ l.
Proof.
  unfold moveTo. destruct (l !! j) as [a|] eqn:Ha; [|done]. destruct (Nat.ltb_spec k j) as [Hk|]; [|done].
  assert (E : l = take k l ++ drop k (take j l) ++ a :: drop (S j) l).
  { rewrite <-(take_drop_middle l j a Ha) at 1. rewrite <-(take_drop k (take j l)) at 1. by rewrite take_take, Nat.min_l, <-app_assoc by lia. }
  transitivity (take k l ++ drop k (take j l) ++ a :: drop (S j) l); [|by rewrite <-E]. apply Permutation_app_head, Permutation_middle.
Qed.
Lemma happyEyeballs_perm l : (happyEyeballs l).1.1.1 ≡ₚ l.
Proof.
  unfold happyEyeballs. repeat (case_match; simplify_eq/=); rewrite ?moveTo_perm; done.
Qed.

(** ** Delays *)
Section delays.
Context (tcpDelay quicDelay otherDelay offset : Z) (Ht : 0 <= tcpDelay) (Hq : 0 <= quicDelay) (Ho : 0 <= otherDelay).
(** The bound: two steps of QUIC, three of TCP, one of the others *)
Definition maxRank : Z := 2 * quicDelay + 3 * tcpDelay + otherDelay.
Definition inBounds (x : AddrDelay) : Prop := offset <= ad_Delay x <= offset + maxRank.
Lemma delayStep_ok hq ht t l : forall i d, 0 <= tcpFirst d <= 2 * quicDelay + tcpDelay -> 0 <= lastQUICOrTCP d <= 2 * quicDelay + 3 * tcpDelay ->
  Forall inBounds (ranked_ d) -> let d' := foldl (delayStep tcpDelay quicDelay otherDelay offset hq ht t) d (imap (fun k a => ((i + k)%nat, a)) l) in
  ad_Addr <$> ranked_ d' = (ad_Addr <$> ranked_ d) ++ l /\ Forall inBounds (ranked_ d').
Proof.
  induction l as [|a l IH]; intros i d H1 H2 HF; [simpl; by rewrite app_nil_r|]. rewrite imap_cons. cbn [foldl].
  assert (Hd : let d1 := delayStep tcpDelay quicDelay otherDelay offset hq ht t d ((i + 0)%nat, a) in
    0 <= tcpFirst d1 <= 2 * quicDelay + tcpDelay /\ 0 <= lastQUICOrTCP d1 <= 2 * quicDelay + 3 * tcpDelay /\
    (exists x, ranked_ d1 = ranked_ d ++ [mkAddrDelay a x] /\ offset <= x <= offset + maxRank)).
  { unfold delayStep, maxRank. destruct (isQUICAddr a); [|destruct (isProtocolAddr a P_TCP)]; simpl;
      repeat (match goal with |- context [if ?b then _ else _] => destruct b end); split_and!; try lia; eexists; split; (reflexivity || lia). }
  destruct Hd as (D1 & D2 & x & E & Hx). set (d1 := delayStep _ _ _ _ _ _ _ _ _) in *.
  assert (F1 : Forall inBounds (ranked_ d1)) by (rewrite E; apply Forall_app; split; [done|by constructor]).
  destruct (IH (S i) d1 D1 D2 F1) as [I1 I2]. unfold compose. 
  assert (Hi : imap (fun k a => ((i + S k)%nat, a)) l = imap (fun k a => ((S i + k)%nat, a)) l).
  { apply imap_ext. intros k y _. f_equal. lia. }
  rewrite Hi. split; [|done]. rewrite I1, E, fmap_app. by rewrite <-app_assoc.
Qed.
Context {GS : GoSort} {GL : GoSortLaws GS}.
Lemma getAddrDelay_ok addrs : (ad_Addr <$> getAddrDelay addrs tcpDelay quicDelay otherDelay offset) ≡ₚ addrs /\
  Forall inBounds (getAddrDelay addrs tcpDelay quicDelay otherDelay offset).
Proof.
  unfold getAddrDelay. set (l := sortLess _ addrs). assert (Hl : l ≡ₚ addrs) by apply sortFunc_perm.
  pose proof (happyEyeballs_perm l) as Hh. destruct (happyEyeballs l) as [[[l1 hq] ht] t]. simpl in Hh.
  destruct (delayStep_ok hq ht t l1 0 (mkDelays 0 0 []) ltac:(simpl; lia) ltac:(simpl; lia) ltac:(constructor)) as [H1 H2].
  split; [|exact H2]. etransitivity; [|etransitivity; [exact Hh|exact Hl]]. change (imap pair l1) with (imap (fun k a => ((0 + k)%nat, a)) l1).
  by rewrite H1.
Qed.
End delays.

(** What the worker asks of a ranking: no address is lost, repeated or invented *)
Class RankerLaws (ranker : list Multiaddr -> list AddrDelay) : Prop := {
  ranker_perm addrs : ad_Addr <$> ranker addrs ≡ₚ addrs }.

Section rankers.
Context {GS : GoSort} {GL : GoSortLaws GS}.
#[export] Instance NoDelay_laws : RankerLaws NoDelayDialRanker.
Proof. constructor. intros addrs. by destruct (getAddrDelay_ok 0 0 0 0 ltac:(done) ltac:(done) ltac:(done) addrs). Qed.

Lemma defaultRank_ok addrs :
  ad_Addr <$> DefaultDialRanker addrs ≡ₚ addrs /\ Forall (fun x => 0 <= ad_Delay x <= 3750 * Millisecond) (DefaultDialRanker addrs).
Proof.
  unfold DefaultDialRanker. destruct (filterAddrs addrs _) as [relay r1] eqn:E1. destruct (filterAddrs r1 _) as [pvt r2] eqn:E2.
  destruct (filterAddrs r2 _) as [public r3] eqn:E3.
  apply filterAddrs_ok in E1 as (P1 & _), E2 as (P2 & _), E3 as (P3 & _).
  set (off := match public with [] => 0 | _ => RelayDelay end).
  destruct (getAddrDelay_ok PrivateTCPDelay PrivateQUICDelay PrivateOtherDelay 0 ltac:(done) ltac:(done) ltac:(done) pvt) as [A1 B1].
  destruct (getAddrDelay_ok PublicTCPDelay PublicQUICDelay PublicOtherDelay 0 ltac:(done) ltac:(done) ltac:(done) public) as [A2 B2].
  destruct (getAddrDelay_ok PublicTCPDelay PublicQUICDelay PublicOtherDelay off ltac:(done) ltac:(done) ltac:(done) relay) as [A3 B3].
  set (g1 := getAddrDelay pvt _ _ _ _) in *. set (g2 := getAddrDelay public _ _ _ _) in *. set (g3 := getAddrDelay relay _ _ _ _) in *.
  assert (Hoff : 0 <= off <= RelayDelay) by (unfold off; destruct public; vm_compute; split; congruence).
  assert (HF : Forall (fun x => 0 <= ad_Delay x <= 2750 * Millisecond) (g1 ++ g2 ++ g3)).
  { rewrite !Forall_app. split_and!; eapply Forall_impl; try eassumption; intros x; unfold inBounds, maxRank, PrivateTCPDelay, PrivateQUICDelay, PrivateOtherDelay, PublicTCPDelay, PublicQUICDelay, PublicOtherDelay, RelayDelay, Millisecond in *; lia. }
  split.
  - rewrite fmap_app, !fmap_app, A1, A2, A3, <-list_fmap_compose. change (ad_Addr ∘ _) with (@id Multiaddr). rewrite list_fmap_id, <-P1, <-P2, <-P3. solve_Permutation.
  - apply Forall_app. split; [eapply Forall_impl; [exact HF|]; intros x; unfold Millisecond; simpl; lia|].
    apply Forall_fmap, Forall_forall. intros a _. simpl. destruct (last (g1 ++ g2 ++ g3)) as [x|] eqn:El; simpl; [|vm_compute; split; congruence].
    apply last_Some_elem_of in El. rewrite Forall_forall in HF. specialize (HF x El). unfold PublicOtherDelay, Millisecond in *. lia.
Qed.
#[export] Instance Default_laws : RankerLaws DefaultDialRanker.
Proof. constructor. intros addrs. apply defaultRank_ok. Qed.

(** The default ranking dials every address once and soon: it returns each of the given addresses exactly once, with a
    delay between 0 and 3.75 seconds. *)
Theorem default_ranking_complete addrs :
  ad_Addr <$> DefaultDialRanker addrs ≡ₚ addrs /\ Forall (fun x => 0 <= ad_Delay x <= 3750 * Millisecond) (DefaultDialRanker addrs).
Proof. apply defaultRank_ok. Qed.
End rankers.

(** ** The queue *)
Definition akey (x : AddrDelay) : bytes := Bytes (ad_Addr x).
Definition qSorted (q : dialQueue) : Prop := StronglySorted (fun a b => ad_Delay a <= ad_Delay b) q.

Lemma insertAt_perm q i x : insertAt q i x ≡ₚ x :: q.
Proof. unfold insertAt. rewrite <-Permutation_middle. by rewrite take_drop. Qed.
Lemma dqLoop_ok q x i : qSorted q -> (i <= length q)%nat -> (forall y, y ∈ drop i q -> ad_Delay x < ad_Delay y) ->
  addLoop q x i ≡ₚ x :: q /\ qSorted (addLoop q x i).
Proof.
  intros S. induction i as [|i IH]; intros Hi Hd.
  - simpl. split; [apply insertAt_perm|]. unfold insertAt. rewrite take_0, drop_0 in *. simpl. constructor; [done|].
    apply Forall_forall. intros y Hy. specialize (Hd y Hy). lia.
  - simpl. destruct (lookup_lt_is_Some_2 q i ltac:(lia)) as [y Hy]. rewrite Hy. destruct (Z.leb_spec (ad_Delay y) (ad_Delay x)) as [H|H].
    + split; [apply insertAt_perm|]. unfold insertAt. unfold qSorted in *. rewrite <-(take_drop (Datatypes.S i) q) in S. apply StronglySorted_app in S as (S1 & S2 & S3).
      apply StronglySorted_app. split_and!; [|done|].
      * intros a b Ha [->|Hb]%elem_of_cons; [|by apply S1]. rewrite (take_S_r q i y Hy) in Ha. apply elem_of_app in Ha as [Ha|Ha%list_elem_of_singleton]; [|by subst].
        assert (ad_Delay a <= ad_Delay y); [|lia]. rewrite (take_S_r q i y Hy) in S2. apply StronglySorted_app in S2 as (S2 & _). apply S2; set_solver.
      * constructor; [done|]. apply Forall_forall. intros b Hb. specialize (Hd b Hb). lia.
    + apply IH; [lia|]. intros z. rewrite (drop_S q y i Hy). intros [->|Hz]%elem_of_cons; [lia|by apply Hd].
Qed.
Lemma Add_ok q x : qSorted q -> dq_Add q x ≡ₚ x :: q /\ qSorted (dq_Add q x).
Proof. intros S. apply dqLoop_ok; [done|lia|]. rewrite drop_all. intros y Hy. by apply elem_of_nil in Hy. Qed.

Lemma updateLoop_none x fuel : forall q i, (forall y, y ∈ drop i q -> Equal (ad_Addr y) (ad_Addr x) = false) -> updateLoop fuel q x i = (q, false).
Proof.
  induction fuel as [|fuel IH]; intros q i H; [done|]. simpl. destruct (q !! i) as [y|] eqn:Hy; [|done].
  rewrite (drop_S q y i Hy) in H. rewrite (H y) by set_solver. apply IH. set_solver.
Qed.
Lemma updateLoop_skip x l1 fuel : forall i q, (forall y, y ∈ l1 -> Equal (ad_Addr y) (ad_Addr x) = false) -> (length l1 <= fuel)%nat ->
  (exists l2, drop i q = l1 ++ l2) -> updateLoop fuel q x i = updateLoop (fuel - length l1) q x (i + length l1).
Proof.
  revert fuel. induction l1 as [|y l1 IH]; intros fuel i q H Hf [l2 E]; [simpl; by rewrite Nat.sub_0_r, Nat.add_0_r|].
  destruct fuel as [|fuel]; [simpl in Hf; lia|]. simpl. assert (Hy : q !! i = Some y).
  { pose proof (lookup_drop q i 0) as L. rewrite E, Nat.add_0_r in L. by rewrite <-L. }
  rewrite Hy, (H y) by set_solver. rewrite (IH fuel (S i) q).
  - f_equal. lia.
  - set_solver.
  - simpl in Hf. lia.
  - exists l2. rewrite (drop_S q y i Hy) in E. by injection E.
Qed.
Lemma Update_ok q x : qSorted q -> NoDup (akey <$> q) -> akey x ∈ akey <$> q ->
  (forall y, y ∈ q -> Equal (ad_Addr y) (ad_Addr x) = bool_decide (akey y = akey x)) ->
  akey <$> dq_UpdateOrAdd q x ≡ₚ akey <$> q /\ qSorted (dq_UpdateOrAdd q x) /\ (forall y, y ∈ dq_UpdateOrAdd q x -> y ∈ q \/ y = x).
Proof.
  intros S ND (y & Hk & Hy)%list_elem_of_fmap HE. apply list_elem_of_split in Hy as (l1 & l2 & ->).
  rewrite fmap_app, fmap_cons in ND. apply NoDup_app in ND as (N1 & N2 & N3). apply NoDup_cons in N3 as (N3 & N4).
  assert (H1 : forall z, z ∈ l1 -> Equal (ad_Addr z) (ad_Addr x) = false).
  { intros z Hz. rewrite HE by set_solver. apply bool_decide_eq_false. intros E. apply (N2 (akey z)); [by apply list_elem_of_fmap_2|]. rewrite E, Hk. set_solver. }
  assert (H2 : forall z, z ∈ l2 -> Equal (ad_Addr z) (ad_Addr x) = false).
  { intros z Hz. rewrite HE by set_solver. apply bool_decide_eq_false. intros E. apply N3. rewrite <-Hk, <-E. by apply list_elem_of_fmap_2. }
  unfold dq_UpdateOrAdd. rewrite (updateLoop_skip x l1); [|done|rewrite length_app; lia|exists (y :: l2); by rewrite drop_0].
  rewrite length_app. simpl. replace (length l1 + Datatypes.S (length l2) - length l1)%nat with (Datatypes.S (length l2)) by lia. simpl.
  rewrite list_lookup_middle by done. rewrite HE by set_solver. rewrite bool_decide_true by done.
  destruct (ad_Delay y =? ad_Delay x); [split_and!; [done|done|by left]|].
  assert (Hd : deleteAt (l1 ++ y :: l2) (length l1) = l1 ++ l2).
  { unfold deleteAt. rewrite take_app_length. f_equal. replace (Datatypes.S (length l1)) with (length l1 + 1)%nat by lia. rewrite <-drop_drop, drop_app_length. done. }
  rewrite Hd, updateLoop_none.
  - assert (S' : qSorted (l1 ++ l2)).
    { unfold qSorted in *. apply StronglySorted_app in S as (S1 & S2 & S3). apply StronglySorted_app. inversion S3; subst. split_and!; [set_solver|done|done]. }
    destruct (Add_ok (l1 ++ l2) x S') as [A1 A2]. split_and!; [|done|].
    + rewrite A1. rewrite fmap_cons, !fmap_app, fmap_cons, <-Permutation_middle. by rewrite Hk.
    + intros z. rewrite A1. set_solver.
  - intros z Hz. apply H2. replace (Datatypes.S (length l1)) with (length l1 + 1)%nat in Hz by lia. rewrite <-drop_drop, drop_app_length in Hz.
    by apply subseteq_drop in Hz.
Qed.

Lemma NextBatch_ok q q' b : dq_NextBatch q = (q', b) -> q = b ++ q' /\ (q <> [] -> b <> []).
Proof.
  unfold dq_NextBatch. destruct q as [|x q]; [by intros [= <- <-]|]. intros [= <- <-]. split; [by rewrite take_drop|].
  intros _. simpl. by rewrite Z.eqb_refl.
Qed.

Module RankExample.
Definition rip (b : Byte.byte) : Component := mkComponent [Byte.x04; Byte.x05; Byte.x01; Byte.x01; b] (Some (@protoIP4 unsignedVarint)) 1.
Definition rtcp (p : Byte.byte) : Component := mkComponent [Byte.x06; Byte.x0f; p] (Some (@protoTCP unsignedVarint)) 1.
Definition pair : list Multiaddr := [[rip Byte.x01; rtcp Byte.xa1]; [rip Byte.x02; rtcp Byte.xa1]].
End RankExample.
(** The second of two TCP addresses is dialled a quarter of a second later. *)
Lemma default_ranking_complete_witness : ad_Delay <$> DefaultDialRanker (GS := mergeSort) RankExample.pair = [0; 250000000] /\
  ad_Addr <$> DefaultDialRanker (GS := mergeSort) RankExample.pair ≡ₚ RankExample.pair.
Proof. split; [vm_compute; reflexivity|]. exact (proj1 (default_ranking_complete (GS := mergeSort) RankExample.pair)). Defined.
