(* ===== verification/DialWorker.v ===== *)
(** * The dial worker (p2p/net/swarm/dial_worker.go, dial_error.go, swarm_dial.go dialNextAddr)

    One worker per peer answers dial requests: it dials every address of the peer
    at most once, spaced out by the ranking, and sends each request one response.
    A request is a number; its channel for the response is what [w_out] records.
    The swarm answers through [reqEnv] and [dispEnv]; dials that the limiter has
    accepted report back in steps of their own. *)
From Stdlib Require Import ZArith Lia.
From stdpp Require Import base tactics list numbers option gmap sets sorting.
From S2P Require Import Prelude Collections GoBytes Varint MaProtocol MaComponent MaCodec MaOps GoNet MaProtocols BlsRpc Manet DialRank.
Local Open Scope Z_scope.

(** ** Data *)
Abbreviation Request := nat.
Abbreviation SConn := nat.
Inductive dialErr :=
| ErrDialBackoff | ErrDialToSelf | ErrNoTransport | ErrAllDialsFailed | ErrNoAddresses | ErrNoGoodAddresses | ErrGaterDisallowedConnection
| ErrQUICDraft29 | ErrContextCanceled | ErrOther (n : nat).
#[export] Instance dialErr_dec : EqDecision dialErr.
Proof. solve_decision. Defined.

Definition maxDialDialErrors : Z := 16.
Record DialError := mkDialError { DialErrors : list (Multiaddr * dialErr); Cause : option dialErr; Skipped : Z }.
Definition recordErr (e : DialError) (addr : Multiaddr) (err : dialErr) : DialError :=
  if maxDialDialErrors <=? Z.of_nat (length (DialErrors e)) then mkDialError (DialErrors e) (Cause e) (Skipped e + 1)
  else mkDialError (DialErrors e ++ [(addr, err)]) (Cause e) (Skipped e).
Definition set_Cause (e : DialError) (err : dialErr) : DialError := mkDialError (DialErrors e) (Some err) (Skipped e).

(** The values of a context that the worker looks at *)
Record dialCtx := mkDialCtx { simConnect : bool; forceDirect : bool }.
Inductive dialResponse := RespConn (c : SConn) | RespErr (e : DialError).
Record pendRequest := mkPend { pr_ctx : dialCtx; pr_err : DialError; pr_addrs : gset bytes }.
Record addrDial := mkAddrDial {
  dl_addr : Multiaddr; dl_ctx : dialCtx; dl_conn : option SConn; dl_err : option dialErr; dl_dialed : bool;
  expectedTCPUpgradeTime : option Z  (** [None] is the zero time *) }.

Record dialWorker := mkWorker {
  pendingRequests : gmap Request pendRequest;
  trackedDials : gmap bytes addrDial;
  connected : bool;
  dq : dialQueue; dialsInFlight : Z; startTime : Z; dialTimer : option Z  (** [None] when it is not running *);
  w_out : list (Request * dialResponse)  (** the responses sent *);
  w_dials : list bytes  (** the dials handed to the limiter *);
  w_backoffs : list Multiaddr  (** the calls of [AddBackoff] *) }.
Definition newDialWorker (now : Z) : dialWorker := mkWorker ∅ ∅ false [] 0 now (Some (now + Int64.MaxInt64)) [] [] [].

Definition set_pending (w : dialWorker) (m : gmap Request pendRequest) : dialWorker :=
  mkWorker m (trackedDials w) (connected w) (dq w) (dialsInFlight w) (startTime w) (dialTimer w) (w_out w) (w_dials w) (w_backoffs w).
Definition set_tracked (w : dialWorker) (m : gmap bytes addrDial) : dialWorker :=
  mkWorker (pendingRequests w) m (connected w) (dq w) (dialsInFlight w) (startTime w) (dialTimer w) (w_out w) (w_dials w) (w_backoffs w).
Definition set_dq (w : dialWorker) (q : dialQueue) : dialWorker :=
  mkWorker (pendingRequests w) (trackedDials w) (connected w) q (dialsInFlight w) (startTime w) (dialTimer w) (w_out w) (w_dials w) (w_backoffs w).
Definition set_flight (w : dialWorker) (n : Z) (l : list bytes) : dialWorker :=
  mkWorker (pendingRequests w) (trackedDials w) (connected w) (dq w) n (startTime w) (dialTimer w) (w_out w) l (w_backoffs w).
Definition set_timer (w : dialWorker) (t : option Z) : dialWorker :=
  mkWorker (pendingRequests w) (trackedDials w) (connected w) (dq w) (dialsInFlight w) (startTime w) t (w_out w) (w_dials w) (w_backoffs w).
Definition set_connected (w : dialWorker) : dialWorker :=
  mkWorker (pendingRequests w) (trackedDials w) true (dq w) (dialsInFlight w) (startTime w) (dialTimer w) (w_out w) (w_dials w) (w_backoffs w).
Definition add_backoff (w : dialWorker) (a : Multiaddr) : dialWorker :=
  mkWorker (pendingRequests w) (trackedDials w) (connected w) (dq w) (dialsInFlight w) (startTime w) (dialTimer w) (w_out w) (w_dials w) (w_backoffs w ++ [a]).
(** [req.resch <- resp] *)
Definition respond (w : dialWorker) (r : Request) (resp : dialResponse) : dialWorker :=
  mkWorker (pendingRequests w) (trackedDials w) (connected w) (dq w) (dialsInFlight w) (startTime w) (dialTimer w) (w_out w ++ [(r, resp)]) (w_dials w) (w_backoffs w).
Definition with_conn (ad : addrDial) (c : SConn) : addrDial := mkAddrDial (dl_addr ad) (dl_ctx ad) (Some c) (dl_err ad) (dl_dialed ad) (expectedTCPUpgradeTime ad).
Definition with_err (ad : addrDial) (e : dialErr) : addrDial := mkAddrDial (dl_addr ad) (dl_ctx ad) (dl_conn ad) (Some e) (dl_dialed ad) (expectedTCPUpgradeTime ad).
Definition with_ctx (ad : addrDial) (c : dialCtx) : addrDial := mkAddrDial (dl_addr ad) c (dl_conn ad) (dl_err ad) (dl_dialed ad) (expectedTCPUpgradeTime ad).
Definition with_dialed (ad : addrDial) : addrDial := mkAddrDial (dl_addr ad) (dl_ctx ad) (dl_conn ad) (dl_err ad) true (expectedTCPUpgradeTime ad).
Definition with_upgrade (ad : addrDial) (t : option Z) : addrDial := mkAddrDial (dl_addr ad) (dl_ctx ad) (dl_conn ad) (dl_err ad) (dl_dialed ad) t.
(** A write through the pointer [ad], if it is still tracked *)
Definition put_dial (w : dialWorker) (ad : addrDial) : dialWorker := set_tracked w (<[Bytes (dl_addr ad) := ad]> (trackedDials w)).

(** ** [scheduleNextDial] *)
Definition laterUpgrade (t : Z) (ad : addrDial) : Z :=
  match expectedTCPUpgradeTime ad with Some u => if t <? u then u else t | None => t end.
Definition scheduleNextDial (w : dialWorker) : dialWorker :=
  match dq w with
  | [] => set_timer w None
  | top :: _ =>
      if (dialsInFlight w =? 0) && negb (connected w) then set_timer w (Some (startTime w))
      else set_timer w (Some (foldl laterUpgrade (startTime w + ad_Delay top) (snd <$> map_to_list (trackedDials w))))
  end.

(** ** [dispatchError] *)
(** The order of a range over the pending requests, and [bestAcceptableConnToPeer] for a request *)
Record dispEnv := mkDispEnv { de_order : gset Request -> list Request; de_best : Request -> option SConn }.
Definition dispatchStep (e : dispEnv) (key : bytes) (addr : Multiaddr) (err : dialErr) (w : dialWorker) (r : Request) : dialWorker :=
  match pendingRequests w !! r with
  | None => w
  | Some pr =>
      if bool_decide (key ∈ pr_addrs pr) then
        let pr := mkPend (pr_ctx pr) (recordErr (pr_err pr) addr err) (pr_addrs pr ∖ {[key]}) in
        if bool_decide (pr_addrs pr = ∅) then
          let w := match de_best e r with
                   | Some c => respond w r (RespConn c)
                   | None => respond w r (RespErr (set_Cause (pr_err pr) ErrAllDialsFailed))
                   end in
          set_pending w (delete r (pendingRequests w))
        else set_pending w (<[r := pr]> (pendingRequests w))
      else w
  end.
Definition dispatchError (e : dispEnv) (w : dialWorker) (ad : addrDial) (err : dialErr) : dialWorker :=
  let key := Bytes (dl_addr ad) in
  let w := put_dial w (with_err ad err) in
  let w := foldl (dispatchStep e key (dl_addr ad) err) w (de_order e (dom (pendingRequests w))) in
  if bool_decide (err = ErrDialBackoff) then set_tracked w (delete key (trackedDials w)) else w.

(** ** A request *)
(** What the swarm answers: a connection there is already, or the addresses (with errors for others), or an error *)
Record reqEnv := mkReqEnv { re_best : option SConn; re_addrs : list Multiaddr + dialErr; re_errs : list (Multiaddr * dialErr) }.

Section worker.
Context (noDelay ranker : list Multiaddr -> list AddrDelay).
Definition rankAddrs (addrs : list Multiaddr) (isSimConnect : bool) : list AddrDelay := if isSimConnect then noDelay addrs else ranker addrs.

(** The loop over the ranking: a connection that ends the request, or the updated request with the addresses to dial and to join *)
Fixpoint sortOut (w : dialWorker) (pr : pendRequest) (l : list AddrDelay) : SConn + (pendRequest * list AddrDelay * list addrDial) :=
  match l with
  | [] => inr (pr, [], [])
  | x :: l =>
      match trackedDials w !! Bytes (ad_Addr x) with
      | None =>
          match sortOut w pr l with
          | inl c => inl c
          | inr (pr, todial, tojoin) => inr (pr, x :: todial, tojoin)
          end
      | Some ad =>
          match dl_conn ad with
          | Some c => inl c
          | None =>
              match dl_err ad with
              | Some e => sortOut w (mkPend (pr_ctx pr) (recordErr (pr_err pr) (dl_addr ad) e) (pr_addrs pr ∖ {[Bytes (dl_addr ad)]})) l
              | None =>
                  match sortOut w pr l with
                  | inl c => inl c
                  | inr (pr, todial, tojoin) => inr (pr, todial, ad :: tojoin)
                  end
              end
          end
      end
  end.
(** The delay of an address in the ranking *)
Definition delayOf (ranking : list AddrDelay) (key : bytes) : Z :=
  default 0 (ad_Delay <$> last (filter (fun x => Bytes (ad_Addr x) = key) ranking)).
Definition joinStep (ctx : dialCtx) (ranking : list AddrDelay) (w : dialWorker) (ad : addrDial) : dialWorker :=
  if negb (dl_dialed ad) && simConnect ctx && negb (simConnect (dl_ctx ad)) then
    let w := put_dial w (with_ctx ad (mkDialCtx true (forceDirect (dl_ctx ad)))) in
    set_dq w (dq_UpdateOrAdd (dq w) (mkAddrDelay (dl_addr ad) (delayOf ranking (Bytes (dl_addr ad)))))
  else w.
Definition todialStep (ctx : dialCtx) (ranking : list AddrDelay) (w : dialWorker) (x : AddrDelay) : dialWorker :=
  let a := ad_Addr x in
  let w := put_dial w (mkAddrDial a ctx None None false None) in
  set_dq w (dq_Add (dq w) (mkAddrDelay a (delayOf ranking (Bytes a)))).
Definition handleRequest (e : reqEnv) (w : dialWorker) (r : Request) (ctx : dialCtx) : dialWorker :=
  match re_best e with
  | Some c => respond w r (RespConn c)
  | None =>
      match re_addrs e with
      | inr err => respond w r (RespErr (mkDialError (re_errs e) (Some err) 0))
      | inl addrs =>
          let ranking := rankAddrs addrs (simConnect ctx) in
          let pr := mkPend ctx (mkDialError (re_errs e) None 0) (list_to_set ((fun x => Bytes (ad_Addr x)) <$> ranking)) in
          match sortOut w pr ranking with
          | inl c => respond w r (RespConn c)
          | inr (pr, [], []) => respond w r (RespErr (set_Cause (pr_err pr) ErrAllDialsFailed))
          | inr (pr, todial, tojoin) =>
              let w := set_pending w (<[r := pr]> (pendingRequests w)) in
              let w := foldl (joinStep ctx ranking) w tojoin in
              scheduleNextDial (foldl (todialStep ctx ranking) w todial)
          end
      end
  end.

(** ** The timer *)
(** [backoff]: the answers of [DialBackoff.Backoff] *)
Definition dialNextAddr (backoff : bytes -> bool) (ctx : dialCtx) (key : bytes) : option dialErr :=
  if negb (forceDirect ctx) && backoff key then Some ErrDialBackoff else None.
Definition dialStep (e : dispEnv) (backoff : bytes -> bool) (w : dialWorker) (x : AddrDelay) : dialWorker :=
  match trackedDials w !! Bytes (ad_Addr x) with
  | None => w
  | Some ad =>
      let ad := with_dialed ad in
      let w := put_dial w ad in
      match dialNextAddr backoff (dl_ctx ad) (Bytes (dl_addr ad)) with
      | Some err => dispatchError e w ad err
      | None => set_flight w (dialsInFlight w + 1) (w_dials w ++ [Bytes (dl_addr ad)])
      end
  end.
Definition handleTimer (e : dispEnv) (backoff : bytes -> bool) (w : dialWorker) : dialWorker :=
  let '(q, batch) := dq_NextBatch (dq w) in
  let w := foldl (dialStep e backoff) (set_dq w q) batch in
  scheduleNextDial (set_timer w None).

(** ** Results *)
(** [UpdateKindHandshakeProgressed] *)
Definition handleProgress (w : dialWorker) (now : Z) (addr : Multiaddr) : dialWorker :=
  match trackedDials w !! Bytes addr with
  | None => set_flight w (dialsInFlight w - 1) (w_dials w)
  | Some ad =>
      let w := if IsPublicAddr addr then put_dial w (with_upgrade ad (Some (now + PublicTCPDelay))) else w in
      scheduleNextDial w
  end.
(** The requests that wait for the address get the connection. *)
Definition completeStep (key : bytes) (c : SConn) (w : dialWorker) (r : Request) : dialWorker :=
  match pendingRequests w !! r with
  | Some pr =>
      if bool_decide (key ∈ pr_addrs pr) then let w := respond w r (RespConn c) in set_pending w (delete r (pendingRequests w)) else w
  | None => w
  end.
(** A dial ends with a connection, which the swarm accepts ([Some]) or not, or with an error. *)
Inductive dialResult := DialedConn (added : SConn + dialErr) | DialFailed (err : dialErr).
Definition handleResult (e : dispEnv) (w : dialWorker) (addr : Multiaddr) (res : dialResult) : dialWorker :=
  match trackedDials w !! Bytes addr with
  | None => set_flight w (dialsInFlight w - 1) (w_dials w)
  | Some ad =>
      let ad := with_upgrade ad None in
      let w := put_dial (set_flight w (dialsInFlight w - 1) (w_dials w)) ad in
      match res with
      | DialedConn (inr err) => dispatchError e w ad err
      | DialedConn (inl conn) =>
          let w := foldl (completeStep (Bytes (dl_addr ad)) conn) w (de_order e (dom (pendingRequests w))) in
          set_connected (put_dial w (with_conn ad conn))
      | DialFailed err =>
          let w := if negb (bool_decide (err = ErrContextCanceled)) && negb (connected w) then add_backoff w addr else w in
          scheduleNextDial (dispatchError e w ad err)
      end
  end.
End worker.
