(* ===== verification/SwarmDial.v ===== *)
(** * The addresses to dial (p2p/net/swarm/swarm_dial.go, swarm_transport.go)

    The addresses that the peer store knows are resolved, made unique and filtered.
    Transports, the connection gater and the DNS resolver are behind interfaces;
    [DNSResolverLaws] is what the swarm relies on, and go-multiaddr-dns provides it. *)
From Stdlib Require Import ZArith Lia.
From stdpp Require Import base tactics list numbers option gmap sets sorting strings.
From S2P Require Import Prelude Collections GoBytes Varint MaProtocol MaComponent MaCodec MaOps GoNet MaProtocols Manet Madns DialLimiter DialRank DialWorker.
Local Open Scope Z_scope.
Local Open Scope outcome_scope.

Definition maximumResolvedAddresses : Z := 100.
Definition maximumDNSADDRRecursion : nat := 4.

(** ** Transports *)
(** A transport; [SkipResolve] and [TptResolve] are there if it implements [SkipResolver] and [Resolver]. *)
Record Transport := mkTransport {
  CanDial : Multiaddr -> bool; Proxy : bool;
  SkipResolve : option (Multiaddr -> bool); TptResolve : option (Multiaddr -> option (list Multiaddr)) }.
Definition dropP2P (a : Multiaddr) : Multiaddr :=
  match IDFromP2PAddr a with
  | Some id => if bool_decide (id = []) then a else (SplitLast a).1
  | None => a
  end.
(** [transports] is the map, in the order in which it is ranged over. *)
Definition TransportForDialing (transports : list (Z * Transport)) (a : Multiaddr) : option Transport :=
  match a with
  | [] => None
  | _ =>
      if DialLimiter.isRelayAddr a then snd <$> head (filter (fun ct => ct.1 = P_CIRCUIT) transports)
      else
        match dropP2P a with
        | [] => None
        | a => head (filter (fun t => CanDial t a = true) (snd <$> transports))
        end
  end.

(** ** The DNS resolver *)
Class MultiaddrDNSResolver := {
  resolveDNSAddr : bytes -> Multiaddr -> nat -> Z -> option (list Multiaddr);
  resolveDNSComponent : Multiaddr -> Z -> option (list Multiaddr) }.
(** It returns no more addresses than it is asked for. *)
Class DNSResolverLaws (D : MultiaddrDNSResolver) : Prop := {
  resolveDNSAddr_limit p a n limit l : 0 < limit -> resolveDNSAddr p a n limit = Some l -> Z.of_nat (length l) <= limit;
  resolveDNSComponent_limit a limit l : 0 < limit -> resolveDNSComponent a limit = Some l -> Z.of_nat (length l) <= limit }.
Definition fromOutcome {E A} (o : outcome E A) : option A := match o with Ok a => Some a | _ => None end.
(** [ResolverFromMaDNS] *)
Definition ResolverFromMaDNS `{V : Varint} (r : registry) (Fqdn : bytes -> bytes) (rs : Resolver) : MultiaddrDNSResolver := {|
  resolveDNSAddr p a n limit := fromOutcome (ResolveDNSAddr r Fqdn rs p n a limit);
  resolveDNSComponent a limit := fromOutcome (ResolveDNSComponent r Fqdn rs a limit) |}.
#[export] Instance ResolverFromMaDNS_laws `{V : Varint} r Fqdn rs : DNSResolverLaws (ResolverFromMaDNS r Fqdn rs).
Proof.
  split; simpl.
  - intros p a n limit l Hl. destruct (ResolveDNSAddr r Fqdn rs p n a limit) as [l'| | |] eqn:E; try done. intros [= <-].
    apply ResolveDNSAddr_ok in E as [H _]. lia.
  - intros a limit l Hl. unfold ResolveDNSComponent. destruct (Resolve r Fqdn rs a) as [l'| | |]; try done. intros [= <-]. pose proof (cut_length limit l'). lia.
Qed.

(** ** Chains of resolvers *)
(** A resolver; the list that it passes on holds the addresses that [skipResolver] has set aside. *)
Record resolver := mkRes { canResolve : Multiaddr -> bool; resolve : list Multiaddr -> Multiaddr -> Z -> list Multiaddr * option (list Multiaddr) }.
(** The addresses so far, the errors and the addresses set aside *)
Record chainState := mkChain { nextAddrs : list Multiaddr; chainErrs : list Multiaddr; skipped : list Multiaddr }.
Fixpoint chainPass (limit : Z) (r : resolver) (addrs : list Multiaddr) (st : chainState) : chainState :=
  match addrs with
  | [] => st
  | a :: addrs =>
      if negb (canResolve r a) then chainPass limit r addrs (mkChain (nextAddrs st ++ [a]) (chainErrs st) (skipped st))
      else if limit <=? Z.of_nat (length (nextAddrs st)) then mkChain (take (Z.to_nat limit) (nextAddrs st)) (chainErrs st) (skipped st)
      else
        match resolve r (skipped st) a (limit - Z.of_nat (length (nextAddrs st))) with
        | (sk, None) => chainPass limit r addrs (mkChain (nextAddrs st) (chainErrs st ++ [a]) sk)
        | (sk, Some next) => chainPass limit r addrs (mkChain (nextAddrs st ++ next) (chainErrs st) sk)
        end
  end.
Definition chainStep (limit : Z) (st : chainState) (r : resolver) : chainState := chainPass limit r (nextAddrs st) (mkChain [] (chainErrs st) (skipped st)).
(** [chainResolvers]; [nextAddrs] of the result are the addresses *)
Definition chainResolvers (addrs : list Multiaddr) (limit : Z) (resolvers : list resolver) : chainState :=
  foldl (chainStep limit) (mkChain addrs [] []) resolvers.

Definition startsWithDNSComponent (m : Multiaddr) : bool :=
  match m with c :: _ => (protoCode c =? P_DNS) || (protoCode c =? P_DNS4) || (protoCode c =? P_DNS6) | [] => false end.
Definition stripP2PComponent (addrs : list Multiaddr) : list Multiaddr := dropP2P <$> addrs.

Section swarm.
Context {D : MultiaddrDNSResolver} (transports : list (Z * Transport)).
Definition tptHas {A} (f : Transport -> option A) (a : Multiaddr) : option A := TransportForDialing transports a ≫= f.
Definition dnsAddrResolver (p : bytes) : resolver :=
  mkRes startsWithDNSADDR (fun sk a limit => (sk, resolveDNSAddr p a maximumDNSADDRRecursion limit)).
Definition skipResolver : resolver :=
  mkRes (fun a => match tptHas SkipResolve a with Some _ => true | None => false end)
    (fun sk a _ => match tptHas SkipResolve a with
                   | None => (sk, Some [a])
                   | Some skip => if skip a then (sk ++ [a], Some []) else (sk, Some [a])
                   end).
Definition tptResolver : resolver :=
  mkRes (fun a => match tptHas TptResolve a with Some _ => true | None => false end)
    (fun sk a limit => match tptHas TptResolve a with
                       | None => (sk, Some [a])
                       | Some res => (sk, cut limit <$> res a)
                       end).
Definition dnsResolver : resolver := mkRes startsWithDNSComponent (fun sk a limit => (sk, resolveDNSComponent a limit)).
Definition resolveAddrs (p : bytes) (addrs : list Multiaddr) : list Multiaddr :=
  let st := chainResolvers addrs maximumResolvedAddresses [dnsAddrResolver p; skipResolver; tptResolver; dnsResolver] in
  stripP2PComponent (nextAddrs st ++ skipped st).

(** ** Filters *)
Abbreviation TransportError := (Multiaddr * dialErr)%type.
(** A filter drops an address, with an error or without *)
Abbreviation addrFilter := (Multiaddr -> option (option dialErr)).
(** The first filter of [FilterAddrs] that drops the address *)
Fixpoint firstDrop (filters : list addrFilter) (a : Multiaddr) : option (option dialErr) :=
  match filters with
  | [] => None
  | f :: filters => match f a with Some d => Some d | None => firstDrop filters a end
  end.
Fixpoint filterWith (filters : list addrFilter) (addrs : list Multiaddr) : list Multiaddr * list TransportError :=
  match addrs with
  | [] => ([], [])
  | a :: addrs =>
      let '(good, errs) := filterWith filters addrs in
      match firstDrop filters a with
      | None => (a :: good, errs)
      | Some None => (good, errs)
      | Some (Some e) => (good, (a, e) :: errs)
      end
  end.
(** [quicDraft29]: the matcher of the package mafmt; [allowAddr]: the gater; [lisAddrs]: [InterfaceListenAddresses] *)
Context (quicDraft29 : Multiaddr -> bool) (allowAddr : bytes -> Multiaddr -> bool).
Definition ourAddrs (lisAddrs : list Multiaddr) : list Multiaddr :=
  filter (fun a => match a with c :: _ => (protoCode c =? P_IP4) || (protoCode c =? P_IP6) | [] => false end = true) lisAddrs.
Definition noTransport : addrFilter := fun a =>
  match TransportForDialing transports a with
  | None => Some (Some (if quicDraft29 a then ErrQUICDraft29 else ErrNoTransport))
  | Some _ => None
  end.
Definition undialable (lisAddrs : list Multiaddr) (p : bytes) : list addrFilter := [
  fun a => if IsIPUnspecified a then Some None else None;
  fun a => if Contains (ourAddrs lisAddrs) a then Some (Some ErrDialToSelf) else None;
  fun a => if IsIP6LinkLocal a then Some None else None;
  fun a => if negb (allowAddr p a) then Some (Some ErrGaterDisallowedConnection) else None ].
Definition filterKnownUndialables (lisAddrs : list Multiaddr) (p : bytes) (addrs : list Multiaddr) : list Multiaddr * list TransportError :=
  let '(addrs, errs) := filterWith [noTransport] addrs in
  let '(good, errs') := filterWith (undialable lisAddrs p) (filterLowPriorityAddresses addrs) in
  (good, errs ++ errs').
(** The method of a nil transport panics *)
Definition nonProxyAddr (a : Multiaddr) : outcome dialErr bool := match TransportForDialing transports a with Some t => Ok (negb (Proxy t)) | None => Panic end.
Fixpoint filterNonProxy (addrs : list Multiaddr) : outcome dialErr (list Multiaddr) :=
  match addrs with
  | [] => Ok []
  | a :: addrs => let! keep := nonProxyAddr a in let! good := filterNonProxy addrs in Ok (if keep : bool then a :: good else good)
  end.
Definition CanDial_ (lisAddrs : list Multiaddr) (p : bytes) (a : Multiaddr) : bool :=
  match (filterKnownUndialables lisAddrs p [a]).1 with [] => false | _ => true end.
(** [peerAddrs]: the addresses of the peer store.  The result, and what is added to the peer store *)
Definition addrsForDial `{Sorter} (lisAddrs peerAddrs : list Multiaddr) (p : bytes) (forceDirect : bool)
    : outcome dialErr ((list Multiaddr + dialErr) * list TransportError * list Multiaddr) :=
  match peerAddrs with
  | [] => Ok (inr ErrNoAddresses, [], [])
  | _ =>
      let '(goodAddrs, addrErrs) := filterKnownUndialables lisAddrs p (Unique (resolveAddrs p peerAddrs)) in
      let! goodAddrs := if forceDirect then filterNonProxy goodAddrs else Ok goodAddrs in
      match goodAddrs with
      | [] => Ok (inr ErrNoGoodAddresses, addrErrs, [])
      | _ => Ok (inl goodAddrs, addrErrs, goodAddrs)
      end
  end.
End swarm.

(** ** The chain is bounded *)
Section laws.
Context {D : MultiaddrDNSResolver} {DL : DNSResolverLaws D} (transports : list (Z * Transport)).
(** A resolver returns no more than asked for, and sets aside at most the address it is given. *)
Definition resolverOk (r : resolver) : Prop := forall sk a limit, 0 < limit ->
  (length (resolve r sk a limit).1 <= S (length sk))%nat /\
  forall l, (resolve r sk a limit).2 = Some l -> Z.of_nat (length l) <= limit.
Lemma chainPass_ok limit r addrs : resolverOk r -> 0 <= limit -> forall st k, (length (skipped st) <= k)%nat ->
  Z.of_nat (length (nextAddrs st) + length (skipped st)) <= limit + Z.of_nat k ->
  Z.of_nat (length (nextAddrs (chainPass limit r addrs st)) + length (skipped (chainPass limit r addrs st))) <= limit + Z.of_nat (k + length addrs).
Proof.
  intros Hr Hl. induction addrs as [|a addrs IH]; intros st k Hs H; [simpl; lia|]. cbn [chainPass length].
  replace (k + S (length addrs))%nat with (S k + length addrs)%nat by lia.
  destruct (canResolve r a); cbn [negb]; [|apply IH; simpl; rewrite ?length_app; simpl; lia].
  destruct (limit <=? _) eqn:E; [cbn [nextAddrs skipped]; rewrite length_take; lia|].
  destruct (Hr (skipped st) a (limit - Z.of_nat (length (nextAddrs st))) ltac:(lia)) as [H1 H2].
  destruct (resolve r _ _ _) as [sk [l|]]; simpl in H1, H2; apply IH; simpl; rewrite ?length_app; try specialize (H2 _ eq_refl); lia.
Qed.
Lemma chain_ok limit rs addrs : Forall resolverOk rs -> 0 <= limit ->
  let st := chainResolvers addrs limit rs in
  Z.of_nat (length (nextAddrs st) + length (skipped st)) <= limit * Z.of_nat (length rs) + Z.of_nat (length addrs).
Proof.
  intros Hrs Hl. unfold chainResolvers. assert (G : forall st, let st' := foldl (chainStep limit) st rs in
    Z.of_nat (length (nextAddrs st') + length (skipped st')) <= limit * Z.of_nat (length rs) + Z.of_nat (length (nextAddrs st) + length (skipped st))).
  { induction Hrs as [|r rs Hr _ IH]; intros st; cbn [foldl length]; [lia|]. specialize (IH (chainStep limit st r)). simpl in IH.
    pose proof (chainPass_ok limit r (nextAddrs st) Hr Hl (mkChain [] (chainErrs st) (skipped st)) (length (skipped st)) ltac:(simpl; lia) ltac:(simpl; lia)).
    unfold chainStep in *. lia. }
  specialize (G (mkChain addrs [] [])). simpl in G. lia.
Qed.
Lemma resolvers_ok p : Forall resolverOk [dnsAddrResolver p; skipResolver transports; tptResolver transports; dnsResolver].
Proof.
  repeat (apply Forall_cons; split); [..|constructor]; intros sk a limit Hl; simpl.
  - split; [lia|]. intros l. by apply resolveDNSAddr_limit.
  - destruct (tptHas _ _ _) as [skip|]; [destruct (skip a)|]; simpl; rewrite ?length_app; simpl; (split; [lia|intros l [= <-]; simpl; lia]).
  - destruct (tptHas _ _ _) as [res|]; simpl; (split; [lia|]); [|intros l [= <-]; simpl; lia]. intros l. destruct (res a) as [l'|]; [|done]. intros [= <-].
    pose proof (cut_length limit l'). lia.
  - split; [lia|]. intros l. by apply resolveDNSComponent_limit.
Qed.
(** Resolving the addresses of a peer is bounded: the number of addresses grows by at most 100 for each of the four
    resolvers, whatever the DNS answers. *)
Theorem resolved_addresses_bounded p addrs : Z.of_nat (length (resolveAddrs transports p addrs)) <= 4 * maximumResolvedAddresses + Z.of_nat (length addrs).
Proof.
  unfold resolveAddrs, stripP2PComponent. rewrite length_fmap, length_app.
  pose proof (chain_ok maximumResolvedAddresses _ addrs (resolvers_ok p) ltac:(done)) as H. simpl in H. simpl. unfold maximumResolvedAddresses in *. lia.
Qed.

(** ** What is dialled *)
Context (quicDraft29 : Multiaddr -> bool) (allowAddr : bytes -> Multiaddr -> bool).
Lemma filterWith_ok fs addrs : (filterWith fs addrs).1 `sublist_of` addrs /\ Forall (fun a => firstDrop fs a = None) (filterWith fs addrs).1 /\
  (forall a, a ∈ addrs -> firstDrop fs a = None -> a ∈ (filterWith fs addrs).1).
Proof.
  induction addrs as [|a addrs (I1 & I2 & I3)]; simpl; [split_and!; [constructor|constructor|by intros a ?%elem_of_nil]|].
  destruct (filterWith fs addrs) as [good errs]. simpl in *. destruct (firstDrop fs a) as [[e|]|] eqn:E; simpl; split_and!; try done.
  1,3: by constructor.
  1,2: intros a' [->|Ha]%elem_of_cons; [congruence|auto].
  - by constructor.
  - by constructor.
  - intros a' [->|Ha]%elem_of_cons; [set_solver|intros; right; auto].
Qed.
Definition dialable (lisAddrs : list Multiaddr) (p : bytes) (a : Multiaddr) : Prop :=
  is_Some (TransportForDialing transports a) /\ IsIPUnspecified a = false /\ Contains (ourAddrs lisAddrs) a = false /\
  IsIP6LinkLocal a = false /\ allowAddr p a = true.
Lemma filterKnownUndialables_ok lisAddrs p addrs :
  let good := (filterKnownUndialables transports quicDraft29 allowAddr lisAddrs p addrs).1 in
  good `sublist_of` addrs /\ Forall (dialable lisAddrs p) good.
Proof.
  unfold filterKnownUndialables. destruct (filterWith_ok [noTransport transports quicDraft29] addrs) as (A1 & A2 & _).
  destruct (filterWith [noTransport transports quicDraft29] addrs) as [a1 e1]. simpl in A1, A2.
  destruct (filterWith_ok (undialable allowAddr lisAddrs p) (filterLowPriorityAddresses a1)) as (B1 & B2 & _).
  assert (L : filterLowPriorityAddresses a1 `sublist_of` a1).
  { unfold filterLowPriorityAddresses. destruct (foldl _ _ _). apply sublist_filter. }
  destruct (filterWith (undialable _ _ _) _) as [a2 e2]. simpl in *. split; [by repeat (etransitivity; [done|])|].
  rewrite Forall_forall in *. intros a Ha. assert (Ha1 : a ∈ a1) by (apply (sublist_subseteq _ _ L), (sublist_subseteq _ _ B1), Ha).
  specialize (A2 a Ha1). specialize (B2 a Ha). unfold noTransport in A2. unfold dialable.
  destruct (TransportForDialing transports a); [|done]. destruct (IsIPUnspecified a); [done|]. destruct (Contains _ a); [done|].
  destruct (IsIP6LinkLocal a); [done|]. by destruct (allowAddr p a).
Qed.
Lemma filterNonProxy_ok addrs : Forall (fun a => is_Some (TransportForDialing transports a)) addrs ->
  exists good, filterNonProxy transports addrs = Ok good /\ good `sublist_of` addrs /\
    Forall (fun a => exists t, TransportForDialing transports a = Some t /\ Proxy t = false) good.
Proof.
  induction 1 as [|a addrs [t Ht] _ (good & E & I1 & I2)]; [by exists []|]. cbn [filterNonProxy]. unfold nonProxyAddr. rewrite Ht, E. cbn [obind].
  destruct (Proxy t) eqn:Et; cbn [negb]; eexists; (split; [done|]); (split; [by constructor|]); [done|]. constructor; [by exists t|done].
Qed.
Lemma sublist_sorted (l l' : list Multiaddr) : l `sublist_of` l' -> StronglySorted maLt l' -> StronglySorted maLt l.
Proof.
  induction 1 as [|x l l' Hs IH|x l l' Hs IH]; [done|..]; intros [Hl Hx]%StronglySorted_inv; [|auto].
  constructor; [auto|]. rewrite Forall_forall in *. intros y Hy. apply Hx. by apply (sublist_subseteq _ _ Hs).
Qed.

(** The addresses for a dial are resolved addresses of the peer, each at most once, that can be dialled: a transport
    accepts them, they are not unspecified, not our own and not link-local, the gater lets them pass, and for a direct dial
    the transport is no proxy.  The function never panics, and it fails exactly if no address is known or none is left; the
    peer store is told of the addresses that are returned. *)
Theorem addrs_for_dial_dialable {S : Sorter} {SL : SorterLaws S} lisAddrs peerAddrs p fd :
  exists res errs added, addrsForDial transports quicDraft29 allowAddr lisAddrs peerAddrs p fd = Ok (res, errs, added) /\
  match res with
  | inl good => added = good /\ good <> [] /\ StronglySorted maLt good /\ Forall (dialable lisAddrs p) good /\
      (forall a, a ∈ good -> a ∈ resolveAddrs transports p peerAddrs) /\
      (fd = true -> Forall (fun a => exists t, TransportForDialing transports a = Some t /\ Proxy t = false) good)
  | inr e => added = [] /\ (peerAddrs = [] /\ e = ErrNoAddresses \/ peerAddrs <> [] /\ e = ErrNoGoodAddresses)
  end.
Proof.
  unfold addrsForDial. destruct peerAddrs as [|a0 pa] eqn:Ep; [do 3 eexists; split; [done|]; simpl; tauto|]. rewrite <-Ep. assert (Hne : peerAddrs <> []) by congruence.
  destruct (Unique_spec (resolveAddrs transports p peerAddrs)) as (U1 & U2 & _).
  destruct (filterKnownUndialables_ok lisAddrs p (Unique (resolveAddrs transports p peerAddrs))) as [F1 F2].
  destruct (filterKnownUndialables _ _ _ _ _ _) as [good errs]. simpl in F1, F2.
  assert (G : exists good', (if fd then filterNonProxy transports good else Ok good) = Ok good' /\ good' `sublist_of` good /\
    (fd = true -> Forall (fun a => exists t, TransportForDialing transports a = Some t /\ Proxy t = false) good')).
  { destruct fd; [|by exists good]. destruct (filterNonProxy_ok good) as (g & E1 & E2 & E3); [|by exists g].
    eapply Forall_impl; [exact F2|]. by intros a [? _]. }
  destruct G as (gl & -> & G1 & G2). simpl. destruct gl as [|g0 g] eqn:Eg; do 3 eexists; (split; [done|]); simpl.
  - split; [done|]. right. by subst.
  - rewrite <-Eg in *. split_and!; [done|by subst| | | |done].
    + eapply sublist_sorted; [|exact U1]. by etransitivity.
    + rewrite Forall_forall in *. intros a Ha. apply F2. by apply (sublist_subseteq _ _ G1).
    + intros a Ha. apply U2, (sublist_subseteq _ _ F1), (sublist_subseteq _ _ G1), Ha.
Qed.

(** Different well-formed addresses have different bytes: the worker is given no address twice. *)
Lemma sorted_bytes_nodup `{VL : VarintLaws} {R : Transcoders.Runtime} {M : Transcoders.Multiformats} (l : list Multiaddr) :
  StronglySorted maLt l -> Forall (wf_multiaddr standard) l -> NoDup (Bytes <$> l).
Proof.
  intros H W. induction H as [|a l _ IH Ha]; [constructor|]. apply Forall_cons in W as [Wa W]. rewrite fmap_cons. constructor; [|auto].
  intros (b & E & Hb)%list_elem_of_fmap. rewrite Forall_forall in Ha, W. specialize (Ha b Hb). specialize (W b Hb).
  destruct init_standard as (_ & _ & Hok & Hstd).
  pose proof (NewMultiaddrBytes_Bytes standard Hok a Hstd Wa) as Ea. pose proof (NewMultiaddrBytes_Bytes standard Hok b Hstd W) as Eb.
  rewrite E, Eb in Ea. injection Ea as ->. unfold maLt in Ha. pose proof (proj2 (Compare_zero a a) (Equal_refl a)). lia.
Qed.
End laws.

Module SwarmDialExample.
Definition sip (b : Byte.byte) : Component := mkComponent [Byte.x04; Byte.x05; Byte.x01; Byte.x01; b] (Some (@protoIP4 unsignedVarint)) 1.
Definition stcp (p : Byte.byte) : Component := mkComponent [Byte.x06; Byte.x0f; p] (Some (@protoTCP unsignedVarint)) 1.
Definition sdns : Component := mkComponent [Byte.x35; Byte.x01; Byte.x61] (Some (@protoDNS unsignedVarint)) 2.
Definition plain : Multiaddr := [sip Byte.x01; stcp Byte.xa1].
Definition named : Multiaddr := [sdns; stcp Byte.xa1].
Definition listening : Multiaddr := [sip Byte.x02; stcp Byte.xa1].
(** As many addresses as are asked for *)
#[export] Instance generous : MultiaddrDNSResolver := {|
  resolveDNSAddr _ _ _ limit := Some (replicate (Z.to_nat limit) plain);
  resolveDNSComponent _ limit := Some (replicate (Z.to_nat limit) plain) |}.
#[export] Instance generous_laws : DNSResolverLaws generous.
Proof. split; simpl; intros; simplify_eq; rewrite length_replicate; lia. Qed.
Definition tcpTransport : Transport := mkTransport (fun a => isProtocolAddr a P_TCP) false None None.
Definition tpts : list (Z * Transport) := [(P_TCP, tcpTransport)].
Definition allowAll (_ : bytes) (_ : Multiaddr) : bool := true.
Definition noMatch (_ : Multiaddr) : bool := false.
End SwarmDialExample.
Import SwarmDialExample.

(** The limit on the resolved addresses of a peer is not kept: addresses that need no resolution are added without a look at it. *)
Lemma maximum_exceeded : Z.of_nat (length (resolveAddrs tpts [] [named; plain])) = maximumResolvedAddresses + 1.
Proof. by vm_compute. Qed.
Lemma resolved_addresses_bounded_witness : Z.of_nat (length (resolveAddrs tpts [] [named; plain])) <= 402.
Proof. exact (resolved_addresses_bounded (D := generous) tpts [] [named; plain]). Defined.
(** Of a peer at a name and our own address, one address is left. *)
Definition goodOf (o : outcome dialErr ((list Multiaddr + dialErr) * list (Multiaddr * dialErr) * list Multiaddr)) : list bytes :=
  match o with Ok (inl good, _, _) => Bytes <$> good | _ => [] end.
Lemma addrs_for_dial_dialable_witness :
  goodOf (addrsForDial (H := mergeSorter) tpts noMatch allowAll [listening] [named; listening] [] false) = [Bytes plain] /\
  exists res errs added, addrsForDial (H := mergeSorter) tpts noMatch allowAll [listening] [named; listening] [] false = Ok (res, errs, added).
Proof.
  split; [vm_compute; reflexivity|].
  destruct (addrs_for_dial_dialable (D := generous) tpts noMatch allowAll (S := mergeSorter) [listening] [named; listening] [] false) as (res & errs & added & H & _).
  exists res, errs, added. exact H.
Defined.
