(* ===== verification/DialWorkerRun.v ===== *)
(** * What the dial worker keeps

    Every address is in the queue, in flight or finished; a request waits for
    addresses that are not finished; and every request that has been received
    waits or has been answered once. *)
From Stdlib Require Import ZArith Lia.
From stdpp Require Import base tactics list numbers option gmap sets fin_maps sorting relations.
From S2P Require Import Prelude Collections GoBytes Varint MaProtocol MaComponent MaCodec MaOps GoNet MaProtocols BlsRpc Manet DialRank DialRankLaws DialWorker.
Local Open Scope Z_scope.

Definition live (ad : addrDial) : Prop := dl_conn ad = None /\ dl_err ad = None.
Definition waitsFor (w : dialWorker) (k : bytes) : Prop := exists ad, trackedDials w !! k = Some ad /\ live ad.

(** ** Requests and responses *)
Record answered (seen : gset Request) (w : dialWorker) : Prop := {
  an_once : NoDup (fst <$> w_out w);
  an_apart r : r ∈ fst <$> w_out w -> pendingRequests w !! r = None;
  an_seen : seen = dom (pendingRequests w) ∪ list_to_set (fst <$> w_out w) }.

(** The rest of the state *)
Definition rest_of (w : dialWorker) : dialWorker :=
  mkWorker ∅ (trackedDials w) (connected w) (dq w) (dialsInFlight w) (startTime w) (dialTimer w) [] (w_dials w) (w_backoffs w).
(** Requests are answered or wait for less; those in [l] no longer for [k]. *)
Record shrinks (k : bytes) (l : list Request) (w w' : dialWorker) : Prop := {
  sh_rest : rest_of w' = rest_of w;
  sh_answered seen : answered seen w -> answered seen w';
  sh_pending r pr : pendingRequests w' !! r = Some pr -> exists pr0, pendingRequests w !! r = Some pr0 /\
    pr_addrs pr ⊆ pr_addrs pr0 /\ (pr_addrs pr0 <> ∅ -> pr_addrs pr <> ∅) /\ (r ∈ l -> k ∉ pr_addrs pr) }.

Lemma answer_request seen w r resp : answered seen w -> is_Some (pendingRequests w !! r) ->
  answered seen (set_pending (respond w r resp) (delete r (pendingRequests w))).
Proof.
  intros [A1 A2 A3] [pr Hr]. split; simpl.
  - rewrite fmap_app. apply NoDup_app. split_and!; [done| |apply NoDup_singleton]. intros r' Hr' ->%list_elem_of_singleton.
    rewrite (A2 r Hr') in Hr. done.
  - intros r'. rewrite fmap_app. intros [H| ->%list_elem_of_singleton]%elem_of_app; [|apply lookup_delete_eq].
    apply lookup_delete_None. right. by apply A2.
  - rewrite A3, fmap_app, list_to_set_app_L, dom_delete_L. simpl. assert (r ∈ dom (pendingRequests w)) by (apply elem_of_dom; eauto).
    set_unfold. intros x. destruct (decide (x = r)); naive_solver.
Qed.
(** The two loops over the pending requests *)
Lemma dispatchStep_shrinks e k addr err w r : shrinks k [r] w (dispatchStep e k addr err w r).
Proof.
  unfold dispatchStep. destruct (pendingRequests w !! r) as [pr|] eqn:Hr.
  2:{ split; [done|done|]. intros r' pr' H. exists pr'. split_and!; [done|done|done|]. intros ->%list_elem_of_singleton. congruence. }
  case_bool_decide as Hk.
  2:{ split; [done|done|]. intros r' pr' H. exists pr'. split_and!; [done|done|done|]. intros ->%list_elem_of_singleton. congruence. }
  simpl. case_bool_decide as Hne.
  - split; [by destruct (de_best e r)| |].
    + intros seen A. destruct (de_best e r); by apply (answer_request seen w r _ A).
    + intros r' pr' H. assert (H' : delete r (pendingRequests w) !! r' = Some pr') by (destruct (de_best e r); exact H).
      apply lookup_delete_Some in H' as [Hn Hl]. exists pr'. split_and!; [done|done|done|]. intros ->%list_elem_of_singleton. done.
  - split; [done| |].
    + intros seen [A1 A2 A3]. split; simpl; [done| |].
      * intros r' H. rewrite lookup_insert_ne; [by apply A2|]. intros <-. rewrite A2 in Hr by done. done.
      * rewrite A3, dom_insert_L. assert (r ∈ dom (pendingRequests w)) by (apply elem_of_dom; eauto). set_solver.
    + intros r' pr'. simpl. destruct (decide (r' = r)) as [->|Hn].
      * rewrite lookup_insert_eq. intros [= <-]. simpl. exists pr. split_and!; [done|set_solver|done|set_solver].
      * rewrite lookup_insert_ne by done. intros H. exists pr'. split_and!; [done|done|done|]. by intros ->%list_elem_of_singleton.
Qed.
Lemma completeStep_shrinks k c w r : shrinks k [r] w (completeStep k c w r).
Proof.
  unfold completeStep. destruct (pendingRequests w !! r) as [pr|] eqn:Hr.
  2:{ split; [done|done|]. intros r' pr' H. exists pr'. split_and!; [done|done|done|]. intros ->%list_elem_of_singleton. congruence. }
  case_bool_decide as Hk.
  2:{ split; [done|done|]. intros r' pr' H. exists pr'. split_and!; [done|done|done|]. intros ->%list_elem_of_singleton. congruence. }
  split; [done|intros seen A; exact (answer_request seen w r (RespConn c) A (mk_is_Some _ _ Hr))|]. intros r' pr' H. simpl in H. apply lookup_delete_Some in H as [Hn Hl]. exists pr'. split_and!; [done|done|done|].
  by intros ->%list_elem_of_singleton.
Qed.
Lemma shrinks_loop k (f : dialWorker -> Request -> dialWorker) (Hf : forall w r, shrinks k [r] w (f w r)) l : forall w, shrinks k l w (foldl f w l).
Proof.
  induction l as [|r l IH]; intros w.
  { split; [done|done|]. intros r pr H. exists pr. split_and!; [done|done|done|]. intros H0. by apply elem_of_nil in H0. }
  simpl. destruct (Hf w r) as [R1 A1 P1], (IH (f w r)) as [R2 A2 P2]. split; [congruence|auto|].
  intros r' pr (pr1 & H1 & S1 & N1 & K1)%P2. destruct (P1 _ _ H1) as (pr0 & H0 & S0 & N0 & K0). exists pr0.
  split_and!; [done|set_solver|auto|]. intros [->|Hl]%elem_of_cons; [|auto]. specialize (K0 ltac:(set_solver)). set_solver.
Qed.

(** ** The invariant *)
(** [b] is the part of the batch that is still to be dialled, [fl] what is in flight. *)
Record coreOk (w : dialWorker) (fl : list bytes) (b : list AddrDelay) (seen : gset Request) : Prop := {
  co_sorted : qSorted (dq w);
  co_queue : NoDup (akey <$> b ++ dq w);
  co_queued x : x ∈ b ++ dq w -> exists ad, trackedDials w !! akey x = Some ad /\ dl_dialed ad = false /\ dl_addr ad = ad_Addr x /\ live ad;
  co_tracked k ad : trackedDials w !! k = Some ad -> Bytes (dl_addr ad) = k /\
    (dl_dialed ad = false -> k ∈ akey <$> b ++ dq w) /\ (dl_dialed ad = true -> live ad -> k ∈ fl);
  co_flight : NoDup fl;
  co_flying k : k ∈ fl -> k ∈ w_dials w /\ exists ad, trackedDials w !! k = Some ad /\ dl_dialed ad = true /\ live ad;
  co_count : dialsInFlight w = Z.of_nat (length fl);
  co_dials : NoDup (w_dials w);
  co_dialed k : k ∈ w_dials w -> exists ad, trackedDials w !! k = Some ad /\ dl_dialed ad = true;
  co_pending r pr : pendingRequests w !! r = Some pr -> pr_addrs pr <> ∅ /\ forall k, k ∈ pr_addrs pr -> waitsFor w k;
  co_answered : answered seen w }.

(** A live address is queued or in flight. *)
Lemma live_somewhere w fl b seen k : coreOk w fl b seen -> waitsFor w k -> k ∈ akey <$> b ++ dq w \/ k ∈ fl.
Proof.
  intros O (ad & Hk & Hl). destruct (co_tracked _ _ _ _ O k ad Hk) as (_ & H1 & H2). destruct (dl_dialed ad); [right|left]; auto.
Qed.
Lemma queued_not_dialed w fl b seen x : coreOk w fl b seen -> x ∈ b ++ dq w -> akey x ∉ w_dials w.
Proof. intros O Hx Hd. destruct (co_queued _ _ _ _ O x Hx) as (ad & H1 & H2 & _), (co_dialed _ _ _ _ O _ Hd) as (ad' & H3 & H4). congruence. Qed.

Lemma shrinks_pending k w w' fl b seen r pr : coreOk w fl b seen -> shrinks k (elements (dom (pendingRequests w))) w w' ->
  pendingRequests w' !! r = Some pr -> pr_addrs pr <> ∅ /\ k ∉ pr_addrs pr /\ forall k', k' ∈ pr_addrs pr -> waitsFor w k'.
Proof.
  intros O [_ _ S] (pr0 & H0 & Hs & Hn & Hk)%S. destruct (co_pending _ _ _ _ O r pr0 H0) as [P1 P2]. split_and!; [auto| |set_solver].
  apply Hk, elem_of_elements, elem_of_dom. eauto.
Qed.

(** An address in flight is finished. *)
Lemma finish_ok w w' k fl b seen ad ad' : coreOk w (k :: fl) b seen -> trackedDials w !! k = Some ad ->
  dl_addr ad' = dl_addr ad -> dl_dialed ad' = true -> ~ live ad' ->
  shrinks k (elements (dom (pendingRequests w))) w w' ->
  coreOk (put_dial (set_flight w' (dialsInFlight w - 1) (w_dials w)) ad') fl b seen.
Proof.
  intros O Hk Ha Hd Hn S. pose proof (sh_rest _ _ _ _ S) as R. injection R as R1 R2 R3 R4 R5 R6 R7 R8.
  destruct (co_tracked _ _ _ _ O k ad Hk) as (Hb & _). pose proof (co_flight _ _ _ _ O) as [Nk Nf]%NoDup_cons.
  assert (Hq : k ∉ akey <$> b ++ dq w).
  { intros (x & -> & Hx)%list_elem_of_fmap. apply (queued_not_dialed _ _ _ _ _ O Hx). apply (co_flying _ _ _ _ O). set_solver. }
  assert (Hother : forall k' ad0, k' <> k -> trackedDials w !! k' = Some ad0 -> <[k := ad']> (trackedDials w) !! k' = Some ad0) by (intros; by rewrite lookup_insert_ne).
  unfold put_dial. rewrite Ha, Hb. split; simpl; rewrite ?R1, ?R3, ?R7.
  - apply O.
  - apply O.
  - intros x Hx. destruct (co_queued _ _ _ _ O x Hx) as (ad0 & H1 & H2). exists ad0. split; [|done]. apply Hother; [|done].
    intros E. apply Hq. rewrite <-E. by apply list_elem_of_fmap_2.
  - intros k' ad0. destruct (decide (k' = k)) as [->|Hne]; [rewrite lookup_insert_eq; intros [= <-]; split_and!; congruence|].
    rewrite lookup_insert_ne by done. intros H. destruct (co_tracked _ _ _ _ O k' ad0 H) as (T1 & T2 & T3). split_and!; [done|done|].
    intros H1 H2. specialize (T3 H1 H2). by apply elem_of_cons in T3 as [|].
  - done.
  - intros k' Hf. destruct (co_flying _ _ _ _ O k' ltac:(set_solver)) as (D & ad0 & H1 & H2). split; [done|]. exists ad0. split; [|done].
    apply Hother; [|done]. intros ->. done.
  - rewrite (co_count _ _ _ _ O). simpl. lia.
  - apply O.
  - intros k' Hd'. destruct (decide (k' = k)) as [->|]; [exists ad'; by rewrite lookup_insert_eq|].
    destruct (co_dialed _ _ _ _ O k' Hd') as (ad0 & H1 & H2). exists ad0. split; [by apply Hother|done].
  - intros r pr Hr. destruct (shrinks_pending _ _ _ _ _ _ _ _ O S Hr) as (P1 & P2 & P3). split; [done|]. intros k' Hk'.
    destruct (P3 k' Hk') as (ad0 & H1 & H2). exists ad0. split; [|done]. apply Hother; [|done]. intros ->. done.
  - destruct (sh_answered _ _ _ _ S seen (co_answered _ _ _ _ O)). by split.
Qed.

(** ** Dialling *)
Record dispEnv_ok (e : dispEnv) : Prop := { de_perm X : de_order e X ≡ₚ elements X }.
Lemma shrinks_perm k l l' w w' : l ≡ₚ l' -> shrinks k l w w' -> shrinks k l' w w'.
Proof.
  intros P [R A S]. split; [done|done|]. intros r pr H. destruct (S r pr H) as (pr0 & H0 & H1 & H2 & H3). exists pr0. split_and!; [done..|].
  intros Hl. apply H3. by rewrite P.
Qed.

(** The next address of the batch is handed to the limiter. *)
Lemma launch_ok w x b fl seen ad : coreOk w fl (x :: b) seen -> trackedDials w !! akey x = Some ad ->
  coreOk (set_flight (put_dial w (with_dialed ad)) (dialsInFlight w + 1) (w_dials w ++ [akey x])) (fl ++ [akey x]) b seen.
Proof.
  intros O Hk. destruct (co_queued _ _ _ _ O x ltac:(set_solver)) as (ad' & E & Hd & Ha & Hl). assert (ad' = ad) as -> by congruence.
  pose proof (queued_not_dialed _ _ _ _ x O ltac:(set_solver)) as Hnd.
  assert (Hnf : akey x ∉ fl) by (intros H; by apply Hnd, (co_flying _ _ _ _ O)).
  pose proof (co_queue _ _ _ _ O) as [Nx Nq]%NoDup_cons. destruct (co_tracked _ _ _ _ O _ _ Hk) as (Hb & _).
  assert (Hother : forall k' ad0, k' <> akey x -> trackedDials w !! k' = Some ad0 -> <[akey x := with_dialed ad]> (trackedDials w) !! k' = Some ad0) by (intros; by rewrite lookup_insert_ne).
  unfold put_dial. replace (Bytes (dl_addr (with_dialed ad))) with (akey x) by (by rewrite <-Hb). split; simpl.
  - apply O.
  - done.
  - intros y Hy. destruct (co_queued _ _ _ _ O y ltac:(set_solver)) as (ad0 & H1 & H2). exists ad0. split; [|done]. apply Hother; [|done].
    intros E'. apply Nx. rewrite <-E'. by apply list_elem_of_fmap_2.
  - intros k' ad0. destruct (decide (k' = akey x)) as [->|Hne].
    + rewrite lookup_insert_eq. intros [= <-]. split_and!; [done|done|]. intros _ _. set_solver.
    + rewrite lookup_insert_ne by done. intros H. destruct (co_tracked _ _ _ _ O k' ad0 H) as (T1 & T2 & T3). split_and!; [done| |].
      * intros H1. specialize (T2 H1). by apply elem_of_cons in T2 as [|].
      * intros H1 H2. apply elem_of_app. left. auto.
  - apply NoDup_app. split_and!; [apply O| |apply NoDup_singleton]. by intros k' Hk' ->%list_elem_of_singleton.
  - intros k' [Hf| ->%list_elem_of_singleton]%elem_of_app.
    + destruct (co_flying _ _ _ _ O k' Hf) as (D & ad0 & H1 & H2). split; [set_solver|]. exists ad0. split; [|done]. apply Hother; [|done]. by intros ->.
    + split; [set_solver|]. exists (with_dialed ad). split; [apply lookup_insert_eq|]. by split.
  - rewrite (co_count _ _ _ _ O), length_app. simpl. lia.
  - apply NoDup_app. split_and!; [apply O| |apply NoDup_singleton]. by intros k' Hk' ->%list_elem_of_singleton.
  - intros k' [Hf| ->%list_elem_of_singleton]%elem_of_app.
    + destruct (co_dialed _ _ _ _ O k' Hf) as (ad0 & H1 & H2). exists ad0. split; [|done]. apply Hother; [|done]. by intros ->.
    + exists (with_dialed ad). split; [apply lookup_insert_eq|done].
  - intros r pr Hr. destruct (co_pending _ _ _ _ O r pr Hr) as [P1 P2]. split; [done|]. intros k' Hk'. destruct (P2 k' Hk') as (ad0 & H1 & H2).
    destruct (decide (k' = akey x)) as [->|]; [exists (with_dialed ad); split; [apply lookup_insert_eq|done]|]. exists ad0. split; [by apply Hother|done].
  - destruct (co_answered _ _ _ _ O). by split.
Qed.
(** An address that is backed off is forgotten. *)
Lemma forget_ok w w' x b fl seen : coreOk w fl (x :: b) seen -> shrinks (akey x) (elements (dom (pendingRequests w))) w w' ->
  coreOk (set_tracked w' (delete (akey x) (trackedDials w))) fl b seen.
Proof.
  intros O S. pose proof (sh_rest _ _ _ _ S) as R. injection R as R1 R2 R3 R4 R5 R6 R7 R8.
  pose proof (queued_not_dialed _ _ _ _ x O ltac:(set_solver)) as Hnd. pose proof (co_queue _ _ _ _ O) as [Nx Nq]%NoDup_cons.
  assert (Hother : forall k' ad0, k' <> akey x -> trackedDials w !! k' = Some ad0 -> delete (akey x) (trackedDials w) !! k' = Some ad0) by (intros; by rewrite lookup_delete_ne).
  split; simpl; rewrite ?R3, ?R4, ?R7.
  - apply O.
  - done.
  - intros y Hy. destruct (co_queued _ _ _ _ O y ltac:(set_solver)) as (ad0 & H1 & H2). exists ad0. split; [|done]. apply Hother; [|done].
    intros E'. apply Nx. rewrite <-E'. by apply list_elem_of_fmap_2.
  - intros k' ad0 [Hne H]%lookup_delete_Some. destruct (co_tracked _ _ _ _ O k' ad0 H) as (T1 & T2 & T3). split_and!; [done| |done].
    intros H1. specialize (T2 H1). apply elem_of_cons in T2 as [|]; congruence || done.
  - apply O.
  - intros k' Hf. destruct (co_flying _ _ _ _ O k' Hf) as (D & ad0 & H1 & H2). split; [done|]. exists ad0. split; [|done]. apply Hother; [|done]. by intros ->.
  - apply O.
  - apply O.
  - intros k' Hd. destruct (co_dialed _ _ _ _ O k' Hd) as (ad0 & H1 & H2). exists ad0. split; [|done]. apply Hother; [|done]. by intros ->.
  - intros r pr Hr. destruct (shrinks_pending _ _ _ _ _ _ _ _ O S Hr) as (P1 & P2 & P3). split; [done|]. intros k' Hk'.
    destruct (P3 k' Hk') as (ad0 & H1 & H2). exists ad0. split; [|done]. apply Hother; [|done]. by intros ->.
  - destruct (sh_answered _ _ _ _ S seen (co_answered _ _ _ _ O)). by split.
Qed.

(** ** Executions of the dial worker *)
(** ** The loops over the requests, aside from the dials *)
Lemma foldl_comm {A B} (f : A -> B -> A) (g : A -> A) (H : forall a b, f (g a) b = g (f a b)) l : forall a, foldl f (g a) l = g (foldl f a l).
Proof. induction l as [|b l IH]; intros a; [done|]. simpl. by rewrite H, IH. Qed.
Lemma dispatchStep_tracked e k a err m w r : dispatchStep e k a err (set_tracked w m) r = set_tracked (dispatchStep e k a err w r) m.
Proof. unfold dispatchStep. simpl. repeat case_match; done. Qed.
Lemma dispatchStep_flight e k a err n ds w r : dispatchStep e k a err (set_flight w n ds) r = set_flight (dispatchStep e k a err w r) n ds.
Proof. unfold dispatchStep. simpl. repeat case_match; done. Qed.
Lemma completeStep_tracked k c m w r : completeStep k c (set_tracked w m) r = set_tracked (completeStep k c w r) m.
Proof. unfold completeStep. simpl. repeat case_match; done. Qed.
Lemma completeStep_flight k c n ds w r : completeStep k c (set_flight w n ds) r = set_flight (completeStep k c w r) n ds.
Proof. unfold completeStep. simpl. repeat case_match; done. Qed.

Lemma dispatchError_eq e w ad err : let k := Bytes (dl_addr ad) in
  let w' := foldl (dispatchStep e k (dl_addr ad) err) w (de_order e (dom (pendingRequests w))) in
  dispatchError e w ad err = if bool_decide (err = ErrDialBackoff) then set_tracked w' (delete k (trackedDials w)) else put_dial w' (with_err ad err).
Proof.
  intros k w'. assert (R : trackedDials w' = trackedDials w).
  { pose proof (sh_rest _ _ _ _ (shrinks_loop k _ (dispatchStep_shrinks e k (dl_addr ad) err) (de_order e (dom (pendingRequests w))) w)) as R. by injection R. }
  unfold dispatchError. fold k. unfold put_dial. simpl.
  rewrite (foldl_comm _ (fun w0 => set_tracked w0 (<[k := with_err ad err]> (trackedDials w)))) by (intros; apply dispatchStep_tracked). fold w'.
  case_bool_decide; simpl; [by rewrite delete_insert_eq|by rewrite R].
Qed.

Section run.
Context (noDelay ranker : list Multiaddr -> list AddrDelay) {NL : RankerLaws noDelay} {RL : RankerLaws ranker}.

(** ** Results *)
(** What the invariant looks at *)
Lemma coreOk_ext w w' fl b seen : pendingRequests w' = pendingRequests w -> trackedDials w' = trackedDials w -> dq w' = dq w ->
  dialsInFlight w' = dialsInFlight w -> w_out w' = w_out w -> w_dials w' = w_dials w -> coreOk w fl b seen -> coreOk w' fl b seen.
Proof.
  intros E1 E2 E3 E4 E5 E6 [C1 C2 C3 C4 C5 C6 C7 C8 C9 C10 [A1 A2 A3]].
  split; unfold waitsFor in *; rewrite ?E1, ?E2, ?E3, ?E4, ?E6; try done. split; by rewrite ?E1, ?E5.
Qed.
Ltac same_core := match goal with H : coreOk ?w ?fl ?b ?s |- coreOk _ ?fl ?b ?s => refine (coreOk_ext w _ _ _ _ _ _ _ _ _ _ H); done end.
Definition timerOk (w : dialWorker) : Prop := dq w <> [] -> is_Some (dialTimer w).
Lemma schedule_ok w fl b seen : coreOk w fl b seen -> coreOk (scheduleNextDial w) fl b seen /\ dq (scheduleNextDial w) = dq w /\ timerOk (scheduleNextDial w).
Proof.
  intros O. assert (H : exists t, scheduleNextDial w = set_timer w t /\ (dq w <> [] -> is_Some t)).
  { unfold scheduleNextDial. destruct (dq w); [by exists None|]. case_match; eauto. }
  destruct H as (t & -> & Ht). split_and!; [same_core|done|done].
Qed.

Lemma schedule_ok_pair w fl b seen : coreOk w fl b seen -> coreOk (scheduleNextDial w) fl b seen /\ timerOk (scheduleNextDial w).
Proof. intros O. destruct (schedule_ok _ _ _ _ O) as (? & _ & ?). done. Qed.

(** The state of an address in flight, after the counter and the upgrade time have been reset *)
Definition landed (w : dialWorker) (ad : addrDial) : dialWorker := put_dial (set_flight w (dialsInFlight w - 1) (w_dials w)) ad.
(** A loop over the requests, and then the result of the dial *)
Lemma landed_loop (step : dialWorker -> Request -> dialWorker) w ad1 ad2 k l : (forall w r, shrinks k [r] w (step w r)) ->
  (forall m w r, step (set_tracked w m) r = set_tracked (step w r) m) -> (forall n ds w r, step (set_flight w n ds) r = set_flight (step w r) n ds) ->
  Bytes (dl_addr ad1) = k -> dl_addr ad2 = dl_addr ad1 ->
  put_dial (foldl step (landed w ad1) l) ad2 = put_dial (set_flight (foldl step w l) (dialsInFlight w - 1) (w_dials w)) ad2.
Proof.
  intros Hs H1 H2 Hk Ha. pose proof (sh_rest _ _ _ _ (shrinks_loop k step Hs l w)) as R. injection R as R _. unfold landed, put_dial at 2.
  simpl. rewrite Hk. rewrite (foldl_comm step (fun w0 => set_tracked w0 (<[k := ad1]> (trackedDials w)))) by (intros; apply H1).
  rewrite (foldl_comm step (fun w0 => set_flight w0 (dialsInFlight w - 1) (w_dials w))) by (intros; apply H2).
  unfold put_dial. simpl. by rewrite Ha, Hk, insert_insert_eq, R.
Qed.
Lemma failed_ok e w k fl b seen ad ad1 err : dispEnv_ok e -> coreOk w (k :: fl) b seen -> trackedDials w !! k = Some ad -> dl_addr ad1 = dl_addr ad ->
  dl_dialed ad1 = true -> err <> ErrDialBackoff ->
  coreOk (dispatchError e (landed w ad1) ad1 err) fl b seen /\ dq (dispatchError e (landed w ad1) ad1 err) = dq w /\
  dialTimer (dispatchError e (landed w ad1) ad1 err) = dialTimer w.
Proof.
  intros E O Hk Ha Hd He. destruct (co_tracked _ _ _ _ O _ _ Hk) as (Hb & _). assert (Hk1 : Bytes (dl_addr ad1) = k) by by rewrite Ha.
  rewrite dispatchError_eq, Hk1, bool_decide_false by done. change (pendingRequests (landed w ad1)) with (pendingRequests w).
  rewrite (landed_loop _ w ad1 (with_err ad1 err) k) by (eauto using dispatchStep_shrinks, dispatchStep_tracked, dispatchStep_flight).
  set (w' := foldl _ w _). assert (S : shrinks k (elements (dom (pendingRequests w))) w w').
  { eapply shrinks_perm; [apply E|]. apply shrinks_loop, dispatchStep_shrinks. }
  pose proof (sh_rest _ _ _ _ S) as R. injection R as R1 R2 R3 R4 R5 R6 R7 R8. split_and!; [|done|done].
  apply (finish_ok w w' k fl b seen ad); [done|done|done|done| |done]. by intros [_ H].
Qed.
Lemma added_ok e w k fl b seen ad ad1 conn : dispEnv_ok e -> coreOk w (k :: fl) b seen -> trackedDials w !! k = Some ad -> dl_addr ad1 = dl_addr ad ->
  dl_dialed ad1 = true ->
  let w2 := put_dial (foldl (completeStep (Bytes (dl_addr ad1)) conn) (landed w ad1) (de_order e (dom (pendingRequests w)))) (with_conn ad1 conn) in
  coreOk w2 fl b seen /\ dq w2 = dq w /\ dialTimer w2 = dialTimer w.
Proof.
  intros E O Hk Ha Hd. destruct (co_tracked _ _ _ _ O _ _ Hk) as (Hb & _). assert (Hk1 : Bytes (dl_addr ad1) = k) by by rewrite Ha.
  rewrite Hk1, (landed_loop _ w ad1 (with_conn ad1 conn) k) by (eauto using completeStep_shrinks, completeStep_tracked, completeStep_flight).
  set (w' := foldl _ w _). assert (S : shrinks k (elements (dom (pendingRequests w))) w w').
  { eapply shrinks_perm; [apply E|]. apply shrinks_loop, completeStep_shrinks. }
  pose proof (sh_rest _ _ _ _ S) as R. injection R as R1 R2 R3 R4 R5 R6 R7 R8. split_and!; [|done|done].
  apply (finish_ok w w' k fl b seen ad); [done|done|done|done| |done]. by intros [H _].
Qed.
(** [AddBackoff] does not touch what the worker has. *)
Lemma dispatchError_backoff e w ad err a : dispatchError e (add_backoff w a) ad err = add_backoff (dispatchError e w ad err) a.
Proof.
  rewrite !dispatchError_eq. unfold put_dial. simpl. rewrite (foldl_comm _ (fun w0 => add_backoff w0 a)); [by case_match|].
  intros w2 r. unfold dispatchStep. simpl. repeat case_match; done.
Qed.
Lemma handleResult_ok e w fl seen addr res : dispEnv_ok e -> coreOk w (Bytes addr :: fl) [] seen -> timerOk w ->
  res <> DialFailed ErrDialBackoff -> res <> DialedConn (inr ErrDialBackoff) ->
  coreOk (handleResult e w addr res) fl [] seen /\ dq (handleResult e w addr res) = dq w /\ timerOk (handleResult e w addr res).
Proof.
  intros E O T N1 N2. destruct (co_flying _ _ _ _ O (Bytes addr) ltac:(set_solver)) as (_ & ad & Hk & Hd & Hl).
  unfold handleResult. rewrite Hk. set (ad1 := with_upgrade ad None). change (put_dial (set_flight w _ _) ad1) with (landed w ad1).
  destruct res as [[conn|err]|err].
  - destruct (added_ok e w _ fl [] seen ad ad1 conn E O Hk eq_refl Hd) as (C & Q & Tm). change (pendingRequests (landed w ad1)) with (pendingRequests w).
    split_and!; [same_core|done|]. unfold timerOk. simpl in *. by rewrite Q, Tm.
  - destruct (failed_ok e w _ fl [] seen ad ad1 err E O Hk eq_refl Hd ltac:(congruence)) as (C & Q & Tm). split_and!; [done|done|].
    unfold timerOk. by rewrite Q, Tm.
  - destruct (failed_ok e w _ fl [] seen ad ad1 err E O Hk eq_refl Hd ltac:(congruence)) as (C & Q & Tm). set (w0 := if _ && _ then _ else _).
    assert (C0 : coreOk (dispatchError e w0 ad1 err) fl [] seen /\ dq (dispatchError e w0 ad1 err) = dq w).
    { unfold w0. case_match; [|done]. rewrite dispatchError_backoff. split; [same_core|done]. }
    destruct C0 as [C0 Q0]. destruct (schedule_ok _ _ _ _ C0) as (S1 & S2 & S3). split_and!; [done|congruence|done].
Qed.

(** ** The timer *)
Lemma backedOff_ok e w x b fl seen ad : dispEnv_ok e -> coreOk w fl (x :: b) seen -> trackedDials w !! akey x = Some ad ->
  coreOk (dispatchError e (put_dial w (with_dialed ad)) (with_dialed ad) ErrDialBackoff) fl b seen /\
  dq (dispatchError e (put_dial w (with_dialed ad)) (with_dialed ad) ErrDialBackoff) = dq w /\
  w_dials (dispatchError e (put_dial w (with_dialed ad)) (with_dialed ad) ErrDialBackoff) = w_dials w.
Proof.
  intros E O Hk. destruct (co_tracked _ _ _ _ O _ _ Hk) as (Hb & _). rewrite dispatchError_eq, bool_decide_true by done. simpl. rewrite Hb, delete_insert_eq.
  unfold put_dial. simpl. rewrite Hb. rewrite (foldl_comm _ (fun w0 => set_tracked w0 (<[akey x := with_dialed ad]> (trackedDials w)))) by (intros; apply dispatchStep_tracked).
  set (w' := foldl _ w _). assert (S : shrinks (akey x) (elements (dom (pendingRequests w))) w w').
  { eapply shrinks_perm; [apply E|]. apply shrinks_loop, dispatchStep_shrinks. }
  pose proof (sh_rest _ _ _ _ S) as R. injection R as R1 R2 R3 R4 R5 R6 R7 R8. split_and!; [|done|done].
  eapply coreOk_ext; [..|apply (forget_ok w w' x b fl seen O S)]; done.
Qed.
Lemma dialLoop_ok e backoff seen b : dispEnv_ok e -> forall w fl, coreOk w fl b seen ->
  exists new, coreOk (foldl (dialStep e backoff) w b) (fl ++ new) [] seen /\ w_dials (foldl (dialStep e backoff) w b) = w_dials w ++ new /\
    (length new <= length b)%nat /\ dq (foldl (dialStep e backoff) w b) = dq w.
Proof.
  intros E. induction b as [|x b IH]; intros w fl O; [exists []; rewrite !app_nil_r; by split_and!|]. simpl.
  destruct (co_queued _ _ _ _ O x ltac:(set_solver)) as (ad & Hk & _). assert (Hs : exists new, coreOk (dialStep e backoff w x) (fl ++ new) b seen /\
    w_dials (dialStep e backoff w x) = w_dials w ++ new /\ (length new <= 1)%nat /\ dq (dialStep e backoff w x) = dq w).
  { unfold dialStep. fold (akey x). rewrite Hk. destruct (co_tracked _ _ _ _ O _ _ Hk) as (Hb & _).
    unfold dialNextAddr. case_match eqn:Hbo; [case_match|case_match]; simplify_eq.
    - destruct (backedOff_ok e w x b fl seen ad E O Hk) as (C & Q & D). exists []. rewrite !app_nil_r. split_and!; [done|done|simpl; lia|done].
    - exists [akey x]. simpl. rewrite Hb. split_and!; [by apply launch_ok|done|simpl; lia|done]. }
  destruct Hs as (n1 & C1 & D1 & L1 & Q1). destruct (IH _ _ C1) as (n2 & C2 & D2 & L2 & Q2). exists (n1 ++ n2).
  rewrite app_assoc. split_and!; [done|by rewrite D2, D1, app_assoc|rewrite length_app; lia|congruence].
Qed.
Lemma handleTimer_ok e backoff w fl seen : dispEnv_ok e -> coreOk w fl [] seen ->
  exists new, coreOk (handleTimer e backoff w) (fl ++ new) [] seen /\ w_dials (handleTimer e backoff w) = w_dials w ++ new /\
    timerOk (handleTimer e backoff w) /\ (2 * length (dq (handleTimer e backoff w)) + length new <= 2 * length (dq w))%nat /\
    (dq w <> [] -> (2 * length (dq (handleTimer e backoff w)) + length new < 2 * length (dq w))%nat).
Proof.
  intros E O. unfold handleTimer. destruct (dq_NextBatch (dq w)) as [q batch] eqn:Hb. destruct (NextBatch_ok _ _ _ Hb) as [Hq Hne].
  assert (O' : coreOk (set_dq w q) fl batch seen).
  { destruct O as [C1 C2 C3 C4 C5 C6 C7 C8 C9 C10 [A1 A2 A3]]. rewrite Hq in *. simpl in *. split; simpl; try done.
    unfold qSorted in *. apply StronglySorted_app in C1 as (_ & _ & ?). done. }
  destruct (dialLoop_ok e backoff seen batch E _ _ O') as (new & C & D & L & Q). exists new.
  assert (C' : coreOk (set_timer (foldl (dialStep e backoff) (set_dq w q) batch) None) (fl ++ new) [] seen) by same_core.
  destruct (schedule_ok _ _ _ _ C') as (S1 & S2 & S3). simpl in S2, Q, D. split_and!; [done| |done| |].
  - rewrite <-D. unfold scheduleNextDial. repeat case_match; done.
  - rewrite S2, Q, Hq, length_app. lia.
  - intros Hn. rewrite S2, Q. specialize (Hne Hn). rewrite Hq, length_app. destruct batch; [done|]. simpl in *. lia.
Qed.

(** ** Requests *)
Definition dkey (ad : addrDial) : bytes := Bytes (dl_addr ad).
Lemma sortOut_ok w fl seen l : coreOk w fl [] seen -> forall pr pr' td tj, NoDup (akey <$> l) -> sortOut w pr l = inr (pr', td, tj) ->
  td `sublist_of` l /\ (forall x, x ∈ td -> trackedDials w !! akey x = None) /\
  (forall ad, ad ∈ tj -> trackedDials w !! dkey ad = Some ad /\ live ad /\ dkey ad ∈ akey <$> l) /\
  (forall k, k ∈ pr_addrs pr' -> k ∈ pr_addrs pr /\ (k ∈ akey <$> l -> k ∈ akey <$> td \/ k ∈ dkey <$> tj)) /\
  (forall k, k ∈ pr_addrs pr -> (k ∈ akey <$> l -> k ∈ akey <$> td \/ k ∈ dkey <$> tj) -> k ∈ pr_addrs pr').
Proof.
  intros O. induction l as [|x l IH]; intros pr pr' td tj ND; simpl.
  { intros [= <- <- <-]. split_and!; [done|..]; intros ? H; try (by apply elem_of_nil in H); try done. split; [done|]. intros H'. by apply elem_of_nil in H'. }
  apply NoDup_cons in ND as [Nx ND]. destruct (trackedDials w !! Bytes (ad_Addr x)) as [ad|] eqn:Hk.
  - destruct (co_tracked _ _ _ _ O _ _ Hk) as (Hb & _). destruct (dl_conn ad) eqn:Hc; [done|]. destruct (dl_err ad) as [er|] eqn:He.
    + intros H. destruct (IH _ _ _ _ ND H) as (S1 & S2 & S3 & S4 & S5). simpl in *. rewrite Hb in *. split_and!.
      * by apply sublist_cons.
      * done.
      * intros a Ha. destruct (S3 a Ha) as (? & ? & ?). split_and!; [done..|set_solver].
      * intros k Hk'. destruct (S4 k Hk') as [H1 H2]. split; [set_solver|]. intros [->|Hl]%elem_of_cons; [set_solver|auto].
      * intros k Hk' Hor. destruct (decide (k = akey x)) as [->|Hn]; [exfalso|apply S5; set_solver].
        destruct (Hor ltac:(set_solver)) as [Ht|Ht].
        -- apply Nx. apply list_elem_of_fmap in Ht as (y & -> & Hy). apply list_elem_of_fmap_2. by eapply sublist_subseteq.
        -- apply list_elem_of_fmap in Ht as (a & Ea & Ha). destruct (S3 a Ha) as (_ & _ & Hin). apply Nx. by rewrite Ea.
    + destruct (sortOut w pr l) as [c|[[pr0 td0] tj0]] eqn:Hs; [done|]. intros [= <- <- <-]. destruct (IH _ _ _ _ ND Hs) as (S1 & S2 & S3 & S4 & S5).
      assert (Hd : dkey ad = akey x) by done. split_and!.
      * by apply sublist_cons.
      * done.
      * intros a [->|Ha]%elem_of_cons; [rewrite Hd; split_and!; [done|done|set_solver]|]. destruct (S3 a Ha) as (? & ? & ?). split_and!; [done..|set_solver].
      * intros k Hk'. destruct (S4 k Hk') as [H1 H2]. split; [done|]. intros [->|Hl]%elem_of_cons; [right; rewrite fmap_cons, Hd; set_solver|]. destruct (H2 Hl); [by left|right; set_solver].
      * intros k Hk' Hor. apply S5; [done|]. intros Hl. destruct (Hor ltac:(set_solver)) as [Ht|Ht]; [by left|].
        apply elem_of_cons in Ht as [->|Ht]; [|by right]. rewrite Hd in Hl. done.
  - destruct (sortOut w pr l) as [c|[[pr0 td0] tj0]] eqn:Hs; [done|]. intros [= <- <- <-]. destruct (IH _ _ _ _ ND Hs) as (S1 & S2 & S3 & S4 & S5). split_and!.
    + by apply sublist_skip.
    + intros y [->|Hy]%elem_of_cons; [done|auto].
    + intros a Ha. destruct (S3 a Ha) as (? & ? & ?). split_and!; [done..|set_solver].
    + intros k Hk'. destruct (S4 k Hk') as [H1 H2]. split; [done|]. intros [->|Hl]%elem_of_cons; [left; set_solver|]. destruct (H2 Hl); [left; set_solver|by right].
    + intros k Hk' Hor. apply S5; [done|]. intros Hl. destruct (Hor ltac:(set_solver)) as [Ht|Ht]; [|by right].
      apply elem_of_cons in Ht as [->|Ht]; [done|by left].
Qed.

(** A request joins a dial that has not started: only its context and its place in the queue change. *)
Lemma join_ok ctx rk w fl seen ad ad0 : coreOk w fl [] seen -> trackedDials w !! dkey ad = Some ad0 -> dl_addr ad0 = dl_addr ad ->
  dl_dialed ad0 = dl_dialed ad -> live ad0 -> live ad -> coreOk (joinStep ctx rk w ad) fl [] seen /\
  (forall k, waitsFor w k -> waitsFor (joinStep ctx rk w ad) k) /\ (forall k, trackedDials w !! k = None -> trackedDials (joinStep ctx rk w ad) !! k = None) /\
  (forall k a, trackedDials w !! k = Some a -> exists a', trackedDials (joinStep ctx rk w ad) !! k = Some a' /\ dl_addr a' = dl_addr a /\ dl_dialed a' = dl_dialed a /\ (live a -> live a')) /\
  pendingRequests (joinStep ctx rk w ad) = pendingRequests w.
Proof.
  intros O Hk Ha Hd Hl0 Hl. unfold joinStep. destruct (dl_dialed ad) eqn:Ed; simpl; [by split_and!; eauto|].
  destruct (simConnect ctx && negb (simConnect (dl_ctx ad))); [|by split_and!; eauto].
  set (ad' := with_ctx ad _). set (x := mkAddrDelay (dl_addr ad) _). assert (Hx : akey x = dkey ad) by done.
  destruct (co_tracked _ _ _ _ O _ _ Hk) as (_ & Hq & _). specialize (Hq Hd). simpl in Hq.
  destruct (Update_ok (dq w) x) as (U1 & U2 & U3); [apply O|apply (co_queue _ _ _ _ O)|by rewrite Hx| |].
  { intros y Hy. destruct (co_queued _ _ _ _ O y Hy) as (a & Ea & _ & Eb & _). case_bool_decide as Hb.
    - assert (a = ad0) as -> by (rewrite Hb, Hx in Ea; congruence). rewrite <-Eb, Ha. apply Equal_refl.
    - apply not_true_iff_false. intros HE. apply Hb. unfold akey, Bytes. apply Equal_spec in HE. by rewrite HE. }
  assert (Hins : forall k a, trackedDials w !! k = Some a -> exists a', <[dkey ad := ad']> (trackedDials w) !! k = Some a' /\ dl_addr a' = dl_addr a /\ dl_dialed a' = dl_dialed a /\ (live a -> live a')).
  { intros k a Hka. destruct (decide (k = dkey ad)) as [->|]; [|exists a; by rewrite lookup_insert_ne]. exists ad'. rewrite lookup_insert_eq.
    split_and!; [done|simpl; congruence|simpl; congruence|by intros _]. }
  split_and!.
  - destruct O as [C1 C2 C3 C4 C5 C6 C7 C8 C9 C10 [A1 A2 A3]]. split; simpl; try done.
    + by rewrite U1.
    + intros y Hy. destruct (U3 y Hy) as [Hy'| ->].
      * destruct (C3 y Hy') as (a & E1 & E2 & E3 & E4). destruct (Hins _ _ E1) as (a' & F1 & F2 & F3 & F4). exists a'. split_and!; [done|congruence|congruence|by apply F4..].
      * exists ad'. fold (dkey ad). rewrite Hx, lookup_insert_eq. by split_and!.
    + intros k a. destruct (decide (k = dkey ad)) as [->|Hn].
      * rewrite lookup_insert_eq. intros [= <-]. split_and!; [done|by rewrite U1|]. simpl. by rewrite Ed.
      * rewrite lookup_insert_ne by done. intros H. destruct (C4 k a H) as (? & ? & ?). split_and!; [done|by rewrite U1|done].
    + intros k Hf. destruct (C6 k Hf) as (D & a & E1 & E2 & E3). split; [done|]. destruct (Hins _ _ E1) as (a' & F1 & F2 & F3 & F4). exists a'. split_and!; [done|congruence|by apply F4..].
    + intros k Hf. destruct (C9 k Hf) as (a & E1 & E2). destruct (Hins _ _ E1) as (a' & F1 & F2 & F3 & F4). exists a'. split; [done|congruence].
    + intros r pr Hr. destruct (C10 r pr Hr) as [P1 P2]. split; [done|]. intros k Hk'. destruct (P2 k Hk') as (a & E1 & E2).
      destruct (Hins _ _ E1) as (a' & F1 & F2 & F3 & F4). exists a'. split; [done|by apply F4].
  - intros k (a & E1 & E2). destruct (Hins _ _ E1) as (a' & F1 & F2 & F3 & F4). exists a'. split; [done|by apply F4].
  - intros k Hn. simpl. fold (dkey ad). rewrite lookup_insert_ne; [done|]. intros <-. congruence.
  - done.
  - done.
Qed.
(** A new address is tracked and queued. *)
Lemma todial_ok ctx rk w fl seen x : coreOk w fl [] seen -> trackedDials w !! akey x = None ->
  coreOk (todialStep ctx rk w x) fl [] seen /\ (forall k, waitsFor w k \/ k = akey x -> waitsFor (todialStep ctx rk w x) k) /\
  (forall k, k <> akey x -> trackedDials w !! k = None -> trackedDials (todialStep ctx rk w x) !! k = None) /\
  pendingRequests (todialStep ctx rk w x) = pendingRequests w.
Proof.
  intros O Hk. unfold todialStep. set (y := mkAddrDelay (ad_Addr x) _). assert (Hy : akey y = akey x) by done.
  set (ad := mkAddrDial _ _ _ _ _ _). destruct (Add_ok (dq w) y (co_sorted _ _ _ _ O)) as [A1 A2].
  assert (Hne : forall k a, trackedDials w !! k = Some a -> <[akey x := ad]> (trackedDials w) !! k = Some a) by (intros k a H; rewrite lookup_insert_ne; [done|congruence]).
  assert (Hnq : akey x ∉ akey <$> dq w).
  { intros (z & E & Hz)%list_elem_of_fmap. destruct (co_queued _ _ _ _ O z Hz) as (a & Ea & _). congruence. }
  split_and!.
  - destruct O as [C1 C2 C3 C4 C5 C6 C7 C8 C9 C10 [B1 B2 B3]]. split; simpl; fold (akey x); try done.
    + rewrite A1, fmap_cons, Hy. by constructor.
    + intros z. rewrite A1. intros [->|Hz]%elem_of_cons; [exists ad; rewrite Hy, lookup_insert_eq; by split_and!|].
      destruct (C3 z Hz) as (a & E1 & E2). exists a. split; [by apply Hne|done].
    + intros k a. destruct (decide (k = akey x)) as [->|Hn].
      * rewrite lookup_insert_eq. intros [= <-]. split_and!; [done| |done]. intros _. rewrite A1, fmap_cons, Hy. set_solver.
      * rewrite lookup_insert_ne by done. intros H. destruct (C4 k a H) as (? & H2 & ?). split_and!; [done| |done]. intros Hd. rewrite A1, fmap_cons. specialize (H2 Hd). set_solver.
    + intros k Hf. destruct (C6 k Hf) as (D & a & E1 & E2). split; [done|]. exists a. split; [by apply Hne|done].
    + intros k Hf. destruct (C9 k Hf) as (a & E1 & E2). exists a. split; [by apply Hne|done].
    + intros r pr Hr. destruct (C10 r pr Hr) as [P1 P2]. split; [done|]. intros k Hk'. destruct (P2 k Hk') as (a & E1 & E2). exists a. split; [by apply Hne|done].
  - intros k [(a & E1 & E2)| ->]; [exists a; split; [by apply Hne|done]|]. exists ad. simpl. fold (akey x). rewrite lookup_insert_eq. by split.
  - intros k Hn H. simpl. fold (akey x). by rewrite lookup_insert_ne.
  - done.
Qed.

Lemma joinLoop_ok ctx rk fl seen tj : forall w, coreOk w fl [] seen ->
  (forall ad, ad ∈ tj -> live ad /\ exists ad0, trackedDials w !! dkey ad = Some ad0 /\ dl_addr ad0 = dl_addr ad /\ dl_dialed ad0 = dl_dialed ad /\ live ad0) ->
  let w' := foldl (joinStep ctx rk) w tj in coreOk w' fl [] seen /\ (forall k, waitsFor w k -> waitsFor w' k) /\
  (forall k, trackedDials w !! k = None -> trackedDials w' !! k = None) /\ pendingRequests w' = pendingRequests w.
Proof.
  induction tj as [|ad tj IH]; intros w O H; [done|]. simpl. destruct (H ad ltac:(set_solver)) as (Hl & ad0 & H1 & H2 & H3 & H4).
  destruct (join_ok ctx rk w fl seen ad ad0 O H1 H2 H3 H4 Hl) as (J1 & J2 & J3 & J4 & J5).
  destruct (IH _ J1) as (I1 & I2 & I3 & I4).
  { intros a Ha. destruct (H a ltac:(set_solver)) as (La & a0 & E1 & E2 & E3 & E4). split; [done|].
    destruct (J4 _ _ E1) as (a1 & F1 & F2 & F3 & F4). exists a1. split_and!; [done|congruence|congruence|by apply F4..]. }
  split_and!; [done|auto|auto|congruence].
Qed.
Lemma todialLoop_ok ctx rk fl seen td : forall w, coreOk w fl [] seen -> NoDup (akey <$> td) -> (forall x, x ∈ td -> trackedDials w !! akey x = None) ->
  let w' := foldl (todialStep ctx rk) w td in coreOk w' fl [] seen /\ (forall k, waitsFor w k \/ k ∈ akey <$> td -> waitsFor w' k) /\
  pendingRequests w' = pendingRequests w.
Proof.
  induction td as [|x td IH]; intros w O ND H.
  { simpl. split_and!; [done| |done]. intros k [?|Hk]; [done|by apply elem_of_nil in Hk]. }
  simpl. apply NoDup_cons in ND as [Nx ND]. destruct (todial_ok ctx rk w fl seen x O (H x ltac:(set_solver))) as (T1 & T2 & T3 & T4).
  destruct (IH _ T1 ND) as (I1 & I2 & I3).
  { intros y Hy. apply T3; [|apply H; set_solver]. intros E. apply Nx. rewrite <-E. by apply list_elem_of_fmap_2. }
  split_and!; [done| |congruence]. intros k Hk. apply I2. destruct Hk as [Hk|[->|Hk]%elem_of_cons]; [left|left|by right]; apply T2; auto.
Qed.

Lemma respond_ok w fl b seen r resp : coreOk w fl b seen -> r ∉ seen -> coreOk (respond w r resp) fl b ({[r]} ∪ seen).
Proof.
  intros [C1 C2 C3 C4 C5 C6 C7 C8 C9 C10 [A1 A2 A3]] Hr. split; try done. split; simpl.
  - rewrite fmap_app. apply NoDup_app. split_and!; [done| |apply NoDup_singleton]. intros r' H ->%list_elem_of_singleton. apply Hr. set_solver.
  - intros r'. rewrite fmap_app. intros [H| ->%list_elem_of_singleton]%elem_of_app; [by apply A2|]. apply not_elem_of_dom. set_solver.
  - rewrite A3, fmap_app, list_to_set_app_L. simpl. set_solver.
Qed.
Lemma await_ok w fl b seen r pr : coreOk w fl b seen -> r ∉ seen -> pr_addrs pr <> ∅ -> (forall k, k ∈ pr_addrs pr -> waitsFor w k) ->
  coreOk (set_pending w (<[r := pr]> (pendingRequests w))) fl b ({[r]} ∪ seen).
Proof.
  intros [C1 C2 C3 C4 C5 C6 C7 C8 C9 C10 [A1 A2 A3]] Hr Hn Hw. split; try done.
  - intros r' pr'. simpl. destruct (decide (r' = r)) as [->|]; [rewrite lookup_insert_eq; by intros [= <-]|rewrite lookup_insert_ne by done; apply C10].
  - split; simpl; [done| |rewrite A3, dom_insert_L; set_solver]. intros r' H. rewrite lookup_insert_ne; [by apply A2|]. intros <-. apply Hr. set_solver.
Qed.
Lemma joinStep_pending ctx rk m w ad : joinStep ctx rk (set_pending w m) ad = set_pending (joinStep ctx rk w ad) m.
Proof. unfold joinStep. by case_match. Qed.

Lemma ranking_nodup addrs sim : NoDup (Bytes <$> addrs) -> NoDup (akey <$> rankAddrs noDelay ranker addrs sim).
Proof.
  intros H. unfold akey. rewrite (list_fmap_compose ad_Addr Bytes). unfold rankAddrs. destruct sim; by rewrite ranker_perm.
Qed.
Lemma handleRequest_ok e w fl seen r ctx : coreOk w fl [] seen -> timerOk w -> r ∉ seen ->
  (forall addrs, re_addrs e = inl addrs -> NoDup (Bytes <$> addrs)) ->
  coreOk (handleRequest noDelay ranker e w r ctx) fl [] ({[r]} ∪ seen) /\ timerOk (handleRequest noDelay ranker e w r ctx).
Proof.
  intros O T Hr Ha. unfold handleRequest. destruct (re_best e); [split; [by apply respond_ok|done]|].
  destruct (re_addrs e) as [addrs|]; [|split; [by apply respond_ok|done]]. specialize (Ha addrs eq_refl).
  set (rk := rankAddrs noDelay ranker addrs _). pose proof (ranking_nodup addrs (simConnect ctx) Ha) as ND. fold rk in ND.
  set (pr := mkPend _ _ _). destruct (sortOut w pr rk) as [c|[[pr' td] tj]] eqn:Hs; [split; [by apply respond_ok|done]|].
  destruct (sortOut_ok w fl seen rk O pr pr' td tj ND Hs) as (S1 & S2 & S3 & S4 & S5).
  destruct (decide (td = [] /\ tj = [])) as [[-> ->]|Hne]; [split; [by apply respond_ok|done]|].
  assert (Hgo : coreOk (scheduleNextDial (foldl (todialStep ctx rk) (foldl (joinStep ctx rk) (set_pending w (<[r := pr']> (pendingRequests w))) tj) td)) fl [] ({[r]} ∪ seen)
    /\ timerOk (scheduleNextDial (foldl (todialStep ctx rk) (foldl (joinStep ctx rk) (set_pending w (<[r := pr']> (pendingRequests w))) tj) td))).
  { destruct (joinLoop_ok ctx rk fl seen tj w O) as (J1 & J2 & J3 & J4).
    { intros ad Had. destruct (S3 ad Had) as (? & ? & _). split; [done|]. by exists ad. }
    destruct (todialLoop_ok ctx rk fl seen td _ J1) as (D1 & D2 & D3).
    { eapply sublist_NoDup; [exact ND|]. by apply fmap_sublist. }
    { intros x Hx. by apply J3, S2. }
    rewrite (foldl_comm (joinStep ctx rk) (fun w0 => set_pending w0 (<[r := pr']> (pendingRequests w)))) by (intros; apply joinStep_pending).
    rewrite (foldl_comm (todialStep ctx rk) (fun w0 => set_pending w0 (<[r := pr']> (pendingRequests w)))) by done.
    set (w2 := foldl (todialStep ctx rk) _ td) in *. assert (Hp : pendingRequests w2 = pendingRequests w) by congruence. rewrite <-Hp.
    assert (Hall : forall k, k ∈ pr_addrs pr' -> k ∈ akey <$> td \/ k ∈ dkey <$> tj).
    { intros k Hk. destruct (S4 k Hk) as [H1 H2]. apply H2. by apply elem_of_list_to_set in H1. }
    apply schedule_ok_pair, await_ok; [done|done| |].
    - assert (Hin : exists k, k ∈ pr_addrs pr').
      { destruct td as [|x td]; [destruct tj as [|ad tj]; [tauto|]|].
        - exists (dkey ad). destruct (S3 ad ltac:(set_solver)) as (_ & _ & Hin). apply S5; [by apply elem_of_list_to_set|]. intros _. right. set_solver.
        - exists (akey x). apply S5; [|intros _; left; set_solver]. apply elem_of_list_to_set. apply list_elem_of_fmap_2. eapply sublist_subseteq; [done|]. set_solver. }
      destruct Hin. set_solver.
    - intros k Hk. apply D2. destruct (Hall k Hk) as [H|H]; [by right|left]. apply J2. apply list_elem_of_fmap in H as (ad & -> & Had).
      destruct (S3 ad Had) as (? & ? & _). by exists ad. }
  destruct td, tj; [tauto|exact Hgo..].
Qed.

Lemma handleProgress_ok w fl seen now addr : coreOk w fl [] seen -> timerOk w -> Bytes addr ∈ fl ->
  coreOk (handleProgress w now addr) fl [] seen /\ timerOk (handleProgress w now addr) /\ dq (handleProgress w now addr) = dq w /\
  pendingRequests (handleProgress w now addr) = pendingRequests w.
Proof.
  intros O T Hf. destruct (co_flying _ _ _ _ O _ Hf) as (_ & ad & Hk & Hd & Hl). unfold handleProgress. rewrite Hk.
  set (w1 := if IsPublicAddr addr then _ else _). destruct (co_tracked _ _ _ _ O _ _ Hk) as (Hb & _).
  assert (H1 : coreOk w1 fl [] seen /\ dq w1 = dq w /\ pendingRequests w1 = pendingRequests w).
  { unfold w1. destruct (IsPublicAddr addr); [|done]. split; [|done]. set (ad' := with_upgrade ad _). unfold put_dial.
    replace (Bytes (dl_addr ad')) with (Bytes addr) by done.
    assert (Hins : forall k a, trackedDials w !! k = Some a -> exists a', <[Bytes addr := ad']> (trackedDials w) !! k = Some a' /\ dl_addr a' = dl_addr a /\ dl_dialed a' = dl_dialed a /\ (live a -> live a')).
    { intros k a Hka. destruct (decide (k = Bytes addr)) as [->|]; [|exists a; by rewrite lookup_insert_ne]. exists ad'. rewrite lookup_insert_eq.
      assert (a = ad) as -> by congruence. by split_and!. }
    destruct O as [C1 C2 C3 C4 C5 C6 C7 C8 C9 C10 [A1 A2 A3]]. split; simpl; try done.
    - intros y Hy. destruct (C3 y Hy) as (a & E1 & E2 & E3 & E4). destruct (Hins _ _ E1) as (a' & F1 & F2 & F3 & F4). exists a'. split_and!; [done|congruence|congruence|by apply F4..].
    - intros k a. destruct (decide (k = Bytes addr)) as [->|Hn]; [|rewrite lookup_insert_ne by done; apply C4].
      rewrite lookup_insert_eq. intros [= <-]. by apply (C4 _ ad).
    - intros k Hf'. destruct (C6 k Hf') as (D & a & E1 & E2 & E3). split; [done|]. destruct (Hins _ _ E1) as (a' & F1 & F2 & F3 & F4). exists a'. split_and!; [done|congruence|by apply F4..].
    - intros k Hf'. destruct (C9 k Hf') as (a & E1 & E2). destruct (Hins _ _ E1) as (a' & F1 & F2 & F3 & F4). exists a'. split; [done|congruence].
    - intros r pr Hr. destruct (C10 r pr Hr) as [P1 P2]. split; [done|]. intros k Hk'. destruct (P2 k Hk') as (a & E1 & E2).
      destruct (Hins _ _ E1) as (a' & F1 & F2 & F3 & F4). exists a'. split; [done|by apply F4]. }
  destruct H1 as (H1 & H2 & H3). destruct (schedule_ok _ _ _ _ H1) as (S1 & S2 & S3). split_and!; [done|done|congruence|].
  unfold scheduleNextDial. repeat case_match; done.
Qed.

(** ** Executions *)
(** The worker, the dials in flight and the requests received *)
Record dworld := mkDWorld { dw : dialWorker; flight : list bytes; received : gset Request }.
(** A request arrives, with distinct addresses; a dial makes progress. *)
Inductive dInput : dworld -> dworld -> Prop :=
| d_request s r ctx e : r ∉ received s -> (forall addrs, re_addrs e = inl addrs -> NoDup (Bytes <$> addrs)) ->
    dInput s (mkDWorld (handleRequest noDelay ranker e (dw s) r ctx) (flight s) ({[r]} ∪ received s))
| d_progress s now addr : Bytes addr ∈ flight s -> dInput s (mkDWorld (handleProgress (dw s) now addr) (flight s) (received s)).
(** The timer runs out with dials in the queue, and they are handed to the limiter; a dial in flight ends. *)
Inductive dWork : dworld -> dworld -> Prop :=
| d_timer s e backoff t new : dispEnv_ok e -> dialTimer (dw s) = Some t -> dq (dw s) <> [] ->
    w_dials (handleTimer e backoff (dw s)) = w_dials (dw s) ++ new ->
    dWork s (mkDWorld (handleTimer e backoff (dw s)) (flight s ++ new) (received s))
| d_result s e addr res fl : dispEnv_ok e -> flight s ≡ₚ Bytes addr :: fl -> res <> DialFailed ErrDialBackoff -> res <> DialedConn (inr ErrDialBackoff) ->
    dWork s (mkDWorld (handleResult e (dw s) addr res) fl (received s)).
Definition dStep (s s' : dworld) : Prop := dInput s s' \/ dWork s s'.
Definition dworldOk (s : dworld) : Prop := coreOk (dw s) (flight s) [] (received s) /\ timerOk (dw s).
Definition dstart (now : Z) : dworld := mkDWorld (newDialWorker now) [] ∅.
(** What is left to do: an address in the queue is to be dialled and to end. *)
Definition workLeft (s : dworld) : nat := 2 * length (dq (dw s)) + length (flight s).

Lemma dstart_ok now : dworldOk (dstart now).
Proof.
  split; [|by intros []]. split; simpl; try done; try (by constructor); try (intros ? H; by apply elem_of_nil in H).
  split; simpl; [constructor|intros ? H; by apply elem_of_nil in H|done].
Qed.
Lemma coreOk_perm w fl fl' b seen : fl ≡ₚ fl' -> coreOk w fl b seen -> coreOk w fl' b seen.
Proof.
  intros P [C1 C2 C3 C4 C5 C6 C7 C8 C9 C10 A]. split; try done; [|by rewrite <-P|intros k; rewrite <-P; apply C6|by rewrite <-P].
  intros k ad H. destruct (C4 k ad H) as (? & ? & ?). split_and!; [done|done|]. intros. rewrite <-P. auto.
Qed.
Lemma dWork_ok s s' : dworldOk s -> dWork s s' -> dworldOk s' /\ (workLeft s' < workLeft s)%nat.
Proof.
  intros [O T] H. destruct H as [s e backoff t new He Ht Hq Hn|s e addr res fl He Hp N1 N2].
  - destruct (handleTimer_ok e backoff (dw s) (flight s) (received s) He O) as (new' & C & D & T' & L1 & L2).
    assert (new' = new) as -> by (rewrite D in Hn; by apply app_inv_head in Hn). split; [done|]. unfold workLeft. simpl. rewrite length_app. specialize (L2 Hq). lia.
  - destruct (handleResult_ok e (dw s) fl (received s) addr res He (coreOk_perm _ _ _ _ _ Hp O) T N1 N2) as (C & Q & T').
    split; [done|]. unfold workLeft. simpl. rewrite Q, Hp. simpl. lia.
Qed.
Lemma dInput_ok s s' : dworldOk s -> dInput s s' -> dworldOk s'.
Proof.
  intros [O T] H. destruct H as [s r ctx e Hr Ha|s now addr Hf]; [by apply handleRequest_ok|].
  destruct (handleProgress_ok (dw s) (flight s) (received s) now addr O T Hf) as (? & ? & _). done.
Qed.
Lemma dReach_ok now s : rtc dStep (dstart now) s -> dworldOk s.
Proof.
  assert (H : forall a b, rtc dStep a b -> dworldOk a -> dworldOk b).
  { induction 1 as [|a b c [Hs|Hs]]; [done|..]; intros; [eauto using dInput_ok|]. apply IHrtc. by eapply dWork_ok. }
  intros R. exact (H _ _ R (dstart_ok now)).
Qed.
(** While a request waits there is something to do. *)
Lemma dWork_exists s : dworldOk s -> pendingRequests (dw s) <> ∅ -> exists s', dWork s s'.
Proof.
  intros [O T] Hp. apply map_choose in Hp as (r & pr & Hr). destruct (co_pending _ _ _ _ O r pr Hr) as [P1 P2].
  apply set_choose_L in P1 as [k Hk]. set (e := mkDispEnv elements (fun _ => None)). assert (He : dispEnv_ok e) by by split.
  destruct (live_somewhere _ _ _ _ k O (P2 k Hk)) as [Hq|Hf].
  - assert (Hn : dq (dw s) <> []) by (intros E; simpl in Hq; rewrite E in Hq; by apply elem_of_nil in Hq). destruct (T Hn) as [t Ht].
    destruct (handleTimer_ok e (fun _ => false) (dw s) _ _ He O) as (new & _ & D & _). eexists. by eapply (d_timer s e (fun _ => false) t new).
  - apply elem_of_Permutation in Hf as [fl Hf]. destruct (co_flying _ _ _ _ O k ltac:(rewrite Hf; set_solver)) as (_ & ad & Hka & _).
    destruct (co_tracked _ _ _ _ O _ _ Hka) as (Hb & _). eexists. apply (d_result s e (dl_addr ad) (DialFailed ErrContextCanceled) fl); [done|by rewrite Hb|done..].
Qed.

(** C30: The worker dials an address at most once and answers a request at most once.  In every reachable state no address
    has been handed to the limiter twice and [dialsInFlight] counts the dials in flight; no request has two responses, and
    one that has a response does not wait; every other one that has been received waits, for an address that is in the
    queue, with the timer running, or in flight; and the queue is ordered by the delay. *)
Theorem dials_and_answers_once now s : rtc dStep (dstart now) s ->
  NoDup (w_dials (dw s)) /\ dialsInFlight (dw s) = Z.of_nat (length (flight s)) /\ (forall k, k ∈ flight s -> k ∈ w_dials (dw s)) /\
  NoDup (fst <$> w_out (dw s)) /\ received s = dom (pendingRequests (dw s)) ∪ list_to_set (fst <$> w_out (dw s)) /\
  (forall r, r ∈ fst <$> w_out (dw s) -> pendingRequests (dw s) !! r = None) /\
  (forall r pr, pendingRequests (dw s) !! r = Some pr -> exists k, k ∈ pr_addrs pr /\
     ((k ∈ akey <$> dq (dw s) /\ is_Some (dialTimer (dw s))) \/ k ∈ flight s)) /\
  qSorted (dq (dw s)).
Proof.
  intros [O T]%dReach_ok. destruct (co_answered _ _ _ _ O) as [A1 A2 A3]. split_and!; [apply O|apply O| |done..| |apply O].
  - intros k Hk. by apply (co_flying _ _ _ _ O).
  - intros r pr Hr. destruct (co_pending _ _ _ _ O r pr Hr) as [P1 P2]. apply set_choose_L in P1 as [k Hk]. exists k. split; [done|].
    destruct (live_somewhere _ _ _ _ k O (P2 k Hk)) as [Hq|]; [left|by right]. split; [done|]. apply T. intros E. simpl in Hq. rewrite E in Hq. by apply elem_of_nil in Hq.
Qed.

(** C31: Every request is answered.  From a reachable state, if no further request comes, the timer can run out and dials can
    end at most [workLeft] times: twice for every address in the queue and once for every dial in flight.  When nothing
    more can happen, every request that was received has exactly one response. *)
Theorem requests_answered now s s' n : rtc dStep (dstart now) s -> nsteps dWork n s s' ->
  (n + workLeft s' <= workLeft s)%nat /\
  ((forall s2, dWork s' s2 -> False) -> received s' = list_to_set (fst <$> w_out (dw s')) /\ NoDup (fst <$> w_out (dw s'))).
Proof.
  intros O%dReach_ok H. assert (G : dworldOk s' /\ (n + workLeft s' <= workLeft s)%nat).
  { induction H as [|n a b c Hab _ IH]; [done|]. destruct (dWork_ok a b O Hab) as [Ob L]. destruct (IH Ob) as [Oc L']. split; [done|lia]. }
  destruct G as [O' L]. split; [done|]. intros Hstuck. destruct O' as [C T]. destruct (co_answered _ _ _ _ C) as [A1 A2 A3]. split; [|done].
  assert (Hp : pendingRequests (dw s') = ∅).
  { destruct (decide (pendingRequests (dw s') = ∅)) as [|Hp]; [done|]. destruct (dWork_exists s' (conj C T) Hp) as [s2 H2]. by destruct (Hstuck s2). }
  rewrite A3, Hp, dom_empty_L. set_solver.
Qed.
End run.

Module DialExample.
Definition dip (b : Byte.byte) : Component := mkComponent [Byte.x04; Byte.x05; Byte.x01; Byte.x01; b] (Some (@protoIP4 unsignedVarint)) 1.
Definition dtcp (p : Byte.byte) : Component := mkComponent [Byte.x06; Byte.x0f; p] (Some (@protoTCP unsignedVarint)) 1.
Definition addr1 : Multiaddr := [dip Byte.x01; dtcp Byte.xa1].
Definition addr2 : Multiaddr := [dip Byte.x02; dtcp Byte.xa1].
Definition rank0 := NoDelayDialRanker (GS := mergeSort).
Definition rank1 := DefaultDialRanker (GS := mergeSort).
Definition ctx0 : dialCtx := mkDialCtx false false.
Definition env0 : dispEnv := mkDispEnv elements (fun _ => None).
Definition never (_ : bytes) : bool := false.
Definition asked : dialWorker := handleRequest rank0 rank1 (mkReqEnv None (inl [addr1; addr2]) []) (newDialWorker 0) 0%nat ctx0.
Definition dialed1 : dialWorker := handleTimer env0 never asked.
Definition failed1 : dialWorker := handleResult env0 dialed1 addr1 (DialFailed (ErrOther 1)).
Definition dialed2 : dialWorker := handleTimer env0 never failed1.
Definition failed2 : dialWorker := handleResult env0 dialed2 addr2 (DialFailed (ErrOther 2)).
Definition s0 : dworld := dstart 0.
Definition s1 : dworld := mkDWorld asked [] ({[0%nat]} ∪ ∅).
Definition s2 : dworld := mkDWorld dialed1 [Bytes addr1] ({[0%nat]} ∪ ∅).
Definition s3 : dworld := mkDWorld failed1 [] ({[0%nat]} ∪ ∅).
Definition s4 : dworld := mkDWorld dialed2 [Bytes addr2] ({[0%nat]} ∪ ∅).
Definition s5 : dworld := mkDWorld failed2 [] ({[0%nat]} ∪ ∅).
Lemma env0_ok : dispEnv_ok env0.
Proof. by split. Qed.
Lemma queue_ne (q : dialQueue) : length q <> 0%nat -> q <> [].
Proof. by intros H ->. Qed.
Lemma step1 : dInput rank0 rank1 s0 s1.
Proof.
  apply (d_request _ _ s0 0%nat ctx0); [set_solver|]. simpl. intros addrs [= <-]. assert (H : bool_decide (NoDup (Bytes <$> [addr1; addr2])) = true) by by vm_compute.
  by apply bool_decide_eq_true in H.
Qed.
Lemma step2 : dWork s1 s2.
Proof. apply (d_timer s1 env0 never 0 [Bytes addr1]); [apply env0_ok|by vm_compute|apply queue_ne; by vm_compute|by vm_compute]. Qed.
Lemma step3 : dWork s2 s3.
Proof. by apply (d_result s2 env0 addr1 (DialFailed (ErrOther 1)) []); [apply env0_ok|..]. Qed.
Lemma step4 : dWork s3 s4.
Proof. apply (d_timer s3 env0 never 0 [Bytes addr2]); [apply env0_ok|by vm_compute|apply queue_ne; by vm_compute|by vm_compute]. Qed.
Lemma step5 : dWork s4 s5.
Proof. by apply (d_result s4 env0 addr2 (DialFailed (ErrOther 2)) []); [apply env0_ok|..]. Qed.
Lemma reach1 : rtc (dStep rank0 rank1) s0 s1.
Proof. apply rtc_once. left. apply step1. Qed.
Lemma reach2 : rtc (dStep rank0 rank1) s0 s2.
Proof. eapply rtc_r; [apply reach1|]. right. apply step2. Qed.
Lemma work4 : nsteps dWork 4 s1 s5.
Proof. eapply nsteps_l; [apply step2|]. eapply nsteps_l; [apply step3|]. eapply nsteps_l; [apply step4|]. eapply nsteps_l; [apply step5|constructor]. Qed.
Lemma stuck5 : forall s, dWork s5 s -> False.
Proof.
  intros s H. assert (Hq : length (dq failed2) = 0%nat) by by vm_compute. inversion H as [? ? ? ? ? ? ? Hn|? ? ? ? ? ? Hp]; subst.
  - apply Hn. by apply nil_length_inv.
  - by apply Permutation_nil_cons in Hp.
Qed.
End DialExample.
Import DialExample.

(** One address has been handed to the limiter, and the request waits. *)
Lemma dials_and_answers_once_witness : w_dials (dw s2) = [Bytes addr1] /\ NoDup (w_dials (dw s2)) /\ dialsInFlight (dw s2) = 1.
Proof.
  split; [by vm_compute|]. destruct (dials_and_answers_once rank0 rank1 0 s2 reach2) as (H1 & H2 & _). split; [exact H1|exact H2].
Defined.
(** Both dials fail, and the request has its response. *)
Lemma requests_answered_witness : (4 + workLeft s5 <= workLeft s1)%nat /\ received s5 = list_to_set (fst <$> w_out (dw s5)).
Proof.
  destruct (requests_answered rank0 rank1 0 s1 s5 4 reach1 work4) as [H1 H2]. split; [exact H1|]. exact (proj1 (H2 stuck5)).
Defined.
