(* ===== verification/DialSync.v ===== *)
(** * Backoff and synchronisation of dials (p2p/net/swarm/swarm_dial.go DialBackoff, dial_sync.go)

    [DialBackoff] keeps addresses from being dialled too soon after a failure;
    [dialSync] lets all callers that dial a peer share one worker.  Times and durations
    are nanoseconds; durations are [int64]. *)
From Stdlib Require Import ZArith Lia.
From stdpp Require Import base tactics list numbers option gmap sets fin_maps relations sorting.
From S2P Require Import Prelude Collections GoBytes BlsRpc DialRank DialWorker.
Local Open Scope Z_scope.

(** ** Backoff *)
Definition Second : Z := 1000000000.
Definition BackoffBase : Z := 5 * Second.
Definition BackoffCoef : Z := Second.
Definition BackoffMax : Z := 300 * Second.
Record backoffAddr := mkBackoff { tries : Z; until : Z }.
Abbreviation DialBackoff := (gmap PeerID (gmap bytes backoffAddr)).
Definition Backoff (db : DialBackoff) (now : Z) (p : PeerID) (addr : bytes) : bool :=
  match db !! p ≫= (.!! addr) with
  | Some ap => now <? until ap
  | None => false
  end.
Definition backoffTime (tries : Z) : Z :=
  let t := Int64.wrap64 (BackoffBase + Int64.wrap64 (BackoffCoef * Int64.wrap64 (tries * tries))) in if BackoffMax <? t then BackoffMax else t.
Definition AddBackoff (db : DialBackoff) (now : Z) (p : PeerID) (addr : bytes) : DialBackoff :=
  let bp := default ∅ (db !! p) in
  match bp !! addr with
  | None => <[p := <[addr := mkBackoff 1 (now + BackoffBase)]> bp]> db
  | Some ba => <[p := <[addr := mkBackoff (Int64.wrap64 (tries ba + 1)) (now + backoffTime (tries ba))]> bp]> db
  end.
Definition Clear (db : DialBackoff) (p : PeerID) : DialBackoff := delete p db.
Definition stillGood (now : Z) (e : gmap bytes backoffAddr) : bool :=
  existsb (fun ba => now <? until ba + backoffTime (tries ba)) (snd <$> map_to_list e).
Definition cleanup (db : DialBackoff) (now : Z) : DialBackoff := filter (fun pe => stillGood now pe.2 = true) db.

(** Histories of the calls that change the state *)
Inductive backoffOp := BAdd (now : Z) (p : PeerID) (addr : bytes) | BClear (now : Z) (p : PeerID) | BCleanup (now : Z).
Definition opTime (op : backoffOp) : Z := match op with BAdd now _ _ | BClear now _ | BCleanup now => now end.
Definition backoffStep (db : DialBackoff) (op : backoffOp) : DialBackoff :=
  match op with BAdd now p a => AddBackoff db now p a | BClear _ p => Clear db p | BCleanup now => cleanup db now end.
Definition backoffRun (ops : list backoffOp) : DialBackoff := foldl backoffStep ∅ ops.
(** The last failure since the peer was cleared *)
Definition failureStep (p : PeerID) (a : bytes) (o : option Z) (op : backoffOp) : option Z :=
  match op with
  | BAdd now p' a' => if bool_decide (p = p' /\ a = a') then Some now else o
  | BClear _ p' => if bool_decide (p = p') then None else o
  | BCleanup _ => o
  end.
Definition lastFailure (ops : list backoffOp) (p : PeerID) (a : bytes) : option Z := foldl (failureStep p a) None ops.

(** The backoff does not overflow for this many failures. *)
Definition maxTries : Z := 96038.
Lemma backoffTime_bounds n : 1 <= n <= maxTries -> BackoffBase <= backoffTime n <= BackoffMax.
Proof.
  intros Hn. unfold backoffTime, BackoffBase, BackoffCoef, BackoffMax, Second, maxTries in *.
  assert (H1 : 1 <= n * n <= 9223297444) by (split; [nia|]; transitivity (96038 * 96038); [apply Z.mul_le_mono_nonneg; lia|done]). rewrite (Int64.wrap64_small (n * n)) by (unfold Int64.is_int64, Int64.MinInt64, Int64.MaxInt64; lia).
  rewrite (Int64.wrap64_small (_ * (n * n))) by (unfold Int64.is_int64, Int64.MinInt64, Int64.MaxInt64; lia).
  rewrite Int64.wrap64_small by (unfold Int64.is_int64, Int64.MinInt64, Int64.MaxInt64; lia). destruct (_ <? _) eqn:E; lia.
Qed.
(** One failure more, and the backoff is negative: the address can be dialled at once. *)
Lemma backoff_overflow : backoffTime (maxTries + 1) < 0.
Proof. by vm_compute. Qed.

Definition timesOk (ops : list backoffOp) : Prop := StronglySorted (fun a b => opTime a <= opTime b) ops.
(** An entry belongs to the last failure; a failure without an entry is over. *)
Definition entryOk (n now : Z) (o : option Z) (e : option backoffAddr) : Prop :=
  match e with
  | Some ba => 1 <= tries ba <= n /\ exists u, o = Some u /\ u + BackoffBase <= until ba <= u + BackoffMax
  | None => match o with Some u => u + BackoffBase <= now | None => True end
  end.
Definition entry (db : DialBackoff) (p : PeerID) (a : bytes) : option backoffAddr := db !! p ≫= (.!! a).
Lemma entry_insert db p bp p' a : entry (<[p := bp]> db) p' a = if decide (p' = p) then bp !! a else entry db p' a.
Proof. unfold entry. destruct (decide (p' = p)) as [->|]; [by rewrite lookup_insert_eq|by rewrite lookup_insert_ne]. Qed.
Lemma AddBackoff_entry db now p a p' a' : entry (AddBackoff db now p a) p' a' =
  if decide (p' = p /\ a' = a) then
    Some (match entry db p a with None => mkBackoff 1 (now + BackoffBase) | Some ba => mkBackoff (Int64.wrap64 (tries ba + 1)) (now + backoffTime (tries ba)) end)
  else entry db p' a'.
Proof.
  assert (E : forall b, default ∅ (db !! p) !! b = entry db p b) by (intros; unfold entry; by destruct (db !! p)).
  unfold AddBackoff. rewrite E. destruct (entry db p a) as [ba|] eqn:Ee; rewrite entry_insert; (destruct (decide (p' = p)) as [->|];
    [|by rewrite decide_False by naive_solver]); (destruct (decide (a' = a)) as [->|]; [rewrite lookup_insert_eq, decide_True by done; done|]);
    rewrite lookup_insert_ne, E, decide_False by naive_solver; done.
Qed.
Lemma cleanup_entry db now p a : entry (cleanup db now) p a = if decide (stillGood now (default ∅ (db !! p)) = true) then entry db p a else None.
Proof.
  unfold entry, cleanup. rewrite map_lookup_filter. destruct (db !! p) as [e|]; simpl; [|by case_decide].
  by case_decide; [rewrite option_guard_True|rewrite option_guard_False].
Qed.
Lemma stillGood_entry now e a ba : stillGood now e = false -> e !! a = Some ba -> until ba + backoffTime (tries ba) <= now.
Proof.
  intros H Hk. apply Z.nlt_ge. intros Hlt. apply not_true_iff_false in H. apply H. unfold stillGood. apply existsb_exists. exists ba.
  split; [|by apply Z.ltb_lt]. apply list_elem_of_In, list_elem_of_fmap. exists (a, ba). by rewrite elem_of_map_to_list.
Qed.
Lemma entryOk_weaken n now n' now' o e : entryOk n now o e -> n <= n' -> now <= now' -> entryOk n' now' o e.
Proof. unfold entryOk. destruct e as [ba|]; [intros [? ?]; split; [lia|done]|]. destruct o; [lia|done]. Qed.

Lemma backoffStep_ok db op n now p a o : entryOk n now o (entry db p a) -> 0 <= n < maxTries -> now <= opTime op ->
  entryOk (n + 1) (opTime op) (failureStep p a o op) (entry (backoffStep db op) p a).
Proof.
  intros H Hn Ht. destruct op as [t q b|t q|t]; simpl in *.
  - rewrite AddBackoff_entry. case_bool_decide as E; [destruct E as [-> ->]; rewrite decide_True by done|rewrite decide_False by naive_solver; by apply (entryOk_weaken n now); [|lia..]].
    destruct (entry db q b) as [ba|]; simpl in *.
    + destruct H as [H1 _]. pose proof (backoffTime_bounds (tries ba) ltac:(lia)). rewrite Int64.wrap64_small by (unfold Int64.is_int64, Int64.MinInt64, Int64.MaxInt64, maxTries in *; lia).
      split; [lia|]. exists t. split; [done|lia].
    + split; [lia|]. exists t. split; [done|]. unfold BackoffBase, BackoffMax, Second. lia.
  - case_bool_decide as E; [subst; unfold entry, Clear; by rewrite lookup_delete_eq|].
    replace (entry (Clear db q) p a) with (entry db p a) by (unfold entry, Clear; by rewrite lookup_delete_ne). by apply (entryOk_weaken n now); [|lia..].
  - rewrite cleanup_entry. case_decide as Hg; [by apply (entryOk_weaken n now); [|lia..]|]. apply not_true_is_false in Hg. simpl.
    unfold entry in H. destruct (db !! p) as [e|]; simpl in *; [|destruct o; [lia|done]]. destruct (e !! a) as [ba|] eqn:Ea; simpl in H; [|destruct o; [lia|done]].
    destruct H as [H1 (u & -> & Hu)]. pose proof (stillGood_entry t e a ba Hg Ea). pose proof (backoffTime_bounds (tries ba) ltac:(lia)).
    unfold BackoffBase, BackoffMax, Second in *. lia.
Qed.
Lemma backoffRun_ok ops p a now : timesOk ops -> Z.of_nat (length ops) <= maxTries -> Forall (fun op => opTime op <= now) ops ->
  entryOk (Z.of_nat (length ops)) now (lastFailure ops p a) (entry (backoffRun ops) p a).
Proof.
  revert p a now. induction ops as [|op ops IH] using rev_ind; intros p a now Ht Hl Hn; [done|].
  assert (Hs : timesOk ops /\ Forall (fun o => opTime o <= opTime op) ops).
  { clear -Ht. induction ops as [|o ops IH]; [split; constructor|]. simpl in Ht. apply StronglySorted_inv in Ht as [H1 H2].
    destruct (IH H1) as [H3 H4]. apply Forall_app in H2 as [H2 H5]. apply Forall_cons in H5 as [H5 _]. split; [by constructor|by constructor]. }
  destruct Hs as [Hs Hb]. rewrite length_app in *. simpl in *. apply Forall_app in Hn as [_ [Hop _]%Forall_cons].
  assert (Hi : forall p a, entryOk (Z.of_nat (length ops)) (opTime op) (lastFailure ops p a) (entry (backoffRun ops) p a)) by (intros; apply IH; [done|lia|done]).
  unfold backoffRun, lastFailure. rewrite !foldl_app. simpl.
  eapply entryOk_weaken; [eapply backoffStep_ok; [apply Hi|lia|done]|lia|done].
Qed.

(** *** The failures that are remembered *)
(** How long an address is left alone after a failure that [k] remembered ones precede *)
Definition delay (k : nat) : Z := Z.min BackoffMax (BackoffBase + BackoffCoef * (Z.of_nat k * Z.of_nat k)).
(** The times of the failures of an address, the last one first *)
Abbreviation failureLog := (gmap PeerID (gmap bytes (list Z))).
(** The failures are worth remembering at [now]: less than the delay of one more failure has passed since the last delay ended. *)
Definition recent (now : Z) (fs : list Z) : Prop :=
  match fs with [] => False | u :: us => now < u + delay (length us) + delay (length fs) end.
#[export] Instance recent_dec now fs : Decision (recent now fs).
Proof. destruct fs; simpl; apply _. Defined.
(** A failure is noted; a success forgets the peer; the cleanup forgets the peers without an address worth remembering. *)
Definition rememberStep (m : failureLog) (op : backoffOp) : failureLog :=
  match op with
  | BAdd now p a => <[p := <[a := now :: default [] (m !! p ≫= (.!! a))]> (default ∅ (m !! p))]> m
  | BClear _ p => delete p m
  | BCleanup now => filter (fun pe => map_Exists (fun _ => recent now) pe.2) m
  end.
Definition remembered (ops : list backoffOp) : failureLog := foldl rememberStep ∅ ops.

Definition backoffOf (fs : list Z) : backoffAddr :=
  mkBackoff (Z.of_nat (length fs)) (match fs with [] => 0 | u :: us => u + delay (length us) end).

Lemma backoffTime_delay (k : nat) : Z.of_nat k <= maxTries -> backoffTime (Z.of_nat k) = delay k.
Proof.
  intros Hk. unfold backoffTime, delay, BackoffBase, BackoffCoef, BackoffMax, Second, maxTries in *.
  assert (H1 : 0 <= Z.of_nat k * Z.of_nat k <= 9223297444)
    by (split; [nia|]; transitivity (96038 * 96038); [apply Z.mul_le_mono_nonneg; lia|done]).
  rewrite !Int64.wrap64_small by (repeat rewrite Int64.wrap64_small; unfold Int64.is_int64, Int64.MinInt64, Int64.MaxInt64; lia).
  destruct (Z.ltb_spec (300 * 1000000000) (5 * 1000000000 + 1000000000 * (Z.of_nat k * Z.of_nat k))); lia.
Qed.
Lemma stillGood_exists now e : stillGood now e = true <-> map_Exists (fun _ ba => now < until ba + backoffTime (tries ba)) e.
Proof.
  unfold stillGood. rewrite existsb_exists. split.
  - intros (ba & Hin & Hlt). apply list_elem_of_In, list_elem_of_fmap in Hin as ([a ba'] & -> & Hin%elem_of_map_to_list).
    exists a, ba'. split; [done|by apply Z.ltb_lt].
  - intros (a & ba & Hin & Hlt). exists ba. split; [|by apply Z.ltb_lt]. apply list_elem_of_In, list_elem_of_fmap.
    exists (a, ba). by rewrite elem_of_map_to_list.
Qed.

(** Between 1 and [n] failures are remembered of an address, if any. *)
Definition logOk (n : Z) (m : failureLog) : Prop := map_Forall (fun _ => map_Forall (fun _ fs => 1 <= Z.of_nat (length fs) <= n)) m.
Definition implements (m : failureLog) : DialBackoff := (fun e : gmap bytes (list Z) => backoffOf <$> e) <$> m.

Lemma stillGood_implements n now e : map_Forall (fun _ fs => 1 <= Z.of_nat (length fs) <= n) e -> n <= maxTries ->
  stillGood now (backoffOf <$> e) = true <-> map_Exists (fun _ => recent now) e.
Proof.
  intros He Hn. rewrite stillGood_exists. unfold map_Exists. setoid_rewrite lookup_fmap_Some. split.
  - intros (a & ba & (fs & <- & Ha) & Hlt). exists a, fs. split; [done|]. specialize (He a fs Ha). destruct fs as [|u us]; [simpl in He; lia|].
    cbn [backoffOf until tries] in Hlt. rewrite backoffTime_delay in Hlt by (simpl in *; lia). done.
  - intros (a & fs & Ha & Hr). exists a, (backoffOf fs). split; [by exists fs|]. specialize (He a fs Ha). destruct fs as [|u us]; [done|].
    cbn [backoffOf until tries]. rewrite backoffTime_delay by (simpl in *; lia). done.
Qed.

Lemma logOk_step n m op : logOk n m -> 0 <= n -> logOk (n + 1) (rememberStep m op).
Proof.
  intros H Hn. assert (H' : logOk (n + 1) m) by (intros p e Hp a fs Ha; specialize (H p e Hp a fs Ha); simpl in H; lia).
  destruct op as [t p a|t p|t]; simpl; [|by apply map_Forall_delete|intros p e [He _]%map_lookup_filter_Some; by apply (H' p)].
  apply map_Forall_insert_2; [|done]. apply map_Forall_insert_2.
  - destruct (m !! p) as [e|] eqn:Ep; simpl; [|lia]. destruct (e !! a) as [fs|] eqn:Ea; simpl; [|lia].
    specialize (H p e Ep a fs Ea). simpl in H. lia.
  - destruct (m !! p) as [e|] eqn:Ep; simpl; [by apply (H' p)|apply map_Forall_empty].
Qed.

Lemma implements_step n m op : logOk n m -> 0 <= n -> n < maxTries ->
  backoffStep (implements m) op = implements (rememberStep m op).
Proof.
  intros H Hn Hm. unfold implements. destruct op as [t p a|t p|t]; simpl.
  - assert (Ed : default ∅ (((fun e : gmap bytes (list Z) => backoffOf <$> e) <$> m) !! p) = backoffOf <$> default ∅ (m !! p))
      by (rewrite lookup_fmap; destruct (m !! p); simpl; [done|by rewrite fmap_empty]).
    unfold AddBackoff. rewrite Ed, lookup_fmap, fmap_insert, fmap_insert.
    assert (Ea : default [] (m !! p ≫= (.!! a)) = default [] (default ∅ (m !! p) !! a))
      by (destruct (m !! p); simpl; [done|by rewrite lookup_empty]).
    rewrite Ea. destruct (default ∅ (m !! p) !! a) as [fs|] eqn:Ef; simpl.
    + assert (Hf : 1 <= Z.of_nat (length fs) <= n).
      { destruct (m !! p) as [e|] eqn:Ep; cbn [default] in Ef; [exact (H p e Ep a fs Ef)|by rewrite lookup_empty in Ef]. }
      unfold maxTries in *. rewrite backoffTime_delay, Int64.wrap64_small
        by (unfold maxTries, Int64.is_int64, Int64.MinInt64, Int64.MaxInt64; lia).
      do 2 f_equal. unfold backoffOf. cbn [length]. f_equal. lia.
    + done.
  - unfold Clear. by rewrite fmap_delete.
  - unfold cleanup. rewrite map_filter_fmap. f_equal. apply map_filter_ext. intros p e Hp. simpl.
    apply (stillGood_implements n); [by apply (H p)|lia].
Qed.

Lemma backoffRun_implements ops : Z.of_nat (length ops) <= maxTries ->
  backoffRun ops = implements (remembered ops) /\ logOk (Z.of_nat (length ops)) (remembered ops).
Proof.
  induction ops as [|op ops IH] using rev_ind; intros Hl; [by split|]. rewrite length_app in *. cbn [length] in *.
  destruct IH as [E L]; [lia|]. unfold backoffRun, remembered in *. rewrite !foldl_app. cbn [foldl]. rewrite E. split.
  - apply (implements_step (Z.of_nat (length ops))); [done|lia..].
  - replace (Z.of_nat (length ops + 1)) with (Z.of_nat (length ops) + 1) by lia. by apply logOk_step; [|lia].
Qed.

(** C32: The backoff follows the failures, in every history of at most 96038 calls (the delay overflows when an address has
    failed more often, see [backoff_overflow]).  An address is kept from being dialled exactly until [delay k] has passed
    since its last failure, where [delay k] is five seconds and k^2 more, at most five minutes, and [k] is the number of its
    failures that were remembered before: those since the peer was last cleared, or dropped by a cleanup that found no
    address of it worth remembering.  So it is kept from being dialled only if it has failed since its peer was cleared,
    within the last five minutes; and always in the five seconds after a failure, the cleanup notwithstanding, unless the
    peer is cleared. *)
Theorem backoff_follows_failures ops p a now : timesOk ops -> Z.of_nat (length ops) <= maxTries -> Forall (fun op => opTime op <= now) ops ->
  (Backoff (backoffRun ops) now p a = true <->
     exists u us, remembered ops !! p ≫= (.!! a) = Some (u :: us) /\ now < u + delay (length us)) /\
  (Backoff (backoffRun ops) now p a = true -> exists u, lastFailure ops p a = Some u /\ now < u + BackoffMax) /\
  (forall u, lastFailure ops p a = Some u -> now < u + BackoffBase -> Backoff (backoffRun ops) now p a = true).
Proof.
  intros H1 H2 H3. split.
  - destruct (backoffRun_implements ops H2) as [-> L]. unfold Backoff, implements. rewrite lookup_fmap.
    destruct (remembered ops !! p) as [e|] eqn:Ep; simpl; [|split; [done|naive_solver]]. rewrite lookup_fmap.
    destruct (e !! a) as [fs|] eqn:Ea; simpl; [|split; [done|naive_solver]]. specialize (L p e Ep a fs Ea). simpl in L.
    destruct fs as [|u us]; [simpl in L; lia|]. rewrite Z.ltb_lt. naive_solver.
  - pose proof (backoffRun_ok ops p a now H1 H2 H3) as H. unfold Backoff. fold (entry (backoffRun ops) p a).
    destruct (entry (backoffRun ops) p a) as [ba|]; simpl in H.
    + destruct H as [_ (u & E & Hu)]. split; [intros Hb%Z.ltb_lt; exists u; split; [done|lia]|]. rewrite E. intros u' [= <-] Hlt. apply Z.ltb_lt. lia.
    + split; [done|]. intros u E Hlt. rewrite E in H. lia.
Qed.

(** ** One worker per peer *)
(** A dial in progress: the number of callers, the cause with which its context was cancelled, and whether [reqch] is closed.
    It is an object that the callers keep a pointer to; [next] is the next address of one. *)
Abbreviation Did := nat.
Inductive cancelCause := ConcurrentDialSuccessful | DialFailedWith (e : dialErr).
Record activeDial := mkActive { ac_peer : PeerID; refCnt : Z; cancelled : option cancelCause; closed : bool }.
Record dialSync := mkSync { dials : gmap PeerID Did; active : gmap Did activeDial; nextDial : Did }.
Definition newDialSync : dialSync := mkSync ∅ ∅ 0%nat.
Definition set_active (ds : dialSync) (d : Did) (ad : activeDial) : dialSync := mkSync (dials ds) (<[d := ad]> (active ds)) (nextDial ds).
Definition getActiveDial (ds : dialSync) (p : PeerID) : dialSync * Did :=
  match dials ds !! p with
  | Some d =>
      match active ds !! d with
      | Some ad => (set_active ds d (mkActive (ac_peer ad) (refCnt ad + 1) (cancelled ad) (closed ad)), d)
      | None => (ds, d)
      end
  | None => let d := nextDial ds in (mkSync (<[p := d]> (dials ds)) (<[d := mkActive p 1 None false]> (active ds)) (S d), d)
  end.
(** The context of the request that [dial] sends to the worker; the context of the dial itself carries no values. *)
Definition requestCtx (ctx : dialCtx) : dialCtx := mkDialCtx (simConnect ctx) (forceDirect ctx).
(** [ad.reqch <- ...] panics when the channel is closed *)
Definition sendRequest (ds : dialSync) (d : Did) : outcome dialErr unit :=
  match active ds !! d with Some ad => if closed ad then Panic else Ok tt | None => Panic end.
(** The end of [Dial], with its error *)
Definition endDial (ds : dialSync) (d : Did) (p : PeerID) (err : option dialErr) : outcome dialErr dialSync :=
  match active ds !! d with
  | None => Panic
  | Some ad =>
      let n := refCnt ad - 1 in
      if n =? 0 then
        let cause := match err with None => ConcurrentDialSuccessful | Some e => DialFailedWith e end in
        if closed ad then Panic
        else Ok (mkSync (delete p (dials ds)) (<[d := mkActive (ac_peer ad) n (Some cause) true]> (active ds)) (nextDial ds))
      else Ok (set_active ds d (mkActive (ac_peer ad) n (cancelled ad) (closed ad)))
  end.

(** Callers of [Dial]: the peer, the dial, and whether the request has been sent *)
Record caller := mkCaller { ca_peer : PeerID; ca_dial : Did; ca_sent : bool }.
Record syncWorld := mkSyncWorld { sw : dialSync; callers : gmap nat caller; requests : list (Did * nat) }.
Definition syncStart : syncWorld := mkSyncWorld newDialSync ∅ [].
(** A caller gets the dial; it sends its request; it leaves with a response, or because its context is done.  [Panic] is a
    panic of the step. *)
Inductive syncStep : syncWorld -> outcome dialErr syncWorld -> Prop :=
| s_call w c p : callers w !! c = None ->
    syncStep w (let '(ds, d) := getActiveDial (sw w) p in Ok (mkSyncWorld ds (<[c := mkCaller p d false]> (callers w)) (requests w)))
| s_send w c ca : callers w !! c = Some ca -> ca_sent ca = false ->
    syncStep w (match sendRequest (sw w) (ca_dial ca) with
                | Ok _ => Ok (mkSyncWorld (sw w) (<[c := mkCaller (ca_peer ca) (ca_dial ca) true]> (callers w)) (requests w ++ [(ca_dial ca, c)]))
                | _ => Panic
                end)
| s_end w c ca err : callers w !! c = Some ca ->
    syncStep w (match endDial (sw w) (ca_dial ca) (ca_peer ca) err with
                | Ok ds => Ok (mkSyncWorld ds (delete c (callers w)) (requests w))
                | _ => Panic
                end).
Definition syncOk (w w' : syncWorld) : Prop := syncStep w (Ok w').

Definition onDial (d : Did) (ca : caller) : Z := if decide (ca_dial ca = d) then 1 else 0.
(** Every dial counts its callers, and is open and in the map as long as it has some. *)
Record syncInv (w : syncWorld) : Prop := {
  si_fresh d ad : active (sw w) !! d = Some ad -> (d < nextDial (sw w))%nat;
  si_count d ad : active (sw w) !! d = Some ad -> refCnt ad = sumMap (onDial d) (callers w);
  si_open d ad : active (sw w) !! d = Some ad -> if closed ad then refCnt ad = 0 /\ is_Some (cancelled ad)
    else 0 < refCnt ad /\ cancelled ad = None /\ dials (sw w) !! ac_peer ad = Some d;
  si_dials p d : dials (sw w) !! p = Some d -> exists ad, active (sw w) !! d = Some ad /\ closed ad = false /\ ac_peer ad = p;
  si_callers c ca : callers w !! c = Some ca -> exists ad, active (sw w) !! ca_dial ca = Some ad /\ closed ad = false /\ ac_peer ad = ca_peer ca }.

Lemma onDial_nonneg d ca : 0 <= onDial d ca.
Proof. unfold onDial. case_decide; lia. Qed.
Lemma onDial_same d p b : onDial d (mkCaller p d b) = 1.
Proof. unfold onDial. by rewrite decide_True. Qed.
Lemma onDial_other d d' p b : d <> d' -> onDial d (mkCaller p d' b) = 0.
Proof. intros H. unfold onDial. rewrite decide_False; [done|]. simpl. congruence. Qed.
Lemma fresh_count w : syncInv w -> sumMap (onDial (nextDial (sw w))) (callers w) = 0.
Proof.
  intros O. assert (H : forall c ca, callers w !! c = Some ca -> ca_dial ca <> nextDial (sw w)).
  { intros c ca Hc E. destruct (si_callers _ O c ca Hc) as (ad & Ha & _). apply (si_fresh _ O) in Ha. lia. }
  revert H. generalize (callers w), (nextDial (sw w)). intros m d. induction m as [|c ca m Hc IH] using map_ind; intros H; [apply sumMap_empty|].
  rewrite sumMap_insert_new by done. rewrite IH.
  - unfold onDial. rewrite decide_False; [lia|]. apply (H c). by rewrite lookup_insert_eq.
  - intros c' ca' Hc'. apply (H c'). rewrite lookup_insert_ne; [done|congruence].
Qed.
(** A dial that stays open gets another count of callers. *)
Lemma recount_ok w d ad n m reqs : syncInv w -> active (sw w) !! d = Some ad -> closed ad = false -> 0 < n ->
  (forall d', sumMap (onDial d') m = if decide (d' = d) then n else sumMap (onDial d') (callers w)) ->
  (forall c ca, m !! c = Some ca -> ca_dial ca = d /\ ca_peer ca = ac_peer ad \/ callers w !! c = Some ca) ->
  syncInv (mkSyncWorld (set_active (sw w) d (mkActive (ac_peer ad) n (cancelled ad) (closed ad))) m reqs).
Proof.
  intros O Ha Hcl Hn Hm Hin. pose proof (si_open _ O d ad Ha) as Ho. rewrite Hcl in Ho. destruct O as [O1 O2 O3 O4 O5]. split; simpl.
  - intros d' ad' H. destruct (decide (d' = d)) as [->|]; [eauto|]. rewrite lookup_insert_ne in H by done. eauto.
  - intros d' ad' H. rewrite Hm. destruct (decide (d' = d)) as [->|]; [rewrite lookup_insert_eq in H; by injection H as <-|rewrite lookup_insert_ne in H by done; eauto].
  - intros d' ad' H. destruct (decide (d' = d)) as [->|]; [|rewrite lookup_insert_ne in H by done; by apply O3].
    rewrite lookup_insert_eq in H. injection H as <-. simpl. rewrite Hcl. split_and!; [done|apply Ho..].
  - intros p' d' H. destruct (O4 p' d' H) as (ad' & H1 & H2 & H3). destruct (decide (d' = d)) as [->|]; [|exists ad'; by rewrite lookup_insert_ne].
    rewrite lookup_insert_eq. eexists. split; [done|]. simpl. by simplify_eq.
  - intros c ca H. destruct (Hin c ca H) as [[-> ->]|G]; [rewrite lookup_insert_eq; by eexists|]. destruct (O5 c ca G) as (ad' & H1 & H2 & H3).
    destruct (decide (ca_dial ca = d)) as [E|]; [|exists ad'; by rewrite lookup_insert_ne]. rewrite E, lookup_insert_eq. eexists. split; [done|]. simpl.
    rewrite E in H1. by simplify_eq.
Qed.
(** The first caller of a peer opens a dial. *)
Lemma open_ok w p c reqs : syncInv w -> dials (sw w) !! p = None -> callers w !! c = None -> let d := nextDial (sw w) in
  syncInv (mkSyncWorld (mkSync (<[p := d]> (dials (sw w))) (<[d := mkActive p 1 None false]> (active (sw w))) (S d)) (<[c := mkCaller p d false]> (callers w)) reqs).
Proof.
  intros O Hd Hc d. pose proof (fresh_count _ O) as Hf. fold d in Hf. destruct O as [O1 O2 O3 O4 O5].
  assert (Hn : active (sw w) !! d = None) by (destruct (active (sw w) !! d) as [ad|] eqn:E; [apply O1 in E; unfold d in E; lia|done]). split; simpl.
  - intros d' ad' H. destruct (decide (d' = d)) as [->|]; [lia|]. rewrite lookup_insert_ne in H by done. apply O1 in H. unfold d. lia.
  - intros d' ad' H. rewrite sumMap_insert_new by done. destruct (decide (d' = d)) as [->|].
    + rewrite lookup_insert_eq in H. injection H as <-. simpl. rewrite onDial_same, Hf. lia.
    + rewrite lookup_insert_ne in H by done. rewrite onDial_other by done. rewrite (O2 d' ad' H). lia.
  - intros d' ad' H. destruct (decide (d' = d)) as [->|].
    + rewrite lookup_insert_eq in H. injection H as <-. simpl. rewrite lookup_insert_eq. split_and!; [lia|done..].
    + rewrite lookup_insert_ne in H by done. specialize (O3 d' ad' H). destruct (closed ad'); [done|]. destruct O3 as (? & ? & E). split_and!; [done..|].
      rewrite lookup_insert_ne; [done|]. intros Ep. rewrite Ep in Hd. congruence.
  - intros p' d' H. destruct (decide (p' = p)) as [->|]; [rewrite lookup_insert_eq in H; injection H as <-; rewrite lookup_insert_eq; by eexists|].
    rewrite lookup_insert_ne in H by done. destruct (O4 p' d' H) as (ad' & H1 & ?). exists ad'. rewrite lookup_insert_ne; [done|congruence].
  - intros c' ca' H. destruct (decide (c' = c)) as [->|]; [rewrite lookup_insert_eq in H; injection H as <-; simpl; rewrite lookup_insert_eq; by eexists|].
    rewrite lookup_insert_ne in H by done. destruct (O5 c' ca' H) as (ad' & H1 & ?). exists ad'. rewrite lookup_insert_ne; [done|congruence].
Qed.
Lemma delete_count w c ca d : callers w !! c = Some ca -> sumMap (onDial d) (delete c (callers w)) = sumMap (onDial d) (callers w) - onDial d ca.
Proof. intros Hc. rewrite sumMap_delete, Hc. done. Qed.
(** The last caller closes it. *)
Lemma close_ok w c ca ad cause reqs : syncInv w -> callers w !! c = Some ca -> active (sw w) !! ca_dial ca = Some ad -> closed ad = false ->
  ac_peer ad = ca_peer ca -> refCnt ad = 1 ->
  syncInv (mkSyncWorld (mkSync (delete (ca_peer ca) (dials (sw w))) (<[ca_dial ca := mkActive (ac_peer ad) 0 (Some cause) true]> (active (sw w))) (nextDial (sw w))) (delete c (callers w)) reqs).
Proof.
  intros O Hc Ha Hcl Hp Hr. pose proof (si_open _ O _ _ Ha) as Ho. rewrite Hcl in Ho. pose proof (si_count _ O _ _ Ha) as Hcount.
  assert (Hone : onDial (ca_dial ca) ca = 1) by (unfold onDial; by rewrite decide_True).
  assert (Hlone : forall c' ca', callers w !! c' = Some ca' -> c' <> c -> ca_dial ca' <> ca_dial ca).
  { intros c' ca' Hc' Hne E. assert (Hl : delete c (callers w) !! c' = Some ca') by by rewrite lookup_delete_ne.
    pose proof (sumMapK_lookup (fun _ => onDial (ca_dial ca)) _ c' ca' (fun _ => onDial_nonneg _) Hl) as Hge.
    change (onDial (ca_dial ca) ca' <= sumMap (onDial (ca_dial ca)) (delete c (callers w))) in Hge.
    rewrite (delete_count w c ca _ Hc) in Hge. unfold onDial at 1 in Hge. rewrite decide_True in Hge by done. lia. }
  destruct O as [O1 O2 O3 O4 O5]. split; simpl.
  - intros d' ad' H. destruct (decide (d' = ca_dial ca)) as [->|]; [eauto|]. rewrite lookup_insert_ne in H by done. eauto.
  - intros d' ad' H. rewrite (delete_count w c ca _ Hc). destruct (decide (d' = ca_dial ca)) as [->|]; [rewrite lookup_insert_eq in H; injection H as <-; simpl; lia|].
    rewrite lookup_insert_ne in H by done. rewrite (O2 d' ad' H). unfold onDial at 3. rewrite decide_False by done. lia.
  - intros d' ad' H. destruct (decide (d' = ca_dial ca)) as [->|]; [rewrite lookup_insert_eq in H; injection H as <-; by simpl|].
    rewrite lookup_insert_ne in H by done. specialize (O3 d' ad' H). destruct (closed ad') eqn:Ec; [done|]. destruct O3 as (? & ? & E). split_and!; [done..|].
    rewrite lookup_delete_ne; [done|]. intros Ep. destruct Ho as (_ & _ & Ho). rewrite Hp, Ep, E in Ho. congruence.
  - intros p' d' H. apply lookup_delete_Some in H as [Hne H]. destruct (O4 p' d' H) as (ad' & H1 & H2 & H3). exists ad'.
    rewrite lookup_insert_ne; [done|]. intros E. rewrite <-E in H1. assert (ad' = ad) by congruence. subst ad'. congruence.
  - intros c' ca' H. apply lookup_delete_Some in H as [Hne H]. destruct (O5 c' ca' H) as (ad' & H1 & ?). exists ad'.
    rewrite lookup_insert_ne; [done|]. intros E. by apply (Hlone c' ca' H).
Qed.

Lemma syncStep_ok w o : syncInv w -> syncStep w o -> exists w', o = Ok w' /\ syncInv w'.
Proof.
  intros O H. revert O. destruct H as [w c p Hc|w c ca Hc Hs|w c ca err Hc]; intros O.
  - unfold getActiveDial. destruct (dials (sw w) !! p) as [d|] eqn:Hd; [|eexists; split; [done|]; by apply open_ok].
    destruct (si_dials _ O p d Hd) as (ad & Ha & Hcl & Hp). rewrite Ha. eexists. split; [done|]. pose proof (si_open _ O d ad Ha) as Ho. rewrite Hcl in Ho.
    apply recount_ok; [done..|lia| |].
    + intros d'. rewrite sumMap_insert_new by done. case_decide as E; [subst d'; rewrite onDial_same, (si_count _ O d ad Ha); lia|]. rewrite onDial_other by done. lia.
    + intros c' ca'. destruct (decide (c' = c)) as [->|]; [rewrite lookup_insert_eq; intros [= <-]; by left|]. rewrite lookup_insert_ne by done. by right.
  - destruct (si_callers _ O c ca Hc) as (ad & Ha & Hcl & _). unfold sendRequest. rewrite Ha, Hcl. eexists. split; [done|].
    destruct O as [O1 O2 O3 O4 O5]. split; simpl; [done| |done|done|].
    + intros d ad' H. rewrite (O2 d ad' H), sumMap_insert, Hc. simpl. unfold onDial. simpl. lia.
    + intros c' ca' H. destruct (decide (c' = c)) as [->|]; [|rewrite lookup_insert_ne in H by done; eauto]. rewrite lookup_insert_eq in H. injection H as <-. simpl. eauto.
  - destruct (si_callers _ O c ca Hc) as (ad & Ha & Hcl & Hp). unfold endDial. rewrite Ha, Hcl. pose proof (si_open _ O _ _ Ha) as Ho. rewrite Hcl in Ho.
    destruct (refCnt ad - 1 =? 0) eqn:E0.
    + eexists. split; [done|]. replace (refCnt ad - 1) with 0 by lia. apply close_ok; try done. lia.
    + eexists. split; [done|]. rewrite <-Hcl. apply recount_ok; [done..|lia| |].
      * intros d'. rewrite (delete_count w c ca _ Hc). unfold onDial at 2. case_decide as E; [rewrite decide_True by done; subst d'; by rewrite (si_count _ O _ _ Ha)|rewrite decide_False by done; lia].
      * intros c' ca' [_ H]%lookup_delete_Some. by right.
Qed.

(** Callers that dial a peer share one worker.  In every reachable state a peer has at most one dial whose channel is
    open; the dial counts the callers that use it, and its channel is closed and its context cancelled exactly when they
    have all left.  No step panics: nothing is sent on a closed channel, and none is closed twice. *)
Theorem one_dial_per_peer w : rtc syncOk syncStart w ->
  (forall o, syncStep w o -> exists w', o = Ok w') /\
  (forall d d' ad ad', active (sw w) !! d = Some ad -> active (sw w) !! d' = Some ad' -> closed ad = false -> closed ad' = false -> ac_peer ad = ac_peer ad' -> d = d') /\
  (forall d ad, active (sw w) !! d = Some ad -> refCnt ad = sumMap (onDial d) (callers w) /\ (closed ad = true <-> refCnt ad = 0) /\ (closed ad = true <-> is_Some (cancelled ad))) /\
  (forall c ca, callers w !! c = Some ca -> exists ad, active (sw w) !! ca_dial ca = Some ad /\ closed ad = false /\ ac_peer ad = ca_peer ca).
Proof.
  intros R. assert (O : syncInv w).
  { assert (G : forall a b, rtc syncOk a b -> syncInv a -> syncInv b).
    { induction 1 as [|a b c Hs _ IH]; [done|]. intros Oa. destruct (syncStep_ok _ _ Oa Hs) as (b' & [= <-] & Ob). auto. }
    apply (G _ _ R). split; simpl; try done. }
  split_and!; [intros o Ho; destruct (syncStep_ok w o O Ho) as (w' & -> & _); by exists w'| | |apply O].
  - intros d d' ad ad' H1 H2 C1 C2 E. pose proof (si_open _ O d ad H1) as A. pose proof (si_open _ O d' ad' H2) as B. rewrite C1 in A. rewrite C2 in B.
    destruct A as (_ & _ & A), B as (_ & _ & B). rewrite E in A. congruence.
  - intros d ad H. split; [by apply (si_count _ O)|]. pose proof (si_open _ O d ad H) as A. destruct (closed ad).
    + destruct A as [A1 A2]. split; split; done.
    + destruct A as (A1 & A2 & _). split; split; [done|lia|done|]. rewrite A2. by intros [? ?].
Qed.

Module DialSyncExample.
Definition peerA : PeerID := [Byte.x01].
Definition addrA : bytes := [Byte.x0a].
(** Two failures of an address, a minute apart, and a cleanup that comes too early to forget the first *)
Definition history : list backoffOp := [BAdd 0 peerA addrA; BCleanup (6 * Second); BAdd (60 * Second) peerA addrA].
(** Two callers; the first gets a connection and leaves. *)
Definition w1 : syncWorld := mkSyncWorld (getActiveDial newDialSync peerA).1 {[0%nat := mkCaller peerA 0 false]} [].
Definition w2 : syncWorld := mkSyncWorld (getActiveDial (sw w1) peerA).1 (<[1%nat := mkCaller peerA 0 false]> (callers w1)) [].
Lemma sync2 : rtc syncOk syncStart w2.
Proof.
  eapply rtc_l; [exact (s_call syncStart 0%nat peerA eq_refl)|]. eapply rtc_l; [exact (s_call w1 1%nat peerA eq_refl)|constructor].
Qed.
End DialSyncExample.
Import DialSyncExample.
(** The second failure is remembered as such: the delay is six seconds. *)
Lemma backoff_follows_failures_witness : Backoff (backoffRun history) (65 * Second) peerA addrA = true /\ Backoff (backoffRun history) (66 * Second) peerA addrA = false.
Proof.
  assert (T : timesOk history) by (repeat constructor; intros; vm_compute; congruence).
  assert (F : forall now, 60 * Second <= now -> Forall (fun op => opTime op <= now) history)
    by (intros now Hn; repeat constructor; simpl; unfold Second in *; lia).
  assert (L : Z.of_nat (length history) <= maxTries) by (vm_compute; congruence).
  pose proof (fun now Hn => proj1 (backoff_follows_failures history peerA addrA now T L (F now Hn))) as H. split.
  - apply H; [vm_compute; congruence|]. exists (60 * Second), [0]. split; vm_compute; reflexivity.
  - apply not_true_is_false. intros (u & us & E & Hlt)%H; [|vm_compute; congruence]. vm_compute in E. injection E as <- <-.
    vm_compute in Hlt. discriminate Hlt.
Defined.
Lemma one_dial_per_peer_witness : refCnt <$> active (sw w2) !! 0%nat = Some 2 /\ (forall o, syncStep w2 o -> exists w', o = Ok w').
Proof. split; [vm_compute; reflexivity|]. exact (proj1 (one_dial_per_peer w2 sync2)). Defined.
