(* ===== verification/SwarmConns.v ===== *)
(** * Connections and streams of the swarm (p2p/net/swarm/swarm.go, swarm_conn.go, swarm_stream.go, connectedness_event_emitter.go)

    The connections that a swarm has with its peers, their streams, the count of
    references that [Close] waits for, and the goroutine that tells of changes of the
    connectedness.  A connection records how far the goroutines that add it, serve it
    and close it have come; every critical section is one step. *)
From Stdlib Require Import ZArith Lia.
From stdpp Require Import base tactics list numbers option gmap sets fin_maps relations.
From S2P Require Import Prelude Collections GoBytes BlsRpc DialWorker.
Local Open Scope Z_scope.

Inductive Connectedness := NotConnected | Connected | CanConnect | CannotConnect | Limited.
#[export] Instance Connectedness_dec : EqDecision Connectedness.
Proof. solve_decision. Defined.

(** How far [addConn] and [start] have come: in the table; queued for the emitter; notified and started *)
Inductive adderPhase := Adding | Queued | Started.
(** How far [doClose] has come *)
Inductive closePhase := Open | Removed | Cleared | TransportClosed | Appended | Signalled | Finished | Disconnected_.
#[export] Instance adderPhase_dec : EqDecision adderPhase.
Proof. solve_decision. Defined.
#[export] Instance closePhase_dec : EqDecision closePhase.
Proof. solve_decision. Defined.

Abbreviation ConnID := nat.
Abbreviation StreamID := nat.
Record Conn := mkConn {
  RemotePeer : PeerID; connLimited : bool; proxied : bool  (** the transport is a proxy *);
  isClosed : bool  (** of the transport's connection *);
  cstreams : option (gset StreamID)  (** [None] is the nil map *); NumStreams : Z;
  adder : adderPhase; closer : closePhase; toReset : list StreamID  (** the streams that [doClose] has still to reset *);
  acceptDone : bool  (** the loop of [start] has ended *) }.
Record Stream := mkStream { st_conn : ConnID; st_closed : bool; acceptStreamGoroutineCompleted : bool; scopeDone : Z  (** calls of [scope.Done] *) }.
Inductive note := NConnected (c : ConnID) | NDisconnected (c : ConnID).
#[export] Instance note_dec : EqDecision note.
Proof. solve_decision. Defined.
Record Swarm := mkSwarm {
  conns : option (gmap PeerID (list ConnID))  (** [None] is the nil map of a closed swarm *);
  conn : gmap ConnID Conn; stream : gmap StreamID Stream;
  accepting : gmap StreamID ConnID  (** inbound streams between [refs.Add] and [refs.Done] in [start] *);
  refs : Z;
  newConns : list PeerID; removeConns : list PeerID; removeConnNotif : bool;
  draining : list PeerID  (** what [sendConnRemovedNotifications] has still to look at *);
  lastEvent : gmap PeerID Connectedness; events : list (PeerID * Connectedness);
  notes : list note  (** the calls of the notifiees *) }.
Definition NewSwarm : Swarm := mkSwarm (Some ∅) ∅ ∅ ∅ 0 [] [] false [] ∅ [] [].

Definition put_conn (s : Swarm) (c : ConnID) (x : Conn) : Swarm :=
  mkSwarm (conns s) (<[c := x]> (conn s)) (stream s) (accepting s) (refs s) (newConns s) (removeConns s) (removeConnNotif s) (draining s) (lastEvent s) (events s) (notes s).
Definition put_stream (s : Swarm) (i : StreamID) (x : Stream) : Swarm :=
  mkSwarm (conns s) (conn s) (<[i := x]> (stream s)) (accepting s) (refs s) (newConns s) (removeConns s) (removeConnNotif s) (draining s) (lastEvent s) (events s) (notes s).
Definition set_conns (s : Swarm) (m : option (gmap PeerID (list ConnID))) : Swarm :=
  mkSwarm m (conn s) (stream s) (accepting s) (refs s) (newConns s) (removeConns s) (removeConnNotif s) (draining s) (lastEvent s) (events s) (notes s).
Definition add_refs (s : Swarm) (n : Z) : Swarm :=
  mkSwarm (conns s) (conn s) (stream s) (accepting s) (refs s + n) (newConns s) (removeConns s) (removeConnNotif s) (draining s) (lastEvent s) (events s) (notes s).
Definition set_accepting (s : Swarm) (X : gmap StreamID ConnID) : Swarm :=
  mkSwarm (conns s) (conn s) (stream s) X (refs s) (newConns s) (removeConns s) (removeConnNotif s) (draining s) (lastEvent s) (events s) (notes s).
Definition set_queues (s : Swarm) (new rem : list PeerID) (notif : bool) (drain : list PeerID) : Swarm :=
  mkSwarm (conns s) (conn s) (stream s) (accepting s) (refs s) new rem notif drain (lastEvent s) (events s) (notes s).
Definition set_events (s : Swarm) (m : gmap PeerID Connectedness) (l : list (PeerID * Connectedness)) : Swarm :=
  mkSwarm (conns s) (conn s) (stream s) (accepting s) (refs s) (newConns s) (removeConns s) (removeConnNotif s) (draining s) m l (notes s).
Definition notify (s : Swarm) (n : note) : Swarm :=
  mkSwarm (conns s) (conn s) (stream s) (accepting s) (refs s) (newConns s) (removeConns s) (removeConnNotif s) (draining s) (lastEvent s) (events s) (notes s ++ [n]).
Definition with_adder (x : Conn) (a : adderPhase) : Conn :=
  mkConn (RemotePeer x) (connLimited x) (proxied x) (isClosed x) (cstreams x) (NumStreams x) a (closer x) (toReset x) (acceptDone x).
Definition with_closer (x : Conn) (p : closePhase) : Conn :=
  mkConn (RemotePeer x) (connLimited x) (proxied x) (isClosed x) (cstreams x) (NumStreams x) (adder x) p (toReset x) (acceptDone x).
Definition with_closed (x : Conn) : Conn :=
  mkConn (RemotePeer x) (connLimited x) (proxied x) true (cstreams x) (NumStreams x) (adder x) (closer x) (toReset x) (acceptDone x).
Definition with_streams (x : Conn) (m : option (gset StreamID)) (n : Z) : Conn :=
  mkConn (RemotePeer x) (connLimited x) (proxied x) (isClosed x) m n (adder x) (closer x) (toReset x) (acceptDone x).
Definition with_reset (x : Conn) (l : list StreamID) : Conn :=
  mkConn (RemotePeer x) (connLimited x) (proxied x) (isClosed x) (cstreams x) (NumStreams x) (adder x) (closer x) l (acceptDone x).
Definition with_accepted (x : Conn) : Conn :=
  mkConn (RemotePeer x) (connLimited x) (proxied x) (isClosed x) (cstreams x) (NumStreams x) (adder x) (closer x) (toReset x) true.

(** ** Looking connections up *)
Definition connsOf (s : Swarm) (p : PeerID) : list ConnID := default [] (conns s ≫= (.!! p)).
Definition connObjs (s : Swarm) (p : PeerID) : list (ConnID * Conn) := omap (fun c => (c,.) <$> conn s !! c) (connsOf s p).
Fixpoint connectedLoop (l : list (ConnID * Conn)) (haveLimited : bool) : Connectedness :=
  match l with
  | [] => if haveLimited then Limited else NotConnected
  | (_, c) :: l => if isClosed c then connectedLoop l haveLimited else if connLimited c then connectedLoop l true else Connected
  end.
Definition connectednessUnlocked (s : Swarm) (p : PeerID) : Connectedness := connectedLoop (connObjs s p) false.
Definition isDirectConn (c : option Conn) : bool := match c with Some c => negb (proxied c) | None => false end.
Definition numOpen (c : Conn) : Z := match cstreams c with Some X => Z.of_nat (size X) | None => 0 end.
Definition isBetterConn (a b : Conn) : bool :=
  if negb (bool_decide (connLimited a = connLimited b)) then negb (connLimited a)
  else if negb (bool_decide (isDirectConn (Some a) = isDirectConn (Some b))) then isDirectConn (Some a)
  else if negb (numOpen a =? numOpen b) then numOpen b <? numOpen a
  else true.
Definition bestStep (best : option (ConnID * Conn)) (c : ConnID * Conn) : option (ConnID * Conn) :=
  if isClosed c.2 then best
  else match best with None => Some c | Some b => if isBetterConn c.2 b.2 then Some c else best end.
Definition bestConnToPeer (s : Swarm) (p : PeerID) : option (ConnID * Conn) := foldl bestStep None (connObjs s p).
Definition bestAcceptableConnToPeer (s : Swarm) (ctx : dialCtx) (p : PeerID) : option (ConnID * Conn) :=
  let c := bestConnToPeer s p in
  if forceDirect ctx && negb (isDirectConn (snd <$> c)) then None else c.

(** ** Adding a connection *)
(** The critical section of [addConn]; [None] is [ErrSwarmClosed] *)
Definition addConn (s : Swarm) (c : ConnID) (p : PeerID) (limited proxy : bool) : option Swarm :=
  match conns s with
  | None => None
  | Some m =>
      let s := set_conns s (Some (<[p := default [] (m !! p) ++ [c]]> m)) in
      Some (add_refs (put_conn s c (mkConn p limited proxy false (Some ∅) 0 Adding Open [] false)) 2)
  end.
Definition emitterCapacity : nat := 32.
Definition AddConn (s : Swarm) (p : PeerID) : Swarm := set_queues s (newConns s ++ [p]) (removeConns s) (removeConnNotif s) (draining s).
(** The notifications of [addConn], and [start] *)
Definition startConn (s : Swarm) (c : ConnID) (x : Conn) : Swarm := notify (put_conn s c (with_adder x Started)) (NConnected c).

(** ** Closing a connection *)
Definition removeConn (s : Swarm) (c : ConnID) (p : PeerID) : Swarm :=
  match conns s with
  | None => s
  | Some m =>
      let cs := default [] (m !! p) in
      let cs' := match list_find (eq c) cs with Some (i, _) => take i cs ++ drop (S i) cs | None => cs end in
      set_conns s (Some (match cs' with [] => delete p m | _ => <[p := cs']> m end))
  end.
Definition appendRemoved (s : Swarm) (p : PeerID) : Swarm := set_queues s (newConns s) (removeConns s ++ [p]) (removeConnNotif s) (draining s).
Definition signalRemoved (s : Swarm) : Swarm := set_queues s (newConns s) (removeConns s) true (draining s).

(** ** Streams *)
Definition addStream (s : Swarm) (c : ConnID) (x : Conn) (i : StreamID) (inbound : bool) : option Swarm :=
  match cstreams x with
  | None => None
  | Some X => Some (add_refs (put_stream (put_conn s c (with_streams x (Some ({[i]} ∪ X)) (NumStreams x + 1))) i (mkStream c false (negb inbound) 0)) 1)
  end.
Definition removeStream (s : Swarm) (i : StreamID) (st : Stream) : Swarm :=
  let s := match conn s !! st_conn st with
           | Some x => put_conn s (st_conn st) (with_streams x ((fun X => X ∖ {[i]}) <$> cstreams x) (NumStreams x - 1))
           | None => s
           end in
  put_stream s i (mkStream (st_conn st) (st_closed st) (acceptStreamGoroutineCompleted st) (scopeDone st + 1)).
Definition closeAndRemoveStream (s : Swarm) (i : StreamID) (st : Stream) : Swarm :=
  if st_closed st then s
  else
    let st := mkStream (st_conn st) true (acceptStreamGoroutineCompleted st) (scopeDone st) in
    let s := add_refs (put_stream s i st) (-1) in
    if acceptStreamGoroutineCompleted st then removeStream s i st else s.
Definition completeAcceptStreamGoroutine (s : Swarm) (i : StreamID) (st : Stream) : Swarm :=
  if acceptStreamGoroutineCompleted st then s
  else
    let st := mkStream (st_conn st) (st_closed st) true (scopeDone st) in
    let s := put_stream s i st in
    if st_closed st then removeStream s i st else s.

(** ** The emitter *)
Definition told (s : Swarm) (p : PeerID) : Connectedness := default NotConnected (lastEvent s !! p).
Definition notifyPeer (s : Swarm) (p : PeerID) (forceNotConnectedEvent : bool) : Swarm :=
  let oldState := told s p in
  let now := connectednessUnlocked s p in
  let m := if bool_decide (now = NotConnected) then delete p (lastEvent s) else <[p := now]> (lastEvent s) in
  let emit := (forceNotConnectedEvent && bool_decide (now = NotConnected)) || negb (bool_decide (now = oldState)) in
  set_events s m (if emit then events s ++ [(p, now)] else events s).
(** A round of [runEmitter]: a peer of [newConns]; or the notification, on which the slice is taken over *)
Definition emitNew (s : Swarm) : option Swarm :=
  match newConns s with
  | [] => None
  | p :: rest => Some (notifyPeer (set_queues s rest (removeConns s) (removeConnNotif s) (draining s)) p true)
  end.
Definition takeRemoved (s : Swarm) : Swarm := set_queues s (newConns s) [] false (removeConns s).
Definition emitRemoved (s : Swarm) : option Swarm :=
  match draining s with
  | [] => None
  | p :: rest => Some (notifyPeer (set_queues s (newConns s) (removeConns s) (removeConnNotif s) rest) p false)
  end.

(** ** Executions *)
Definition clearStreams (x : Conn) : Conn := with_closer (with_reset (with_streams x None (NumStreams x)) (elements (default ∅ (cstreams x)))) Cleared.
(** The loop over the streams of the closed connection goes on *)
Definition popReset (s : Swarm) (c : ConnID) : Swarm :=
  match conn s !! c with Some x => put_conn s c (with_reset x (tail (toReset x))) | None => s end.
Inductive swStep : Swarm -> Swarm -> Prop :=
(** [addConn]: the table, the queue of the emitter (which blocks when it is full), the notifications *)
| sw_add s c p limited proxy s' : conn s !! c = None -> addConn s c p limited proxy = Some s' -> swStep s s'
| sw_queue s c x : conn s !! c = Some x -> adder x = Adding -> (length (newConns s) < emitterCapacity)%nat ->
    swStep s (AddConn (put_conn s c (with_adder x Queued)) (RemotePeer x))
| sw_start s c x : conn s !! c = Some x -> adder x = Queued -> swStep s (startConn s c x)
(** The transport may lose the connection at any time. *)
| sw_lost s c x : conn s !! c = Some x -> swStep s (put_conn s c (with_closed x))
(** [doClose], once *)
| sw_close s c x : conn s !! c = Some x -> closer x = Open -> swStep s (removeConn (put_conn s c (with_closer x Removed)) c (RemotePeer x))
| sw_clear s c x : conn s !! c = Some x -> closer x = Removed -> swStep s (put_conn s c (clearStreams x))
| sw_transport s c x : conn s !! c = Some x -> closer x = Cleared -> swStep s (put_conn s c (with_closer (with_closed x) TransportClosed))
| sw_append s c x : conn s !! c = Some x -> closer x = TransportClosed -> swStep s (appendRemoved (put_conn s c (with_closer x Appended)) (RemotePeer x))
| sw_signal s c x : conn s !! c = Some x -> closer x = Appended -> swStep s (signalRemoved (put_conn s c (with_closer x Signalled)))
| sw_reset s c x i rest st : conn s !! c = Some x -> closer x = Signalled -> toReset x = i :: rest -> stream s !! i = Some st ->
    swStep s (popReset (closeAndRemoveStream s i st) c)
| sw_finish s c x : conn s !! c = Some x -> closer x = Signalled -> toReset x = [] -> swStep s (put_conn s c (with_closer x Finished))
(** Its goroutine waits for [notifyLk]. *)
| sw_disconnected s c x : conn s !! c = Some x -> closer x = Finished -> adder x = Started ->
    swStep s (add_refs (notify (put_conn s c (with_closer x Disconnected_)) (NDisconnected c)) (-1))
(** The loop of [start] ends with [Close], which returns when [doClose] has returned. *)
| sw_acceptDone s c x : conn s !! c = Some x -> adder x = Started -> acceptDone x = false -> closer x = Finished \/ closer x = Disconnected_ ->
    swStep s (add_refs (put_conn s c (with_accepted x)) (-1))
(** An inbound stream; its goroutine adds it, or resets it if the connection is closed. *)
| sw_accept s c x i : conn s !! c = Some x -> adder x = Started -> acceptDone x = false -> stream s !! i = None -> accepting s !! i = None ->
    swStep s (add_refs (set_accepting s (<[i := c]> (accepting s))) 1)
| sw_inbound s c x i s' : accepting s !! i = Some c -> conn s !! c = Some x -> addStream (set_accepting s (delete i (accepting s))) c x i true = Some s' ->
    swStep s (add_refs s' (-1))
| sw_refused s c x i : accepting s !! i = Some c -> conn s !! c = Some x -> addStream (set_accepting s (delete i (accepting s))) c x i true = None ->
    swStep s (add_refs (set_accepting s (delete i (accepting s))) (-1))
| sw_outbound s c x i s' : conn s !! c = Some x -> stream s !! i = None -> accepting s !! i = None -> addStream s c x i false = Some s' -> swStep s s'
(** [Close] or [Reset] of a stream; the handler of an inbound stream returns. *)
| sw_closeStream s i st : stream s !! i = Some st -> swStep s (closeAndRemoveStream s i st)
| sw_handled s i st : stream s !! i = Some st -> swStep s (completeAcceptStreamGoroutine s i st)
(** The goroutine of the emitter *)
| sw_emitNew s s' : draining s = [] -> emitNew s = Some s' -> swStep s s'
| sw_take s : draining s = [] -> removeConnNotif s = true -> swStep s (takeRemoved s)
| sw_emitRemoved s s' : emitRemoved s = Some s' -> swStep s s'
(** [Swarm.close] *)
| sw_shutdown s : swStep s (set_conns s None).
