(* ===== verification/SwarmConnsRun.v ===== *)
(** * Invariants of the swarm's connections

    What the goroutines of a connection do to its streams does not matter for the
    table, the references, the notifications and the events: [core] is the rest of
    a connection, and the invariants of these four are stated for [cores].  The
    streams have an invariant of their own. *)
From Stdlib Require Import ZArith Lia.
From stdpp Require Import base tactics list numbers option gmap sets fin_maps relations.
From S2P Require Import Prelude Collections GoBytes BlsRpc DialWorker SwarmConns.
Local Open Scope Z_scope.

Record Core := mkCore { k_peer : PeerID; k_limited : bool; k_closed : bool; k_adder : adderPhase; k_closer : closePhase; k_accept : bool }.
Definition core (x : Conn) : Core := mkCore (RemotePeer x) (connLimited x) (isClosed x) (adder x) (closer x) (acceptDone x).
Definition cores (s : Swarm) : gmap ConnID Core := core <$> conn s.
Abbreviation table := (option (gmap PeerID (list ConnID))).

Lemma cores_put s c x : cores (put_conn s c x) = <[c := core x]> (cores s).
Proof. unfold cores, put_conn. simpl. by rewrite fmap_insert. Qed.
Lemma cores_lookup s c x : conn s !! c = Some x -> cores s !! c = Some (core x).
Proof. intros H. unfold cores. by rewrite lookup_fmap, H. Qed.
Lemma cores_put_same s c x x' : conn s !! c = Some x -> core x' = core x -> cores (put_conn s c x') = cores s.
Proof. intros H E. rewrite cores_put, E. apply insert_id. by apply cores_lookup. Qed.

(** ** Steps that only concern streams *)
Definition sameOutside (s s' : Swarm) : Prop :=
  conns s' = conns s /\ cores s' = cores s /\ newConns s' = newConns s /\ removeConns s' = removeConns s /\ removeConnNotif s' = removeConnNotif s /\
  draining s' = draining s /\ lastEvent s' = lastEvent s /\ events s' = events s /\ notes s' = notes s.
#[export] Instance sameOutside_trans : Transitive sameOutside.
Proof. unfold sameOutside. intros a b c (?&?&?&?&?&?&?&?&?) (?&?&?&?&?&?&?&?&?). split_and!; congruence. Qed.
Lemma removeStream_same s i st : sameOutside s (removeStream s i st).
Proof.
  unfold removeStream. destruct (conn s !! st_conn st) as [x|] eqn:E; unfold sameOutside; simpl; [|done]. split_and!; try done.
  by apply (cores_put_same s (st_conn st) x).
Qed.
Lemma closeStream_same s i st : sameOutside s (closeAndRemoveStream s i st).
Proof.
  unfold closeAndRemoveStream. destruct (st_closed st); [done|]. simpl. destruct (acceptStreamGoroutineCompleted st); [|done].
  etransitivity; [|apply removeStream_same]. done.
Qed.
Lemma handled_same s i st : sameOutside s (completeAcceptStreamGoroutine s i st).
Proof.
  unfold completeAcceptStreamGoroutine. destruct (acceptStreamGoroutineCompleted st); [done|]. simpl. destruct (st_closed st); [|done].
  etransitivity; [|apply removeStream_same]. done.
Qed.
Lemma addStream_same s c x i inb s' : conn s !! c = Some x -> addStream s c x i inb = Some s' -> sameOutside s s'.
Proof.
  intros H. unfold addStream. destruct (cstreams x) as [X|]; [|done]. intros [= <-]. unfold sameOutside. simpl. split_and!; try done.
  by apply (cores_put_same s c x).
Qed.
Lemma popReset_same s c : sameOutside s (popReset s c).
Proof. unfold popReset. destruct (conn s !! c) as [x|] eqn:E; [|done]. unfold sameOutside. split_and!; try done. by apply (cores_put_same s c x). Qed.

(** ** The table *)
Record tableOk (m : table) (K : gmap ConnID Core) : Prop := {
  t_entry M p cs : m = Some M -> M !! p = Some cs -> cs <> [] /\ NoDup cs /\ forall c, c ∈ cs -> exists k, K !! c = Some k /\ k_peer k = p /\ k_closer k = Open;
  t_open M c k : m = Some M -> K !! c = Some k -> k_closer k = Open -> c ∈ default [] (M !! k_peer k) }.
(** A connection changes otherwise. *)
Lemma table_same m K c k k' : tableOk m K -> K !! c = Some k -> k_peer k' = k_peer k -> (k_closer k' = Open <-> k_closer k = Open) -> tableOk m (<[c := k']> K).
Proof.
  intros [T1 T2] Hk Hp Ho. split.
  - intros M p cs Hm Hc. destruct (T1 M p cs Hm Hc) as (? & ? & H). split_and!; [done..|]. intros c' Hc'. destruct (H c' Hc') as (k0 & E1 & E2 & E3).
    destruct (decide (c' = c)) as [->|]; [|exists k0; by rewrite lookup_insert_ne]. exists k'. rewrite lookup_insert_eq. assert (k0 = k) as -> by congruence.
    split_and!; [done|congruence|by apply Ho].
  - intros M c' k0 Hm. destruct (decide (c' = c)) as [->|]; [rewrite lookup_insert_eq; intros [= <-] H; rewrite Hp; apply (T2 M c k); [done..|by apply Ho]|].
    rewrite lookup_insert_ne by done. by apply T2.
Qed.
Lemma table_add M K c k : tableOk (Some M) K -> K !! c = None -> k_closer k = Open ->
  tableOk (Some (<[k_peer k := default [] (M !! k_peer k) ++ [c]]> M)) (<[c := k]> K).
Proof.
  intros [T1 T2] Hc Ho. assert (Hin : forall c', c' ∈ default [] (M !! k_peer k) -> exists k0, K !! c' = Some k0 /\ k_peer k0 = k_peer k /\ k_closer k0 = Open).
  { intros c' H. destruct (M !! k_peer k) as [cs|] eqn:E; simpl in H; [|by apply elem_of_nil in H]. destruct (T1 M _ cs eq_refl E) as (_ & _ & H'). by apply H'. }
  assert (Hnew : forall c' k0, K !! c' = Some k0 -> c' <> c) by congruence. split.
  - intros M' p cs [= <-]. destruct (decide (p = k_peer k)) as [->|Hp].
    + rewrite lookup_insert_eq. intros [= <-]. split_and!; [by destruct (default [] (M !! k_peer k))| |].
      * apply NoDup_app. split_and!; [|intros c' H ->%list_elem_of_singleton; destruct (Hin c H) as (? & ? & _); congruence|apply NoDup_singleton].
        destruct (M !! k_peer k) as [cs|] eqn:E; simpl; [|constructor]. by destruct (T1 M _ cs eq_refl E) as (_ & ? & _).
      * intros c' [H| ->%list_elem_of_singleton]%elem_of_app; [|exists k; by rewrite lookup_insert_eq]. destruct (Hin c' H) as (k0 & E & ?). exists k0. rewrite lookup_insert_ne; [done|]. apply not_eq_sym. eauto.
    + rewrite lookup_insert_ne by done. intros E. destruct (T1 M p cs eq_refl E) as (? & ? & H). split_and!; [done..|]. intros c' Hc'. destruct (H c' Hc') as (k0 & ? & ?).
      exists k0. rewrite lookup_insert_ne; [done|]. apply not_eq_sym. eauto.
  - intros M' c' k0 [= <-]. destruct (decide (c' = c)) as [->|]; [rewrite lookup_insert_eq; intros [= <-] _; rewrite lookup_insert_eq; simpl; apply elem_of_app; right; by apply list_elem_of_singleton|].
    rewrite lookup_insert_ne by done. intros Hk Hop. specialize (T2 M c' k0 eq_refl Hk Hop). destruct (decide (k_peer k0 = k_peer k)) as [E|].
    + rewrite E in *. rewrite lookup_insert_eq. simpl. apply elem_of_app. by left.
    + by rewrite lookup_insert_ne.
Qed.

(** Taking a connection out of the list of its peer *)
Definition without (c : ConnID) (cs : list ConnID) : list ConnID := match list_find (eq c) cs with Some (i, _) => take i cs ++ drop (S i) cs | None => cs end.
Lemma without_ok c cs : NoDup cs -> NoDup (without c cs) /\ forall c', c' ∈ without c cs <-> c' ∈ cs /\ c' <> c.
Proof.
  intros ND. unfold without. destruct (list_find (eq c) cs) as [[i c0]|] eqn:E.
  - apply list_find_Some in E as (Hi & <- & _). pose proof (take_drop_middle cs i c Hi) as Hc. rewrite <-Hc in ND.
    assert (P : take i cs ++ c :: drop (S i) cs ≡ₚ c :: (take i cs ++ drop (S i) cs)) by by rewrite Permutation_middle.
    rewrite P in ND. apply NoDup_cons in ND as [N1 N2]. split; [done|]. intros c'. rewrite <-Hc at 3. rewrite P, elem_of_cons. split; [|intros [[->|?] ?]; [done|done]].
    intros H. split; [by right|]. by intros ->.
  - apply list_find_None in E. split; [done|]. intros c'. split; [|tauto]. intros H. split; [done|]. rewrite Forall_forall in E. intros ->. by apply (E c).
Qed.
Definition tableWithout (c : ConnID) (p : PeerID) (m : table) : table :=
  match m with
  | None => None
  | Some M => Some (match without c (default [] (M !! p)) with [] => delete p M | cs => <[p := cs]> M end)
  end.
Lemma removeConn_table s c p : removeConn s c p = set_conns s (tableWithout c p (conns s)).
Proof.
  unfold removeConn, tableWithout. destruct (conns s) as [M|] eqn:E; [fold (without c (default [] (M !! p))); by destruct (without _ _)|].
  destruct s; simpl in *. by subst.
Qed.
Lemma tableWithout_lookup c p M p' : (forall cs, M !! p' = Some cs -> cs <> [] /\ NoDup cs) ->
  match tableWithout c p (Some M) with Some M' => default [] (M' !! p') = if decide (p' = p) then without c (default [] (M !! p)) else default [] (M !! p') | None => False end.
Proof.
  intros H. unfold tableWithout. destruct (decide (p' = p)) as [->|Hp]; destruct (without c (default [] (M !! p))) as [|c0 cs0];
    rewrite ?lookup_delete_eq, ?lookup_insert_eq, ?lookup_delete_ne, ?lookup_insert_ne by done; done.
Qed.
Lemma table_remove m K c k k' : tableOk m K -> K !! c = Some k -> k_peer k' = k_peer k -> k_closer k' <> Open -> tableOk (tableWithout c (k_peer k) m) (<[c := k']> K).
Proof.
  intros [T1 T2] Hk Hp Ho. destruct m as [M|]; [|by split]. set (p := k_peer k) in *.
  assert (HL : forall M', tableWithout c p (Some M) = Some M' -> forall p', default [] (M' !! p') = if decide (p' = p) then without c (default [] (M !! p)) else default [] (M !! p')).
  { intros M' E p'. pose proof (tableWithout_lookup c p M p') as H. rewrite E in H. apply H. intros cs Hcs. by destruct (T1 M p' cs eq_refl Hcs) as (? & ? & _). }
  assert (ND : NoDup (default [] (M !! p))) by (destruct (M !! p) as [cs|] eqn:E; simpl; [by destruct (T1 M p cs eq_refl E) as (_ & ? & _)|constructor]).
  destruct (without_ok c _ ND) as [W1 W2]. split.
  - intros M' p' cs E Hcs. pose proof (HL M' E p') as HL'. rewrite Hcs in HL'. simpl in HL'. destruct (decide (p' = p)) as [->|Hne].
    + assert (cs <> []). { intros ->. unfold tableWithout in E. destruct (without c (default [] (M !! p))) eqn:Ew; injection E as <-; [by rewrite lookup_delete_eq in Hcs|].
        rewrite lookup_insert_eq in Hcs. done. }
      rewrite HL'. split_and!; [congruence|done|]. intros c' [Hin Hnc]%W2. destruct (M !! p) as [cs0|] eqn:E0; simpl in Hin; [|by apply elem_of_nil in Hin].
      destruct (T1 M p cs0 eq_refl E0) as (_ & _ & H3). destruct (H3 c' Hin) as (k0 & ? & ?). exists k0. by rewrite lookup_insert_ne.
    + assert (E0 : M !! p' = Some cs). { unfold tableWithout in E. destruct (without c (default [] (M !! p))); injection E as <-; by rewrite ?lookup_delete_ne, ?lookup_insert_ne in Hcs by done. }
      destruct (T1 M p' cs eq_refl E0) as (? & ? & H3). split_and!; [done..|]. intros c' Hc'. destruct (H3 c' Hc') as (k0 & E1 & E2 & E3). exists k0.
      rewrite lookup_insert_ne; [done|]. intros ->. assert (k0 = k) as -> by congruence. apply Hne. by rewrite <-E2.
  - intros M' c' k0 E. destruct (decide (c' = c)) as [->|Hne]; [rewrite lookup_insert_eq; by intros [= <-]|]. rewrite lookup_insert_ne by done. intros H1 H2.
    rewrite (HL M' E). specialize (T2 M c' k0 eq_refl H1 H2). case_decide as Hd; [|done]. apply W2. split; [by rewrite <-Hd|done].
Qed.

(** ** The notifications *)
Record noteOk (K : gmap ConnID Core) (ns : list note) : Prop := {
  n_nodup : NoDup ns;
  n_conn c : NConnected c ∈ ns <-> exists k, K !! c = Some k /\ k_adder k = Started;
  n_disc c : NDisconnected c ∈ ns <-> exists k, K !! c = Some k /\ k_closer k = Disconnected_;
  n_started c k : K !! c = Some k -> k_closer k = Disconnected_ -> k_adder k = Started;
  n_order c l1 l2 : ns = l1 ++ NDisconnected c :: l2 -> NConnected c ∈ l1 }.
(** A property of the connections after one of them has changed *)
Lemma exists_insert (P : Core -> Prop) (K : gmap ConnID Core) c k' c' :
  (exists k, <[c := k']> K !! c' = Some k /\ P k) <-> if decide (c' = c) then P k' else exists k, K !! c' = Some k /\ P k.
Proof.
  case_decide as E; [subst; rewrite lookup_insert_eq; naive_solver|]. by rewrite lookup_insert_ne.
Qed.
Lemma note_same K ns c k' : noteOk K ns -> (k_adder k' = Started <-> exists k, K !! c = Some k /\ k_adder k = Started) ->
  (k_closer k' = Disconnected_ <-> exists k, K !! c = Some k /\ k_closer k = Disconnected_) -> noteOk (<[c := k']> K) ns.
Proof.
  intros [N1 N2 N3 N4 N5] Ha Hd. split; [done| | | |done].
  - intros c'. rewrite N2, exists_insert. case_decide as E; [subst; by rewrite Ha|done].
  - intros c'. rewrite N3, exists_insert. case_decide as E; [subst; by rewrite Hd|done].
  - intros c' k0. destruct (decide (c' = c)) as [->|]; [|rewrite lookup_insert_ne by done; apply N4]. rewrite lookup_insert_eq. intros [= <-] Hc.
    apply Ha. apply Hd in Hc as (k & Hk & Hc). exists k. split; [done|]. by apply (N4 c).
Qed.
Lemma order_snoc ns n : (forall c l1 l2, ns = l1 ++ NDisconnected c :: l2 -> NConnected c ∈ l1) -> (forall c, n = NDisconnected c -> NConnected c ∈ ns) ->
  forall c l1 l2, ns ++ [n] = l1 ++ NDisconnected c :: l2 -> NConnected c ∈ l1.
Proof.
  intros H Hn c l1 l2. destruct (decide (l2 = [])) as [->|Hl].
  - intros [-> E]%app_inj_tail. subst n. by apply Hn.
  - destruct (exists_last Hl) as (l2' & y & ->). rewrite app_comm_cons, app_assoc. intros [E _]%app_inj_tail. by apply (H c l1 l2').
Qed.
Lemma note_start K ns c k k' : noteOk K ns -> K !! c = Some k -> k_adder k <> Started -> k_adder k' = Started -> k_closer k' = k_closer k ->
  noteOk (<[c := k']> K) (ns ++ [NConnected c]).
Proof.
  intros [N1 N2 N3 N4 N5] Hk Hn Ha Hc. assert (Hnc : NConnected c ∉ ns) by (rewrite N2; intros (k0 & ? & ?); congruence).
  assert (Hnd : k_closer k <> Disconnected_) by (intros E; by apply Hn, (N4 c)). split.
  - apply NoDup_app. split_and!; [done|intros n H ->%list_elem_of_singleton; done|apply NoDup_singleton].
  - intros c'. rewrite elem_of_app, list_elem_of_singleton, N2, exists_insert. case_decide as E; [naive_solver|]. split; [intros [?|[= ?]]; done|by left].
  - intros c'. rewrite elem_of_app, list_elem_of_singleton, N3, exists_insert. case_decide as E; [|naive_solver]. subst c'. rewrite Hc. split; [|done].
    intros [(k0 & ? & ?)|?]; [congruence|done].
  - intros c' k0. destruct (decide (c' = c)) as [->|]; [rewrite lookup_insert_eq; by intros [= <-]|rewrite lookup_insert_ne by done; apply N4].
  - by apply order_snoc.
Qed.
Lemma note_disconnect K ns c k k' : noteOk K ns -> K !! c = Some k -> k_adder k = Started -> k_adder k' = Started -> k_closer k <> Disconnected_ -> k_closer k' = Disconnected_ ->
  noteOk (<[c := k']> K) (ns ++ [NDisconnected c]).
Proof.
  intros [N1 N2 N3 N4 N5] Hk Ha Ha' Hc Hc'. assert (Hnc : NDisconnected c ∉ ns) by (rewrite N3; intros (k0 & ? & ?); congruence). split.
  - apply NoDup_app. split_and!; [done|intros n H ->%list_elem_of_singleton; done|apply NoDup_singleton].
  - intros c'. rewrite elem_of_app, list_elem_of_singleton, N2, exists_insert. case_decide as E; [subst c'; naive_solver|naive_solver].
  - intros c'. rewrite elem_of_app, list_elem_of_singleton, N3, exists_insert. case_decide as E; [naive_solver|]. split; [intros [?|[= ?]]; done|by left].
  - intros c' k0. destruct (decide (c' = c)) as [->|]; [rewrite lookup_insert_eq; by intros [= <-]|rewrite lookup_insert_ne by done; apply N4].
  - apply order_snoc; [done|]. intros c' [= <-]. apply N2. eauto.
Qed.

(** ** The references *)
Definition kDue (k : Core) : Z := (if k_accept k then 0 else 1) + (if decide (k_closer k = Disconnected_) then 0 else 1).
Definition sDue (st : Stream) : Z := if st_closed st then 0 else 1.
Definition refsOk (s : Swarm) : Prop := refs s = sumMap kDue (cores s) + sumMap sDue (stream s) + Z.of_nat (size (accepting s)).
Lemma kDue_nonneg k : 0 <= kDue k.
Proof. unfold kDue. destruct (k_accept k), (decide (k_closer k = Disconnected_)); lia. Qed.
Lemma sDue_nonneg st : 0 <= sDue st.
Proof. unfold sDue. destruct (st_closed st); lia. Qed.
(** A connection changes, and the references with it *)
Lemma refs_put s c x x' n : refsOk s -> conn s !! c = Some x -> n = kDue (core x') - kDue (core x) ->
  refs s + n = sumMap kDue (<[c := core x']> (cores s)) + sumMap sDue (stream s) + Z.of_nat (size (accepting s)).
Proof. unfold refsOk. intros H Hx ->. rewrite sumMap_insert, (cores_lookup s c x Hx). simpl. lia. Qed.
Lemma removeStream_rest s i st : stream (removeStream s i st) = <[i := mkStream (st_conn st) (st_closed st) (acceptStreamGoroutineCompleted st) (scopeDone st + 1)]> (stream s)
  /\ accepting (removeStream s i st) = accepting s /\ refs (removeStream s i st) = refs s.
Proof. unfold removeStream. by destruct (conn s !! st_conn st). Qed.
Lemma refs_stream s s' i st st' n : refsOk s -> stream s !! i = Some st -> cores s' = cores s -> stream s' = <[i := st']> (stream s) -> accepting s' = accepting s ->
  refs s' = refs s + n -> n = sDue st' - sDue st -> refsOk s'.
Proof. unfold refsOk. intros H Hi -> -> -> -> ->. rewrite sumMap_insert, Hi. simpl. lia. Qed.
Lemma refs_closeStream s i st : refsOk s -> stream s !! i = Some st -> refsOk (closeAndRemoveStream s i st).
Proof.
  intros H Hi. pose proof (closeStream_same s i st) as (_ & Hc & _). unfold closeAndRemoveStream in *. destruct (st_closed st) eqn:E; [done|]. simpl in *.
  destruct (acceptStreamGoroutineCompleted st).
  - edestruct (removeStream_rest) as (R1 & R2 & R3). eapply (refs_stream s _ i st _ (-1)); [done|done|done| |rewrite R2; done|rewrite R3; done|].
    + rewrite R1. simpl. by rewrite insert_insert_eq.
    + unfold sDue. simpl. by rewrite E.
  - eapply (refs_stream s _ i st _ (-1)); [done..|]. unfold sDue. simpl. by rewrite E.
Qed.
Lemma refs_handled s i st : refsOk s -> stream s !! i = Some st -> refsOk (completeAcceptStreamGoroutine s i st).
Proof.
  intros H Hi. pose proof (handled_same s i st) as (_ & Hc & _). unfold completeAcceptStreamGoroutine in *. destruct (acceptStreamGoroutineCompleted st); [done|]. simpl in *.
  destruct (st_closed st) eqn:E.
  - edestruct (removeStream_rest) as (R1 & R2 & R3). eapply (refs_stream s _ i st _ 0); [done|done|done| |rewrite R2; done|rewrite R3; simpl; lia|].
    + rewrite R1. simpl. by rewrite insert_insert_eq.
    + unfold sDue. simpl. by rewrite E.
  - eapply (refs_stream s _ i st _ 0); [done..|simpl; lia|]. unfold sDue. simpl. by rewrite E.
Qed.

(** ** The streams *)
Definition early (x : Conn) : bool := match closer x with Open | Removed => true | _ => false end.
Definition late (x : Conn) : bool := match closer x with Finished | Disconnected_ => true | _ => false end.
Definition openOn (c : ConnID) (st : Stream) : Z := if decide (st_conn st = c /\ scopeDone st = 0) then 1 else 0.
Record streamOk (C : gmap ConnID Conn) (S : gmap StreamID Stream) (A : gmap StreamID ConnID) : Prop := {
  so_conn i st : S !! i = Some st -> is_Some (C !! st_conn st);
  so_done i st : S !! i = Some st -> scopeDone st = if st_closed st && acceptStreamGoroutineCompleted st then 1 else 0;
  so_fresh i c : A !! i = Some c -> S !! i = None;
  so_map c x X : C !! c = Some x -> cstreams x = Some X -> forall i, i ∈ X <-> exists st, S !! i = Some st /\ st_conn st = c /\ scopeDone st = 0;
  so_num c x : C !! c = Some x -> NumStreams x = sumMap (openOn c) S;
  so_nil c x : C !! c = Some x -> (is_Some (cstreams x) <-> early x = true);
  so_reset c x i st : C !! c = Some x -> S !! i = Some st -> st_conn st = c -> st_closed st = false -> cstreams x = None -> i ∈ toReset x;
  so_toReset c x i : C !! c = Some x -> i ∈ toReset x -> is_Some (S !! i);
  so_late c x : C !! c = Some x -> late x = true -> toReset x = [] }.

Lemma so_put C S A c x x' : streamOk C S A -> C !! c = Some x -> cstreams x' = cstreams x -> NumStreams x' = NumStreams x -> toReset x' = toReset x ->
  early x' = early x -> (late x' = true -> late x = true \/ toReset x = []) -> streamOk (<[c := x']> C) S A.
Proof.
  intros [S1 S2 S3 S4 S5 S6 S7 S8 S9] Hx E1 E2 E3 E4 E5. assert (Hl : forall c' y, <[c := x']> C !! c' = Some y -> c' = c /\ y = x' \/ C !! c' = Some y).
  { intros c' y. destruct (decide (c' = c)) as [->|]; [rewrite lookup_insert_eq; intros [= <-]; by left|rewrite lookup_insert_ne by done; by right]. }
  split; [|exact S2|exact S3|..]; intros c' y.
  - intros H. apply S1 in H. rewrite lookup_insert_is_Some. destruct (decide (c = st_conn y)); [by left|by right].
  - intros X [[-> ->]|H]%Hl; [rewrite E1; by apply S4|by apply S4].
  - intros [[-> ->]|H]%Hl; [rewrite E2; by apply S5|by apply S5].
  - intros [[-> ->]|H]%Hl; [rewrite E1, E4; by apply (S6 c)|by apply (S6 c')].
  - intros i st [[-> ->]|H]%Hl; [rewrite E1, E3; by apply S7|by apply S7].
  - intros i [[-> ->]|H]%Hl; [rewrite E3; by apply (S8 c)|by apply (S8 c')].
  - intros [[-> ->]|H]%Hl; [rewrite E3; intros [H|H]%E5; [by apply (S9 c)|done]|by apply (S9 c')].
Qed.
(** [doClose] takes the streams over. *)
Lemma so_clear C S A c x : streamOk C S A -> C !! c = Some x -> closer x = Removed -> streamOk (<[c := clearStreams x]> C) S A.
Proof.
  intros [S1 S2 S3 S4 S5 S6 S7 S8 S9] Hx Hc. assert (Hl : forall c' y, <[c := clearStreams x]> C !! c' = Some y -> c' = c /\ y = clearStreams x \/ C !! c' = Some y).
  { intros c' y. destruct (decide (c' = c)) as [->|]; [rewrite lookup_insert_eq; intros [= <-]; by left|rewrite lookup_insert_ne by done; by right]. }
  destruct (proj2 (S6 c x Hx)) as [X HX]; [unfold early; by rewrite Hc|].
  split; [|exact S2|exact S3|..]; intros c' y.
  - intros H. apply S1 in H. rewrite lookup_insert_is_Some. destruct (decide (c = st_conn y)); [by left|by right].
  - intros X' [[-> ->]|H]%Hl; [done|by apply S4].
  - intros [[-> ->]|H]%Hl; [by apply (S5 c x)|by apply S5].
  - intros [[-> ->]|H]%Hl; [|by apply (S6 c')]. simpl. split; [by intros [? ?]|done].
  - intros i st [[-> ->]|H]%Hl; [|by apply S7]. intros H1 H2 H3 _. simpl. rewrite HX. simpl. apply elem_of_elements, (S4 c x X Hx HX). exists st.
    split_and!; [done..|]. rewrite (S2 i st H1), H3. done.
  - intros i [[-> ->]|H]%Hl; [|by apply (S8 c')]. simpl. rewrite HX. simpl. intros (st & Hi & _)%elem_of_elements%(S4 c x X Hx HX). eauto.
  - intros [[-> ->]|H]%Hl; [done|by apply (S9 c')].
Qed.
(** A stream is released: its entry goes, its scope is done. *)
Lemma so_release C S A i st x : streamOk C S A -> S !! i = Some st -> scopeDone st = 0 -> C !! st_conn st = Some x ->
  streamOk (<[st_conn st := with_streams x ((fun X => X ∖ {[i]}) <$> cstreams x) (NumStreams x - 1)]> C) (<[i := mkStream (st_conn st) true true 1]> S) A.
Proof.
  intros [S1 S2 S3 S4 S5 S6 S7 S8 S9] Hi Hd Hx. set (c := st_conn st) in *. set (x' := with_streams x _ _). set (st' := mkStream c true true 1).
  assert (Hl : forall c' y, <[c := x']> C !! c' = Some y -> c' = c /\ y = x' \/ c' <> c /\ C !! c' = Some y).
  { intros c' y. destruct (decide (c' = c)) as [->|]; [rewrite lookup_insert_eq; intros [= <-]; by left|rewrite lookup_insert_ne by done; by right]. }
  assert (Hs : forall j y, <[i := st']> S !! j = Some y -> j = i /\ y = st' \/ j <> i /\ S !! j = Some y).
  { intros j y. destruct (decide (j = i)) as [->|]; [rewrite lookup_insert_eq; intros [= <-]; by left|rewrite lookup_insert_ne by done; by right]. }
  assert (Hopen : forall c' j, (exists y, <[i := st']> S !! j = Some y /\ st_conn y = c' /\ scopeDone y = 0) <-> j <> i /\ exists y, S !! j = Some y /\ st_conn y = c' /\ scopeDone y = 0).
  { intros c' j. destruct (decide (j = i)) as [->|Hne]; [rewrite lookup_insert_eq; split; [intros (y & [= <-] & _ & ?); done|by intros [? _]]|]. rewrite lookup_insert_ne by done. tauto. }
  split.
  - intros j y Hj. rewrite lookup_insert_is_Some. destruct (Hs j y Hj) as [[-> ->]|[_ H]]; [by left|]. destruct (decide (c = st_conn y)); [by left|right; split; [done|by apply (S1 j)]].
  - intros j y [[-> ->]|[_ H]]%Hs; [done|by apply (S2 j)].
  - intros j c' H. rewrite lookup_insert_ne; [by apply (S3 j c')|]. intros <-. specialize (S3 i c' H). congruence.
  - intros c' y X Hy HX j. rewrite Hopen. destruct (Hl c' y Hy) as [[-> ->]|[Hne H]].
    + simpl in HX. destruct (cstreams x) as [X0|] eqn:E0; [|done]. injection HX as <-. rewrite elem_of_difference, elem_of_singleton, (S4 c x X0 Hx E0). tauto.
    + rewrite (S4 c' y X H HX j). split; [|tauto]. intros (y0 & E1 & E2 & E3). split; [intros ->; apply Hne; unfold c; congruence|eauto].
  - intros c' y Hy. rewrite sumMap_insert, Hi. simpl. unfold openOn at 2 3. simpl. rewrite (decide_False (P := c = c' /\ 1 = 0)) by naive_solver.
    destruct (Hl c' y Hy) as [[-> ->]|[Hne H]].
    + rewrite decide_True by done. simpl. rewrite (S5 c x Hx). lia.
    + rewrite decide_False by naive_solver. rewrite (S5 c' y H). lia.
  - intros c' y [[-> ->]|[_ H]]%Hl; [|by apply (S6 c')]. change (early x') with (early x). rewrite <-(S6 c x Hx). simpl. rewrite fmap_is_Some. done.
  - intros c' y j y0 Hy [[-> ->]|[_ Hj]]%Hs; [done|]. destruct (Hl c' y Hy) as [[-> ->]|[_ H]]; [|by apply (S7 c' y j y0)].
    intros Hc Hcl Hnil. simpl in Hnil. destruct (cstreams x) eqn:E; [done|]. by apply (S7 c x j y0).
  - intros c' y j Hy Hj. rewrite lookup_insert_is_Some. destruct (decide (i = j)); [by left|right]. split; [done|].
    destruct (Hl c' y Hy) as [[-> ->]|[_ H]]; [by apply (S8 c x)|by apply (S8 c' y)].
  - intros c' y [[-> ->]|[_ H]]%Hl; [by apply (S9 c x)|by apply (S9 c' y)].
Qed.
(** A stream is closed while its handler runs, or its handler returns first. *)
Lemma so_touch C S A i st st' : streamOk C S A -> S !! i = Some st -> st_conn st' = st_conn st -> scopeDone st = 0 -> scopeDone st' = 0 ->
  st_closed st' && acceptStreamGoroutineCompleted st' = false -> (st_closed st' = false -> st_closed st = false) -> streamOk C (<[i := st']> S) A.
Proof.
  intros [S1 S2 S3 S4 S5 S6 S7 S8 S9] Hi Hc Hd Hd' Hn Hcl.
  assert (Hs : forall j y, <[i := st']> S !! j = Some y -> j = i /\ y = st' \/ j <> i /\ S !! j = Some y).
  { intros j y. destruct (decide (j = i)) as [->|]; [rewrite lookup_insert_eq; intros [= <-]; by left|rewrite lookup_insert_ne by done; by right]. }
  split; [..|done| | |done].
  - intros j y [[-> ->]|[_ H]]%Hs; [rewrite Hc; by apply (S1 i)|by apply (S1 j)].
  - intros j y [[-> ->]|[_ H]]%Hs; [by rewrite Hn|by apply (S2 j)].
  - intros j c' H. rewrite lookup_insert_ne; [by apply (S3 j c')|]. intros <-. specialize (S3 i c' H). congruence.
  - intros c x X Hx HX j. rewrite (S4 c x X Hx HX). destruct (decide (j = i)) as [->|]; [|by rewrite lookup_insert_ne]. rewrite lookup_insert_eq. split.
    + intros (y & E1 & E2 & E3). exists st'. assert (y = st) as -> by congruence. split_and!; [done|congruence|done].
    + intros (y & [= <-] & E2 & E3). exists st. split_and!; [done|congruence|done].
  - intros c x Hx. rewrite sumMap_insert, Hi, (S5 c x Hx). simpl. unfold openOn. rewrite Hc, Hd, Hd'. lia.
  - intros c x j y Hx [[-> ->]|[_ Hj]]%Hs; [|by apply (S7 c x j y)]. rewrite Hc. intros E1 E2. by apply (S7 c x i st Hx Hi E1), Hcl.
  - intros c x j Hx Hj. rewrite lookup_insert_is_Some. destruct (decide (i = j)); [by left|right]. split; [done|]. by apply (S8 c x).
Qed.
Lemma so_add C S A c x X i inb : streamOk C S A -> C !! c = Some x -> cstreams x = Some X -> S !! i = None -> A !! i = None ->
  streamOk (<[c := with_streams x (Some ({[i]} ∪ X)) (NumStreams x + 1)]> C) (<[i := mkStream c false (negb inb) 0]> S) A.
Proof.
  intros [S1 S2 S3 S4 S5 S6 S7 S8 S9] Hx HX Hi HA. set (x' := with_streams x _ _). set (st' := mkStream c _ _ _).
  assert (Hl : forall c' y, <[c := x']> C !! c' = Some y -> c' = c /\ y = x' \/ c' <> c /\ C !! c' = Some y).
  { intros c' y. destruct (decide (c' = c)) as [->|]; [rewrite lookup_insert_eq; intros [= <-]; by left|rewrite lookup_insert_ne by done; by right]. }
  assert (Hs : forall j y, <[i := st']> S !! j = Some y -> j = i /\ y = st' \/ j <> i /\ S !! j = Some y).
  { intros j y. destruct (decide (j = i)) as [->|]; [rewrite lookup_insert_eq; intros [= <-]; by left|rewrite lookup_insert_ne by done; by right]. }
  split.
  - intros j y Hj. rewrite lookup_insert_is_Some. destruct (Hs j y Hj) as [[-> ->]|[_ H]]; [by left|]. destruct (decide (c = st_conn y)); [by left|right; split; [done|by apply (S1 j)]].
  - intros j y [[-> ->]|[_ H]]%Hs; [done|by apply (S2 j)].
  - intros j c' H. rewrite lookup_insert_ne; [by apply (S3 j c')|]. intros <-. congruence.
  - intros c' y X' Hy HX' j. destruct (decide (j = i)) as [->|Hne].
    + rewrite lookup_insert_eq. destruct (Hl c' y Hy) as [[-> ->]|[Hne H]].
      * injection HX' as <-. split; [intros _; by exists st'|set_solver].
      * rewrite (S4 c' y X' H HX' i). split; [intros (z & E & _); congruence|]. intros (z & [= <-] & E & _). simpl in E. congruence.
    + rewrite lookup_insert_ne by done. destruct (Hl c' y Hy) as [[-> ->]|[Hne' H]]; [injection HX' as <-; rewrite <-(S4 c x X Hx HX j); set_solver|by rewrite (S4 c' y X' H HX' j)].
  - intros c' y Hy. rewrite sumMap_insert_new by done. unfold openOn at 1. simpl. destruct (Hl c' y Hy) as [[-> ->]|[Hne H]].
    + rewrite decide_True by done. simpl. rewrite (S5 c x Hx). lia.
    + rewrite decide_False by naive_solver. rewrite (S5 c' y H). lia.
  - intros c' y [[-> ->]|[_ H]]%Hl; [|by apply (S6 c')]. change (early x') with (early x). rewrite <-(S6 c x Hx), HX. simpl. by split.
  - intros c' y j y0 Hy Hj Ec Ecl Hnil. destruct (Hl c' y Hy) as [[-> ->]|[Hne H]]; [done|].
    destruct (Hs j y0 Hj) as [[-> ->]|[_ Hj']]; [simpl in Ec; congruence|]. by apply (S7 c' y j y0).
  - intros c' y j Hy Hj. rewrite lookup_insert_is_Some. destruct (decide (i = j)); [by left|right]. split; [done|].
    destruct (Hl c' y Hy) as [[-> ->]|[_ H]]; [by apply (S8 c x)|by apply (S8 c' y)].
  - intros c' y [[-> ->]|[_ H]]%Hl; [by apply (S9 c x)|by apply (S9 c' y)].
Qed.

(** ** Executions of the swarm's connections

    The events of the emitter, and the properties of every reachable state. *)
(** ** Connectedness in terms of the cores *)
Fixpoint viewLoop (l : list (bool * bool)) (haveLimited : bool) : Connectedness :=
  match l with
  | [] => if haveLimited then Limited else NotConnected
  | (closed, limited) :: l => if closed then viewLoop l haveLimited else if limited then viewLoop l true else Connected
  end.
Definition view (k : Core) : bool * bool := (k_closed k, k_limited k).
Definition listed (m : table) (p : PeerID) : list ConnID := default [] (m ≫= (.!! p)).
Definition views (K : gmap ConnID Core) (cs : list ConnID) : list (bool * bool) := omap (fun c => view <$> K !! c) cs.
Definition kconnected (m : table) (K : gmap ConnID Core) (p : PeerID) : Connectedness := viewLoop (views K (listed m p)) false.
Lemma connectedness_cores s p : connectednessUnlocked s p = kconnected (conns s) (cores s) p.
Proof.
  assert (H : forall l h, connectedLoop l h = viewLoop ((fun y => view (core y.2)) <$> l) h).
  { induction l as [|[c x] l IH]; intros h; [done|]. simpl. destruct (isClosed x); [done|]. by destruct (connLimited x). }
  unfold connectednessUnlocked, kconnected. rewrite H. f_equal. unfold connObjs, views. fold (listed (conns s) p) (connsOf s p). unfold connsOf, listed.
  induction (default [] (conns s ≫= (.!! p))) as [|c cs IH]; [done|]. simpl. unfold cores. rewrite lookup_fmap. destruct (conn s !! c); simpl; [f_equal|]; apply IH.
Qed.
Lemma views_ext K K' cs : (forall c, c ∈ cs -> view <$> K' !! c = view <$> K !! c) -> views K' cs = views K cs.
Proof.
  induction cs as [|c cs IH]; intros H; [done|]. unfold views. simpl. rewrite (H c) by set_solver. destruct (view <$> K !! c); [f_equal|]; apply IH; set_solver.
Qed.
Lemma kconnected_other m K p c k' : c ∉ listed m p -> kconnected m (<[c := k']> K) p = kconnected m K p.
Proof. intros H. unfold kconnected. rewrite (views_ext K); [done|]. intros c' Hc. rewrite lookup_insert_ne; [done|]. by intros ->. Qed.
Lemma kconnected_view m K p c k k' : K !! c = Some k -> view k' = view k -> kconnected m (<[c := k']> K) p = kconnected m K p.
Proof.
  intros Hk Hv. unfold kconnected. rewrite (views_ext K); [done|]. intros c' _. destruct (decide (c' = c)) as [->|]; [|by rewrite lookup_insert_ne].
  rewrite lookup_insert_eq, Hk. simpl. by rewrite Hv.
Qed.
Lemma listed_core m K p c : tableOk m K -> c ∈ listed m p -> exists k, K !! c = Some k /\ k_peer k = p /\ k_closer k = Open.
Proof.
  intros T. unfold listed. destruct m as [M|]; simpl; [|by intros ?%elem_of_nil]. destruct (M !! p) as [cs|] eqn:E; simpl; [|by intros ?%elem_of_nil].
  destruct (t_entry _ _ T M p cs eq_refl E) as (_ & _ & H). apply H.
Qed.
Lemma viewLoop_none l : viewLoop l false <> NotConnected -> exists limited, (false, limited) ∈ l.
Proof.
  induction l as [|[[] b] l IH]; simpl; [done|..]; [intros H; destruct (IH H) as [b' ?]; exists b'; set_solver|]. intros _. exists b. set_solver.
Qed.

(** ** The events *)
Definition lastOf (evs : list (PeerID * Connectedness)) (p : PeerID) : option Connectedness := snd <$> last (filter (fun e => e.1 = p) evs).
Lemma lastOf_snoc evs q v p : lastOf (evs ++ [(q, v)]) p = if decide (q = p) then Some v else lastOf evs p.
Proof.
  unfold lastOf. rewrite filter_app. destruct (decide (q = p)) as [->|].
  - rewrite filter_cons_True, filter_nil by done. by rewrite last_snoc.
  - rewrite filter_cons_False, filter_nil by done. by rewrite app_nil_r.
Qed.
(** The emitter will still hear of a change of this connection. *)
Definition unsettled (m : table) (k : Core) : Prop :=
  k_adder k = Adding \/ k_closer k = Removed \/ k_closer k = Cleared \/ k_closer k = TransportClosed \/ (k_closer k = Open /\ (k_closed k = true \/ m = None)).
Definition pendingPeer (s : Swarm) (p : PeerID) : Prop :=
  p ∈ newConns s \/ p ∈ removeConns s \/ p ∈ draining s \/ exists c k, cores s !! c = Some k /\ k_peer k = p /\ unsettled (conns s) k.
Record eventOk (s : Swarm) : Prop := {
  e_told p : told s p = default NotConnected (lastOf (events s) p);
  e_sent c k : cores s !! c = Some k -> k_adder k <> Adding -> k_peer k ∈ newConns s \/ is_Some (lastOf (events s) (k_peer k));
  e_notif : removeConns s <> [] -> removeConnNotif s = true \/ exists c k, cores s !! c = Some k /\ k_closer k = Appended;
  e_settled p : told s p = kconnected (conns s) (cores s) p \/ pendingPeer s p }.

Lemma event_same s s' : sameOutside s s' -> eventOk s -> eventOk s'.
Proof.
  intros (E1 & E2 & E3 & E4 & E5 & E6 & E7 & E8 & E9) [H1 H2 H3 H4]. unfold told, pendingPeer in *.
  split; unfold told, pendingPeer; rewrite ?E1, ?E2, ?E3, ?E4, ?E5, ?E6, ?E7, ?E8; done.
Qed.
(** A connection changes, and the queues with it. *)
Lemma event_change s s' c k k' : eventOk s -> cores s !! c = Some k -> cores s' = <[c := k']> (cores s) -> k_peer k' = k_peer k ->
  lastEvent s' = lastEvent s -> events s' = events s -> draining s' = draining s ->
  (forall p, p ∈ newConns s -> p ∈ newConns s') -> (forall p, p ∈ removeConns s -> p ∈ removeConns s') ->
  (conns s = None -> conns s' = None) ->
  (k_adder k' <> Adding -> k_adder k <> Adding \/ k_peer k ∈ newConns s') ->
  (removeConns s' <> [] -> removeConns s <> [] \/ removeConnNotif s' = true \/ k_closer k' = Appended) ->
  (removeConnNotif s = true -> removeConnNotif s' = true) -> (k_closer k = Appended -> k_closer k' = Appended \/ removeConnNotif s' = true) ->
  (unsettled (conns s) k -> unsettled (conns s') k' \/ k_peer k ∈ newConns s' \/ k_peer k ∈ removeConns s') ->
  (forall p, p <> k_peer k -> kconnected (conns s') (cores s') p = kconnected (conns s) (cores s) p) ->
  (kconnected (conns s') (cores s') (k_peer k) = kconnected (conns s) (cores s) (k_peer k) \/ unsettled (conns s') k' \/ k_peer k ∈ newConns s' \/ k_peer k ∈ removeConns s') ->
  eventOk s'.
Proof.
  intros [H1 H2 H3 H4] Hk EK Ep El Ee Ed Hn Hr Hm Ha Hr0 Hno Hap Hun Hoth Hself.
  assert (Hc : cores s' !! c = Some k') by by rewrite EK, lookup_insert_eq.
  assert (Hother : forall c' k0, cores s !! c' = Some k0 -> c' <> c -> cores s' !! c' = Some k0) by (intros; by rewrite EK, lookup_insert_ne).
  assert (Hpend : forall p, pendingPeer s p -> pendingPeer s' p).
  { intros p. unfold pendingPeer. rewrite Ed. intros [?|[?|[?|(c' & k0 & E & <- & U)]]]; [left; by apply Hn|right; left; by apply Hr|right; right; by left|]. destruct (decide (c' = c)) as [->|Hne].
    - assert (k0 = k) as -> by congruence. destruct (Hun U) as [U'|[?|?]]; [|by left|by right; left]. right; right; right. exists c, k'. by rewrite Ep.
    - right; right; right. exists c', k0. split_and!; [by apply Hother|done|]. clear -U Hm. unfold unsettled in *. tauto. }
  split; rewrite ?Ee.
  - intros p. unfold told. rewrite El. apply H1.
  - intros c' k0 E Hne. destruct (decide (c' = c)) as [->|Hc'].
    + assert (k0 = k') as -> by congruence. rewrite Ep. destruct (Ha Hne) as [Hka|]; [|by left]. destruct (H2 c k Hk Hka); [left; by apply Hn|by right].
    + rewrite EK, lookup_insert_ne in E by done. destruct (H2 c' k0 E Hne); [left; by apply Hn|by right].
  - intros Hne. destruct (Hr0 Hne) as [Hr'|[?|?]]; [|by left|right; by exists c, k']. destruct (H3 Hr') as [?|(c' & k0 & E & Ec)]; [left; by apply Hno|].
    destruct (decide (c' = c)) as [->|]; [|right; exists c', k0; split; [by apply Hother|done]]. assert (k0 = k) as -> by congruence. destruct (Hap Ec); [right; by exists c, k'|by left].
  - intros p. destruct (H4 p) as [E|?]; [|right; by apply Hpend]. unfold told in *. rewrite El. destruct (decide (p = k_peer k)) as [->|Hp]; [|left; by rewrite Hoth].
    destruct Hself as [Hs|[U|[?|?]]]; [left; congruence|right; right; right; right; by exists c, k'|right; by left|right; by right; left].
Qed.
Lemma event_add s s' c k' : eventOk s -> cores s !! c = None -> cores s' = <[c := k']> (cores s) -> k_adder k' = Adding ->
  lastEvent s' = lastEvent s -> events s' = events s -> draining s' = draining s -> newConns s' = newConns s -> removeConns s' = removeConns s ->
  removeConnNotif s' = removeConnNotif s -> (conns s = None -> conns s' = None) ->
  (forall p, p <> k_peer k' -> kconnected (conns s') (cores s') p = kconnected (conns s) (cores s) p) -> eventOk s'.
Proof.
  intros [H1 H2 H3 H4] Hk EK Ha El Ee Ed En Er Eo Hm Hoth.
  assert (Hold : forall c' k0, cores s !! c' = Some k0 -> cores s' !! c' = Some k0) by (intros c' k0 H; rewrite EK, lookup_insert_ne; [done|congruence]).
  split; rewrite ?Ee, ?En, ?Er, ?Eo.
  - intros p. unfold told. rewrite El. apply H1.
  - intros c' k0. rewrite EK. destruct (decide (c' = c)) as [->|]; [rewrite lookup_insert_eq; by intros [= <-]|rewrite lookup_insert_ne by done; apply H2].
  - intros Hr. destruct (H3 Hr) as [?|(c' & k0 & ? & ?)]; [by left|right; exists c', k0; split; [by apply Hold|done]].
  - intros p. unfold told, pendingPeer in *. rewrite El, Ed, En, Er. destruct (decide (p = k_peer k')) as [->|Hp].
    + right; right; right; right. exists c, k'. rewrite EK, lookup_insert_eq. split_and!; [done..|by left].
    + destruct (H4 p) as [E|[?|[?|[?|(c' & k0 & ? & ? & U)]]]]; [left; by rewrite Hoth|right; by left|right; right; by left|right; right; right; by left|]. right; right; right; right. exists c', k0.
      split_and!; [by apply Hold|done|]. clear -U Hm. unfold unsettled in *. tauto.
Qed.

(** [notifyPeer] brings the emitter up to date for the peer. *)
Lemma notify_told s p f q : told (notifyPeer s p f) q = if decide (q = p) then connectednessUnlocked s p else told s q.
Proof.
  unfold told, notifyPeer. simpl. case_bool_decide as E; case_decide as D; subst; rewrite ?lookup_delete_eq, ?lookup_insert_eq, ?lookup_delete_ne, ?lookup_insert_ne by done; done.
Qed.
Lemma notify_events s p f : (forall q, told s q = default NotConnected (lastOf (events s) q)) -> let s' := notifyPeer s p f in
  (forall q, told s' q = default NotConnected (lastOf (events s') q)) /\ (forall q, is_Some (lastOf (events s) q) -> is_Some (lastOf (events s') q)) /\
  (f = true -> is_Some (lastOf (events s') p)).
Proof.
  intros H. cbv zeta. set (now := connectednessUnlocked s p).
  assert (E : events (notifyPeer s p f) = if (f && bool_decide (now = NotConnected)) || negb (bool_decide (now = told s p)) then events s ++ [(p, now)] else events s) by done.
  rewrite E. destruct ((f && _) || _) eqn:Hemit.
  - split_and!.
    + intros q. rewrite notify_told, lastOf_snoc. fold now. destruct (decide (q = p)) as [Eq|Hn]; [rewrite decide_True by done; done|]. rewrite decide_False by congruence. apply H.
    + intros q Hq. rewrite lastOf_snoc. destruct (decide (p = q)); [by exists now|done].
    + intros _. rewrite lastOf_snoc, decide_True by done. by exists now.
  - apply orb_false_iff in Hemit as [Hf Hnow%negb_false_iff%bool_decide_eq_true]. split_and!; [|done|].
    + intros q. rewrite notify_told. fold now. destruct (decide (q = p)) as [D|]; [subst q; congruence|apply H].
    + intros ->. simpl in Hf. apply bool_decide_eq_false in Hf. rewrite Hnow, H in Hf. destruct (lastOf (events s) p); [by eexists|done].
Qed.
Lemma event_notify s new' drain' p f : eventOk s ->
  (forall q, q ∈ newConns s -> q ∈ new' \/ q = p /\ f = true) -> (forall q, q ∈ draining s -> q ∈ drain' \/ q = p) ->
  eventOk (notifyPeer (set_queues s new' (removeConns s) (removeConnNotif s) drain') p f).
Proof.
  intros [H1 H2 H3 H4] Hn Hd. set (s1 := set_queues s new' (removeConns s) (removeConnNotif s) drain'). destruct (notify_events s1 p f H1) as (N1 & N2 & N3). split.
  - exact N1.
  - intros c k Hk Ha. destruct (H2 c k Hk Ha) as [Hin|Hl]; [|right; by apply N2]. destruct (Hn _ Hin) as [?|[-> ?]]; [by left|right; by apply N3].
  - exact H3.
  - intros q. rewrite notify_told. destruct (decide (q = p)) as [->|Hq]; [left; exact (connectedness_cores s1 p)|]. destruct (H4 q) as [?|[Hin|[?|[Hin|Hc]]]]; [by left|..].
    + right; left. destruct (Hn q Hin) as [?|[? _]]; done.
    + right; right; by left.
    + right; right; right; left. destruct (Hd q Hin); done.
    + by right; right; right; right.
Qed.
Lemma event_take s : eventOk s -> draining s = [] -> eventOk (takeRemoved s).
Proof.
  intros [H1 H2 H3 H4] Hd. split; [done|done|by simpl|]. intros p. destruct (H4 p) as [?|[?|[?|[Hin|Hc]]]]; [by left|right; by left|right; right; right; by left| |right; right; right; by right].
  rewrite Hd in Hin. by apply elem_of_nil in Hin.
Qed.
Lemma event_shutdown s : eventOk s -> tableOk (conns s) (cores s) -> eventOk (set_conns s None).
Proof.
  intros [H1 H2 H3 H4] T. split; [done..|]. assert (Hu : forall k, unsettled (conns s) k -> unsettled None k) by (unfold unsettled; tauto).
  intros p. destruct (H4 p) as [E|[?|[?|[?|(c & k & ? & ? & ?)]]]]; [|right; by left|right; right; by left|right; right; right; by left|right; right; right; right; exists c, k; by auto].
  destruct (decide (kconnected (conns s) (cores s) p = NotConnected)) as [E0|Hne]; [left; change (told s p = NotConnected); congruence|].
  right; right; right; right. apply viewLoop_none in Hne as [b Hb]. unfold views in Hb. apply list_elem_of_omap in Hb as (c & Hc & Hv).
  destruct (listed_core _ _ _ _ T Hc) as (k & Hk & Hp & Ho). exists c, k. split_and!; [done..|]. unfold unsettled. simpl. tauto.
Qed.

(** ** The invariant *)
Record swInv (s : Swarm) : Prop := {
  sw_table : tableOk (conns s) (cores s);
  sw_notes : noteOk (cores s) (notes s);
  sw_refs : refsOk s;
  sw_streams : streamOk (conn s) (stream s) (accepting s);
  sw_events : eventOk s }.
Lemma swInv_start : swInv NewSwarm.
Proof.
  split.
  - split; simpl; [intros M p cs [= <-]|intros M c k [= <-]]; unfold cores; simpl; by rewrite ?fmap_empty, ?lookup_empty.
  - assert (K0 : forall c : ConnID, cores NewSwarm !! c = None) by (intros c; unfold cores; simpl; by rewrite fmap_empty, lookup_empty).
    split; simpl; [constructor|..]; try (intros c; rewrite K0; split; [by intros ?%elem_of_nil|by intros (k & ? & _)]); [intros c k; by rewrite K0|].
    intros c l1 l2 E. by destruct l1.
  - unfold refsOk, cores. simpl. by rewrite fmap_empty, !sumMap_empty.
  - split; simpl; try (intros ? ?; rewrite lookup_empty; done); try (intros ? ? ?; rewrite lookup_empty; done); intros ? ? ? ?; rewrite lookup_empty; done.
  - split; simpl; [done| |done|]; unfold cores; simpl; [intros c k; by rewrite fmap_empty, lookup_empty|]. intros p. by left.
Qed.

(** ** Every step preserves it *)
(** The cases of a step that only concern streams *)
Definition streamStep (s s' : Swarm) : Prop := sameOutside s s' /\ refsOk s' /\ streamOk (conn s') (stream s') (accepting s').
Lemma inv_stream s s' : swInv s -> streamStep s s' -> swInv s'.
Proof.
  intros O (Hs & Hr & Hst). pose proof Hs as (E1 & E2 & _ & _ & _ & _ & _ & _ & E9). split; [rewrite E1, E2; apply O|rewrite E2, E9; apply O|done|done|].
  eapply event_same; [exact Hs|apply O].
Qed.
(** A connection changes outside its streams: what the parts of the invariant ask for *)
Lemma inv_put s s' c x x' : swInv s -> conn s !! c = Some x -> conn s' = <[c := x']> (conn s) -> stream s' = stream s -> accepting s' = accepting s ->
  cstreams x' = cstreams x -> NumStreams x' = NumStreams x -> toReset x' = toReset x ->
  early x' = early x -> (late x' = true -> late x = true \/ toReset x = []) ->
  tableOk (conns s') (cores s') -> noteOk (cores s') (notes s') -> refs s' = refs s + (kDue (core x') - kDue (core x)) -> eventOk s' -> swInv s'.
Proof.
  intros O Hx Ec Es Ea E1 E2 E3 E4 E5 T N R E. split; [done|done| | |done].
  - unfold refsOk. rewrite R. assert (cores s' = <[c := core x']> (cores s)) as -> by (unfold cores; by rewrite Ec, fmap_insert).
    rewrite Es, Ea. by apply (refs_put s c x x'); [apply O|..].
  - rewrite Ec, Es, Ea. by apply (so_put _ _ _ c x x'); [apply O|..].
Qed.
Lemma cores_eq s s' c x' : conn s' = <[c := x']> (conn s) -> cores s' = <[c := core x']> (cores s).
Proof. intros E. unfold cores. by rewrite E, fmap_insert. Qed.

(** Streams *)
Lemma so_closeStream s i st : streamOk (conn s) (stream s) (accepting s) -> stream s !! i = Some st ->
  streamOk (conn (closeAndRemoveStream s i st)) (stream (closeAndRemoveStream s i st)) (accepting (closeAndRemoveStream s i st)).
Proof.
  intros O Hi. unfold closeAndRemoveStream. destruct (st_closed st) eqn:Ec; [done|]. simpl. pose proof (so_done _ _ _ O i st Hi) as Hd. rewrite Ec in Hd. simpl in Hd.
  destruct (acceptStreamGoroutineCompleted st) eqn:Ea.
  - unfold removeStream. simpl. destruct (so_conn _ _ _ O i st Hi) as [x Hx]. rewrite Hx. simpl. rewrite insert_insert_eq, Hd. by apply so_release.
  - simpl. apply (so_touch _ _ _ i st); done.
Qed.
Lemma so_handled s i st : streamOk (conn s) (stream s) (accepting s) -> stream s !! i = Some st ->
  streamOk (conn (completeAcceptStreamGoroutine s i st)) (stream (completeAcceptStreamGoroutine s i st)) (accepting (completeAcceptStreamGoroutine s i st)).
Proof.
  intros O Hi. unfold completeAcceptStreamGoroutine. destruct (acceptStreamGoroutineCompleted st) eqn:Ea; [done|]. simpl. pose proof (so_done _ _ _ O i st Hi) as Hd.
  rewrite Ea, andb_false_r in Hd. destruct (st_closed st) eqn:Ec.
  - unfold removeStream. simpl. destruct (so_conn _ _ _ O i st Hi) as [x Hx]. rewrite Hx. simpl. rewrite insert_insert_eq, Hd. by apply so_release.
  - simpl. apply (so_touch _ _ _ i st); done.
Qed.
Lemma closed_after s i st : stream s !! i = Some st -> exists st', stream (closeAndRemoveStream s i st) !! i = Some st' /\ st_closed st' = true.
Proof.
  intros Hi. unfold closeAndRemoveStream. destruct (st_closed st) eqn:E; [by exists st|]. simpl. destruct (acceptStreamGoroutineCompleted st).
  - destruct (removeStream_rest (add_refs (put_stream s i (mkStream (st_conn st) true true (scopeDone st))) (-1)) i (mkStream (st_conn st) true true (scopeDone st))) as (-> & _).
    eexists. by rewrite lookup_insert_eq.
  - eexists. simpl. by rewrite lookup_insert_eq.
Qed.
Lemma toReset_after s i st c x : conn s !! c = Some x -> exists x', conn (closeAndRemoveStream s i st) !! c = Some x' /\ toReset x' = toReset x /\ closer x' = closer x.
Proof.
  intros Hx. assert (G : forall s0 j y, conn s0 !! c = Some x -> exists x', conn (removeStream s0 j y) !! c = Some x' /\ toReset x' = toReset x /\ closer x' = closer x).
  { intros s0 j y H. unfold removeStream. destruct (conn s0 !! st_conn y) as [z|] eqn:E; [|by exists x]. simpl. destruct (decide (st_conn y = c)) as [Ey|]; [|exists x; by rewrite lookup_insert_ne].
    rewrite Ey in *. assert (z = x) as -> by congruence. eexists. by rewrite lookup_insert_eq. }
  unfold closeAndRemoveStream. destruct (st_closed st); [by exists x|]. simpl. destruct (acceptStreamGoroutineCompleted st); [by apply G|by exists x].
Qed.
Lemma so_pop C S A c x i rest st : streamOk C S A -> C !! c = Some x -> toReset x = i :: rest -> S !! i = Some st -> st_closed st = true -> late x = false ->
  streamOk (<[c := with_reset x rest]> C) S A.
Proof.
  intros [S1 S2 S3 S4 S5 S6 S7 S8 S9] Hx Ht Hi Hc Hlate.
  assert (Hl : forall c' y, <[c := with_reset x rest]> C !! c' = Some y -> c' = c /\ y = with_reset x rest \/ C !! c' = Some y).
  { intros c' y. destruct (decide (c' = c)) as [->|]; [rewrite lookup_insert_eq; intros [= <-]; by left|rewrite lookup_insert_ne by done; by right]. }
  split; [|exact S2|exact S3|..]; intros c' y.
  - intros H. apply S1 in H. rewrite lookup_insert_is_Some. destruct (decide (c = st_conn y)); [by left|by right].
  - intros X [[-> ->]|H]%Hl; [by apply (S4 c x)|by apply S4].
  - intros [[-> ->]|H]%Hl; [by apply (S5 c x)|by apply S5].
  - intros [[-> ->]|H]%Hl; [by apply (S6 c x)|by apply (S6 c')].
  - intros j st0 [[-> ->]|H]%Hl; [|by apply S7]. intros H1 H2 H3 H4. assert (Hin : j ∈ toReset x) by by apply (S7 c x j st0). rewrite Ht in Hin.
    apply elem_of_cons in Hin as [->|?]; [congruence|done].
  - intros j [[-> ->]|H]%Hl; [|by apply (S8 c')]. intros Hj. apply (S8 c x j Hx). rewrite Ht. by right.
  - intros [[-> ->]|H]%Hl; [|by apply (S9 c')]. change (late (with_reset x rest)) with (late x). congruence.
Qed.

(** The steps of streams *)
Lemma step_close_stream s i st : swInv s -> stream s !! i = Some st -> streamStep s (closeAndRemoveStream s i st).
Proof. intros O Hi. split_and!; [apply closeStream_same|apply refs_closeStream; [apply O|done]|apply so_closeStream; [apply O|done]]. Qed.
Lemma step_reset s c x i rest st : swInv s -> conn s !! c = Some x -> closer x = Signalled -> toReset x = i :: rest -> stream s !! i = Some st ->
  streamStep s (popReset (closeAndRemoveStream s i st) c).
Proof.
  intros O Hx Hc Ht Hi. destruct (step_close_stream s i st O Hi) as (H1 & H2 & H3). destruct (toReset_after s i st c x Hx) as (x' & Hx' & Et & Ec).
  destruct (closed_after s i st Hi) as (st' & Hi' & Hcl). pose proof (popReset_same (closeAndRemoveStream s i st) c) as H4. split_and!; [by etransitivity|..]; unfold popReset in *; rewrite Hx' in *.
  - destruct H4 as (_ & E & _). unfold refsOk in *. by rewrite E.
  - simpl. rewrite Et, Ht. simpl. apply (so_pop _ _ _ c x' i rest st'); [done|done|congruence|done|done|]. unfold late. by rewrite Ec, Hc.
Qed.
Lemma step_add_stream s c x i inb s' : swInv s -> conn s !! c = Some x -> stream s !! i = None -> accepting s !! i = None -> addStream s c x i inb = Some s' -> streamStep s s'.
Proof.
  intros O Hx Hi Ha H. pose proof (addStream_same s c x i inb s' Hx H) as Hs. split; [done|]. unfold addStream in H. destruct (cstreams x) as [X|] eqn:HX; [|done].
  injection H as <-. destruct Hs as (_ & Hc & _). split; [|by apply (so_add _ _ _ c x X); [apply O|..]]. pose proof (sw_refs _ O) as R. unfold refsOk in *. rewrite Hc. simpl.
  rewrite sumMap_insert_new by done. unfold sDue at 1. simpl. lia.
Qed.
(** Inbound streams that have been accepted *)
Lemma step_accepting s A n : swInv s -> (forall j c, A !! j = Some c -> stream s !! j = None) -> Z.of_nat (size A) = Z.of_nat (size (accepting s)) + n ->
  streamStep s (add_refs (set_accepting s A) n).
Proof.
  intros O HA Hn. split_and!; [done| |].
  - pose proof (sw_refs _ O) as R. unfold refsOk, cores in *. simpl. lia.
  - destruct (sw_streams _ O) as [S1 S2 S3 S4 S5 S6 S7 S8 S9]. by split.
Qed.
Lemma addStream_refs s c x i b s' n : addStream s c x i b = Some s' -> addStream (add_refs s n) c x i b = Some (add_refs s' n).
Proof. unfold addStream. destruct (cstreams x); [|done]. intros [= <-]. unfold add_refs, put_stream, put_conn. simpl. do 2 f_equal. lia. Qed.
Lemma step_inbound s c x i s' : swInv s -> accepting s !! i = Some c -> conn s !! c = Some x -> addStream (set_accepting s (delete i (accepting s))) c x i true = Some s' ->
  swInv (add_refs s' (-1)).
Proof.
  intros O Ha Hx H. set (s1 := add_refs (set_accepting s (delete i (accepting s))) (-1)). assert (O1 : swInv s1).
  { apply (inv_stream s); [done|]. apply step_accepting; [done|intros j c' [_ Hj]%lookup_delete_Some; by apply (so_fresh _ _ _ (sw_streams _ O) j c')|].
    rewrite map_size_delete, Ha. simpl. assert (size (accepting s) <> 0)%nat; [|lia]. intros E%map_size_empty_inv. by rewrite E in Ha. }
  apply (inv_stream s1); [done|]. apply (step_add_stream s1 c x i true); [done|done|by apply (so_fresh _ _ _ (sw_streams _ O) i c)|apply lookup_delete_eq|].
  by apply (addStream_refs _ c x i true s' (-1)).
Qed.

(** ** Changes of a connection *)
Lemma kconn_other m K p c k k' : tableOk m K -> K !! c = Some k -> p <> k_peer k -> kconnected m (<[c := k']> K) p = kconnected m K p.
Proof. intros T Hk Hp. apply kconnected_other. intros Hin. destruct (listed_core _ _ _ _ T Hin) as (k0 & E & E1 & _). congruence. Qed.
Lemma kconn_unlisted m K p c k k' : tableOk m K -> K !! c = Some k -> k_closer k <> Open -> kconnected m (<[c := k']> K) p = kconnected m K p.
Proof. intros T Hk Ho. apply kconnected_other. intros Hin. destruct (listed_core _ _ _ _ T Hin) as (k0 & E & _ & E1). congruence. Qed.

(** The queues and the table stay as they are. *)
Definition quietOutside (s s' : Swarm) : Prop :=
  conns s' = conns s /\ newConns s' = newConns s /\ removeConns s' = removeConns s /\ removeConnNotif s' = removeConnNotif s /\
  draining s' = draining s /\ lastEvent s' = lastEvent s /\ events s' = events s.
Lemma event_calm s s' c x x' : swInv s -> conn s !! c = Some x -> conn s' = <[c := x']> (conn s) -> quietOutside s s' -> RemotePeer x' = RemotePeer x ->
  (adder x' = Adding <-> adder x = Adding) -> (closer x = Appended -> closer x' = Appended) ->
  (unsettled (conns s) (core x) -> unsettled (conns s) (core x')) -> (view (core x') = view (core x) \/ closer x <> Open \/ unsettled (conns s) (core x')) -> eventOk s'.
Proof.
  intros O Hx Ec (Q1 & Q2 & Q3 & Q4 & Q5 & Q6 & Q7) Ep Ha Hap Hu Hv. pose proof (cores_lookup s c x Hx) as Hk. pose proof (cores_eq s s' c x' Ec) as EK.
  apply (event_change s s' c (core x) (core x')); rewrite ?Q1, ?Q2, ?Q3, ?Q4; try done; [apply O|..].
  - intros H. left. simpl in *. tauto.
  - intros H. by left.
  - intros H. left. by apply Hap.
  - intros H. left. by apply Hu.
  - intros p Hp. rewrite EK. by apply (kconn_other _ _ _ _ (core x)); [apply O|..].
  - rewrite EK. destruct Hv as [Hv|[Hv|Hv]]; [left; by apply (kconnected_view _ _ _ _ (core x))|left; by apply (kconn_unlisted _ _ _ _ (core x)); [apply O|..]|right; by left].
Qed.
Lemma note_calm s s' c x x' : swInv s -> conn s !! c = Some x -> conn s' = <[c := x']> (conn s) -> notes s' = notes s -> (adder x' = Started <-> adder x = Started) ->
  (closer x' = Disconnected_ <-> closer x = Disconnected_) -> noteOk (cores s') (notes s').
Proof.
  intros O Hx Ec -> Ha Hc. pose proof (cores_lookup s c x Hx) as Hk. rewrite (cores_eq s s' c x' Ec). apply note_same; [apply O|..].
  - simpl. rewrite Ha. split; [intros H; by exists (core x)|intros (k & E & H)]. rewrite Hk in E. by injection E as <-.
  - simpl. rewrite Hc. split; [intros H; by exists (core x)|intros (k & E & H)]. rewrite Hk in E. by injection E as <-.
Qed.
Lemma conn_table_calm s s' c x x' : swInv s -> conn s !! c = Some x -> conn s' = <[c := x']> (conn s) -> conns s' = conns s -> RemotePeer x' = RemotePeer x ->
  (closer x' = Open <-> closer x = Open) -> tableOk (conns s') (cores s').
Proof.
  intros O Hx Ec -> Ep Ho. rewrite (cores_eq s s' c x' Ec). by apply (table_same _ _ c (core x)); [apply O|by apply cores_lookup|..].
Qed.

Ltac phase H := unfold unsettled, early, late, kDue in *; simpl in *; rewrite ?H in *; simpl in *; try tauto; try lia; try (by intros); try (split; congruence); try (intros; by left); try (intros; by right).
Lemma step_add s c p limited proxy s' : swInv s -> conn s !! c = None -> addConn s c p limited proxy = Some s' -> swInv s'.
Proof.
  intros O Hc H. unfold addConn in H. destruct (conns s) as [M|] eqn:EM; [|done]. set (x := mkConn p limited proxy false (Some ∅) 0 Adding Open [] false) in *.
  assert (Es : s' = add_refs (put_conn (set_conns s (Some (<[p := default [] (M !! p) ++ [c]]> M))) c x) 2) by congruence. clear H.
  assert (Hk : cores s !! c = None) by (unfold cores; by rewrite lookup_fmap, Hc). assert (EK : cores s' = <[c := core x]> (cores s)) by (apply cores_eq; by rewrite Es).
  pose proof (sw_table _ O) as T. rewrite EM in T. pose proof (table_add M (cores s) c (core x) T Hk eq_refl) as T'. split.
  - rewrite EK, Es. exact T'.
  - rewrite EK, Es. apply note_same; [apply O|..]; simpl; (split; [done|intros (k & ? & _); congruence]).
  - pose proof (sw_refs _ O) as R. unfold refsOk in *. rewrite EK, Es. simpl. rewrite sumMap_insert_new by done. unfold kDue at 1. simpl. lia.
  - rewrite Es. simpl. destruct (sw_streams _ O) as [S1 S2 S3 S4 S5 S6 S7 S8 S9].
    assert (Hn : forall i st, stream s !! i = Some st -> st_conn st <> c) by (intros i st H E; destruct (S1 i st H) as [y Hy]; congruence).
    assert (Hl : forall c' y, <[c := x]> (conn s) !! c' = Some y -> c' = c /\ y = x \/ conn s !! c' = Some y).
    { intros c' y. destruct (decide (c' = c)) as [->|]; [rewrite lookup_insert_eq; intros [= <-]; by left|rewrite lookup_insert_ne by done; by right]. }
    split; [|exact S2|exact S3|..]; intros c' y.
    + intros H. apply S1 in H. rewrite lookup_insert_is_Some. destruct (decide (c = st_conn y)); [by left|by right].
    + intros X [[-> ->]|H]%Hl; [|by apply S4]. intros [= <-] i. split; [set_solver|]. intros (st & H1 & H2 & _). by apply Hn in H1.
    + intros [[-> ->]|H]%Hl; [|by apply S5]. simpl. symmetry. clear -Hn. induction (stream s) as [|i st m Hi IH] using map_ind; [apply sumMap_empty|].
      rewrite sumMap_insert_new, IH by (done || (intros j y Hj; apply (Hn j); rewrite lookup_insert_ne; [done|congruence])).
      unfold openOn. rewrite decide_False; [done|]. intros [E _]. apply (Hn i st); [by rewrite lookup_insert_eq|done].
    + intros [[-> ->]|H]%Hl; [|by apply (S6 c')]. by simpl.
    + intros i st [[-> ->]|H]%Hl; [|by apply S7]. done.
    + intros i [[-> ->]|H]%Hl; [|by apply (S8 c')]. by intros ?%elem_of_nil.
    + intros [[-> ->]|H]%Hl; [done|by apply (S9 c')].
  - apply (event_add s s' c (core x)); try (rewrite Es; done); [apply O|done..|by rewrite EM|]. intros q Hq. rewrite EK, EM, Es. simpl. simpl in Hq.
    rewrite kconnected_other.
    + unfold kconnected, listed. simpl. by rewrite lookup_insert_ne.
    + unfold listed. simpl. rewrite lookup_insert_ne by done. intros Hin. destruct (listed_core (Some M) _ q c T Hin) as (k & ? & _). congruence.
Qed.
Lemma step_queue s c x : swInv s -> conn s !! c = Some x -> adder x = Adding -> swInv (AddConn (put_conn s c (with_adder x Queued)) (RemotePeer x)).
Proof.
  intros O Hx Ha. set (s' := AddConn _ _). set (x' := with_adder x Queued). assert (Ec : conn s' = <[c := x']> (conn s)) by done.
  apply (inv_put s s' c x x'); try done; [intros; by left|by apply (conn_table_calm s s' c x x')|apply (note_calm s s' c x x'); phase Ha|phase Ha|].
  pose proof (cores_lookup s c x Hx) as Hk. assert (Hin : RemotePeer x ∈ newConns s') by (apply elem_of_app; right; by apply list_elem_of_singleton).
  apply (event_change s s' c (core x) (core x')); try done; [apply O|by apply cores_eq|intros p Hp; apply elem_of_app; by left|intros _; by right|intros; by left|intros; by left|intros; by right; left|..].
  - intros p Hp. rewrite (cores_eq s s' c x' Ec). by apply (kconn_other _ _ _ _ (core x)); [apply O|..].
  - by right; right; left.
Qed.
Lemma step_start s c x : swInv s -> conn s !! c = Some x -> adder x = Queued -> swInv (startConn s c x).
Proof.
  intros O Hx Ha. set (s' := startConn s c x). set (x' := with_adder x Started). assert (Ec : conn s' = <[c := x']> (conn s)) by done.
  apply (inv_put s s' c x x'); try done; [intros; by left|by apply (conn_table_calm s s' c x x')| |phase Ha|].
  - rewrite (cores_eq s s' c x' Ec). apply (note_start _ _ _ (core x)); [apply O|by apply cores_lookup|simpl; by rewrite Ha|done..].
  - apply (event_calm s s' c x x'); try done; [simpl; by rewrite Ha| |by left]. phase Ha. intuition congruence.
Qed.
Lemma step_lost s c x : swInv s -> conn s !! c = Some x -> swInv (put_conn s c (with_closed x)).
Proof.
  intros O Hx. set (s' := put_conn _ _ _). set (x' := with_closed x). assert (Ec : conn s' = <[c := x']> (conn s)) by done.
  apply (inv_put s s' c x x'); try done; [intros; by left|by apply (conn_table_calm s s' c x x')|by apply (note_calm s s' c x x')|unfold kDue; simpl; lia|].
  apply (event_calm s s' c x x'); try done; [unfold unsettled; simpl; tauto|]. destruct (decide (closer x = Open)) as [Ho|]; [|by right; left]. right; right. unfold unsettled. simpl. tauto.
Qed.
(** The phases of [doClose] that leave the queues alone *)
Lemma step_phase s c x ph cl : swInv s -> conn s !! c = Some x -> closer x <> Open -> ph <> Open -> closer x <> Disconnected_ -> ph <> Disconnected_ -> closer x <> Appended ->
  let x' := with_closer (if cl : bool then with_closed x else x) ph in
  early x' = early x -> (late x' = true -> late x = true \/ toReset x = []) -> (unsettled (conns s) (core x) -> unsettled (conns s) (core x')) -> swInv (put_conn s c x').
Proof.
  intros O Hx H1 H2 H3 H4 H5 x' He Hl Hu. set (s' := put_conn _ _ _). assert (Ec : conn s' = <[c := x']> (conn s)) by done.
  assert (Ex : RemotePeer x' = RemotePeer x /\ adder x' = adder x /\ cstreams x' = cstreams x /\ NumStreams x' = NumStreams x /\ toReset x' = toReset x /\ acceptDone x' = acceptDone x /\ closer x' = ph) by (unfold x'; by destruct cl).
  destruct Ex as (X1 & X2 & X3 & X4 & X5 & X6 & X7).
  apply (inv_put s s' c x x'); try done.
  - apply (conn_table_calm s s' c x x'); try done.
  - apply (note_calm s s' c x x'); try done. by rewrite X2.
  - unfold kDue. change (k_accept (core x')) with (acceptDone x'). change (k_closer (core x')) with (closer x'). rewrite X6, X7.
    rewrite (decide_False (P := ph = Disconnected_)), decide_False by done. simpl. lia.
  - apply (event_calm s s' c x x'); try done; [by rewrite X2|by right; left].
Qed.
Lemma step_close s c x : swInv s -> conn s !! c = Some x -> closer x = Open -> swInv (removeConn (put_conn s c (with_closer x Removed)) c (RemotePeer x)).
Proof.
  intros O Hx Hc. rewrite removeConn_table. set (s' := set_conns _ _). set (x' := with_closer x Removed). assert (Ec : conn s' = <[c := x']> (conn s)) by done.
  pose proof (cores_lookup s c x Hx) as Hk. pose proof (sw_table _ O) as T.
  assert (T' : tableOk (conns s') (cores s')) by (rewrite (cores_eq s s' c x' Ec); apply (table_remove _ _ c (core x)); done).
  apply (inv_put s s' c x x'); try done; [unfold early; simpl; by rewrite Hc|apply (note_calm s s' c x x'); try done; simpl; by rewrite Hc|unfold kDue; simpl; rewrite Hc; simpl; lia|].
  apply (event_change s s' c (core x) (core x')); try done; [apply O|by apply cores_eq|by simpl; intros ->|intros; by left|intros; by left|..].
  - intros H. simpl in H. congruence.
  - intros _. left. right. by left.
  - intros p Hp. rewrite (cores_eq s s' c x' Ec). assert (E : listed (conns s') p = listed (conns s) p).
    { unfold listed, s'. simpl. destruct (conns s) as [M|] eqn:EM; [|done]. simpl. pose proof (tableWithout_lookup c (RemotePeer x) M p) as H. unfold tableWithout in *.
      rewrite decide_False in H by done. apply H. intros cs Hcs. by destruct (t_entry _ _ T M p cs eq_refl Hcs) as (? & ? & _). }
    unfold kconnected. rewrite E. by apply (kconn_other (conns s) (cores s) p c (core x)).
  - right; left. right. by left.
Qed.
Lemma step_clear s c x : swInv s -> conn s !! c = Some x -> closer x = Removed -> swInv (put_conn s c (clearStreams x)).
Proof.
  intros O Hx Hc. set (s' := put_conn _ _ _). set (x' := clearStreams x). assert (Ec : conn s' = <[c := x']> (conn s)) by done. split.
  - apply (conn_table_calm s s' c x x'); try done. simpl. by rewrite Hc.
  - apply (note_calm s s' c x x'); try done. simpl. by rewrite Hc.
  - unfold refsOk. rewrite (cores_eq s s' c x' Ec). assert (R : 0 = kDue (core x') - kDue (core x)) by (unfold kDue; simpl; rewrite Hc; simpl; lia).
    pose proof (refs_put s c x x' 0 (sw_refs _ O) Hx R) as R'. simpl in *. lia.
  - by apply so_clear; [apply O|..].
  - apply (event_calm s s' c x x'); try done; [simpl; congruence|unfold unsettled; simpl; tauto|]. by left.
Qed.
Lemma step_append s c x : swInv s -> conn s !! c = Some x -> closer x = TransportClosed -> swInv (appendRemoved (put_conn s c (with_closer x Appended)) (RemotePeer x)).
Proof.
  intros O Hx Hc. set (s' := appendRemoved _ _). set (x' := with_closer x Appended). assert (Ec : conn s' = <[c := x']> (conn s)) by done.
  apply (inv_put s s' c x x'); try done; [unfold early; simpl; by rewrite Hc|apply (conn_table_calm s s' c x x'); try done; simpl; by rewrite Hc|
    apply (note_calm s s' c x x'); try done; simpl; by rewrite Hc|unfold kDue; simpl; rewrite Hc; simpl; lia|].
  assert (Hin : RemotePeer x ∈ removeConns s') by (apply elem_of_app; right; by apply list_elem_of_singleton).
  apply (event_change s s' c (core x) (core x')); try done; [apply O|by apply cores_lookup|by apply cores_eq|intros p Hp; apply elem_of_app; by left|
    intros; by left|intros; by right; right|intros; by left|intros; by right; right| |by right; right; right].
  intros p Hp. rewrite (cores_eq s s' c x' Ec). by apply (kconn_other _ _ _ _ (core x)); [apply O|by apply cores_lookup|].
Qed.
Lemma step_signal s c x : swInv s -> conn s !! c = Some x -> closer x = Appended -> swInv (signalRemoved (put_conn s c (with_closer x Signalled))).
Proof.
  intros O Hx Hc. set (s' := signalRemoved _). set (x' := with_closer x Signalled). assert (Ec : conn s' = <[c := x']> (conn s)) by done.
  apply (inv_put s s' c x x'); try done; [unfold early; simpl; by rewrite Hc|apply (conn_table_calm s s' c x x'); try done; simpl; by rewrite Hc|
    apply (note_calm s s' c x x'); try done; simpl; by rewrite Hc|unfold kDue; simpl; rewrite Hc; simpl; lia|].
  apply (event_change s s' c (core x) (core x')); try done; [apply O|by apply cores_lookup|by apply cores_eq|intros; by left|intros; by left|intros; by right| | |].
  - unfold unsettled. simpl. rewrite Hc. intuition congruence.
  - intros p Hp. rewrite (cores_eq s s' c x' Ec). by apply (kconn_other _ _ _ _ (core x)); [apply O|by apply cores_lookup|].
  - left. rewrite (cores_eq s s' c x' Ec). by apply (kconnected_view _ _ _ _ (core x)); [apply cores_lookup|].
Qed.
Lemma step_disconnected s c x : swInv s -> conn s !! c = Some x -> closer x = Finished -> adder x = Started ->
  swInv (add_refs (notify (put_conn s c (with_closer x Disconnected_)) (NDisconnected c)) (-1)).
Proof.
  intros O Hx Hc Ha. set (s' := add_refs _ _). set (x' := with_closer x Disconnected_). assert (Ec : conn s' = <[c := x']> (conn s)) by done.
  apply (inv_put s s' c x x'); try done; [unfold early; simpl; by rewrite Hc|unfold late; rewrite Hc; by left|apply (conn_table_calm s s' c x x'); try done; simpl; by rewrite Hc| | |].
  - rewrite (cores_eq s s' c x' Ec). apply (note_disconnect _ _ _ (core x)); [apply O|by apply cores_lookup|done|done|simpl; congruence|done].
  - unfold kDue. simpl. rewrite Hc. simpl. lia.
  - apply (event_calm s s' c x x'); try done; [simpl; congruence| |by left]. unfold unsettled. simpl. rewrite Hc. intuition congruence.
Qed.
Lemma step_acceptDone s c x : swInv s -> conn s !! c = Some x -> acceptDone x = false -> swInv (add_refs (put_conn s c (with_accepted x)) (-1)).
Proof.
  intros O Hx Hc. set (s' := add_refs _ _). set (x' := with_accepted x). assert (Ec : conn s' = <[c := x']> (conn s)) by done.
  apply (inv_put s s' c x x'); try done; [intros; by left|by apply (conn_table_calm s s' c x x')|by apply (note_calm s s' c x x')|unfold kDue; simpl; rewrite Hc; lia|].
  apply (event_calm s s' c x x'); try done. by left.
Qed.
Lemma swStep_ok s s' : swInv s -> swStep s s' -> swInv s'.
Proof.
  intros O H. revert O. destruct H; intros O.
  - by eapply step_add.
  - by apply step_queue.
  - by apply step_start.
  - by apply step_lost.
  - by apply step_close.
  - by apply step_clear.
  - apply (step_phase s c x TransportClosed true); try done; rewrite ?H0; try done; [unfold early; simpl; by rewrite H0|]. unfold unsettled. simpl. tauto.
  - by apply step_append.
  - by apply step_signal.
  - apply (inv_stream s); [done|]. by eapply step_reset.
  - apply (step_phase s c x Finished false); try done; rewrite ?H0; try done; [unfold early; simpl; by rewrite H0|by right|]. unfold unsettled. simpl. rewrite H0. intuition congruence.
  - by apply step_disconnected.
  - by apply step_acceptDone.
  - apply (inv_stream s); [done|]. apply step_accepting; [done| |rewrite map_size_insert_None by done; lia].
    intros j c'. destruct (decide (j = i)) as [->|]; [by intros|]. rewrite lookup_insert_ne by done. apply (sw_streams _ O).
  - by eapply step_inbound.
  - apply (inv_stream s); [done|]. apply step_accepting; [done|intros j c' [_ Hj]%lookup_delete_Some; by apply (so_fresh _ _ _ (sw_streams _ O) j c')|].
    rewrite map_size_delete, H. simpl. assert (size (accepting s) <> 0)%nat; [|lia]. intros E%map_size_empty_inv. by rewrite E in H.
  - apply (inv_stream s); [done|]. by eapply step_add_stream.
  - apply (inv_stream s); [done|]. by apply step_close_stream.
  - apply (inv_stream s); [done|]. split_and!; [apply handled_same|apply refs_handled; [apply O|done]|apply so_handled; [apply O|done]].
  - unfold emitNew in H0. destruct (newConns s) as [|p rest] eqn:En; [done|]. injection H0 as <-. destruct O as [O1 O2 O3 O4 O5]. split; try done.
    apply event_notify; [done| |intros q Hq; by left]. rewrite En. intros q [->|?]%elem_of_cons; [by right|by left].
  - destruct O as [O1 O2 O3 O4 O5]. split; try done. by apply event_take.
  - unfold emitRemoved in H. destruct (draining s) as [|p rest] eqn:En; [done|]. injection H as <-. destruct O as [O1 O2 O3 O4 O5]. split; try done.
    apply event_notify; [done|intros q Hq; by left|]. rewrite En. intros q [->|?]%elem_of_cons; [by right|by left].
  - destruct O as [O1 O2 O3 O4 O5]. split; [by split|done..|by apply event_shutdown].
Qed.
Lemma swReach_ok s : rtc swStep NewSwarm s -> swInv s.
Proof.
  assert (G : forall a b, rtc swStep a b -> swInv a -> swInv b) by (induction 1; eauto using swStep_ok). intros R. exact (G _ _ R swInv_start).
Qed.

(** ** The properties *)
(** No change is under way: the queues of the emitter are empty, and every connection is added and either open or closed. *)
Definition quiet (s : Swarm) : Prop :=
  newConns s = [] /\ removeConnNotif s = false /\ draining s = [] /\
  forall c x, conn s !! c = Some x -> adder x <> Adding /\
    (closer x = Open /\ isClosed x = false /\ conns s <> None \/ closer x = Signalled \/ closer x = Finished \/ closer x = Disconnected_).
(** C33: The events tell the connectedness.  Whatever connections were opened, lost and closed in the meantime, and in
    whatever order the goroutines ran: once no change is under way, what the emitter has told last is the connectedness of
    each peer, and every peer that ever had a connection has got an event that says so.  In particular the last event of a
    peer that is gone is [NotConnected]. *)
Theorem connectedness_events_settle s : rtc swStep NewSwarm s -> quiet s ->
  (forall p, told s p = connectednessUnlocked s p) /\
  (forall c x, conn s !! c = Some x -> lastOf (events s) (RemotePeer x) = Some (connectednessUnlocked s (RemotePeer x))).
Proof.
  intros O%swReach_ok (Q1 & Q2 & Q3 & Q4). destruct (sw_events _ O) as [E1 E2 E3 E4].
  assert (Hcore : forall c k, cores s !! c = Some k -> exists x, conn s !! c = Some x /\ k = core x).
  { intros c k. unfold cores. rewrite lookup_fmap. destruct (conn s !! c) as [x|]; [intros [= <-]; by exists x|done]. }
  assert (Hr : removeConns s = []).
  { destruct (decide (removeConns s = [])) as [|Hne]; [done|]. destruct (E3 Hne) as [?|(c & k & (x & Hx & ->)%Hcore & Hc)]; [congruence|].
    destruct (Q4 c x Hx) as [_ Hp]. simpl in Hc. intuition congruence. }
  assert (Ht : forall p, told s p = connectednessUnlocked s p).
  { intros p. rewrite connectedness_cores. destruct (E4 p) as [?|H]; [done|]. unfold pendingPeer in H. rewrite Q1, Q3, Hr in H.
    destruct H as [?%elem_of_nil|[?%elem_of_nil|[?%elem_of_nil|(c & k & (x & Hx & ->)%Hcore & _ & U)]]]; [done..|]. destruct (Q4 c x Hx) as [Ha Hp].
    unfold unsettled in U. simpl in U. exfalso. destruct U as [?|[?|[?|[?|[? [?|?]]]]]]; intuition congruence. }
  split; [done|]. intros c x Hx. destruct (Q4 c x Hx) as [Ha _]. destruct (E2 c (core x) (cores_lookup s c x Hx) Ha) as [Hin|[v Hv]].
  - rewrite Q1 in Hin. by apply elem_of_nil in Hin.
  - rewrite <-Ht, E1. simpl in Hv. by rewrite Hv.
Qed.

(** C34: [Close] of the swarm waits for everything.  The count of references never becomes negative; the notifiees hear of a
    connection at most once that it is there and at most once that it is gone, in this order; and when the count is zero they
    have heard both of every connection that was ever added, all streams are closed and no inbound stream is being added. *)
Theorem swarm_close_waits s : rtc swStep NewSwarm s ->
  0 <= refs s /\ NoDup (notes s) /\ (forall c l1 l2, notes s = l1 ++ NDisconnected c :: l2 -> NConnected c ∈ l1) /\
  (refs s = 0 -> accepting s = ∅ /\ (forall c x, conn s !! c = Some x -> NConnected c ∈ notes s /\ NDisconnected c ∈ notes s) /\
     (forall i st, stream s !! i = Some st -> st_closed st = true)).
Proof.
  intros O%swReach_ok. pose proof (sw_refs _ O) as R. unfold refsOk in R. destruct (sw_notes _ O) as [N1 N2 N3 N4 N5].
  assert (H1 : 0 <= sumMap kDue (cores s)) by (apply sumMap_nonneg, kDue_nonneg). assert (H2 : 0 <= sumMap sDue (stream s)) by (apply sumMap_nonneg, sDue_nonneg).
  split_and!; [lia|done|done|]. intros E. split_and!.
  - apply map_size_empty_inv. lia.
  - intros c x Hx. pose proof (cores_lookup s c x Hx) as Hk. pose proof (sumMapK_lookup (fun _ => kDue) (cores s) c (core x) (fun _ => kDue_nonneg) Hk) as Hle.
    fold (sumMap kDue (cores s)) in Hle. pose proof (kDue_nonneg (core x)). assert (Hd : k_closer (core x) = Disconnected_).
    { unfold kDue in *. destruct (decide (k_closer (core x) = Disconnected_)); [done|]. destruct (k_accept (core x)); lia. }
    split; [apply N2|apply N3]; exists (core x); split; try done. by apply (N4 c).
  - intros i st Hi. pose proof (sumMapK_lookup (fun _ => sDue) (stream s) i st (fun _ => sDue_nonneg) Hi) as Hle. fold (sumMap sDue (stream s)) in Hle.
    unfold sDue in Hle at 1. destruct (st_closed st); [done|lia].
Qed.

(** The tables of connections and streams are exact.  As long as the swarm is open, the connections listed for a peer are
    those with it that nobody has begun to close, each once, and no peer has an empty list.  The scope of a stream is released
    exactly once, when it is closed and its handler has returned; [NumStreams] counts the streams whose scope is not released;
    and when [doClose] has finished, all streams of the connection are closed. *)
Theorem conn_tables_exact s : rtc swStep NewSwarm s ->
  (forall M p, conns s = Some M -> M !! p <> Some [] /\ NoDup (connsOf s p) /\
     forall c, c ∈ connsOf s p <-> exists x, conn s !! c = Some x /\ RemotePeer x = p /\ closer x = Open) /\
  (forall i st, stream s !! i = Some st -> scopeDone st = if st_closed st && acceptStreamGoroutineCompleted st then 1 else 0) /\
  (forall c x, conn s !! c = Some x -> NumStreams x = sumMap (openOn c) (stream s) /\
     (late x = true -> forall i st, stream s !! i = Some st -> st_conn st = c -> st_closed st = true)).
Proof.
  intros O%swReach_ok. destruct (sw_streams _ O) as [S1 S2 S3 S4 S5 S6 S7 S8 S9]. split_and!; [|done|].
  - intros M p HM. pose proof (sw_table _ O) as T. assert (Hc : connsOf s p = default [] (M !! p)) by (unfold connsOf; by rewrite HM). split_and!.
    + intros E. by destruct (t_entry _ _ T M p [] HM E) as (? & _).
    + rewrite Hc. destruct (M !! p) as [cs|] eqn:E; simpl; [|constructor]. by destruct (t_entry _ _ T M p cs HM E) as (_ & ? & _).
    + intros c. split.
      * intros Hin. destruct (listed_core (conns s) (cores s) p c T Hin) as (k & Hk & Hp & Ho). unfold cores in Hk. rewrite lookup_fmap in Hk.
        destruct (conn s !! c) as [x|]; [|done]. injection Hk as <-. by exists x.
      * intros (x & Hx & <- & Ho). rewrite Hc. by apply (t_open _ _ T M c (core x) HM (cores_lookup s c x Hx)).
  - intros c x Hx. split; [by apply S5|]. intros Hl i st Hi Hc. destruct (st_closed st) eqn:E; [done|]. exfalso.
    assert (Hn : cstreams x = None). { destruct (cstreams x) as [X|] eqn:EX; [|done]. pose proof (proj1 (S6 c x Hx)) as He. rewrite EX in He. specialize (He ltac:(by eexists)).
      unfold early, late in *. by destruct (closer x). }
    pose proof (S7 c x i st Hx Hi Hc E Hn) as Hin. rewrite (S9 c x Hx Hl) in Hin. by apply elem_of_nil in Hin.
Qed.

(** ** The best connection *)
Lemma better_total a b : isBetterConn a b = true \/ isBetterConn b a = true.
Proof.
  unfold isBetterConn, isDirectConn. destruct (connLimited a), (connLimited b), (proxied a), (proxied b); simpl; try tauto;
    rewrite (Z.eqb_sym (numOpen b)); destruct (Z.eqb_spec (numOpen a) (numOpen b)); simpl; try tauto; rewrite !Z.ltb_lt; lia.
Qed.
Lemma better_trans a b c : isBetterConn a b = true -> isBetterConn b c = true -> isBetterConn a c = true.
Proof.
  unfold isBetterConn, isDirectConn. destruct (connLimited a), (connLimited b), (connLimited c), (proxied a), (proxied b), (proxied c); simpl; try done;
    destruct (Z.eqb_spec (numOpen a) (numOpen b)), (Z.eqb_spec (numOpen b) (numOpen c)), (Z.eqb_spec (numOpen a) (numOpen c)); simpl; rewrite ?Z.ltb_lt; try done; lia.
Qed.
(** The best connection to a peer is one of its open connections, and none of them is better: none without a limit if it
    has one, none that is direct if it goes through a proxy with the same limit, none with more streams of the same kind.
    There is one whenever the peer has an open connection. *)
Theorem best_conn_is_best s p :
  match bestConnToPeer s p with
  | Some (c, x) => (c, x) ∈ connObjs s p /\ isClosed x = false /\
      forall c' x', (c', x') ∈ connObjs s p -> isClosed x' = false -> isBetterConn x x' = true
  | None => forall c x, (c, x) ∈ connObjs s p -> isClosed x = true
  end.
Proof.
  unfold bestConnToPeer. induction (connObjs s p) as [|y l IH] using rev_ind; [by intros c x ?%elem_of_nil|]. rewrite foldl_app. cbn [foldl]. unfold bestStep at 1.
  destruct (foldl bestStep None l) as [[c x]|]; destruct y as [d z]; simpl; destruct (isClosed z) eqn:Ez.
  - destruct IH as (I1 & I2 & I3). split_and!; [apply elem_of_app; by left|done|]. intros c' x' [H|[= -> ->]%list_elem_of_singleton]%elem_of_app; [eauto|congruence].
  - destruct IH as (I1 & I2 & I3). destruct (isBetterConn z x) eqn:Eb.
    + split_and!; [apply elem_of_app; right; by apply list_elem_of_singleton|done|]. intros c' x' [H|[= -> ->]%list_elem_of_singleton]%elem_of_app Hc; [|by destruct (better_total z z)].
      eapply better_trans; [done|eauto].
    + split_and!; [apply elem_of_app; by left|done|]. intros c' x' [H|[= -> ->]%list_elem_of_singleton]%elem_of_app Hc; [eauto|]. destruct (better_total x z); congruence.
  - intros c x [H|[= -> ->]%list_elem_of_singleton]%elem_of_app; [eauto|done].
  - split_and!; [apply elem_of_app; right; by apply list_elem_of_singleton|done|]. intros c' x' [H|[= -> ->]%list_elem_of_singleton]%elem_of_app Hc; [|by destruct (better_total z z)].
    rewrite (IH c' x' H) in Hc. done.
Qed.

Module SwarmExample.
Definition alice : PeerID := [Byte.x01].
(** One connection, with a stream that the handler still serves when the connection is closed *)
Definition x0 : Conn := mkConn alice false false false (Some ∅) 0 Adding Open [] false.
Definition t0 : Swarm := default NewSwarm (addConn NewSwarm 0 alice false false).
Definition x1 : Conn := with_adder x0 Queued.
Definition t1 : Swarm := AddConn (put_conn t0 0 x1) alice.
Definition x2 : Conn := with_adder x1 Started.
Definition t2 : Swarm := startConn t1 0 x1.
Definition t3 : Swarm := default NewSwarm (emitNew t2).
Definition t4 : Swarm := add_refs (set_accepting t3 (<[7%nat := 0%nat]> (accepting t3))) 1.
Definition t5 : Swarm := add_refs (default NewSwarm (addStream (set_accepting t4 (delete 7%nat (accepting t4))) 0 x2 7 true)) (-1).
Definition x5 : Conn := with_streams x2 (Some ({[7%nat]} ∪ ∅)) 1.
Definition t6 : Swarm := removeConn (put_conn t5 0 (with_closer x5 Removed)) 0 alice.
Definition t7 : Swarm := put_conn t6 0 (clearStreams (with_closer x5 Removed)).
Definition x7 : Conn := with_closer (with_closed (clearStreams (with_closer x5 Removed))) TransportClosed.
Definition t8 : Swarm := put_conn t7 0 x7.
Definition t9 : Swarm := appendRemoved (put_conn t8 0 (with_closer x7 Appended)) alice.
Definition x9 : Conn := with_closer (with_closer x7 Appended) Signalled.
Definition t10 : Swarm := signalRemoved (put_conn t9 0 x9).
Definition t11 : Swarm := popReset (closeAndRemoveStream t10 7 (mkStream 0 false false 0)) 0.
Definition x11 : Conn := with_reset x9 [].
Definition t12 : Swarm := put_conn t11 0 (with_closer x11 Finished).
Definition t13 : Swarm := takeRemoved t12.
Definition t14 : Swarm := default NewSwarm (emitRemoved t13).
Definition t15 : Swarm := completeAcceptStreamGoroutine t14 7 (mkStream 0 true false 0).
Definition x15 : Conn := with_closer (with_streams x11 None 0) Finished.
Definition t16 : Swarm := add_refs (notify (put_conn t15 0 (with_closer x15 Disconnected_)) (NDisconnected 0)) (-1).
Definition t17 : Swarm := add_refs (put_conn t16 0 (with_accepted (with_closer x15 Disconnected_))) (-1).
Lemma swarm_run14 : rtc swStep NewSwarm t14.
Proof.
  eapply rtc_l; [by apply (sw_add NewSwarm 0 alice false false t0)|]. eapply rtc_l; [apply (sw_queue t0 0 x0); [by vm_compute|done|simpl; unfold emitterCapacity; lia]|].
  eapply rtc_l; [by apply (sw_start t1 0 x1); [vm_compute|]|]. eapply rtc_l; [by apply (sw_emitNew t2 t3)|].
  eapply rtc_l; [by apply (sw_accept t3 0 x2 7); [vm_compute|..]|]. eapply rtc_l; [by apply (sw_inbound t4 0 x2 7); [..|reflexivity]; vm_compute|].
  eapply rtc_l; [by apply (sw_close t5 0 x5); [vm_compute|]|]. eapply rtc_l; [by apply (sw_clear t6 0 (with_closer x5 Removed)); [vm_compute|]|].
  eapply rtc_l; [by apply (sw_transport t7 0 (clearStreams (with_closer x5 Removed))); [vm_compute|]|]. eapply rtc_l; [by apply (sw_append t8 0 x7); [vm_compute|]|].
  eapply rtc_l; [by apply (sw_signal t9 0 (with_closer x7 Appended)); [vm_compute|]|].
  eapply rtc_l; [by apply (sw_reset t10 0 x9 7 [] (mkStream 0 false false 0)); [vm_compute|vm_compute|vm_compute|vm_compute]|].
  eapply rtc_l; [by apply (sw_finish t11 0 x11); [vm_compute|..]|]. eapply rtc_l; [by apply (sw_take t12); vm_compute|].
  eapply rtc_l; [by apply (sw_emitRemoved t13 t14)|constructor].
Qed.
Lemma swarm_run17 : rtc swStep NewSwarm t17.
Proof.
  etransitivity; [apply swarm_run14|]. eapply rtc_l; [by apply (sw_handled t14 7 (mkStream 0 true false 0)); vm_compute|].
  eapply rtc_l; [by apply (sw_disconnected t15 0 x15); [vm_compute|..]|]. eapply rtc_l; [|constructor].
  apply (sw_acceptDone t16 0 (with_closer x15 Disconnected_)); [by vm_compute|done|done|by right].
Qed.
Lemma quiet14 : quiet t14.
Proof.
  split_and!; [by vm_compute..|]. intros c x H. destruct (decide (c = 0%nat)) as [->|Hc].
  - assert (E : conn t14 !! 0%nat = Some (with_closer x11 Finished)) by by vm_compute. rewrite E in H. injection H as <-. split; [done|by right; right; left].
  - assert (E : dom (conn t14) = {[0%nat]}) by by vm_compute. apply elem_of_dom_2 in H. rewrite E in H. set_solver.
Qed.
End SwarmExample.
Import SwarmExample.

(** The connection is gone, and the last of the two events says so. *)
Lemma connectedness_events_settle_witness : events t14 = [(alice, Connected); (alice, NotConnected)] /\ (forall p, told t14 p = connectednessUnlocked t14 p).
Proof. split; [vm_compute; reflexivity|]. exact (proj1 (connectedness_events_settle t14 swarm_run14 quiet14)). Defined.
Lemma swarm_close_waits_witness : refs t17 = 0 /\ notes t17 = [NConnected 0; NDisconnected 0] /\ 0 <= refs t17.
Proof. split; [vm_compute; reflexivity|]. split; [vm_compute; reflexivity|]. exact (proj1 (swarm_close_waits t17 swarm_run17)). Defined.
(** The stream is released once, although it is closed before its handler returns. *)
Lemma conn_tables_exact_witness : scopeDone <$> stream t17 !! 7%nat = Some 1 /\
  (forall i st, stream t17 !! i = Some st -> scopeDone st = if st_closed st && acceptStreamGoroutineCompleted st then 1 else 0).
Proof. split; [vm_compute; reflexivity|]. exact (proj1 (proj2 (conn_tables_exact t17 swarm_run17))). Defined.
