(* ===== verification/ConnMgr.v ===== *)
(** * The connection manager (p2p/net/connmgr/connmgr.go, decay.go)

    Peers with their tags, plain and decaying, and their connections; protection;
    which connections a trim closes.  The 256 segments are one map: a segment is
    chosen by the last byte of an identifier, so that an empty one panics
    ([None]).  A trim reads the peers in one step; what notifications do while it
    sorts and selects is not modelled. *)
From Stdlib Require Import ZArith Lia.
From stdpp Require Import base tactics list numbers option gmap sets fin_maps strings.
From S2P Require Import Prelude GoBytes BlsRpc Heartbeat.
Local Open Scope Z_scope.

(** ** Peers *)
Abbreviation Conn := nat.
Abbreviation TagID := nat.  (** a [*decayingTag] *)
Record DecayingValue := mkDV { dv_Value : Z; LastVisit : Z; Added : Z }.
Record peerInfo := mkPeerInfo {
  tags : gmap string Z;
  decaying : gmap TagID DecayingValue;
  value : Z  (** cached sum of all tag values *);
  temp : bool;
  pconns : gmap Conn Z  (** with their start *);
  firstSeen : Z }.
Record cmConfig := mkCMConfig { highWater : Z; lowWater : Z; gracePeriod : Z; resolution : Z }.

(** *** Decaying tags *)
(** The decay function reads the clock. *)
Abbreviation DecayFn := (Z -> DecayingValue -> Z * bool).
Abbreviation BumpFn := (DecayingValue -> Z -> Z).
Record decayingTag := mkTag {
  tg_name : string; interval : Z; nextTick : Z; decayFn : DecayFn; bumpFn : BumpFn; tg_closed : bool }.
Inductive command := BumpCmd (p : PeerID) (tag : TagID) (delta : Z) | RemoveCmd (p : PeerID) (tag : TagID) | CloseCmd (tag : TagID).

Record ConnMgr := mkCM {
  cfg : cmConfig;
  peers : gmap PeerID peerInfo;
  protected : gmap PeerID (gset string);
  connCount : Z  (** an int32 *);
  lastTrim : Z;
  tagStore : gmap TagID decayingTag  (** the tags that exist *);
  knownTags : gmap string TagID;
  lastTick : Z;
  bumpTagCh : list (PeerID * TagID * Z); removeTagCh : list (PeerID * TagID); closeTagCh : list TagID }.

Definition set_peers (cm : ConnMgr) (m : gmap PeerID peerInfo) : ConnMgr :=
  mkCM (cfg cm) m (protected cm) (connCount cm) (lastTrim cm) (tagStore cm) (knownTags cm) (lastTick cm) (bumpTagCh cm) (removeTagCh cm) (closeTagCh cm).
Definition set_count (cm : ConnMgr) (m : gmap PeerID peerInfo) (n : Z) : ConnMgr :=
  mkCM (cfg cm) m (protected cm) n (lastTrim cm) (tagStore cm) (knownTags cm) (lastTick cm) (bumpTagCh cm) (removeTagCh cm) (closeTagCh cm).
Definition set_protected (cm : ConnMgr) (m : gmap PeerID (gset string)) : ConnMgr :=
  mkCM (cfg cm) (peers cm) m (connCount cm) (lastTrim cm) (tagStore cm) (knownTags cm) (lastTick cm) (bumpTagCh cm) (removeTagCh cm) (closeTagCh cm).
Definition set_lastTrim (cm : ConnMgr) (t : Z) : ConnMgr :=
  mkCM (cfg cm) (peers cm) (protected cm) (connCount cm) t (tagStore cm) (knownTags cm) (lastTick cm) (bumpTagCh cm) (removeTagCh cm) (closeTagCh cm).
Definition set_tags (cm : ConnMgr) (st : gmap TagID decayingTag) (known : gmap string TagID) : ConnMgr :=
  mkCM (cfg cm) (peers cm) (protected cm) (connCount cm) (lastTrim cm) st known (lastTick cm) (bumpTagCh cm) (removeTagCh cm) (closeTagCh cm).
Definition set_lastTick (cm : ConnMgr) (t : Z) : ConnMgr :=
  mkCM (cfg cm) (peers cm) (protected cm) (connCount cm) (lastTrim cm) (tagStore cm) (knownTags cm) t (bumpTagCh cm) (removeTagCh cm) (closeTagCh cm).
Definition set_queues (cm : ConnMgr) (b : list (PeerID * TagID * Z)) (r : list (PeerID * TagID)) (c : list TagID) : ConnMgr :=
  mkCM (cfg cm) (peers cm) (protected cm) (connCount cm) (lastTrim cm) (tagStore cm) (knownTags cm) (lastTick cm) b r c.

Definition NewConnManager (low hi gracePeriod resolution now : Z) : ConnMgr :=
  mkCM (mkCMConfig hi low gracePeriod resolution) ∅ ∅ 0 0 ∅ ∅ now [] [] [].

(** [segments.get]: the index of the segment *)
Definition getSegment (p : PeerID) : option Byte.byte := last p.
Definition newPeerInfo (isTemp : bool) (now : Z) : peerInfo := mkPeerInfo ∅ ∅ 0 isTemp ∅ now.
(** The entry of a peer, or a temporary one *)
Definition tagInfoFor (cm : ConnMgr) (p : PeerID) (now : Z) : peerInfo := default (newPeerInfo true now) (peers cm !! p).
Definition putPeer (cm : ConnMgr) (p : PeerID) (pi : peerInfo) : ConnMgr := set_peers cm (<[p := pi]> (peers cm)).

(** ** Tags *)
Definition tagValue (pi : peerInfo) (tag : string) : Z := default 0 (tags pi !! tag).
Definition set_tag (pi : peerInfo) (m : gmap string Z) (v : Z) : peerInfo := mkPeerInfo m (decaying pi) v (temp pi) (pconns pi) (firstSeen pi).
Definition set_decaying (pi : peerInfo) (m : gmap TagID DecayingValue) (v : Z) : peerInfo := mkPeerInfo (tags pi) m v (temp pi) (pconns pi) (firstSeen pi).

Definition UpsertTag (cm : ConnMgr) (now : Z) (p : PeerID) (tag : string) (upsert : Z -> Z) : option ConnMgr :=
  _ ← getSegment p;
  let pi := tagInfoFor cm p now in
  let oldval := tagValue pi tag in
  let newval := upsert oldval in
  Some (putPeer cm p (set_tag pi (<[tag := newval]> (tags pi)) (Int64.add64 (value pi) (Int64.sub64 newval oldval)))).
Definition TagPeer (cm : ConnMgr) (now : Z) (p : PeerID) (tag : string) (val : Z) : option ConnMgr :=
  _ ← getSegment p;
  let pi := tagInfoFor cm p now in
  Some (putPeer cm p (set_tag pi (<[tag := val]> (tags pi)) (Int64.add64 (value pi) (Int64.sub64 val (tagValue pi tag))))).
Definition UntagPeer (cm : ConnMgr) (p : PeerID) (tag : string) : option ConnMgr :=
  _ ← getSegment p;
  Some (match peers cm !! p with
        | None => cm
        | Some pi => putPeer cm p (set_tag pi (delete tag (tags pi)) (Int64.sub64 (value pi) (tagValue pi tag)))
        end).

(** *** The decayer *)
(** The new tag is [id], which nothing refers to yet. *)
Definition RegisterDecayingTag (cm : ConnMgr) (id : TagID) (name : string) (ival : Z) (df : DecayFn) (bf : BumpFn) : option ConnMgr :=
  match knownTags cm !! name with
  | Some _ => None
  | None =>
      let ival := if ival <? resolution (cfg cm) then resolution (cfg cm) else ival in
      Some (set_tags cm (<[id := mkTag name ival (lastTick cm + ival) df bf false]> (tagStore cm)) (<[name := id]> (knownTags cm)))
  end.

(** The sends fail when the queue of 128 commands is full. *)
Definition queueSize : Z := 128.
Definition hasRoom {A} (l : list A) : bool := Z.of_nat (length l) <? queueSize.
Definition Bump (cm : ConnMgr) (id : TagID) (p : PeerID) (delta : Z) : option ConnMgr :=
  t ← tagStore cm !! id;
  if tg_closed t then None
  else if hasRoom (bumpTagCh cm) then Some (set_queues cm (bumpTagCh cm ++ [(p, id, delta)]) (removeTagCh cm) (closeTagCh cm)) else None.
Definition RemoveTag (cm : ConnMgr) (id : TagID) (p : PeerID) : option ConnMgr :=
  t ← tagStore cm !! id;
  if tg_closed t then None
  else if hasRoom (removeTagCh cm) then Some (set_queues cm (bumpTagCh cm) (removeTagCh cm ++ [(p, id)]) (closeTagCh cm)) else None.
(** The tag is closed even if the command cannot be queued. *)
Definition CloseTag (cm : ConnMgr) (id : TagID) : option ConnMgr :=
  t ← tagStore cm !! id;
  if tg_closed t then Some cm
  else
    let cm := set_tags cm (<[id := mkTag (tg_name t) (interval t) (nextTick t) (decayFn t) (bumpFn t) true]> (tagStore cm)) (knownTags cm) in
    Some (if hasRoom (closeTagCh cm) then set_queues cm (bumpTagCh cm) (removeTagCh cm) (closeTagCh cm ++ [id]) else cm).

(** One decaying value of a peer in a tick *)
Definition decayOne (cm : ConnMgr) (now : Z) (visit : gset TagID) (pi : peerInfo) (id : TagID) : peerInfo :=
  match decaying pi !! id, tagStore cm !! id with
  | Some v, Some t =>
      if bool_decide (id ∈ visit) then
        let '(after, rm) := decayFn t now v in
        if rm then set_decaying pi (delete id (decaying pi)) (Int64.add64 (value pi) (Int64.sub64 0 (dv_Value v)))
        else set_decaying pi (<[id := mkDV after now (Added v)]> (decaying pi)) (Int64.add64 (value pi) (Int64.sub64 after (dv_Value v)))
      else pi
  | _, _ => pi
  end.
Definition decayPeerInfo (cm : ConnMgr) (now : Z) (visit : gset TagID) (pi : peerInfo) : peerInfo :=
  foldl (decayOne cm now visit) pi (elements (dom (decaying pi))).
(** The known tags whose time has come *)
Definition dueTags (cm : ConnMgr) (now : Z) : gset TagID :=
  list_to_set (filter (fun id => match tagStore cm !! id with Some t => nextTick t <=? now | None => false end = true) (snd <$> map_to_list (knownTags cm))).
Definition advance (visit : gset TagID) (id : TagID) (t : decayingTag) : option decayingTag :=
  Some (if bool_decide (id ∈ visit) then mkTag (tg_name t) (interval t) (nextTick t + interval t) (decayFn t) (bumpFn t) (tg_closed t) else t).
Definition tick (cm : ConnMgr) (now : Z) : ConnMgr :=
  let visit := dueTags cm now in
  let cm := set_lastTick cm now in
  let cm := set_peers cm (decayPeerInfo cm now visit <$> peers cm) in
  set_tags cm (map_imap (advance visit) (tagStore cm)) (knownTags cm).

Definition processBump (cm : ConnMgr) (now : Z) (p : PeerID) (id : TagID) (delta : Z) : option ConnMgr :=
  _ ← getSegment p;
  t ← tagStore cm !! id;
  let pi := tagInfoFor cm p now in
  let v := default (mkDV 0 now now) (decaying pi !! id) in
  let after := bumpFn t v delta in
  Some (putPeer cm p (set_decaying pi (<[id := mkDV after now (Added v)]> (decaying pi)) (Int64.add64 (value pi) (Int64.sub64 after (dv_Value v))))).
Definition processRemove (cm : ConnMgr) (now : Z) (p : PeerID) (id : TagID) : option ConnMgr :=
  _ ← getSegment p;
  let pi := tagInfoFor cm p now in
  Some (putPeer cm p (match decaying pi !! id with
                      | None => pi
                      | Some v => set_decaying pi (delete id (decaying pi)) (Int64.sub64 (value pi) (dv_Value v))
                      end)).
Definition dropTag (id : TagID) (pi : peerInfo) : peerInfo :=
  match decaying pi !! id with
  | None => pi
  | Some v => set_decaying pi (delete id (decaying pi)) (Int64.sub64 (value pi) (dv_Value v))
  end.
Definition processClose (cm : ConnMgr) (id : TagID) : option ConnMgr :=
  t ← tagStore cm !! id;
  let cm := set_tags cm (tagStore cm) (delete (tg_name t) (knownTags cm)) in
  Some (set_peers cm (dropTag id <$> peers cm)).

(** The presets of core/connmgr/presets.go *)
Definition DecayNone : DecayFn := fun _ v => (dv_Value v, false).
Definition DecayFixed (minuend : Z) : DecayFn := fun _ v => let x := Int64.sub64 (dv_Value v) minuend in (x, x <=? 0).
(** [time.Until(t)] is [t - now]. *)
Definition DecayExpireWhenInactive (after : Z) : DecayFn := fun now v => (0, after <=? LastVisit v - now).
Definition BumpSumUnbounded : BumpFn := fun v delta => Int64.add64 (dv_Value v) delta.
Definition BumpSumBounded (mn mx : Z) : BumpFn := fun v delta =>
  let x := Int64.add64 (dv_Value v) delta in if mx <=? x then mx else if x <=? mn then mn else x.
Definition BumpOverwrite : BumpFn := fun _ delta => delta.

(** ** Protection *)
Definition Protect (cm : ConnMgr) (id : PeerID) (tag : string) : ConnMgr :=
  set_protected cm (<[id := {[tag]} ∪ default ∅ (protected cm !! id)]> (protected cm)).
Definition Unprotect (cm : ConnMgr) (id : PeerID) (tag : string) : ConnMgr * bool :=
  match protected cm !! id with
  | None => (cm, false)
  | Some ts =>
      let ts := ts ∖ {[tag]} in
      if bool_decide (ts = ∅) then (set_protected cm (delete id (protected cm)), false)
      else (set_protected cm (<[id := ts]> (protected cm)), true)
  end.
Definition IsProtected (cm : ConnMgr) (id : PeerID) (tag : string) : bool :=
  match protected cm !! id with
  | None => false
  | Some ts => if bool_decide (tag = EmptyString) then true else bool_decide (tag ∈ ts)
  end.
Definition CheckLimit (cm : ConnMgr) (systemLimit : Z) : bool := negb (systemLimit <? highWater (cfg cm)).

(** ** Notifications *)
Definition wrap32 (z : Z) : Z := (z + 2 ^ 31) mod 2 ^ 32 - 2 ^ 31.
Definition Connected (cm : ConnMgr) (now : Z) (p : PeerID) (c : Conn) : option ConnMgr :=
  _ ← getSegment p;
  let pi := match peers cm !! p with
            | None => newPeerInfo false now
            | Some pi => if temp pi then mkPeerInfo (tags pi) (decaying pi) (value pi) false (pconns pi) now else pi
            end in
  Some (match pconns pi !! c with
        | Some _ => putPeer cm p pi
        | None => set_count cm (<[p := mkPeerInfo (tags pi) (decaying pi) (value pi) (temp pi) (<[c := now]> (pconns pi)) (firstSeen pi)]> (peers cm))
                    (wrap32 (connCount cm + 1))
        end).
Definition Disconnected (cm : ConnMgr) (p : PeerID) (c : Conn) : option ConnMgr :=
  _ ← getSegment p;
  Some (match peers cm !! p with
        | None => cm
        | Some pi =>
            match pconns pi !! c with
            | None => cm
            | Some _ =>
                let cs := delete c (pconns pi) in
                set_count cm (if bool_decide (cs = ∅) then delete p (peers cm)
                              else <[p := mkPeerInfo (tags pi) (decaying pi) (value pi) (temp pi) cs (firstSeen pi)]> (peers cm))
                  (wrap32 (connCount cm - 1))
            end
        end).

(** ** Trimming *)
(** The network: direction and streams of a connection, the order of a range over a map *)
Record trimEnv := mkTrimEnv {
  te_inbound : Conn -> bool; te_streams : Conn -> Z;
  te_peers : gset PeerID -> list PeerID; te_conns : gset Conn -> list Conn }.
Record trimEnv_ok (e : trimEnv) : Prop := {
  te_peers_perm X : te_peers e X ≡ₚ elements X;
  te_conns_perm X : te_conns e X ≡ₚ elements X;
  te_streams_nonneg c : 0 <= te_streams e c }.

Section trim.
Context {SS : SortSlice} (e : trimEnv).

Definition incoming (pi : peerInfo) : bool := existsb (te_inbound e) (elements (dom (pconns pi))).
Definition numStreams (pi : peerInfo) : Z := sumZ (te_streams e) (elements (dom (pconns pi))).
(** The comparison of [SortByValueAndStreams] *)
Definition pruneBefore (sortByMoreStreams : bool) (left right : peerInfo) : bool :=
  if negb (Bool.eqb (temp left) (temp right)) then temp left
  else if negb (value left =? value right) then value left <? value right
  else
    let ls := numStreams left in let rs := numStreams right in
    if negb (rs =? ls) && ((ls =? 0) || (rs =? 0)) then ls <? rs
    else if negb (Bool.eqb (incoming left) (incoming right)) then incoming left
    else if sortByMoreStreams then rs <? ls else ls <? rs.
Definition infoOf (cm : ConnMgr) (p : PeerID) : peerInfo := default (newPeerInfo true 0) (peers cm !! p).
Definition SortByValueAndStreams (cm : ConnMgr) (sortByMoreStreams : bool) (l : list PeerID) : list PeerID :=
  sortSlice (fun p q => pruneBefore sortByMoreStreams (infoOf cm p) (infoOf cm q)) l.

Definition connsOfPeer (cm : ConnMgr) (p : PeerID) : list Conn := te_conns e (dom (pconns (infoOf cm p))).
Definition numConns (cm : ConnMgr) (p : PeerID) : Z := Z.of_nat (size (pconns (infoOf cm p))).

(** The loop over the sorted candidates: the connections selected, the temporary entries to delete, what is left of the target *)
Fixpoint selectConns (prune : bool) (cm : ConnMgr) (l : list PeerID) (target : Z) : list Conn * list PeerID * Z :=
  match l with
  | [] => ([], [], target)
  | p :: l =>
      if target <=? 0 then ([], [], target)
      else
        let pi := infoOf cm p in
        if prune && (numConns cm p =? 0) && temp pi then
          let '(cs, ps, t) := selectConns prune cm l target in (cs, p :: ps, t)
        else
          let '(cs, ps, t) := selectConns prune cm l (target - numConns cm p) in (connsOfPeer cm p ++ cs, ps, t)
  end.

Definition isCandidate (cm : ConnMgr) (now : Z) (p : PeerID) : bool :=
  negb (bool_decide (is_Some (protected cm !! p))) && negb (now - gracePeriod (cfg cm) <? firstSeen (infoOf cm p)).
Definition candidates (cm : ConnMgr) (now : Z) : list PeerID := filter (fun p => isCandidate cm now p = true) (te_peers e (dom (peers cm))).
Definition getConnsToClose (cm : ConnMgr) (now : Z) : ConnMgr * list Conn :=
  if (lowWater (cfg cm) =? 0) || (highWater (cfg cm) =? 0) then (cm, [])
  else if connCount cm <=? lowWater (cfg cm) then (cm, [])
  else
    let cands := candidates cm now in
    let ncandidates := sumZ (numConns cm) cands in
    if ncandidates <? lowWater (cfg cm) then (cm, [])
    else
      let '(cs, ps, _) := selectConns true cm (SortByValueAndStreams cm false cands) (ncandidates - lowWater (cfg cm)) in
      (set_peers cm (foldl (fun m p => delete p m) (peers cm) ps), cs).
(** [doTrim], when no other trim has finished meanwhile *)
Definition doTrim (cm : ConnMgr) (now : Z) : ConnMgr * list Conn :=
  let '(cm, cs) := getConnsToClose cm now in (set_lastTrim cm now, cs).
(** A tick of [background] *)
Definition backgroundTick (cm : ConnMgr) (now : Z) : ConnMgr * list Conn :=
  if connCount cm <? wrap32 (highWater (cfg cm)) then (cm, []) else getConnsToClose cm now.

(** *** Under memory pressure *)
Definition getConnsToCloseEmergency (cm : ConnMgr) (target : Z) : list Conn :=
  let unprotected := filter (fun p => protected cm !! p = None) (te_peers e (dom (peers cm))) in
  let '(selected, _, target) := selectConns false cm (SortByValueAndStreams cm true unprotected) target in
  if target <=? Z.of_nat (length selected) then selected
  else
    let '(more, _, _) := selectConns false cm (SortByValueAndStreams cm true (te_peers e (dom (peers cm)))) target in
    selected ++ more.
Definition ForceTrim (cm : ConnMgr) (now : Z) : ConnMgr * list Conn :=
  let target := connCount cm - lowWater (cfg cm) in
  if target <? 0 then (cm, [])
  else (set_lastTrim cm now, getConnsToCloseEmergency cm target).
End trim.
