(* ===== verification/ConnMgrInv.v ===== *)
(** * What the connection manager keeps

    The cached value of a peer is the sum of its tags, the counter the number of
    connections, and an entry without connections is a temporary one. *)
From Stdlib Require Import ZArith Lia.
From stdpp Require Import base tactics list numbers option gmap sets fin_maps strings.
From S2P Require Import Prelude Collections GoBytes BlsRpc Heartbeat ConnMgr.
Local Open Scope Z_scope.

(** ** Wrapping sums *)
Lemma wrap64_mod_eq z k : Int64.wrap64 (z + k * 2 ^ 64) = Int64.wrap64 z.
Proof. unfold Int64.wrap64. replace (z + k * 2 ^ 64 + 2 ^ 63) with (z + 2 ^ 63 + k * 2 ^ 64) by lia. by rewrite Z_mod_plus_full. Qed.
Lemma add64_change s a b : Int64.add64 (Int64.wrap64 s) (Int64.sub64 a b) = Int64.wrap64 (s + a - b).
Proof.
  unfold Int64.add64, Int64.sub64. rewrite Int64.wrap64_wrap_add. destruct (Int64.wrap64_eq (a - b)) as [k ->].
  replace (s + (a - b + k * 2 ^ 64)) with (s + a - b + k * 2 ^ 64) by lia. apply wrap64_mod_eq.
Qed.
Lemma sub64_change s b : Int64.sub64 (Int64.wrap64 s) b = Int64.wrap64 (s - b).
Proof. unfold Int64.sub64. replace (Int64.wrap64 s - b) with (Int64.wrap64 s + - b) by lia. rewrite Int64.wrap64_wrap_add. f_equal. Qed.
Lemma wrap32_change s d : wrap32 (wrap32 s + d) = wrap32 (s + d).
Proof.
  unfold wrap32. set (q := (s + 2 ^ 31) / 2 ^ 32). pose proof (Z.div_mod (s + 2 ^ 31) (2 ^ 32) ltac:(lia)) as E. fold q in E.
  replace ((s + 2 ^ 31) mod 2 ^ 32 - 2 ^ 31 + d + 2 ^ 31) with (s + d + 2 ^ 31 + (- q) * 2 ^ 32) by lia. by rewrite Z_mod_plus_full.
Qed.

(** ** The invariant of a peer *)
Definition tagSum (pi : peerInfo) : Z := sumMap (fun x => x) (tags pi) + sumMap dv_Value (decaying pi).
Record piOk (remote : Conn -> PeerID) (p : PeerID) (pi : peerInfo) : Prop := {
  pk_value : value pi = Int64.wrap64 (tagSum pi);
  pk_temp : temp pi = bool_decide (pconns pi = ∅);
  pk_remote c : c ∈ dom (pconns pi) -> remote c = p;
  pk_id : p <> [] }.

Section peer.
Context (remote : Conn -> PeerID) (p : PeerID).

(** What the operations on tags leave alone *)
Record sameConns (pi pi' : peerInfo) : Prop := {
  sc_temp : temp pi' = temp pi; sc_conns : pconns pi' = pconns pi; sc_seen : firstSeen pi' = firstSeen pi }.
Lemma piOk_tags pi pi' : piOk remote p pi -> sameConns pi pi' -> value pi' = Int64.wrap64 (tagSum pi') -> piOk remote p pi'.
Proof. intros [P1 P2 P3 P4] [S1 S2 _] Hv. split; [done|by rewrite S1, S2|by rewrite S2|done]. Qed.

Lemma piOk_new now : p <> [] -> piOk remote p (newPeerInfo true now).
Proof. intros Hp. by split. Qed.
Lemma piOk_set_tag pi tag v : piOk remote p pi ->
  piOk remote p (set_tag pi (<[tag := v]> (tags pi)) (Int64.add64 (value pi) (Int64.sub64 v (tagValue pi tag)))).
Proof.
  intros P. apply (piOk_tags pi); [done|done|]. simpl. rewrite (pk_value _ _ _ P), add64_change. f_equal.
  unfold tagSum. simpl. rewrite sumMap_insert. unfold tagValue. destruct (tags pi !! tag); simpl; lia.
Qed.
Lemma piOk_del_tag pi tag : piOk remote p pi -> piOk remote p (set_tag pi (delete tag (tags pi)) (Int64.sub64 (value pi) (tagValue pi tag))).
Proof.
  intros P. apply (piOk_tags pi); [done|done|]. simpl. rewrite (pk_value _ _ _ P), sub64_change. f_equal.
  unfold tagSum. simpl. rewrite sumMap_delete. unfold tagValue. destruct (tags pi !! tag); simpl; lia.
Qed.
Lemma piOk_set_decaying pi id v v0 : piOk remote p pi -> default 0 (dv_Value <$> decaying pi !! id) = v0 ->
  piOk remote p (set_decaying pi (<[id := v]> (decaying pi)) (Int64.add64 (value pi) (Int64.sub64 (dv_Value v) v0))).
Proof.
  intros P Hv. apply (piOk_tags pi); [done|done|]. simpl. rewrite (pk_value _ _ _ P), add64_change. f_equal.
  unfold tagSum. simpl. rewrite sumMap_insert. lia.
Qed.
Lemma piOk_del_decaying pi id v : piOk remote p pi -> decaying pi !! id = Some v ->
  piOk remote p (set_decaying pi (delete id (decaying pi)) (Int64.sub64 (value pi) (dv_Value v))).
Proof.
  intros P Hv. apply (piOk_tags pi); [done|done|]. simpl. rewrite (pk_value _ _ _ P), sub64_change. f_equal.
  unfold tagSum. simpl. rewrite sumMap_delete, Hv. simpl. lia.
Qed.
Lemma add_minus s v : Int64.add64 s (Int64.sub64 0 v) = Int64.sub64 s v.
Proof.
  unfold Int64.add64, Int64.sub64. destruct (Int64.wrap64_eq (0 - v)) as [k ->].
  replace (s + (0 - v + k * 2 ^ 64)) with (s - v + k * 2 ^ 64) by lia. apply wrap64_mod_eq.
Qed.
Lemma piOk_decayOne cm now visit pi id : piOk remote p pi -> piOk remote p (decayOne cm now visit pi id) /\ sameConns pi (decayOne cm now visit pi id).
Proof.
  intros P. unfold decayOne. destruct (decaying pi !! id) as [v|] eqn:Ev; [|done]. destruct (tagStore cm !! id) as [t|]; [|done].
  case_bool_decide; [|done]. destruct (decayFn t now v) as [after rm]. destruct rm.
  - split; [|done]. rewrite add_minus. by apply piOk_del_decaying.
  - split; [|done]. apply (piOk_set_decaying pi id (mkDV after now (Added v)) (dv_Value v)); [done|]. by rewrite Ev.
Qed.
Lemma piOk_decay cm now visit pi : piOk remote p pi -> piOk remote p (decayPeerInfo cm now visit pi) /\ sameConns pi (decayPeerInfo cm now visit pi).
Proof.
  unfold decayPeerInfo. generalize (elements (dom (decaying pi))). intros l. revert pi. induction l as [|id l IH]; intros pi P; [done|].
  cbn [foldl]. destruct (piOk_decayOne cm now visit pi id P) as [P1 [S1 S2 S3]]. destruct (IH _ P1) as [P2 [S4 S5 S6]].
  split; [done|]. split; congruence.
Qed.
Lemma piOk_dropTag id pi : piOk remote p pi -> piOk remote p (dropTag id pi) /\ sameConns pi (dropTag id pi).
Proof. intros P. unfold dropTag. destruct (decaying pi !! id) as [v|] eqn:Ev; [|done]. split; [by apply piOk_del_decaying|done]. Qed.
End peer.

(** ** The invariant of the manager *)
Definition sizeOf (pi : peerInfo) : Z := Z.of_nat (size (pconns pi)).
Definition queued (cm : ConnMgr) (p : PeerID) (id : TagID) : Prop := p <> [] /\ is_Some (tagStore cm !! id).
Record cmOk (remote : Conn -> PeerID) (cm : ConnMgr) : Prop := {
  cm_peers : map_Forall (piOk remote) (peers cm);
  cm_count : connCount cm = wrap32 (sumMap sizeOf (peers cm));
  cm_protected : map_Forall (fun _ ts => ts <> ∅) (protected cm);
  cm_known : map_Forall (fun name id => exists t, tagStore cm !! id = Some t /\ tg_name t = name) (knownTags cm);
  cm_bumps : Forall (fun x => queued cm x.1.1 x.1.2) (bumpTagCh cm);
  cm_removes : Forall (fun x => queued cm x.1 x.2) (removeTagCh cm);
  cm_closes : Forall (fun id => is_Some (tagStore cm !! id)) (closeTagCh cm) }.

Lemma getSegment_some p : p <> [] -> is_Some (getSegment p).
Proof. intros Hp. unfold getSegment. destruct (last p) eqn:E; [by eexists|]. by apply last_None in E. Qed.

Section manager.
Context (remote : Conn -> PeerID).

Lemma NewConnManager_ok low hi grace res now : cmOk remote (NewConnManager low hi grace res now).
Proof. split; simpl; try done; try apply map_Forall_empty. Qed.

(** Only the peers change. *)
Lemma set_peers_ok cm m : cmOk remote cm -> map_Forall (piOk remote) m -> sumMap sizeOf m = sumMap sizeOf (peers cm) -> cmOk remote (set_peers cm m).
Proof. intros [] Hm Hs. split; simpl; try done. by rewrite Hs. Qed.

Lemma tagInfoFor_ok cm p now : cmOk remote cm -> p <> [] -> piOk remote p (tagInfoFor cm p now).
Proof.
  intros O Hp. unfold tagInfoFor. destruct (peers cm !! p) as [pi|] eqn:E; [by apply (cm_peers _ _ O p pi)|]. by apply piOk_new.
Qed.
Lemma putPeer_ok cm p now pi : cmOk remote cm -> piOk remote p pi -> sameConns (tagInfoFor cm p now) pi -> cmOk remote (putPeer cm p pi).
Proof.
  intros O P [_ S _]. apply set_peers_ok; [done|by apply map_Forall_insert_2; [|apply O]|].
  rewrite sumMap_insert. unfold sizeOf at 2. rewrite S. unfold tagInfoFor. destruct (peers cm !! p); simpl; [unfold sizeOf; lia|]. rewrite map_size_empty. lia.
Qed.
Lemma map_peers_ok cm g : cmOk remote cm -> (forall p pi, piOk remote p pi -> piOk remote p (g pi) /\ sameConns pi (g pi)) ->
  (forall pi, pconns (g pi) = pconns pi) -> cmOk remote (set_peers cm (g <$> peers cm)).
Proof.
  intros O Hg Hc. apply set_peers_ok; [done| |].
  - intros p pi. rewrite lookup_fmap, fmap_Some. intros (pi0 & H0 & ->). apply (Hg p pi0), (cm_peers _ _ O p pi0 H0).
  - apply sumMap_fmap. intros pi. unfold sizeOf. by rewrite Hc.
Qed.

(** The tags change, but no tag disappears and the names stay. *)
Lemma set_tags_ok cm st known : cmOk remote cm -> (forall id t, tagStore cm !! id = Some t -> is_Some (st !! id)) ->
  map_Forall (fun name id => exists t, st !! id = Some t /\ tg_name t = name) known -> cmOk remote (set_tags cm st known).
Proof.
  intros [O1 O2 O3 O4 O5 O6 O7] Hst Hk. split; simpl; try done.
  - eapply Forall_impl; [exact O5|]. intros x [Hp [t Ht]]. split; [done|by eapply Hst].
  - eapply Forall_impl; [exact O6|]. intros x [Hp [t Ht]]. split; [done|by eapply Hst].
  - eapply Forall_impl; [exact O7|]. intros id [t Ht]. by eapply Hst.
Qed.

(** *** The operations *)
Lemma UpsertTag_ok cm now p tag f : cmOk remote cm -> p <> [] -> exists cm', UpsertTag cm now p tag f = Some cm' /\ cmOk remote cm'.
Proof.
  intros O Hp. unfold UpsertTag. destruct (getSegment_some p Hp) as [b ->]. eexists. split; [done|].
  apply (putPeer_ok cm p now); [done|by apply piOk_set_tag, tagInfoFor_ok|done].
Qed.
Lemma TagPeer_ok cm now p tag v : cmOk remote cm -> p <> [] -> exists cm', TagPeer cm now p tag v = Some cm' /\ cmOk remote cm'.
Proof.
  intros O Hp. unfold TagPeer. destruct (getSegment_some p Hp) as [b ->]. eexists. split; [done|].
  apply (putPeer_ok cm p now); [done|by apply piOk_set_tag, tagInfoFor_ok|done].
Qed.
Lemma UntagPeer_ok cm p tag : cmOk remote cm -> p <> [] -> exists cm', UntagPeer cm p tag = Some cm' /\ cmOk remote cm'.
Proof.
  intros O Hp. unfold UntagPeer. destruct (getSegment_some p Hp) as [b ->]. eexists. split; [done|].
  destruct (peers cm !! p) as [pi|] eqn:E; [|done]. assert (Et : tagInfoFor cm p 0 = pi) by (unfold tagInfoFor; by rewrite E).
  apply (putPeer_ok cm p 0); [done| |by rewrite Et]. apply piOk_del_tag. rewrite <-Et. by apply tagInfoFor_ok.
Qed.
Lemma Register_ok cm id name ival df bf cm' : cmOk remote cm -> tagStore cm !! id = None ->
  RegisterDecayingTag cm id name ival df bf = Some cm' -> cmOk remote cm'.
Proof.
  intros O Hid. unfold RegisterDecayingTag. destruct (knownTags cm !! name) eqn:E; [done|]. intros [= <-].
  apply set_tags_ok; [done| |].
  - intros id' t Ht. rewrite lookup_insert_ne by congruence. by eexists.
  - apply map_Forall_insert_2; [eexists; split; [apply lookup_insert_eq|done]|]. eapply map_Forall_impl; [apply (cm_known _ _ O)|].
    intros n i (t & Ht & Hn). exists t. split; [|done]. by rewrite lookup_insert_ne by congruence.
Qed.
Lemma Bump_ok cm id p delta cm' : cmOk remote cm -> p <> [] -> Bump cm id p delta = Some cm' -> cmOk remote cm'.
Proof.
  intros [O1 O2 O3 O4 O5 O6 O7] Hp. unfold Bump. destruct (tagStore cm !! id) as [t|] eqn:E; [|done]. simpl.
  destruct (tg_closed t); [done|]. destruct (hasRoom _); [|done]. intros [= <-]. split; simpl; try done.
  apply Forall_app. split; [done|]. constructor; [|constructor]. split; [done|]. simpl. rewrite E. by eexists.
Qed.
Lemma RemoveTag_ok cm id p cm' : cmOk remote cm -> p <> [] -> RemoveTag cm id p = Some cm' -> cmOk remote cm'.
Proof.
  intros [O1 O2 O3 O4 O5 O6 O7] Hp. unfold RemoveTag. destruct (tagStore cm !! id) as [t|] eqn:E; [|done]. simpl.
  destruct (tg_closed t); [done|]. destruct (hasRoom _); [|done]. intros [= <-]. split; simpl; try done.
  apply Forall_app. split; [done|]. constructor; [|constructor]. split; [done|]. simpl. rewrite E. by eexists.
Qed.
Lemma set_closed_ok cm id t : cmOk remote cm -> tagStore cm !! id = Some t ->
  cmOk remote (set_tags cm (<[id := mkTag (tg_name t) (interval t) (nextTick t) (decayFn t) (bumpFn t) true]> (tagStore cm)) (knownTags cm)).
Proof.
  intros O E. apply set_tags_ok; [done| |].
  - intros i t' Ht. destruct (decide (i = id)) as [->|]; [rewrite lookup_insert_eq|rewrite lookup_insert_ne by done]; by eexists.
  - eapply map_Forall_impl; [apply (cm_known _ _ O)|]. intros n i (t' & Ht & Hn).
    destruct (decide (i = id)) as [->|]; [rewrite lookup_insert_eq|rewrite lookup_insert_ne by done]; [|by exists t'].
    eexists. split; [done|]. simpl. congruence.
Qed.
Lemma CloseTag_ok cm id cm' : cmOk remote cm -> CloseTag cm id = Some cm' -> cmOk remote cm'.
Proof.
  intros O. unfold CloseTag. destruct (tagStore cm !! id) as [t|] eqn:E; [|done]. simpl. destruct (tg_closed t); [by intros [= <-]|].
  pose proof (set_closed_ok cm id t O E) as O'. set (cm1 := set_tags cm _ _) in *. intros [= <-].
  destruct (hasRoom _); [|done]. destruct O' as [O1 O2 O3 O4 O5 O6 O7]. split; simpl; try done.
  apply Forall_app. split; [done|]. constructor; [|constructor]. simpl. rewrite lookup_insert_eq. by eexists.
Qed.
Lemma tick_ok cm now : cmOk remote cm -> cmOk remote (tick cm now).
Proof.
  intros O. unfold tick. set (visit := dueTags cm now). set (cm1 := set_lastTick cm now).
  assert (O1 : cmOk remote cm1) by (destruct O; by split).
  assert (O2 : cmOk remote (set_peers cm1 (decayPeerInfo cm1 now visit <$> peers cm1))).
  { apply map_peers_ok; [done|intros p pi; apply piOk_decay|]. intros pi. unfold decayPeerInfo. generalize (elements (dom (decaying pi))). intros l.
    revert pi. induction l as [|id l IH]; intros pi; [done|]. cbn [foldl]. rewrite IH. unfold decayOne. repeat case_match; done. }
  set (cm2 := set_peers cm1 _) in *. apply set_tags_ok; [done| |].
  - intros id t Ht. rewrite map_lookup_imap, Ht. by eexists.
  - eapply map_Forall_impl; [apply (cm_known _ _ O2)|]. intros n i (t & Ht & Hn). rewrite map_lookup_imap, Ht. unfold advance. simpl. eexists. split; [done|].
    by case_bool_decide.
Qed.
Lemma processBump_ok cm now p id delta : cmOk remote cm -> queued cm p id -> exists cm', processBump cm now p id delta = Some cm' /\ cmOk remote cm'.
Proof.
  intros O [Hp [t Ht]]. unfold processBump. destruct (getSegment_some p Hp) as [b ->]. rewrite Ht. cbn [mbind option_bind]. eexists. split; [done|].
  set (pi := tagInfoFor cm p now). apply (putPeer_ok cm p now); [done| |done].
  apply (piOk_set_decaying remote p pi id (mkDV _ now _)); [by apply tagInfoFor_ok|]. destruct (decaying pi !! id); done.
Qed.
Lemma processRemove_ok cm now p id : cmOk remote cm -> p <> [] -> exists cm', processRemove cm now p id = Some cm' /\ cmOk remote cm'.
Proof.
  intros O Hp. unfold processRemove. destruct (getSegment_some p Hp) as [b ->]. cbn [mbind option_bind]. eexists. split; [done|].
  pose proof (piOk_dropTag remote p id _ (tagInfoFor_ok cm p now O Hp)) as [P1 P2]. by apply (putPeer_ok cm p now).
Qed.
Lemma processClose_ok cm id : cmOk remote cm -> is_Some (tagStore cm !! id) -> exists cm', processClose cm id = Some cm' /\ cmOk remote cm'.
Proof.
  intros O [t Ht]. unfold processClose. rewrite Ht. cbn [mbind option_bind]. eexists. split; [done|].
  assert (O1 : cmOk remote (set_tags cm (tagStore cm) (delete (tg_name t) (knownTags cm)))).
  { apply set_tags_ok; [done|intros; by eexists|]. apply map_Forall_delete, O. }
  apply (map_peers_ok _ (dropTag id)); [done|intros p pi; apply piOk_dropTag|]. intros pi. unfold dropTag. by case_match.
Qed.
Lemma pop_ok cm b r c : cmOk remote cm -> b `suffix_of` bumpTagCh cm -> r `suffix_of` removeTagCh cm -> c `suffix_of` closeTagCh cm -> cmOk remote (set_queues cm b r c).
Proof.
  intros [O1 O2 O3 O4 O5 O6 O7] [kb Hb] [kr Hr] [kc Hc]. split; simpl; try done.
  - rewrite Hb in O5. by apply Forall_app in O5 as [_ O5].
  - rewrite Hr in O6. by apply Forall_app in O6 as [_ O6].
  - rewrite Hc in O7. by apply Forall_app in O7 as [_ O7].
Qed.
Lemma Protect_ok cm id tag : cmOk remote cm -> cmOk remote (Protect cm id tag).
Proof. intros [O1 O2 O3 O4 O5 O6 O7]. split; simpl; try done. apply map_Forall_insert_2; [|done]. set_solver. Qed.
Lemma Unprotect_ok cm id tag : cmOk remote cm -> cmOk remote (Unprotect cm id tag).1.
Proof.
  intros [O1 O2 O3 O4 O5 O6 O7]. unfold Unprotect. destruct (protected cm !! id) as [ts|]; [|by split]. case_bool_decide; split; simpl; try done.
  - by apply map_Forall_delete.
  - by apply map_Forall_insert_2.
Qed.
Lemma set_count_ok cm m n : cmOk remote cm -> map_Forall (piOk remote) m -> n = wrap32 (sumMap sizeOf m) -> cmOk remote (set_count cm m n).
Proof. intros [O1 O2 O3 O4 O5 O6 O7] Hm Hs. by split. Qed.
Lemma set_lastTrim_ok cm t : cmOk remote cm -> cmOk remote (set_lastTrim cm t).
Proof. intros [O1 O2 O3 O4 O5 O6 O7]. by split. Qed.
End manager.
