(* ===== verification/ConnMgrRun.v ===== *)
(** * The connection manager: runs and trims *)
From Stdlib Require Import ZArith Lia Sorted.
From stdpp Require Import base tactics list numbers option gmap sets fin_maps strings relations.
From S2P Require Import Prelude Collections GoBytes BlsRpc RouterLaws Heartbeat HeartbeatLaws RouterExample ConnMgr ConnMgrInv.
Local Open Scope Z_scope.

Section notify.
Context (remote : Conn -> PeerID).

Lemma Connected_ok cm now c : cmOk remote cm -> remote c <> [] -> exists cm', Connected cm now (remote c) c = Some cm' /\ cmOk remote cm'.
Proof.
  intros O Hp. unfold Connected. set (p := remote c) in *. destruct (getSegment_some p Hp) as [b ->]. cbn [mbind option_bind]. eexists. split; [done|].
  destruct (peers cm !! p) as [pi|] eqn:E.
  - pose proof (cm_peers _ _ O p pi E) as P. set (pi1 := if temp pi then _ else pi).
    assert (P1 : tags pi1 = tags pi /\ decaying pi1 = decaying pi /\ value pi1 = value pi /\ pconns pi1 = pconns pi /\ temp pi1 = false)
      by (unfold pi1; by destruct (temp pi) eqn:?).
    destruct P1 as (T1 & T2 & T3 & T4 & T5). rewrite T4. destruct (pconns pi !! c) eqn:Ec.
    + assert (Hne : pconns pi <> ∅) by (intros H0; by rewrite H0, lookup_empty in Ec).
      assert (Et : temp pi = false) by (rewrite (pk_temp _ _ _ P); by apply bool_decide_eq_false).
      apply (putPeer_ok remote cm p now); [done| |].
      * unfold pi1. by rewrite Et.
      * unfold tagInfoFor. rewrite E. unfold pi1. by rewrite Et.
    + apply set_count_ok; [done| |].
      * apply map_Forall_insert_2; [|apply O]. split; simpl.
        -- rewrite T1, T2, T3. exact (pk_value _ _ _ P).
        -- rewrite T5. symmetry. apply bool_decide_eq_false. apply insert_non_empty.
        -- intros c'. rewrite dom_insert_L. intros [->%elem_of_singleton|Hc]%elem_of_union; [done|by apply (pk_remote _ _ _ P)].
        -- done.
      * rewrite (cm_count _ _ O), wrap32_change. f_equal. rewrite sumMap_insert, E. unfold sizeOf. simpl.
        rewrite map_size_insert_None by done. lia.
  - change (pconns (newPeerInfo false now) !! c) with ((∅ : gmap Conn Z) !! c). rewrite lookup_empty. apply set_count_ok; [done| |].
    + apply map_Forall_insert_2; [|apply O]. split; simpl; try done.
      intros c'. rewrite dom_insert_L. intros [->%elem_of_singleton|Hc]%elem_of_union; [done|set_solver].
    + rewrite (cm_count _ _ O), wrap32_change. f_equal. rewrite sumMap_insert, E. unfold sizeOf. simpl. rewrite map_size_insert_None by done. rewrite map_size_empty. lia.
Qed.
Lemma Disconnected_ok cm c : cmOk remote cm -> remote c <> [] -> exists cm', Disconnected cm (remote c) c = Some cm' /\ cmOk remote cm'.
Proof.
  intros O Hp. unfold Disconnected. set (p := remote c) in *. destruct (getSegment_some p Hp) as [b ->]. cbn [mbind option_bind]. eexists. split; [done|].
  destruct (peers cm !! p) as [pi|] eqn:E; [|done]. pose proof (cm_peers _ _ O p pi E) as P. destruct (pconns pi !! c) eqn:Ec; [|done].
  assert (Hsz : size (pconns pi) = S (size (delete c (pconns pi)))).
  { rewrite <-(insert_delete_id (pconns pi) c _ Ec) at 1. rewrite map_size_insert_None by apply lookup_delete_eq. done. }
  assert (Et : temp pi = false).
  { rewrite (pk_temp _ _ _ P). apply bool_decide_eq_false. intros H0. by rewrite H0, lookup_empty in Ec. }
  rewrite (cm_count _ _ O). replace (wrap32 (sumMap sizeOf (peers cm)) - 1) with (wrap32 (sumMap sizeOf (peers cm)) + -1) by lia. rewrite wrap32_change.
  case_bool_decide as Hd; apply set_count_ok; try done.
  - apply map_Forall_delete, O.
  - f_equal. rewrite sumMap_delete, E. unfold sizeOf. simpl. rewrite Hsz, Hd, map_size_empty. lia.
  - apply map_Forall_insert_2; [|apply O]. split; simpl.
    + exact (pk_value _ _ _ P).
    + rewrite Et. symmetry. by apply bool_decide_eq_false.
    + intros c'. rewrite dom_delete_L. intros [Hc _]%elem_of_difference. by apply (pk_remote _ _ _ P).
    + done.
  - f_equal. rewrite sumMap_insert, E. unfold sizeOf. simpl. rewrite Hsz. lia.
Qed.
End notify.

Section trim.
Context {SS : SortSlice} {SL : SortSliceLaws SS} (e : trimEnv) (Eok : trimEnv_ok e) (remote : Conn -> PeerID).

Lemma connsOfPeer_length cm p : Z.of_nat (length (connsOfPeer e cm p)) = numConns cm p.
Proof.
  unfold connsOfPeer, numConns. rewrite (Permutation_length (te_conns_perm _ Eok _)). f_equal.
  rewrite <-size_dom. done.
Qed.
Lemma connsOfPeer_nil cm p : numConns cm p = 0 -> connsOfPeer e cm p = [].
Proof. rewrite <-connsOfPeer_length. destruct (connsOfPeer e cm p); [done|]. simpl. lia. Qed.

(** A prefix of the sorted candidates, as long as something is left of the target *)
Lemma selectConns_prefix prune cm l : forall t, exists l1 l2, l = l1 ++ l2
  /\ selectConns e prune cm l t = (l1 ≫= connsOfPeer e cm,
       filter (fun p => prune && (numConns cm p =? 0) && temp (infoOf cm p) = true) l1, t - sumZ (numConns cm) l1)
  /\ (l2 = [] \/ t - sumZ (numConns cm) l1 <= 0)
  /\ (forall la p lb, l1 = la ++ p :: lb -> 0 < t - sumZ (numConns cm) la).
Proof.
  induction l as [|p l IH]; intros t.
  - exists [], []. simpl. split_and!; [done|by rewrite Z.sub_0_r|by left|]. intros [|] ? ? ?; done.
  - cbn [selectConns]. destruct (Z.leb_spec t 0) as [Ht|Ht].
    + exists [], (p :: l). simpl. split_and!; [done|by rewrite Z.sub_0_r|right; lia|]. intros [|] ? ? ?; done.
    + destruct (prune && (numConns cm p =? 0) && temp (infoOf cm p)) eqn:Ep.
      * assert (Hz : numConns cm p = 0) by (apply andb_true_iff in Ep as [Ep _]; apply andb_true_iff in Ep as [_ Ep]; by apply Z.eqb_eq).
        destruct (IH t) as (l1 & l2 & -> & -> & H1 & H2). exists (p :: l1), l2. cbn [mbind list_bind]. rewrite sumZ_cons, Hz, filter_cons, decide_True, connsOfPeer_nil by done.
        split_and!; [done|done|done|]. intros [|q la] x lb [= -> ->]; [simpl; lia|]. rewrite sumZ_cons, Hz. by apply (H2 la x lb).
      * destruct (IH (t - numConns cm p)) as (l1 & l2 & -> & -> & H1 & H2). exists (p :: l1), l2. cbn [mbind list_bind].
        rewrite sumZ_cons, filter_cons, decide_False by (by rewrite Ep). replace (t - (numConns cm p + sumZ (numConns cm) l1)) with (t - numConns cm p - sumZ (numConns cm) l1) by lia.
        split_and!; [done|done|done|]. intros [|q la] x lb [= -> ->]; [simpl; lia|]. rewrite sumZ_cons. specialize (H2 la x lb eq_refl). lia.
Qed.

(** *** The comparison is a lexicographic one *)
Fixpoint lexb (a b : list Z) : bool :=
  match a, b with
  | x :: a, y :: b => (x <? y) || ((x =? y) && lexb a b)
  | _, _ => false
  end.
Definition b2z01 (b : bool) : Z := if b then 0 else 1.
Definition pruneKey (more : bool) (pi : peerInfo) : list Z :=
  [b2z01 (temp pi); value pi; b2z01 (numStreams e pi =? 0); b2z01 (incoming e pi); if more then - numStreams e pi else numStreams e pi].
Lemma numStreams_nonneg pi : 0 <= numStreams e pi.
Proof. apply sumZ_nonneg. intros c _. apply (te_streams_nonneg _ Eok). Qed.
Lemma pruneBefore_lex more x y : pruneBefore e more x y = lexb (pruneKey more x) (pruneKey more y).
Proof.
  unfold pruneBefore, pruneKey. cbn [lexb]. pose proof (numStreams_nonneg x). pose proof (numStreams_nonneg y).
  destruct (temp x), (temp y); cbn [Bool.eqb negb b2z01 Z.ltb Z.eqb Z.compare Pos.compare Pos.compare_cont orb andb]; try done.
  all: destruct (Z.eqb_spec (value x) (value y)) as [->|]; cbn [negb]; [rewrite Z.ltb_irrefl, orb_false_l, andb_true_l|by rewrite andb_false_l, orb_false_r].
  all: destruct (Z.eqb_spec (numStreams e x) 0), (Z.eqb_spec (numStreams e y) 0); cbn [b2z01 orb andb].
  all: destruct (Z.eqb_spec (numStreams e y) (numStreams e x)); try lia; cbn [negb andb orb Z.ltb Z.eqb Z.compare Pos.compare Pos.compare_cont Pos.eqb].
  all: try (apply Z.ltb_lt; lia); try (apply Z.ltb_ge; lia).
  all: destruct (incoming e x), (incoming e y); cbn [Bool.eqb negb b2z01 Z.ltb Z.eqb Z.compare Pos.compare Pos.compare_cont Pos.eqb orb andb]; try done.
  all: rewrite andb_false_r, orb_false_r; destruct more; try done.
  all: destruct (Z.ltb_spec (numStreams e y) (numStreams e x)), (Z.ltb_spec (- numStreams e x) (- numStreams e y)); try done; lia.
Qed.
Lemma lexb_asym a : forall b, lexb a b = true -> lexb b a = false.
Proof.
  induction a as [|x a IH]; intros [|y b]; simpl; try done. destruct (Z.ltb_spec x y), (Z.ltb_spec y x); try lia; try done.
  all: destruct (Z.eqb_spec x y), (Z.eqb_spec y x); try lia; try done. simpl. apply IH.
Qed.
Lemma lexb_weak a : forall b c, length a = length b -> length b = length c -> lexb a c = true -> lexb a b = true \/ lexb b c = true.
Proof.
  induction a as [|x a IH]; intros [|y b] [|z c]; simpl; try done. intros [= H1] [= H2].
  destruct (Z.ltb_spec x z), (Z.ltb_spec x y), (Z.ltb_spec y z); simpl; try (by auto); try lia.
  all: destruct (Z.eqb_spec x z), (Z.eqb_spec x y), (Z.eqb_spec y z); simpl; try lia; try (by auto); try done. all: by apply IH.
Qed.
Lemma pruneBefore_strictWeak cm more : strictWeak (fun p q => pruneBefore e more (infoOf cm p) (infoOf cm q)).
Proof. split; [intros x y|intros x y z]; rewrite !pruneBefore_lex; [apply lexb_asym|by apply lexb_weak]. Qed.

(** *** Temporary entries that are deleted *)
Lemma delete_empty_ok cm ps : cmOk remote cm -> Forall (fun p => numConns cm p = 0) ps ->
  cmOk remote (set_peers cm (foldl (fun m p => delete p m) (peers cm) ps)).
Proof.
  intros O Hps. assert (H : forall m, map_Forall (piOk remote) m -> Forall (fun p => default 0 (sizeOf <$> m !! p) = 0) ps ->
    map_Forall (piOk remote) (foldl (fun m p => delete p m) m ps) /\ sumMap sizeOf (foldl (fun m p => delete p m) m ps) = sumMap sizeOf m).
  { clear Hps. induction ps as [|p ps IH]; intros m Hm Hps; [done|]. cbn [foldl]. inversion Hps as [|? ? H0 H1]; subst.
    destruct (IH (delete p m)) as [I1 I2]; [by apply map_Forall_delete| |].
    - eapply Forall_impl; [exact H1|]. intros q Hq. destruct (decide (q = p)) as [->|]; [by rewrite lookup_delete_eq|by rewrite lookup_delete_ne].
    - split; [done|]. rewrite I2, sumMap_delete, H0. lia. }
  destruct (H (peers cm) (cm_peers _ _ O)) as [H1 H2]; [|by apply set_peers_ok].
  eapply Forall_impl; [exact Hps|]. intros p Hp. unfold numConns, infoOf in Hp. by destruct (peers cm !! p).
Qed.

(** *** The selection *)
Definition selects (cm : ConnMgr) (l1 l2 : list PeerID) (now : Z) : Prop :=
  l1 ++ l2 ≡ₚ candidates e cm now /\ (forall p q, p ∈ l1 -> q ∈ l2 -> pruneBefore e false (infoOf cm q) (infoOf cm p) = false).
Lemma getConnsToClose_eq cm now : exists l1 l2, (l1 = [] \/ selects cm l1 l2 now)
  /\ getConnsToClose e cm now = (set_peers cm (foldl (fun m p => delete p m) (peers cm)
       (filter (fun p => true && (numConns cm p =? 0) && temp (infoOf cm p) = true) l1)), l1 ≫= connsOfPeer e cm)
  /\ (lowWater (cfg cm) <> 0 -> highWater (cfg cm) <> 0 -> lowWater (cfg cm) < connCount cm ->
      let n := sumZ (numConns cm) (candidates e cm now) in
      if n <? lowWater (cfg cm) then l1 = [] else selects cm l1 l2 now
        /\ (l2 = [] \/ n - sumZ (numConns cm) l1 <= lowWater (cfg cm))
        /\ (forall la p lb, l1 = la ++ p :: lb -> lowWater (cfg cm) < n - sumZ (numConns cm) la)).
Proof.
  unfold getConnsToClose. assert (Hid : set_peers cm (peers cm) = cm) by (by destruct cm).
  destruct (Z.eqb_spec (lowWater (cfg cm)) 0) as [?|_]; [exists [], []; simpl; rewrite Hid; split_and!; [by left|done|done]|].
  destruct (Z.eqb_spec (highWater (cfg cm)) 0) as [?|_]; [exists [], []; simpl; rewrite Hid; split_and!; [by left|done|done]|]. cbn [orb].
  destruct (Z.leb_spec (connCount cm) (lowWater (cfg cm))); [exists [], []; simpl; rewrite Hid; split_and!; [by left|done|lia]|].
  set (n := sumZ (numConns cm) (candidates e cm now)). destruct (Z.ltb_spec n (lowWater (cfg cm))) as [Hn|Hn]; [exists [], []; simpl; rewrite Hid; split_and!; [by left|done|done]|].
  set (l := SortByValueAndStreams e cm false (candidates e cm now)).
  destruct (selectConns_prefix true cm l (n - lowWater (cfg cm))) as (l1 & l2 & El & -> & H1 & H2).
  assert (Sel : selects cm l1 l2 now).
  { split; [rewrite <-El; apply sort_perm|]. intros p q [i Hi]%list_elem_of_lookup [j Hj]%list_elem_of_lookup.
    assert (Hi' : l !! i = Some p) by (rewrite El; by apply lookup_app_l_Some).
    assert (Hj' : l !! (length l1 + j)%nat = Some q) by (rewrite El, lookup_app_r by lia; by replace (length l1 + j - length l1)%nat with j by lia).
    refine (sort_sorted _ _ i (length l1 + j)%nat p q (pruneBefore_strictWeak cm false) _ Hi' Hj').
    apply lookup_lt_Some in Hi. lia. }
  exists l1, l2. split_and!; [by right|done|]. intros _ _ _. split_and!; [done|destruct H1; [by left|right; lia]|].
  intros la p lb E. specialize (H2 la p lb E). lia.
Qed.
Lemma getConnsToClose_ok cm now : cmOk remote cm -> cmOk remote (getConnsToClose e cm now).1.
Proof.
  intros O. destruct (getConnsToClose_eq cm now) as (l1 & l2 & _ & -> & _). apply delete_empty_ok; [done|].
  apply Forall_forall. intros p [H _]%list_elem_of_filter. apply andb_true_iff in H as [H _]. by apply Z.eqb_eq.
Qed.

End trim.

(** ** Runs *)
Inductive cmOp :=
  | OpTag (now : Z) (p : PeerID) (tag : string) (v : Z) | OpUntag (p : PeerID) (tag : string)
  | OpUpsert (now : Z) (p : PeerID) (tag : string) (f : Z -> Z)
  | OpRegister (id : TagID) (name : string) (ival : Z) (df : DecayFn) (bf : BumpFn)
  | OpBump (id : TagID) (p : PeerID) (delta : Z) | OpRemoveTag (id : TagID) (p : PeerID) | OpCloseTag (id : TagID)
  | OpTick (now : Z) | OpProcessBump (now : Z) | OpProcessRemove (now : Z) | OpProcessClose
  | OpProtect (p : PeerID) (tag : string) | OpUnprotect (p : PeerID) (tag : string)
  | OpConnected (now : Z) (c : Conn) | OpDisconnected (c : Conn)
  | OpTrim (now : Z) | OpBackground (now : Z) | OpForceTrim (now : Z).

Section run.
Context {SS : SortSlice} (e : trimEnv) (remote : Conn -> PeerID).
(** An operation that returns an error leaves the manager as it is; [None] is a panic. *)
Definition cmApply (cm : ConnMgr) (o : cmOp) : option ConnMgr :=
  match o with
  | OpTag now p tag v => TagPeer cm now p tag v
  | OpUntag p tag => UntagPeer cm p tag
  | OpUpsert now p tag f => UpsertTag cm now p tag f
  | OpRegister id name ival df bf => Some (default cm (RegisterDecayingTag cm id name ival df bf))
  | OpBump id p delta => Some (default cm (Bump cm id p delta))
  | OpRemoveTag id p => Some (default cm (RemoveTag cm id p))
  | OpCloseTag id => Some (default cm (CloseTag cm id))
  | OpTick now => Some (tick cm now)
  | OpProcessBump now =>
      match bumpTagCh cm with
      | [] => Some cm
      | (p, id, delta) :: l => processBump (set_queues cm l (removeTagCh cm) (closeTagCh cm)) now p id delta
      end
  | OpProcessRemove now =>
      match removeTagCh cm with
      | [] => Some cm
      | (p, id) :: l => processRemove (set_queues cm (bumpTagCh cm) l (closeTagCh cm)) now p id
      end
  | OpProcessClose =>
      match closeTagCh cm with
      | [] => Some cm
      | id :: l => processClose (set_queues cm (bumpTagCh cm) (removeTagCh cm) l) id
      end
  | OpProtect p tag => Some (Protect cm p tag)
  | OpUnprotect p tag => Some (Unprotect cm p tag).1
  | OpConnected now c => Connected cm now (remote c) c
  | OpDisconnected c => Disconnected cm (remote c) c
  | OpTrim now => Some (doTrim e cm now).1
  | OpBackground now => Some (backgroundTick e cm now).1
  | OpForceTrim now => Some (ForceTrim e cm now).1
  end.
(** Peers have an identifier, and a new tag is a new object. *)
Definition opValid (cm : ConnMgr) (o : cmOp) : bool :=
  match o with
  | OpTag _ p _ _ | OpUntag p _ | OpUpsert _ p _ _ | OpBump _ p _ | OpRemoveTag _ p => bool_decide (p <> [])
  | OpConnected _ c | OpDisconnected c => bool_decide (remote c <> [])
  | OpRegister id _ _ _ _ => bool_decide (tagStore cm !! id = None)
  | _ => true
  end.
(** [None]: an operation is not valid or panics. *)
Definition cmStep (cm : ConnMgr) (o : cmOp) : option ConnMgr := if opValid cm o then cmApply cm o else None.

Context {SL : SortSliceLaws SS} (Eok : trimEnv_ok e).
Lemma cmApply_ok cm o : cmOk remote cm -> opValid cm o = true -> exists cm', cmApply cm o = Some cm' /\ cmOk remote cm'.
Proof.
  intros O V. assert (D : forall r : option ConnMgr, (forall cm', r = Some cm' -> cmOk remote cm') -> exists cm', Some (default cm r) = Some cm' /\ cmOk remote cm').
  { intros [cm'|] Hr; eexists; (split; [done|]); simpl; [by apply Hr|done]. }
  destruct o; cbn [cmApply opValid] in *; try apply bool_decide_eq_true in V.
  - by apply TagPeer_ok.
  - by apply UntagPeer_ok.
  - by apply UpsertTag_ok.
  - apply D. intros cm'. by apply Register_ok.
  - apply D. intros cm'. by apply Bump_ok.
  - apply D. intros cm'. by apply RemoveTag_ok.
  - apply D. intros cm'. by apply CloseTag_ok.
  - eexists. split; [done|by apply tick_ok].
  - destruct (bumpTagCh cm) as [|[[p id] delta] l] eqn:E; [by eexists|]. pose proof (cm_bumps _ _ O) as F. rewrite E in F. apply Forall_cons in F as [F _].
    apply processBump_ok; [|done]. apply pop_ok; [done| |done|done]. rewrite E. by apply suffix_cons_r.
  - destruct (removeTagCh cm) as [|[p id] l] eqn:E; [by eexists|]. pose proof (cm_removes _ _ O) as F. rewrite E in F. apply Forall_cons in F as [[F _] _].
    apply processRemove_ok; [|done]. apply pop_ok; [done|done| |done]. rewrite E. by apply suffix_cons_r.
  - destruct (closeTagCh cm) as [|id l] eqn:E; [by eexists|]. pose proof (cm_closes _ _ O) as F. rewrite E in F. apply Forall_cons in F as [F _].
    apply processClose_ok; [|done]. apply pop_ok; [done|done|done|]. rewrite E. by apply suffix_cons_r.
  - eexists. split; [done|by apply Protect_ok].
  - eexists. split; [done|by apply Unprotect_ok].
  - by apply Connected_ok.
  - by apply Disconnected_ok.
  - eexists. split; [done|]. unfold doTrim. pose proof (getConnsToClose_ok e Eok remote cm now O) as H. destruct (getConnsToClose e cm now) as [cm1 cs]. by apply set_lastTrim_ok.
  - eexists. split; [done|]. unfold backgroundTick. case_match; [done|]. by apply getConnsToClose_ok.
  - eexists. split; [done|]. unfold ForceTrim. case_match; [done|]. by apply set_lastTrim_ok.
Qed.
Lemma cmRun_ok ops : forall cm cm', cmOk remote cm -> foldlM cmStep cm ops = Some cm' -> cmOk remote cm'.
Proof.
  induction ops as [|o ops IH]; intros cm cm' O; cbn [foldlM]; [by intros [= <-]|]. destruct (cmStep cm o) as [cm1|] eqn:E; [|done].
  cbn [mbind option_bind]. apply IH. unfold cmStep in E. destruct (opValid cm o) eqn:V; [|done].
  destruct (cmApply_ok cm o O V) as (cm2 & E2 & O2). congruence.
Qed.
End run.

(** ** The theorems *)
(** C25: The tables of the connection manager are well formed in every reachable state and no operation on peers with an
    identifier panics: the cached value of a peer is the sum of its tags and decaying tags (modulo 2^64, as [int] adds),
    the counter is the number of tracked connections, an entry is temporary exactly if it has no connection, a connection
    is stored at its remote peer, and a protected peer has a protection tag. *)
Theorem connmgr_well_formed {SS : SortSlice} {SL : SortSliceLaws SS} (e : trimEnv) (remote : Conn -> PeerID) (low hi grace res now : Z) (ops : list cmOp) (cm : ConnMgr) :
  trimEnv_ok e -> foldlM (cmStep e remote) (NewConnManager low hi grace res now) ops = Some cm ->
  (forall p pi, peers cm !! p = Some pi ->
     value pi = Int64.wrap64 (sumMap (fun x => x) (tags pi) + sumMap dv_Value (decaying pi))
     /\ temp pi = bool_decide (pconns pi = ∅) /\ (forall c, c ∈ dom (pconns pi) -> remote c = p))
  /\ connCount cm = wrap32 (sumMap sizeOf (peers cm))
  /\ (forall p ts, protected cm !! p = Some ts -> ts <> ∅)
  /\ (forall o, opValid remote cm o = true -> is_Some (cmApply e remote cm o)).
Proof.
  intros Eok H. pose proof (cmRun_ok e remote Eok ops _ cm (NewConnManager_ok remote low hi grace res now) H) as O. split_and!.
  - intros p pi E. destruct (cm_peers _ _ O p pi E). by split_and!.
  - apply O.
  - apply (cm_protected _ _ O).
  - intros o V. destruct (cmApply_ok e remote Eok cm o O V) as (cm' & -> & _). by eexists.
Qed.

(** A peer whose connections a trim may close: not protected, and first seen at least a grace period ago *)
Definition trimmable (cm : ConnMgr) (now : Z) (p : PeerID) : Prop :=
  p ∈ dom (peers cm) /\ protected cm !! p = None /\ firstSeen (infoOf cm p) + gracePeriod (cfg cm) <= now.
#[export] Instance trimmable_dec cm now p : Decision (trimmable cm now p).
Proof. unfold trimmable. apply _. Defined.




(** ** Deviations *)
(** [DecayExpireWhenInactive] measures the time until the last visit, which is past: the tag does not expire, and loses its value. *)
Lemma inactive_tag_never_expires after now v : 0 < after -> LastVisit v <= now -> DecayExpireWhenInactive after now v = (0, false).
Proof. intros H1 H2. unfold DecayExpireWhenInactive. f_equal. apply Z.leb_gt. lia. Qed.

(** A tag that is not known any more does not decay. *)
Lemma decayOne_other cm now visit pi i id : id ∉ visit -> decaying (decayOne cm now visit pi i) !! id = decaying pi !! id.
Proof.
  intros Hid. unfold decayOne. destruct (decide (i = id)) as [->|Hne].
  - repeat case_match; try done; by rewrite ?bool_decide_eq_true in *.
  - repeat case_match; simpl; rewrite ?lookup_delete_ne, ?lookup_insert_ne by done; done.
Qed.
Lemma unknown_tag_keeps_value cm now id p pi : (forall n, knownTags cm !! n <> Some id) -> peers cm !! p = Some pi ->
  exists pi', peers (tick cm now) !! p = Some pi' /\ decaying pi' !! id = decaying pi !! id.
Proof.
  intros Hk Hp. unfold tick. cbn [peers set_tags set_peers set_lastTick]. rewrite lookup_fmap, Hp. eexists. split; [done|].
  assert (Hid : id ∉ dueTags cm now).
  { unfold dueTags. rewrite elem_of_list_to_set, list_elem_of_filter, list_elem_of_fmap. intros (_ & [n i] & -> & Hi%elem_of_map_to_list). by apply (Hk n). }
  unfold decayPeerInfo. generalize (elements (dom (decaying pi))). clear Hp. intros l. revert pi. induction l as [|i l IH]; intros pi; [done|].
  cbn [foldl]. rewrite IH. by apply decayOne_other.
Qed.

(** ** Two peers, the second one protected *)
Module ConnMgrExample.
#[export] Existing Instance RouterExample.sortInst.
#[export] Existing Instance RouterExample.sortLaws.
Definition peerA : PeerID := [Byte.x01].
Definition peerB : PeerID := [Byte.x02].
Definition remote (c : Conn) : PeerID := if (c <=? 3)%nat then peerA else peerB.
Definition env : trimEnv := mkTrimEnv (fun _ => false) (fun _ => 0) elements elements.
Lemma env_ok : trimEnv_ok env.
Proof. by split. Qed.
Definition connect (l : list Conn) : list cmOp := OpConnected 0 <$> l.
(** Seven connections, three of them to the first peer, which is tagged; a low-water mark of one *)
Definition ops : list cmOp := connect [1; 2; 3; 4; 5; 6; 7]%nat ++ [OpTag 1 peerA "relay" 10; OpTag 1 peerA "relay" 4; OpProtect peerB "keep"].
Definition start : ConnMgr := NewConnManager 1 5 10 60 0.
Definition run (l : list cmOp) : ConnMgr := default start (foldlM (cmStep env remote) start l).
Lemma run_eq l : foldlM (cmStep env remote) start l <> None -> foldlM (cmStep env remote) start l = Some (run l).
Proof. unfold run. by destruct (foldlM (cmStep env remote) start l). Qed.
Lemma ops_run : foldlM (cmStep env remote) start ops = Some (run ops).
Proof. apply run_eq. by vm_compute. Qed.
(** The bump is processed after the tag is closed. *)
Definition lateBump : list cmOp := [OpRegister 0%nat "score" 60 (DecayFixed 1) BumpSumUnbounded; OpBump 0%nat peerA 5; OpCloseTag 0%nat; OpProcessClose; OpProcessBump 1].
End ConnMgrExample.
Import ConnMgrExample.

(** With seven connections and a low-water mark of one, four connections to a protected peer survive [ForceTrim]: the
    number of connections selected is compared with what is left of the target, not with the target. *)
Lemma emergency_stops_early : lowWater (cfg (run ops)) = 1 /\ connCount (run ops) = 7 /\ length (ForceTrim env (run ops) 100).2 = 3%nat.
Proof. by vm_compute. Qed.

(** A bump that is taken from its queue after the tag was closed leaves a value that never decays. *)
Lemma late_bump_stays now : exists pi pi', peers (run lateBump) !! peerA = Some pi /\ value pi = 5
  /\ peers (tick (run lateBump) now) !! peerA = Some pi' /\ decaying pi' !! 0%nat = Some (mkDV 5 1 1).
Proof.
  destruct (peers (run lateBump) !! peerA) as [pi|] eqn:E; [|by vm_compute in E]. exists pi.
  destruct (unknown_tag_keeps_value (run lateBump) now 0%nat peerA pi) as (pi' & Hp & Hd); [|done|].
  - assert (Hk : knownTags (run lateBump) = ∅) by (by vm_compute). intros n. by rewrite Hk, lookup_empty.
  - exists pi'. rewrite Hd. vm_compute in E. injection E as <-. by split_and!.
Qed.

Lemma connmgr_well_formed_witness : connCount (run ops) = 7 /\ connCount (run ops) = wrap32 (sumMap sizeOf (peers (run ops))).
Proof.
  split; [by vm_compute|]. refine (proj1 (proj2 (connmgr_well_formed env remote 1 5 10 60 0 ops (run ops) env_ok _))). exact ops_run.
Defined.
