(* ===== verification/GoHeap.v ===== *)
(** * container/heap

    The heap operations of Go's standard library on a slice, with [Less] given by
    a key.  [Swap] on the slice is a swap of two elements; the loops have fuel for
    the length of the slice. *)
From Stdlib Require Import ZArith Lia.
From stdpp Require Import base tactics list numbers option.
Local Open Scope nat_scope.

Section heap.
Context {A : Type} `{Inhabited A} (key : A -> Z).

Definition swap (i j : nat) (h : list A) : list A := <[i := h !!! j]> (<[j := h !!! i]> h).
Definition Less (h : list A) (i j : nat) : bool := (key (h !!! i) <? key (h !!! j))%Z.

Fixpoint up (fuel : nat) (h : list A) (j : nat) : list A :=
  match fuel with
  | O => h
  | S fuel =>
      let i := (j - 1) / 2 in
      if (i =? j) || negb (Less h j i) then h else up fuel (swap i j h) i
  end.
(** With the final position *)
Fixpoint downLoop (fuel : nat) (h : list A) (i n : nat) : list A * nat :=
  match fuel with
  | O => (h, i)
  | S fuel =>
      let j1 := 2 * i + 1 in
      if n <=? j1 then (h, i)
      else
        let j2 := j1 + 1 in
        let j := if (j2 <? n) && Less h j2 j1 then j2 else j1 in
        if negb (Less h j i) then (h, i) else downLoop fuel (swap i j h) j n
  end.
Definition down (h : list A) (i0 n : nat) : list A * bool :=
  let '(h, i) := downLoop n h i0 n in (h, i0 <? i).

Definition Push (h : list A) (x : A) : list A := let h := h ++ [x] in up (length h) h (length h - 1).
(** The heap and the element that [Pop] returns *)
Definition dropLast (h : list A) : list A * A := (take (length h - 1) h, h !!! (length h - 1)).
Definition Pop (h : list A) : list A * A :=
  let n := length h - 1 in
  dropLast (down (swap 0 n h) 0 n).1.
Definition Remove (h : list A) (i : nat) : list A * A :=
  let n := length h - 1 in
  dropLast (if n =? i then h
            else let '(h, moved) := down (swap i n h) i n in if moved then h else up (length h) h i).
Definition Fix (h : list A) (i : nat) : list A :=
  let '(h, moved) := down h i (length h) in if moved then h else up (length h) h i.

(** ** Swapping *)
Lemma swap_length i j h : length (swap i j h) = length h.
Proof. unfold swap. by rewrite !length_insert. Qed.
Lemma swap_lookup i j h k : i < length h -> j < length h ->
  swap i j h !!! k = if k =? i then h !!! j else if k =? j then h !!! i else h !!! k.
Proof.
  intros Hi Hj. unfold swap. destruct (Nat.eqb_spec k i) as [->|Hki].
  - apply list_lookup_total_insert_eq. by rewrite length_insert.
  - rewrite list_lookup_total_insert_ne by done. destruct (Nat.eqb_spec k j) as [->|Hkj]; [by apply list_lookup_total_insert_eq|].
    by rewrite list_lookup_total_insert_ne.
Qed.
Lemma heap_swap_perm i j h : i < length h -> j < length h -> swap i j h ≡ₚ h.
Proof.
  intros Hi Hj. apply Permutation_insert_swap; by apply list_lookup_lookup_total_lt.
Qed.

(** ** The heap property *)
Definition parent (k : nat) : nat := (k - 1) / 2.
Definition fine (h : list A) (k : nat) : Prop := (key (h !!! parent k) <= key (h !!! k))%Z.
(** The first [n] elements *)
Definition isHeap (h : list A) (n : nat) : Prop := forall k, 0 < k < n -> fine h k.
(** The children of [i] are not before its parent. *)
Definition bridged (h : list A) (n i : nat) : Prop := forall k, 0 < k < n -> 0 < i -> parent k = i -> (key (h !!! parent i) <= key (h !!! k))%Z.
(** Only [j] can be before its parent. *)
Definition upPre (h : list A) (n j : nat) : Prop := (forall k, 0 < k < n -> k <> j -> fine h k) /\ bridged h n j.
(** Only the children of [i] can be before it, and [i] before its parent unless [strict]. *)
Definition downPre (strict : Prop) (h : list A) (n i : nat) : Prop :=
  (forall k, 0 < k < n -> parent k <> i -> (k <> i \/ strict) -> fine h k) /\ bridged h n i.
(** The same elements, and nothing is changed from [n] on *)
Definition keeps (h h' : list A) (n : nat) : Prop := h' ≡ₚ h /\ forall k, n <= k -> h' !!! k = h !!! k.

Lemma heap_keeps_refl h n : keeps h h n.
Proof. done. Qed.
Lemma keeps_swap h h' i j n : i < n -> j < n -> n <= length h -> keeps (swap i j h) h' n -> keeps h h' n.
Proof.
  intros Hi Hj Hn [P E]. split; [rewrite P; apply heap_swap_perm; lia|]. intros k Hk. rewrite E by done. rewrite swap_lookup by lia.
  destruct (Nat.eqb_spec k i), (Nat.eqb_spec k j); lia || done.
Qed.
Lemma parent_lt k : 0 < k -> parent k < k.
Proof. unfold parent. intros. apply Nat.Div0.div_lt_upper_bound. lia. Qed.
Lemma parent_child k i : 0 < k -> parent k = i -> k = 2 * i + 1 \/ k = 2 * i + 2.
Proof. unfold parent. intros Hk <-. pose proof (Nat.div_mod (k - 1) 2 ltac:(lia)). pose proof (Nat.mod_upper_bound (k - 1) 2 ltac:(lia)). lia. Qed.
Lemma parent_left i : parent (2 * i + 1) = i.
Proof. unfold parent. replace (2 * i + 1 - 1) with (i * 2) by lia. by rewrite Nat.div_mul. Qed.
Lemma parent_right i : parent (2 * i + 2) = i.
Proof. unfold parent. replace (2 * i + 2 - 1) with (1 + i * 2) by lia. rewrite Nat.div_add by lia. done. Qed.

Lemma up_heap fuel : forall h n j, j < fuel -> j < n -> n <= length h -> upPre h n j -> isHeap (up fuel h j) n /\ keeps h (up fuel h j) n.
Proof.
  induction fuel as [|fuel IH]; intros h n j Hf Hj Hn [U1 U2]; [lia|]. cbn [up]. fold (parent j).
  destruct (Nat.eqb_spec (parent j) j) as [Hp|Hp].
  - assert (j = 0) as -> by (destruct (decide (0 < j)) as [H0|]; [pose proof (parent_lt j H0); lia|lia]).
    split; [|apply heap_keeps_refl]. intros k Hk. apply U1; lia.
  - assert (H0 : 0 < j) by (destruct j; [by unfold parent in Hp|lia]). pose proof (parent_lt j H0) as Hlt.
    unfold Less. destruct (Z.ltb_spec (key (h !!! j)) (key (h !!! parent j))) as [Hx|Hx]; cbn [negb orb].
    2:{ split; [|apply heap_keeps_refl]. intros k Hk. destruct (decide (k = j)) as [->|]; [done|by apply U1]. }
    set (i := parent j) in *. assert (S' : forall k, swap i j h !!! k = if k =? i then h !!! j else if k =? j then h !!! i else h !!! k) by (intros k; apply swap_lookup; lia).
    destruct (IH (swap i j h) n i) as [I1 I2]; [lia|lia|by rewrite swap_length| |split; [done|by eapply (keeps_swap h _ i j); [lia|lia|lia|]]].
    split.
    + intros k Hk Hki. unfold fine. rewrite !S'. destruct (Nat.eqb_spec k i); [done|]. destruct (Nat.eqb_spec k j) as [->|Hkj].
      * fold i. rewrite Nat.eqb_refl. lia.
      * destruct (Nat.eqb_spec (parent k) i) as [Hpk|Hpk]; [pose proof (U1 k ltac:(lia) Hkj) as F; unfold fine in F; rewrite Hpk in F; lia|].
        destruct (Nat.eqb_spec (parent k) j) as [Hpk2|Hpk2]; [by apply U2|]. by apply U1.
    + intros k Hk Hi Hpk. pose proof (parent_lt i Hi). rewrite !S'. destruct (Nat.eqb_spec (parent i) i); [lia|]. destruct (Nat.eqb_spec (parent i) j); [lia|].
      pose proof (U1 i ltac:(lia) ltac:(lia)) as F. unfold fine in F. destruct (Nat.eqb_spec k i); [subst k; pose proof (parent_lt i Hi); lia|].
      destruct (Nat.eqb_spec k j); [done|]. pose proof (U1 k ltac:(lia) ltac:(lia)) as F2. unfold fine in F2. rewrite Hpk in F2. lia.
Qed.

Lemma down_heap fuel : forall h n i strict, n <= fuel + i -> i < n -> n <= length h -> downPre strict h n i ->
  let '(h', i') := downLoop fuel h i n in
  i <= i' /\ keeps h h' n /\ (strict \/ i' <> i -> isHeap h' n) /\ (i' = i -> h' = h /\ upPre h n i).
Proof.
  induction fuel as [|fuel IH]; intros h n i strict Hf Hi Hn [D1 D2].
  { lia. }
  cbn [downLoop]. set (j1 := 2 * i + 1).
  (** nothing to do *)
  assert (Stop : (forall k, 0 < k < n -> parent k = i -> fine h k) ->
    i <= i /\ keeps h h n /\ (strict \/ i <> i -> isHeap h n) /\ (i = i -> h = h /\ upPre h n i)).
  { intros Hc. split_and!; [done|done| |].
    - intros [Hs|]; [|done]. intros k Hk. destruct (decide (parent k = i)); [by apply Hc|]. apply D1; auto.
    - intros _. split; [done|]. split; [|done]. intros k Hk Hki. destruct (decide (parent k = i)); [by apply Hc|]. apply D1; auto. }
  destruct (Nat.leb_spec n j1) as [H1|H1].
  { apply Stop. intros k Hk Hp. destruct (parent_child k i ltac:(lia) Hp); lia. }
  set (j := if (j1 + 1 <? n) && Less h (j1 + 1) j1 then j1 + 1 else j1).
  assert (Hj : j < n /\ parent j = i /\ i < j /\ forall k, 0 < k < n -> parent k = i -> (key (h !!! j) <= key (h !!! k))%Z).
  { unfold j, Less. destruct (Nat.ltb_spec (j1 + 1) n) as [H2|H2]; cbn [andb].
    - destruct (Z.ltb_spec (key (h !!! (j1 + 1))) (key (h !!! j1)));
        [split_and!; [lia|replace (j1 + 1) with (2 * i + 2) by lia; apply parent_right|lia|]|split_and!; [lia|apply parent_left|lia|]].
      + intros k Hk Hp. destruct (parent_child k i ltac:(lia) Hp) as [->| ->]; [fold j1; lia|replace (2 * i + 2) with (j1 + 1) by lia; lia].
      + intros k Hk Hp. destruct (parent_child k i ltac:(lia) Hp) as [->| ->]; [fold j1; lia|replace (2 * i + 2) with (j1 + 1) by lia; lia].
    - split_and!; [lia|apply parent_left|lia|]. intros k Hk Hp. destruct (parent_child k i ltac:(lia) Hp) as [->| ->]; [fold j1; lia|lia]. }
  clearbody j. destruct Hj as (Hjn & Hpj & Hij & Hmin). unfold Less.
  destruct (Z.ltb_spec (key (h !!! j)) (key (h !!! i))) as [Hx|Hx]; cbn [negb].
  2:{ apply Stop. intros k Hk Hp. unfold fine. rewrite Hp. specialize (Hmin k Hk Hp). lia. }
  assert (S' : forall k, swap i j h !!! k = if k =? i then h !!! j else if k =? j then h !!! i else h !!! k) by (intros k; apply swap_lookup; lia).
  specialize (IH (swap i j h) n j True ltac:(lia) Hjn). rewrite swap_length in IH. specialize (IH Hn).
  assert (D' : downPre True (swap i j h) n j).
  { split.
    - intros k Hk Hpk _. unfold fine. rewrite !S'. destruct (Nat.eqb_spec k i) as [->|Hki].
      + pose proof (parent_lt i ltac:(lia)). destruct (Nat.eqb_spec (parent i) i); [lia|]. destruct (Nat.eqb_spec (parent i) j); [lia|]. apply D2; [lia|lia|done].
      + destruct (Nat.eqb_spec k j) as [->|Hkj].
        * rewrite Hpj, Nat.eqb_refl. lia.
        * destruct (Nat.eqb_spec (parent k) i) as [Hp|Hp]; [by apply Hmin|]. destruct (Nat.eqb_spec (parent k) j); [done|]. apply D1; auto.
    - intros k Hk _ Hpk. rewrite !S', Hpj, Nat.eqb_refl. assert (j < k) by (rewrite <-Hpk; apply parent_lt; lia).
      destruct (Nat.eqb_spec k i); [lia|]. destruct (Nat.eqb_spec k j); [lia|]. pose proof (D1 k Hk ltac:(lia) ltac:(left; lia)) as F. unfold fine in F. by rewrite Hpk in F. }
  specialize (IH D'). destruct (downLoop fuel (swap i j h) j n) as [h' i']. destruct IH as (I1 & I2 & I3 & _).
  split_and!; [lia|by eapply (keeps_swap h h' i j); [lia|lia|lia|]|intros _; apply I3; by left|lia].
Qed.

(** ** The operations *)
(** [Fix]: the key of the element at [i] has changed. *)
Definition brokenAt (h : list A) (n i : nat) : Prop := downPre False h n i.
Lemma fix_heap h n i : i < n -> n <= length h -> brokenAt h n i ->
  let '(h', moved) := down h i n in
  let h2 := if moved then h' else up (length h') h' i in isHeap h2 n /\ keeps h h2 n.
Proof.
  intros Hi Hn B. unfold down. pose proof (down_heap n h n i False ltac:(lia) Hi Hn B) as D. destruct (downLoop n h i n) as [h' i'].
  destruct D as (D1 & D2 & D3 & D4). destruct (Nat.ltb_spec i i') as [Hm|Hm].
  - split; [apply D3; right; lia|done].
  - destruct (D4 ltac:(lia)) as [-> U]. apply up_heap; [lia|lia|lia|done].
Qed.
Lemma heap_bridged h n i : isHeap h n -> i < n -> bridged h n i.
Proof.
  intros Hh Hi k Hk H0 Hp. pose proof (Hh k Hk) as F1. pose proof (Hh i ltac:(lia)) as F2. unfold fine in F1, F2. rewrite Hp in F1. lia.
Qed.
Lemma Push_heap h x : isHeap h (length h) -> isHeap (Push h x) (length (Push h x)) /\ Push h x ≡ₚ h ++ [x].
Proof.
  intros Hh. unfold Push. set (h1 := h ++ [x]). assert (Hl : length h1 = S (length h)) by (unfold h1; rewrite length_app; simpl; lia).
  destruct (up_heap (length h1) h1 (length h1) (length h1 - 1)) as [I1 [I2 _]]; [lia|lia|lia| |].
  - assert (L : forall k, k < length h -> h1 !!! k = h !!! k) by (intros k Hk; unfold h1; by rewrite lookup_total_app_l). split.
    + intros k Hk Hne. pose proof (parent_lt k ltac:(lia)). unfold fine. rewrite !L by lia. apply Hh. lia.
    + intros k Hk H0 Hp. destruct (parent_child k _ ltac:(lia) Hp); lia.
  - split; [|done]. by rewrite (Permutation_length I2).
Qed.
Lemma dropLast_spec h n x : n = length h - 1 -> 0 < length h -> isHeap h n -> h !!! n = x -> isHeap (dropLast h).1 (length (dropLast h).1)
  /\ (dropLast h).2 = x /\ h ≡ₚ x :: (dropLast h).1.
Proof.
  intros -> Hl Hh Hx. unfold dropLast. simpl. split_and!.
  - rewrite length_take, Nat.min_l by lia. intros k Hk. pose proof (parent_lt k ltac:(lia)). unfold fine.
    rewrite !lookup_total_take, !decide_True by lia. by apply Hh.
  - done.
  - rewrite <-(take_drop_middle h (length h - 1) x) at 1 by (rewrite <-Hx; apply list_lookup_lookup_total_lt; lia).
    rewrite drop_ge by lia. by rewrite <-Permutation_cons_append.
Qed.
Lemma Pop_heap h : isHeap h (length h) -> 0 < length h ->
  isHeap (Pop h).1 (length (Pop h).1) /\ (Pop h).2 = h !!! 0 /\ h ≡ₚ h !!! 0 :: (Pop h).1.
Proof.
  intros Hh Hl. unfold Pop. set (n := length h - 1). set (h1 := swap 0 n h).
  assert (S' : forall k, h1 !!! k = if k =? 0 then h !!! n else if k =? n then h !!! 0 else h !!! k) by (intros k; apply swap_lookup; lia).
  assert (L1 : length h1 = length h) by apply swap_length.
  assert (K : isHeap (down h1 0 n).1 n /\ keeps h1 (down h1 0 n).1 n).
  { destruct (decide (n = 0)) as [->|Hn]; [by split; [intros k Hk; lia|]|].
    pose proof (down_heap n h1 n 0 True ltac:(lia) ltac:(lia) ltac:(lia)) as D. unfold down. destruct (downLoop n h1 0 n) as [h' i'].
    destruct D as (_ & D2 & D3 & _); [|split; [apply D3; by left|done]]. split; [|intros k Hk H0; lia].
    intros k Hk Hp _. unfold fine. rewrite !S'. destruct (Nat.eqb_spec k 0), (Nat.eqb_spec k n), (Nat.eqb_spec (parent k) 0); try lia.
    pose proof (parent_lt k ltac:(lia)). destruct (Nat.eqb_spec (parent k) n); [lia|]. apply Hh. lia. }
  destruct K as [K1 [K2 K3]]. pose proof (Permutation_length K2) as KL.
  destruct (dropLast_spec (down h1 0 n).1 n (h !!! 0)) as (E1 & E2 & E3); [lia|lia|done| |].
  - rewrite K3, S', Nat.eqb_refl by done. destruct (Nat.eqb_spec n 0) as [->|]; done.
  - split_and!; [done|done|]. rewrite <-E3, K2. symmetry. apply heap_swap_perm; lia.
Qed.
(** The element that is removed need not be in order. *)
Lemma Remove_heap h i : brokenAt h (length h) i -> i < length h ->
  isHeap (Remove h i).1 (length (Remove h i).1) /\ (Remove h i).2 = h !!! i /\ h ≡ₚ h !!! i :: (Remove h i).1.
Proof.
  intros [B1 B2] Hi. unfold Remove. set (n := length h - 1). destruct (Nat.eqb_spec n i) as [Hn|Hn].
  - destruct (dropLast_spec h n (h !!! i)) as (E1 & E2 & E3); [done|lia| |by rewrite Hn|by split_and!].
    intros k Hk. pose proof (parent_lt k ltac:(lia)). apply B1; [lia|lia|left; lia].
  - set (h1 := swap i n h).
    assert (S' : forall k, h1 !!! k = if k =? i then h !!! n else if k =? n then h !!! i else h !!! k) by (intros k; apply swap_lookup; lia).
    assert (L1 : length h1 = length h) by apply swap_length.
    pose proof (fix_heap h1 n i ltac:(lia) ltac:(lia)) as F.
    assert (B : brokenAt h1 n i).
    { split.
      - intros k Hk Hp [Hki|[]]. pose proof (parent_lt k ltac:(lia)). unfold fine. rewrite !S'. destruct (Nat.eqb_spec k i), (Nat.eqb_spec k n), (Nat.eqb_spec (parent k) i), (Nat.eqb_spec (parent k) n); try lia.
        apply B1; [lia|done|by left].
      - intros k Hk H0 Hp. pose proof (parent_lt i ltac:(lia)). rewrite !S'. destruct (Nat.eqb_spec k i) as [->|]; [lia|].
        destruct (Nat.eqb_spec k n), (Nat.eqb_spec (parent i) i), (Nat.eqb_spec (parent i) n); try lia. apply B2; [lia|lia|done]. }
    specialize (F B). destruct (down h1 i n) as [h' moved]. cbn zeta in F. set (h2 := if moved then h' else up (length h') h' i) in *.
    destruct F as [F1 [F2 F3]]. pose proof (Permutation_length F2) as FL.
    destruct (dropLast_spec h2 n (h !!! i)) as (E1 & E2 & E3); [lia|lia|done| |].
    + rewrite F3, S' by done. destruct (Nat.eqb_spec n i); [done|]. by rewrite Nat.eqb_refl.
    + split_and!; [done|done|]. rewrite <-E3, F2. symmetry. apply heap_swap_perm; lia.
Qed.
Lemma Fix_heap h i : brokenAt h (length h) i -> i < length h -> isHeap (Fix h i) (length (Fix h i)) /\ Fix h i ≡ₚ h.
Proof.
  intros B Hi. unfold Fix. pose proof (fix_heap h (length h) i Hi ltac:(lia) B) as F. destruct (down h i (length h)) as [h' moved].
  destruct F as [F1 [F2 _]]. split; [|done]. by rewrite (Permutation_length F2).
Qed.
(** The root is the least element. *)
Lemma root_least h n : isHeap h n -> forall k, k < n -> (key (h !!! 0%nat) <= key (h !!! k))%Z.
Proof.
  intros Hh k. induction (lt_wf k) as [k _ IH]. intros Hk. destruct (decide (k = 0)) as [->|Hk0]; [done|].
  pose proof (parent_lt k ltac:(lia)) as Hp. pose proof (Hh k ltac:(lia)) as F. unfold fine in F. specialize (IH (parent k) Hp ltac:(lia)). lia.
Qed.
End heap.
