(* ===== verification/AddrBook.v ===== *)
(** * The address book (p2p/host/peerstore/pstoremem/addr_book.go)

    Addresses with their time to live, the heap of those that expire, signed
    records, and the streams of new addresses.  An entry is named by its peer and
    the bytes of its address; its [heapIndex], which [Swap], [Push] and [Pop] keep
    equal to its position, is that position ([None] is -1). *)
From Stdlib Require Import ZArith Lia.
From stdpp Require Import base tactics list numbers option gmap sets fin_maps.
From S2P Require Import Prelude GoBytes Varint MaProtocol MaComponent MaCodec MaOps MaProtocols BlsRpc GoHeap.
Local Open Scope Z_scope.

Definition PermanentAddrTTL : Z := Int64.MaxInt64.
Definition ConnectedAddrTTL : Z := Int64.MaxInt64 - 1.

Abbreviation akey := (PeerID * bytes)%type.
Record expiringAddr := mkEA { ea_Addr : Multiaddr; ea_TTL : Z; ea_Expiry : Z }.
Definition ttlIsConnected (ttl : Z) : bool := ConnectedAddrTTL <=? ttl.
Definition IsConnected (e : expiringAddr) : bool := ttlIsConnected (ea_TTL e).
Definition ExpiredBy (e : expiringAddr) (t : Z) : bool := negb (t <? ea_Expiry e).

(** [peer.SplitAddr]; a nil address is empty *)
Definition SplitAddr (m : Multiaddr) : Multiaddr * PeerID :=
  match m with
  | [] => ([], [])
  | _ =>
      let '(transport, p2ppart) := SplitLast m in
      match p2ppart with
      | None => (m, [])
      | Some c =>
          if negb (Code (Component_Protocol (Some c)) =? P_P2P) then (m, [])
          else (transport, match RawValue (Some c) with Ok id => id | _ => [] end)
      end
  end.

(** ** The addresses and their heap *)
Record peerAddrs := mkPA { Addrs : gmap PeerID (gmap bytes expiringAddr); expiringHeap : list akey }.
Definition entry (pa : peerAddrs) (k : akey) : option expiringAddr := m ← Addrs pa !! k.1; m !! k.2.
Definition expiry (pa : peerAddrs) (k : akey) : Z := default 0 (ea_Expiry <$> entry pa k).
Definition heapIndex (pa : peerAddrs) (k : akey) : option nat := fst <$> list_find (k =.) (expiringHeap pa).
Definition FindAddr (pa : peerAddrs) (p : PeerID) (addr : Multiaddr) : option expiringAddr := entry pa (p, Bytes addr).

(** The write to a field of an entry *)
Definition putEntry (m : gmap PeerID (gmap bytes expiringAddr)) (k : akey) (e : expiringAddr) : gmap PeerID (gmap bytes expiringAddr) :=
  <[k.1 := <[k.2 := e]> (default ∅ (m !! k.1))]> m.
(** [delete(pa.Addrs[p], addr)], and the peer if nothing is left *)
Definition dropEntry (m : gmap PeerID (gmap bytes expiringAddr)) (k : akey) : gmap PeerID (gmap bytes expiringAddr) :=
  match m !! k.1 with
  | None => m
  | Some am => if bool_decide (delete k.2 am = ∅) then delete k.1 m else <[k.1 := delete k.2 am]> m
  end.

Definition DeleteAddr (pa : peerAddrs) (k : akey) : peerAddrs :=
  match entry pa k with
  | None => pa
  | Some _ =>
      let h := match heapIndex pa k with Some i => (Remove (expiry pa) (expiringHeap pa) i).1 | None => expiringHeap pa end in
      mkPA (dropEntry (Addrs pa) k) h
  end.
Definition PopIfExpired (pa : peerAddrs) (now : Z) : option (peerAddrs * akey) :=
  match expiringHeap pa with
  | [] => None
  | k0 :: _ =>
      if now <? expiry pa k0 then None
      else let '(h, k) := Pop (expiry pa) (expiringHeap pa) in Some (mkPA (dropEntry (Addrs pa) k) h, k)
  end.
(** After the fields of the entry have changed *)
Definition UpdateAddr (pa : peerAddrs) (k : akey) (e : expiringAddr) : peerAddrs :=
  let pa := mkPA (putEntry (Addrs pa) k e) (expiringHeap pa) in
  match heapIndex pa k with
  | None => pa
  | Some i =>
      if IsConnected e then mkPA (Addrs pa) (Remove (expiry pa) (expiringHeap pa) i).1
      else mkPA (Addrs pa) (Fix (expiry pa) (expiringHeap pa) i)
  end.
Definition InsertAddr (pa : peerAddrs) (k : akey) (e : expiringAddr) : peerAddrs :=
  let pa := mkPA (putEntry (Addrs pa) k e) (expiringHeap pa) in
  if IsConnected e then pa else mkPA (Addrs pa) (Push (expiry pa) (expiringHeap pa) k).
Definition NumUnconnectedAddrs (pa : peerAddrs) : Z := Z.of_nat (length (expiringHeap pa)).

(** ** The book *)
Section book.
Context {Envelope : Type}.
Record memoryAddrBook := mkBook {
  addrs : peerAddrs;
  signedPeerRecords : gmap PeerID (Envelope * Z);
  maxUnconnectedAddrs : Z; maxSignedPeerRecords : Z }.
Definition defaultMaxSignedPeerRecords : Z := 100000.
Definition defaultMaxUnconnectedAddrs : Z := 1000000.
Definition NewAddrBook (maxU maxS : Z) : memoryAddrBook := mkBook (mkPA ∅ []) ∅ maxU maxS.
Definition set_addrs (b : memoryAddrBook) (pa : peerAddrs) : memoryAddrBook := mkBook pa (signedPeerRecords b) (maxUnconnectedAddrs b) (maxSignedPeerRecords b).
Definition set_records (b : memoryAddrBook) (m : gmap PeerID (Envelope * Z)) : memoryAddrBook := mkBook (addrs b) m (maxUnconnectedAddrs b) (maxSignedPeerRecords b).

Definition maybeDeleteSignedPeerRecordUnlocked (b : memoryAddrBook) (p : PeerID) : memoryAddrBook :=
  match Addrs (addrs b) !! p with
  | None => set_records b (delete p (signedPeerRecords b))
  | Some am => if bool_decide (am = ∅) then set_records b (delete p (signedPeerRecords b)) else b
  end.

(** The loop of [gc]: every round takes one address from the heap *)
Fixpoint gcLoop (fuel : nat) (b : memoryAddrBook) (now : Z) : memoryAddrBook :=
  match fuel with
  | O => b
  | S fuel =>
      match PopIfExpired (addrs b) now with
      | None => b
      | Some (pa, k) => gcLoop fuel (maybeDeleteSignedPeerRecordUnlocked (set_addrs b pa) k.1) now
      end
  end.
Definition gcBook (b : memoryAddrBook) (now : Z) : memoryAddrBook := gcLoop (length (expiringHeap (addrs b))) b now.

(** An address for the peer [p], without its [/p2p] part: [None] if it is skipped *)
Definition acceptAddr (p : PeerID) (a : Multiaddr) : option Multiaddr :=
  let '(addr, addrPid) := SplitAddr a in
  match addr with
  | [] => None
  | _ => if negb (bool_decide (addrPid = [])) && negb (bool_decide (addrPid = p)) then None else Some addr
  end.
Definition full (b : memoryAddrBook) : bool := maxUnconnectedAddrs b <=? NumUnconnectedAddrs (addrs b).

(** With the addresses that are broadcast *)
Abbreviation result := (memoryAddrBook * list Multiaddr)%type.
Definition addStep (p : PeerID) (ttl exp : Z) (r : result) (a : Multiaddr) : result :=
  match acceptAddr p a with
  | None => r
  | Some addr =>
      match FindAddr (addrs r.1) p addr with
      | None => (set_addrs r.1 (InsertAddr (addrs r.1) (p, Bytes addr) (mkEA addr ttl exp)), r.2 ++ [addr])
      | Some e =>
          let e' := mkEA (ea_Addr e) (if ea_TTL e <? ttl then ttl else ea_TTL e) (if ea_Expiry e <? exp then exp else ea_Expiry e) in
          if (ea_TTL e <? ttl) || (ea_Expiry e <? exp) then (set_addrs r.1 (UpdateAddr (addrs r.1) (p, Bytes addr) e'), r.2) else r
      end
  end.
Definition addAddrsUnlocked (b : memoryAddrBook) (now : Z) (p : PeerID) (l : list Multiaddr) (ttl : Z) : result :=
  let '(b, out) :=
    if ttl <=? 0 then (b, [])
    else if negb (ttlIsConnected ttl) && full b then (b, [])
    else foldl (addStep p ttl (now + ttl)) (b, []) l in
  (maybeDeleteSignedPeerRecordUnlocked b p, out).
Definition AddAddrs : memoryAddrBook -> Z -> PeerID -> list Multiaddr -> Z -> result := addAddrsUnlocked.

Definition setStep (p : PeerID) (ttl exp : Z) (r : result) (a : Multiaddr) : result :=
  match acceptAddr p a with
  | None => r
  | Some addr =>
      let k := (p, Bytes addr) in
      match FindAddr (addrs r.1) p addr with
      | Some e =>
          if 0 <? ttl then
            if IsConnected e && negb (ttlIsConnected ttl) && full r.1 then (set_addrs r.1 (DeleteAddr (addrs r.1) k), r.2)
            else (set_addrs r.1 (UpdateAddr (addrs r.1) k (mkEA addr ttl exp)), r.2 ++ [addr])
          else (set_addrs r.1 (DeleteAddr (addrs r.1) k), r.2)
      | None =>
          if 0 <? ttl then
            if negb (ttlIsConnected ttl) && full r.1 then r
            else (set_addrs r.1 (InsertAddr (addrs r.1) k (mkEA addr ttl exp)), r.2 ++ [addr])
          else r
      end
  end.
Definition SetAddrs (b : memoryAddrBook) (now : Z) (p : PeerID) (l : list Multiaddr) (ttl : Z) : result :=
  let '(b, out) := foldl (setStep p ttl (now + ttl)) (b, []) l in
  (maybeDeleteSignedPeerRecordUnlocked b p, out).

(** [order]: the order of the range over the addresses of the peer *)
Definition updateStep (p : PeerID) (oldTTL newTTL exp : Z) (b : memoryAddrBook) (a : bytes) : memoryAddrBook :=
  match entry (addrs b) (p, a) with
  | None => b
  | Some e =>
      if oldTTL =? ea_TTL e then
        if newTTL =? 0 then set_addrs b (DeleteAddr (addrs b) (p, a))
        else if ttlIsConnected oldTTL && negb (ttlIsConnected newTTL) && full b then set_addrs b (DeleteAddr (addrs b) (p, a))
        else set_addrs b (UpdateAddr (addrs b) (p, a) (mkEA (ea_Addr e) newTTL exp))
      else b
  end.
Definition addrsOf (b : memoryAddrBook) (p : PeerID) : gmap bytes expiringAddr := default ∅ (Addrs (addrs b) !! p).
Definition UpdateAddrs (order : gset bytes -> list bytes) (b : memoryAddrBook) (now : Z) (p : PeerID) (oldTTL newTTL : Z) : memoryAddrBook :=
  maybeDeleteSignedPeerRecordUnlocked (foldl (updateStep p oldTTL newTTL (now + newTTL)) b (order (dom (addrsOf b p)))) p.
Definition ClearAddrs (order : gset bytes -> list bytes) (b : memoryAddrBook) (p : PeerID) : memoryAddrBook :=
  let b := set_records b (delete p (signedPeerRecords b)) in
  foldl (fun b a => set_addrs b (DeleteAddr (addrs b) (p, a))) b (order (dom (addrsOf b p))).

(** What the envelope contains, if it can be opened: a peer record whose peer matches the signing key, or not *)
Record peerRecord := mkPeerRecord { rec_PeerID : PeerID; rec_Seq : Z; rec_Addrs : list Multiaddr; rec_match : bool }.
Definition ConsumePeerRecord (b : memoryAddrBook) (now : Z) (env : Envelope) (r : option peerRecord) (ttl : Z) : result * option bool :=
  match r with
  | None => ((b, []), None)
  | Some rec =>
      if negb (rec_match rec) then ((b, []), None)
      else
        let lastState := signedPeerRecords b !! rec_PeerID rec in
        match lastState with
        | Some (_, seq) =>
            if rec_Seq rec <? seq then ((b, []), Some false)
            else (addAddrsUnlocked (set_records b (<[rec_PeerID rec := (env, rec_Seq rec)]> (signedPeerRecords b))) now (rec_PeerID rec) (rec_Addrs rec) ttl, Some true)
        | None =>
            if maxSignedPeerRecords b <=? Z.of_nat (size (signedPeerRecords b)) then ((b, []), None)
            else (addAddrsUnlocked (set_records b (<[rec_PeerID rec := (env, rec_Seq rec)]> (signedPeerRecords b))) now (rec_PeerID rec) (rec_Addrs rec) ttl, Some true)
        end
  end.

(** ** Reading *)
Definition validAddrs (now : Z) (am : gmap bytes expiringAddr) : list Multiaddr :=
  ea_Addr ∘ snd <$> filter (fun ae => ExpiredBy ae.2 now = false) (map_to_list am).
Definition AddrsOf (b : memoryAddrBook) (now : Z) (p : PeerID) : list Multiaddr :=
  match Addrs (addrs b) !! p with None => [] | Some am => validAddrs now am end.
Definition GetPeerRecord (b : memoryAddrBook) (now : Z) (p : PeerID) : option Envelope :=
  match Addrs (addrs b) !! p with
  | None => None
  | Some am => match validAddrs now am with [] => None | _ => fst <$> signedPeerRecords b !! p end
  end.
Definition PeersWithAddrs (b : memoryAddrBook) : gset PeerID := dom (Addrs (addrs b)).
End book.
Arguments memoryAddrBook : clear implicits.

(** ** The stream of addresses of a peer: the goroutine of [AddrStream] *)
Record addrStream := mkStream { st_sent : gset bytes; st_next : option Multiaddr; st_buffer : list Multiaddr; st_out : list Multiaddr (** delivered *) }.
(** [initial] is sorted before. *)
Definition startStream (initial : list Multiaddr) : addrStream :=
  mkStream (list_to_set (Bytes <$> initial)) (head initial) (tail initial) [].
(** [case outch <- next] *)
Definition deliver (s : addrStream) : option addrStream :=
  match st_next s with
  | None => None
  | Some a => Some (mkStream (st_sent s) (head (st_buffer s)) (tail (st_buffer s)) (st_out s ++ [a]))
  end.
(** [case naddr := <-sub.pubch] *)
Definition publish (s : addrStream) (a : Multiaddr) : addrStream :=
  if bool_decide (Bytes a ∈ st_sent s) then s
  else
    let sent := {[Bytes a]} ∪ st_sent s in
    match st_next s with
    | None => mkStream sent (Some a) (st_buffer s) (st_out s)
    | Some n => mkStream sent (Some n) (st_buffer s ++ [a]) (st_out s)
    end.
