(* ===== verification/AddrBookInv.v ===== *)
(** * What the address book keeps

    The heap holds entries that are not connected, each once and in heap order; a
    peer in the table has an address; only peers with addresses have a signed
    record. *)
From Stdlib Require Import ZArith Lia.
From stdpp Require Import base tactics list numbers option gmap sets fin_maps.
From S2P Require Import Prelude GoBytes Varint MaProtocol MaComponent MaCodec MaOps MaProtocols BlsRpc GoHeap AddrBook.
Local Open Scope Z_scope.

(** ** Heaps under a change of the keys *)
Section keys.
Context {A : Type} `{Inhabited A}.
Lemma total_elem (h : list A) k : (k < length h)%nat -> h !!! k ∈ h.
Proof. intros Hk. apply (list_elem_of_lookup_2 _ k). by apply list_lookup_lookup_total_lt. Qed.
Lemma isHeap_ext (f g : A -> Z) (h : list A) : (forall x, x ∈ h -> f x = g x) -> isHeap f h (length h) -> isHeap g h (length h).
Proof.
  intros E Hh k Hk. pose proof (parent_lt k ltac:(lia)). unfold fine. rewrite <-!E by (apply total_elem; lia). by apply Hh.
Qed.
Lemma total_inj (h : list A) i j : NoDup h -> (i < length h)%nat -> (j < length h)%nat -> h !!! i = h !!! j -> i = j.
Proof.
  intros Hn Hi Hj E. eapply (NoDup_lookup h i j (h !!! i)); [done|by apply list_lookup_lookup_total_lt|]. rewrite E. by apply list_lookup_lookup_total_lt.
Qed.
Lemma isHeap_broken (f g : A -> Z) (h : list A) i : NoDup h -> (i < length h)%nat -> (forall x, x ∈ h -> x <> h !!! i -> f x = g x) ->
  isHeap f h (length h) -> brokenAt g h (length h) i.
Proof.
  intros Hn Hi E Hh. assert (Q : forall k, (k < length h)%nat -> k <> i -> f (h !!! k) = g (h !!! k)).
  { intros k Hk Hki. apply E; [by apply total_elem|]. intros Ek. by apply Hki, (total_inj h). }
  split.
  - intros k Hk Hp [Hki|[]]. pose proof (parent_lt k ltac:(lia)). unfold fine. rewrite <-!Q by lia. by apply Hh.
  - intros k Hk H0 Hp. pose proof (parent_lt k ltac:(lia)). pose proof (parent_lt i H0). rewrite <-!Q by lia.
    pose proof (Hh k Hk) as F1. pose proof (Hh i ltac:(lia)) as F2. unfold fine in F1, F2. rewrite Hp in F1. lia.
Qed.
End keys.

(** ** Entries *)
Lemma entry_put m h k e h' k' : entry (mkPA (putEntry m k e) h) k' = if decide (k' = k) then Some e else entry (mkPA m h') k'.
Proof.
  destruct k as [p a], k' as [p' a']. unfold entry, putEntry. cbn [fst snd Addrs]. destruct (decide (p' = p)) as [->|Hp].
  - rewrite lookup_insert_eq. cbn [mbind option_bind]. destruct (decide (a' = a)) as [->|Ha].
    + rewrite lookup_insert_eq, decide_True by done. done.
    + rewrite lookup_insert_ne, decide_False by congruence. by destruct (m !! p); simpl; rewrite ?lookup_empty.
  - rewrite lookup_insert_ne, decide_False by congruence. done.
Qed.
Lemma entry_drop m h k h' k' : entry (mkPA (dropEntry m k) h) k' = if decide (k' = k) then None else entry (mkPA m h') k'.
Proof.
  destruct k as [p a], k' as [p' a']. unfold entry, dropEntry. cbn [fst snd Addrs]. destruct (m !! p) as [am|] eqn:E.
  - destruct (decide (p' = p)) as [->|Hp].
    + destruct (decide (a' = a)) as [->|Ha].
      * rewrite decide_True by done. case_bool_decide; [by rewrite lookup_delete_eq|]. rewrite lookup_insert_eq. simpl. by rewrite lookup_delete_eq.
      * rewrite decide_False by congruence. rewrite E. case_bool_decide as Hd.
        -- rewrite lookup_delete_eq. simpl. rewrite <-(lookup_delete_ne am a a') by congruence. by rewrite Hd, lookup_empty.
        -- rewrite lookup_insert_eq. simpl. by rewrite lookup_delete_ne by congruence.
    + rewrite decide_False by congruence. case_bool_decide; [by rewrite lookup_delete_ne by congruence|by rewrite lookup_insert_ne by congruence].
  - destruct (decide ((p', a') = (p, a))) as [[= -> ->]|]; [by rewrite E|done].
Qed.
Lemma put_other m k e q : q <> k.1 -> putEntry m k e !! q = m !! q.
Proof. intros Hq. unfold putEntry. by rewrite lookup_insert_ne by congruence. Qed.
Lemma drop_other m k q : q <> k.1 -> dropEntry m k !! q = m !! q.
Proof. intros Hq. unfold dropEntry. destruct (m !! k.1); [|done]. case_bool_decide; [by rewrite lookup_delete_ne by congruence|by rewrite lookup_insert_ne by congruence]. Qed.

Definition noEmpty (m : gmap PeerID (gmap bytes expiringAddr)) : Prop := forall p am, m !! p = Some am -> am <> ∅.
Lemma put_noEmpty m k e : noEmpty m -> noEmpty (putEntry m k e).
Proof.
  intros N p am. unfold putEntry. destruct (decide (p = k.1)) as [->|]; [rewrite lookup_insert_eq; intros [= <-]; apply insert_non_empty|].
  rewrite lookup_insert_ne by congruence. apply N.
Qed.
Lemma drop_noEmpty m k : noEmpty m -> noEmpty (dropEntry m k).
Proof.
  intros N p am. unfold dropEntry. destruct (m !! k.1) as [am0|] eqn:E; [|apply N]. case_bool_decide as Hd.
  - rewrite lookup_delete_Some. intros [_ H]. by apply (N p).
  - destruct (decide (p = k.1)) as [->|]; [rewrite lookup_insert_eq; by intros [= <-]|]. rewrite lookup_insert_ne by congruence. apply N.
Qed.

(** ** The invariant of the addresses *)
Record paOk (pa : peerAddrs) : Prop := {
  pa_noEmpty : noEmpty (Addrs pa);
  pa_nodup : NoDup (expiringHeap pa);
  pa_entry k : k ∈ expiringHeap pa -> exists e, entry pa k = Some e /\ IsConnected e = false;
  pa_heap : isHeap (expiry pa) (expiringHeap pa) (length (expiringHeap pa)) }.

(** One entry changes to [o]; it is in the heap afterwards if [inHeap]. *)
Record changed (pa pa' : peerAddrs) (k : akey) (o : option expiringAddr) (inHeap : Prop) : Prop := {
  ch_ok : paOk pa';
  ch_entry k' : entry pa' k' = if decide (k' = k) then o else entry pa k';
  ch_other q : q <> k.1 -> Addrs pa' !! q = Addrs pa !! q;
  ch_heap k' : k' ∈ expiringHeap pa' <-> (if decide (k' = k) then inHeap else k' ∈ expiringHeap pa) }.

Lemma heapIndex_some pa k i : heapIndex pa k = Some i -> expiringHeap pa !! i = Some k.
Proof. unfold heapIndex. destruct (list_find (k =.) (expiringHeap pa)) as [[j x]|] eqn:E; [|done]. intros [= <-]. by apply list_find_Some in E as (? & <- & _). Qed.
Lemma heapIndex_none pa k : heapIndex pa k = None -> k ∉ expiringHeap pa.
Proof.
  unfold heapIndex. destruct (list_find (k =.) (expiringHeap pa)) as [[j x]|] eqn:E; [done|]. intros _ Hk. apply list_find_None in E.
  rewrite Forall_forall in E. by apply (E k).
Qed.
Lemma heap_index_total (h : list akey) i k : h !! i = Some k -> h !!! i = k /\ (i < length h)%nat.
Proof. intros Hi. split; [by apply list_lookup_total_correct|by eapply lookup_lt_Some]. Qed.

(** What is left of the heap when one element goes *)
Lemma removed_heap (h h' : list akey) k : NoDup h -> h ≡ₚ k :: h' -> NoDup h' /\ k ∉ h' /\ forall k', k' ∈ h' <-> k' ∈ h /\ k' <> k.
Proof.
  intros Hn P. rewrite P in Hn. apply NoDup_cons in Hn as [H1 H2]. split_and!; [done|done|]. intros k'. rewrite P, elem_of_cons. naive_solver.
Qed.

Lemma expiry_entry pa pa' k : entry pa' k = entry pa k -> expiry pa' k = expiry pa k.
Proof. unfold expiry. by intros ->. Qed.

Lemma dropped pa h' k : paOk pa -> (forall k', k' ∈ h' <-> k' ∈ expiringHeap pa /\ k' <> k) -> NoDup h' ->
  isHeap (expiry pa) h' (length h') -> changed pa (mkPA (dropEntry (Addrs pa) k) h') k None False.
Proof.
  intros [P1 P2 P3 P4] Hm Hn Hh. assert (E : forall k', entry (mkPA (dropEntry (Addrs pa) k) h') k' = if decide (k' = k) then None else entry pa k').
  { intros k'. rewrite (entry_drop _ _ _ (expiringHeap pa)). by destruct pa. }
  split.
  - split; cbn [Addrs expiringHeap].
    + by apply drop_noEmpty.
    + done.
    + intros k' [Hk' Hne]%Hm. rewrite E, decide_False by done. by apply P3.
    + eapply isHeap_ext; [|exact Hh]. intros k' [_ Hne]%Hm. symmetry. apply expiry_entry. by rewrite E, decide_False.
  - exact E.
  - intros q Hq. by apply drop_other.
  - intros k'. simpl. rewrite Hm. destruct (decide (k' = k)); naive_solver.
Qed.
Lemma DeleteAddr_ok pa k e : paOk pa -> entry pa k = Some e -> changed pa (DeleteAddr pa k) k None False.
Proof.
  intros O He. unfold DeleteAddr. rewrite He. destruct (heapIndex pa k) as [i|] eqn:Ei.
  - destruct (heap_index_total _ _ _ (heapIndex_some _ _ _ Ei)) as [Et Hi].
    assert (B : brokenAt (expiry pa) (expiringHeap pa) (length (expiringHeap pa)) i) by (apply (isHeap_broken (expiry pa)); [apply O|done|done|apply O]).
    destruct (Remove_heap (expiry pa) _ i B Hi) as (H1 & _ & H3). rewrite Et in H3.
    destruct (removed_heap _ _ _ (pa_nodup _ O) H3) as (N1 & _ & N3). by apply dropped.
  - apply heapIndex_none in Ei. apply dropped; [done| |apply O|apply O]. intros k'. split; [|naive_solver]. intros Hk. split; [done|]. by intros ->.
Qed.
Lemma PopIfExpired_some pa now pa' k : paOk pa -> PopIfExpired pa now = Some (pa', k) ->
  changed pa pa' k None False /\ k ∈ expiringHeap pa /\ expiry pa k <= now /\ length (expiringHeap pa) = S (length (expiringHeap pa')).
Proof.
  intros O. unfold PopIfExpired. destruct (expiringHeap pa) as [|k0 l] eqn:El; [done|]. rewrite <-El. destruct (Z.ltb_spec now (expiry pa k0)); [done|].
  assert (E0 : expiringHeap pa !!! 0%nat = k0) by (by rewrite El).
  destruct (Pop_heap (expiry pa) (expiringHeap pa) (pa_heap _ O)) as (H1 & H2 & H3); [rewrite El; simpl; lia|].
  destruct (Pop (expiry pa) (expiringHeap pa)) as [h kx]. simpl in *. intros [= <- <-]. rewrite E0 in H2, H3. subst kx.
  destruct (removed_heap _ _ _ (pa_nodup _ O) H3) as (N1 & _ & N3). split_and!.
  - by apply dropped.
  - rewrite El. by left.
  - done.
  - simpl. by rewrite (Permutation_length H3).
Qed.
Lemma PopIfExpired_none pa now k : paOk pa -> PopIfExpired pa now = None -> k ∈ expiringHeap pa -> now < expiry pa k.
Proof.
  intros O. unfold PopIfExpired. destruct (expiringHeap pa) as [|k0 l] eqn:El; [by intros _ ?%elem_of_nil|]. rewrite <-El.
  destruct (Z.ltb_spec now (expiry pa k0)); [|by destruct (Pop _ _)]. intros _ [i Hi]%list_elem_of_lookup.
  destruct (heap_index_total _ _ _ Hi) as [Et Hlt]. pose proof (root_least (expiry pa) _ _ (pa_heap _ O) i Hlt) as Hr. rewrite Et in Hr.
  assert (E0 : expiringHeap pa !!! 0%nat = k0) by (by rewrite El). rewrite E0 in Hr. lia.
Qed.

(** An entry is written; the heap is then repaired. *)
Lemma written pa h' k e : paOk pa -> NoDup h' -> (forall k', k' ∈ h' <-> (if decide (k' = k) then IsConnected e = false /\ k' ∈ h' else k' ∈ expiringHeap pa)) ->
  isHeap (expiry (mkPA (putEntry (Addrs pa) k e) h')) h' (length h') -> changed pa (mkPA (putEntry (Addrs pa) k e) h') k (Some e) (k ∈ h').
Proof.
  intros [P1 P2 P3 P4] Hn Hm Hh. assert (E : forall k', entry (mkPA (putEntry (Addrs pa) k e) h') k' = if decide (k' = k) then Some e else entry pa k').
  { intros k'. rewrite (entry_put _ _ _ _ (expiringHeap pa)). by destruct pa. }
  split.
  - split; cbn [Addrs expiringHeap]; [by apply put_noEmpty|done| |done].
    intros k' Hk'. rewrite E. apply Hm in Hk'. destruct (decide (k' = k)) as [->|]; [exists e; naive_solver|by apply P3].
  - exact E.
  - intros q Hq. by apply put_other.
  - intros k'. simpl. rewrite Hm. destruct (decide (k' = k)) as [->|]; [|done]. split; [naive_solver|]. intros Hk. split; [|done].
    pose proof (proj1 (Hm k) Hk) as H. rewrite decide_True in H by done. naive_solver.
Qed.
Lemma UpdateAddr_ok pa k e e0 : paOk pa -> entry pa k = Some e0 ->
  changed pa (UpdateAddr pa k e) k (Some e) (k ∈ expiringHeap pa /\ IsConnected e = false).
Proof.
  intros O He. unfold UpdateAddr. set (pa1 := mkPA (putEntry (Addrs pa) k e) (expiringHeap pa)).
  assert (Ex : forall h k', k' <> k -> expiry (mkPA (putEntry (Addrs pa) k e) h) k' = expiry pa k').
  { intros h k' Hne. apply expiry_entry. rewrite (entry_put _ _ _ _ (expiringHeap pa)), decide_False by done. by destruct pa. }
  assert (Fin : forall h', changed pa (mkPA (putEntry (Addrs pa) k e) h') k (Some e) (k ∈ h') -> (k ∈ h' <-> k ∈ expiringHeap pa /\ IsConnected e = false) ->
    changed pa (mkPA (putEntry (Addrs pa) k e) h') k (Some e) (k ∈ expiringHeap pa /\ IsConnected e = false)).
  { intros h' [C1 C2 C3 C4] Hiff. split; [done|done|done|]. intros k'. rewrite C4. destruct (decide (k' = k)); [exact Hiff|done]. }
  destruct (heapIndex pa1 k) as [i|] eqn:Ei.
  - pose proof (heapIndex_some _ _ _ Ei) as Hk. cbn [expiringHeap pa1] in Hk. destruct (heap_index_total _ _ _ Hk) as [Et Hi].
    assert (Hin : k ∈ expiringHeap pa) by (by eapply list_elem_of_lookup_2).
    assert (B : brokenAt (expiry pa1) (expiringHeap pa) (length (expiringHeap pa)) i).
    { apply (isHeap_broken (expiry pa)); [apply O|done| |apply O]. intros x _ Hx. symmetry. apply Ex. congruence. }
    destruct (IsConnected e) eqn:Ec; cbn [Addrs pa1 expiringHeap].
    + destruct (Remove_heap (expiry pa1) _ i B Hi) as (H1 & _ & H3). rewrite Et in H3.
      destruct (removed_heap _ _ _ (pa_nodup _ O) H3) as (N1 & N2 & N3). apply Fin; [|naive_solver]. apply written; [done|done| |].
      * intros k'. rewrite N3. destruct (decide (k' = k)) as [->|]; intuition congruence.
      * eapply isHeap_ext; [|exact H1]. done.
    + destruct (Fix_heap (expiry pa1) _ i B Hi) as [H1 H2]. apply Fin; [|rewrite H2; naive_solver]. apply written; [done|rewrite H2; apply O| |].
      * intros k'. rewrite H2. destruct (decide (k' = k)) as [->|]; [|done]. split; [intros _; split; [done|by rewrite H2]|by intros _].
      * eapply isHeap_ext; [|exact H1]. done.
  - apply heapIndex_none in Ei. cbn [expiringHeap pa1] in Ei. apply (Fin (expiringHeap pa)); [|naive_solver]. apply written; [done|apply O| |].
    + intros k'. destruct (decide (k' = k)) as [->|]; naive_solver.
    + eapply isHeap_ext; [|apply O]. intros x Hx. symmetry. apply Ex. congruence.
Qed.
Lemma InsertAddr_ok pa k e : paOk pa -> entry pa k = None -> changed pa (InsertAddr pa k e) k (Some e) (IsConnected e = false).
Proof.
  intros O He. unfold InsertAddr. set (pa1 := mkPA (putEntry (Addrs pa) k e) (expiringHeap pa)).
  assert (Hni : k ∉ expiringHeap pa) by (intros Hk; destruct (pa_entry _ O k Hk) as (e1 & E1 & _); congruence).
  assert (Ex : forall h k', k' <> k -> expiry (mkPA (putEntry (Addrs pa) k e) h) k' = expiry pa k').
  { intros h k' Hne. apply expiry_entry. rewrite (entry_put _ _ _ _ (expiringHeap pa)), decide_False by done. by destruct pa. }
  assert (Hold : isHeap (expiry pa1) (expiringHeap pa) (length (expiringHeap pa))).
  { eapply isHeap_ext; [|apply O]. intros x Hx. symmetry. apply Ex. congruence. }
  assert (Fin : forall h', changed pa (mkPA (putEntry (Addrs pa) k e) h') k (Some e) (k ∈ h') -> (k ∈ h' <-> IsConnected e = false) ->
    changed pa (mkPA (putEntry (Addrs pa) k e) h') k (Some e) (IsConnected e = false)).
  { intros h' [C1 C2 C3 C4] Hiff. split; [done|done|done|]. intros k'. rewrite C4. destruct (decide (k' = k)); [exact Hiff|done]. }
  destruct (IsConnected e) eqn:Ec; cbn [Addrs expiringHeap pa1].
  - apply Fin; [|naive_solver]. apply written; [done|apply O| |done]. intros k'. destruct (decide (k' = k)) as [->|]; naive_solver.
  - destruct (Push_heap (expiry pa1) (expiringHeap pa) k Hold) as [H1 H2]. apply Fin; [|rewrite H2; set_solver]. apply written; [done| | |].
    + rewrite H2. apply NoDup_app. split_and!; [apply O| |apply NoDup_singleton]. intros x Hx ->%list_elem_of_singleton. done.
    + intros k'. rewrite H2, elem_of_app, list_elem_of_singleton. destruct (decide (k' = k)) as [->|]; [|intuition congruence].
      split; [intros _; split; [done|]|by right]. rewrite H2. set_solver.
    + eapply isHeap_ext; [|exact H1]. done.
Qed.
