(* ===== verification/AddrBookRun.v ===== *)
(** * The address book: operations, garbage collection, streams *)
From Stdlib Require Import ZArith Lia.
From stdpp Require Import base tactics list numbers option gmap sets fin_maps.
From S2P Require Import Prelude GoBytes Varint MaProtocol MaComponent MaCodec MaOps MaProtocols BlsRpc GoHeap AddrBook AddrBookInv.
Local Open Scope Z_scope.

Section book.
Context {Envelope : Type}.
Abbreviation book := (memoryAddrBook Envelope).

(** A signed record belongs to a peer with addresses, or to [o] while an operation on it runs. *)
Record bookOk (o : option PeerID) (b : book) : Prop := {
  bo_addrs : paOk (addrs b);
  bo_records q : q ∈ dom (signedPeerRecords b) -> o = Some q \/ q ∈ dom (Addrs (addrs b));
  bo_size : Z.of_nat (size (signedPeerRecords b)) <= Z.max 0 (maxSignedPeerRecords b) }.

Lemma NewAddrBook_ok mu ms : bookOk None (NewAddrBook mu ms).
Proof. split; simpl; [|set_solver|rewrite map_size_empty; lia]. split; simpl; [done|constructor|set_solver|intros k Hk; simpl in Hk; lia]. Qed.

Lemma bookOk_weaken p (b : book) : bookOk None b -> bookOk (Some p) b.
Proof. intros [B1 B2 B3]. split; [done| |done]. intros q Hq. destruct (B2 q Hq) as [|]; [done|by right]. Qed.
Lemma maybeDelete_addrs (b : book) p : addrs (maybeDeleteSignedPeerRecordUnlocked b p) = addrs b.
Proof. unfold maybeDeleteSignedPeerRecordUnlocked. repeat case_match; done. Qed.
Lemma maybeDelete_ok p (b : book) : bookOk (Some p) b -> bookOk None (maybeDeleteSignedPeerRecordUnlocked b p).
Proof.
  intros [B1 B2 B3]. unfold maybeDeleteSignedPeerRecordUnlocked. destruct (Addrs (addrs b) !! p) as [am|] eqn:E.
  - rewrite bool_decide_false by (by apply (pa_noEmpty _ B1 p)). split; [done| |done]. intros q Hq. right.
    destruct (B2 q Hq) as [[= ->]|]; [|done]. apply elem_of_dom. by eexists.
  - split; simpl; [done| |].
    + intros q. rewrite dom_delete_L. intros [Hq Hne]%elem_of_difference. right. destruct (B2 q Hq) as [[= ->]|]; [set_solver|done].
    + rewrite map_size_delete. destruct (signedPeerRecords b !! p); simpl; lia.
Qed.
Lemma changed_book p (b : book) pa' a o P : bookOk (Some p) b -> changed (addrs b) pa' (p, a) o P -> bookOk (Some p) (set_addrs b pa').
Proof.
  intros [B1 B2 B3] C. split; simpl; [apply C| |done]. intros q Hq. destruct (decide (q = p)) as [->|Hne]; [by left|].
  right. apply elem_of_dom. rewrite (ch_other _ _ _ _ _ C) by done. apply elem_of_dom. destruct (B2 q Hq) as [[= ->]|]; done.
Qed.

(** ** Adding addresses *)
(** What happens to the entries of the book along the loop *)
Record extends (p : PeerID) (b b' : book) : Prop := {
  ex_grow k e : entry (addrs b) k = Some e -> exists e', entry (addrs b') k = Some e' /\ ea_TTL e <= ea_TTL e' /\ ea_Expiry e <= ea_Expiry e';
  ex_other q : q <> p -> Addrs (addrs b') !! q = Addrs (addrs b) !! q }.
Lemma extends_refl p b : extends p b b.
Proof. split; [|done]. intros k e He. by exists e. Qed.
Lemma extends_trans p b1 b2 b3 : extends p b1 b2 -> extends p b2 b3 -> extends p b1 b3.
Proof.
  intros [X1 X2] [Y1 Y2]. split.
  - intros k e He. destruct (X1 k e He) as (e1 & H1 & T1 & E1). destruct (Y1 k e1 H1) as (e2 & H2 & T2 & E2). exists e2. split_and!; [done|lia|lia].
  - intros q Hq. by rewrite Y2, X2.
Qed.
Definition covers (ttl exp : Z) (b : book) (k : akey) : Prop := exists e, entry (addrs b) k = Some e /\ ttl <= ea_TTL e /\ exp <= ea_Expiry e.
Lemma covers_extends p ttl exp b b' k : extends p b b' -> covers ttl exp b k -> covers ttl exp b' k.
Proof. intros [X _] (e & He & H1 & H2). destruct (X k e He) as (e' & He' & T & E). exists e'. split_and!; [done|lia|lia]. Qed.

(** The addresses broadcast were not in the book [b0], and are not broadcast twice. *)
Definition fresh (p : PeerID) (b0 : book) (r : book * list Multiaddr) : Prop :=
  NoDup (Bytes <$> r.2) /\ Forall (fun a => entry (addrs b0) (p, Bytes a) = None /\ is_Some (entry (addrs r.1) (p, Bytes a))) r.2.

Lemma addStep_ok p ttl exp b0 r a : bookOk (Some p) r.1 -> extends p b0 r.1 -> fresh p b0 r ->
  let r' := addStep p ttl exp r a in
  bookOk (Some p) r'.1 /\ extends p r.1 r'.1 /\ fresh p b0 r' /\ (forall addr, acceptAddr p a = Some addr -> covers ttl exp r'.1 (p, Bytes addr)).
Proof.
  intros O X [F1 F2]. cbn zeta. unfold addStep. destruct (acceptAddr p a) as [addr|]; [|split_and!; [done|apply extends_refl|done|done]].
  unfold FindAddr. set (k := (p, Bytes addr)). destruct (entry (addrs r.1) k) as [e|] eqn:He.
  - destruct ((ea_TTL e <? ttl) || (ea_Expiry e <? exp)) eqn:Ec.
    + set (e' := mkEA _ _ _). pose proof (UpdateAddr_ok (addrs r.1) k e' e (bo_addrs _ _ O) He) as C.
      assert (Hge : ea_TTL e <= ea_TTL e' /\ ea_Expiry e <= ea_Expiry e' /\ ttl <= ea_TTL e' /\ exp <= ea_Expiry e').
      { unfold e'. simpl. destruct (Z.ltb_spec (ea_TTL e) ttl), (Z.ltb_spec (ea_Expiry e) exp); simpl; lia. }
      clearbody e'.
      assert (X' : extends p r.1 (set_addrs r.1 (UpdateAddr (addrs r.1) k e'))).
      { split; [|intros q Hq; by apply (ch_other _ _ _ _ _ C)]. intros k' e1 He1. simpl. rewrite (ch_entry _ _ _ _ _ C). destruct (decide (k' = k)) as [->|].
        - exists e'. assert (e1 = e) as -> by congruence. split_and!; [done|lia|lia].
        - exists e1. split_and!; [done|lia|lia]. }
      split_and!; [by eapply changed_book|done| |].
      * split; [done|]. eapply Forall_impl; [exact F2|]. intros x [Hx [e1 He1]]. split; [done|]. simpl. destruct (ex_grow _ _ _ X' _ _ He1) as (e2 & He2 & _). by eexists.
      * intros addr' [= <-]. exists e'. simpl. rewrite (ch_entry _ _ _ _ _ C), decide_True by done. split_and!; [done|lia|lia].
    + apply orb_false_iff in Ec as [?%Z.ltb_ge ?%Z.ltb_ge]. split_and!; [done|apply extends_refl|done|]. intros addr' [= <-]. exists e. split_and!; [done|lia|lia].
  - pose proof (InsertAddr_ok (addrs r.1) k (mkEA addr ttl exp) (bo_addrs _ _ O) He) as C.
    assert (X' : extends p r.1 (set_addrs r.1 (InsertAddr (addrs r.1) k (mkEA addr ttl exp)))).
    { split; [|intros q Hq; by apply (ch_other _ _ _ _ _ C)]. intros k' e1 He1. simpl. rewrite (ch_entry _ _ _ _ _ C), decide_False by congruence.
      exists e1. split_and!; [done|lia|lia]. }
    assert (Hk : entry (InsertAddr (addrs r.1) k (mkEA addr ttl exp)) k = Some (mkEA addr ttl exp)) by (by rewrite (ch_entry _ _ _ _ _ C), decide_True).
    split_and!; [by eapply changed_book|done| |].
    + split; simpl.
      * rewrite fmap_app. apply NoDup_app. split_and!; [done| |apply NoDup_singleton]. intros x (y & -> & Hy)%list_elem_of_fmap Hx.
        apply list_elem_of_singleton in Hx. rewrite Forall_forall in F2. destruct (F2 y Hy) as [_ [e1 He1]]. unfold k in He. congruence.
      * apply Forall_app. split.
        -- eapply Forall_impl; [exact F2|]. intros x [Hx [e1 He1]]. split; [done|]. destruct (ex_grow _ _ _ X' _ _ He1) as (e2 & He2 & _). by eexists.
        -- constructor; [|constructor]. split; [|fold k; rewrite Hk; by eexists]. fold k. destruct (entry (addrs b0) k) as [e0|] eqn:E0; [|done].
           destruct (ex_grow _ _ _ X _ _ E0) as (e1 & He1 & _). congruence.
    + intros addr' [= <-]. exists (mkEA addr ttl exp). simpl. fold k. rewrite Hk. split_and!; [done|done|done].
Qed.
Lemma addLoop_ok p ttl exp b0 l : forall r, bookOk (Some p) r.1 -> extends p b0 r.1 -> fresh p b0 r ->
  let r' := foldl (addStep p ttl exp) r l in
  bookOk (Some p) r'.1 /\ extends p r.1 r'.1 /\ fresh p b0 r' /\ (forall a addr, a ∈ l -> acceptAddr p a = Some addr -> covers ttl exp r'.1 (p, Bytes addr)).
Proof.
  induction l as [|a l IH]; intros r O X F; cbn [foldl]; [split_and!; [done|apply extends_refl|done|set_solver]|].
  destruct (addStep_ok p ttl exp b0 r a O X F) as (O1 & X1 & F1 & C1). destruct (IH (addStep p ttl exp r a) O1) as (O2 & X2 & F2 & C2); [by eapply extends_trans|done|].
  split_and!; [done|by eapply extends_trans|done|]. intros a' addr [->|Ha]%elem_of_cons Hacc; [|by eapply C2].
  eapply covers_extends; [exact X2|by apply C1].
Qed.
Lemma maybeDelete_extends p b b' : extends p b b' -> extends p b (maybeDeleteSignedPeerRecordUnlocked b' p).
Proof. intros [X1 X2]. split; rewrite maybeDelete_addrs; done. Qed.
Lemma addAddrs_ok b now p l ttl : bookOk (Some p) b -> let r := addAddrsUnlocked b now p l ttl in
  bookOk None r.1 /\ extends p b r.1 /\ fresh p b r
  /\ (0 < ttl -> ttlIsConnected ttl = true \/ full b = false -> forall a addr, a ∈ l -> acceptAddr p a = Some addr -> covers ttl (now + ttl) r.1 (p, Bytes addr)).
Proof.
  intros O. cbn zeta. unfold addAddrsUnlocked.
  assert (Skip : bookOk None (maybeDeleteSignedPeerRecordUnlocked b p, @nil Multiaddr).1 /\ extends p b (maybeDeleteSignedPeerRecordUnlocked b p, @nil Multiaddr).1
    /\ fresh p b (maybeDeleteSignedPeerRecordUnlocked b p, [])).
  { split_and!; [by apply maybeDelete_ok|apply maybeDelete_extends, extends_refl|split; constructor]. }
  destruct (Z.leb_spec ttl 0) as [Ht|Ht]; [split_and!; [apply Skip..|lia]|].
  destruct (ttlIsConnected ttl) eqn:Ec; cbn [negb andb].
  2: destruct (full b) eqn:Ef; [split_and!; [apply Skip..|intros _ [|]; done]|].
  all: destruct (addLoop_ok p ttl (now + ttl) b l (b, []) O (extends_refl p b)) as (O1 & X1 & [F1 F2] & C1); [split; constructor|].
  all: destruct (foldl (addStep p ttl (now + ttl)) (b, []) l) as [b1 out]; cbn [fst snd] in *.
  all: split_and!; [by apply maybeDelete_ok|by apply maybeDelete_extends| |].
  all: try (split; [done|]; eapply Forall_impl; [exact F2|]; intros x Hx; cbn [fst]; by rewrite maybeDelete_addrs).
  all: intros _ _ a addr Ha Hacc; destruct (C1 a addr Ha Hacc) as (e & He & H1 & H2); exists e; by rewrite maybeDelete_addrs.
Qed.

(** ** The other operations *)
Lemma setStep_ok p ttl exp r a : bookOk (Some p) r.1 -> bookOk (Some p) (setStep p ttl exp r a).1.
Proof.
  intros O. unfold setStep. destruct (acceptAddr p a) as [addr|]; [|done]. unfold FindAddr. destruct (entry (addrs r.1) (p, Bytes addr)) as [e|] eqn:He.
  - destruct (0 <? ttl); [destruct (_ && _ && _)|]; simpl; (eapply changed_book; [done|]).
    + by eapply DeleteAddr_ok; [apply O|].
    + by eapply UpdateAddr_ok; [apply O|].
    + by eapply DeleteAddr_ok; [apply O|].
  - destruct (0 <? ttl); [|done]. destruct (_ && _); [done|]. simpl. eapply changed_book; [done|]. by apply InsertAddr_ok; [apply O|].
Qed.
Lemma SetAddrs_ok b now p l ttl : bookOk None b -> bookOk None (SetAddrs b now p l ttl).1.
Proof.
  intros O. unfold SetAddrs. assert (H : forall r, bookOk (Some p) r.1 -> bookOk (Some p) (foldl (setStep p ttl (now + ttl)) r l).1).
  { induction l as [|a l IH]; intros r Hr; [done|]. cbn [foldl]. by apply IH, setStep_ok. }
  specialize (H (b, []) (bookOk_weaken p b O)). destruct (foldl _ _ _) as [b1 out]. by apply maybeDelete_ok.
Qed.
Lemma updateStep_ok p oldTTL newTTL exp b a : bookOk (Some p) b -> bookOk (Some p) (updateStep p oldTTL newTTL exp b a).
Proof.
  intros O. unfold updateStep. destruct (entry (addrs b) (p, a)) as [e|] eqn:He; [|done]. destruct (oldTTL =? ea_TTL e); [|done].
  destruct (newTTL =? 0); [|destruct (_ && _ && _)]; (eapply changed_book; [done|]).
  - by eapply DeleteAddr_ok; [apply O|].
  - by eapply DeleteAddr_ok; [apply O|].
  - by eapply UpdateAddr_ok; [apply O|].
Qed.
Lemma UpdateAddrs_ok order b now p oldTTL newTTL : bookOk None b -> bookOk None (UpdateAddrs order b now p oldTTL newTTL).
Proof.
  intros O. unfold UpdateAddrs. apply maybeDelete_ok. generalize (order (dom (addrsOf b p))). intros l.
  apply (bookOk_weaken p) in O. revert b O. induction l as [|a l IH]; intros b O; [done|]. cbn [foldl]. by apply IH, updateStep_ok.
Qed.
Lemma ClearAddrs_ok order b p : bookOk None b -> bookOk None (ClearAddrs order b p).
Proof.
  intros O. unfold ClearAddrs. generalize (order (dom (addrsOf (set_records b (delete p (signedPeerRecords b))) p))). intros l.
  assert (O' : bookOk None (set_records b (delete p (signedPeerRecords b))) /\ p ∉ dom (signedPeerRecords (set_records b (delete p (signedPeerRecords b))))).
  { destruct O as [B1 B2 B3]. split; [split; simpl; [done| |]|simpl; set_solver].
    - intros q. rewrite dom_delete_L. intros [Hq _]%elem_of_difference. by apply B2.
    - rewrite map_size_delete. destruct (signedPeerRecords b !! p); simpl; lia. }
  set (b1 := set_records b _) in *. clearbody b1. destruct O' as [O1 Hp]. clear O. revert b1 O1 Hp. induction l as [|a l IH]; intros b1 O1 Hp; [done|].
  cbn [foldl]. unfold DeleteAddr at 2. destruct (entry (addrs b1) (p, a)) as [e|] eqn:He.
  - apply IH; [|done]. pose proof (DeleteAddr_ok (addrs b1) (p, a) e (bo_addrs _ _ O1) He) as C. unfold DeleteAddr in C. rewrite He in C.
    destruct O1 as [B1 B2 B3]. split; simpl; [apply C| |done]. intros q Hq. right. destruct (B2 q Hq) as [|Hd]; [done|].
    apply elem_of_dom. rewrite (ch_other _ _ _ _ _ C) by (simpl; set_solver). by apply elem_of_dom.
  - replace (set_addrs b1 (addrs b1)) with b1 by (by destruct b1). by apply IH.
Qed.
Lemma ConsumePeerRecord_ok b now env rec ttl : bookOk None b -> bookOk None (ConsumePeerRecord b now env rec ttl).1.1.
Proof.
  intros O. unfold ConsumePeerRecord. destruct rec as [rec|]; [|done]. destruct (rec_match rec); cbn [negb]; [|done].
  set (p := rec_PeerID rec). set (b1 := set_records b _).
  assert (H : Z.of_nat (size (signedPeerRecords b1)) <= Z.max 0 (maxSignedPeerRecords b) -> bookOk (Some p) b1).
  { intros Hs. destruct O as [B1 B2 B3]. split; simpl; [done| |done]. intros q. rewrite dom_insert_L. intros [->%elem_of_singleton|Hq]%elem_of_union; [by left|].
    right. by destruct (B2 q Hq). }
  pose proof (map_size_insert p (env, rec_Seq rec) (signedPeerRecords b)) as Hi. destruct (signedPeerRecords b !! p) as [[env0 seq]|] eqn:E; simpl in Hi.
  - destruct (rec_Seq rec <? seq); [done|]. cbn [fst]. apply addAddrs_ok, H. unfold b1. simpl. pose proof (bo_size _ _ O). lia.
  - destruct (Z.leb_spec (maxSignedPeerRecords b) (Z.of_nat (size (signedPeerRecords b)))); [done|]. cbn [fst]. apply addAddrs_ok, H. unfold b1. simpl. lia.
Qed.

(** ** Garbage collection *)
Lemma gcLoop_ok now fuel : forall b, bookOk None b -> (length (expiringHeap (addrs b)) <= fuel)%nat ->
  let b' := gcLoop fuel b now in
  bookOk None b' /\ (forall k, k ∈ expiringHeap (addrs b') -> now < expiry (addrs b') k)
  /\ (forall k, entry (addrs b') k = if decide (k ∈ expiringHeap (addrs b) /\ expiry (addrs b) k <= now) then None else entry (addrs b) k).
Proof.
  induction fuel as [|fuel IH]; intros b O Hf; cbn [gcLoop].
  - assert (El : expiringHeap (addrs b) = []) by (destruct (expiringHeap (addrs b)); [done|simpl in Hf; lia]). rewrite El.
    split_and!; [done|set_solver|]. intros k. rewrite decide_False by set_solver. done.
  - destruct (PopIfExpired (addrs b) now) as [[pa' k0]|] eqn:E.
    + destruct (PopIfExpired_some _ _ _ _ (bo_addrs _ _ O) E) as (C & Hin & Hexp & Hl).
      set (b1 := maybeDeleteSignedPeerRecordUnlocked (set_addrs b pa') k0.1).
      assert (O1 : bookOk None b1) by (apply maybeDelete_ok; destruct k0 as [p a]; eapply changed_book; [by apply bookOk_weaken|exact C]).
      assert (Ea : addrs b1 = pa') by apply maybeDelete_addrs.
      destruct (IH b1 O1) as (H1 & H2 & H3); [rewrite Ea; lia|]. split_and!; [done|done|]. intros k. rewrite H3, Ea.
      destruct (decide (k = k0)) as [->|Hne].
      * rewrite (decide_True (P := k0 ∈ expiringHeap (addrs b) /\ expiry (addrs b) k0 <= now)) by done. case_decide; [done|]. by rewrite (ch_entry _ _ _ _ _ C), decide_True.
      * assert (Ek : entry pa' k = entry (addrs b) k) by (by rewrite (ch_entry _ _ _ _ _ C), decide_False).
        assert (Hk : k ∈ expiringHeap pa' <-> k ∈ expiringHeap (addrs b)) by (rewrite (ch_heap _ _ _ _ _ C); by rewrite decide_False).
        rewrite Ek. rewrite (expiry_entry _ _ _ Ek). by rewrite (decide_ext _ _ _ _ (and_iff_compat_r _ Hk)).
    + split_and!; [done| |].
      * intros k Hk. by apply PopIfExpired_none; [apply O|..].
      * intros k. rewrite decide_False; [done|]. intros [Hk Hx]. pose proof (PopIfExpired_none _ _ k (bo_addrs _ _ O) E Hk). lia.
Qed.

(** What is not in the heap stays. *)
Lemma gc_keeps b now k : bookOk None b -> k ∉ expiringHeap (addrs b) -> entry (addrs (gcBook b now)) k = entry (addrs b) k.
Proof. intros O Hk. destruct (gcLoop_ok now _ b O (Nat.le_refl _)) as (_ & _ & E). unfold gcBook. rewrite E, decide_False; [done|]. naive_solver. Qed.

(** ** Runs *)
Inductive bookOp :=
  | OpAdd (now : Z) (p : PeerID) (l : list Multiaddr) (ttl : Z) | OpSet (now : Z) (p : PeerID) (l : list Multiaddr) (ttl : Z)
  | OpUpdate (now : Z) (p : PeerID) (oldTTL newTTL : Z) | OpClear (p : PeerID)
  | OpConsume (now : Z) (env : Envelope) (rec : option peerRecord) (ttl : Z) | OpGC (now : Z).
Definition bookApply (order : gset bytes -> list bytes) (b : book) (o : bookOp) : book :=
  match o with
  | OpAdd now p l ttl => (AddAddrs b now p l ttl).1
  | OpSet now p l ttl => (SetAddrs b now p l ttl).1
  | OpUpdate now p oldTTL newTTL => UpdateAddrs order b now p oldTTL newTTL
  | OpClear p => ClearAddrs order b p
  | OpConsume now env rec ttl => (ConsumePeerRecord b now env rec ttl).1.1
  | OpGC now => gcBook b now
  end.
Lemma bookApply_ok order b o : bookOk None b -> bookOk None (bookApply order b o).
Proof.
  intros O. destruct o; simpl.
  - apply addAddrs_ok. by apply bookOk_weaken.
  - by apply SetAddrs_ok.
  - by apply UpdateAddrs_ok.
  - by apply ClearAddrs_ok.
  - by apply ConsumePeerRecord_ok.
  - by apply gcLoop_ok.
Qed.
Lemma bookRun_ok order ops : forall b, bookOk None b -> bookOk None (foldl (bookApply order) b ops).
Proof. induction ops as [|o ops IH]; intros b O; [done|]. cbn [foldl]. by apply IH, bookApply_ok. Qed.
Lemma bookRun_start order mu ms ops : bookOk None (foldl (bookApply order) (NewAddrBook mu ms) ops).
Proof. apply bookRun_ok, NewAddrBook_ok. Qed.

(** C27: In every state that the operations of the address book reach, the heap is a heap ordered by expiry that holds each
    of its entries once, all of them in the table and not connected; a peer in the table has an address; a signed record
    belongs to a peer with addresses; and there are at most [maxSignedPeerRecords] of them. *)
Theorem addrbook_invariant (order : gset bytes -> list bytes) (maxU maxS : Z) (ops : list bookOp) :
  let b := foldl (bookApply order) (NewAddrBook maxU maxS) ops in
  isHeap (expiry (addrs b)) (expiringHeap (addrs b)) (length (expiringHeap (addrs b)))
  /\ NoDup (expiringHeap (addrs b))
  /\ (forall k, k ∈ expiringHeap (addrs b) -> exists e, entry (addrs b) k = Some e /\ IsConnected e = false)
  /\ (forall p am, Addrs (addrs b) !! p = Some am -> am <> ∅)
  /\ dom (signedPeerRecords b) ⊆ PeersWithAddrs b
  /\ Z.of_nat (size (signedPeerRecords b)) <= Z.max 0 (maxSignedPeerRecords b).
Proof.
  intros b. destruct (bookRun_start order maxU maxS ops) as [[P1 P2 P3 P4] B2 B3]. fold b in P1, P2, P3, P4, B2, B3.
  split_and!; [done|done|done|done| |done]. intros q Hq. by destruct (B2 q Hq).
Qed.

(** C28: Garbage collection removes exactly the addresses of the heap that have expired: it ends with no expired address in
    the heap, every other entry is as before, and the addresses that a reader sees do not change. *)
Theorem addrbook_gc_exact (order : gset bytes -> list bytes) (maxU maxS now : Z) (ops : list bookOp) :
  let b := foldl (bookApply order) (NewAddrBook maxU maxS) ops in
  let b' := gcBook b now in
  (forall k, entry (addrs b') k = if decide (k ∈ expiringHeap (addrs b) /\ expiry (addrs b) k <= now) then None else entry (addrs b) k)
  /\ (forall k, k ∈ expiringHeap (addrs b') -> now < expiry (addrs b') k)
  /\ (forall k e, entry (addrs b) k = Some e -> ExpiredBy e now = false -> entry (addrs b') k = Some e).
Proof.
  intros b b'. destruct (gcLoop_ok now _ b (bookRun_start order maxU maxS ops) (Nat.le_refl _)) as (_ & H2 & H3). split_and!; [done|done|].
  intros k e He Hx. unfold b'. rewrite H3, decide_False; [done|]. intros [_ Hle]. unfold expiry in Hle. rewrite He in Hle. simpl in Hle.
  unfold ExpiredBy in Hx. apply negb_false_iff, Z.ltb_lt in Hx. lia.
Qed.

(** [AddAddrs] never reduces the time to live or the expiry of an address and leaves other peers alone; if the time to
    live is positive and there is room, every usable address of the list is stored with at least this time to live and
    expiry; and exactly addresses that were not known before are announced, each once. *)
Theorem add_addrs_extends (order : gset bytes -> list bytes) (maxU maxS now ttl : Z) (ops : list bookOp) (p : PeerID) (l : list Multiaddr) :
  let b := foldl (bookApply order) (NewAddrBook maxU maxS) ops in
  let r := AddAddrs b now p l ttl in
  (forall k e, entry (addrs b) k = Some e -> exists e', entry (addrs r.1) k = Some e' /\ ea_TTL e <= ea_TTL e' /\ ea_Expiry e <= ea_Expiry e')
  /\ (forall q, q <> p -> Addrs (addrs r.1) !! q = Addrs (addrs b) !! q)
  /\ (0 < ttl -> ttlIsConnected ttl = true \/ full b = false -> forall a addr, a ∈ l -> acceptAddr p a = Some addr ->
        exists e, entry (addrs r.1) (p, Bytes addr) = Some e /\ ttl <= ea_TTL e /\ now + ttl <= ea_Expiry e)
  /\ NoDup (Bytes <$> r.2)
  /\ Forall (fun a => entry (addrs b) (p, Bytes a) = None /\ is_Some (entry (addrs r.1) (p, Bytes a))) r.2.
Proof.
  intros b r. destruct (addAddrs_ok b now p l ttl (bookOk_weaken p _ (bookRun_start order maxU maxS ops))) as (_ & [X1 X2] & [F1 F2] & C).
  by split_and!.
Qed.
End book.

(** ** Streams *)
Section stream.
Definition pendingOf (s : addrStream) : list Multiaddr := from_option (fun a => [a]) [] (st_next s) ++ st_buffer s.
Inductive streamEvent := Deliver | Publish (a : Multiaddr).
(** A delivery waits until there is an address. *)
Definition streamStep (s : addrStream) (ev : streamEvent) : addrStream :=
  match ev with Deliver => default s (deliver s) | Publish a => publish s a end.
Record streamOk (s : addrStream) : Prop := {
  so_sent : st_sent s = list_to_set (Bytes <$> (st_out s ++ pendingOf s));
  so_once : NoDup (Bytes <$> (st_out s ++ pendingOf s));
  so_next : st_next s = None -> st_buffer s = [] }.
Lemma streamStep_ok s ev : streamOk s -> streamOk (streamStep s ev)
  /\ st_out s ++ pendingOf s `prefix_of` st_out (streamStep s ev) ++ pendingOf (streamStep s ev)
  /\ (forall a, ev = Publish a -> Bytes a ∈ Bytes <$> (st_out (streamStep s ev) ++ pendingOf (streamStep s ev))).
Proof.
  intros O. pose proof O as [S1 S2 S3]. destruct ev as [|a]; simpl.
  - unfold deliver. destruct (st_next s) as [x|] eqn:E; simpl; [|split_and!; [exact O|reflexivity|done]].
    assert (Ep : st_out s ++ pendingOf s = (st_out s ++ [x]) ++ from_option (fun a => [a]) [] (head (st_buffer s)) ++ tail (st_buffer s)).
    { unfold pendingOf. rewrite E. simpl. rewrite <-app_assoc. by destruct (st_buffer s). }
    split_and!; [|rewrite Ep; unfold pendingOf; simpl; reflexivity|done]. split; unfold pendingOf; simpl.
    + by rewrite S1, Ep.
    + by rewrite Ep in S2.
    + by destruct (st_buffer s).
  - unfold publish. case_bool_decide as Hs.
    + split_and!; [exact O|reflexivity|]. intros a' [= <-]. rewrite S1 in Hs. by apply elem_of_list_to_set in Hs.
    + assert (Q : forall s', st_out s' = st_out s -> pendingOf s' = pendingOf s ++ [a] -> st_sent s' = {[Bytes a]} ∪ st_sent s -> (st_next s' = None -> st_buffer s' = []) ->
        streamOk s' /\ st_out s ++ pendingOf s `prefix_of` st_out s' ++ pendingOf s' /\ (forall a', Publish a = Publish a' -> Bytes a' ∈ Bytes <$> (st_out s' ++ pendingOf s'))).
      { intros s' E1 E2 E3 E4. assert (Ea : st_out s' ++ pendingOf s' = (st_out s ++ pendingOf s) ++ [a]) by (by rewrite E1, E2, app_assoc).
        rewrite S1, elem_of_list_to_set in Hs. split_and!; [split; [|rewrite Ea|done]|rewrite Ea; by apply prefix_app_r|].
        - rewrite Ea, E3, S1, fmap_app, list_to_set_app_L. simpl. set_solver.
        - rewrite fmap_app. apply NoDup_app. split_and!; [done| |apply NoDup_singleton]. intros x Hx ->%list_elem_of_singleton. done.
        - intros a' [= <-]. rewrite Ea, fmap_app. set_solver. }
      destruct (st_next s) as [x|] eqn:E; apply Q; simpl; try done; unfold pendingOf; simpl; rewrite E; simpl.
      * by rewrite app_comm_cons.
      * by rewrite (S3 eq_refl).
Qed.

Lemma stream_run evs : forall s0, streamOk s0 -> let s := foldl streamStep s0 evs in
  streamOk s /\ st_out s0 ++ pendingOf s0 `prefix_of` st_out s ++ pendingOf s
  /\ (forall a, Publish a ∈ evs -> Bytes a ∈ Bytes <$> (st_out s ++ pendingOf s)).
Proof.
  induction evs as [|ev evs IH]; intros s0 O; cbn [foldl]; [split_and!; [done|reflexivity|set_solver]|].
  destruct (streamStep_ok s0 ev O) as (O1 & P1 & A1). destruct (IH (streamStep s0 ev) O1) as (O2 & P & A).
  split_and!; [done|by etrans|]. intros a [Ha|Ha]%elem_of_cons; [|by apply A].
  symmetry in Ha. specialize (A1 a Ha). destruct P as [t Et]. rewrite Et, fmap_app. apply elem_of_app. by left.
Qed.

(** An address stream hands out every address once: if the addresses it starts with differ, then for every order of
    publications and deliveries it has delivered, in order, a prefix of the addresses it accepted, among them all those it
    started with and all that were published; no two of them have the same bytes; and nothing accepted is lost. *)
Theorem addr_stream_once (initial : list Multiaddr) (evs : list streamEvent) :
  NoDup (Bytes <$> initial) ->
  let s := foldl streamStep (startStream initial) evs in
  NoDup (Bytes <$> (st_out s ++ pendingOf s))
  /\ initial `prefix_of` st_out s ++ pendingOf s
  /\ (forall a, Publish a ∈ evs -> Bytes a ∈ Bytes <$> (st_out s ++ pendingOf s))
  /\ (st_next s = None -> st_buffer s = []).
Proof.
  intros Hn. assert (O : streamOk (startStream initial) /\ st_out (startStream initial) ++ pendingOf (startStream initial) = initial).
  { unfold startStream, pendingOf. simpl. assert (E : from_option (fun a : Multiaddr => [a]) [] (head initial) ++ tail initial = initial) by (by destruct initial).
    split; [|done]. split; unfold pendingOf; simpl; [by rewrite E|by rewrite E|by destruct initial]. }
  destruct O as [O E]. destruct (stream_run evs _ O) as ([S1 S2 S3] & P & A). rewrite E in P. by split_and!.
Qed.
End stream.

(** ** Examples *)
Module AddrExample.
Definition peer : PeerID := [Byte.x01].
Definition addr (n : Byte.byte) : Multiaddr := [mkComponent [Byte.x04; Byte.x0a; Byte.x00; Byte.x00; n] None 1].
Definition book0 (maxU : Z) : memoryAddrBook unit := NewAddrBook maxU 10.
(** We connect to a peer, and disconnect: the address is kept for another 900 time units. *)
Definition connected : list (@bookOp unit) := [OpAdd 0 peer [addr Byte.x01] ConnectedAddrTTL].
Definition disconnected : list (@bookOp unit) := connected ++ [OpUpdate 5 peer ConnectedAddrTTL 900].
Definition run (maxU : Z) (ops : list bookOp) : memoryAddrBook unit := foldl (bookApply elements) (book0 maxU) ops.
Lemma book_run_ok maxU ops : bookOk None (run maxU ops).
Proof. apply bookRun_ok, NewAddrBook_ok. Qed.
Lemma disconnected_state : expiringHeap (addrs (run 10 disconnected)) = []
  /\ entry (addrs (run 10 disconnected)) (peer, Bytes (addr Byte.x01)) = Some (mkEA (addr Byte.x01) 900 905).
Proof. by vm_compute. Qed.
End AddrExample.
Import AddrExample.

(** An address whose time to live is lowered from that of a connection does not get into the heap: no collection ever
    removes it, although it expires. *)
Lemma downgraded_never_collected now : let k := (peer, Bytes (addr Byte.x01)) in
  entry (addrs (gcBook (run 10 disconnected) now)) k = Some (mkEA (addr Byte.x01) 900 905)
  /\ ExpiredBy (mkEA (addr Byte.x01) 900 905) 905 = true.
Proof.
  destruct disconnected_state as [Hh He]. intros k. split; [|done]. rewrite gc_keeps; [exact He|apply book_run_ok|]. rewrite Hh. apply not_elem_of_nil.
Qed.
(** The limit is looked at once for a list of addresses. *)
Lemma batch_exceeds_limit : let b := run 1 [OpAdd 0 peer [addr Byte.x01; addr Byte.x02; addr Byte.x03] 100] in
  maxUnconnectedAddrs b = 1 /\ NumUnconnectedAddrs (addrs b) = 3.
Proof. by vm_compute. Qed.

(** An address that is published twice, and one that the stream starts with *)
Lemma addr_stream_once_witness : st_out (foldl streamStep (startStream [addr Byte.x01]) [Publish (addr Byte.x02); Deliver; Publish (addr Byte.x01); Publish (addr Byte.x02); Deliver; Deliver])
    = [addr Byte.x01; addr Byte.x02]
  /\ NoDup (Bytes <$> (st_out (foldl streamStep (startStream [addr Byte.x01]) [Publish (addr Byte.x02); Deliver]) ++ pendingOf (foldl streamStep (startStream [addr Byte.x01]) [Publish (addr Byte.x02); Deliver]))).
Proof.
  split; [by vm_compute|]. refine (proj1 (addr_stream_once [addr Byte.x01] [Publish (addr Byte.x02); Deliver] _)). apply NoDup_singleton.
Defined.
